(* ===== verification/_CoqProject ===== *)
-Q . S2P
Prelude.v
Int64.v
IndexInterval.v
Transform.v
PropagateBounds.v
TransformArray.v
ComposeTransforms.v
ComposeInvariant.v
IndexDomains.v
InverseTransform.v
TransformOps.v
Dimensions.v
DimensionOps.v
Bytes.v
Generation.v
KeyRange.v
ByteRange.v
MemoryStore.v
TransactionPhases.v
TransactionSpec.v
TransactionMoves.v
TransactionWrites.v
TransactionDeletes.v
TransactionTheorems.v
MemoryCommit.v
MemoryWriteback.v
TransactionFlags.v
MemoryTransaction.v
LinkedList.v
AdmissionQueue.v
CachePool.v
GridPartition.v
GridSets.v
GridArrays.v
GridBuckets.v
GridUpdate.v
GridCells.v
GridTransform.v
GridIterator.v
GridOdometer.v
GridRuns.v
GridIteration.v
GridVisits.v
GridTheorems.v
IrregularGrid.v
StackDriver.v
StackGrid.v
StackCorrect.v
StackTheorems.v
BoxDifference.v
Resize.v
ResizeCells.v
ResizePropagate.v
ResizeTheorems.v
RedBlackTree.v
RedBlackCells.v
RedBlackInsert.v
RedBlackRemove.v
RedBlackJoin.v
Uint64Sharded.v
ShardFormat.v
ShardKeys.v
ShardIndexed.v
