(* ===== verification/Prelude.v ===== *)
(** TensorStore, verified in part: index transforms, keys and generations of the
    key-value store, the partition of transforms over chunk grids, sharded storage formats,
    and the containers, queues and caches below them.

    TensorStore (src/tensorstore/) is a C++ library for reading and writing large
    multi-dimensional arrays.  An array is addressed through an _index transform_, which
    maps the index vectors of a domain to index vectors of the stored array; drivers cut
    the stored array into chunks, and chunks are values of a _key-value store_, whose
    writes are guarded by _storage generations_ and which may pack many chunks into one
    _shard_ file.  In between sit caches and rate limiters, which decide what is kept in
    memory and how many operations run at once.

    The development models the parts of this that are pure or sequential enough to have a
    precise meaning, from the source, and proves what makes them correct.  A C++ integer
    is a [Z] with its wrap-around written out; a [Result] is a value or a status code;
    a loop with early returns is a [foldM]; pointers into a shared structure are addresses
    of a store that is passed along.

    * Layers and files

    Arithmetic.  [Int64] has the 64- and 32-bit integers, the overflow predicates of
    internal/integer_overflow.h in the two variants that are compiled, and util/division.h.
    [IndexInterval] has index_interval.{h,cc}: intervals with infinite and implicit bounds,
    their affine images and preimages, and strided slices.

    Index transforms (index_space/ and index_space/internal/).  [Transform] has the data
    type of transform_rep.h, its well-formedness and the evaluation of an index vector.
    [PropagateBounds] has propagate_bounds.cc; [TransformArray] has the views and copies of
    transform_array.cc and iterate.cc and promises, in the class [ArrayTransformerLaws],
    what [ComposeTransforms] (compose_transforms.cc) relies on; [ComposeInvariant] shows that
    composition keeps the invariants of transforms; [InverseTransform] has
    inverse_transform.cc.  [IndexDomains] has the merging, hull, intersection and constraining of
    index domains of index_transform.cc and, of stack/driver.cc, what the stack driver makes of the
    domains and dimension units of its layers.  [TransformOps] has translation, interval slices, strides, labels
    and implicit marks; [Dimensions] has the selection of dimensions by index, label or
    range and the permutations; [DimensionOps] has transposition, single-index slices, new
    dimensions and diagonals.

    Chunk grids (internal/).  [GridPartition] has grid_partition_impl.{h,cc} and
    regular_grid.h: the connected sets of grid and input dimensions of a transform, the
    sorting of the positions of an index array set by grid cell, the binary search for a
    cell and the transform of a cell.  It is the detailed model; the proofs are in
    [GridSets] (dimension and connected sets), [GridArrays] (positions and columns of
    output indices), [GridBuckets] (the counting sort and the binary search), [GridUpdate]
    (the cell transform as a sequence of updates of its dimensions), [GridCells] (what the
    data of a prepared partition means) and [GridTransform] (the class [GridLaws], which a
    grid promises to its partition, and the transform of a cell).  [GridIterator] has the
    iterator over the cells, grid_partition_iterator.{h,cc}, and the loop of its callers; its
    proofs are in [GridOdometer] (counting through vectors in lexicographic order), [GridRuns]
    (the positions of a connected set and their cells), [GridIteration] (the invariant of the
    iterator) and [GridVisits] (the cells that are visited).  [GridTheorems] puts them
    together.  [IrregularGrid] has irregular_grid.{h,cc}, a second grid with the laws of
    [GridLaws].

    Drivers (driver/).  [StackDriver] has the dispatch of requests of stack/driver.cc, a client
    of the iterator on an irregular grid and of composition; [StackGrid] (cells and layers),
    [StackCorrect] (the loop over the cells) and [StackTheorems] have its proofs.  [Resize] has
    the resizing of chunked arrays: the propagation of a request from a view in
    index_space/index_transform.cc, and its validation, the deletion of chunks and the update of
    the metadata in kvs_backed_chunk_driver.cc, over the class [ChunkedDataCache] of what the
    metadata provides, with the zarr driver as its instance.  [BoxDifference] has
    internal/box_difference.cc, which it uses; [ResizeCells] (chunks and bounds),
    [ResizePropagate] (views) and [ResizeTheorems] have the proofs.

    Key-value store (kvstore/).  [Bytes] has byte strings in their order and the endian
    loads and stores of util/endian.h.  [Generation] has generation.{h,cc}: the byte-level
    encoding of a stack of uncommitted mutations.  [KeyRange] has key_range.{h,cc};
    [ByteRange] has byte_range.{h,cc}.  [MemoryStore] has memory/memory_key_value_store.cc, a
    store that uses all of them: an ordered map of values with generation numbers.
    [TransactionPhases] has the mutations that a transaction stages before it commits,
    transaction.{h,cc}: for every phase a tree of read-modify-write entries and deleted ranges.
    [TransactionSpec] has what they mean for a key and their invariant; [TransactionMoves]
    (entries that move to the trees of their phases), [TransactionWrites] (read-modify-writes),
    [TransactionDeletes] (deletions) and [TransactionTheorems] have the proofs.  [MemoryCommit]
    has the writeback of a phase, with the counters of outstanding entries and the answers of sources as events,
    and the atomic commit on the memory store; [MemoryWriteback] has the proofs about the counters and the
    events in any order, [TransactionFlags] about the flag [kError], and [MemoryTransaction] the others.

    Sharded formats.  [Uint64Sharded] and [ShardFormat] have kvstore/
    neuroglancer_uint64_sharded/: hashing, shard numbers, the encoder with its state and the
    decoder.  [ShardKeys] and [ShardIndexed] have kvstore/zarr3_sharding_indexed/: keys and
    entry ids, and shards with an index at either end.

    Concurrency.  [LinkedList] has the intrusive lists of internal/container/, over any
    store that satisfies the List Accessor concept (a class with laws); [AdmissionQueue] has
    internal/rate_limiter/admission_queue.{h,cc} on top of it, cut into atomic steps at the
    mutex operations.  [CachePool] has the caches of internal/cache/cache.{h,cc}: a
    store of pools, caches, entries and weak states by address, the operations on their
    reference counts, the lookup of caches and entries, and eviction from the
    least-recently-used queue, again on top of the intrusive lists.  [RedBlackTree] has
    internal/container/intrusive_red_black_tree.{h,cc}, the trees that hold the staged
    mutations of transactions, with all operations on a store of nodes; [RedBlackCells],
    [RedBlackInsert], [RedBlackRemove] and [RedBlackJoin] have their proofs.

    * What the theorems show

    The functional theorems of the index transforms all have one form: the operation
    succeeds exactly under the stated conditions, and for every index vector that the new
    transform admits, its outputs are the outputs of the old one at the index vector that
    the operation means.  Composition is a refinement of the composition of the two
    evaluations, inversion a round trip, for domains without dimensions that are both empty and
    partly implicit; bounds propagation loses no index whose outputs the given bounds admit, keeps
    dimensions with explicit bounds, and accepts no other index when the two implicit marks of
    every dimension agree.  The intervals below them are characterised by the
    indices they contain: affine preimages are exact, affine images are tight, slices
    select exactly the positions of the slice.

    The partition of a transform over a grid is correct cell by cell: the transform of a
    cell that is reached is a one-to-one map from its domain to exactly the positions that
    the transform maps to the cell.  The iterator visits exactly the cells that are reached,
    each once, and its transform, which it modifies in place, is there the one that was made
    for the cell alone.  Below it, the grid dimensions of a connected set are linked by chains of common input dimensions and no
    grid dimension is in two sets,
    and the counting sort and the binary search meet their usual specifications.

    The stack driver dispatches every position of a request once, to the last layer that
    contains it, with a transform that reads the layer at the right index: this puts the
    iterator, the irregular grid and composition together.  Resizing deletes no chunk that
    holds an index of the new bounds, also when other clients resize in between, and leaves no
    chunk that is out of bounds; a request on a view only affects positions that the view
    addresses.  The boxes of a box difference partition it.

    The combined domain of the layers of a stack contains them and nothing more than it must, up to the bounds that
    its schema sets.

    The memory key-value store refines a map from keys to versions.  Of the staged mutations of a
    transaction, the tree of the last phase shows for every key the last operation on it, in
    whatever phase, and when the commit separates the phases the tree of each says for every key
    what the operations of that phase do, superseded ones included, which are still validated.
    The commit of a phase on the memory store begins when all sources have answered, in whatever order, and
    does this to the store or, after an error or if a condition does not hold, nothing; every source is told once how
    it ended, and a condition that does not hold starts another round for the keys concerned.

    Storage generations refine an abstract stack of mutations; allocated mutation ids are
    distinct under every interleaving.  Key ranges and byte ranges are characterised by the
    keys and bytes they stand for.  For both shard formats, decoding what was encoded gives
    back the entries, for every encoding of the indices, and decoding arbitrary bytes never
    leaves the shard: it reports data loss or returns well-formed, sorted entries.  The
    admission queue never exceeds its limit, is first-in first-out, reads no null pointer,
    loses no wakeup and can always drain.  Eviction from the cache pool
    terminates, takes the shortest prefix of the queue that is enough, deletes exactly the
    entries without references and only caches that nobody needs, and accesses no deleted
    object; releasing the last reference to an entry makes it the last to be evicted.
    The operations on red-black trees refine operations on sequences of nodes: insertion,
    removal, joining and splitting keep the order and the red-black invariants, read no null
    pointer and leave other nodes alone; searches find the node or the place for it.

    Where the code does something else than it means to, a lemma shows a concrete input; the
    theorem then states the condition under which the code is right.

    * Bounds, fuel and parameters

    Recursion is structural with these exceptions: the binary search of [Uint64Sharded], whose
    fuel is the length of the list (the interval halves in every step), the eviction loop
    of [CachePool], whose fuel is one more than the number of list nodes (every iteration
    takes a node off the queue), the loops of [RedBlackTree], whose fuel is one more than
    the number of nodes in the store (they follow a path of a tree), and loops of
    [GridPartition]: that over connected sets has one more than the number of grid dimensions
    (every set takes one), that over the indices of a dimension as many as there are indices,
    and the binary search one more than the number of partitions; the loop over the iterator of
    [GridIterator], whose fuel is one more than the product of the numbers of positions of the
    connected sets (every step advances to another tuple of positions), as has the loop of
    [StackDriver] over the same iterator; their
    specifications show that it suffices.  Integers are
    exact: a hypothesis such as a size of at most [i64_max] is there where the code adds
    sizes or offsets in 64 bits.

    Parameters are the code outside the repository: the class [Zlib] of [ShardFormat]
    (compression, with its inverse law) and the prepared codecs of [ShardIndexed] (a record
    of functions with the laws [codec_laws]); each has a concrete instance in its file.  The
    hash of strings that picks the shard of a cache (absl::Hash) is an arbitrary function.
    Code of the repository that is reached through virtual calls is a parameter as well: the
    drivers of the layers of a stack and their opening, the metadata of a chunked array (with
    the documented laws [ChunkedDataCacheLaws] and an instance), and what other clients do to a
    stored array between two steps of a resize.
    The memory behind an array pointer is a function from byte offsets to elements.

    * Not modelled

    Asynchrony (futures, executors, the drivers and chunk caches that only order callbacks),
    interleavings of threads inside the operations of the cache pool,
    network and file input and output, JSON binding and printing, Python bindings, and the
    wrappers of third-party codecs.  Of the modelled files, printing, hashing of values and
    status messages are left out; reference counts of shared representations are invisible
    in a functional model.  Of the chunk grids, the ranges of grid cells of grid_partition.cc are
    left out; of the drivers, their opening, their specs and their metadata in JSON.  The
    B+tree format of OCDBT is left out as well, since its nodes are encoded through a third-party
    reader and writer, and so is the state machine of transactions, with the way of a writeback request
    through a sequence of read-modify-write entries to its sources, whose steps are callbacks under locks of several
    objects.

    * This file

    Shared vocabulary of the development: status codes and the [Result] monad
    (tensorstore/util/result.h as the code uses it), the tactics that the
    component files share, and generic lemmas on integers and lists. *)

From Stdlib Require Export ZArith Lia.
From stdpp Require Export base list numbers option.
Export stdpp.list_basics.list stdpp.list_relations.list stdpp.list_misc.list
  stdpp.list_monad.list stdpp.list_numbers.list.

#[global] Open Scope Z_scope.

(** * Results

    [absl::Status] and [Result<T>]: a value or an error.  Only the code of an
    error is kept; messages and payloads are diagnostics.  The last five
    are not statuses: [NullDereference] marks the runs in which the code reads
    through a null pointer, [OutOfBounds] those in which it accesses an array
    outside its bounds, [AllocationFailure] those in which it throws
    [std::bad_alloc], [UseAfterFree] those in which it accesses an object that was
    deleted, [OutOfFuel] those that the fuel of the model cuts off. *)

Inductive StatusCode :=
| kInvalidArgument
| kOutOfRange
| kFailedPrecondition
| kDataLoss
| kNotFound
| kUnimplemented
| kAborted
| NullDereference
| OutOfBounds
| AllocationFailure
| UseAfterFree
| OutOfFuel.

#[export] Instance StatusCode_eq_dec : EqDecision StatusCode.
Proof. solve_decision. Defined.

Inductive Result (A : Type) :=
| Ok (a : A)
| Err (code : StatusCode).
Arguments Ok {A} a.
Arguments Err {A} code.

#[export] Instance Result_ret : MRet Result := fun A a => Ok a.
#[export] Instance Result_bind : MBind Result :=
  fun A B f m => match m with Ok a => f a | Err e => Err e end.
#[export] Instance Result_fmap : FMap Result :=
  fun A B f m => match m with Ok a => Ok (f a) | Err e => Err e end.

#[export] Instance Result_eq_dec {A} `{EqDecision A} : EqDecision (Result A).
Proof. solve_decision. Defined.

Definition is_ok {A} (r : Result A) : bool :=
  match r with Ok _ => true | Err _ => false end.

(** [TENSORSTORE_RETURN_IF_ERROR]-style guard: continue only when [b]. *)
Definition require (b : bool) (code : StatusCode) : Result unit :=
  if b then Ok tt else Err code.

(** An access to an array, inside its bounds. *)
Definition checked_at {A} (l : list A) (i : nat) : Result A :=
  match l !! i with Some x => Ok x | None => Err OutOfBounds end.

(** Loop over the elements of a list with an accumulator, stopping at the first
    error: the shape of every [for] loop with an early error return. *)
Fixpoint foldM {A S} (f : S -> A -> Result S) (s : S) (l : list A) : Result S :=
  match l with
  | [] => Ok s
  | x :: l => s' ← f s x; foldM f s' l
  end.

(** [mapM] for [Result], left to right. *)
Fixpoint mapR {A B} (f : A -> Result B) (l : list A) : Result (list B) :=
  match l with
  | [] => Ok []
  | x :: l => y ← f x; ys ← mapR f l; Ok (y :: ys)
  end.

(** * Tactics *)

(** Split the hypotheses and the goal on boolean conjunctions, comparisons. *)
Ltac bool_to_prop :=
  repeat match goal with
  | H : andb _ _ = true |- _ => apply andb_true_iff in H as [? ?]
  | H : orb _ _ = false |- _ => apply orb_false_iff in H as [? ?]
  | H : negb _ = true |- _ => apply negb_true_iff in H
  | H : negb _ = false |- _ => apply negb_false_iff in H
  | H : (_ <=? _) = true |- _ => apply Z.leb_le in H
  | H : (_ <=? _) = false |- _ => apply Z.leb_gt in H
  | H : (_ <? _) = true |- _ => apply Z.ltb_lt in H
  | H : (_ <? _) = false |- _ => apply Z.ltb_ge in H
  | H : (_ =? _) = true |- _ => apply Z.eqb_eq in H
  | H : (_ =? _) = false |- _ => apply Z.eqb_neq in H
  end.

(** Evaluate the comparisons of the goal that the hypotheses decide. *)
Ltac decide_comparisons :=
  repeat match goal with
  | |- context [?a <? ?b] =>
      first [rewrite (proj2 (Z.ltb_lt a b)) by lia | rewrite (proj2 (Z.ltb_ge a b)) by lia]
  | |- context [?a <=? ?b] =>
      first [rewrite (proj2 (Z.leb_le a b)) by lia | rewrite (proj2 (Z.leb_gt a b)) by lia]
  | |- context [?a =? ?b] =>
      first [rewrite (proj2 (Z.eqb_eq a b)) by lia | rewrite (proj2 (Z.eqb_neq a b)) by lia]
  end; cbn [andb orb negb].

(** Destruct the scrutinee of the first [match]/[if] of the goal. *)
Ltac case_if :=
  match goal with
  | |- context [if ?b then _ else _] => destruct b eqn:?
  end.

(** Invert equations between [Result] values. *)
Ltac inv_result :=
  repeat match goal with
  | H : Ok _ = Ok _ |- _ => injection H as H
  | H : Ok _ = Err _ |- _ => discriminate H
  | H : Err _ = Ok _ |- _ => discriminate H
  | H : mbind _ _ = Ok _ |- _ =>
      unfold mbind, Result_bind in H;
      match type of H with
      | match ?m with _ => _ end = _ => destruct m eqn:?; [|discriminate H]
      end
  | H : require ?b _ = Ok _ |- _ =>
      unfold require in H; destruct b eqn:?; [clear H | discriminate H]
  | H : (if ?b then Err _ else _) = Ok _ |- _ =>
      destruct b eqn:?; [discriminate H|]
  | H : (if ?b then _ else Err _) = Ok _ |- _ =>
      destruct b eqn:?; [|discriminate H]
  end.

(** * Result lemmas *)

Lemma checked_at_Some {A} (l : list A) i x : l !! i = Some x -> checked_at l i = Ok x.
Proof. unfold checked_at. intros ->. reflexivity. Qed.

(** Binding a value, as an equation: the rest of the computation is not evaluated. *)
Lemma Ok_bind {A B} (x : A) (F : A -> Result B) : (x ← Ok x; F x) = F x.
Proof. reflexivity. Qed.

Lemma bind_Ok {A B} (m : Result A) (f : A -> Result B) b :
  (m ≫= f) = Ok b <-> exists a, m = Ok a /\ f a = Ok b.
Proof.
  unfold mbind, Result_bind. destruct m as [a|e]; split.
  - eauto.
  - intros (a' & [= <-] & H); exact H.
  - discriminate.
  - intros (a' & [=] & _).
Qed.

Lemma foldM_app {A S} (f : S -> A -> Result S) s l1 l2 :
  foldM f s (l1 ++ l2) = (s' ← foldM f s l1; foldM f s' l2).
Proof.
  revert s; induction l1 as [|x l1 IH]; intros s; [reflexivity|]; cbn.
  unfold mbind, Result_bind at 1 3. destruct (f s x); [apply IH|reflexivity].
Qed.

(** Invariant rule for [foldM]. *)
Lemma foldM_inv {A S} (f : S -> A -> Result S) (P : S -> Prop) l s s' :
  P s -> (forall s x s', x ∈ l -> P s -> f s x = Ok s' -> P s') ->
  foldM f s l = Ok s' -> P s'.
Proof.
  revert s; induction l as [|x l IH]; intros s Hs Hstep; cbn.
  - intros [= <-]; exact Hs.
  - intros (s1 & E1 & E2)%bind_Ok.
    eapply (IH s1); [| |exact E2].
    + eapply Hstep; [apply list_elem_of_here|exact Hs|exact E1].
    + intros; eapply Hstep; [apply list_elem_of_further|..]; eassumption.
Qed.

(** Loop-invariant rule that knows the processed prefix. *)
Lemma foldM_prefix {A S} (f : S -> A -> Result S) (P : list A -> S -> Prop) l s s' :
  P [] s ->
  (forall pre x s1 s2, x ∈ l -> P pre s1 -> f s1 x = Ok s2 -> P (pre ++ [x]) s2) ->
  foldM f s l = Ok s' -> P l s'.
Proof.
  intros Hs Hstep. rewrite <- (app_nil_l l) at 2. revert Hs. generalize (@nil A) as pre.
  revert s Hstep. induction l as [|x l IH]; intros s Hstep pre Hs; cbn.
  - intros [= <-]. rewrite app_nil_r. exact Hs.
  - intros (s1 & E1 & E2)%bind_Ok.
    rewrite cons_middle, app_assoc. apply (IH s1); [|  |exact E2].
    + intros pre' y s2 s3 Hy. apply Hstep, list_elem_of_further, Hy.
    + eapply Hstep; [apply list_elem_of_here|exact Hs|exact E1].
Qed.

Lemma mapR_Ok {A B} (f : A -> Result B) l ys :
  mapR f l = Ok ys <-> Forall2 (fun x y => f x = Ok y) l ys.
Proof.
  revert ys; induction l as [|x l IH]; intros ys; cbn.
  - split; [intros [= <-]; constructor | inversion 1; reflexivity].
  - rewrite bind_Ok; split.
    + intros (y & E & (ys' & E2 & [= <-])%bind_Ok).
      constructor; [exact E|apply IH, E2].
    + inversion 1 as [|? y ? ys' E E2]; subst. exists y; split; [exact E|].
      apply bind_Ok. exists ys'; split; [apply IH, E2|reflexivity].
Qed.

Lemma mapR_length {A B} (f : A -> Result B) l ys :
  mapR f l = Ok ys -> length ys = length l.
Proof. intros H%mapR_Ok. symmetry. eapply Forall2_length, H. Qed.

(** A loop over [a, a + 1, ...] whose state is known at every index. *)
Lemma foldM_seqZ {S} (f : S -> Z -> Result S) (g : Z -> S) a n :
  (forall i, a <= i < a + n -> f (g i) i = Ok (g (i + 1))) -> 0 <= n ->
  foldM f (g a) (seqZ a n) = Ok (g (a + n)).
Proof.
  intros Hf Hn. remember (Z.to_nat n) as k eqn:Ek. revert a n Hn Ek Hf.
  induction k as [|k IH]; intros a n Hn Ek Hf.
  - replace n with 0 by lia. rewrite Z.add_0_r. reflexivity.
  - rewrite seqZ_cons by lia. cbn [foldM]. rewrite Hf by lia.
    unfold mbind, Result_bind. change (Z.succ a) with (a + 1).
    rewrite IH; [f_equal; f_equal; lia|lia|lia|]. intros i Hi. apply Hf. lia.
Qed.

(** * Integer lemmas *)

Lemma div_le_lower a b q : 0 < b -> q <= a / b <-> q * b <= a.
Proof.
  intros Hb; split; intros H.
  - pose proof (Z.mul_div_le a b Hb). nia.
  - apply Z.div_le_lower_bound; lia.
Qed.

(** Ceiling division characterised by [-((-a) / b)]. *)
Lemma ceil_le a b q : 0 < b -> - ((- a) / b) <= q <-> a <= q * b.
Proof. intros Hb. pose proof (div_le_lower (-a) b (-q) Hb). nia. Qed.

(** * Arrays filled in position by position *)

(** The assignments [l[k] = v], in order. *)
Definition assign {A} (l : list A) (kvs : list (nat * A)) : list A :=
  foldl (fun l p => <[p.1 := p.2]> l) l kvs.

Lemma length_assign {A} (l : list A) kvs : length (assign l kvs) = length l.
Proof.
  unfold assign. revert l; induction kvs as [|[k v] kvs IH]; intros l; cbn; [reflexivity|].
  rewrite IH, length_insert. reflexivity.
Qed.

Lemma assign_other {A} (l : list A) kvs k : k ∉ kvs.*1 -> assign l kvs !! k = l !! k.
Proof.
  unfold assign. revert l; induction kvs as [|[k' v] kvs IH]; intros l H; cbn; [reflexivity|].
  apply not_elem_of_cons in H as [Hne H]. rewrite IH by exact H.
  apply list_lookup_insert_ne. cbn in Hne. congruence.
Qed.

Lemma assign_at {A} (l : list A) kvs k v :
  NoDup kvs.*1 -> (k, v) ∈ kvs -> (k < length l)%nat -> assign l kvs !! k = Some v.
Proof.
  unfold assign. revert l; induction kvs as [|[k' v'] kvs IH]; intros l Hn H Hl;
    [destruct (not_elem_of_nil _ H)|].
  cbn in *. apply NoDup_cons in Hn as [Hk Hn].
  apply elem_of_cons in H as [[= <- <-]|H].
  - change (assign (<[k:=v]> l) kvs !! k = Some v). rewrite assign_other by exact Hk.
    apply list_lookup_insert_eq, Hl.
  - apply IH; [exact Hn|exact H|rewrite length_insert; exact Hl].
Qed.

(** The assignments [l[f i] = g i] for [i = 0, 1, ...]. *)
Lemma assign_zip_at {A} (l : list A) ks vs i k v :
  NoDup ks -> ks !! i = Some k -> vs !! i = Some v -> length vs = length ks ->
  (k < length l)%nat -> assign l (zip ks vs) !! k = Some v.
Proof.
  intros Hn Hk Hv Hl Hlt. apply assign_at; [rewrite fst_zip by lia; exact Hn| |exact Hlt].
  apply list_elem_of_lookup_2 with i. apply lookup_zip_Some. auto.
Qed.
