(* ===== verification/Int64.v ===== *)
(** Machine integers: [tensorstore/index.h], [internal/integer_overflow.h] and
    [util/division.h].

    An [int64_t] is a [Z] in [[-2^63, 2^63)]; the plain operators of the code
    that act on [Index] values are the wrapped operators below, so a result that
    would overflow is not silently the mathematical one. *)

From S2P Require Import Prelude.

(** * Two's complement *)

Definition i64_min : Z := -9223372036854775808.
Definition i64_max : Z := 9223372036854775807.
Definition u64_modulus : Z := 18446744073709551616.
Definition u32_modulus : Z := 4294967296.

Definition in_i64 (z : Z) : Prop := i64_min <= z <= i64_max.
Definition in_u64 (z : Z) : Prop := 0 <= z < u64_modulus.

Definition in_i64b (z : Z) : bool := (i64_min <=? z) && (z <=? i64_max).

(** Conversion of an integer to [int64_t] and to the unsigned types. *)
Definition wrap64 (z : Z) : Z :=
  (z + 9223372036854775808) mod u64_modulus - 9223372036854775808.
Definition u64 (z : Z) : Z := z mod u64_modulus.
Definition u32 (z : Z) : Z := z mod u32_modulus.

Declare Scope i64_scope.
Delimit Scope i64_scope with i64.
Notation "a + b" := (wrap64 (Z.add a b)) : i64_scope.
Notation "a - b" := (wrap64 (Z.sub a b)) : i64_scope.
Notation "a * b" := (wrap64 (Z.mul a b)) : i64_scope.
Notation "- a" := (wrap64 (Z.opp a)) : i64_scope.

(** * index.h *)

Definition kMinFiniteIndex : Z := -4611686018427387902.
Definition kInfIndex : Z := 4611686018427387903.
Definition kMaxFiniteIndex : Z := 4611686018427387902.
Definition kInfSize : Z := 9223372036854775807.
Definition kMaxFiniteSize : Z := 9223372036854775805.
Definition kImplicit : Z := -9223372036854775808.

(** * integer_overflow.h *)

Module wrap_on_overflow.

Definition Add (a b : Z) : Z := wrap64 (u64 (u64 a + u64 b)).
Definition Subtract (a b : Z) : Z := wrap64 (u64 (u64 a - u64 b)).
Definition Multiply (a b : Z) : Z := wrap64 (u64 (u64 a * u64 b)).

(** [InnerProduct<Index>(n, a, b)]; the two arrays have the same length [n]. *)
Fixpoint InnerProduct_from (sum : Z) (a b : list Z) : Z :=
  match a, b with
  | x :: a, y :: b => InnerProduct_from (Add sum (Multiply x y)) a b
  | _, _ => sum
  end.

Definition InnerProduct (a b : list Z) : Z := InnerProduct_from 0 a b.

End wrap_on_overflow.

(** The overflow predicates return the flag together with the stored value.
    [__builtin_add_overflow] and its siblings store the wrapped result and
    report whether it differs from the exact one. *)
Definition AddOverflow (a b : Z) : bool * Z :=
  (negb (in_i64b (a + b)), wrap64 (a + b)).
Definition SubOverflow (a b : Z) : bool * Z :=
  (negb (in_i64b (a - b)), wrap64 (a - b)).
Definition MulOverflow (a b : Z) : bool * Z :=
  (negb (in_i64b (a * b)), wrap64 (a * b)).

(** The branches compiled where the builtins are missing ([_MSC_VER] without
    clang). *)
Definition AddOverflow_fallback (a b : Z) : bool * Z :=
  (((a >? 0) && (b >? (i64_max - a)%i64))
   || ((a <? 0) && (b <? (i64_min - a)%i64)),
   wrap_on_overflow.Add a b).
Definition SubOverflow_fallback (a b : Z) : bool * Z :=
  (((b <? 0) && (a >? (i64_max + b)%i64))
   || ((b >? 0) && (a <? (i64_min + b)%i64)),
   wrap_on_overflow.Subtract a b).
(** [r / b] truncates; [INT64_MIN / -1] overflows and is left as the wrapped
    quotient. *)
Definition MulOverflow_fallback (a b : Z) : bool * Z :=
  let r := wrap_on_overflow.Multiply a b in
  (negb (b =? 0) && negb (wrap64 (Z.quot r b) =? a), r).

Definition AddSaturate (a b : Z) : Z :=
  let '(overflow, result) := AddOverflow a b in
  if overflow then (if b >=? 0 then i64_max else i64_min) else result.

(** * division.h *)

Definition RoundUpTo (input rounding_value : Z) : Z :=
  let remainder := Z.rem input rounding_value in
  if remainder =? 0 then input
  else (input + (rounding_value - remainder)%i64)%i64.

(** C++ [/] and [%] truncate towards zero: [Z.quot] and [Z.rem]. *)
Definition CeilOrFloorOfRatio (ceil : bool) (numerator denominator : Z) : Z :=
  let rounded_toward_zero := Z.quot numerator denominator in
  let intermediate_product := (rounded_toward_zero * denominator)%i64 in
  if ceil then
    let needs_adjustment :=
      (rounded_toward_zero >=? 0) &&
      (((denominator >? 0) && (numerator >? intermediate_product)) ||
       ((denominator <? 0) && (numerator <? intermediate_product))) in
    (rounded_toward_zero + Z.b2z needs_adjustment)%i64
  else
    let needs_adjustment :=
      (rounded_toward_zero <=? 0) &&
      (((denominator >? 0) && (numerator <? intermediate_product)) ||
       ((denominator <? 0) && (numerator >? intermediate_product))) in
    (rounded_toward_zero - Z.b2z needs_adjustment)%i64.

Definition CeilOfRatio (numerator denominator : Z) : Z :=
  CeilOrFloorOfRatio true numerator denominator.
Definition FloorOfRatio (numerator denominator : Z) : Z :=
  CeilOrFloorOfRatio false numerator denominator.

Definition NonnegativeMod (numerator denominator : Z) : Z :=
  let modulus := Z.rem numerator denominator in
  (modulus + (Z.b2z (modulus <? 0) * denominator)%i64)%i64.

(** The unsigned negation of a negative argument is its absolute value, also for
    [INT64_MIN]; [std::gcd] is the greatest common divisor of the unsigned
    values and the cast back is [wrap64]. *)
Definition GreatestCommonDivisor (x y : Z) : Z :=
  let ux := if x <? 0 then u64 (- u64 x) else u64 x in
  let uy := if y <? 0 then u64 (- u64 y) else u64 y in
  wrap64 (Z.gcd ux uy).

(** * Tactics for machine arithmetic *)

Ltac unfold_i64 :=
  unfold in_i64, in_u64, i64_min, i64_max, u64_modulus, u32_modulus,
    kMinFiniteIndex, kInfIndex, kMaxFiniteIndex, kInfSize, kMaxFiniteSize,
    kImplicit in *.

Ltac i64_lia := unfold_i64; lia.

Lemma wrap64_id z : in_i64 z -> wrap64 z = z.
Proof. unfold in_i64, wrap64, i64_min, i64_max, u64_modulus. intros H. rewrite Z.mod_small; lia. Qed.

(** Remove every [wrap64] whose argument is provably in range, innermost first. *)
Ltac unwrap64 :=
  repeat match goal with
  | |- context [wrap64 ?z] =>
      lazymatch z with context [wrap64 _] => fail | _ => idtac end;
      rewrite (wrap64_id z) by i64_lia
  | H : context [wrap64 ?z] |- _ =>
      lazymatch z with context [wrap64 _] => fail | _ => idtac end;
      rewrite (wrap64_id z) in H by i64_lia
  end.

Lemma wrap64_range z : in_i64 (wrap64 z).
Proof.
  unfold wrap64. unfold_i64.
  pose proof (Z.mod_pos_bound (z + 9223372036854775808) 18446744073709551616). lia.
Qed.

Lemma wrap64_mod z : wrap64 z mod u64_modulus = z mod u64_modulus.
Proof.
  unfold wrap64, u64_modulus.
  rewrite Zminus_mod_idemp_l. f_equal. lia.
Qed.

Lemma wrap64_congr a b : a mod u64_modulus = b mod u64_modulus -> wrap64 a = wrap64 b.
Proof.
  unfold wrap64. intros H. f_equal.
  rewrite (Z.add_mod a), (Z.add_mod b), H by (unfold u64_modulus; lia). reflexivity.
Qed.

Lemma wrap64_wrap64 z : wrap64 (wrap64 z) = wrap64 z.
Proof. apply wrap64_congr, wrap64_mod. Qed.

Lemma wrap64_add_l a b : wrap64 (wrap64 a + b) = wrap64 (a + b).
Proof.
  apply wrap64_congr.
  rewrite <- Zplus_mod_idemp_l, wrap64_mod, Zplus_mod_idemp_l. reflexivity.
Qed.

Lemma wrap64_add_r a b : wrap64 (a + wrap64 b) = wrap64 (a + b).
Proof. rewrite Z.add_comm, wrap64_add_l, Z.add_comm. reflexivity. Qed.

Lemma wrap64_mul_l a b : wrap64 (wrap64 a * b) = wrap64 (a * b).
Proof.
  apply wrap64_congr.
  rewrite <- Zmult_mod_idemp_l, wrap64_mod, Zmult_mod_idemp_l. reflexivity.
Qed.

Lemma wrap64_mul_r a b : wrap64 (a * wrap64 b) = wrap64 (a * b).
Proof. rewrite Z.mul_comm, wrap64_mul_l, Z.mul_comm. reflexivity. Qed.

Lemma wrap64_u64 z : wrap64 (u64 z) = wrap64 z.
Proof. apply wrap64_congr. unfold u64. rewrite Zmod_mod. reflexivity. Qed.

Create HintDb i64.
Create Rewrite HintDb i64_wrap.
#[export] Hint Resolve wrap64_range : i64.
#[export] Hint Rewrite wrap64_wrap64 wrap64_add_l wrap64_add_r wrap64_mul_l
  wrap64_mul_r wrap64_u64 : i64_wrap.

(** * The wrapping operators agree with the unsigned detour of the code *)

Lemma wrap_Add a b : wrap_on_overflow.Add a b = (a + b)%i64.
Proof.
  unfold wrap_on_overflow.Add. rewrite wrap64_u64. apply wrap64_congr. unfold u64.
  rewrite <- Z.add_mod by (unfold u64_modulus; lia). reflexivity.
Qed.

Lemma wrap_Subtract a b : wrap_on_overflow.Subtract a b = (a - b)%i64.
Proof.
  unfold wrap_on_overflow.Subtract. rewrite wrap64_u64. apply wrap64_congr. unfold u64.
  rewrite <- Zminus_mod by (unfold u64_modulus; lia). reflexivity.
Qed.

Lemma wrap_Multiply a b : wrap_on_overflow.Multiply a b = (a * b)%i64.
Proof.
  unfold wrap_on_overflow.Multiply. rewrite wrap64_u64. apply wrap64_congr. unfold u64.
  rewrite <- Z.mul_mod by (unfold u64_modulus; lia). reflexivity.
Qed.

(** * Overflow predicates *)

Lemma in_i64b_spec z : in_i64b z = true <-> in_i64 z.
Proof. unfold in_i64b, in_i64. rewrite andb_true_iff, !Z.leb_le. reflexivity. Qed.

(** The exact result, when there is no overflow. *)
Lemma AddOverflow_false a b r :
  AddOverflow a b = (false, r) -> r = a + b /\ in_i64 (a + b).
Proof.
  unfold AddOverflow. intros [= H <-]. apply negb_false_iff, in_i64b_spec in H.
  rewrite wrap64_id by exact H. auto.
Qed.

Lemma SubOverflow_false a b r :
  SubOverflow a b = (false, r) -> r = a - b /\ in_i64 (a - b).
Proof.
  unfold SubOverflow. intros [= H <-]. apply negb_false_iff, in_i64b_spec in H.
  rewrite wrap64_id by exact H. auto.
Qed.

Lemma MulOverflow_false a b r :
  MulOverflow a b = (false, r) -> r = a * b /\ in_i64 (a * b).
Proof.
  unfold MulOverflow. intros [= H <-]. apply negb_false_iff, in_i64b_spec in H.
  rewrite wrap64_id by exact H. auto.
Qed.

Lemma AddOverflow_exact a b : in_i64 (a + b) -> AddOverflow a b = (false, a + b).
Proof.
  intros H. unfold AddOverflow. rewrite (proj2 (in_i64b_spec _) H), wrap64_id by exact H.
  reflexivity.
Qed.

Lemma SubOverflow_exact a b : in_i64 (a - b) -> SubOverflow a b = (false, a - b).
Proof.
  intros H. unfold SubOverflow. rewrite (proj2 (in_i64b_spec _) H), wrap64_id by exact H.
  reflexivity.
Qed.

Lemma MulOverflow_exact a b : in_i64 (a * b) -> MulOverflow a b = (false, a * b).
Proof.
  intros H. unfold MulOverflow. rewrite (proj2 (in_i64b_spec _) H), wrap64_id by exact H.
  reflexivity.
Qed.

(** Case analysis on an overflow check of the goal or of a hypothesis: either the
    flag is set, or the value is exact. *)
Ltac case_overflow :=
  match goal with
  | |- context [AddOverflow ?a ?b] =>
      let E := fresh "E" in
      destruct (AddOverflow a b) as [[|] ?] eqn:E;
      [|apply AddOverflow_false in E as [-> ?]]
  | |- context [SubOverflow ?a ?b] =>
      let E := fresh "E" in
      destruct (SubOverflow a b) as [[|] ?] eqn:E;
      [|apply SubOverflow_false in E as [-> ?]]
  | |- context [MulOverflow ?a ?b] =>
      let E := fresh "E" in
      destruct (MulOverflow a b) as [[|] ?] eqn:E;
      [|apply MulOverflow_false in E as [-> ?]]
  end.

(** * Division *)

Lemma quot_sign_cases n d :
  d <> 0 ->
  let q := Z.quot n d in
  n = q * d + Z.rem n d /\ Z.abs (Z.rem n d) < Z.abs d /\
  (0 <= n -> 0 <= Z.rem n d /\ 0 <= q * d) /\ (n <= 0 -> Z.rem n d <= 0 /\ q * d <= 0).
Proof.
  intros Hd q. pose proof (Z.quot_rem' n d). pose proof (Z.rem_bound_abs n d Hd).
  split; [unfold q; nia|split; [lia|split; intros Hn]].
  - pose proof (Z.mul_quot_le n d Hn Hd). unfold q.
    split; [apply Z.rem_nonneg; assumption|lia].
  - pose proof (Z.mul_quot_ge n d Hn Hd). unfold q.
    split; [apply Z.rem_nonpos; assumption|lia].
Qed.

Lemma abs_mul_le a b : b <> 0 -> Z.abs a <= Z.abs (a * b).
Proof. intros. rewrite Z.abs_mul. nia. Qed.

(** The quotient does not leave the type, except for [INT64_MIN / -1]. *)
Lemma quot_in_i64 n d :
  in_i64 n -> in_i64 d -> d <> 0 -> ~ (n = i64_min /\ d = -1) ->
  in_i64 (Z.quot n d) /\ in_i64 (Z.quot n d * d).
Proof.
  intros Hn Hd Hd0 Hmin.
  destruct (quot_sign_cases n d Hd0) as (E & Hr & Hp & Hm).
  set (q := Z.quot n d) in *. set (r := Z.rem n d) in *.
  assert (Hqd : Z.abs (q * d) <= Z.abs n) by lia.
  pose proof (abs_mul_le q d Hd0).
  unfold_i64. destruct (Z.eq_dec n (-9223372036854775808)) as [->|]; [|lia].
  assert (q * d <= 0) by lia.
  assert (q <> 9223372036854775808) by (intros ->; nia).
  lia.
Qed.

Lemma FloorOfRatio_exact n d :
  in_i64 n -> in_i64 d -> d <> 0 -> ~ (n = i64_min /\ d = -1) ->
  FloorOfRatio n d = n / d.
Proof.
  intros Hn Hd Hd0 Hmin.
  destruct (quot_in_i64 n d Hn Hd Hd0 Hmin) as [Hq Hqd].
  destruct (quot_sign_cases n d Hd0) as (E & Hr & Hp & Hm).
  unfold FloorOfRatio, CeilOrFloorOfRatio.
  set (q := Z.quot n d) in *. set (r := Z.rem n d) in *.
  rewrite (wrap64_id (q * d)) by exact Hqd.
  assert (Hdiv : forall k s, n = k * d + s -> (0 <= s < d \/ d < s <= 0) -> n / d = k).
  { intros k s Hk Hs. symmetry. apply Z.div_unique with s; [exact Hs|lia]. }
  destruct (_ && _) eqn:Hadj; cbn [Z.b2z].
  - assert (in_i64 (q - 1)).
    { assert (q <= 0) by (destruct (Z.leb_spec q 0); [assumption|discriminate]).
      pose proof (abs_mul_le q d Hd0). unfold_i64.
      destruct (Z.eq_dec q (-9223372036854775808)) as [Hq0|]; [|lia].
      rewrite Hq0 in *. assert (d = 1 \/ d = -1) as [-> | ->] by nia; lia. }
    rewrite wrap64_id by assumption. symmetry. apply (Hdiv (q - 1) (r + d)); [lia|]. lia.
  - rewrite Z.sub_0_r, wrap64_id by exact Hq. symmetry. apply (Hdiv q r); [lia|]. nia.
Qed.

Lemma CeilOfRatio_exact n d :
  in_i64 n -> in_i64 d -> d <> 0 -> ~ (n = i64_min /\ d = -1) ->
  CeilOfRatio n d = - ((- n) / d).
Proof.
  intros Hn Hd Hd0 Hmin.
  destruct (quot_in_i64 n d Hn Hd Hd0 Hmin) as [Hq Hqd].
  destruct (quot_sign_cases n d Hd0) as (E & Hr & Hp & Hm).
  unfold CeilOfRatio, CeilOrFloorOfRatio.
  set (q := Z.quot n d) in *. set (r := Z.rem n d) in *.
  rewrite (wrap64_id (q * d)) by exact Hqd.
  assert (Hdiv : forall k s, - n = - k * d + s -> (0 <= s < d \/ d < s <= 0) -> - (- n / d) = k).
  { intros k s Hk Hs. rewrite <- (Z.div_unique (-n) d (-k) s); [lia|exact Hs|lia]. }
  destruct (_ && _) eqn:Hadj; cbn [Z.b2z].
  - assert (in_i64 (q + 1)).
    { assert (0 <= q) by (destruct (Z.geb_spec q 0); [assumption|discriminate]).
      pose proof (abs_mul_le q d Hd0). unfold_i64.
      destruct (Z.eq_dec q 9223372036854775807) as [Hq0|]; [|lia].
      rewrite Hq0 in *. assert (d = 1 \/ d = -1) as [-> | ->] by nia; lia. }
    rewrite wrap64_id by assumption. symmetry. apply (Hdiv (q + 1) (d - r)); [lia|]. lia.
  - rewrite Z.add_0_r, wrap64_id by exact Hq. symmetry. apply (Hdiv q (- r)); [lia|]. nia.
Qed.

Lemma NonnegativeMod_exact n d :
  in_i64 n -> 0 < d -> in_i64 d -> NonnegativeMod n d = n mod d.
Proof.
  intros Hn Hd0 Hd. unfold NonnegativeMod.
  destruct (quot_sign_cases n d ltac:(lia)) as (E & Hr & Hp & Hm).
  set (q := Z.quot n d) in *. set (r := Z.rem n d) in *.
  destruct (r <? 0) eqn:Hs; cbn [Z.b2z]; bool_to_prop; unwrap64.
  - apply (Z.mod_unique n d (q - 1)); lia.
  - apply (Z.mod_unique n d q); lia.
Qed.

Lemma RoundUpTo_exact n d :
  0 <= n -> 0 < d -> in_i64 (n + d) ->
  RoundUpTo n d = d * (- (- n / d)).
Proof.
  intros Hn Hd Hr. unfold RoundUpTo.
  rewrite Z.rem_mod_nonneg by lia.
  pose proof (Z.mod_pos_bound n d Hd). pose proof (Z.div_mod n d ltac:(lia)).
  destruct (_ =? _) eqn:Hz; bool_to_prop.
  - rewrite Z.div_opp_l_z by lia. lia.
  - rewrite Z.div_opp_l_nz by lia. unwrap64. lia.
Qed.

Lemma u64_abs_of_i64 x : in_i64 x -> (if x <? 0 then u64 (- u64 x) else u64 x) = Z.abs x.
Proof.
  intros Hx. unfold u64. destruct (x <? 0) eqn:Hs; bool_to_prop.
  - transitivity ((- x) mod u64_modulus).
    + rewrite <- Z.sub_0_l, Zminus_mod_idemp_r. f_equal.
    + rewrite Z.mod_small; i64_lia.
  - rewrite Z.mod_small; i64_lia.
Qed.

Lemma MulOverflow_fallback_flag a b :
  in_i64 a -> in_i64 b -> ~ (a = i64_min /\ b = -1) ->
  negb (b =? 0) && negb (wrap64 (Z.quot (wrap64 (a * b)) b) =? a)
  = negb (in_i64b (a * b)).
Proof.
  intros Ha Hb Hmin. destruct (Z.eqb_spec b 0) as [->|Hb0].
  { rewrite Z.mul_0_r. reflexivity. }
  destruct (in_i64b (a * b)) eqn:Hab; cbn [negb andb].
  - apply in_i64b_spec in Hab. rewrite (wrap64_id (a * b)) by exact Hab.
    rewrite Z.quot_mul, wrap64_id, Z.eqb_refl by assumption. reflexivity.
  - apply negb_true_iff, Z.eqb_neq. intros Hq.
    pose proof (wrap64_range (a * b)) as Hr. set (r := wrap64 (a * b)) in *.
    destruct (decide (r = i64_min /\ b = -1)) as [[Hr1 Hb1]|Hrb].
    + rewrite Hr1, Hb1 in Hq. apply Hmin. split; [symmetry; exact Hq|exact Hb1].
    + destruct (quot_in_i64 r b Hr Hb Hb0 Hrb) as [Hq1 Hq2].
      rewrite wrap64_id in Hq by exact Hq1. rewrite Hq in Hq2.
      apply in_i64b_spec in Hq2. congruence.
Qed.

(** * Properties *)

(** the portable branches of [AddOverflow] and [SubOverflow] agree with the
    compiler builtins on every pair of [int64_t] values, and the portable
    [MulOverflow] agrees with the builtin on every pair except
    [(INT64_MIN, -1)]. *)
Theorem overflow_fallback_agrees a b :
  in_i64 a -> in_i64 b ->
  AddOverflow_fallback a b = AddOverflow a b /\
  SubOverflow_fallback a b = SubOverflow a b /\
  (~ (a = i64_min /\ b = -1) -> MulOverflow_fallback a b = MulOverflow a b).
Proof.
  intros Ha Hb. split; [|split].
  - unfold AddOverflow_fallback, AddOverflow. rewrite wrap_Add. f_equal.
    destruct (in_i64b (a + b)) eqn:Hab; unfold in_i64b in Hab;
      destruct (Z.ltb_spec 0 a), (Z.ltb_spec a 0); unwrap64; i64_lia.
  - unfold SubOverflow_fallback, SubOverflow. rewrite wrap_Subtract. f_equal.
    destruct (in_i64b (a - b)) eqn:Hab; unfold in_i64b in Hab;
      destruct (Z.ltb_spec 0 b), (Z.ltb_spec b 0); unwrap64; i64_lia.
  - intros Hmin. unfold MulOverflow_fallback, MulOverflow. rewrite wrap_Multiply. f_equal.
    apply MulOverflow_fallback_flag; assumption.
Qed.

Lemma overflow_fallback_agrees_witness :
  in_i64 5 /\ in_i64 i64_max /\
  AddOverflow_fallback 5 i64_max = AddOverflow 5 i64_max.
Proof.
  assert (H5 : in_i64 5) by (split; vm_compute; discriminate).
  assert (Hm : in_i64 i64_max) by (split; vm_compute; discriminate).
  exact (conj H5 (conj Hm (proj1 (overflow_fallback_agrees 5 i64_max H5 Hm)))).
Defined.

(** The exception is real: on [(INT64_MIN, -1)] the portable test does not see the
    overflow. *)
Lemma MulOverflow_fallback_min :
  MulOverflow_fallback i64_min (-1) = (false, i64_min) /\
  MulOverflow i64_min (-1) = (true, i64_min).
Proof. split; vm_compute; reflexivity. Qed.

(** For every [int64_t] numerator and non-zero denominator but
    [(INT64_MIN, -1)], [FloorOfRatio] and [CeilOfRatio] return the floor and the
    ceiling of the exact ratio, for all four sign combinations, and the remainder
    and the common divisor computed next to them are the mathematical ones. *)
Theorem ratio_correct n d :
  in_i64 n -> in_i64 d -> d <> 0 -> ~ (n = i64_min /\ d = -1) ->
  FloorOfRatio n d = n / d /\ CeilOfRatio n d = - ((- n) / d) /\
  (0 < d -> NonnegativeMod n d = n mod d /\ n = d * FloorOfRatio n d + NonnegativeMod n d) /\
  (Z.gcd n d <= i64_max -> GreatestCommonDivisor n d = Z.gcd n d).
Proof.
  intros Hn Hd Hd0 Hmin. rewrite FloorOfRatio_exact, CeilOfRatio_exact by assumption.
  repeat split.
  - apply NonnegativeMod_exact; assumption.
  - rewrite NonnegativeMod_exact by assumption. apply Z.div_mod. exact Hd0.
  - intros Hg. unfold GreatestCommonDivisor.
    rewrite !u64_abs_of_i64, Z.gcd_abs_l, Z.gcd_abs_r by assumption.
    apply wrap64_id. pose proof (Z.gcd_nonneg n d). i64_lia.
Qed.

Lemma ratio_correct_witness :
  in_i64 (-7) /\ FloorOfRatio (-7) 2 = -4 /\ CeilOfRatio (-7) 2 = -3.
Proof.
  assert (H7 : in_i64 (-7)) by (split; vm_compute; discriminate).
  assert (H2 : in_i64 2) by (split; vm_compute; discriminate).
  destruct (ratio_correct (-7) 2 H7 H2) as (Hf & Hc & _);
    [discriminate | intros [? ?]; discriminate |].
  exact (conj H7 (conj Hf Hc)).
Defined.

(** * Congruence modulo 2^64 *)

(** Equal after conversion to [int64_t]: sums and products of wrapped values can
    be rewritten freely under it. *)
Definition congr64 (a b : Z) : Prop := wrap64 a = wrap64 b.

#[export] Instance congr64_equiv : Equivalence congr64.
Proof. split; [intros a|intros a b|intros a b c]; unfold congr64; congruence. Qed.

#[export] Instance congr64_add : Proper (congr64 ==> congr64 ==> congr64) Z.add.
Proof.
  intros a a' Ha b b' Hb. unfold congr64 in *.
  rewrite <- wrap64_add_l, <- wrap64_add_r, Ha, Hb, wrap64_add_r, wrap64_add_l. reflexivity.
Qed.

#[export] Instance congr64_mul : Proper (congr64 ==> congr64 ==> congr64) Z.mul.
Proof.
  intros a a' Ha b b' Hb. unfold congr64 in *.
  rewrite <- wrap64_mul_l, <- wrap64_mul_r, Ha, Hb, wrap64_mul_r, wrap64_mul_l. reflexivity.
Qed.

#[export] Instance congr64_opp : Proper (congr64 ==> congr64) Z.opp.
Proof. intros a a' Ha. rewrite (Z.opp_eq_mul_m1 a), (Z.opp_eq_mul_m1 a'), Ha. reflexivity. Qed.

#[export] Instance congr64_wrap_proper : Proper (congr64 ==> eq) wrap64.
Proof. intros a b H. exact H. Qed.

Lemma congr64_wrap a : congr64 (wrap64 a) a.
Proof. apply wrap64_wrap64. Qed.

Lemma congr64_eq a b : a = b -> congr64 a b.
Proof. intros ->. reflexivity. Qed.
