(* ===== verification/IndexInterval.v ===== *)
(** [tensorstore/index_interval.h] and [index_interval.cc]: intervals of indices
    with infinite bounds, intervals with implicit bounds, and the operations on
    them (set operations, shifts, strided slices, affine maps, merging). *)

From S2P Require Import Prelude Int64.

(** * Index ranges *)

Definition IsFiniteIndex (index : Z) : bool :=
  (kMinFiniteIndex <=? index) && (index <=? kMaxFiniteIndex).

Definition IsValidIndex (index : Z) : bool :=
  (-kInfIndex <=? index) && (index <=? kInfIndex).

(** * Class [IndexInterval] *)

Record IndexInterval := MkInterval { inclusive_min : Z; size : Z }.

#[export] Instance IndexInterval_eq_dec : EqDecision IndexInterval.
Proof. solve_decision. Defined.

(** The default constructor, [(-inf, +inf)]. *)
Definition Infinite : IndexInterval := MkInterval (-kInfIndex) kInfSize.

Definition exclusive_min (x : IndexInterval) : Z := (inclusive_min x - 1)%i64.
Definition exclusive_max (x : IndexInterval) : Z := (inclusive_min x + size x)%i64.
Definition inclusive_max (x : IndexInterval) : Z := (inclusive_min x + size x - 1)%i64.
Definition empty (x : IndexInterval) : bool := size x =? 0.

Definition ValidClosed (inclusive_min inclusive_max : Z) : bool :=
  (-kInfIndex <=? inclusive_min) && (inclusive_min <? kInfIndex) &&
  (-kInfIndex <? inclusive_max) && ((inclusive_min - 1)%i64 <=? inclusive_max) &&
  (inclusive_max <=? kInfIndex).

Definition UncheckedClosed (inclusive_min inclusive_max : Z) : IndexInterval :=
  MkInterval inclusive_min (inclusive_max - inclusive_min + 1)%i64.

Definition Closed (inclusive_min inclusive_max : Z) : Result IndexInterval :=
  if negb (ValidClosed inclusive_min inclusive_max) then Err kInvalidArgument
  else Ok (UncheckedClosed inclusive_min inclusive_max).

Definition ValidHalfOpen (inclusive_min exclusive_max : Z) : bool :=
  (-kInfIndex <=? inclusive_min) && (inclusive_min <? kInfIndex) &&
  (-kInfIndex + 1 <? exclusive_max) && (inclusive_min <=? exclusive_max) &&
  (exclusive_max <=? kInfIndex + 1).

Definition UncheckedHalfOpen (inclusive_min exclusive_max : Z) : IndexInterval :=
  MkInterval inclusive_min (exclusive_max - inclusive_min)%i64.

Definition HalfOpen (inclusive_min exclusive_max : Z) : Result IndexInterval :=
  if negb (ValidHalfOpen inclusive_min exclusive_max) then Err kInvalidArgument
  else Ok (UncheckedHalfOpen inclusive_min exclusive_max).

Definition ValidSized (inclusive_min size : Z) : bool :=
  (-kInfIndex <=? inclusive_min) && (0 <=? size) && (size <=? kInfSize) &&
  (inclusive_min <? kInfIndex) && (inclusive_min <=? (kInfIndex + 1 - size)%i64) &&
  (-kInfIndex + 1 <? (inclusive_min + size)%i64).

Definition UncheckedSized (inclusive_min size : Z) : IndexInterval :=
  MkInterval inclusive_min size.

Definition Sized (inclusive_min size : Z) : Result IndexInterval :=
  if negb (ValidSized inclusive_min size) then Err kInvalidArgument
  else Ok (UncheckedSized inclusive_min size).

Definition FiniteRange : IndexInterval := UncheckedClosed kMinFiniteIndex kMaxFiniteIndex.

(** [operator==] and the unary [operator-]. *)
Definition interval_eqb (a b : IndexInterval) : bool :=
  (inclusive_min a =? inclusive_min b) && (size a =? size b).

Definition negate (x : IndexInterval) : IndexInterval :=
  if size x =? 0 then MkInterval (- inclusive_min x)%i64 0
  else MkInterval (- inclusive_max x)%i64 (size x).

(** [Contains(interval, index)] and [Contains(outer, inner)]. *)
Definition Contains (interval : IndexInterval) (index : Z) : bool :=
  (kMinFiniteIndex <=? index) && (index <=? kMaxFiniteIndex) &&
  (inclusive_min interval <=? index) && (index <=? inclusive_max interval).

Definition ContainsInterval (outer inner : IndexInterval) : bool :=
  (size inner =? 0) ||
  ((inclusive_min outer <=? inclusive_min inner) &&
   (inclusive_max inner <=? inclusive_max outer)).

Definition IsFinite (interval : IndexInterval) : bool :=
  negb (inclusive_min interval =? -kInfIndex) && negb (inclusive_max interval =? kInfIndex).

Definition AreCompatibleOrUnbounded (a b : IndexInterval) : bool :=
  let a_lower := inclusive_min a in let a_upper := inclusive_max a in
  let b_lower := inclusive_min b in let b_upper := inclusive_max b in
  ((a_lower =? b_lower) || (a_lower =? -kInfIndex) || (b_lower =? -kInfIndex)) &&
  ((a_upper =? b_upper) || (a_upper =? kInfIndex) || (b_upper =? kInfIndex)).

Definition Hull (a b : IndexInterval) : IndexInterval :=
  if empty a then b
  else if empty b then a
  else
    let lower := Z.min (inclusive_min a) (inclusive_min b) in
    let upper := Z.max (inclusive_max a) (inclusive_max b) in
    UncheckedClosed lower upper.

Definition Intersect (a b : IndexInterval) : IndexInterval :=
  let lower := Z.max (inclusive_min a) (inclusive_min b) in
  let upper := Z.min (inclusive_max a) (inclusive_max b) in
  let size := if upper <? lower then 0 else (upper - lower + 1)%i64 in
  UncheckedSized lower size.

Definition FiniteSubset (interval : IndexInterval) : IndexInterval :=
  Intersect interval FiniteRange.

Definition ContainsOrUnbounded (outer inner : IndexInterval) : bool :=
  ((inclusive_min inner =? -kInfIndex) || (inclusive_min outer <=? inclusive_min inner)) &&
  ((inclusive_max inner =? kInfIndex) || (inclusive_max inner <=? inclusive_max outer)).

(** * Shifts *)

Definition ShiftInterval2 (interval : IndexInterval) (min_offset max_offset : Z)
  : Result IndexInterval :=
  inclusive_min' ←
    (if inclusive_min interval =? -kInfIndex then Ok (-kInfIndex)
     else
       let '(overflow, m) := AddOverflow (inclusive_min interval) min_offset in
       if overflow || negb (IsFiniteIndex m) then Err kInvalidArgument else Ok m);
  inclusive_max' ←
    (if inclusive_max interval =? kInfIndex then Ok kInfIndex
     else
       let '(overflow, m) := AddOverflow (inclusive_max interval) max_offset in
       if overflow || negb (IsFiniteIndex m) then Err kInvalidArgument else Ok m);
  Ok (UncheckedClosed inclusive_min' inclusive_max').

Definition ShiftIntervalBackward2 (interval : IndexInterval) (min_offset max_offset : Z)
  : Result IndexInterval :=
  ShiftInterval2 interval (wrap_on_overflow.Multiply min_offset (-1))
    (wrap_on_overflow.Multiply max_offset (-1)).

Definition ShiftInterval (interval : IndexInterval) (offset : Z) : Result IndexInterval :=
  ShiftInterval2 interval offset offset.

Definition ShiftIntervalBackward (interval : IndexInterval) (offset : Z)
  : Result IndexInterval :=
  ShiftIntervalBackward2 interval offset offset.

Definition ShiftIntervalTo (interval : IndexInterval) (origin : Z) : Result IndexInterval :=
  if negb (IsFiniteIndex origin) then Err kOutOfRange
  else if inclusive_min interval =? -kInfIndex then Err kInvalidArgument
  else
    let '(_, offset) := SubOverflow origin (inclusive_min interval) in
    ShiftInterval interval offset.

Definition CheckContains (interval : IndexInterval) (index : Z) : Result unit :=
  if Contains interval index then Ok tt else Err kOutOfRange.

(** * Class [OptionallyImplicitIndexInterval] *)

Record OptionallyImplicitIndexInterval := MkOI {
  interval : IndexInterval;
  implicit_lower : bool;
  implicit_upper : bool
}.

#[export] Instance OI_eq_dec : EqDecision OptionallyImplicitIndexInterval.
Proof. solve_decision. Defined.

Definition OI_default : OptionallyImplicitIndexInterval := MkOI Infinite true true.

Definition OI_eqb (a b : OptionallyImplicitIndexInterval) : bool :=
  interval_eqb (interval a) (interval b) &&
  Bool.eqb (implicit_lower a) (implicit_lower b) &&
  Bool.eqb (implicit_upper a) (implicit_upper b).

Definition effective_interval (x : OptionallyImplicitIndexInterval) : IndexInterval :=
  UncheckedClosed
    (if implicit_lower x then -kInfIndex else inclusive_min (interval x))
    (if implicit_upper x then kInfIndex else inclusive_max (interval x)).

Definition OI_Hull (a b : OptionallyImplicitIndexInterval) : OptionallyImplicitIndexInterval :=
  let ai := interval a in let bi := interval b in
  let i := Hull ai bi in
  let lower :=
    if inclusive_min ai =? inclusive_min bi
    then implicit_lower a && implicit_lower b
    else if inclusive_min i =? inclusive_min ai then implicit_lower a
    else implicit_lower b in
  let upper :=
    if inclusive_max ai =? inclusive_max bi
    then implicit_upper a && implicit_upper b
    else if inclusive_max ai =? inclusive_max i then implicit_upper a
    else implicit_upper b in
  MkOI i lower upper.

Definition OI_Intersect (a b : OptionallyImplicitIndexInterval)
  : OptionallyImplicitIndexInterval :=
  let ai := interval a in let bi := interval b in
  let i := Intersect ai bi in
  let lower :=
    if inclusive_min ai =? inclusive_min bi
    then implicit_lower a && implicit_lower b
    else if inclusive_min i =? inclusive_min ai then implicit_lower a
    else implicit_lower b in
  let upper :=
    if inclusive_max ai =? inclusive_max bi
    then implicit_upper a && implicit_upper b
    else if inclusive_max ai <? inclusive_max bi then implicit_upper a
    else implicit_upper b in
  MkOI i lower upper.

Definition IntersectPreferringExplicit (a b : OptionallyImplicitIndexInterval)
  : OptionallyImplicitIndexInterval :=
  let inclusive_min' :=
    if Bool.eqb (implicit_lower a) (implicit_lower b)
    then Z.max (inclusive_min (interval a)) (inclusive_min (interval b))
    else Z.max (inclusive_min (effective_interval a)) (inclusive_min (effective_interval b)) in
  let inclusive_max' :=
    if Bool.eqb (implicit_upper a) (implicit_upper b)
    then Z.min (inclusive_max (interval a)) (inclusive_max (interval b))
    else Z.min (inclusive_max (effective_interval a)) (inclusive_max (effective_interval b)) in
  MkOI (UncheckedClosed inclusive_min' (Z.max (inclusive_min' - 1)%i64 inclusive_max'))
    (implicit_lower a && implicit_lower b)
    (implicit_upper a && implicit_upper b).

(** * Strided slices *)

Inductive IntervalForm := sized | closed | half_open.

(** Sign-dependent step of one position, [stride > 0 ? -1 : 1]. *)
Definition step_back (stride : Z) : Z := if stride >? 0 then -1 else 1.

(** The inclusive stop index of the slice, and whether [stop_or_size] was given
    explicitly (the code then clears [orig.implicit_upper()]). *)
Definition SliceStop (orig : IndexInterval) (interval_form : IntervalForm)
  (start stop_or_size stride : Z) : Result (Z * bool) :=
  if stop_or_size =? kImplicit then
    Ok (if stride >? 0 then inclusive_max orig else inclusive_min orig, false)
  else
    match interval_form with
    | sized =>
        if stop_or_size <? 0 then Err kInvalidArgument
        else if stop_or_size =? 0 then Ok ((start + step_back stride)%i64, true)
        else
          let '(overflow1, m) := MulOverflow stride (stop_or_size - 1)%i64 in
          let '(overflow2, stop) := AddOverflow start m in
          if overflow1 || overflow2 then Err kOutOfRange else Ok (stop, true)
    | closed => Ok (stop_or_size, true)
    | half_open =>
        if negb (IsFiniteIndex stop_or_size) then Ok (stop_or_size, true)
        else Ok ((stop_or_size + step_back stride)%i64, true)
    end.

Definition ExtractStridedSlice (orig : OptionallyImplicitIndexInterval)
  (interval_form : IntervalForm) (start stop_or_size stride : Z)
  : Result (OptionallyImplicitIndexInterval * Z) :=
  let i := interval orig in
  let constraint :=
    UncheckedClosed (if implicit_lower orig then -kInfIndex else inclusive_min i)
      (if implicit_upper orig then kInfIndex else inclusive_max i) in
  if (stride =? 0) || (stride =? i64_min) then Err kInvalidArgument
  else
    '(start, lower) ←
      (if start =? kImplicit then
         Ok (if stride >? 0 then inclusive_min i else inclusive_max i, implicit_lower orig)
       else if negb (IsValidIndex start) then Err kInvalidArgument
       else Ok (start, false));
    '(inclusive_stop, explicit) ← SliceStop i interval_form start stop_or_size stride;
    let upper := if (explicit : bool) then false else implicit_upper orig in
    if negb (Z.abs stride =? 1) && negb (IsFiniteIndex start) then Err kInvalidArgument
    else
      let '(adjusted_inclusive_min, adjusted_inclusive_max) :=
        if stride >? 0 then (start, inclusive_stop) else (inclusive_stop, start) in
      let '(lower, upper) := if stride >? 0 then (lower, upper) else (upper, lower) in
      adjusted_interval ← Closed adjusted_inclusive_min adjusted_inclusive_max;
      if negb (ContainsInterval constraint adjusted_interval) then Err kOutOfRange
      else
        let new_start := wrap64 (Z.quot start stride) in
        let new_size :=
          if Z.abs inclusive_stop =? kInfIndex then (kInfIndex + 1 - new_start)%i64
          else CeilOfRatio (size adjusted_interval) (Z.abs stride) in
        Ok (MkOI (UncheckedSized new_start new_size) lower upper, start).

Definition ExtractHalfOpenStridedSlice orig start stop stride :=
  ExtractStridedSlice orig half_open start stop stride.
Definition ExtractClosedStridedSlice orig start stop stride :=
  ExtractStridedSlice orig closed start stop stride.
Definition ExtractSizedStridedSlice orig start size stride :=
  ExtractStridedSlice orig sized start size stride.

(** Returns the new domain and the output offset. *)
Definition ComputeStridedSliceMap (orig : OptionallyImplicitIndexInterval)
  (interval_form : IntervalForm) (translate_origin_to start stop_or_size stride : Z)
  : Result (OptionallyImplicitIndexInterval * Z) :=
  '(new_interval, adjusted_start) ←
    ExtractStridedSlice orig interval_form start stop_or_size stride;
  new_interval ←
    (if translate_origin_to =? kImplicit then Ok new_interval
     else
       shifted ← ShiftIntervalTo (interval new_interval) translate_origin_to;
       Ok (MkOI shifted (implicit_lower new_interval) (implicit_upper new_interval)));
  let '(overflow1, scaled_min) := MulOverflow (inclusive_min (interval new_interval)) stride in
  let '(overflow2, output_offset) := SubOverflow adjusted_start scaled_min in
  if overflow1 || overflow2 then Err kOutOfRange
  else Ok (new_interval, output_offset).

(** * Affine maps *)

(** The bounds that [GetAffineTransformDomain] works on after normalising the
    divisor to be positive: [divisor], [offset], [lower], [upper]. *)
Definition NormalizeAffine (interval : IndexInterval) (offset divisor : Z)
  : Result (Z * Z * Z * Z) :=
  if divisor <? 0 then
    if (divisor =? i64_min) || (offset =? i64_min) then Err kInvalidArgument
    else
      let lower := (- inclusive_max interval)%i64 in
      let upper := (- inclusive_min interval)%i64 in
      let '(lower, upper) :=
        if empty interval then ((lower - 1)%i64, (upper - 1)%i64) else (lower, upper) in
      Ok ((- divisor)%i64, (- offset)%i64, lower, upper)
  else Ok (divisor, offset, inclusive_min interval, inclusive_max interval).

Definition GetAffineTransformDomain (interval : IndexInterval) (offset divisor : Z)
  : Result IndexInterval :=
  if divisor =? 0 then Err kInvalidArgument
  else if interval_eqb interval Infinite then Ok interval
  else
    '(divisor, offset, lower, upper) ← NormalizeAffine interval offset divisor;
    result_lower ←
      (if lower =? -kInfIndex then Ok (-kInfIndex)
       else
         let '(overflow, r) := SubOverflow lower offset in
         if overflow then Err kInvalidArgument
         else
           let r := CeilOfRatio r divisor in
           if negb (IsFiniteIndex r) then Err kInvalidArgument else Ok r);
    result_size ←
      (if empty interval then Ok 0
       else if upper =? kInfIndex then Ok (kInfIndex - result_lower + 1)%i64
       else
         let '(overflow, r) := SubOverflow upper offset in
         if overflow then Err kInvalidArgument
         else
           let r := FloorOfRatio r divisor in
           if negb (IsFiniteIndex r) then Err kInvalidArgument
           else Ok (r - result_lower + 1)%i64);
    Ok (UncheckedSized result_lower result_size).

Definition OI_GetAffineTransformDomain (x : OptionallyImplicitIndexInterval)
  (offset divisor : Z) : Result OptionallyImplicitIndexInterval :=
  i ← GetAffineTransformDomain (interval x) offset divisor;
  Ok (if divisor <? 0 then MkOI i (implicit_upper x) (implicit_lower x)
      else MkOI i (implicit_lower x) (implicit_upper x)).

(** [transform_bound_overflow]: the flag and the new bound. *)
Definition transform_bound_overflow (offset multiplier bound : Z) : bool * Z :=
  if (bound =? -kInfIndex) || (bound =? kInfIndex) then
    (false, if multiplier <? 0 then (bound * -1)%i64 else bound)
  else
    let '(overflow1, b) := MulOverflow bound multiplier in
    if overflow1 then (true, b)
    else
      let '(overflow2, b) := AddOverflow b offset in
      (overflow2 || negb (IsFiniteIndex b), b).

Definition GetAffineTransformRange (interval : IndexInterval) (offset multiplier : Z)
  : Result IndexInterval :=
  let '(overflow1, lower) :=
    transform_bound_overflow offset multiplier (inclusive_min interval) in
  let '(overflow2, upper) :=
    transform_bound_overflow offset multiplier (inclusive_max interval) in
  if overflow1 || overflow2 then Err kInvalidArgument
  else if empty interval then Ok (UncheckedSized lower 0)
  else if multiplier =? 0 then Ok (UncheckedSized lower 1)
  else if multiplier <? 0 then Ok (UncheckedClosed upper lower)
  else Ok (UncheckedClosed lower upper).

Definition GetAffineTransformInverseDomain (interval : IndexInterval) (offset divisor : Z)
  : Result IndexInterval :=
  new_interval ← GetAffineTransformRange interval offset divisor;
  if empty new_interval then Ok new_interval
  else if (divisor >? 0) && negb (inclusive_max new_interval =? kInfIndex) then
    let '(overflow, m) := AddOverflow (inclusive_max new_interval) (divisor - 1)%i64 in
    if overflow || negb (IsFiniteIndex m) then Err kInvalidArgument
    else Ok (UncheckedClosed (inclusive_min new_interval) m)
  else if (divisor <? 0) && negb (inclusive_min new_interval =? -kInfIndex) then
    let '(overflow, m) := AddOverflow (inclusive_min new_interval) (divisor + 1)%i64 in
    if overflow || negb (IsFiniteIndex m) then Err kInvalidArgument
    else Ok (UncheckedClosed m (inclusive_max new_interval))
  else Ok new_interval.

Definition OI_GetAffineTransformRange (x : OptionallyImplicitIndexInterval)
  (offset multiplier : Z) : Result OptionallyImplicitIndexInterval :=
  i ← GetAffineTransformRange (interval x) offset multiplier;
  Ok (if multiplier <? 0 then MkOI i (implicit_upper x) (implicit_lower x)
      else MkOI i (implicit_lower x) (implicit_upper x)).

(** * Merging *)

(** Labels are compared as strings; [A] with its empty label stands for them. *)
Definition MergeDimensionLabels {A} `{EqDecision A} (empty_label : A) (a b : A) : Result A :=
  if bool_decide (a = empty_label) then Ok b
  else if bool_decide (b = empty_label) then Ok a
  else if bool_decide (a = b) then Ok a
  else Err kInvalidArgument.

Definition MergeOptionallyImplicitIndexIntervals (a b : OptionallyImplicitIndexInterval)
  : Result OptionallyImplicitIndexInterval :=
  let ai := interval a in let bi := interval b in
  if OI_eqb a b then Ok a
  else
    '(inclusive_min', lower) ←
      (if (inclusive_min ai =? -kInfIndex) && implicit_lower a
       then Ok (inclusive_min bi, implicit_lower b)
       else if (inclusive_min bi =? -kInfIndex) && implicit_lower b
       then Ok (inclusive_min ai, implicit_lower a)
       else if negb (inclusive_min ai =? inclusive_min bi) then Err kInvalidArgument
       else Ok (inclusive_min ai, implicit_lower a && implicit_lower b));
    '(inclusive_max', upper) ←
      (if (inclusive_max ai =? kInfIndex) && implicit_upper a
       then Ok (inclusive_max bi, implicit_upper b)
       else if (inclusive_max bi =? kInfIndex) && implicit_upper b
       then Ok (inclusive_max ai, implicit_upper a)
       else if negb (inclusive_max ai =? inclusive_max bi) then Err kInvalidArgument
       else Ok (inclusive_max ai, implicit_upper a && implicit_upper b));
    i ← Closed inclusive_min' inclusive_max';
    Ok (MkOI i lower upper).

(** * The interval invariant

    [Valid] is the class invariant documented at the accessors; the checked
    constructors establish it and the accessors do not overflow under it. *)

Definition Valid (x : IndexInterval) : Prop :=
  -kInfIndex <= inclusive_min x < kInfIndex /\ 0 <= size x /\
  inclusive_min x + size x <= kInfIndex + 1 /\
  -kInfIndex + 1 < inclusive_min x + size x.

(** Membership of any integer, with an infinite bound admitting every value. *)
Definition within (x : IndexInterval) (v : Z) : Prop :=
  (inclusive_min x = -kInfIndex \/ inclusive_min x <= v) /\
  (inclusive_max x = kInfIndex \/ v <= inclusive_max x).

Ltac unfold_valid := unfold Valid in *; unfold_i64; cbn [inclusive_min size interval] in *.

Lemma inclusive_max_valid x : Valid x -> inclusive_max x = inclusive_min x + size x - 1.
Proof. unfold inclusive_max. intros H. unfold_valid. unwrap64. lia. Qed.

Lemma exclusive_max_valid x : Valid x -> exclusive_max x = inclusive_min x + size x.
Proof. unfold exclusive_max. intros H. unfold_valid. unwrap64. lia. Qed.

Lemma UncheckedClosed_eq a b :
  -kInfIndex <= a <= kInfIndex -> -kInfIndex - 1 <= b <= kInfIndex ->
  UncheckedClosed a b = MkInterval a (b - a + 1).
Proof. intros Ha Hb. unfold UncheckedClosed. f_equal. unfold_i64. unwrap64. lia. Qed.

Lemma ValidSized_spec m s :
  in_i64 m -> in_i64 s -> (ValidSized m s = true <-> Valid (MkInterval m s)).
Proof.
  intros Hm Hs. unfold ValidSized. split.
  - intros H. bool_to_prop. unfold_valid. unwrap64.
    assert (in_i64 (m + s)) by (unfold_i64; lia). unwrap64. lia.
  - intros H. unfold_valid. unwrap64. lia.
Qed.

Lemma ValidClosed_spec a b :
  in_i64 a -> in_i64 b ->
  (ValidClosed a b = true <->
   -kInfIndex <= a < kInfIndex /\ -kInfIndex < b <= kInfIndex /\ a - 1 <= b).
Proof.
  intros Ha Hb. unfold ValidClosed. split.
  - intros H. bool_to_prop. unfold_i64. unwrap64. lia.
  - intros H. unfold_i64. unwrap64. lia.
Qed.

Lemma Valid_closed a b :
  Valid (MkInterval a (b - a + 1)) <->
  -kInfIndex <= a < kInfIndex /\ -kInfIndex < b <= kInfIndex /\ a - 1 <= b.
Proof. unfold_valid. lia. Qed.

Lemma Closed_Ok a b x :
  in_i64 a -> in_i64 b -> Closed a b = Ok x ->
  Valid x /\ inclusive_min x = a /\ inclusive_max x = b /\ x = MkInterval a (b - a + 1).
Proof.
  intros Ha Hb. unfold Closed. destruct (ValidClosed a b) eqn:HV; [|discriminate].
  cbn [negb]. intros [= <-]. apply ValidClosed_spec in HV; [|assumption..].
  assert (E : UncheckedClosed a b = MkInterval a (b - a + 1))
    by (apply UncheckedClosed_eq; i64_lia).
  assert (HVx : Valid (MkInterval a (b - a + 1))) by (apply Valid_closed; exact HV).
  rewrite E. split; [exact HVx|]. rewrite inclusive_max_valid by exact HVx. cbn.
  repeat split; lia.
Qed.

(** Replace the accessors of a valid interval by a pair of bounds. *)
Lemma valid_bounds x :
  Valid x ->
  exists lo hi, x = MkInterval lo (hi - lo + 1) /\ inclusive_min x = lo /\
    inclusive_max x = hi /\ empty x = (hi <? lo) /\
    -kInfIndex <= lo < kInfIndex /\ -kInfIndex < hi <= kInfIndex /\ lo - 1 <= hi.
Proof.
  intros HV. exists (inclusive_min x), (inclusive_max x).
  rewrite inclusive_max_valid by exact HV. destruct x as [m s]; cbn.
  unfold empty; cbn. unfold_valid. repeat split; try lia. f_equal; lia.
Qed.

Ltac bounds_of H lo hi :=
  let E := fresh "E" lo in let E1 := fresh "Emin" lo in let E2 := fresh "Emax" hi in
  let E3 := fresh "Eempty" lo in
  let R1 := fresh "R" lo in let R2 := fresh "R" hi in let R3 := fresh "R" lo in
  destruct (valid_bounds _ H) as (lo & hi & E & E1 & E2 & E3 & R1 & R2 & R3);
  rewrite ?E1, ?E2, ?E3.

Lemma mk_valid lo hi :
  -kInfIndex <= lo < kInfIndex -> -kInfIndex < hi <= kInfIndex -> lo - 1 <= hi ->
  let x := MkInterval lo (hi - lo + 1) in
  Valid x /\ inclusive_min x = lo /\ inclusive_max x = hi /\ empty x = (hi <? lo).
Proof.
  intros Hlo Hhi Hle x. assert (HV : Valid x) by (apply Valid_closed; lia).
  rewrite inclusive_max_valid by exact HV. subst x. unfold empty; cbn.
  split; [exact HV|]. lia.
Qed.

Lemma Contains_spec x i :
  Valid x ->
  (Contains x i = true <->
   kMinFiniteIndex <= i <= kMaxFiniteIndex /\ inclusive_min x <= i <= inclusive_max x).
Proof. intros _. unfold Contains. rewrite !andb_true_iff, !Z.leb_le. lia. Qed.

(** On finite indices [within] and [Contains] agree. *)
Lemma Contains_within x i :
  Valid x ->
  (Contains x i = true <-> IsFiniteIndex i = true /\ within x i).
Proof.
  intros HV. rewrite Contains_spec by exact HV.
  unfold IsFiniteIndex, within. rewrite andb_true_iff, !Z.leb_le.
  bounds_of HV lo hi. i64_lia.
Qed.

Lemma IsFiniteIndex_spec i :
  IsFiniteIndex i = true <-> kMinFiniteIndex <= i <= kMaxFiniteIndex.
Proof. unfold IsFiniteIndex. rewrite andb_true_iff, !Z.leb_le. reflexivity. Qed.

Lemma Valid_Infinite : Valid Infinite.
Proof. unfold Valid, Infinite; cbn. i64_lia. Qed.

Lemma Valid_FiniteRange : Valid FiniteRange.
Proof. unfold FiniteRange. rewrite UncheckedClosed_eq by i64_lia. unfold Valid; cbn. i64_lia. Qed.

Lemma interval_eqb_spec a b : interval_eqb a b = true <-> a = b.
Proof.
  unfold interval_eqb. rewrite andb_true_iff, !Z.eqb_eq.
  destruct a, b; cbn. split; [intros [-> ->]; reflexivity | intros [= -> ->]; auto].
Qed.

Lemma OI_eqb_spec a b : OI_eqb a b = true <-> a = b.
Proof.
  unfold OI_eqb. rewrite !andb_true_iff, interval_eqb_spec, !Bool.eqb_true_iff.
  destruct a, b; cbn. split; [intros [[-> ->] ->]; reflexivity | intros [= -> -> ->]; auto].
Qed.

(** The finite-index window of two bounds is empty or a valid interval. *)
Lemma valid_in_i64 x : Valid x -> in_i64 (inclusive_min x) /\ in_i64 (inclusive_max x).
Proof. intros HV. bounds_of HV lo hi. i64_lia. Qed.

Create HintDb interval.
#[export] Hint Resolve Valid_Infinite Valid_FiniteRange : interval.

(** * Set operations *)

Lemma Intersect_bounds a b :
  Valid a -> Valid b ->
  Valid (Intersect a b) /\
  inclusive_min (Intersect a b) = Z.max (inclusive_min a) (inclusive_min b) /\
  inclusive_max (Intersect a b) =
    Z.max (Z.max (inclusive_min a) (inclusive_min b) - 1)
          (Z.min (inclusive_max a) (inclusive_max b)).
Proof.
  intros Ha Hb. unfold Intersect, UncheckedSized.
  bounds_of Ha la ua. bounds_of Hb lb ub.
  set (lo := Z.max la lb). set (hi := Z.max (lo - 1) (Z.min ua ub)).
  assert (E : MkInterval lo (if Z.min ua ub <? lo then 0
                             else (Z.min ua ub - lo + 1)%i64)
              = MkInterval lo (hi - lo + 1)).
  { f_equal. subst hi. destruct (Z.ltb_spec (Z.min ua ub) lo); [lia|].
    unfold_i64. unwrap64. lia. }
  rewrite E. destruct (mk_valid lo hi) as (HV & E1 & E2 & _); [i64_lia..|].
  auto.
Qed.

Lemma Hull_bounds a b :
  Valid a -> Valid b -> empty a = false -> empty b = false ->
  Valid (Hull a b) /\
  inclusive_min (Hull a b) = Z.min (inclusive_min a) (inclusive_min b) /\
  inclusive_max (Hull a b) = Z.max (inclusive_max a) (inclusive_max b).
Proof.
  intros Ha Hb Ea Eb. unfold Hull. rewrite Ea, Eb. revert Ea Eb.
  bounds_of Ha la ua. bounds_of Hb lb ub. intros Hea Heb. bool_to_prop.
  rewrite UncheckedClosed_eq by i64_lia.
  destruct (mk_valid (Z.min la lb) (Z.max ua ub)) as (HV & E1 & E2 & _); [i64_lia..|].
  auto.
Qed.

Lemma Hull_empty_l a b : empty a = true -> Hull a b = b.
Proof. intros E. unfold Hull. rewrite E. reflexivity. Qed.

Lemma Hull_empty_r a b : empty a = false -> empty b = true -> Hull a b = a.
Proof. intros Ea Eb. unfold Hull. rewrite Ea, Eb. reflexivity. Qed.

Lemma ContainsInterval_spec o i :
  Valid o -> Valid i ->
  (ContainsInterval o i = true <->
   empty i = true \/
   (inclusive_min o <= inclusive_min i /\ inclusive_max i <= inclusive_max o)).
Proof.
  intros _ _. unfold ContainsInterval, empty.
  rewrite orb_true_iff, andb_true_iff, !Z.leb_le. reflexivity.
Qed.

(** [effective_interval] of a valid interval is valid. *)
Lemma effective_interval_bounds x :
  Valid (interval x) ->
  let lo := if implicit_lower x then -kInfIndex else inclusive_min (interval x) in
  let hi := if implicit_upper x then kInfIndex else inclusive_max (interval x) in
  Valid (effective_interval x) /\ inclusive_min (effective_interval x) = lo /\
  inclusive_max (effective_interval x) = hi /\
  effective_interval x = MkInterval lo (hi - lo + 1).
Proof.
  intros HV lo hi. subst lo hi. unfold effective_interval.
  bounds_of HV lo hi.
  rewrite UncheckedClosed_eq by (repeat case_if; i64_lia).
  set (l := if implicit_lower x then _ else _). set (h := if implicit_upper x then _ else _).
  destruct (mk_valid l h) as (HV' & E1 & E2 & _);
    [subst l h; repeat case_if; i64_lia ..|].
  auto.
Qed.


Lemma Hull_least a b :
  Valid a -> Valid b ->
  Valid (Hull a b) /\
  ContainsInterval (Hull a b) a = true /\ ContainsInterval (Hull a b) b = true /\
  (forall c, Valid c -> ContainsInterval c a = true -> ContainsInterval c b = true ->
     ContainsInterval c (Hull a b) = true).
Proof.
  intros Ha Hb.
  destruct (empty a) eqn:Ea; [|destruct (empty b) eqn:Eb].
  - rewrite (Hull_empty_l a b Ea). unfold ContainsInterval.
    fold (empty a). rewrite Ea, !Z.leb_refl, orb_true_r. auto.
  - rewrite (Hull_empty_r a b Ea Eb). unfold ContainsInterval.
    fold (empty b). rewrite Eb, !Z.leb_refl, orb_true_r. auto.
  - destruct (Hull_bounds a b Ha Hb Ea Eb) as (HV & E1 & E2).
    split; [exact HV|]. unfold ContainsInterval. fold (empty a) (empty b). rewrite Ea, Eb.
    rewrite E1, E2. cbn [orb].
    repeat split; [lia..|]. intros c _ H1 H2. rewrite orb_true_iff. right. lia.
Qed.

Lemma Intersect_Contains a b i :
  Valid a -> Valid b -> Contains (Intersect a b) i = Contains a i && Contains b i.
Proof.
  intros Ha Hb. destruct (Intersect_bounds a b Ha Hb) as (HI & E1 & E2).
  unfold Contains. rewrite E1, E2.
  bounds_of Ha la ua. bounds_of Hb lb ub. lia.
Qed.

(** [Intersect] returns a valid interval that contains exactly the indices
    contained in both arguments, and [Hull] returns the least valid interval that
    contains both arguments. *)
Theorem Intersect_Hull_correct a b :
  Valid a -> Valid b ->
  Valid (Intersect a b) /\
  (forall i, Contains (Intersect a b) i = Contains a i && Contains b i) /\
  Valid (Hull a b) /\
  ContainsInterval (Hull a b) a = true /\ ContainsInterval (Hull a b) b = true /\
  (forall c, Valid c -> ContainsInterval c a = true -> ContainsInterval c b = true ->
     ContainsInterval c (Hull a b) = true).
Proof.
  intros Ha Hb. split; [apply Intersect_bounds; assumption|].
  split; [intros i; apply Intersect_Contains; assumption|].
  apply Hull_least; assumption.
Qed.

(** Decide [Valid] on a concrete interval. *)
Definition validb (x : IndexInterval) : bool :=
  (-kInfIndex <=? inclusive_min x) && (inclusive_min x <? kInfIndex) &&
  (0 <=? size x) && (inclusive_min x + size x <=? kInfIndex + 1) &&
  (-kInfIndex + 1 <? inclusive_min x + size x).

Lemma validb_spec x : validb x = true <-> Valid x.
Proof. unfold validb, Valid. rewrite !andb_true_iff, !Z.leb_le, !Z.ltb_lt. lia. Qed.

Lemma Intersect_Hull_correct_witness :
  let a := MkInterval 3 5 in let b := MkInterval 6 10 in
  Valid a /\ Valid b /\ Contains (Intersect a b) 7 = true.
Proof.
  intros a b.
  assert (Ha : Valid a) by (apply validb_spec; vm_compute; reflexivity).
  assert (Hb : Valid b) by (apply validb_spec; vm_compute; reflexivity).
  split; [exact Ha|split; [exact Hb|]].
  destruct (Intersect_Hull_correct a b Ha Hb) as (_ & H & _).
  rewrite H. vm_compute. reflexivity.
Defined.

(** * Shifts *)

(** The mathematical shift: an infinite bound stays, a finite bound moves by [d]
    and must stay finite. *)
Definition shifted_by (x : IndexInterval) (dmin dmax : Z) (y : IndexInterval) : Prop :=
  (if inclusive_min x =? -kInfIndex then inclusive_min y = -kInfIndex
   else inclusive_min y = inclusive_min x + dmin /\ IsFiniteIndex (inclusive_min y) = true) /\
  (if inclusive_max x =? kInfIndex then inclusive_max y = kInfIndex
   else inclusive_max y = inclusive_max x + dmax /\ IsFiniteIndex (inclusive_max y) = true).

Lemma valid_ext x y :
  Valid x -> Valid y -> inclusive_min x = inclusive_min y ->
  inclusive_max x = inclusive_max y -> x = y.
Proof.
  intros Hx Hy. rewrite !inclusive_max_valid by assumption.
  destruct x, y; cbn. intros -> ?. f_equal. lia.
Qed.

(** Adding an offset to a finite bound succeeds exactly when the sum is finite. *)
Lemma shift_bound_spec b off m :
  in_i64 b -> in_i64 off ->
  (let '(overflow, r) := AddOverflow b off in
   if overflow || negb (IsFiniteIndex r) then Err kInvalidArgument else Ok r) = Ok m <->
  m = b + off /\ IsFiniteIndex m = true.
Proof.
  intros Hb Hoff. split.
  - case_overflow; cbn [orb]; [discriminate|].
    destruct (IsFiniteIndex (b + off)) eqn:F; cbn [negb]; [|discriminate].
    intros [= <-]. auto.
  - intros [-> F]. rewrite AddOverflow_exact by (apply IsFiniteIndex_spec in F; i64_lia).
    cbn [orb]. rewrite F. reflexivity.
Qed.

Lemma ShiftInterval2_spec x dmin dmax y :
  Valid x -> in_i64 dmin -> in_i64 dmax ->
  (Valid y /\ shifted_by x dmin dmax y <-> Valid y /\ ShiftInterval2 x dmin dmax = Ok y).
Proof.
  intros HV Hmin Hmax. destruct (valid_in_i64 x HV) as [Hlo Hhi].
  unfold shifted_by, ShiftInterval2. split; intros [HVy H]; (split; [exact HVy|]).
  - destruct H as [H1 H2].
    rewrite bind_Ok. exists (inclusive_min y). split.
    { revert H1. case_if; intros H1; [rewrite H1; reflexivity|].
      apply shift_bound_spec; tauto. }
    rewrite bind_Ok. exists (inclusive_max y). split.
    { revert H2. case_if; intros H2; [rewrite H2; reflexivity|].
      apply shift_bound_spec; tauto. }
    f_equal. bounds_of HVy lo hi. rewrite UncheckedClosed_eq by i64_lia. auto.
  - apply bind_Ok in H as (m & E1 & H). apply bind_Ok in H as (M & E2 & [= E]).
    assert (Hm : -kInfIndex <= m <= kInfIndex /\
      (if inclusive_min x =? -kInfIndex then m = -kInfIndex
       else m = inclusive_min x + dmin /\ IsFiniteIndex m = true)).
    { revert E1. case_if; intros E1; [injection E1 as <-; i64_lia|].
      apply shift_bound_spec in E1; [|assumption..]. destruct E1 as [-> F].
      split; [apply IsFiniteIndex_spec in F; i64_lia|auto]. }
    assert (HM : -kInfIndex <= M <= kInfIndex /\
      (if inclusive_max x =? kInfIndex then M = kInfIndex
       else M = inclusive_max x + dmax /\ IsFiniteIndex M = true)).
    { revert E2. case_if; intros E2; [injection E2 as <-; i64_lia|].
      apply shift_bound_spec in E2; [|assumption..]. destruct E2 as [-> F].
      split; [apply IsFiniteIndex_spec in F; i64_lia|auto]. }
    rewrite UncheckedClosed_eq in E by i64_lia.
    revert E. bounds_of HVy lo hi. rewrite Elo. intros [= <- Es].
    assert (hi = M) as -> by lia. tauto.
Qed.

(** With equal offsets the shifted bounds always form a valid interval. *)
Lemma ShiftInterval_Valid x d y :
  Valid x -> in_i64 d -> ShiftInterval2 x d d = Ok y -> Valid y.
Proof.
  intros HV Hd H. destruct (valid_in_i64 x HV) as [Hlo Hhi].
  apply bind_Ok in H as (m & E1 & H). apply bind_Ok in H as (M & E2 & [= <-]).
  revert E1 E2. bounds_of HV lo hi. rewrite Eminlo in Hlo. rewrite Emaxhi in Hhi.
  assert (Hfin : forall b r,
    in_i64 b ->
    (let '(overflow, r) := AddOverflow b d in
     if overflow || negb (IsFiniteIndex r) then Err kInvalidArgument else Ok r) = Ok r ->
    r = b + d /\ kMinFiniteIndex <= r <= kMaxFiniteIndex).
  { intros b r Hb E. apply shift_bound_spec in E; [|assumption..].
    destruct E as [? F]. apply IsFiniteIndex_spec in F. auto. }
  intros E1 E2.
  assert (Hres : -kInfIndex <= m < kInfIndex /\ -kInfIndex < M <= kInfIndex /\ m - 1 <= M).
  { revert E1 E2. destruct (Z.eqb_spec lo (-kInfIndex)), (Z.eqb_spec hi kInfIndex);
      intros E1 E2; first [injection E1 as <-|apply Hfin in E1; [|assumption]];
      first [injection E2 as <-|apply Hfin in E2; [|assumption]]; i64_lia. }
  rewrite UncheckedClosed_eq by i64_lia. apply Valid_closed. i64_lia.
Qed.

Lemma ShiftIntervalBackward_spec x d y :
  Valid x -> in_i64 d ->
  (ShiftIntervalBackward x d = Ok y <-> Valid y /\ shifted_by x (- d) (- d) y).
Proof.
  intros HV Hd. unfold ShiftIntervalBackward, ShiftIntervalBackward2.
  rewrite wrap_Multiply. replace (d * -1) with (- d) by lia.
  assert (Hw : in_i64 (wrap64 (- d))) by apply wrap64_range.
  transitivity (Valid y /\ shifted_by x (wrap64 (- d)) (wrap64 (- d)) y).
  { rewrite ShiftInterval2_spec by assumption. split; [|tauto].
    intros H. split; [|exact H]. eapply ShiftInterval_Valid; eassumption. }
  destruct (decide (d = i64_min)) as [->|Hne].
  - (* the wrapped negation: no finite bound survives either shift *)
    change (wrap64 (- i64_min)) with i64_min. unfold shifted_by.
    bounds_of HV lo hi.
    split; intros [HVy [Hs1 Hs2]]; (split; [exact HVy|]); revert Hs1 Hs2;
      destruct (Z.eqb_spec lo (-kInfIndex)), (Z.eqb_spec hi kInfIndex);
      rewrite ?IsFiniteIndex_spec; i64_lia.
  - rewrite wrap64_id by i64_lia. reflexivity.
Qed.

(** for a single offset, [ShiftInterval] succeeds exactly when every finite
    bound stays finite, moves exactly the finite bounds and returns a valid
    interval; [ShiftIntervalBackward] is the shift by the mathematical [-offset]
    even for [INT64_MIN], whose negation wraps; and it undoes [ShiftInterval]. *)
Theorem ShiftInterval_correct x offset y :
  Valid x -> in_i64 offset ->
  (ShiftInterval x offset = Ok y <-> Valid y /\ shifted_by x offset offset y) /\
  (ShiftIntervalBackward x offset = Ok y <-> Valid y /\ shifted_by x (- offset) (- offset) y) /\
  (ShiftInterval x offset = Ok y -> ShiftIntervalBackward y offset = Ok x).
Proof.
  intros HV Hd.
  assert (Hs : ShiftInterval x offset = Ok y <-> Valid y /\ shifted_by x offset offset y).
  { rewrite ShiftInterval2_spec by assumption. unfold ShiftInterval. split; [|tauto].
    intros H. split; [|exact H]. eapply ShiftInterval_Valid; eassumption. }
  split; [exact Hs|]. split; [apply ShiftIntervalBackward_spec; assumption|].
  intros [HVy H]%Hs. apply ShiftIntervalBackward_spec; [assumption..|].
  split; [exact HV|]. revert H. unfold shifted_by.
  bounds_of HV lo hi. bounds_of HVy lo' hi'.
  destruct (Z.eqb_spec lo (-kInfIndex)), (Z.eqb_spec lo' (-kInfIndex)),
    (Z.eqb_spec hi kInfIndex), (Z.eqb_spec hi' kInfIndex);
    rewrite ?IsFiniteIndex_spec; i64_lia.
Qed.

Lemma ShiftInterval_correct_witness :
  let x := MkInterval 3 5 in
  Valid x /\ in_i64 7 /\ ShiftIntervalBackward (MkInterval 10 5) 7 = Ok x.
Proof.
  intros x.
  assert (Hx : Valid x) by (apply validb_spec; vm_compute; reflexivity).
  assert (H7 : in_i64 7) by (split; vm_compute; discriminate).
  split; [exact Hx|split; [exact H7|]].
  apply (ShiftInterval_correct x 7 (MkInterval 10 5) Hx H7).
  vm_compute. reflexivity.
Defined.

(** With two different offsets the result may not be an interval at all: the
    documented error conditions do not cover crossed bounds. *)
Lemma ShiftInterval2_crossed :
  let x := MkInterval 0 1 in
  Valid x /\ exists y, ShiftInterval2 x 5 0 = Ok y /\ ~ Valid y.
Proof.
  split; [apply validb_spec; reflexivity|].
  eexists. split; [vm_compute; reflexivity|]. rewrite <- validb_spec. vm_compute. discriminate.
Qed.

(** Shifting to an origin: success is characterised and the size is kept. *)
Lemma ShiftIntervalTo_correct x origin y :
  Valid x -> in_i64 origin -> ShiftIntervalTo x origin = Ok y ->
  Valid y /\ inclusive_min x <> -kInfIndex /\ inclusive_min y = origin /\
  (inclusive_max x <> kInfIndex -> size y = size x /\ inclusive_max y <> kInfIndex) /\
  (inclusive_max x = kInfIndex -> inclusive_max y = kInfIndex).
Proof.
  intros HV Ho. unfold ShiftIntervalTo.
  destruct (IsFiniteIndex origin) eqn:F; cbn [negb]; [|discriminate].
  apply IsFiniteIndex_spec in F.
  destruct (Z.eqb_spec (inclusive_min x) (-kInfIndex)) as [|Hinf]; [discriminate|].
  assert (Hin : in_i64 (origin - inclusive_min x)).
  { revert Hinf. bounds_of HV lo hi. i64_lia. }
  rewrite SubOverflow_exact by exact Hin. intros H.
  assert (HVy : Valid y) by (eapply ShiftInterval_Valid; eassumption).
  assert (Hs : Valid y /\ shifted_by x (origin - inclusive_min x) (origin - inclusive_min x) y)
    by (apply ShiftInterval2_spec; auto).
  destruct Hs as [_ [H1 H2]]. split; [exact HVy|].
  revert H1 H2 Hinf. bounds_of HV lo hi. bounds_of HVy lo' hi'.
  rewrite Elo, Elo', ?IsFiniteIndex_spec; cbn [size].
  destruct (Z.eqb_spec lo (-kInfIndex)), (Z.eqb_spec hi kInfIndex);
    rewrite ?IsFiniteIndex_spec; i64_lia.
Qed.

(** * Affine maps *)

(** What normalising the sign of the divisor establishes. *)
Lemma NormalizeAffine_spec x o d d' o' lower upper :
  Valid x -> in_i64 o -> in_i64 d -> d <> 0 ->
  NormalizeAffine x o d = Ok (d', o', lower, upper) ->
  0 < d' <= i64_max /\ in_i64 o' /\
  -kInfIndex <= lower < kInfIndex /\ -kInfIndex <= upper <= kInfIndex /\
  lower - 1 <= upper /\ (empty x = true <-> upper = lower - 1) /\
  (empty x = true -> -kInfIndex < lower) /\
  (forall i, (lower = -kInfIndex \/ lower <= o' + d' * i) /\
             (upper = kInfIndex \/ o' + d' * i <= upper) <-> within x (o + d * i)) /\
  (0 < d -> d' = d /\ o' = o /\ lower = inclusive_min x) /\
  (d < 0 -> d' = - d /\ o' = - o /\
     lower = if empty x then - inclusive_min x else - inclusive_max x).
Proof.
  intros HV Ho Hd Hd0. unfold NormalizeAffine, within. bounds_of HV lo hi.
  destruct (Z.ltb_spec d 0) as [Hs|Hs].
  - destruct (Z.eqb_spec d i64_min), (Z.eqb_spec o i64_min); cbn [orb]; try discriminate.
    assert (-9223372036854775807 <= - d <= 9223372036854775807) by i64_lia.
    assert (-9223372036854775807 <= - o <= 9223372036854775807) by i64_lia.
    destruct (Z.ltb_spec hi lo) as [He|He]; unfold_i64; unwrap64; intros [= <- <- <- <-];
      (repeat split; intros; try lia); nia.
  - intros [= <- <- <- <-]. unfold_i64. destruct (Z.ltb_spec hi lo); repeat split; intros; lia.
Qed.

(** The lower and upper result bounds of the preimage under [o' + d' * _]. *)
Lemma preimage_lower l o d r :
  in_i64 l -> in_i64 o -> 0 < d <= i64_max ->
  (let '(overflow, r) := SubOverflow l o in
   if overflow then Err kInvalidArgument
   else let r := CeilOfRatio r d in
     if negb (IsFiniteIndex r) then Err kInvalidArgument else Ok r) = Ok r ->
  kMinFiniteIndex <= r <= kMaxFiniteIndex /\ (forall i, r <= i <-> l <= o + d * i).
Proof.
  intros Hl Ho Hd. case_overflow; [discriminate|].
  rewrite CeilOfRatio_exact by (unfold_i64; lia). cbv zeta.
  destruct (IsFiniteIndex _) eqn:F; cbn [negb]; [|discriminate].
  intros [= <-]. apply IsFiniteIndex_spec in F. split; [exact F|].
  intros i. rewrite ceil_le by lia. lia.
Qed.

Lemma preimage_upper u o d rl rs :
  in_i64 u -> in_i64 o -> 0 < d <= i64_max ->
  (let '(overflow, r) := SubOverflow u o in
   if overflow then Err kInvalidArgument
   else let r := FloorOfRatio r d in
     if negb (IsFiniteIndex r) then Err kInvalidArgument
     else Ok (r - rl + 1)%i64) = Ok rs ->
  exists r, rs = (r - rl + 1)%i64 /\
    kMinFiniteIndex <= r <= kMaxFiniteIndex /\ (forall i, i <= r <-> o + d * i <= u).
Proof.
  intros Hl Ho Hd. case_overflow; [discriminate|].
  rewrite FloorOfRatio_exact by (unfold_i64; lia). cbv zeta.
  destruct (IsFiniteIndex _) eqn:F; cbn [negb]; [|discriminate].
  intros [= <-]. apply IsFiniteIndex_spec in F.
  eexists. split; [reflexivity|]. split; [exact F|].
  intros i. rewrite div_le_lower by lia. lia.
Qed.

Lemma within_Infinite v : within Infinite v.
Proof. split; left; [reflexivity|vm_compute; reflexivity]. Qed.

(** The two sides of [within]. *)
Definition above_min (x : IndexInterval) (v : Z) : Prop :=
  inclusive_min x = -kInfIndex \/ inclusive_min x <= v.
Definition below_max (x : IndexInterval) (v : Z) : Prop :=
  inclusive_max x = kInfIndex \/ v <= inclusive_max x.

(** The normalised bounds in terms of the sides of the interval. *)
Lemma NormalizeAffine_sides x o d d' o' lower upper :
  Valid x -> in_i64 o -> in_i64 d -> d <> 0 -> empty x = false ->
  NormalizeAffine x o d = Ok (d', o', lower, upper) ->
  (forall i, lower = -kInfIndex \/ lower <= o' + d' * i <->
     if d <? 0 then below_max x (o + d * i) else above_min x (o + d * i)) /\
  (forall i, upper = kInfIndex \/ o' + d' * i <= upper <->
     if d <? 0 then above_min x (o + d * i) else below_max x (o + d * i)).
Proof.
  intros HV Ho Hd Hd0 He. revert He.
  unfold NormalizeAffine, above_min, below_max. bounds_of HV lo hi. intros He.
  destruct (Z.ltb_spec d 0) as [Hs|Hs].
  - destruct (Z.eqb_spec d i64_min), (Z.eqb_spec o i64_min); cbn [orb]; try discriminate.
    rewrite He. assert (-9223372036854775807 <= - d <= 9223372036854775807) by i64_lia.
    assert (-9223372036854775807 <= - o <= 9223372036854775807) by i64_lia.
    unfold_i64. unwrap64. intros [= <- <- <- <-].
    split; intros i; replace (- o + - d * i) with (- (o + d * i)) by lia; lia.
  - intros [= <- <- <- <-]. split; reflexivity.
Qed.

(** For a non-empty argument each side of the preimage is exact. *)
Lemma AffineDomain_sides x o d y :
  Valid x -> in_i64 o -> in_i64 d -> empty x = false ->
  GetAffineTransformDomain x o d = Ok y ->
  Valid y /\
  (forall i, above_min y i <->
     if d <? 0 then below_max x (o + d * i) else above_min x (o + d * i)) /\
  (forall i, below_max y i <->
     if d <? 0 then above_min x (o + d * i) else below_max x (o + d * i)).
Proof.
  intros HV Ho Hd He. unfold GetAffineTransformDomain.
  destruct (Z.eqb_spec d 0) as [|Hd0]; [discriminate|].
  destruct (interval_eqb x Infinite) eqn:HI.
  { apply interval_eqb_spec in HI as ->. intros [= <-]. split; [exact HV|].
    unfold above_min, below_max. change (inclusive_max Infinite) with kInfIndex.
    change (inclusive_min Infinite) with (-kInfIndex). split; intros i; case_if; tauto. }
  intros H. apply bind_Ok in H as ([[[d' o'] lower] upper] & EN & H).
  destruct (NormalizeAffine_sides _ _ _ _ _ _ _ HV Ho Hd Hd0 He EN) as [Hsl Hsu].
  apply NormalizeAffine_spec in EN as
    (Hd' & Ho' & Hl & Hu & Hle & Hemp & _); [|assumption..].
  apply bind_Ok in H as (rl & El & H). apply bind_Ok in H as (rs & Es & [= <-]).
  assert (Hrl : -kInfIndex <= rl <= kMaxFiniteIndex /\
    (forall i, rl = -kInfIndex \/ rl <= i <-> lower = -kInfIndex \/ lower <= o' + d' * i)).
  { destruct (Z.eqb_spec lower (-kInfIndex)) as [->|Hli].
    - injection El as <-. split; [i64_lia|]. tauto.
    - apply preimage_lower in El as [Hr Hr2]; [|i64_lia..].
      split; [i64_lia|]. intros i. rewrite (Hr2 i).
      unfold_i64. split; intros [?|?]; auto; lia. }
  destruct Hrl as (Hrl1 & Hrl3). unfold UncheckedSized. rewrite He in Es.
  assert (Hne : lower <= upper).
  { destruct (Z.eq_dec upper (lower - 1)) as [E|]; [|lia]. apply Hemp in E. congruence. }
  assert (Hrh : exists rh, rs = rh - rl + 1 /\ -kInfIndex < rh <= kInfIndex /\ rl - 1 <= rh /\
    (forall i, rh = kInfIndex \/ i <= rh <-> upper = kInfIndex \/ o' + d' * i <= upper)).
  { destruct (Z.eqb_spec upper kInfIndex) as [->|Hui].
    - injection Es as <-. exists kInfIndex. unfold_i64. unwrap64.
      repeat split; intros; lia.
    - apply preimage_upper in Es as (rh & -> & Hrh & Hrh2); [|i64_lia..].
      exists rh. split; [unfold_i64; unwrap64; lia|]. split; [i64_lia|].
      assert (Hlast : rl - 1 <= rh).
      { destruct (Z.eq_dec rl (-kInfIndex)) as [|Hrl]; [i64_lia|].
        apply Hrh2. destruct (Z.le_gt_cases lower (o' + d' * (rl - 1))); [|lia].
        destruct (proj2 (Hrl3 (rl - 1))); [right; assumption|lia|lia]. }
      split; [exact Hlast|]. intros i. rewrite (Hrh2 i). unfold_i64.
      split; intros [?|?]; auto; lia. }
  destruct Hrh as (rh & -> & Hrh1 & Hrh2 & Hrh3).
  destruct (mk_valid rl rh) as (HVy & E1 & E2 & _); [i64_lia..|].
  split; [exact HVy|]. unfold above_min at 1, below_max at 2.
  split; intros i; [rewrite <- Hsl, E1, Hrl3|rewrite <- Hsu, E2, Hrh3]; reflexivity.
Qed.

(** The preimage computed by [GetAffineTransformDomain] is exact, and valid but
    for one empty interval. *)
Lemma AffineDomain_spec x o d y :
  Valid x -> in_i64 o -> in_i64 d -> GetAffineTransformDomain x o d = Ok y ->
  (Valid y \/ (empty x = true /\ y = MkInterval kMinFiniteIndex 0)) /\
  (forall i, IsFiniteIndex i = true -> (within y i <-> within x (o + d * i))).
Proof.
  intros HV Ho Hd H. destruct (empty x) eqn:He.
  2: { destruct (AffineDomain_sides _ _ _ _ HV Ho Hd He H) as (HVy & H1 & H2).
       split; [left; exact HVy|]. intros i _.
       change (within y i) with (above_min y i /\ below_max y i). rewrite H1, H2.
       change (within x (o + d * i))
         with (above_min x (o + d * i) /\ below_max x (o + d * i)).
       case_if; tauto. }
  revert H. unfold GetAffineTransformDomain.
  destruct (Z.eqb_spec d 0) as [|Hd0]; [discriminate|].
  destruct (interval_eqb x Infinite) eqn:HI.
  { apply interval_eqb_spec in HI as ->. discriminate. }
  intros H. apply bind_Ok in H as ([[[d' o'] lower] upper] & EN & H).
  apply NormalizeAffine_spec in EN as
    (Hd' & Ho' & Hl & Hu & Hle & Hemp & Hemp2 & Hiff & _ & _); [|assumption..].
  apply bind_Ok in H as (rl & El & H). apply bind_Ok in H as (rs & Es & [= <-]).
  specialize (Hemp2 He). apply proj1 in Hemp. specialize (Hemp He).
  destruct (Z.eqb_spec lower (-kInfIndex)) as [->|Hli]; [lia|].
  apply preimage_lower in El as [Hr Hr2]; [|i64_lia..].
  rewrite He in Es. injection Es as <-. unfold UncheckedSized. split.
  - destruct (Z.eq_dec rl kMinFiniteIndex) as [->|]; [right; auto|left].
    unfold Valid; cbn. i64_lia.
  - intros i Hi. rewrite <- Hiff. specialize (Hr2 i).
    unfold within, inclusive_max; cbn [inclusive_min size].
    unfold_i64. unwrap64. rewrite Z.add_0_r. unwrap64. lia.
Qed.

(** A bound of the image: infinite bounds stay infinite (negated for a negative
    multiplier), finite ones are mapped and stay finite. *)
Lemma transform_bound_spec o m b r :
  in_i64 b -> in_i64 o -> in_i64 m ->
  transform_bound_overflow o m b = (false, r) ->
  (Z.abs b = kInfIndex /\ r = if m <? 0 then - b else b) \/
  (Z.abs b <> kInfIndex /\ r = b * m + o /\ kMinFiniteIndex <= r <= kMaxFiniteIndex).
Proof.
  intros Hb Ho Hm. unfold transform_bound_overflow.
  destruct ((b =? -kInfIndex) || (b =? kInfIndex)) eqn:Hinf.
  - intros [= <-]. left. split; [i64_lia|].
    destruct (m <? 0); [|reflexivity]. assert (in_i64 (b * -1)) by i64_lia.
    rewrite wrap64_id by assumption. lia.
  - intros H. right. split; [i64_lia|]. revert H.
    case_overflow; [discriminate|]. case_overflow.
    + discriminate.
    + intros [= F%negb_false_iff <-]. apply IsFiniteIndex_spec in F. auto.
Qed.

Lemma affine_mono o m a b :
  m <> 0 ->
  (a * m + o <= o + m * b <-> if m <? 0 then b <= a else a <= b) /\
  (o + m * b <= a * m + o <-> if m <? 0 then a <= b else b <= a).
Proof. intros Hm. destruct (Z.ltb_spec m 0); nia. Qed.

(** The image computed by [GetAffineTransformRange] for a non-zero multiplier. *)
Lemma AffineRange_spec x o m y :
  Valid x -> in_i64 o -> in_i64 m -> m <> 0 -> GetAffineTransformRange x o m = Ok y ->
  (Valid y \/ (empty x = true /\ y = MkInterval kMinFiniteIndex 0)) /\
  empty y = empty x /\
  (forall i, within y (o + m * i) <-> within x i) /\
  (empty x = false ->
   (inclusive_min y = -kInfIndex \/ exists i, within x i /\ o + m * i = inclusive_min y) /\
   (inclusive_max y = kInfIndex \/ exists i, within x i /\ o + m * i = inclusive_max y)).
Proof.
  intros HV Ho Hm Hm0. destruct (valid_in_i64 x HV) as [Hlo Hhi].
  unfold GetAffineTransformRange.
  destruct (transform_bound_overflow o m (inclusive_min x)) as [ov1 lower] eqn:EL.
  destruct (transform_bound_overflow o m (inclusive_max x)) as [ov2 upper] eqn:EU.
  destruct ov1, ov2; cbn [orb]; try discriminate. apply transform_bound_spec in EL, EU; [|assumption..].
  destruct (Z.eqb_spec m 0) as [|_]; [contradiction|].
  revert EL EU. unfold within. bounds_of HV lo hi. intros EL EU.
  destruct (Z.ltb_spec hi lo) as [He|He].
  - intros [= <-]. unfold UncheckedSized, inclusive_max, empty; cbn [inclusive_min size].
    assert (Hf : kMinFiniteIndex <= lower <= kMaxFiniteIndex) by i64_lia.
    split; [|split; [reflexivity|split; [|discriminate]]].
    + destruct (Z.eq_dec lower kMinFiniteIndex) as [->|]; [right; auto|left].
      unfold Valid; cbn. i64_lia.
    + intros i. unfold_i64. rewrite Z.add_0_r. unwrap64. lia.
  - set (lo' := if m <? 0 then upper else lower). set (hi' := if m <? 0 then lower else upper).
    intros H. assert (Ey : UncheckedClosed lo' hi' = y).
    { subst lo' hi'. destruct (m <? 0); injection H as <-; reflexivity. }
    assert (Hres : -kInfIndex <= lo' < kInfIndex /\ -kInfIndex < hi' <= kInfIndex /\ lo' <= hi' /\
      (forall i, (lo' = -kInfIndex \/ lo' <= o + m * i) /\ (hi' = kInfIndex \/ o + m * i <= hi')
         <-> (lo = -kInfIndex \/ lo <= i) /\ (hi = kInfIndex \/ i <= hi)) /\
      (lo' = -kInfIndex \/ o + m * (if m <? 0 then hi else lo) = lo') /\
      (hi' = kInfIndex \/ o + m * (if m <? 0 then lo else hi) = hi')).
    { subst lo' hi'. clear H Ey. destruct (Z.ltb_spec m 0) as [Hs|Hs]; cbn iota in *;
        pose proof (affine_mono o m lo hi Hm0) as [M1 M2];
        destruct (m <? 0) eqn:Hsb; try lia;
        destruct EL as [(HL & ->)|(HL & -> & HL')], EU as [(HU & ->)|(HU & -> & HU')];
        (split; [|split; [|split; [|split; [|split]]]]);
        try (intros i; pose proof (affine_mono o m lo i Hm0) as [M3 M4];
             pose proof (affine_mono o m hi i Hm0) as [M5 M6];
             rewrite Hsb in M3, M4, M5, M6);
        unfold_i64; lia. }
    destruct Hres as (Hl & Hh & Hle & Hiff & Hal & Hah).
    rewrite UncheckedClosed_eq in Ey by i64_lia. subst y.
    destruct (mk_valid lo' hi') as (HVy & E1 & E2 & E3); [i64_lia..|].
    rewrite E1, E2, E3. split; [left; exact HVy|]. split; [lia|]. split; [exact Hiff|].
    intros _. split.
    + destruct Hal as [->|Hal]; [auto|right]. eexists. split; [|exact Hal].
      apply Hiff. rewrite Hal. lia.
    + destruct Hah as [->|Hah]; [auto|right]. eexists. split; [|exact Hah].
      apply Hiff. rewrite Hah. lia.
Qed.

(** The bounds of the image side by side: with a negative multiplier they swap. *)
Lemma AffineRange_sides x o m y :
  Valid x -> in_i64 o -> in_i64 m -> m <> 0 -> empty x = false ->
  GetAffineTransformRange x o m = Ok y ->
  Valid y /\
  (forall i, above_min y (o + m * i) <-> if m <? 0 then below_max x i else above_min x i) /\
  (forall i, below_max y (o + m * i) <-> if m <? 0 then above_min x i else below_max x i).
Proof.
  intros HV Ho Hm Hm0 He. destruct (valid_in_i64 x HV) as [Hlo Hhi].
  unfold GetAffineTransformRange.
  destruct (transform_bound_overflow o m (inclusive_min x)) as [ov1 lower] eqn:EL.
  destruct (transform_bound_overflow o m (inclusive_max x)) as [ov2 upper] eqn:EU.
  destruct ov1, ov2; cbn [orb]; try discriminate.
  apply transform_bound_spec in EL, EU; [|assumption..].
  destruct (Z.eqb_spec m 0) as [|_]; [contradiction|]. rewrite He. revert He EL EU.
  unfold above_min, below_max. bounds_of HV lo hi. intros He EL EU H.
  pose proof (affine_mono o m lo hi Hm0) as [M1 M2].
  assert (Ey : y = if m <? 0 then MkInterval upper (lower - upper + 1)
                   else MkInterval lower (upper - lower + 1)).
  { destruct (Z.ltb_spec m 0); injection H as <-; apply UncheckedClosed_eq; i64_lia. }
  clear H. destruct (Z.ltb_spec m 0) as [Hs|Hs]; subst y.
  - destruct (mk_valid upper lower) as (HVy & E1 & E2 & _); [i64_lia..|].
    split; [exact HVy|]. rewrite E1, E2.
    split; intros i; pose proof (affine_mono o m lo i Hm0) as [M3 M4];
      pose proof (affine_mono o m hi i Hm0) as [M5 M6];
      rewrite (proj2 (Z.ltb_lt m 0) Hs) in *; clear M1 M2;
      destruct EL as [(HL & ->)|(HL & -> & HL')], EU as [(HU & ->)|(HU & -> & HU')];
      unfold_i64; lia.
  - destruct (mk_valid lower upper) as (HVy & E1 & E2 & _); [i64_lia..|].
    split; [exact HVy|]. rewrite E1, E2.
    split; intros i; pose proof (affine_mono o m lo i Hm0) as [M3 M4];
      pose proof (affine_mono o m hi i Hm0) as [M5 M6];
      rewrite (proj2 (Z.ltb_ge m 0) Hs) in *; clear M1 M2;
      destruct EL as [(HL & ->)|(HL & -> & HL')], EU as [(HU & ->)|(HU & -> & HU')];
      unfold_i64; lia.
Qed.

(** C40: when [GetAffineTransformDomain] succeeds its result contains exactly the
    finite indices [i] whose image [offset + divisor * i] lies in the interval,
    an infinite bound of the interval admitting every value; the result is a
    valid interval except for the empty interval placed at [kMinFiniteIndex]. *)
Theorem GetAffineTransformDomain_exact x offset divisor y :
  Valid x -> in_i64 offset -> in_i64 divisor ->
  GetAffineTransformDomain x offset divisor = Ok y ->
  (Valid y \/ (empty x = true /\ y = MkInterval kMinFiniteIndex 0)) /\
  (forall i, IsFiniteIndex i = true ->
     (Contains y i = true <-> within x (offset + divisor * i))).
Proof.
  intros HV Ho Hd H. destruct (AffineDomain_spec x offset divisor y HV Ho Hd H) as [Hy Hiff].
  split; [exact Hy|]. intros i Hi. rewrite <- (Hiff i Hi).
  destruct Hy as [Hy|[_ ->]].
  - rewrite Contains_within by exact Hy. tauto.
  - unfold Contains, within, inclusive_max; cbn. unfold_i64. unwrap64. lia.
Qed.

Lemma GetAffineTransformDomain_exact_witness :
  let x := MkInterval 1 10 in
  Valid x /\ in_i64 4 /\ in_i64 (-3) /\
  GetAffineTransformDomain x 4 (-3) = Ok (MkInterval (-2) 4) /\
  Contains (MkInterval (-2) 4) (-2) = true.
Proof.
  intros x.
  assert (Hx : Valid x) by (apply validb_spec; vm_compute; reflexivity).
  assert (H4 : in_i64 4) by (split; vm_compute; discriminate).
  assert (H3 : in_i64 (-3)) by (split; vm_compute; discriminate).
  assert (HD : GetAffineTransformDomain x 4 (-3) = Ok (MkInterval (-2) 4))
    by (vm_compute; reflexivity).
  split; [exact Hx|split; [exact H4|split; [exact H3|split; [exact HD|]]]].
  apply (proj2 (GetAffineTransformDomain_exact x 4 (-3) _ Hx H4 H3 HD) (-2) eq_refl).
  split; right; vm_compute; discriminate.
Defined.

(** For a non-zero multiplier the result of [GetAffineTransformRange] is the
    least interval around the image: [offset + multiplier * i] lies in it exactly
    when [i] lies in the argument, and its finite bounds are images of elements. *)
Theorem GetAffineTransformRange_exact x offset multiplier y :
  Valid x -> in_i64 offset -> in_i64 multiplier -> multiplier <> 0 ->
  GetAffineTransformRange x offset multiplier = Ok y ->
  empty y = empty x /\
  (forall i, within y (offset + multiplier * i) <-> within x i) /\
  (empty x = false ->
   Valid y /\
   (inclusive_min y = -kInfIndex \/
    exists i, within x i /\ offset + multiplier * i = inclusive_min y) /\
   (inclusive_max y = kInfIndex \/
    exists i, within x i /\ offset + multiplier * i = inclusive_max y)).
Proof.
  intros HV Ho Hm Hm0 H.
  destruct (AffineRange_spec x offset multiplier y HV Ho Hm Hm0 H) as (Hy & He & Hiff & Htight).
  split; [exact He|split; [exact Hiff|]]. intros Hne. split; [|exact (Htight Hne)].
  destruct Hy as [Hy|[Hy _]]; [exact Hy|congruence].
Qed.

Lemma GetAffineTransformRange_exact_witness :
  let x := MkInterval 1 3 in
  Valid x /\ GetAffineTransformRange x 5 (-2) = Ok (MkInterval (-1) 5) /\
  (forall i, within (MkInterval (-1) 5) (5 + -2 * i) <-> within x i).
Proof.
  intros x.
  assert (Hx : Valid x) by (apply validb_spec; vm_compute; reflexivity).
  assert (H5 : in_i64 5) by (split; vm_compute; discriminate).
  assert (H2 : in_i64 (-2)) by (split; vm_compute; discriminate).
  assert (HD : GetAffineTransformRange x 5 (-2) = Ok (MkInterval (-1) 5))
    by (vm_compute; reflexivity).
  split; [exact Hx|split; [exact HD|]].
  apply (GetAffineTransformRange_exact x 5 (-2) _ Hx H5 H2 ltac:(discriminate) HD).
Defined.

(** Where the results leave the class invariant: a zero multiplier applied to an
    interval unbounded below, and an empty interval at the edge of the range
    (also reached by the unary [operator-]). *)
Lemma affine_invariant_broken :
  let unbounded := MkInterval (-kInfIndex) (kInfIndex + 6) in
  let edge := MkInterval kMaxFiniteIndex 0 in
  Valid unbounded /\ Valid edge /\
  (exists y, GetAffineTransformRange unbounded 0 0 = Ok y /\ ~ Valid y) /\
  (exists y, GetAffineTransformDomain edge 0 (-1) = Ok y /\ ~ Valid y) /\
  ~ Valid (negate edge).
Proof.
  cbv zeta. rewrite <- !validb_spec.
  split; [reflexivity|split; [reflexivity|split; [|split]]].
  - eexists. split; [vm_compute; reflexivity|]. rewrite <- validb_spec. vm_compute. discriminate.
  - eexists. split; [vm_compute; reflexivity|]. rewrite <- validb_spec. vm_compute. discriminate.
  - vm_compute. discriminate.
Qed.

(** * Strided slices *)

(** Truncated division of a bounded start by the stride stays far from the
    bounds of the index range. *)
Lemma quot_bounds s d :
  d <> 0 -> exists q r, Z.quot s d = q /\ s = q * d + r /\ Z.abs r < Z.abs d /\
    Z.abs q <= Z.abs s /\ Z.abs (q * d) <= Z.abs s /\ (Z.abs d = 1 -> r = 0).
Proof.
  intros Hd. exists (Z.quot s d), (Z.rem s d).
  destruct (quot_sign_cases s d Hd) as (E & Hr & Hp & Hm).
  assert (Hqd : Z.abs (Z.quot s d * d) <= Z.abs s) by lia.
  pose proof (abs_mul_le (Z.quot s d) d Hd). repeat split; lia.
Qed.

(** The number of positions [s, s + d, ...] that stay on the near side of [t]. *)
Lemma stride_count w d k :
  0 < d -> 0 <= w -> (k < - (- w / d) <-> k * d < w).
Proof. intros Hd Hw. pose proof (ceil_le w d k Hd). lia. Qed.

(** The positions selected by a slice, in slice order: [s + stride * k]. *)
Definition slice_position (s stride k : Z) : Z := s + stride * k.

(** [p] lies between the start and the inclusive stop, in the stride's direction. *)
Definition between (s stop stride p : Z) : Prop :=
  if stride >? 0 then s <= p <= stop else stop <= p <= s.

Lemma SliceStop_in_i64 x form start st stride stop e :
  Valid x -> in_i64 st -> SliceStop x form start st stride = Ok (stop, e) -> in_i64 stop.
Proof.
  intros HV Hst. destruct (valid_in_i64 x HV). unfold SliceStop.
  destruct (_ =? _).
  { intros [= <- <-]. case_if; assumption. }
  destruct form.
  - destruct (st <? 0); [discriminate|]. destruct (st =? 0).
    { intros [= <- <-]. apply wrap64_range. }
    destruct (MulOverflow _ _) as [o1 m]. unfold AddOverflow.
    destruct (_ || _); [discriminate|]. intros [= <- <-]. apply wrap64_range.
  - intros [= <- <-]. exact Hst.
  - destruct (negb _); intros [= <- <-]; [exact Hst|apply wrap64_range].
Qed.

(** Everything the code has established when it computes the new interval. *)
Record slice_checked (orig : OptionallyImplicitIndexInterval) (s stop stride lo hi : Z)
    (new : IndexInterval) : Prop := {
  sc_stride : stride <> 0 /\ in_i64 stride /\ stride <> i64_min;
  sc_bounds : (lo, hi) = if stride >? 0 then (s, stop) else (stop, s);
  sc_closed : -kInfIndex <= lo < kInfIndex /\ -kInfIndex < hi <= kInfIndex /\ lo - 1 <= hi;
  sc_finite_start : Z.abs stride = 1 \/ kMinFiniteIndex <= s <= kMaxFiniteIndex;
  sc_contained : lo <= hi ->
    inclusive_min (effective_interval orig) <= lo /\
    hi <= inclusive_max (effective_interval orig);
  sc_new : new = MkInterval (wrap64 (Z.quot s stride))
    (if Z.abs stop =? kInfIndex then (kInfIndex + 1 - wrap64 (Z.quot s stride))%i64
     else CeilOfRatio (hi - lo + 1) (Z.abs stride))
}.

Lemma ExtractStridedSlice_checked orig form start st stride new s :
  Valid (interval orig) -> in_i64 start -> in_i64 st -> in_i64 stride ->
  ExtractStridedSlice orig form start st stride = Ok (new, s) ->
  s = (if start =? kImplicit
       then if stride >? 0 then inclusive_min (interval orig) else inclusive_max (interval orig)
       else start) /\
  exists stop e lo hi,
    SliceStop (interval orig) form s st stride = Ok (stop, e) /\
    slice_checked orig s stop stride lo hi (interval new).
Proof.
  intros HV Hstart Hst Hstride. unfold ExtractStridedSlice.
  destruct (Z.eqb_spec stride 0), (Z.eqb_spec stride i64_min); cbn [orb]; try discriminate.
  intros H. apply bind_Ok in H as ([s' low] & Es & H).
  apply bind_Ok in H as ([stop e] & Estop & H).
  assert (Hs : s' = (if start =? kImplicit
    then if stride >? 0 then inclusive_min (interval orig) else inclusive_max (interval orig)
    else start)).
  { destruct (start =? kImplicit).
    - destruct (stride >? 0); injection Es as <- <-; reflexivity.
    - destruct (negb _); [discriminate|]. injection Es as <- <-. reflexivity. }
  destruct (negb (Z.abs stride =? 1) && negb (IsFiniteIndex s')) eqn:Hfin; [discriminate|].
  destruct (if stride >? 0 then (s', stop) else (stop, s')) as [lo hi] eqn:Eb.
  destruct (if stride >? 0 then (low, _) else _) as [low' upp'].
  apply bind_Ok in H as (adj & Eadj & H).
  assert (Hin : in_i64 s' /\ in_i64 stop).
  { split; [|exact (SliceStop_in_i64 _ _ _ _ _ _ _ HV Hst Estop)].
    rewrite Hs. destruct (valid_in_i64 _ HV).
    destruct (start =? kImplicit), (stride >? 0); assumption. }
  apply Closed_Ok in Eadj as (HVadj & E1 & E2 & Eadj);
    [|destruct (stride >? 0); injection Eb as <- <-; apply Hin ..].
  destruct (negb (ContainsInterval _ adj)) eqn:Hc; [discriminate|].
  injection H as <- <-. split; [exact Hs|]. exists stop, e, lo, hi.
  split; [exact Estop|].
  subst adj. apply Valid_closed in HVadj.
  split; auto.
  - apply andb_false_iff in Hfin as [Hf|Hf]; apply negb_false_iff in Hf;
      [left; lia|right; apply IsFiniteIndex_spec; exact Hf].
  - intros Hle. apply negb_false_iff in Hc. unfold ContainsInterval in Hc.
    rewrite E1, E2 in Hc. cbn [size] in Hc.
    change (UncheckedClosed _ _) with (effective_interval orig) in Hc. lia.
Qed.

Lemma small_factor a b m : 0 < b -> 0 <= m -> a * b < m + b -> a <= m.
Proof. nia. Qed.

(** [p] is a position of the slice: on the far side of the start and on the near
    side of the inclusive stop; an infinite bound admits every value. *)
Definition selects (s stop stride p : Z) : Prop :=
  if stride >? 0
  then (s = -kInfIndex \/ s <= p) /\ (stop = kInfIndex \/ p <= stop)
  else (stop = -kInfIndex \/ stop <= p) /\ (s = kInfIndex \/ p <= s).

(** The arithmetic core: start and stop both finite. *)
Lemma slice_finite orig s stop stride lo hi new :
  slice_checked orig s stop stride lo hi new ->
  IsFiniteIndex s = true -> IsFiniteIndex stop = true ->
  Valid new /\ inclusive_min new = Z.quot s stride /\
  (forall j, within new j <->
     selects s stop stride (s + stride * (j - Z.quot s stride))).
Proof.
  intros [Hd Hb Hcl _ _ ->] Hs Hstop. apply IsFiniteIndex_spec in Hs, Hstop.
  destruct Hd as (Hd0 & Hd & Hdmin).
  destruct (quot_bounds s stride Hd0) as (q & r & Hq & Es & Hr & Hqs & Hqd & Hr1).
  rewrite Hq, (wrap64_id q) by i64_lia.
  destruct (Z.eqb_spec (Z.abs stop) kInfIndex) as [Hinf|Hninf]; [i64_lia|].
  set (A := Z.abs stride) in *. set (w := hi - lo + 1).
  assert (HA : 0 < A) by lia. assert (Hw : 0 <= w) by lia.
  rewrite CeilOfRatio_exact by (unfold_i64; lia).
  assert (Hcount : forall k, k < - (- w / A) <-> k * A < w)
    by (intros k; apply stride_count; assumption).
  set (n := - (- w / A)) in *.
  assert (Hn : 0 <= n).
  { pose proof (proj2 (Hcount (-1))). lia. }
  assert (Hpos : forall k, 0 <= k -> (k * A < w <-> between s stop stride (slice_position s stride k))).
  { intros k Hk. unfold between, slice_position.
    destruct (stride >? 0) eqn:Hsg; injection Hb as -> ->; subst w A; nia. }
  assert (Hfin : forall k, 0 <= k < n -> kMinFiniteIndex <= q + k <= kMaxFiniteIndex).
  { intros k [Hk1 Hk2]. apply Hcount, Hpos in Hk2; [|exact Hk1].
    assert (Hp : Z.abs (s + stride * k) <= kMaxFiniteIndex)
      by (unfold between, slice_position in Hk2; destruct (stride >? 0); i64_lia).
    replace (s + stride * k) with ((q + k) * stride + r) in Hp by lia.
    pose proof (abs_mul_le (q + k) stride Hd0) as Hm.
    assert (Hqk : Z.abs (q + k) * A < kMaxFiniteIndex + A).
    { unfold A. rewrite <- Z.abs_mul. lia. }
    apply small_factor in Hqk; [i64_lia|exact HA|i64_lia]. }
  assert (HV : Valid (MkInterval q n)).
  { unfold Valid; cbn. destruct (Z.eq_dec n 0) as [Hn0|Hn0].
    - assert (Hw0 : w = 0) by (pose proof (proj2 (Hcount 0)); lia).
      assert (- kInfIndex + 1 < q < kInfIndex).
      { destruct (stride >? 0) eqn:Hsg; injection Hb as -> ->; subst w.
        - assert (Z.abs q <= Z.abs s /\ (q <= 0 \/ s > 0)) by nia. i64_lia.
        - assert (Z.abs q <= Z.abs s /\ (q >= 0 \/ s > 0)) by nia. i64_lia. }
      i64_lia.
    - pose proof (Hfin 0 ltac:(lia)). pose proof (Hfin (n - 1) ltac:(lia)). i64_lia. }
  assert (Hend : q + n - 1 <> kInfIndex).
  { destruct (Z.eq_dec n 0) as [Hn0|Hn0]; [i64_lia|].
    pose proof (Hfin (n - 1) ltac:(lia)). i64_lia. }
  split; [exact HV|split; [reflexivity|]]. intros j.
  assert (Hsel : selects s stop stride (s + stride * (j - q)) <->
    0 <= j - q /\ between s stop stride (slice_position s stride (j - q))).
  { unfold selects, between, slice_position. clear - Hs Hstop Hd0.
    destruct (stride >? 0) eqn:Hsg; i64_lia || (split; intros; unfold_i64; nia). }
  rewrite Hsel. unfold within. rewrite inclusive_max_valid by exact HV.
  cbn [inclusive_min size]. split.
  - intros Hj. assert (0 <= j - q) by i64_lia. split; [assumption|].
    apply Hpos, Hcount; i64_lia.
  - intros [Hk1 Hk2]. apply Hpos, Hcount in Hk2; [|exact Hk1]. i64_lia.
Qed.

Lemma within_bounds lo hi v :
  -kInfIndex <= lo < kInfIndex -> -kInfIndex < hi <= kInfIndex -> lo - 1 <= hi ->
  (within (MkInterval lo (hi - lo + 1)) v <->
   (lo = -kInfIndex \/ lo <= v) /\ (hi = kInfIndex \/ v <= hi)).
Proof.
  intros H1 H2 H3. destruct (mk_valid lo hi H1 H2 H3) as (_ & _ & E & _).
  unfold within. cbv zeta in E. rewrite E. cbn [inclusive_min]. reflexivity.
Qed.

(** The start is infinite: the stride is a unit. *)
Lemma slice_infinite_start orig s stop stride lo hi new :
  slice_checked orig s stop stride lo hi new -> IsFiniteIndex s = false ->
  Valid new /\ inclusive_min new = Z.quot s stride /\
  (forall j, within new j <->
     selects s stop stride (s + stride * (j - Z.quot s stride))).
Proof.
  intros [Hd Hb Hcl Hf _ Hnew] Hs.
  assert (Hs' : ~ (kMinFiniteIndex <= s <= kMaxFiniteIndex))
    by (intros H%IsFiniteIndex_spec; congruence).
  destruct Hf as [H1|]; [|tauto]. unfold selects.
  assert (Hc : stride = 1 /\ s = -kInfIndex /\ lo = s /\ hi = stop \/
    stride = -1 /\ s = kInfIndex /\ lo = stop /\ hi = s).
  { destruct (stride >? 0) eqn:Hsg; injection Hb as -> ->; i64_lia. }
  destruct Hc as [(-> & -> & -> & ->)|(-> & -> & -> & ->)]; cbn [Z.gtb Z.compare].
  - change (Z.quot (-kInfIndex) 1) with (-kInfIndex) in *.
    assert (Enew : new = MkInterval (-kInfIndex) (stop - (-kInfIndex) + 1)).
    { rewrite Hnew. change (wrap64 (-kInfIndex)) with (-kInfIndex). f_equal.
      destruct (Z.eqb_spec (Z.abs stop) kInfIndex).
      - unwrap64. i64_lia.
      - change (Z.abs 1) with 1. rewrite CeilOfRatio_exact, Z.div_1_r by i64_lia. lia. }
    rewrite Enew. split; [apply mk_valid; i64_lia|split; [reflexivity|]].
    intros j. rewrite within_bounds by i64_lia. i64_lia.
  - change (Z.quot kInfIndex (-1)) with (-kInfIndex) in *.
    assert (Enew : new = MkInterval (-kInfIndex) (- stop - (-kInfIndex) + 1)).
    { rewrite Hnew. change (wrap64 (-kInfIndex)) with (-kInfIndex). f_equal.
      destruct (Z.eqb_spec (Z.abs stop) kInfIndex).
      - unwrap64. i64_lia.
      - change (Z.abs (-1)) with 1. rewrite CeilOfRatio_exact, Z.div_1_r by i64_lia. lia. }
    rewrite Enew. split; [apply mk_valid; i64_lia|split; [reflexivity|]].
    intros j. rewrite within_bounds by i64_lia. i64_lia.
Qed.

(** Finite start, infinite stop: the slice is unbounded above. *)
Lemma slice_infinite_stop orig s stop stride lo hi new :
  slice_checked orig s stop stride lo hi new ->
  IsFiniteIndex s = true -> IsFiniteIndex stop = false ->
  Valid new /\ inclusive_min new = Z.quot s stride /\
  (forall j, within new j <->
     selects s stop stride (s + stride * (j - Z.quot s stride))).
Proof.
  intros [Hd Hb Hcl _ _ Hnew] Hs Hstop. apply IsFiniteIndex_spec in Hs.
  assert (Hstop' : ~ (kMinFiniteIndex <= stop <= kMaxFiniteIndex))
    by (intros H%IsFiniteIndex_spec; congruence).
  destruct (quot_bounds s stride ltac:(tauto)) as (q & r & Hq & Es & Hr & Hqs & _ & _).
  rewrite Hq in *. unfold selects.
  assert (Hc : 0 < stride /\ stop = kInfIndex \/ stride < 0 /\ stop = -kInfIndex).
  { destruct (stride >? 0) eqn:Hsg; injection Hb as -> ->; i64_lia. }
  assert (Enew : new = MkInterval q (kInfIndex - q + 1)).
  { rewrite Hnew, (wrap64_id q) by i64_lia. f_equal.
    destruct (Z.eqb_spec (Z.abs stop) kInfIndex); [|i64_lia]. unwrap64. lia. }
  rewrite Enew. split; [apply mk_valid; i64_lia|split; [reflexivity|]].
  intros j. rewrite within_bounds by i64_lia.
  assert (Hmono : (0 < stride -> (q <= j <-> s <= s + stride * (j - q))) /\
    (stride < 0 -> (q <= j <-> s + stride * (j - q) <= s))) by (split; intros; nia).
  destruct Hc as [[Hp ->]|[Hn ->]].
  - rewrite (proj2 (Z.gtb_lt _ _) Hp). i64_lia.
  - replace (stride >? 0) with false by lia. i64_lia.
Qed.

Lemma slice_spec orig s stop stride lo hi new :
  slice_checked orig s stop stride lo hi new ->
  Valid new /\ inclusive_min new = Z.quot s stride /\
  (forall j, within new j <->
     selects s stop stride (s + stride * (j - Z.quot s stride))).
Proof.
  intros H. destruct (IsFiniteIndex s) eqn:Hs; [|eapply slice_infinite_start; eassumption].
  destruct (IsFiniteIndex stop) eqn:Hstop; [|eapply slice_infinite_stop; eassumption].
  eapply slice_finite; eassumption.
Qed.

Lemma slice_contained orig s stop stride lo hi new p :
  Valid (interval orig) ->
  slice_checked orig s stop stride lo hi new ->
  selects s stop stride p -> within (effective_interval orig) p.
Proof.
  intros HV [Hd Hb Hcl _ Hin _] Hsel. unfold selects, within in *.
  destruct (effective_interval_bounds orig HV) as (HVe & _).
  revert Hin. bounds_of HVe elo ehi. intros Hin.
  destruct (stride >? 0) eqn:Hsg; injection Hb as -> ->; i64_lia.
Qed.

(** A slice that [ExtractStridedSlice] returns selects, in order, exactly the
    positions [start, start + stride, ...] up to the requested stop, all of them
    inside the (implicit-bounds aware) original interval; the new interval is
    valid, starts at [start / stride] rounded to zero, and an index [j] of it
    stands for position [start + stride * (j - start / stride)]. *)
Theorem ExtractStridedSlice_correct orig form start stop_or_size stride new s :
  Valid (interval orig) -> in_i64 start -> in_i64 stop_or_size -> in_i64 stride ->
  ExtractStridedSlice orig form start stop_or_size stride = Ok (new, s) ->
  exists stop explicit,
    SliceStop (interval orig) form s stop_or_size stride = Ok (stop, explicit) /\
    Valid (interval new) /\
    inclusive_min (interval new) = Z.quot s stride /\
    (forall j, within (interval new) j <->
       selects s stop stride (s + stride * (j - Z.quot s stride))) /\
    (forall p, selects s stop stride p -> within (effective_interval orig) p).
Proof.
  intros HV H1 H2 H3 H.
  destruct (ExtractStridedSlice_checked _ _ _ _ _ _ _ HV H1 H2 H3 H)
    as (_ & stop & e & lo & hi & Hstop & Hc).
  exists stop, e. destruct (slice_spec _ _ _ _ _ _ _ Hc) as (HVn & Hmin & Hw).
  repeat (split; [eassumption|]). intros p. eapply slice_contained; eassumption.
Qed.

Lemma ExtractStridedSlice_correct_witness :
  let orig := MkOI (MkInterval 0 20) false false in
  let new := MkOI (MkInterval (-4) 3) false false in
  ExtractStridedSlice orig half_open 13 5 (-3) = Ok (new, 13) /\
  (within (interval new) (-2) <-> selects 13 6 (-3) 7).
Proof.
  intros orig new.
  assert (HE : ExtractStridedSlice orig half_open 13 5 (-3) = Ok (new, 13))
    by (vm_compute; reflexivity).
  split; [exact HE|].
  assert (HV : Valid (interval orig)) by (apply validb_spec; vm_compute; reflexivity).
  assert (H1 : in_i64 13) by (split; vm_compute; discriminate).
  assert (H2 : in_i64 5) by (split; vm_compute; discriminate).
  assert (H3 : in_i64 (-3)) by (split; vm_compute; discriminate).
  destruct (ExtractStridedSlice_correct orig half_open 13 5 (-3) new 13 HV H1 H2 H3 HE)
    as (stop & e & Hstop & _ & _ & Hw & _).
  vm_compute in Hstop. injection Hstop as <- <-. exact (Hw (-2)).
Defined.

Lemma ShiftIntervalTo_within x origin y :
  Valid x -> in_i64 origin -> ShiftIntervalTo x origin = Ok y ->
  inclusive_min y = origin /\ Valid y /\
  (forall i, within y i <-> within x (i - inclusive_min y + inclusive_min x)).
Proof.
  intros HV Ho H.
  destruct (ShiftIntervalTo_correct x origin y HV Ho H) as (HVy & Hfin & Hmin & Hsz & Hinf).
  split; [exact Hmin|split; [exact HVy|]]. intros i. revert Hfin Hmin Hsz Hinf.
  assert (Hf : IsFiniteIndex origin = true)
    by (unfold ShiftIntervalTo in H; destruct (IsFiniteIndex origin); [reflexivity|discriminate]).
  apply IsFiniteIndex_spec in Hf. unfold within.
  bounds_of HV lo hi. bounds_of HVy lo' hi'. rewrite Elo, Elo'. cbn [size]. i64_lia.
Qed.

Lemma ComputeStridedSliceMap_spec orig form origin start stop_or_size stride dom offset :
  Valid (interval orig) -> in_i64 origin -> in_i64 start -> in_i64 stop_or_size ->
  in_i64 stride ->
  ComputeStridedSliceMap orig form origin start stop_or_size stride = Ok (dom, offset) ->
  exists new s stop explicit,
    ExtractStridedSlice orig form start stop_or_size stride = Ok (new, s) /\
    SliceStop (interval orig) form s stop_or_size stride = Ok (stop, explicit) /\
    Valid (interval dom) /\
    inclusive_min (interval dom) = (if origin =? kImplicit then Z.quot s stride else origin) /\
    (forall i, within (interval dom) i <-> selects s stop stride (offset + stride * i)) /\
    (forall i, within (interval dom) i ->
       within (effective_interval orig) (offset + stride * i)).
Proof.
  intros HV Ho H1 H2 H3 H. unfold ComputeStridedSliceMap in H.
  apply bind_Ok in H as ([new s] & Hnew & H). exists new, s.
  apply bind_Ok in H as (dom' & Hdom & H).
  destruct (ExtractStridedSlice_checked _ _ _ _ _ _ _ HV H1 H2 H3 Hnew)
    as (_ & stop & e & lo & hi & Hstop & Hc).
  exists stop, e. destruct (slice_spec _ _ _ _ _ _ _ Hc) as (HVn & Hmin & Hw).
  split; [exact Hnew|split; [exact Hstop|]].
  destruct (MulOverflow _ _) as [[|] m] eqn:Em; [destruct (SubOverflow _ _) as [[|] ?]; discriminate|].
  apply MulOverflow_false in Em as [-> _].
  destruct (SubOverflow _ _) as [[|] off] eqn:Eo; [discriminate|].
  apply SubOverflow_false in Eo as [-> _]. injection H as -> <-.
  assert (Hdom' : Valid (interval dom) /\
    inclusive_min (interval dom) = (if origin =? kImplicit then Z.quot s stride else origin) /\
    forall i, within (interval dom) i <->
      within (interval new) (i - inclusive_min (interval dom) + Z.quot s stride)).
  { destruct (origin =? kImplicit).
    - injection Hdom as <-. rewrite Hmin. split; [exact HVn|split; [reflexivity|]].
      intros i. f_equiv. lia.
    - apply bind_Ok in Hdom as (sh & Hsh & [= <-]). cbn [interval].
      destruct (ShiftIntervalTo_within _ _ _ HVn Ho Hsh) as (E & HVs & Hws).
      rewrite Hmin in Hws. auto. }
  destruct Hdom' as (HVd & Emin & Hwd).
  assert (Hsel : forall i, within (interval dom) i <->
    selects s stop stride (s - inclusive_min (interval dom) * stride + stride * i)).
  { intros i. rewrite Hwd, Hw. f_equiv. lia. }
  split; [exact HVd|split; [exact Emin|split; [exact Hsel|]]].
  intros i Hi%Hsel. eapply slice_contained; eassumption.
Qed.

(** A bound of the new domain is implicit only if the bound of the original that it
    comes from is. *)
Lemma ComputeStridedSliceMap_implicit orig form origin start stop_or_size stride dom offset :
  ComputeStridedSliceMap orig form origin start stop_or_size stride = Ok (dom, offset) ->
  stride <> 0 /\
  (implicit_lower dom = true ->
   (if stride >? 0 then implicit_lower orig else implicit_upper orig) = true) /\
  (implicit_upper dom = true ->
   (if stride >? 0 then implicit_upper orig else implicit_lower orig) = true).
Proof.
  intros H. unfold ComputeStridedSliceMap in H.
  apply bind_Ok in H as ([new s] & Hnew & (dom' & Hdom & H)%bind_Ok).
  assert (E : implicit_lower dom = implicit_lower new /\ implicit_upper dom = implicit_upper new).
  { assert (dom' = dom) as ->.
    { destruct (MulOverflow _ _) as [o1 m]. destruct (SubOverflow _ m) as [o2 off].
      destruct (o1 || o2); [discriminate|]. injection H as -> _. reflexivity. }
    destruct (origin =? kImplicit); [injection Hdom as <-; auto|].
    apply bind_Ok in Hdom as (sh & _ & [= <-]). auto. }
  destruct E as [-> ->]. clear H Hdom. unfold ExtractStridedSlice in Hnew.
  destruct (Z.eqb_spec stride 0) as [|H0]; [discriminate|]. split; [exact H0|].
  destruct (stride =? i64_min); [discriminate|]. cbn [orb] in Hnew.
  apply bind_Ok in Hnew as ([st lower] & Hs & ([stop e] & _ & Hnew)%bind_Ok).
  destruct (_ && _); [discriminate|].
  assert (Hlower : lower = true -> implicit_lower orig = true).
  { destruct (start =? kImplicit); [injection Hs as _ <-; auto|].
    destruct (IsValidIndex start); [injection Hs as _ <-; discriminate|discriminate]. }
  destruct (stride >? 0); apply bind_Ok in Hnew as (adj & _ & Hnew);
    (destruct (ContainsInterval _ _); [|discriminate]); injection Hnew as <- _;
    cbn [implicit_lower implicit_upper]; destruct e; split; auto; discriminate.
Qed.

(** [ComputeStridedSliceMap] returns an affine map from the new domain onto
    the slice: an index [i] is in the new domain exactly when
    [output_offset + stride * i] is a selected position, hence in the original
    domain, and a requested origin is where the new domain starts. *)
Theorem ComputeStridedSliceMap_correct orig form origin start stop_or_size stride dom offset :
  Valid (interval orig) -> in_i64 origin -> in_i64 start -> in_i64 stop_or_size ->
  in_i64 stride ->
  ComputeStridedSliceMap orig form origin start stop_or_size stride = Ok (dom, offset) ->
  exists new s stop explicit,
    ExtractStridedSlice orig form start stop_or_size stride = Ok (new, s) /\
    SliceStop (interval orig) form s stop_or_size stride = Ok (stop, explicit) /\
    Valid (interval dom) /\
    inclusive_min (interval dom) = (if origin =? kImplicit then Z.quot s stride else origin) /\
    (forall i, within (interval dom) i <-> selects s stop stride (offset + stride * i)) /\
    (forall i, within (interval dom) i ->
       within (effective_interval orig) (offset + stride * i)).
Proof. exact (ComputeStridedSliceMap_spec orig form origin start stop_or_size stride dom offset). Qed.

(** With a negative stride, the start bounds the original interval from above, but it
    clears the lower implicit bit: after the swap, the bound that the explicit start
    defines can be implicit, and the bound taken from an implicit lower bound of the
    original can be explicit. *)
Lemma negative_stride_implicit_bits :
  ExtractStridedSlice (MkOI (UncheckedClosed 0 10) false true) closed 7 kImplicit (-1) =
    Ok (MkOI (UncheckedClosed (-7) 0) true false, 7) /\
  ExtractStridedSlice (MkOI (UncheckedClosed 0 10) true false) closed 7 kImplicit (-1) =
    Ok (MkOI (UncheckedClosed (-7) 0) false false, 7) /\
  ExtractStridedSlice (MkOI (UncheckedClosed 0 10) true false) closed kImplicit 7 1 =
    Ok (MkOI (UncheckedClosed 0 7) true false, 0).
Proof. repeat split; vm_compute; reflexivity. Qed.

Lemma ComputeStridedSliceMap_correct_witness :
  let orig := MkOI (MkInterval 0 20) false false in
  let dom := MkOI (MkInterval 100 3) false false in
  ComputeStridedSliceMap orig sized 100 13 3 (-3) = Ok (dom, 313) /\
  within (effective_interval orig) (313 + -3 * 102).
Proof.
  intros orig dom.
  assert (HE : ComputeStridedSliceMap orig sized 100 13 3 (-3) = Ok (dom, 313))
    by (vm_compute; reflexivity).
  split; [exact HE|].
  assert (HV : Valid (interval orig)) by (apply validb_spec; vm_compute; reflexivity).
  assert (H0 : in_i64 100) by (split; vm_compute; discriminate).
  assert (H1 : in_i64 13) by (split; vm_compute; discriminate).
  assert (H2 : in_i64 3) by (split; vm_compute; discriminate).
  assert (H3 : in_i64 (-3)) by (split; vm_compute; discriminate).
  destruct (ComputeStridedSliceMap_correct orig sized 100 13 3 (-3) dom 313 HV H0 H1 H2 H3 HE)
    as (new & s & stop & e & _ & _ & _ & _ & _ & Hw).
  apply Hw. split; right; vm_compute; discriminate.
Defined.

(** * Implicit bounds and merging *)

(** A side of the merge: an implicit infinite bound is the neutral element. *)
Definition merge_bound (inf a : Z) (ia : bool) (b : Z) (ib : bool) : Result (Z * bool) :=
  if (a =? inf) && ia then Ok (b, ib)
  else if (b =? inf) && ib then Ok (a, ia)
  else if negb (a =? b) then Err kInvalidArgument
  else Ok (a, ia && ib).

Lemma merge_bound_comm inf a ia b ib : merge_bound inf a ia b ib = merge_bound inf b ib a ia.
Proof.
  unfold merge_bound.
  destruct (Z.eqb_spec a inf), (Z.eqb_spec b inf), (Z.eqb_spec a b), (Z.eqb_spec b a), ia, ib;
    subst; cbn; congruence || reflexivity.
Qed.

Lemma merge_bound_refl inf a ia : merge_bound inf a ia a ia = Ok (a, ia).
Proof. unfold merge_bound. rewrite Z.eqb_refl. destruct (a =? inf), ia; reflexivity. Qed.

(** Merging three bounds in either order gives the same bound or fails. *)
Lemma merge_bound_assoc inf a ia b ib c ic :
  ('(x, ix) ← merge_bound inf a ia b ib; merge_bound inf x ix c ic) =
  ('(x, ix) ← merge_bound inf b ib c ic; merge_bound inf a ia x ix).
Proof.
  unfold merge_bound.
  destruct (Z.eqb_spec a inf), (Z.eqb_spec b inf), (Z.eqb_spec c inf), (Z.eqb_spec a b),
    (Z.eqb_spec b c), (Z.eqb_spec a c), ia, ib, ic; subst; cbn; try congruence; try reflexivity;
    rewrite ?Z.eqb_refl; cbn; try reflexivity;
    repeat match goal with
    | |- context [?x =? ?y] => destruct (Z.eqb_spec x y); cbn; try congruence
    end; reflexivity.
Qed.

(** The interval of two merged sides. *)
Definition of_sides (lower upper : Result (Z * bool)) : Result OptionallyImplicitIndexInterval :=
  '(lo, l) ← lower; '(hi, u) ← upper; i ← Closed lo hi; Ok (MkOI i l u).

Definition merge_lower (a b : OptionallyImplicitIndexInterval) : Result (Z * bool) :=
  merge_bound (-kInfIndex) (inclusive_min (interval a)) (implicit_lower a)
    (inclusive_min (interval b)) (implicit_lower b).
Definition merge_upper (a b : OptionallyImplicitIndexInterval) : Result (Z * bool) :=
  merge_bound kInfIndex (inclusive_max (interval a)) (implicit_upper a)
    (inclusive_max (interval b)) (implicit_upper b).

Lemma Merge_bounds a b :
  Valid (interval a) ->
  MergeOptionallyImplicitIndexIntervals a b = of_sides (merge_lower a b) (merge_upper a b).
Proof.
  intros HV. unfold MergeOptionallyImplicitIndexIntervals.
  destruct (OI_eqb a b) eqn:E; [|reflexivity].
  apply OI_eqb_spec in E as <-. unfold merge_lower, merge_upper. rewrite !merge_bound_refl. cbn.
  bounds_of HV lo hi.
  unfold Closed. rewrite (proj2 (ValidClosed_spec lo hi ltac:(i64_lia) ltac:(i64_lia))) by lia.
  cbn. rewrite UncheckedClosed_eq, <- Elo by i64_lia. destruct a; reflexivity.
Qed.

Lemma merge_bound_err inf a ia b ib e :
  merge_bound inf a ia b ib = Err e -> e = kInvalidArgument.
Proof. unfold merge_bound. repeat case_if; congruence. Qed.

Lemma merge_bound_ok inf a ia b ib x ix :
  merge_bound inf a ia b ib = Ok (x, ix) ->
  (x = a \/ x = b) /\ (a = inf \/ a = x) /\ (b = inf \/ b = x).
Proof.
  unfold merge_bound. destruct (Z.eqb_spec a inf), (Z.eqb_spec b inf), (Z.eqb_spec a b), ia, ib;
    cbn; intros [= <- <-]; auto.
Qed.

Lemma Closed_dec lo hi :
  in_i64 lo -> in_i64 hi ->
  Closed lo hi = Err kInvalidArgument /\
    ~ (-kInfIndex <= lo < kInfIndex /\ -kInfIndex < hi <= kInfIndex /\ lo - 1 <= hi) \/
  Closed lo hi = Ok (MkInterval lo (hi - lo + 1)) /\
    -kInfIndex <= lo < kInfIndex /\ -kInfIndex < hi <= kInfIndex /\ lo - 1 <= hi.
Proof.
  intros H1 H2. pose proof (ValidClosed_spec lo hi H1 H2) as HC.
  destruct (Closed lo hi) as [x|e] eqn:E.
  - right. destruct (Closed_Ok _ _ _ H1 H2 E) as (_ & _ & _ & ->).
    split; [reflexivity|]. apply HC. unfold Closed in E.
    destruct (ValidClosed lo hi); [reflexivity|discriminate].
  - left. unfold Closed in E. destruct (ValidClosed lo hi); [discriminate|].
    injection E as <-. split; [reflexivity|]. intros H%HC. discriminate.
Qed.

(** The merge of three intervals, bound by bound. *)
Definition Merge3 (a b c : OptionallyImplicitIndexInterval) :=
  of_sides
    ('(x, ix) ← merge_lower a b;
     merge_bound (-kInfIndex) x ix (inclusive_min (interval c)) (implicit_lower c))
    ('(x, ix) ← merge_upper a b;
     merge_bound kInfIndex x ix (inclusive_max (interval c)) (implicit_upper c)).

Lemma Merge_then a b c :
  Valid (interval a) -> Valid (interval b) -> Valid (interval c) ->
  (x ← MergeOptionallyImplicitIndexIntervals a b; MergeOptionallyImplicitIndexIntervals x c)
  = Merge3 a b c.
Proof.
  intros Ha Hb Hc. rewrite Merge_bounds by exact Ha.
  unfold Merge3, of_sides, merge_lower, merge_upper.
  destruct (valid_in_i64 _ Ha), (valid_in_i64 _ Hb), (valid_in_i64 _ Hc).
  destruct (merge_bound (-kInfIndex) (inclusive_min (interval a)) _ _ _)
    as [[lo l]|e] eqn:E1; [|reflexivity].
  destruct (merge_bound kInfIndex (inclusive_max (interval a)) _ _ _) as [[hi u]|e] eqn:E2;
    cbn [mbind Result_bind].
  2: { apply merge_bound_err in E2 as ->.
       destruct (merge_bound _ lo l _ _) as [[lo3 l3]|e] eqn:E3; [reflexivity|].
       apply merge_bound_err in E3 as ->. reflexivity. }
  destruct (merge_bound_ok _ _ _ _ _ _ _ E1) as (Hlo & _ & _).
  destruct (merge_bound_ok _ _ _ _ _ _ _ E2) as (Hhi & _ & _).
  destruct (Closed_dec lo hi) as [[-> Hno]|[-> Hok]];
    [destruct Hlo as [-> | ->]; assumption|destruct Hhi as [-> | ->]; assumption|..];
    cbn [mbind Result_bind].
  - destruct (merge_bound _ lo l _ _) as [[lo3 l3]|e] eqn:E3;
      [|apply merge_bound_err in E3 as ->; reflexivity].
    destruct (merge_bound _ hi u _ _) as [[hi3 u3]|e] eqn:E4;
      [|apply merge_bound_err in E4 as ->; reflexivity].
    apply merge_bound_ok in E3 as (Hlo3 & Hlo3' & _), E4 as (Hhi3 & Hhi3' & _).
    cbn [mbind Result_bind].
    destruct (Closed_dec lo3 hi3) as [[-> _]|[_ Hok]];
      [destruct Hlo3 as [-> | ->]; try assumption; destruct Hlo as [-> | ->]; assumption
      |destruct Hhi3 as [-> | ->]; try assumption; destruct Hhi as [-> | ->]; assumption
      |reflexivity|].
    exfalso. apply Hno. revert Hlo Hhi. bounds_of Ha alo ahi. bounds_of Hb blo bhi. i64_lia.
  - destruct (mk_valid lo hi ltac:(tauto) ltac:(tauto) ltac:(tauto)) as (HV & _ & Emax & _).
    rewrite Merge_bounds by exact HV. unfold of_sides, merge_lower, merge_upper.
    cbn [interval implicit_lower implicit_upper inclusive_min].
    cbv zeta in Emax. rewrite Emax. reflexivity.
Qed.

Lemma Merge_comm a b :
  Valid (interval a) -> Valid (interval b) ->
  MergeOptionallyImplicitIndexIntervals a b = MergeOptionallyImplicitIndexIntervals b a.
Proof.
  intros Ha Hb. rewrite !Merge_bounds by assumption. unfold merge_lower, merge_upper.
  rewrite merge_bound_comm, (merge_bound_comm kInfIndex). reflexivity.
Qed.

Lemma Merge_Valid a b x :
  Valid (interval a) -> Valid (interval b) ->
  MergeOptionallyImplicitIndexIntervals a b = Ok x -> Valid (interval x).
Proof.
  intros Ha Hb. destruct (valid_in_i64 _ Ha), (valid_in_i64 _ Hb).
  rewrite Merge_bounds by exact Ha. unfold of_sides.
  intros ([lo l] & E1 & ([hi u] & E2 & (i & E3 & [= <-])%bind_Ok)%bind_Ok)%bind_Ok.
  apply merge_bound_ok in E1 as (Hlo & _), E2 as (Hhi & _).
  apply Closed_Ok in E3; [apply E3|destruct Hlo as [-> | ->]; assumption
    |destruct Hhi as [-> | ->]; assumption].
Qed.

Lemma Merge3_rotate a b c : Merge3 a b c = Merge3 b c a.
Proof.
  unfold Merge3, merge_lower, merge_upper.
  rewrite (merge_bound_assoc _ (inclusive_min (interval a))),
    (merge_bound_assoc _ (inclusive_max (interval a))). f_equal.
  - destruct (merge_bound _ (inclusive_min (interval b)) _ _ _) as [[x ix]|]; [|reflexivity].
    apply merge_bound_comm.
  - destruct (merge_bound _ (inclusive_max (interval b)) _ _ _) as [[x ix]|]; [|reflexivity].
    apply merge_bound_comm.
Qed.

(** merging implicit-bounds intervals is idempotent, commutative and
    associative, errors included, so a list of domains merges to the same result
    in any order; and the merge of valid intervals is valid. *)
Theorem MergeOptionallyImplicit_monoid a b c :
  Valid (interval a) -> Valid (interval b) -> Valid (interval c) ->
  MergeOptionallyImplicitIndexIntervals a a = Ok a /\
  MergeOptionallyImplicitIndexIntervals a b = MergeOptionallyImplicitIndexIntervals b a /\
  (x ← MergeOptionallyImplicitIndexIntervals a b; MergeOptionallyImplicitIndexIntervals x c) =
  (x ← MergeOptionallyImplicitIndexIntervals b c; MergeOptionallyImplicitIndexIntervals a x) /\
  (forall x, MergeOptionallyImplicitIndexIntervals a b = Ok x -> Valid (interval x)).
Proof.
  intros Ha Hb Hc. split; [|split; [apply Merge_comm; assumption|split]].
  - unfold MergeOptionallyImplicitIndexIntervals.
    rewrite (proj2 (OI_eqb_spec a a) eq_refl). reflexivity.
  - rewrite Merge_then, Merge3_rotate, <- Merge_then by assumption.
    destruct (MergeOptionallyImplicitIndexIntervals b c) as [x|] eqn:E; [|reflexivity].
    apply Merge_comm; [exact (Merge_Valid b c x Hb Hc E)|exact Ha].
  - intros x. apply Merge_Valid; assumption.
Qed.

Lemma MergeOptionallyImplicit_monoid_witness :
  let a := MkOI (MkInterval 3 (kInfIndex - 2)) false true in
  let b := MkOI (MkInterval (-kInfIndex) (kInfIndex + 10)) true false in
  let m := MkOI (MkInterval 3 7) false false in
  MergeOptionallyImplicitIndexIntervals a b = Ok m /\
  MergeOptionallyImplicitIndexIntervals b a = Ok m.
Proof.
  intros a b m.
  assert (Ha : Valid (interval a)) by (apply validb_spec; vm_compute; reflexivity).
  assert (Hb : Valid (interval b)) by (apply validb_spec; vm_compute; reflexivity).
  assert (E : MergeOptionallyImplicitIndexIntervals a b = Ok m) by (vm_compute; reflexivity).
  split; [exact E|]. rewrite <- E. symmetry.
  apply (MergeOptionallyImplicit_monoid a b b Ha Hb Hb).
Defined.
