(* ===== verification/Transform.v ===== *)
(** Index transforms: [index_space/internal/transform_rep.h],
    [transform_rep.cc], [identity_transform.cc], [translate_output_dimensions.cc]
    and [internal/dimension_labels.cc].

    A [TransformRep] is a list of input dimensions (the [InputDimensionRef] view
    of the parallel arrays [input_origin], [input_shape], [input_labels] and the
    two implicit-bound bit sets) and a list of output index maps.  Reference
    counts and capacities only decide when a representation is copied, which a
    functional model does not see.  The element pointer of an index array is the
    function from a byte offset to the [Index] stored there. *)

From stdpp Require Import strings sorting.
From S2P Require Import Prelude Int64 IndexInterval.

(** * Data *)

Record IndexArrayData := MkIndexArrayData {
  element_pointer : Z -> Z;
  index_range : IndexInterval;
  byte_strides : list Z
}.

(** The three states of [OutputIndexMap::value_]. *)
Inductive OutputIndexMethod :=
| constant
| single_input_dimension (input_dim : nat)
| array (data : IndexArrayData).

Record OutputIndexMap := MkOutputIndexMap {
  method : OutputIndexMethod;
  offset : Z;
  stride : Z
}.

Record IndexDomainDimension := MkDimension {
  optionally_implicit_domain : OptionallyImplicitIndexInterval;
  label : string
}.

Record TransformRep := MkTransform {
  input_dimensions : list IndexDomainDimension;
  output_index_maps : list OutputIndexMap
}.

Definition domain (d : IndexDomainDimension) : IndexInterval :=
  interval (optionally_implicit_domain d).
Definition input_rank (t : TransformRep) : nat := length (input_dimensions t).
Definition output_rank (t : TransformRep) : nat := length (output_index_maps t).
Definition input_domain (t : TransformRep) : list IndexInterval :=
  domain <$> input_dimensions t.

Definition is_implicit (d : IndexDomainDimension) : bool :=
  implicit_lower (optionally_implicit_domain d) || implicit_upper (optionally_implicit_domain d).

#[export] Instance OI_inhabited : Inhabited OptionallyImplicitIndexInterval :=
  populate OI_default.
#[export] Instance Interval_inhabited : Inhabited IndexInterval := populate Infinite.
#[export] Instance Dimension_inhabited : Inhabited IndexDomainDimension :=
  populate (MkDimension OI_default EmptyString).
#[export] Instance Map_inhabited : Inhabited OutputIndexMap :=
  populate (MkOutputIndexMap constant 0 0).
#[export] Instance Z_index_inhabited : Inhabited Z := populate 0.

(** [strided_layout.h]: [IndexInnerProduct] wraps. *)
Definition IndexInnerProduct (a b : list Z) : Z := wrap_on_overflow.InnerProduct a b.

(** [AddByteOffset]: the pointer moves, so offset [z] from the new pointer is
    [delta + z] from the old one. *)
Definition AddByteOffset (p : Z -> Z) (delta : Z) : Z -> Z :=
  fun z => p (wrap_on_overflow.Add delta z).

(** * Evaluation *)

(** The value that an output index map scales: the constant [0], an input index,
    or an index array element that passed the bounds check. *)
Definition base_output_index (m : OutputIndexMap) (input_indices : list Z) : Result Z :=
  match method m with
  | constant => Ok 0
  | single_input_dimension d => Ok (input_indices !!! d)
  | array data =>
      let v := element_pointer data (IndexInnerProduct input_indices (byte_strides data)) in
      _ ← CheckContains (index_range data) v; Ok v
  end.

(** [OutputIndexMap::operator()]. *)
Definition output_index (m : OutputIndexMap) (input_indices : list Z) : Result Z :=
  base ← base_output_index m input_indices;
  Ok ((base * stride m) + offset m)%i64.

(** The domain check that precedes the evaluation of the maps. *)
Fixpoint check_input_domain (dims : list IndexDomainDimension) (input_indices : list Z)
  : Result unit :=
  match dims, input_indices with
  | d :: dims, i :: input_indices =>
      if Contains (effective_interval (optionally_implicit_domain d)) i
      then check_input_domain dims input_indices
      else Err kOutOfRange
  | _, _ => Ok tt
  end.

Definition TransformIndices (data : TransformRep) (input_indices : list Z) : Result (list Z) :=
  _ ← check_input_domain (input_dimensions data) input_indices;
  mapR (fun m => output_index m input_indices) (output_index_maps data).

(** * Predicates and small updates *)

Definition IsDomainExplicitlyEmpty (t : TransformRep) : bool :=
  existsb (fun d => negb (is_implicit d) && (size (domain d) =? 0)) (input_dimensions t).

Definition constant_zero : OutputIndexMap := MkOutputIndexMap constant 0 0.

Definition is_array (m : OutputIndexMap) : bool :=
  match method m with array _ => true | _ => false end.

Definition ReplaceAllIndexArrayMapsWithConstantMaps (t : TransformRep) : TransformRep :=
  MkTransform (input_dimensions t)
    ((fun m => if is_array m then constant_zero else m) <$> output_index_maps t).

(** The new offset and stride of a map whose index array holds one element. *)
Definition ReplaceZeroRankIndexArrayIndexMap (index : Z) (bounds : IndexInterval)
  (output_offset output_stride : Z) : Result (Z * Z) :=
  _ ← CheckContains bounds index;
  let '(overflow1, new_offset) := MulOverflow index output_stride in
  let '(overflow2, new_offset) := AddOverflow new_offset output_offset in
  if overflow1 || overflow2 then Err kInvalidArgument else Ok (new_offset, 0).

(** The input dimensions that index some array, as one flag per dimension. *)
Definition GetIndexArrayInputDimensions (t : TransformRep) : list bool :=
  foldr (fun m set =>
      match method m with
      | array data => zip_with (fun b s => b || negb (s =? 0)) set (byte_strides data)
      | _ => set
      end)
    (replicate (input_rank t) false) (output_index_maps t).

(** [MutableRep] with [domain_only] drops the output index maps. *)
Definition MutableRep (t : TransformRep) (domain_only : bool) : TransformRep :=
  if domain_only then MkTransform (input_dimensions t) [] else t.

Definition set_implicit (d : IndexDomainDimension) (lower upper : bool) : IndexDomainDimension :=
  MkDimension (MkOI (domain d) lower upper) (label d).

Definition WithImplicitDimensions (t : TransformRep)
  (implicit_lower_bounds implicit_upper_bounds : list bool) (domain_only : bool)
  : TransformRep :=
  let t := MutableRep t domain_only in
  let index_array_dims := GetIndexArrayInputDimensions t in
  let explicit i := negb domain_only && (index_array_dims !!! i) in
  MkTransform
    (imap (fun i d => set_implicit d (implicit_lower_bounds !!! i && negb (explicit i))
                        (implicit_upper_bounds !!! i && negb (explicit i)))
       (input_dimensions t))
    (output_index_maps t).

Definition GetSubDomain (t : TransformRep) (dims : list nat) : TransformRep :=
  MkTransform ((fun d => input_dimensions t !!! d) <$> dims) [].

Definition IsUnlabeled (labels : list string) : bool :=
  forallb (fun s => String.eqb s EmptyString) labels.

Definition dimension_eqb (a b : IndexDomainDimension) : bool :=
  OI_eqb (optionally_implicit_domain a) (optionally_implicit_domain b) &&
  String.eqb (label a) (label b).

Definition AreDomainsEqual (a b : TransformRep) : bool :=
  Nat.eqb (input_rank a) (input_rank b) &&
  forallb (fun p => dimension_eqb p.1 p.2) (zip (input_dimensions a) (input_dimensions b)).

(** [TranslateOutputDimensionsBy]. *)
Definition TranslateOutputDimensionsBy (t : TransformRep) (offsets : list Z)
  : Result TransformRep :=
  if negb (Nat.eqb (length offsets) (output_rank t)) then Err kInvalidArgument
  else Ok (MkTransform (input_dimensions t)
    (zip_with (fun m o =>
         MkOutputIndexMap (method m) (wrap_on_overflow.Add (offset m) o) (stride m))
       (output_index_maps t) offsets)).

(** * Labels *)

Definition String_le (a b : string) : Prop := String.leb a b = true.
#[export] Instance String_le_dec : RelDecision String_le.
Proof. intros a b. unfold String_le. apply _. Defined.

(** [prev] is the element before [labels] in the sorted sequence. *)
Fixpoint adjacent_duplicate (prev : string) (labels : list string) : bool :=
  match labels with
  | [] => false
  | l :: labels => String.eqb l prev || adjacent_duplicate l labels
  end.

(** The loop that skips the empty labels at the front, from the second on. *)
Fixpoint skip_empty_labels (prev : string) (labels : list string) : bool :=
  match labels with
  | [] => false
  | l :: rest =>
      if String.eqb l EmptyString then skip_empty_labels l rest
      else adjacent_duplicate prev labels
  end.

Definition ValidateDimensionLabelsAreUnique (labels : list string) : Result unit :=
  match merge_sort String_le labels with
  | [] => Ok tt
  | l :: rest => if skip_empty_labels l rest then Err kInvalidArgument else Ok tt
  end.

(** * Identity transforms *)

Definition identity_map (i : nat) : OutputIndexMap :=
  MkOutputIndexMap (single_input_dimension i) 0 1.

(** [SetToIdentityTransform(maps)] on [rank] maps. *)
Definition SetToIdentityTransform (rank : nat) : list OutputIndexMap := identity_map <$> seq 0 rank.

Definition SetIdentityOutputOrDomainOnly (rank : nat) (domain_only : bool)
  : list OutputIndexMap :=
  if domain_only then [] else SetToIdentityTransform rank.

Definition MakeIdentityTransform (rank : nat) (domain_only : bool) : TransformRep :=
  MkTransform (replicate rank (MkDimension OI_default EmptyString))
    (SetIdentityOutputOrDomainOnly rank domain_only).

Definition MakeIdentityTransform_labels (labels : list string) (domain_only : bool)
  : TransformRep :=
  MkTransform (MkDimension OI_default <$> labels)
    (SetIdentityOutputOrDomainOnly (length labels) domain_only).

Definition MakeIdentityTransformLike (t : TransformRep) (domain_only : bool) : TransformRep :=
  MkTransform (input_dimensions t) (SetIdentityOutputOrDomainOnly (input_rank t) domain_only).

Definition MakeIdentityTransform_shape (shape : list Z) (domain_only : bool) : TransformRep :=
  MkTransform
    ((fun s => MkDimension (MkOI (UncheckedSized 0 s) false false) EmptyString) <$> shape)
    (SetIdentityOutputOrDomainOnly (length shape) domain_only).

Definition MakeIdentityTransform_box (box : list IndexInterval) (domain_only : bool)
  : TransformRep :=
  MkTransform ((fun i => MkDimension (MkOI i false false) EmptyString) <$> box)
    (SetIdentityOutputOrDomainOnly (length box) domain_only).

(** * Invariants *)

(** One output index map as [DebugCheckInvariants] asserts it. *)
Definition check_map (t : TransformRep) (m : OutputIndexMap) : bool :=
  match method m with
  | constant => stride m =? 0
  | single_input_dimension d => Nat.ltb d (input_rank t) && negb (stride m =? 0)
  | array data =>
      negb (stride m =? 0) && negb (IsDomainExplicitlyEmpty t) &&
      forallb (fun '(d, s) => (s =? 0) || (IsFinite (domain d) && negb (is_implicit d)))
        (zip (input_dimensions t) (byte_strides data))
  end.

Definition DebugCheckInvariants (t : TransformRep) : bool :=
  is_ok (ValidateDimensionLabelsAreUnique (label <$> input_dimensions t)) &&
  forallb (fun d => ValidSized (inclusive_min (domain d)) (size (domain d))) (input_dimensions t) &&
  forallb (check_map t) (output_index_maps t).

(** What the C++ types guarantee: [int64_t] fields, one byte stride per input
    dimension, and an index range constructed as an interval. *)
Definition typed_map (rank : nat) (m : OutputIndexMap) : Prop :=
  in_i64 (offset m) /\ in_i64 (stride m) /\
  match method m with
  | array data => length (byte_strides data) = rank /\ Valid (index_range data)
  | _ => True
  end.

Definition typed (t : TransformRep) : Prop :=
  Forall (fun d => in_i64 (inclusive_min (domain d)) /\ in_i64 (size (domain d)))
    (input_dimensions t) /\
  Forall (typed_map (input_rank t)) (output_index_maps t).

Definition WellFormed (t : TransformRep) : Prop :=
  DebugCheckInvariants t = true /\ typed t.

(** * Inner products modulo 2^64 *)

(** The exact inner product. *)
Definition dot (a b : list Z) : Z := foldr Z.add 0 (zip_with Z.mul a b).
Arguments dot : simpl never.

Lemma InnerProduct_from_dot sum a b :
  in_i64 sum -> wrap_on_overflow.InnerProduct_from sum a b = wrap64 (sum + dot a b).
Proof.
  revert sum b; induction a as [|x a IH]; intros sum [|y b] H; cbn.
  1-3: rewrite Z.add_0_r, wrap64_id by exact H; reflexivity.
  rewrite wrap_Add, wrap_Multiply, IH by apply wrap64_range.
  autorewrite with i64_wrap. f_equal. unfold dot. cbn. lia.
Qed.

Lemma IndexInnerProduct_dot a b : IndexInnerProduct a b = wrap64 (dot a b).
Proof.
  unfold IndexInnerProduct, wrap_on_overflow.InnerProduct.
  rewrite InnerProduct_from_dot by i64_lia. reflexivity.
Qed.

Lemma dot_comm a b : dot a b = dot b a.
Proof.
  unfold dot. revert b; induction a as [|x a IH]; intros [|y b]; cbn; [reflexivity..|].
  rewrite IH. lia.
Qed.

Lemma dot_nil_r a : dot a [] = 0.
Proof. destruct a; reflexivity. Qed.

Lemma dot_cons x a y b : dot (x :: a) (y :: b) = x * y + dot a b.
Proof. reflexivity. Qed.

(** Only the positions with a non-zero stride matter. *)
Lemma dot_agree a a' s :
  length a = length a' ->
  (forall i, s !!! i <> 0 -> a !!! i = a' !!! i) -> dot a s = dot a' s.
Proof.
  revert a' s; induction a as [|x a IH]; intros [|x' a'] [|y s] Hl H; try discriminate;
    [reflexivity..|].
  rewrite !dot_cons. f_equal.
  - destruct (Z.eq_dec y 0) as [->|Hy]; [lia|]. rewrite (H 0%nat Hy : x = x'). reflexivity.
  - apply IH; [injection Hl; auto|]. intros i. exact (H (S i)).
Qed.

(** * Domains *)

(** A dimension admits [v]: each of its two bounds is implicit, infinite or
    satisfied. *)
Definition admits_lower (d : OptionallyImplicitIndexInterval) (v : Z) : Prop :=
  implicit_lower d = true \/ above_min (interval d) v.
Definition admits_upper (d : OptionallyImplicitIndexInterval) (v : Z) : Prop :=
  implicit_upper d = true \/ below_max (interval d) v.
Definition admits (d : OptionallyImplicitIndexInterval) (v : Z) : Prop :=
  admits_lower d v /\ admits_upper d v.

Lemma admits_within d v :
  Valid (interval d) -> (within (effective_interval d) v <-> admits d v).
Proof.
  intros HV. destruct (effective_interval_bounds d HV) as (_ & E1 & E2 & _).
  unfold within, admits, admits_lower, admits_upper, above_min, below_max. rewrite E1, E2.
  destruct (implicit_lower d), (implicit_upper d); split; intros [H1 H2]; split; auto;
    destruct H1 as [H1|H1], H2 as [H2|H2]; first [discriminate H1|discriminate H2|auto].
Qed.

(** Not both empty and partly implicit: such a domain admits nothing through its
    bounds but something through its implicit side. *)
Definition proper (d : OptionallyImplicitIndexInterval) : Prop :=
  empty (interval d) = false \/ (implicit_lower d = false /\ implicit_upper d = false).
Definition properb (d : OptionallyImplicitIndexInterval) : bool :=
  negb (empty (interval d)) || (negb (implicit_lower d) && negb (implicit_upper d)).

Lemma properb_spec d : properb d = true <-> proper d.
Proof.
  unfold properb, proper. rewrite orb_true_iff, andb_true_iff, !negb_true_iff. reflexivity.
Qed.

Lemma proper_admits d v : Valid (interval d) -> proper d -> admits d v -> empty (interval d) = false.
Proof.
  intros HV [He|[El Eu]] [Hl Hu]; [exact He|]. unfold admits_lower, admits_upper, above_min, below_max in *.
  rewrite (inclusive_max_valid _ HV) in Hu. unfold empty, Valid in *. apply Z.eqb_neq. intros E.
  destruct Hl as [Hl|Hl]; [congruence|]. destruct Hu as [Hu|Hu]; [congruence|]. i64_lia.
Qed.

Lemma Contains_effective d v :
  Valid (interval d) ->
  (Contains (effective_interval d) v = true <-> IsFiniteIndex v = true /\ admits d v).
Proof.
  intros HV. rewrite <- admits_within by exact HV. apply Contains_within.
  apply effective_interval_bounds, HV.
Qed.

Definition in_domain (dims : list IndexDomainDimension) (input_indices : list Z) : Prop :=
  Forall2 (fun d i => IsFiniteIndex i = true /\ admits (optionally_implicit_domain d) i)
    dims input_indices.

Lemma in_domain_cons d dims i idx :
  in_domain (d :: dims) (i :: idx) <->
  (IsFiniteIndex i = true /\ admits (optionally_implicit_domain d) i) /\ in_domain dims idx.
Proof.
  split; [inversion 1; subst; auto|intros [H1 H2]; constructor; assumption].
Qed.

Definition valid_dims (dims : list IndexDomainDimension) : Prop :=
  Forall (fun d => Valid (domain d)) dims.

Lemma check_input_domain_Ok dims input_indices :
  valid_dims dims -> length input_indices = length dims ->
  (check_input_domain dims input_indices = Ok tt <-> in_domain dims input_indices).
Proof.
  revert input_indices; induction dims as [|d dims IH]; intros [|i idx] HV Hl; try discriminate.
  - split; [constructor|reflexivity].
  - apply Forall_cons in HV as [Hd HV]. injection Hl as Hl. cbn.
    rewrite in_domain_cons, <- Contains_effective by exact Hd.
    destruct (Contains _ i); [rewrite (IH idx HV Hl); tauto|].
    split; [discriminate|intros [H _]; discriminate].
Qed.

(** Every error of a transform evaluation is [kOutOfRange]. *)
Lemma check_input_domain_err dims input_indices e :
  check_input_domain dims input_indices = Err e -> e = kOutOfRange.
Proof.
  revert input_indices; induction dims as [|d dims IH]; intros [|i idx]; cbn; try discriminate.
  case_if; [exact (IH idx)|congruence].
Qed.

Lemma base_output_index_err m idx e : base_output_index m idx = Err e -> e = kOutOfRange.
Proof.
  unfold base_output_index, CheckContains. destruct (method m); try discriminate.
  case_if; cbn; congruence.
Qed.

Lemma mapR_err {A B} (f : A -> Result B) (e0 : StatusCode) l e :
  (forall x e, f x = Err e -> e = e0) -> mapR f l = Err e -> e = e0.
Proof.
  intros Hf. induction l as [|x l IH]; cbn; [discriminate|].
  destruct (f x) as [y|e'] eqn:E; cbn; [|intros [= <-]; exact (Hf x e' E)].
  destruct (mapR f l); cbn; [discriminate|exact IH].
Qed.

Lemma output_index_err m idx e : output_index m idx = Err e -> e = kOutOfRange.
Proof.
  unfold output_index. destruct (base_output_index m idx) eqn:E; cbn; [discriminate|].
  intros [= <-]. eapply base_output_index_err, E.
Qed.

Lemma TransformIndices_err t idx e : TransformIndices t idx = Err e -> e = kOutOfRange.
Proof.
  unfold TransformIndices. destruct (check_input_domain _ _) eqn:E; cbn.
  - apply mapR_err. intros m e'. apply output_index_err.
  - intros [= <-]. eapply check_input_domain_err, E.
Qed.

Lemma TransformIndices_Ok t idx out :
  valid_dims (input_dimensions t) -> length idx = input_rank t ->
  (TransformIndices t idx = Ok out <->
   in_domain (input_dimensions t) idx /\
   Forall2 (fun m o => output_index m idx = Ok o) (output_index_maps t) out).
Proof.
  intros HV Hl. unfold TransformIndices. rewrite bind_Ok, <- mapR_Ok. split.
  - intros ([] & E & H). split; [apply check_input_domain_Ok; assumption|exact H].
  - intros [H1 H2]. exists tt. split; [apply check_input_domain_Ok; assumption|exact H2].
Qed.

(** In the domain, the evaluation is the evaluation of the maps. *)
Lemma TransformIndices_in_domain t idx :
  valid_dims (input_dimensions t) -> in_domain (input_dimensions t) idx ->
  TransformIndices t idx = mapR (fun m => output_index m idx) (output_index_maps t).
Proof.
  intros HV Hin. unfold TransformIndices.
  assert (Hl : length idx = length (input_dimensions t))
    by (symmetry; eapply Forall2_length, Hin).
  rewrite (proj2 (check_input_domain_Ok _ _ HV Hl) Hin). reflexivity.
Qed.

Lemma WellFormed_valid_dims t : WellFormed t -> valid_dims (input_dimensions t).
Proof.
  unfold WellFormed, DebugCheckInvariants. intros [HD [HT _]].
  apply andb_true_iff in HD as [HD _]. apply andb_true_iff in HD as [_ HD].
  unfold valid_dims. rewrite Forall_forall in HT |- *. intros d Hd.
  specialize (HT d Hd) as [H1 H2]. rewrite forallb_forall in HD.
  specialize (HD d (proj1 (list_elem_of_In _ _) Hd)).
  destruct (domain d) as [m s]. cbn in *. apply ValidSized_spec in HD; assumption.
Qed.

Lemma WellFormed_map t m :
  WellFormed t -> m ∈ output_index_maps t ->
  check_map t m = true /\ typed_map (input_rank t) m.
Proof.
  unfold WellFormed, DebugCheckInvariants. intros [HD [_ HT]] Hm.
  apply andb_true_iff in HD as [_ HD]. rewrite forallb_forall in HD.
  split; [apply HD, list_elem_of_In, Hm|]. rewrite Forall_forall in HT. apply HT, Hm.
Qed.

(** * Labels are unique *)

Lemma String_compare_trans a b c :
  String.compare a b <> Gt -> String.compare b c <> Gt -> String.compare a c <> Gt.
Proof.
  revert b c; induction a as [|x a IH]; intros [|y b] [|z c]; cbn; try congruence.
  unfold Ascii.compare. intros H1 H2.
  destruct (N.compare_spec (Ascii.N_of_ascii x) (Ascii.N_of_ascii y)) as [E1|E1|E1];
    [..|congruence];
  destruct (N.compare_spec (Ascii.N_of_ascii y) (Ascii.N_of_ascii z)) as [E2|E2|E2];
    try congruence.
  - rewrite E1, E2, N.compare_refl. exact (IH b c H1 H2).
  - rewrite E1, (proj2 (N.compare_lt_iff _ _) E2). discriminate.
  - rewrite <- E2, (proj2 (N.compare_lt_iff _ _) E1). discriminate.
  - rewrite (proj2 (N.compare_lt_iff _ _) (N.lt_trans _ _ _ E1 E2)). discriminate.
Qed.

Lemma String_le_compare a b : String_le a b <-> String.compare a b <> Gt.
Proof. unfold String_le, String.leb. destruct (String.compare a b); split; congruence. Qed.

#[export] Instance String_le_trans : Transitive String_le.
Proof. intros a b c. rewrite !String_le_compare. apply String_compare_trans. Qed.

#[export] Instance String_le_total : Total String_le.
Proof. intros a b. unfold String_le. destruct (String.leb_total a b); auto. Qed.

Lemma String_le_empty a : String_le a EmptyString -> a = EmptyString.
Proof. destruct a; [reflexivity|discriminate]. Qed.

Lemma String_le_antisym a b : String_le a b -> String_le b a -> a = b.
Proof. apply String.leb_antisym. Qed.

Lemma adjacent_duplicate_spec p l :
  StronglySorted String_le (p :: l) -> (adjacent_duplicate p l = false <-> NoDup (p :: l)).
Proof.
  revert p; induction l as [|x l IH]; intros p Hs; cbn.
  - split; [intros _; apply NoDup_singleton|reflexivity].
  - apply StronglySorted_inv in Hs as [Hs Hp].
    rewrite orb_false_iff, String.eqb_neq, (IH x Hs), NoDup_cons.
    rewrite (NoDup_cons p). split.
    + intros [Hne [Hx Hn]]. split; [|apply NoDup_cons; auto].
      intros [->|Hin]%elem_of_cons; [congruence|].
      apply Forall_cons in Hp as [Hp _]. apply Hne, String_le_antisym; [|exact Hp].
      apply StronglySorted_inv in Hs as [_ Hs]. rewrite Forall_forall in Hs.
      exact (Hs _ Hin).
    + intros [Hp' [Hx Hn]%NoDup_cons]. split; [|auto]. intros ->. apply Hp', list_elem_of_here.
Qed.

(** The non-empty labels. *)
Definition labelled (labels : list string) : list string :=
  filter (fun s => s <> EmptyString) labels.

Lemma labelled_all l : EmptyString ∉ l -> labelled l = l.
Proof.
  unfold labelled. induction l as [|x l IH]; [reflexivity|]. intros H.
  apply not_elem_of_cons in H as [H1 H2].
  rewrite filter_cons_True by congruence. rewrite IH by exact H2. reflexivity.
Qed.

Lemma skip_empty_labels_spec p l :
  StronglySorted String_le (p :: l) ->
  (skip_empty_labels p l = false <-> NoDup (labelled (p :: l))).
Proof.
  revert p; induction l as [|x l IH]; intros p Hs; cbn [skip_empty_labels].
  - split; [intros _|reflexivity]. unfold labelled. rewrite filter_cons.
    case_decide; [apply NoDup_singleton|apply NoDup_nil_2].
  - pose proof (StronglySorted_inv Hs) as [Hs' Hp].
    destruct (String.eqb_spec x EmptyString) as [->|Hx].
    + rewrite (IH _ Hs'). apply Forall_cons in Hp as [Hp _].
      apply String_le_empty in Hp as ->.
      unfold labelled. rewrite (filter_cons_False _ EmptyString (EmptyString :: l)) by auto.
      reflexivity.
    + rewrite (adjacent_duplicate_spec _ _ Hs).
      assert (Hne : EmptyString ∉ x :: l).
      { intros [E|Hin]%elem_of_cons; [congruence|].
        apply StronglySorted_inv in Hs' as [_ Hs']. rewrite Forall_forall in Hs'.
        apply Hx, String_le_empty, Hs', Hin. }
      destruct (decide (p = EmptyString)) as [->|Hpe].
      * unfold labelled. rewrite filter_cons_False by auto.
        fold (labelled (x :: l)). rewrite labelled_all by exact Hne.
        rewrite NoDup_cons. tauto.
      * rewrite labelled_all; [reflexivity|]. rewrite not_elem_of_cons. auto.
Qed.

Lemma labels_unique_spec labels :
  ValidateDimensionLabelsAreUnique labels =
  if decide (NoDup (labelled labels)) then Ok tt else Err kInvalidArgument.
Proof.
  unfold ValidateDimensionLabelsAreUnique.
  assert (Hperm : labelled (merge_sort String_le labels) ≡ₚ labelled labels)
    by (unfold labelled; rewrite merge_sort_Permutation; reflexivity).
  assert (Hiff : NoDup (labelled labels) <-> NoDup (labelled (merge_sort String_le labels)))
    by (rewrite Hperm; reflexivity).
  pose proof (StronglySorted_merge_sort String_le labels) as Hs.
  destruct (merge_sort String_le labels) as [|l rest].
  - rewrite decide_True; [reflexivity|]. apply Hiff, NoDup_nil_2.
  - pose proof (skip_empty_labels_spec l rest Hs) as Hk.
    destruct (skip_empty_labels l rest).
    + rewrite decide_False; [reflexivity|]. rewrite Hiff, <- Hk. discriminate.
    + rewrite decide_True; [reflexivity|]. apply Hiff, Hk. reflexivity.
Qed.

Lemma labelled_app l k : labelled (l ++ k) = labelled l ++ labelled k.
Proof. apply filter_app. Qed.

Lemma labelled_blank n : labelled (replicate n EmptyString) = [].
Proof.
  unfold labelled. induction n as [|n IH]; [reflexivity|]. cbn [replicate].
  rewrite filter_cons_False by congruence. exact IH.
Qed.

(** Labels given to distinct items are distinct unless they are empty. *)
Lemma NoDup_labelled_fmap {A} (f : A -> string) l :
  NoDup l -> (forall x y, x ∈ l -> y ∈ l -> f x = f y -> f x <> EmptyString -> x = y) ->
  NoDup (labelled (f <$> l)).
Proof.
  unfold labelled. induction 1 as [|x l Hx _ IH]; intros H; cbn [fmap list_fmap]; [apply NoDup_nil_2|].
  rewrite filter_cons. case_decide as Hne.
  - apply NoDup_cons. split.
    + intros [_ (y & E & Hy)%list_elem_of_fmap]%list_elem_of_filter. apply Hx.
      rewrite (H x y (list_elem_of_here _ _) (list_elem_of_further _ _ _ Hy) E Hne). exact Hy.
    + apply IH. intros; apply H; try assumption; right; assumption.
  - apply IH. intros; apply H; try assumption; right; assumption.
Qed.

Lemma labelled_unique l i j s :
  NoDup (labelled l) -> l !! i = Some s -> l !! j = Some s -> s <> EmptyString -> i = j.
Proof.
  unfold labelled. revert i j; induction l as [|x l IH]; intros i j HN Hi Hj Hs; [discriminate|].
  rewrite filter_cons in HN.
  assert (Hhead : forall k, l !! k = Some s -> x <> s).
  { intros k Hk ->. rewrite decide_True in HN by exact Hs. apply NoDup_cons in HN as [HN _].
    apply HN, list_elem_of_filter. split; [exact Hs|exact (list_elem_of_lookup_2 _ _ _ Hk)]. }
  destruct i as [|i], j as [|j]; cbn in Hi, Hj.
  - reflexivity.
  - injection Hi as ->. destruct (Hhead j Hj eq_refl).
  - injection Hj as ->. destruct (Hhead i Hi eq_refl).
  - f_equal. apply IH; try assumption. case_decide; [apply NoDup_cons in HN; tauto|exact HN].
Qed.

(** The sort-and-scan check of [ValidateDimensionLabelsAreUnique] accepts
    exactly the label lists whose non-empty labels are pairwise distinct. *)
Theorem ValidateDimensionLabelsAreUnique_correct labels :
  ValidateDimensionLabelsAreUnique labels =
  if decide (NoDup (labelled labels)) then Ok tt else Err kInvalidArgument.
Proof. exact (labels_unique_spec labels). Qed.

(** * An executable well-formedness check *)

Definition typed_mapb (rank : nat) (m : OutputIndexMap) : bool :=
  in_i64b (offset m) && in_i64b (stride m) &&
  match method m with
  | array data => Nat.eqb (length (byte_strides data)) rank && validb (index_range data)
  | _ => true
  end.

Definition WellFormedb (t : TransformRep) : bool :=
  DebugCheckInvariants t &&
  forallb (fun d => in_i64b (inclusive_min (domain d)) && in_i64b (size (domain d)))
    (input_dimensions t) &&
  forallb (typed_mapb (input_rank t)) (output_index_maps t).

Lemma typed_mapb_spec rank m : typed_mapb rank m = true -> typed_map rank m.
Proof.
  unfold typed_mapb, typed_map. rewrite !andb_true_iff, !in_i64b_spec.
  intros [[H1 H2] H3]. split; [exact H1|split; [exact H2|]].
  destruct (method m); auto. apply andb_true_iff in H3 as [H3 H4].
  apply Nat.eqb_eq in H3. apply validb_spec in H4. auto.
Qed.

Lemma WellFormedb_spec t : WellFormedb t = true -> WellFormed t.
Proof.
  unfold WellFormedb. rewrite !andb_true_iff, !forallb_forall. intros [[H1 H2] H3].
  split; [exact H1|]. split; apply Forall_forall; intros x Hx%list_elem_of_In.
  - specialize (H2 x Hx). rewrite andb_true_iff, !in_i64b_spec in H2. exact H2.
  - apply typed_mapb_spec, H3, Hx.
Qed.

Lemma lookup_total_nonzero (l : list Z) i : l !!! i <> 0 -> (i < length l)%nat.
Proof.
  intros Hi. destruct (Nat.lt_ge_cases i (length l)) as [|Hge]; [assumption|].
  exfalso. apply Hi. rewrite list_lookup_total_alt, lookup_ge_None_2 by exact Hge. reflexivity.
Qed.

Lemma lookup_total_fmap {A B} `{!Inhabited B} (f : A -> B) (l : list A) (i : nat) x :
  l !! i = Some x -> (f <$> l) !!! i = f x.
Proof. intros H. apply list_lookup_total_correct. rewrite list_lookup_fmap, H. reflexivity. Qed.

(** A dimension that an index array depends on is explicit and finite. *)
Lemma WellFormed_array t m data i :
  WellFormed t -> m ∈ output_index_maps t -> method m = array data ->
  byte_strides data !!! i <> 0 ->
  exists d, input_dimensions t !! i = Some d /\
    implicit_lower (optionally_implicit_domain d) = false /\
    implicit_upper (optionally_implicit_domain d) = false /\
    IsFinite (domain d) = true.
Proof.
  intros HW Hm Hd Hi. destruct (WellFormed_map t m HW Hm) as [Hc (_ & _ & Ht)].
  unfold check_map in Hc. rewrite Hd in Hc, Ht. destruct Ht as [Hl _].
  apply andb_true_iff in Hc as [_ Hc]. rewrite forallb_forall in Hc.
  pose proof (lookup_total_nonzero _ _ Hi) as Hlt.
  destruct (lookup_lt_is_Some_2 _ _ Hlt) as [s Hs].
  rewrite (list_lookup_total_correct _ _ _ Hs) in Hi.
  destruct (lookup_lt_is_Some_2 (input_dimensions t) i) as [d Hdi];
    [unfold input_rank in Hl; lia|].
  exists d. split; [exact Hdi|].
  assert (Hz : In (d, s) (zip (input_dimensions t) (byte_strides data))).
  { apply list_elem_of_In, list_elem_of_lookup_2 with i. rewrite lookup_zip_with, Hdi. cbn.
    rewrite Hs. reflexivity. }
  specialize (Hc _ Hz). cbv beta iota in Hc. unfold is_implicit in Hc.
  destruct (Z.eqb_spec s 0); [contradiction|]. cbn [orb] in Hc. bool_to_prop. auto.
Qed.

(** * Evaluating single maps *)

(** The wrapped affine function that a map applies to its base index. *)
Definition affine (v s o : Z) : Z := wrap64 (v * s + o).

Lemma affine_wrap_l v s o : affine (wrap64 v) s o = affine v s o.
Proof. unfold affine. rewrite <- wrap64_add_l, wrap64_mul_l, wrap64_add_l. reflexivity. Qed.

Lemma affine_compose v sa oa sb ob :
  affine (affine v sa oa) sb ob = affine v (sa * sb) (ob + oa * sb).
Proof. unfold affine at 2. rewrite affine_wrap_l. unfold affine. f_equal. lia. Qed.

Lemma output_index_Ok m idx o :
  output_index m idx = Ok o <->
  exists v, base_output_index m idx = Ok v /\ o = affine v (stride m) (offset m).
Proof.
  unfold output_index, affine. rewrite bind_Ok.
  split; intros (v & E & H); exists v; (split; [exact E|]); congruence.
Qed.

Lemma output_index_base m idx v :
  base_output_index m idx = Ok v -> output_index m idx = Ok (affine v (stride m) (offset m)).
Proof. intros E. apply output_index_Ok. eauto. Qed.

Lemma base_array_Ok m idx data v :
  method m = array data -> base_output_index m idx = Ok v ->
  v = element_pointer data (IndexInnerProduct idx (byte_strides data)) /\
  Contains (index_range data) v = true.
Proof.
  unfold base_output_index, CheckContains. intros -> (u & H & [= <-])%bind_Ok.
  destruct (Contains _ _); [auto|discriminate].
Qed.

Lemma ReplaceZeroRank_Ok index bounds o s o' s' :
  ReplaceZeroRankIndexArrayIndexMap index bounds o s = Ok (o', s') ->
  Contains bounds index = true /\ o' = index * s + o /\ in_i64 o' /\ s' = 0.
Proof.
  unfold ReplaceZeroRankIndexArrayIndexMap, CheckContains.
  destruct (Contains bounds index); [|discriminate]. cbn [mbind Result_bind].
  destruct (MulOverflow index s) as [[|] p] eqn:E1.
  { destruct (AddOverflow p o); discriminate. }
  apply MulOverflow_false in E1 as [-> _].
  destruct (AddOverflow (index * s) o) as [[|] q] eqn:E2; [discriminate|].
  apply AddOverflow_false in E2 as [-> HR]. cbn [orb]. intros [= <- <-]. auto.
Qed.

(** A constant map returns its offset. *)
Lemma output_constant o idx :
  in_i64 o -> output_index (MkOutputIndexMap constant o 0) idx = Ok o.
Proof.
  intros Ho. unfold output_index, base_output_index. cbn [method stride offset mbind Result_bind].
  rewrite Z.mul_0_l, Z.add_0_l, wrap64_id by exact Ho. reflexivity.
Qed.

(** The interval of one element. *)
Lemma within_singleton x v : Valid x -> size x = 1 -> within x v -> v = inclusive_min x.
Proof.
  intros HV Hs [H1 H2]. rewrite inclusive_max_valid in H2 by exact HV.
  unfold Valid in HV. rewrite Hs in *. i64_lia.
Qed.

(** Evaluating the maps at [idx] stays in the finite index range, so that no
    signed arithmetic of the code overflows. *)
Definition evaluates_finite (t : TransformRep) (idx : list Z) : Prop :=
  Forall (fun m => forall v, base_output_index m idx = Ok v ->
    IsFiniteIndex (offset m + stride m * v) = true) (output_index_maps t).

(** The output index before it wraps to 64 bits. *)
Definition exact_index (m : OutputIndexMap) (idx : list Z) : Result Z :=
  v ← base_output_index m idx; Ok (offset m + stride m * v).

Lemma output_index_exact m idx : output_index m idx = (z ← exact_index m idx; Ok (wrap64 z)).
Proof.
  unfold output_index, exact_index. destruct (base_output_index m idx) as [v|e]; [|reflexivity]. cbn.
  f_equal. f_equal. lia.
Qed.

Lemma exact_index_base m idx v : base_output_index m idx = Ok v -> exact_index m idx = Ok (offset m + stride m * v).
Proof. unfold exact_index. intros ->. reflexivity. Qed.

Lemma exact_constant o idx : exact_index (MkOutputIndexMap constant o 0) idx = Ok o.
Proof. unfold exact_index. cbn. f_equal. lia. Qed.

Lemma evaluates_finite_exact t idx :
  evaluates_finite t idx <->
  Forall (fun m => forall z, exact_index m idx = Ok z -> IsFiniteIndex z = true) (output_index_maps t).
Proof.
  unfold evaluates_finite, exact_index. rewrite !Forall_forall. split; intros H m Hm z Hz.
  - apply bind_Ok in Hz as (v & Hv & [= <-]). exact (H m Hm v Hv).
  - apply (H m Hm). rewrite Hz. reflexivity.
Qed.

Lemma finite_in_i64 v : IsFiniteIndex v = true -> in_i64 v.
Proof. rewrite IsFiniteIndex_spec. i64_lia. Qed.

Lemma affine_exact v s o : in_i64 (o + s * v) -> affine v s o = o + s * v.
Proof. intros H. unfold affine. rewrite Z.mul_comm, Z.add_comm, wrap64_id; [reflexivity|exact H]. Qed.

(** * Change of index *)

(** A failed domain check. *)
Lemma check_input_domain_fails dims idx :
  valid_dims dims -> length idx = length dims -> ~ in_domain dims idx ->
  check_input_domain dims idx = Err kOutOfRange.
Proof.
  intros HV Hl Hn. destruct (check_input_domain dims idx) as [[]|e] eqn:E.
  - exfalso. apply Hn, check_input_domain_Ok; assumption.
  - rewrite (check_input_domain_err _ _ _ E). reflexivity.
Qed.

Lemma mapR_Forall2 {A A' B} (f : A -> Result B) (g : A' -> Result B) l l' :
  Forall2 (fun x y => g y = f x) l l' -> mapR g l' = mapR f l.
Proof. induction 1 as [|x y l l' E _ IH]; cbn; [reflexivity|]. rewrite E, IH. reflexivity. Qed.

(** Two transforms whose domains correspond at a pair of index vectors, and whose
    maps agree there, evaluate alike, errors included. *)
Lemma TransformIndices_reindex t t' idx idx' :
  valid_dims (input_dimensions t) -> valid_dims (input_dimensions t') ->
  length idx = input_rank t -> length idx' = input_rank t' ->
  (in_domain (input_dimensions t') idx' <-> in_domain (input_dimensions t) idx) ->
  (in_domain (input_dimensions t) idx ->
   Forall2 (fun m m' => output_index m' idx' = output_index m idx)
     (output_index_maps t) (output_index_maps t')) ->
  TransformIndices t' idx' = TransformIndices t idx.
Proof.
  intros HV HV' Hl Hl' Hd Hm.
  destruct (check_input_domain (input_dimensions t) idx) as [[]|e] eqn:E.
  - apply check_input_domain_Ok in E; [|assumption..].
    rewrite !TransformIndices_in_domain by tauto. apply mapR_Forall2, Hm, E.
  - assert (Hn : ~ in_domain (input_dimensions t) idx)
      by (intros H; apply check_input_domain_Ok in H; [congruence|assumption..]).
    unfold TransformIndices.
    rewrite !check_input_domain_fails by tauto. reflexivity.
Qed.

Lemma in_domain_alt dims idx :
  in_domain dims idx <-> length idx = length dims /\
    forall i d v, dims !! i = Some d -> idx !! i = Some v ->
      IsFiniteIndex v = true /\ admits (optionally_implicit_domain d) v.
Proof.
  unfold in_domain. rewrite Forall2_same_length_lookup. split; intros [H1 H2]; auto.
Qed.

Lemma dot_add a b s :
  length a = length b -> dot (zip_with Z.add a b) s = dot a s + dot b s.
Proof.
  unfold dot. revert b s; induction a as [|x a IH]; intros [|y b] [|z s] H; try discriminate;
    cbn; [reflexivity..|]. rewrite IH by (injection H; auto). lia.
Qed.

Lemma dot_sub a b s :
  length a = length b -> dot (zip_with Z.sub a b) s = dot a s - dot b s.
Proof.
  revert b s; induction a as [|x a IH]; intros [|y b] [|z s] Hl; try discriminate; try reflexivity.
  injection Hl as Hl. cbn. rewrite !dot_cons, IH by exact Hl. lia.
Qed.

(** Domains that correspond dimension by dimension. *)
Lemma in_domain_pointwise dims dims' idx idx' :
  length dims' = length dims -> length idx = length dims -> length idx' = length dims ->
  Forall (fun v => IsFiniteIndex v = true) idx -> Forall (fun v => IsFiniteIndex v = true) idx' ->
  (forall i d d' v v', dims !! i = Some d -> dims' !! i = Some d' ->
     idx !! i = Some v -> idx' !! i = Some v' ->
     (admits (optionally_implicit_domain d') v' <-> admits (optionally_implicit_domain d) v)) ->
  (in_domain dims' idx' <-> in_domain dims idx).
Proof.
  intros L1 L2 L3 F F' H. rewrite !in_domain_alt.
  split; intros [_ Hin]; (split; [lia|]); intros i d v Hd Hv.
  - destruct (lookup_lt_is_Some_2 dims' i) as [d' Hd']; [apply lookup_lt_Some in Hd; lia|].
    destruct (lookup_lt_is_Some_2 idx' i) as [v' Hv']; [apply lookup_lt_Some in Hd; lia|].
    split; [exact (Forall_lookup_1 _ _ _ _ F Hv)|].
    apply (H i d d' v v' Hd Hd' Hv Hv'), (Hin i d' v' Hd' Hv').
  - destruct (lookup_lt_is_Some_2 dims i) as [d0 Hd0]; [apply lookup_lt_Some in Hd; lia|].
    destruct (lookup_lt_is_Some_2 idx i) as [v0 Hv0]; [apply lookup_lt_Some in Hd; lia|].
    split; [exact (Forall_lookup_1 _ _ _ _ F' Hv)|].
    apply (H i d0 d v0 v Hd0 Hd Hv0 Hv), (Hin i d0 v0 Hd0 Hv0).
Qed.

Lemma Forall2_from {A B} (P Q : A -> B -> Prop) l k :
  Forall2 P l k -> (forall x y, x ∈ l -> P x y -> Q x y) -> Forall2 Q l k.
Proof.
  induction 1 as [|x y l k Hxy _ IH]; intros HQ; constructor.
  - apply HQ; [apply list_elem_of_here|exact Hxy].
  - apply IH. intros a b Ha. apply HQ, list_elem_of_further, Ha.
Qed.

(** The dimension a map reads is a dimension of the transform. *)
Lemma single_in_range t m i :
  WellFormed t -> m ∈ output_index_maps t -> method m = single_input_dimension i ->
  (i < input_rank t)%nat.
Proof.
  intros HW Hm Hi. destruct (WellFormed_map t m HW Hm) as [Hc _].
  unfold check_map in Hc. rewrite Hi in Hc. apply andb_true_iff in Hc as [Hc _].
  apply Nat.ltb_lt, Hc.
Qed.

(** The single element of a dimension. *)
Lemma admits_single m v :
  IsFiniteIndex m = true ->
  (admits (MkOI (MkInterval m 1) false false) v <-> v = m).
Proof.
  intros Hm%IsFiniteIndex_spec.
  destruct (mk_valid m m) as (_ & E1 & E2 & _); [i64_lia..|].
  replace (m - m + 1) with 1 in E1, E2 by lia.
  unfold admits, admits_lower, admits_upper, above_min, below_max. cbn [interval implicit_lower
    implicit_upper]. rewrite E1, E2. split; [|intros ->; auto with lia].
  intros [[[=]|H1] [[=]|H2]]. i64_lia.
Qed.

(** An explicit dimension of one element. *)
Lemma explicit_singleton d v :
  Valid (domain d) -> implicit_lower (optionally_implicit_domain d) = false ->
  implicit_upper (optionally_implicit_domain d) = false -> size (domain d) = 1 ->
  (admits (optionally_implicit_domain d) v <-> v = inclusive_min (domain d)) /\
  in_i64 (inclusive_min (domain d)).
Proof.
  unfold domain. destruct d as [[[m n] l u] lab]. cbn. intros HV -> -> ->.
  assert (Hf : IsFiniteIndex m = true)
    by (apply IsFiniteIndex_spec; unfold Valid in HV; cbn in HV; i64_lia).
  split; [exact (admits_single m v Hf)|exact (finite_in_i64 m Hf)].
Qed.

(** An index vector in the domain shows that the domain is not empty. *)
Lemma in_domain_not_explicitly_empty t idx :
  valid_dims (input_dimensions t) -> in_domain (input_dimensions t) idx ->
  IsDomainExplicitlyEmpty t = false.
Proof.
  intros HV Hin. unfold IsDomainExplicitlyEmpty. apply not_true_is_false. intros H.
  apply existsb_exists in H as (d & Hd%list_elem_of_In & H).
  apply andb_true_iff in H as [Hi Hs%Z.eqb_eq].
  apply list_elem_of_lookup_1 in Hd as [i Hd].
  destruct (Forall2_lookup_l _ _ _ _ _ Hin Hd) as (v & _ & _ & [Hlo Hhi]).
  pose proof (Forall_lookup_1 _ _ _ _ HV Hd) as HVd.
  unfold is_implicit in Hi. apply negb_true_iff, orb_false_iff in Hi as [Hl Hu].
  unfold admits_lower, admits_upper, above_min, below_max in *. rewrite Hl in Hlo.
  rewrite Hu in Hhi. destruct Hlo as [[=]|Hlo], Hhi as [[=]|Hhi].
  unfold domain in *. rewrite inclusive_max_valid in Hhi by exact HVd.
  unfold Valid in HVd. i64_lia.
Qed.
