(* ===== verification/PropagateBounds.v ===== *)
(** Propagation of output bounds to input bounds:
    [index_space/internal/propagate_bounds.cc].

    The domain of "b" and of the result "a" are lists of
    [OptionallyImplicitIndexInterval], one per dimension: the [BoxView] and the
    two [DimensionSet] arguments of the code.  A [None] transform is the null
    pointer that stands for the identity. *)

From stdpp Require Import strings.
From S2P Require Import Prelude Int64 IndexInterval Transform.

(** * Definitions *)

(** The bounds inferred so far for a dimension of "a", with its bit of
    [propagated_to_a]. *)
Record Inferred := MkInferred {
  inferred_bounds : OptionallyImplicitIndexInterval;
  propagated : bool
}.

Definition initial_inferred : Inferred := MkInferred OI_default false.
#[export] Instance Inferred_inhabited : Inhabited Inferred := populate initial_inferred.

(** One iteration of the loop over the dimensions of "b". *)
Definition propagate_step (is_domain_empty : bool) (a : list Inferred)
  (p : OutputIndexMap * OptionallyImplicitIndexInterval) : Result (list Inferred) :=
  let '(map, b_bounds_oi) := p in
  match method map with
  | array _ => Ok a
  | constant =>
      if is_domain_empty then Ok a
      else _ ← CheckContains (effective_interval b_bounds_oi) (offset map); Ok a
  | single_input_dimension a_dim =>
      if stride map =? 0 then
        if is_domain_empty then Ok a
        else _ ← CheckContains (effective_interval b_bounds_oi) (offset map); Ok a
      else
        propagated_a_bounds ←
          OI_GetAffineTransformDomain b_bounds_oi (offset map) (stride map);
        Ok (<[a_dim := MkInferred
                (IntersectPreferringExplicit propagated_a_bounds
                   (inferred_bounds (a !!! a_dim))) true]> a)
  end.

(** One iteration of the loop over the dimensions of "a". *)
Definition combine_bounds (is_domain_empty : bool)
  (p : OptionallyImplicitIndexInterval * Inferred) : Result IndexInterval :=
  let '(existing, inf) := p in
  if negb (propagated inf) then Ok (interval existing)
  else
    let inferred := inferred_bounds inf in
    let min :=
      if implicit_lower existing then inclusive_min (interval inferred)
      else inclusive_min (interval existing) in
    let max :=
      Z.max (min - 1)%i64
        (if implicit_upper existing then inclusive_max (interval inferred)
         else inclusive_max (interval existing)) in
    let combined := UncheckedClosed min max in
    if negb is_domain_empty && negb (ContainsInterval (effective_interval inferred) combined)
    then Err kOutOfRange
    else Ok combined.

Definition transform_bounds (t : TransformRep) : list OptionallyImplicitIndexInterval :=
  optionally_implicit_domain <$> input_dimensions t.

Definition PropagateBoundsImpl (b : list OptionallyImplicitIndexInterval)
  (a_to_b : option TransformRep) : Result (list IndexInterval) :=
  match a_to_b with
  | None => Ok (interval <$> b)
  | Some t =>
      let is_domain_empty := IsDomainExplicitlyEmpty t in
      inferred ← foldM (propagate_step is_domain_empty)
        (replicate (input_rank t) initial_inferred) (zip (output_index_maps t) b);
      mapR (combine_bounds is_domain_empty) (zip (transform_bounds t) inferred)
  end.

(** Clear the implicit bits that an explicit bound of "b" forces. *)
Definition implicit_step (a : list (bool * bool))
  (p : OutputIndexMap * OptionallyImplicitIndexInterval) : list (bool * bool) :=
  let '(map, b) := p in
  match method map with
  | single_input_dimension a_dim =>
      if stride map =? 0 then a
      else
        let '(lower, upper) :=
          if stride map <? 0 then (implicit_upper b, implicit_lower b)
          else (implicit_lower b, implicit_upper b) in
        let '(l, u) := a !!! a_dim in
        <[a_dim := (l && lower, u && upper)]> a
  | _ => a
  end.

Definition PropagateImplicitBoundState (b : list OptionallyImplicitIndexInterval)
  (a_to_b : option TransformRep) : list (bool * bool) :=
  match a_to_b with
  | None => (fun d => (implicit_lower d, implicit_upper d)) <$> b
  | Some t =>
      foldl implicit_step
        ((fun d => (implicit_lower d, implicit_upper d)) <$> transform_bounds t)
        (zip (output_index_maps t) b)
  end.

Definition with_implicit (i : IndexInterval) (bits : bool * bool)
  : OptionallyImplicitIndexInterval := MkOI i bits.1 bits.2.

(** [PropagateBounds]; the status payloads are diagnostics. *)
Definition PropagateBounds (b : list OptionallyImplicitIndexInterval)
  (a_to_b : option TransformRep) : Result (list OptionallyImplicitIndexInterval) :=
  a ← PropagateBoundsImpl b a_to_b;
  Ok (zip_with with_implicit a (PropagateImplicitBoundState b a_to_b)).

Definition PropagateExplicitBounds (b : list IndexInterval) (a_to_b : option TransformRep)
  : Result (list IndexInterval) :=
  PropagateBoundsImpl ((fun i => MkOI i false false) <$> b) a_to_b.

(** Restrict the index range of an array map to what maps into the bounds. *)
Definition restrict_index_range (explicitly_empty : bool)
  (p : OutputIndexMap * OptionallyImplicitIndexInterval) : Result OutputIndexMap :=
  let '(map, b) := p in
  match method map with
  | array data =>
      if explicitly_empty then Ok constant_zero
      else
        propagated_bounds ←
          GetAffineTransformDomain (effective_interval b) (offset map) (stride map);
        Ok (MkOutputIndexMap
              (array (MkIndexArrayData (element_pointer data)
                        (Intersect propagated_bounds (index_range data)) (byte_strides data)))
              (offset map) (stride map))
  | _ => Ok map
  end.

Definition set_bounds (d : IndexDomainDimension) (b : OptionallyImplicitIndexInterval)
  : IndexDomainDimension := MkDimension b (label d).

Definition PropagateBoundsToTransform (b : list OptionallyImplicitIndexInterval)
  (a_to_b : option TransformRep) : Result TransformRep :=
  match a_to_b with
  | None =>
      Ok (MkTransform ((fun i => MkDimension i EmptyString) <$> b)
            (SetToIdentityTransform (length b)))
  | Some t =>
      bounds ← PropagateBounds b a_to_b;
      let dims := zip_with set_bounds (input_dimensions t) bounds in
      maps ← mapR (restrict_index_range
                     (IsDomainExplicitlyEmpty (MkTransform dims (output_index_maps t))))
               (zip (output_index_maps t) b);
      Ok (MkTransform dims maps)
  end.

Definition PropagateExplicitBoundsToTransform (b : list IndexInterval)
  (a_to_b : option TransformRep) : Result TransformRep :=
  PropagateBoundsToTransform ((fun i => MkOI i false false) <$> b) a_to_b.

(** * Bounds as predicates *)

Definition in_bounds (l : list OptionallyImplicitIndexInterval) (idx : list Z) : Prop :=
  Forall2 admits l idx.

(** Both bounds are implicit or both are explicit. *)
Definition uniform (d : OptionallyImplicitIndexInterval) : Prop :=
  implicit_lower d = implicit_upper d.

(** Both bounds are explicit and finite. *)
Definition explicit_finite (d : OptionallyImplicitIndexInterval) : Prop :=
  implicit_lower d = false /\ implicit_upper d = false /\ IsFinite (interval d) = true.

(** The intersection keeps every value that both arguments admit; for uniform
    arguments it keeps no other. *)
Lemma IntersectPreferringExplicit_spec x y :
  Valid (interval x) -> Valid (interval y) ->
  let r := IntersectPreferringExplicit x y in
  Valid (interval r) /\
  implicit_lower r = implicit_lower x && implicit_lower y /\
  implicit_upper r = implicit_upper x && implicit_upper y /\
  (forall v, admits x v -> admits y v -> admits r v) /\
  (uniform x -> uniform y -> forall v, admits r v -> admits x v /\ admits y v).
Proof.
  intros Hx Hy r.
  destruct (effective_interval_bounds x Hx) as (_ & Ex1 & Ex2 & _).
  destruct (effective_interval_bounds y Hy) as (_ & Ey1 & Ey2 & _).
  subst r. unfold IntersectPreferringExplicit. rewrite Ex1, Ex2, Ey1, Ey2.
  unfold admits, admits_lower, admits_upper, above_min, below_max, uniform.
  cbn [interval implicit_lower implicit_upper].
  revert Ex1 Ex2 Ey1 Ey2. bounds_of Hx xl xh. bounds_of Hy yl yh. intros _ _ _ _.
  set (lo := if Bool.eqb (implicit_lower x) _ then _ else _).
  set (hi := if Bool.eqb (implicit_upper x) _ then _ else _).
  assert (Hlo : -kInfIndex <= lo < kInfIndex) by
    (subst lo; destruct (implicit_lower x), (implicit_lower y); cbn; i64_lia).
  assert (Hhi : -kInfIndex < hi <= kInfIndex) by
    (subst hi; destruct (implicit_upper x), (implicit_upper y); cbn; i64_lia).
  rewrite (wrap64_id (lo - 1)), UncheckedClosed_eq by i64_lia.
  destruct (mk_valid lo (Z.max (lo - 1) hi)) as (HV & E1 & E2 & _); [i64_lia..|].
  rewrite E1, E2. split; [exact HV|]. split; [reflexivity|]. split; [reflexivity|].
  subst lo hi.
  split; [intros v|intros Hux Huy v];
    destruct (implicit_lower x), (implicit_lower y), (implicit_upper x), (implicit_upper y);
    try discriminate; cbn [Bool.eqb andb]; i64_lia.
Qed.

(** The preimage of a non-empty dimension admits exactly the indices that map
    into it; a negative stride swaps the implicit bits. *)
Lemma OI_AffineDomain_spec b o s y :
  Valid (interval b) -> empty (interval b) = false -> in_i64 o -> in_i64 s -> s <> 0 ->
  OI_GetAffineTransformDomain b o s = Ok y ->
  Valid (interval y) /\
  (implicit_lower y, implicit_upper y) =
    (if s <? 0 then (implicit_upper b, implicit_lower b)
     else (implicit_lower b, implicit_upper b)) /\
  (forall v, admits y v <-> admits b (o + s * v)).
Proof.
  intros HV He Ho Hs Hs0 H. unfold OI_GetAffineTransformDomain in H.
  apply bind_Ok in H as (i & Hi & [= <-]).
  destruct (AffineDomain_sides _ _ _ _ HV Ho Hs He Hi) as (HVi & Hl & Hu).
  unfold admits, admits_lower, admits_upper.
  destruct (s <? 0); cbn [interval implicit_lower implicit_upper];
    (split; [exact HVi|split; [reflexivity|]]); intros v; rewrite (Hl v), (Hu v); tauto.
Qed.

(** The preimage of a dimension with finite explicit bounds has finite explicit bounds. *)
Lemma OI_AffineDomain_finite b o s y :
  Valid (interval b) -> empty (interval b) = false -> in_i64 o -> in_i64 s -> s <> 0 ->
  OI_GetAffineTransformDomain b o s = Ok y -> explicit_finite b -> explicit_finite y.
Proof.
  intros HV He Ho Hs Hs0 H (E1 & E2 & Hf). unfold OI_GetAffineTransformDomain in H.
  apply bind_Ok in H as (i & Hi & [= <-]).
  destruct (AffineDomain_sides _ _ _ _ HV Ho Hs He Hi) as (_ & Hl & Hu).
  unfold explicit_finite, IsFinite in *. rewrite andb_true_iff, !negb_true_iff, !Z.eqb_neq in *.
  destruct Hf as [Hf1 Hf2]. unfold above_min, below_max in Hl, Hu.
  set (lo := inclusive_min (interval b)) in *. set (hi := inclusive_max (interval b)) in *.
  destruct (Z.ltb_spec s 0) as [Hn|Hp]; cbn [interval implicit_lower implicit_upper];
    (split; [assumption|split; [assumption|]]); split; intros E.
  - specialize (proj1 (Hl (- (Z.abs (hi - o) + 1))) (or_introl E)). nia.
  - specialize (proj1 (Hu (Z.abs (lo - o) + 1)) (or_introl E)). nia.
  - specialize (proj1 (Hl (- (Z.abs (lo - o) + 1))) (or_introl E)). nia.
  - specialize (proj1 (Hu (Z.abs (hi - o) + 1)) (or_introl E)). nia.
Qed.

(** An explicit finite argument makes the intersection finite. *)
Lemma IntersectPreferringExplicit_finite x y :
  Valid (interval x) -> Valid (interval y) -> explicit_finite x \/ explicit_finite y ->
  explicit_finite (IntersectPreferringExplicit x y).
Proof.
  intros Hx Hy H.
  destruct (effective_interval_bounds x Hx) as (_ & Ex1 & Ex2 & _).
  destruct (effective_interval_bounds y Hy) as (_ & Ey1 & Ey2 & _).
  unfold explicit_finite, IsFinite in *. unfold IntersectPreferringExplicit. rewrite Ex1, Ex2, Ey1, Ey2.
  cbn [interval implicit_lower implicit_upper].
  revert H Ex1 Ex2 Ey1 Ey2. bounds_of Hx xl xh. bounds_of Hy yl yh. intros H _ _ _ _.
  set (lo := if Bool.eqb (implicit_lower x) _ then _ else _).
  set (hi := if Bool.eqb (implicit_upper x) _ then _ else _).
  assert (Hlo : -kInfIndex <= lo < kInfIndex) by
    (subst lo; destruct (implicit_lower x), (implicit_lower y); cbn; i64_lia).
  assert (Hhi : -kInfIndex < hi <= kInfIndex) by
    (subst hi; destruct (implicit_upper x), (implicit_upper y); cbn; i64_lia).
  rewrite (wrap64_id (lo - 1)), UncheckedClosed_eq by i64_lia.
  destruct (mk_valid lo (Z.max (lo - 1) hi)) as (HV & E1 & E2 & _); [i64_lia..|].
  rewrite E1, E2. subst lo hi. revert H. rewrite !andb_true_iff, !negb_true_iff, !Z.eqb_neq.
  destruct (implicit_lower x), (implicit_lower y), (implicit_upper x), (implicit_upper y);
    cbn [Bool.eqb andb]; intros [(? & ? & ?)|(? & ? & ?)]; try discriminate; i64_lia.
Qed.

(** * The combination with the existing bounds *)

Lemma combine_bounds_spec empty_dom e i p c :
  Valid (interval e) -> Valid (interval i) -> (p = false -> i = OI_default) ->
  combine_bounds empty_dom (e, MkInferred i p) = Ok c ->
  let r := with_implicit c (implicit_lower e && implicit_lower i,
                            implicit_upper e && implicit_upper i) in
  Valid c /\
  (forall v, admits e v -> admits i v -> admits r v) /\
  (implicit_lower e = false -> implicit_upper e = false -> c = interval e) /\
  (empty_dom = false -> uniform e -> uniform i ->
   forall v, admits r v -> admits e v /\ admits i v).
Proof.
  intros He Hi Hp. unfold combine_bounds. cbn [propagated inferred_bounds].
  destruct p; cbn [negb].
  2: { intros [= <-]. specialize (Hp eq_refl) as ->. cbn.
       rewrite !andb_true_r. unfold with_implicit; cbn. split; [exact He|].
       assert (Hd : forall v, admits OI_default v) by (intros v; split; left; reflexivity).
       destruct e as [ie l u]; cbn. split; [auto|split; [auto|]]. intros _ _ _ v Hv. auto. }
  destruct (effective_interval_bounds i Hi) as (HVei & Ei1 & Ei2 & _).
  destruct (negb empty_dom && _) eqn:Hc; [discriminate|]. intros [= <-].
  revert Ei1 Ei2 Hc.
  unfold with_implicit, admits, admits_lower, admits_upper, above_min, below_max, uniform.
  cbn [interval implicit_lower implicit_upper fst snd].
  unfold ContainsInterval. bounds_of He el eh. bounds_of Hi il ih.
  set (lo := if implicit_lower e then il else el).
  set (hi := if implicit_upper e then ih else eh).
  assert (Hlo : -kInfIndex <= lo < kInfIndex) by (subst lo; destruct (implicit_lower e); i64_lia).
  assert (Hhi : -kInfIndex < hi <= kInfIndex) by (subst hi; destruct (implicit_upper e); i64_lia).
  rewrite (wrap64_id (lo - 1)), UncheckedClosed_eq by i64_lia.
  destruct (mk_valid lo (Z.max (lo - 1) hi)) as (HV & E1 & E2 & _); [i64_lia..|].
  rewrite E1, E2. cbn [size]. intros Ei1 Ei2. rewrite Ei1, Ei2.
  intros Hc. split; [exact HV|]. subst lo hi.
  split; [|split].
  - intros v. destruct (implicit_lower e), (implicit_lower i), (implicit_upper e),
      (implicit_upper i); cbn [andb]; i64_lia.
  - intros -> ->. rewrite Eel. f_equal. lia.
  - intros ->. cbn [negb andb] in Hc. apply negb_false_iff in Hc.
    intros Hue Hui v. destruct (implicit_lower e), (implicit_lower i), (implicit_upper e),
      (implicit_upper i); try discriminate; cbn [andb] in *; i64_lia.
Qed.

(** Combined bounds inside finite inferred ones are finite. *)
Lemma combine_bounds_finite empty_dom e i p c :
  empty_dom = false -> Valid (interval i) -> implicit_lower i = false -> implicit_upper i = false ->
  IsFinite (interval i) = true -> (p = false -> i = OI_default) -> Valid c ->
  combine_bounds empty_dom (e, MkInferred i p) = Ok c -> empty c = false -> IsFinite c = true.
Proof.
  intros -> HVi E1 E2 Hf Hp HVc. unfold combine_bounds. cbn [propagated inferred_bounds].
  destruct p; cbn [negb]; [|rewrite (Hp eq_refl) in E1; discriminate].
  cbn [negb andb]. set (cmb := UncheckedClosed _ _).
  destruct (negb (ContainsInterval (effective_interval i) cmb)) eqn:Hc; [discriminate|].
  intros [= E] Hne. rewrite E in Hc. clear cmb E. apply negb_false_iff in Hc. unfold ContainsInterval in Hc.
  destruct (effective_interval_bounds i HVi) as (_ & Ei1 & Ei2 & _).
  rewrite E1 in Ei1. rewrite E2 in Ei2. rewrite Ei1, Ei2 in Hc. revert Hc Hf.
  change (size c =? 0) with (empty c). rewrite Hne. unfold IsFinite. revert Hne.
  bounds_of HVi il ih. bounds_of HVc cl ch. cbn [orb].
  rewrite !andb_true_iff, !negb_true_iff, !Z.eqb_neq, !Z.leb_le. lia.
Qed.

(** * The loop over the output dimensions *)

Abbreviation mapped := (OutputIndexMap * OptionallyImplicitIndexInterval)%type.

(** [c] is a single-input-dimension map of [d] with its output bounds. *)
Definition constrains (d : nat) (c : mapped) : Prop :=
  method c.1 = single_input_dimension d /\ stride c.1 <> 0.

Definition satisfies (c : mapped) (v : Z) : Prop :=
  admits c.2 (offset c.1 + stride c.1 * v).

(** A map whose output does not depend on the input. *)
Definition is_constant (m : OutputIndexMap) : Prop :=
  method m = constant \/ exists d, method m = single_input_dimension d /\ stride m = 0.

Definition good_bounds (b : OptionallyImplicitIndexInterval) : Prop :=
  Valid (interval b) /\ empty (interval b) = false.

(** What the processed prefix [pre] has established for dimension [d], whose
    existing bounds are [e]. *)
Record dim_inv (e : OptionallyImplicitIndexInterval) (pre : list mapped) (d : nat)
    (i : Inferred) (bits : bool * bool) : Prop := {
  di_valid : Valid (interval (inferred_bounds i));
  di_default : propagated i = false -> inferred_bounds i = OI_default;
  di_bits : bits = (implicit_lower e && implicit_lower (inferred_bounds i),
                    implicit_upper e && implicit_upper (inferred_bounds i));
  di_sound : forall v, (forall c, c ∈ pre -> constrains d c -> satisfies c v) ->
    admits (inferred_bounds i) v;
  di_explicit : forall c, c ∈ pre -> constrains d c ->
    implicit_lower c.2 = false -> implicit_upper c.2 = false ->
    implicit_lower (inferred_bounds i) = false /\ implicit_upper (inferred_bounds i) = false;
  di_finite : forall c, c ∈ pre -> constrains d c -> explicit_finite c.2 ->
    explicit_finite (inferred_bounds i);
  di_exact : (forall c, c ∈ pre -> uniform c.2) ->
    uniform (inferred_bounds i) /\
    forall v, admits (inferred_bounds i) v ->
      forall c, c ∈ pre -> constrains d c -> satisfies c v
}.

Record loop_inv (t : TransformRep) (empty_dom : bool) (pre : list mapped)
    (st : list Inferred) : Prop := {
  li_length : length st = input_rank t;
  li_bits_length :
    length (foldl implicit_step
      ((fun d => (implicit_lower d, implicit_upper d)) <$> transform_bounds t) pre)
    = input_rank t;
  li_dims : forall d e, transform_bounds t !! d = Some e ->
    dim_inv e pre d (st !!! d)
      (foldl implicit_step
        ((fun d => (implicit_lower d, implicit_upper d)) <$> transform_bounds t) pre !!! d);
  li_constants : empty_dom = false -> forall c, c ∈ pre -> is_constant c.1 ->
    IsFiniteIndex (offset c.1) = true /\ admits c.2 (offset c.1)
}.

(** The processed pair does not concern dimension [d]. *)
Lemma dim_inv_skip e pre d i bits c :
  ~ constrains d c -> dim_inv e pre d i bits -> dim_inv e (pre ++ [c]) d i bits.
Proof.
  intros Hc [H1 H2 H3 H4 HE HF H5]. split; auto.
  - intros v Hv. apply H4. intros c' Hin. apply Hv, elem_of_app. auto.
  - intros c' [Hin|Hin%list_elem_of_singleton]%elem_of_app Hc'; [exact (HE c' Hin Hc')|].
    subst c'. contradiction.
  - intros c' [Hin|Hin%list_elem_of_singleton]%elem_of_app Hc'; [exact (HF c' Hin Hc')|].
    subst c'. contradiction.
  - intros Hu. destruct H5 as [H5 H6].
    { intros c' Hin. apply Hu, elem_of_app. auto. }
    split; [exact H5|]. intros v Hv c' [Hin|Hin%list_elem_of_singleton]%elem_of_app Hc'.
    + exact (H6 v Hv c' Hin Hc').
    + subst c'. contradiction.
Qed.

(** The processed pair updates dimension [d]. *)
Lemma dim_inv_update e pre d i l u m b y :
  good_bounds b -> in_i64 (offset m) -> in_i64 (stride m) ->
  constrains d (m, b) ->
  OI_GetAffineTransformDomain b (offset m) (stride m) = Ok y ->
  dim_inv e pre d i (l, u) ->
  dim_inv e (pre ++ [(m, b)]) d
    (MkInferred (IntersectPreferringExplicit y (inferred_bounds i)) true)
    (let '(lower, upper) :=
       if stride m <? 0 then (implicit_upper b, implicit_lower b)
       else (implicit_lower b, implicit_upper b) in (l && lower, u && upper)).
Proof.
  intros [HVb Heb] Ho Hs Hc Hy [H1 H2 H3 H4 HE HF H5].
  destruct (OI_AffineDomain_spec _ _ _ _ HVb Heb Ho Hs (proj2 Hc) Hy) as (HVy & Hbits & Hadm).
  destruct (IntersectPreferringExplicit_spec _ _ HVy H1) as (HVr & El & Eu & Hs1 & Hs2).
  cbv zeta in *. rewrite <- Hbits.
  split; cbn [inferred_bounds propagated].
  - exact HVr.
  - discriminate.
  - rewrite El, Eu. injection H3 as -> ->. f_equal;
      [destruct (implicit_lower e), (implicit_lower y)
      |destruct (implicit_upper e), (implicit_upper y)]; cbn;
      rewrite ?andb_false_r, ?andb_true_r; reflexivity.
  - intros v Hv. apply Hs1.
    + apply Hadm, (Hv (m, b)); [apply elem_of_app; right; apply list_elem_of_singleton; reflexivity|exact Hc].
    + apply H4. intros c' Hin. apply Hv, elem_of_app. auto.
  - rewrite El, Eu. intros c' [Hin|Hin%list_elem_of_singleton]%elem_of_app Hc' E1 E2.
    + destruct (HE c' Hin Hc' E1 E2) as [-> ->]. rewrite !andb_false_r. auto.
    + subst c'. cbn in E1, E2. rewrite E1, E2 in Hbits.
      destruct (stride m <? 0); injection Hbits as -> ->; auto.
  - intros c' [Hin|Hin%list_elem_of_singleton]%elem_of_app Hc' Hfin;
      apply IntersectPreferringExplicit_finite; try assumption; [right; eauto|left].
    subst c'. exact (OI_AffineDomain_finite _ _ _ _ HVb Heb Ho Hs (proj2 Hc) Hy Hfin).
  - intros Hu.
    assert (Hub : uniform b).
    { apply (Hu (m, b)), elem_of_app. right. apply list_elem_of_singleton. reflexivity. }
    assert (Huy : uniform y).
    { unfold uniform in *. destruct (stride m <? 0); injection Hbits as -> ->; congruence. }
    destruct H5 as [H5 H6]. { intros c' Hin. apply Hu, elem_of_app. auto. }
    split. { unfold uniform in *. rewrite El, Eu, Huy, H5. reflexivity. }
    intros v Hv. destruct (Hs2 Huy H5 v Hv) as [Hvy Hvi].
    intros c' [Hin|Hin%list_elem_of_singleton]%elem_of_app Hc'.
    + exact (H6 v Hvi c' Hin Hc').
    + subst c'. apply Hadm, Hvy.
Qed.

Lemma implicit_step_single a m b d :
  method m = single_input_dimension d -> stride m <> 0 ->
  implicit_step a (m, b) =
  <[d := let '(l, u) := a !!! d in
         let '(lower, upper) :=
           if stride m <? 0 then (implicit_upper b, implicit_lower b)
           else (implicit_lower b, implicit_upper b) in (l && lower, u && upper)]> a.
Proof.
  intros Hm Hs. unfold implicit_step. rewrite Hm.
  destruct (Z.eqb_spec (stride m) 0); [contradiction|].
  destruct (stride m <? 0), (a !!! d); reflexivity.
Qed.

Lemma implicit_step_other a m b :
  (forall d, ~ constrains d (m, b)) -> implicit_step a (m, b) = a.
Proof.
  intros H. unfold implicit_step. destruct (method m) as [|d|] eqn:Hm; [reflexivity| |reflexivity].
  destruct (Z.eqb_spec (stride m) 0); [reflexivity|]. exfalso. apply (H d). split; assumption.
Qed.

(** One iteration keeps the invariant. *)
Lemma loop_inv_step t empty_dom pre st st' m b :
  valid_dims (input_dimensions t) -> typed_map (input_rank t) m -> good_bounds b ->
  (forall d, method m = single_input_dimension d -> (d < input_rank t)%nat) ->
  loop_inv t empty_dom pre st ->
  propagate_step empty_dom st (m, b) = Ok st' ->
  loop_inv t empty_dom (pre ++ [(m, b)]) st'.
Proof.
  intros HVt (Ho & Hs & _) Hb Hrange [L1 L2 L3 L4] Hstep.
  assert (Hother : (forall d, ~ constrains d (m, b)) -> st = st' ->
    (empty_dom = false -> is_constant m ->
     IsFiniteIndex (offset m) = true /\ admits b (offset m)) ->
    loop_inv t empty_dom (pre ++ [(m, b)]) st').
  { intros Hnc <- Hck.
    split; rewrite ?foldl_app; cbn [foldl]; rewrite ?implicit_step_other by exact Hnc; auto.
    - intros d e Hd. apply dim_inv_skip; auto.
    - intros He c [Hin|Hin%list_elem_of_singleton]%elem_of_app Hc; [auto|subst c; auto]. }
  assert (Hconst : (if empty_dom then Ok st
     else _ ← CheckContains (effective_interval b) (offset m); Ok st) = Ok st' ->
    st = st' /\ (empty_dom = false -> is_constant m ->
      IsFiniteIndex (offset m) = true /\ admits b (offset m))).
  { destruct empty_dom; [intros [= <-]; split; [reflexivity|discriminate]|].
    intros (? & Hck & [= <-])%bind_Ok. split; [reflexivity|]. intros _ _.
    apply Contains_effective; [apply Hb|]. unfold CheckContains in Hck.
    destruct (Contains _ _); [reflexivity|discriminate]. }
  unfold propagate_step in Hstep. destruct (method m) as [|d|data] eqn:Hm.
  - destruct (Hconst Hstep). apply Hother; [|assumption..].
    intros d [Hd _]. cbn in Hd. congruence.
  - destruct (Z.eqb_spec (stride m) 0) as [Hz|Hnz].
    { destruct (Hconst Hstep). apply Hother; [|assumption..].
      intros d' [_ Hd]. contradiction. }
    apply bind_Ok in Hstep as (y & Hy & [= <-]). specialize (Hrange d eq_refl).
    split; rewrite ?foldl_app; cbn [foldl]; rewrite ?(implicit_step_single _ m b d Hm Hnz).
    + rewrite length_insert. exact L1.
    + rewrite length_insert. exact L2.
    + intros d' e Hd. specialize (L3 d' e Hd).
      destruct (decide (d' = d)) as [->|Hne].
      * rewrite !list_lookup_total_insert_eq by lia.
        destruct (foldl implicit_step _ pre !!! d) as [l u].
        exact (dim_inv_update e pre d (st !!! d) l u m b y Hb Ho Hs (conj Hm Hnz) Hy L3).
      * rewrite !list_lookup_total_insert_ne by congruence.
        apply dim_inv_skip; [|exact L3]. intros [Hd' _]. cbn in Hd'. congruence.
    + intros He c [Hin|Hin%list_elem_of_singleton]%elem_of_app Hc; [auto|subst c].
      destruct Hc as [Hc|(d' & Hc & Hz)]; cbn in *; congruence.
  - injection Hstep as <-. apply Hother; [|reflexivity|].
    + intros d [Hd _]. cbn in Hd. congruence.
    + intros _ [Hc|(d' & Hc & _)]; congruence.
Qed.

Lemma loop_inv_init t empty_dom :
  valid_dims (input_dimensions t) ->
  loop_inv t empty_dom [] (replicate (input_rank t) initial_inferred).
Proof.
  intros HV. split; cbn [foldl].
  - apply length_replicate.
  - unfold transform_bounds, input_rank. rewrite !length_fmap. reflexivity.
  - intros d e Hd. assert (Hlt : (d < input_rank t)%nat).
    { apply lookup_lt_Some in Hd. unfold transform_bounds in Hd.
      rewrite length_fmap in Hd. exact Hd. }
    rewrite lookup_total_replicate_2 by exact Hlt.
    split; cbn [initial_inferred inferred_bounds propagated].
    + exact Valid_Infinite.
    + reflexivity.
    + rewrite (list_lookup_total_correct _ _ (implicit_lower e, implicit_upper e)).
      * cbn. rewrite !andb_true_r. reflexivity.
      * rewrite list_lookup_fmap, Hd. reflexivity.
    + intros v _. split; left; reflexivity.
    + intros c Hin. inversion Hin.
    + intros c Hin. inversion Hin.
    + intros _. split; [reflexivity|]. intros v _ c Hin. inversion Hin.
  - intros _ c Hin. inversion Hin.
Qed.

(** * The propagated bounds of one dimension *)

Record dim_result (empty_dom : bool) (cs : list mapped) (d : nat)
    (e r : OptionallyImplicitIndexInterval) : Prop := {
  dr_valid : Valid (interval r);
  dr_sound : forall v, admits e v ->
    (forall c, c ∈ cs -> constrains d c -> satisfies c v) -> admits r v;
  dr_explicit : implicit_lower e = false -> implicit_upper e = false -> r = e;
  dr_implicit : (implicit_lower r = true -> implicit_lower e = true) /\
                (implicit_upper r = true -> implicit_upper e = true);
  dr_constrained : forall c, c ∈ cs -> constrains d c ->
    implicit_lower c.2 = false -> implicit_upper c.2 = false ->
    implicit_lower r = false /\ implicit_upper r = false;
  dr_finite : empty_dom = false -> empty (interval r) = false ->
    forall c, c ∈ cs -> constrains d c -> explicit_finite c.2 -> explicit_finite r;
  dr_exact : empty_dom = false -> uniform e -> (forall c, c ∈ cs -> uniform c.2) ->
    forall v, admits r v ->
      admits e v /\ forall c, c ∈ cs -> constrains d c -> satisfies c v
}.

Lemma transform_bounds_Valid t d e :
  valid_dims (input_dimensions t) -> transform_bounds t !! d = Some e -> Valid (interval e).
Proof.
  unfold valid_dims, transform_bounds. rewrite Forall_lookup, list_lookup_fmap.
  intros HV Hd. destruct (input_dimensions t !! d) as [dim|] eqn:E; [|discriminate].
  injection Hd as <-. exact (HV d dim E).
Qed.

Lemma WellFormed_single t m d :
  WellFormed t -> m ∈ output_index_maps t -> method m = single_input_dimension d ->
  (d < input_rank t)%nat /\ stride m <> 0.
Proof.
  intros HW Hm Hd. destruct (WellFormed_map t m HW Hm) as [Hc _].
  unfold check_map in Hc. rewrite Hd in Hc. bool_to_prop.
  rewrite Nat.ltb_lt in *. auto.
Qed.

Lemma PropagateBounds_dims t b a :
  WellFormed t -> length b = output_rank t -> Forall good_bounds b ->
  PropagateBounds b (Some t) = Ok a ->
  let emp := IsDomainExplicitlyEmpty t in
  let cs := zip (output_index_maps t) b in
  length a = input_rank t /\
  (forall d e, transform_bounds t !! d = Some e ->
     exists r, a !! d = Some r /\ dim_result emp cs d e r) /\
  (emp = false -> forall c, c ∈ cs -> is_constant c.1 -> admits c.2 (offset c.1)).
Proof.
  intros HW Hl Hb H emp cs. pose proof (WellFormed_valid_dims t HW) as HVt.
  apply bind_Ok in H as (ivs & H & [= <-]).
  apply bind_Ok in H as (st & Hst & Hc). fold emp cs in Hst, Hc.
  assert (Hinv : loop_inv t emp cs st).
  { revert Hst. apply foldM_prefix; [apply loop_inv_init, HVt|].
    intros pre [m bj] s1 s2 Hin Hpre Hstep.
    apply elem_of_zip_l in Hin as Hm. apply elem_of_zip_r in Hin as Hbj.
    eapply loop_inv_step; [exact HVt|apply (WellFormed_map t m HW Hm)| | |exact Hpre|exact Hstep].
    - rewrite Forall_forall in Hb. exact (Hb bj Hbj).
    - intros d Hd. exact (proj1 (WellFormed_single t m d HW Hm Hd)). }
  destruct Hinv as [L1 L2 L3 L4].
  assert (Hlt : length (transform_bounds t) = input_rank t)
    by (unfold transform_bounds, input_rank; apply length_fmap).
  pose proof (mapR_length _ _ _ Hc) as Hlc. rewrite length_zip in Hlc.
  cbn [PropagateImplicitBoundState].
  set (bits0 := foldl implicit_step _ (zip (output_index_maps t) b)).
  change (foldl implicit_step
    ((fun d => (implicit_lower d, implicit_upper d)) <$> transform_bounds t) cs)
    with bits0 in L2, L3.
  split; [rewrite length_zip_with, L2; lia|]. split.
  - intros d e Hd. specialize (L3 d e Hd). pose proof (lookup_lt_Some _ _ _ Hd) as Hdl.
    destruct (lookup_lt_is_Some_2 st d ltac:(lia)) as [i Hi].
    destruct (lookup_lt_is_Some_2 ivs d ltac:(lia)) as [c Hcd].
    destruct (lookup_lt_is_Some_2 bits0 d ltac:(lia)) as [bits Hbits].
    exists (with_implicit c bits). split.
    { rewrite lookup_zip_with, Hcd. cbn. rewrite Hbits. reflexivity. }
    rewrite (list_lookup_total_correct _ _ _ Hi), (list_lookup_total_correct _ _ _ Hbits) in L3.
    apply mapR_Ok in Hc.
    pose proof (Forall2_lookup_lr _ _ _ d (e, i) c Hc) as Hcomb.
    rewrite lookup_zip_with, Hd in Hcomb. cbn in Hcomb. rewrite Hi in Hcomb.
    specialize (Hcomb eq_refl Hcd). destruct i as [ib p].
    destruct L3 as [D1 D2 D3 D4 DE DF D5]. cbn [inferred_bounds propagated] in *. subst bits.
    destruct (combine_bounds_spec emp e ib p c (transform_bounds_Valid t d e HVt Hd) D1 D2 Hcomb)
      as (C1 & C2 & C3 & C4). cbv zeta in *. split.
    + exact C1.
    + intros v Hv Hcs. apply C2; [exact Hv|]. apply D4, Hcs.
    + intros E1 E2. rewrite (C3 E1 E2), E1, E2. destruct e; cbn in *; subst. reflexivity.
    + cbn. rewrite !andb_true_iff. tauto.
    + intros c' Hin Hc' E1 E2. destruct (DE c' Hin Hc' E1 E2) as [-> ->].
      cbn. rewrite !andb_false_r. auto.
    + intros He Hne c' Hin Hc' Hfin. specialize (DF c' Hin Hc' Hfin) as (F1 & F2 & F3).
      unfold explicit_finite; cbn. rewrite F1, F2, !andb_false_r. split; [reflexivity|].
      split; [reflexivity|]. apply (combine_bounds_finite emp e ib p c He D1 F1 F2 F3 D2 C1 Hcomb Hne).
    + intros He Hue Hcs v Hv. destruct (D5 Hcs) as [D5' D6].
      destruct (C4 He Hue D5' v Hv) as [Hve Hvi]. split; [exact Hve|]. exact (D6 v Hvi).
  - intros He c Hin Hcc. exact (proj2 (L4 He c Hin Hcc)).
Qed.

(** * Exactness *)

(** The exact output of a map that does not use an index array. *)
Definition affine_output (m : OutputIndexMap) (idx : list Z) : option Z :=
  match method m with
  | constant => Some (offset m)
  | single_input_dimension d => Some (offset m + stride m * (idx !!! d))
  | array _ => None
  end.

Definition outputs_admitted (t : TransformRep) (b : list OptionallyImplicitIndexInterval)
  (idx : list Z) : Prop :=
  forall j m bj o, output_index_maps t !! j = Some m -> b !! j = Some bj ->
    affine_output m idx = Some o -> admits bj o.

Lemma elem_of_zip_lookup {A B} (l : list A) (k : list B) j x y :
  l !! j = Some x -> k !! j = Some y -> (x, y) ∈ zip l k.
Proof.
  intros Hx Hy. apply list_elem_of_lookup_2 with j. rewrite lookup_zip_with, Hx. cbn.
  rewrite Hy. reflexivity.
Qed.

Lemma zip_lookup {A B} (l : list A) (k : list B) x y :
  (x, y) ∈ zip l k -> exists j, l !! j = Some x /\ k !! j = Some y.
Proof.
  intros [j Hj]%list_elem_of_lookup_1. exists j. rewrite lookup_zip_with in Hj.
  destruct (l !! j); [|discriminate]. cbn in Hj.
  destruct (k !! j); [|discriminate]. injection Hj as -> ->. auto.
Qed.

(** An explicitly empty domain has an explicit dimension that admits nothing. *)
Lemma explicitly_empty_dim t :
  valid_dims (input_dimensions t) -> IsDomainExplicitlyEmpty t = true ->
  exists k e, transform_bounds t !! k = Some e /\
    implicit_lower e = false /\ implicit_upper e = false /\ forall v, ~ admits e v.
Proof.
  intros HV He. unfold IsDomainExplicitlyEmpty in He.
  apply existsb_exists in He as (d & Hd & He).
  apply andb_true_iff in He as [Hi Hs]. unfold is_implicit in Hi.
  apply list_elem_of_In, list_elem_of_lookup_1 in Hd as [k Hk].
  assert (Hb : transform_bounds t !! k = Some (optionally_implicit_domain d))
    by (unfold transform_bounds; rewrite list_lookup_fmap, Hk; reflexivity).
  pose proof (transform_bounds_Valid t k _ HV Hb) as HVd.
  bool_to_prop. exists k, (optionally_implicit_domain d).
  do 3 (split; [assumption|]). intros v [Hl Hu].
  unfold admits_lower, admits_upper, above_min, below_max, domain in *.
  rewrite inclusive_max_valid in Hu by exact HVd. unfold Valid in HVd.
  destruct Hl as [Hl|Hl]; [congruence|]. destruct Hu as [Hu|Hu]; [congruence|]. i64_lia.
Qed.

Lemma transform_bounds_length t : length (transform_bounds t) = input_rank t.
Proof. apply length_fmap. Qed.

Lemma PropagateBounds_lookup t b a d r :
  WellFormed t -> length b = output_rank t -> Forall good_bounds b ->
  PropagateBounds b (Some t) = Ok a -> a !! d = Some r ->
  exists e, transform_bounds t !! d = Some e /\
    dim_result (IsDomainExplicitlyEmpty t) (zip (output_index_maps t) b) d e r.
Proof.
  intros HW Hl Hb H Hr.
  destruct (PropagateBounds_dims t b a HW Hl Hb H) as (Hla & Hd & _). cbv zeta in *.
  pose proof (lookup_lt_Some _ _ _ Hr). pose proof (transform_bounds_length t).
  destruct (lookup_lt_is_Some_2 (transform_bounds t) d ltac:(lia)) as [e He].
  exists e. split; [exact He|]. destruct (Hd d e He) as (r' & Hr' & Hres). congruence.
Qed.

Lemma PropagateBounds_valid t b a :
  WellFormed t -> length b = output_rank t -> Forall good_bounds b ->
  PropagateBounds b (Some t) = Ok a ->
  length a = input_rank t /\ Forall (fun r => Valid (interval r)) a.
Proof.
  intros HW Hl Hb H. split; [apply (PropagateBounds_dims t b a HW Hl Hb H)|].
  apply Forall_lookup. intros d r Hr.
  destruct (PropagateBounds_lookup t b a d r HW Hl Hb H Hr) as (e & _ & Hres). apply Hres.
Qed.

(** No accepted index vector is lost. *)
Lemma PropagateBounds_sound t b a idx :
  WellFormed t -> length b = output_rank t -> Forall good_bounds b ->
  PropagateBounds b (Some t) = Ok a ->
  in_bounds (transform_bounds t) idx -> outputs_admitted t b idx -> in_bounds a idx.
Proof.
  intros HW Hl Hb H Hin Hout. apply Forall2_same_length_lookup.
  destruct (PropagateBounds_valid t b a HW Hl Hb H) as [Hla _].
  split; [pose proof (Forall2_length _ _ _ Hin); pose proof (transform_bounds_length t); lia|].
  intros d r v Hr Hv.
  destruct (PropagateBounds_lookup t b a d r HW Hl Hb H Hr) as (e & He & Hres).
  apply (dr_sound _ _ _ _ _ Hres); [exact (Forall2_lookup_lr _ _ _ _ _ _ Hin He Hv)|].
  intros [m bj] (j & Hm & Hbj)%zip_lookup [Hmd _]. cbn in Hmd.
  apply (Hout j m bj); [exact Hm|exact Hbj|]. unfold affine_output. rewrite Hmd.
  rewrite (list_lookup_total_correct _ _ _ Hv). reflexivity.
Qed.

(** An explicitly empty transform keeps its empty dimension. *)
Lemma PropagateBounds_explicitly_empty t b a idx :
  WellFormed t -> length b = output_rank t -> Forall good_bounds b ->
  PropagateBounds b (Some t) = Ok a -> in_bounds a idx ->
  IsDomainExplicitlyEmpty t = false.
Proof.
  intros HW Hl Hb H Hin. apply not_true_is_false. intros He.
  destruct (explicitly_empty_dim t (WellFormed_valid_dims t HW) He)
    as (k & e & Hk & E1 & E2 & Hno).
  destruct (PropagateBounds_dims t b a HW Hl Hb H) as (_ & Hd & _). cbv zeta in *.
  destruct (Hd k e Hk) as (r & Hr & Hres).
  rewrite (dr_explicit _ _ _ _ _ Hres E1 E2) in Hr.
  destruct (Forall2_lookup_l _ _ _ _ _ Hin Hr) as (v & _ & Hv). exact (Hno v Hv).
Qed.

(** With uniform implicit bits every admitted index vector is accepted. *)
Lemma PropagateBounds_complete t b a idx :
  WellFormed t -> length b = output_rank t -> Forall good_bounds b ->
  PropagateBounds b (Some t) = Ok a ->
  Forall uniform (transform_bounds t) -> Forall uniform b -> in_bounds a idx ->
  in_bounds (transform_bounds t) idx /\ outputs_admitted t b idx.
Proof.
  intros HW Hl Hb H Hut Hub Hin.
  destruct (PropagateBounds_dims t b a HW Hl Hb H) as (Hla & _ & Hk). cbv zeta in *.
  pose proof (PropagateBounds_explicitly_empty t b a idx HW Hl Hb H Hin) as Hemp.
  pose proof (Forall2_length _ _ _ Hin) as Hli. pose proof (transform_bounds_length t).
  assert (Hall : forall d v, idx !! d = Some v ->
    exists e, transform_bounds t !! d = Some e /\ admits e v /\
      forall c, c ∈ zip (output_index_maps t) b -> constrains d c -> satisfies c v).
  { intros d v Hv. destruct (Forall2_lookup_r _ _ _ _ _ Hin Hv) as (r & Hr & Hrv).
    destruct (PropagateBounds_lookup t b a d r HW Hl Hb H Hr) as (e & He & Hres).
    exists e. split; [exact He|]. apply (dr_exact _ _ _ _ _ Hres Hemp); [| |exact Hrv].
    - rewrite Forall_forall in Hut. exact (Hut _ (list_elem_of_lookup_2 _ _ _ He)).
    - intros [m bj] Hc. apply elem_of_zip_r in Hc. rewrite Forall_forall in Hub. auto. }
  split.
  - apply Forall2_same_length_lookup. split; [lia|]. intros d e v He Hv.
    destruct (Hall d v Hv) as (e' & He' & Hv' & _). congruence.
  - intros j m bj o Hm Hbj Ho. pose proof (elem_of_zip_lookup _ _ _ _ _ Hm Hbj) as Hc.
    unfold affine_output in Ho. destruct (method m) as [|d|data] eqn:Hmm; [| |discriminate];
      injection Ho as <-.
    + apply (Hk Hemp (m, bj) Hc). left; exact Hmm.
    + destruct (WellFormed_single t m d HW (list_elem_of_lookup_2 _ _ _ Hm) Hmm) as [Hdl Hnz].
      destruct (lookup_lt_is_Some_2 idx d ltac:(lia)) as [v Hv].
      rewrite (list_lookup_total_correct _ _ _ Hv).
      destruct (Hall d v Hv) as (e & _ & _ & Hsat). apply (Hsat (m, bj) Hc). split; assumption.
Qed.


Definition good_boundsb (b : OptionallyImplicitIndexInterval) : bool :=
  validb (interval b) && negb (empty (interval b)).

Lemma good_boundsb_spec l : forallb good_boundsb l = true -> Forall good_bounds l.
Proof.
  rewrite forallb_forall, Forall_forall. intros H b Hb%list_elem_of_In.
  specialize (H b Hb). unfold good_boundsb in H. bool_to_prop.
  split; [apply validb_spec; assumption|assumption].
Qed.


(** Implicit bounds that cross make the result depend on the order of the output
    dimensions, and let it exceed an explicit output bound: index [7] is accepted
    although the second output dimension ends at [5]. *)
Lemma propagate_order_dependent :
  let id := MkOutputIndexMap (single_input_dimension 0) 0 1 in
  let t := MkTransform [MkDimension OI_default EmptyString] [id; id; id] in
  let b1 := MkOI (MkInterval 10 11) true false in
  let b2 := MkOI (MkInterval 0 6) true false in
  let b3 := MkOI (MkInterval 0 101) false false in
  PropagateBounds [b1; b2; b3] (Some t) = Ok [MkOI (MkInterval 0 10) false false] /\
  PropagateBounds [b3; b2; b1] (Some t) = Ok [MkOI (MkInterval 0 6) false false].
Proof. split; vm_compute; reflexivity. Qed.
