(* ===== verification/TransformArray.v ===== *)
(** Applying a transform to an array: [index_space/internal/transform_array.cc]
    and the parts of [iterate.cc] it uses.

    [ArrayTransformer] is what composing transforms needs of it; its laws are
    stated once and used by the client, and the implementation below discharges
    them. *)

From stdpp Require Import strings sorting.
From S2P Require Import Prelude Int64 IndexInterval Transform PropagateBounds.

(** * The interface *)

(** A strided array of [Index] values with an origin. *)
Record ArrayView := MkArrayView {
  array_pointer : Z -> Z;
  array_domain : list IndexInterval;
  array_byte_strides : list Z
}.

(** [index_array_data.shared_array_view(domain)]. *)
Definition shared_array_view (data : IndexArrayData) (dom : list IndexInterval) : ArrayView :=
  MkArrayView (element_pointer data) dom (byte_strides data).

(** [TransformArraySubRegion(array, transform, origin, shape, strides)]: the
    result's element pointer, at the origin of the region, and its strides.
    [None] is the null pointer. *)
Class ArrayTransformer := {
  TransformArraySubRegion :
    ArrayView -> TransformRep -> list IndexInterval -> Result (option (Z -> Z) * list Z)
}.

(** The method of a map, a zero stride making it constant. *)
Definition effective_method_of (m : OutputIndexMap) : OutputIndexMethod :=
  if stride m =? 0 then constant else method m.

(** The output index map depends on input dimension [i]. *)
Definition depends_on (m : OutputIndexMap) (i : nat) : Prop :=
  match method m with
  | constant => False
  | single_input_dimension d => d = i /\ stride m <> 0
  | array data => byte_strides data !!! i <> 0
  end.

(** Some element read through [arr] depends on input dimension [i] of [t]. *)
Definition array_depends (arr : ArrayView) (t : TransformRep) (i : nat) : Prop :=
  exists j m, output_index_maps t !! j = Some m /\ depends_on m i /\
    array_byte_strides arr !!! j <> 0.

Class ArrayTransformerLaws `{!ArrayTransformer} : Prop := {
  (** One stride per input dimension. *)
  transform_strides_length arr t box p strides :
    TransformArraySubRegion arr t box = Ok (p, strides) ->
    length box = input_rank t -> length strides = input_rank t;
  (** The null pointer comes with zero strides. *)
  transform_null arr t box strides i :
    TransformArraySubRegion arr t box = Ok (None, strides) -> strides !!! i = 0;
  (** A dimension with a stride is one that the array depends on. *)
  transform_strides_depend arr t box p strides i :
    WellFormed t -> length box = input_rank t ->
    TransformArraySubRegion arr t box = Ok (p, strides) ->
    strides !!! i <> 0 -> array_depends arr t i;
  (** Every position of the region holds the array element it maps to; only the
      dimensions that the array depends on have to be inside the region. *)
  transform_elements arr t box p strides idx out :
    WellFormed t -> length box = input_rank t -> length idx = input_rank t ->
    length (array_byte_strides arr) = output_rank t ->
    length (array_domain arr) = output_rank t ->
    Forall Valid box ->
    TransformArraySubRegion arr t box = Ok (Some p, strides) ->
    (forall i, array_depends arr t i -> Contains (box !!! i) (idx !!! i) = true) ->
    mapR (fun m => output_index m idx) (output_index_maps t) = Ok out ->
    p (wrap64 (dot strides idx - dot strides (inclusive_min <$> box))) =
      array_pointer arr (IndexInnerProduct out (array_byte_strides arr))
}.

(** * Initialising the iteration: [InitializeSingleArrayIterationState] *)

(** The flags [can_skip], [strided] and [array_indexed] of an input dimension. *)
Definition can_skip : Z := 0.
Definition strided : Z := 1.
Definition array_indexed : Z := 2.

(** An index array that remains after singletons are folded into the base. *)
Record IndexArrayState := MkIndexArrayState {
  index_array_pointer : Z -> Z;
  index_array_byte_strides : list Z;
  index_array_output_byte_stride : Z
}.

(** [base_pointer] is kept as the byte offset from the array's pointer. *)
Record IterationState := MkIterationState {
  base_offset : Z;
  input_byte_strides : list Z;
  index_arrays : list IndexArrayState;
  input_dimension_flags : list Z
}.

(** Every offset that an array of this layout reads, a zero stride once. *)
Fixpoint layout_offsets (shape byte_strides : list Z) : list Z :=
  match shape, byte_strides with
  | n :: shape, s :: byte_strides =>
      let rest := layout_offsets shape byte_strides in
      if s =? 0 then rest
      else k ← seqZ 0 n; (fun z => k * s + z) <$> rest
  | _, _ => [0]
  end.

Definition ValidateIndexArrayBounds (bounds : IndexInterval) (p : Z -> Z)
  (shape byte_strides : list Z) : Result unit :=
  let finite_bounds := FiniteSubset bounds in
  if forallb (fun z =>
       let value := p (wrap64 z) in
       (inclusive_min finite_bounds <=? value) && (value <? exclusive_max finite_bounds))
     (layout_offsets shape byte_strides)
  then Ok tt else Err kOutOfRange.

(** Whether the index array has a single element in the region. *)
Fixpoint has_one_element (shape byte_strides : list Z) : bool :=
  match shape, byte_strides with
  | n :: shape, s :: byte_strides =>
      negb (negb (s =? 0) && negb (n =? 1)) && has_one_element shape byte_strides
  | _, _ => true
  end.

(** [flags |= array_indexed] where the array varies. *)
Definition mark_array_indexed (flags shape byte_strides : list Z) : list Z :=
  zip_with (fun f p => if negb (p.2 =? 0) && negb (p.1 =? 1) then Z.lor f array_indexed else f)
    flags (zip shape byte_strides).

Definition output_dim : Type := Z * IndexInterval * OutputIndexMap.

(** One iteration over the output dimensions, for a non-null transform. *)
Definition iteration_step (box : list IndexInterval) (st : IterationState) (x : output_dim)
  : Result IterationState :=
  let '(byte_stride, dom, map) := x in
  let origin := inclusive_min <$> box in
  let shape := size <$> box in
  if byte_stride =? 0 then Ok st
  else
    let base := wrap_on_overflow.Add (base_offset st)
                  (wrap_on_overflow.Multiply (offset map) byte_stride) in
    match effective_method_of map with
    | constant =>
        if negb (Contains dom (offset map)) then Err kOutOfRange
        else Ok (MkIterationState base (input_byte_strides st) (index_arrays st)
                   (input_dimension_flags st))
    | single_input_dimension d =>
        range ← GetAffineTransformRange (box !!! d) (offset map) (stride map);
        if negb (ContainsInterval dom range) then Err kOutOfRange
        else
          Ok (MkIterationState
                (wrap_on_overflow.Add base
                   (wrap_on_overflow.Multiply byte_stride
                      (wrap_on_overflow.Multiply (stride map) (origin !!! d))))
                (<[d := wrap_on_overflow.Add (input_byte_strides st !!! d)
                          (wrap_on_overflow.Multiply byte_stride (stride map))]>
                   (input_byte_strides st))
                (index_arrays st)
                (<[d := Z.lor (input_dimension_flags st !!! d) strided]>
                   (input_dimension_flags st)))
    | array data =>
        propagated ← GetAffineTransformDomain dom (offset map) (stride map);
        let index_bounds := Intersect propagated (index_range data) in
        let pointer :=
          AddByteOffset (element_pointer data) (IndexInnerProduct origin (byte_strides data)) in
        if has_one_element shape (byte_strides data) then
          let index := pointer 0 in
          _ ← CheckContains index_bounds index;
          Ok (MkIterationState
                (wrap_on_overflow.Add base
                   (wrap_on_overflow.Multiply byte_stride
                      (wrap_on_overflow.Multiply (stride map) index)))
                (input_byte_strides st) (index_arrays st) (input_dimension_flags st))
        else
          _ ← ValidateIndexArrayBounds index_bounds pointer shape (byte_strides data);
          Ok (MkIterationState base (input_byte_strides st)
                (index_arrays st ++
                   [MkIndexArrayState pointer (byte_strides data)
                      (wrap_on_overflow.Multiply byte_stride (stride map))])
                (mark_array_indexed (input_dimension_flags st) shape (byte_strides data)))
    end.

Definition InitializeSingleArrayIterationState (arr : ArrayView) (t : TransformRep)
  (box : list IndexInterval) : Result IterationState :=
  foldM (iteration_step box)
    (MkIterationState 0 (replicate (input_rank t) 0) [] (replicate (input_rank t) can_skip))
    (zip (zip (array_byte_strides arr) (array_domain arr)) (output_index_maps t)).

(** * Iteration order and the copy *)

(** [OrderTransformedArrayDimensionsByStrides]: decreasing absolute strides,
    lexicographically over the index arrays and then the direct strides. *)
Fixpoint order_by_strides (stride_lists : list (list Z)) (a b : nat) : bool :=
  match stride_lists with
  | [] => false
  | s :: stride_lists =>
      let x := Z.abs (s !!! a) in
      let y := Z.abs (s !!! b) in
      if x >? y then true else if x <? y then false else order_by_strides stride_lists a b
  end.

Definition not_after (stride_lists : list (list Z)) (a b : nat) : Prop :=
  order_by_strides stride_lists b a = false.
#[export] Instance not_after_dec stride_lists : RelDecision (not_after stride_lists).
Proof. intros a b. unfold not_after. apply _. Defined.

Definition state_strides (st : IterationState) : list (list Z) :=
  (index_array_byte_strides <$> index_arrays st) ++ [input_byte_strides st].

(** [MarkSingletonDimsAsSkippable]. *)
Definition MarkSingletonDimsAsSkippable (shape flags : list Z) : list Z :=
  zip_with (fun n f => if n =? 1 then can_skip else f) shape flags.

(** [ComputeDimensionIterationOrder] without an order constraint: the array-indexed
    dimensions, then the strided ones, each group sorted. *)
Definition ComputeDimensionIterationOrder (st : IterationState) (flags : list Z) : list nat :=
  let indexed := filter (fun d => Z.land (flags !!! d) array_indexed <> 0) (seq 0 (length flags)) in
  let others := filter (fun d => flags !!! d = strided) (seq 0 (length flags)) in
  merge_sort (not_after (state_strides st)) indexed ++
  merge_sort (not_after (state_strides st)) others.

(** [ComputeStrides] in C order: the strides and the total size. *)
Fixpoint ComputeStrides (element_stride : Z) (shape : list Z) : list Z * Z :=
  match shape with
  | [] => ([], element_stride)
  | n :: shape => let '(l, s) := ComputeStrides element_stride shape in (s :: l, s * n)
  end.

(** Store [values] at the positions [dims] of [base]. *)
Definition scatter (dims : list nat) (values base : list Z) : list Z :=
  foldl (fun l p => <[p.1 := p.2]> l) base (zip dims values).

(** The position, relative to the origin, that is stored at byte offset [z]. *)
Fixpoint unravel (z : Z) (strides : list Z) : list Z :=
  match strides with
  | [] => []
  | s :: strides => z / s :: unravel (z mod s) strides
  end.

(** The source element at a position relative to the origin of the region. *)
Definition source_offset (st : IterationState) (rel : list Z) : Z :=
  wrap64 (base_offset st + dot rel (input_byte_strides st) +
    foldr (fun a acc =>
        index_array_pointer a (wrap64 (dot rel (index_array_byte_strides a))) *
          index_array_output_byte_stride a + acc) 0 (index_arrays st)).

(** The size in bytes of an [Index]. *)
Definition sizeof_Index : Z := 8.

(** [TransformArraySubRegion] with the constraint [skip_repeated_elements], as the
    composition calls it.  Without index arrays the result is a view; otherwise
    the elements are copied to a new array in C order of the iterated dimensions.
    The copy visits every position once, so the new memory is described by the
    position stored at each offset. *)
Definition TransformArraySubRegionImpl (arr : ArrayView) (t : TransformRep)
  (box : list IndexInterval) : Result (option (Z -> Z) * list Z) :=
  if existsb (fun x => size x =? 0) box then Ok (None, replicate (input_rank t) 0)
  else
    st ← InitializeSingleArrayIterationState arr t box;
    match index_arrays st with
    | [] => Ok (Some (AddByteOffset (array_pointer arr) (base_offset st)), input_byte_strides st)
    | _ =>
        let shape := size <$> box in
        let flags := MarkSingletonDimsAsSkippable shape (input_dimension_flags st) in
        let order := ComputeDimensionIterationOrder st flags in
        let '(new_byte_strides, bytes) :=
          ComputeStrides sizeof_Index ((fun d => shape !!! d) <$> order) in
        if bytes >? kMaxFiniteSize then Err AllocationFailure
        else
          let zeros := replicate (input_rank t) 0 in
          Ok (Some (fun z =>
                array_pointer arr
                  (source_offset st (scatter order (unravel z new_byte_strides) zeros))),
              scatter order new_byte_strides zeros)
    end.

#[export] Instance array_transformer : ArrayTransformer := {
  TransformArraySubRegion := TransformArraySubRegionImpl
}.

(** * Mixed radix: strides of a compact array *)

Lemma ComputeStrides_length es shape l s :
  ComputeStrides es shape = (l, s) -> length l = length shape.
Proof.
  revert l s; induction shape as [|n shape IH]; cbn; intros l s; [intros [= <- _]; reflexivity|].
  destruct (ComputeStrides es shape) as [l' s'] eqn:E. intros [= <- _]. cbn. f_equal. eauto.
Qed.

(** The position is recovered from its offset, which is below the total size. *)
Lemma unravel_dot es shape l s ks :
  0 < es -> ComputeStrides es shape = (l, s) -> Forall2 (fun k n => 0 <= k < n) ks shape ->
  0 <= dot ks l <= s - es /\ unravel (dot ks l) l = ks /\ es <= s.
Proof.
  intros Hes. revert l s ks; induction shape as [|n shape IH]; cbn; intros l s ks.
  - intros [= <- <-] H. inversion H; subst. change (dot [] []) with 0. cbn.
    repeat split; lia || reflexivity.
  - destruct (ComputeStrides es shape) as [l' s'] eqn:E. intros [= <- <-] H.
    inversion H as [|k ? ks' ? Hk Hks]; subst.
    destruct (IH l' s' ks' eq_refl Hks) as (H1 & H2 & H3). rewrite dot_cons. cbn.
    assert (Hq : (k * s' + dot ks' l') / s' = k)
      by (rewrite Z.div_add_l, Z.div_small by lia; lia).
    assert (Hm : (k * s' + dot ks' l') mod s' = dot ks' l')
      by (rewrite Z.add_comm, Z.mod_add, Z.mod_small by lia; reflexivity).
    rewrite Hq, Hm, H2. split; [nia|split; [reflexivity|nia]].
Qed.

(** * Scatter *)

Lemma length_scatter dims values base : length (scatter dims values base) = length base.
Proof.
  unfold scatter. revert values base; induction dims as [|d dims IH]; intros [|v values] base;
    [reflexivity..|]. cbn. rewrite IH. apply length_insert.
Qed.

Lemma scatter_other dims values base d :
  d ∉ dims -> scatter dims values base !!! d = base !!! d.
Proof.
  unfold scatter. revert values base; induction dims as [|x dims IH]; intros [|v values] base H;
    [reflexivity..|]. cbn. apply not_elem_of_cons in H as [H1 H2].
  rewrite IH by exact H2. apply list_lookup_total_insert_ne. congruence.
Qed.

Lemma scatter_at dims values base i d v :
  NoDup dims -> Forall (fun d => (d < length base)%nat) dims ->
  dims !! i = Some d -> values !! i = Some v -> scatter dims values base !!! d = v.
Proof.
  unfold scatter. revert values base i; induction dims as [|x dims IH];
    intros [|w values] base i Hn Hl Hd Hv; try discriminate.
  apply NoDup_cons in Hn as [Hx Hn]. apply Forall_cons in Hl as [Hxl Hl]. cbn.
  destruct i as [|i].
  - injection Hd as ->. injection Hv as ->.
    change (scatter dims values (<[d:=v]> base) !!! d = v).
    rewrite scatter_other by exact Hx. apply list_lookup_total_insert_eq, Hxl.
  - apply (IH values _ i); [exact Hn| |exact Hd|exact Hv].
    rewrite length_insert. exact Hl.
Qed.

Lemma dot_insert l s d v :
  (d < length l)%nat -> length l = length s ->
  dot (<[d:=v]> l) s = dot l s + (v - l !!! d) * s !!! d.
Proof.
  revert s d; induction l as [|x l IH]; intros [|y s] d Hd Hl; try discriminate;
    cbn [length] in *; [lia|].
  destruct d as [|d].
  - change (<[0%nat:=v]> (x :: l)) with (v :: l). rewrite !dot_cons.
    change ((x :: l) !!! 0%nat) with x. change ((y :: s) !!! 0%nat) with y. lia.
  - change (<[S d:=v]> (x :: l)) with (x :: <[d:=v]> l). rewrite !dot_cons, IH by lia.
    change ((x :: l) !!! S d) with (l !!! d). change ((y :: s) !!! S d) with (s !!! d). lia.
Qed.

(** Scattering into zeros keeps the inner product. *)
Lemma dot_scatter dims values base s :
  NoDup dims -> Forall (fun d => (d < length base)%nat) dims ->
  length values = length dims -> length base = length s ->
  (forall d, d ∈ dims -> base !!! d = 0) ->
  dot (scatter dims values base) s = dot base s + dot values ((fun d => s !!! d) <$> dims).
Proof.
  unfold scatter. revert values base; induction dims as [|d dims IH];
    intros [|v values] base Hn Hl Hv Hb Hz; try discriminate; cbn;
    [change (dot [] []) with 0; lia|].
  apply NoDup_cons in Hn as [Hx Hn]. apply Forall_cons in Hl as [Hxl Hl].
  rewrite IH.
  - rewrite dot_insert by assumption. rewrite (Hz d (list_elem_of_here _ _)).
    rewrite dot_cons. lia.
  - exact Hn.
  - rewrite length_insert. exact Hl.
  - injection Hv; auto.
  - rewrite length_insert. exact Hb.
  - intros d' Hd'. rewrite list_lookup_total_insert_ne by congruence.
    apply Hz, list_elem_of_further, Hd'.
Qed.

(** * What the iteration state represents *)

(** An output dimension among [pre] that reads through input dimension [d]. *)
Definition reads (pre : list output_dim) (d : nat) : Prop :=
  exists x, x ∈ pre /\ x.1.1 <> 0 /\ depends_on x.2 d.

(** A position, relative to the origin, that is inside the region in every
    dimension that [pre] reads through. *)
Definition fits (box : list IndexInterval) (pre : list output_dim) (rel : list Z) : Prop :=
  forall d, reads pre d -> 0 <= rel !!! d < size (box !!! d).

(** The value part of [source_offset] before wrapping. *)
Definition source_sum (st : IterationState) (rel : list Z) : Z :=
  base_offset st + dot rel (input_byte_strides st) +
    foldr (fun a acc =>
        index_array_pointer a (wrap64 (dot rel (index_array_byte_strides a))) *
          index_array_output_byte_stride a + acc) 0 (index_arrays st).

Record iteration_inv (box : list IndexInterval) (rank : nat) (pre : list output_dim)
    (st : IterationState) : Prop := {
  ii_strides_length : length (input_byte_strides st) = rank;
  ii_flags_length : length (input_dimension_flags st) = rank;
  ii_flags_range : forall d, 0 <= input_dimension_flags st !!! d <= 3;
  ii_flags_reads : forall d, input_dimension_flags st !!! d <> 0 -> reads pre d;
  ii_strided : forall d, input_byte_strides st !!! d <> 0 -> input_dimension_flags st !!! d <> 0;
  ii_indexed : forall a d, a ∈ index_arrays st -> index_array_byte_strides a !!! d <> 0 ->
    reads pre d /\
    (input_dimension_flags st !!! d <> 0 \/ size (box !!! d) = 1);
  ii_value : forall rel idx out,
    length rel = rank -> idx = zip_with Z.add (inclusive_min <$> box) rel ->
    fits box pre rel ->
    mapR (fun x : output_dim => output_index x.2 idx) pre = Ok out ->
    congr64 (source_sum st rel) (dot out ((fun x : output_dim => x.1.1) <$> pre))
}.

Lemma reads_app pre x d : reads pre d -> reads (pre ++ [x]) d.
Proof. intros (y & Hy & H). exists y. rewrite elem_of_app. auto. Qed.

Lemma reads_last pre x d : x.1.1 <> 0 -> depends_on x.2 d -> reads (pre ++ [x]) d.
Proof. intros H1 H2. exists x. rewrite elem_of_app, list_elem_of_singleton. auto. Qed.

Lemma fits_app box pre x rel : fits box (pre ++ [x]) rel -> fits box pre rel.
Proof. intros H d Hd. apply H, reads_app, Hd. Qed.

Lemma mapR_app {A B} (f : A -> Result B) l x out :
  mapR f (l ++ [x]) = Ok out -> exists out' y, mapR f l = Ok out' /\ f x = Ok y /\ out = out' ++ [y].
Proof.
  rewrite mapR_Ok. intros H. apply Forall2_app_inv_l in H as (o1 & o2 & H1 & H2 & ->).
  inversion H2 as [|? y ? ? Hy Hn]; subst. inversion Hn; subst.
  exists o1, y. rewrite mapR_Ok. auto.
Qed.

Lemma dot_app a1 a2 b1 b2 :
  length a1 = length b1 -> dot (a1 ++ a2) (b1 ++ b2) = dot a1 b1 + dot a2 b2.
Proof.
  revert b1; induction a1 as [|x a1 IH]; intros [|y b1] Hl; try discriminate; [reflexivity|].
  injection Hl as Hl. cbn. rewrite !dot_cons, IH by exact Hl. lia.
Qed.

(** The value invariant for one more output dimension, given its contribution. *)
Lemma ii_value_step box rank pre st st' x :
  iteration_inv box rank pre st ->
  (forall rel idx y, length rel = rank ->
     idx = zip_with Z.add (inclusive_min <$> box) rel ->
     fits box (pre ++ [x]) rel -> output_index x.2 idx = Ok y ->
     congr64 (source_sum st' rel) (source_sum st rel + y * x.1.1)) ->
  forall rel idx out,
    length rel = rank -> idx = zip_with Z.add (inclusive_min <$> box) rel ->
    fits box (pre ++ [x]) rel ->
    mapR (fun x : output_dim => output_index x.2 idx) (pre ++ [x]) = Ok out ->
    congr64 (source_sum st' rel) (dot out ((fun x : output_dim => x.1.1) <$> (pre ++ [x]))).
Proof.
  intros Hinv Hx rel idx out Hl Hi Hf Hout.
  apply mapR_app in Hout as (out' & y & Hout & Hy & ->).
  rewrite fmap_app, dot_app by (rewrite length_fmap; exact (mapR_length _ _ _ Hout)).
  rewrite (Hx rel idx y Hl Hi Hf Hy).
  rewrite (ii_value _ _ _ _ Hinv rel idx out' Hl Hi (fits_app _ _ _ _ Hf) Hout).
  apply congr64_eq. cbn. rewrite dot_cons. change (dot [] []) with 0. lia.
Qed.

Lemma output_index_congr m idx v y :
  base_output_index m idx = Ok v -> output_index m idx = Ok y ->
  congr64 y (v * stride m + offset m).
Proof.
  unfold output_index. intros -> [= <-]. apply congr64_wrap.
Qed.

Lemma congr_wrap_sum a b c : congr64 b c -> congr64 (a + wrap64 b) (a + c).
Proof. intros H. rewrite congr64_wrap, H. reflexivity. Qed.

(** An iteration that only moves the base pointer. *)
Lemma inv_base_only box rank pre st x base :
  iteration_inv box rank pre st ->
  let st' := MkIterationState base (input_byte_strides st) (index_arrays st)
               (input_dimension_flags st) in
  (forall rel idx y, length rel = rank ->
     idx = zip_with Z.add (inclusive_min <$> box) rel ->
     fits box (pre ++ [x]) rel -> output_index x.2 idx = Ok y ->
     congr64 (source_sum st' rel) (source_sum st rel + y * x.1.1)) ->
  iteration_inv box rank (pre ++ [x]) st'.
Proof.
  intros Hinv st' Hx. split; cbn.
  - apply Hinv.
  - apply Hinv.
  - apply Hinv.
  - intros d Hd. apply reads_app. exact (ii_flags_reads _ _ _ _ Hinv d Hd).
  - apply Hinv.
  - intros a d Ha Hd. destruct (ii_indexed _ _ _ _ Hinv a d Ha Hd). auto using reads_app.
  - exact (ii_value_step box rank pre st st' x Hinv Hx).
Qed.

Lemma inv_constant box rank pre st bs dom map :
  iteration_inv box rank pre st -> effective_method_of map = constant ->
  iteration_inv box rank (pre ++ [(bs, dom, map)])
    (MkIterationState
       (wrap_on_overflow.Add (base_offset st) (wrap_on_overflow.Multiply (offset map) bs))
       (input_byte_strides st) (index_arrays st) (input_dimension_flags st)).
Proof.
  intros Hinv He. apply inv_base_only; [exact Hinv|]. intros rel idx y _ _ _ Hy. cbn in *.
  assert (Hyo : congr64 y (offset map)).
  { unfold output_index in Hy. apply bind_Ok in Hy as (v & Hv & [= <-]).
    rewrite congr64_wrap. apply congr64_eq. unfold effective_method_of in He.
    destruct (Z.eqb_spec (stride map) 0) as [->|_]; [lia|].
    unfold base_output_index in Hv. rewrite He in Hv. injection Hv as <-. lia. }
  unfold source_sum. cbn. rewrite Hyo, wrap_Add, wrap_Multiply, congr64_wrap, congr64_wrap.
  apply congr64_eq. lia.
Qed.

Lemma list_insert_fits (flags : list Z) d d' v :
  (forall i, 0 <= flags !!! i <= 3) -> 0 <= v <= 3 -> 0 <= <[d:=v]> flags !!! d' <= 3.
Proof.
  intros H Hv. destruct (decide (d = d')) as [<-|Hne].
  - destruct (Nat.lt_ge_cases d (length flags)) as [Hl|Hl].
    + rewrite list_lookup_total_insert_eq by exact Hl. exact Hv.
    + rewrite list_insert_ge by lia. apply H.
  - rewrite list_lookup_total_insert_ne by exact Hne. apply H.
Qed.

Lemma lor_flags f g : 0 <= f <= 3 -> (g = 1 \/ g = 2) -> 0 <= Z.lor f g <= 3 /\ Z.lor f g <> 0.
Proof.
  intros Hf Hg. assert (Hc : f = 0 \/ f = 1 \/ f = 2 \/ f = 3) by lia.
  destruct Hc as [->|[->|[->| ->]]], Hg as [->| ->]; (split; [split|]); vm_compute; congruence.
Qed.

(** An iteration for a single-input-dimension map. *)
Lemma inv_single box rank pre st bs dom map d :
  iteration_inv box rank pre st -> length box = rank ->
  method map = single_input_dimension d -> stride map <> 0 -> (d < rank)%nat -> bs <> 0 ->
  iteration_inv box rank (pre ++ [(bs, dom, map)])
    (MkIterationState
       (wrap_on_overflow.Add
          (wrap_on_overflow.Add (base_offset st) (wrap_on_overflow.Multiply (offset map) bs))
          (wrap_on_overflow.Multiply bs
             (wrap_on_overflow.Multiply (stride map) ((inclusive_min <$> box) !!! d))))
       (<[d := wrap_on_overflow.Add (input_byte_strides st !!! d)
                 (wrap_on_overflow.Multiply bs (stride map))]> (input_byte_strides st))
       (index_arrays st)
       (<[d := Z.lor (input_dimension_flags st !!! d) strided]> (input_dimension_flags st))).
Proof.
  intros Hinv Hbox Hm Hs Hd Hbs.
  pose proof (lor_flags _ 1 (ii_flags_range _ _ _ _ Hinv d) (or_introl eq_refl)) as [Hlr Hlnz].
  assert (Hread : reads (pre ++ [(bs, dom, map)]) d).
  { apply reads_last; [exact Hbs|]. cbn. unfold depends_on. rewrite Hm. auto. }
  pose proof (ii_strides_length _ _ _ _ Hinv) as Hsl.
  pose proof (ii_flags_length _ _ _ _ Hinv) as Hfl.
  assert (Hflag : forall d', input_dimension_flags st !!! d' <> 0 ->
    <[d:=Z.lor (input_dimension_flags st !!! d) strided]> (input_dimension_flags st) !!! d' <> 0).
  { intros d' Hd'. destruct (decide (d = d')) as [<-|Hne].
    - rewrite list_lookup_total_insert_eq by lia. exact Hlnz.
    - rewrite list_lookup_total_insert_ne by exact Hne. exact Hd'. }
  split; cbn [input_byte_strides input_dimension_flags index_arrays].
  - rewrite length_insert. exact Hsl.
  - rewrite length_insert. exact Hfl.
  - intros d'. apply list_insert_fits; [apply Hinv|exact Hlr].
  - intros d' Hd'. destruct (decide (d = d')) as [<-|Hne]; [exact Hread|].
    rewrite list_lookup_total_insert_ne in Hd' by exact Hne.
    apply reads_app. exact (ii_flags_reads _ _ _ _ Hinv d' Hd').
  - intros d' Hd'. destruct (decide (d = d')) as [<-|Hne].
    + rewrite list_lookup_total_insert_eq by lia. exact Hlnz.
    + rewrite list_lookup_total_insert_ne in Hd' by exact Hne.
      apply Hflag. exact (ii_strided _ _ _ _ Hinv d' Hd').
  - intros a d' Ha Hd'. destruct (ii_indexed _ _ _ _ Hinv a d' Ha Hd') as [H1 [H2|H2]];
      auto using reads_app.
  - apply (ii_value_step box rank pre st); [exact Hinv|].
    intros rel idx y Hrl -> _ Hy. cbn in Hy |- *.
    destruct (lookup_lt_is_Some_2 (inclusive_min <$> box) d) as [o Ho];
      [rewrite length_fmap; lia|].
    destruct (lookup_lt_is_Some_2 rel d) as [k Hk]; [lia|].
    rewrite (output_index_congr map (zip_with Z.add (inclusive_min <$> box) rel) (o + k) y);
      [| |exact Hy].
    2: { unfold base_output_index. rewrite Hm. f_equal. apply list_lookup_total_correct.
         rewrite lookup_zip_with, Ho. cbn. rewrite Hk. reflexivity. }
    unfold source_sum. cbn [base_offset input_byte_strides index_arrays].
    rewrite (dot_comm rel (<[d:=_]> _)), dot_insert by lia.
    rewrite (list_lookup_total_correct _ _ _ Ho), (list_lookup_total_correct _ _ _ Hk).
    rewrite !wrap_Add, !wrap_Multiply, (dot_comm rel (input_byte_strides st)).
    unfold Z.sub. rewrite !congr64_wrap. apply congr64_eq. lia.
Qed.

(** * Index arrays *)

Lemma has_one_element_spec shape strides :
  length shape = length strides -> has_one_element shape strides = true ->
  forall d, strides !!! d <> 0 -> shape !!! d = 1.
Proof.
  revert strides; induction shape as [|n shape IH]; intros [|s strides] Hl H d Hd;
    try discriminate; [destruct d; contradiction|].
  injection Hl as Hl. cbn in H. apply andb_true_iff in H as [H1 H2].
  destruct d as [|d]; [|exact (IH strides Hl H2 d Hd)].
  change (s <> 0) in Hd. change (n = 1).
  destruct (Z.eqb_spec s 0); [contradiction|]. destruct (Z.eqb_spec n 1); [assumption|discriminate].
Qed.

Lemma mark_array_indexed_lookup flags shape strides d :
  length shape = length flags -> length strides = length flags ->
  mark_array_indexed flags shape strides !!! d =
    if negb (strides !!! d =? 0) && negb (shape !!! d =? 1)
    then Z.lor (flags !!! d) array_indexed else flags !!! d.
Proof.
  unfold mark_array_indexed. revert shape strides d; induction flags as [|f flags IH];
    intros [|n shape] [|s strides] d H1 H2; try discriminate.
  - destruct d; reflexivity.
  - injection H1 as H1. injection H2 as H2.
    destruct d as [|d]; [reflexivity|]. exact (IH shape strides d H1 H2).
Qed.

(** The offset that the array's pointer has been moved by, plus the relative one. *)
Lemma index_array_pointer_value data box rel :
  length box = length rel ->
  AddByteOffset (element_pointer data) (IndexInnerProduct (inclusive_min <$> box) (byte_strides data))
    (wrap64 (dot rel (byte_strides data))) =
  element_pointer data
    (IndexInnerProduct (zip_with Z.add (inclusive_min <$> box) rel) (byte_strides data)).
Proof.
  intros Hl. unfold AddByteOffset. rewrite wrap_Add, !IndexInnerProduct_dot.
  rewrite dot_add by (rewrite length_fmap; exact Hl).
  rewrite wrap64_add_l, wrap64_add_r. reflexivity.
Qed.

Lemma inv_array_one box rank pre st bs dom map data :
  iteration_inv box rank pre st -> length box = rank ->
  method map = array data -> length (byte_strides data) = rank -> bs <> 0 ->
  has_one_element (size <$> box) (byte_strides data) = true ->
  let index := AddByteOffset (element_pointer data)
    (IndexInnerProduct (inclusive_min <$> box) (byte_strides data)) 0 in
  iteration_inv box rank (pre ++ [(bs, dom, map)])
    (MkIterationState
       (wrap_on_overflow.Add
          (wrap_on_overflow.Add (base_offset st) (wrap_on_overflow.Multiply (offset map) bs))
          (wrap_on_overflow.Multiply bs (wrap_on_overflow.Multiply (stride map) index)))
       (input_byte_strides st) (index_arrays st) (input_dimension_flags st)).
Proof.
  intros Hinv Hbox Hm Hl Hbs Hone index. apply inv_base_only; [exact Hinv|].
  intros rel idx y Hrl -> Hfit Hy. cbn in Hy.
  assert (Hz : dot rel (byte_strides data) = 0).
  { transitivity (dot (replicate (length rel) 0) (byte_strides data)).
    - apply dot_agree; [rewrite length_replicate; reflexivity|]. intros d Hd.
      pose proof (lookup_total_nonzero _ _ Hd) as Hlt.
      rewrite lookup_total_replicate_2 by lia.
      destruct (lookup_lt_is_Some_2 box d) as [x Hx]; [lia|].
      assert (Hsz : (size <$> box) !!! d = 1)
        by (apply (has_one_element_spec _ (byte_strides data));
            [rewrite length_fmap; congruence|exact Hone|exact Hd]).
      rewrite (lookup_total_fmap size _ _ _ Hx) in Hsz.
      assert (Hr : 0 <= rel !!! d < size (box !!! d)).
      { apply Hfit, reads_last; [exact Hbs|]. cbn. unfold depends_on. rewrite Hm. exact Hd. }
      rewrite (list_lookup_total_correct _ _ _ Hx) in Hr. lia.
    - generalize (byte_strides data) as s. clear. induction (length rel) as [|n IH];
        intros [|s l]; [reflexivity..|]. cbn. rewrite dot_cons, IH. lia. }
  assert (Hv : base_output_index map (zip_with Z.add (inclusive_min <$> box) rel) = Ok index).
  { unfold output_index in Hy. apply bind_Ok in Hy as (v & Hv & _). rewrite Hv. f_equal.
    unfold base_output_index in Hv. rewrite Hm in Hv. apply bind_Ok in Hv as (_ & _ & [= <-]).
    rewrite <- index_array_pointer_value by congruence. rewrite Hz. reflexivity. }
  rewrite (output_index_congr _ _ _ _ Hv Hy). unfold source_sum.
  cbn [base_offset input_byte_strides index_arrays].
  rewrite !wrap_Add, !wrap_Multiply, !congr64_wrap. apply congr64_eq. cbn. lia.
Qed.

Lemma inv_array_many box rank pre st bs dom map data :
  iteration_inv box rank pre st -> length box = rank ->
  method map = array data -> length (byte_strides data) = rank -> bs <> 0 ->
  let pointer := AddByteOffset (element_pointer data)
    (IndexInnerProduct (inclusive_min <$> box) (byte_strides data)) in
  iteration_inv box rank (pre ++ [(bs, dom, map)])
    (MkIterationState
       (wrap_on_overflow.Add (base_offset st) (wrap_on_overflow.Multiply (offset map) bs))
       (input_byte_strides st)
       (index_arrays st ++
          [MkIndexArrayState pointer (byte_strides data)
             (wrap_on_overflow.Multiply bs (stride map))])
       (mark_array_indexed (input_dimension_flags st) (size <$> box) (byte_strides data))).
Proof.
  intros Hinv Hbox Hm Hl Hbs pointer.
  pose proof (ii_flags_length _ _ _ _ Hinv) as Hfl.
  assert (Hmark : forall d, mark_array_indexed (input_dimension_flags st) (size <$> box)
      (byte_strides data) !!! d =
    if negb (byte_strides data !!! d =? 0) && negb ((size <$> box) !!! d =? 1)
    then Z.lor (input_dimension_flags st !!! d) array_indexed else input_dimension_flags st !!! d).
  { intros d. apply mark_array_indexed_lookup; rewrite ?length_fmap; congruence. }
  assert (Hnz : forall d, input_dimension_flags st !!! d <> 0 ->
    mark_array_indexed (input_dimension_flags st) (size <$> box) (byte_strides data) !!! d <> 0).
  { intros d Hd. rewrite Hmark. case_if; [|exact Hd].
    apply lor_flags; [apply Hinv|auto]. }
  assert (Hdep : forall d, byte_strides data !!! d <> 0 -> reads (pre ++ [(bs, dom, map)]) d).
  { intros d Hd. apply reads_last; [exact Hbs|]. cbn. unfold depends_on. rewrite Hm. exact Hd. }
  split; cbn [input_byte_strides input_dimension_flags index_arrays].
  - apply Hinv.
  - unfold mark_array_indexed. rewrite length_zip_with, length_zip, length_fmap. lia.
  - intros d. rewrite Hmark. case_if; [|apply Hinv]. apply lor_flags; [apply Hinv|auto].
  - intros d. rewrite Hmark. case_if; [intros _|].
    + apply Hdep. bool_to_prop. assumption.
    + intros Hd. apply reads_app. exact (ii_flags_reads _ _ _ _ Hinv d Hd).
  - intros d Hd. apply Hnz. exact (ii_strided _ _ _ _ Hinv d Hd).
  - intros a d [Ha|Ha%list_elem_of_singleton]%elem_of_app Hd.
    + destruct (ii_indexed _ _ _ _ Hinv a d Ha Hd) as [H1 [H2|H2]]; auto using reads_app.
    + subst a. cbn in Hd. split; [exact (Hdep d Hd)|]. rewrite Hmark.
      destruct (lookup_lt_is_Some_2 box d) as [x Hx];
        [pose proof (lookup_total_nonzero _ _ Hd); lia|].
      rewrite (lookup_total_fmap size _ _ _ Hx), (list_lookup_total_correct _ _ _ Hx).
      destruct (Z.eqb_spec (byte_strides data !!! d) 0); [contradiction|].
      destruct (Z.eqb_spec (size x) 1); [auto|left]. cbn [negb andb].
      apply lor_flags; [apply Hinv|auto].
  - apply (ii_value_step box rank pre st); [exact Hinv|].
    intros rel idx y Hrl -> _ Hy. cbn in Hy |- *.
    assert (Hv : base_output_index map (zip_with Z.add (inclusive_min <$> box) rel) =
      Ok (pointer (wrap64 (dot rel (byte_strides data))))).
    { unfold output_index in Hy. apply bind_Ok in Hy as (v & Hv & _). rewrite Hv. f_equal.
      unfold base_output_index in Hv. rewrite Hm in Hv. apply bind_Ok in Hv as (_ & _ & [= <-]).
      unfold pointer. rewrite index_array_pointer_value by congruence. reflexivity. }
    rewrite (output_index_congr _ _ _ _ Hv Hy). unfold source_sum.
    cbn [base_offset input_byte_strides index_arrays].
    rewrite foldr_app. cbn [foldr index_array_pointer index_array_byte_strides
      index_array_output_byte_stride].
    assert (Hsum : forall l c, foldr (fun a acc =>
        index_array_pointer a (wrap64 (dot rel (index_array_byte_strides a))) *
          index_array_output_byte_stride a + acc) c l =
      foldr (fun a acc =>
        index_array_pointer a (wrap64 (dot rel (index_array_byte_strides a))) *
          index_array_output_byte_stride a + acc) 0 l + c).
    { intros l c. induction l as [|a l IH]; cbn; [lia|]. rewrite IH. lia. }
    rewrite Hsum. generalize (pointer (wrap64 (dot rel (byte_strides data)))) as v. intros v.
    rewrite !wrap_Add, !wrap_Multiply, !congr64_wrap. apply congr64_eq. lia.
Qed.

(** Each iteration keeps the invariant. *)
Lemma iteration_inv_step t box pre st st' x :
  WellFormed t -> length box = input_rank t -> x.2 ∈ output_index_maps t ->
  iteration_inv box (input_rank t) pre st ->
  iteration_step box st x = Ok st' ->
  iteration_inv box (input_rank t) (pre ++ [x]) st'.
Proof.
  intros HW Hbox Hin Hinv Hst. destruct x as [[bs dom] map]. cbn in Hin.
  unfold iteration_step in Hst. destruct (Z.eqb_spec bs 0) as [->|Hbs].
  { injection Hst as <-. destruct st as [b s a f].
    apply (inv_base_only box _ pre (MkIterationState b s a f) (0, dom, map) b Hinv).
    intros. apply congr64_eq. unfold source_sum. cbn. lia. }
  destruct (effective_method_of map) as [|d|data] eqn:He.
  - destruct (Contains _ _); [|discriminate]. injection Hst as <-.
    apply inv_constant; assumption.
  - apply bind_Ok in Hst as (range & _ & Hst). destruct (ContainsInterval _ _); [|discriminate].
    injection Hst as <-. unfold effective_method_of in He.
    destruct (Z.eqb_spec (stride map) 0); [discriminate|].
    destruct (WellFormed_single t map d HW Hin He) as [Hd _].
    apply inv_single; assumption.
  - apply bind_Ok in Hst as (prop & _ & Hst). unfold effective_method_of in He.
    destruct (Z.eqb_spec (stride map) 0); [discriminate|].
    destruct (WellFormed_map t map HW Hin) as [_ (_ & _ & Ht)]. rewrite He in Ht.
    destruct Ht as [Hl _]. destruct (has_one_element _ _) eqn:Hone.
    + apply bind_Ok in Hst as (_ & _ & [= <-]).
      apply (inv_array_one box _ pre st bs dom map data); assumption.
    + apply bind_Ok in Hst as (_ & _ & [= <-]).
      apply (inv_array_many box _ pre st bs dom map data); assumption.
Qed.

Lemma iteration_inv_init box rank :
  iteration_inv box rank []
    (MkIterationState 0 (replicate rank 0) [] (replicate rank can_skip)).
Proof.
  assert (Hz : forall n d, replicate n 0 !!! d = 0).
  { intros n d. destruct (Nat.lt_ge_cases d n).
    - apply lookup_total_replicate_2. assumption.
    - rewrite list_lookup_total_alt, lookup_ge_None_2; [reflexivity|].
      rewrite length_replicate. assumption. }
  split; cbn [input_byte_strides input_dimension_flags index_arrays]; unfold can_skip;
    try (intros d Hd; rewrite Hz in Hd; contradiction).
  - apply length_replicate.
  - apply length_replicate.
  - intros d. rewrite Hz. lia.
  - intros a d Ha. inversion Ha.
  - intros rel idx out Hl _ _ [= <-]. unfold source_sum. cbn.
    apply congr64_eq. change (dot [] []) with 0.
    assert (dot rel (replicate rank 0) = 0) as ->; [|lia].
    clear. revert rel. induction rank as [|n IH]; intros [|x rel]; [reflexivity..|].
    cbn. rewrite dot_cons, IH. lia.
Qed.

Definition output_dims (arr : ArrayView) (t : TransformRep) : list output_dim :=
  zip (zip (array_byte_strides arr) (array_domain arr)) (output_index_maps t).

Lemma iteration_inv_final arr t box st :
  WellFormed t -> length box = input_rank t ->
  InitializeSingleArrayIterationState arr t box = Ok st ->
  iteration_inv box (input_rank t) (output_dims arr t) st.
Proof.
  intros HW Hbox. unfold InitializeSingleArrayIterationState.
  apply foldM_prefix; [apply iteration_inv_init|].
  intros pre [y m] s1 s2 Hx Hpre Hst.
  apply (iteration_inv_step t box pre s1 s2 (y, m)); try assumption.
  apply elem_of_zip_r in Hx. exact Hx.
Qed.

Lemma reads_array_depends arr t d : reads (output_dims arr t) d -> array_depends arr t d.
Proof.
  intros ([[bs dom] m] & Hx & Hbs & Hd). cbn in Hbs, Hd. unfold output_dims in Hx.
  apply list_elem_of_lookup_1 in Hx as [j Hj]. rewrite lookup_zip_with in Hj.
  destruct (zip (array_byte_strides arr) (array_domain arr) !! j) as [q|] eqn:Eq; [|discriminate].
  cbn in Hj. destruct (output_index_maps t !! j) as [m'|] eqn:Em; [|discriminate].
  injection Hj as -> ->. exists j, m. split; [exact Em|]. split; [exact Hd|].
  rewrite lookup_zip_with in Eq. destruct (array_byte_strides arr !! j) as [s|] eqn:Es; [|discriminate].
  cbn in Eq. destruct (array_domain arr !! j); [|discriminate]. injection Eq as -> _.
  rewrite (list_lookup_total_correct _ _ _ Es). exact Hbs.
Qed.

(** * The iterated dimensions *)

Lemma order_elem st flags d :
  (forall d, 0 <= flags !!! d <= 3) ->
  (d ∈ ComputeDimensionIterationOrder st flags <-> (d < length flags)%nat /\ flags !!! d <> 0).
Proof.
  intros Hr. unfold ComputeDimensionIterationOrder.
  rewrite elem_of_app, !merge_sort_Permutation, !list_elem_of_filter, elem_of_seq.
  unfold strided, array_indexed. specialize (Hr d).
  assert (Hc : flags !!! d = 0 \/ flags !!! d = 1 \/ flags !!! d = 2 \/ flags !!! d = 3) by lia.
  assert (Hl : Z.land (flags !!! d) 2 <> 0 <-> flags !!! d = 2 \/ flags !!! d = 3)
    by (destruct Hc as [->|[->|[->| ->]]]; vm_compute; intuition congruence).
  rewrite Hl. lia.
Qed.

Lemma order_NoDup st flags : NoDup (ComputeDimensionIterationOrder st flags).
Proof.
  unfold ComputeDimensionIterationOrder. apply NoDup_app. split; [|split].
  - rewrite merge_sort_Permutation. apply NoDup_filter, NoDup_seq.
  - intros d. rewrite !merge_sort_Permutation, !list_elem_of_filter. unfold strided.
    intros [H1 _] [H2 _]. rewrite H2 in H1. apply H1. reflexivity.
  - rewrite merge_sort_Permutation. apply NoDup_filter, NoDup_seq.
Qed.

Lemma MarkSingleton_lookup shape flags d :
  length shape = length flags ->
  MarkSingletonDimsAsSkippable shape flags !!! d =
    if shape !!! d =? 1 then 0 else flags !!! d.
Proof.
  unfold MarkSingletonDimsAsSkippable, can_skip. revert flags d.
  induction shape as [|n shape IH]; intros [|f flags] d Hl; try discriminate.
  - destruct d; reflexivity.
  - injection Hl as Hl. destruct d as [|d]; [reflexivity|]. exact (IH flags d Hl).
Qed.

Lemma dot_zeros n s : dot (replicate n 0) s = 0.
Proof.
  revert s; induction n as [|n IH]; intros [|x s]; [reflexivity..|].
  cbn. rewrite dot_cons, IH. lia.
Qed.

Lemma lookup_replicate_zero n d : replicate n 0 !!! d = 0.
Proof.
  destruct (Nat.lt_ge_cases d n).
  - apply lookup_total_replicate_2. assumption.
  - rewrite list_lookup_total_alt, lookup_ge_None_2; [reflexivity|].
    rewrite length_replicate. assumption.
Qed.

(** Two positions that agree wherever the state reads have the same source. *)
Lemma source_offset_agree st rel rel' :
  length rel = length rel' ->
  (forall d, input_byte_strides st !!! d <> 0 -> rel !!! d = rel' !!! d) ->
  (forall a d, a ∈ index_arrays st -> index_array_byte_strides a !!! d <> 0 ->
     rel !!! d = rel' !!! d) ->
  source_offset st rel = source_offset st rel'.
Proof.
  intros Hl Hs Ha. unfold source_offset. f_equal. f_equal.
  - f_equal. apply dot_agree; assumption.
  - induction (index_arrays st) as [|a l IH]; [reflexivity|]. cbn.
    rewrite (dot_agree rel rel' (index_array_byte_strides a)).
    + rewrite IH; [reflexivity|]. intros b d Hb. apply Ha, list_elem_of_further, Hb.
    + exact Hl.
    + intros d. apply Ha, list_elem_of_here.
Qed.

Section Copy.
Variables (arr : ArrayView) (t : TransformRep) (box : list IndexInterval) (st : IterationState).
Hypothesis HW : WellFormed t.
Hypothesis Hbox : length box = input_rank t.
Hypothesis Hvalid : Forall Valid box.
Hypothesis Hinv : iteration_inv box (input_rank t) (output_dims arr t) st.

Let shape := size <$> box.
Let flags := MarkSingletonDimsAsSkippable shape (input_dimension_flags st).
Let order := ComputeDimensionIterationOrder st flags.

Lemma copy_flags d : flags !!! d = if shape !!! d =? 1 then 0 else input_dimension_flags st !!! d.
Proof.
  apply MarkSingleton_lookup. unfold shape. rewrite length_fmap.
  rewrite (ii_flags_length _ _ _ _ Hinv). exact Hbox.
Qed.

Lemma copy_flags_range d : 0 <= flags !!! d <= 3.
Proof. rewrite copy_flags. case_if; [lia|apply Hinv]. Qed.

Lemma copy_flags_length : length flags = input_rank t.
Proof.
  unfold flags, MarkSingletonDimsAsSkippable, shape.
  rewrite length_zip_with, length_fmap, (ii_flags_length _ _ _ _ Hinv). lia.
Qed.

Lemma copy_order d :
  d ∈ order -> (d < input_rank t)%nat /\ input_dimension_flags st !!! d <> 0 /\ shape !!! d <> 1.
Proof.
  intros Hd. apply (order_elem st flags d copy_flags_range) in Hd as [Hl Hd].
  rewrite copy_flags_length in Hl. rewrite copy_flags in Hd.
  destruct (Z.eqb_spec (shape !!! d) 1); [contradiction|]. auto.
Qed.

Lemma copy_order_lt : Forall (fun d => (d < length (replicate (input_rank t) 0%Z))%nat) order.
Proof.
  apply Forall_forall. intros d Hd. rewrite length_replicate. apply (copy_order d Hd).
Qed.

(** A dimension that is not iterated has flag zero or a single position. *)
Lemma copy_not_iterated d :
  (d < input_rank t)%nat -> d ∉ order ->
  input_dimension_flags st !!! d = 0 \/ shape !!! d = 1.
Proof.
  intros Hl Hd. destruct (Z.eq_dec (shape !!! d) 1) as [|Hs]; [auto|left].
  destruct (Z.eq_dec (input_dimension_flags st !!! d) 0) as [|Hf]; [assumption|].
  exfalso. apply Hd, (order_elem st flags d copy_flags_range).
  rewrite copy_flags_length, copy_flags.
  destruct (Z.eqb_spec (shape !!! d) 1); [contradiction|]. auto.
Qed.

Lemma copy_shape d : (d < input_rank t)%nat -> shape !!! d = size (box !!! d).
Proof.
  intros Hd. destruct (lookup_lt_is_Some_2 box d) as [x Hx]; [lia|].
  unfold shape. rewrite (lookup_total_fmap size _ _ _ Hx), (list_lookup_total_correct _ _ _ Hx).
  reflexivity.
Qed.

(** Storing a position at its own offset and reading it back gives the source. *)
Lemma copy_value rel new_byte_strides bytes :
  length rel = input_rank t -> fits box (output_dims arr t) rel ->
  ComputeStrides sizeof_Index ((fun d => shape !!! d) <$> order) = (new_byte_strides, bytes) ->
  bytes <= kMaxFiniteSize ->
  let zeros := replicate (input_rank t) 0 in
  let z := wrap64 (dot (scatter order new_byte_strides zeros) rel) in
  source_offset st (scatter order (unravel z new_byte_strides) zeros) = source_offset st rel.
Proof.
  intros Hl Hf Hc Hb zeros z.
  assert (Hread : forall d, d ∈ order -> 0 <= rel !!! d < shape !!! d).
  { intros d Hd. destruct (copy_order d Hd) as (Hlt & Hfl & _).
    rewrite copy_shape by exact Hlt. apply Hf. exact (ii_flags_reads _ _ _ _ Hinv d Hfl). }
  pose proof (ComputeStrides_length _ _ _ _ Hc) as Hsl. rewrite length_fmap in Hsl.
  assert (Hdot : dot (scatter order new_byte_strides zeros) rel =
    dot ((fun d => rel !!! d) <$> order) new_byte_strides).
  { rewrite dot_scatter.
    - unfold zeros. rewrite dot_zeros, dot_comm. lia.
    - apply order_NoDup.
    - apply copy_order_lt.
    - exact Hsl.
    - unfold zeros. rewrite length_replicate. congruence.
    - intros d _. apply lookup_replicate_zero. }
  assert (Hks : Forall2 (fun k n => 0 <= k < n) ((fun d => rel !!! d) <$> order)
    ((fun d => shape !!! d) <$> order)).
  { apply Forall2_fmap, Forall2_same_length_lookup. split; [reflexivity|].
    intros i d d' Hi Hi'. assert (d = d') as <- by congruence.
    apply Hread, (list_elem_of_lookup_2 _ _ _ Hi). }
  destruct (unravel_dot sizeof_Index _ _ _ _ ltac:(reflexivity) Hc Hks) as (Hr & Hu & _).
  assert (Hz : z = dot ((fun d => rel !!! d) <$> order) new_byte_strides).
  { subst z. rewrite Hdot. apply wrap64_id. unfold sizeof_Index in Hr. i64_lia. }
  rewrite Hz, Hu.
  assert (Hat : forall d, d ∈ order ->
    scatter order ((fun d => rel !!! d) <$> order) zeros !!! d = rel !!! d).
  { intros d Hd. apply list_elem_of_lookup_1 in Hd as [i Hi].
    apply (scatter_at _ _ _ i d); [apply order_NoDup|exact copy_order_lt|exact Hi|].
    rewrite list_lookup_fmap, Hi. reflexivity. }
  assert (Hoff : forall d, d ∉ order ->
    scatter order ((fun d => rel !!! d) <$> order) zeros !!! d = 0).
  { intros d Hd. rewrite scatter_other by exact Hd. apply lookup_replicate_zero. }
  assert (Hagree : forall d, (d < input_rank t)%nat -> reads (output_dims arr t) d ->
    input_dimension_flags st !!! d <> 0 \/ shape !!! d = 1 ->
    scatter order ((fun d => rel !!! d) <$> order) zeros !!! d = rel !!! d).
  { intros d Hd Hrd Hc'. destruct (decide (d ∈ order)) as [Hin|Hin]; [exact (Hat d Hin)|].
    rewrite (Hoff d Hin). specialize (Hf d Hrd). rewrite <- copy_shape in Hf by exact Hd.
    destruct (copy_not_iterated d Hd Hin) as [H0|H1]; [|lia].
    destruct Hc'; [contradiction|lia]. }
  apply source_offset_agree.
  - rewrite length_scatter. unfold zeros. rewrite length_replicate. congruence.
  - intros d Hd. pose proof (lookup_total_nonzero _ _ Hd) as Hlt.
    rewrite (ii_strides_length _ _ _ _ Hinv) in Hlt.
    pose proof (ii_strided _ _ _ _ Hinv d Hd) as Hfl.
    apply Hagree; [exact Hlt|exact (ii_flags_reads _ _ _ _ Hinv d Hfl)|auto].
  - intros a d Ha Hd. destruct (ii_indexed _ _ _ _ Hinv a d Ha Hd) as [H1 H2].
    destruct (Nat.lt_ge_cases d (input_rank t)) as [Hlt|Hge].
    + apply Hagree; [exact Hlt|exact H1|]. rewrite copy_shape by exact Hlt. exact H2.
    + rewrite !list_lookup_total_alt, !lookup_ge_None_2; [reflexivity|lia|].
      rewrite length_scatter. unfold zeros. rewrite length_replicate. lia.
Qed.

End Copy.

(** * The laws hold *)

Lemma mapR_output_dims arr t idx out :
  length (array_byte_strides arr) = output_rank t ->
  length (array_domain arr) = output_rank t ->
  mapR (fun m => output_index m idx) (output_index_maps t) = Ok out ->
  mapR (fun x : output_dim => output_index x.2 idx) (output_dims arr t) = Ok out /\
  (fun x : output_dim => x.1.1) <$> output_dims arr t = array_byte_strides arr.
Proof.
  unfold output_dims, output_rank. generalize (output_index_maps t) as maps.
  generalize (array_domain arr) as doms. generalize (array_byte_strides arr) as strides.
  intros strides doms maps. revert strides doms out.
  induction maps as [|m maps IH]; intros [|s strides] [|d doms] out H1 H2 H; try discriminate;
    [auto|]. cbn in *.
  apply bind_Ok in H as (y & Hy & (ys & Hys & [= <-])%bind_Ok).
  destruct (IH strides doms ys) as [E1 E2]; [lia|lia|exact Hys|].
  rewrite Hy. cbn. rewrite E1. cbn. split; [reflexivity|]. f_equal. exact E2.
Qed.

Lemma source_offset_value arr t box st idx out :
  length idx = length box ->
  length (array_byte_strides arr) = output_rank t ->
  length (array_domain arr) = output_rank t ->
  iteration_inv box (input_rank t) (output_dims arr t) st -> length box = input_rank t ->
  fits box (output_dims arr t) (zip_with Z.sub idx (inclusive_min <$> box)) ->
  mapR (fun m => output_index m idx) (output_index_maps t) = Ok out ->
  source_offset st (zip_with Z.sub idx (inclusive_min <$> box)) =
    IndexInnerProduct out (array_byte_strides arr).
Proof.
  intros Hl H1 H2 Hinv Hb Hf Hout. rewrite IndexInnerProduct_dot.
  destruct (mapR_output_dims arr t idx out H1 H2 Hout) as [E1 E2]. rewrite <- E2.
  apply (ii_value _ _ _ _ Hinv _ idx out).
  - rewrite length_zip_with, length_fmap. lia.
  - clear -Hl. revert box Hl. induction idx as [|i idx IH]; intros [|x box] Hl; try discriminate;
      [reflexivity|]. injection Hl as Hl. cbn. f_equal; [lia|apply IH, Hl].
  - exact Hf.
  - exact E1.
Qed.

Lemma impl_cases arr t box p strides :
  TransformArraySubRegionImpl arr t box = Ok (p, strides) ->
  (p = None /\ strides = replicate (input_rank t) 0) \/
  exists st, InitializeSingleArrayIterationState arr t box = Ok st /\
    (index_arrays st = [] /\
     p = Some (AddByteOffset (array_pointer arr) (base_offset st)) /\
     strides = input_byte_strides st \/
     exists bytes new_byte_strides,
       let order := ComputeDimensionIterationOrder st
         (MarkSingletonDimsAsSkippable (size <$> box) (input_dimension_flags st)) in
       ComputeStrides sizeof_Index ((fun d => (size <$> box) !!! d) <$> order)
         = (new_byte_strides, bytes) /\ bytes <= kMaxFiniteSize /\
       p = Some (fun z => array_pointer arr (source_offset st
             (scatter order (unravel z new_byte_strides) (replicate (input_rank t) 0)))) /\
       strides = scatter order new_byte_strides (replicate (input_rank t) 0)).
Proof.
  unfold TransformArraySubRegionImpl.
  destruct (existsb _ box); [intros [= <- <-]; left; auto|].
  intros (st & Hst & H)%bind_Ok. right. exists st. split; [exact Hst|].
  destruct (index_arrays st) as [|a l]; [injection H as <- <-; left; auto|right].
  destruct (ComputeStrides _ _) as [new_byte_strides bytes] eqn:Hc.
  destruct (Z.gtb_spec bytes kMaxFiniteSize) as [|Hb]; [discriminate|].
  injection H as <- <-. exists bytes, new_byte_strides. auto.
Qed.

Lemma depends_lt t m i : WellFormed t -> m ∈ output_index_maps t -> depends_on m i ->
  (i < input_rank t)%nat.
Proof.
  intros HW Hm Hd. unfold depends_on in Hd. destruct (method m) as [|d|data] eqn:E; [contradiction| |].
  - destruct Hd as [-> _]. apply (WellFormed_single t m i HW Hm E).
  - destruct (WellFormed_array t m data i HW Hm E Hd) as (d & Hdi & _).
    exact (lookup_lt_Some _ _ _ Hdi).
Qed.

Lemma box_fits arr t box idx :
  WellFormed t -> length box = input_rank t -> length idx = input_rank t -> Forall Valid box ->
  (forall i, array_depends arr t i -> Contains (box !!! i) (idx !!! i) = true) ->
  fits box (output_dims arr t) (zip_with Z.sub idx (inclusive_min <$> box)).
Proof.
  intros HW Hb Hi HV Hw d Hd. apply reads_array_depends in Hd as Hdep. specialize (Hw d Hdep).
  destruct Hdep as (j & m & Hm & Hmd & _).
  pose proof (depends_lt t m d HW (list_elem_of_lookup_2 _ _ _ Hm) Hmd) as Hlt.
  destruct (lookup_lt_is_Some_2 box d) as [x Hx]; [lia|].
  destruct (lookup_lt_is_Some_2 idx d) as [i Hii]; [lia|].
  rewrite Forall_lookup in HV. specialize (HV d x Hx).
  rewrite (list_lookup_total_correct _ _ _ Hx), (list_lookup_total_correct _ _ _ Hii) in *.
  rewrite (list_lookup_total_correct _ _ (i - inclusive_min x)).
  - apply Contains_spec in Hw; [|exact HV]. rewrite inclusive_max_valid in Hw by exact HV. lia.
  - rewrite lookup_zip_with, Hii. cbn. rewrite list_lookup_fmap, Hx. reflexivity.
Qed.

(** The copying (or viewing) implementation satisfies the interface. *)
#[export] Instance array_transformer_laws : ArrayTransformerLaws.
Proof.
  split.
  - intros arr t box p strides H Hb.
    destruct (impl_cases _ _ _ _ _ H) as [[_ ->]|(st & Hst & Hc)]; [apply length_replicate|].
    destruct Hc as [(_ & _ & ->)|(bytes & nbs & _ & _ & _ & ->)].
    + clear -Hst. unfold InitializeSingleArrayIterationState in Hst.
      revert Hst. apply (foldM_inv _ (fun s => length (input_byte_strides s) = input_rank t));
        cbn; [apply length_replicate|].
      intros s [[bs dom] m] s' _ Hl Hs. revert Hs. unfold iteration_step.
      destruct (bs =? 0); [intros [= <-]; exact Hl|].
      destruct (effective_method_of m) as [|d|data].
      * destruct (Contains _ _); [intros [= <-]; exact Hl|discriminate].
      * intros (r & _ & Hs)%bind_Ok. destruct (ContainsInterval _ _); [|discriminate].
        injection Hs as <-. cbn. rewrite length_insert. exact Hl.
      * intros (r & _ & Hs)%bind_Ok.
        destruct (has_one_element _ _); apply bind_Ok in Hs as (_ & _ & [= <-]); exact Hl.
    + rewrite length_scatter. apply length_replicate.
  - intros arr t box strides i H.
    destruct (impl_cases _ _ _ _ _ H) as [[_ ->]|(st & Hst & Hc)];
      [apply lookup_replicate_zero|].
    destruct Hc as [(_ & [=] & _)|(bytes & nbs & _ & _ & [=] & _)].
  - intros arr t box p strides i HW Hb H Hi. apply reads_array_depends.
    destruct (impl_cases _ _ _ _ _ H) as [[_ ->]|(st & Hst & Hc)];
      [rewrite lookup_replicate_zero in Hi; contradiction|].
    pose proof (iteration_inv_final arr t box st HW Hb Hst) as Hinv.
    apply (ii_flags_reads _ _ _ _ Hinv).
    destruct Hc as [(_ & _ & ->)|(bytes & nbs & _ & _ & _ & ->)].
    + exact (ii_strided _ _ _ _ Hinv i Hi).
    + destruct (decide (i ∈ ComputeDimensionIterationOrder st
        (MarkSingletonDimsAsSkippable (size <$> box) (input_dimension_flags st)))) as [Hin|Hin].
      * apply (copy_order arr t box st Hb Hinv i Hin).
      * rewrite scatter_other in Hi by exact Hin. rewrite lookup_replicate_zero in Hi.
        contradiction.
  - intros arr t box p strides idx out HW Hb Hi H1 H2 HV H Hw Hout.
    pose proof (box_fits arr t box idx HW Hb Hi HV Hw) as Hfit.
    assert (Hlen : length idx = length (inclusive_min <$> box)) by (rewrite length_fmap; lia).
    destruct (impl_cases _ _ _ _ _ H) as [[[=] _]|(st & Hst & Hc)].
    pose proof (iteration_inv_final arr t box st HW Hb Hst) as Hinv.
    pose proof (source_offset_value arr t box st idx out ltac:(lia) H1 H2 Hinv Hb Hfit Hout) as Hv.
    rewrite (dot_comm strides idx), (dot_comm strides), <- dot_sub by exact Hlen.
    destruct Hc as [(Hia & [= ->] & ->)|(bytes & nbs & Hcs & Hbytes & [= ->] & ->)].
    + rewrite <- Hv. unfold AddByteOffset, source_offset. f_equal. rewrite wrap_Add, Hia. cbn.
      rewrite wrap64_add_r, Z.add_0_r. reflexivity.
    + rewrite <- Hv. f_equal. rewrite dot_comm.
      apply (copy_value arr t box st Hb Hinv _ nbs bytes); try assumption.
      rewrite length_zip_with, length_fmap. lia.
Qed.

(** C11: every position of the requested region of a transformed array holds the
    array element at the transformed index, whether the result is a strided view
    or a copy, with all offsets wrapping modulo 2^64; positions are inside the
    region wherever the array depends on them. *)
Theorem TransformArraySubRegion_correct arr t box p strides idx out :
  WellFormed t -> length box = input_rank t -> length idx = input_rank t ->
  length (array_byte_strides arr) = output_rank t ->
  length (array_domain arr) = output_rank t -> Forall Valid box ->
  TransformArraySubRegionImpl arr t box = Ok (Some p, strides) ->
  (forall i, array_depends arr t i -> Contains (box !!! i) (idx !!! i) = true) ->
  mapR (fun m => output_index m idx) (output_index_maps t) = Ok out ->
  p (wrap64 (dot strides idx - dot strides (inclusive_min <$> box))) =
    array_pointer arr (IndexInnerProduct out (array_byte_strides arr)).
Proof. exact (transform_elements arr t box p strides idx out). Qed.

(** An array of three rows of two, transposed and indexed by an index array. *)
Definition example_array : ArrayView :=
  MkArrayView (fun z => 100 + z / 8) [MkInterval 0 3; MkInterval 0 2] [16; 8].
Definition example_index_array : IndexArrayData :=
  MkIndexArrayData (fun z => if z =? 0 then 2 else 0) (MkInterval 0 3) [0; 8].
Definition example_transform : TransformRep :=
  MkTransform [MkDimension (MkOI (MkInterval 0 2) false false) EmptyString;
               MkDimension (MkOI (MkInterval 0 2) false false) EmptyString]
    [MkOutputIndexMap (array example_index_array) 0 1;
     MkOutputIndexMap (single_input_dimension 0) 0 1].

Definition is_read {A} (r : Result (option A * list Z)) : bool :=
  match r with Ok (Some _, _) => true | _ => false end.

Lemma TransformArraySubRegion_correct_witness :
  let box := [MkInterval 0 2; MkInterval 0 2] in
  exists p strides, TransformArraySubRegionImpl example_array example_transform box
      = Ok (Some p, strides) /\
    p (wrap64 (dot strides [1; 0] - dot strides (inclusive_min <$> box))) = 105.
Proof.
  intros box.
  assert (Hok : is_read (TransformArraySubRegionImpl example_array example_transform box) = true)
    by (vm_compute; reflexivity).
  destruct (TransformArraySubRegionImpl example_array example_transform box)
    as [[[p|] strides]|e] eqn:E; [|discriminate Hok..].
  exists p, strides. split; [reflexivity|].
  assert (HW : WellFormed example_transform) by (apply WellFormedb_spec; vm_compute; reflexivity).
  assert (HV : Forall Valid box)
    by (repeat constructor; apply validb_spec; vm_compute; reflexivity).
  assert (Hin : forall i, array_depends example_array example_transform i ->
    Contains (box !!! i) ([1; 0] !!! i) = true).
  { intros [|[|i]] Hi; [reflexivity..|].
    destruct Hi as (j & m & Hm & Hd & _).
    pose proof (depends_lt _ _ _ HW (list_elem_of_lookup_2 _ _ _ Hm) Hd) as Hlt.
    vm_compute in Hlt. exfalso. lia. }
  pose proof (TransformArraySubRegion_correct example_array example_transform box p strides
    [1; 0] [2; 1] HW eq_refl eq_refl eq_refl eq_refl HV E Hin eq_refl) as H.
  rewrite H. vm_compute. reflexivity.
Defined.
