(* ===== verification/ComposeTransforms.v ===== *)
(** Composition of index transforms:
    [index_space/internal/compose_transforms.cc]. *)

From stdpp Require Import strings.
From S2P Require Import Prelude Int64 IndexInterval Transform PropagateBounds TransformArray.

(** * Definitions *)

(** The layout is given by its shape and its byte strides. *)
Fixpoint IsSingletonIndexArrayMap (shape byte_strides : list Z) : bool :=
  match shape, byte_strides with
  | n :: shape, s :: byte_strides =>
      if s =? 0 then IsSingletonIndexArrayMap shape byte_strides
      else if negb (n =? 1) then false
      else IsSingletonIndexArrayMap shape byte_strides
  | _, _ => true
  end.

Section Compose.
Context {AT : ArrayTransformer}.

(** The data that one iteration over the dimensions of "c" reads. *)
Record ComposeContext := MkComposeContext {
  b_to_c_dims : list IndexDomainDimension;
  a_to_b : TransformRep;
  a_to_c_domain : list IndexInterval;
  a_to_c_domain_is_explicitly_empty : bool
}.

(** The single_input_dimension -> array case, with the offset and stride already
    computed. *)
Definition compose_single_array (ctx : ComposeContext) (b_dim : nat)
  (a_to_b_map : OutputIndexMap) (data : IndexArrayData) (new_offset new_stride : Z)
  : Result OutputIndexMap :=
  if a_to_c_domain_is_explicitly_empty ctx then Ok constant_zero
  else
    propagated_bounds ←
      GetAffineTransformDomain
        (effective_interval (optionally_implicit_domain (b_to_c_dims ctx !!! b_dim)))
        (offset a_to_b_map) (stride a_to_b_map);
    let index_range' := Intersect (index_range data) propagated_bounds in
    if IsSingletonIndexArrayMap (size <$> a_to_c_domain ctx) (byte_strides data) then
      let index :=
        element_pointer data
          (IndexInnerProduct (inclusive_min <$> input_domain (a_to_b ctx)) (byte_strides data)) in
      '(o, s) ← ReplaceZeroRankIndexArrayIndexMap index index_range' new_offset new_stride;
      Ok (MkOutputIndexMap constant o s)
    else
      Ok (MkOutputIndexMap
            (array (MkIndexArrayData (element_pointer data) index_range' (byte_strides data)))
            new_offset new_stride).

Definition compose_single (ctx : ComposeContext) (b_dim : nat) (b_to_c_map : OutputIndexMap)
  : Result OutputIndexMap :=
  let a_to_b_map := output_index_maps (a_to_b ctx) !!! b_dim in
  let '(overflow1, new_offset) := MulOverflow (offset a_to_b_map) (stride b_to_c_map) in
  let '(overflow2, new_offset) := AddOverflow (offset b_to_c_map) new_offset in
  if overflow1 || overflow2 then Err kInvalidArgument
  else
    match effective_method_of a_to_b_map with
    | constant => Ok (MkOutputIndexMap constant new_offset 0)
    | _ =>
        let '(overflow3, new_stride) := MulOverflow (stride a_to_b_map) (stride b_to_c_map) in
        if overflow3 then Err kInvalidArgument
        else
          match effective_method_of a_to_b_map with
          | array data => compose_single_array ctx b_dim a_to_b_map data new_offset new_stride
          | m => Ok (MkOutputIndexMap m new_offset new_stride)
          end
    end.

(** [*pointer] at a byte offset. *)
Definition dereference (p : option (Z -> Z)) (z : Z) : Result Z :=
  match p with Some p => Ok (p z) | None => Err NullDereference end.

(** The memory behind a pointer that is not dereferenced yet; a null pointer only
    reaches this with all strides zero, where [dereference] came first. *)
Definition pointer_function (p : option (Z -> Z)) : Z -> Z :=
  match p with Some p => p | None => fun _ => 0 end.

(** The array -> * case. *)
Definition compose_array (ctx : ComposeContext) (b_to_c_map : OutputIndexMap)
  (data : IndexArrayData) : Result OutputIndexMap :=
  if a_to_c_domain_is_explicitly_empty ctx then Ok constant_zero
  else
    '(origin_pointer, strides) ←
      TransformArraySubRegion (shared_array_view data (domain <$> b_to_c_dims ctx))
        (a_to_b ctx) (a_to_c_domain ctx);
    if IsSingletonIndexArrayMap (size <$> a_to_c_domain ctx) strides then
      index ← dereference origin_pointer 0;
      '(o, s) ← ReplaceZeroRankIndexArrayIndexMap index
        (index_range data) (offset b_to_c_map) (stride b_to_c_map);
      Ok (MkOutputIndexMap constant o s)
    else
      Ok (MkOutputIndexMap
            (array (MkIndexArrayData
               (AddByteOffset (pointer_function origin_pointer)
                  (- IndexInnerProduct strides (inclusive_min <$> a_to_c_domain ctx))%i64)
               (index_range data) strides))
            (offset b_to_c_map) (stride b_to_c_map)).

(** One iteration over the dimensions of "c". *)
Definition compose_map (ctx : ComposeContext) (b_to_c_map : OutputIndexMap)
  : Result OutputIndexMap :=
  match effective_method_of b_to_c_map with
  | constant => Ok (MkOutputIndexMap constant (offset b_to_c_map) 0)
  | single_input_dimension b_dim => compose_single ctx b_dim b_to_c_map
  | array data => compose_array ctx b_to_c_map data
  end.

Definition ComposeTransformsImpl (b_to_c a_to_b : TransformRep) (domain_only : bool)
  : Result TransformRep :=
  bounds ← PropagateBounds (transform_bounds b_to_c) (Some a_to_b);
  let dims := zip_with set_bounds (input_dimensions a_to_b) bounds in
  if domain_only then Ok (MkTransform dims [])
  else
    let ctx := MkComposeContext (input_dimensions b_to_c) a_to_b (domain <$> dims)
                 (IsDomainExplicitlyEmpty (MkTransform dims [])) in
    maps ← mapR (compose_map ctx) (output_index_maps b_to_c);
    Ok (MkTransform dims maps).

Definition ComposeTransforms (b_to_c a_to_b : TransformRep) (domain_only : bool)
  : Result TransformRep :=
  if Nat.eqb (output_rank a_to_b) (input_rank b_to_c)
  then ComposeTransformsImpl b_to_c a_to_b domain_only
  else Err kInvalidArgument.

End Compose.

Lemma effective_method_wf t m :
  WellFormed t -> m ∈ output_index_maps t -> effective_method_of m = method m.
Proof.
  intros HW Hm. destruct (WellFormed_map t m HW Hm) as [Hc _].
  revert Hc. unfold check_map, effective_method_of.
  destruct (method m), (Z.eqb_spec (stride m) 0); intros Hc; try reflexivity;
    rewrite ?andb_false_r in Hc; discriminate.
Qed.

Lemma IsSingleton_spec shape strides :
  length shape = length strides -> IsSingletonIndexArrayMap shape strides = true ->
  forall i, strides !!! i <> 0 -> shape !!! i = 1.
Proof.
  revert strides; induction shape as [|n shape IH]; intros [|s strides] Hl H i Hi;
    try discriminate; [destruct i; contradiction|].
  injection Hl as Hl. cbn in H. destruct (Z.eqb_spec s 0) as [->|Hs].
  - destruct i as [|i]; [contradiction|]. exact (IH strides Hl H i Hi).
  - destruct (Z.eqb_spec n 1) as [->|]; [|discriminate]. cbn in H.
    destruct i as [|i]; [reflexivity|]. exact (IH strides Hl H i Hi).
Qed.

(** * Correctness of the composition *)

Section ComposeCorrect.
Context {AT : ArrayTransformer} {laws : ArrayTransformerLaws}.
Variables (b_to_c ab : TransformRep) (bounds : list OptionallyImplicitIndexInterval)
  (idx out : list Z).
Hypothesis HWb : WellFormed b_to_c.
Hypothesis HWa : WellFormed ab.
Hypothesis Hrank : output_rank ab = input_rank b_to_c.
Hypothesis Hgood : Forall good_bounds (transform_bounds b_to_c).
Hypothesis Hprop : PropagateBounds (transform_bounds b_to_c) (Some ab) = Ok bounds.
Hypothesis Hlen : length idx = input_rank ab.
Hypothesis Hidx : TransformIndices ab idx = Ok out.
Hypothesis Hfin : evaluates_finite ab idx.
Hypothesis Hout : in_domain (input_dimensions b_to_c) out.

Let dims := zip_with set_bounds (input_dimensions ab) bounds.
Let ctx := MkComposeContext (input_dimensions b_to_c) ab (domain <$> dims)
             (IsDomainExplicitlyEmpty (MkTransform dims [])).

Lemma compose_a_in : in_domain (input_dimensions ab) idx.
Proof. apply (TransformIndices_Ok ab idx out); [apply WellFormed_valid_dims, HWa|exact Hlen|exact Hidx]. Qed.

Lemma compose_outputs :
  Forall2 (fun m o => output_index m idx = Ok o) (output_index_maps ab) out.
Proof. apply (TransformIndices_Ok ab idx out); [apply WellFormed_valid_dims, HWa|exact Hlen|exact Hidx]. Qed.

(** Each output is the exact affine value of its base index. *)
Lemma compose_out_exact j m o :
  output_index_maps ab !! j = Some m -> out !! j = Some o ->
  exists v, base_output_index m idx = Ok v /\ o = offset m + stride m * v /\
    IsFiniteIndex (offset m + stride m * v) = true.
Proof.
  intros Hm Ho. pose proof (Forall2_lookup_lr _ _ _ _ _ _ compose_outputs Hm Ho) as He.
  cbv beta in He. apply output_index_Ok in He as (v & Hv & ->). exists v.
  unfold evaluates_finite in Hfin. rewrite Forall_lookup in Hfin.
  pose proof (Hfin j m Hm v Hv) as Hf. split; [exact Hv|].
  split; [apply affine_exact, finite_in_i64, Hf|exact Hf].
Qed.

Lemma bounds_of_dims (d : list IndexDomainDimension) i dim :
  d !! i = Some dim -> (optionally_implicit_domain <$> d) !! i =
    Some (optionally_implicit_domain dim).
Proof. intros H. rewrite list_lookup_fmap, H. reflexivity. Qed.

Lemma compose_out_admitted j o :
  out !! j = Some o ->
  exists e, transform_bounds b_to_c !! j = Some e /\ admits e o /\ IsFiniteIndex o = true.
Proof.
  intros Ho. destruct (Forall2_lookup_r _ _ _ _ _ Hout Ho) as (d & Hd & Hf & Ha).
  exists (optionally_implicit_domain d). split; [apply bounds_of_dims, Hd|auto].
Qed.

Lemma in_bounds_fmap (d : list IndexDomainDimension) v :
  in_bounds (optionally_implicit_domain <$> d) v <->
  Forall2 (fun dim i => admits (optionally_implicit_domain dim) i) d v.
Proof. apply Forall2_fmap_l. Qed.

Lemma in_domain_bounds (d : list IndexDomainDimension) v :
  in_domain d v -> in_bounds (optionally_implicit_domain <$> d) v.
Proof.
  intros H. apply in_bounds_fmap. eapply Forall2_impl; [exact H|]. intros ? ? [_ Ha]. exact Ha.
Qed.

Lemma compose_rank : length (transform_bounds b_to_c) = output_rank ab.
Proof. rewrite transform_bounds_length. congruence. Qed.

Lemma compose_in_bounds : in_bounds bounds idx.
Proof.
  apply (PropagateBounds_sound ab (transform_bounds b_to_c) bounds idx HWa compose_rank Hgood Hprop).
  - apply in_domain_bounds, compose_a_in.
  - intros j m bj o Hm Hbj Ho.
    destruct (Forall2_lookup_l _ _ _ _ _ compose_outputs Hm) as (o' & Ho' & _).
    destruct (compose_out_exact j m o' Hm Ho') as (v & Hv & Eo & _).
    destruct (compose_out_admitted j o' Ho') as (e & He & Ha & _).
    rewrite He in Hbj. injection Hbj as <-. replace o with o'; [exact Ha|].
    unfold affine_output in Ho. unfold base_output_index in Hv.
    destruct (method m); [| |discriminate]; injection Ho as <-; injection Hv as <-; lia.
Qed.

Lemma compose_bounds_length : length bounds = input_rank ab.
Proof. apply (PropagateBounds_valid ab _ bounds HWa compose_rank Hgood Hprop). Qed.

Lemma compose_dims_bounds : optionally_implicit_domain <$> dims = bounds.
Proof.
  unfold dims. apply list_eq. intros i. rewrite list_lookup_fmap, lookup_zip_with.
  destruct (input_dimensions ab !! i) as [d|] eqn:Hd; cbn.
  - destruct (bounds !! i); reflexivity.
  - symmetry. apply lookup_ge_None. apply lookup_ge_None in Hd.
    pose proof compose_bounds_length. clear Hlen. unfold input_rank in *. lia.
Qed.

Lemma compose_valid_dims : valid_dims dims.
Proof.
  pose proof (proj2 (PropagateBounds_valid ab _ bounds HWa compose_rank Hgood Hprop)) as HV.
  rewrite <- compose_dims_bounds in HV. rewrite Forall_fmap in HV. exact HV.
Qed.

Lemma compose_in_domain : in_domain dims idx.
Proof.
  pose proof compose_in_bounds as Hb. rewrite <- compose_dims_bounds in Hb.
  apply in_bounds_fmap in Hb. pose proof compose_a_in as Ha.
  apply Forall2_same_length_lookup. split; [eapply Forall2_length, Hb|].
  intros i d v Hd Hv. split; [|exact (Forall2_lookup_lr _ _ _ _ _ _ Hb Hd Hv)].
  destruct (Forall2_lookup_r _ _ _ _ _ Ha Hv) as (d' & _ & Hf & _). exact Hf.
Qed.

Lemma compose_not_empty : a_to_c_domain_is_explicitly_empty ctx = false.
Proof.
  cbn. apply not_true_is_false. intros He.
  destruct (explicitly_empty_dim (MkTransform dims []) compose_valid_dims He)
    as (k & e & Hk & _ & _ & Hno).
  unfold transform_bounds in Hk. cbn [input_dimensions] in Hk.
  rewrite compose_dims_bounds in Hk.
  destruct (Forall2_lookup_l _ _ _ _ _ compose_in_bounds Hk) as (v & _ & Hv). exact (Hno v Hv).
Qed.

Lemma compose_domain_lookup i r :
  bounds !! i = Some r -> (domain <$> dims) !! i = Some (interval r).
Proof.
  rewrite <- compose_dims_bounds, !list_lookup_fmap.
  destruct (dims !! i); [|discriminate]. cbn. intros [= <-]. reflexivity.
Qed.

(** In an explicit dimension of the composition the index is inside the region. *)
Lemma compose_explicit_within i r :
  bounds !! i = Some r -> implicit_lower r = false -> implicit_upper r = false ->
  within ((domain <$> dims) !!! i) (idx !!! i).
Proof.
  intros Hr E1 E2. destruct (Forall2_lookup_l _ _ _ _ _ compose_in_bounds Hr) as (v & Hv & [H1 H2]).
  rewrite (list_lookup_total_correct _ _ _ (compose_domain_lookup i r Hr)),
    (list_lookup_total_correct _ _ _ Hv).
  split; [destruct H1|destruct H2]; congruence || assumption.
Qed.

(** An explicit dimension of "a -> b" keeps its bounds. *)
Lemma compose_explicit i e :
  transform_bounds ab !! i = Some e -> implicit_lower e = false -> implicit_upper e = false ->
  bounds !! i = Some e.
Proof.
  intros He E1 E2. destruct (PropagateBounds_dims ab _ bounds HWa compose_rank Hgood Hprop)
    as (_ & Hd & _). cbv zeta in Hd. destruct (Hd i e He) as (r & Hr & Hres).
  rewrite Hr, (dr_explicit _ _ _ _ _ Hres E1 E2). reflexivity.
Qed.

(** The dimensions of an index array of "a -> b". *)
Lemma compose_array_dim m data i :
  m ∈ output_index_maps ab -> method m = array data -> byte_strides data !!! i <> 0 ->
  within ((domain <$> dims) !!! i) (idx !!! i) /\
  (domain <$> dims) !!! i = input_domain ab !!! i.
Proof.
  intros Hm Hd Hi. destruct (WellFormed_array ab m data i HWa Hm Hd Hi) as (d & Hdi & E1 & E2 & _).
  assert (He : bounds !! i = Some (optionally_implicit_domain d)).
  { apply compose_explicit; [apply bounds_of_dims, Hdi|exact E1|exact E2]. }
  split; [exact (compose_explicit_within i _ He E1 E2)|].
  rewrite (list_lookup_total_correct _ _ _ (compose_domain_lookup i _ He)).
  unfold input_domain. rewrite (list_lookup_total_correct _ _ (domain d)); [reflexivity|].
  rewrite list_lookup_fmap, Hdi. reflexivity.
Qed.

(** The dimensions that an index array of "b -> c" depends on through "a -> b". *)
Lemma compose_depends_within m data i :
  m ∈ output_index_maps b_to_c -> method m = array data ->
  array_depends (shared_array_view data (domain <$> input_dimensions b_to_c)) ab i ->
  within ((domain <$> dims) !!! i) (idx !!! i).
Proof.
  intros Hm Hd (j & ma & Hj & Hdep & Hs). cbn in Hs.
  destruct (WellFormed_array b_to_c m data j HWb Hm Hd Hs) as (d & Hdj & E1 & E2 & _).
  pose proof (list_elem_of_lookup_2 _ _ _ Hj) as Hma.
  unfold depends_on in Hdep. destruct (method ma) as [|i'|data'] eqn:Hma'; [contradiction| |].
  - destruct Hdep as [-> Hnz].
    destruct (WellFormed_single ab ma i HWa Hma Hma') as [Hi _].
    destruct (lookup_lt_is_Some_2 bounds i) as [r Hr]; [rewrite compose_bounds_length; exact Hi|].
    destruct (PropagateBounds_lookup ab _ bounds i r HWa compose_rank Hgood Hprop Hr)
      as (e & He & Hres).
    destruct (dr_constrained _ _ _ _ _ Hres (ma, optionally_implicit_domain d)) as [F1 F2].
    + apply elem_of_zip_lookup with j; [exact Hj|apply bounds_of_dims, Hdj].
    + split; assumption.
    + exact E1.
    + exact E2.
    + exact (compose_explicit_within i r Hr F1 F2).
  - apply (compose_array_dim ma data' i Hma Hma' Hdep).
Qed.

Lemma compose_domain_valid : Forall Valid (domain <$> dims).
Proof. apply Forall_fmap. exact compose_valid_dims. Qed.

(** Every input index is finite. *)
Lemma compose_depends_Contains m data :
  m ∈ output_index_maps b_to_c -> method m = array data ->
  forall i, array_depends (shared_array_view data (domain <$> input_dimensions b_to_c)) ab i ->
  Contains ((domain <$> dims) !!! i) (idx !!! i) = true.
Proof.
  intros Hm Hd i Hi. pose proof (compose_depends_within m data i Hm Hd Hi) as Hw.
  destruct Hi as (j & ma & Hj & Hma & _).
  pose proof (depends_lt ab ma i HWa (list_elem_of_lookup_2 _ _ _ Hj) Hma) as Hlt.
  destruct (lookup_lt_is_Some_2 idx i) as [v Hv]; [lia|].
  destruct (Forall2_lookup_r _ _ _ _ _ compose_in_domain Hv) as (d & Hdd & Hf & _).
  pose proof compose_valid_dims as HV. unfold valid_dims in HV. rewrite Forall_lookup in HV.
  rewrite (lookup_total_fmap domain _ _ _ Hdd) in *.
  rewrite (list_lookup_total_correct _ _ _ Hv) in *.
  apply Contains_within; [exact (HV i d Hdd)|auto].
Qed.

Lemma compose_domain_length : length (domain <$> dims) = input_rank ab.
Proof.
  rewrite length_fmap. unfold dims. rewrite length_zip_with, compose_bounds_length.
  apply Nat.min_id.
Qed.

(** Under a singleton layout the index agrees with the origin where it matters. *)
Lemma compose_singleton_dot strides :
  length strides = input_rank ab ->
  IsSingletonIndexArrayMap (size <$> (domain <$> dims)) strides = true ->
  (forall i, strides !!! i <> 0 -> within ((domain <$> dims) !!! i) (idx !!! i)) ->
  dot idx strides = dot (inclusive_min <$> (domain <$> dims)) strides.
Proof.
  intros Hl Hs Hw. pose proof compose_domain_length as Hdl. apply dot_agree.
  { rewrite length_fmap. congruence. }
  intros i Hi.
  assert (H1 : (size <$> (domain <$> dims)) !!! i = 1).
  { apply (IsSingleton_spec _ strides); [rewrite length_fmap; congruence|exact Hs|exact Hi]. }
  pose proof (lookup_total_nonzero _ _ Hi) as Hlt.
  destruct (lookup_lt_is_Some_2 (domain <$> dims) i) as [x Hx]; [congruence|].
  specialize (Hw i Hi). rewrite (list_lookup_total_correct _ _ _ Hx) in Hw.
  rewrite (lookup_total_fmap size _ _ _ Hx) in H1.
  rewrite (lookup_total_fmap inclusive_min _ _ _ Hx).
  apply within_singleton; [|exact H1|exact Hw].
  pose proof compose_domain_valid as HV. rewrite Forall_lookup in HV. exact (HV i x Hx).
Qed.

(** The index array of "a -> b" under its restricted range. *)
Lemma compose_single_array_value b_dim ma data o no ns m' :
  output_index_maps ab !! b_dim = Some ma -> method ma = array data ->
  out !! b_dim = Some o ->
  compose_single_array ctx b_dim ma data no ns = Ok m' ->
  exists v, base_output_index ma idx = Ok v /\ exact_index m' idx = Ok (no + ns * v).
Proof.
  intros Hma Hd Ho Hm'. pose proof (list_elem_of_lookup_2 _ _ _ Hma) as Hin.
  destruct (compose_out_exact b_dim ma o Hma Ho) as (v & Hv & Eo & Hvf). exists v.
  split; [exact Hv|]. destruct (base_array_Ok _ _ _ _ Hd Hv) as [Ev Hr].
  destruct (WellFormed_map ab ma HWa Hin) as [_ (Hoi & Hsi & Ht)]. rewrite Hd in Ht.
  destruct Ht as [Hl HVr].
  destruct (compose_out_admitted b_dim o Ho) as (e & He & Hae & _).
  assert (Ee : optionally_implicit_domain (input_dimensions b_to_c !!! b_dim) = e).
  { unfold transform_bounds in He. rewrite list_lookup_fmap in He.
    destruct (input_dimensions b_to_c !! b_dim) as [d|] eqn:Hdb; [|discriminate].
    rewrite (list_lookup_total_correct _ _ _ Hdb). injection He as <-. reflexivity. }
  assert (HVe : Valid (interval e)).
  { pose proof Hgood as Hg. rewrite Forall_lookup in Hg. apply (Hg _ _ He). }
  unfold compose_single_array in Hm'. rewrite compose_not_empty in Hm'.
  cbn [b_to_c_dims a_to_c_domain a_to_b ctx] in Hm'. rewrite Ee in Hm'.
  apply bind_Ok in Hm' as (prop & Hp & Hm').
  assert (HVee : Valid (effective_interval e)) by (apply effective_interval_bounds, HVe).
  assert (Hwe : within (effective_interval e) (offset ma + stride ma * v)).
  { rewrite <- Eo. apply admits_within; assumption. }
  assert (Hvfin : IsFiniteIndex v = true).
  { unfold Contains in Hr. bool_to_prop. apply IsFiniteIndex_spec.
    unfold Contains in *. i64_lia. }
  destruct (AffineDomain_spec _ _ _ _ HVee Hoi Hsi Hp) as [HVp Hwp].
  assert (HVprop : Valid prop).
  { destruct HVp as [|[Hemp _]]; [assumption|exfalso].
    revert Hwe Hemp. unfold within. bounds_of HVee lo hi. i64_lia. }
  assert (Hrange : Contains (Intersect (index_range data) prop) v = true).
  { rewrite Intersect_Contains by assumption. rewrite Hr.
    apply Contains_within; [exact HVprop|]. split; [exact Hvfin|]. apply Hwp; assumption. }
  destruct (IsSingletonIndexArrayMap _ _) eqn:Hs.
  - apply bind_Ok in Hm' as ([o' s'] & Hz & [= <-]).
    apply ReplaceZeroRank_Ok in Hz as (_ & -> & Hi & ->).
    rewrite exact_constant. f_equal.
    replace (element_pointer data _) with v in *.
    + lia.
    + rewrite Ev, !IndexInnerProduct_dot. do 2 f_equal.
      transitivity (dot (inclusive_min <$> (domain <$> dims)) (byte_strides data)).
      * apply compose_singleton_dot; [exact Hl|exact Hs|].
        intros i Hi'. apply (compose_array_dim ma data i Hin Hd Hi').
      * apply dot_agree.
        { rewrite !length_fmap. unfold dims, input_domain. rewrite length_zip_with, length_fmap,
            compose_bounds_length. unfold input_rank. lia. }
        intros i Hi'. destruct (compose_array_dim ma data i Hin Hd Hi') as [_ E].
        pose proof (lookup_total_nonzero _ _ Hi') as Hlt. rewrite Hl in Hlt.
        destruct (lookup_lt_is_Some_2 (domain <$> dims) i) as [x Hx];
          [rewrite compose_domain_length; exact Hlt|].
        destruct (lookup_lt_is_Some_2 (input_domain ab) i) as [y Hy];
          [unfold input_domain; rewrite length_fmap; exact Hlt|].
        rewrite (lookup_total_fmap inclusive_min _ _ _ Hx),
          (lookup_total_fmap inclusive_min _ _ _ Hy).
        rewrite (list_lookup_total_correct _ _ _ Hx), (list_lookup_total_correct _ _ _ Hy) in E.
        congruence.
  - injection Hm' as <-. apply (exact_index_base (MkOutputIndexMap _ no ns)).
    unfold base_output_index, CheckContains. cbn [method index_range element_pointer byte_strides].
    rewrite <- Ev, Hrange. reflexivity.
Qed.

Lemma compose_out_length : length out = output_rank ab.
Proof. symmetry. eapply Forall2_length, compose_outputs. Qed.

Lemma compose_single_value m b_dim m' :
  m ∈ output_index_maps b_to_c -> method m = single_input_dimension b_dim ->
  compose_single ctx b_dim m = Ok m' -> exact_index m' idx = exact_index m out.
Proof.
  intros Hm Hd Hm'. destruct (WellFormed_single b_to_c m b_dim HWb Hm Hd) as [Hlt _].
  destruct (lookup_lt_is_Some_2 (output_index_maps ab) b_dim) as [ma Hma];
    [unfold output_rank in Hrank; lia|].
  destruct (lookup_lt_is_Some_2 out b_dim) as [o Ho]; [rewrite compose_out_length; lia|].
  assert (Eout : exact_index m out = Ok (offset m + stride m * o)).
  { apply exact_index_base. unfold base_output_index. rewrite Hd.
    rewrite (list_lookup_total_correct _ _ _ Ho). reflexivity. }
  rewrite Eout. destruct (compose_out_exact b_dim ma o Hma Ho) as (v & Hv & -> & _).
  pose proof (list_elem_of_lookup_2 _ _ _ Hma) as Hain.
  unfold compose_single in Hm'. cbn [a_to_b ctx] in Hm'.
  rewrite (list_lookup_total_correct _ _ _ Hma) in Hm'.
  rewrite (effective_method_wf ab ma HWa Hain) in Hm'.
  destruct (MulOverflow (offset ma) (stride m)) as [[|] p] eqn:E1.
  { destruct (AddOverflow (offset m) p); discriminate. }
  apply MulOverflow_false in E1 as [-> _].
  destruct (AddOverflow (offset m) _) as [[|] q] eqn:E2; [discriminate|].
  apply AddOverflow_false in E2 as [-> Hq]. cbn [orb] in Hm'.
  destruct (method ma) as [|a_dim|data] eqn:Hmm.
  - injection Hm' as <-. rewrite exact_constant. f_equal.
    unfold base_output_index in Hv. rewrite Hmm in Hv. injection Hv as <-. lia.
  - destruct (MulOverflow (stride ma) (stride m)) as [[|] s] eqn:E3; [discriminate|].
    apply MulOverflow_false in E3 as [-> _]. injection Hm' as <-.
    rewrite (exact_index_base (MkOutputIndexMap _ _ _) idx v).
    + cbn [offset stride]. f_equal. lia.
    + unfold base_output_index in *. rewrite Hmm in Hv. exact Hv.
  - destruct (MulOverflow (stride ma) (stride m)) as [[|] s] eqn:E3; [discriminate|].
    apply MulOverflow_false in E3 as [-> _].
    destruct (compose_single_array_value b_dim ma data _ _ _ m' Hma Hmm Ho Hm') as (v' & Hv' & E).
    rewrite E. assert (v' = v) as -> by congruence. f_equal. lia.
Qed.

Lemma compose_array_value m data m' :
  m ∈ output_index_maps b_to_c -> method m = array data ->
  compose_array ctx m data = Ok m' -> exact_index m' idx = exact_index m out.
Proof.
  intros Hm Hd Hm'. destruct (WellFormed_map b_to_c m HWb Hm) as [_ (_ & _ & Ht)].
  rewrite Hd in Ht. destruct Ht as [Hl _].
  unfold compose_array in Hm'. rewrite compose_not_empty in Hm'.
  cbn [b_to_c_dims a_to_c_domain a_to_b ctx] in Hm'.
  apply bind_Ok in Hm' as ([p strides] & HT & Hm').
  pose proof (transform_strides_length _ _ _ _ _ HT compose_domain_length) as Hsl.
  set (arr := shared_array_view data (domain <$> input_dimensions b_to_c)) in *.
  assert (Hp : exists q, p = Some q).
  { destruct p as [q|]; [eauto|exfalso]. revert Hm'.
    assert (Hz : IsSingletonIndexArrayMap (size <$> (domain <$> dims)) strides = true).
    { pose proof (fun i => transform_null _ _ _ _ i HT) as Hz. clear -Hz.
      generalize (size <$> (domain <$> dims)) as shape. induction strides as [|s strides IH];
        intros [|n shape]; [reflexivity..|]. cbn.
      assert (Hs : s = 0) by exact (Hz 0%nat). rewrite Hs. cbn.
      apply IH. intros i. exact (Hz (S i)). }
    rewrite Hz. discriminate. }
  destruct Hp as [q ->].
  assert (Hdep : forall i, strides !!! i <> 0 ->
    within ((domain <$> dims) !!! i) (idx !!! i)).
  { intros i Hi. apply (compose_depends_within m data i Hm Hd).
    exact (transform_strides_depend _ _ _ _ _ _ HWa compose_domain_length HT Hi). }
  assert (Hout' : mapR (fun m => output_index m idx) (output_index_maps ab) = Ok out)
    by (apply mapR_Ok, compose_outputs).
  assert (Hal : length (array_byte_strides arr) = output_rank ab)
    by (cbn; congruence).
  assert (Had : length (array_domain arr) = output_rank ab)
    by (cbn; rewrite length_fmap; unfold input_rank in Hrank; congruence).
  pose proof (transform_elements _ _ _ _ _ idx out HWa compose_domain_length Hlen Hal Had
    compose_domain_valid HT (compose_depends_Contains m data Hm Hd) Hout') as Hel.
  cbn [arr shared_array_view array_pointer array_byte_strides] in Hel.
  destruct (IsSingletonIndexArrayMap _ strides) eqn:Hs.
  - apply bind_Ok in Hm' as (index & [= <-] & Hm').
    apply bind_Ok in Hm' as ([o' s'] & Hz & [= <-]).
    apply ReplaceZeroRank_Ok in Hz as (Hc & -> & Hi & ->).
    rewrite exact_constant.
    rewrite (dot_comm strides idx), (dot_comm strides) in Hel.
    rewrite (compose_singleton_dot strides Hsl Hs Hdep), Z.sub_diag in Hel.
    change (wrap64 0) with 0 in Hel. symmetry. rewrite (exact_index_base m out (q 0)).
    + f_equal. lia.
    + unfold base_output_index, CheckContains. rewrite Hd, <- Hel, Hc. reflexivity.
  - injection Hm' as <-. unfold exact_index, base_output_index.
    cbn [method stride offset element_pointer byte_strides index_range pointer_function].
    rewrite Hd. replace (AddByteOffset q _ _) with
      (element_pointer data (IndexInnerProduct out (byte_strides data))); [reflexivity|].
    rewrite <- Hel. unfold AddByteOffset. f_equal. rewrite wrap_Add.
    rewrite !IndexInnerProduct_dot, (dot_comm strides idx).
    rewrite wrap64_add_r, wrap64_add_l. replace (- wrap64 (dot strides (inclusive_min <$> (domain <$> dims))) + dot idx strides)
      with (dot idx strides + -1 * wrap64 (dot strides (inclusive_min <$> (domain <$> dims)))) by lia.
    rewrite <- wrap64_add_r, wrap64_mul_r, wrap64_add_r. reflexivity.
Qed.

Lemma compose_map_value m m' :
  m ∈ output_index_maps b_to_c -> compose_map ctx m = Ok m' ->
  exact_index m' idx = exact_index m out.
Proof.
  intros Hm Hm'. unfold compose_map in Hm'. rewrite (effective_method_wf b_to_c m HWb Hm) in Hm'.
  destruct (method m) as [|b_dim|data] eqn:Hd.
  - injection Hm' as <-. destruct (WellFormed_map b_to_c m HWb Hm) as [_ (Ho & _)].
    rewrite exact_constant. symmetry. rewrite (exact_index_base m out 0).
    + f_equal. lia.
    + unfold base_output_index. rewrite Hd. reflexivity.
  - exact (compose_single_value m b_dim m' Hm Hd Hm').
  - exact (compose_array_value m data m' Hm Hd Hm').
Qed.

Lemma compose_value maps :
  mapR (compose_map ctx) (output_index_maps b_to_c) = Ok maps ->
  TransformIndices (MkTransform dims maps) idx = TransformIndices b_to_c out.
Proof.
  intros Hmaps. apply mapR_Ok in Hmaps.
  rewrite (TransformIndices_in_domain (MkTransform dims maps))
    by (exact compose_valid_dims || exact compose_in_domain).
  rewrite (TransformIndices_in_domain b_to_c)
    by (exact (WellFormed_valid_dims _ HWb) || exact Hout).
  cbn [output_index_maps].
  assert (Heq : forall l l', Forall2 (fun m m' => compose_map ctx m = Ok m') l l' ->
    (forall m, m ∈ l -> m ∈ output_index_maps b_to_c) ->
    mapR (fun m => output_index m idx) l' = mapR (fun m => output_index m out) l).
  { intros l l' H. induction H as [|m m' l l' E _ IH]; intros Hsub; [reflexivity|]. cbn.
    rewrite !output_index_exact, (compose_map_value m m' (Hsub m (list_elem_of_here _ _)) E).
    rewrite <- output_index_exact. destruct (output_index m out); cbn; [|reflexivity].
    rewrite IH; [reflexivity|]. intros x Hx. apply Hsub, list_elem_of_further, Hx. }
  apply (Heq _ _ Hmaps). auto.
Qed.

(** The composition stays in the finite range where the outer transform does. *)
Lemma compose_finite maps :
  mapR (compose_map ctx) (output_index_maps b_to_c) = Ok maps -> evaluates_finite b_to_c out ->
  evaluates_finite (MkTransform dims maps) idx.
Proof.
  intros Hmaps. rewrite !evaluates_finite_exact. cbn [output_index_maps]. rewrite !Forall_forall.
  intros H m' Hm' z. apply mapR_Ok in Hmaps. apply list_elem_of_lookup in Hm' as [k Hk].
  destruct (Forall2_lookup_r _ _ _ _ _ Hmaps Hk) as (m & Hmk & E). apply list_elem_of_lookup_2 in Hmk.
  rewrite (compose_map_value m m' Hmk E). exact (H m Hmk z).
Qed.

End ComposeCorrect.

Lemma compose_evaluates {AT : ArrayTransformer} {laws : ArrayTransformerLaws} b_to_c a_to_b r idx out :
  WellFormed b_to_c -> WellFormed a_to_b ->
  Forall good_bounds (transform_bounds b_to_c) ->
  ComposeTransforms b_to_c a_to_b false = Ok r ->
  length idx = input_rank a_to_b ->
  TransformIndices a_to_b idx = Ok out -> evaluates_finite a_to_b idx ->
  in_domain (input_dimensions b_to_c) out ->
  TransformIndices r idx = TransformIndices b_to_c out /\
  (evaluates_finite b_to_c out -> evaluates_finite r idx).
Proof.
  intros HWb HWa Hgood H Hlen Hidx Hfin Hout. unfold ComposeTransforms in H.
  destruct (Nat.eqb_spec (output_rank a_to_b) (input_rank b_to_c)) as [Hrank|]; [|discriminate].
  apply bind_Ok in H as (bounds & Hb & (maps & Hm & [= <-])%bind_Ok). split.
  - exact (compose_value b_to_c a_to_b bounds idx out HWb HWa Hrank Hgood Hb Hlen Hidx Hfin Hout maps Hm).
  - exact (compose_finite b_to_c a_to_b bounds idx out HWb HWa Hrank Hgood Hb Hlen Hidx Hfin Hout maps Hm).
Qed.

(** An index that is in a domain without improper dimensions shows that no dimension is empty. *)
Lemma in_domain_good_bounds t idx :
  WellFormed t -> Forall proper (transform_bounds t) -> in_domain (input_dimensions t) idx ->
  Forall good_bounds (transform_bounds t).
Proof.
  intros HW Hp Hin. apply Forall_lookup. intros k b Hb.
  assert (Hpb : proper b) by exact (Forall_lookup_1 _ _ _ _ Hp Hb).
  unfold transform_bounds in Hb. rewrite list_lookup_fmap in Hb.
  destruct (input_dimensions t !! k) as [d|] eqn:Hd; [|discriminate]. injection Hb as <-.
  pose proof (Forall_lookup_1 _ _ _ _ (WellFormed_valid_dims t HW) Hd) as HV.
  destruct (Forall2_lookup_l _ _ _ _ _ Hin Hd) as (v & _ & _ & Hv).
  split; [exact HV|]. exact (proper_admits _ v HV Hpb Hv).
Qed.

(** C8: the composition of two transforms evaluates as their evaluation one after
    the other, errors included: at every index that the first transform accepts,
    evaluates without leaving the finite index range, and maps into the domain of
    the second.  No dimension of the second transform may be both empty and partly implicit:
    [compose_improper] shows that the composition can lose indices otherwise.  Array resampling is
    used through its interface only. *)
Theorem ComposeTransforms_correct {AT : ArrayTransformer} {laws : ArrayTransformerLaws}
    b_to_c a_to_b r idx out :
  WellFormed b_to_c -> WellFormed a_to_b ->
  Forall proper (transform_bounds b_to_c) ->
  ComposeTransforms b_to_c a_to_b false = Ok r ->
  length idx = input_rank a_to_b ->
  TransformIndices a_to_b idx = Ok out -> evaluates_finite a_to_b idx ->
  in_domain (input_dimensions b_to_c) out ->
  TransformIndices r idx = TransformIndices b_to_c out.
Proof.
  intros HWb HWa Hproper H Hlen Hidx Hfin Hout.
  pose proof (in_domain_good_bounds b_to_c out HWb Hproper Hout) as Hgood.
  exact (proj1 (compose_evaluates b_to_c a_to_b r idx out HWb HWa Hgood H Hlen Hidx Hfin Hout)).
Qed.

(** "b -> c" reads a table through dimension 0 of "b"; "a -> b" reverses it. *)
Definition example_b_to_c : TransformRep :=
  MkTransform [MkDimension (MkOI (MkInterval 0 3) false false) EmptyString]
    [MkOutputIndexMap
       (array (MkIndexArrayData (fun z => 10 * (z / 8)) (MkInterval 0 21) [8])) 5 2].
Definition example_a_to_b : TransformRep :=
  MkTransform [MkDimension (MkOI (MkInterval (-3) 5) true true) EmptyString]
    [MkOutputIndexMap (single_input_dimension 0) 1 (-1)].

Lemma ComposeTransforms_correct_witness :
  exists r, ComposeTransforms example_b_to_c example_a_to_b false = Ok r /\
    TransformIndices r [0] = Ok [25].
Proof.
  assert (Hok : is_ok (ComposeTransforms example_b_to_c example_a_to_b false) = true)
    by (vm_compute; reflexivity).
  destruct (ComposeTransforms example_b_to_c example_a_to_b false) as [r|e] eqn:E;
    [|discriminate Hok].
  exists r. split; [reflexivity|].
  assert (HWb : WellFormed example_b_to_c) by (apply WellFormedb_spec; vm_compute; reflexivity).
  assert (HWa : WellFormed example_a_to_b) by (apply WellFormedb_spec; vm_compute; reflexivity).
  assert (Hg : Forall proper (transform_bounds example_b_to_c)) by (repeat constructor).
  assert (Hi : TransformIndices example_a_to_b [0] = Ok [1]) by (vm_compute; reflexivity).
  assert (Hf : evaluates_finite example_a_to_b [0]).
  { constructor; [|constructor]. intros v Hv. injection Hv as <-. vm_compute. reflexivity. }
  assert (Ho : in_domain (input_dimensions example_b_to_c) [1]).
  { apply check_input_domain_Ok; [apply WellFormed_valid_dims, HWb|reflexivity
      |vm_compute; reflexivity]. }
  rewrite (ComposeTransforms_correct _ _ r [0] [1] HWb HWa Hg E eq_refl Hi Hf Ho).
  vm_compute. reflexivity.
Defined.

(** With outer and inner bounds that are empty, from 0, with an implicit upper bound, and a reversing inner
    transform, both transforms accept 0 one after the other but the composition does not. *)
Lemma compose_improper :
  let unbounded_above := MkDimension (MkOI (MkInterval 0 0) false true) EmptyString in
  let b_to_c := MkTransform [unbounded_above] [MkOutputIndexMap (single_input_dimension 0) 0 1] in
  let a_to_b := MkTransform [unbounded_above] [MkOutputIndexMap (single_input_dimension 0) 0 (-1)] in
  WellFormed b_to_c /\ WellFormed a_to_b /\ exists r, ComposeTransforms b_to_c a_to_b false = Ok r /\
    TransformIndices a_to_b [0] = Ok [0] /\ TransformIndices b_to_c [0] = Ok [0] /\
    TransformIndices r [0] = Err kOutOfRange.
Proof.
  split; [|split]; [apply WellFormedb_spec; vm_compute; reflexivity ..|].
  eexists. split; [vm_compute; reflexivity|]. split; [|split]; vm_compute; reflexivity.
Qed.

(** Composing an index array with a transform that has an empty implicit dimension
    the array does not depend on dereferences a null pointer: the region has no
    elements, the returned strides are all zero, and the layout is taken for a
    singleton. *)
Lemma compose_null_dereference :
  let b_to_c := MkTransform [MkDimension (MkOI (MkInterval 0 3) false false) EmptyString]
    [MkOutputIndexMap (array (MkIndexArrayData (fun z => z) (MkInterval 0 30) [8])) 0 1] in
  let a_to_b := MkTransform [MkDimension (MkOI (MkInterval 0 3) false false) EmptyString;
                             MkDimension (MkOI (MkInterval 0 0) false true) EmptyString]
    [MkOutputIndexMap (single_input_dimension 0) 0 1] in
  WellFormed b_to_c /\ WellFormed a_to_b /\
  ComposeTransforms b_to_c a_to_b false = Err NullDereference.
Proof.
  split; [|split]; [apply WellFormedb_spec; vm_compute; reflexivity ..|vm_compute; reflexivity].
Qed.
