(* ===== verification/ComposeInvariant.v ===== *)
(** Composition keeps the invariants of transforms ([DebugCheckInvariants] in
    [index_space/internal/transform_rep.cc]). *)

From stdpp Require Import strings.
From S2P Require Import Prelude Int64 IndexInterval Transform PropagateBounds TransformArray ComposeTransforms.

(** * Establishing the invariants *)

Lemma Valid_fields x : Valid x -> in_i64 (inclusive_min x) /\ in_i64 (size x).
Proof. unfold Valid. i64_lia. Qed.

Lemma WellFormed_intro dims maps :
  is_ok (ValidateDimensionLabelsAreUnique (label <$> dims)) = true -> valid_dims dims ->
  (forall m, m ∈ maps -> check_map (MkTransform dims []) m = true /\ typed_map (length dims) m) ->
  WellFormed (MkTransform dims maps).
Proof.
  intros Hl HV Hm. unfold WellFormed, DebugCheckInvariants, typed. cbn [input_dimensions output_index_maps].
  unfold valid_dims in HV. rewrite Forall_forall in HV. split.
  - rewrite Hl. cbn [andb]. apply andb_true_iff. split.
    + apply forallb_forall. intros d Hd%list_elem_of_In. specialize (HV d Hd).
      apply ValidSized_spec; [apply (Valid_fields _ HV)..|]. destruct (domain d); exact HV.
    + apply forallb_forall. intros m Hin%list_elem_of_In. exact (proj1 (Hm m Hin)).
  - split; apply Forall_forall; [intros d Hd; apply Valid_fields, HV, Hd|intros m Hin; exact (proj2 (Hm m Hin))].
Qed.

Lemma WellFormed_labels t : WellFormed t ->
  is_ok (ValidateDimensionLabelsAreUnique (label <$> input_dimensions t)) = true.
Proof. intros [H _]. unfold DebugCheckInvariants in H. bool_to_prop. assumption. Qed.

(** An index array map whose strides are zero except in finite explicit dimensions. *)
Lemma check_array dims o s data :
  s <> 0 -> IsDomainExplicitlyEmpty (MkTransform dims []) = false ->
  (forall i d, dims !! i = Some d -> byte_strides data !!! i <> 0 ->
     explicit_finite (optionally_implicit_domain d)) ->
  check_map (MkTransform dims []) (MkOutputIndexMap (array data) o s) = true.
Proof.
  intros Hs He H. unfold check_map. cbn [method stride input_dimensions]. rewrite He.
  rewrite (proj2 (Z.eqb_neq s 0) Hs). cbn [negb andb]. apply forallb_forall. intros [d b] Hin%list_elem_of_In.
  apply list_elem_of_lookup in Hin as [i (d' & b' & [= <- <-] & Hd & Hb)%lookup_zip_with_Some].
  destruct (Z.eqb_spec b 0) as [|Hb0]; [reflexivity|]. cbn [orb].
  destruct (H i d Hd) as (E1 & E2 & E3); [rewrite (list_lookup_total_correct _ _ _ Hb); exact Hb0|].
  unfold domain, is_implicit. rewrite E1, E2, E3. reflexivity.
Qed.

Lemma Intersect_Valid a b : Valid a -> Valid b -> Valid (Intersect a b).
Proof. intros Ha Hb. apply (Intersect_bounds a b Ha Hb). Qed.

Lemma effective_interval_nonempty x :
  good_bounds x -> Valid (effective_interval x) /\ empty (effective_interval x) = false.
Proof.
  intros [HV He]. destruct (effective_interval_bounds x HV) as (HVe & _ & _ & E). split; [exact HVe|].
  rewrite E. unfold empty. cbn [size]. revert He. bounds_of HV lo hi. intros He.
  destruct (implicit_lower x), (implicit_upper x); apply Z.eqb_neq; bool_to_prop; i64_lia.
Qed.

Section Invariant.
Context {AT : ArrayTransformer} {laws : ArrayTransformerLaws}.
Variables (b_to_c ab : TransformRep) (bounds : list OptionallyImplicitIndexInterval).
Hypothesis HWb : WellFormed b_to_c.
Hypothesis HWa : WellFormed ab.
Hypothesis Hrank : output_rank ab = input_rank b_to_c.
Hypothesis Hgood : Forall good_bounds (transform_bounds b_to_c).
Hypothesis Hprop : PropagateBounds (transform_bounds b_to_c) (Some ab) = Ok bounds.

Let dims := zip_with set_bounds (input_dimensions ab) bounds.
Let ctx := MkComposeContext (input_dimensions b_to_c) ab (domain <$> dims)
             (IsDomainExplicitlyEmpty (MkTransform dims [])).

Lemma dims_bounds : optionally_implicit_domain <$> dims = bounds.
Proof. exact (compose_dims_bounds b_to_c ab bounds HWa Hrank Hgood Hprop). Qed.

Lemma dims_valid : valid_dims dims.
Proof. exact (compose_valid_dims b_to_c ab bounds HWa Hrank Hgood Hprop). Qed.

Lemma dims_length : length dims = input_rank ab.
Proof.
  rewrite <- (compose_domain_length b_to_c ab bounds HWa Hrank Hgood Hprop), length_fmap. reflexivity.
Qed.

Lemma dims_at i d : dims !! i = Some d -> bounds !! i = Some (optionally_implicit_domain d).
Proof. intros H. rewrite <- dims_bounds, list_lookup_fmap, H. reflexivity. Qed.

Lemma dims_labels : label <$> dims = label <$> input_dimensions ab.
Proof.
  apply list_eq. intros i. unfold dims. rewrite !list_lookup_fmap, lookup_zip_with.
  destruct (input_dimensions ab !! i) as [d|] eqn:Hd; [|reflexivity]. cbn.
  destruct (lookup_lt_is_Some_2 bounds i) as [r ->]; [|reflexivity].
  rewrite (compose_bounds_length b_to_c ab bounds HWa Hrank Hgood Hprop). exact (lookup_lt_Some _ _ _ Hd).
Qed.

(** An explicitly empty dimension of "a -> b" stays explicitly empty. *)
Lemma explicitly_empty_kept :
  IsDomainExplicitlyEmpty ab = true -> IsDomainExplicitlyEmpty (MkTransform dims []) = true.
Proof.
  intros H. apply existsb_exists in H as (d & Hd%list_elem_of_In & He).
  apply list_elem_of_lookup in Hd as [i Hi]. apply andb_true_iff in He as [Himp Hs].
  unfold is_implicit in Himp. apply negb_true_iff, orb_false_iff in Himp as [E1 E2].
  pose proof (compose_explicit b_to_c ab bounds HWa Hrank Hgood Hprop i _ (bounds_of_dims _ _ _ Hi) E1 E2) as Hb.
  destruct (lookup_lt_is_Some_2 dims i) as [d' Hd'].
  { rewrite dims_length. exact (lookup_lt_Some _ _ _ Hi). }
  pose proof (dims_at _ _ Hd') as Hb'. rewrite Hb in Hb'. injection Hb' as Ed.
  apply existsb_exists. exists d'. split; [apply list_elem_of_In, list_elem_of_lookup_2 with i, Hd'|].
  unfold is_implicit, domain. rewrite <- Ed, E1, E2. exact Hs.
Qed.

(** The dimensions that an index array of "a -> b" depends on. *)
Lemma array_dim_finite m data i d :
  m ∈ output_index_maps ab -> method m = array data -> byte_strides data !!! i <> 0 ->
  dims !! i = Some d -> explicit_finite (optionally_implicit_domain d).
Proof.
  intros Hm Hd Hi Hdim. destruct (WellFormed_array ab m data i HWa Hm Hd Hi) as (d' & Hdi & E1 & E2 & E3).
  pose proof (compose_explicit b_to_c ab bounds HWa Hrank Hgood Hprop i _ (bounds_of_dims _ _ _ Hdi) E1 E2) as Hb.
  rewrite (dims_at _ _ Hdim) in Hb. injection Hb as ->. repeat split; assumption.
Qed.

(** The dimensions that an index array of "b -> c" depends on. *)
Lemma depends_dim_finite m data i d :
  IsDomainExplicitlyEmpty (MkTransform dims []) = false ->
  m ∈ output_index_maps b_to_c -> method m = array data ->
  array_depends (shared_array_view data (domain <$> input_dimensions b_to_c)) ab i ->
  dims !! i = Some d -> explicit_finite (optionally_implicit_domain d).
Proof.
  intros Hne Hm Hd (j & ma & Hj & Hdep & Hs) Hdim. cbn in Hs.
  destruct (WellFormed_array b_to_c m data j HWb Hm Hd Hs) as (db & Hdj & E1 & E2 & E3).
  pose proof (list_elem_of_lookup_2 _ _ _ Hj) as Hma.
  unfold depends_on in Hdep. destruct (method ma) as [|i'|data'] eqn:Hma'; [contradiction| |].
  2: { exact (array_dim_finite ma data' i d Hma Hma' Hdep Hdim). }
  destruct Hdep as [-> Hnz]. pose proof (dims_at _ _ Hdim) as Hb.
  destruct (PropagateBounds_lookup ab _ bounds i _ HWa
    (compose_rank b_to_c ab Hrank) Hgood Hprop Hb) as (e & He & Hres).
  assert (Hc : (ma, optionally_implicit_domain db) ∈ zip (output_index_maps ab) (transform_bounds b_to_c))
    by (apply elem_of_zip_lookup with j; [exact Hj|apply bounds_of_dims, Hdj]).
  destruct (dr_constrained _ _ _ _ _ Hres _ Hc (conj Hma' Hnz) E1 E2) as [F1 F2].
  apply (dr_finite _ _ _ _ _ Hres) with (ma, optionally_implicit_domain db);
    [| |exact Hc|split; assumption|repeat split; assumption].
  - apply not_true_is_false. intros Hab. rewrite (explicitly_empty_kept Hab) in Hne. discriminate.
  - apply not_true_is_false. intros Hemp. enough (IsDomainExplicitlyEmpty (MkTransform dims []) = true) by congruence.
    apply existsb_exists. exists d. split; [apply list_elem_of_In, list_elem_of_lookup_2 with i, Hdim|].
    unfold is_implicit, domain. rewrite F1, F2. exact Hemp.
Qed.
Let good_map (m : OutputIndexMap) : Prop :=
  check_map (MkTransform dims []) m = true /\ typed_map (length dims) m.

Lemma good_constant o : in_i64 o -> good_map (MkOutputIndexMap constant o 0).
Proof. intros Ho. split; [reflexivity|]. unfold typed_map; cbn. split; [exact Ho|split; [i64_lia|exact I]]. Qed.

Lemma good_index_array o s data :
  in_i64 o -> in_i64 s -> s <> 0 -> IsDomainExplicitlyEmpty (MkTransform dims []) = false ->
  (forall i d, dims !! i = Some d -> byte_strides data !!! i <> 0 ->
     explicit_finite (optionally_implicit_domain d)) ->
  length (byte_strides data) = input_rank ab -> Valid (index_range data) ->
  good_map (MkOutputIndexMap (array data) o s).
Proof.
  intros Ho Hs Hs0 He Hd Hl HV. split; [apply check_array; assumption|].
  unfold typed_map; cbn. rewrite dims_length. auto.
Qed.

Lemma good_single_array b_dim ma data no ns m' :
  ma ∈ output_index_maps ab -> method ma = array data -> (b_dim < input_rank b_to_c)%nat ->
  in_i64 no -> in_i64 ns -> ns <> 0 ->
  compose_single_array ctx b_dim ma data no ns = Ok m' -> good_map m'.
Proof.
  intros Hm Hd Hb Hno Hns Hns0 H. unfold compose_single_array in H.
  destruct (a_to_c_domain_is_explicitly_empty ctx) eqn:He; [injection H as <-; apply good_constant; i64_lia|].
  apply bind_Ok in H as (prop & Hp & H). destruct (WellFormed_map ab ma HWa Hm) as [Hc (Ho & Hs & Ht)].
  rewrite Hd in Ht. destruct Ht as [Hl HV].
  destruct (IsSingletonIndexArrayMap _ _).
  - apply bind_Ok in H as ([o' s'] & Hz & [= <-]). apply ReplaceZeroRank_Ok in Hz as (_ & _ & Hi & ->).
    apply good_constant, Hi.
  - injection H as <-. apply good_index_array; try assumption.
    + intros i d Hdim Hi. exact (array_dim_finite ma data i d Hm Hd Hi Hdim).
    + cbn [index_range]. apply Intersect_Valid; [exact HV|].
      destruct (lookup_lt_is_Some_2 (input_dimensions b_to_c) b_dim Hb) as [d Hdim].
      cbn [b_to_c_dims ctx] in Hp. rewrite (list_lookup_total_correct _ _ _ Hdim) in Hp.
      assert (Hg : good_bounds (optionally_implicit_domain d)).
      { pose proof Hgood as Hg. rewrite Forall_lookup in Hg. exact (Hg _ _ (bounds_of_dims _ _ _ Hdim)). }
      destruct (effective_interval_nonempty _ Hg) as [HVe Hne].
      apply (AffineDomain_sides _ _ _ _ HVe Ho Hs Hne Hp).
Qed.

Lemma good_single m b_dim m' :
  m ∈ output_index_maps b_to_c -> method m = single_input_dimension b_dim ->
  compose_single ctx b_dim m = Ok m' -> good_map m'.
Proof.
  intros Hm Hd H. destruct (WellFormed_single b_to_c m b_dim HWb Hm Hd) as [Hlt Hs0].
  destruct (lookup_lt_is_Some_2 (output_index_maps ab) b_dim) as [ma Hma];
    [unfold output_rank in Hrank; rewrite Hrank; exact Hlt|].
  pose proof (list_elem_of_lookup_2 _ _ _ Hma) as Hin.
  unfold compose_single in H. cbn [a_to_b ctx] in H. rewrite (list_lookup_total_correct _ _ _ Hma) in H.
  rewrite (effective_method_wf ab ma HWa Hin) in H.
  destruct (MulOverflow (offset ma) (stride m)) as [ov1 p] eqn:E1.
  destruct (AddOverflow (offset m) p) as [ov2 no] eqn:E2.
  destruct (ov1 || ov2) eqn:Eov; [discriminate|]. apply orb_false_iff in Eov as [-> ->].
  apply AddOverflow_false in E2 as [-> Hno].
  destruct (WellFormed_map ab ma HWa Hin) as [Hc _]. unfold check_map in Hc.
  assert (Hstride : forall ns, method ma <> constant -> MulOverflow (stride ma) (stride m) = (false, ns) ->
    in_i64 ns /\ ns <> 0).
  { intros ns Hnc E. apply MulOverflow_false in E as [-> Hi]. split; [exact Hi|].
    apply Z.neq_mul_0. split; [|exact Hs0]. destruct (method ma); bool_to_prop; [congruence|assumption..]. }
  destruct (method ma) as [|d'|data] eqn:Hmd.
  - injection H as <-. apply good_constant, Hno.
  - destruct (MulOverflow (stride ma) (stride m)) as [[|] ns] eqn:E3; [discriminate|]. injection H as <-.
    destruct (Hstride ns ltac:(discriminate) eq_refl) as [Hi Hn0]. split; [|exact (conj Hno (conj Hi I))].
    unfold check_map, input_rank. cbn [method stride input_dimensions]. rewrite dims_length.
    bool_to_prop. apply andb_true_iff. split; [assumption|]. apply negb_true_iff, Z.eqb_neq, Hn0.
  - destruct (MulOverflow (stride ma) (stride m)) as [[|] ns] eqn:E3; [discriminate|].
    destruct (Hstride ns ltac:(discriminate) eq_refl) as [Hi Hn0].
    exact (good_single_array b_dim ma data _ ns m' Hin Hmd Hlt Hno Hi Hn0 H).
Qed.

Lemma good_array m data m' :
  m ∈ output_index_maps b_to_c -> method m = array data -> compose_array ctx m data = Ok m' -> good_map m'.
Proof.
  intros Hm Hd H. unfold compose_array in H.
  destruct (a_to_c_domain_is_explicitly_empty ctx) eqn:He; [injection H as <-; apply good_constant; i64_lia|].
  apply bind_Ok in H as ([p strides] & Hsub & H).
  destruct (WellFormed_map b_to_c m HWb Hm) as [Hc (Ho & Hs & Ht)]. rewrite Hd in Ht. destruct Ht as [Hl HV].
  unfold check_map in Hc. rewrite Hd in Hc.
  pose proof (compose_domain_length b_to_c ab bounds HWa Hrank Hgood Hprop) as Hbox.
  destruct (IsSingletonIndexArrayMap _ _).
  - apply bind_Ok in H as (index & _ & H).
    apply bind_Ok in H as ([o' s'] & Hz & [= <-]). apply ReplaceZeroRank_Ok in Hz as (_ & _ & Hi & ->).
    apply good_constant, Hi.
  - injection H as <-. apply good_index_array; try assumption.
    + bool_to_prop. assumption.
    + cbn [byte_strides]. intros i d Hdim Hi. apply (depends_dim_finite m data i d He Hm Hd); [|exact Hdim].
      exact (transform_strides_depend _ _ _ _ _ i HWa Hbox Hsub Hi).
    + exact (transform_strides_length _ _ _ _ _ Hsub Hbox).
Qed.

Lemma good_compose_map m m' : m ∈ output_index_maps b_to_c -> compose_map ctx m = Ok m' -> good_map m'.
Proof.
  intros Hm H. unfold compose_map in H. rewrite (effective_method_wf b_to_c m HWb Hm) in H.
  destruct (method m) as [|d|data] eqn:Hd.
  - injection H as <-. apply good_constant, (WellFormed_map b_to_c m HWb Hm).
  - exact (good_single m d m' Hm Hd H).
  - exact (good_array m data m' Hm Hd H).
Qed.

Lemma compose_WellFormed maps :
  mapR (compose_map ctx) (output_index_maps b_to_c) = Ok maps -> WellFormed (MkTransform dims maps).
Proof.
  intros H. apply WellFormed_intro; [rewrite dims_labels; apply WellFormed_labels, HWa|exact dims_valid|].
  intros m' Hm'. apply mapR_Ok in H. apply list_elem_of_lookup in Hm' as [k Hk].
  destruct (Forall2_lookup_r _ _ _ _ _ H Hk) as (m & Hmk & E).
  exact (good_compose_map m m' (list_elem_of_lookup_2 _ _ _ Hmk) E).
Qed.

End Invariant.

(** Composition keeps the invariants of the transforms. *)
Lemma compose_keeps_invariants {AT : ArrayTransformer} {laws : ArrayTransformerLaws} b_to_c a_to_b r :
  WellFormed b_to_c -> WellFormed a_to_b -> Forall good_bounds (transform_bounds b_to_c) ->
  ComposeTransforms b_to_c a_to_b false = Ok r ->
  WellFormed r /\ input_rank r = input_rank a_to_b /\ output_rank r = output_rank b_to_c /\
  label <$> input_dimensions r = label <$> input_dimensions a_to_b.
Proof.
  intros HWb HWa Hgood H. unfold ComposeTransforms in H.
  destruct (Nat.eqb_spec (output_rank a_to_b) (input_rank b_to_c)) as [Hrank|]; [|discriminate].
  apply bind_Ok in H as (bounds & Hb & (maps & Hm & [= <-])%bind_Ok).
  split; [exact (compose_WellFormed b_to_c a_to_b bounds HWb HWa Hrank Hgood Hb maps Hm)|]. split; [|split].
  - exact (dims_length b_to_c a_to_b bounds HWa Hrank Hgood Hb).
  - unfold output_rank. cbn [output_index_maps]. apply (mapR_length _ _ _ Hm).
  - exact (dims_labels b_to_c a_to_b bounds HWa Hrank Hgood Hb).
Qed.

(** C9: composition keeps the invariants of transforms.  The composition of two transforms that
    satisfy [DebugCheckInvariants] satisfies it as well; its domain has the rank and the labels of
    the inner transform, and it has one map per output of the outer one.  The dimensions of the
    outer transform must not be empty: [compose_breaks_invariant] is an empty one for which the
    composition succeeds with a result that violates the invariant.  Array resampling is used
    through its interface only. *)
Theorem ComposeTransforms_WellFormed {AT : ArrayTransformer} {laws : ArrayTransformerLaws} b_to_c a_to_b r :
  WellFormed b_to_c -> WellFormed a_to_b -> Forall good_bounds (transform_bounds b_to_c) ->
  ComposeTransforms b_to_c a_to_b false = Ok r ->
  WellFormed r /\ input_rank r = input_rank a_to_b /\ output_rank r = output_rank b_to_c /\
  label <$> input_dimensions r = label <$> input_dimensions a_to_b.
Proof. apply compose_keeps_invariants. Qed.

Lemma ComposeTransforms_WellFormed_witness :
  exists r, ComposeTransforms example_b_to_c example_a_to_b false = Ok r /\ WellFormed r /\ input_rank r = 1%nat.
Proof.
  assert (Hok : is_ok (ComposeTransforms example_b_to_c example_a_to_b false) = true) by (vm_compute; reflexivity).
  destruct (ComposeTransforms example_b_to_c example_a_to_b false) as [r|e] eqn:E; [|discriminate Hok].
  exists r. destruct (ComposeTransforms_WellFormed example_b_to_c example_a_to_b r) as (HW & Hr & _).
  - apply WellFormedb_spec. vm_compute. reflexivity.
  - apply WellFormedb_spec. vm_compute. reflexivity.
  - apply good_boundsb_spec. vm_compute. reflexivity.
  - exact E.
  - split; [reflexivity|]. split; [exact HW|exact Hr].
Defined.

(** The preimage of an empty interval at the least finite index plus one, under a shift by one, is
    an empty interval at the least finite index, which is not valid. *)
Lemma compose_breaks_invariant :
  let b_to_c := MkTransform [MkDimension (MkOI (MkInterval (kMinFiniteIndex + 1) 0) false false) EmptyString]
    [MkOutputIndexMap (single_input_dimension 0) 0 1] in
  let a_to_b := MkTransform [MkDimension OI_default EmptyString] [MkOutputIndexMap (single_input_dimension 0) 1 1] in
  WellFormed b_to_c /\ WellFormed a_to_b /\
  exists r, ComposeTransforms b_to_c a_to_b false = Ok r /\ WellFormedb r = false.
Proof.
  split; [|split]; [apply WellFormedb_spec; vm_compute; reflexivity ..|].
  eexists. split; [vm_compute; reflexivity|]. vm_compute. reflexivity.
Qed.
