(* ===== verification/IndexDomains.v ===== *)
(** Merging of index domains, in [index_space/index_transform.cc], and the combined domain and
    dimension units of a stack, in [driver/stack/driver.cc]. *)

From stdpp Require Import strings.
From S2P Require Import Prelude Int64 IndexInterval Transform.

(** * Index domains *)

(** An [IndexDomain]: a list of dimensions, or null. *)
Definition IndexDomain : Type := option (list IndexDomainDimension).

Section Merge.
Variable merge : OptionallyImplicitIndexInterval -> OptionallyImplicitIndexInterval -> Result OptionallyImplicitIndexInterval.

(** One dimension: labels first. *)
Definition merge_dimension (a b : IndexDomainDimension) : Result IndexDomainDimension :=
  new_label ← MergeDimensionLabels EmptyString (label a) (label b);
  new_bounds ← merge (optionally_implicit_domain a) (optionally_implicit_domain b);
  Ok (MkDimension new_bounds new_label).

Definition MergeIndexDomainsImpl (a b : IndexDomain) : Result IndexDomain :=
  match a, b with
  | None, _ => Ok b
  | _, None => Ok a
  | Some a, Some b =>
      if negb (length a =? length b)%nat then Err kInvalidArgument
      else dims ← mapR (fun '(x, y) => merge_dimension x y) (zip a b); Ok (Some dims)
  end.
End Merge.

Definition MergeIndexDomains : IndexDomain -> IndexDomain -> Result IndexDomain :=
  MergeIndexDomainsImpl MergeOptionallyImplicitIndexIntervals.
Definition HullIndexDomains : IndexDomain -> IndexDomain -> Result IndexDomain :=
  MergeIndexDomainsImpl (fun a b => Ok (OI_Hull a b)).
Definition IntersectIndexDomains : IndexDomain -> IndexDomain -> Result IndexDomain :=
  MergeIndexDomainsImpl (fun a b => Ok (OI_Intersect a b)).

Definition constrain_interval (ai bi : OptionallyImplicitIndexInterval) : OptionallyImplicitIndexInterval :=
  let constrain_lower := implicit_lower ai && (inclusive_min (interval ai) =? -kInfIndex) in
  let constrain_upper := implicit_upper ai && (inclusive_max (interval ai) =? kInfIndex) in
  MkOI (UncheckedClosed
      (if constrain_lower then inclusive_min (interval bi) else inclusive_min (interval ai))
      (if constrain_upper then inclusive_max (interval bi) else inclusive_max (interval ai)))
    (if constrain_lower then implicit_lower bi else implicit_lower ai)
    (if constrain_upper then implicit_upper bi else implicit_upper ai).

Definition ConstrainIndexDomain : IndexDomain -> IndexDomain -> Result IndexDomain :=
  MergeIndexDomainsImpl (fun a b => Ok (constrain_interval a b)).

(** * The domain of a stack *)

(** [WithImplicitDimensions] of an index domain is that of its representation, which must not be
    null. *)
Definition domain_WithImplicitDimensions (d : IndexDomain) (implicit_lower implicit_upper : bool) : Result IndexDomain :=
  match d with
  | None => Err NullDereference
  | Some dims => Ok (Some ((fun x => set_implicit x implicit_lower implicit_upper) <$> dims))
  end.

Definition GetCombinedDomain (schema_domain : IndexDomain) (layer_domains : list IndexDomain) : Result IndexDomain :=
  hull ← foldM HullIndexDomains None layer_domains;
  d ← ConstrainIndexDomain schema_domain hull;
  domain_WithImplicitDimensions d false false.

(** * The dimension units of a stack *)

Section Units.
(** Units are compared for equality only. *)
Context {Unit : Type} `{!EqDecision Unit}.

(** A dimension unit, and whether the layers may assign it ([allow_assignment]). *)
Definition unit_state : Type := option Unit * bool.

Definition merge_unit (x : unit_state) (u : option Unit) : unit_state :=
  let '(unit, allow) := x in
  if negb allow then x
  else match u with
       | None => x
       | Some u =>
           match unit with
           | None => (Some u, allow)
           | Some v => if decide (v = u) then x else (None, false)
           end
       end.

(** The loop over the dimensions of a layer, after the vector has been resized. *)
Fixpoint merge_units (st : list unit_state) (du : list (option Unit)) : list unit_state :=
  match st, du with
  | st, [] => st
  | [], u :: du => merge_unit (None, true) u :: merge_units [] du
  | x :: st, u :: du => merge_unit x u :: merge_units st du
  end.

Definition GetDimensionUnits (schema_units : list (option Unit)) (layers : list (Result (list (option Unit))))
    : Result (list (option Unit)) :=
  let st := (fun u => (u, negb (bool_decide (is_Some u)))) <$> schema_units in
  st ← foldM (fun st layer => du ← layer; Ok (merge_units st du)) st layers;
  Ok st.*1.
End Units.

(** * Hulls of domains *)

(** [d] contains [e] in every dimension. *)
Definition contains_domain (d e : list IndexDomainDimension) : Prop :=
  Forall2 (fun x y => ContainsInterval (domain x) (domain y) = true) d e.

(** The labels of two domains can be merged. *)
Definition labels_compatible (d e : list IndexDomainDimension) : Prop :=
  Forall2 (fun x y => label x = EmptyString \/ label y = EmptyString \/ label x = label y) d e.

Lemma ContainsInterval_trans a b c : Valid a -> Valid b -> Valid c ->
  ContainsInterval a b = true -> ContainsInterval b c = true -> ContainsInterval a c = true.
Proof.
  intros Ha Hb Hc. rewrite !ContainsInterval_spec by assumption. unfold empty.
  rewrite !inclusive_max_valid by assumption. unfold Valid in *. lia.
Qed.

Lemma MergeDimensionLabels_spec (a b l : string) : MergeDimensionLabels EmptyString a b = Ok l ->
  l = (if decide (a = EmptyString) then b else a) /\ (a = EmptyString \/ b = EmptyString \/ a = b).
Proof.
  unfold MergeDimensionLabels. repeat case_bool_decide; intros [= <-]; destruct (decide (a = EmptyString)); auto; congruence.
Qed.

(** What a merge of two domains does dimension by dimension. *)
Lemma MergeIndexDomainsImpl_at merge a b d : MergeIndexDomainsImpl merge (Some a) (Some b) = Ok d ->
  exists dims, d = Some dims /\ length a = length b /\ length dims = length b /\
  forall i x y z, a !! i = Some x -> b !! i = Some y -> dims !! i = Some z ->
    merge (optionally_implicit_domain x) (optionally_implicit_domain y) = Ok (optionally_implicit_domain z) /\
    label z = (if decide (label x = EmptyString) then label y else label x) /\
    (label x = EmptyString \/ label y = EmptyString \/ label x = label y).
Proof.
  unfold MergeIndexDomainsImpl. destruct (Nat.eqb_spec (length a) (length b)) as [Hl|]; [|discriminate].
  cbn [negb]. intros (dims & H & [= <-])%bind_Ok. exists dims. split; [reflexivity|]. split; [exact Hl|].
  split; [rewrite (mapR_length _ _ _ H), length_zip; lia|]. intros i x y z Hx Hy Hz. apply mapR_Ok in H.
  assert (Hp : zip a b !! i = Some (x, y)) by (rewrite lookup_zip_with, Hx; cbn; rewrite Hy; reflexivity).
  pose proof (Forall2_lookup_lr _ _ _ _ _ _ H Hp Hz) as E. cbn in E. unfold merge_dimension in E.
  apply bind_Ok in E as (l & El & (o & Eo & [= <-])%bind_Ok). apply MergeDimensionLabels_spec in El as [-> Hc]. auto.
Qed.

(** A merge that cannot fail on bounds succeeds if the ranks and the labels fit. *)
Lemma MergeIndexDomainsImpl_ok (f : OptionallyImplicitIndexInterval -> OptionallyImplicitIndexInterval -> OptionallyImplicitIndexInterval) a b :
  length a = length b ->
  (forall i x y, a !! i = Some x -> b !! i = Some y -> label x = EmptyString \/ label y = EmptyString \/ label x = label y) ->
  exists d, MergeIndexDomainsImpl (fun x y => Ok (f x y)) (Some a) (Some b) = Ok (Some d).
Proof.
  intros Hl H. unfold MergeIndexDomainsImpl. rewrite Hl, Nat.eqb_refl. cbn [negb].
  enough (exists dims, mapR (fun '(x, y) => merge_dimension (fun x y => Ok (f x y)) x y) (zip a b) = Ok dims) as [dims ->]
    by (exists dims; reflexivity).
  revert b Hl H. induction a as [|x a IH]; intros [|y b] Hl H; cbn in Hl; try lia; [exists []; reflexivity|].
  destruct (IH b ltac:(lia) (fun i x y => H (S i) x y)) as [dims Ed]. specialize (H 0%nat x y eq_refl eq_refl).
  change (zip (x :: a) (y :: b)) with ((x, y) :: zip a b). cbn [mapR].
  assert (exists z, merge_dimension (fun x y => Ok (f x y)) x y = Ok z) as [z Ez].
  { unfold merge_dimension, MergeDimensionLabels. repeat case_bool_decide; [eexists; reflexivity..|]. intuition congruence. }
  rewrite Ez, Ok_bind, Ed. eexists. reflexivity.
Qed.

(** What the hull of the layers before is. *)
Record is_hull (layers : list (list IndexDomainDimension)) (d : list IndexDomainDimension) : Prop := {
  hull_layers : Forall (Forall (fun x => Valid (domain x))) layers;
  hull_valid : Forall (fun x => Valid (domain x)) d;
  hull_contains : Forall (contains_domain d) layers;
  hull_least : forall i x c, d !! i = Some x -> Valid c ->
    Forall (fun e => forall y, e !! i = Some y -> ContainsInterval c (domain y) = true) layers ->
    ContainsInterval c (domain x) = true;
  hull_label : forall i x, d !! i = Some x ->
    (label x = EmptyString \/ exists e y, e ∈ layers /\ e !! i = Some y /\ label y = label x);
  hull_labels : Forall (fun e => Forall2 (fun x y => label y = EmptyString \/ label y = label x) d e) layers
}.

Lemma is_hull_single e : Forall (fun x => Valid (domain x)) e -> is_hull [e] e.
Proof.
  intros HV. split; [constructor; [exact HV|constructor]|exact HV|..].
  - constructor; [|constructor]. apply Forall_Forall2_diag, Forall_forall. intros x _. unfold ContainsInterval.
    rewrite !Z.leb_refl, orb_true_r. reflexivity.
  - intros i x c Hx _ [H _]%Forall_cons. exact (H x Hx).
  - intros i x Hx. right. exists e, x. split; [apply list_elem_of_singleton; reflexivity|auto].
  - constructor; [|constructor]. apply Forall_Forall2_diag, Forall_forall. auto.
Qed.

Section Step.
Variables (layers : list (list IndexDomainDimension)) (d e d' : list IndexDomainDimension).
Hypotheses (Hd : is_hull layers d) (He : Forall (fun x => Valid (domain x)) e).
Hypothesis Hstep : HullIndexDomains (Some d) (Some e) = Ok (Some d').

Lemma hull_step_at : length d = length e /\ length d' = length d /\
  forall i x y z, d !! i = Some x -> e !! i = Some y -> d' !! i = Some z ->
    domain z = Hull (domain x) (domain y) /\
    label z = (if decide (label x = EmptyString) then label y else label x) /\
    (label x = EmptyString \/ label y = EmptyString \/ label x = label y).
Proof.
  destruct (MergeIndexDomainsImpl_at _ _ _ _ Hstep) as (dims & [= <-] & Hl & Hl' & H).
  split; [exact Hl|]. split; [congruence|]. intros i x y z Hx Hy Hz. destruct (H i x y z Hx Hy Hz) as ([= E] & El & Hc).
  split; [unfold domain; rewrite <- E; reflexivity|auto].
Qed.

Lemma hull_step_least i x y z : d !! i = Some x -> e !! i = Some y -> d' !! i = Some z ->
  Valid (domain z) /\ ContainsInterval (domain z) (domain x) = true /\ ContainsInterval (domain z) (domain y) = true /\
  (forall c, Valid c -> ContainsInterval c (domain x) = true -> ContainsInterval c (domain y) = true ->
     ContainsInterval c (domain z) = true).
Proof.
  intros Hx Hy Hz. destruct hull_step_at as (_ & _ & H). destruct (H i x y z Hx Hy Hz) as [-> _].
  apply Hull_least; [exact (Forall_lookup_1 _ _ _ _ (hull_valid _ _ Hd) Hx)|exact (Forall_lookup_1 _ _ _ _ He Hy)].
Qed.

(** Every dimension of the new hull comes from one of both domains. *)
Lemma hull_step_dims i z : d' !! i = Some z -> exists x y, d !! i = Some x /\ e !! i = Some y.
Proof.
  destruct hull_step_at as (Hl & Hl' & _). intros Hz. pose proof (lookup_lt_Some _ _ _ Hz) as Hlt.
  destruct (lookup_lt_is_Some_2 d i) as [x Hx]; [lia|]. destruct (lookup_lt_is_Some_2 e i) as [y Hy]; [lia|]. eauto.
Qed.

Lemma is_hull_step : is_hull (layers ++ [e]) d'.
Proof.
  destruct hull_step_at as (Hl & Hl' & Hat). split.
  - apply Forall_app. split; [exact (hull_layers _ _ Hd)|constructor; [exact He|constructor]].
  - apply Forall_lookup. intros i z Hz. destruct (hull_step_dims i z Hz) as (x & y & Hx & Hy).
    exact (proj1 (hull_step_least i x y z Hx Hy Hz)).
  - apply Forall_app. split; [|constructor; [|constructor]].
    + apply Forall_forall. intros f Hin. pose proof (proj1 (Forall_forall _ _) (hull_contains _ _ Hd) f Hin) as Hf.
      pose proof (proj1 (Forall_forall _ _) (hull_layers _ _ Hd) f Hin) as HVf. cbn in Hf, HVf.
      pose proof (Forall2_length _ _ _ Hf) as Hlf.
      apply Forall2_same_length_lookup. split; [congruence|]. intros i z w Hz Hw.
      destruct (hull_step_dims i z Hz) as (x & y & Hx & Hy). destruct (hull_step_least i x y z Hx Hy Hz) as (HV & Hzx & _).
      apply (ContainsInterval_trans _ (domain x)); [exact HV|exact (Forall_lookup_1 _ _ _ _ (hull_valid _ _ Hd) Hx)|
        exact (Forall_lookup_1 _ _ _ _ HVf Hw)|exact Hzx|exact (Forall2_lookup_lr _ _ _ _ _ _ Hf Hx Hw)].
    + apply Forall2_same_length_lookup. split; [congruence|]. intros i z y Hz Hy.
      destruct (hull_step_dims i z Hz) as (x & y' & Hx & Hy'). assert (y' = y) as -> by congruence.
      apply (hull_step_least i x y z Hx Hy Hz).
  - intros i z c Hz Hc [Hprev Hlast]%Forall_app. apply Forall_cons in Hlast as [Hlast _]. destruct (hull_step_dims i z Hz) as (x & y & Hx & Hy).
    destruct (hull_step_least i x y z Hx Hy Hz) as (_ & _ & _ & Hleast). apply Hleast; [exact Hc| |exact (Hlast y Hy)].
    exact (hull_least _ _ Hd i x c Hx Hc Hprev).
  - intros i z Hz. destruct (hull_step_dims i z Hz) as (x & y & Hx & Hy). destruct (Hat i x y z Hx Hy Hz) as (_ & -> & _).
    destruct (decide (label x = EmptyString)).
    + right. exists e, y. split; [apply elem_of_app; right; left|auto].
    + destruct (hull_label _ _ Hd i x Hx) as [|(f & w & Hf & Hw & Ew)]; [contradiction|]. right. exists f, w.
      split; [apply elem_of_app; left; exact Hf|auto].
  - apply Forall_app. split; [|constructor; [|constructor]].
    + eapply Forall_impl; [exact (hull_labels _ _ Hd)|]. intros f Hf. pose proof (Forall2_length _ _ _ Hf) as Hlf.
      apply Forall2_same_length_lookup. split; [congruence|]. intros i z w Hz Hw.
      destruct (hull_step_dims i z Hz) as (x & y & Hx & Hy). destruct (Hat i x y z Hx Hy Hz) as (_ & -> & _).
      destruct (Forall2_lookup_lr _ _ _ _ _ _ Hf Hx Hw) as [|Ew]; [auto|]. destruct (decide (label x = EmptyString)); [left; congruence|auto].
    + apply Forall2_same_length_lookup. split; [congruence|]. intros i z y Hz Hy.
      destruct (hull_step_dims i z Hz) as (x & y' & Hx & Hy'). assert (y' = y) as -> by congruence.
      destruct (Hat i x y z Hx Hy Hz) as (_ & -> & Hc). destruct (decide (label x = EmptyString)); [auto|].
      destruct Hc as [|[|]]; [contradiction|auto|auto].
Qed.
End Step.

(** The loop over the layers. *)
Lemma hull_loop layers : Forall (Forall (fun x => Valid (domain x))) layers -> forall seen d r, is_hull seen d ->
  foldM HullIndexDomains (Some d) (Some <$> layers) = Ok r -> exists d', r = Some d' /\ is_hull (seen ++ layers) d'.
Proof.
  induction 1 as [|e layers He Hlayers IH]; intros seen d r Hd H; cbn [fmap list_fmap foldM] in H.
  - injection H as <-. exists d. rewrite app_nil_r. auto.
  - apply bind_Ok in H as (r1 & E & H). assert (exists d1, r1 = Some d1) as [d1 ->].
    { unfold HullIndexDomains, MergeIndexDomainsImpl in E. destruct (negb _); [discriminate|].
      apply bind_Ok in E as (dims & _ & [= <-]). eauto. }
    destruct (IH (seen ++ [e]) d1 r (is_hull_step seen d e d1 Hd He E) H) as (d' & -> & Hd').
    exists d'. rewrite <- app_assoc in Hd'. auto.
Qed.

Lemma hull_loop_ok layers : forall seen d, Forall (Forall (fun x => Valid (domain x))) layers -> is_hull seen d ->
  Forall (fun e => length e = length d) layers ->
  (forall f e, f ∈ seen ++ layers -> e ∈ layers -> labels_compatible f e) ->
  is_ok (foldM HullIndexDomains (Some d) (Some <$> layers)) = true.
Proof.
  induction layers as [|e layers IH]; intros seen d HV Hd Hl Hc; [reflexivity|]. cbn [fmap list_fmap foldM].
  apply Forall_cons in HV as [He HV], Hl as [Hle Hl].
  destruct (MergeIndexDomainsImpl_ok OI_Hull d e (eq_sym Hle)) as [d1 E].
  { intros i x y Hx Hy. destruct (hull_label _ _ Hd i x Hx) as [|(f & w & Hf & Hw & <-)]; [auto|].
    exact (Forall2_lookup_lr _ _ _ _ _ _ (Hc f e ltac:(apply elem_of_app; auto) ltac:(left)) Hw Hy). }
  unfold HullIndexDomains at 2. rewrite E, Ok_bind. apply (IH (seen ++ [e]) d1); [exact HV|exact (is_hull_step seen d e d1 Hd He E)| |].
  - destruct (hull_step_at d e d1 E) as (_ & -> & _). exact Hl.
  - intros f g Hf Hg. apply Hc; [|right; exact Hg]. rewrite <- app_assoc in Hf. exact Hf.
Qed.

(** * The schema *)

(** A bound of the schema is free if it is implicit and infinite. *)
Definition free_lower (y : IndexDomainDimension) : bool :=
  implicit_lower (optionally_implicit_domain y) && (inclusive_min (domain y) =? -kInfIndex).
Definition free_upper (y : IndexDomainDimension) : bool :=
  implicit_upper (optionally_implicit_domain y) && (inclusive_max (domain y) =? kInfIndex).

(** The dimension [x] has the bounds of [y] that are not free, and the others from [h]; and the label of
    [y], or else that of [h]. *)
Definition constrained_by (y h x : IndexDomainDimension) : Prop :=
  inclusive_min (domain x) = (if free_lower y then inclusive_min (domain h) else inclusive_min (domain y)) /\
  inclusive_max (domain x) = (if free_upper y then inclusive_max (domain h) else inclusive_max (domain y)) /\
  label x = (if decide (label y = EmptyString) then label h else label y).

(** A schema dimension with one free bound has its other bound on the right side of a layer. *)
Definition meets (y x : IndexDomainDimension) : Prop :=
  empty (domain x) = false /\
  (free_lower y = false -> free_upper y = true -> inclusive_min (domain y) <= inclusive_max (domain x)) /\
  (free_lower y = true -> free_upper y = false -> inclusive_min (domain x) <= inclusive_max (domain y)).

Lemma constrain_interval_bounds y h : Valid (domain y) -> Valid (domain h) ->
  let x := constrain_interval (optionally_implicit_domain y) (optionally_implicit_domain h) in
  let lo := if free_lower y then inclusive_min (domain h) else inclusive_min (domain y) in
  let hi := if free_upper y then inclusive_max (domain h) else inclusive_max (domain y) in
  inclusive_min (interval x) = lo /\ inclusive_max (interval x) = hi /\ (lo <= hi + 1 -> Valid (interval x)).
Proof.
  intros Hy Hh x lo hi. subst x. unfold constrain_interval. cbn [interval].
  change (implicit_lower (optionally_implicit_domain y) && (inclusive_min (interval (optionally_implicit_domain y)) =? -kInfIndex))
    with (free_lower y).
  change (implicit_upper (optionally_implicit_domain y) && (inclusive_max (interval (optionally_implicit_domain y)) =? kInfIndex))
    with (free_upper y).
  change (interval (optionally_implicit_domain y)) with (domain y). change (interval (optionally_implicit_domain h)) with (domain h).
  fold lo hi. assert (Hlo : -kInfIndex <= lo < kInfIndex) by (subst lo; unfold Valid in *; destruct (free_lower y); lia).
  assert (Hhi : -kInfIndex < hi <= kInfIndex).
  { subst hi. destruct (free_upper y); rewrite inclusive_max_valid by assumption; unfold Valid in *; lia. }
  rewrite UncheckedClosed_eq by lia. split; [reflexivity|]. split.
  - unfold inclusive_max. cbn [inclusive_min size]. unfold_i64. unwrap64. lia.
  - intros Hle. exact (proj1 (mk_valid lo hi Hlo Hhi ltac:(lia))).
Qed.

(** What is returned for a schema domain and the hull of the layers. *)
Lemma constrain_at s hull d : Forall (fun x => Valid (domain x)) s -> Forall (fun x => Valid (domain x)) hull ->
  ConstrainIndexDomain (Some s) (Some hull) = Ok d -> exists dims, d = Some dims /\ length s = length hull /\ length dims = length hull /\
  forall i y h x, s !! i = Some y -> hull !! i = Some h -> dims !! i = Some x ->
    constrained_by y h x /\ (label y = EmptyString \/ label h = EmptyString \/ label y = label h) /\
    (inclusive_min (domain x) <= inclusive_max (domain x) + 1 -> Valid (domain x)).
Proof.
  intros Hs Hh (dims & -> & Hl & Hl' & H)%MergeIndexDomainsImpl_at. exists dims. split; [reflexivity|].
  split; [exact Hl|]. split; [exact Hl'|]. intros i y h x Hy Hhi Hx. destruct (H i y h x Hy Hhi Hx) as ([= E] & El & Hc).
  destruct (constrain_interval_bounds y h (Forall_lookup_1 _ _ _ _ Hs Hy) (Forall_lookup_1 _ _ _ _ Hh Hhi)) as (E1 & E2 & HV).
  rewrite E in E1, E2, HV. unfold constrained_by, domain in *. rewrite E1, E2. auto.
Qed.

Lemma meets_uncrossed y h x : Valid (domain y) -> Valid (domain h) -> Valid (domain x) ->
  ContainsInterval (domain h) (domain x) = true -> meets y x ->
  (if free_lower y then inclusive_min (domain h) else inclusive_min (domain y)) <=
    (if free_upper y then inclusive_max (domain h) else inclusive_max (domain y)) + 1.
Proof.
  intros Hy Hh Hx Hc (He & H1 & H2). apply ContainsInterval_spec in Hc; [|assumption..].
  rewrite !(inclusive_max_valid (domain y)), !(inclusive_max_valid (domain h)), !(inclusive_max_valid (domain x)) in * by assumption.
  unfold Valid in *. destruct Hc as [Hc|Hc]; [congruence|]. destruct (free_lower y), (free_upper y); try specialize (H1 eq_refl eq_refl);
    try specialize (H2 eq_refl eq_refl); lia.
Qed.

(** The labels of a list of domains are those of distinct dimensions. *)
Definition labels_distinct (inputs : list (list IndexDomainDimension)) : Prop :=
  forall f g i j y w, f ∈ inputs -> g ∈ inputs -> f !! i = Some y -> g !! j = Some w ->
  label y = label w -> label y <> EmptyString -> i = j.

Lemma labels_of_inputs inputs dims : labels_distinct inputs ->
  (forall i x, dims !! i = Some x -> label x = EmptyString \/ exists e y, e ∈ inputs /\ e !! i = Some y /\ label y = label x) ->
  NoDup (labelled (label <$> dims)).
Proof.
  intros Hd Hl. set (f := fun i => match dims !! i with Some x => label x | None => EmptyString end).
  assert (E : label <$> dims = f <$> seq 0 (length dims)).
  { apply list_eq. intros i. rewrite !list_lookup_fmap. destruct (dims !! i) as [x|] eqn:Hx.
    - rewrite lookup_seq_lt by exact (lookup_lt_Some _ _ _ Hx). cbn. unfold f. rewrite Hx. reflexivity.
    - rewrite lookup_seq_ge; [reflexivity|]. exact (lookup_ge_None_1 _ _ Hx). }
  rewrite E. apply NoDup_labelled_fmap; [apply NoDup_seq|]. intros i j _ _ Eij Hne. unfold f in *.
  destruct (dims !! i) as [x|] eqn:Hx, (dims !! j) as [x'|] eqn:Hx'; try congruence.
  destruct (Hl i x Hx) as [|(e & y & He & Hy & Ey)]; [contradiction|].
  destruct (Hl j x' Hx') as [|(e' & y' & He' & Hy' & Ey')]; [congruence|].
  apply (Hd e e' i j y y' He He' Hy Hy'); congruence.
Qed.

(** The loop from the first layer on. *)
Lemma hull_of_layers first layers h : Forall (Forall (fun x => Valid (domain x))) (first :: layers) ->
  foldM HullIndexDomains None (Some <$> first :: layers) = Ok h -> exists d, h = Some d /\ is_hull (first :: layers) d.
Proof.
  intros [Hf HV]%Forall_cons. rewrite fmap_cons. cbn [foldM].
  assert (E0 : HullIndexDomains None (Some first) = Ok (Some first)) by reflexivity. rewrite E0, Ok_bind.
  exact (hull_loop layers HV [first] first h (is_hull_single first Hf)).
Qed.

Definition option_domain (d : IndexDomain) : list (list IndexDomainDimension) := match d with Some s => [s] | None => [] end.

(** What the schema makes of the hull. *)
Lemma combined_parts schema hull d :
  Forall (Forall (fun x => Valid (domain x))) (option_domain schema) -> Forall (fun x => Valid (domain x)) hull ->
  ConstrainIndexDomain schema (Some hull) = Ok d -> exists dims, d = Some dims /\
  match schema with
  | None => dims = hull
  | Some s => length dims = length hull /\ length s = length hull /\
      forall i y h x, s !! i = Some y -> hull !! i = Some h -> dims !! i = Some x -> constrained_by y h x /\
        (inclusive_min (domain x) <= inclusive_max (domain x) + 1 -> Valid (domain x))
  end /\
  Forall (fun e => Forall2 (fun x y => label y = EmptyString \/ label y = label x) ((fun x => set_implicit x false false) <$> dims) e)
    (option_domain schema) /\
  forall e, Forall2 (fun x y => label y = EmptyString \/ label y = label x) hull e ->
    Forall2 (fun x y => label y = EmptyString \/ label y = label x) dims e.
Proof.
  intros Hs Hh Hc. destruct schema as [s|]; cbn [option_domain] in *.
  - apply Forall_cons in Hs as [Hs _]. destruct (constrain_at s hull d Hs Hh Hc) as (dims & -> & L1 & L2 & H).
    exists dims. split; [reflexivity|]. split; [split; [exact L2|]; split; [exact L1|]; intros i y h x H1 H2 H3; split; apply (H i y h x H1 H2 H3)|].
    split.
    + constructor; [|constructor]. apply Forall2_fmap_l, Forall2_same_length_lookup. split; [congruence|]. intros i x y Hx Hy.
      destruct (lookup_lt_is_Some_2 hull i) as [h Hhi]; [rewrite <- L2; exact (lookup_lt_Some _ _ _ Hx)|].
      destruct (H i y h x Hy Hhi Hx) as ((_ & _ & El) & _). cbn. rewrite El. destruct (decide (label y = EmptyString)); auto.
    + intros e He. apply Forall2_same_length_lookup in He as [Le He]. apply Forall2_same_length_lookup. split; [congruence|].
      intros i x w Hx Hw. destruct (lookup_lt_is_Some_2 hull i) as [h Hhi]; [rewrite <- L2; exact (lookup_lt_Some _ _ _ Hx)|].
      destruct (lookup_lt_is_Some_2 s i) as [y Hy]; [rewrite L1; exact (lookup_lt_Some _ _ _ Hhi)|].
      destruct (H i y h x Hy Hhi Hx) as ((_ & _ & El) & Hc' & _). rewrite El. specialize (He i h w Hhi Hw).
      destruct (decide (label y = EmptyString)); [exact He|]. destruct He as [|E]; [auto|].
      destruct Hc' as [|[E'|E']]; [contradiction|left; congruence|right; congruence].
  - unfold ConstrainIndexDomain in Hc. cbn in Hc. injection Hc as <-. exists hull. split; [reflexivity|]. split; [reflexivity|].
    split; [constructor|auto].
Qed.

(** Every label of a result is one of the inputs. *)
Lemma constrained_label schema hull layers dims : is_hull layers hull ->
  Forall (Forall (fun x => Valid (domain x))) (option_domain schema) ->
  ConstrainIndexDomain schema (Some hull) = Ok (Some dims) -> forall i x, dims !! i = Some x ->
  label x = EmptyString \/ exists e y, e ∈ option_domain schema ++ layers /\ e !! i = Some y /\ label y = label x.
Proof.
  intros Hhull Hs Hc i x Hx. destruct (combined_parts schema hull _ Hs (hull_valid _ _ Hhull) Hc) as (dims' & [= <-] & H & _).
  assert (Hin : forall h, hull !! i = Some h -> label h = label x ->
    label x = EmptyString \/ exists e y, e ∈ option_domain schema ++ layers /\ e !! i = Some y /\ label y = label x).
  { intros h Hh E. destruct (hull_label _ _ Hhull i h Hh) as [|(e & y & He & Hy & Ey)]; [left; congruence|right].
    exists e, y. split; [apply elem_of_app; auto|]. split; [exact Hy|congruence]. }
  destruct schema as [s|]; cbn [option_domain] in *; [|subst dims; exact (Hin x Hx eq_refl)].
  destruct H as (L1 & L2 & H). pose proof (lookup_lt_Some _ _ _ Hx).
  destruct (lookup_lt_is_Some_2 hull i) as [h Hh]; [lia|]. destruct (lookup_lt_is_Some_2 s i) as [y Hy]; [lia|].
  destruct (H i y h x Hy Hh Hx) as [(_ & _ & El) _]. destruct (decide (label y = EmptyString)); [exact (Hin h Hh (eq_sym El))|].
  right. exists s, y. split; [apply elem_of_app; left; left|]. split; [exact Hy|congruence].
Qed.

Lemma combined_ok schema first layers :
  Forall (Forall (fun x => Valid (domain x))) (option_domain schema) -> Forall (Forall (fun x => Valid (domain x))) (first :: layers) ->
  Forall (fun e => length e = length first) (option_domain schema ++ layers) ->
  (forall f e, f ∈ option_domain schema ++ first :: layers -> e ∈ option_domain schema ++ layers -> labels_compatible f e) ->
  labels_distinct (option_domain schema ++ first :: layers) ->
  (forall s i y, schema = Some s -> s !! i = Some y -> exists e x, e ∈ first :: layers /\ e !! i = Some x /\ meets y x) ->
  exists dims, GetCombinedDomain schema (Some <$> first :: layers) = Ok (Some dims) /\
    Forall (fun x => Valid (domain x)) dims /\ NoDup (labelled (label <$> dims)) /\
    forall n hull, foldM HullIndexDomains None (Some <$> take n (first :: layers)) = Ok (Some hull) ->
      Forall (fun x => Valid (domain x)) hull /\ NoDup (labelled (label <$> hull)).
Proof.
  intros Hs HV [Hls Hl]%Forall_app Hc Hdist Hmeets.
  assert (Hok : exists h, foldM HullIndexDomains None (Some <$> first :: layers) = Ok h).
  { apply Forall_cons in HV as [Hf HV]. pose proof (hull_loop_ok layers [first] first HV (is_hull_single first Hf) Hl) as Hok.
    destruct (foldM HullIndexDomains (Some first) (Some <$> layers)) as [h|] eqn:E; [exists h; exact E|].
    discriminate Hok. intros f e Hf' He. apply Hc; apply elem_of_app; right; assumption. }
  destruct Hok as [h Hh]. destruct (hull_of_layers first layers h HV Hh) as (hull & -> & Hhull).
  assert (Hlh : length hull = length first)
    by exact (Forall2_length _ _ _ (Forall_inv (hull_contains _ _ Hhull))).
  assert (Hco : exists dims, ConstrainIndexDomain schema (Some hull) = Ok (Some dims)).
  { destruct schema as [s|]; [|exists hull; reflexivity]. cbn [option_domain] in *. apply Forall_cons in Hls as [Hls _].
    apply MergeIndexDomainsImpl_ok; [congruence|]. intros i y x Hy Hx.
    destruct (hull_label _ _ Hhull i x Hx) as [|(e & w & He & Hw & <-)]; [auto|].
    destruct (Forall2_lookup_lr _ _ _ _ _ _ (Hc e s ltac:(apply elem_of_app; auto) ltac:(apply elem_of_app; left; left)) Hw Hy)
      as [|[|]]; auto. }
  destruct Hco as [dims Hdims]. exists ((fun x => set_implicit x false false) <$> dims).
  split; [unfold GetCombinedDomain; rewrite Hh, Ok_bind, Hdims; reflexivity|]. split; [|split].
  - apply Forall_fmap. destruct (combined_parts schema hull _ Hs (hull_valid _ _ Hhull) Hdims) as (dims' & [= <-] & H & _).
    destruct schema as [s|]; [|subst dims; exact (hull_valid _ _ Hhull)]. destruct H as (L1 & L2 & H).
    cbn [option_domain] in Hs. apply Forall_cons in Hs as [Hs _].
    apply Forall_lookup. intros i x Hx. pose proof (lookup_lt_Some _ _ _ Hx).
    destruct (lookup_lt_is_Some_2 hull i) as [x0 Hx0]; [lia|]. destruct (lookup_lt_is_Some_2 s i) as [y Hy]; [lia|].
    destruct (H i y x0 x Hy Hx0 Hx) as [(E1 & E2 & _) HVx]. destruct (Hmeets s i y eq_refl Hy) as (e & w & He & Hw & Hm).
    apply HVx. rewrite E1, E2. apply (meets_uncrossed y x0 w).
    + exact (Forall_lookup_1 _ _ _ _ Hs Hy).
    + exact (Forall_lookup_1 _ _ _ _ (hull_valid _ _ Hhull) Hx0).
    + exact (Forall_lookup_1 _ _ _ _ (proj1 (Forall_forall _ _) HV e He) Hw).
    + exact (Forall2_lookup_lr _ _ _ _ _ _ (proj1 (Forall_forall _ _) (hull_contains _ _ Hhull) e He) Hx0 Hw).
    + exact Hm.
  - rewrite <- list_fmap_compose. apply (labels_of_inputs _ dims Hdist). exact (constrained_label schema hull _ dims Hhull Hs Hdims).
  - intros n hn Hn. destruct n as [|n]; [discriminate|]. cbn [take] in Hn.
    assert (HVn : Forall (Forall (fun x => Valid (domain x))) (first :: take n layers)).
    { apply Forall_cons in HV as [Hf HV]. constructor; [exact Hf|apply Forall_take, HV]. }
    destruct (hull_of_layers first (take n layers) _ HVn Hn) as (h' & [= <-] & Hhn). split; [exact (hull_valid _ _ Hhn)|].
    apply (labels_of_inputs _ hn Hdist). intros i x Hx. destruct (hull_label _ _ Hhn i x Hx) as [|(e & y & He & Hy & Ey)]; [auto|right].
    exists e, y. split; [|auto]. apply elem_of_app. right. apply elem_of_cons in He as [->|He]; [left|right].
    rewrite <- (take_drop n layers). apply elem_of_app. left. exact He.
Qed.

(** C18: the domain of a stack.  Whatever is returned has only explicit bounds and comes from a hull of
    the layers, a domain that contains every layer and is contained in every interval that contains
    a dimension of all layers.  Without a schema domain, its intervals are those of the hull; with one, they have the
    bounds of the schema that are not both implicit and infinite and the others from the hull.  It has the label of the
    schema and of every layer that have one.  The domain is computed without an error, and is valid, when the ranks agree, the
    labels do not conflict and no label is that of two different dimensions ([merged_labels_repeat]), and every schema dimension
    meets a layer ([constrained_bounds_crossed]). *)
Theorem GetCombinedDomain_correct schema first layers :
  Forall (Forall (fun x => Valid (domain x))) (option_domain schema ++ first :: layers) ->
  (forall d, GetCombinedDomain schema (Some <$> first :: layers) = Ok d -> exists dims hull, d = Some dims /\
     Forall (fun x => is_implicit x = false) dims /\
     Forall (fun x => Valid (domain x)) hull /\ Forall (contains_domain hull) (first :: layers) /\
     (forall i x c, hull !! i = Some x -> Valid c ->
        Forall (fun e => forall y, e !! i = Some y -> ContainsInterval c (domain y) = true) (first :: layers) ->
        ContainsInterval c (domain x) = true) /\
     match schema with
     | None => domain <$> dims = domain <$> hull
     | Some s => length dims = length hull /\ length s = length hull /\
         forall i y h x, s !! i = Some y -> hull !! i = Some h -> dims !! i = Some x -> constrained_by y h x
     end /\
     Forall (fun e => Forall2 (fun x y => label y = EmptyString \/ label y = label x) dims e) (option_domain schema ++ first :: layers)) /\
  (Forall (fun e => length e = length first) (option_domain schema ++ layers) ->
   (forall f e, f ∈ option_domain schema ++ first :: layers -> e ∈ option_domain schema ++ layers -> labels_compatible f e) ->
   labels_distinct (option_domain schema ++ first :: layers) ->
   (forall s i y, schema = Some s -> s !! i = Some y -> exists e x, e ∈ first :: layers /\ e !! i = Some x /\ meets y x) ->
   exists dims, GetCombinedDomain schema (Some <$> first :: layers) = Ok (Some dims) /\
     Forall (fun x => Valid (domain x)) dims /\ NoDup (labelled (label <$> dims)) /\
     forall n hull, foldM HullIndexDomains None (Some <$> take n (first :: layers)) = Ok (Some hull) ->
       Forall (fun x => Valid (domain x)) hull /\ NoDup (labelled (label <$> hull))).
Proof.
  intros [Hschema HV]%Forall_app. split.
  - unfold GetCombinedDomain. intros d (h & Hh & (c & Hc & Hd)%bind_Ok)%bind_Ok.
    destruct (hull_of_layers first layers h HV Hh) as (hull & -> & Hhull).
    destruct (combined_parts schema hull c Hschema (hull_valid _ _ Hhull) Hc) as (dims & -> & Hdims & Hlab).
    injection Hd as <-. exists ((fun x => set_implicit x false false) <$> dims), hull. split; [reflexivity|].
    destruct Hhull as [_ Hvalid Hcont Hleast _ Hlabels]. split; [apply Forall_fmap, Forall_forall; reflexivity|].
    split; [exact Hvalid|]. split; [exact Hcont|]. split; [exact Hleast|]. split.
    + destruct schema as [s|].
      * rewrite length_fmap. destruct Hdims as (L1 & L2 & H). split; [exact L1|]. split; [exact L2|].
        intros i y x0 x Hy Hx0 Hx. rewrite list_lookup_fmap in Hx. apply fmap_Some in Hx as (x1 & Hx1 & ->).
        exact (proj1 (H i y x0 x1 Hy Hx0 Hx1)).
      * subst dims. rewrite <- list_fmap_compose. apply list_fmap_ext. reflexivity.
    + apply Forall_app. split; [exact (proj1 Hlab)|]. eapply Forall_impl; [exact Hlabels|]. intros e He.
      apply Forall2_fmap_l. exact (proj2 Hlab e He).
  - intros Hl Hcompat Hdistinct Hmeets. exact (combined_ok schema first layers Hschema HV Hl Hcompat Hdistinct Hmeets).
Qed.

Lemma GetCombinedDomain_correct_witness :
  let layer a n l := [MkDimension (MkOI (MkInterval a n) false false) l] in
  let schema := [MkDimension (MkOI (UncheckedClosed (-kInfIndex) 6) true false) EmptyString] in
  exists dims, GetCombinedDomain (Some schema) [Some (layer 0 5 EmptyString); Some (layer 3 5 "x"%string)] = Ok (Some dims) /\
    Forall (fun x => Valid (domain x)) dims /\ domain <$> dims = [MkInterval 0 7].
Proof.
  intros layer schema. destruct (GetCombinedDomain_correct (Some schema) (layer 0 5 EmptyString) [layer 3 5 "x"%string]) as [_ H].
  - apply Forall_forall. intros e He.
    repeat (apply elem_of_cons in He as [->|He] || apply elem_of_nil in He as []); apply Forall_singleton; vm_compute; intuition discriminate.
  - destruct H as (dims & E & HV & _).
    + apply Forall_forall. intros e He.
      repeat (apply elem_of_cons in He as [->|He] || apply elem_of_nil in He as []); reflexivity.
    + intros f e Hf He. repeat (apply elem_of_cons in Hf as [->|Hf] || apply elem_of_nil in Hf as []);
        repeat (apply elem_of_cons in He as [->|He] || apply elem_of_nil in He as []);
        unfold labels_compatible; (apply Forall2_cons; split; [cbn; tauto|apply Forall2_nil_2]).
    + intros f g [|i] [|j] y w Hf Hg Hy Hw _ _; [reflexivity|exfalso..];
        repeat (apply elem_of_cons in Hf as [->|Hf] || apply elem_of_nil in Hf as []);
        repeat (apply elem_of_cons in Hg as [->|Hg] || apply elem_of_nil in Hg as []); discriminate.
    + intros s [|i] y [= <-] Hy; [|discriminate]. injection Hy as <-.
      exists (layer 0 5 EmptyString), (MkDimension (MkOI (MkInterval 0 5) false false) EmptyString).
      split; [left|]. split; [reflexivity|]. split; [reflexivity|]. split; [discriminate|]. intros _ _. vm_compute. discriminate.
    + exists dims. split; [exact E|]. split; [exact HV|]. vm_compute in E. injection E as <-. reflexivity.
Defined.

(** A stack without layers, and without a domain in its schema. *)
Lemma combined_domain_of_nothing : GetCombinedDomain None [] = Err NullDereference.
Proof. reflexivity. Qed.

(** Merged labels need not be unique. *)
Lemma merged_labels_repeat :
  let d l := MkDimension OI_default l in
  (match MergeIndexDomains (Some [d "x"%string; d EmptyString]) (Some [d EmptyString; d "x"%string]) with
   | Ok (Some dims) => Some (label <$> dims) | _ => None end) = Some ["x"%string; "x"%string].
Proof. reflexivity. Qed.

(** The bounds of a constrained domain can be crossed. *)
Lemma constrained_bounds_crossed :
  constrain_interval (MkOI (UncheckedClosed 5 kInfIndex) false true) (MkOI (UncheckedClosed 0 3) false false) =
    MkOI (MkInterval 5 (-1)) false false.
Proof. reflexivity. Qed.

(** * Units of a stack *)

Section UnitsTheorem.
Context {Unit : Type} `{!EqDecision Unit}.

(** The units that the layers give to a dimension. *)
Definition layer_units (layers : list (list (option Unit))) (i : nat) : list Unit := omap (fun du => mjoin (du !! i)) layers.

(** The unit of the schema, or else the one on which all layers that have one agree. *)
Definition combined_unit (schema_units : list (option Unit)) (layers : list (list (option Unit))) (i : nat) : option Unit :=
  match mjoin (schema_units !! i) with
  | Some u => Some u
  | None => match layer_units layers i with
            | [] => None
            | u :: us => if decide (Forall (eq u) us) then Some u else None
            end
  end.

Definition state_at (st : list (unit_state (Unit := Unit))) (i : nat) : unit_state := default (None, true) (st !! i).

Lemma merge_unit_None (x : unit_state (Unit := Unit)) : merge_unit x None = x.
Proof. destruct x as [u []]; reflexivity. Qed.

Lemma merge_units_at (du : list (option Unit)) : forall st i,
  state_at (merge_units st du) i = merge_unit (state_at st i) (mjoin (du !! i)).
Proof.
  unfold state_at. induction du as [|u du IH]; intros st i.
  { destruct st; cbn [merge_units]; rewrite lookup_nil; cbn [mjoin option_join]; rewrite merge_unit_None; reflexivity. }
  destruct st as [|x st]; cbn [merge_units]; destruct i as [|i]; cbn [lookup list_lookup default mjoin option_join]; try reflexivity.
  - exact (IH [] i).
  - exact (IH st i).
Qed.

Lemma merge_agreed (u : Unit) (us : list (option Unit)) : foldl merge_unit (Some u, true) us =
  if decide (Forall (eq u) (omap id us)) then (Some u, true) else (None, false).
Proof.
  induction us as [|v us IH]; cbn [foldl]; [reflexivity|]. destruct v as [v|]; cbn [merge_unit negb omap list_omap id].
  - destruct (decide (u = v)) as [->|Hne].
    + rewrite IH. apply decide_ext. rewrite Forall_cons. tauto.
    + rewrite decide_False by (intros [H _]%Forall_cons; contradiction). clear IH.
      induction us as [|w us IH]; [reflexivity|]. destruct w; exact IH.
  - exact IH.
Qed.

Lemma merge_fresh (us : list (option Unit)) : (foldl merge_unit (None, true) us).1 =
  match omap id us with [] => None | u :: us => if decide (Forall (eq u) us) then Some u else None end.
Proof.
  induction us as [|[u|] us IH]; cbn [foldl merge_unit negb omap list_omap id]; [reflexivity| |exact IH].
  rewrite merge_agreed. destruct (decide _); reflexivity.
Qed.

Lemma merge_disallowed (u : option Unit) us : foldl merge_unit (u, false) us = (u, false).
Proof. induction us as [|v us IH]; [reflexivity|exact IH]. Qed.

(** C19: the dimension units of a stack.  The unit of the schema has precedence; else a
    dimension has the unit that all layers agree on which have one for it, and no unit if two of
    them differ, whatever the order and the ranks of the layers.  An error of a layer is the
    result, if no layer before it has one. *)
Theorem GetDimensionUnits_correct schema_units layers rest e :
  (exists units, GetDimensionUnits schema_units (Ok <$> layers) = Ok units /\
     forall i, mjoin (units !! i) = combined_unit schema_units layers i) /\
  GetDimensionUnits schema_units ((Ok <$> layers) ++ Err e :: rest) = Err e.
Proof.
  unfold GetDimensionUnits. set (st0 := (fun u => (u, negb (bool_decide (is_Some u)))) <$> schema_units).
  assert (Hloop : exists st, foldM (fun st layer => du ← layer; Ok (merge_units st du)) st0 (Ok <$> layers) = Ok st /\
    forall i, state_at st i = foldl merge_unit (state_at st0 i) ((fun du => mjoin (du !! i)) <$> layers)).
  { generalize st0. clear st0. induction layers as [|du layers IH]; intros st0; [exists st0; auto|].
    cbn [fmap list_fmap foldM]. rewrite !Ok_bind. destruct (IH (merge_units st0 du)) as (st & E & H). exists st.
    split; [exact E|]. intros i. rewrite H, merge_units_at. reflexivity. }
  destruct Hloop as (st & E & H). split.
  - exists st.*1. rewrite E, Ok_bind. split; [reflexivity|]. intros i. rewrite list_lookup_fmap.
    transitivity (state_at st i).1; [unfold state_at, unit_state in *; destruct (st !! i) as [[[]]|]; reflexivity|].
    rewrite H. unfold combined_unit, layer_units, state_at, st0. rewrite list_lookup_fmap.
    assert (Eo : omap id ((fun du => mjoin (du !! i)) <$> layers) = omap (fun du => mjoin (du !! i)) layers)
      by (clear; induction layers as [|du layers IH]; [reflexivity|]; cbn; rewrite IH; reflexivity).
    destruct (schema_units !! i) as [[u|]|]; cbn [fmap option_fmap option_map default mjoin option_join].
    + rewrite bool_decide_true by eauto. exact (f_equal fst (merge_disallowed (Some u) _)).
    + rewrite bool_decide_false by (intros [? [=]]). rewrite <- Eo. apply merge_fresh.
    + rewrite <- Eo. apply merge_fresh.
  - rewrite foldM_app, E, Ok_bind. reflexivity.
Qed.
End UnitsTheorem.
