(* ===== verification/InverseTransform.v ===== *)
(** Inversion of index transforms:
    [index_space/internal/inverse_transform.cc]. *)

From stdpp Require Import strings.
From S2P Require Import Prelude Int64 IndexInterval Transform.

(** * Definitions *)

(** The new input dimensions built so far, one per output dimension visited, and
    the new output index maps, which start as constant maps. *)
Record InverseState := MkInverse {
  new_dimensions : list IndexDomainDimension;
  new_maps : list OutputIndexMap
}.

(** [new_map.method() == single_input_dimension]. *)
Definition is_single (m : OutputIndexMap) : bool :=
  match method m with single_input_dimension _ => true | _ => false end.

(** One iteration over the output dimensions. *)
Definition invert_output (t : TransformRep) (st : InverseState) (map : OutputIndexMap)
  : Result InverseState :=
  let output_dim := length (new_dimensions st) in
  match method map with
  | array _ => Err kInvalidArgument
  | constant =>
      if negb (IsFiniteIndex (offset map)) then Err kInvalidArgument
      else
        Ok (MkInverse
              (new_dimensions st ++
                 [MkDimension (MkOI (UncheckedSized (offset map) 1) false false) EmptyString])
              (new_maps st))
  | single_input_dimension input_dim =>
      if negb (stride map =? 1) && negb (stride map =? -1) then Err kInvalidArgument
      else if is_single (new_maps st !!! input_dim) then Err kInvalidArgument
      else
        let d := input_dimensions t !!! input_dim in
        new_domain ←
          OI_GetAffineTransformRange (optionally_implicit_domain d) (offset map) (stride map);
        if offset map =? i64_min then Err kInvalidArgument
        else
          Ok (MkInverse
                (new_dimensions st ++ [MkDimension new_domain (label d)])
                (<[input_dim :=
                    MkOutputIndexMap (single_input_dimension output_dim)
                      (- offset map * stride map)%i64 (stride map)]> (new_maps st)))
  end.

(** One iteration over the input dimensions. *)
Definition invert_unmapped (p : OutputIndexMap * IndexDomainDimension)
  : Result OutputIndexMap :=
  let '(new_map, d) := p in
  if is_single new_map then Ok new_map
  else
    let input_domain := optionally_implicit_domain d in
    if implicit_lower input_domain || implicit_upper input_domain ||
       negb (size (interval input_domain) =? 1)
    then Err kInvalidArgument
    else Ok (MkOutputIndexMap (method new_map) (inclusive_min (interval input_domain)) 0).

Definition InverseTransform (t : TransformRep) : Result TransformRep :=
  st ← foldM (invert_output t) (MkInverse [] (replicate (input_rank t) constant_zero))
         (output_index_maps t);
  maps ← mapR invert_unmapped (zip (new_maps st) (input_dimensions t));
  Ok (MkTransform (new_dimensions st) maps).

(** * The result of the loops *)

Definition inverse_map (k : nat) (m : OutputIndexMap) : OutputIndexMap :=
  MkOutputIndexMap (single_input_dimension k) (- offset m * stride m)%i64 (stride m).

(** The new input dimension for an output dimension that has the map [m]. *)
Definition inverse_dimension (t : TransformRep) (m : OutputIndexMap) (d' : IndexDomainDimension)
  : Prop :=
  match method m with
  | array _ => False
  | constant =>
      IsFiniteIndex (offset m) = true /\
      d' = MkDimension (MkOI (MkInterval (offset m) 1) false false) EmptyString
  | single_input_dimension i =>
      (stride m = 1 \/ stride m = -1) /\ offset m <> i64_min /\
      exists d, input_dimensions t !! i = Some d /\
        OI_GetAffineTransformRange (optionally_implicit_domain d) (offset m) (stride m) =
          Ok (optionally_implicit_domain d') /\ label d' = label d
  end.

Record inverse_inv (t : TransformRep) (pre : list OutputIndexMap) (st : InverseState) : Prop := {
  inv_dims : Forall2 (inverse_dimension t) pre (new_dimensions st);
  inv_length : length (new_maps st) = input_rank t;
  inv_mapped : forall k m i, pre !! k = Some m -> method m = single_input_dimension i ->
    new_maps st !! i = Some (inverse_map k m);
  inv_maps : forall i m', new_maps st !! i = Some m' ->
    m' = constant_zero \/
    exists k m, pre !! k = Some m /\ method m = single_input_dimension i /\ m' = inverse_map k m
}.

Lemma lookup_snoc_cases {A} (l : list A) x k y :
  (l ++ [x]) !! k = Some y ->
  l !! k = Some y \/ (k = length l /\ y = x /\ l !! k = None).
Proof.
  intros H. destruct (lookup_lt_is_Some (l ++ [x]) k) as [Hlt _].
  specialize (Hlt ltac:(eauto)). rewrite length_app in Hlt. cbn in Hlt.
  destruct (Nat.lt_ge_cases k (length l)).
  - left. rewrite lookup_app_l in H by assumption. exact H.
  - right. assert (k = length l) as -> by lia.
    rewrite lookup_app_r, Nat.sub_diag in H by lia. injection H as <-.
    rewrite lookup_ge_None_2 by lia. auto.
Qed.

Lemma inverse_inv_step t pre m st st' :
  WellFormed t -> m ∈ output_index_maps t ->
  inverse_inv t pre st -> invert_output t st m = Ok st' -> inverse_inv t (pre ++ [m]) st'.
Proof.
  intros HW Hm [Hd Hl Hf Hb] H. pose proof (Forall2_length _ _ _ Hd) as Hlen.
  unfold invert_output in H. destruct (method m) as [|i|] eqn:Em; [| |discriminate].
  - destruct (IsFiniteIndex (offset m)) eqn:Ef; [|discriminate]. injection H as <-.
    split; cbn [new_dimensions new_maps]; [|exact Hl| |].
    + apply Forall2_app; [exact Hd|]. constructor; [|constructor].
      unfold inverse_dimension. rewrite Em. auto.
    + intros k m0 i [Hk|(_ & -> & _)]%lookup_snoc_cases Hi; [eauto|congruence].
    + intros i m' [->|(k & m0 & Hk & Hrest)]%Hb; [auto|right]. exists k, m0.
      split; [apply lookup_app_l_Some, Hk|exact Hrest].
  - pose proof (single_in_range t m i HW Hm Em) as Hi.
    destruct (_ && _) eqn:Es; [discriminate|].
    destruct (lookup_lt_is_Some_2 (new_maps st) i) as [m1 Hm1]; [lia|].
    rewrite (list_lookup_total_correct _ _ _ Hm1) in H.
    destruct (is_single m1) eqn:Es1; [discriminate|].
    assert (m1 = constant_zero) as ->
      by (destruct (Hb i m1 Hm1) as [->|(k & m0 & _ & _ & ->)]; [reflexivity|discriminate Es1]).
    destruct (lookup_lt_is_Some_2 (input_dimensions t) i Hi) as [d Hdi].
    rewrite (list_lookup_total_correct _ _ _ Hdi) in H.
    apply bind_Ok in H as (r & Er & H).
    destruct (Z.eqb_spec (offset m) i64_min) as [|Ho]; [discriminate|]. injection H as <-.
    rewrite <- Hlen. split; cbn [new_dimensions new_maps].
    + apply Forall2_app; [exact Hd|]. constructor; [|constructor].
      unfold inverse_dimension. rewrite Em. split; [lia|]. split; [exact Ho|]. exists d. auto.
    + rewrite length_insert. exact Hl.
    + intros k m0 j [Hk|(-> & -> & _)]%lookup_snoc_cases Hj.
      * assert (j <> i) by (intros ->; specialize (Hf k m0 i Hk Hj); rewrite Hm1 in Hf; discriminate Hf).
        rewrite list_lookup_insert_ne by auto. eauto.
      * replace j with i by congruence. apply list_lookup_insert_eq. lia.
    + intros j m' Hj. destruct (decide (j = i)) as [->|Hji].
      * rewrite list_lookup_insert_eq in Hj by lia. injection Hj as <-. right.
        exists (length pre), m. split; [apply list_lookup_middle; reflexivity|auto].
      * rewrite list_lookup_insert_ne in Hj by auto.
        destruct (Hb j m' Hj) as [->|(k & m0 & Hk & Hrest)]; [auto|right].
        exists k, m0. split; [apply lookup_app_l_Some, Hk|exact Hrest].
Qed.

(** An input dimension is either mapped by one output dimension or a singleton. *)
Definition inverse_output (t : TransformRep) (i : nat) (d : IndexDomainDimension)
  (m' : OutputIndexMap) : Prop :=
  (exists k m, output_index_maps t !! k = Some m /\ method m = single_input_dimension i /\
     m' = inverse_map k m) \/
  (implicit_lower (optionally_implicit_domain d) = false /\
   implicit_upper (optionally_implicit_domain d) = false /\ size (domain d) = 1 /\
   m' = MkOutputIndexMap constant (inclusive_min (domain d)) 0).

Lemma InverseTransform_Ok t t' :
  WellFormed t -> InverseTransform t = Ok t' ->
  Forall2 (inverse_dimension t) (output_index_maps t) (input_dimensions t') /\
  output_rank t' = input_rank t /\
  (forall i d m', input_dimensions t !! i = Some d -> output_index_maps t' !! i = Some m' ->
     inverse_output t i d m') /\
  (forall k m i, output_index_maps t !! k = Some m -> method m = single_input_dimension i ->
     output_index_maps t' !! i = Some (inverse_map k m)).
Proof.
  intros HW H. unfold InverseTransform in H.
  apply bind_Ok in H as (st & Hst & (maps & Hm & [= <-])%bind_Ok).
  assert (Hinv : inverse_inv t (output_index_maps t) st).
  { revert Hst. apply (foldM_prefix _ (inverse_inv t)).
    - split; cbn; [constructor|apply length_replicate|discriminate|].
      intros i m' Hi. apply lookup_replicate in Hi as [-> _]. auto.
    - intros pre m s1 s2 Hin Hs Hstep. exact (inverse_inv_step t pre m s1 s2 HW Hin Hs Hstep). }
  destruct Hinv as [Hd Hl Hf Hb]. split; [exact Hd|]. apply mapR_Ok in Hm.
  split; [|split].
  - unfold output_rank, input_rank in *; cbn. rewrite <- (Forall2_length _ _ _ Hm).
    rewrite length_zip_with. lia.
  - intros i d m' Hi Hm'. cbn in Hm'.
    destruct (Forall2_lookup_r _ _ _ i _ Hm Hm') as ([m0 d0] & Hz & Hu).
    apply lookup_zip_Some in Hz as [Hm0 Hd0]. rewrite Hi in Hd0. injection Hd0 as <-.
    unfold invert_unmapped in Hu. destruct (Hb i m0 Hm0) as [->|(k & m & Hk & Hmi & ->)].
    + right. cbn [is_single constant_zero method] in Hu.
      destruct (_ || _) eqn:E; [discriminate|]. injection Hu as <-.
      apply orb_false_iff in E as [[E1 E2]%orb_false_iff E3].
      split; [exact E1|]. split; [exact E2|]. split; [unfold domain; lia|]. reflexivity.
    + left. injection Hu as <-. eauto.
  - intros k m i Hk Hi. specialize (Hf k m i Hk Hi).
    destruct (lookup_lt_is_Some_2 (input_dimensions t) i) as [d Hdi];
      [exact (single_in_range t m i HW (list_elem_of_lookup_2 _ _ _ Hk) Hi)|].
    assert (Hz : zip (new_maps st) (input_dimensions t) !! i = Some (inverse_map k m, d))
      by (apply lookup_zip_Some; auto).
    destruct (Forall2_lookup_l _ _ _ _ _ Hm Hz) as (m' & Hm' & Hu). injection Hu as <-.
    exact Hm'.
Qed.

(** * The round trip *)

(** Mapping a bounds pair by a unit stride moves the admitted values along. *)
Lemma unit_range_admits d o s d' v :
  Valid (interval d) -> empty (interval d) = false -> in_i64 o -> s = 1 \/ s = -1 ->
  OI_GetAffineTransformRange d o s = Ok d' ->
  Valid (interval d') /\ (admits d' (o + s * v) <-> admits d v).
Proof.
  intros HV He Ho Hs H. unfold OI_GetAffineTransformRange in H.
  apply bind_Ok in H as (y & Hy & [= <-]).
  apply AffineRange_sides in Hy as (HVy & Hlo & Hhi); [|try assumption; i64_lia..].
  specialize (Hlo v). specialize (Hhi v). unfold admits, admits_lower, admits_upper.
  destruct (s <? 0); cbn [interval implicit_lower implicit_upper]; tauto.
Qed.

(** Two finite indices related by a wrapped unit-stride map are related exactly. *)
Lemma unit_affine v o s :
  IsFiniteIndex v = true -> in_i64 o -> s = 1 \/ s = -1 ->
  IsFiniteIndex (affine v s o) = true -> affine v s o = o + s * v.
Proof.
  rewrite !IsFiniteIndex_spec. unfold affine. intros Hv Ho Hs Hr.
  revert Hr. unfold wrap64, in_i64 in *. destruct Hs as [-> | ->]; unfold_i64; intros Hr;
    Z.div_mod_to_equations; lia.
Qed.

(** The inverse map undoes a unit-stride map, modulo 2^64 in both directions. *)
Lemma inverse_affine v o s :
  in_i64 o -> o <> i64_min -> s = 1 \/ s = -1 -> in_i64 v ->
  affine (affine v s o) s (- o * s)%i64 = v /\ affine (affine v s (- o * s)%i64) s o = v.
Proof.
  intros Ho Hm Hs Hv.
  assert (in_i64 (- o * s)) by i64_lia. rewrite (wrap64_id (- o * s)) by assumption.
  rewrite !affine_compose. unfold affine.
  split; rewrite wrap64_id; destruct Hs as [-> | ->]; i64_lia.
Qed.

Section RoundTrip.
Variables t t' : TransformRep.
Hypothesis HW : WellFormed t.
Hypothesis Hempty : Forall (fun d => empty (domain d) = false) (input_dimensions t).
Hypothesis H : InverseTransform t = Ok t'.

Lemma inverse_dimension_spec k m d' :
  output_index_maps t !! k = Some m -> input_dimensions t' !! k = Some d' ->
  inverse_dimension t m d' /\ in_i64 (offset m).
Proof.
  intros Hm Hd'. destruct (InverseTransform_Ok t t' HW H) as (HF & _).
  destruct (WellFormed_map t m HW (list_elem_of_lookup_2 _ _ _ Hm)) as [_ (Ho & _)].
  split; [|exact Ho].
  destruct (Forall2_lookup_l _ _ _ _ _ HF Hm) as (d2 & Hd2 & Hinv).
  rewrite Hd' in Hd2. injection Hd2 as <-. exact Hinv.
Qed.

(** The dimension that a single-dimension map reads, and its image. *)
Lemma single_dimension_spec k m d' i :
  output_index_maps t !! k = Some m -> input_dimensions t' !! k = Some d' ->
  method m = single_input_dimension i ->
  (stride m = 1 \/ stride m = -1) /\ offset m <> i64_min /\ in_i64 (offset m) /\
  Valid (domain d') /\
  exists d, input_dimensions t !! i = Some d /\
    (forall v, admits (optionally_implicit_domain d') (offset m + stride m * v) <->
               admits (optionally_implicit_domain d) v).
Proof.
  intros Hm Hd' Hi. destruct (inverse_dimension_spec k m d' Hm Hd') as [Hinv Ho].
  unfold inverse_dimension in Hinv. rewrite Hi in Hinv.
  destruct Hinv as (Hs & Hmin & d & Hd & Hr & _).
  assert (HV : Valid (domain d))
    by exact (Forall_lookup_1 _ _ _ _ (WellFormed_valid_dims t HW) Hd).
  assert (He : empty (domain d) = false) by exact (Forall_lookup_1 _ _ _ _ Hempty Hd).
  pose proof (fun v => unit_range_admits _ _ _ _ v HV He Ho Hs Hr) as Hrange.
  split; [exact Hs|]. split; [exact Hmin|]. split; [exact Ho|].
  split; [apply (Hrange 0)|]. exists d. split; [exact Hd|]. intros v. apply Hrange.
Qed.

Lemma inverse_valid_dims : valid_dims (input_dimensions t').
Proof.
  destruct (InverseTransform_Ok t t' HW H) as (HF & _).
  apply Forall_lookup. intros k d' Hd'.
  destruct (Forall2_lookup_r _ _ _ _ _ HF Hd') as (m & Hm & Hinv).
  destruct (method m) as [|i|] eqn:E; unfold inverse_dimension in Hinv; rewrite E in Hinv;
    [|apply (single_dimension_spec k m d' i Hm Hd' E)|contradiction].
  destruct Hinv as [Hf%IsFiniteIndex_spec ->]. unfold domain; cbn. unfold Valid; cbn. i64_lia.
Qed.

Lemma output_single m i idx :
  method m = single_input_dimension i ->
  output_index m idx = Ok (affine (idx !!! i) (stride m) (offset m)).
Proof. intros E. apply output_index_base. unfold base_output_index. rewrite E. reflexivity. Qed.

Lemma output_constant_map k m idx :
  output_index_maps t !! k = Some m -> method m = constant -> output_index m idx = Ok (offset m).
Proof.
  intros Hm E. destruct (WellFormed_map t m HW (list_elem_of_lookup_2 _ _ _ Hm)) as [_ (Ho & _)].
  rewrite (output_index_base m idx 0) by (unfold base_output_index; rewrite E; reflexivity).
  unfold affine. rewrite Z.mul_0_l, Z.add_0_l, wrap64_id by exact Ho. reflexivity.
Qed.

Lemma in_domain_lookup dims idx i d v :
  in_domain dims idx -> dims !! i = Some d -> idx !! i = Some v ->
  IsFiniteIndex v = true /\ admits (optionally_implicit_domain d) v.
Proof. intros HF Hd Hv. exact (Forall2_lookup_lr _ _ _ _ _ _ HF Hd Hv). Qed.

Lemma inverse_forward idx out :
  length idx = input_rank t -> TransformIndices t idx = Ok out ->
  Forall (fun o => IsFiniteIndex o = true) out -> TransformIndices t' out = Ok idx.
Proof.
  intros Hlen HT Hfin.
  destruct (InverseTransform_Ok t t' HW H) as (HF & Hrank & Hout & Hmapped).
  apply TransformIndices_Ok in HT as [Hin Hmaps]; [|exact (WellFormed_valid_dims t HW)|exact Hlen].
  pose proof (Forall2_length _ _ _ HF) as L1. pose proof (Forall2_length _ _ _ Hmaps) as L2.
  unfold output_rank, input_rank in *.
  apply TransformIndices_Ok; [exact inverse_valid_dims|unfold input_rank; lia|]. split.
  - apply Forall2_same_length_lookup_2; [lia|]. intros k d' o Hd' Ho.
    assert (Hof : IsFiniteIndex o = true) by exact (Forall_lookup_1 _ _ _ _ Hfin Ho).
    split; [exact Hof|].
    destruct (Forall2_lookup_r _ _ _ _ _ Hmaps Ho) as (m & Hm & Ev).
    destruct (inverse_dimension_spec k m d' Hm Hd') as [Hinv _].
    destruct (method m) as [|i|] eqn:E; unfold inverse_dimension in Hinv; rewrite E in Hinv;
      [| |contradiction].
    + destruct Hinv as [Hf ->]. rewrite (output_constant_map k m idx Hm E) in Ev.
      injection Ev as <-. apply admits_single; [exact Hf|reflexivity].
    + clear Hinv. destruct (single_dimension_spec k m d' i Hm Hd' E)
        as (Hs & _ & Ho64 & _ & d & Hd & Hadm).
      rewrite (output_single m i idx E) in Ev. injection Ev as Ev.
      destruct (lookup_lt_is_Some_2 idx i) as [v Hv];
        [apply lookup_lt_Some in Hd; lia|].
      rewrite (list_lookup_total_correct _ _ _ Hv) in Ev.
      destruct (in_domain_lookup _ _ _ _ _ Hin Hd Hv) as [Hvf Hva].
      rewrite <- Ev in Hof |- *. rewrite (unit_affine v _ _ Hvf Ho64 Hs Hof). apply Hadm, Hva.
  - apply Forall2_same_length_lookup_2; [lia|]. intros i m' v Hm' Hv.
    destruct (lookup_lt_is_Some_2 (input_dimensions t) i) as [d Hd];
      [apply lookup_lt_Some in Hm'; lia|].
    destruct (in_domain_lookup _ _ _ _ _ Hin Hd Hv) as [Hvf Hva].
    destruct (Hout i d m' Hd Hm') as [(k & m & Hm & E & ->)|(E1 & E2 & E3 & ->)].
    + destruct (Forall2_lookup_l _ _ _ _ _ HF Hm) as (d' & Hd' & _).
      destruct (single_dimension_spec k m d' i Hm Hd' E) as (Hs & Hmin & Ho64 & _).
      destruct (Forall2_lookup_l _ _ _ _ _ Hmaps Hm) as (o & Ho & Ev).
      rewrite (output_single m i idx E), (list_lookup_total_correct _ _ _ Hv) in Ev.
      injection Ev as Ev. rewrite (output_single (inverse_map k m) k out eq_refl).
      rewrite (list_lookup_total_correct _ _ _ Ho), <- Ev. cbn [stride offset inverse_map].
      f_equal. apply (inverse_affine v); [assumption..|apply finite_in_i64, Hvf].
    + destruct (explicit_singleton d v
        (Forall_lookup_1 _ _ _ _ (WellFormed_valid_dims t HW) Hd) E1 E2 E3) as [Hiff H64].
      rewrite (proj1 Hiff Hva). apply output_constant, H64.
Qed.

Lemma inverse_backward idx out :
  length out = output_rank t -> TransformIndices t' out = Ok idx ->
  Forall (fun v => IsFiniteIndex v = true) idx -> TransformIndices t idx = Ok out.
Proof.
  intros Hlen HT Hfin.
  destruct (InverseTransform_Ok t t' HW H) as (HF & Hrank & Hout & Hmapped).
  pose proof (Forall2_length _ _ _ HF) as L1.
  apply TransformIndices_Ok in HT as [Hin Hmaps];
    [|exact inverse_valid_dims|unfold input_rank, output_rank in *; lia].
  pose proof (Forall2_length _ _ _ Hmaps) as L2.
  unfold output_rank, input_rank in *.
  apply TransformIndices_Ok; [exact (WellFormed_valid_dims t HW)|unfold input_rank; lia|]. split.
  - apply Forall2_same_length_lookup_2; [lia|]. intros i d v Hd Hv.
    assert (Hvf : IsFiniteIndex v = true) by exact (Forall_lookup_1 _ _ _ _ Hfin Hv).
    split; [exact Hvf|].
    destruct (Forall2_lookup_r _ _ _ _ _ Hmaps Hv) as (m' & Hm' & Ev).
    destruct (Hout i d m' Hd Hm') as [(k & m & Hm & E & ->)|(E1 & E2 & E3 & ->)].
    + destruct (Forall2_lookup_l _ _ _ _ _ HF Hm) as (d' & Hd' & _).
      destruct (single_dimension_spec k m d' i Hm Hd' E)
        as (Hs & Hmin & Ho64 & _ & d2 & Hd2 & Hadm).
      rewrite Hd in Hd2. injection Hd2 as <-.
      destruct (lookup_lt_is_Some_2 out k) as [o Ho]; [apply lookup_lt_Some in Hd'; lia|].
      rewrite (output_single (inverse_map k m) k out eq_refl), (list_lookup_total_correct _ _ _ Ho) in Ev.
      destruct (in_domain_lookup _ _ _ _ _ Hin Hd' Ho) as [Hof Hoa].
      cbn [stride offset inverse_map] in Ev. injection Ev as Ev. apply Hadm.
      replace (offset m + stride m * v) with o; [exact Hoa|].
      rewrite <- (proj2 (inverse_affine o _ _ Ho64 Hmin Hs (finite_in_i64 o Hof))), Ev.
      apply unit_affine; try assumption. rewrite <- Ev.
      rewrite (proj2 (inverse_affine o _ _ Ho64 Hmin Hs (finite_in_i64 o Hof))). exact Hof.
    + destruct (explicit_singleton d v
        (Forall_lookup_1 _ _ _ _ (WellFormed_valid_dims t HW) Hd) E1 E2 E3) as [Hiff H64].
      rewrite output_constant in Ev by exact H64. injection Ev as <-. apply Hiff. reflexivity.
  - apply Forall2_same_length_lookup_2; [lia|]. intros k m o Hm Ho.
    destruct (lookup_lt_is_Some_2 (input_dimensions t') k) as [d' Hd'];
      [apply lookup_lt_Some in Hm; lia|].
    destruct (in_domain_lookup _ _ _ _ _ Hin Hd' Ho) as [Hof Hoa].
    destruct (inverse_dimension_spec k m d' Hm Hd') as [Hinv Ho64].
    destruct (method m) as [|i|] eqn:E; unfold inverse_dimension in Hinv; rewrite E in Hinv;
      [| |contradiction].
    + destruct Hinv as [Hf ->]. rewrite (output_constant_map k m idx Hm E).
      apply (admits_single _ _ Hf) in Hoa. congruence.
    + clear Hinv. destruct (single_dimension_spec k m d' i Hm Hd' E) as (Hs & Hmin & _).
      destruct (Forall2_lookup_l _ _ _ _ _ Hmaps (Hmapped k m i Hm E)) as (v & Hv & Ev).
      rewrite (output_single m i idx E), (list_lookup_total_correct _ _ _ Hv). f_equal.
      rewrite (output_single (inverse_map k m) k out eq_refl),
        (list_lookup_total_correct _ _ _ Ho) in Ev. injection Ev as <-.
      apply (inverse_affine o); [assumption..|apply finite_in_i64, Hof].
Qed.

End RoundTrip.

(** An index that is accepted is between the bounds of its dimension that are explicit. *)
Lemma accepted_not_explicitly_empty r idx k d v :
  TransformIndices r idx = Ok v -> length idx = input_rank r -> input_dimensions r !! k = Some d ->
  implicit_lower (optionally_implicit_domain d) = false -> implicit_upper (optionally_implicit_domain d) = false ->
  in_i64 (inclusive_min (domain d)) -> -kInfIndex <= inclusive_min (domain d) < kInfIndex -> size (domain d) <> 0.
Proof.
  unfold TransformIndices, input_rank. intros ([] & Hc & _)%bind_Ok Hlen Hd El Eu Hi Hb Hs. revert idx k Hc Hlen Hd.
  induction (input_dimensions r) as [|d0 dims IH]; intros [|i idx] [|k] Hc Hlen Hd; try discriminate;
    cbn in Hc; destruct (Contains _ i) eqn:E; try discriminate; [|exact (IH idx k Hc ltac:(cbn in Hlen; lia) Hd)].
  injection Hd as ->. unfold Contains, effective_interval in E. rewrite El, Eu in E.
  unfold domain in *. unfold inclusive_max in E. rewrite Hs in E. unfold UncheckedClosed in E.
  destruct (optionally_implicit_domain d) as [[m n] l u]. cbn in *. bool_to_prop.
  unfold inclusive_max in *. cbn in *. unfold wrap64, in_i64 in *. unfold_i64. Z.div_mod_to_equations. lia.
Qed.

(** With an explicitly empty dimension neither the transform nor its inverse accepts any index. *)
Lemma inverse_explicitly_empty t t' k d idx out :
  WellFormed t -> InverseTransform t = Ok t' -> length idx = input_rank t -> length out = output_rank t ->
  input_dimensions t !! k = Some d -> implicit_lower (optionally_implicit_domain d) = false ->
  implicit_upper (optionally_implicit_domain d) = false -> size (domain d) = 0 ->
  TransformIndices t idx <> Ok out /\ TransformIndices t' out <> Ok idx.
Proof.
  intros HW H L1 L2 Hd El Eu He. pose proof (Forall_lookup_1 _ _ _ _ (WellFormed_valid_dims t HW) Hd) as HV.
  assert (Hb : in_i64 (inclusive_min (domain d)) /\ -kInfIndex <= inclusive_min (domain d) < kInfIndex)
    by (unfold Valid in HV; i64_lia).
  split; intros HT.
  - exact (accepted_not_explicitly_empty t idx k d out HT L1 Hd El Eu (proj1 Hb) (proj2 Hb) He).
  - destruct (InverseTransform_Ok t t' HW H) as (HF & Hrank & Hout & _). pose proof (Forall2_length _ _ _ HF) as L3.
    unfold output_rank, input_rank in *.
    destruct (lookup_lt_is_Some_2 (output_index_maps t') k) as [m' Hm']; [apply lookup_lt_Some in Hd; lia|].
    destruct (Hout k d m' Hd Hm') as [(j & m & Hm & Em & _)|(_ & _ & E & _)]; [|congruence].
    destruct (Forall2_lookup_l _ _ _ _ _ HF Hm) as (d' & Hd' & Hinv). unfold inverse_dimension in Hinv. rewrite Em in Hinv.
    destruct Hinv as (Hs & _ & d2 & Hd2 & Hr & _). rewrite Hd in Hd2. injection Hd2 as <-.
    unfold OI_GetAffineTransformRange in Hr. apply bind_Ok in Hr as (y & Hy & [= Hr]).
    destruct (WellFormed_map t m HW (list_elem_of_lookup_2 _ _ _ Hm)) as [_ (Ho & _)].
    assert (Hs64 : in_i64 (stride m)) by (destruct Hs as [-> | ->]; i64_lia). assert (Hs0 : stride m <> 0) by lia.
    destruct (AffineRange_spec _ _ _ _ HV Ho Hs64 Hs0 Hy) as (HVy & Ey & _).
    assert (Ed' : domain d' = y) by (unfold domain; rewrite <- Hr; destruct (stride m <? 0); reflexivity).
    unfold empty in Ey. rewrite He in Ey. apply Z.eqb_eq in Ey.
    apply (accepted_not_explicitly_empty t' out j d' idx HT); [unfold input_rank; lia|exact Hd'|..].
    + rewrite <- Hr. destruct (stride m <? 0); assumption.
    + rewrite <- Hr. destruct (stride m <? 0); assumption.
    + rewrite Ed'. destruct HVy as [HVy|[_ ->]]; [unfold Valid in HVy; i64_lia|cbn; i64_lia].
    + rewrite Ed'. destruct HVy as [HVy|[_ ->]]; [unfold Valid in HVy; i64_lia|cbn; i64_lia].
    + rewrite Ed'. exact Ey.
Qed.

(** C12: the inverse of a transform undoes it in both directions: on the finite
    indices that the transform accepts, and on the finite indices that the
    inverse accepts.  No dimension of the transform may be both empty and partly implicit:
    [inverse_improper] shows that the inverse can lose indices otherwise. *)
Theorem InverseTransform_correct t t' idx out :
  WellFormed t -> Forall (fun d => proper (optionally_implicit_domain d)) (input_dimensions t) ->
  InverseTransform t = Ok t' ->
  length idx = input_rank t -> length out = output_rank t ->
  Forall (fun i => IsFiniteIndex i = true) idx -> Forall (fun o => IsFiniteIndex o = true) out ->
  (TransformIndices t idx = Ok out <-> TransformIndices t' out = Ok idx).
Proof.
  intros HW Hp H L1 L2 F1 F2.
  destruct (decide (Exists (fun d => size (domain d) = 0) (input_dimensions t))) as [(d & Hin & Hs)%Exists_exists|Hne].
  { apply list_elem_of_lookup in Hin as [k Hd].
    destruct (Forall_lookup_1 _ _ k _ Hp Hd) as [He|[El Eu]]; [unfold empty in He; apply Z.eqb_neq in He; contradiction|].
    destruct (inverse_explicitly_empty t t' k d idx out HW H L1 L2 Hd El Eu Hs). tauto. }
  assert (He : Forall (fun d => empty (domain d) = false) (input_dimensions t)).
  { rewrite <- Forall_Exists_neg in Hne. eapply Forall_impl; [exact Hne|]. intros d Hd. apply Z.eqb_neq, Hd. }
  split; intros HT.
  - exact (inverse_forward t t' HW He H idx out L1 HT F2).
  - exact (inverse_backward t t' HW He H idx out L2 HT F1).
Qed.

(** A transform of rank 2 -> 3 with a singleton input dimension. *)
Definition example_invertible : TransformRep :=
  MkTransform
    [MkDimension (MkOI (MkInterval 7 1) false false) "x"%string;
     MkDimension (MkOI (MkInterval 0 5) false true) "y"%string]
    [MkOutputIndexMap (single_input_dimension 1) 10 (-1); MkOutputIndexMap constant 3 0].

Lemma InverseTransform_correct_witness :
  exists t', InverseTransform example_invertible = Ok t' /\
    TransformIndices t' [8; 3] = Ok [7; 2].
Proof.
  assert (Hok : is_ok (InverseTransform example_invertible) = true) by (vm_compute; reflexivity).
  destruct (InverseTransform example_invertible) as [t'|e] eqn:E; [|discriminate Hok].
  exists t'. split; [reflexivity|].
  apply (InverseTransform_correct example_invertible t' [7; 2] [8; 3]).
  - apply WellFormedb_spec; vm_compute; reflexivity.
  - repeat constructor.
  - exact E.
  - reflexivity.
  - reflexivity.
  - repeat constructor.
  - repeat constructor.
  - vm_compute. reflexivity.
Defined.

(** A reversing transform whose domain is empty, from 0, with an implicit upper bound: it accepts 0,
    but its inverse does not accept the output, since the bounds of an empty interval are not moved
    to the other side. *)
Lemma inverse_improper :
  let t := MkTransform [MkDimension (MkOI (MkInterval 0 0) false true) EmptyString]
    [MkOutputIndexMap (single_input_dimension 0) 0 (-1)] in
  WellFormed t /\ TransformIndices t [0] = Ok [0] /\
  exists t', InverseTransform t = Ok t' /\ TransformIndices t' [0] = Err kOutOfRange.
Proof.
  split; [apply WellFormedb_spec; vm_compute; reflexivity|]. split; [vm_compute; reflexivity|].
  eexists. split; [vm_compute; reflexivity|]. vm_compute. reflexivity.
Qed.
