(* ===== verification/TransformOps.v ===== *)
(** Operations on index transforms that keep the input rank: translation, interval
    and stride slices, labels and implicit bounds
    ([index_space/internal/translate_op.cc], [interval_slice_op.cc],
    [label_op.cc], [mark_explicit_op.cc]). *)

From stdpp Require Import strings.
From S2P Require Import Prelude Int64 IndexInterval Transform.

(** * Definitions *)

(** [IndexVectorOrScalarView]: a vector, or a scalar used for every dimension. *)
Inductive IndexVectorOrScalar :=
| index_vector (v : list Z)
| index_scalar (s : Z).

Definition index_at (v : IndexVectorOrScalar) (i : nat) : Z :=
  match v with index_vector l => l !!! i | index_scalar s => s end.

Definition CheckIndexVectorSize (indices : IndexVectorOrScalar) (n : nat) : Result unit :=
  match indices with
  | index_vector v => if Nat.eqb (length v) n then Ok tt else Err kInvalidArgument
  | index_scalar _ => Ok tt
  end.

(** The pairs [(i, dimensions[i])] in order. *)
Definition numbered (dimensions : list nat) : list (nat * nat) :=
  zip (seq 0 (length dimensions)) dimensions.

Definition set_domain (d : IndexDomainDimension) (i : IndexInterval) : IndexDomainDimension :=
  MkDimension (MkOI i (implicit_lower (optionally_implicit_domain d))
                 (implicit_upper (optionally_implicit_domain d))) (label d).

Definition set_optionally_implicit (d : IndexDomainDimension)
  (oi : OptionallyImplicitIndexInterval) : IndexDomainDimension := MkDimension oi (label d).

(** ** Translation *)

Inductive TranslateOpKind := kTranslateTo | kTranslateBy | kTranslateBackwardBy.

(** The new interval and the offset that is applied to the output index maps. *)
Definition translate_interval (kind : TranslateOpKind) (old_interval : IndexInterval)
  (offset : Z) : Result (IndexInterval * Z) :=
  match kind with
  | kTranslateTo =>
      new_interval ← ShiftIntervalTo old_interval offset;
      Ok (new_interval, (inclusive_min new_interval - inclusive_min old_interval)%i64)
  | kTranslateBackwardBy =>
      let offset := (- offset)%i64 in
      new_interval ← ShiftInterval old_interval offset; Ok (new_interval, offset)
  | kTranslateBy =>
      new_interval ← ShiftInterval old_interval offset; Ok (new_interval, offset)
  end.

(** One iteration over the selected dimensions. *)
Definition translate_step (kind : TranslateOpKind) (offsets : IndexVectorOrScalar)
  (st : list IndexDomainDimension * list Z) (x : nat * nat)
  : Result (list IndexDomainDimension * list Z) :=
  let '(dims, input_offsets) := st in
  let '(i, input_dim) := x in
  let offset := index_at offsets i in
  if offset =? kImplicit then Ok st
  else
    let d := dims !!! input_dim in
    '(new_interval, offset) ← translate_interval kind (domain d) offset;
    Ok (<[input_dim := set_domain d new_interval]> dims, <[input_dim := offset]> input_offsets).

(** One iteration over the output index maps. *)
Definition translate_map (input_offsets : list Z) (map : OutputIndexMap)
  : Result OutputIndexMap :=
  match method map with
  | constant => Ok map
  | single_input_dimension input_dim =>
      let offset_change := input_offsets !!! input_dim in
      let '(overflow1, new_offset) := MulOverflow offset_change (stride map) in
      let '(overflow2, new_offset) := SubOverflow (offset map) new_offset in
      if overflow1 || overflow2 then Err kInvalidArgument
      else Ok (MkOutputIndexMap (method map) new_offset (stride map))
  | array data =>
      Ok (MkOutputIndexMap
            (array (MkIndexArrayData
               (AddByteOffset (element_pointer data)
                  (- IndexInnerProduct (byte_strides data) input_offsets)%i64)
               (index_range data) (byte_strides data)))
            (offset map) (stride map))
  end.

Definition TranslateOutputOffsetsUsingInputOffsets (t : TransformRep) (input_offsets : list Z)
  : Result TransformRep :=
  maps ← mapR (translate_map input_offsets) (output_index_maps t);
  Ok (MkTransform (input_dimensions t) maps).

Definition ApplyTranslate (t : TransformRep) (dimensions : list nat)
  (offsets : IndexVectorOrScalar) (kind : TranslateOpKind) (domain_only : bool)
  : Result TransformRep :=
  _ ← CheckIndexVectorSize offsets (length dimensions);
  let rep := MutableRep t domain_only in
  '(dims, input_offsets) ←
    foldM (translate_step kind offsets)
      (input_dimensions rep, replicate (input_rank rep) 0) (numbered dimensions);
  TranslateOutputOffsetsUsingInputOffsets (MkTransform dims (output_index_maps rep)) input_offsets.

(** ** Interval and stride slices *)

Record InputDimensionIntervalSliceInfo := MkSliceInfo {
  slice_offset : Z;
  slice_stride : Z
}.

#[export] Instance slice_info_inhabited : Inhabited InputDimensionIntervalSliceInfo :=
  populate (MkSliceInfo 0 1).

(** One iteration of [GetIntervalSliceInfo] over the selected dimensions. *)
Definition interval_slice_step (interval_form : IntervalForm) (translate : bool)
  (start_vector stop_or_size_vector stride_vector : IndexVectorOrScalar)
  (st : list IndexDomainDimension * list InputDimensionIntervalSliceInfo) (x : nat * nat)
  : Result (list IndexDomainDimension * list InputDimensionIntervalSliceInfo) :=
  let '(dims, info) := st in
  let '(i, input_dim) := x in
  let stride := index_at stride_vector i in
  let d := dims !!! input_dim in
  '(new_domain, offset) ←
    ComputeStridedSliceMap (optionally_implicit_domain d) interval_form
      (if translate then 0 else kImplicit) (index_at start_vector i)
      (index_at stop_or_size_vector i) stride;
  Ok (<[input_dim := set_optionally_implicit d new_domain]> dims,
      <[input_dim := MkSliceInfo offset stride]> info).

(** [dimension_info] starts at offset 0 and stride 1 for every dimension. *)
Definition GetIntervalSliceInfo (t : TransformRep) (dimensions : list nat)
  (interval_form : IntervalForm) (translate : bool)
  (start_vector stop_or_size_vector stride_vector : IndexVectorOrScalar)
  : Result (list IndexDomainDimension * list InputDimensionIntervalSliceInfo) :=
  foldM
    (interval_slice_step interval_form translate start_vector stop_or_size_vector stride_vector)
    (input_dimensions t, replicate (input_rank t) (MkSliceInfo 0 1)) (numbered dimensions).

(** The loop over the input dimensions of an index array: the byte offset so far,
    and the new byte stride of each dimension. *)
Fixpoint slice_array (byte_offset : Z) (domains : list IndexInterval)
  (info : list InputDimensionIntervalSliceInfo) (strides : list Z) : Z * list Z :=
  match domains, info, strides with
  | x :: domains, s :: info, byte_stride :: strides =>
      let byte_offset := wrap_on_overflow.Add byte_offset
        (wrap_on_overflow.Multiply byte_stride (slice_offset s)) in
      let byte_stride := wrap_on_overflow.Multiply byte_stride (slice_stride s) in
      let '(byte_offset, byte_stride) :=
        if size x =? 1 then
          (wrap_on_overflow.Add byte_offset
             (wrap_on_overflow.Multiply byte_stride (inclusive_min x)), 0)
        else (byte_offset, byte_stride) in
      let '(byte_offset, strides) := slice_array byte_offset domains info strides in
      (byte_offset, byte_stride :: strides)
  | _, _, _ => (byte_offset, [])
  end.

(** One iteration over the output index maps.  [array_is_singleton] holds when every
    new byte stride is zero. *)
Definition slice_map (explicitly_empty : bool) (domains : list IndexInterval)
  (info : list InputDimensionIntervalSliceInfo) (map : OutputIndexMap)
  : Result OutputIndexMap :=
  match method map with
  | constant => Ok map
  | single_input_dimension input_dim =>
      let s := info !!! input_dim in
      let '(overflow1, o) := MulOverflow (slice_offset s) (stride map) in
      let '(overflow2, o) := AddOverflow o (offset map) in
      if overflow1 || overflow2 then Err kInvalidArgument
      else
        let '(overflow3, st) := MulOverflow (slice_stride s) (stride map) in
        if overflow3 then Err kInvalidArgument
        else Ok (MkOutputIndexMap (method map) o st)
  | array data =>
      if explicitly_empty then Ok constant_zero
      else
        let '(byte_offset, strides) := slice_array 0 domains info (byte_strides data) in
        let p := AddByteOffset (element_pointer data) byte_offset in
        if forallb (fun s => s =? 0) strides then
          let index := p (IndexInnerProduct (inclusive_min <$> domains) strides) in
          '(o, s) ← ReplaceZeroRankIndexArrayIndexMap index (index_range data)
                      (offset map) (stride map);
          Ok (MkOutputIndexMap constant o s)
        else
          Ok (MkOutputIndexMap (array (MkIndexArrayData p (index_range data) strides))
                (offset map) (stride map))
  end.

Definition ApplyOffsetsAndStridesToOutputIndexMaps (t : TransformRep)
  (info : list InputDimensionIntervalSliceInfo) : Result TransformRep :=
  maps ← mapR (slice_map (IsDomainExplicitlyEmpty t) (input_domain t) info)
           (output_index_maps t);
  Ok (MkTransform (input_dimensions t) maps).

Definition ApplyIntervalSliceOp (t : TransformRep) (dimensions : list nat)
  (interval_form : IntervalForm) (translate : bool)
  (start_vector stop_or_size_vector stride_vector : IndexVectorOrScalar) (domain_only : bool)
  : Result TransformRep :=
  let num_dims := length dimensions in
  _ ← CheckIndexVectorSize start_vector num_dims;
  _ ← CheckIndexVectorSize stop_or_size_vector num_dims;
  _ ← CheckIndexVectorSize stride_vector num_dims;
  let rep := MutableRep t domain_only in
  '(dims, info) ← GetIntervalSliceInfo rep dimensions interval_form translate
                    start_vector stop_or_size_vector stride_vector;
  ApplyOffsetsAndStridesToOutputIndexMaps (MkTransform dims (output_index_maps rep)) info.

Definition stride_step (strides : IndexVectorOrScalar)
  (st : list IndexDomainDimension * list InputDimensionIntervalSliceInfo) (x : nat * nat)
  : Result (list IndexDomainDimension * list InputDimensionIntervalSliceInfo) :=
  let '(dims, info) := st in
  let '(i, input_dim) := x in
  let stride := index_at strides i in
  if stride =? 0 then Err kInvalidArgument
  else
    let d := dims !!! input_dim in
    new_domain ← OI_GetAffineTransformDomain (optionally_implicit_domain d) 0 stride;
    Ok (<[input_dim := set_optionally_implicit d new_domain]> dims,
        <[input_dim := MkSliceInfo (slice_offset (info !!! input_dim)) stride]> info).

Definition ApplyStrideOp (t : TransformRep) (dimensions : list nat)
  (strides : IndexVectorOrScalar) (domain_only : bool) : Result TransformRep :=
  _ ← CheckIndexVectorSize strides (length dimensions);
  let rep := MutableRep t domain_only in
  '(dims, info) ← foldM (stride_step strides)
    (input_dimensions rep, replicate (input_rank rep) (MkSliceInfo 0 1)) (numbered dimensions);
  ApplyOffsetsAndStridesToOutputIndexMaps (MkTransform dims (output_index_maps rep)) info.

(** ** Labels and implicit bounds *)

Definition set_label (d : IndexDomainDimension) (l : string) : IndexDomainDimension :=
  MkDimension (optionally_implicit_domain d) l.

Definition ApplyLabel (t : TransformRep) (dimensions : list nat) (labels : list string)
  (domain_only : bool) : Result TransformRep :=
  if negb (Nat.eqb (length dimensions) (length labels)) then Err kInvalidArgument
  else
    let rep := MutableRep t domain_only in
    let dims :=
      foldl (fun dims x => <[x.1 := set_label (dims !!! x.1) x.2]> dims)
        (input_dimensions rep) (zip dimensions labels) in
    _ ← ValidateDimensionLabelsAreUnique (label <$> dims);
    Ok (MkTransform dims (output_index_maps rep)).

(** Whether an index array depends on one of the dimensions. *)
Definition indexed_by (dimensions : list nat) (map : OutputIndexMap) : bool :=
  match method map with
  | array data => existsb (fun d => negb (byte_strides data !!! d =? 0)) dimensions
  | _ => false
  end.

Definition ApplyChangeImplicitState (t : TransformRep) (dimensions : list nat)
  (implicit lower upper domain_only : bool) : Result TransformRep :=
  if negb lower && negb upper then Ok t
  else
    let rep := MutableRep t domain_only in
    if implicit && existsb (indexed_by dimensions) (output_index_maps rep)
    then Err kInvalidArgument
    else
      let dims :=
        foldl (fun dims input_dim =>
            let d := dims !!! input_dim in
            <[input_dim := set_implicit d
                (if lower then implicit else implicit_lower (optionally_implicit_domain d))
                (if upper then implicit else implicit_upper (optionally_implicit_domain d))]> dims)
          (input_dimensions rep) dimensions in
      let rep := MkTransform dims (output_index_maps rep) in
      Ok (if negb implicit && IsDomainExplicitlyEmpty rep
          then ReplaceAllIndexArrayMapsWithConstantMaps rep else rep).

(** * Updating the selected dimensions *)

(** A fold over the selected dimensions that replaces the dimension and its
    per-dimension datum, one at a time. *)
Section Update.
Context {A B : Type} `{!Inhabited A, !Inhabited B}.
Variables (step : list A * list B -> nat * nat -> Result (list A * list B))
  (R : nat -> A -> A -> B -> Prop) (b0 : B).
Hypothesis Hstep : forall l m i d s,
  (d < length l)%nat -> length m = length l -> m !!! d = b0 -> step (l, m) (i, d) = Ok s ->
  exists a b, R i (l !!! d) a b /\ s = (<[d := a]> l, <[d := b]> m).

Definition updated (l0 : list A) (pre : list (nat * nat)) (s : list A * list B) : Prop :=
  length s.1 = length l0 /\ length s.2 = length l0 /\
  forall d a0, l0 !! d = Some a0 -> exists a b, (s.1 !! d = Some a) /\ (s.2 !! d = Some b) /\
    (((d ∉ pre.*2) /\ a = a0 /\ b = b0) \/ exists i, (i, d) ∈ pre /\ R i a0 a b).

Lemma updated_step l0 pre i d s s' :
  updated l0 pre s -> d ∉ pre.*2 -> (d < length l0)%nat -> step s (i, d) = Ok s' ->
  updated l0 (pre ++ [(i, d)]) s'.
Proof.
  destruct s as [l m]. intros (H1 & H2 & H3) Hd Hlt H. cbn in H1, H2.
  destruct (lookup_lt_is_Some_2 l0 d Hlt) as [a0 Ha0].
  destruct (H3 d a0 Ha0) as (a & b & Hl & Hm & [(_ & -> & ->)|(j & Hj & _)]); cbn in Hl, Hm;
    [|exfalso; apply Hd, list_elem_of_fmap; exists (j, d); auto].
  apply Hstep in H as (a' & b' & HR & ->);
    [|lia|lia|exact (list_lookup_total_correct _ _ _ Hm)].
  rewrite (list_lookup_total_correct _ _ _ Hl) in HR.
  split; [|split]; cbn; [rewrite length_insert; exact H1|rewrite length_insert; exact H2|].
  intros e a1 Ha1. rewrite fmap_app. cbn. destruct (decide (e = d)) as [->|He].
  - rewrite Ha0 in Ha1. injection Ha1 as <-. exists a', b'.
    rewrite !list_lookup_insert_eq by lia. split; [reflexivity|]. split; [reflexivity|].
    right. exists i. rewrite elem_of_app, list_elem_of_singleton. auto.
  - rewrite !list_lookup_insert_ne by auto.
    destruct (H3 e a1 Ha1) as (a & b & E1 & E2 & [(E3 & -> & ->)|(j & Hj & HRj)]);
      [exists a1, b0|exists a, b]; (split; [exact E1|]; split; [exact E2|]).
    + left. rewrite not_elem_of_app, list_elem_of_singleton. auto.
    + right. exists j. rewrite elem_of_app. auto.
Qed.

Lemma numbered_elem dims i d : (i, d) ∈ numbered dims -> dims !! i = Some d.
Proof.
  unfold numbered. intros [k Hk]%list_elem_of_lookup_1.
  apply lookup_zip_Some in Hk as [H1 H2].
  apply lookup_seq in H1 as [-> _]. exact H2.
Qed.

Lemma numbered_snd dims : (numbered dims).*2 = dims.
Proof. unfold numbered. apply snd_zip. rewrite length_seq. lia. Qed.

Lemma update_dimensions l0 dims s :
  NoDup dims -> Forall (fun d => (d < length l0)%nat) dims ->
  foldM step (l0, replicate (length l0) b0) (numbered dims) = Ok s ->
  length s.1 = length l0 /\ length s.2 = length l0 /\
  forall d a0, l0 !! d = Some a0 -> exists a b, (s.1 !! d = Some a) /\ (s.2 !! d = Some b) /\
    (((d ∉ dims) /\ a = a0 /\ b = b0) \/ exists i, dims !! i = Some d /\ R i a0 a b).
Proof.
  intros Hnd Hlt H.
  assert (Hgen : forall post pre s0, NoDup ((pre ++ post).*2) ->
    Forall (fun p => (p.2 < length l0)%nat) post -> updated l0 pre s0 ->
    foldM step s0 post = Ok s -> updated l0 (pre ++ post) s).
  { induction post as [|[i d] post IH]; intros pre s0 Hn Hl Hu Hs.
    - injection Hs as <-. rewrite app_nil_r. exact Hu.
    - cbn in Hs. apply bind_Ok in Hs as (s1 & Hs1 & Hs). apply Forall_cons in Hl as [Hl1 Hl2].
      replace (pre ++ (i, d) :: post) with ((pre ++ [(i, d)]) ++ post) in *
        by (rewrite <- app_assoc; reflexivity).
      apply (IH _ s1 Hn Hl2); [|exact Hs]. apply (updated_step l0 pre i d s0 s1 Hu);
        [|exact Hl1|exact Hs1].
      rewrite <- app_assoc, fmap_app in Hn. cbn in Hn. apply NoDup_app in Hn as (_ & Hn & _).
      intros Hin. apply (Hn d Hin). left. }
  destruct (Hgen (numbered dims) [] (l0, replicate (length l0) b0)) as (H1 & H2 & H3).
  - cbn. rewrite numbered_snd. exact Hnd.
  - apply Forall_forall. intros [i d] Hin. rewrite Forall_forall in Hlt. apply Hlt.
    apply numbered_elem in Hin. exact (list_elem_of_lookup_2 _ _ _ Hin).
  - split; [reflexivity|]. split; [apply length_replicate|]. intros d a0 Ha0. exists a0, b0.
    split; [exact Ha0|]. split; [|left; split; [apply not_elem_of_nil|auto]].
    apply lookup_replicate_2. exact (lookup_lt_Some _ _ _ Ha0).
  - exact H.
  - split; [exact H1|]. split; [exact H2|]. intros d a0 Ha0.
    destruct (H3 d a0 Ha0) as (a & b & E1 & E2 & E3). exists a, b.
    split; [exact E1|]. split; [exact E2|]. cbn in E3. rewrite numbered_snd in E3.
    destruct E3 as [E3|(i & Hi & HR)]; [left; exact E3|right]. exists i.
    split; [exact (numbered_elem dims i d Hi)|exact HR].
Qed.

End Update.

(** * Translation *)

(** The dimension [old] becomes [new] and the output index maps are moved by [o]. *)
Definition translated (kind : TranslateOpKind) (offsets : IndexVectorOrScalar) (i : nat)
  (old new : IndexDomainDimension) (o : Z) : Prop :=
  let offset := index_at offsets i in
  if offset =? kImplicit then new = old /\ o = 0
  else exists y, translate_interval kind (domain old) offset = Ok (y, o) /\
    new = set_domain old y.

Lemma translate_step_spec kind offsets l m i d s :
  (d < length l)%nat -> length m = length l -> m !!! d = 0 ->
  translate_step kind offsets (l, m) (i, d) = Ok s ->
  exists a b, translated kind offsets i (l !!! d) a b /\ s = (<[d := a]> l, <[d := b]> m).
Proof.
  intros Hd Hl Hm H. unfold translate_step in H. unfold translated.
  destruct (lookup_lt_is_Some_2 l d Hd) as [old Ho].
  destruct (lookup_lt_is_Some_2 m d) as [o0 Ho0]; [lia|].
  rewrite (list_lookup_total_correct _ _ _ Ho) in *.
  rewrite (list_lookup_total_correct _ _ _ Ho0) in Hm. subst o0.
  destruct (index_at offsets i =? kImplicit).
  - injection H as <-. exists old, 0. split; [auto|].
    rewrite !list_insert_id by assumption. reflexivity.
  - apply bind_Ok in H as ([y o] & Hy & [= <-]). exists (set_domain old y), o. eauto.
Qed.

(** Shifting an interval moves the admitted indices along. *)
Lemma shift_admits d o y v :
  Valid (domain d) -> in_i64 o -> ShiftInterval (domain d) o = Ok y ->
  Valid y /\ (admits (optionally_implicit_domain (set_domain d y)) (v + o) <->
              admits (optionally_implicit_domain d) v).
Proof.
  intros HV Ho H. unfold ShiftInterval in H.
  assert (HVy : Valid y) by exact (ShiftInterval_Valid _ _ _ HV Ho H).
  split; [exact HVy|]. destruct (proj2 (ShiftInterval2_spec _ o o y HV Ho Ho) (conj HVy H))
    as [_ [H1 H2]].
  assert (Hlo : above_min y (v + o) <-> above_min (domain d) v).
  { unfold above_min. destruct (Z.eqb_spec (inclusive_min (domain d)) (-kInfIndex)) as [E|E];
      [rewrite H1, E; tauto|]. destruct H1 as [H1 HF%IsFiniteIndex_spec]. i64_lia. }
  assert (Hhi : below_max y (v + o) <-> below_max (domain d) v).
  { unfold below_max. destruct (Z.eqb_spec (inclusive_max (domain d)) kInfIndex) as [E|E];
      [rewrite H2, E; tauto|]. destruct H2 as [H2 HF%IsFiniteIndex_spec]. i64_lia. }
  unfold admits, admits_lower, admits_upper, domain in *. cbn. tauto.
Qed.

Lemma translate_interval_spec kind x offset y o :
  Valid x -> in_i64 offset -> offset <> kImplicit ->
  translate_interval kind x offset = Ok (y, o) ->
  in_i64 o /\ ShiftInterval x o = Ok y /\
  match kind with
  | kTranslateTo => inclusive_min y = offset
  | kTranslateBy => o = offset
  | kTranslateBackwardBy => o = - offset
  end.
Proof.
  intros HV Ho Hni H. destruct kind; cbn [translate_interval] in H;
    apply bind_Ok in H as (z & Hz & [= <- <-]).
  - destruct (ShiftIntervalTo_correct x offset z HV Ho Hz) as (HVz & Hfin & Hmin & _).
    unfold ShiftIntervalTo in Hz. destruct (IsFiniteIndex offset) eqn:Hf; [|discriminate].
    apply IsFiniteIndex_spec in Hf. cbn [negb] in Hz.
    destruct (Z.eqb_spec (inclusive_min x) (-kInfIndex)) as [|_]; [contradiction|].
    assert (Hd : in_i64 (offset - inclusive_min x))
      by (unfold Valid in HV; i64_lia).
    rewrite (SubOverflow_exact _ _ Hd) in Hz. rewrite Hmin, wrap64_id by exact Hd. auto.
  - auto.
  - assert (in_i64 (- offset)) by i64_lia. rewrite (wrap64_id (- offset)) in * by assumption. auto.
Qed.

Lemma translated_admits kind offsets i old new o v :
  Valid (domain old) -> in_i64 (index_at offsets i) -> translated kind offsets i old new o ->
  Valid (domain new) /\ in_i64 o /\
  (admits (optionally_implicit_domain new) (v + o) <-> admits (optionally_implicit_domain old) v).
Proof.
  intros HV Ho H. unfold translated in H.
  destruct (Z.eqb_spec (index_at offsets i) kImplicit) as [|Hni].
  - destruct H as [-> ->]. rewrite Z.add_0_r. split; [exact HV|]. split; [i64_lia|reflexivity].
  - destruct H as (y & Hy & ->).
    destruct (translate_interval_spec _ _ _ _ _ HV Ho Hni Hy) as (Ho' & HS & _).
    destruct (shift_admits old o y v HV Ho' HS) as [HVy Ha]. auto.
Qed.

(** A translated map at a translated index. *)
Lemma translate_map_value rank o m m' idx :
  typed_map rank m -> translate_map o m = Ok m' ->
  length idx = rank -> length o = rank ->
  match method m with single_input_dimension d => (d < rank)%nat | _ => True end ->
  output_index m' (zip_with Z.add idx o) = output_index m idx.
Proof.
  intros (_ & _ & Ht) H Hidx Ho Hd. unfold translate_map in H.
  destruct (method m) as [|d|data] eqn:E.
  - injection H as <-. unfold output_index, base_output_index. rewrite E. reflexivity.
  - destruct (MulOverflow (o !!! d) (stride m)) as [[|] p] eqn:E1;
      [destruct (SubOverflow (offset m) p); discriminate|].
    apply MulOverflow_false in E1 as [-> _].
    destruct (SubOverflow (offset m) (o !!! d * stride m)) as [[|] q] eqn:E2; [discriminate|].
    apply SubOverflow_false in E2 as [-> _]. injection H as <-.
    destruct (lookup_lt_is_Some_2 idx d) as [v Hv]; [lia|].
    destruct (lookup_lt_is_Some_2 o d) as [w Hw]; [lia|].
    unfold output_index, base_output_index. rewrite E. cbn [method stride offset mbind Result_bind].
    rewrite (list_lookup_total_correct _ _ _ Hw), (list_lookup_total_correct idx _ _ Hv),
      (list_lookup_total_correct (zip_with Z.add idx o) d (v + w))
      by (rewrite lookup_zip_with, Hv; cbn; rewrite Hw; reflexivity).
    do 2 f_equal. lia.
  - injection H as <-. destruct Ht as [Hl _]. unfold output_index, base_output_index. rewrite E.
    cbn [method stride offset mbind Result_bind element_pointer byte_strides index_range].
    unfold AddByteOffset. rewrite !IndexInnerProduct_dot.
    rewrite wrap_Add.
    replace (wrap64 (wrap64 (- wrap64 (dot (byte_strides data) o)) +
      wrap64 (dot (zip_with Z.add idx o) (byte_strides data))))
      with (wrap64 (dot idx (byte_strides data))); [reflexivity|].
    apply congr64_wrap_proper. rewrite !congr64_wrap, dot_add, (dot_comm (byte_strides data)) by lia.
    apply congr64_eq. lia.
Qed.

Definition indices_in_i64 (v : IndexVectorOrScalar) : Prop := forall i, in_i64 (index_at v i).

(** The selected dimensions are distinct dimensions of the transform. *)
Definition selects_dims (t : TransformRep) (dims : list nat) : Prop :=
  NoDup dims /\ Forall (fun d => (d < input_rank t)%nat) dims.

(** The domain and the offsets that [ApplyTranslate] computes. *)
Definition translation_of (t : TransformRep) (dims : list nat) (offsets : IndexVectorOrScalar)
  (kind : TranslateOpKind) (t' : TransformRep) (shift : list Z) : Prop :=
  length shift = input_rank t /\ input_rank t' = input_rank t /\
  forall d old, input_dimensions t !! d = Some old -> exists new o,
    input_dimensions t' !! d = Some new /\ shift !! d = Some o /\
    (((d ∉ dims) /\ new = old /\ o = 0) \/
     exists i, dims !! i = Some d /\ translated kind offsets i old new o).

Lemma ApplyTranslate_Ok t dims offsets kind t' :
  selects_dims t dims -> ApplyTranslate t dims offsets kind false = Ok t' ->
  exists shift, translation_of t dims offsets kind t' shift /\
    mapR (translate_map shift) (output_index_maps t) = Ok (output_index_maps t').
Proof.
  intros [Hnd Hlt] H. unfold ApplyTranslate in H.
  apply bind_Ok in H as ([] & _ & H). cbn [MutableRep] in H.
  apply bind_Ok in H as ([l shift] & Hs & H).
  unfold TranslateOutputOffsetsUsingInputOffsets in H.
  apply bind_Ok in H as (maps & Hm & [= <-]). exists shift. split; [|exact Hm].
  destruct (update_dimensions (translate_step kind offsets) (translated kind offsets) 0
    (translate_step_spec kind offsets) (input_dimensions t) dims (l, shift) Hnd Hlt Hs)
    as (H1 & H2 & H3).
  split; [exact H2|]. split; [exact H1|]. exact H3.
Qed.

Lemma translation_dimension t dims offsets kind t' shift :
  valid_dims (input_dimensions t) -> indices_in_i64 offsets ->
  translation_of t dims offsets kind t' shift ->
  forall d old new o v, input_dimensions t !! d = Some old ->
    input_dimensions t' !! d = Some new -> shift !! d = Some o ->
    Valid (domain new) /\
    (admits (optionally_implicit_domain new) (v + o) <->
     admits (optionally_implicit_domain old) v).
Proof.
  intros HV Ho (_ & _ & Hd) d old new o v Hold Hnew Hod.
  destruct (Hd d old Hold) as (new' & o' & E1 & E2 & E3).
  rewrite Hnew in E1. rewrite Hod in E2. injection E1 as <-. injection E2 as <-.
  pose proof (Forall_lookup_1 _ _ _ _ HV Hold) as HVo.
  destruct E3 as [(_ & -> & ->)|(i & Hi & Htr)].
  - rewrite Z.add_0_r. split; [exact HVo|reflexivity].
  - destruct (translated_admits kind offsets i old new o v HVo (Ho i) Htr) as (? & _ & ?). auto.
Qed.

(** Translation moves the domain: the new transform maps [idx + shift] to
    what the old one mapped [idx] to, errors included, where [shift] is what the
    kind of translation asks for in the selected dimensions and zero elsewhere. *)
Theorem ApplyTranslate_correct t dims offsets kind t' :
  WellFormed t -> selects_dims t dims -> indices_in_i64 offsets ->
  ApplyTranslate t dims offsets kind false = Ok t' ->
  exists shift, translation_of t dims offsets kind t' shift /\
    forall idx, length idx = input_rank t ->
      Forall (fun v => IsFiniteIndex v = true) idx ->
      Forall (fun v => IsFiniteIndex v = true) (zip_with Z.add idx shift) ->
      TransformIndices t' (zip_with Z.add idx shift) = TransformIndices t idx.
Proof.
  intros HW Hsel Ho H. destruct (ApplyTranslate_Ok t dims offsets kind t' Hsel H)
    as (shift & Htr & Hm). exists shift. split; [exact Htr|].
  intros idx Hl Hf Hf'. pose proof (WellFormed_valid_dims t HW) as HV.
  pose proof (translation_dimension t dims offsets kind t' shift HV Ho Htr) as Hdim.
  destruct Htr as (L1 & L2 & _). unfold input_rank in *.
  apply TransformIndices_reindex; unfold input_rank; [exact HV| |exact Hl| | |].
  - apply Forall_lookup. intros d new Hnew.
    destruct (lookup_lt_is_Some_2 (input_dimensions t) d) as [old Hold];
      [apply lookup_lt_Some in Hnew; lia|].
    destruct (lookup_lt_is_Some_2 shift d) as [o Hod]; [apply lookup_lt_Some in Hnew; lia|].
    exact (proj1 (Hdim d old new o 0 Hold Hnew Hod)).
  - rewrite length_zip_with. lia.
  - apply in_domain_pointwise; [lia|lia|rewrite length_zip_with; lia|exact Hf|exact Hf'|].
    intros i old new v w Hold Hnew Hv Hw.
    apply lookup_zip_with_Some in Hw as (v' & o & -> & Hv' & Hoi).
    rewrite Hv in Hv'. injection Hv' as <-. exact (proj2 (Hdim i old new o v Hold Hnew Hoi)).
  - intros _. apply mapR_Ok in Hm. apply (Forall2_from _ _ _ _ Hm). intros m m' Hin Hmm.
    apply (translate_map_value (input_rank t) shift m m' idx); try assumption.
    + apply (WellFormed_map t m HW Hin).
    + destruct (method m) as [|d|] eqn:E; try exact I. exact (single_in_range t m d HW Hin E).
Qed.

(** A 2-d transform with an index array. *)
Definition example_transform : TransformRep :=
  MkTransform
    [MkDimension (MkOI (MkInterval 2 4) false false) "x"%string;
     MkDimension (MkOI (MkInterval 0 9) true false) "y"%string]
    [MkOutputIndexMap (single_input_dimension 1) 3 2;
     MkOutputIndexMap (array (MkIndexArrayData (fun z => z) (MkInterval 0 100) [8; 0])) 1 1].

Lemma ApplyTranslate_correct_witness :
  exists t' shift, ApplyTranslate example_transform [1%nat; 0%nat] (index_vector [5; kImplicit])
      kTranslateTo false = Ok t' /\
    TransformIndices t' (zip_with Z.add [3; 4] shift) = Ok [11; 25].
Proof.
  assert (Hok : is_ok (ApplyTranslate example_transform [1%nat; 0%nat]
      (index_vector [5; kImplicit]) kTranslateTo false) = true) by (vm_compute; reflexivity).
  destruct (ApplyTranslate example_transform [1%nat; 0%nat] (index_vector [5; kImplicit])
      kTranslateTo false) as [t'|e] eqn:E; [|discriminate Hok].
  assert (HW : WellFormed example_transform) by (apply WellFormedb_spec; vm_compute; reflexivity).
  assert (Hs : selects_dims example_transform [1%nat; 0%nat])
    by (split; [apply (bool_decide_eq_true_1 _); vm_compute; reflexivity|repeat constructor]).
  assert (Hi : indices_in_i64 (index_vector [5; kImplicit]))
    by (intros [|[|i]]; split; vm_compute; discriminate).
  destruct (ApplyTranslate_correct example_transform [1%nat; 0%nat] (index_vector [5; kImplicit])
    kTranslateTo t' HW Hs Hi E) as (shift & Htr & Hval).
  exists t', shift. split; [reflexivity|].
  rewrite Hval; [vm_compute; reflexivity|reflexivity|repeat constructor|].
  destruct Htr as (_ & _ & Hd).
  destruct (Hd 0%nat _ eq_refl) as (n0 & o0 & _ & Ho0 & [(Hn & _)|(i & Hi0 & H0)]);
    [exfalso; apply Hn, list_elem_of_further, list_elem_of_here|].
  destruct (Hd 1%nat _ eq_refl) as (n1 & o1 & _ & Ho1 & [(Hn & _)|(j & Hj1 & H1)]);
    [exfalso; apply Hn, list_elem_of_here|].
  destruct shift as [|s0 [|s1 shift]]; [discriminate..|].
  injection Ho0 as <-. injection Ho1 as <-.
  destruct i as [|[|i]]; [discriminate| |discriminate].
  destruct j as [|[|j]]; [|discriminate|discriminate].
  destruct H0 as [_ ->]. destruct H1 as (y & Hy & _). vm_compute in Hy. injection Hy as _ <-.
  destruct shift; repeat constructor.
Defined.

(** * Interval and stride slices *)

(** The index of the original transform that a new index stands for. *)
Definition slice_image (info : list InputDimensionIntervalSliceInfo) (idx : list Z) : list Z :=
  zip_with (fun s v => slice_offset s + slice_stride s * v) info idx.

(** The loop over an index array preserves the offset of the element that is read,
    modulo 2^64, where singleton dimensions are read at their only index. *)
Lemma slice_array_spec domains info strides b b' strides' idx :
  length info = length domains -> length strides = length domains ->
  length idx = length domains ->
  (forall i x v, domains !! i = Some x -> idx !! i = Some v -> strides !!! i <> 0 ->
     size x = 1 -> v = inclusive_min x) ->
  slice_array b domains info strides = (b', strides') ->
  length strides' = length domains /\
  congr64 (b' + dot idx strides') (b + dot (slice_image info idx) strides).
Proof.
  revert info strides b strides' idx.
  induction domains as [|x domains IH];
    intros [|s info] [|st strides] b strides' [|v idx] L1 L2 L3 Hs H; try discriminate.
  - injection H as <- <-. split; reflexivity.
  - injection L1 as L1. injection L2 as L2. injection L3 as L3. cbn [slice_array] in H.
    rewrite !wrap_Add, !wrap_Multiply in H.
    set (b1 := wrap64 (b + wrap64 (st * slice_offset s))) in H.
    set (st1 := wrap64 (st * slice_stride s)) in H.
    set (q := if size x =? 1 then _ else _) in H. destruct q as [b2 st2] eqn:Eq.
    destruct (slice_array b2 domains info strides) as [b3 sts] eqn:Er. injection H as <- <-.
    destruct (IH info strides b2 sts idx L1 L2 L3) as [Hl Hc];
      [intros i; exact (Hs (S i))|exact Er|].
    split; [cbn; lia|]. unfold slice_image. cbn [zip_with]. rewrite !dot_cons.
    fold (slice_image info idx).
    transitivity (v * st2 + (b3 + dot idx sts)); [apply congr64_eq; lia|]. rewrite Hc.
    assert (Hq : congr64 (v * st2 + b2) (b + (slice_offset s + slice_stride s * v) * st)).
    { subst q. specialize (Hs 0%nat x v eq_refl eq_refl).
      change ((st :: strides) !!! 0%nat) with st in Hs.
      destruct (Z.eqb_spec (size x) 1) as [E1|E1]; injection Eq as <- <-.
      - subst b1 st1.
        rewrite !congr64_wrap. destruct (Z.eq_dec st 0) as [->|Hst].
        + apply congr64_eq. lia.
        + rewrite (Hs Hst E1). apply congr64_eq. lia.
      - subst b1 st1. rewrite !congr64_wrap. apply congr64_eq. lia. }
    transitivity ((v * st2 + b2) + dot (slice_image info idx) strides); [apply congr64_eq; lia|].
    rewrite Hq. apply congr64_eq. lia.
Qed.

Lemma dot_zero_strides idx strides :
  forallb (fun s => s =? 0) strides = true -> dot idx strides = 0.
Proof.
  revert idx; induction strides as [|s strides IH]; intros [|v idx] H; try reflexivity.
  cbn in H. apply andb_true_iff in H as [Hs%Z.eqb_eq H].
  rewrite dot_cons, Hs, IH by exact H. lia.
Qed.

(** A sliced map at an index is the original map at the image of the index. *)
Lemma slice_map_value rank domains info m m' idx :
  typed_map rank m -> slice_map false domains info m = Ok m' ->
  length domains = rank -> length info = rank -> length idx = rank ->
  match method m with
  | single_input_dimension d => (d < rank)%nat
  | array data => forall i x v, domains !! i = Some x -> idx !! i = Some v ->
      byte_strides data !!! i <> 0 -> size x = 1 -> v = inclusive_min x
  | _ => True
  end ->
  output_index m' idx = output_index m (slice_image info idx).
Proof.
  intros (_ & _ & Ht) H L1 L2 L3 Hd. unfold slice_map in H.
  destruct (method m) as [|d|data] eqn:E.
  - injection H as <-. unfold output_index, base_output_index. rewrite E. reflexivity.
  - destruct (MulOverflow (slice_offset (info !!! d)) (stride m)) as [[|] p] eqn:E1;
      [destruct (AddOverflow p (offset m)); discriminate|].
    apply MulOverflow_false in E1 as [-> _].
    destruct (AddOverflow _ (offset m)) as [[|] q] eqn:E2; [discriminate|].
    apply AddOverflow_false in E2 as [-> _]. cbn [orb] in H.
    destruct (MulOverflow _ _) as [[|] r] eqn:E3; [discriminate|].
    apply MulOverflow_false in E3 as [-> _]. injection H as <-.
    destruct (lookup_lt_is_Some_2 idx d) as [v Hv]; [lia|].
    destruct (lookup_lt_is_Some_2 info d) as [s Hs]; [lia|].
    unfold output_index, base_output_index. rewrite E. cbn [method stride offset mbind Result_bind].
    rewrite (list_lookup_total_correct _ _ _ Hs), (list_lookup_total_correct idx _ _ Hv),
      (list_lookup_total_correct (slice_image info idx) d (slice_offset s + slice_stride s * v))
      by (unfold slice_image; rewrite lookup_zip_with, Hs; cbn; rewrite Hv; reflexivity).
    do 2 f_equal. lia.
  - destruct Ht as [Hl _].
    destruct (slice_array 0 domains info (byte_strides data)) as [b strides] eqn:Er.
    destruct (slice_array_spec domains info (byte_strides data) 0 b strides idx ltac:(lia) ltac:(lia) ltac:(lia) Hd Er)
      as [Hl' Hc].
    assert (Helt : AddByteOffset (element_pointer data) b (IndexInnerProduct idx strides) =
      element_pointer data (IndexInnerProduct (slice_image info idx) (byte_strides data))).
    { unfold AddByteOffset. rewrite !IndexInnerProduct_dot, wrap_Add. f_equal.
      apply congr64_wrap_proper. rewrite congr64_wrap. exact Hc. }
    destruct (forallb (fun s => s =? 0) strides) eqn:Ez.
    + apply bind_Ok in H as ([o s] & Hr & [= <-]).
      rewrite IndexInnerProduct_dot in Hr.
      rewrite (dot_zero_strides _ _ Ez), <- (dot_zero_strides idx _ Ez) in Hr.
      rewrite <- IndexInnerProduct_dot, Helt in Hr.
      apply ReplaceZeroRank_Ok in Hr as (Hin & Ho & H64 & ->).
      rewrite output_constant by exact H64. symmetry.
      rewrite (output_index_base m _ (element_pointer data
        (IndexInnerProduct (slice_image info idx) (byte_strides data)))).
      * unfold affine. rewrite <- Ho, wrap64_id by exact H64. reflexivity.
      * unfold base_output_index. rewrite E. unfold CheckContains. rewrite Hin. reflexivity.
    + injection H as <-. unfold output_index, base_output_index. rewrite E.
      cbn [method stride offset element_pointer byte_strides index_range]. rewrite Helt. reflexivity.
Qed.

(** The transform that a slice with this information produces. *)
Lemma slice_eval t dims info t' idx :
  WellFormed t -> length dims = input_rank t -> length info = input_rank t ->
  valid_dims dims ->
  (forall i old new, input_dimensions t !! i = Some old -> dims !! i = Some new ->
     implicit_lower (optionally_implicit_domain old) = false ->
     implicit_upper (optionally_implicit_domain old) = false ->
     implicit_lower (optionally_implicit_domain new) = false /\
     implicit_upper (optionally_implicit_domain new) = false) ->
  ApplyOffsetsAndStridesToOutputIndexMaps (MkTransform dims (output_index_maps t)) info = Ok t' ->
  in_domain dims idx ->
  Forall2 (fun m m' => output_index m' idx = output_index m (slice_image info idx))
    (output_index_maps t) (output_index_maps t') /\ input_dimensions t' = dims.
Proof.
  intros HW L1 L2 HV Himp H Hin. unfold ApplyOffsetsAndStridesToOutputIndexMaps in H.
  apply bind_Ok in H as (maps & Hm & [= <-]).
  rewrite (in_domain_not_explicitly_empty _ idx) in Hm by assumption.
  split; [|reflexivity]. cbn [output_index_maps] in *. apply mapR_Ok in Hm.
  apply (Forall2_from _ _ _ _ Hm). intros m m' Hmem Hmm.
  pose proof (Forall2_length _ _ _ Hin) as L3.
  apply (slice_map_value (input_rank t) _ _ _ _ _ (proj2 (WellFormed_map t m HW Hmem)) Hmm);
    [unfold input_domain; cbn; rewrite length_fmap; exact L1|exact L2|lia|].
  destruct (method m) as [|d|data] eqn:E; [exact I|exact (single_in_range t m d HW Hmem E)|].
  intros i x v Hx Hv Hs Hsz. unfold input_domain in Hx. cbn [input_dimensions] in Hx.
  apply list_lookup_fmap_Some in Hx as (new & -> & Hnew).
  destruct (WellFormed_array t m data i HW Hmem E Hs) as (old & Hold & El & Eu & _).
  destruct (Himp i old new Hold Hnew El Eu) as [El' Eu'].
  apply (proj1 (explicit_singleton new v (Forall_lookup_1 _ _ _ _ HV Hnew) El' Eu' Hsz)).
  exact (proj2 (Forall2_lookup_lr _ _ _ _ _ _ Hin Hnew Hv)).
Qed.

(** In a non-empty interval, a value on the right side of one bound can be replaced
    by a member that is further from the other bound's side. *)
Lemma within_below x v :
  Valid x -> empty x = false -> above_min x v -> exists w, w <= v /\ within x w.
Proof.
  intros HV. unfold above_min, within. bounds_of HV lo hi. intros He H.
  exists (Z.min v lo). lia.
Qed.

Lemma within_above x v :
  Valid x -> empty x = false -> below_max x v -> exists w, v <= w /\ within x w.
Proof.
  intros HV. unfold below_max, within. bounds_of HV lo hi. intros He H.
  exists (Z.max v hi). lia.
Qed.

Lemma admits_lower_mono d v w : v <= w -> admits_lower d v -> admits_lower d w.
Proof. unfold admits_lower, above_min. intros H [?|?]; [auto|right; lia]. Qed.

Lemma admits_upper_mono d v w : w <= v -> admits_upper d v -> admits_upper d w.
Proof. unfold admits_upper, below_max. intros H [?|?]; [auto|right; lia]. Qed.

(** Every index that the new domain admits, implicit bounds included, stands for an
    index that the original domain admits. *)
Lemma slice_admits orig form origin start stop_or_size stride dom offset v :
  Valid (interval orig) -> in_i64 origin -> in_i64 start -> in_i64 stop_or_size ->
  in_i64 stride ->
  ComputeStridedSliceMap orig form origin start stop_or_size stride = Ok (dom, offset) ->
  proper dom -> admits dom v -> admits orig (offset + stride * v).
Proof.
  intros HV H0 H1 H2 H3 H Hp [Hlo Hhi].
  destruct (ComputeStridedSliceMap_spec _ _ _ _ _ _ _ _ HV H0 H1 H2 H3 H)
    as (_ & _ & _ & _ & _ & _ & HVd & _ & _ & Hw).
  destruct (ComputeStridedSliceMap_implicit _ _ _ _ _ _ _ _ H) as (Hs0 & Hil & Hiu).
  assert (Hin : forall w, within (interval dom) w -> admits orig (offset + stride * w))
    by (intros w Hw'; apply admits_within; [exact HV|exact (Hw w Hw')]).
  unfold admits_lower, admits_upper in Hlo, Hhi.
  destruct Hp as [He|[El Eu]];
    [|rewrite El in Hlo; rewrite Eu in Hhi;
      destruct Hlo as [[=]|Hlo], Hhi as [[=]|Hhi]; apply Hin; split; assumption].
  assert (Hl : implicit_lower dom = true \/ exists w, w <= v /\ within (interval dom) w)
    by (destruct Hlo; [auto|right; apply within_below; assumption]).
  assert (Hu : implicit_upper dom = true \/ exists w, v <= w /\ within (interval dom) w)
    by (destruct Hhi; [auto|right; apply within_above; assumption]).
  clear Hlo Hhi. destruct (Z.gtb_spec stride 0) as [Hs|Hs]; split.
  - destruct Hl as [Hl|(w & Hwv & Hw')]; [left; exact (Hil Hl)|].
    apply (admits_lower_mono _ (offset + stride * w)); [nia|apply Hin, Hw'].
  - destruct Hu as [Hu|(w & Hwv & Hw')]; [left; exact (Hiu Hu)|].
    apply (admits_upper_mono _ (offset + stride * w)); [nia|apply Hin, Hw'].
  - destruct Hu as [Hu|(w & Hwv & Hw')]; [left; exact (Hiu Hu)|].
    apply (admits_lower_mono _ (offset + stride * w)); [nia|apply Hin, Hw'].
  - destruct Hl as [Hl|(w & Hwv & Hw')]; [left; exact (Hil Hl)|].
    apply (admits_upper_mono _ (offset + stride * w)); [nia|apply Hin, Hw'].
Qed.

(** What a strided slice of a domain is, by its definition: the first position and the last one
    that may be selected. *)
Definition slice_first (orig : IndexInterval) (start stride : Z) : Z :=
  if start =? kImplicit then if stride >? 0 then inclusive_min orig else inclusive_max orig else start.

Definition slice_last (orig : IndexInterval) (form : IntervalForm) (start stop_or_size stride : Z) : Z :=
  if stop_or_size =? kImplicit then if stride >? 0 then inclusive_max orig else inclusive_min orig
  else
    match form with
    | closed => stop_or_size
    | half_open => if IsFiniteIndex stop_or_size then stop_or_size - Z.sgn stride else stop_or_size
    | sized =>
        if stop_or_size =? 0 then slice_first orig start stride - Z.sgn stride
        else slice_first orig start stride + stride * (stop_or_size - 1)
    end.

(** A slice of the dimension [old]: the new dimension starts at 0 if it is translated, and at the first
    position divided by the stride otherwise; its start stands for the first position; its indices stand for the
    positions of the slice, which are in the domain of [old]; a bound is implicit only if the bound of [old] that it
    comes from is. *)
Record slice_result (form : IntervalForm) (translate : bool) (start stop_or_size stride : Z)
    (old new : IndexDomainDimension) (s : InputDimensionIntervalSliceInfo) : Prop := {
  sr_stride : slice_stride s = stride /\ stride <> 0;
  sr_label : label new = label old;
  sr_valid : Valid (domain new);
  sr_origin : inclusive_min (domain new) =
    if translate then 0 else Z.quot (slice_first (domain old) start stride) stride;
  sr_offset : slice_offset s = slice_first (domain old) start stride - stride * inclusive_min (domain new);
  sr_positions : forall j, within (domain new) j <->
    selects (slice_first (domain old) start stride) (slice_last (domain old) form start stop_or_size stride) stride
      (slice_offset s + stride * j);
  sr_inside : forall j, within (domain new) j ->
    within (effective_interval (optionally_implicit_domain old)) (slice_offset s + stride * j);
  sr_implicit :
    (implicit_lower (optionally_implicit_domain new) = true ->
     (if stride >? 0 then implicit_lower (optionally_implicit_domain old)
      else implicit_upper (optionally_implicit_domain old)) = true) /\
    (implicit_upper (optionally_implicit_domain new) = true ->
     (if stride >? 0 then implicit_upper (optionally_implicit_domain old)
      else implicit_lower (optionally_implicit_domain old)) = true)
}.

Lemma SliceStop_last x form start st stride stop e :
  in_i64 st -> -kInfIndex <= slice_first x start stride <= kInfIndex -> stride <> 0 ->
  SliceStop x form (slice_first x start stride) st stride = Ok (stop, e) -> stop = slice_last x form start st stride.
Proof.
  intros Hst Hs H0. unfold SliceStop, slice_last. set (s := slice_first x start stride) in *.
  assert (Hb : step_back stride = - Z.sgn stride) by (unfold step_back; destruct (Z.gtb_spec stride 0); lia).
  destruct (st =? kImplicit); [congruence|]. destruct form.
  - destruct (Z.ltb_spec st 0); [discriminate|]. destruct (Z.eqb_spec st 0).
    + intros [= <- _]. rewrite Hb, wrap64_id by i64_lia. lia.
    + destruct (MulOverflow _ _) as [[|] m] eqn:Em; [destruct (AddOverflow s m) as [o2 r]; discriminate|].
      apply MulOverflow_false in Em as [-> _]. rewrite (wrap64_id (st - 1)) by i64_lia.
      destruct (AddOverflow s _) as [[|] r] eqn:Er; [discriminate|]. apply AddOverflow_false in Er as [-> _].
      intros [= <- _]. lia.
  - congruence.
  - destruct (IsFiniteIndex st) eqn:Ef; cbn [negb]; [|congruence]. apply IsFiniteIndex_spec in Ef.
    intros [= <- _]. rewrite Hb, wrap64_id by i64_lia. lia.
Qed.

Lemma ComputeStridedSliceMap_offset orig form origin start stop_or_size stride dom offset :
  ComputeStridedSliceMap orig form origin start stop_or_size stride = Ok (dom, offset) ->
  exists new s, ExtractStridedSlice orig form start stop_or_size stride = Ok (new, s) /\
    offset = s - stride * inclusive_min (interval dom).
Proof.
  unfold ComputeStridedSliceMap. intros ([new s] & Hn & (dom' & _ & H)%bind_Ok)%bind_Ok. exists new, s. split; [exact Hn|].
  destruct (MulOverflow _ _) as [[|] m] eqn:Em; [destruct (SubOverflow _ _) as [[|] ?]; discriminate|].
  apply MulOverflow_false in Em as [-> _].
  destruct (SubOverflow _ _) as [[|] off] eqn:Eo; [discriminate|].
  apply SubOverflow_false in Eo as [-> _]. injection H as -> <-. lia.
Qed.

Lemma slice_result_spec form (tr : bool) start stop_or_size stride old dom offset :
  Valid (domain old) -> in_i64 start -> in_i64 stop_or_size -> in_i64 stride ->
  ComputeStridedSliceMap (optionally_implicit_domain old) form (if tr then 0 else kImplicit) start stop_or_size stride =
    Ok (dom, offset) ->
  slice_result form tr start stop_or_size stride old (MkDimension dom (label old)) (MkSliceInfo offset stride).
Proof.
  intros HV H1 H2 H3 H. assert (H0 : in_i64 (if tr then 0 else kImplicit)) by (destruct tr; i64_lia).
  destruct (ComputeStridedSliceMap_spec _ _ _ _ _ _ _ _ HV H0 H1 H2 H3 H)
    as (new & s & stop & e & Hnew & Hstop & HVd & Hmin & Hw & Hin).
  destruct (ComputeStridedSliceMap_implicit _ _ _ _ _ _ _ _ H) as (Hs0 & Himp).
  destruct (ComputeStridedSliceMap_offset _ _ _ _ _ _ _ _ H) as (new' & s' & Hnew' & Hoff).
  rewrite Hnew in Hnew'. injection Hnew' as <- <-.
  destruct (ExtractStridedSlice_checked _ _ _ _ _ _ _ HV H1 H2 H3 Hnew) as (Es & stop' & e' & lo & hi & Hstop' & Hc).
  rewrite Hstop in Hstop'. injection Hstop' as <- <-.
  change (s = slice_first (domain old) start stride) in Es. subst s.
  assert (Hs : -kInfIndex <= slice_first (domain old) start stride <= kInfIndex).
  { destruct Hc as [_ Hb Hcl _ _ _]. destruct (stride >? 0); injection Hb as -> ->; lia. }
  apply SliceStop_last in Hstop; [|assumption..]. subst stop.
  split; unfold domain; cbn [slice_stride slice_offset label optionally_implicit_domain]; auto.
  rewrite Hmin. destruct tr; reflexivity.
Qed.

(** What the loop computes for one selected dimension. *)
Definition sliced (form : IntervalForm) (translate : bool)
  (start_vector stop_or_size_vector stride_vector : IndexVectorOrScalar) (i : nat)
  (old new : IndexDomainDimension) (s : InputDimensionIntervalSliceInfo) : Prop :=
  slice_stride s = index_at stride_vector i /\ label new = label old /\
  ComputeStridedSliceMap (optionally_implicit_domain old) form
    (if translate then 0 else kImplicit) (index_at start_vector i)
    (index_at stop_or_size_vector i) (slice_stride s) =
      Ok (optionally_implicit_domain new, slice_offset s).

Lemma interval_slice_step_spec form tr start stop strides l m i d s :
  (d < length l)%nat -> length m = length l -> m !!! d = MkSliceInfo 0 1 ->
  interval_slice_step form tr start stop strides (l, m) (i, d) = Ok s ->
  exists a b, sliced form tr start stop strides i (l !!! d) a b /\
    s = (<[d := a]> l, <[d := b]> m).
Proof.
  intros _ _ _ H. unfold interval_slice_step in H.
  apply bind_Ok in H as ([dom off] & Hc & [= <-]).
  exists (set_optionally_implicit (l !!! d) dom), (MkSliceInfo off (index_at strides i)).
  unfold sliced. auto.
Qed.

(** The dimensions and the slice information of a sliced transform, where [R] says
    what happens to a selected dimension. *)
Definition slice_of (R : nat -> IndexDomainDimension -> IndexDomainDimension ->
    InputDimensionIntervalSliceInfo -> Prop) (t : TransformRep) (dims : list nat)
  (new_dims : list IndexDomainDimension) (info : list InputDimensionIntervalSliceInfo) : Prop :=
  length new_dims = input_rank t /\ length info = input_rank t /\
  forall d old, input_dimensions t !! d = Some old -> exists new s,
    (new_dims !! d = Some new) /\ (info !! d = Some s) /\
    (((d ∉ dims) /\ new = old /\ s = MkSliceInfo 0 1) \/
     exists i, dims !! i = Some d /\ R i old new s).

(** A slice whose dimensions are described by [R] evaluates as the original. *)
Lemma slice_of_eval R t dims new_dims info t' :
  WellFormed t -> slice_of R t dims new_dims info ->
  (forall i old new s, old ∈ input_dimensions t -> R i old new s ->
     Valid (domain new) /\
     (implicit_lower (optionally_implicit_domain old) = false ->
      implicit_upper (optionally_implicit_domain old) = false ->
      implicit_lower (optionally_implicit_domain new) = false /\
      implicit_upper (optionally_implicit_domain new) = false)) ->
  ApplyOffsetsAndStridesToOutputIndexMaps (MkTransform new_dims (output_index_maps t)) info = Ok t' ->
  input_dimensions t' = new_dims /\ valid_dims new_dims /\
  forall idx, length idx = input_rank t ->
    (in_domain new_dims idx <-> in_domain (input_dimensions t) (slice_image info idx)) ->
    TransformIndices t' idx = TransformIndices t (slice_image info idx).
Proof.
  intros HW (L1 & L2 & Hd) HR H. pose proof (WellFormed_valid_dims t HW) as HV.
  assert (Hpt : forall i old new, input_dimensions t !! i = Some old ->
    new_dims !! i = Some new -> Valid (domain new) /\
     (implicit_lower (optionally_implicit_domain old) = false ->
      implicit_upper (optionally_implicit_domain old) = false ->
      implicit_lower (optionally_implicit_domain new) = false /\
      implicit_upper (optionally_implicit_domain new) = false)).
  { intros i old new Hold Hnew. destruct (Hd i old Hold) as (new' & s & E1 & _ & E3).
    rewrite Hnew in E1. injection E1 as <-.
    pose proof (Forall_lookup_1 _ _ _ _ HV Hold) as HVo.
    destruct E3 as [(_ & -> & _)|(j & _ & Hr)];
      [auto|exact (HR j old new s (list_elem_of_lookup_2 _ _ _ Hold) Hr)]. }
  assert (HV' : valid_dims new_dims).
  { apply Forall_lookup. intros d new Hnew.
    destruct (lookup_lt_is_Some_2 (input_dimensions t) d) as [old Hold];
      [apply lookup_lt_Some in Hnew; unfold input_rank in *; lia|].
    exact (proj1 (Hpt d old new Hold Hnew)). }
  assert (Hdims : input_dimensions t' = new_dims).
  { unfold ApplyOffsetsAndStridesToOutputIndexMaps in H.
    apply bind_Ok in H as (maps & _ & [= <-]). reflexivity. }
  split; [exact Hdims|split; [exact HV'|]]. intros idx Hl Hiff.
  apply TransformIndices_reindex; rewrite ?Hdims; try assumption.
  - unfold slice_image. rewrite length_zip_with. unfold input_rank in *. lia.
  - unfold input_rank in *. rewrite Hdims. lia.
  - intros Hin%Hiff. apply (slice_eval t new_dims info t' idx HW L1 L2 HV'
      (fun i old new H1 H2 => proj2 (Hpt i old new H1 H2)) H Hin).
Qed.

Lemma slice_image_lookup info idx i p :
  slice_image info idx !! i = Some p ->
  exists s v, info !! i = Some s /\ idx !! i = Some v /\ p = slice_offset s + slice_stride s * v.
Proof.
  unfold slice_image. intros H. apply lookup_zip_with_Some in H as (s & v & -> & Hs & Hv). eauto.
Qed.

(** An index of the new domain stands for an index of the original domain if that
    holds in each selected dimension. *)
Lemma slice_of_image R t dims new_dims info idx :
  WellFormed t -> slice_of R t dims new_dims info ->
  (forall i d old new s v, Valid (domain old) -> dims !! i = Some d -> new_dims !! d = Some new -> R i old new s ->
     admits (optionally_implicit_domain new) v ->
     admits (optionally_implicit_domain old) (slice_offset s + slice_stride s * v)) ->
  in_domain new_dims idx -> Forall (fun v => IsFiniteIndex v = true) (slice_image info idx) ->
  in_domain (input_dimensions t) (slice_image info idx).
Proof.
  intros HW (L1 & L2 & Hd) HR Hin Hfin. pose proof (Forall2_length _ _ _ Hin) as Ll.
  apply in_domain_alt. split.
  { unfold slice_image. rewrite length_zip_with. unfold input_rank in *. lia. }
  intros i old p Hold Hpi. split; [exact (Forall_lookup_1 _ _ _ _ Hfin Hpi)|].
  apply slice_image_lookup in Hpi as (s & v & Hsi & Hv & ->).
  destruct (Hd i old Hold) as (new & s' & Hn & Hs' & E). rewrite Hsi in Hs'. injection Hs' as <-.
  pose proof (proj2 (Forall2_lookup_lr _ _ _ _ _ _ Hin Hn Hv)) as Hadm.
  destruct E as [(_ & -> & ->)|(j & Hj & Hr)].
  - cbn [slice_offset slice_stride]. rewrite Z.mul_1_l. exact Hadm.
  - exact (HR j i old new s v (Forall_lookup_1 _ _ _ _ (WellFormed_valid_dims t HW) Hold) Hj Hn Hr Hadm).
Qed.

(** Slices described by one relation are described by a weaker one. *)
Lemma slice_of_weaken (R R' : nat -> IndexDomainDimension -> IndexDomainDimension -> InputDimensionIntervalSliceInfo -> Prop)
    t dims new_dims info :
  (forall i old new s, old ∈ input_dimensions t -> R i old new s -> R' i old new s) ->
  slice_of R t dims new_dims info -> slice_of R' t dims new_dims info.
Proof.
  intros HR (L1 & L2 & Hd). split; [exact L1|]. split; [exact L2|]. intros d old Hold.
  destruct (Hd d old Hold) as (new & s & Hn & Hs & [H|(i & Hi & Hr)]); exists new, s; (split; [exact Hn|]; split; [exact Hs|]).
  - left. exact H.
  - right. exists i. split; [exact Hi|]. exact (HR i old new s (list_elem_of_lookup_2 _ _ _ Hold) Hr).
Qed.

(** C29: an interval slice restricts and rescales the domain.  Every selected dimension becomes the
    slice that is asked for: its indices stand for the positions from the start, in steps of the stride, up to
    the stop, or as many as the size says, all of them in the original domain; the other dimensions stay.  At every index of
    the new domain, beyond its implicit bounds as well, for which [offset + stride * index] is finite, the
    new transform evaluates as the original one does at [offset + stride * index], an index of its domain.  This is for slices whose
    selected dimensions are not both empty and partly implicit; the other dimensions may be. *)
Theorem ApplyIntervalSliceOp_correct t dims form tr start stop strides t' :
  WellFormed t -> selects_dims t dims ->
  indices_in_i64 start -> indices_in_i64 stop -> indices_in_i64 strides ->
  ApplyIntervalSliceOp t dims form tr start stop strides false = Ok t' ->
  (forall d new, d ∈ dims -> input_dimensions t' !! d = Some new -> proper (optionally_implicit_domain new)) ->
  exists info,
    slice_of (fun i => slice_result form tr (index_at start i) (index_at stop i) (index_at strides i))
      t dims (input_dimensions t') info /\
    forall idx, in_domain (input_dimensions t') idx ->
      Forall (fun v => IsFiniteIndex v = true) (slice_image info idx) ->
      in_domain (input_dimensions t) (slice_image info idx) /\
      TransformIndices t' idx = TransformIndices t (slice_image info idx).
Proof.
  intros HW [Hnd Hlt] H1 H2 H3 H Hp. unfold ApplyIntervalSliceOp in H.
  apply bind_Ok in H as ([] & _ & ([] & _ & ([] & _ & ([nd info] & Hs & H)%bind_Ok)%bind_Ok)%bind_Ok).
  cbn [MutableRep] in *. unfold GetIntervalSliceInfo in Hs.
  assert (Hof : slice_of (sliced form tr start stop strides) t dims nd info)
    by exact (update_dimensions _ _ _ (interval_slice_step_spec form tr start stop strides)
                _ dims (nd, info) Hnd Hlt Hs).
  assert (H0 : in_i64 (if tr then 0 else kImplicit)) by (destruct tr; i64_lia).
  destruct (slice_of_eval (sliced form tr start stop strides) t dims nd info t' HW Hof)
    as (Hdims & HVn & Heval); [|exact H|].
  { intros i old new s HVo%(proj1 (Forall_forall _ _) (WellFormed_valid_dims t HW)) (E1 & _ & Hc).
    rewrite E1 in Hc.
    destruct (ComputeStridedSliceMap_spec _ _ _ _ _ _ _ _ HVo H0 (H1 i) (H2 i) (H3 i) Hc)
      as (_ & _ & _ & _ & _ & _ & HVd & _).
    destruct (ComputeStridedSliceMap_implicit _ _ _ _ _ _ _ _ Hc) as (_ & Hil & Hiu).
    split; [exact HVd|]. intros El Eu. rewrite El, Eu in *.
    destruct (_ >? _); split; apply not_true_is_false; intros E;
      first [apply Hil in E|apply Hiu in E]; discriminate. }
  rewrite Hdims in *. exists info. split.
  { revert Hof. apply slice_of_weaken.
    intros i old [dom lab] [off str] HVo%(proj1 (Forall_forall _ _) (WellFormed_valid_dims t HW)) (E1 & E2 & Hc).
    cbn in E1, E2, Hc. subst lab str. exact (slice_result_spec form tr _ _ _ old dom off HVo (H1 i) (H2 i) (H3 i) Hc). }
  intros idx Hin Hfin.
  assert (Hin' : in_domain (input_dimensions t) (slice_image info idx)).
  { apply (slice_of_image (sliced form tr start stop strides) t dims nd info idx HW Hof);
      [|exact Hin|exact Hfin].
    intros j d old new s v HVo Hj Hn (E1 & _ & Hc) Hadm. rewrite E1 in *.
    refine (slice_admits _ _ _ _ _ _ _ _ v HVo H0 (H1 j) (H2 j) (H3 j) Hc _ Hadm).
    exact (Hp d new (list_elem_of_lookup_2 _ _ _ Hj) Hn). }
  split; [exact Hin'|]. apply Heval; [|tauto].
  rewrite <- (Forall2_length _ _ _ Hin). apply Hof.
Qed.

(** What [ApplyStrideOp] computes for one selected dimension. *)
Definition strided (strides : IndexVectorOrScalar) (i : nat) (old new : IndexDomainDimension)
  (s : InputDimensionIntervalSliceInfo) : Prop :=
  slice_offset s = 0 /\ slice_stride s = index_at strides i /\ slice_stride s <> 0 /\
  label new = label old /\
  OI_GetAffineTransformDomain (optionally_implicit_domain old) 0 (slice_stride s) =
    Ok (optionally_implicit_domain new).

Lemma stride_step_spec strides l m i d s :
  (d < length l)%nat -> length m = length l -> m !!! d = MkSliceInfo 0 1 ->
  stride_step strides (l, m) (i, d) = Ok s ->
  exists a b, strided strides i (l !!! d) a b /\ s = (<[d := a]> l, <[d := b]> m).
Proof.
  intros _ _ Hm H. unfold stride_step in H.
  destruct (Z.eqb_spec (index_at strides i) 0) as [|H0]; [discriminate|].
  apply bind_Ok in H as (dom & Hc & [= <-]). rewrite Hm.
  exists (set_optionally_implicit (l !!! d) dom), (MkSliceInfo 0 (index_at strides i)).
  split; [|reflexivity]. unfold strided. cbn [slice_offset slice_stride]. auto 6.
Qed.

Lemma strided_admits strides i old new s v :
  Valid (domain old) -> empty (domain old) = false -> in_i64 (slice_stride s) ->
  strided strides i old new s ->
  Valid (domain new) /\
  (admits (optionally_implicit_domain new) v <->
   admits (optionally_implicit_domain old) (slice_offset s + slice_stride s * v)).
Proof.
  intros HV He Hs (E0 & _ & Hs0 & _ & H). rewrite E0. unfold OI_GetAffineTransformDomain in H.
  apply bind_Ok in H as (y & Hy & [= H]).
  apply AffineDomain_sides in Hy as (HVy & Hlo & Hhi); [|try assumption; i64_lia..].
  specialize (Hlo v). specialize (Hhi v).
  unfold domain, admits, admits_lower, admits_upper in *. rewrite <- H.
  destruct (_ <? 0); cbn [interval implicit_lower implicit_upper]; split; tauto.
Qed.

(** A stride operation makes every [stride]-th index of the original domain
    accessible: the new transform evaluates at [idx] as the original one at
    [stride * idx] in the selected dimensions, errors included. *)
Theorem ApplyStrideOp_correct t dims strides t' :
  WellFormed t -> selects_dims t dims -> indices_in_i64 strides ->
  Forall (fun d => empty (domain d) = false) (input_dimensions t) ->
  ApplyStrideOp t dims strides false = Ok t' ->
  exists info, slice_of (strided strides) t dims (input_dimensions t') info /\
    forall idx, length idx = input_rank t ->
      Forall (fun v => IsFiniteIndex v = true) idx ->
      Forall (fun v => IsFiniteIndex v = true) (slice_image info idx) ->
      TransformIndices t' idx = TransformIndices t (slice_image info idx).
Proof.
  intros HW [Hnd Hlt] H3 Hne H. unfold ApplyStrideOp in H.
  apply bind_Ok in H as ([] & _ & ([nd info] & Hs & H)%bind_Ok). cbn [MutableRep] in *.
  assert (Hof : slice_of (strided strides) t dims nd info)
    by exact (update_dimensions _ _ _ (stride_step_spec strides) _ dims (nd, info) Hnd Hlt Hs).
  assert (Hadm : forall i old new s v, old ∈ input_dimensions t -> strided strides i old new s ->
    Valid (domain new) /\
    (admits (optionally_implicit_domain new) v <->
     admits (optionally_implicit_domain old) (slice_offset s + slice_stride s * v))).
  { intros i old new s v Hold Hr. rewrite Forall_forall in Hne.
    apply (strided_admits strides i);
      [exact (proj1 (Forall_forall _ _) (WellFormed_valid_dims t HW) old Hold)
      |exact (Hne old Hold)|destruct Hr as (_ & -> & _); apply H3|exact Hr]. }
  destruct (slice_of_eval (strided strides) t dims nd info t' HW Hof)
    as (Hdims & HVn & Heval); [|exact H|].
  { intros i old new s Hold Hr. split; [exact (proj1 (Hadm i old new s 0 Hold Hr))|].
    destruct Hr as (_ & _ & _ & _ & (y & _ & [= <-])%bind_Ok). intros El Eu.
    destruct (_ <? 0); auto. }
  rewrite Hdims. exists info. split; [exact Hof|]. intros idx Hl Hf Hf'. apply Heval; [exact Hl|].
  destruct Hof as (L1 & L2 & Hd). unfold input_rank in *.
  apply in_domain_pointwise; [lia|unfold slice_image; rewrite length_zip_with; lia|lia
    |exact Hf'|exact Hf|].
  intros i old new p v Hold Hnew Hp Hv. destruct (Hd i old Hold) as (new' & s & Hn & Hsi & E).
  rewrite Hnew in Hn. injection Hn as <-. apply slice_image_lookup in Hp as (s' & v' & E1 & E2 & ->).
  rewrite Hsi in E1. rewrite Hv in E2. injection E1 as <-. injection E2 as <-.
  destruct E as [(_ & -> & ->)|(j & _ & Hr)].
  - cbn [slice_offset slice_stride]. rewrite Z.mul_1_l. reflexivity.
  - apply (Hadm j old new s v (list_elem_of_lookup_2 _ _ _ Hold) Hr).
Qed.

(** A 1-d transform with an index array, for the slices. *)
Definition example_line : TransformRep :=
  MkTransform [MkDimension (MkOI (MkInterval 2 6) false false) "x"%string]
    [MkOutputIndexMap (single_input_dimension 0) 3 2;
     MkOutputIndexMap (array (MkIndexArrayData (fun z => z) (MkInterval 0 100) [8])) 1 1].

Lemma example_line_wf : WellFormed example_line.
Proof. apply WellFormedb_spec; vm_compute; reflexivity. Qed.

Lemma example_line_selects : selects_dims example_line [0%nat].
Proof. split; [apply (bool_decide_eq_true_1 _); vm_compute; reflexivity|repeat constructor]. Qed.

Lemma scalar_in_i64 s : in_i64b s = true -> indices_in_i64 (index_scalar s).
Proof. intros H i. apply in_i64b_spec, H. Qed.

Lemma ApplyIntervalSliceOp_correct_witness :
  exists t' info, ApplyIntervalSliceOp example_line [0%nat] half_open true (index_scalar 6)
      (index_scalar 2) (index_scalar (-2)) false = Ok t' /\
    TransformIndices t' [1] = TransformIndices example_line (slice_image info [1]) /\
    TransformIndices t' [1] = Ok [11; 33].
Proof.
  set (op := ApplyIntervalSliceOp example_line [0%nat] half_open true (index_scalar 6)
      (index_scalar 2) (index_scalar (-2)) false).
  assert (Hok : is_ok op = true) by (vm_compute; reflexivity).
  assert (Hval : (t' ← op; TransformIndices t' [1]) = Ok [11; 33]) by (vm_compute; reflexivity).
  assert (Hdims : (t' ← op; Ok (input_dimensions t')) =
    Ok [MkDimension (MkOI (MkInterval 0 2) false false) "x"%string]) by (vm_compute; reflexivity).
  destruct op as [t'|e] eqn:E; [|discriminate Hok].
  injection Hdims as Hdims. cbn in Hval.
  assert (Hp : forall d new, d ∈ [0%nat] -> input_dimensions t' !! d = Some new -> proper (optionally_implicit_domain new))
    by (rewrite Hdims; intros d new ->%list_elem_of_singleton [= <-]; left; reflexivity).
  destruct (ApplyIntervalSliceOp_correct example_line [0%nat] half_open true (index_scalar 6)
    (index_scalar 2) (index_scalar (-2)) t' example_line_wf example_line_selects
    (scalar_in_i64 6 eq_refl) (scalar_in_i64 2 eq_refl) (scalar_in_i64 (-2) eq_refl) E Hp)
    as (info & (L1 & L2 & Hd) & Heval).
  exists t', info. split; [reflexivity|]. split; [|exact Hval]. apply Heval.
  - rewrite Hdims. apply check_input_domain_Ok; [|reflexivity|vm_compute; reflexivity].
    constructor; [apply validb_spec; vm_compute; reflexivity|constructor].
  - rewrite Hdims in Hd. destruct (Hd 0%nat _ eq_refl) as (new & s & [= <-] & Hs & [(Hn0 & _)|(i & _ & [[Estride _] _ _ _ Eoff _ _ _])]);
      [exfalso; apply Hn0, list_elem_of_here|].
    destruct info as [|s0 [|? ?]]; [discriminate| |discriminate]. injection Hs as ->.
    destruct s as [so ss]. cbn [slice_offset slice_stride] in *. subst ss.
    vm_compute in Eoff. subst so. repeat constructor.
Defined.

Lemma ApplyStrideOp_correct_witness :
  exists t' info, ApplyStrideOp example_line [0%nat] (index_scalar (-3)) false = Ok t' /\
    TransformIndices t' [-1] = TransformIndices example_line (slice_image info [-1]) /\
    TransformIndices t' [-1] = Ok [9; 25].
Proof.
  set (op := ApplyStrideOp example_line [0%nat] (index_scalar (-3)) false).
  assert (Hok : is_ok op = true) by (vm_compute; reflexivity).
  assert (Hval : (t' ← op; TransformIndices t' [-1]) = Ok [9; 25]) by (vm_compute; reflexivity).
  destruct op as [t'|e] eqn:E; [|discriminate Hok]. cbn in Hval.
  assert (Hne : Forall (fun d => empty (domain d) = false) (input_dimensions example_line))
    by (repeat constructor).
  destruct (ApplyStrideOp_correct example_line [0%nat] (index_scalar (-3)) t' example_line_wf
    example_line_selects (scalar_in_i64 (-3) eq_refl) Hne E) as (info & (L1 & L2 & Hd) & Heval).
  exists t', info. split; [reflexivity|]. split; [|exact Hval].
  apply Heval; [reflexivity|repeat constructor|].
  destruct (Hd 0%nat _ eq_refl) as (new & s & Hn & Hs & [(Hn0 & _)|(i & _ & E0 & E1 & _)]);
    [exfalso; apply Hn0, list_elem_of_here|].
  destruct info as [|s0 [|? ?]]; [discriminate| |discriminate]. injection Hs as ->.
  destruct s as [so ss]. cbn in E0, E1. subst so ss. repeat constructor.
Defined.
