(* ===== verification/Dimensions.v ===== *)
(** Dimension identifiers, dimension selections and permutations:
    [index_space/dimension_identifier.cc], [index_space/internal/dimension_selection.cc]
    and the permutations of [contiguous_layout.cc]. *)

From stdpp Require Import strings.
From S2P Require Import Prelude Int64.

(** * Definitions *)

(** ** Identifiers *)

Definition NormalizeDimensionIndex (index rank : Z) : Result Z :=
  if (index <? - rank) || (rank <=? index) then Err kInvalidArgument
  else Ok (if 0 <=? index then index else index + rank).

Definition NormalizeDimensionExclusiveStopIndex (index rank : Z) : Result Z :=
  if (index <? - rank - 1) || (rank <? index) then Err kInvalidArgument
  else Ok (if 0 <=? index then index else index + rank).

(** [std::find]: the position of the first match, or the length. *)
Fixpoint find_label (label : string) (labels : list string) : Z :=
  match labels with
  | [] => 0
  | l :: labels => if String.eqb l label then 0 else 1 + find_label label labels
  end.

Definition NormalizeDimensionLabel (label : string) (labels : list string) : Result Z :=
  if String.eqb label EmptyString then Err kInvalidArgument
  else
    let dim := find_label label labels in
    if dim =? Z.of_nat (length labels) then Err kInvalidArgument else Ok dim.

(** [DimensionIdentifier]: a label when its pointer is not null, an index otherwise. *)
Inductive DimensionIdentifier :=
| dimension_label (label : string)
| dimension_index (index : Z).

Definition NormalizeDimensionIdentifier (identifier : DimensionIdentifier) (labels : list string)
  : Result Z :=
  match identifier with
  | dimension_label label => NormalizeDimensionLabel label labels
  | dimension_index index => NormalizeDimensionIndex index (Z.of_nat (length labels))
  end.

Record DimRangeSpec := MkDimRange {
  inclusive_start : option Z;
  exclusive_stop : option Z;
  step : Z
}.

(** The positions [inclusive_start], [inclusive_start + step], ..., [size] of them. *)
Definition range_positions (inclusive_start step size : Z) : list Z :=
  (fun i => inclusive_start + step * Z.of_nat i) <$> seq 0 (Z.to_nat size).

Definition range_start (spec : DimRangeSpec) (rank : Z) : Result Z :=
  match inclusive_start spec with
  | Some i => NormalizeDimensionIndex i rank
  | None => Ok (if 0 <? step spec then 0 else rank - 1)
  end.

Definition range_stop (spec : DimRangeSpec) (rank start : Z) : Result Z :=
  match exclusive_stop spec with
  | Some i =>
      stop ← NormalizeDimensionExclusiveStopIndex i rank;
      if ((0 <? step spec) && (stop <? start)) || ((step spec <? 0) && (start <? stop))
      then Err kInvalidArgument else Ok stop
  | None => Ok (if 0 <? step spec then rank else -1)
  end.

Definition NormalizeDimRangeSpec (spec : DimRangeSpec) (rank : Z) (result : list Z)
  : Result (list Z) :=
  if step spec =? 0 then Err kInvalidArgument
  else
    start ← range_start spec rank;
    stop ← range_stop spec rank start;
    Ok (result ++ range_positions start (step spec) (CeilOfRatio (stop - start) (step spec))).

Inductive DynamicDimSpec :=
| dim_index (i : Z)
| dim_label (label : string)
| dim_range (spec : DimRangeSpec).

Definition NormalizeDynamicDimSpec (labels : list string) (result : list Z)
  (spec : DynamicDimSpec) : Result (list Z) :=
  match spec with
  | dim_index i =>
      index ← NormalizeDimensionIndex i (Z.of_nat (length labels)); Ok (result ++ [index])
  | dim_label label =>
      index ← NormalizeDimensionLabel label labels; Ok (result ++ [index])
  | dim_range s => NormalizeDimRangeSpec s (Z.of_nat (length labels)) result
  end.

Definition NormalizeDynamicDimSpecs (specs : list DynamicDimSpec) (labels : list string)
  (result : list Z) : Result (list Z) :=
  foldM (NormalizeDynamicDimSpec labels) result specs.

(** ** Selections *)

(** One iteration: the dimensions so far, and whether one was repeated. *)
Definition check_dimension (input_rank : Z) (st : list Z * bool) (d : Z)
  : Result (list Z * bool) :=
  let '(seen, repeated) := st in
  dim ← NormalizeDimensionIndex d input_rank;
  Ok (seen ++ [dim], repeated || existsb (Z.eqb dim) seen).

Definition CheckAndNormalizeDimensions (input_rank : Z) (dimensions : list Z) : Result (list Z) :=
  if input_rank <? Z.of_nat (length dimensions) then Err kInvalidArgument
  else
    '(dims, repeated) ← foldM (check_dimension input_rank) ([], false) dimensions;
    if (repeated : bool) then Err kInvalidArgument else Ok dims.

Definition GetDimensions (input_rank : Z) (dimensions : list Z) : Result (list Z) :=
  CheckAndNormalizeDimensions input_rank dimensions.

Definition GetDimensions_identifiers (input_labels : list string)
  (dimensions : list DimensionIdentifier) : Result (list Z) :=
  result ← mapR (fun d => NormalizeDimensionIdentifier d input_labels) dimensions;
  CheckAndNormalizeDimensions (Z.of_nat (length input_labels)) result.

Definition GetDimensions_dynamic (labels : list string) (dimensions : list DynamicDimSpec)
  : Result (list Z) :=
  result ← NormalizeDynamicDimSpecs dimensions labels [];
  CheckAndNormalizeDimensions (Z.of_nat (length labels)) result.

Definition GetAllDimensions (input_rank : Z) : list Z := range_positions 0 1 input_rank.

Definition GetNewDimensions (input_rank : Z) (dimensions : list Z) : Result (list Z) :=
  GetDimensions (input_rank + Z.of_nat (length dimensions)) dimensions.

Definition GetNumNewDimensions (spec : DimRangeSpec) : Result Z :=
  let step := step spec in
  if step =? 0 then Err kInvalidArgument
  else
    match inclusive_start spec, exclusive_stop spec with
    | Some start, Some stop =>
        if Bool.eqb (stop <? 0) (start <? 0) &&
           (((0 <? step) && (start <=? stop)) || ((step <? 0) && (stop <=? start)))
        then Ok (CeilOfRatio (wrap64 (stop - start)) step) else Err kInvalidArgument
    | Some start, None =>
        if 0 <? step then
          if start <? 0 then Ok (CeilOfRatio (wrap64 (- start)) step) else Err kInvalidArgument
        else
          if 0 <=? start then Ok (CeilOfRatio (wrap64 (start + 1)) (wrap64 (- step)))
          else Err kInvalidArgument
    | None, Some stop =>
        if 0 <? step then
          if 0 <=? stop then Ok (CeilOfRatio stop step) else Err kInvalidArgument
        else
          if stop <? 0 then Ok (CeilOfRatio (wrap64 (- (stop + 1))) (wrap64 (- step)))
          else Err kInvalidArgument
    | None, None => Err kInvalidArgument
    end.

Definition count_new_dimensions (new_rank : Z) (spec : DynamicDimSpec) : Result Z :=
  match spec with
  | dim_range r => x ← GetNumNewDimensions r; Ok (wrap64 (new_rank + x))
  | _ => Ok (wrap64 (new_rank + 1))
  end.

Definition new_dimension (new_rank : Z) (result : list Z) (spec : DynamicDimSpec)
  : Result (list Z) :=
  match spec with
  | dim_index i => index ← NormalizeDimensionIndex i new_rank; Ok (result ++ [index])
  | dim_label _ => Err kInvalidArgument
  | dim_range s => NormalizeDimRangeSpec s new_rank result
  end.

Definition GetNewDimensions_dynamic (input_rank : Z) (dimensions : list DynamicDimSpec)
  : Result (list Z) :=
  new_rank ← foldM count_new_dimensions input_rank dimensions;
  result ← foldM (new_dimension new_rank) [] dimensions;
  CheckAndNormalizeDimensions new_rank result.

(** ** Permutations *)

Definition kMaxRank : Z := 32.

Inductive ContiguousLayoutOrder := c_order | fortran_order.

Definition SetPermutation (order : ContiguousLayoutOrder) (n : nat) : list Z :=
  match order with
  | c_order => (fun i => Z.of_nat i) <$> seq 0 n
  | fortran_order => (fun i => Z.of_nat n - 1 - Z.of_nat i) <$> seq 0 n
  end.

(** The loop: [seen_dims] are the dimensions before the current position. *)
Fixpoint permutation_loop (rank : Z) (seen_dims permutation : list Z) : bool :=
  match permutation with
  | [] => true
  | dim :: permutation =>
      if (dim <? 0) || (rank <=? dim) || existsb (Z.eqb dim) seen_dims then false
      else permutation_loop rank (dim :: seen_dims) permutation
  end.

Definition IsValidPermutation (permutation : list Z) : bool :=
  let rank := Z.of_nat (length permutation) in
  if kMaxRank <? rank then false else permutation_loop rank [] permutation.

Definition PermutationMatchesOrder (permutation : list Z) (order : ContiguousLayoutOrder) : bool :=
  let n := Z.of_nat (length permutation) in
  forallb (fun '(i, p) =>
      match order with
      | c_order => p =? Z.of_nat i
      | fortran_order => p =? n - Z.of_nat i - 1
      end) (zip (seq 0 (length permutation)) permutation).

(** The inverse array, filled in position by position; [inverse_perm] is its initial
    content. *)
Definition InvertPermutation (perm inverse_perm : list Z) : list Z :=
  assign inverse_perm (zip (Z.to_nat <$> perm) (Z.of_nat <$> seq 0 (length perm))).

(** * Identifiers *)

Lemma NormalizeDimensionIndex_spec index rank d :
  0 <= rank ->
  (NormalizeDimensionIndex index rank = Ok d <->
   0 <= d < rank /\ (d = index \/ (index < 0 /\ d = index + rank))).
Proof.
  intros Hr. unfold NormalizeDimensionIndex. case_if; [split; [discriminate|]; bool_to_prop|].
  - apply orb_true_iff in Heqb as [?|?]; bool_to_prop; lia.
  - bool_to_prop. destruct (Z.leb_spec 0 index); split; intros H'; try injection H' as <-; try lia;
      f_equal; lia.
Qed.

Lemma NormalizeStop_spec index rank d :
  0 <= rank -> NormalizeDimensionExclusiveStopIndex index rank = Ok d ->
  -1 <= d <= rank /\ d = (if 0 <=? index then index else index + rank).
Proof.
  intros Hr. unfold NormalizeDimensionExclusiveStopIndex. case_if; [discriminate|].
  bool_to_prop. intros [= <-]. destruct (Z.leb_spec 0 index); lia.
Qed.

Lemma find_label_spec label labels :
  (find_label label labels = Z.of_nat (length labels) /\ label ∉ labels) \/
  exists i, find_label label labels = Z.of_nat i /\ labels !! i = Some label /\
    forall j, (j < i)%nat -> labels !! j <> Some label.
Proof.
  induction labels as [|l labels IH]; cbn [find_label].
  { left. split; [reflexivity|apply not_elem_of_nil]. }
  destruct (String.eqb_spec l label) as [->|Hne].
  - right. exists 0%nat. split; [reflexivity|]. split; [reflexivity|lia].
  - destruct IH as [[-> Hn]|(i & -> & Hi & Hj)].
    + left. split; [cbn [length]; lia|]. rewrite not_elem_of_cons. auto.
    + right. exists (S i). split; [lia|]. split; [exact Hi|].
      intros [|j] Hlt; [intros [= ->]; contradiction|]. apply Hj. lia.
Qed.

(** A label selects the first dimension that has it. *)
Definition first_labelled (labels : list string) (label : string) (d : Z) : Prop :=
  label <> EmptyString /\ 0 <= d /\ labels !! Z.to_nat d = Some label /\
  forall j, (j < Z.to_nat d)%nat -> labels !! j <> Some label.

Lemma NormalizeDimensionLabel_spec label labels d :
  NormalizeDimensionLabel label labels = Ok d -> first_labelled labels label d.
Proof.
  unfold NormalizeDimensionLabel. destruct (String.eqb_spec label EmptyString) as [|Hne]; [discriminate|].
  cbv zeta. case_if; [discriminate|]. intros [= <-]. bool_to_prop.
  destruct (find_label_spec label labels) as [[E _]|(i & E & Hi & Hj)]; [congruence|].
  rewrite E. unfold first_labelled. rewrite Nat2Z.id. split; [exact Hne|]. split; [lia|]. auto.
Qed.

(** * Ranges *)

Lemma range_positions_elem start step size v :
  v ∈ range_positions start step size <-> exists k, 0 <= k < size /\ v = start + step * k.
Proof.
  unfold range_positions. rewrite list_elem_of_fmap. split.
  - intros (i & -> & Hi%elem_of_seq). exists (Z.of_nat i). split; [lia|reflexivity].
  - intros (k & Hk & ->). exists (Z.to_nat k). rewrite elem_of_seq, Z2Nat.id by lia.
    split; [reflexivity|lia].
Qed.

Lemma range_positions_NoDup start step size : step <> 0 -> NoDup (range_positions start step size).
Proof.
  intros Hs. apply NoDup_fmap_2; [|apply NoDup_seq]. intros i j H.
  apply Nat2Z.inj, (Z.mul_reg_l _ _ step Hs). lia.
Qed.

Lemma below_ceil n d k :
  d <> 0 -> (k < - ((- n) / d) <-> (0 < d /\ k * d < n) \/ (d < 0 /\ n < k * d)).
Proof.
  intros Hd. assert (H : 0 < d \/ d < 0) by lia. destruct H as [H|H].
  - pose proof (div_le_lower (- n) d (- k) H). lia.
  - rewrite <- (Z.opp_involutive d) at 1. rewrite Z.div_opp_opp by lia.
    pose proof (div_le_lower n (- d) (- k)). lia.
Qed.

(** What a range selects, as the positions from [start] to [stop]. *)
Definition in_range (start stop step v : Z) : Prop :=
  exists k, 0 <= k /\ v = start + step * k /\ (0 < step -> v < stop) /\ (step < 0 -> stop < v).

Lemma range_positions_stop start stop step v :
  in_i64 (stop - start) -> stop - start <> i64_min -> in_i64 step -> step <> 0 ->
  (v ∈ range_positions start step (CeilOfRatio (stop - start) step) <-> in_range start stop step v).
Proof.
  intros Hn Hm Hs Hs0. rewrite range_positions_elem, CeilOfRatio_exact by tauto.
  unfold in_range. split; intros (k & Hk & H); exists k.
  - destruct Hk as [Hk Hlt]. apply below_ceil in Hlt; [|exact Hs0]. lia.
  - destruct H as (-> & H). split; [split; [exact Hk|]|reflexivity]. apply below_ceil; [exact Hs0|]. lia.
Qed.

(** The normalized bounds of a range. *)
Lemma range_bounds spec rank start stop :
  0 <= rank -> step spec <> 0 ->
  range_start spec rank = Ok start -> range_stop spec rank start = Ok stop ->
  (0 < step spec -> 0 <= start /\ start <= stop <= rank) /\
  (step spec < 0 -> start < rank /\ -1 <= stop <= start).
Proof.
  intros Hr Hs H1 H2. unfold range_start in H1. unfold range_stop in H2.
  assert (Hstart : (0 <= start < rank) \/
    (inclusive_start spec = None /\ start = if 0 <? step spec then 0 else rank - 1)).
  { destruct (inclusive_start spec); [|injection H1 as <-; auto].
    apply NormalizeDimensionIndex_spec in H1; lia. }
  assert (Hstop : ((0 < step spec -> start <= stop <= rank) /\ (step spec < 0 -> -1 <= stop <= start)) \/
    stop = if 0 <? step spec then rank else -1).
  { destruct (exclusive_stop spec); [|injection H2 as <-; auto]. left.
    apply bind_Ok in H2 as (s & Hs1%NormalizeStop_spec & H2); [|exact Hr].
    destruct Hs1 as [Hs1 _]. destruct (_ || _) eqn:E; [discriminate|]. injection H2 as <-. lia. }
  destruct (Z.ltb_spec 0 (step spec)); lia.
Qed.

Lemma NormalizeDimRangeSpec_spec spec rank result result' :
  0 <= rank <= i64_max -> in_i64 (step spec) ->
  NormalizeDimRangeSpec spec rank result = Ok result' ->
  exists start stop, range_start spec rank = Ok start /\ range_stop spec rank start = Ok stop /\
    step spec <> 0 /\
    let ps := range_positions start (step spec) (CeilOfRatio (stop - start) (step spec)) in
    result' = result ++ ps /\ NoDup ps /\
    (forall v, v ∈ ps <-> in_range start stop (step spec) v) /\
    (forall v, v ∈ ps -> 0 <= v < rank).
Proof.
  intros Hr Hi H. unfold NormalizeDimRangeSpec in H.
  destruct (Z.eqb_spec (step spec) 0) as [|Hs]; [discriminate|].
  apply bind_Ok in H as (start & E1 & (stop & E2 & [= <-])%bind_Ok).
  exists start, stop. split; [exact E1|]. split; [exact E2|]. split; [exact Hs|].
  destruct (range_bounds spec rank start stop) as [B1 B2]; [lia|assumption..|].
  assert (Hel : forall v, v ∈ range_positions start (step spec) (CeilOfRatio (stop - start) (step spec))
    <-> in_range start stop (step spec) v) by (intros v; apply range_positions_stop; i64_lia).
  split; [reflexivity|]. split; [apply range_positions_NoDup, Hs|]. split; [exact Hel|].
  intros v (k & Hk & -> & H1 & H2)%Hel. nia.
Qed.

(** * Selections *)

Lemma check_dimensions_spec rank dims st st' :
  0 <= rank ->
  foldM (check_dimension rank) st dims = Ok st' ->
  exists ds, Forall2 (fun d d' => NormalizeDimensionIndex d rank = Ok d') dims ds /\
    st'.1 = st.1 ++ ds /\ (st'.2 = false -> st.2 = false /\ (NoDup st.1 -> NoDup st'.1)).
Proof.
  intros Hr. revert st; induction dims as [|d dims IH]; intros st H.
  - injection H as <-. exists []. rewrite app_nil_r. split; [constructor|]. auto.
  - cbn in H. apply bind_Ok in H as (st1 & H1 & H2). destruct st as [seen rep].
    apply bind_Ok in H1 as (d' & Hd & [= <-]). destruct (IH _ H2) as (ds & HF & E & Hrep).
    cbn in E, Hrep. exists (d' :: ds). split; [constructor; assumption|].
    split; [rewrite E, <- app_assoc; reflexivity|]. intros Hf. destruct (Hrep Hf) as [Ho Hn].
    apply orb_false_iff in Ho as [-> Hx]. split; [reflexivity|]. intros Hnd. apply Hn.
    apply NoDup_app. split; [exact Hnd|]. split; [|apply NoDup_singleton].
    intros x Hxs ->%list_elem_of_singleton.
    assert (Ht : existsb (Z.eqb d') seen = true); [|congruence].
    apply existsb_exists. exists d'. rewrite Z.eqb_refl. split; [apply list_elem_of_In, Hxs|reflexivity].
Qed.

(** A validated selection: distinct dimensions of the rank. *)
Definition selection (rank : Z) (dims : list Z) : Prop :=
  NoDup dims /\ Forall (fun d => 0 <= d < rank) dims /\ Z.of_nat (length dims) <= rank.

Lemma CheckAndNormalize_spec rank dims ds :
  0 <= rank -> CheckAndNormalizeDimensions rank dims = Ok ds ->
  selection rank ds /\ Forall2 (fun d d' => NormalizeDimensionIndex d rank = Ok d') dims ds.
Proof.
  intros Hr H. unfold CheckAndNormalizeDimensions in H. 
  destruct (Z.ltb_spec rank (Z.of_nat (length dims))); [discriminate|].
  apply bind_Ok in H as ([ds' rep] & H1 & H2). destruct rep; [discriminate|]. injection H2 as ->.
  destruct (check_dimensions_spec rank dims ([], false) _ Hr H1) as (ds' & HF & E & Hn).
  cbn in E, Hn. subst ds'. split; [|exact HF]. split; [|split].
  - apply Hn; [reflexivity|apply NoDup_nil_2].
  - apply Forall_lookup. intros i d' Hd'.
    destruct (Forall2_lookup_r _ _ _ _ _ HF Hd') as (d & _ & E).
    apply NormalizeDimensionIndex_spec in E; lia.
  - rewrite <- (Forall2_length _ _ _ HF). lia.
Qed.

Lemma Normalized_id rank dims ds :
  0 <= rank -> Forall (fun d => 0 <= d < rank) dims ->
  Forall2 (fun d d' => NormalizeDimensionIndex d rank = Ok d') dims ds -> ds = dims.
Proof.
  intros Hr HF. induction 1 as [|d d' dims ds E _ IH]; [reflexivity|].
  apply Forall_cons in HF as [Hd HF]. rewrite IH by exact HF. f_equal.
  apply NormalizeDimensionIndex_spec in E; lia.
Qed.

(** What one element of a dimension selection stands for. *)
Definition spec_selects (labels : list string) (rank : Z) (spec : DynamicDimSpec) (ds : list Z)
  : Prop :=
  match spec with
  | dim_index i => exists d, ds = [d] /\ 0 <= d < rank /\ (d = i \/ (i < 0 /\ d = i + rank))
  | dim_label l => exists d, ds = [d] /\ 0 <= d < rank /\ first_labelled labels l d
  | dim_range r => exists start stop, range_start r rank = Ok start /\
      range_stop r rank start = Ok stop /\ step r <> 0 /\
      (forall k d, ds !! k = Some d -> d = start + step r * Z.of_nat k) /\
      (forall d, d ∈ ds <-> in_range start stop (step r) d) /\ (forall d, d ∈ ds -> 0 <= d < rank)
  end.

(** The steps of the ranges are [int64_t] values. *)
Definition spec_typed (spec : DynamicDimSpec) : Prop :=
  match spec with
  | dim_index i => in_i64 i
  | dim_label _ => True
  | dim_range r => i64_min < step r <= i64_max /\
      (forall i, inclusive_start r = Some i -> in_i64 i) /\
      (forall i, exclusive_stop r = Some i -> in_i64 i)
  end.

Lemma range_positions_lookup start step size k d :
  range_positions start step size !! k = Some d -> d = start + step * Z.of_nat k.
Proof.
  unfold range_positions. rewrite list_lookup_fmap. intros (i & Hi & ->)%fmap_Some.
  apply lookup_seq in Hi as [-> _]. reflexivity.
Qed.

Lemma range_selects labels r rank result result' :
  0 <= rank <= i64_max -> i64_min < step r <= i64_max ->
  NormalizeDimRangeSpec r rank result = Ok result' ->
  exists ds, result' = result ++ ds /\ spec_selects labels rank (dim_range r) ds.
Proof.
  intros Hr Hs H. destruct (NormalizeDimRangeSpec_spec r rank result result') as
    (start & stop & E1 & E2 & Hs0 & E3 & _ & Hel & Hb); [exact Hr|i64_lia|exact H|].
  eexists. split; [exact E3|]. exists start, stop. split; [exact E1|]. split; [exact E2|].
  split; [exact Hs0|]. split; [apply range_positions_lookup|]. auto.
Qed.

Lemma index_selects labels rank i d :
  0 <= rank -> NormalizeDimensionIndex i rank = Ok d -> spec_selects labels rank (dim_index i) [d].
Proof. intros Hr H%NormalizeDimensionIndex_spec; [|exact Hr]. exists d. auto. Qed.

(** A fold that appends what each element selects. *)
Lemma append_fold {A} (f : list Z -> A -> Result (list Z)) (P : A -> list Z -> Prop) l :
  (forall result x result', x ∈ l -> f result x = Ok result' ->
     exists ds, result' = result ++ ds /\ P x ds) ->
  forall result result', foldM f result l = Ok result' ->
  exists dss, Forall2 P l dss /\ result' = result ++ concat dss.
Proof.
  induction l as [|x l IH]; intros Hf result result' H.
  - injection H as <-. exists []. rewrite app_nil_r. split; [constructor|reflexivity].
  - cbn in H. apply bind_Ok in H as (r1 & H1 & H2).
    destruct (Hf result x r1 (list_elem_of_here _ _) H1) as (ds & -> & HP).
    destruct (IH (fun r y r' Hy => Hf r y r' (list_elem_of_further _ _ _ Hy)) _ _ H2)
      as (dss & HF & ->).
    exists (ds :: dss). split; [constructor; assumption|]. cbn. rewrite app_assoc. reflexivity.
Qed.

Lemma NormalizeDynamic_selects labels specs result result' :
  Z.of_nat (length labels) <= i64_max -> Forall spec_typed specs ->
  NormalizeDynamicDimSpecs specs labels result = Ok result' ->
  exists dss, Forall2 (spec_selects labels (Z.of_nat (length labels))) specs dss /\
    result' = result ++ concat dss.
Proof.
  intros Hl Ht. apply append_fold. intros r spec r' Hin H.
  rewrite Forall_forall in Ht. specialize (Ht spec Hin). destruct spec as [i|l|s]; cbn in H.
  - apply bind_Ok in H as (d & Hd & [= <-]). exists [d]. split; [reflexivity|].
    apply index_selects; [lia|exact Hd].
  - apply bind_Ok in H as (d & Hd%NormalizeDimensionLabel_spec & [= <-]). exists [d].
    split; [reflexivity|]. exists d. split; [reflexivity|]. split; [|exact Hd].
    destruct Hd as (_ & H0 & Hd & _). apply lookup_lt_Some in Hd. lia.
  - apply (range_selects labels); [lia|apply Ht|exact H].
Qed.

Lemma spec_selects_bounds labels rank spec ds :
  spec_selects labels rank spec ds -> Forall (fun d => 0 <= d < rank) ds.
Proof.
  destruct spec; cbn; intros H; apply Forall_forall; intros x Hx.
  - destruct H as (d & -> & Hd & _). apply list_elem_of_singleton in Hx as ->. exact Hd.
  - destruct H as (d & -> & Hd & _). apply list_elem_of_singleton in Hx as ->. exact Hd.
  - destruct H as (start & stop & _ & _ & _ & _ & _ & Hb). exact (Hb x Hx).
Qed.

Lemma concat_bounds labels rank specs dss :
  Forall2 (spec_selects labels rank) specs dss -> Forall (fun d => 0 <= d < rank) (concat dss).
Proof.
  induction 1 as [|spec ds specs dss H _ IH]; [constructor|].
  apply Forall_app. split; [exact (spec_selects_bounds _ _ _ _ H)|exact IH].
Qed.

(** A successful selection by indices, labels and ranges lists, in the order of its
    elements, exactly the dimensions that each element stands for, without repetition
    and within the rank. *)
Theorem GetDimensions_dynamic_correct labels specs dims :
  Z.of_nat (length labels) <= i64_max -> Forall spec_typed specs ->
  GetDimensions_dynamic labels specs = Ok dims ->
  selection (Z.of_nat (length labels)) dims /\
  exists dss, dims = concat dss /\
    Forall2 (spec_selects labels (Z.of_nat (length labels))) specs dss.
Proof.
  intros Hl Ht H. apply bind_Ok in H as (r & H1 & H2).
  destruct (NormalizeDynamic_selects labels specs [] r Hl Ht H1) as (dss & HF & ->).
  destruct (CheckAndNormalize_spec (Z.of_nat (length labels)) _ dims ltac:(lia) H2) as [Hsel HN].
  apply Normalized_id in HN as ->; [|lia|exact (concat_bounds _ _ _ _ HF)].
  split; [exact Hsel|]. exists dss. auto.
Qed.

Lemma GetDimensions_dynamic_correct_witness :
  GetDimensions_dynamic ["x"; "y"; "z"; "t"]%string
    [dim_label "z"; dim_range (MkDimRange (Some 1) None (-1)); dim_index (-1)]%string
    = Ok [2; 1; 0; 3] /\
  selection 4 [2; 1; 0; 3].
Proof.
  assert (E : GetDimensions_dynamic ["x"; "y"; "z"; "t"]%string
    [dim_label "z"; dim_range (MkDimRange (Some 1) None (-1)); dim_index (-1)]%string
    = Ok [2; 1; 0; 3]) by (vm_compute; reflexivity).
  split; [exact E|].
  assert (Ht : Forall spec_typed
    [dim_label "z"; dim_range (MkDimRange (Some 1) None (-1)); dim_index (-1)]%string).
  { apply Forall_cons. split; [exact I|]. apply Forall_cons. split.
    - split; [split; reflexivity || discriminate|].
      split; intros i [= <-]; split; discriminate.
    - apply Forall_cons. split; [split; discriminate|constructor]. }
  refine (proj1 (GetDimensions_dynamic_correct _ _ _ _ Ht E)). discriminate.
Defined.

(** ** New dimensions *)

Lemma length_range_positions start step size : length (range_positions start step size) = Z.to_nat size.
Proof. unfold range_positions. rewrite length_fmap, length_seq. reflexivity. Qed.

Lemma ceil_opp n d : d <> 0 -> - ((- n) / d) = - (n / (- d)).
Proof. intros Hd. rewrite <- (Z.opp_involutive d) at 1. rewrite Z.div_opp_opp by lia. reflexivity. Qed.

(** The number of positions that a range of new dimensions announces, as the distance
    from its start to its stop. *)
Lemma GetNumNewDimensions_distance spec n rank start stop :
  0 <= rank <= i64_max -> spec_typed (dim_range spec) -> step spec <> 0 ->
  range_start spec rank = Ok start -> range_stop spec rank start = Ok stop ->
  GetNumNewDimensions spec = Ok n ->
  n = CeilOfRatio (stop - start) (step spec).
Proof.
  intros Hr (Hs & Hstart & Hstop) Hs0 E1 E2 Hn.
  assert (HE : forall m, in_i64 m -> m <> i64_min ->
    CeilOfRatio m (- step spec) = CeilOfRatio (- m) (step spec)).
  { intros m Hm Hm'. rewrite !CeilOfRatio_exact, Z.opp_involutive, ceil_opp, Z.opp_involutive
      by (first [assumption|i64_lia]). reflexivity. }
  unfold GetNumNewDimensions in Hn. destruct (Z.eqb_spec (step spec) 0); [contradiction|].
  unfold range_start in E1. unfold range_stop in E2.
  destruct (inclusive_start spec) as [i|] eqn:Ei; destruct (exclusive_stop spec) as [j|] eqn:Ej;
    try discriminate Hn;
    repeat match goal with
    | H : NormalizeDimensionIndex _ _ = Ok _ |- _ => apply NormalizeDimensionIndex_spec in H; [|lia]
    | H : mbind _ _ = Ok _ |- _ =>
        let H' := fresh in apply bind_Ok in H as (? & H'%NormalizeStop_spec & H); [|lia];
        destruct (_ || _) in H; [discriminate H|]
    | H : (if ?b then _ else Err _) = Ok _ |- _ => destruct b eqn:?; [|discriminate H]
    | H : (if ?b then _ else _) = Ok _ |- _ => destruct b eqn:?
    | H : Ok _ = Ok _ |- _ => injection H as H; subst
    end.
  - specialize (Hstart _ eq_refl). specialize (Hstop _ eq_refl).
    rewrite wrap64_id by i64_lia. f_equal. destruct (Z.leb_spec 0 j); lia.
  - bool_to_prop. rewrite wrap64_id by i64_lia. f_equal. lia.
  - bool_to_prop. rewrite !wrap64_id by i64_lia. rewrite HE by i64_lia. f_equal. lia.
  - bool_to_prop. f_equal. destruct (Z.leb_spec 0 j); lia.
  - bool_to_prop. specialize (Hstop _ eq_refl). rewrite !wrap64_id by i64_lia.
    rewrite HE by i64_lia. f_equal. destruct (Z.leb_spec 0 j); lia.
Qed.

(** The number of dimensions that one element announces. *)
Definition announces (spec : DynamicDimSpec) (n : Z) : Prop :=
  match spec with dim_range r => GetNumNewDimensions r = Ok n | _ => n = 1 end.

Lemma count_fold specs r0 r :
  in_i64 r0 -> foldM count_new_dimensions r0 specs = Ok r ->
  exists ns, Forall2 announces specs ns /\ r = wrap64 (r0 + foldr Z.add 0 ns).
Proof.
  revert r0; induction specs as [|spec specs IH]; intros r0 Hr0 H.
  - injection H as <-. exists []. cbn. rewrite Z.add_0_r, wrap64_id by exact Hr0.
    split; [constructor|reflexivity].
  - cbn in H. apply bind_Ok in H as (r1 & H1 & H2).
    assert (Hn : exists n, announces spec n /\ r1 = wrap64 (r0 + n)).
    { destruct spec; cbn in H1; try (injection H1 as <-; exists 1; split; reflexivity).
      apply bind_Ok in H1 as (n & Hn & [= <-]). eauto. }
    destruct Hn as (n & Hn & ->). destruct (IH _ (wrap64_range _) H2) as (ns & HF & ->).
    exists (n :: ns). split; [constructor; assumption|]. cbn. rewrite wrap64_add_l. f_equal. lia.
Qed.

Lemma new_dimension_spec rank result spec result' n :
  0 <= rank <= i64_max -> spec_typed spec -> announces spec n ->
  new_dimension rank result spec = Ok result' ->
  exists ds, result' = result ++ ds /\ spec_selects [] rank spec ds /\ Z.of_nat (length ds) = n.
Proof.
  intros Hr Ht Hn H. destruct spec as [i|l|s]; cbn in H, Hn.
  - apply bind_Ok in H as (d & Hd & [= <-]). exists [d]. split; [reflexivity|].
    split; [apply index_selects; [lia|exact Hd]|]. cbn. lia.
  - discriminate.
  - destruct (range_selects [] s rank result result' Hr (proj1 Ht) H) as (ds & -> & Hds).
    exists ds. split; [reflexivity|]. split; [exact Hds|].
    destruct (NormalizeDimRangeSpec_spec s rank result _ Hr ltac:(pose proof (proj1 Ht); i64_lia) H)
      as (start & stop & E1 & E2 & Hs0 & E & _). apply app_inv_head in E. subst ds.
    rewrite length_range_positions,
      (GetNumNewDimensions_distance s n rank start stop Hr Ht Hs0 E1 E2 Hn).
    apply Z2Nat.id. destruct (range_bounds s rank start stop) as [B1 B2]; [lia|assumption..|].
    destruct Ht as [Ht _]. rewrite CeilOfRatio_exact by i64_lia.
    destruct (Z.lt_ge_cases 0 (step s)) as [Hp|Hp]; [|rewrite ceil_opp by lia];
      apply Z.opp_nonneg_nonpos; apply Z.div_le_upper_bound; lia.
Qed.

Lemma new_dimensions_fold rank specs ns result result' :
  0 <= rank <= i64_max -> Forall spec_typed specs -> Forall2 announces specs ns ->
  foldM (new_dimension rank) result specs = Ok result' ->
  exists dss, result' = result ++ concat dss /\ Forall2 (spec_selects [] rank) specs dss /\
    Z.of_nat (length (concat dss)) = foldr Z.add 0 ns.
Proof.
  intros Hr Ht HF. revert result Ht; induction HF as [|spec n specs ns Hn HF IH]; intros result Ht H.
  - injection H as <-. exists []. rewrite app_nil_r. split; [reflexivity|]. split; [constructor|reflexivity].
  - cbn in H. apply bind_Ok in H as (r1 & H1 & H2). apply Forall_cons in Ht as [Ht1 Ht2].
    destruct (new_dimension_spec rank result spec r1 n Hr Ht1 Hn H1) as (ds & -> & Hds & Hl).
    destruct (IH _ Ht2 H2) as (dss & -> & HF2 & Hl2). exists (ds :: dss).
    cbn. rewrite app_assoc, length_app, Nat2Z.inj_add, Hl, Hl2.
    split; [reflexivity|]. split; [constructor; assumption|reflexivity].
Qed.

(** a successful selection of new dimensions lists exactly the dimensions that its
    elements stand for in the domain that has room for them, whose rank is the old rank
    plus the number of dimensions selected. *)
Theorem GetNewDimensions_dynamic_correct input_rank specs dims :
  0 <= input_rank <= kMaxRank -> Forall spec_typed specs ->
  GetNewDimensions_dynamic input_rank specs = Ok dims ->
  let new_rank := input_rank + Z.of_nat (length dims) in
  selection new_rank dims /\
  exists dss, dims = concat dss /\ Forall2 (spec_selects [] new_rank) specs dss.
Proof.
  intros Hr Ht H new_rank. unfold kMaxRank in Hr.
  apply bind_Ok in H as (rank & H1 & (result & H2 & H3)%bind_Ok).
  destruct (count_fold specs input_rank rank ltac:(i64_lia) H1) as (ns & Hns & Erank).
  assert (Hrank : 0 <= rank <= i64_max).
  { pose proof (wrap64_range (input_rank + foldr Z.add 0 ns)). subst rank. split; [|i64_lia].
    unfold CheckAndNormalizeDimensions in H3. destruct (Z.ltb_spec
      (wrap64 (input_rank + foldr Z.add 0 ns)) (Z.of_nat (length result))); [discriminate|lia]. }
  destruct (new_dimensions_fold rank specs ns [] result Hrank Ht Hns H2) as (dss & E & HF & Hl).
  cbn in E. destruct (CheckAndNormalize_spec rank result dims (proj1 Hrank) H3) as [Hsel HN].
  apply Normalized_id in HN as ->; [|lia|rewrite E; exact (concat_bounds _ _ _ _ HF)].
  assert (Hnew : new_rank = rank).
  { unfold new_rank. rewrite E, Hl, Erank. destruct Hsel as (_ & _ & Hlen).
    rewrite <- E in Hl. rewrite Hl, Erank in Hlen. rewrite Erank in Hrank.
    unfold wrap64, i64_max, i64_min, u64_modulus in *.
    Z.div_mod_to_equations. lia. }
  rewrite Hnew. split; [exact Hsel|]. exists dss. auto.
Qed.

Lemma GetNewDimensions_dynamic_correct_witness :
  GetNewDimensions_dynamic 2 [dim_index (-1); dim_range (MkDimRange (Some 0) (Some 4) 2)] = Ok [4; 0; 2] /\
  selection 5 [4; 0; 2].
Proof.
  assert (E : GetNewDimensions_dynamic 2
    [dim_index (-1); dim_range (MkDimRange (Some 0) (Some 4) 2)] = Ok [4; 0; 2])
    by (vm_compute; reflexivity).
  split; [exact E|].
  assert (Ht : Forall spec_typed [dim_index (-1); dim_range (MkDimRange (Some 0) (Some 4) 2)]).
  { apply Forall_cons. split; [split; discriminate|]. apply Forall_cons. split; [|constructor].
    split; [split; reflexivity || discriminate|]. split; intros i [= <-]; split; discriminate. }
  refine (proj1 (GetNewDimensions_dynamic_correct 2 _ _ _ Ht E)). split; discriminate.
Defined.

(** * Permutations *)

Lemma permutation_loop_spec rank seen l :
  permutation_loop rank seen l = true <->
  Forall (fun d => 0 <= d < rank) l /\ NoDup l /\ forall d, d ∈ l -> d ∉ seen.
Proof.
  revert seen; induction l as [|d l IH]; intros seen; cbn [permutation_loop].
  - split; [intros _|reflexivity]. split; [constructor|]. split; [constructor|].
    intros d H. destruct (not_elem_of_nil _ H).
  - assert (Hex : existsb (Z.eqb d) seen = true <-> d ∈ seen).
    { rewrite existsb_exists. split.
      - intros (x & Hx & E%Z.eqb_eq). subst x. apply list_elem_of_In, Hx.
      - intros Hd. exists d. rewrite Z.eqb_refl. split; [apply list_elem_of_In, Hd|reflexivity]. }
    case_if.
    + split; [discriminate|]. intros (HF & _ & Hs). apply Forall_cons in HF as [Hd _].
      apply orb_true_iff in Heqb as [E|E]; [lia|]. apply Hex in E.
      destruct (Hs d (list_elem_of_here _ _) E).
    + apply orb_false_iff in Heqb as [E1 E2]. rewrite IH, Forall_cons, NoDup_cons.
      assert (Hds : d ∉ seen) by (intros Hin%Hex; congruence). split.
      * intros (HF & Hn & Hs). split; [split; [lia|exact HF]|]. split.
        { split; [|exact Hn]. intros Hin. apply (Hs d Hin), list_elem_of_here. }
        intros x [->|Hx]%elem_of_cons; [exact Hds|]. intros Hxs.
        apply (Hs x Hx), list_elem_of_further, Hxs.
      * intros ((_ & HF) & (Hn1 & Hn2) & Hs). split; [exact HF|]. split; [exact Hn2|].
        intros x Hx [->|Hxs]%elem_of_cons; [contradiction|].
        exact (Hs x (list_elem_of_further _ _ _ Hx) Hxs).
Qed.

(** A permutation of the numbers below its length. *)
Definition permutation (l : list Z) : Prop :=
  NoDup l /\ Forall (fun d => 0 <= d < Z.of_nat (length l)) l.

Lemma IsValidPermutation_spec l :
  IsValidPermutation l = true <-> Z.of_nat (length l) <= kMaxRank /\ permutation l.
Proof.
  unfold IsValidPermutation, permutation. cbv zeta. case_if.
  - bool_to_prop. split; [discriminate|lia].
  - bool_to_prop. rewrite permutation_loop_spec. split; [tauto|].
    intros (_ & H1 & H2). split; [exact H2|]. split; [exact H1|]. intros d _. apply not_elem_of_nil.
Qed.

Lemma permutation_onto l d :
  permutation l -> 0 <= d < Z.of_nat (length l) -> exists i, l !! i = Some d.
Proof.
  intros [Hn HF] Hd. apply list_elem_of_lookup.
  assert (Hp : l ≡ₚ seqZ 0 (Z.of_nat (length l))).
  { apply submseteq_length_Permutation; [|rewrite length_seqZ; lia].
    apply NoDup_submseteq; [exact Hn|]. intros x Hx. rewrite Forall_forall in HF.
    apply elem_of_seqZ. specialize (HF x Hx). lia. }
  rewrite Hp, elem_of_seqZ. lia.
Qed.

Lemma to_nat_NoDup l : permutation l -> NoDup (Z.to_nat <$> l).
Proof.
  intros [Hn HF]. apply NoDup_fmap_2_strong; [|exact Hn].
  intros x y Hx Hy. rewrite Forall_forall in HF. pose proof (HF x Hx). pose proof (HF y Hy). lia.
Qed.

Lemma InvertPermutation_at l inv i d :
  permutation l -> length inv = length l -> l !! i = Some d ->
  InvertPermutation l inv !! Z.to_nat d = Some (Z.of_nat i).
Proof.
  intros Hp Hl Hi. pose proof (lookup_lt_Some _ _ _ Hi) as Hlt.
  unfold InvertPermutation. apply (assign_zip_at _ _ _ i).
  - apply to_nat_NoDup, Hp.
  - rewrite list_lookup_fmap, Hi. reflexivity.
  - rewrite list_lookup_fmap, lookup_seq_lt by exact Hlt. reflexivity.
  - rewrite !length_fmap, length_seq. reflexivity.
  - destruct Hp as [_ HF]. pose proof (Forall_lookup_1 _ _ _ _ HF Hi) as Hd. cbn in Hd. lia.
Qed.

Lemma InvertPermutation_inverse l inv i d :
  permutation l -> length inv = length l -> 0 <= d ->
  (l !! i = Some d <-> InvertPermutation l inv !! Z.to_nat d = Some (Z.of_nat i)).
Proof.
  intros Hp Hl Hd. split; [apply InvertPermutation_at; assumption|]. intros H.
  pose proof (lookup_lt_Some _ _ _ H) as Hlt. unfold InvertPermutation in Hlt.
  rewrite length_assign, Hl in Hlt. destruct (permutation_onto l d Hp) as [j Hj]; [lia|].
  pose proof (InvertPermutation_at l inv j d Hp Hl Hj) as Hj'. rewrite H in Hj'.
  injection Hj' as E. apply Nat2Z.inj in E as ->. exact Hj.
Qed.

Lemma InvertPermutation_permutation l inv :
  permutation l -> length inv = length l -> permutation (InvertPermutation l inv).
Proof.
  intros Hp Hl. set (r := InvertPermutation l inv).
  assert (Hlen : length r = length l)
    by (unfold r, InvertPermutation; rewrite length_assign; exact Hl).
  assert (Hr : forall k v, r !! k = Some v -> exists i, v = Z.of_nat i /\ l !! i = Some (Z.of_nat k)).
  { intros k v Hk. pose proof (lookup_lt_Some _ _ _ Hk).
    destruct (permutation_onto l (Z.of_nat k) Hp) as [i Hi]; [lia|]. exists i. split; [|exact Hi].
    pose proof (InvertPermutation_at l inv i _ Hp Hl Hi) as E. rewrite Nat2Z.id in E.
    unfold r in Hk. congruence. }
  split.
  - apply NoDup_alt. intros k k' v H1 H2. destruct (Hr k v H1) as (i & -> & E1).
    destruct (Hr k' _ H2) as (j & Ej & E2). apply Nat2Z.inj in Ej as ->. rewrite E1 in E2.
    injection E2 as E. lia.
  - apply Forall_lookup. intros k v Hk. destruct (Hr k v Hk) as (i & -> & Hi).
    apply lookup_lt_Some in Hi. lia.
Qed.

Definition order_at (order : ContiguousLayoutOrder) (n i : nat) : Z :=
  match order with c_order => Z.of_nat i | fortran_order => Z.of_nat n - 1 - Z.of_nat i end.

Lemma SetPermutation_lookup order n i :
  (i < n)%nat -> SetPermutation order n !! i = Some (order_at order n i).
Proof.
  intros Hi. destruct order; unfold SetPermutation; rewrite list_lookup_fmap, lookup_seq_lt by exact Hi;
    reflexivity.
Qed.

Lemma length_SetPermutation order n : length (SetPermutation order n) = n.
Proof. destruct order; unfold SetPermutation; rewrite length_fmap, length_seq; reflexivity. Qed.

Lemma SetPermutation_permutation order n : permutation (SetPermutation order n).
Proof.
  assert (H : forall k v, SetPermutation order n !! k = Some v -> (k < n)%nat /\ v = order_at order n k).
  { intros k v Hk. pose proof (lookup_lt_Some _ _ _ Hk) as Hl. rewrite length_SetPermutation in Hl.
    rewrite SetPermutation_lookup in Hk by exact Hl. split; [exact Hl|congruence]. }
  split.
  - apply NoDup_alt. intros k k' v [L1 E1]%H [L2 E2]%H. rewrite E2 in E1.
    unfold order_at in E1. destruct order; lia.
  - apply Forall_lookup. intros k v [L E]%H. rewrite length_SetPermutation, E.
    unfold order_at. destruct order; lia.
Qed.

Lemma PermutationMatchesOrder_spec l order :
  PermutationMatchesOrder l order = true <-> l = SetPermutation order (length l).
Proof.
  unfold PermutationMatchesOrder. rewrite forallb_forall. split.
  - intros H. apply list_eq_same_length with (length l); [|reflexivity|].
    { apply length_SetPermutation. }
    intros i x y Hi Hx Hy. rewrite SetPermutation_lookup in Hy by exact Hi. injection Hy as <-.
    specialize (H (i, x)). cbn in H. unfold order_at.
    assert (Hin : In (i, x) (zip (seq 0 (length l)) l)).
    { apply list_elem_of_In, list_elem_of_lookup_2 with i. apply lookup_zip_Some.
      split; [apply lookup_seq_lt, Hi|exact Hx]. }
    specialize (H Hin). destruct order; apply Z.eqb_eq in H; lia.
  - intros E [i x] Hin%list_elem_of_In. apply list_elem_of_lookup in Hin as [k Hk].
    apply lookup_zip_Some in Hk as [Hi Hx]. apply lookup_seq in Hi as [-> Hi].
    rewrite E, SetPermutation_lookup in Hx by exact Hi. injection Hx as <-.
    cbn. unfold order_at. destruct order; apply Z.eqb_eq; lia.
Qed.

(** [IsValidPermutation] accepts exactly the permutations of at most [kMaxRank]
    dimensions, [InvertPermutation] gives the inverse of a permutation, whatever the
    array held before, and the two layout orders are permutations that
    [PermutationMatchesOrder] recognises. *)
Theorem permutations_correct l inv order n :
  (IsValidPermutation l = true <-> Z.of_nat (length l) <= kMaxRank /\ permutation l) /\
  (permutation l -> length inv = length l ->
   permutation (InvertPermutation l inv) /\
   forall i d, 0 <= d ->
     (l !! i = Some d <-> InvertPermutation l inv !! Z.to_nat d = Some (Z.of_nat i))) /\
  permutation (SetPermutation order n) /\
  (PermutationMatchesOrder l order = true <-> l = SetPermutation order (length l)).
Proof.
  split; [apply IsValidPermutation_spec|]. split.
  - intros Hp Hl. split; [apply InvertPermutation_permutation; assumption|].
    intros i d Hd. apply InvertPermutation_inverse; assumption.
  - split; [apply SetPermutation_permutation|apply PermutationMatchesOrder_spec].
Qed.

Lemma permutations_correct_witness :
  InvertPermutation [2; 0; 1] [7; 7; 7] = [1; 2; 0] /\ permutation [1; 2; 0].
Proof.
  split; [reflexivity|].
  refine (proj1 (proj1 (proj2 (permutations_correct [2; 0; 1] [7; 7; 7] c_order 3)) _ eq_refl)).
  refine (proj2 (proj1 (proj1 (permutations_correct [2; 0; 1] [] c_order 3)) _)). reflexivity.
Defined.
