(* ===== verification/DimensionOps.v ===== *)
(** Operations that change the input dimensions of an index transform: transposition,
    single-index slices, new dimensions and diagonals
    ([index_space/internal/transpose.cc], [transpose_op.cc], [single_index_slice_op.cc],
    [add_new_dims_op.cc], [diagonal_op.cc]).  The dimensions selected are the validated
    ones of [Dimensions]. *)

From stdpp Require Import strings.
From S2P Require Import Prelude Int64 IndexInterval Transform Dimensions TransformOps.

(** * Definitions *)

(** The dimensions below [n] that are not selected, in order. *)
Definition other_dims (n : nat) (dims : list nat) : list nat :=
  filter (fun d => d ∉ dims) (seq 0 n).

(** ** Transposition *)

Definition PermuteArray {A} `{!Inhabited A} (orig_array : list A) (new_to_orig_map : list nat)
  : list A := (fun d => orig_array !!! d) <$> new_to_orig_map.

Definition inverse_dimension_map (permutation : list nat) : list nat :=
  Z.to_nat <$> InvertPermutation (Z.of_nat <$> permutation) (replicate (length permutation) 0).

Definition permute_map (permutation inverse : list nat) (m : OutputIndexMap) : OutputIndexMap :=
  match method m with
  | constant => m
  | single_input_dimension d =>
      MkOutputIndexMap (single_input_dimension (inverse !!! d)) (offset m) (stride m)
  | array data =>
      MkOutputIndexMap (array (MkIndexArrayData (element_pointer data) (index_range data)
        (PermuteArray (byte_strides data) permutation))) (offset m) (stride m)
  end.

(** [PermuteDimsInplace] and [PermuteDimsOutOfPlace]. *)
Definition TransposeInputDimensions (t : TransformRep) (permutation : list nat)
  (domain_only : bool) : TransformRep :=
  let rep := MutableRep t domain_only in
  MkTransform (PermuteArray (input_dimensions rep) permutation)
    (permute_map permutation (inverse_dimension_map permutation) <$> output_index_maps rep).

Definition reversed (rank : nat) : list nat := (fun i => (rank - i - 1)%nat) <$> seq 0 rank.

Definition TransposeInputDimensions_reversed (t : TransformRep) (domain_only : bool)
  : TransformRep := TransposeInputDimensions t (reversed (input_rank t)) domain_only.

Definition TransposeOutputDimensions (t : TransformRep) (permutation : list nat) : TransformRep :=
  MkTransform (input_dimensions t) (PermuteArray (output_index_maps t) permutation).

Definition TransposeOutputDimensions_reversed (t : TransformRep) : TransformRep :=
  TransposeOutputDimensions t (reversed (output_rank t)).

(** The unassigned positions get the remaining dimensions, both in order. *)
Fixpoint fill_unassigned (permutation : list (option nat)) (rest : list nat) : list nat :=
  match permutation with
  | [] => []
  | Some d :: permutation => d :: fill_unassigned permutation rest
  | None :: permutation =>
      match rest with
      | d :: rest => d :: fill_unassigned permutation rest
      | [] => 0%nat :: fill_unassigned permutation []
      end
  end.

(** The permutation, and the selected dimensions after the move. *)
Definition MakePermutationFromMoveDimsTarget (dimensions : list nat) (target : Z)
  (input_rank : nat) : Result (list nat * list nat) :=
  match dimensions with
  | [] => Ok (seq 0 input_rank, [])
  | _ =>
      let num_dims := length dimensions in
      target ← NormalizeDimensionIndex target (Z.of_nat input_rank - Z.of_nat num_dims + 1);
      let targets := seq (Z.to_nat target) num_dims in
      let assigned := assign (replicate input_rank None) (zip targets (Some <$> dimensions)) in
      Ok (fill_unassigned assigned (other_dims input_rank dimensions), targets)
  end.

Definition ApplyMoveDimsTo (t : TransformRep) (dimensions : list nat) (target : Z)
  (domain_only : bool) : Result (TransformRep * list nat) :=
  '(permutation, dimensions) ← MakePermutationFromMoveDimsTarget dimensions target (input_rank t);
  Ok (TransposeInputDimensions t permutation domain_only, dimensions).

Definition ApplyTranspose (t : TransformRep) (dimensions : list nat) (domain_only : bool)
  : Result (TransformRep * list nat) :=
  if negb (Nat.eqb (length dimensions) (input_rank t)) then Err kInvalidArgument
  else if negb (IsValidPermutation (Z.of_nat <$> dimensions)) then Err kInvalidArgument
  else Ok (TransposeInputDimensions t dimensions domain_only, seq 0 (length dimensions)).

(** One iteration: [permutation] so far, and the new positions of the dimensions. *)
Definition transpose_to_step (input_rank : nat) (st : list (option nat) * list nat)
  (x : nat * Z) : Result (list (option nat) * list nat) :=
  let '(permutation, dimensions) := st in
  let '(orig_dim, target) := x in
  target_dim ← NormalizeDimensionIndex target (Z.of_nat input_rank);
  let target_dim := Z.to_nat target_dim in
  match permutation !!! target_dim with
  | Some _ => Err kInvalidArgument
  | None => Ok (<[target_dim := Some orig_dim]> permutation, dimensions ++ [target_dim])
  end.

Definition ApplyTransposeTo (t : TransformRep) (dimensions : list nat)
  (target_dimensions : list Z) (domain_only : bool) : Result (TransformRep * list nat) :=
  if negb (Nat.eqb (length dimensions) (length target_dimensions)) then Err kInvalidArgument
  else
    '(assigned, new_dimensions) ←
      foldM (transpose_to_step (input_rank t)) (replicate (input_rank t) None, [])
        (zip dimensions target_dimensions);
    let permutation := fill_unassigned assigned (other_dims (input_rank t) dimensions) in
    Ok (TransposeInputDimensions t permutation domain_only, new_dimensions).

(** The target dimensions: indices and ranges, no labels. *)
Definition target_dimension (input_rank : nat) (result : list Z) (s : DynamicDimSpec)
  : Result (list Z) :=
  match s with
  | dim_index i => Ok (result ++ [i])
  | dim_range r => NormalizeDimRangeSpec r (Z.of_nat input_rank) result
  | dim_label _ => Err kInvalidArgument
  end.

Definition ApplyTransposeToDynamic (t : TransformRep) (dimensions : list nat)
  (target_dim_specs : list DynamicDimSpec) (domain_only : bool)
  : Result (TransformRep * list nat) :=
  match target_dim_specs with
  | [dim_index target] => ApplyMoveDimsTo t dimensions target domain_only
  | _ =>
      target_dimensions ← foldM (target_dimension (input_rank t)) [] target_dim_specs;
      ApplyTransposeTo t dimensions target_dimensions domain_only
  end.

Definition ApplyTranspose_dynamic (t : TransformRep) (source_dim_specs : list DynamicDimSpec)
  (domain_only : bool) : Result TransformRep :=
  source_dimensions ←
    NormalizeDynamicDimSpecs source_dim_specs (label <$> input_dimensions t) [];
  if negb (Nat.eqb (length source_dimensions) (input_rank t)) ||
     negb (IsValidPermutation source_dimensions) then Err kInvalidArgument
  else Ok (TransposeInputDimensions t (Z.to_nat <$> source_dimensions) domain_only).

(** ** Single-index slices *)

(** [new_input_dim] is [None] where the code stores [-1]. *)
Record InputDimensionSingletonSliceInfo := MkSingletonSlice {
  new_input_dim : option nat;
  slice_index : Z
}.

#[export] Instance singleton_slice_inhabited : Inhabited InputDimensionSingletonSliceInfo :=
  populate (MkSingletonSlice (Some 0%nat) 0).

(** One selected dimension: the info so far, and whether an index was out of range. *)
Definition singleton_step (t : TransformRep) (indices : IndexVectorOrScalar)
  (st : list InputDimensionSingletonSliceInfo * bool) (x : nat * nat)
  : list InputDimensionSingletonSliceInfo * bool :=
  let '(info, slice_error) := st in
  let '(i, original_input_dim) := x in
  let index := index_at indices i in
  let domain := optionally_implicit_domain (input_dimensions t !!! original_input_dim) in
  (<[original_input_dim := MkSingletonSlice None index]> info,
   slice_error || negb (Contains (effective_interval domain) index)).

(** Number the dimensions that are not sliced. *)
Fixpoint number_kept (new_dim : nat) (info : list InputDimensionSingletonSliceInfo)
  : list InputDimensionSingletonSliceInfo :=
  match info with
  | [] => []
  | s :: info =>
      match new_input_dim s with
      | None => s :: number_kept new_dim info
      | Some _ => MkSingletonSlice (Some new_dim) (slice_index s) :: number_kept (S new_dim) info
      end
  end.

Definition GetSingletonSlicingInfo (t : TransformRep) (dimensions : list nat)
  (indices : IndexVectorOrScalar) : Result (list InputDimensionSingletonSliceInfo) :=
  _ ← CheckIndexVectorSize indices (length dimensions);
  let '(info, slice_error) :=
    foldl (singleton_step t indices)
      (replicate (input_rank t) (MkSingletonSlice (Some 0%nat) 0), false) (numbered dimensions) in
  if (slice_error : bool) then Err kOutOfRange else Ok (number_kept 0 info).

(** The elements at the dimensions that are kept. *)
Fixpoint kept {A} (info : list InputDimensionSingletonSliceInfo) (l : list A) : list A :=
  match info, l with
  | s :: info, x :: l =>
      match new_input_dim s with None => kept info l | Some _ => x :: kept info l end
  | _, _ => []
  end.

(** The byte offset of the sliced dimensions of an index array. *)
Definition singleton_offset (info : list InputDimensionSingletonSliceInfo) (strides : list Z) : Z :=
  foldl (fun array_byte_offset p =>
      match new_input_dim p.1 with
      | None => wrap_on_overflow.Add array_byte_offset
                  (wrap_on_overflow.Multiply p.2 (slice_index p.1))
      | Some _ => array_byte_offset
      end) 0 (zip info strides).

Definition singleton_map (domain_is_explicitly_empty : bool)
  (info : list InputDimensionSingletonSliceInfo) (m : OutputIndexMap) : Result OutputIndexMap :=
  match method m with
  | constant => Ok (MkOutputIndexMap constant (offset m) 0)
  | single_input_dimension d =>
      let s := info !!! d in
      match new_input_dim s with
      | None =>
          let '(overflow1, o) := MulOverflow (slice_index s) (stride m) in
          let '(overflow2, o) := AddOverflow o (offset m) in
          if overflow1 || overflow2 then Err kInvalidArgument
          else Ok (MkOutputIndexMap constant o 0)
      | Some d => Ok (MkOutputIndexMap (single_input_dimension d) (offset m) (stride m))
      end
  | array data =>
      if domain_is_explicitly_empty then Ok constant_zero
      else
        let array_byte_offset := singleton_offset info (byte_strides data) in
        let strides := kept info (byte_strides data) in
        let p := AddByteOffset (element_pointer data) array_byte_offset in
        if existsb (fun s => negb (s =? 0)) strides then
          Ok (MkOutputIndexMap (array (MkIndexArrayData p (index_range data) strides))
                (offset m) (stride m))
        else
          '(o, s) ← ReplaceZeroRankIndexArrayIndexMap (element_pointer data array_byte_offset)
                      (index_range data) (offset m) (stride m);
          Ok (MkOutputIndexMap constant o s)
  end.

Definition PerformSingleIndexSlice (t : TransformRep)
  (info : list InputDimensionSingletonSliceInfo) (domain_only : bool) : Result TransformRep :=
  let dims := kept info (input_dimensions t) in
  let domain_is_explicitly_empty :=
    existsb (fun d => (size (domain d) =? 0) && negb (is_implicit d)) dims in
  maps ← mapR (singleton_map domain_is_explicitly_empty info)
           (output_index_maps (MutableRep t domain_only));
  Ok (MkTransform dims maps).

Definition ApplySingleIndexSlice (t : TransformRep) (dimensions : list nat)
  (indices : IndexVectorOrScalar) (domain_only : bool) : Result TransformRep :=
  info ← GetSingletonSlicingInfo t dimensions indices;
  PerformSingleIndexSlice t info domain_only.

(** ** New dimensions *)

(** An inert dimension. *)
Definition inert_dimension : IndexDomainDimension :=
  MkDimension (MkOI (UncheckedSized (-kInfIndex) kInfSize) true true) EmptyString.

Definition add_dims_map (new_input_rank : nat) (orig_to_new_input_dim : list nat)
  (m : OutputIndexMap) : OutputIndexMap :=
  match method m with
  | constant => m
  | single_input_dimension d =>
      MkOutputIndexMap (single_input_dimension (orig_to_new_input_dim !!! d)) (offset m) (stride m)
  | array data =>
      MkOutputIndexMap (array (MkIndexArrayData (element_pointer data) (index_range data)
        (assign (replicate new_input_rank 0) (zip orig_to_new_input_dim (byte_strides data)))))
        (offset m) (stride m)
  end.

Definition AddNewDims (t : TransformRep) (dimensions : list nat) (domain_only : bool)
  : TransformRep :=
  let new_input_rank := (input_rank t + length dimensions)%nat in
  let orig_to_new_input_dim := other_dims new_input_rank dimensions in
  MkTransform
    (assign (replicate new_input_rank inert_dimension)
       (zip orig_to_new_input_dim (input_dimensions t)))
    (add_dims_map new_input_rank orig_to_new_input_dim <$>
       output_index_maps (MutableRep t domain_only)).

(** [ValidateRank] accepts ranks up to [kMaxRank]. *)
Definition ApplyAddNewDims (t : TransformRep) (dimensions : list nat) (domain_only : bool)
  : Result TransformRep :=
  if kMaxRank <? Z.of_nat (input_rank t + length dimensions) then Err kInvalidArgument
  else Ok (AddNewDims t dimensions domain_only).

(** ** Diagonals *)

(** [orig_to_new_input_dim]: the selected dimensions go to dimension 0, the others are
    numbered from [new_dim]. *)
Fixpoint diagonal_numbers (dimensions : list nat) (new_dim : nat) (orig_dims : list nat)
  : list nat :=
  match orig_dims with
  | [] => []
  | d :: orig_dims =>
      if bool_decide (d ∈ dimensions) then 0%nat :: diagonal_numbers dimensions new_dim orig_dims
      else new_dim :: diagonal_numbers dimensions (S new_dim) orig_dims
  end.

Definition diagonal_map (domain_is_explicitly_empty : bool) (dimensions others orig_to_new : list nat)
  (m : OutputIndexMap) : OutputIndexMap :=
  match method m with
  | constant => m
  | single_input_dimension d =>
      MkOutputIndexMap (single_input_dimension (orig_to_new !!! d)) (offset m) (stride m)
  | array data =>
      if domain_is_explicitly_empty then constant_zero
      else
        let diag_byte_stride :=
          foldl (fun sum d => wrap64 (sum + byte_strides data !!! d)) 0 dimensions in
        MkOutputIndexMap (array (MkIndexArrayData (element_pointer data) (index_range data)
          (diag_byte_stride :: PermuteArray (byte_strides data) others))) (offset m) (stride m)
  end.

Definition ExtractDiagonal (t : TransformRep) (dimensions : list nat) (domain_only : bool)
  : TransformRep :=
  let selected := (fun d => optionally_implicit_domain (input_dimensions t !!! d)) <$> dimensions in
  let diagonal_bounds := foldl (fun bounds d => Intersect bounds (interval d)) Infinite selected in
  let lower_implicit := forallb implicit_lower selected in
  let upper_implicit := forallb implicit_upper selected in
  let others := other_dims (input_rank t) dimensions in
  let orig_to_new := diagonal_numbers dimensions 1 (seq 0 (input_rank t)) in
  let empty := negb lower_implicit && negb upper_implicit && (size diagonal_bounds =? 0) in
  MkTransform
    (MkDimension (MkOI diagonal_bounds lower_implicit upper_implicit) EmptyString ::
     PermuteArray (input_dimensions t) others)
    (diagonal_map empty dimensions others orig_to_new <$>
       output_index_maps (MutableRep t domain_only)).

(** The selected dimensions after the operation are [[0]]. *)
Definition ApplyDiagonal (t : TransformRep) (dimensions : list nat) (domain_only : bool)
  : TransformRep * list nat := (ExtractDiagonal t dimensions domain_only, [0%nat]).

(** * Change of dimensions

    Every operation of this file gives each original dimension either a new dimension
    to read its index from, or a fixed index. *)

Inductive Source := FromNew (d : nat) | Fixed (v : Z).

#[export] Instance Source_eq_dec : EqDecision Source.
Proof. solve_decision. Defined.

Definition source_value (idx' : list Z) (s : Source) : Z :=
  match s with FromNew d => idx' !!! d | Fixed v => v end.

(** The original indices that a vector of new indices stands for. *)
Definition pull (src : list Source) (idx' : list Z) : list Z := source_value idx' <$> src.

Lemma length_pull src idx' : length (pull src idx') = length src.
Proof. apply length_fmap. Qed.

(** The stride that new dimension [j] gets from the original dimensions that read it. *)
Definition contribution (src : list Source) (strides : list Z) (j : nat) : Z :=
  foldr Z.add 0 (zip_with (fun s st => if decide (s = FromNew j) then st else 0) src strides).

Definition fixed_part (src : list Source) (strides : list Z) : Z :=
  foldr Z.add 0 (zip_with (fun s st => match s with Fixed v => v * st | _ => 0 end) src strides).

Lemma dot_fmap_add idx (f g : nat -> Z) k n :
  dot idx ((fun j => f j + g j) <$> seq k n) = dot idx (f <$> seq k n) + dot idx (g <$> seq k n).
Proof.
  revert k idx; induction n as [|n IH]; intros k [|x idx]; try reflexivity.
  cbn. rewrite !dot_cons, IH. lia.
Qed.

Lemma dot_fmap_delta idx j0 x k :
  dot idx ((fun j => if decide (j = j0) then x else 0) <$> seq k (length idx)) =
  if decide (k <= j0 < k + length idx)%nat then idx !!! (j0 - k)%nat * x else 0.
Proof.
  revert k; induction idx as [|y idx IH]; intros k; cbn [length seq].
  { cbn. rewrite decide_False by lia. reflexivity. }
  rewrite fmap_cons, dot_cons, IH. destruct (decide (k = j0)) as [->|Hne].
  - rewrite (decide_False (P := (S j0 <= j0 < S j0 + length idx)%nat)) by lia.
    rewrite decide_True by lia. rewrite Nat.sub_diag. cbn. lia.
  - rewrite Z.mul_0_r, Z.add_0_l. destruct (decide (S k <= j0 < S k + length idx)%nat).
    + rewrite decide_True by lia. replace (j0 - k)%nat with (S (j0 - S k)) by lia. reflexivity.
    + rewrite decide_False by lia. reflexivity.
Qed.

Lemma dot_zero_fmap idx k n : dot idx ((fun _ => 0) <$> seq k n) = 0.
Proof.
  revert k idx; induction n as [|n IH]; intros k [|x idx]; try reflexivity.
  cbn. rewrite dot_cons, IH. lia.
Qed.

Lemma dot_contribution src strides idx' :
  length strides = length src ->
  (forall i j, src !! i = Some (FromNew j) -> (j < length idx')%nat) ->
  dot idx' (contribution src strides <$> seq 0 (length idx')) + fixed_part src strides =
  dot (pull src idx') strides.
Proof.
  revert strides; induction src as [|s src IH]; intros [|x strides] Hl Hj; try discriminate.
  - unfold fixed_part. cbn. rewrite (dot_zero_fmap idx' 0). reflexivity.
  - injection Hl as Hl. cbn [pull]. unfold pull. rewrite fmap_cons, dot_cons. fold (pull src idx').
    rewrite <- (IH strides Hl) by (intros i; exact (Hj (S i))).
    destruct s as [d|v]; unfold contribution at 1, fixed_part at 1; cbn [zip_with foldr].
    + rewrite (list_fmap_ext _ (fun j => (if decide (j = d) then x else 0) + contribution src strides j))
        by (intros i j _; cbn; destruct (decide (FromNew d = FromNew j)), (decide (j = d));
            first [reflexivity|congruence]).
      rewrite dot_fmap_add, dot_fmap_delta. rewrite decide_True by (specialize (Hj 0%nat d eq_refl); lia).
      rewrite Nat.sub_0_r. unfold fixed_part. cbn. lia.
    + rewrite (list_fmap_ext _ (contribution src strides)) by (intros; reflexivity).
      unfold fixed_part. cbn. lia.
Qed.

(** A new dimension that one original dimension reads gets its stride. *)
Lemma contribution_none src strides j :
  (forall i, src !! i <> Some (FromNew j)) -> contribution src strides j = 0.
Proof.
  unfold contribution. revert strides; induction src as [|s src IH]; intros [|x strides] H; try reflexivity.
  cbn. rewrite IH by (intros i; exact (H (S i))).
  rewrite decide_False by (intros ->; exact (H 0%nat eq_refl)). reflexivity.
Qed.

Lemma contribution_unique src strides i j x :
  src !! i = Some (FromNew j) -> strides !! i = Some x ->
  (forall i', src !! i' = Some (FromNew j) -> i' = i) ->
  contribution src strides j = x.
Proof.
  revert strides i; induction src as [|s src IH]; intros [|y strides] [|i] Hs Hx Hu; try discriminate.
  - injection Hs as ->. injection Hx as ->. unfold contribution. cbn.
    rewrite decide_True by reflexivity. fold (contribution src strides j).
    rewrite contribution_none by (intros i Hi; discriminate (Hu (S i) Hi)). lia.
  - unfold contribution. cbn. rewrite decide_False by (intros ->; discriminate (Hu 0%nat eq_refl)).
    apply (IH strides i Hs Hx). intros i' Hi'. injection (Hu (S i') Hi'). auto.
Qed.

(** Strides that agree modulo 2^64. *)
Lemma dot_congr idx s s' : Forall2 congr64 s s' -> congr64 (dot idx s) (dot idx s').
Proof.
  intros H. revert idx; induction H as [|x y s s' Hxy _ IH]; intros [|i idx]; try reflexivity.
  rewrite !dot_cons. rewrite Hxy, (IH idx). reflexivity.
Qed.

(** The new strides of an index array, with the byte offset of the fixed dimensions. *)
Lemma reindex_array src strides idx' strides' base :
  length strides = length src -> length strides' = length idx' ->
  (forall i j, src !! i = Some (FromNew j) -> (j < length idx')%nat) ->
  (forall j x, strides' !! j = Some x -> congr64 x (contribution src strides j)) ->
  congr64 base (fixed_part src strides) ->
  congr64 (base + dot idx' strides') (dot (pull src idx') strides).
Proof.
  intros Hl Hl' Hj Hs Hb. rewrite <- dot_contribution by assumption.
  rewrite Hb, (dot_congr idx' strides' (contribution src strides <$> seq 0 (length idx'))).
  - apply congr64_eq. lia.
  - apply Forall2_same_length_lookup. split; [rewrite length_fmap, length_seq; exact Hl'|].
    intros j x y Hx Hy. rewrite list_lookup_fmap in Hy.
    apply fmap_Some in Hy as (k & Hk & ->). apply lookup_seq in Hk as [-> _]. exact (Hs j x Hx).
Qed.

(** ** Domains *)

Definition source_admitted (dims' : list IndexDomainDimension) (d : IndexDomainDimension)
  (s : Source) : Prop :=
  match s with
  | FromNew j => exists d', dims' !! j = Some d' /\
      optionally_implicit_domain d' = optionally_implicit_domain d
  | Fixed v => IsFiniteIndex v = true /\ admits (optionally_implicit_domain d) v
  end.

Lemma reindex_domain src dims dims' idx' :
  Forall2 (source_admitted dims') dims src ->
  (forall j d', dims' !! j = Some d' -> (exists i, src !! i = Some (FromNew j)) \/
     forall v, admits (optionally_implicit_domain d') v) ->
  length idx' = length dims' -> Forall (fun v => IsFiniteIndex v = true) idx' ->
  (in_domain dims' idx' <-> in_domain dims (pull src idx')).
Proof.
  intros HS Hnew Hl Hf. rewrite !in_domain_alt, length_pull. split; intros [_ H].
  - split; [symmetry; exact (Forall2_length _ _ _ HS)|]. intros i d v Hd Hv.
    destruct (Forall2_lookup_l _ _ _ _ _ HS Hd) as (s & Hs & Hadm).
    unfold pull in Hv. rewrite list_lookup_fmap, Hs in Hv. injection Hv as <-.
    destruct s as [j|v]; [|exact Hadm]. destruct Hadm as (d' & Hd' & E). cbn [source_value].
    destruct (lookup_lt_is_Some_2 idx' j) as [v Hv]; [apply lookup_lt_Some in Hd'; lia|].
    rewrite (list_lookup_total_correct _ _ _ Hv), <- E. exact (H j d' v Hd' Hv).
  - split; [exact Hl|]. intros j d' v Hd' Hv.
    split; [exact (Forall_lookup_1 _ _ _ _ Hf Hv)|].
    destruct (Hnew j d' Hd') as [[i Hi]|Ha]; [|apply Ha].
    destruct (Forall2_lookup_r _ _ _ _ _ HS Hi) as (d & Hd & (d'' & Hd'' & E)).
    rewrite Hd' in Hd''. injection Hd'' as <-. rewrite E. apply (H i d v Hd).
    unfold pull. rewrite list_lookup_fmap, Hi. cbn.
    rewrite (list_lookup_total_correct _ _ _ Hv). reflexivity.
Qed.

(** An array map that reads the element at the same place. *)
Lemma array_value m data data' idx idx' :
  method m = array data -> index_range data' = index_range data ->
  element_pointer data' (IndexInnerProduct idx' (byte_strides data')) =
  element_pointer data (IndexInnerProduct idx (byte_strides data)) ->
  output_index (MkOutputIndexMap (array data') (offset m) (stride m)) idx' = output_index m idx.
Proof.
  intros E Hr Hp. unfold output_index, base_output_index. cbn [method offset stride].
  rewrite E, Hp, Hr. reflexivity.
Qed.

Lemma pull_lookup src idx' i j :
  src !! i = Some (FromNew j) -> pull src idx' !!! i = idx' !!! j.
Proof.
  intros H. unfold pull. apply list_lookup_total_correct. rewrite list_lookup_fmap, H. reflexivity.
Qed.

(** * Transposition *)

(** The dimensions [0], ..., [n - 1] in some order. *)
Definition permutes (n : nat) (perm : list nat) : Prop := perm ≡ₚ seq 0 n.

Lemma permutes_length n perm : permutes n perm -> length perm = n.
Proof. intros H. rewrite H. apply length_seq. Qed.

Lemma permutes_spec n perm :
  permutes n perm <-> length perm = n /\ permutation (Z.of_nat <$> perm).
Proof.
  unfold permutes, permutation. split.
  - intros H. assert (Hl : length perm = n) by (rewrite H; apply length_seq). split; [exact Hl|].
    rewrite length_fmap, Hl. split.
    + apply NoDup_fmap_2; [apply _|]. rewrite H. apply NoDup_seq.
    + rewrite H. apply Forall_fmap, Forall_forall. intros x Hx%elem_of_seq. cbn. lia.
  - intros (Hl & Hn & HF). apply NoDup_fmap_1 in Hn.
    apply submseteq_length_Permutation; [|rewrite length_seq; lia].
    apply NoDup_submseteq; [exact Hn|]. intros x Hx. apply elem_of_seq.
    rewrite Forall_fmap, Forall_forall in HF. specialize (HF x Hx). cbn in HF.
    rewrite length_fmap in HF. lia.
Qed.

Lemma length_inverse perm : length (inverse_dimension_map perm) = length perm.
Proof.
  unfold inverse_dimension_map, InvertPermutation.
  rewrite length_fmap, length_assign, length_replicate. reflexivity.
Qed.

Lemma inverse_at n perm k d :
  permutes n perm -> (perm !! k = Some d <-> inverse_dimension_map perm !! d = Some k).
Proof.
  intros [Hl Hp]%permutes_spec. unfold inverse_dimension_map.
  pose proof (InvertPermutation_inverse (Z.of_nat <$> perm) (replicate (length perm) 0) k (Z.of_nat d)
    Hp ltac:(rewrite length_replicate, length_fmap; reflexivity) ltac:(lia)) as Hi.
  pose proof (InvertPermutation_permutation (Z.of_nat <$> perm) (replicate (length perm) 0) Hp
    ltac:(rewrite length_replicate, length_fmap; reflexivity)) as [_ HF].
  rewrite Nat2Z.id in Hi. rewrite !list_lookup_fmap in *.
  set (inv := InvertPermutation _ _) in *. split.
  - intros E. rewrite E in Hi. rewrite (proj1 Hi eq_refl). cbn. rewrite Nat2Z.id. reflexivity.
  - intros (z & Hz & ->)%fmap_Some. pose proof (Forall_lookup_1 _ _ _ _ HF Hz) as Hz0. cbn in Hz0.
    rewrite Z2Nat.id in Hi by lia. apply proj2 in Hi. specialize (Hi Hz).
    apply fmap_Some in Hi as (d' & Hd' & E). rewrite Hd'. f_equal. lia.
Qed.

Lemma length_PermuteArray {A} `{!Inhabited A} (l : list A) perm :
  length (PermuteArray l perm) = length perm.
Proof. apply length_fmap. Qed.

Lemma PermuteArray_lookup {A} `{!Inhabited A} (l : list A) perm k d x :
  perm !! k = Some d -> l !! d = Some x -> PermuteArray l perm !! k = Some x.
Proof.
  intros Hd Hx. unfold PermuteArray. rewrite list_lookup_fmap, Hd. cbn.
  rewrite (list_lookup_total_correct _ _ _ Hx). reflexivity.
Qed.

Lemma PermuteArray_inv {A} `{!Inhabited A} (l : list A) perm k x :
  Forall (fun d => (d < length l)%nat) perm -> PermuteArray l perm !! k = Some x ->
  exists d, perm !! k = Some d /\ l !! d = Some x.
Proof.
  unfold PermuteArray. rewrite list_lookup_fmap. intros HF (d & Hd & ->)%fmap_Some.
  exists d. split; [exact Hd|]. apply list_lookup_lookup_total_lt.
  exact (Forall_lookup_1 _ _ _ _ HF Hd).
Qed.

Lemma permutes_bound n perm : permutes n perm -> Forall (fun d => (d < n)%nat) perm.
Proof. intros H. rewrite H. apply Forall_forall. intros x Hx%elem_of_seq. lia. Qed.

Lemma permutes_NoDup n perm : permutes n perm -> NoDup perm.
Proof. intros H. rewrite H. apply NoDup_seq. Qed.

Lemma permutes_onto n perm d : permutes n perm -> (d < n)%nat -> exists k, perm !! k = Some d.
Proof. intros H Hd. apply list_elem_of_lookup. rewrite H. apply elem_of_seq. lia. Qed.

(** The sources of a transposition undo the permutation of the indices. *)
Lemma pull_transpose n perm idx :
  permutes n perm -> length idx = n ->
  pull (FromNew <$> inverse_dimension_map perm) (PermuteArray idx perm) = idx.
Proof.
  intros Hp Hl. pose proof (permutes_length _ _ Hp) as Hlp.
  apply list_eq_same_length with n; [exact Hl| |].
  { rewrite length_pull, length_fmap, length_inverse. exact Hlp. }
  intros d x y Hd Hx Hy. destruct (permutes_onto n perm d Hp Hd) as [k Hk].
  unfold pull in Hx. rewrite !list_lookup_fmap, (proj1 (inverse_at n perm k d Hp) Hk) in Hx.
  injection Hx as <-. cbn.
  rewrite (list_lookup_total_correct _ _ _ (PermuteArray_lookup idx perm k d y Hk Hy)). reflexivity.
Qed.

Lemma transpose_contribution n perm strides j x :
  permutes n perm -> length strides = n -> PermuteArray strides perm !! j = Some x ->
  x = contribution (FromNew <$> inverse_dimension_map perm) strides j.
Proof.
  intros Hp Hl H. apply PermuteArray_inv in H as (d & Hd & Hx);
    [|rewrite Hl; exact (permutes_bound n perm Hp)].
  symmetry. apply (contribution_unique _ _ d); [|exact Hx|].
  - rewrite list_lookup_fmap, (proj1 (inverse_at n perm j d Hp) Hd). reflexivity.
  - intros i Hi. rewrite list_lookup_fmap in Hi. apply fmap_Some in Hi as (k & Hk & [= <-]).
    apply (inverse_at n perm j i Hp) in Hk. congruence.
Qed.

Lemma fixed_part_new (l : list nat) strides : fixed_part (FromNew <$> l) strides = 0.
Proof.
  unfold fixed_part. revert strides; induction l as [|d l IH]; intros [|x strides]; try reflexivity.
  cbn. rewrite IH. reflexivity.
Qed.

Lemma permute_map_value n perm m idx :
  permutes n perm -> typed_map n m -> length idx = n ->
  match method m with single_input_dimension d => (d < n)%nat | _ => True end ->
  output_index (permute_map perm (inverse_dimension_map perm) m) (PermuteArray idx perm) =
  output_index m idx.
Proof.
  intros Hp (_ & _ & Ht) Hl Hd. unfold permute_map.
  pose proof (pull_transpose n perm idx Hp Hl) as Hpull.
  destruct (method m) as [|d|data] eqn:E.
  - unfold output_index, base_output_index. rewrite E. reflexivity.
  - destruct (permutes_onto n perm d Hp Hd) as [k Hk].
    destruct (lookup_lt_is_Some_2 idx d) as [v Hv]; [lia|].
    unfold output_index, base_output_index. rewrite E. cbn [method].
    rewrite (list_lookup_total_correct _ _ _ (proj1 (inverse_at n perm k d Hp) Hk)).
    rewrite (list_lookup_total_correct _ _ _ (PermuteArray_lookup idx perm k d v Hk Hv)),
      (list_lookup_total_correct _ _ _ Hv). reflexivity.
  - destruct Ht as [Hs _]. apply (array_value m data); [exact E|reflexivity|].
    cbn [element_pointer byte_strides]. f_equal. rewrite !IndexInnerProduct_dot. rewrite <- Hpull at 2.
    pose proof (reindex_array (FromNew <$> inverse_dimension_map perm) (byte_strides data)
      (PermuteArray idx perm) (PermuteArray (byte_strides data) perm) 0) as HR.
    rewrite Z.add_0_l in HR. apply HR.
    + rewrite length_fmap, length_inverse, (permutes_length _ _ Hp). exact Hs.
    + rewrite !length_PermuteArray. reflexivity.
    + intros i j Hi. rewrite list_lookup_fmap in Hi. apply fmap_Some in Hi as (k & Hk & [= <-]).
      apply (inverse_at n perm j i Hp) in Hk. rewrite length_PermuteArray. exact (lookup_lt_Some _ _ _ Hk).
    + intros j x Hx. apply congr64_eq. exact (transpose_contribution n perm _ j x Hp Hs Hx).
    + rewrite fixed_part_new. reflexivity.
Qed.

(** A transposed transform at the transposed indices. *)
Definition transposed_by (t : TransformRep) (perm : list nat) (t' : TransformRep) : Prop :=
  permutes (input_rank t) perm /\
  input_dimensions t' = PermuteArray (input_dimensions t) perm /\
  forall idx, length idx = input_rank t -> Forall (fun v => IsFiniteIndex v = true) idx ->
    TransformIndices t' (PermuteArray idx perm) = TransformIndices t idx.

Lemma PermuteArray_Forall {A} `{!Inhabited A} (P : A -> Prop) l perm :
  Forall P l -> Forall (fun d => (d < length l)%nat) perm -> Forall P (PermuteArray l perm).
Proof.
  intros HP HF. apply Forall_lookup. intros k x Hx.
  destruct (PermuteArray_inv l perm k x HF Hx) as (d & _ & Hd). exact (Forall_lookup_1 _ _ _ _ HP Hd).
Qed.

Lemma TransposeInputDimensions_value t perm :
  WellFormed t -> permutes (input_rank t) perm ->
  transposed_by t perm (TransposeInputDimensions t perm false).
Proof.
  intros HW Hp. split; [exact Hp|]. split; [reflexivity|]. intros idx Hl Hf.
  pose proof (WellFormed_valid_dims t HW) as HV. pose proof (permutes_bound _ _ Hp) as Hb.
  apply TransformIndices_reindex; [exact HV| |exact Hl| | |].
  - apply PermuteArray_Forall; [exact HV|exact Hb].
  - unfold input_rank, TransposeInputDimensions. cbn. rewrite !length_PermuteArray. reflexivity.
  - rewrite <- (pull_transpose _ perm idx Hp Hl) at 2. apply reindex_domain.
    + apply Forall2_same_length_lookup. split.
      { rewrite length_fmap, length_inverse, (permutes_length _ _ Hp). reflexivity. }
      intros d x s Hd Hs. rewrite list_lookup_fmap in Hs. apply fmap_Some in Hs as (k & Hk & ->).
      apply (inverse_at _ perm k d Hp) in Hk. exists x. split; [|reflexivity].
      exact (PermuteArray_lookup _ perm k d x Hk Hd).
    + intros j d' Hd'. left. apply PermuteArray_inv in Hd' as (d & Hd & _); [|exact Hb].
      exists d. rewrite list_lookup_fmap, (proj1 (inverse_at _ perm j d Hp) Hd). reflexivity.
    + unfold TransposeInputDimensions. cbn. rewrite !length_PermuteArray. reflexivity.
    + apply PermuteArray_Forall; [exact Hf|]. rewrite Hl. exact Hb.
  - intros _. apply Forall2_fmap_r, Forall_Forall2_diag, Forall_forall. intros m Hm.
    apply (permute_map_value (input_rank t)); [exact Hp|apply (WellFormed_map t m HW Hm)|exact Hl|].
    destruct (method m) as [|d|] eqn:E; try exact I. exact (single_in_range t m d HW Hm E).
Qed.

(** ** Permutations that move the selected dimensions *)

Lemma other_dims_elem n dims d : d ∈ other_dims n dims <-> (d < n)%nat /\ d ∉ dims.
Proof. unfold other_dims. rewrite list_elem_of_filter, elem_of_seq. split; intros; [|split]; lia || tauto. Qed.

Lemma other_dims_NoDup n dims : NoDup (other_dims n dims).
Proof. apply NoDup_filter, NoDup_seq. Qed.

(** The selected dimensions and the others are all the dimensions. *)
Lemma dims_and_others n dims :
  NoDup dims -> Forall (fun d => (d < n)%nat) dims -> permutes n (dims ++ other_dims n dims).
Proof.
  intros Hn Hb. unfold permutes. apply NoDup_Permutation; [|apply NoDup_seq|].
  - apply NoDup_app. split; [exact Hn|]. split; [|apply other_dims_NoDup].
    intros d Hd. rewrite other_dims_elem. tauto.
  - intros d. rewrite elem_of_app, other_dims_elem, elem_of_seq. rewrite Forall_forall in Hb.
    destruct (decide (d ∈ dims)) as [Hd|Hd]; [specialize (Hb d Hd)|]; intuition lia.
Qed.

Lemma length_other_dims n dims :
  NoDup dims -> Forall (fun d => (d < n)%nat) dims -> length (other_dims n dims) = (n - length dims)%nat.
Proof.
  intros Hn Hb. pose proof (permutes_length _ _ (dims_and_others n dims Hn Hb)) as H.
  rewrite length_app in H. lia.
Qed.

Definition unassigned (a : list (option nat)) : nat := length (filter (fun x => x = None) a).

Lemma fill_unassigned_Permutation a rest :
  unassigned a = length rest -> fill_unassigned a rest ≡ₚ omap id a ++ rest.
Proof.
  unfold unassigned. revert rest; induction a as [|[d|] a IH]; intros rest H.
  - destruct rest; [reflexivity|discriminate].
  - rewrite filter_cons_False in H by discriminate. cbn. rewrite IH by exact H. reflexivity.
  - rewrite filter_cons_True in H by reflexivity. destruct rest as [|r rest]; [discriminate|].
    injection H as H. cbn. rewrite IH by exact H. apply Permutation_middle.
Qed.

(** The unassigned places are filled in order. *)
Lemma fill_unassigned_others a rest (dims : list nat) : unassigned a = length rest ->
  (forall d : nat, d ∈ (omap id a : list nat) -> d ∈ dims) -> (forall d, d ∈ rest -> d ∉ dims) ->
  filter (fun d => d ∉ dims) (fill_unassigned a rest) = rest.
Proof.
  revert rest; induction a as [|[x|] a IH]; intros rest Hl Ha Hr.
  - destruct rest; [reflexivity|discriminate].
  - cbn [fill_unassigned]. rewrite filter_cons_False.
    + apply IH; [exact Hl| |exact Hr]. intros d Hd. apply Ha. cbn. apply list_elem_of_further, Hd.
    + intros H. apply H, Ha. cbn. apply list_elem_of_here.
  - destruct rest as [|y rest]; [discriminate|]. cbn [fill_unassigned].
    rewrite filter_cons_True by (apply Hr, list_elem_of_here). f_equal.
    apply IH; [injection Hl as Hl; exact Hl|exact Ha|]. intros d Hd. apply Hr, list_elem_of_further, Hd.
Qed.

Lemma fill_unassigned_at a rest i d :
  a !! i = Some (Some d) -> fill_unassigned a rest !! i = Some d.
Proof.
  revert rest i; induction a as [|[e|] a IH]; intros rest [|i] H; try discriminate.
  - injection H as ->. reflexivity.
  - cbn. apply IH, H.
  - destruct rest; cbn; apply IH, H.
Qed.

Lemma fill_unassigned_app a b rest :
  fill_unassigned (a ++ b) rest =
  fill_unassigned a (take (unassigned a) rest) ++ fill_unassigned b (drop (unassigned a) rest).
Proof.
  unfold unassigned. revert rest; induction a as [|[e|] a IH]; intros rest; [reflexivity| |].
  - rewrite filter_cons_False by discriminate. cbn. rewrite IH. reflexivity.
  - rewrite filter_cons_True by reflexivity. destruct rest as [|r rest]; cbn.
    + rewrite IH, take_nil, drop_nil. reflexivity.
    + rewrite IH. reflexivity.
Qed.

Lemma fill_all_unassigned n rest : length rest = n -> fill_unassigned (replicate n None) rest = rest.
Proof.
  revert rest; induction n as [|n IH]; intros [|r rest] H; try discriminate; [reflexivity|].
  injection H as H. cbn. rewrite IH by exact H. reflexivity.
Qed.

Lemma fill_all_assigned l rest : fill_unassigned (Some <$> l) rest = l.
Proof. induction l as [|d l IH]; cbn; [reflexivity|]. rewrite IH. reflexivity. Qed.

Lemma unassigned_replicate n : unassigned (replicate n None) = n.
Proof.
  unfold unassigned. induction n as [|n IH]; [reflexivity|]. cbn [replicate].
  rewrite filter_cons_True by reflexivity. cbn. rewrite IH. reflexivity.
Qed.

Lemma unassigned_Some (l : list nat) : unassigned (Some <$> l) = 0%nat.
Proof.
  unfold unassigned. induction l as [|d l IH]; [reflexivity|]. cbn [fmap list_fmap].
  rewrite filter_cons_False by discriminate. exact IH.
Qed.

(** Assigning a run of positions. *)
Lemma assign_run {A} (x : A) n k vs :
  (k + length vs <= n)%nat ->
  assign (replicate n x) (zip (seq k (length vs)) vs) =
  replicate k x ++ vs ++ replicate (n - k - length vs) x.
Proof.
  intros Hle. apply list_eq_same_length with n.
  - rewrite !length_app, !length_replicate. lia.
  - rewrite length_assign. apply length_replicate.
  - intros i y z Hi Hy Hz. destruct (decide (k <= i < k + length vs)%nat) as [Hin|Hout].
    + destruct (lookup_lt_is_Some_2 vs (i - k)) as [v Hv]; [lia|].
      rewrite (assign_zip_at _ _ _ (i - k) i v) in Hy.
      * rewrite lookup_app_r, length_replicate, lookup_app_l, Hv in Hz
          by (rewrite ?length_replicate; lia). congruence.
      * apply NoDup_seq.
      * rewrite lookup_seq_lt by lia. f_equal. lia.
      * exact Hv.
      * rewrite length_seq. reflexivity.
      * rewrite length_replicate. exact Hi.
    + rewrite assign_other in Hy.
      2:{ rewrite fst_zip by (rewrite length_seq; lia). rewrite elem_of_seq. lia. }
      apply lookup_replicate in Hy as [-> _].
      destruct (decide (i < k)%nat).
      * rewrite lookup_app_l in Hz by (rewrite length_replicate; lia).
        apply lookup_replicate in Hz as [-> _]. reflexivity.
      * rewrite lookup_app_r, length_replicate, lookup_app_r in Hz by (rewrite ?length_replicate; lia).
        apply lookup_replicate in Hz as [-> _]. reflexivity.
Qed.

(** The permutation of a move: the selected dimensions, as a run at the target. *)
Lemma MakePermutation_spec dims target n perm dims' :
  NoDup dims -> Forall (fun d => (d < n)%nat) dims -> dims <> [] ->
  MakePermutationFromMoveDimsTarget dims target n = Ok (perm, dims') ->
  permutes n perm /\
  exists k, NormalizeDimensionIndex target (Z.of_nat n - Z.of_nat (length dims) + 1) = Ok (Z.of_nat k) /\
    dims' = seq k (length dims) /\
    perm = take k (other_dims n dims) ++ dims ++ drop k (other_dims n dims).
Proof.
  intros Hn Hb Hne H. pose proof (length_other_dims n dims Hn Hb) as Ho.
  pose proof (permutes_length _ _ (dims_and_others n dims Hn Hb)) as Hlen. rewrite length_app in Hlen.
  unfold MakePermutationFromMoveDimsTarget in H. destruct dims as [|d0 ds] eqn:Ed; [contradiction|].
  rewrite <- Ed in *. clear Ed d0 ds.
  apply bind_Ok in H as (k0 & Hk & [= <- <-]).
  pose proof Hk as (Hb0 & _)%NormalizeDimensionIndex_spec; [|lia].
  rewrite <- (Z2Nat.id k0) in Hk by lia. set (k := Z.to_nat k0) in *.
  assert (Hkl : (k + length dims <= n)%nat) by lia.
  assert (E : fill_unassigned (assign (replicate n None) (zip (seq k (length dims)) (Some <$> dims)))
    (other_dims n dims) = take k (other_dims n dims) ++ dims ++ drop k (other_dims n dims)).
  { rewrite <- (length_fmap Some dims) at 1. rewrite assign_run by (rewrite length_fmap; exact Hkl).
    rewrite !fill_unassigned_app, unassigned_replicate, unassigned_Some, drop_0, take_0.
    rewrite fill_all_unassigned by (rewrite length_take; lia).
    rewrite fill_all_assigned. rewrite fill_all_unassigned; [reflexivity|].
    rewrite length_drop, length_fmap. lia. }
  split; [|exists k; auto]. rewrite E. unfold permutes.
  rewrite <- (dims_and_others n dims Hn Hb). rewrite <- (take_drop k (other_dims n dims)) at 3.
  rewrite !app_assoc. f_equiv. apply Permutation_app_comm.
Qed.

Lemma omap_insert a k d :
  a !! k = Some None -> omap id (<[k := Some d]> a) ≡ₚ d :: omap id a /\
  S (unassigned (<[k := Some d]> a)) = unassigned a.
Proof.
  unfold unassigned. revert k; induction a as [|x a IH]; intros [|k] H; try discriminate.
  - injection H as ->. cbn [insert list_insert].
    rewrite (filter_cons_False _ (Some d)), (filter_cons_True _ None) by (reflexivity || discriminate).
    split; reflexivity.
  - cbn in H. destruct (IH k H) as [E1 E2]. cbn [insert list_insert].
    change (list_insert k (Some d) a) with (<[k:=Some d]> a).
    destruct x as [e|].
    + rewrite !filter_cons_False by discriminate. split; [|exact E2].
      cbn. rewrite E1. apply Permutation_swap.
    + rewrite !filter_cons_True by reflexivity. split; [exact E1|]. exact (f_equal S E2).
Qed.

(** The loop of [ApplyTransposeTo]. *)
Lemma transpose_to_fold n dims targets a0 ds0 a ds :
  length a0 = n -> length dims = length targets ->
  foldM (transpose_to_step n) (a0, ds0) (zip dims targets) = Ok (a, ds) ->
  length a = n /\ omap id a ≡ₚ dims ++ omap id a0 /\
  (unassigned a + length dims = unassigned a0)%nat /\
  (forall i x, a0 !! i = Some (Some x) -> a !! i = Some (Some x)) /\
  exists new, ds = ds0 ++ new /\
    Forall2 (fun d k => a !! k = Some (Some d)) dims new /\
    Forall2 (fun g k => NormalizeDimensionIndex g (Z.of_nat n) = Ok (Z.of_nat k)) targets new.
Proof.
  revert targets a0 ds0; induction dims as [|d dims IH]; intros [|g targets] a0 ds0 Hl0 Hl H;
    try discriminate.
  - injection H as <- <-. cbn. repeat split; auto. exists []. rewrite app_nil_r. auto.
  - injection Hl as Hl. cbn in H. apply bind_Ok in H as ([a1 ds1] & H1 & H2).
    apply bind_Ok in H1 as (k0 & Hk & H1). pose proof Hk as [Hb _]%NormalizeDimensionIndex_spec; [|lia].
    rewrite <- (Z2Nat.id k0) in Hk by lia. set (k := Z.to_nat k0) in *.
    destruct (lookup_lt_is_Some_2 a0 k) as [x Hx]; [lia|].
    rewrite (list_lookup_total_correct _ _ _ Hx) in H1. destruct x; [discriminate|].
    injection H1 as <- <-. destruct (omap_insert a0 k d Hx) as [E1 E2].
    destruct (IH targets (<[k:=Some d]> a0) (ds0 ++ [k])) as (La & Pa & Ua & Ka & new & -> & F1 & F2);
      [rewrite length_insert; exact Hl0|exact Hl|exact H2|].
    split; [exact La|]. split.
    { rewrite Pa, E1. cbn. symmetry. apply Permutation_middle. }
    split; [cbn; lia|]. split.
    { intros i y Hi. apply Ka. rewrite list_lookup_insert_ne; [exact Hi|]. intros ->. congruence. }
    exists (k :: new). rewrite <- app_assoc. split; [reflexivity|]. split; [|constructor; assumption].
    constructor; [|exact F1]. apply Ka, list_lookup_insert_eq. lia.
Qed.

Lemma omap_replicate_None (n : nat) : omap id (replicate n (@None nat)) = [].
Proof. induction n; [reflexivity|assumption]. Qed.

(** C33: [ApplyTranspose], [ApplyMoveDimsTo] and [ApplyTransposeTo] permute the input
    dimensions: at the permuted indices, the new transform evaluates like the old one,
    errors included.  The selected dimensions end up where the operation says, and the
    others keep their order: for [ApplyTransposeTo], the dimensions that are not selected are, in the
    order of the new dimensions, in ascending order. *)
Theorem transpose_ops_correct t dims t' dims' target targets :
  WellFormed t -> selects_dims t dims ->
  (ApplyTranspose t dims false = Ok (t', dims') -> transposed_by t dims t') /\
  (dims <> [] -> ApplyMoveDimsTo t dims target false = Ok (t', dims') ->
   exists k, dims' = seq k (length dims) /\
     NormalizeDimensionIndex target (Z.of_nat (input_rank t) - Z.of_nat (length dims) + 1)
       = Ok (Z.of_nat k) /\
     transposed_by t (take k (other_dims (input_rank t) dims) ++ dims ++
                      drop k (other_dims (input_rank t) dims)) t') /\
  (ApplyTransposeTo t dims targets false = Ok (t', dims') ->
   exists perm, transposed_by t perm t' /\
     Forall2 (fun d k => perm !! k = Some d) dims dims' /\
     filter (fun d => d ∉ dims) perm = filter (fun d => d ∉ dims) (seq 0 (input_rank t)) /\
     Forall2 (fun g k => NormalizeDimensionIndex g (Z.of_nat (input_rank t)) = Ok (Z.of_nat k))
       targets dims').
Proof.
  intros HW [Hn Hb]. split; [|split].
  - intros H. unfold ApplyTranspose in H.
    destruct (Nat.eqb_spec (length dims) (input_rank t)) as [Hl|]; [|discriminate].
    destruct (IsValidPermutation (Z.of_nat <$> dims)) eqn:E; [|discriminate]. injection H as <- _.
    apply TransposeInputDimensions_value; [exact HW|]. apply permutes_spec.
    split; [exact Hl|]. apply IsValidPermutation_spec in E. tauto.
  - intros Hne H. apply bind_Ok in H as ([perm ds] & Hp & [= <- <-]).
    destruct (MakePermutation_spec dims target _ perm ds Hn Hb Hne Hp) as (Hperm & k & Hk & -> & ->).
    exists k. split; [reflexivity|]. split; [exact Hk|].
    apply TransposeInputDimensions_value; assumption.
  - intros H. unfold ApplyTransposeTo in H.
    destruct (Nat.eqb_spec (length dims) (length targets)) as [Hl|]; [|discriminate].
    apply bind_Ok in H as ([a ds] & Hf & [= <- <-]).
    destruct (transpose_to_fold _ _ _ _ _ _ _ (length_replicate _ _) Hl Hf)
      as (La & Pa & Ua & _ & new & -> & F1 & F2).
    rewrite omap_replicate_None, app_nil_r in Pa. rewrite unassigned_replicate in Ua.
    eexists. split; [apply TransposeInputDimensions_value; [exact HW|]|].
    + unfold permutes. rewrite fill_unassigned_Permutation, Pa; [apply dims_and_others; assumption|].
      rewrite length_other_dims by assumption. lia.
    + split; [|split; [|exact F2]].
      * eapply Forall2_impl; [exact F1|]. intros d k. apply fill_unassigned_at.
      * apply (fill_unassigned_others a (other_dims (input_rank t) dims)); [rewrite length_other_dims by assumption; lia| |].
        -- intros d. rewrite Pa. tauto.
        -- intros d Hd%other_dims_elem. apply Hd.
Qed.

Lemma transpose_ops_correct_witness :
  exists t', ApplyMoveDimsTo example_transform [1%nat] 0 false = Ok (t', [0%nat]) /\
    TransformIndices t' [4; 3] = Ok [11; 25].
Proof.
  assert (HW : WellFormed example_transform) by (apply WellFormedb_spec; vm_compute; reflexivity).
  assert (Hs : selects_dims example_transform [1%nat])
    by (split; [apply (bool_decide_eq_true_1 _); vm_compute; reflexivity|repeat constructor]).
  destruct (ApplyMoveDimsTo example_transform [1%nat] 0 false) as [[t' ds]|e] eqn:E;
    [|discriminate E].
  destruct (proj1 (proj2 (transpose_ops_correct example_transform [1%nat] t' ds 0 [] HW Hs))
    ltac:(discriminate) E) as (k & -> & Hk & (_ & _ & Hv)).
  change (Ok 0 = Ok (Z.of_nat k)) in Hk. injection Hk as Hk. exists t'.
  assert (k = 0%nat) as -> by lia. split; [reflexivity|].
  change [4; 3] with (PermuteArray [3; 4] (take 0 (other_dims 2 [1%nat]) ++ [1%nat] ++
    drop 0 (other_dims 2 [1%nat]))).
  rewrite Hv; [vm_compute; reflexivity|reflexivity|repeat constructor].
Defined.

(** * Single-index slices *)

Abbreviation slice_info := InputDimensionSingletonSliceInfo.

Lemma length_number_kept k info : length (number_kept k info) = length info.
Proof.
  revert k; induction info as [|s info IH]; intros k; cbn; [reflexivity|].
  destruct (new_input_dim s); cbn; rewrite IH; reflexivity.
Qed.

Lemma kept_number {A} k info (l : list A) : kept (number_kept k info) l = kept info l.
Proof.
  revert k l; induction info as [|s info IH]; intros k [|x l]; try reflexivity.
  - cbn. destruct (new_input_dim s); reflexivity.
  - cbn. destruct (new_input_dim s) eqn:E; cbn; rewrite ?E, IH; reflexivity.
Qed.

(** The numbering gives each kept element its position among the kept ones. *)
Lemma number_kept_lookup {A} k info (l : list A) d s j :
  length l = length info -> number_kept k info !! d = Some s -> new_input_dim s = Some j ->
  (k <= j)%nat /\ (kept info l !! (j - k)%nat = l !! d) /\ (d < length l)%nat.
Proof.
  revert k l d; induction info as [|s0 info IH]; intros k [|x l] d Hl Hd Hs; try discriminate.
  injection Hl as Hl. cbn [number_kept kept] in *.
  destruct (new_input_dim s0) eqn:E0; destruct d as [|d]; cbn in Hd.
  - injection Hd as <-. injection Hs as <-. rewrite Nat.sub_diag. cbn. split; [lia|].
    split; [reflexivity|lia].
  - destruct (IH (S k) l d Hl Hd Hs) as (H1 & H2 & H3). split; [lia|].
    replace (j - k)%nat with (S (j - S k)) by lia. split; [exact H2|cbn; lia].
  - injection Hd as <-. congruence.
  - destruct (IH k l d Hl Hd Hs) as (H1 & H2 & H3). split; [exact H1|]. split; [exact H2|cbn; lia].
Qed.

Lemma number_kept_onto {A} k info (l : list A) j x :
  length l = length info -> kept info l !! j = Some x ->
  exists d s, number_kept k info !! d = Some s /\ new_input_dim s = Some (k + j)%nat /\ l !! d = Some x.
Proof.
  revert k l j; induction info as [|s0 info IH]; intros k [|y l] j Hl Hj; try discriminate.
  injection Hl as Hl. cbn [number_kept kept] in *. destruct (new_input_dim s0) eqn:E0.
  - destruct j as [|j].
    + injection Hj as <-. exists 0%nat. eexists. split; [reflexivity|].
      split; [cbn; rewrite Nat.add_0_r; reflexivity|reflexivity].
    + destruct (IH (S k) l j Hl Hj) as (d & s & H1 & H2 & H3). exists (S d), s.
      split; [exact H1|]. split; [rewrite H2, <- Nat.add_succ_comm; reflexivity|exact H3].
  - destruct (IH k l j Hl Hj) as (d & s & H1 & H2 & H3). exists (S d), s. auto.
Qed.

Lemma kept_fmap {A B} (f : A -> B) info l : kept info (f <$> l) = f <$> kept info l.
Proof.
  revert l; induction info as [|s info IH]; intros [|x l]; try reflexivity.
  cbn. destruct (new_input_dim s); cbn; rewrite IH; reflexivity.
Qed.

Lemma length_kept {A B} info (l : list A) (l' : list B) :
  length l = length l' -> length (kept info l) = length (kept info l').
Proof.
  revert l l'; induction info as [|s info IH]; intros [|x l] [|y l'] H; try discriminate; try reflexivity.
  injection H as H. cbn. destruct (new_input_dim s); cbn; rewrite (IH l l' H); reflexivity.
Qed.

Lemma kept_filter (dims : list nat) k info :
  (forall d s, info !! d = Some s -> (new_input_dim s = None <-> (k + d)%nat ∈ dims)) ->
  kept info (seq k (length info)) = filter (fun d => d ∉ dims) (seq k (length info)).
Proof.
  revert k; induction info as [|s info IH]; intros k H; [reflexivity|]. cbn [length seq kept].
  pose proof (H 0%nat s eq_refl) as H0. rewrite Nat.add_0_r in H0.
  rewrite (IH (S k)) by (intros d s' Hd; rewrite (H (S d) s' Hd); replace (S k + d)%nat with (k + S d)%nat
    by lia; reflexivity).
  destruct (new_input_dim s) eqn:E.
  - rewrite filter_cons_True; [reflexivity|]. intros Hk. apply H0 in Hk. discriminate.
  - rewrite filter_cons_False; [reflexivity|]. intros Hk. apply Hk, H0. reflexivity.
Qed.

Lemma seq_lookup_total (l : list Z) : l = (fun d => l !!! d) <$> seq 0 (length l).
Proof.
  apply list_eq_same_length with (length l); [|reflexivity|].
  - rewrite length_fmap. apply length_seq.
  - intros i x y Hi Hx Hy. rewrite list_lookup_fmap, lookup_seq_lt in Hy by exact Hi.
    cbn in Hy. rewrite (list_lookup_total_correct _ _ _ Hx) in Hy. congruence.
Qed.

(** The fold over the selected dimensions. *)
Lemma singleton_fold t indices l e xs :
  foldl (singleton_step t indices) (l, e) xs =
  (assign l ((fun x => (x.2, MkSingletonSlice None (index_at indices x.1))) <$> xs),
   e || existsb (fun x => negb (Contains (effective_interval
          (optionally_implicit_domain (input_dimensions t !!! x.2))) (index_at indices x.1))) xs).
Proof.
  unfold assign. revert l e; induction xs as [|[i d] xs IH]; intros l e; cbn.
  - rewrite orb_false_r. reflexivity.
  - rewrite IH, orb_assoc. reflexivity.
Qed.

(** What [GetSingletonSlicingInfo] computes. *)
Definition slicing_info (t : TransformRep) (dims : list nat) (indices : IndexVectorOrScalar)
  (info : list slice_info) : Prop :=
  length info = input_rank t /\
  (forall i d, dims !! i = Some d -> info !! d = Some (MkSingletonSlice None (index_at indices i))) /\
  (forall d s, info !! d = Some s -> (new_input_dim s = None <-> d ∈ dims)) /\
  exists info0, info = number_kept 0 info0.

Lemma number_kept_None k info d s :
  info !! d = Some s -> new_input_dim s = None -> number_kept k info !! d = Some s.
Proof.
  revert k d; induction info as [|s0 info IH]; intros k [|d] Hd Hs; try discriminate.
  - injection Hd as ->. cbn. rewrite Hs. reflexivity.
  - cbn. destruct (new_input_dim s0); cbn; apply IH; assumption.
Qed.

Lemma number_kept_iff k info d s' :
  number_kept k info !! d = Some s' -> exists s, info !! d = Some s /\
    (new_input_dim s' = None <-> new_input_dim s = None).
Proof.
  revert k d; induction info as [|s0 info IH]; intros k d Hd; [discriminate|].
  cbn in Hd. destruct (new_input_dim s0) eqn:E; destruct d as [|d]; cbn in Hd;
    try exact (IH _ d Hd); injection Hd as <-; exists s0; (split; [reflexivity|]); cbn;
    rewrite E; split; congruence.
Qed.

Lemma GetSingletonSlicingInfo_spec t dims indices :
  valid_dims (input_dimensions t) -> selects_dims t dims ->
  CheckIndexVectorSize indices (length dims) = Ok tt ->
  let inside := forall i d, dims !! i = Some d -> IsFiniteIndex (index_at indices i) = true /\
    admits (optionally_implicit_domain (input_dimensions t !!! d)) (index_at indices i) in
  match GetSingletonSlicingInfo t dims indices with
  | Ok info => inside /\ slicing_info t dims indices info
  | Err e => e = kOutOfRange /\ ~ inside
  end.
Proof.
  intros HV [Hn Hb] Hc inside. unfold GetSingletonSlicingInfo. rewrite Hc. cbn [mbind Result_bind].
  rewrite singleton_fold. cbn [orb].
  assert (Hnum : forall x, x ∈ numbered dims <-> dims !! x.1 = Some x.2).
  { intros [i d]. cbn. split; [apply numbered_elem|]. intros Hd. unfold numbered.
    apply list_elem_of_lookup_2 with i. apply lookup_zip_Some.
    split; [apply lookup_seq_lt; exact (lookup_lt_Some _ _ _ Hd)|exact Hd]. }
  assert (Hin : forall i d, dims !! i = Some d ->
    (Contains (effective_interval (optionally_implicit_domain (input_dimensions t !!! d)))
       (index_at indices i) = true <-> IsFiniteIndex (index_at indices i) = true /\
    admits (optionally_implicit_domain (input_dimensions t !!! d)) (index_at indices i))).
  { intros i d Hd. apply Contains_effective. pose proof (Forall_lookup_1 _ _ _ _ Hb Hd) as Hlt.
    exact (Forall_lookup_1 _ _ _ _ HV (list_lookup_lookup_total_lt _ _ Hlt)). }
  destruct (existsb _ (numbered dims)) eqn:Ex.
  - split; [reflexivity|]. intros Hall. apply existsb_exists in Ex as ([i d] & Hx & Hneg).
    apply list_elem_of_In, Hnum in Hx. cbn in Hx, Hneg.
    rewrite (proj2 (Hin i d Hx) (Hall i d Hx)) in Hneg. discriminate.
  - split.
    { intros i d Hd. apply (Hin i d Hd). apply negb_false_iff.
      destruct (negb _) eqn:E in |- *; [|reflexivity].
      rewrite <- Ex. symmetry. apply existsb_exists. exists (i, d).
      split; [apply list_elem_of_In, Hnum, Hd|exact E]. }
    set (base := replicate (input_rank t) (MkSingletonSlice (Some 0%nat) 0)).
    set (info0 := assign base _).
    assert (Hfst : ((fun x => (x.2, MkSingletonSlice None (index_at indices x.1))) <$> numbered dims).*1
      = dims) by (rewrite <- list_fmap_compose; apply numbered_snd).
    assert (Hat : forall i d, dims !! i = Some d ->
      info0 !! d = Some (MkSingletonSlice None (index_at indices i))).
    { intros i d Hd. apply assign_at; [rewrite Hfst; exact Hn| |].
      - apply list_elem_of_fmap. exists (i, d). split; [reflexivity|apply Hnum, Hd].
      - unfold base. rewrite length_replicate. exact (Forall_lookup_1 _ _ _ _ Hb Hd). }
    assert (Hother : forall d s, info0 !! d = Some s -> d ∉ dims -> new_input_dim s = Some 0%nat).
    { intros d s Hs Hd. unfold info0 in Hs. rewrite assign_other in Hs by (rewrite Hfst; exact Hd).
      apply lookup_replicate in Hs as [-> _]. reflexivity. }
    split; [|split; [|split; [|exists info0; reflexivity]]].
    + rewrite length_number_kept. unfold info0, base. rewrite length_assign. apply length_replicate.
    + intros i d Hd. apply number_kept_None; [exact (Hat i d Hd)|reflexivity].
    + intros d s Hs. apply number_kept_iff in Hs as (s0 & Hs0 & ->).
      destruct (decide (d ∈ dims)) as [Hd|Hd].
      * split; [auto|intros _]. apply list_elem_of_lookup in Hd as [i Hi].
        rewrite (Hat i d Hi) in Hs0. injection Hs0 as <-. reflexivity.
      * rewrite (Hother d s0 Hs0 Hd). split; [discriminate|contradiction].
Qed.

Definition singleton_source (s : slice_info) : Source :=
  match new_input_dim s with None => Fixed (slice_index s) | Some j => FromNew j end.

(** A numbered slicing info, for lists of one element per original dimension. *)
Section Slicing.
Context (info0 : list slice_info).
Let info := number_kept 0 info0.
Let src := singleton_source <$> info.

Lemma slicing_source {A} (l : list A) i j :
  length l = length info0 -> src !! i = Some (FromNew j) ->
  kept info l !! j = l !! i /\ (i < length l)%nat.
Proof.
  intros Hl Hi. unfold src in Hi. rewrite list_lookup_fmap in Hi.
  apply fmap_Some in Hi as (s & Hs & E). unfold singleton_source in E.
  destruct (new_input_dim s) as [j'|] eqn:Ej; [|discriminate]. injection E as ->.
  destruct (number_kept_lookup 0 info0 l i s j' Hl Hs Ej) as (_ & H & Hlt).
  rewrite Nat.sub_0_r in H. unfold info. rewrite kept_number. auto.
Qed.

Lemma slicing_onto {A} (l : list A) j x :
  length l = length info0 -> kept info l !! j = Some x ->
  exists i, src !! i = Some (FromNew j) /\ l !! i = Some x.
Proof.
  intros Hl Hj. unfold info in Hj. rewrite kept_number in Hj.
  destruct (number_kept_onto 0 info0 l j x Hl Hj) as (d & s & H1 & H2 & H3). exists d.
  split; [|exact H3]. unfold src, info. rewrite list_lookup_fmap, H1. cbn.
  unfold singleton_source. rewrite H2. reflexivity.
Qed.

(** The position of a kept dimension determines it. *)
Lemma slicing_inj i i' j : src !! i = Some (FromNew j) -> src !! i' = Some (FromNew j) -> i' = i.
Proof.
  intros Hi Hi'. assert (Hl : length (seq 0 (length info0)) = length info0) by apply length_seq.
  destruct (slicing_source _ i j Hl Hi) as [E Hlt]. destruct (slicing_source _ i' j Hl Hi') as [E' Hlt'].
  rewrite length_seq in Hlt, Hlt'. rewrite E, !lookup_seq_lt in E' by assumption. injection E'. auto.
Qed.

Lemma pull_slicing idx :
  length idx = length info0 ->
  (forall i s, info !! i = Some s -> new_input_dim s = None -> idx !! i = Some (slice_index s)) ->
  pull src (kept info idx) = idx.
Proof.
  intros Hl Hfix. apply list_eq_same_length with (length info0); [exact Hl| |].
  - rewrite length_pull. unfold src, info. rewrite length_fmap. apply length_number_kept.
  - intros i x y Hi Hx Hy. unfold pull in Hx. rewrite list_lookup_fmap in Hx.
    apply fmap_Some in Hx as (s & Hs & ->). destruct s as [j|v]; cbn [source_value].
    + destruct (slicing_source idx i j Hl Hs) as [E _]. rewrite Hy in E.
      apply list_lookup_total_correct, E.
    + unfold src in Hs. rewrite list_lookup_fmap in Hs. apply fmap_Some in Hs as (s & Hs & E).
      unfold singleton_source in E. destruct (new_input_dim s) eqn:Es; [discriminate|].
      injection E as ->. rewrite (Hfix i s Hs Es) in Hy. injection Hy as <-. reflexivity.
Qed.

Lemma singleton_offset_fixed strides :
  congr64 (singleton_offset info strides) (fixed_part src strides).
Proof.
  unfold singleton_offset, fixed_part, src. generalize info. intros l.
  assert (H : forall acc s, congr64 (foldl (fun array_byte_offset p =>
      match new_input_dim p.1 with
      | None => wrap_on_overflow.Add array_byte_offset
                  (wrap_on_overflow.Multiply p.2 (slice_index p.1))
      | Some _ => array_byte_offset
      end) acc (zip l s))
    (acc + foldr Z.add 0 (zip_with (fun s st => match s with Fixed v => v * st | _ => 0 end)
      (singleton_source <$> l) s))); [|rewrite H; reflexivity].
  induction l as [|x l IH]; intros acc [|st s]; cbn; [apply congr64_eq; lia..|].
  rewrite IH. unfold singleton_source at 2. destruct (new_input_dim x); [reflexivity|].
  rewrite wrap_Add, wrap_Multiply, !congr64_wrap. apply congr64_eq. lia.
Qed.

End Slicing.

Lemma singleton_offset_in_i64 info strides : in_i64 (singleton_offset info strides).
Proof.
  unfold singleton_offset. generalize (zip info strides) as l.
  assert (H : in_i64 0) by i64_lia. revert H. generalize 0 as acc.
  intros acc H l; revert acc H; induction l as [|[s st] l IH]; intros acc H; cbn; [exact H|].
  apply IH. destruct (new_input_dim s); [exact H|]. rewrite wrap_Add. apply wrap64_range.
Qed.

(** Replacing an index array by its only element. *)
Lemma replace_array_value m data idx index o s :
  method m = array data ->
  element_pointer data (IndexInnerProduct idx (byte_strides data)) = index ->
  ReplaceZeroRankIndexArrayIndexMap index (index_range data) (offset m) (stride m) = Ok (o, s) ->
  forall idx', output_index (MkOutputIndexMap constant o s) idx' = output_index m idx.
Proof.
  intros E Hp (Hin & Ho & H64 & ->)%ReplaceZeroRank_Ok idx'.
  rewrite output_constant by exact H64. symmetry. rewrite (output_index_base m idx index).
  - unfold affine. rewrite <- Ho, wrap64_id by exact H64. reflexivity.
  - unfold base_output_index, CheckContains. rewrite E, Hp, Hin. reflexivity.
Qed.

Lemma singleton_map_value info0 n m m' idx :
  let info := number_kept 0 info0 in
  typed_map n m -> length info0 = n -> length idx = n ->
  (forall i s, info !! i = Some s -> new_input_dim s = None -> idx !! i = Some (slice_index s)) ->
  match method m with single_input_dimension d => (d < n)%nat | _ => True end ->
  singleton_map false info m = Ok m' ->
  output_index m' (kept info idx) = output_index m idx.
Proof.
  intros info (_ & _ & Ht) Ln Hl Hfix Hd H. unfold singleton_map in H.
  assert (Hpull : pull (singleton_source <$> info) (kept info idx) = idx)
    by (apply pull_slicing; [lia|exact Hfix]).
  assert (Hli : length info = n) by (unfold info; rewrite length_number_kept; exact Ln).
  destruct (method m) as [|d|data] eqn:E.
  - injection H as <-. unfold output_index, base_output_index. rewrite E. reflexivity.
  - destruct (lookup_lt_is_Some_2 info d) as [s Hs]; [lia|].
    rewrite (list_lookup_total_correct _ _ _ Hs) in H.
    assert (Hsrc : (singleton_source <$> info) !! d = Some (singleton_source s))
      by (rewrite list_lookup_fmap, Hs; reflexivity).
    destruct (new_input_dim s) as [j|] eqn:Es.
    + injection H as <-. unfold output_index, base_output_index. rewrite E. cbn [method stride offset].
      rewrite <- Hpull at 2. rewrite (pull_lookup _ _ d j); [reflexivity|].
      unfold singleton_source in Hsrc. rewrite Es in Hsrc. exact Hsrc.
    + destruct (MulOverflow (slice_index s) (stride m)) as [[|] p] eqn:E1;
        [destruct (AddOverflow p (offset m)); discriminate|].
      apply MulOverflow_false in E1 as [-> _].
      destruct (AddOverflow _ (offset m)) as [[|] q] eqn:E2; [discriminate|].
      apply AddOverflow_false in E2 as [-> H64]. injection H as <-.
      rewrite output_constant by exact H64.
      unfold output_index, base_output_index. rewrite E. cbn [mbind Result_bind].
      rewrite (list_lookup_total_correct _ _ _ (Hfix d s Hs Es)). f_equal. symmetry.
      apply wrap64_id, H64.
  - destruct Ht as [Hls _].
    assert (HR : congr64 (singleton_offset info (byte_strides data) +
      dot (kept info idx) (kept info (byte_strides data))) (dot idx (byte_strides data))).
    { rewrite <- Hpull at 2. apply reindex_array.
      - rewrite length_fmap, Hli. exact Hls.
      - apply length_kept. lia.
      - intros i j Hij. destruct (slicing_source info0 idx i j ltac:(lia) Hij) as [Ek Hlt].
        destruct (lookup_lt_is_Some_2 idx i Hlt) as [v Hv]. rewrite Hv in Ek.
        exact (lookup_lt_Some _ _ _ Ek).
      - intros j x Hx. apply congr64_eq. symmetry.
        destruct (slicing_onto info0 (byte_strides data) j x ltac:(lia) Hx) as (i & Hi & Hxi).
        apply (contribution_unique _ _ i); [exact Hi|exact Hxi|].
        intros i' Hi'. exact (slicing_inj info0 i i' j Hi Hi').
      - apply singleton_offset_fixed. }
    destruct (existsb _ (kept info (byte_strides data))) eqn:Ez.
    + injection H as <-. apply (array_value m data); [exact E|reflexivity|].
      cbn [element_pointer byte_strides]. unfold AddByteOffset.
      rewrite !IndexInnerProduct_dot, wrap_Add. f_equal. apply congr64_wrap_proper.
      rewrite congr64_wrap. exact HR.
    + apply bind_Ok in H as ([o s] & Hr & [= <-]).
      apply (fun Hp => replace_array_value m data idx _ o s E Hp Hr). f_equal.
      rewrite IndexInnerProduct_dot, <- HR. rewrite dot_zero_strides.
      * rewrite Z.add_0_r. apply wrap64_id, singleton_offset_in_i64.
      * apply forallb_forall. intros x Hx. apply negb_false_iff.
        destruct (negb (x =? 0)) eqn:En in |- *; [|reflexivity]. rewrite <- Ez. symmetry.
        apply existsb_exists. exists x. auto.
Qed.

Lemma kept_elem {A} info (l : list A) x : x ∈ kept info l -> x ∈ l.
Proof.
  revert l; induction info as [|s info IH]; intros [|y l] H; try (destruct (not_elem_of_nil _ H)).
  cbn in H. destruct (new_input_dim s).
  - apply elem_of_cons in H as [->|H]; [left|right; apply IH, H].
  - right. apply IH, H.
Qed.

(** The kept dimensions are the ones not selected. *)
Lemma kept_others {A} `{!Inhabited A} t dims indices info (l : list A) :
  slicing_info t dims indices info -> length l = input_rank t ->
  kept info l = PermuteArray l (other_dims (input_rank t) dims).
Proof.
  intros (Hl & _ & Hn & _) Hll. unfold other_dims, PermuteArray.
  rewrite <- Hl, <- (kept_filter dims 0 info Hn), <- kept_fmap. f_equal.
  apply list_eq_same_length with (length info); [|lia|].
  - rewrite length_fmap. apply length_seq.
  - intros i x y Hi Hx Hy. rewrite list_lookup_fmap, lookup_seq_lt in Hy by exact Hi.
    cbn in Hy. rewrite (list_lookup_total_correct _ _ _ Hx) in Hy. congruence.
Qed.

(** C34: slicing single indices succeeds only when every index is in the domain of its
    dimension; the new transform, which has the other dimensions, evaluates like the
    old one with the given indices in the sliced dimensions, errors included. *)
Theorem ApplySingleIndexSlice_correct t dims indices t' :
  WellFormed t -> selects_dims t dims ->
  ApplySingleIndexSlice t dims indices false = Ok t' ->
  (forall i d, dims !! i = Some d -> IsFiniteIndex (index_at indices i) = true /\
     admits (optionally_implicit_domain (input_dimensions t !!! d)) (index_at indices i)) /\
  input_dimensions t' = PermuteArray (input_dimensions t) (other_dims (input_rank t) dims) /\
  forall idx, length idx = input_rank t -> Forall (fun v => IsFiniteIndex v = true) idx ->
    (forall i d, dims !! i = Some d -> idx !! d = Some (index_at indices i)) ->
    TransformIndices t' (PermuteArray idx (other_dims (input_rank t) dims)) = TransformIndices t idx.
Proof.
  intros HW Hsel H. pose proof (WellFormed_valid_dims t HW) as HV.
  apply bind_Ok in H as (info & Hinfo & H).
  assert (Hc : CheckIndexVectorSize indices (length dims) = Ok tt).
  { unfold GetSingletonSlicingInfo in Hinfo. apply bind_Ok in Hinfo as ([] & Hc & _). exact Hc. }
  pose proof (GetSingletonSlicingInfo_spec t dims indices HV Hsel Hc) as HS. cbv zeta in HS.
  rewrite Hinfo in HS. destruct HS as [Hinside HSI].
  unfold PerformSingleIndexSlice in H. apply bind_Ok in H as (maps & Hm & [= <-]).
  cbn [MutableRep input_dimensions output_index_maps] in *.
  split; [exact Hinside|]. split; [exact (kept_others t dims indices info _ HSI eq_refl)|].
  intros idx Hl Hf Hat. rewrite <- (kept_others t dims indices info idx HSI Hl).
  destruct HSI as (Li & Hsl & Hnone & info0 & ->). rewrite length_number_kept in Li.
  set (info := number_kept 0 info0) in *.
  assert (Hfix : forall i s, info !! i = Some s -> new_input_dim s = None -> idx !! i = Some (slice_index s)).
  { intros i s Hs Hn. apply (Hnone i s Hs) in Hn. apply list_elem_of_lookup in Hn as [k Hk].
    rewrite (Hsl k i Hk) in Hs. injection Hs as <-. exact (Hat k i Hk). }
  assert (Hpull : pull (singleton_source <$> info) (kept info idx) = idx)
    by (apply pull_slicing; [lia|exact Hfix]).
  apply TransformIndices_reindex; [exact HV| |exact Hl| | |].
  - apply Forall_forall. intros d Hd%kept_elem. unfold valid_dims in HV.
    rewrite Forall_forall in HV. exact (HV d Hd).
  - unfold input_rank. cbn. apply length_kept. exact Hl.
  - cbn [input_dimensions]. rewrite <- Hpull at 2. apply reindex_domain.
    + apply Forall2_same_length_lookup. split.
      { unfold info. rewrite length_fmap, length_number_kept. unfold input_rank in Li. lia. }
      intros d x s Hd Hs. destruct s as [j|v].
      * destruct (slicing_source info0 (input_dimensions t) d j ltac:(unfold input_rank in Li; lia) Hs)
          as [E _]. exists x. split; [|reflexivity]. unfold info. rewrite E. exact Hd.
      * rewrite list_lookup_fmap in Hs. apply fmap_Some in Hs as (s & Hs & E).
        unfold singleton_source in E. destruct (new_input_dim s) eqn:Es; [discriminate|].
        injection E as ->. pose proof (proj1 (Hnone d s Hs) Es) as [k Hk]%list_elem_of_lookup.
        rewrite (Hsl k d Hk) in Hs. injection Hs as <-. cbn.
        specialize (Hinside k d Hk). rewrite (list_lookup_total_correct _ _ _ Hd) in Hinside. exact Hinside.
    + intros j d' Hd'. left.
      destruct (slicing_onto info0 (input_dimensions t) j d' ltac:(unfold input_rank in Li; lia) Hd')
        as (i & Hi & _). exists i. exact Hi.
    + apply length_kept. exact Hl.
    + apply Forall_forall. intros v Hv%kept_elem. rewrite Forall_forall in Hf. exact (Hf v Hv).
  - intros Hin. cbn [output_index_maps]. apply mapR_Ok in Hm. apply (Forall2_from _ _ _ _ Hm).
    intros m m' Hmin Hmm. apply (singleton_map_value info0 (input_rank t) m m' idx); try assumption.
    + apply (WellFormed_map t m HW Hmin).
    + destruct (method m) as [|d|] eqn:E; try exact I. exact (single_in_range t m d HW Hmin E).
    + pose proof (in_domain_not_explicitly_empty t idx HV Hin) as Hne.
      destruct (existsb _ (kept info (input_dimensions t))) eqn:Ex; [|exact Hmm]. exfalso.
      apply existsb_exists in Ex as (d & Hd & Hd'). apply list_elem_of_In, kept_elem in Hd.
      unfold IsDomainExplicitlyEmpty in Hne. enough (false = true) by discriminate. rewrite <- Hne.
      apply existsb_exists. exists d. rewrite andb_comm in Hd'. split; [apply list_elem_of_In, Hd|exact Hd'].
Qed.

Lemma ApplySingleIndexSlice_correct_witness :
  exists t', ApplySingleIndexSlice example_transform [0%nat] (index_scalar 3) false = Ok t' /\
    TransformIndices t' [4] = Ok [11; 25].
Proof.
  assert (HW : WellFormed example_transform) by (apply WellFormedb_spec; vm_compute; reflexivity).
  assert (Hs : selects_dims example_transform [0%nat])
    by (split; [apply (bool_decide_eq_true_1 _); vm_compute; reflexivity|repeat constructor]).
  assert (Hok : is_ok (ApplySingleIndexSlice example_transform [0%nat] (index_scalar 3) false) = true)
    by (vm_compute; reflexivity).
  destruct (ApplySingleIndexSlice example_transform [0%nat] (index_scalar 3) false) as [t'|e] eqn:E;
    [|discriminate Hok]. exists t'. split; [reflexivity|].
  destruct (ApplySingleIndexSlice_correct example_transform [0%nat] (index_scalar 3) t' HW Hs E)
    as (_ & _ & Hv).
  change [4] with (PermuteArray [3; 4] (other_dims (input_rank example_transform) [0%nat])).
  rewrite Hv; [vm_compute; reflexivity|reflexivity|repeat constructor|].
  intros [|i] d Hd; [|discriminate Hd]. injection Hd as <-. reflexivity.
Defined.

(** * New dimensions *)

Lemma pull_others (l : list nat) idx' : pull (FromNew <$> l) idx' = PermuteArray idx' l.
Proof. unfold pull, PermuteArray. rewrite <- list_fmap_compose. reflexivity. Qed.

(** Elements placed at distinct positions of a constant array. *)
Lemma scatter_cases {A} (x : A) n ks vs j y :
  NoDup ks -> length vs = length ks -> Forall (fun k => (k < n)%nat) ks ->
  assign (replicate n x) (zip ks vs) !! j = Some y ->
  (exists i, ks !! i = Some j /\ vs !! i = Some y) \/ ((j ∉ ks) /\ y = x).
Proof.
  intros Hn Hl Hb Hj. destruct (decide (j ∈ ks)) as [Hin|Hout].
  - left. apply list_elem_of_lookup in Hin as [i Hi]. exists i. split; [exact Hi|].
    destruct (lookup_lt_is_Some_2 vs i) as [v Hv]; [apply lookup_lt_Some in Hi; lia|].
    rewrite (assign_zip_at _ ks vs i j v Hn Hi Hv Hl) in Hj; [congruence|].
    rewrite length_replicate. exact (Forall_lookup_1 _ _ _ _ Hb Hi).
  - right. split; [exact Hout|]. rewrite assign_other in Hj by (rewrite fst_zip by lia; exact Hout).
    apply lookup_replicate in Hj as [-> _]. reflexivity.
Qed.

Lemma scatter_lookup {A} (x : A) n ks vs i k v :
  NoDup ks -> length vs = length ks -> Forall (fun k => (k < n)%nat) ks ->
  ks !! i = Some k -> vs !! i = Some v ->
  assign (replicate n x) (zip ks vs) !! k = Some v.
Proof.
  intros Hn Hl Hb Hk Hv. apply (assign_zip_at _ ks vs i k v Hn Hk Hv Hl).
  rewrite length_replicate. exact (Forall_lookup_1 _ _ _ _ Hb Hk).
Qed.

Lemma inert_admits v : admits (optionally_implicit_domain inert_dimension) v.
Proof. split; left; reflexivity. Qed.

Lemma add_dims_map_value n n' others m idx' :
  typed_map n m -> NoDup others -> length others = n -> Forall (fun k => (k < n')%nat) others ->
  length idx' = n' ->
  match method m with single_input_dimension d => (d < n)%nat | _ => True end ->
  output_index (add_dims_map n' others m) idx' = output_index m (PermuteArray idx' others).
Proof.
  intros (_ & _ & Ht) Hn Hlo Hb Hl Hd. unfold add_dims_map.
  destruct (method m) as [|d|data] eqn:E.
  - unfold output_index, base_output_index. rewrite E. reflexivity.
  - destruct (lookup_lt_is_Some_2 others d) as [k Hk]; [lia|].
    unfold output_index, base_output_index. rewrite E. cbn [method].
    rewrite <- pull_others, (pull_lookup _ _ d k) by (rewrite list_lookup_fmap, Hk; reflexivity).
    rewrite (list_lookup_total_correct _ _ _ Hk). reflexivity.
  - destruct Ht as [Hs _]. apply (array_value m data); [exact E|reflexivity|].
    cbn [element_pointer byte_strides]. f_equal. rewrite !IndexInnerProduct_dot, <- pull_others.
    apply (reindex_array _ _ _ _ 0).
    + rewrite length_fmap. lia.
    + rewrite length_assign, length_replicate. symmetry. exact Hl.
    + intros i j Hi. rewrite list_lookup_fmap in Hi. apply fmap_Some in Hi as (k & Hk & [= <-]).
      rewrite Hl. exact (Forall_lookup_1 _ _ _ _ Hb Hk).
    + intros j x Hx. apply congr64_eq. symmetry.
      destruct (scatter_cases 0 n' others (byte_strides data) j x Hn ltac:(lia) Hb Hx)
        as [(i & Hi & Hxi)|[Hj ->]].
      * apply (contribution_unique _ _ i); [rewrite list_lookup_fmap, Hi; reflexivity|exact Hxi|].
        intros i' Hi'. rewrite list_lookup_fmap in Hi'. apply fmap_Some in Hi' as (k & Hk & [= <-]).
        exact (NoDup_lookup _ _ _ _ Hn Hk Hi).
      * apply contribution_none. intros i Hi. rewrite list_lookup_fmap in Hi.
        apply fmap_Some in Hi as (k & Hk & [= <-]). apply Hj. exact (list_elem_of_lookup_2 _ _ _ Hk).
    + rewrite fixed_part_new. reflexivity.
Qed.

(** Adding inert dimensions succeeds while the rank is supported; the new transform
    ignores the indices of the new dimensions, which may be anything. *)
Theorem ApplyAddNewDims_correct t dims t' :
  WellFormed t -> NoDup dims -> Forall (fun d => (d < input_rank t + length dims)%nat) dims ->
  ApplyAddNewDims t dims false = Ok t' ->
  let new_rank := (input_rank t + length dims)%nat in
  Z.of_nat new_rank <= kMaxRank /\ input_rank t' = new_rank /\
  (forall d, d ∈ dims -> input_dimensions t' !! d = Some inert_dimension) /\
  PermuteArray (input_dimensions t') (other_dims new_rank dims) = input_dimensions t /\
  forall idx', length idx' = new_rank -> Forall (fun v => IsFiniteIndex v = true) idx' ->
    TransformIndices t' idx' = TransformIndices t (PermuteArray idx' (other_dims new_rank dims)).
Proof.
  intros HW Hn Hb H new_rank. unfold ApplyAddNewDims in H. fold new_rank in H.
  destruct (Z.ltb_spec kMaxRank (Z.of_nat new_rank)) as [|Hmax]; [discriminate|].
  injection H as <-. split; [exact Hmax|]. unfold AddNewDims. cbn [MutableRep]. fold new_rank.
  pose proof (WellFormed_valid_dims t HW) as HV.
  pose proof (length_other_dims new_rank dims Hn Hb) as Ho.
  set (others := other_dims new_rank dims) in *.
  assert (Hno : NoDup others) by apply other_dims_NoDup.
  assert (Hbo : Forall (fun k => (k < new_rank)%nat) others).
  { apply Forall_forall. intros d Hd%other_dims_elem. apply Hd. }
  assert (Hlo : length others = length (input_dimensions t)) by (unfold input_rank in *; lia).
  set (dims' := assign (replicate new_rank inert_dimension) (zip others (input_dimensions t))) in *.
  assert (Hld : length dims' = new_rank)
    by (unfold dims'; rewrite length_assign; apply length_replicate).
  assert (Hat : forall i k d, others !! i = Some k -> input_dimensions t !! i = Some d ->
    dims' !! k = Some d) by (intros i k d; apply scatter_lookup; [exact Hno|lia|exact Hbo]).
  split; [exact Hld|]. split; [|split].
  - intros d Hd. cbn [input_dimensions]. unfold dims'. rewrite assign_other.
    + apply lookup_replicate_2. rewrite Forall_forall in Hb. exact (Hb d Hd).
    + rewrite fst_zip by lia. unfold others. rewrite other_dims_elem. tauto.
  - cbn [input_dimensions]. apply list_eq_same_length with (length others); [lia|apply length_fmap|].
    intros i x y Hi Hx Hy. destruct (lookup_lt_is_Some_2 others i Hi) as [k Hk].
    rewrite (PermuteArray_lookup dims' others i k y Hk (Hat i k y Hk Hy)) in Hx. congruence.
  - intros idx' Hl Hf. apply TransformIndices_reindex; cbn [input_dimensions output_index_maps].
    + exact HV.
    + apply Forall_lookup. intros j d Hd.
      destruct (scatter_cases _ _ _ _ j d Hno (eq_sym Hlo) Hbo Hd) as [(i & _ & Hi)|[_ ->]];
        [exact (Forall_lookup_1 _ _ _ _ HV Hi)|exact Valid_Infinite].
    + rewrite length_PermuteArray. unfold input_rank. lia.
    + unfold input_rank. cbn. lia.
    + rewrite <- pull_others. apply reindex_domain; [| |lia|exact Hf].
      * apply Forall2_same_length_lookup. split; [rewrite length_fmap; lia|].
        intros i d s Hd Hs. rewrite list_lookup_fmap in Hs. apply fmap_Some in Hs as (k & Hk & ->).
        exists d. split; [exact (Hat i k d Hk Hd)|reflexivity].
      * intros j d Hd. destruct (scatter_cases _ _ _ _ j d Hno (eq_sym Hlo) Hbo Hd)
          as [(i & Hi & _)|[_ ->]]; [left; exists i; rewrite list_lookup_fmap, Hi; reflexivity|].
        right. apply inert_admits.
    + intros _. apply Forall2_fmap_r, Forall_Forall2_diag, Forall_forall. intros m Hm.
      apply (add_dims_map_value (input_rank t)); [apply (WellFormed_map t m HW Hm)|exact Hno| | | |].
      * unfold input_rank. lia.
      * exact Hbo.
      * exact Hl.
      * destruct (method m) as [|d|] eqn:E; try exact I. exact (single_in_range t m d HW Hm E).
Qed.

Lemma ApplyAddNewDims_correct_witness :
  exists t', ApplyAddNewDims example_transform [1%nat] false = Ok t' /\
    TransformIndices t' [3; -1000; 4] = Ok [11; 25].
Proof.
  assert (HW : WellFormed example_transform) by (apply WellFormedb_spec; vm_compute; reflexivity).
  assert (Hn : NoDup [1%nat]) by (apply (bool_decide_eq_true_1 _); vm_compute; reflexivity).
  assert (Hb : Forall (fun d => (d < input_rank example_transform + length [1%nat])%nat) [1%nat])
    by (repeat constructor).
  exists (AddNewDims example_transform [1%nat] false). split; [reflexivity|].
  pose proof (ApplyAddNewDims_correct example_transform [1%nat] _ HW Hn Hb eq_refl) as Hc.
  destruct Hc as (_ & _ & _ & _ & Hv).
  rewrite Hv; [vm_compute; reflexivity|reflexivity|repeat constructor].
Defined.

(** * Diagonals *)

Lemma Intersect_sides a b v :
  Valid a -> Valid b ->
  (above_min (Intersect a b) v <-> above_min a v /\ above_min b v) /\
  (below_max a v /\ below_max b v -> below_max (Intersect a b) v) /\
  (empty (Intersect a b) = false -> below_max (Intersect a b) v -> below_max a v /\ below_max b v).
Proof.
  intros Ha Hb. destruct (Intersect_bounds a b Ha Hb) as (HI & E1 & E2).
  destruct (valid_bounds a Ha) as (la & ua & _ & Ela & Eua & _ & Ba1 & Ba2 & _).
  destruct (valid_bounds b Hb) as (lb & ub & _ & Elb & Eub & _ & Bb1 & Bb2 & _).
  destruct (valid_bounds _ HI) as (l & u & _ & El & Eu & Ee & _).
  unfold above_min, below_max. rewrite Ee, E1, E2, Ela, Eua, Elb, Eub in *. i64_lia.
Qed.

(** The fold over the selected dimensions. *)
Lemma diagonal_fold b l :
  Valid b -> Forall (fun d : OptionallyImplicitIndexInterval => Valid (interval d)) l ->
  let r := foldl (fun bounds d => Intersect bounds (interval d)) b l in
  Valid r /\ (empty r = false -> empty b = false) /\
  (forall v, above_min r v <-> above_min b v /\ Forall (fun d => above_min (interval d) v) l) /\
  (forall v, below_max b v /\ Forall (fun d => below_max (interval d) v) l -> below_max r v) /\
  (empty r = false -> forall v, below_max r v ->
     below_max b v /\ Forall (fun d => below_max (interval d) v) l).
Proof.
  revert b; induction l as [|d l IH]; intros b Hb Hl; cbn [foldl].
  - split; [exact Hb|]. split; [auto|]. split; [intros v; split; [auto|tauto]|]. split; [tauto|auto].
  - apply Forall_cons in Hl as [Hd Hl].
    pose proof (fun v => Intersect_sides b (interval d) v Hb Hd) as HS.
    destruct (Intersect_bounds b (interval d) Hb Hd) as (HI & _).
    destruct (IH (Intersect b (interval d)) HI Hl) as (H1 & H2 & H3 & H4 & H5).
    split; [exact H1|]. split.
    { intros He. specialize (H2 He). destruct (empty b) eqn:Eb; [|reflexivity].
      destruct (valid_bounds b Hb) as (lb & ub & _ & E1 & E2 & E3 & _).
      destruct (valid_bounds _ HI) as (l0 & u0 & _ & E4 & E5 & E6 & _).
      destruct (Intersect_bounds b (interval d) Hb Hd) as (_ & E7 & E8). rewrite E6 in H2.
      rewrite E3 in Eb. bool_to_prop. lia. }
    split; [intros v; rewrite H3, Forall_cons; destruct (HS v); tauto|]. split.
    + intros v (Hv & [Hvd Hvl]%Forall_cons). apply H4. split; [apply HS; auto|exact Hvl].
    + intros He v Hv. destruct (H5 He v Hv) as [Hv1 Hv2]. rewrite Forall_cons.
      destruct (HS v) as (_ & _ & HS3). destruct (HS3 (H2 He) Hv1). auto.
Qed.

(** The diagonal dimension. *)
Definition diagonal_domain (selected : list OptionallyImplicitIndexInterval)
  : OptionallyImplicitIndexInterval :=
  MkOI (foldl (fun bounds d => Intersect bounds (interval d)) Infinite selected)
    (forallb implicit_lower selected) (forallb implicit_upper selected).

(** The upper bound of the diagonal is the least one, except when the bounds cross
    while the lower bound is implicit. *)
Definition uncrossed (d : OptionallyImplicitIndexInterval) : Prop :=
  empty (interval d) = false \/ implicit_lower d = false.

(** All bounds of each side are implicit, or all explicit. *)
Definition uniform (selected : list OptionallyImplicitIndexInterval) : Prop :=
  (forallb implicit_lower selected = true \/ Forall (fun d => implicit_lower d = false) selected) /\
  (forallb implicit_upper selected = true \/ Forall (fun d => implicit_upper d = false) selected).

Lemma forallb_Forall_true {A} (f : A -> bool) l : forallb f l = true <-> Forall (fun x => f x = true) l.
Proof.
  rewrite forallb_forall, Forall_forall. split; intros H x Hx; apply H, list_elem_of_In; exact Hx.
Qed.

Lemma diagonal_admits selected v :
  Forall (fun d => Valid (interval d)) selected -> uncrossed (diagonal_domain selected) ->
  admits (diagonal_domain selected) v -> Forall (fun d => admits d v) selected.
Proof.
  intros HV Hun [Hlo Hhi]. destruct (diagonal_fold Infinite selected Valid_Infinite HV)
    as (HVr & _ & Habove & _ & Hbelow).
  unfold admits_lower, admits_upper, uncrossed in *. cbn [diagonal_domain implicit_lower implicit_upper interval] in *.
  set (r := foldl _ Infinite selected) in *.
  assert (HL : Forall (fun d => admits_lower d v) selected).
  { unfold admits_lower. destruct Hlo as [Hlo|Hlo].
    - apply forallb_Forall_true in Hlo. eapply Forall_impl; [exact Hlo|]. auto.
    - apply Habove in Hlo as [_ Hlo]. eapply Forall_impl; [exact Hlo|]. auto. }
  assert (HU : Forall (fun d => admits_upper d v) selected).
  { unfold admits_upper. destruct Hhi as [Hhi|Hhi].
    - apply forallb_Forall_true in Hhi. eapply Forall_impl; [exact Hhi|]. auto.
    - destruct (empty r) eqn:He.
      + destruct Hun as [?|Hun]; [discriminate|]. exfalso. destruct Hlo as [?|Hlo]; [congruence|].
        destruct (valid_bounds r HVr) as (l & u & _ & E1 & E2 & E3 & B). rewrite He in E3.
        unfold above_min, below_max in *. rewrite E1, E2 in *. symmetry in E3. bool_to_prop. i64_lia.
      + destruct (Hbelow eq_refl v Hhi) as [_ Hb]. eapply Forall_impl; [exact Hb|]. auto. }
  apply Forall_and. auto.
Qed.

Lemma diagonal_admits_conv selected v :
  Forall (fun d => Valid (interval d)) selected -> uniform selected ->
  Forall (fun d => admits d v) selected -> admits (diagonal_domain selected) v.
Proof.
  intros HV [Hu1 Hu2] [HL HU]%Forall_and.
  destruct (diagonal_fold Infinite selected Valid_Infinite HV) as (_ & _ & Habove & Hbelow & _).
  split; unfold admits_lower, admits_upper; cbn [diagonal_domain implicit_lower implicit_upper interval].
  - destruct Hu1 as [Hu1|Hu1]; [auto|right]. apply Habove. split; [left; reflexivity|].
    apply Forall_forall. intros d Hd. rewrite Forall_forall in HL, Hu1.
    destruct (HL d Hd) as [E|E]; [rewrite (Hu1 d Hd) in E; discriminate|exact E].
  - destruct Hu2 as [Hu2|Hu2]; [auto|right]. apply Hbelow. split; [left; reflexivity|].
    apply Forall_forall. intros d Hd. rewrite Forall_forall in HU, Hu2.
    destruct (HU d Hd) as [E|E]; [rewrite (Hu2 d Hd) in E; discriminate|exact E].
Qed.

(** ** The numbering *)

Lemma length_diagonal_numbers dims k l : length (diagonal_numbers dims k l) = length l.
Proof.
  revert k; induction l as [|d l IH]; intros k; cbn; [reflexivity|].
  case_bool_decide; cbn; rewrite IH; reflexivity.
Qed.

Lemma diagonal_numbers_lookup dims k l i d :
  l !! i = Some d ->
  (d ∈ dims /\ diagonal_numbers dims k l !! i = Some 0%nat) \/
  ((d ∉ dims) /\ exists j, diagonal_numbers dims k l !! i = Some (k + j)%nat /\
    filter (fun d => d ∉ dims) l !! j = Some d).
Proof.
  revert k i; induction l as [|e l IH]; intros k i Hi; [discriminate|]. cbn [diagonal_numbers].
  destruct i as [|i].
  - injection Hi as ->. case_bool_decide as Hd; [left; auto|right]. split; [exact Hd|].
    exists 0%nat. rewrite filter_cons_True by exact Hd. rewrite Nat.add_0_r. auto.
  - cbn in Hi. case_bool_decide as He; cbn [lookup list_lookup].
    + rewrite filter_cons_False by tauto. exact (IH k i Hi).
    + rewrite filter_cons_True by exact He.
      destruct (IH (S k) i Hi) as [?|(Hd & j & H1 & H2)]; [auto|right]. split; [exact Hd|].
      exists (S j). rewrite <- Nat.add_succ_comm. auto.
Qed.

Lemma diagonal_source n dims i :
  (i < n)%nat ->
  (i ∈ dims /\ diagonal_numbers dims 1 (seq 0 n) !! i = Some 0%nat) \/
  ((i ∉ dims) /\ exists j, diagonal_numbers dims 1 (seq 0 n) !! i = Some (S j) /\
    other_dims n dims !! j = Some i).
Proof. intros Hi. apply (diagonal_numbers_lookup dims 1), lookup_seq_lt, Hi. Qed.

Lemma sum_Permutation l l' : l ≡ₚ l' -> foldr Z.add 0 l = foldr Z.add 0 l'.
Proof. induction 1; cbn; lia. Qed.

Lemma wrapping_sum (f : nat -> Z) dims acc :
  congr64 (foldl (fun sum d => wrap64 (sum + f d)) acc dims) (acc + foldr Z.add 0 (f <$> dims)).
Proof.
  revert acc; induction dims as [|d dims IH]; intros acc; cbn; [apply congr64_eq; lia|].
  rewrite IH, congr64_wrap. apply congr64_eq. lia.
Qed.

(** The diagonal gets the strides of the selected dimensions. *)
Lemma diagonal_contribution_from dims k s strides :
  contribution (FromNew <$> diagonal_numbers dims (S k) (seq s (length strides))) strides 0 =
  foldr Z.add 0 ((fun d => strides !!! (d - s)%nat) <$>
    filter (fun d => d ∈ dims) (seq s (length strides))).
Proof.
  revert k s; induction strides as [|x strides IH]; intros k s; [reflexivity|].
  cbn [length seq diagonal_numbers].
  assert (E : forall l : list nat, Forall (fun d => (S s <= d)%nat) l ->
    (fun d => (x :: strides) !!! (d - s)%nat) <$> l = (fun d => strides !!! (d - S s)%nat) <$> l).
  { intros l Hl. apply list_fmap_ext. intros i d Hd. pose proof (Forall_lookup_1 _ _ _ _ Hl Hd) as Hsd.
    cbn in Hsd. replace (d - s)%nat with (S (d - S s)) by lia. reflexivity. }
  assert (HF : Forall (fun d => (S s <= d)%nat) (filter (fun d => d ∈ dims) (seq (S s) (length strides)))).
  { apply Forall_forall. intros d [_ Hd%elem_of_seq]%list_elem_of_filter. lia. }
  case_bool_decide as Hs; unfold contribution; cbn [fmap list_fmap zip_with foldr].
  - rewrite decide_True by reflexivity. rewrite filter_cons_True by exact Hs.
    rewrite fmap_cons, E by exact HF. rewrite Nat.sub_diag. cbn [foldr]. rewrite <- (IH k (S s)). reflexivity.
  - rewrite decide_False by discriminate. rewrite filter_cons_False by exact Hs.
    rewrite E by exact HF. rewrite <- (IH (S k) (S s)). reflexivity.
Qed.

Lemma diagonal_contribution n dims strides :
  length strides = n -> NoDup dims -> Forall (fun d => (d < n)%nat) dims ->
  congr64 (foldl (fun sum d => wrap64 (sum + strides !!! d)) 0 dims)
    (contribution (FromNew <$> diagonal_numbers dims 1 (seq 0 n)) strides 0).
Proof.
  intros <- Hn Hb. rewrite diagonal_contribution_from, wrapping_sum. apply congr64_eq.
  rewrite Z.add_0_l. rewrite (list_fmap_ext _ (fun d => strides !!! (d - 0)%nat))
    by (intros i d _; rewrite Nat.sub_0_r; reflexivity).
  apply sum_Permutation, fmap_Permutation, NoDup_Permutation;
    [exact Hn|apply NoDup_filter, NoDup_seq|].
  intros d. rewrite list_elem_of_filter, elem_of_seq. rewrite Forall_forall in Hb.
  split; [intros Hd; specialize (Hb d Hd); auto with lia|tauto].
Qed.

Section Diagonal.
Context (n : nat) (dims : list nat) (Hn : NoDup dims) (Hb : Forall (fun d => (d < n)%nat) dims).
Let others := other_dims n dims.
Let src := FromNew <$> diagonal_numbers dims 1 (seq 0 n).

Lemma length_diagonal_src : length src = n.
Proof. unfold src. rewrite length_fmap, length_diagonal_numbers, length_seq. reflexivity. Qed.

Lemma diagonal_src i :
  (i < n)%nat ->
  (i ∈ dims /\ src !! i = Some (FromNew 0)) \/
  ((i ∉ dims) /\ exists j, src !! i = Some (FromNew (S j)) /\ others !! j = Some i).
Proof.
  intros Hi. unfold src. destruct (diagonal_source n dims i Hi) as [[Hd E]|(Hd & j & E & Ho)];
    [left|right]; (split; [exact Hd|]); [|exists j; split; [|exact Ho]];
    rewrite list_lookup_fmap, E; reflexivity.
Qed.

Lemma diagonal_src_other j i : others !! j = Some i -> src !! i = Some (FromNew (S j)).
Proof.
  intros Hj. pose proof (list_elem_of_lookup_2 _ _ _ Hj) as [Hi Hd]%other_dims_elem.
  destruct (diagonal_src i Hi) as [[? _]|(_ & j' & E & Ho)]; [contradiction|].
  rewrite E. do 3 f_equal. exact (NoDup_lookup _ _ _ _ (other_dims_NoDup n dims) Ho Hj).
Qed.

Lemma pull_diagonal idx v :
  length idx = n -> (forall d, d ∈ dims -> idx !! d = Some v) ->
  pull src (v :: PermuteArray idx others) = idx.
Proof.
  intros Hl Hv. apply list_eq_same_length with n; [exact Hl|rewrite length_pull; apply length_diagonal_src|].
  intros i x y Hi Hx Hy. unfold pull in Hx. rewrite list_lookup_fmap in Hx.
  destruct (diagonal_src i Hi) as [[Hd E]|(Hd & j & E & Ho)]; rewrite E in Hx; injection Hx as <-.
  - rewrite (Hv i Hd) in Hy. injection Hy as <-. reflexivity.
  - apply list_lookup_total_correct. cbn. exact (PermuteArray_lookup idx others j i y Ho Hy).
Qed.

Lemma diagonal_array_value data idx v :
  length (byte_strides data) = n -> length idx = n -> (forall d, d ∈ dims -> idx !! d = Some v) ->
  congr64
    (dot (v :: PermuteArray idx others)
       (foldl (fun sum d => wrap64 (sum + byte_strides data !!! d)) 0 dims ::
        PermuteArray (byte_strides data) others))
    (dot idx (byte_strides data)).
Proof.
  intros Hs Hl Hv. rewrite <- (pull_diagonal idx v Hl Hv) at 2.
  apply (reindex_array src (byte_strides data) _ _ 0).
  - rewrite length_diagonal_src. exact Hs.
  - cbn. rewrite !length_PermuteArray. reflexivity.
  - intros i j Hij. cbn. rewrite length_PermuteArray.
    assert (Hi : (i < n)%nat) by (rewrite <- length_diagonal_src; exact (lookup_lt_Some _ _ _ Hij)).
    destruct (diagonal_src i Hi) as [[_ E]|(_ & j' & E & Ho)]; rewrite E in Hij; injection Hij as <-; [lia|].
    apply lookup_lt_Some in Ho. lia.
  - intros [|j] x Hx.
    + injection Hx as <-. apply diagonal_contribution; assumption.
    + apply congr64_eq. symmetry. cbn in Hx.
      apply PermuteArray_inv in Hx as (i & Hi & Hx).
      2:{ apply Forall_forall. intros d [Hd _]%other_dims_elem. lia. }
      apply (contribution_unique _ _ i); [exact (diagonal_src_other j i Hi)|exact Hx|].
      intros i' Hi'. assert (Hlt : (i' < n)%nat)
        by (rewrite <- length_diagonal_src; exact (lookup_lt_Some _ _ _ Hi')).
      destruct (diagonal_src i' Hlt) as [[_ E]|(_ & j' & E & Ho)]; rewrite E in Hi'; [discriminate|].
      injection Hi' as ->. congruence.
  - unfold src. rewrite fixed_part_new. reflexivity.
Qed.

End Diagonal.

Lemma diagonal_map_value n dims m idx v :
  NoDup dims -> Forall (fun d => (d < n)%nat) dims ->
  typed_map n m -> length idx = n -> (forall d, d ∈ dims -> idx !! d = Some v) ->
  match method m with single_input_dimension d => (d < n)%nat | _ => True end ->
  output_index (diagonal_map false dims (other_dims n dims) (diagonal_numbers dims 1 (seq 0 n)) m)
    (v :: PermuteArray idx (other_dims n dims)) = output_index m idx.
Proof.
  intros Hn Hb (_ & _ & Ht) Hl Hv Hd. unfold diagonal_map.
  destruct (method m) as [|d|data] eqn:E.
  - unfold output_index, base_output_index. rewrite E. reflexivity.
  - pose proof (pull_diagonal n dims idx v Hl Hv) as Hpull.
    destruct (lookup_lt_is_Some_2 (diagonal_numbers dims 1 (seq 0 n)) d) as [j Hj];
      [rewrite length_diagonal_numbers, length_seq; exact Hd|].
    unfold output_index, base_output_index. rewrite E. cbn [method].
    rewrite (list_lookup_total_correct _ _ _ Hj).
    assert (Ej : (v :: PermuteArray idx (other_dims n dims)) !!! j = idx !!! d); [|rewrite Ej; reflexivity].
    rewrite <- Hpull at 2. symmetry. apply pull_lookup. rewrite list_lookup_fmap, Hj. reflexivity.
  - destruct Ht as [Hs _]. apply (array_value m data); [exact E|reflexivity|].
    cbn [element_pointer byte_strides]. f_equal. rewrite !IndexInnerProduct_dot.
    apply congr64_wrap_proper, diagonal_array_value; assumption.
Qed.

(** The domain of the diagonal against the domain of the original transform. *)
Section DiagonalDomain.
Context (t : TransformRep) (dims : list nat) (idx : list Z) (v : Z).
Context (HV : valid_dims (input_dimensions t)) (Hsel : selects_dims t dims)
  (Hl : length idx = input_rank t) (Hv : forall d, d ∈ dims -> idx !! d = Some v)
  (Hfv : IsFiniteIndex v = true) (Hf : Forall (fun v => IsFiniteIndex v = true) idx).
Let selected := (fun d => optionally_implicit_domain (input_dimensions t !!! d)) <$> dims.
Let others := other_dims (input_rank t) dims.
Let dims' := input_dimensions (ExtractDiagonal t dims false).

Lemma selected_lookup d : d ∈ dims -> exists x, input_dimensions t !! d = Some x /\
  optionally_implicit_domain x ∈ selected.
Proof.
  intros Hd. destruct Hsel as [_ Hb]. rewrite Forall_forall in Hb.
  destruct (lookup_lt_is_Some_2 (input_dimensions t) d (Hb d Hd)) as [x Hx]. exists x. split; [exact Hx|].
  apply list_elem_of_fmap. exists d. rewrite (list_lookup_total_correct _ _ _ Hx). auto.
Qed.

Lemma selected_elem o : o ∈ selected -> exists d x, d ∈ dims /\ input_dimensions t !! d = Some x /\
  o = optionally_implicit_domain x.
Proof.
  intros (d & -> & Hd)%list_elem_of_fmap. destruct (selected_lookup d Hd) as (x & Hx & _).
  exists d, x. rewrite (list_lookup_total_correct _ _ _ Hx). auto.
Qed.

Lemma selected_valid : Forall (fun d => Valid (interval d)) selected.
Proof.
  apply Forall_forall. intros o (d & x & _ & Hx & ->)%selected_elem.
  exact (Forall_lookup_1 _ _ _ _ HV Hx).
Qed.

Lemma others_bound : Forall (fun d => (d < input_rank t)%nat) others.
Proof. apply Forall_forall. intros d [Hd _]%other_dims_elem. exact Hd. Qed.

Lemma diagonal_valid_dims : valid_dims dims'.
Proof.
  constructor; [exact (proj1 (diagonal_fold Infinite selected Valid_Infinite selected_valid))|].
  apply PermuteArray_Forall; [exact HV|exact others_bound].
Qed.

Lemma diagonal_domain_forward :
  uncrossed (diagonal_domain selected) ->
  in_domain dims' (v :: PermuteArray idx others) -> in_domain (input_dimensions t) idx.
Proof.
  intros Hun [[_ Ha] Hin]%in_domain_cons. cbn [optionally_implicit_domain] in Ha.
  pose proof (diagonal_admits selected v selected_valid Hun Ha) as Hall.
  apply in_domain_alt in Hin as [_ Hin]. apply in_domain_alt. split; [exact Hl|].
  intros i x w Hx Hw. destruct (decide (i ∈ dims)) as [Hi|Hi].
  - rewrite (Hv i Hi) in Hw. injection Hw as <-. split; [exact Hfv|].
    rewrite Forall_forall in Hall. apply Hall.
    destruct (selected_lookup i Hi) as (y & Hy & Hys). rewrite Hx in Hy. injection Hy as <-. exact Hys.
  - assert (Ho : i ∈ others) by (apply other_dims_elem; split; [exact (lookup_lt_Some _ _ _ Hx)|exact Hi]).
    apply list_elem_of_lookup in Ho as [j Hj].
    exact (Hin j x w (PermuteArray_lookup _ others j i x Hj Hx) (PermuteArray_lookup _ others j i w Hj Hw)).
Qed.

Lemma diagonal_domain_backward :
  uniform selected ->
  in_domain (input_dimensions t) idx -> in_domain dims' (v :: PermuteArray idx others).
Proof.
  intros Hu Hin. apply in_domain_alt in Hin as [_ Hin]. apply in_domain_cons. split.
  - split; [exact Hfv|]. apply (diagonal_admits_conv selected v selected_valid Hu).
    apply Forall_forall. intros o (d & x & Hd & Hx & ->)%selected_elem. exact (proj2 (Hin d x v Hx (Hv d Hd))).
  - apply in_domain_alt. rewrite !length_PermuteArray. split; [reflexivity|]. intros j x w Hx Hw.
    apply PermuteArray_inv in Hx as (i & Hi & Hx); [|exact others_bound].
    apply PermuteArray_inv in Hw as (i' & Hi' & Hw); [|rewrite Hl; exact others_bound].
    assert (Some i = Some i') as [= <-] by (etransitivity; [symmetry; exact Hi|exact Hi']). exact (Hin i x w Hx Hw).
Qed.

End DiagonalDomain.

(** C35: the diagonal of the selected dimensions: in the domain of the new transform, the
    index of the diagonal stands for every selected dimension at once; when all bounds
    of each side are implicit or all explicit, this holds for all indices, errors
    included.  The bounds of the selected dimensions must not cross while the lower
    ones are implicit. *)
Theorem ApplyDiagonal_correct t dims :
  WellFormed t -> selects_dims t dims ->
  let t' := (ApplyDiagonal t dims false).1 in
  let selected := (fun d => optionally_implicit_domain (input_dimensions t !!! d)) <$> dims in
  let others := other_dims (input_rank t) dims in
  uncrossed (diagonal_domain selected) ->
  forall idx v, length idx = input_rank t -> (forall d, d ∈ dims -> idx !! d = Some v) ->
    IsFiniteIndex v = true -> Forall (fun v => IsFiniteIndex v = true) idx ->
    (in_domain (input_dimensions t') (v :: PermuteArray idx others) ->
     TransformIndices t' (v :: PermuteArray idx others) = TransformIndices t idx) /\
    (uniform selected ->
     TransformIndices t' (v :: PermuteArray idx others) = TransformIndices t idx).
Proof.
  intros HW Hsel t' selected others Hun idx v Hl Hv Hfv Hf.
  pose proof (WellFormed_valid_dims t HW) as HV.
  pose proof (diagonal_domain_forward t dims idx v HV Hsel Hl Hv Hfv Hun) as Hfw.
  assert (Hiff : (in_domain (input_dimensions t) idx ->
      in_domain (input_dimensions t') (v :: PermuteArray idx others)) ->
    TransformIndices t' (v :: PermuteArray idx others) = TransformIndices t idx).
  { intros Hbw. apply TransformIndices_reindex.
    - exact HV.
    - exact (diagonal_valid_dims t dims HV Hsel).
    - exact Hl.
    - unfold t', input_rank. cbn. rewrite !length_PermuteArray. reflexivity.
    - split; [exact Hfw|exact Hbw].
    - intros Hin%Hbw.
      pose proof (in_domain_not_explicitly_empty t' _ (diagonal_valid_dims t dims HV Hsel) Hin) as Hne.
      apply Forall2_fmap_r, Forall_Forall2_diag, Forall_forall. intros m Hm.
      unfold compose. cbv beta. match goal with |- context [diagonal_map ?e _ _ _ _] => replace e with false end.
      + apply diagonal_map_value; try apply Hsel; try assumption.
        * apply (WellFormed_map t m HW Hm).
        * destruct (method m) as [|d|] eqn:E; try exact I. exact (single_in_range t m d HW Hm E).
      + symmetry. unfold IsDomainExplicitlyEmpty in Hne. cbn [t' ApplyDiagonal fst ExtractDiagonal
          input_dimensions existsb] in Hne. apply orb_false_iff in Hne as [Hne _].
        unfold is_implicit, domain in Hne. cbn in Hne. rewrite negb_orb in Hne. exact Hne. }
  split; [intros Hin; apply Hiff; auto|].
  intros Hu. apply Hiff, diagonal_domain_backward; assumption.
Qed.

(** A square transform. *)
Definition example_square : TransformRep :=
  MkTransform
    [MkDimension (MkOI (MkInterval 0 10) false false) "x"%string;
     MkDimension (MkOI (MkInterval 3 10) false false) "y"%string]
    [MkOutputIndexMap (single_input_dimension 0) 0 10;
     MkOutputIndexMap (array (MkIndexArrayData (fun z => z) (MkInterval 0 1000) [8; 16])) 1 1].

Lemma ApplyDiagonal_correct_witness :
  TransformIndices (ApplyDiagonal example_square [0%nat; 1%nat] false).1 [5] = Ok [50; 121] /\
  TransformIndices example_square [5; 5] = Ok [50; 121].
Proof.
  assert (HW : WellFormed example_square) by (apply WellFormedb_spec; vm_compute; reflexivity).
  assert (Hs : selects_dims example_square [0%nat; 1%nat])
    by (split; [apply (bool_decide_eq_true_1 _); vm_compute; reflexivity|repeat constructor]).
  assert (Hv : forall d, d ∈ [0%nat; 1%nat] -> [5; 5] !! d = Some 5).
  { intros d Hd. apply elem_of_cons in Hd as [->|Hd]; [reflexivity|].
    apply elem_of_cons in Hd as [->|Hd]; [reflexivity|]. destruct (not_elem_of_nil _ Hd). }
  split; [|vm_compute; reflexivity].
  change [5] with (5 :: PermuteArray [5; 5] (other_dims (input_rank example_square) [0%nat; 1%nat])).
  rewrite (proj2 (ApplyDiagonal_correct example_square [0%nat; 1%nat] HW Hs
    (or_intror eq_refl) [5; 5] 5 eq_refl Hv eq_refl
    ltac:(repeat constructor)) ltac:(split; right; repeat constructor)).
  vm_compute. reflexivity.
Defined.

(** The bounds of the diagonal may cross: two dimensions with implicit lower bounds, the
    upper bound of one below the lower bound of the other.  The diagonal then admits
    indices above the explicit upper bound of a selected dimension: here 7, where the
    second dimension ends at 5. *)
Definition example_crossed : TransformRep :=
  MkTransform
    [MkDimension (MkOI (MkInterval 10 11) true false) "x"%string;
     MkDimension (MkOI (MkInterval 0 6) true false) "y"%string]
    [MkOutputIndexMap (single_input_dimension 0) 0 1;
     MkOutputIndexMap (single_input_dimension 1) 0 1].

Lemma diagonal_crossed :
  WellFormedb example_crossed = true /\
  TransformIndices example_crossed [7; 7] = Err kOutOfRange /\
  TransformIndices (ApplyDiagonal example_crossed [0%nat; 1%nat] false).1 [7] = Ok [7; 7].
Proof. vm_compute. repeat split. Qed.
