(* ===== verification/Bytes.v ===== *)
(** Byte strings: unsigned lexicographic order and prefixes ([std::string] and
    [std::string_view] as the key-value store uses them) and the endian loads and
    stores of [util/endian.h]. *)

From S2P Require Import Prelude.

(** * Bytes *)

(** A byte is an unsigned value; a C++ [char] is compared, masked and stored here
    through its unsigned value. *)
Definition is_byte (b : Z) : Prop := 0 <= b < 256.
Definition is_byteb (b : Z) : bool := (0 <=? b) && (b <? 256).
Abbreviation bytes := (list Z).
Definition byte_string (s : bytes) : Prop := Forall is_byte s.
Definition byte_stringb (s : bytes) : bool := forallb is_byteb s.

Lemma byte_stringb_spec s : byte_stringb s = true <-> byte_string s.
Proof.
  unfold byte_stringb, byte_string. rewrite forallb_forall, Forall_forall.
  split; intros H x Hx; specialize (H x); unfold is_byte, is_byteb in *.
  - apply list_elem_of_In in Hx. specialize (H Hx). lia.
  - apply list_elem_of_In in Hx. specialize (H Hx). lia.
Qed.

(** * Order *)

(** [std::string_view::compare]: bytes as unsigned values, the shorter string first. *)
Fixpoint compare_bytes (a b : bytes) : comparison :=
  match a, b with
  | [], [] => Eq
  | [], _ :: _ => Lt
  | _ :: _, [] => Gt
  | x :: a, y :: b =>
      match x ?= y with Eq => compare_bytes a b | c => c end
  end.

Definition bytes_ltb (a b : bytes) : bool :=
  match compare_bytes a b with Lt => true | _ => false end.
Definition bytes_leb (a b : bytes) : bool :=
  match compare_bytes a b with Gt => false | _ => true end.
Definition bytes_eqb (a b : bytes) : bool :=
  match compare_bytes a b with Eq => true | _ => false end.

Definition bytes_lt (a b : bytes) : Prop := compare_bytes a b = Lt.
Definition bytes_le (a b : bytes) : Prop := compare_bytes a b <> Gt.

Lemma compare_bytes_refl a : compare_bytes a a = Eq.
Proof. induction a as [|x a IH]; cbn; [reflexivity|]. rewrite Z.compare_refl. exact IH. Qed.

Lemma compare_bytes_eq a b : compare_bytes a b = Eq <-> a = b.
Proof.
  split; [|intros ->; apply compare_bytes_refl].
  revert b; induction a as [|x a IH]; intros [|y b]; cbn; try discriminate; [reflexivity|].
  destruct (Z.compare_spec x y) as [->| |]; try discriminate. intros H. f_equal. apply IH, H.
Qed.

Lemma compare_bytes_antisym a b : compare_bytes b a = CompOpp (compare_bytes a b).
Proof.
  revert b; induction a as [|x a IH]; intros [|y b]; cbn; try reflexivity.
  rewrite (Z.compare_antisym x y). destruct (x ?= y); cbn; [apply IH|reflexivity|reflexivity].
Qed.

Lemma bytes_lt_trans a b c : bytes_lt a b -> bytes_lt b c -> bytes_lt a c.
Proof.
  unfold bytes_lt. revert b c; induction a as [|x a IH]; intros [|y b] [|z c]; cbn;
    try discriminate; try reflexivity.
  destruct (Z.compare_spec x y), (Z.compare_spec y z); try discriminate; intros H1 H2;
    destruct (Z.compare_spec x z); try lia; try reflexivity. exact (IH b c H1 H2).
Qed.

Lemma bytes_le_lteq a b : bytes_le a b <-> bytes_lt a b \/ a = b.
Proof.
  unfold bytes_le, bytes_lt. rewrite <- compare_bytes_eq.
  destruct (compare_bytes a b); intuition congruence.
Qed.

Lemma bytes_le_trans a b c : bytes_le a b -> bytes_le b c -> bytes_le a c.
Proof.
  rewrite !bytes_le_lteq. intros [H1| ->] [H2| ->]; auto. left. eapply bytes_lt_trans; eassumption.
Qed.

Lemma bytes_lt_le_trans a b c : bytes_lt a b -> bytes_le b c -> bytes_lt a c.
Proof. rewrite bytes_le_lteq. intros H1 [H2| <-]; [|exact H1]. eapply bytes_lt_trans; eassumption. Qed.

Lemma bytes_le_lt_trans a b c : bytes_le a b -> bytes_lt b c -> bytes_lt a c.
Proof. rewrite bytes_le_lteq. intros [H1| ->] H2; [|exact H2]. eapply bytes_lt_trans; eassumption. Qed.

Lemma bytes_not_le a b : ~ bytes_le a b <-> bytes_lt b a.
Proof.
  unfold bytes_le, bytes_lt. rewrite (compare_bytes_antisym a b).
  destruct (compare_bytes a b); cbn; intuition congruence.
Qed.

Lemma bytes_not_lt a b : ~ bytes_lt a b <-> bytes_le b a.
Proof.
  unfold bytes_le, bytes_lt. rewrite (compare_bytes_antisym a b).
  destruct (compare_bytes a b); cbn; intuition congruence.
Qed.

Lemma bytes_lt_irrefl a : ~ bytes_lt a a.
Proof. unfold bytes_lt. rewrite compare_bytes_refl. discriminate. Qed.

Lemma bytes_le_total a b : bytes_le a b \/ bytes_lt b a.
Proof. destruct (compare_bytes a b) eqn:E; [left|left|right; unfold bytes_lt;
  rewrite compare_bytes_antisym, E; reflexivity]; unfold bytes_le; congruence. Qed.

Lemma bytes_ltb_spec a b : bytes_ltb a b = true <-> bytes_lt a b.
Proof. unfold bytes_ltb, bytes_lt. destruct (compare_bytes a b); intuition congruence. Qed.

Lemma bytes_leb_spec a b : bytes_leb a b = true <-> bytes_le a b.
Proof. unfold bytes_leb, bytes_le. destruct (compare_bytes a b); intuition congruence. Qed.

Lemma bytes_eqb_spec a b : bytes_eqb a b = true <-> a = b.
Proof.
  unfold bytes_eqb. rewrite <- compare_bytes_eq.
  destruct (compare_bytes a b); intuition congruence.
Qed.

Lemma bytes_le_nil a : bytes_le [] a.
Proof. destruct a; unfold bytes_le; discriminate. Qed.

Lemma bytes_lt_nil a : ~ bytes_lt a [].
Proof. destruct a; unfold bytes_lt; discriminate. Qed.

Lemma bytes_lt_cons x a y b : bytes_lt (x :: a) (y :: b) <-> x < y \/ (x = y /\ bytes_lt a b).
Proof.
  unfold bytes_lt. cbn. destruct (Z.compare_spec x y) as [->| |];
    intuition (try lia; try congruence).
Qed.

Lemma bytes_le_cons x a y b : bytes_le (x :: a) (y :: b) <-> x < y \/ (x = y /\ bytes_le a b).
Proof.
  unfold bytes_le. cbn. destruct (Z.compare_spec x y) as [->| |];
    intuition (try lia; try congruence).
Qed.

Lemma bytes_lt_nil_l b : bytes_lt [] b <-> b <> [].
Proof. destruct b; unfold bytes_lt; cbn; split; congruence. Qed.

(** A common prefix does not matter. *)
Lemma compare_bytes_app p a b : compare_bytes (p ++ a) (p ++ b) = compare_bytes a b.
Proof. induction p as [|x p IH]; cbn; [reflexivity|]. rewrite Z.compare_refl. exact IH. Qed.

(** * Prefixes *)

Fixpoint starts_with (s prefix : bytes) : bool :=
  match prefix, s with
  | [], _ => true
  | p :: prefix, x :: s => (x =? p) && starts_with s prefix
  | _ :: _, [] => false
  end.

Lemma starts_with_spec s p : starts_with s p = true <-> exists t, s = p ++ t.
Proof.
  revert s; induction p as [|x p IH]; intros s.
  - split; [exists s; reflexivity|destruct s; reflexivity].
  - destruct s as [|y s]; [split; [discriminate|intros [t [=]]]|]. cbn.
    rewrite andb_true_iff, IH, Z.eqb_eq. split.
    + intros [-> [t ->]]. exists t. reflexivity.
    + intros [t [= -> ->]]. eauto.
Qed.

(** Every string with a prefix comes at or after the prefix. *)
Lemma bytes_le_app p t : bytes_le p (p ++ t).
Proof. unfold bytes_le. rewrite <- (app_nil_r p) at 1. rewrite compare_bytes_app. destruct t; discriminate. Qed.

(** * Little endian *)

(** The [n] low bytes of a value, least significant first: [memcpy] of an integer on
    a little-endian host. *)
Fixpoint le_bytes (n : nat) (v : Z) : bytes :=
  match n with
  | O => []
  | S n => v mod 256 :: le_bytes n (v / 256)
  end.

Fixpoint le_value (s : bytes) : Z :=
  match s with
  | [] => 0
  | b :: s => b + 256 * le_value s
  end.

Lemma length_le_bytes n v : length (le_bytes n v) = n.
Proof. revert v; induction n as [|n IH]; intros v; cbn; [reflexivity|rewrite IH; reflexivity]. Qed.

Lemma le_bytes_byte n v : byte_string (le_bytes n v).
Proof.
  revert v; induction n as [|n IH]; intros v; constructor; [|apply IH].
  apply Z.mod_pos_bound. lia.
Qed.

Lemma le_value_bytes n v : 0 <= v < 256 ^ Z.of_nat n -> le_value (le_bytes n v) = v.
Proof.
  revert v; induction n as [|n IH]; intros v Hv; cbn -[Z.mul Z.pow] in *.
  - lia.
  - rewrite Nat2Z.inj_succ, Z.pow_succ_r in Hv by lia.
    rewrite IH; [pose proof (Z.div_mod v 256); lia|].
    split; [apply Z.div_pos; lia|apply Z.div_lt_upper_bound; lia].
Qed.

Lemma le_value_bound s : byte_string s -> 0 <= le_value s < 256 ^ Z.of_nat (length s).
Proof.
  induction 1 as [|b s Hb _ IH]; cbn -[Z.mul Z.pow]; [lia|].
  rewrite Nat2Z.inj_succ, Z.pow_succ_r by lia. unfold is_byte in Hb. lia.
Qed.

Lemma le_bytes_value s : byte_string s -> le_bytes (length s) (le_value s) = s.
Proof.
  induction 1 as [|b s Hb Hs IH]; cbn -[Z.mul]; [reflexivity|]. unfold is_byte in Hb.
  rewrite (Z.mul_comm 256), Z.mod_add, Z.mod_small by lia.
  rewrite Z.div_add, Z.div_small by lia. rewrite Z.add_0_l, IH. reflexivity.
Qed.

(** * [util/endian.h], for a little-endian host *)

(** The portable branches of the byte swaps. *)
Definition gbswap_64 (x : Z) : Z :=
  Z.lor (Z.lor (Z.lor (Z.lor (Z.lor (Z.lor (Z.lor
    (Z.shiftl (Z.land x 0xFF) 56)
    (Z.shiftl (Z.land x 0xFF00) 40))
    (Z.shiftl (Z.land x 0xFF0000) 24))
    (Z.shiftl (Z.land x 0xFF000000) 8))
    (Z.shiftr (Z.land x 0xFF00000000) 8))
    (Z.shiftr (Z.land x 0xFF0000000000) 24))
    (Z.shiftr (Z.land x 0xFF000000000000) 40))
    (Z.shiftr (Z.land x 0xFF00000000000000) 56).

Definition gbswap_32 (x : Z) : Z :=
  Z.lor (Z.lor (Z.lor
    (Z.shiftl (Z.land x 0xFF) 24)
    (Z.shiftl (Z.land x 0xFF00) 8))
    (Z.shiftr (Z.land x 0xFF0000) 8))
    (Z.shiftr (Z.land x 0xFF000000) 24).

Module little_endian.
Definition Store32 (v : Z) : bytes := le_bytes 4 v.
Definition Load32 (p : bytes) : Z := le_value (take 4 p).
Definition Store64 (v : Z) : bytes := le_bytes 8 v.
Definition Load64 (p : bytes) : Z := le_value (take 8 p).
End little_endian.

Module big_endian.
Definition Store32 (v : Z) : bytes := le_bytes 4 (gbswap_32 v).
Definition Load32 (p : bytes) : Z := gbswap_32 (le_value (take 4 p)).
Definition Store64 (v : Z) : bytes := le_bytes 8 (gbswap_64 v).
Definition Load64 (p : bytes) : Z := gbswap_64 (le_value (take 8 p)).
End big_endian.

(** The byte at bit position [k]. *)
Lemma land_byte x k : 0 <= k -> Z.land x (Z.shiftl 255 k) = x / 2 ^ k mod 256 * 2 ^ k.
Proof.
  intros Hk. rewrite <- (Z.shiftl_mul_pow2 _ k), <- (Z.shiftr_div_pow2 x k) by exact Hk.
  change 256 with (2 ^ 8). rewrite <- Z.land_ones by lia. change (Z.ones 8) with 255.
  apply Z.bits_inj'. intros n Hn. rewrite Z.land_spec, !Z.shiftl_spec, Z.land_spec by exact Hn.
  destruct (Z.lt_ge_cases n k).
  - rewrite !(Z.testbit_neg_r _ (n - k)) by lia. apply andb_false_r.
  - rewrite Z.shiftr_spec by lia. replace (n - k + k) with n by lia. reflexivity.
Qed.

(** Bits above and bits below a position do not overlap. *)
Lemma lor_disjoint a b k : 0 <= k -> 0 <= b < 2 ^ k -> Z.lor (a * 2 ^ k) b = a * 2 ^ k + b.
Proof.
  intros Hk Hb. assert (H0 : Z.land (a * 2 ^ k) b = 0).
  { rewrite <- Z.shiftl_mul_pow2 by exact Hk. apply Z.bits_inj'. intros n Hn.
    rewrite Z.land_spec, Z.shiftl_spec, Z.bits_0 by exact Hn.
    destruct (Z.lt_ge_cases n k); [rewrite (Z.testbit_neg_r _ (n - k)) by lia; reflexivity|].
    rewrite <- (Z.mod_small b (2 ^ k)), Z.mod_pow2_bits_high by lia. apply andb_false_r. }
  rewrite <- Z.lxor_lor, <- Z.add_nocarry_lxor by exact H0. reflexivity.
Qed.

(** A byte that is masked out and moved [d] bits up, or down. *)
Lemma byte_up x k d : 0 <= k -> 0 <= d ->
  Z.shiftl (Z.land x (Z.shiftl 255 k)) d = x / 2 ^ k mod 256 * 2 ^ (k + d).
Proof.
  intros Hk Hd. rewrite land_byte, Z.shiftl_mul_pow2, Z.pow_add_r by assumption. lia.
Qed.

Lemma byte_down x k d : 0 <= d <= k ->
  Z.shiftr (Z.land x (Z.shiftl 255 k)) d = x / 2 ^ k mod 256 * 2 ^ (k - d).
Proof.
  intros Hd. rewrite land_byte, Z.shiftr_div_pow2 by lia.
  replace (2 ^ k) with (2 ^ (k - d) * 2 ^ d) at 2
    by (rewrite <- Z.pow_add_r by lia; f_equal; lia).
  rewrite Z.mul_assoc, Z.div_mul; [reflexivity|]. apply Z.pow_nonzero; lia.
Qed.

(** One more byte below the ones combined so far. *)
Lemma lor_byte a b k k8 :
  0 <= k -> k8 = k + 8 -> is_byte b -> Z.lor (a * 2 ^ k8) (b * 2 ^ k) = (256 * a + b) * 2 ^ k.
Proof.
  unfold is_byte. intros Hk -> Hb. assert (0 < 2 ^ k) by (apply Z.pow_pos_nonneg; lia).
  assert (E : 2 ^ (k + 8) = 256 * 2 ^ k) by (rewrite Z.pow_add_r by lia; lia).
  rewrite lor_disjoint, E by (rewrite ?E; nia). lia.
Qed.

Lemma mod_byte x : is_byte (x mod 256).
Proof. apply Z.mod_pos_bound. lia. Qed.

Ltac combine_bytes :=
  repeat (erewrite lor_byte; [|lia|vm_compute; reflexivity|apply mod_byte]);
  cbn [le_bytes rev app le_value]; rewrite !Z.div_div by lia;
  change (2 ^ (56 - 56)) with 1; change (2 ^ (24 - 24)) with 1; rewrite Z.div_1_r;
  change (256 * 256) with (2 ^ 16); change (256 * 2 ^ 16) with (2 ^ 24);
  change (256 * 2 ^ 24) with (2 ^ 32); change (256 * 2 ^ 32) with (2 ^ 40);
  change (256 * 2 ^ 40) with (2 ^ 48); change (256 * 2 ^ 48) with (2 ^ 56);
  repeat match goal with |- context [?y / 256] => change (y / 256) with (y / 2 ^ 8) end; lia.

(** The portable byte swaps reverse the bytes. *)
Lemma gbswap_64_bytes x : gbswap_64 x = le_value (rev (le_bytes 8 x)).
Proof.
  unfold gbswap_64.
  change 0xFF with (Z.shiftl 255 0). change 0xFF00 with (Z.shiftl 255 8).
  change 0xFF0000 with (Z.shiftl 255 16). change 0xFF000000 with (Z.shiftl 255 24).
  change 0xFF00000000 with (Z.shiftl 255 32). change 0xFF0000000000 with (Z.shiftl 255 40).
  change 0xFF000000000000 with (Z.shiftl 255 48). change 0xFF00000000000000 with (Z.shiftl 255 56).
  rewrite !byte_up, !byte_down by lia. combine_bytes.
Qed.

Lemma gbswap_32_bytes x : gbswap_32 x = le_value (rev (le_bytes 4 x)).
Proof.
  unfold gbswap_32.
  change 0xFF with (Z.shiftl 255 0). change 0xFF00 with (Z.shiftl 255 8).
  change 0xFF0000 with (Z.shiftl 255 16). change 0xFF000000 with (Z.shiftl 255 24).
  rewrite !byte_up, !byte_down by lia. combine_bytes.
Qed.

Lemma byte_string_rev s : byte_string s -> byte_string (rev s).
Proof. unfold byte_string. intros H. apply Forall_rev in H. exact H. Qed.

Lemma le_bytes_of n s : byte_string s -> length s = n -> le_bytes n (le_value s) = s.
Proof. intros H <-. apply le_bytes_value, H. Qed.

(** A stored integer, followed by anything, loads as itself. *)
Lemma Load64_Store64 v t : 0 <= v < 2 ^ 64 -> little_endian.Load64 (little_endian.Store64 v ++ t) = v.
Proof.
  intros Hv. unfold little_endian.Load64, little_endian.Store64.
  rewrite take_app_length' by (rewrite length_le_bytes; reflexivity). apply le_value_bytes, Hv.
Qed.

(** Integers stored one after the other. *)
Definition Store64s (vs : list Z) : bytes := mjoin (little_endian.Store64 <$> vs).

Lemma Store64s_cons v vs : Store64s (v :: vs) = little_endian.Store64 v ++ Store64s vs.
Proof. reflexivity. Qed.

Lemma length_Store64s vs : length (Store64s vs) = (length vs * 8)%nat.
Proof.
  induction vs as [|v vs IH]; [reflexivity|]. rewrite Store64s_cons, length_app, IH.
  unfold little_endian.Store64. rewrite length_le_bytes. cbn [length]. lia.
Qed.

Lemma Store64s_byte vs : byte_string (Store64s vs).
Proof.
  induction vs as [|v vs IH]; [constructor|]. rewrite Store64s_cons.
  apply Forall_app. split; [apply le_bytes_byte|exact IH].
Qed.

Lemma Load64_Store64s vs t i v : Forall (fun v => 0 <= v < 2 ^ 64) vs -> vs !! i = Some v ->
  little_endian.Load64 (drop (i * 8) (Store64s vs ++ t)) = v.
Proof.
  revert i; induction vs as [|x vs IH]; intros i Hvs Hi; [discriminate|].
  apply Forall_cons in Hvs as [Hx Hvs]. rewrite Store64s_cons, <- app_assoc. destruct i as [|i].
  - cbn in Hi. injection Hi as ->. apply Load64_Store64. exact Hx.
  - rewrite drop_app_ge; unfold little_endian.Store64; rewrite length_le_bytes; [|lia].
    replace (S i * 8 - 8)%nat with (i * 8)%nat by lia. apply (IH i Hvs Hi).
Qed.

(** Loading all of them. *)
Definition Load64s (n : nat) (s : bytes) : list Z :=
  (fun i => little_endian.Load64 (drop (i * 8) s)) <$> seq 0 n.

Lemma Load64s_Store64s vs : Forall (fun v => 0 <= v < 2 ^ 64) vs -> Load64s (length vs) (Store64s vs) = vs.
Proof.
  intros Hvs. apply list_eq. intros i. unfold Load64s. rewrite list_lookup_fmap.
  destruct (decide (i < length vs)%nat) as [Hlt|Hge].
  - rewrite lookup_seq_lt by exact Hlt. destruct (lookup_lt_is_Some_2 vs i Hlt) as [v Hv].
    rewrite Hv. cbn. f_equal. rewrite <- (app_nil_r (Store64s vs)). apply Load64_Store64s; assumption.
  - rewrite (proj2 (lookup_ge_None vs i)), lookup_seq_ge by lia. reflexivity.
Qed.

Lemma Load64s_range n s : byte_string s -> Forall (fun v => 0 <= v < 2 ^ 64) (Load64s n s).
Proof.
  intros Hs. apply Forall_fmap, Forall_forall. intros i _. unfold compose, little_endian.Load64.
  assert (Hb : byte_string (take 8 (drop (i * 8) s))) by apply Forall_take, Forall_drop, Hs.
  apply le_value_bound in Hb as [H1 H2]. split; [exact H1|]. eapply Z.lt_le_trans; [exact H2|].
  change (2 ^ 64) with (256 ^ 8). apply Z.pow_le_mono_r; [lia|]. rewrite length_take. lia.
Qed.

(** The endian loads and stores are inverse to each other, and the big-endian
    representation is the little-endian one reversed, for 32 and 64 bits. *)
Theorem endian_roundtrip v p :
  byte_string p ->
  (0 <= v < 2 ^ 64 -> little_endian.Load64 (little_endian.Store64 v) = v /\
     big_endian.Load64 (big_endian.Store64 v) = v /\
     big_endian.Store64 v = rev (little_endian.Store64 v)) /\
  (0 <= v < 2 ^ 32 -> little_endian.Load32 (little_endian.Store32 v) = v /\
     big_endian.Load32 (big_endian.Store32 v) = v /\
     big_endian.Store32 v = rev (little_endian.Store32 v)) /\
  (length p = 8%nat -> little_endian.Store64 (little_endian.Load64 p) = p /\
     big_endian.Store64 (big_endian.Load64 p) = p) /\
  (length p = 4%nat -> little_endian.Store32 (little_endian.Load32 p) = p /\
     big_endian.Store32 (big_endian.Load32 p) = p).
Proof.
  intros Hp.
  unfold big_endian.Load64, big_endian.Store64, big_endian.Load32, big_endian.Store32,
    little_endian.Load64, little_endian.Store64, little_endian.Load32, little_endian.Store32.
  assert (Hrev : forall n w, le_bytes n (le_value (rev (le_bytes n w))) = rev (le_bytes n w)).
  { intros n w. apply le_bytes_of; [apply byte_string_rev, le_bytes_byte|].
    rewrite length_rev. apply length_le_bytes. }
  assert (Htake : forall n w, take n (le_bytes n w) = le_bytes n w)
    by (intros n w; apply take_ge; rewrite length_le_bytes; lia).
  rewrite !gbswap_64_bytes, !gbswap_32_bytes, !Hrev, !Htake.
  rewrite !(take_ge (rev _)) by (rewrite length_rev, length_le_bytes; lia).
  rewrite !Hrev, !rev_involutive.
  split; [|split; [|split]].
  - intros Hv. rewrite le_value_bytes by exact Hv. auto.
  - intros Hv. rewrite le_value_bytes by exact Hv. auto.
  - intros Hl. rewrite take_ge, le_bytes_of by (assumption || lia). auto.
  - intros Hl. rewrite take_ge, le_bytes_of by (assumption || lia). auto.
Qed.

Lemma endian_roundtrip_witness :
  byte_string [1; 2; 3; 4; 5; 6; 7; 8] /\
  big_endian.Store64 (big_endian.Load64 [1; 2; 3; 4; 5; 6; 7; 8]) = [1; 2; 3; 4; 5; 6; 7; 8].
Proof.
  assert (H : byte_string [1; 2; 3; 4; 5; 6; 7; 8])
    by (apply byte_stringb_spec; vm_compute; reflexivity).
  split; [exact H|]. apply (endian_roundtrip 0 [1; 2; 3; 4; 5; 6; 7; 8] H). reflexivity.
Defined.
