(* ===== verification/Generation.v ===== *)
(** Storage generations: [kvstore/generation.h] and [generation.cc].

    A generation is a byte string that encodes a stack of uncommitted mutations, in
    layers, over a base generation.  The operations work on the encoding; the
    abstract specification works on the stack. *)

From S2P Require Import Prelude Bytes.

(** * The operations on byte strings *)

Definition kAdditionalTags : Z := 1.
Definition kNoValue : Z := 2.
Definition kMutation : Z := 4.
Definition kNewLayer : Z := 8.
Definition kInvalid : Z := 16.

(** [indicator & mask] as a condition. *)
Definition has (indicator mask : Z) : bool := negb (Z.land indicator mask =? 0).

Definition Unknown : bytes := [].
Definition NoValue : bytes := [kNoValue].
Definition Invalid : bytes := [kInvalid].

(** The tags, read from the first indicator byte on; a mutation id takes 8 bytes. *)
Fixpoint valid_tags (s : bytes) : bool :=
  match s with
  | [] => false
  | indicator :: s =>
      if has indicator kAdditionalTags && has indicator kNoValue then false
      else if has indicator kAdditionalTags && negb (has indicator kMutation) then false
      else if has indicator kNewLayer && negb (has indicator kMutation) then false
      else if has indicator 240 then false
      else if has indicator kMutation then
        match s with
        | _ :: _ :: _ :: _ :: _ :: _ :: _ :: _ :: s =>
            if has indicator kAdditionalTags then
              match s with [] => false | _ :: _ => valid_tags s end
            else negb (has indicator kNoValue && match s with [] => false | _ :: _ => true end)
        | _ => false
        end
      else
        if has indicator kAdditionalTags then
          match s with [] => false | _ :: _ => valid_tags s end
        else negb (has indicator kNoValue && match s with [] => false | _ :: _ => true end)
  end.

Definition IsValid (value : bytes) : bool :=
  match value with
  | [] => true
  | [b] => if b =? 0 then false else valid_tags value
  | _ => valid_tags value
  end.

Definition Equivalent (a b : bytes) : bool :=
  match a, b with
  | [], [] => true
  | x :: a, y :: b => (Z.lor x kNewLayer =? Z.lor y kNewLayer) && bytes_eqb a b
  | _, _ => false
  end.

(** The base generation and the offset of the last indicator byte, or [None] for the
    offset [-1] of a malformed value.  [i] is the offset of [s]. *)
Fixpoint parse_base (i : nat) (s : bytes) : option (bytes * nat) :=
  match s with
  | [] => None
  | indicator :: s =>
      if has indicator kMutation then
        match s with
        | _ :: _ :: _ :: _ :: _ :: _ :: _ :: _ :: s =>
            if has indicator kAdditionalTags then parse_base (i + 9) s else Some (s, i)
        | _ => None
        end
      else if has indicator kAdditionalTags then parse_base (i + 1) s else Some (s, i)
  end.

Definition ParseBaseGeneration (s : bytes) : option (bytes * nat) := parse_base 0 s.

(** [BaseGeneration]: [None] is [std::nullopt]. *)
Definition BaseGeneration (value : bytes) : option bytes :=
  match ParseBaseGeneration value with
  | None => Some []
  | Some (base_generation, indicator_i) =>
      if has (value !!! indicator_i) kNoValue then None else Some base_generation
  end.

Definition Clean (value : bytes) : bytes :=
  match value with
  | [] => value
  | x :: _ =>
      if negb (has x kMutation) then value
      else
        match BaseGeneration value with
        | None => NoValue
        | Some [] => []
        | Some base_generation => 0 :: base_generation
        end
  end.

Definition LastMutatedBy (value : bytes) (id : Z) : bool :=
  match value with
  | x :: s => Nat.leb 9 (length value) && has x kMutation && (little_endian.Load64 s =? id)
  | [] => false
  end.

(** [MarkDirty], and [Dirty], which returns the marked generation. *)
Definition MarkDirty (value : bytes) (mutation_id : Z) : bytes :=
  match value with
  | [] => kMutation :: little_endian.Store64 mutation_id
  | x :: s =>
      if has x kMutation
      then (Z.lor kMutation kAdditionalTags :: little_endian.Store64 mutation_id) ++ value
      else Z.lor x kMutation :: little_endian.Store64 mutation_id ++ s
  end.
Definition Dirty (value : bytes) (mutation_id : Z) : bytes := MarkDirty value mutation_id.

Definition FromUint64 (n : Z) : bytes := 0 :: little_endian.Store64 n.
Definition FromString (s : bytes) : bytes := 0 :: s.
Definition IsUint64 (value : bytes) : bool :=
  match value with x :: s => Nat.eqb (length value) 9 && (x =? 0) | [] => false end.
Definition ToUint64 (value : bytes) : Z :=
  if IsUint64 value then little_endian.Load64 (tail value) else 0.
Definition DecodeString (value : bytes) : bytes :=
  match value with x :: s => if negb (x =? 0) then [] else s | [] => [] end.

(** [StripLayer] from the tag at hand on; [whole] is the generation itself. *)
Fixpoint strip_layer_from (whole s : bytes) : bytes :=
  match s with
  | [] => []
  | indicator :: rest =>
      if negb (has indicator kMutation) then whole
      else if has indicator kNewLayer then (indicator - kNewLayer) :: rest
      else
        match rest with
        | _ :: _ :: _ :: _ :: _ :: _ :: _ :: _ :: rest' =>
            if has indicator kAdditionalTags then strip_layer_from whole rest'
            else
              match rest' with
              | [] => if has indicator kNoValue then NoValue else []
              | _ :: _ => (indicator - kMutation) :: rest'
              end
        | _ => if has indicator kAdditionalTags then [] else whole
        end
  end.
Definition StripLayer (value : bytes) : bytes := strip_layer_from value value.

Definition StripTag (value : bytes) : bytes :=
  match value with
  | [] => value
  | indicator :: _ =>
      if Nat.ltb (length value) 9 || negb (has indicator kMutation) then value
      else if has indicator kNoValue then NoValue
      else if negb (has indicator kAdditionalTags) && Nat.ltb 9 (length value)
      then 0 :: drop 9 value
      else drop 9 value
  end.

Definition AddLayer (value : bytes) : bytes :=
  match value with
  | x :: s => if has x kMutation then Z.lor x kNewLayer :: s else value
  | [] => value
  end.

Definition Condition (generation condition : bytes) : bytes :=
  match generation, condition with
  | [], _ => AddLayer (StripLayer condition)
  | _, [] => generation
  | _, _ =>
      match ParseBaseGeneration generation with
      | None => generation
      | Some (base_generation, last_tag_offset) =>
          let last_tag := generation !!! last_tag_offset in
          if has last_tag kNoValue || negb (bytes_eqb base_generation []) then generation
          else
            match AddLayer (StripLayer condition) with
            | [] => generation
            | c :: s =>
                if has c kMutation
                then <[last_tag_offset := Z.lor last_tag kAdditionalTags]> generation ++ c :: s
                else <[last_tag_offset := Z.lor last_tag c]> generation ++ s
            end
      end
  end.

Definition IsDirty (value : bytes) : bool :=
  match value with x :: _ => has x kMutation | [] => false end.
Definition IsClean (value : bytes) : bool :=
  match value with x :: _ => negb (has x kMutation) | [] => false end.
Definition IsInnerLayerDirty (value : bytes) : bool :=
  match value with
  | x :: _ => Z.land x (Z.lor kMutation kNewLayer) =? kMutation
  | [] => false
  end.
Definition IsConditional (value : bytes) : bool :=
  match BaseGeneration value with
  | None => true
  | Some base => negb (bytes_eqb base [])
  end.
Definition IsDirtyOf (generation base : bytes) (mutation_id : Z) : bool :=
  Equivalent generation (Dirty base mutation_id).

(** * Specification: a stack of mutations over a base *)

Record Tag := MkTag { mutation_id : Z; new_layer : bool }.

Inductive Base :=
| BUnknown
| BNoValue
| BValue (b : Z) (s : bytes).

(** The latest mutation comes first. *)
Record Gen := MkGen { tags : list Tag; base : Base }.

Definition indicator (t : Tag) (low : Z) : Z :=
  kMutation + (if new_layer t then kNewLayer else 0) + low.

Definition base_bytes (b : Base) : bytes :=
  match b with BValue b s => b :: s | _ => [] end.
Definition base_flag (b : Base) : Z := match b with BNoValue => kNoValue | _ => 0 end.

(** The canonical encoding. *)
Fixpoint encode_tags (t : Tag) (ts : list Tag) (b : Base) : bytes :=
  match ts with
  | [] =>
      indicator t (base_flag b) :: little_endian.Store64 (mutation_id t) ++ base_bytes b
  | t' :: ts =>
      indicator t kAdditionalTags :: little_endian.Store64 (mutation_id t) ++ encode_tags t' ts b
  end.

Definition encode (g : Gen) : bytes :=
  match tags g with
  | [] =>
      match base g with
      | BUnknown => []
      | BNoValue => NoValue
      | BValue b s => 0 :: b :: s
      end
  | t :: ts => encode_tags t ts (base g)
  end.

(** [a] is latest in [tags g]; ids are 64-bit. *)
Definition ids_in_range (g : Gen) : Prop :=
  Forall (fun t => 0 <= mutation_id t < 2 ^ 64) (tags g).

Definition spec_dirty (g : Gen) (id : Z) : Gen := MkGen (MkTag id false :: tags g) (base g).
Definition spec_clean (g : Gen) : Gen := MkGen [] (base g).
Definition spec_strip_tag (g : Gen) : Gen := MkGen (tail (tags g)) (base g).
Definition spec_add_layer (g : Gen) : Gen :=
  match tags g with
  | [] => g
  | t :: ts => MkGen (MkTag (mutation_id t) true :: ts) (base g)
  end.

(** Drop the mutations of the latest layer, and the mark of the layer below. *)
Fixpoint strip_tags (ts : list Tag) : list Tag :=
  match ts with
  | [] => []
  | t :: ts => if new_layer t then MkTag (mutation_id t) false :: ts else strip_tags ts
  end.
Definition spec_strip_layer (g : Gen) : Gen := MkGen (strip_tags (tags g)) (base g).

Definition spec_condition (g c : Gen) : Gen :=
  match base g with
  | BUnknown =>
      let c := spec_add_layer (spec_strip_layer c) in
      MkGen (tags g ++ tags c) (base c)
  | _ => g
  end.

(** * Refinement *)

(** Store a mutation id as eight bytes that the tag readers can match on. *)
Lemma Store64_cons v : exists b0 b1 b2 b3 b4 b5 b6 b7,
  little_endian.Store64 v = [b0; b1; b2; b3; b4; b5; b6; b7].
Proof. repeat eexists. Qed.

Ltac store_id v :=
  let b0 := fresh "b" in let b1 := fresh "b" in let b2 := fresh "b" in let b3 := fresh "b" in
  let b4 := fresh "b" in let b5 := fresh "b" in let b6 := fresh "b" in let b7 := fresh "b" in
  destruct (Store64_cons v) as (b0 & b1 & b2 & b3 & b4 & b5 & b6 & b7 & ->).

(** The flags of an indicator byte. *)
Lemma indicator_flags t low :
  low = 0 \/ low = 1 \/ low = 2 ->
  has (indicator t low) kMutation = true /\ has (indicator t low) kNewLayer = new_layer t /\
  has (indicator t low) kAdditionalTags = (low =? 1) /\
  has (indicator t low) kNoValue = (low =? 2) /\ has (indicator t low) 240 = false.
Proof.
  destruct t as [id nl]. unfold indicator. cbn.
  destruct nl; intros [-> |[-> | ->]]; repeat split; reflexivity.
Qed.

Lemma base_flag_cases b : base_flag b = 0 \/ base_flag b = 1 \/ base_flag b = 2.
Proof. destruct b; cbn; auto. Qed.

Lemma additional_case : kAdditionalTags = 0 \/ kAdditionalTags = 1 \/ kAdditionalTags = 2.
Proof. auto. Qed.

Ltac flags t low H :=
  let F1 := fresh "F" in let F2 := fresh "F" in let F3 := fresh "F" in
  let F4 := fresh "F" in let F5 := fresh "F" in
  destruct (indicator_flags t low H) as (F1 & F2 & F3 & F4 & F5);
  rewrite ?F1, ?F2, ?F3, ?F4, ?F5.

Lemma base_flag_additional b : (base_flag b =? 1) = false.
Proof. destruct b; reflexivity. Qed.

(** Unfold one tag of an encoding. *)
Lemma valid_encode_tags ts b t : valid_tags (encode_tags t ts b) = true.
Proof.
  revert t; induction ts as [|t' ts IH]; intros t; cbn [encode_tags valid_tags].
  - flags t (base_flag b) (base_flag_cases b). rewrite base_flag_additional. cbn [andb negb].
    store_id (mutation_id t). cbn [app]. destruct b, (new_layer t); reflexivity.
  - flags t kAdditionalTags additional_case.
    store_id (mutation_id t). cbn [app andb negb Z.eqb Pos.eqb kAdditionalTags].
    rewrite andb_false_r. specialize (IH t').
    destruct (encode_tags t' ts b) eqn:E; [discriminate IH|exact IH].
Qed.

Lemma parse_base_encode i t ts b :
  parse_base i (encode_tags t ts b) = Some (base_bytes b, (i + 9 * length ts)%nat).
Proof.
  revert i t; induction ts as [|t' ts IH]; intros i t; cbn [encode_tags parse_base].
  - flags t (base_flag b) (base_flag_cases b). rewrite base_flag_additional.
    store_id (mutation_id t). cbn [app length]. do 2 f_equal. lia.
  - flags t kAdditionalTags additional_case.
    store_id (mutation_id t). cbn [app Z.eqb Pos.eqb kAdditionalTags].
    rewrite IH. cbn [length]. do 2 f_equal. lia.
Qed.

Lemma last_default {A} (a : A) l x y : List.last (a :: l) x = List.last (a :: l) y.
Proof. revert a; induction l as [|b l IH]; intros a; [reflexivity|]. exact (IH b). Qed.

Lemma last_cons {A} (x d : A) l : List.last (x :: l) d = List.last l x.
Proof. destruct l as [|y l]; [reflexivity|]. exact (last_default y l d x). Qed.

(** The last indicator byte. *)
Lemma last_indicator t ts b :
  encode_tags t ts b !! (9 * length ts)%nat = Some (indicator (List.last ts t) (base_flag b)).
Proof.
  revert t; induction ts as [|t' ts IH]; intros t; [reflexivity|].
  cbn [encode_tags]. store_id (mutation_id t). cbn [length app].
  replace (9 * S (length ts))%nat with (S (8 + 9 * length ts)) by lia. cbn [lookup list_lookup Nat.add].
  rewrite IH, last_cons. reflexivity.
Qed.

(** Each operation on an encoding is the operation on the stack. *)
Lemma MarkDirty_encode g id : MarkDirty (encode g) id = encode (spec_dirty g id).
Proof.
  destruct g as [[|t ts] b]; unfold spec_dirty, encode; cbn [tags base].
  - destruct b; cbn [MarkDirty encode_tags base_bytes base_flag]; reflexivity.
  - destruct ts as [|t' ts]; cbn [encode_tags MarkDirty];
      [flags t (base_flag b) (base_flag_cases b)|flags t kAdditionalTags additional_case];
      reflexivity.
Qed.

Lemma AddLayer_encode g : AddLayer (encode g) = encode (spec_add_layer g).
Proof.
  destruct g as [[|t ts] b]; unfold spec_add_layer, encode; cbn [tags base].
  - destruct b; reflexivity.
  - destruct t as [id nl]. destruct ts as [|t' ts]; cbn [encode_tags AddLayer mutation_id];
      [flags (MkTag id nl) (base_flag b) (base_flag_cases b)
      |flags (MkTag id nl) kAdditionalTags additional_case]; f_equal;
      destruct nl; try destruct b; reflexivity.
Qed.

Lemma StripTag_encode g : StripTag (encode g) = encode (spec_strip_tag g).
Proof.
  destruct g as [[|t ts] b]; unfold spec_strip_tag, encode; cbn [tags base tail].
  - destruct b; cbn [StripTag]; reflexivity || (destruct (Nat.ltb _ 9); reflexivity).
  - destruct ts as [|t' ts]; cbn [encode_tags StripTag];
      [flags t (base_flag b) (base_flag_cases b)|flags t kAdditionalTags additional_case];
      store_id (mutation_id t); cbn [app length];
      rewrite (proj2 (Nat.ltb_ge _ 9)) by lia; cbn [orb negb].
    + destruct b; reflexivity.
    + cbn. reflexivity.
Qed.

Lemma strip_layer_encode whole ts b t :
  strip_layer_from whole (encode_tags t ts b) = encode (MkGen (strip_tags (t :: ts)) b).
Proof.
  revert t; induction ts as [|t' ts IH]; intros t; cbn [encode_tags strip_layer_from strip_tags].
  - flags t (base_flag b) (base_flag_cases b). rewrite base_flag_additional. cbn [negb].
    destruct t as [id nl]. cbn [new_layer mutation_id]. destruct nl.
    + unfold encode; cbn [tags base encode_tags mutation_id]. f_equal. unfold indicator. cbn [new_layer]. lia.
    + store_id id. destruct b; reflexivity.
  - flags t kAdditionalTags additional_case. cbn [negb].
    destruct t as [id nl]. cbn [new_layer mutation_id]. destruct nl.
    + unfold encode; cbn [tags base encode_tags mutation_id]. f_equal.
    + store_id id. cbn [app Z.eqb Pos.eqb kAdditionalTags]. exact (IH t').
Qed.

Lemma StripLayer_encode g : StripLayer (encode g) = encode (spec_strip_layer g).
Proof.
  destruct g as [[|t ts] b]; unfold spec_strip_layer; cbn [tags base].
  - destruct b; reflexivity.
  - apply strip_layer_encode.
Qed.

Lemma Parse_encode t ts b :
  ParseBaseGeneration (encode_tags t ts b) = Some (base_bytes b, (9 * length ts)%nat).
Proof. apply parse_base_encode. Qed.

Lemma BaseGeneration_encode g :
  BaseGeneration (encode g) =
    match base g with BNoValue => None | b => Some (base_bytes b) end.
Proof.
  destruct g as [[|t ts] b]; unfold encode; cbn [tags base]; [destruct b; reflexivity|].
  unfold BaseGeneration. rewrite Parse_encode.
  rewrite (list_lookup_total_correct _ _ _ (last_indicator t ts b)).
  destruct (indicator_flags (List.last ts t) (base_flag b) (base_flag_cases b))
    as (_ & _ & _ & -> & _). destruct b; reflexivity.
Qed.

Lemma encode_tags_head t ts b : exists x s, encode_tags t ts b = x :: s /\
  has x kMutation = true /\ has x kNewLayer = new_layer t.
Proof.
  destruct ts; cbn [encode_tags]; eexists _, _; (split; [reflexivity|]);
    [destruct (indicator_flags t (base_flag b) (base_flag_cases b)) as (H1 & H2 & _)
    |destruct (indicator_flags t kAdditionalTags additional_case) as (H1 & H2 & _)]; auto.
Qed.

Lemma Clean_encode g : Clean (encode g) = encode (spec_clean g).
Proof.
  pose proof (BaseGeneration_encode g) as HB.
  destruct g as [[|t ts] b]; unfold spec_clean in *; cbn [tags base] in *;
    [destruct b; reflexivity|].
  unfold encode in *; cbn [tags base] in *.
  destruct (encode_tags_head t ts b) as (x & s & E & Hx & _).
  unfold Clean. rewrite E in *. rewrite Hx, HB. destruct b; reflexivity.
Qed.

(** Appending tags to an encoding whose base is unspecified. *)
Lemma lor_flag t low : low = 1 \/ low = 2 \/ low = 0 ->
  Z.lor (indicator t 0) low = indicator t low.
Proof. destruct t as [id nl]. unfold indicator. cbn. destruct nl; intros [-> |[-> | ->]]; reflexivity. Qed.

Lemma append_tags t ts t' ts' b :
  <[(9 * length ts)%nat := Z.lor (indicator (List.last ts t) 0) kAdditionalTags]>
    (encode_tags t ts BUnknown) ++ encode_tags t' ts' b = encode_tags t (ts ++ t' :: ts') b.
Proof.
  revert t; induction ts as [|u ts IH]; intros t.
  - cbn [length Nat.mul encode_tags app base_flag base_bytes List.last].
    rewrite lor_flag by auto. rewrite app_nil_r. reflexivity.
  - cbn [encode_tags app]. rewrite last_cons. store_id (mutation_id t). cbn [length app].
    replace (9 * S (length ts))%nat with (S (S (S (S (S (S (S (S (S (9 * length ts))))))))))%nat
      by lia.
    cbn [insert list_insert app]. rewrite IH. reflexivity.
Qed.

Lemma append_base t ts b low :
  low = base_flag b ->
  <[(9 * length ts)%nat := Z.lor (indicator (List.last ts t) 0) low]>
    (encode_tags t ts BUnknown) ++ base_bytes b = encode_tags t ts b.
Proof.
  intros ->. revert t; induction ts as [|u ts IH]; intros t.
  - cbn [length Nat.mul encode_tags app base_flag List.last].
    rewrite lor_flag by (destruct b; auto). cbn [base_bytes]. rewrite app_nil_r. reflexivity.
  - cbn [encode_tags app]. rewrite last_cons. store_id (mutation_id t). cbn [length app].
    replace (9 * S (length ts))%nat with (S (S (S (S (S (S (S (S (S (9 * length ts))))))))))%nat
      by lia.
    cbn [insert list_insert app]. rewrite IH. reflexivity.
Qed.

Lemma encode_nil g : encode g = [] <-> g = MkGen [] BUnknown.
Proof.
  destruct g as [[|t ts] b]; unfold encode; cbn [tags base].
  - destruct b; split; intros H; first [reflexivity|discriminate H].
  - destruct (encode_tags_head t ts b) as (x & s & -> & _). split; discriminate.
Qed.

Lemma Condition_encode g c : Condition (encode g) (encode c) = encode (spec_condition g c).
Proof.
  destruct (encode g) as [|x0 s0] eqn:Eg.
  { apply encode_nil in Eg as ->. cbn [Condition spec_condition base tags app].
    rewrite StripLayer_encode, AddLayer_encode. destruct (spec_add_layer _); reflexivity. }
  destruct (encode c) as [|x1 s1] eqn:Ec.
  { apply encode_nil in Ec as ->. unfold spec_condition. cbn. rewrite <- Eg.
    destruct g as [ts []]; cbn; rewrite ?app_nil_r; reflexivity. }
  unfold Condition. rewrite <- Eg, <- Ec. destruct g as [[|t ts] b].
  { destruct b as [| |b bs]; [discriminate Eg|reflexivity|].
    unfold encode, spec_condition; cbn [tags base]. reflexivity. }
  change (encode (MkGen (t :: ts) b)) with (encode_tags t ts b). rewrite Parse_encode.
  rewrite (list_lookup_total_correct _ _ _ (last_indicator t ts b)).
  destruct (indicator_flags (List.last ts t) (base_flag b) (base_flag_cases b))
    as (_ & _ & _ & -> & _).
  destruct b as [| |b bs]; [|reflexivity|reflexivity].
  cbn [base_flag base_bytes]. change (0 =? 2) with false. change (bytes_eqb [] []) with true.
  cbn [orb negb]. rewrite StripLayer_encode, AddLayer_encode.
  unfold spec_condition. cbn [base tags]. set (c' := spec_add_layer (spec_strip_layer c)).
  destruct c' as [[|t' ts'] b'].
  - rewrite app_nil_r. destruct b' as [| |b1 bs1]; [reflexivity| |];
      unfold encode; cbn [tags base]; cbn [NoValue];
      [change (has kNoValue kMutation) with false|change (has 0 kMutation) with false]; cbn iota.
    + apply (append_base t ts BNoValue). reflexivity.
    + apply (append_base t ts (BValue b1 bs1)). reflexivity.
  - unfold encode; cbn [tags base app].
    destruct (encode_tags_head t' ts' b') as (x & s & E & Hx & _). rewrite E, Hx, <- E.
    apply append_tags.
Qed.

Lemma IsValid_encode g : IsValid (encode g) = true.
Proof.
  destruct g as [[|t ts] b]; unfold encode; cbn [tags base]; [destruct b; reflexivity|].
  pose proof (valid_encode_tags ts b t) as H.
  destruct (encode_tags_head t ts b) as (x & s & E & Hx & _). rewrite E in *.
  unfold IsValid. destruct s as [|y s]; [|exact H].
  destruct (Z.eqb_spec x 0) as [->|]; [discriminate Hx|exact H].
Qed.

(** C36: the operations on encoded generations implement the operations on stacks of
    mutations over a base generation: [MarkDirty] pushes a mutation, [StripTag]
    pops one, [Clean] drops them all, [AddLayer] and [StripLayer] mark and drop the
    latest layer, and [Condition] puts an unconditional generation on top of the
    lower layers of another one. *)
Theorem StorageGeneration_refines g c id :
  IsValid (encode g) = true /\
  Dirty (encode g) id = encode (spec_dirty g id) /\
  StripTag (encode g) = encode (spec_strip_tag g) /\
  Clean (encode g) = encode (spec_clean g) /\
  AddLayer (encode g) = encode (spec_add_layer g) /\
  StripLayer (encode g) = encode (spec_strip_layer g) /\
  Condition (encode g) (encode c) = encode (spec_condition g c) /\
  BaseGeneration (encode g) = (match base g with BNoValue => None | b => Some (base_bytes b) end).
Proof.
  auto 10 using IsValid_encode, MarkDirty_encode, StripTag_encode, Clean_encode,
    AddLayer_encode, StripLayer_encode, Condition_encode, BaseGeneration_encode.
Qed.


(** * Equality *)

Lemma cons_inv {A} (x y : A) l k : x :: l = y :: k -> x = y /\ l = k.
Proof. intros [= -> ->]. auto. Qed.

Lemma app_inj_8 (a a' b b' : bytes) :
  length a = 8%nat -> length a' = 8%nat -> a ++ b = a' ++ b' -> a = a' /\ b = b'.
Proof. intros H1 H2 H. apply app_inj_1 in H; [exact H|lia]. Qed.

Lemma Store64_inj v w : 0 <= v < 2 ^ 64 -> 0 <= w < 2 ^ 64 ->
  little_endian.Store64 v = little_endian.Store64 w -> v = w.
Proof.
  intros Hv Hw H. rewrite <- (le_value_bytes 8 v Hv), <- (le_value_bytes 8 w Hw).
  unfold little_endian.Store64 in H. rewrite H. reflexivity.
Qed.

Lemma indicator_inj t t' low low' :
  low = 0 \/ low = 1 \/ low = 2 -> low' = 0 \/ low' = 1 \/ low' = 2 ->
  indicator t low = indicator t' low' -> new_layer t = new_layer t' /\ low = low'.
Proof.
  unfold indicator, kMutation, kNewLayer. intros H1 H2 H.
  destruct (new_layer t), (new_layer t'); (split; [try reflexivity; exfalso; lia|lia]).
Qed.

Lemma tag_eq t t' : mutation_id t = mutation_id t' -> new_layer t = new_layer t' -> t = t'.
Proof. destruct t, t'; cbn; congruence. Qed.

Lemma base_eq b b' : base_flag b = base_flag b' -> base_bytes b = base_bytes b' -> b = b'.
Proof. destruct b, b'; cbn; unfold kNoValue; congruence. Qed.

Lemma encode_tags_inj t ts b t' ts' b' :
  Forall (fun t => 0 <= mutation_id t < 2 ^ 64) (t :: ts) ->
  Forall (fun t => 0 <= mutation_id t < 2 ^ 64) (t' :: ts') ->
  encode_tags t ts b = encode_tags t' ts' b' -> t :: ts = t' :: ts' /\ b = b'.
Proof.
  revert t t' ts'; induction ts as [|u ts IH]; intros t t' [|u' ts'] Ht Ht' H;
    cbn [encode_tags] in H; apply cons_inv in H as [Hi H];
    apply app_inj_8 in H as [Hid H]; try apply length_le_bytes;
    apply Forall_cons in Ht as [Ht Hts]; apply Forall_cons in Ht' as [Ht' Hts'];
    apply Store64_inj in Hid; try assumption;
    apply indicator_inj in Hi as [Hn Hl]; try apply base_flag_cases; try apply additional_case.
  - split; [f_equal; apply tag_eq; assumption|apply base_eq; assumption].
  - destruct b; discriminate Hl.
  - destruct b'; discriminate Hl.
  - destruct (IH u u' ts' Hts Hts' H) as [E ->]. split; [|reflexivity].
    rewrite E. f_equal. apply tag_eq; assumption.
Qed.

Lemma encode_inj g g' : ids_in_range g -> ids_in_range g' -> encode g = encode g' -> g = g'.
Proof.
  destruct g as [[|t ts] b], g' as [[|t' ts'] b']; unfold ids_in_range, encode; cbn [tags base];
    intros Hg Hg' H.
  - f_equal. destruct b, b';
      first [reflexivity|discriminate H|injection H as -> ->; reflexivity].
  - destruct (encode_tags_head t' ts' b') as (x & s & E & Hx & _). rewrite E in H.
    destruct b; cbn in H; try discriminate H; injection H as <- _; discriminate Hx.
  - destruct (encode_tags_head t ts b) as (x & s & E & Hx & _). rewrite E in H.
    destruct b'; cbn in H; try discriminate H; injection H as -> _; discriminate Hx.
  - apply encode_tags_inj in H as [E ->]; [|assumption..]. rewrite E. reflexivity.
Qed.

(** The head of an encoding, if it is not empty. *)
Lemma encode_head g x s : encode g = x :: s ->
  (has x kMutation = true \/ (x = 0 \/ x = 2)).
Proof.
  destruct g as [[|t ts] b]; unfold encode; cbn [tags base].
  - destruct b; cbn; intros H; try discriminate H; injection H as <- _; auto.
  - destruct (encode_tags_head t ts b) as (y & r & -> & Hy & _). intros [= -> _]. auto.
Qed.

Lemma has_lor_layer x : has (Z.lor x kNewLayer) kMutation = has x kMutation.
Proof.
  unfold has. do 2 f_equal. rewrite Z.land_lor_distr_l. change (Z.land kNewLayer kMutation) with 0.
  apply Z.lor_0_r.
Qed.

Lemma Equivalent_AddLayer g g' :
  Equivalent (encode g) (encode g') = true <-> AddLayer (encode g) = AddLayer (encode g').
Proof.
  destruct (encode g) as [|x s] eqn:E, (encode g') as [|x' s'] eqn:E'; cbn.
  - tauto.
  - split; [discriminate|]. destruct (has x' kMutation); discriminate.
  - split; [discriminate|]. destruct (has x kMutation); discriminate.
  - rewrite andb_true_iff, Z.eqb_eq, bytes_eqb_spec.
    pose proof (has_lor_layer x) as Hx. pose proof (has_lor_layer x') as Hx'.
    destruct (has x kMutation) eqn:M, (has x' kMutation) eqn:M'.
    + split; [intros [-> ->]; reflexivity|intros [= -> ->]; auto].
    + split; [intros [H _]; congruence|intros [= <- ->]; congruence].
    + split; [intros [H _]; congruence|intros [= -> ->]; congruence].
    + apply encode_head in E as [?|E]; [congruence|].
      apply encode_head in E' as [?|E']; [congruence|].
      destruct E as [-> | ->], E' as [-> | ->]; cbn; split;
        first [intros [H ->]; discriminate H || reflexivity|intros [= ->]; auto|discriminate].
Qed.

(** Canonical encodings are unique, generations are equal exactly when their
    stacks agree up to the layer mark of the latest mutation, and the latest
    mutation is recognised by its id. *)
Theorem StorageGeneration_equality g g' id :
  ids_in_range g -> ids_in_range g' -> 0 <= id < 2 ^ 64 ->
  (encode g = encode g' <-> g = g') /\
  (Equivalent (encode g) (encode g') = true <-> spec_add_layer g = spec_add_layer g') /\
  (IsDirtyOf (encode g) (encode g') id = true <->
   spec_add_layer g = MkGen (MkTag id true :: tags g') (base g')) /\
  LastMutatedBy (encode g) id =
    (match tags g with t :: _ => mutation_id t =? id | [] => false end).
Proof.
  intros Hg Hg' Hid.
  assert (Hadd : forall h, ids_in_range h -> ids_in_range (spec_add_layer h)).
  { intros [[|t ts] b] H; [exact H|]. unfold ids_in_range in *. cbn [tags spec_add_layer] in *.
    apply Forall_cons in H as [H1 H2]. constructor; assumption. }
  assert (Heq : forall h h', ids_in_range h -> ids_in_range h' ->
    Equivalent (encode h) (encode h') = true <-> spec_add_layer h = spec_add_layer h').
  { intros h h' Hh Hh'. rewrite Equivalent_AddLayer, !AddLayer_encode.
    split; [intros H; apply encode_inj in H; auto|intros ->; reflexivity]. }
  split; [split; [apply encode_inj; assumption|intros ->; reflexivity]|].
  split; [exact (Heq g g' Hg Hg')|]. split.
  - unfold IsDirtyOf, Dirty. rewrite MarkDirty_encode, Heq; [reflexivity|exact Hg|].
    constructor; [exact Hid|exact Hg'].
  - destruct g as [[|t ts] b]; unfold encode; cbn [tags base].
    + destruct b; cbn; rewrite ?andb_false_r; reflexivity.
    + apply Forall_cons in Hg as [Ht _]. destruct ts as [|t' ts]; cbn [encode_tags LastMutatedBy];
        [flags t (base_flag b) (base_flag_cases b)|flags t kAdditionalTags additional_case];
        rewrite Load64_Store64 by exact Ht;
        rewrite (proj2 (Nat.leb_le 9 _)); [reflexivity| |reflexivity|];
        unfold little_endian.Store64; cbn [length]; rewrite length_app, length_le_bytes; lia.
Qed.

(** Generations that compare equal can have different values, which is what
    [AbslHashValue] hashes. *)
Lemma equal_with_different_hash_input :
  exists a b, Equivalent a b = true /\ a <> b /\ IsValid a = true /\ IsValid b = true.
Proof.
  exists (encode (MkGen [MkTag 1 false] BUnknown)), (encode (MkGen [MkTag 1 true] BUnknown)).
  split; [reflexivity|]. split; [discriminate|]. split; reflexivity.
Qed.

Lemma StorageGeneration_equality_witness :
  let g := MkGen [MkTag 3 false; MkTag 2 true] (BValue 98 []) in
  let g' := MkGen [MkTag 2 true] (BValue 98 []) in
  ids_in_range g /\ ids_in_range g' /\
  (IsDirtyOf (encode g) (encode g') 3 = true <->
   spec_add_layer g = MkGen (MkTag 3 true :: tags g') (base g')) /\
  IsDirtyOf (encode g) (encode g') 3 = true.
Proof.
  intros g g'.
  assert (Hg : ids_in_range g) by (repeat constructor; cbn; lia).
  assert (Hg' : ids_in_range g') by (repeat constructor; cbn; lia).
  destruct (StorageGeneration_equality g g' 3 Hg Hg' ltac:(lia)) as (_ & _ & H & _).
  split; [exact Hg|]. split; [exact Hg'|]. split; [exact H|]. vm_compute. reflexivity.
Defined.

(** * Mutation ids *)

(** [global_mutation_id] and, per thread, [per_thread_mutation_id]. *)
Record AllocState := MkAlloc {
  global_mutation_id : Z;
  per_thread_mutation_id : nat -> Z * Z
}.

Definition kBlockSize : Z := 1024.
Definition initial_alloc : AllocState := MkAlloc 1 (fun _ => (0, 0)).

Definition set_thread (f : nat -> Z * Z) (thread : nat) (v : Z * Z) : nat -> Z * Z :=
  fun t => if Nat.eqb t thread then v else f t.

(** One call by a thread.  The shared counter is read and written by a single atomic
    [fetch_add], everything else is local to the thread, so that a run of several
    threads is a sequence of whole calls. *)
Definition AllocateMutationId (thread : nat) (s : AllocState) : Z * AllocState :=
  let '(next, last) := per_thread_mutation_id s thread in
  if next =? last then
    let start := global_mutation_id s in
    (start,
     MkAlloc ((start + kBlockSize) mod 2 ^ 64)
       (set_thread (per_thread_mutation_id s) thread
          ((start + 1) mod 2 ^ 64, (start + kBlockSize) mod 2 ^ 64)))
  else
    (next,
     MkAlloc (global_mutation_id s)
       (set_thread (per_thread_mutation_id s) thread ((next + 1) mod 2 ^ 64, last))).

(** The ids that a sequence of calls returns. *)
Fixpoint allocate_all (threads : list nat) (s : AllocState) : list Z :=
  match threads with
  | [] => []
  | t :: threads => let '(id, s) := AllocateMutationId t s in id :: allocate_all threads s
  end.

(** The ids that a state can still return before the counter moves, and all later
    ones: the rest of each thread's block, and everything from the counter on. *)
Definition available (s : AllocState) (id : Z) : Prop :=
  global_mutation_id s <= id \/
  exists t, (per_thread_mutation_id s t).1 <= id < (per_thread_mutation_id s t).2.

Record alloc_inv (s : AllocState) : Prop := {
  alloc_global : 1 <= global_mutation_id s;
  alloc_blocks : forall t, 0 <= (per_thread_mutation_id s t).1 <= (per_thread_mutation_id s t).2 /\
    (per_thread_mutation_id s t).2 <= global_mutation_id s /\
    ((per_thread_mutation_id s t).1 = 0 -> (per_thread_mutation_id s t).2 = 0);
  alloc_disjoint : forall t u, t <> u ->
    (per_thread_mutation_id s t).2 <= (per_thread_mutation_id s u).1 \/
    (per_thread_mutation_id s u).2 <= (per_thread_mutation_id s t).1
}.

Lemma set_thread_cases f t v u :
  (u = t /\ set_thread f t v u = v) \/ (u <> t /\ set_thread f t v u = f u).
Proof. unfold set_thread. destruct (Nat.eqb_spec u t); auto. Qed.

Ltac thread_case f t v u :=
  let E := fresh "E" in let N := fresh "N" in
  destruct (set_thread_cases f t v u) as [[N E]|[N E]]; rewrite !E; clear E; cbn [fst snd].

Lemma alloc_step t s id s' :
  alloc_inv s -> global_mutation_id s + kBlockSize < 2 ^ 64 ->
  AllocateMutationId t s = (id, s') ->
  alloc_inv s' /\ global_mutation_id s' <= global_mutation_id s + kBlockSize /\
  1 <= id /\ available s id /\ ~ available s' id /\
  (forall x, available s' x -> available s x).
Proof.
  intros [Hg Hb Hd] Hlt H. unfold AllocateMutationId in H.
  destruct (per_thread_mutation_id s t) as [next last] eqn:Et. pose proof (Hb t) as Hbt.
  rewrite Et in Hbt. cbn [fst snd] in Hbt. unfold kBlockSize, available in *.
  destruct (Z.eqb_spec next last) as [->|Hne]; injection H as <- <-;
    rewrite ?Z.mod_small by lia; cbn [global_mutation_id per_thread_mutation_id].
  - split; [|split; [lia|split; [lia|split; [auto with lia|split]]]].
    + split; cbn [global_mutation_id per_thread_mutation_id]; [lia| |]; intros u;
        pose proof (Hb u) as Hu; thread_case (per_thread_mutation_id s) t
          (global_mutation_id s + 1, global_mutation_id s + 1024) u; try lia;
        intros v Huv; pose proof (Hb v) as Hv; specialize (Hd u v Huv);
        thread_case (per_thread_mutation_id s) t
          (global_mutation_id s + 1, global_mutation_id s + 1024) v; lia.
    + intros [H|[u H]]; [lia|]. revert H. pose proof (Hb u) as Hu.
      thread_case (per_thread_mutation_id s) t
        (global_mutation_id s + 1, global_mutation_id s + 1024) u; lia.
    + intros x [H|[u H]]; [lia|]. revert H.
      thread_case (per_thread_mutation_id s) t
        (global_mutation_id s + 1, global_mutation_id s + 1024) u; [lia|eauto].
  - split; [|split; [lia|split; [lia|split; [|split]]]].
    + split; cbn [global_mutation_id per_thread_mutation_id]; [exact Hg| |]; intros u;
        pose proof (Hb u) as Hu;
        thread_case (per_thread_mutation_id s) t (next + 1, last) u; try lia;
        intros v Huv; pose proof (Hb v) as Hv; specialize (Hd u v Huv);
        thread_case (per_thread_mutation_id s) t (next + 1, last) v; subst; try lia;
        rewrite ?Et in *; cbn [fst snd] in *; lia.
    + right. exists t. rewrite Et. cbn [fst snd]. lia.
    + intros [H|[u H]]; [lia|]. revert H. specialize (Hd u t). rewrite Et in Hd.
      cbn [fst snd] in Hd. thread_case (per_thread_mutation_id s) t (next + 1, last) u; [lia|].
      specialize (Hd N). lia.
    + intros x [H|[u H]]; [auto|]. right. revert H.
      thread_case (per_thread_mutation_id s) t (next + 1, last) u; [|eauto].
      intros H. exists t. rewrite Et. cbn [fst snd]. lia.
Qed.

Lemma allocate_all_spec threads s :
  alloc_inv s -> global_mutation_id s + kBlockSize * Z.of_nat (length threads) < 2 ^ 64 ->
  NoDup (allocate_all threads s) /\
  forall id, id ∈ allocate_all threads s -> 1 <= id /\ available s id.
Proof.
  revert s; induction threads as [|t threads IH]; intros s Hinv Hlt.
  - split; [constructor|]. intros id Hid%elem_of_nil. contradiction.
  - cbn [allocate_all]. destruct (AllocateMutationId t s) as [i s'] eqn:E.
    cbn [length] in Hlt. rewrite Nat2Z.inj_succ in Hlt. unfold kBlockSize in *.
    destruct (alloc_step t s i s' Hinv) as (Hinv' & Hg & H1 & H2 & H3 & H4); [|exact E|];
      [unfold kBlockSize; lia|]. unfold kBlockSize in *.
    destruct (IH s' Hinv') as [Hnd Hall]; [lia|]. split.
    + constructor; [|exact Hnd]. intros Hin. apply H3, (Hall i Hin).
    + intros id [-> |Hin]%elem_of_cons; [auto|]. destruct (Hall id Hin). auto.
Qed.

(** C37: however the calls of several threads interleave, [AllocateMutationId] never
    returns an id twice and never the id reserved for deletions, as long as the
    64-bit counter does not wrap around. *)
Theorem AllocateMutationId_unique threads :
  1 + kBlockSize * Z.of_nat (length threads) < 2 ^ 64 ->
  NoDup (allocate_all threads initial_alloc) /\
  forall id, id ∈ allocate_all threads initial_alloc -> id <> 0.
Proof.
  intros H. destruct (allocate_all_spec threads initial_alloc) as [H1 H2]; [|exact H|].
  - split; cbn; [lia|intros t; lia|lia].
  - split; [exact H1|]. intros id Hid. pose proof (H2 id Hid). lia.
Qed.

Lemma AllocateMutationId_unique_witness :
  1 + kBlockSize * Z.of_nat (length [1; 2; 1; 2; 2]%nat) < 2 ^ 64 /\
  allocate_all [1; 2; 1; 2; 2]%nat initial_alloc = [1; 1025; 2; 1026; 1027] /\
  NoDup (allocate_all [1; 2; 1; 2; 2]%nat initial_alloc).
Proof.
  assert (H : 1 + kBlockSize * Z.of_nat (length [1; 2; 1; 2; 2]%nat) < 2 ^ 64)
    by (vm_compute; reflexivity).
  split; [exact H|]. split; [vm_compute; reflexivity|].
  apply (AllocateMutationId_unique [1; 2; 1; 2; 2]%nat H).
Defined.
