(* ===== verification/KeyRange.v ===== *)
(** Ranges of keys: [kvstore/key_range.h] and [key_range.cc]. *)

From S2P Require Import Prelude Bytes.

(** * Definitions *)

Record KeyRange := MkKeyRange { inclusive_min : bytes; exclusive_max : bytes }.

#[export] Instance KeyRange_eq_dec : EqDecision KeyRange.
Proof. solve_decision. Defined.

Definition EmptyRange : KeyRange := MkKeyRange [0] [0].

Definition empty (r : KeyRange) : bool :=
  negb (bytes_eqb (exclusive_max r) []) && bytes_leb (exclusive_max r) (inclusive_min r).
Definition full (r : KeyRange) : bool :=
  bytes_eqb (exclusive_max r) [] && bytes_eqb (inclusive_min r) [].

(** Remove the trailing bytes [0xff]; the argument is the string from the back. *)
Fixpoint drop_ff (s : bytes) : bytes :=
  match s with
  | [] => []
  | x :: s => if x =? 255 then drop_ff s else x :: s
  end.

Definition PartialPrefix (prefix : bytes) : bytes := rev (drop_ff (rev prefix)).

Definition PrefixExclusiveMax (prefix : bytes) : bytes :=
  match rev (PartialPrefix prefix) with
  | [] => []
  | last_byte :: s => rev ((last_byte + 1) mod 256 :: s)
  end.

Definition Prefix (prefix : bytes) : KeyRange := MkKeyRange prefix (PrefixExclusiveMax prefix).

Definition Successor (key : bytes) : bytes := key ++ [0].
Definition Singleton (key : bytes) : KeyRange := MkKeyRange key (Successor key).

Definition back (s : bytes) : Z := List.last s 0.

Definition is_singleton (r : KeyRange) : bool :=
  Nat.eqb (length (exclusive_max r)) (length (inclusive_min r) + 1) &&
  (back (exclusive_max r) =? 0) &&
  bytes_eqb (take (length (inclusive_min r)) (exclusive_max r)) (inclusive_min r).

(** [char] is signed on the platforms modelled here; both sides are promoted to
    [int] before the comparison. *)
Definition signed_char (b : Z) : Z := if b <? 128 then b else b - 256.

Definition is_non_empty_prefix (r : KeyRange) : bool :=
  let prefix := PartialPrefix (inclusive_min r) in
  negb (full r) && Nat.eqb (length (exclusive_max r)) (length prefix) &&
  (bytes_eqb prefix [] ||
   ((signed_char (back (exclusive_max r)) =? signed_char (back prefix) + 1) &&
    bytes_eqb (take (length prefix - 1) (exclusive_max r)) (take (length prefix - 1) prefix))).

Definition CompareKeyAndExclusiveMax (key bound : bytes) : comparison :=
  match bound with [] => Lt | _ => compare_bytes key bound end.

Definition CompareExclusiveMax (a b : bytes) : comparison :=
  match a, b with
  | [], _ :: _ => Gt
  | _ :: _, [] => Lt
  | _, _ => compare_bytes a b
  end.

Definition MinExclusiveMax (a b : bytes) : bytes :=
  match CompareExclusiveMax a b with Lt => a | _ => b end.

Definition Contains (haystack : KeyRange) (needle : bytes) : bool :=
  bytes_leb (inclusive_min haystack) needle &&
  match CompareKeyAndExclusiveMax needle (exclusive_max haystack) with Lt => true | _ => false end.

Definition Intersect (a b : KeyRange) : KeyRange :=
  let '(a, b) := if bytes_ltb (inclusive_min b) (inclusive_min a) then (b, a) else (a, b) in
  let result := MkKeyRange (inclusive_min b)
                  (MinExclusiveMax (exclusive_max a) (exclusive_max b)) in
  if empty result then MkKeyRange (inclusive_min result) (inclusive_min result) else result.

Definition Intersects (a b : KeyRange) : bool := negb (empty (Intersect a b)).

Definition ContainsRange (haystack needle : KeyRange) : bool :=
  bytes_leb (inclusive_min haystack) (inclusive_min needle) &&
  match CompareExclusiveMax (exclusive_max needle) (exclusive_max haystack) with
  | Gt => false | _ => true
  end.

Definition ContainsPrefix (haystack : KeyRange) (prefix : bytes) : bool :=
  ContainsRange haystack (Prefix prefix).
Definition IntersectsPrefix (a : KeyRange) (prefix : bytes) : bool :=
  Intersects a (Prefix prefix).

(** The length of the run of [0xff] at the front. *)
Fixpoint count_ff (s : bytes) : nat :=
  match s with
  | x :: s => if x =? 255 then S (count_ff s) else O
  | [] => O
  end.

(** The length of the common prefix. *)
Fixpoint common_length (a b : bytes) : nat :=
  match a, b with
  | x :: a, y :: b => if x =? y then S (common_length a b) else O
  | _, _ => O
  end.

Definition LongestPrefix (range : KeyRange) : bytes :=
  let lo := inclusive_min range in
  let hi := exclusive_max range in
  let i :=
    match hi with
    | [] => count_ff lo
    | _ =>
        let min_length := Nat.min (length lo) (length hi) in
        let i := common_length lo hi in
        if Nat.eqb (i + 1) min_length && negb (lo !!! i =? 255) && (lo !!! i + 1 =? hi !!! i)
        then (i + 1 + count_ff (drop (i + 1) lo))%nat
        else i
    end in
  take i lo.

Definition AddPrefix (prefix : bytes) (range : KeyRange) : KeyRange :=
  match prefix with
  | [] => range
  | _ =>
      MkKeyRange (prefix ++ inclusive_min range)
        (match exclusive_max range with
         | [] => PrefixExclusiveMax prefix
         | _ => prefix ++ exclusive_max range
         end)
  end.

Definition RemovePrefix (prefix : bytes) (range : KeyRange) : KeyRange :=
  match prefix with
  | [] => range
  | _ =>
      if negb (bytes_leb (inclusive_min range) prefix) &&
         negb (starts_with (inclusive_min range) prefix) then EmptyRange
      else
        let inclusive_min' :=
          if bytes_leb (inclusive_min range) prefix then []
          else drop (length prefix) (inclusive_min range) in
        match CompareKeyAndExclusiveMax prefix (exclusive_max range) with
        | Lt =>
            MkKeyRange inclusive_min'
              (if starts_with (exclusive_max range) prefix
               then drop (length prefix) (exclusive_max range) else [])
        | _ => EmptyRange
        end
  end.

Definition RemovePrefixLength (n : nat) (range : KeyRange) : KeyRange :=
  MkKeyRange (drop n (inclusive_min range)) (drop n (exclusive_max range)).

(** * Keys and bounds *)

(** A key is below an exclusive bound, where the empty bound is no bound. *)
Definition below (key bound : bytes) : Prop := bound = [] \/ bytes_lt key bound.

Lemma Compare_below key bound :
  match CompareKeyAndExclusiveMax key bound with Lt => true | _ => false end = true <->
  below key bound.
Proof.
  unfold CompareKeyAndExclusiveMax, below, bytes_lt. destruct bound as [|x bound]; [tauto|].
  destruct (compare_bytes key (x :: bound)); intuition congruence.
Qed.

Lemma KeyRange_Contains_spec r k :
  Contains r k = true <-> bytes_le (inclusive_min r) k /\ below k (exclusive_max r).
Proof. unfold Contains. rewrite andb_true_iff, bytes_leb_spec, Compare_below. reflexivity. Qed.

Lemma bool_eq_iff a b : (a = true <-> b = true) -> a = b.
Proof. destruct a, b; intuition congruence. Qed.

(** The last byte of the partial prefix, seen from the front. *)
Lemma PrefixExclusiveMax_cons x p :
  is_byte x ->
  PrefixExclusiveMax (x :: p) =
    match PrefixExclusiveMax p with
    | [] => if x =? 255 then [] else [x + 1]
    | q => x :: q
    end.
Proof.
  intros Hx. unfold PrefixExclusiveMax, PartialPrefix. rewrite !rev_involutive. cbn [rev].
  assert (E : forall s, drop_ff (s ++ [x]) =
    match drop_ff s with [] => if x =? 255 then [] else [x] | q => q ++ [x] end).
  { induction s as [|y s IH]; cbn; [reflexivity|].
    destruct (y =? 255); [exact IH|reflexivity]. }
  rewrite E. destruct (drop_ff (rev p)) as [|y s].
  - destruct (Z.eqb_spec x 255); [reflexivity|]. cbn. unfold is_byte in Hx.
    rewrite Z.mod_small by lia. reflexivity.
  - cbn [app rev]. rewrite rev_app_distr. cbn.
    destruct (rev s ++ [(y + 1) mod 256]) eqn:E2; [|reflexivity].
    apply app_eq_nil in E2 as [_ [=]].
Qed.

(** The keys with a prefix are an interval. *)
Lemma prefix_interval p k :
  byte_string p -> byte_string k ->
  (starts_with k p = true <-> bytes_le p k /\ below k (PrefixExclusiveMax p)).
Proof.
  intros Hp. revert k; induction Hp as [|x p Hx Hp IH]; intros k Hk.
  - split; [intros _; split; [apply bytes_le_nil|left; reflexivity]|destruct k; reflexivity].
  - rewrite PrefixExclusiveMax_cons by exact Hx. destruct k as [|y k].
    { split; [discriminate|]. intros [H _]. exfalso.
      apply H. reflexivity. }
    apply Forall_cons in Hk as [Hy Hk]. specialize (IH k Hk). cbn [starts_with].
    rewrite andb_true_iff, Z.eqb_eq, IH, bytes_le_cons. unfold is_byte, below in *.
    destruct (PrefixExclusiveMax p) as [|q qs].
    + destruct (Z.eqb_spec x 255) as [->|Hn].
      * intuition lia.
      * rewrite bytes_lt_cons. pose proof (bytes_lt_nil k). intuition (try discriminate; try lia).
    + rewrite bytes_lt_cons. intuition (try discriminate; try lia).
Qed.

Lemma below_trans j k b : bytes_le j k -> below k b -> below j b.
Proof. intros H [Hb|Hb]; [left; exact Hb|right; eapply bytes_le_lt_trans; eassumption]. Qed.

(** * Set operations *)

(** The order of exclusive bounds: the empty bound is the greatest. *)
Lemma CompareExclusiveMax_spec a b :
  match CompareExclusiveMax a b with
  | Lt => a <> [] /\ (b = [] \/ bytes_lt a b)
  | Eq => a = b
  | Gt => b <> [] /\ (a = [] \/ bytes_lt b a)
  end.
Proof.
  unfold CompareExclusiveMax. destruct a as [|x a], b as [|y b].
  - reflexivity.
  - split; [discriminate|auto].
  - split; [discriminate|auto].
  - destruct (compare_bytes (x :: a) (y :: b)) eqn:E.
    + apply compare_bytes_eq, E.
    + split; [discriminate|right; exact E].
    + split; [discriminate|right]. unfold bytes_lt. rewrite compare_bytes_antisym, E. reflexivity.
Qed.

Lemma MinExclusiveMax_below k a b :
  below k (MinExclusiveMax a b) <-> below k a /\ below k b.
Proof.
  unfold MinExclusiveMax, below. pose proof (CompareExclusiveMax_spec a b) as H.
  destruct (CompareExclusiveMax a b).
  - subst. tauto.
  - destruct H as [Ha [-> |Hb]]; [tauto|]. split; [|tauto]. intros [?|Hk]; [contradiction|].
    split; [auto|right; eapply bytes_lt_trans; eassumption].
  - destruct H as [Hb [-> |Ha]]; [tauto|]. split; [|tauto]. intros [?|Hk]; [contradiction|].
    split; [right; eapply bytes_lt_trans; eassumption|auto].
Qed.

Lemma empty_spec r : empty r = true <-> forall k, Contains r k = false.
Proof.
  unfold empty. rewrite andb_true_iff, negb_true_iff, bytes_leb_spec.
  split.
  - intros [He Hle] k. apply not_true_is_false. intros [H1 [H2|H2]]%KeyRange_Contains_spec.
    + rewrite H2 in He. discriminate.
    + apply (bytes_lt_irrefl k). eapply bytes_lt_le_trans; [exact H2|].
      eapply bytes_le_trans; eassumption.
  - intros H. specialize (H (inclusive_min r)). apply not_true_iff_false in H.
    rewrite KeyRange_Contains_spec in H. unfold below in H. split.
    + apply not_true_is_false. intros E%bytes_eqb_spec. apply H.
      split; [apply bytes_le_lteq; auto|auto].
    + apply bytes_not_lt. intros E. apply H. split; [apply bytes_le_lteq; auto|auto].
Qed.

Lemma KeyRange_Intersect_Contains a b k :
  Contains (Intersect a b) k = Contains a k && Contains b k.
Proof.
  unfold Intersect.
  assert (Hgen : forall x y, bytes_le (inclusive_min x) (inclusive_min y) ->
    Contains (let result := MkKeyRange (inclusive_min y)
                 (MinExclusiveMax (exclusive_max x) (exclusive_max y)) in
      if empty result then MkKeyRange (inclusive_min result) (inclusive_min result) else result) k
    = Contains x k && Contains y k).
  { intros x y Hle. cbv zeta.
    set (r := MkKeyRange (inclusive_min y) (MinExclusiveMax (exclusive_max x) (exclusive_max y))).
    assert (Hr : Contains r k = Contains x k && Contains y k).
    { apply bool_eq_iff. rewrite andb_true_iff, !KeyRange_Contains_spec. unfold r; cbn.
      rewrite MinExclusiveMax_below. split; [|tauto]. intros [H1 [H2 H3]].
      split; [split; [eapply bytes_le_trans; eassumption|exact H2]|auto]. }
    destruct (empty r) eqn:E; [|exact Hr]. pose proof (proj1 (empty_spec r) E k) as Hk.
    rewrite <- Hr, Hk. unfold empty in E. apply andb_true_iff in E as [E1 E2].
    apply not_true_is_false. rewrite KeyRange_Contains_spec. cbn. intros [H1 [H2|H2]].
    - apply bytes_leb_spec in E2. unfold r in E1, E2. cbn in E1, E2. rewrite H2 in E2.
      destruct (MinExclusiveMax _ _); [discriminate E1|]. apply E2. reflexivity.
    - apply (bytes_lt_irrefl k). eapply bytes_lt_le_trans; eassumption. }
  destruct (bytes_ltb (inclusive_min b) (inclusive_min a)) eqn:E.
  - etransitivity; [apply (Hgen b a)|apply andb_comm].
    apply bytes_le_lteq. left. apply bytes_ltb_spec, E.
  - apply Hgen, bytes_not_lt. intros H. apply bytes_ltb_spec in H. congruence.
Qed.

(** A key that shows that a range is not empty. *)
Lemma empty_false r : empty r = false <-> exists k, Contains r k = true.
Proof.
  split.
  - intros H. exists (inclusive_min r). apply KeyRange_Contains_spec.
    split; [apply bytes_le_lteq; auto|]. unfold empty in H.
    apply andb_false_iff in H as [H|H].
    + left. apply negb_false_iff, bytes_eqb_spec in H. exact H.
    + right. apply bytes_not_le. intros E. apply bytes_leb_spec in E. congruence.
  - intros [k Hk]. apply not_true_is_false. intros E. rewrite empty_spec in E.
    rewrite E in Hk. discriminate.
Qed.

(** The next key after a key is its successor. *)
Lemma Singleton_interval key k :
  byte_string k -> (bytes_le key k /\ below k (key ++ [0]) <-> k = key).
Proof.
  unfold below. intros Hk. split; [|intros ->; split; [apply bytes_le_lteq; auto|right]].
  - revert k Hk; induction key as [|x key IH]; intros k Hk [H1 [H2|H2]]; try discriminate H2.
    + destruct k as [|y k]; [reflexivity|]. apply Forall_cons in Hk as [Hy _].
      apply bytes_lt_cons in H2 as [H2|[_ H2]]; [unfold is_byte in Hy; lia|].
      destruct (bytes_lt_nil _ H2).
    + destruct k as [|y k]; [destruct H1; reflexivity|]. apply Forall_cons in Hk as [_ Hk].
      cbn in H2. apply bytes_le_cons in H1. apply bytes_lt_cons in H2.
      assert (x = y) as -> by lia. f_equal. apply IH; [exact Hk|]. intuition (try lia).
  - unfold bytes_lt. rewrite <- (app_nil_r key) at 1. rewrite compare_bytes_app. reflexivity.
Qed.

Lemma Intersects_spec a b :
  Intersects a b = true <-> exists x, Contains a x = true /\ Contains b x = true.
Proof.
  unfold Intersects. rewrite negb_true_iff, empty_false.
  split; intros [x Hx]; exists x; rewrite KeyRange_Intersect_Contains, andb_true_iff in *; exact Hx.
Qed.

Lemma ContainsRange_spec a b :
  empty b = false ->
  (ContainsRange a b = true <-> forall x, Contains b x = true -> Contains a x = true).
Proof.
  intros Hne. unfold ContainsRange. rewrite andb_true_iff, bytes_leb_spec.
  pose proof (CompareExclusiveMax_spec (exclusive_max b) (exclusive_max a)) as HC. split.
  - intros [Hmin Hmax] x [Hx1 Hx2]%KeyRange_Contains_spec. apply KeyRange_Contains_spec.
    split; [eapply bytes_le_trans; eassumption|]. unfold below in *.
    destruct (CompareExclusiveMax _ _); [rewrite <- HC; exact Hx2| |discriminate].
    destruct HC as [Hn [E|Hlt]]; [auto|]. destruct Hx2 as [?|Hx2]; [contradiction|].
    right. eapply bytes_lt_trans; eassumption.
  - intros H. assert (Hb : Contains b (inclusive_min b) = true).
    { apply empty_false in Hne as [y [Hy1 Hy2]%KeyRange_Contains_spec]. apply KeyRange_Contains_spec.
      split; [apply bytes_le_lteq; auto|exact (below_trans _ _ _ Hy1 Hy2)]. }
    pose proof (H _ Hb) as [Hmin Hmax0]%KeyRange_Contains_spec. split; [exact Hmin|].
    destruct (CompareExclusiveMax _ _); try reflexivity. exfalso. destruct HC as [Hn HC].
    assert (Hx : Contains b (exclusive_max a) = true).
    { apply KeyRange_Contains_spec. split; [|destruct HC; [left|right]; assumption].
      destruct Hmax0 as [?|Hm]; [contradiction|]. apply bytes_le_lteq. auto. }
    apply H, KeyRange_Contains_spec in Hx as [_ [?|Hx]]; [contradiction|exact (bytes_lt_irrefl _ Hx)].
Qed.

(** C38: the operations on key ranges are the operations on the sets of keys that
    they contain: intersection, overlap, emptiness, inclusion of a non-empty range,
    and the ranges of one key and of the keys with a prefix. *)
Theorem KeyRange_sets a b key prefix k :
  byte_string prefix -> byte_string k ->
  Contains (Intersect a b) k = Contains a k && Contains b k /\
  (Intersects a b = true <-> exists x, Contains a x = true /\ Contains b x = true) /\
  (empty a = true <-> forall x, Contains a x = false) /\
  (empty b = false ->
   (ContainsRange a b = true <-> forall x, Contains b x = true -> Contains a x = true)) /\
  (Contains (Singleton key) k = true <-> k = key) /\
  Contains (Prefix prefix) k = starts_with k prefix.
Proof.
  intros Hp Hk. split; [apply KeyRange_Intersect_Contains|]. split; [apply Intersects_spec|].
  split; [apply empty_spec|]. split; [apply ContainsRange_spec|]. split.
  - rewrite KeyRange_Contains_spec. apply Singleton_interval, Hk.
  - apply bool_eq_iff. rewrite KeyRange_Contains_spec. symmetry. apply prefix_interval; assumption.
Qed.

Theorem KeyRange_sets_witness :
  Contains (Intersect (Prefix [97; 255]) (Singleton [97; 255; 3])) [97; 255; 3] = true /\
  PrefixExclusiveMax [97; 255] = [98].
Proof.
  split; [|reflexivity].
  rewrite (proj1 (KeyRange_sets (Prefix [97; 255]) (Singleton [97; 255; 3]) [97] [97; 255] [97; 255; 3]
    (proj1 (byte_stringb_spec [97; 255]) eq_refl)
    (proj1 (byte_stringb_spec [97; 255; 3]) eq_refl))).
  reflexivity.
Defined.

(** * Prefixes *)

(** A key between two bounds with a common prefix has this prefix. *)
Lemma between_app c a b k :
  bytes_le (c ++ a) k /\ bytes_lt k (c ++ b) <->
  exists k', k = c ++ k' /\ bytes_le a k' /\ bytes_lt k' b.
Proof.
  split.
  - revert k; induction c as [|x c IH]; cbn; intros k [H1 H2]; [eauto|].
    destruct k as [|y k]; [destruct H1; reflexivity|].
    apply bytes_le_cons in H1. apply bytes_lt_cons in H2.
    assert (x = y) as -> by lia. destruct (IH k) as (k' & -> & H); [intuition (try lia)|eauto].
  - intros (k' & -> & H1 & H2). unfold bytes_le, bytes_lt in *.
    rewrite !compare_bytes_app. auto.
Qed.

Lemma bytes_le_app_iff c a b : bytes_le (c ++ a) (c ++ b) <-> bytes_le a b.
Proof. unfold bytes_le. rewrite compare_bytes_app. reflexivity. Qed.

Lemma bytes_lt_app_iff c a b : bytes_lt (c ++ a) (c ++ b) <-> bytes_lt a b.
Proof. unfold bytes_lt. rewrite compare_bytes_app. reflexivity. Qed.

(** Strings after a prefix that do not start with it come after all that do. *)
Lemma after_prefix p s t : bytes_lt p s -> starts_with s p = false -> bytes_lt (p ++ t) s.
Proof.
  revert s; induction p as [|x p IH]; intros s H E; [destruct s; discriminate E|].
  destruct s as [|y s]; [destruct (bytes_lt_nil _ H)|]. cbn in *.
  apply bytes_lt_cons in H. apply bytes_lt_cons.
  destruct (Z.eqb_spec y x) as [->|]; [right|left; lia].
  split; [reflexivity|]. apply IH; [|exact E]. intuition lia.
Qed.

Lemma AddPrefix_Contains p r k :
  byte_string p -> byte_string k ->
  (Contains (AddPrefix p r) k = true <-> exists k', k = p ++ k' /\ Contains r k' = true).
Proof.
  intros Hp Hk. destruct p as [|x p']; [cbn; split; [eauto|intros (? & -> & ?); auto]|].
  set (p := x :: p') in *.
  change (AddPrefix p r) with (MkKeyRange (p ++ inclusive_min r)
    (match exclusive_max r with [] => PrefixExclusiveMax p | _ => p ++ exclusive_max r end)).
  rewrite KeyRange_Contains_spec. cbn [inclusive_min exclusive_max]. clearbody p. clear x p'.
  destruct (exclusive_max r) as [|m ms] eqn:E.
  - split.
    + intros [H1 H2]. assert (Hs : starts_with k p = true).
      { apply prefix_interval; [assumption..|]. split; [|exact H2].
        eapply bytes_le_trans; [apply (bytes_le_app p (inclusive_min r))|exact H1]. }
      apply starts_with_spec in Hs as [k' ->]. exists k'. split; [reflexivity|].
      apply KeyRange_Contains_spec. rewrite E. split; [apply bytes_le_app_iff in H1; exact H1|left; reflexivity].
    + intros (k' & -> & [H1 _]%KeyRange_Contains_spec). split; [apply bytes_le_app_iff, H1|].
      apply prefix_interval; [assumption..|]. apply starts_with_spec. eauto.
  - rewrite <- E. assert (Hn : exclusive_max r <> []) by (rewrite E; discriminate).
    unfold below. split.
    + intros [H1 [[_ H2]%app_eq_nil|H2]]; [contradiction|].
      destruct (proj1 (between_app _ _ _ _) (conj H1 H2)) as (k' & -> & H). exists k'.
      split; [reflexivity|]. apply KeyRange_Contains_spec. unfold below. tauto.
    + intros (k' & -> & [H1 [H2|H2]]%KeyRange_Contains_spec); [contradiction|].
      rewrite bytes_le_app_iff, bytes_lt_app_iff. auto.
Qed.

Lemma EmptyRange_Contains k : Contains EmptyRange k = false.
Proof. apply empty_spec. reflexivity. Qed.

(** A lower bound without the prefix. *)
Lemma drop_prefix_min p s k :
  starts_with s p = true ->
  (bytes_le (drop (length p) s) k <-> bytes_le s (p ++ k)).
Proof.
  intros [t ->]%starts_with_spec. rewrite drop_app_length. symmetry. apply bytes_le_app_iff.
Qed.

(** An upper bound above the prefix, without the prefix. *)
Lemma drop_prefix_max p s k :
  below p s ->
  (below k (if starts_with s p then drop (length p) s else []) <-> below (p ++ k) s).
Proof.
  unfold below. intros Hs. destruct (starts_with s p) eqn:E.
  - apply starts_with_spec in E as [t ->]. rewrite drop_app_length, bytes_lt_app_iff.
    destruct Hs as [Hs|Hs].
    + apply app_eq_nil in Hs as [-> ->]. reflexivity.
    + assert (t <> []) by (intros ->; rewrite app_nil_r in Hs; exact (bytes_lt_irrefl _ Hs)).
      split; [intros [?|?]; [contradiction|auto]|].
      intros [[_ ?]%app_eq_nil|?]; [contradiction|auto].
  - split; [intros _|auto]. destruct Hs as [?|Hs]; [auto|right; apply after_prefix; assumption].
Qed.

Lemma RemovePrefix_Contains p r k : Contains (RemovePrefix p r) k = Contains r (p ++ k).
Proof.
  destruct p as [|x p']; [reflexivity|]. unfold RemovePrefix. set (p := x :: p') in *.
  apply bool_eq_iff. rewrite (KeyRange_Contains_spec r).
  destruct (negb (bytes_leb (inclusive_min r) p) && negb (starts_with (inclusive_min r) p)) eqn:E.
  - rewrite EmptyRange_Contains. bool_to_prop. split; [discriminate|]. intros [Hm _]. exfalso.
    apply (bytes_lt_irrefl (inclusive_min r)). eapply bytes_le_lt_trans; [exact Hm|].
    apply after_prefix; [|assumption]. apply bytes_not_le. intros HH%bytes_leb_spec. congruence.
  - assert (Hmin : bytes_le (if bytes_leb (inclusive_min r) p then []
        else drop (length p) (inclusive_min r)) k <-> bytes_le (inclusive_min r) (p ++ k)).
    { destruct (bytes_leb (inclusive_min r) p) eqn:E1.
      - apply bytes_leb_spec in E1. split; intros _; [|apply bytes_le_nil].
        eapply bytes_le_trans; [exact E1|apply bytes_le_app].
      - apply drop_prefix_min, negb_false_iff, E. }
    pose proof (Compare_below p (exclusive_max r)) as HC.
    destruct (CompareKeyAndExclusiveMax p (exclusive_max r)) eqn:Ec;
      [|rewrite KeyRange_Contains_spec, <- Hmin; cbn [inclusive_min exclusive_max];
        rewrite drop_prefix_max by tauto; reflexivity|];
      rewrite EmptyRange_Contains; (split; [discriminate|]); intros [_ H]; exfalso;
      (enough (false = true) by discriminate); apply HC;
      (eapply below_trans; [apply bytes_le_app|exact H]).
Qed.

(** ** The longest prefix *)

Lemma common_length_split a b :
  exists a' b', let c := take (common_length a b) a in
    a = c ++ a' /\ b = c ++ b' /\ common_length a b = length c /\
    match a', b' with x :: _, y :: _ => x <> y | _, _ => True end.
Proof.
  revert b; induction a as [|x a IH]; intros b; [exists [], b; auto|].
  destruct b as [|y b]; [exists (x :: a), []; auto|]. cbn.
  destruct (Z.eqb_spec x y) as [->|Hne]; [|exists (x :: a), (y :: b); auto].
  destruct (IH b) as (a' & b' & Ha & Hb & Hl & Hd). exists a', b'. cbn in *.
  rewrite <- Ha, <- Hb, <- Hl. auto.
Qed.

(** Strings after a run of the greatest byte start with it. *)
Lemma count_ff_prefix a k :
  byte_string k -> bytes_le a k -> starts_with k (take (count_ff a) a) = true.
Proof.
  revert k; induction a as [|x a IH]; intros k Hk H; [destruct k; reflexivity|].
  cbn. destruct (Z.eqb_spec x 255) as [->|]; [|destruct k; reflexivity].
  destruct k as [|y k]; [destruct H; reflexivity|].
  apply Forall_cons in Hk as [Hy Hk]. apply bytes_le_cons in H. unfold is_byte in Hy.
  cbn. assert (y = 255) as -> by lia. cbn. apply IH; [exact Hk|]. intuition lia.
Qed.

Lemma starts_with_app c s t : starts_with (c ++ s) (c ++ t) = starts_with s t.
Proof. induction c as [|x c IH]; cbn; [reflexivity|]. rewrite Z.eqb_refl. exact IH. Qed.

Lemma LongestPrefix_common r k :
  (length (exclusive_max r) <= length (inclusive_min r))%nat ->
  byte_string k -> Contains r k = true -> starts_with k (LongestPrefix r) = true.
Proof.
  intros Hlen Hk [H1 H2]%KeyRange_Contains_spec. unfold LongestPrefix.
  destruct (exclusive_max r) as [|m ms] eqn:E; [apply count_ff_prefix; assumption|].
  rewrite <- E in *. assert (Hn : exclusive_max r <> []) by (rewrite E; discriminate).
  destruct H2 as [?|H2]; [contradiction|]. clear E m ms Hn. cbv zeta.
  destruct (common_length_split (inclusive_min r) (exclusive_max r)) as (a & b & Ha & Hb & Hl & Hd).
  set (i := common_length (inclusive_min r) (exclusive_max r)) in *.
  set (c := take i (inclusive_min r)) in *. clearbody c i.
  rewrite Ha in H1, Hlen. rewrite Hb in H2, Hlen. rewrite Ha, Hb, Hl.
  destruct (proj1 (between_app _ _ _ _) (conj H1 H2)) as (k' & -> & Hk1 & Hk2).
  apply Forall_app in Hk as [_ Hk]. rewrite !length_app in *.
  case_if.
  - bool_to_prop. rewrite Nat.min_r in * by lia.
    match goal with H : Nat.eqb _ _ = true |- _ => apply Nat.eqb_eq in H end.
    destruct b as [|y [|? ?]]; cbn [length] in *; try lia.
    destruct a as [|x a]; cbn [length] in *; [lia|].
    rewrite !list_lookup_total_middle in * by reflexivity.
    assert (k' <> []) by (intros ->; exact (Hk1 eq_refl)).
    destruct k' as [|z k']; [contradiction|]. apply Forall_cons in Hk as [Hz Hk].
    apply bytes_le_cons in Hk1. apply bytes_lt_cons in Hk2.
    assert (x = z) as -> by (pose proof (bytes_lt_nil k'); intuition lia).
    rewrite !(cons_middle z c), !app_assoc.
    rewrite drop_app_length' by (rewrite length_app; reflexivity).
    rewrite take_app_add' by (rewrite length_app; reflexivity).
    rewrite starts_with_app.
    apply count_ff_prefix; [exact Hk|intuition lia].
  - rewrite take_app_length. apply starts_with_spec. eauto.
Qed.

(** Adding a prefix to a range gives the keys of the range with the prefix before
    them; removing one gives the keys that have the prefix, without it; and every key
    of a range starts with its longest prefix (for an upper bound that is not longer
    than the lower bound). *)
Theorem KeyRange_prefixes p r k :
  byte_string p -> byte_string k ->
  (Contains (AddPrefix p r) k = true <-> exists k', k = p ++ k' /\ Contains r k' = true) /\
  Contains (RemovePrefix p r) k = Contains r (p ++ k) /\
  ((length (exclusive_max r) <= length (inclusive_min r))%nat ->
   Contains r k = true -> starts_with k (LongestPrefix r) = true).
Proof.
  intros Hp Hk. split; [apply AddPrefix_Contains; assumption|].
  split; [apply RemovePrefix_Contains|]. intros Hl Hc. apply LongestPrefix_common; assumption.
Qed.

Theorem KeyRange_prefixes_witness :
  LongestPrefix (MkKeyRange [97; 98; 255; 255; 3] [97; 99]) = [97; 98; 255; 255] /\
  starts_with [97; 98; 255; 255; 7] [97; 98; 255; 255] = true.
Proof.
  split; [reflexivity|].
  apply (proj2 (proj2 (KeyRange_prefixes [97] (MkKeyRange [97; 98; 255; 255; 3] [97; 99])
    [97; 98; 255; 255; 7]
    (proj1 (byte_stringb_spec [97]) eq_refl)
    (proj1 (byte_stringb_spec [97; 98; 255; 255; 7]) eq_refl)))); [cbn; lia|reflexivity].
Defined.

(** Without the condition on the bounds, [LongestPrefix] may return a prefix that not
    all keys have: here the key ["b"] is in the range. *)
Lemma LongestPrefix_not_common :
  LongestPrefix (MkKeyRange [97] [98; 99; 100]) = [97] /\
  Contains (MkKeyRange [97] [98; 99; 100]) [98] = true.
Proof. split; reflexivity. Qed.

(** A prefix that ends in the byte [0x7f] is not recognised, since the comparison is on
    [char]. *)
Lemma is_non_empty_prefix_7f :
  is_non_empty_prefix (Prefix [127]) = false /\ is_non_empty_prefix (Prefix [126]) = true.
Proof. split; reflexivity. Qed.

(** The ranges of one key are recognised. *)
Lemma is_singleton_spec r : is_singleton r = true <-> r = Singleton (inclusive_min r).
Proof.
  destruct r as [lo hi]. unfold is_singleton, Singleton, Successor, back. cbn. split.
  - intros H. bool_to_prop.
    match goal with H : Nat.eqb _ _ = true |- _ => apply Nat.eqb_eq in H; rename H into Hl end.
    match goal with H : bytes_eqb _ _ = true |- _ => apply bytes_eqb_spec in H; rename H into Ht end.
    f_equal. pose proof (take_drop (length lo) hi) as Hd. rewrite Ht in Hd. rewrite <- Hd in *.
    rewrite length_app in Hl. destruct (drop (length lo) hi) as [|x [|? ?]]; cbn in Hl; try lia.
    rewrite last_last in *. subst. reflexivity.
  - intros [= ->]. rewrite length_app, take_app_length, last_last, Nat.eqb_refl. cbn.
    apply bytes_eqb_spec. reflexivity.
Qed.
