(* ===== verification/ByteRange.v ===== *)
(** Byte range requests of the key-value store: [kvstore/byte_range.h] and
    [byte_range.cc]. *)

From S2P Require Import Prelude Int64 Bytes.

(** * Definitions *)

(** The size of a valid range. *)
Module ByteRange.
Record t := Make { inclusive_min : Z; exclusive_max : Z }.

Definition SatisfiesInvariants (r : t) : bool :=
  (0 <=? inclusive_min r) && (0 <=? exclusive_max r) && (inclusive_min r <=? exclusive_max r).

Definition size (r : t) : Z := wrap64 (exclusive_max r - inclusive_min r).
End ByteRange.

Module OptionalByteRangeRequest.
Record t := Make { inclusive_min : Z; exclusive_max : Z }.

(** The default constructor. *)
Definition Full : t := Make 0 (-1).
Definition of_ByteRange (r : ByteRange.t) : t :=
  Make (ByteRange.inclusive_min r) (ByteRange.exclusive_max r).

Definition IsFull (r : t) : bool := (inclusive_min r =? 0) && (exclusive_max r =? -1).
Definition IsRange (r : t) : bool := negb (exclusive_max r =? -1).
Definition IsSuffixLength (r : t) : bool := inclusive_min r <? 0.
Definition IsSuffix (r : t) : bool := (exclusive_max r =? -1) && (0 <? inclusive_min r).
Definition IsStat (r : t) : bool := (inclusive_min r =? 0) && (exclusive_max r =? 0).

Definition Range (inclusive_min exclusive_max : Z) : t := Make inclusive_min exclusive_max.
Definition SuffixLength (length : Z) : t := Make (wrap64 (- length)) (-1).
Definition Suffix (inclusive_min : Z) : t := Make inclusive_min (-1).
Definition Stat : t := Make 0 0.

Definition size (r : t) : Z :=
  if inclusive_min r <? 0 then wrap64 (- inclusive_min r)
  else if negb (exclusive_max r =? -1) then wrap64 (exclusive_max r - inclusive_min r)
  else -1.

Definition AsByteRange (r : t) : ByteRange.t :=
  ByteRange.Make (inclusive_min r) (exclusive_max r).

Definition SatisfiesInvariants (r : t) : bool :=
  (exclusive_max r =? -1) ||
  ((inclusive_min r <=? exclusive_max r) && (0 <=? inclusive_min r)).

Definition Validate (r : t) (size : Z) : Result ByteRange.t :=
  let exclusive_max' := if exclusive_max r =? -1 then size else exclusive_max r in
  let inclusive_min' :=
    if inclusive_min r <? 0 then wrap64 (inclusive_min r + size) else inclusive_min r in
  if (inclusive_min' <? 0) || (size <? exclusive_max') || (exclusive_max' <? inclusive_min')
  then Err kOutOfRange
  else Ok (ByteRange.Make inclusive_min' exclusive_max').
End OptionalByteRangeRequest.

(** [Cord::Subcord(pos, n)]: at most [n] bytes from position [pos]. *)
Definition Subcord (s : bytes) (pos n : Z) : bytes := take (Z.to_nat n) (drop (Z.to_nat pos) s).

Definition GetSubCord (s : bytes) (r : ByteRange.t) : bytes :=
  if (ByteRange.inclusive_min r =? 0) && (ByteRange.size r =? Z.of_nat (length s)) then s
  else Subcord s (ByteRange.inclusive_min r) (ByteRange.size r).

(** * Specification

    What a request means for a value: all of it, an explicit range, a suffix of a given
    length, or all but a prefix of a given length.  A request that the value does not
    have the bytes for means nothing. *)
Inductive requested (value : bytes) : OptionalByteRangeRequest.t -> bytes -> Prop :=
| requested_range pre mid post :
    value = pre ++ mid ++ post ->
    requested value (OptionalByteRangeRequest.Range (Z.of_nat (length pre))
                       (Z.of_nat (length (pre ++ mid)))) mid
| requested_suffix_length pre suf :
    value = pre ++ suf -> suf <> [] ->
    requested value (OptionalByteRangeRequest.SuffixLength (Z.of_nat (length suf))) suf
| requested_suffix pre suf :
    value = pre ++ suf ->
    requested value (OptionalByteRangeRequest.Suffix (Z.of_nat (length pre))) suf.

(** The read path of a store that has the value: validate the request, then take the
    bytes. *)
Definition serve (value : bytes) (r : OptionalByteRangeRequest.t) : Result bytes :=
  range ← OptionalByteRangeRequest.Validate r (Z.of_nat (length value));
  Ok (GetSubCord value range).

(** * Theorems *)

Lemma GetSubCord_app pre mid post n m :
  Z.of_nat (length (pre ++ mid ++ post)) <= i64_max ->
  n = Z.of_nat (length pre) -> m = Z.of_nat (length (pre ++ mid)) ->
  GetSubCord (pre ++ mid ++ post) (ByteRange.Make n m) = mid.
Proof.
  intros Hl -> ->. unfold GetSubCord, ByteRange.size, Subcord. cbn.
  rewrite !length_app in *. rewrite wrap64_id by (unfold in_i64, i64_min, i64_max in *; lia).
  replace (Z.of_nat (length pre + length mid) - Z.of_nat (length pre)) with (Z.of_nat (length mid))
    by lia.
  case_if.
  - bool_to_prop. destruct pre; [|cbn in *; lia]. destruct post; [apply app_nil_r|cbn in *; lia].
  - rewrite !Nat2Z.id, drop_app_length, take_app_length. reflexivity.
Qed.

Lemma split_range {A} (l : list A) n m :
  0 <= n -> n <= m -> m <= Z.of_nat (length l) ->
  exists pre mid post, l = pre ++ mid ++ post /\
    n = Z.of_nat (length pre) /\ m = Z.of_nat (length (pre ++ mid)).
Proof.
  intros. exists (take (Z.to_nat n) l), (drop (Z.to_nat n) (take (Z.to_nat m) l)), (drop (Z.to_nat m) l).
  assert (E : take (Z.to_nat n) l ++ drop (Z.to_nat n) (take (Z.to_nat m) l) = take (Z.to_nat m) l).
  { rewrite <- (take_drop (Z.to_nat n) (take (Z.to_nat m) l)) at 2. f_equal.
    rewrite take_take. f_equal. lia. }
  split; [rewrite app_assoc, E, take_drop; reflexivity|].
  rewrite E, !length_take. lia.
Qed.

Lemma requested_served value r s :
  Z.of_nat (length value) <= i64_max -> requested value r s -> serve value r = Ok s.
Proof.
  unfold serve, OptionalByteRangeRequest.Validate. intros Hl H.
  destruct H as [pre mid post ->|pre suf -> Hn|pre suf ->]; cbn -[wrap64].
  - rewrite !length_app in *.
    decide_comparisons. cbn.
    rewrite GetSubCord_app by (rewrite ?length_app; lia). reflexivity.
  - assert (0 < Z.of_nat (length suf)) by (destruct suf; [contradiction|cbn; lia]).
    rewrite !length_app in *. rewrite (wrap64_id (- _)) by (unfold in_i64, i64_min, i64_max in *; lia).
    rewrite wrap64_id by (unfold in_i64, i64_min, i64_max in *; lia).
    decide_comparisons. cbn.
    rewrite <- (app_nil_r suf) at 1.
    rewrite GetSubCord_app by (rewrite ?length_app, ?length_nil; lia). reflexivity.
  - rewrite !length_app in *. decide_comparisons. cbn.
    rewrite <- (app_nil_r suf) at 1.
    rewrite GetSubCord_app by (rewrite ?length_app, ?length_nil; lia). reflexivity.
Qed.

Lemma Validate_requested value r range :
  Z.of_nat (length value) <= i64_max ->
  in_i64 (OptionalByteRangeRequest.inclusive_min r) ->
  OptionalByteRangeRequest.SatisfiesInvariants r = true ->
  OptionalByteRangeRequest.Validate r (Z.of_nat (length value)) = Ok range ->
  exists s, requested value r s.
Proof.
  destruct r as [lo hi]. unfold OptionalByteRangeRequest.Validate,
    OptionalByteRangeRequest.SatisfiesInvariants. cbn. unfold in_i64. intros Hl Hlo HI H.
  destruct (Z.ltb_spec lo 0) as [Hneg|Hpos].
  - rewrite wrap64_id in H by (unfold in_i64, i64_min, i64_max in *; lia).
    assert (hi = -1) as -> by lia. cbn in H. inv_result. bool_to_prop.
    destruct (split_range value (lo + Z.of_nat (length value)) (Z.of_nat (length value)))
      as (pre & mid & post & -> & E1 & E2); [lia..|].
    rewrite !length_app in *. destruct post; [|cbn [length] in *; lia].
    exists mid. replace lo with (- Z.of_nat (length mid)) by (cbn [length] in *; lia).
    rewrite <- (wrap64_id (- Z.of_nat (length mid)))
      by (unfold in_i64, i64_min, i64_max in *; lia).
    rewrite app_nil_r. eapply requested_suffix_length; [reflexivity|].
    intros ->. cbn [length] in *. lia.
  - destruct (Z.eqb_spec hi (-1)) as [->|Hhi].
    + cbn in H. inv_result. bool_to_prop.
      destruct (split_range value lo (Z.of_nat (length value)))
        as (pre & mid & post & -> & -> & E2); [lia..|].
      rewrite app_assoc. exists (mid ++ post). rewrite <- app_assoc. eapply requested_suffix. reflexivity.
    + cbn in HI. inv_result. bool_to_prop.
      destruct (split_range value lo hi) as (pre & mid & post & -> & -> & ->); [lia..|].
      exists mid. eapply requested_range. reflexivity.
Qed.

Lemma serve_requested value r s :
  Z.of_nat (length value) <= i64_max ->
  in_i64 (OptionalByteRangeRequest.inclusive_min r) ->
  OptionalByteRangeRequest.SatisfiesInvariants r = true ->
  serve value r = Ok s -> requested value r s.
Proof.
  intros Hl Hr HI H. pose proof H as (range & Hv & _)%bind_Ok.
  destruct (Validate_requested value r range Hl Hr HI Hv) as [s' Hs].
  pose proof (requested_served value r s' Hl Hs) as E. rewrite H in E. injection E as <-. exact Hs.
Qed.

(** Serving a request returns exactly the bytes that the request means, and fails
    with [kOutOfRange] exactly when the value does not have them. *)
Theorem serve_correct value r :
  Z.of_nat (length value) <= i64_max ->
  in_i64 (OptionalByteRangeRequest.inclusive_min r) ->
  OptionalByteRangeRequest.SatisfiesInvariants r = true ->
  (forall s, serve value r = Ok s <-> requested value r s) /\
  (forall e, serve value r = Err e <-> e = kOutOfRange /\ ~ exists s, requested value r s).
Proof.
  intros Hl Hr HI. split.
  - intros s. split; [apply serve_requested|apply requested_served]; assumption.
  - intros e. split.
    + intros H. split; [|intros [s Hs]; rewrite (requested_served _ _ _ Hl Hs) in H; discriminate].
      unfold serve, OptionalByteRangeRequest.Validate in H.
      destruct (_ || _); cbn in H; congruence.
    + intros [-> Hno]. destruct (serve value r) as [s|e] eqn:E.
      * destruct Hno. exists s. apply serve_requested; assumption.
      * unfold serve, OptionalByteRangeRequest.Validate in E.
        destruct (_ || _); cbn in E; congruence.
Qed.

Theorem serve_correct_witness :
  serve [1; 2; 3; 4] (OptionalByteRangeRequest.SuffixLength 3) = Ok [2; 3; 4] /\
  serve [1; 2; 3; 4] (OptionalByteRangeRequest.Range 2 6) = Err kOutOfRange /\
  ~ exists s, requested [1; 2; 3; 4] (OptionalByteRangeRequest.Range 2 6) s.
Proof.
  split; [reflexivity|]. split; [reflexivity|].
  refine (proj2 (proj1 (proj2 (serve_correct [1; 2; 3; 4] (OptionalByteRangeRequest.Range 2 6)
    _ _ _) kOutOfRange) eq_refl));
    [vm_compute; discriminate|split; vm_compute; discriminate|reflexivity].
Defined.

(** A suffix of length zero is the full value. *)
Lemma SuffixLength_zero value :
  OptionalByteRangeRequest.SuffixLength 0 = OptionalByteRangeRequest.Full /\
  (Z.of_nat (length value) <= i64_max ->
   serve value (OptionalByteRangeRequest.SuffixLength 0) = Ok value).
Proof.
  split; [reflexivity|]. intros H. apply requested_served; [exact H|].
  apply (requested_suffix value [] value). reflexivity.
Qed.
