(* ===== verification/MemoryStore.v ===== *)
(** The in-memory key-value store: [kvstore/memory/memory_key_value_store.cc], with the
    conditions of [kvstore/operations.h] and the results of [kvstore/read_result.h].

    The values are an [absl::btree_map], an ordered map with the interface of [std::map]: a
    list of pairs in the order of the keys, whose iterators are positions.  Operations hold
    the mutex of the store, so each is one step.  [now] is the time that [absl::Now] returns. *)

From stdpp Require Import gmap sorting.
From S2P Require Import Prelude Int64 Bytes Generation KeyRange ByteRange.

(** * Ordered maps from strings *)

Module Map.
Section operations.
Context {A : Type}.

Fixpoint find (key : bytes) (m : list (bytes * A)) : option A :=
  match m with
  | [] => None
  | (k, a) :: m => if bytes_eqb k key then Some a else find key m
  end.

(** The position of the first key that is not before [key]. *)
Fixpoint lower_bound (key : bytes) (m : list (bytes * A)) : nat :=
  match m with
  | [] => O
  | (k, _) :: m => if bytes_ltb k key then S (lower_bound key m) else O
  end.

(** [values[key] = a], or [emplace] of a key that is not there. *)
Fixpoint assign (key : bytes) (a : A) (m : list (bytes * A)) : list (bytes * A) :=
  match m with
  | [] => [(key, a)]
  | (k, b) :: m' =>
      match compare_bytes key k with
      | Lt => (key, a) :: m
      | Eq => (key, a) :: m'
      | Gt => (k, b) :: assign key a m'
      end
  end.

Fixpoint erase (key : bytes) (m : list (bytes * A)) : list (bytes * A) :=
  match m with
  | [] => []
  | (k, b) :: m => if bytes_eqb k key then m else (k, b) :: erase key m
  end.

(** [erase(first, last)] and the loop from [first] to [last].  Both run past the end of the
    map, which is undefined, when [last] is before [first]. *)
Definition erase_range (it_range : nat * nat) (m : list (bytes * A)) : option (list (bytes * A)) :=
  if Nat.leb it_range.1 it_range.2 then Some (take it_range.1 m ++ drop it_range.2 m) else None.
Definition between (it_range : nat * nat) (m : list (bytes * A)) : option (list (bytes * A)) :=
  if Nat.leb it_range.1 it_range.2 then Some (drop it_range.1 (take it_range.2 m)) else None.

End operations.
End Map.

(** * Generations and conditions *)

Record TimestampedStorageGeneration := MkStamp { generation : bytes; time : Z }.

Definition IsUnknown (generation : bytes) : bool := bytes_eqb generation [].
Definition IsNoValue (generation : bytes) : bool := bytes_eqb generation [kNoValue].

Record ReadGenerationConditions := { if_not_equal : bytes; if_equal : bytes }.

(** Generations are compared by [operator==], which is [Equivalent]. *)
Definition ReadGenerationConditions_Matches (c : ReadGenerationConditions) (g : bytes) : bool :=
  negb (Equivalent g (if_not_equal c)) && (IsUnknown (if_equal c) || Equivalent g (if_equal c)).

(** A [WriteGenerationConditions] has the one member [if_equal]. *)
Definition WriteGenerationConditions_Matches (if_equal g : bytes) : bool :=
  IsUnknown if_equal || Equivalent g if_equal.
Definition MatchesNoValue (if_equal : bytes) : bool := IsUnknown if_equal || IsNoValue if_equal.

Inductive ReadState := kUnspecified | kMissing | kValue.
Record ReadResult := MkReadResult { state : ReadState; read_value : bytes; stamp : TimestampedStorageGeneration }.
Definition Unspecified (stamp : TimestampedStorageGeneration) : ReadResult := MkReadResult kUnspecified [] stamp.
Definition Missing (stamp : TimestampedStorageGeneration) : ReadResult := MkReadResult kMissing [] stamp.
Definition Value (value : bytes) (stamp : TimestampedStorageGeneration) : ReadResult := MkReadResult kValue value stamp.

(** * The store *)

Record ValueWithGenerationNumber := MkVersioned { value : bytes; generation_number : Z }.
Definition value_generation (v : ValueWithGenerationNumber) : bytes := FromUint64 (generation_number v).

Record StoredKeyValuePairs := MkStored {
  values : list (bytes * ValueWithGenerationNumber);
  next_generation_number : Z;
}.

Definition new_store : StoredKeyValuePairs := MkStored [] 0.

Definition Find (data : StoredKeyValuePairs) (range : KeyRange) : nat * nat :=
  (Map.lower_bound (inclusive_min range) (values data),
   if bytes_eqb (exclusive_max range) [] then length (values data)
   else Map.lower_bound (exclusive_max range) (values data)).

(** A new version of a key, with the next generation number, a [uint64_t]. *)
Definition put (data : StoredKeyValuePairs) (key v : bytes) : StoredKeyValuePairs * bytes :=
  let versioned := MkVersioned v (next_generation_number data) in
  (MkStored (Map.assign key versioned (values data)) ((next_generation_number data + 1) mod 2 ^ 64),
   value_generation versioned).

Definition erase (data : StoredKeyValuePairs) (key : bytes) : StoredKeyValuePairs :=
  MkStored (Map.erase key (values data)) (next_generation_number data).

Definition Read (data : StoredKeyValuePairs) (key : bytes) (conditions : ReadGenerationConditions)
    (byte_range : OptionalByteRangeRequest.t) (now : Z) : Result ReadResult :=
  match Map.find key (values data) with
  | None => Ok (Missing (MkStamp NoValue now))
  | Some it =>
      let stamp := MkStamp (value_generation it) now in
      if negb (ReadGenerationConditions_Matches conditions (value_generation it)) then Ok (Unspecified stamp)
      else
        byte_range ← OptionalByteRangeRequest.Validate byte_range (Z.of_nat (length (value it)));
        Ok (Value (GetSubCord (value it) byte_range) stamp)
  end.

Definition Write (data : StoredKeyValuePairs) (key : bytes) (v : option bytes) (if_equal : bytes) (now : Z) :
    StoredKeyValuePairs * TimestampedStorageGeneration :=
  match Map.find key (values data) with
  | None =>
      if negb (MatchesNoValue if_equal) then (data, MkStamp Unknown now)
      else
        match v with
        | None => (data, MkStamp NoValue now)
        | Some v => let '(data, generation) := put data key v in (data, MkStamp generation now)
        end
  | Some it =>
      if negb (WriteGenerationConditions_Matches if_equal (value_generation it)) then (data, MkStamp Unknown now)
      else
        match v with
        | None => (erase data key, MkStamp NoValue now)
        | Some v => let '(data, generation) := put data key v in (data, MkStamp generation now)
        end
  end.

(** [None]: the iterators are crossed. *)
Definition erase_found (data : StoredKeyValuePairs) (range : KeyRange) : option StoredKeyValuePairs :=
  values' ← Map.erase_range (Find data range) (values data);
  Some (MkStored values' (next_generation_number data)).

Definition DeleteRange (data : StoredKeyValuePairs) (range : KeyRange) : option StoredKeyValuePairs :=
  if negb (empty range) then erase_found data range else Some data.

Record ListEntry := MkListEntry { entry_key : bytes; entry_size : Z }.

(** [ListImpl] collects the entries of the range, then sends them.  The receiver may cancel:
    [cancelled] is what the flag is before each entry is collected or sent.  [checked_size] of a size
    below [2^63] is that size. *)
Definition strip_key (strip_prefix_length : Z) (key : bytes) : bytes :=
  drop (Z.to_nat (Z.min strip_prefix_length (Z.of_nat (length key)))) key.

Fixpoint until_cancelled {A} (cancelled : nat -> bool) (l : list A) : list A :=
  match l with
  | [] => []
  | a :: l => if cancelled O then [] else a :: until_cancelled (fun n => cancelled (S n)) l
  end.

Definition list_entry (strip_prefix_length : Z) (kv : bytes * ValueWithGenerationNumber) : ListEntry :=
  MkListEntry (strip_key strip_prefix_length kv.1) (Z.of_nat (length (value kv.2))).

Definition ListImpl (data : StoredKeyValuePairs) (range : KeyRange) (strip_prefix_length : Z)
    (collecting sending : nat -> bool) : option (list ListEntry) :=
  found ← Map.between (Find data range) (values data);
  Some (until_cancelled sending (list_entry strip_prefix_length <$> until_cancelled collecting found)).

(** * Specification

    The store is a map from keys to versions: a value and the generation number it was
    written with. *)

Definition contents (data : StoredKeyValuePairs) : gmap bytes ValueWithGenerationNumber := list_to_map (values data).

Definition in_order {A} (m : list (bytes * A)) : Prop := StronglySorted bytes_lt m.*1.

(** The keys are in order; every generation number was handed out, and to one key. *)
Record WellFormed (data : StoredKeyValuePairs) : Prop := {
  keys_in_order : in_order (values data);
  numbers_handed_out : forall k v, contents data !! k = Some v -> 0 <= generation_number v < next_generation_number data;
  numbers_differ : forall k k' v v', contents data !! k = Some v -> contents data !! k' = Some v' ->
    generation_number v = generation_number v' -> k = k';
  next_in_range : next_generation_number data < 2 ^ 64;
}.

(** The condition of a write on what the key has. *)
Definition holds (current : option ValueWithGenerationNumber) (if_equal : bytes) : Prop :=
  if_equal = Unknown \/
  match current with None => if_equal = NoValue | Some v => Equivalent (value_generation v) if_equal = true end.

(** * Ordered maps *)

Section ordered_maps.
Context {A : Type}.
Implicit Types m : list (bytes * A).

Lemma find_lookup key m : Map.find key m = (list_to_map m : gmap bytes A) !! key.
Proof.
  induction m as [|[k a] m IH]; cbn; [by rewrite lookup_empty|].
  destruct (bytes_eqb k key) eqn:E.
  - apply bytes_eqb_spec in E as ->. by rewrite lookup_insert_eq.
  - rewrite lookup_insert_ne; [done|]. intros ->. by rewrite (proj2 (bytes_eqb_spec _ _) eq_refl) in E.
Qed.

Lemma in_order_cons k a m : in_order ((k, a) :: m) <-> in_order m /\ Forall (fun kv => bytes_lt k kv.1) m.
Proof.
  unfold in_order. cbn. split.
  - intros [H Hk]%StronglySorted_inv. by rewrite Forall_fmap in Hk.
  - intros [H Hk]. constructor; [done|]. by rewrite Forall_fmap.
Qed.

Lemma in_order_NoDup m : in_order m -> NoDup m.*1.
Proof.
  unfold in_order. induction 1 as [|k l _ IH H]; constructor; [|done].
  intros Hk. rewrite Forall_forall in H. by apply (bytes_lt_irrefl k), H.
Qed.

Lemma absent_before k key m : bytes_lt key k -> Forall (fun kv => bytes_lt k kv.1) m -> Map.find key m = None.
Proof.
  intros Hk H. induction H as [|[k' a] m Hk' _ IH]; cbn; [done|].
  destruct (bytes_eqb k' key) eqn:E; [|done]. apply bytes_eqb_spec in E as ->.
  destruct (bytes_lt_irrefl key). by eapply bytes_lt_trans.
Qed.

Lemma assign_Forall (P : bytes * A -> Prop) key a m : P (key, a) -> Forall P m -> Forall P (Map.assign key a m).
Proof.
  intros Ha. induction 1 as [|[k b] m Hb Hm IH]; cbn; [by repeat constructor|].
  destruct (compare_bytes key k); by repeat constructor.
Qed.

Lemma erase_Forall (P : bytes * A -> Prop) key m : Forall P m -> Forall P (Map.erase key m).
Proof.
  induction 1 as [|[k b] m Hb Hm IH]; cbn; [by constructor|]. destruct (bytes_eqb k key); by try constructor.
Qed.

Lemma assign_in_order key a m : in_order m -> in_order (Map.assign key a m).
Proof.
  induction m as [|[k b] m IH]; cbn; [repeat constructor|]. rewrite in_order_cons. intros [Hm Hk].
  destruct (compare_bytes key k) eqn:E; rewrite in_order_cons.
  - apply compare_bytes_eq in E as ->. done.
  - rewrite in_order_cons. split; [done|]. constructor; [done|].
    eapply Forall_impl; [exact Hk|]. intros kv. by apply bytes_lt_trans.
  - split; [by apply IH|]. apply assign_Forall; [|done]. cbn. unfold bytes_lt.
    by rewrite compare_bytes_antisym, E.
Qed.

Lemma erase_in_order key m : in_order m -> in_order (Map.erase key m).
Proof.
  induction m as [|[k b] m IH]; cbn; [done|]. rewrite in_order_cons. intros [Hm Hk].
  destruct (bytes_eqb k key); [done|]. rewrite in_order_cons. split; [by apply IH|]. by apply erase_Forall.
Qed.

Lemma assign_lookup key a m : in_order m ->
  list_to_map (Map.assign key a m) = <[key := a]> (list_to_map m : gmap bytes A).
Proof.
  induction m as [|[k b] m IH]; cbn; [done|]. rewrite in_order_cons. intros [Hm Hk].
  destruct (compare_bytes key k) eqn:E; cbn.
  - apply compare_bytes_eq in E as ->. by rewrite insert_insert_eq.
  - done.
  - rewrite IH by done. apply insert_insert_ne. intros ->. by rewrite compare_bytes_refl in E.
Qed.

Lemma erase_lookup key m : in_order m -> list_to_map (Map.erase key m) = delete key (list_to_map m : gmap bytes A).
Proof.
  induction m as [|[k b] m IH]; cbn; [by rewrite delete_empty|]. rewrite in_order_cons. intros [Hm Hk].
  destruct (bytes_eqb k key) eqn:E; cbn.
  - apply bytes_eqb_spec in E as ->. rewrite delete_insert_eq, delete_id; [done|].
    apply not_elem_of_list_to_map. intros Hin. apply list_elem_of_fmap in Hin as (kv & -> & Hin).
    rewrite Forall_forall in Hk. by apply (bytes_lt_irrefl kv.1), Hk.
  - rewrite delete_insert_ne, IH; [done..|]. intros ->. by rewrite (proj2 (bytes_eqb_spec _ _) eq_refl) in E.
Qed.

(** The two iterators of a range, when they are not crossed, cut out the keys that the
    range contains. *)
Definition found (range : KeyRange) m : nat * nat :=
  (Map.lower_bound (inclusive_min range) m,
   if bytes_eqb (exclusive_max range) [] then length m else Map.lower_bound (exclusive_max range) m).

Definition contained (range : KeyRange) (kv : bytes * A) : bool := Contains range kv.1.

Lemma Contains_iff range k : Contains range k = true <->
  bytes_ltb k (inclusive_min range) = false /\ (exclusive_max range = [] \/ bytes_ltb k (exclusive_max range) = true).
Proof.
  rewrite KeyRange_Contains_spec, <- bytes_not_lt, bytes_ltb_spec, <- bytes_ltb_spec.
  unfold below. destruct (bytes_ltb _ _); intuition congruence.
Qed.

Lemma lower_bound_all key m : Forall (fun kv => bytes_ltb kv.1 key = false) m -> Map.lower_bound key m = O.
Proof. destruct m as [|[k a] m]; [done|]. intros [H _]%Forall_cons. cbn in *. by rewrite H. Qed.

Lemma ltb_up k k' key : bytes_lt k k' -> bytes_ltb k key = false -> bytes_ltb k' key = false.
Proof.
  rewrite <- !not_true_iff_false, !bytes_ltb_spec. intros Hk H H'. apply H. by eapply bytes_lt_trans.
Qed.

Lemma filter_accept (P : bytes * A -> Prop) `{!forall x, Decision (P x)} m : Forall P m -> filter P m = m.
Proof. induction 1 as [|x m Hx _ IH]; [done|]. by rewrite filter_cons_True, IH. Qed.

Lemma filter_reject (P : bytes * A -> Prop) `{!forall x, Decision (P x)} m : Forall (fun x => ~ P x) m -> filter P m = [].
Proof. induction 1 as [|x m Hx _ IH]; [done|]. by rewrite filter_cons_False. Qed.

Lemma found_spec range m : in_order m -> ((found range m).1 <= (found range m).2)%nat ->
  drop (found range m).1 (take (found range m).2 m) = filter (fun kv => contained range kv = true) m /\
  take (found range m).1 m ++ drop (found range m).2 m = filter (fun kv => contained range kv = false) m.
Proof.
  induction m as [|[k a] m IH]; [cbn; by destruct (bytes_eqb (exclusive_max range) [])|]. rewrite in_order_cons. intros [Hm Hk].
  specialize (IH Hm). unfold found in *. cbn [fst snd Map.lower_bound length] in *.
  destruct (bytes_ltb k (inclusive_min range)) eqn:Elo.
  - assert (Ec : contained range (k, a) = false).
    { apply not_true_iff_false. unfold contained. rewrite Contains_iff. cbn. intros [[=] _]. congruence. }
    rewrite filter_cons_False, filter_cons_True by congruence.
    destruct (bytes_eqb (exclusive_max range) []); [|destruct (bytes_ltb k (exclusive_max range)); [|intros; lia]];
      intros Hle; destruct (IH ltac:(lia)) as [<- <-]; done.
  - assert (E0 : Map.lower_bound (inclusive_min range) m = O).
    { apply lower_bound_all. eapply Forall_impl; [exact Hk|]. intros kv Hkv. exact (ltb_up _ _ _ Hkv Elo). }
    rewrite E0 in *. intros _. cbn [take app drop] in *.
    destruct (bytes_eqb (exclusive_max range) []) eqn:Ehi; [|destruct (bytes_ltb k (exclusive_max range)) eqn:E].
    1,2: assert (Ec : contained range (k, a) = true)
      by (apply Contains_iff; cbn; split; [done|]; rewrite <- bytes_eqb_spec; auto);
      rewrite filter_cons_True, filter_cons_False by congruence;
      destruct (IH ltac:(lia)) as [<- <-]; done.
    assert (Hall : Forall (fun kv => contained range kv = false) ((k, a) :: m)).
    { constructor; [|eapply Forall_impl; [exact Hk|]; intros kv Hkv]; apply not_true_iff_false; unfold contained; rewrite Contains_iff.
      - cbn. rewrite E. intros [_ [H|[=]]]. rewrite H in Ehi. discriminate.
      - rewrite (ltb_up _ _ _ Hkv E). intros [_ [H|[=]]]. rewrite H in Ehi. discriminate. }
    rewrite (filter_accept _ _ Hall). split; [|done]. symmetry. apply filter_reject.
    eapply Forall_impl; [exact Hall|]. cbn. congruence.
Qed.

(** The iterators are crossed exactly when a key is past the upper and before the lower bound. *)
Definition crosses (range : KeyRange) (key : bytes) : Prop :=
  exclusive_max range <> [] /\ bytes_le (exclusive_max range) key /\ bytes_lt key (inclusive_min range).

Lemma found_crossed range m : in_order m ->
  ((found range m).2 < (found range m).1)%nat <-> Exists (fun kv => crosses range kv.1) m.
Proof.
  unfold found, crosses. destruct (bytes_eqb (exclusive_max range) []) eqn:Ehi; cbn [fst snd].
  - apply bytes_eqb_spec in Ehi as ->. intros _. rewrite Exists_exists. split; [|by intros (? & _ & ? & _)].
    intros H. exfalso. revert H. induction m as [|[k a] m IH]; cbn; [lia|]. destruct (bytes_ltb k _); lia.
  - assert (Hhi : exclusive_max range <> []) by (intros H; by rewrite H in Ehi). clear Ehi.
    induction m as [|[k a] m IH]; [cbn; rewrite Exists_nil; lia|]. rewrite in_order_cons. intros [Hm Hk].
    rewrite Exists_cons, <- (IH Hm). cbn [Map.lower_bound fst]. rewrite <- (bytes_not_lt k), <- !bytes_ltb_spec.
    destruct (bytes_ltb k (inclusive_min range)) eqn:Elo.
    + destruct (bytes_ltb k (exclusive_max range)); [|intuition lia]. intuition (lia || congruence).
    + assert (E0 : Map.lower_bound (inclusive_min range) m = O).
      { apply lower_bound_all. eapply Forall_impl; [exact Hk|]. intros kv Hkv. exact (ltb_up _ _ _ Hkv Elo). }
      rewrite E0. destruct (bytes_ltb k (exclusive_max range)); intuition (lia || congruence).
Qed.

Lemma crosses_empty range key : crosses range key -> empty range = true.
Proof.
  intros (H1 & H2 & H3). unfold empty. rewrite andb_true_iff, negb_true_iff, <- not_true_iff_false, bytes_eqb_spec, bytes_leb_spec.
  split; [done|]. apply bytes_le_lteq. left. by eapply bytes_le_lt_trans.
Qed.

Lemma in_order_filter (P : bytes * A -> Prop) `{!forall x, Decision (P x)} m : in_order m -> in_order (filter P m).
Proof.
  induction m as [|[k a] m IH]; [done|]. rewrite in_order_cons. intros [Hm Hk].
  destruct (decide (P (k, a))); [rewrite filter_cons_True by done|rewrite filter_cons_False by done; auto].
  rewrite in_order_cons. split; [auto|]. rewrite Forall_forall in *. intros kv [_ Hkv]%list_elem_of_filter. auto.
Qed.

Lemma filter_find (P : bytes -> bool) b key m :
  Map.find key (filter (fun kv => P kv.1 = b) m) = if bool_decide (P key = b) then Map.find key m else None.
Proof.
  induction m as [|[k a] m IH]; [by destruct (bool_decide _)|].
  destruct (decide (P k = b)) as [Hk|Hk]; [rewrite filter_cons_True by done|rewrite filter_cons_False by done];
    cbn [Map.find]; rewrite IH; destruct (bytes_eqb k key) eqn:E; try done.
  - apply bytes_eqb_spec in E as ->. by rewrite bool_decide_true.
  - apply bytes_eqb_spec in E as ->. by rewrite bool_decide_false.
Qed.
End ordered_maps.

(** * Steps of the store *)

Lemma Equivalent_FromUint64 n m : 0 <= n < 2 ^ 64 -> 0 <= m < 2 ^ 64 ->
  Equivalent (FromUint64 n) (FromUint64 m) = true <-> n = m.
Proof.
  intros Hn Hm. unfold FromUint64, Equivalent. rewrite Z.eqb_refl, andb_true_l, bytes_eqb_spec.
  split; [by apply Store64_inj|by intros ->].
Qed.

(** A store with some of the versions, and numbers not handed out twice. *)
Lemma WellFormed_shrink data values' : WellFormed data -> in_order values' ->
  (list_to_map values' : gmap bytes _) ⊆ contents data ->
  WellFormed (MkStored values' (next_generation_number data)).
Proof.
  intros [_ H1 H2 H3] Ho Hs. split; [done| | |done]; unfold contents; cbn.
  - intros k v Hk. by eapply H1, lookup_weaken.
  - intros k k' v v' Hk Hk'. by eapply H2; eapply lookup_weaken.
Qed.

Lemma put_spec data key v : WellFormed data -> 0 <= next_generation_number data < 2 ^ 64 - 1 ->
  WellFormed (put data key v).1 /\
  contents (put data key v).1 = <[key := MkVersioned v (next_generation_number data)]> (contents data) /\
  next_generation_number (put data key v).1 = next_generation_number data + 1 /\
  (put data key v).2 = FromUint64 (next_generation_number data).
Proof.
  intros [H0 H1 H2 H3] Hn. unfold put. cbn [fst snd next_generation_number].
  rewrite Z.mod_small by lia.
  assert (Ec : contents (MkStored (Map.assign key (MkVersioned v (next_generation_number data)) (values data))
    (next_generation_number data + 1)) = <[key := MkVersioned v (next_generation_number data)]> (contents data))
    by (apply assign_lookup; exact H0).
  split; [|done]. split; [by apply assign_in_order|rewrite Ec..|cbn; lia]; cbn [next_generation_number].
  - intros k w. rewrite lookup_insert_Some. intros [[<- <-]|[_ Hk]]; cbn; [lia|]. specialize (H1 k w Hk). lia.
  - intros k k' w w'. rewrite !lookup_insert_Some.
    intros [[<- <-]|[Hne Hk]] [[<- <-]|[Hne' Hk']]; cbn; [done| | |by eapply H2].
    + specialize (H1 k' w' Hk'). lia.
    + specialize (H1 k w Hk). lia.
Qed.

Lemma erase_spec data key : WellFormed data ->
  WellFormed (erase data key) /\ contents (erase data key) = delete key (contents data).
Proof.
  intros H. assert (Ec : contents (erase data key) = delete key (contents data)) by (apply erase_lookup, H).
  split; [|done]. apply WellFormed_shrink; [done|apply erase_in_order, H|]. unfold contents in Ec. cbn in Ec.
  rewrite Ec. apply delete_subseteq.
Qed.

Lemma erase_found_spec data range : WellFormed data ->
  match erase_found data range with
  | Some data' =>
      WellFormed data' /\ contents data' = filter (fun kv => Contains range kv.1 = false) (contents data) /\
      next_generation_number data' = next_generation_number data
  | None => exists k v, contents data !! k = Some v /\ crosses range k
  end.
Proof.
  intros H. pose proof (keys_in_order _ H) as Ho. unfold erase_found. change (Find data range) with (found range (values data)).
  unfold Map.erase_range. destruct (Nat.leb_spec (found range (values data)).1 (found range (values data)).2) as [Hle|Hlt];
    cbn [mbind option_bind].
  - destruct (found_spec range _ Ho Hle) as [_ ->].
    assert (Ec : (list_to_map (filter (fun kv => contained range kv = false) (values data)) : gmap bytes _) =
      filter (fun kv => Contains range kv.1 = false) (contents data)).
    { apply map_eq. intros k. rewrite <- find_lookup.
      pose proof (filter_find (Contains range) false k (values data)) as E. unfold contained. rewrite E, find_lookup.
      rewrite map_lookup_filter. fold (contents data). destruct (contents data !! k); cbn;
        destruct (Contains range k); done. }
    split; [|done]. apply WellFormed_shrink; [done|by apply in_order_filter|]. rewrite Ec. apply map_filter_subseteq.
  - apply found_crossed, Exists_exists in Hlt as ([k v] & Hin & Hc); [|done]. exists k, v. split; [|done].
    apply elem_of_list_to_map_1; [by apply in_order_NoDup|done].
Qed.

Lemma MatchesNoValue_spec if_equal : MatchesNoValue if_equal = true <-> holds None if_equal.
Proof. unfold MatchesNoValue, IsUnknown, IsNoValue, holds. by rewrite orb_true_iff, !bytes_eqb_spec. Qed.

Lemma Matches_spec if_equal it :
  WriteGenerationConditions_Matches if_equal (value_generation it) = true <-> holds (Some it) if_equal.
Proof. unfold WriteGenerationConditions_Matches, IsUnknown, holds. by rewrite orb_true_iff, bytes_eqb_spec. Qed.

Lemma contents_find data key : Map.find key (values data) = contents data !! key.
Proof. apply find_lookup. Qed.

(** The conditions of a read, as [operations.h] documents them: [Unknown] and [NoValue] disable
    [if_not_equal]; [Unknown] disables [if_equal], for which [NoValue] means that the key is missing. *)
Definition read_holds (current : option ValueWithGenerationNumber) (c : ReadGenerationConditions) : Prop :=
  match current with
  | None => if_equal c = Unknown \/ if_equal c = NoValue
  | Some it =>
      (if_not_equal c = Unknown \/ if_not_equal c = NoValue \/ Equivalent (value_generation it) (if_not_equal c) = false) /\
      (if_equal c = Unknown \/ Equivalent (value_generation it) (if_equal c) = true)
  end.

(** The special values are not generations of a value. *)
Lemma value_generation_special it :
  Equivalent (value_generation it) Unknown = false /\ Equivalent (value_generation it) NoValue = false.
Proof. split; reflexivity. Qed.

Lemma Read_Matches_spec it c :
  ReadGenerationConditions_Matches c (value_generation it) = true <-> read_holds (Some it) c.
Proof.
  unfold ReadGenerationConditions_Matches, IsUnknown, read_holds.
  rewrite andb_true_iff, negb_true_iff, orb_true_iff, bytes_eqb_spec.
  split; intros [H1 H2]; (split; [|done]); [by right; right|].
  destruct H1 as [->|[->|H1]]; [apply value_generation_special..|done].
Qed.

(** What a write means for the map and the counter, and what it returns. *)
Inductive written (data data' : StoredKeyValuePairs) (key : bytes) : option bytes -> bytes -> bytes -> Prop :=
| written_value v if_equal :
    holds (contents data !! key) if_equal ->
    contents data' = <[key := MkVersioned v (next_generation_number data)]> (contents data) ->
    next_generation_number data' = next_generation_number data + 1 ->
    written data data' key (Some v) if_equal (FromUint64 (next_generation_number data))
| written_delete if_equal :
    holds (contents data !! key) if_equal ->
    contents data' = delete key (contents data) ->
    next_generation_number data' = next_generation_number data ->
    written data data' key None if_equal NoValue
| written_mismatch v if_equal :
    ~ holds (contents data !! key) if_equal -> data' = data ->
    written data data' key v if_equal Unknown.

Lemma Write_spec data key v if_equal now data' st : WellFormed data -> 0 <= next_generation_number data < 2 ^ 64 - 1 ->
  Write data key v if_equal now = (data', st) ->
  WellFormed data' /\ written data data' key v if_equal (generation st) /\ time st = now.
Proof.
  intros H Hn. unfold Write. rewrite contents_find. pose proof (put_spec data key) as Hput.
  assert (Habort : ~ holds (contents data !! key) if_equal -> (data, MkStamp Unknown now) = (data', st) ->
    WellFormed data' /\ written data data' key v if_equal (generation st) /\ time st = now).
  { intros Hno [= <- <-]. split; [done|]. split; [by apply written_mismatch|done]. }
  assert (Hvalue : forall w, v = Some w -> holds (contents data !! key) if_equal ->
    (let '(data, generation) := put data key w in (data, MkStamp generation now)) = (data', st) ->
    WellFormed data' /\ written data data' key v if_equal (generation st) /\ time st = now).
  { intros w -> Hh. destruct (Hput w H Hn) as (H1 & H2 & H3 & H4). destruct (put data key w) as [d g]. cbn in *.
    intros [= <- <-]. rewrite H4. split; [done|]. split; [by apply written_value|done]. }
  destruct (contents data !! key) as [it|] eqn:Ek.
  - destruct (WriteGenerationConditions_Matches _ _) eqn:E; cbn [negb].
    2: { apply Habort. rewrite <- Matches_spec. congruence. }
    apply Matches_spec in E. destruct v as [w|]; [by apply Hvalue|]. intros [= <- <-].
    destruct (erase_spec data key H). split; [done|]. split; [|done]. apply written_delete; [by rewrite Ek|done..].
  - destruct (MatchesNoValue _) eqn:E; cbn [negb].
    2: { apply Habort. rewrite <- MatchesNoValue_spec. congruence. }
    apply MatchesNoValue_spec in E. destruct v as [w|]; [by apply Hvalue|]. intros [= <- <-].
    split; [done|]. split; [|done]. apply written_delete; [by rewrite Ek| |done]. by rewrite delete_id.
Qed.

Lemma until_cancelled_take {A} (l : list A) : forall cancelled, exists n, until_cancelled cancelled l = take n l.
Proof.
  induction l as [|a l IH]; intros c; cbn; [by exists O|]. destruct (c O); [by exists O|].
  destruct (IH (fun n => c (S n))) as [n ->]. by exists (S n).
Qed.

Lemma until_never {A} (l : list A) : until_cancelled (fun _ => false) l = l.
Proof. induction l as [|a l IH]; cbn; congruence. Qed.

Lemma ListImpl_spec data range strip : WellFormed data ->
  (exists l, in_order l /\ list_to_map l = filter (fun kv => Contains range kv.1 = true) (contents data) /\
     ListImpl data range strip (fun _ => false) (fun _ => false) = Some (list_entry strip <$> l) /\
     forall collecting sending, exists n, ListImpl data range strip collecting sending = Some (list_entry strip <$> take n l)) \/
  (exists k v, contents data !! k = Some v /\ crosses range k).
Proof.
  intros H. pose proof (keys_in_order _ H) as Ho. unfold ListImpl. change (Find data range) with (found range (values data)).
  unfold Map.between. destruct (Nat.leb_spec (found range (values data)).1 (found range (values data)).2) as [Hle|Hlt].
  - left. destruct (found_spec range _ Ho Hle) as [-> _]. cbn [mbind option_bind].
    exists (filter (fun kv => contained range kv = true) (values data)). split; [by apply in_order_filter|].
    split; [|split; [by rewrite !until_never|]].
    + apply map_eq. intros k. rewrite <- find_lookup.
      pose proof (filter_find (Contains range) true k (values data)) as E. unfold contained. rewrite E, contents_find.
      rewrite map_lookup_filter. destruct (contents data !! k); cbn; destruct (Contains range k); done.
    + intros c1 c2. destruct (until_cancelled_take (filter (fun kv => contained range kv = true) (values data)) c1) as [n ->].
      destruct (until_cancelled_take (list_entry strip <$> take n (filter (fun kv => contained range kv = true) (values data))) c2)
        as [n' ->]. exists (n' `min` n)%nat. by rewrite fmap_take, fmap_take, take_take, <- fmap_take.
  - right. apply found_crossed, Exists_exists in Hlt as ([k v] & Hin & Hc); [|done]. exists k, v. split; [|done].
    apply elem_of_list_to_map_1; [by apply in_order_NoDup|done].
Qed.

(** What a read returns for what the key has: a read whose conditions do not hold is aborted, with the
    generation that the key has. *)
Definition read_result (current : option ValueWithGenerationNumber) (c : ReadGenerationConditions)
    (byte_range : OptionalByteRangeRequest.t) (now : Z) (r : ReadResult) : Prop :=
  let stamp := MkStamp (match current with None => NoValue | Some it => value_generation it end) now in
  (read_holds current c /\
     match current with
     | None => r = Missing stamp
     | Some it => exists s, requested (value it) byte_range s /\ r = Value s stamp
     end) \/
  (~ read_holds current c /\ r = Unspecified stamp).

(** A missing key is reported as missing whatever the conditions. *)
Lemma Read_missing data key c byte_range now : contents data !! key = None ->
  Read data key c byte_range now = Ok (Missing (MkStamp NoValue now)).
Proof. intros H. unfold Read. by rewrite contents_find, H. Qed.

Lemma Read_spec data key c byte_range now r :
  (forall it, contents data !! key = Some it -> Z.of_nat (length (value it)) <= i64_max) ->
  in_i64 (OptionalByteRangeRequest.inclusive_min byte_range) ->
  OptionalByteRangeRequest.SatisfiesInvariants byte_range = true ->
  (contents data !! key = None -> if_equal c = Unknown \/ if_equal c = NoValue) ->
  Read data key c byte_range now = Ok r <-> read_result (contents data !! key) c byte_range now r.
Proof.
  intros Hl Hr Hi Hmissing. destruct (contents data !! key) as [it|] eqn:Ek.
  2: { rewrite Read_missing by done. unfold read_result, read_holds. specialize (Hmissing eq_refl).
    split; [intros [= <-]; by left|intros [[_ ->]|[? _]]; done]. }
  unfold Read, read_result. rewrite contents_find, Ek. cbv zeta.
  specialize (Hl it eq_refl). pose proof (Read_Matches_spec it c) as HM.
  destruct (ReadGenerationConditions_Matches _ _); cbn [negb].
  2: { assert (~ read_holds (Some it) c) by (intros Hh%HM; discriminate).
    split; [intros [= <-]; by right|intros [[? _]|[_ ->]]; done]. }
  apply proj1 in HM. specialize (HM eq_refl). split.
  - intros (range & Hv & [= <-])%bind_Ok. left. split; [done|]. exists (GetSubCord (value it) range). split; [|done].
    apply serve_requested; [done..|]. unfold serve. by rewrite Hv.
  - intros [(_ & s & Hs & ->)|[? _]]; [|done]. apply requested_served in Hs; [|done]. unfold serve in Hs.
    apply bind_Ok in Hs as (range & -> & [= <-]). done.
Qed.

(** C3: every request to the store is the request to a map from keys to versions.  A write whose
    condition holds gives the key a version with a new generation number, or removes it, and any
    other write changes nothing and says so.  A read whose conditions hold, as they are documented,
    returns the requested bytes or that the key is missing, and any other read returns that it is
    aborted; this leaves out the one case where the code differs, the read of a missing key on the
    condition of a generation other than [NoValue], which is not aborted but reports the key as
    missing ([missing_key_ignores_conditions]).  Deletion of a range removes exactly the
    keys of the range; a list has exactly the keys of the range, in order and without the prefix,
    up to where it is cancelled.  All of them keep the keys in order and the generation
    numbers distinct. *)
Theorem MemoryDriver_refines data key range :
  WellFormed data -> 0 <= next_generation_number data < 2 ^ 64 - 1 ->
  (forall v if_equal now data' st, Write data key v if_equal now = (data', st) ->
     WellFormed data' /\ written data data' key v if_equal (generation st) /\ time st = now) /\
  (forall c byte_range now r,
     (forall it, contents data !! key = Some it -> Z.of_nat (length (value it)) <= i64_max) ->
     in_i64 (OptionalByteRangeRequest.inclusive_min byte_range) ->
     OptionalByteRangeRequest.SatisfiesInvariants byte_range = true ->
     (contents data !! key = None -> if_equal c = Unknown \/ if_equal c = NoValue) ->
     Read data key c byte_range now = Ok r <-> read_result (contents data !! key) c byte_range now r) /\
  (exists data', DeleteRange data range = Some data' /\ WellFormed data' /\
     contents data' = filter (fun kv => Contains range kv.1 = false) (contents data) /\
     next_generation_number data' = next_generation_number data) /\
  (empty range = false -> forall strip, exists l, in_order l /\
     list_to_map l = filter (fun kv => Contains range kv.1 = true) (contents data) /\
     ListImpl data range strip (fun _ => false) (fun _ => false) = Some (list_entry strip <$> l) /\
     forall collecting sending, exists n, ListImpl data range strip collecting sending = Some (list_entry strip <$> take n l)).
Proof.
  intros H Hn. split; [intros *; by apply Write_spec|]. split; [intros *; by apply Read_spec|]. split.
  - unfold DeleteRange. destruct (empty range) eqn:E; cbn [negb].
    + exists data. split; [done|]. split; [done|]. split; [|done]. symmetry. apply map_filter_id.
      intros k v _. cbn. by apply empty_spec.
    + pose proof (erase_found_spec data range H) as Hs. destruct (erase_found data range) as [data'|]; [by exists data'|].
      destruct Hs as (k & _ & _ & Hk%crosses_empty). congruence.
  - intros E strip. destruct (ListImpl_spec data range strip H) as [Hl|(k & _ & _ & Hk%crosses_empty)]; [done|congruence].
Qed.

Definition example_store : StoredKeyValuePairs :=
  MkStored [([97], MkVersioned [1; 2; 3] 0); ([98; 47], MkVersioned [4] 2); ([99], MkVersioned [] 1)] 3.

Lemma example_store_WellFormed : WellFormed example_store.
Proof.
  assert (Hc : forall k v, contents example_store !! k = Some v ->
    (k, v) ∈ [([97], MkVersioned [1; 2; 3] 0); ([98; 47], MkVersioned [4] 2); ([99], MkVersioned [] 1)])
    by (intros k v; apply elem_of_list_to_map_2).
  split.
  - repeat (constructor; [|repeat constructor]). repeat constructor.
  - intros k v Hk. apply Hc in Hk. rewrite !elem_of_cons, elem_of_nil in Hk. destruct_or! Hk; simplify_eq; cbn; lia.
  - intros k k' v v' Hk Hk'. apply Hc in Hk, Hk'. rewrite !elem_of_cons, !elem_of_nil in Hk, Hk'.
    destruct_or! Hk; destruct_or! Hk'; simplify_eq; done.
  - cbn. lia.
Qed.

Lemma MemoryDriver_refines_witness :
  exists data', DeleteRange example_store (Prefix [98]) = Some data' /\
    contents data' = filter (fun kv => Contains (Prefix [98]) kv.1 = false) (contents example_store) /\
    values data' = [([97], MkVersioned [1; 2; 3] 0); ([99], MkVersioned [] 1)].
Proof.
  destruct (MemoryDriver_refines example_store [97] (Prefix [98]) example_store_WellFormed ltac:(cbn; lia))
    as (_ & _ & (data' & E & _ & H & _) & _).
  exists data'. split; [exact E|]. split; [exact H|]. vm_compute in E. injection E as <-. reflexivity.
Defined.

(** [ListImpl] does not check for an empty range, as [DeleteRange] does: with a key between
    the two bounds, the loop starts behind its end. *)
Lemma list_of_crossed_range : empty (MkKeyRange [99] [98]) = true /\
  ListImpl example_store (MkKeyRange [99] [98]) 0 (fun _ => false) (fun _ => false) = None /\
  DeleteRange example_store (MkKeyRange [99] [98]) = Some example_store.
Proof. split; [|split]; reflexivity. Qed.

(** A read of a missing key does not look at its conditions: on the condition of a generation it is not
    aborted, as it is documented to be. *)
Lemma missing_key_ignores_conditions :
  let c := {| if_not_equal := Unknown; if_equal := FromUint64 1 |} in
  ~ read_holds (contents example_store !! [100]) c /\
  Read example_store [100] c OptionalByteRangeRequest.Full 7 = Ok (Missing (MkStamp NoValue 7)).
Proof. split; [|reflexivity]. intros [H|H]; discriminate. Qed.
