(* ===== verification/TransactionPhases.v ===== *)
(** The staged mutations of a transaction: [MultiPhaseMutation] of [kvstore/transaction.{h,cc}].

    A transaction has phases, separated by barriers.  Every phase has an interval tree of
    entries: read-modify-write entries for keys and entries that delete ranges.  Before the commit
    starts, the tree of the last phase holds the entries of all phases that are not superseded, so
    that it gives a complete view; an entry of an earlier phase moves to the tree of its phase when
    it is superseded, and all of them do when the commit starts.

    A tree is the sequence of its nodes in order: what the operations of the red-black
    trees do to that sequence is shown in [RedBlackInsert], [RedBlackRemove] and [RedBlackJoin]. *)

From stdpp Require Import sorting.
From S2P Require Import Prelude Bytes KeyRange.

(** * Entries *)

(** The flags of a [ReadModifyWriteEntry]. *)
Definition kWritebackProvided : Z := 1.
Definition kTransitivelyUnconditional : Z := 2.
Definition kPrevDeleted : Z := 8.
Definition kError : Z := 16.
Definition kDeleted : Z := 32.
Definition kTransitivelyDirty : Z := 64.
Definition kRevoked : Z := 128.
Definition kNonRetryable : Z := 256.
Definition kSupportsByteRangeReads : Z := 512.

(** A [ReadModifyWriteEntry] without its key: its source, by number, its phase and its flags. *)
Record Step := MkStep { source : nat; step_phase : nat; flags : Z }.

(** A [ReadModifyWriteEntry] of a tree, with the entries that it supersedes, the latest first,
    along the [prev_] pointers; all have the same key. *)
Record ReadModifyWriteEntry := MkRmw { rmw_key : bytes; latest : Step; prev : list Step }.

Record DeleteRangeEntry := MkDr {
  placeholder : bool;  (** [kDeleteRangePlaceholder] rather than [kDeleteRange] *)
  dr_phase : nat;
  dr_key : bytes;
  dr_exclusive_max : bytes;
  superseded : list ReadModifyWriteEntry;
}.

Inductive MutationEntry :=
| Rmw (e : ReadModifyWriteEntry)
| Dr (e : DeleteRangeEntry).

Record SinglePhaseMutation := MkPhase { phase_number : nat; entries : list MutationEntry }.

(** The phases in order.  Without a last phase, the phase number is [kInvalidPhase]. *)
Record MultiPhaseMutation := MkMultiPhase {
  prior_phases : list SinglePhaseMutation;
  last_phase : option SinglePhaseMutation;
}.

Definition new_mutation : MultiPhaseMutation := MkMultiPhase [] None.

Definition key_of (e : MutationEntry) : bytes := match e with Rmw e => rmw_key e | Dr e => dr_key e end.
Definition phase_of (e : MutationEntry) : nat := match e with Rmw e => step_phase (latest e) | Dr e => dr_phase e end.

Definition with_flags (s : Step) (f : Z) : Step := MkStep (source s) (step_phase s) f.
Definition fetch_or (s : Step) (f : Z) : Step := with_flags s (Z.lor (flags s) f).
Definition fetch_and (s : Step) (f : Z) : Step := with_flags s (Z.land (flags s) f).
Definition with_latest (e : ReadModifyWriteEntry) (s : Step) : ReadModifyWriteEntry := MkRmw (rmw_key e) s (prev e).

(** [EnsureRevoked]: the flag says that [KvsRevoke] was called on the source. *)
Definition EnsureRevoked (s : Step) : Step := fetch_or s kRevoked.

(** * Searches in a tree *)

(** The nodes before the place, the node that compares equal, and the nodes after the place. *)
Fixpoint find_split {A} (compare : A -> comparison) (l : list A) : list A * option A * list A :=
  match l with
  | [] => ([], None, [])
  | a :: l' =>
      match compare a with
      | Lt => ([], None, l)
      | Eq => ([], Some a, l')
      | Gt => let '(before, found, after) := find_split compare l' in (a :: before, found, after)
      end
  end.

(** [FindBound]: the nodes of which [before] holds, and the others. *)
Fixpoint find_bound {A} (before : A -> bool) (l : list A) : list A * list A :=
  match l with
  | [] => ([], [])
  | a :: l' => if before a then let '(x, y) := find_bound before l' in (a :: x, y) else ([], l)
  end.

Definition find_or_insert {A} (compare : A -> comparison) (a : A) (l : list A) : list A :=
  match find_split compare l with
  | (_, Some _, _) => l
  | (before, None, after) => before ++ a :: after
  end.

Definition CompareToEntry (key : bytes) (other : MutationEntry) : comparison := compare_bytes key (key_of other).
Definition compare_rmw (key : bytes) (other : ReadModifyWriteEntry) : comparison := compare_bytes key (rmw_key other).

(** [FindExistingEntryCoveringKey]. *)
Definition compare_covering (key : bytes) (existing_entry : MutationEntry) : comparison :=
  match compare_bytes key (key_of existing_entry) with
  | Gt =>
      match existing_entry with
      | Rmw _ => Gt
      | Dr e => match CompareKeyAndExclusiveMax key (dr_exclusive_max e) with Lt => Eq | _ => Gt end
      end
  | c => c
  end.

Definition FindExistingEntryCoveringKey (l : list MutationEntry) (key : bytes) :=
  find_split (compare_covering key) l.

(** * Operations *)

Definition insert_into_phase (e : MutationEntry) (s : SinglePhaseMutation) : SinglePhaseMutation :=
  if (phase_number s =? phase_of e)%nat
  then MkPhase (phase_number s) (find_or_insert (CompareToEntry (key_of e)) e (entries s))
  else s.

Definition InsertIntoPriorPhase (e : MutationEntry) (phases : list SinglePhaseMutation) : list SinglePhaseMutation :=
  match e with
  | Dr (MkDr true _ _ _ _) => phases
  | _ => insert_into_phase e <$> phases
  end.

Definition MakeDeleteRangeEntry (is_placeholder : bool) (assigned_phase : nat) (range : KeyRange) : DeleteRangeEntry :=
  MkDr is_placeholder assigned_phase (inclusive_min range) (exclusive_max range) [].

(** The phases before the phase of the transaction, and the phase itself; a new phase takes over
    the tree of the last one. *)
Definition GetCurrentSinglePhaseMutation (m : MultiPhaseMutation) (phase : nat) :
    list SinglePhaseMutation * SinglePhaseMutation :=
  match last_phase m with
  | None => (prior_phases m, MkPhase phase [])
  | Some s =>
      if negb (phase_number s =? phase)%nat
      then (prior_phases m ++ [MkPhase (phase_number s) []], MkPhase phase (entries s))
      else (prior_phases m, s)
  end.

Inductive ReadModifyWriteStatus := kExisting | kAddedFirst | kAddedSubsequent.

(** The pieces of a range to be deleted that are left and right of a key, when they are not empty. *)
Definition left_interval (is_placeholder : bool) (e : DeleteRangeEntry) (key : bytes)
    (sup : list ReadModifyWriteEntry) : list MutationEntry :=
  if negb (bytes_eqb (dr_key e) key) then [Dr (MkDr is_placeholder (dr_phase e) (dr_key e) key sup)] else [].
Definition right_interval (is_placeholder : bool) (e : DeleteRangeEntry) (key : bytes)
    (sup : list ReadModifyWriteEntry) : list MutationEntry :=
  if negb (bytes_eqb (Successor key) (dr_exclusive_max e))
  then [Dr (MkDr is_placeholder (dr_phase e) (Successor key) (dr_exclusive_max e) sup)] else [].

(** [target_flags] is what [KvsSetTarget] of the source sets. *)
Definition ReadModifyWrite (m : MultiPhaseMutation) (phase : nat) (key : bytes) (src : nat) (target_flags : Z) :
    MultiPhaseMutation * ReadModifyWriteStatus :=
  let '(priors, s) := GetCurrentSinglePhaseMutation m phase in
  let entry := fetch_or (MkStep src phase 0) target_flags in
  let '(before, found, after) := FindExistingEntryCoveringKey (entries s) key in
  let result priors new_entries status :=
    (MkMultiPhase priors (Some (MkPhase (phase_number s) (before ++ new_entries ++ after))), status) in
  match found with
  | None =>
      result priors [Rmw (MkRmw key entry [])]
        (match entries s with [] => kAddedFirst | _ => kAddedSubsequent end)
  | Some (Rmw existing_entry) =>
      (* the entry that is inserted into the prior phase is revoked after that *)
      let existing_entry := with_latest existing_entry (EnsureRevoked (latest existing_entry)) in
      let priors :=
        if negb (step_phase (latest existing_entry) =? phase_number s)%nat
        then InsertIntoPriorPhase (Rmw existing_entry) priors else priors in
      let entry := with_flags entry (Z.land (flags (latest existing_entry)) kNonRetryable) in
      result priors [Rmw (MkRmw key entry (latest existing_entry :: prev existing_entry))] kExisting
  | Some (Dr existing_entry) =>
      let entry := fetch_or entry (Z.lor kPrevDeleted kTransitivelyUnconditional) in
      if negb (dr_phase existing_entry =? phase_number s)%nat then
        result (InsertIntoPriorPhase (Dr existing_entry) priors)
          (left_interval true existing_entry key [] ++ [Rmw (MkRmw key entry [])] ++
           right_interval true existing_entry key []) kExisting
      else
        let '(trees0, center, trees1) := find_split (compare_rmw key) (superseded existing_entry) in
        let prev :=
          match center with
          | None => []
          | Some center => fetch_and (latest center) (Z.lnot kDeleted) :: prev center
          end in
        result priors
          (left_interval false existing_entry key trees0 ++ [Rmw (MkRmw key entry prev)] ++
           right_interval (placeholder existing_entry) existing_entry key trees1) kExisting
  end.

(** The loop of [DeleteRange] over the existing entries from the first that is not before the
    range: the entries of prior phases, the placeholders left and right of the new entry, the entry
    to extend and the superseded entries. *)
Record delete_state := MkDeleteState {
  ds_priors : list SinglePhaseMutation;
  ds_left : list MutationEntry;
  ds_right : list MutationEntry;
  ds_new_entry : option DeleteRangeEntry;
  ds_superseded : list ReadModifyWriteEntry;
}.

Definition delete_existing_entry (range : KeyRange) (phase : nat) (st : delete_state) (existing_entry : MutationEntry) :
    delete_state :=
  match existing_entry with
  | Rmw e =>
      let e := with_latest e (EnsureRevoked (latest e)) in
      if negb (step_phase (latest e) =? phase)%nat then
        MkDeleteState (InsertIntoPriorPhase (Rmw e) (ds_priors st)) (ds_left st) (ds_right st) (ds_new_entry st)
          (ds_superseded st)
      else
        let e := with_latest e (fetch_or (latest e) kDeleted) in
        MkDeleteState (ds_priors st) (ds_left st) (ds_right st) (ds_new_entry st)
          (find_or_insert (compare_rmw (rmw_key e)) e (ds_superseded st))
  | Dr e =>
      if negb (dr_phase e =? phase)%nat then
        let right :=
          match CompareExclusiveMax (exclusive_max range) (dr_exclusive_max e) with
          | Lt => [Dr (MakeDeleteRangeEntry true (dr_phase e) (MkKeyRange (exclusive_max range) (dr_exclusive_max e)))]
          | _ => []
          end in
        let left :=
          if bytes_ltb (dr_key e) (inclusive_min range)
          then [Dr (MakeDeleteRangeEntry true (dr_phase e) (MkKeyRange (dr_key e) (inclusive_min range)))] else [] in
        MkDeleteState (InsertIntoPriorPhase (Dr e) (ds_priors st)) (ds_left st ++ left) (right ++ ds_right st)
          (ds_new_entry st) (ds_superseded st)
      else
        MkDeleteState (ds_priors st) (ds_left st) (ds_right st)
          (Some (match ds_new_entry st with
                 | None => e
                 | Some n => MkDr (placeholder n) (dr_phase n) (dr_key n) (dr_exclusive_max e) (superseded n)
                 end))
          (ds_superseded st ++ superseded e)
  end.

(** The loop stops at the first entry behind the range. *)
Definition behind (range : KeyRange) (e : MutationEntry) : bool :=
  match CompareKeyAndExclusiveMax (key_of e) (exclusive_max range) with Lt => false | _ => true end.

Fixpoint delete_existing_entries (range : KeyRange) (phase : nat) (st : delete_state) (l : list MutationEntry) :
    delete_state * list MutationEntry :=
  match l with
  | [] => (st, [])
  | e :: l' =>
      if behind range e then (st, l)
      else delete_existing_entries range phase (delete_existing_entry range phase st e) l'
  end.

Definition before_range (range : KeyRange) (existing_entry : MutationEntry) : bool :=
  match existing_entry with
  | Rmw e => bytes_ltb (rmw_key e) (inclusive_min range)
  | Dr e => match CompareKeyAndExclusiveMax (inclusive_min range) (dr_exclusive_max e) with Lt => false | _ => true end
  end.

Definition extend_entry (range : KeyRange) (phase : nat) (new_entry : option DeleteRangeEntry) : DeleteRangeEntry :=
  match new_entry with
  | None => MakeDeleteRangeEntry false phase range
  | Some e =>
      MkDr (placeholder e) (dr_phase e)
        (if bytes_ltb (inclusive_min range) (dr_key e) then inclusive_min range else dr_key e)
        (match CompareExclusiveMax (exclusive_max range) (dr_exclusive_max e) with
         | Gt => exclusive_max range | _ => dr_exclusive_max e
         end)
        (superseded e)
  end.

Definition DeleteRange (m : MultiPhaseMutation) (phase : nat) (range : KeyRange) : MultiPhaseMutation :=
  if empty range then m
  else
    let '(priors, s) := GetCurrentSinglePhaseMutation m phase in
    let '(before, rest) := find_bound (before_range range) (entries s) in
    let '(st, after) := delete_existing_entries range (phase_number s) (MkDeleteState priors [] [] None []) rest in
    let e := extend_entry range (phase_number s) (ds_new_entry st) in
    let new_entry := MkDr (placeholder e) (dr_phase e) (dr_key e) (dr_exclusive_max e) (ds_superseded st) in
    MkMultiPhase (ds_priors st)
      (Some (MkPhase (phase_number s) (before ++ ds_left st ++ [Dr new_entry] ++ ds_right st ++ after))).

(** The start of [CommitNextPhase] in the first phase: the entries of the last tree go to the
    trees of their phases. *)
Fixpoint move_entries (phase : nat) (phases : list SinglePhaseMutation) (l : list MutationEntry) :
    list SinglePhaseMutation * list MutationEntry :=
  match l with
  | [] => (phases, [])
  | e :: l =>
      if negb (phase_of e =? phase)%nat then move_entries phase (InsertIntoPriorPhase e phases) l
      else let '(phases, kept) := move_entries phase phases l in (phases, e :: kept)
  end.

Definition SeparatePhases (m : MultiPhaseMutation) : list SinglePhaseMutation :=
  match last_phase m with
  | None => []
  | Some s =>
      match prior_phases m with
      | [] => [s]
      | priors =>
          (* multiple phases *)
          let '(phases, kept) := move_entries (phase_number s) priors (entries s) in
          phases ++ [MkPhase (phase_number s) kept]
      end
  end.
