(* ===== verification/TransactionSpec.v ===== *)
(** Staged mutations: what they mean for a key, their invariant, and lemmas on ranges and
    on the keys that the entries of a tree cover. *)

From Stdlib Require Import Orders OrdersTac.
From stdpp Require Import sorting.
From S2P Require Import Prelude Bytes KeyRange TransactionPhases.

(** * The order of keys *)

(** Decision procedure for chains of keys. *)
Module BytesOrder.
Definition t := bytes.
Definition eq : t -> t -> Prop := Logic.eq.
Definition lt := bytes_lt.
Definition le := bytes_le.
#[export] Instance eq_equiv : Equivalence eq := eq_equivalence.
#[export] Instance lt_strorder : StrictOrder lt.
Proof. split; [intros a; apply bytes_lt_irrefl|intros a b c; apply bytes_lt_trans]. Qed.
#[export] Instance lt_compat : Proper (eq ==> eq ==> iff) lt.
Proof. unfold eq. intros a b -> c d ->. reflexivity. Qed.
Lemma le_lteq a b : le a b <-> lt a b \/ eq a b.
Proof. apply bytes_le_lteq. Qed.
Lemma lt_total a b : lt a b \/ eq a b \/ lt b a.
Proof. unfold lt, eq. destruct (bytes_le_total a b) as [H|H]; [apply bytes_le_lteq in H as [H|H]|]; auto. Qed.
End BytesOrder.

Module Order := MakeOrderTac BytesOrder BytesOrder.

Ltac border :=
  change (@eq bytes) with BytesOrder.eq in *; change bytes_lt with BytesOrder.lt in *;
  change bytes_le with BytesOrder.le in *; Order.order.

(** * Specification: operations key by key *)

Inductive Operation :=
| OpReadModifyWrite (key : bytes) (src : nat) (target_flags : Z)
| OpDeleteRange (range : KeyRange).

Definition apply_operation (m : MultiPhaseMutation) (op : nat * Operation) : MultiPhaseMutation :=
  match op.2 with
  | OpReadModifyWrite key src target_flags => (ReadModifyWrite m op.1 key src target_flags).1
  | OpDeleteRange range => DeleteRange m op.1 range
  end.

Definition stage (ops : list (nat * Operation)) : MultiPhaseMutation := foldl apply_operation new_mutation ops.

(** What the operations of one phase do to a key: nothing, or the last of them that touches
    the key deletes it ([true]) or not; and the sources of the read-modify-write operations on the key,
    the latest first. *)
Definition effect : Type := option (bool * list nat).

Definition effect_sources (e : effect) : list nat := match e with Some (_, l) => l | None => [] end.

Definition operation_effect (key : bytes) (e : effect) (op : Operation) : effect :=
  match op with
  | OpReadModifyWrite k src _ => if bytes_eqb k key then Some (false, src :: effect_sources e) else e
  | OpDeleteRange range => if Contains range key then Some (true, effect_sources e) else e
  end.

Definition phase_effect (ops : list (nat * Operation)) (phase : nat) (key : bytes) : effect :=
  foldl (fun e op => if (op.1 =? phase)%nat then operation_effect key e op.2 else e) None ops.

(** The last operation of all phases that touches a key: the source of a read-modify-write, or
    [None] for a deletion. *)
Definition last_operation (ops : list (nat * Operation)) (key : bytes) : option (option nat) :=
  foldl (fun v op =>
    match op.2 with
    | OpReadModifyWrite k src _ => if bytes_eqb k key then Some (Some src) else v
    | OpDeleteRange range => if Contains range key then Some None else v
    end) None ops.

(** * What entries mean *)

Definition range_of (e : MutationEntry) : KeyRange :=
  match e with
  | Rmw e => Singleton (rmw_key e)
  | Dr e => MkKeyRange (dr_key e) (dr_exclusive_max e)
  end.

Definition covers (key : bytes) (e : MutationEntry) : Prop := Contains (range_of e) key = true.
#[export] Instance covers_dec key e : Decision (covers key e) := decide (_ = true).

(** The phase that an entry acts in; a placeholder acts in none. *)
Definition owner (e : MutationEntry) : option nat :=
  match e with
  | Rmw e => Some (step_phase (latest e))
  | Dr e => if placeholder e then None else Some (dr_phase e)
  end.

(** The sources of the steps of one phase. *)
Definition sources_in (phase : nat) (l : list Step) : list nat := source <$> filter (fun s => step_phase s = phase) l.
Definition steps (e : ReadModifyWriteEntry) : list Step := latest e :: prev e.

Definition superseded_steps (key : bytes) (l : list ReadModifyWriteEntry) : list Step :=
  filter (fun e => rmw_key e = key) l ≫= steps.

Definition entry_effect (key : bytes) (e : MutationEntry) : effect :=
  match e with
  | Rmw e => Some (false, sources_in (step_phase (latest e)) (steps e))
  | Dr e => Some (true, sources_in (dr_phase e) (superseded_steps key (superseded e)))
  end.

Definition entry_view (e : MutationEntry) : option nat :=
  match e with Rmw e => Some (source (latest e)) | Dr _ => None end.

Definition at_key (key : bytes) (l : list MutationEntry) : option MutationEntry := head (filter (covers key) l).

Definition tree_effect (key : bytes) (l : list MutationEntry) : effect := at_key key l ≫= entry_effect key.
Definition tree_view (key : bytes) (l : list MutationEntry) : option (option nat) := entry_view <$> at_key key l.

Definition last_entries (m : MultiPhaseMutation) : list MutationEntry :=
  match last_phase m with Some s => entries s | None => [] end.

(** The entries that act in a phase, in whichever tree they are. *)
Definition entries_of (m : MultiPhaseMutation) (phase : nat) : list MutationEntry :=
  filter (fun e => owner e = Some phase) ((prior_phases m ≫= entries) ++ last_entries m).

(** * The invariant

    This is what [CheckInvariants] of transaction.cc checks, with what it needs. *)

(** No key is covered twice. *)
Definition no_overlap (l : list MutationEntry) : Prop := forall key, byte_string key -> (length (filter (covers key) l) <= 1)%nat.

(** The keys ascend, and the ranges end before the next key. *)
Definition past (key bound : bytes) : Prop := bound <> [] /\ bytes_le bound key.
Definition entry_before (a b : MutationEntry) : Prop := past (key_of b) (exclusive_max (range_of a)).
Definition ordered (l : list MutationEntry) : Prop := StronglySorted entry_before l.

(** The entries that a read-modify-write entry supersedes are not of a later phase. *)
Definition steps_ok (e : ReadModifyWriteEntry) : Prop :=
  Forall (fun s => step_phase s <= step_phase (latest e))%nat (prev e).

Record entry_ok (e : MutationEntry) : Prop := {
  range_not_empty : empty (range_of e) = false;
  min_bytes : byte_string (key_of e);
  max_bytes : byte_string (exclusive_max (range_of e));
  superseded_ok : match e with
    | Rmw e => steps_ok e
    | Dr e =>
        StronglySorted bytes_lt (rmw_key <$> superseded e) /\
        Forall (fun r => Contains (MkKeyRange (dr_key e) (dr_exclusive_max e)) (rmw_key r) = true /\
                         step_phase (latest r) = dr_phase e /\ steps_ok r /\ byte_string (rmw_key r)) (superseded e) /\
        (placeholder e = true -> superseded e = [])
    end;
}.

Definition tree_ok (l : list MutationEntry) : Prop := ordered l /\ Forall entry_ok l.

Record Inv (m : MultiPhaseMutation) : Prop := {
  trees_ok : Forall (fun s => tree_ok (entries s)) (prior_phases m);
  last_ok : tree_ok (last_entries m);
  prior_owners : Forall (fun s => Forall (fun e => owner e = Some (phase_number s)) (entries s)) (prior_phases m);
  last_owners : Forall (fun e => phase_of e ∈ phase_number <$> (prior_phases m ++ option_list (last_phase m))) (last_entries m);
  placeholders_prior : match last_phase m with
    | Some s => Forall (fun e => owner e = None -> phase_of e <> phase_number s) (entries s)
    | None => True
    end;
  phases_ascend : StronglySorted lt (phase_number <$> (prior_phases m ++ option_list (last_phase m)));
  acting_once : forall phase, no_overlap (entries_of m phase);
  no_phase_yet : last_phase m = None -> prior_phases m = [];
}.

(** * Ranges and entries *)

Lemma Contains_bounds r k : Contains r k = true <->
  bytes_le (inclusive_min r) k /\ (exclusive_max r = [] \/ bytes_lt k (exclusive_max r)).
Proof. apply KeyRange_Contains_spec. Qed.

Lemma covers_rmw key e : byte_string key -> covers key (Rmw e) <-> key = rmw_key e.
Proof. intros H. unfold covers. rewrite Contains_bounds. by apply Singleton_interval. Qed.

Lemma empty_false_spec r : empty r = false <-> exclusive_max r = [] \/ bytes_lt (inclusive_min r) (exclusive_max r).
Proof.
  unfold empty. rewrite andb_false_iff, negb_false_iff, bytes_eqb_spec, <- not_true_iff_false, bytes_leb_spec, bytes_not_le.
  done.
Qed.

Lemma inclusive_min_range_of e : inclusive_min (range_of e) = key_of e.
Proof. by destruct e. Qed.

Lemma past_not_below key bound : past key bound <-> ~ (bound = [] \/ bytes_lt key bound).
Proof. unfold past. rewrite <- bytes_not_lt. tauto. Qed.

Lemma below_or_past key bound : (bound = [] \/ bytes_lt key bound) \/ past key bound.
Proof.
  destruct (decide (bound = [])); [tauto|]. destruct (bytes_le_total bound key); [right; by split|tauto].
Qed.

Lemma Compare_past key bound :
  match CompareKeyAndExclusiveMax key bound with Lt => false | _ => true end = true <-> past key bound.
Proof.
  pose proof (Compare_below key bound) as H. unfold below in H. rewrite past_not_below, <- H.
  destruct (CompareKeyAndExclusiveMax key bound); split; congruence.
Qed.

Lemma Contains_past r k : Contains r k = true <-> bytes_le (inclusive_min r) k /\ ~ past k (exclusive_max r).
Proof.
  rewrite Contains_bounds. pose proof (below_or_past k (exclusive_max r)) as H. rewrite past_not_below in *. tauto.
Qed.

Lemma compare_covering_spec key e : byte_string key -> entry_ok e ->
  match compare_covering key e with
  | Lt => bytes_lt key (key_of e)
  | Eq => covers key e
  | Gt => past key (exclusive_max (range_of e))
  end.
Proof.
  intros Hk [Hr _ _ _]. unfold compare_covering. destruct (compare_bytes key (key_of e)) eqn:E.
  - apply compare_bytes_eq in E as ->. unfold covers. rewrite Contains_past, inclusive_min_range_of.
    apply empty_false_spec in Hr. rewrite inclusive_min_range_of in Hr. unfold past.
    split; [by apply bytes_le_lteq; right|]. intros [H1 H2]. destruct Hr as [?|Hr]; [done|]. border.
  - exact E.
  - assert (Hlt : bytes_lt (key_of e) key) by (unfold bytes_lt; by rewrite compare_bytes_antisym, E).
    destruct e as [e|e]; cbn [key_of range_of exclusive_max] in *.
    + split; [by destruct (rmw_key e)|]. pose proof (Singleton_interval (rmw_key e) key Hk) as [Hs _].
      apply bytes_not_lt. intros H. unfold below in Hs. assert (key = rmw_key e) by (apply Hs; split; [border|by right]). border.
    + pose proof (Compare_past key (dr_exclusive_max e)) as Hp.
      destruct (CompareKeyAndExclusiveMax key (dr_exclusive_max e)); [by apply Hp| |by apply Hp].
      unfold covers. rewrite Contains_past. cbn. split; [border|]. by rewrite <- Hp.
Qed.

(** * Trees *)

Lemma find_split_spec {A} (compare : A -> comparison) l b f a : find_split compare l = (b, f, a) ->
  l = b ++ option_list f ++ a /\ Forall (fun x => compare x = Gt) b /\
  match f with
  | Some x => compare x = Eq
  | None => match a with [] => True | x :: _ => compare x = Lt end
  end.
Proof.
  revert b. induction l as [|x l IH]; intros b; cbn; [by intros [= <- <- <-]|].
  destruct (compare x) eqn:E; [by intros [= <- <- <-]..|].
  destruct (find_split compare l) as [[b' f'] a'] eqn:Es. intros [= <- <- <-].
  destruct (IH _ eq_refl) as (-> & Hb & Hf). split; [done|]. split; [by constructor|done].
Qed.

Lemma find_bound_spec {A} (p : A -> bool) l b r : find_bound p l = (b, r) ->
  l = b ++ r /\ Forall (fun x => p x = true) b /\ match r with [] => True | x :: _ => p x = false end.
Proof.
  revert b. induction l as [|x l IH]; intros b; cbn; [by intros [= <- <-]|].
  destruct (p x) eqn:E; [|by intros [= <- <-]].
  destruct (find_bound p l) as [b' r'] eqn:Es. intros [= <- <-].
  destruct (IH _ eq_refl) as (-> & Hb & Hr). split; [done|]. split; [by constructor|done].
Qed.

Lemma before_keys a b : entry_ok a -> entry_before a b -> bytes_lt (key_of a) (key_of b).
Proof.
  intros [Hr _ _ _] [H1 H2]. apply empty_false_spec in Hr as [?|Hr]; [done|]. rewrite inclusive_min_range_of in Hr. border.
Qed.

Lemma before_trans a b c : entry_ok b -> entry_before a b -> entry_before b c -> entry_before a c.
Proof.
  intros Hb [H1 H2] H. apply before_keys in H; [|done]. split; [done|]. border.
Qed.

Lemma before_not_covers a b key : entry_before a b -> covers key a -> ~ covers key b.
Proof.
  unfold covers. rewrite !Contains_bounds, !inclusive_min_range_of. intros [H1 H2] [_ [?|H3]]; [done|]. intros [H4 _]. border.
Qed.

Lemma covers_min e : entry_ok e -> covers (key_of e) e.
Proof.
  intros [Hr _ _ _]. unfold covers. rewrite Contains_bounds, inclusive_min_range_of. split; [border|].
  apply empty_false_spec in Hr. by rewrite inclusive_min_range_of in Hr.
Qed.

Lemma ordered_cons e l : ordered (e :: l) <-> ordered l /\ Forall (entry_before e) l.
Proof. split; [apply StronglySorted_inv|]. intros []. by constructor. Qed.

Lemma ordered_app l1 l2 : ordered (l1 ++ l2) <->
  ordered l1 /\ ordered l2 /\ Forall (fun a => Forall (entry_before a) l2) l1.
Proof.
  induction l1 as [|e l1 IH]; cbn.
  - split; [intros H; split; [constructor|by split; [|constructor]]|by intros (_ & H & _)].
  - rewrite !ordered_cons, IH, Forall_app, Forall_cons. tauto.
Qed.

Lemma filter_covers_none key l : Forall (fun e => ~ covers key e) l -> filter (covers key) l = [].
Proof. induction 1 as [|e l He _ IH]; [done|]. by rewrite filter_cons_False. Qed.

Lemma ordered_no_overlap l : ordered l -> no_overlap l.
Proof.
  intros H key _. induction l as [|e l IH]; [cbn; lia|]. apply ordered_cons in H as [H He].
  destruct (decide (covers key e)) as [Hc|Hc]; [|rewrite filter_cons_False by done; auto].
  rewrite filter_cons_True, filter_covers_none by
    (done || (eapply Forall_impl; [exact He|]; intros x Hx; by eapply before_not_covers)).
  done.
Qed.

Lemma ordered_keys l : Forall entry_ok l -> ordered l -> StronglySorted bytes_lt (key_of <$> l).
Proof.
  induction l as [|e l IH]; [constructor|]. rewrite Forall_cons, ordered_cons. intros [He Hl] [H1 H2].
  cbn. constructor; [auto|]. apply Forall_fmap. eapply Forall_impl; [exact H2|]. intros x. by apply before_keys.
Qed.

Lemma ordered_of_keys l : Forall entry_ok l -> StronglySorted bytes_lt (key_of <$> l) -> no_overlap l -> ordered l.
Proof.
  induction l as [|e l IH]; [constructor|]. rewrite Forall_cons, fmap_cons. intros [He Hl] [Hs Hk]%StronglySorted_inv Hn.
  rewrite ordered_cons. split.
  - apply IH; [done..|]. intros key Hkey. specialize (Hn key Hkey). rewrite filter_cons in Hn. case_decide; cbn in Hn; lia.
  - rewrite Forall_fmap in Hk. rewrite Forall_forall in *. intros x Hx. specialize (Hk x Hx). cbn in Hk.
    destruct (below_or_past (key_of x) (exclusive_max (range_of e))) as [Hb|Hp]; [|done]. exfalso.
    assert (Hc : covers (key_of x) e) by (unfold covers; rewrite Contains_bounds, inclusive_min_range_of; split; [border|done]).
    specialize (Hn (key_of x) (min_bytes _ (Hl x Hx))). rewrite filter_cons_True in Hn by done. cbn in Hn.
    assert (Hin : x ∈ filter (covers (key_of x)) l) by (apply list_elem_of_filter; split; [by apply covers_min, Hl|done]).
    destruct (filter (covers (key_of x)) l); [by apply elem_of_nil in Hin|cbn in Hn; lia].
Qed.

Lemma no_overlap_perm l l' : l ≡ₚ l' -> no_overlap l -> no_overlap l'.
Proof. intros Hp H key Hk. rewrite <- Hp. by apply H. Qed.

Lemma filter_filter_length {A} (P Q : A -> Prop) `{!forall x, Decision (P x), !forall x, Decision (Q x)} l :
  (length (filter Q (filter P l)) <= length (filter Q l))%nat.
Proof.
  induction l as [|x l IH]; [done|]. destruct (decide (P x)); [rewrite (filter_cons_True P) by done|rewrite (filter_cons_False P) by done];
    destruct (decide (Q x)); rewrite ?(filter_cons_True Q), ?(filter_cons_False Q) by done; cbn; lia.
Qed.

Lemma no_overlap_filter (P : MutationEntry -> Prop) `{!forall e, Decision (P e)} l : no_overlap l -> no_overlap (filter P l).
Proof. intros Hn key Hk. specialize (Hn key Hk). pose proof (filter_filter_length P (covers key) l). lia. Qed.

(** What covers a key does not depend on the order of the entries. *)
Lemma at_key_perm key l l' : byte_string key -> l ≡ₚ l' -> no_overlap l -> at_key key l = at_key key l'.
Proof.
  intros Hk Hp Hn. unfold at_key. specialize (Hn key Hk).
  assert (Hf : filter (covers key) l ≡ₚ filter (covers key) l') by (by rewrite Hp).
  destruct (filter (covers key) l) as [|x [|y r]]; [|..].
  - apply Permutation_nil_l in Hf. by rewrite Hf.
  - apply Permutation_singleton_l in Hf. by rewrite Hf.
  - cbn in Hn. lia.
Qed.

Lemma at_key_app key l1 l2 : at_key key (l1 ++ l2) = match at_key key l1 with Some e => Some e | None => at_key key l2 end.
Proof. unfold at_key. rewrite filter_app. by destruct (filter (covers key) l1). Qed.

Lemma at_key_none key l : Forall (fun e => ~ covers key e) l -> at_key key l = None.
Proof. intros H. unfold at_key. by rewrite filter_covers_none. Qed.

Lemma at_key_cons_True key e l : covers key e -> at_key key (e :: l) = Some e.
Proof. intros H. unfold at_key. by rewrite filter_cons_True. Qed.

Lemma at_key_cons_False key e l : ~ covers key e -> at_key key (e :: l) = at_key key l.
Proof. intros H. unfold at_key. by rewrite filter_cons_False. Qed.

Lemma at_key_Some key l e : at_key key l = Some e -> e ∈ l /\ covers key e.
Proof.
  unfold at_key. destruct (filter (covers key) l) as [|x r] eqn:E; [done|]. intros [= ->].
  assert (H : e ∈ filter (covers key) l) by (rewrite E; by left). by apply list_elem_of_filter in H as [].
Qed.

Lemma at_key_None key l e : at_key key l = None -> e ∈ l -> ~ covers key e.
Proof.
  unfold at_key. destruct (filter (covers key) l) as [|x r] eqn:E; [|done]. intros _ Hin Hc.
  assert (H : e ∈ filter (covers key) l) by (by apply list_elem_of_filter). rewrite E in H. by apply elem_of_nil in H.
Qed.

Lemma at_key_unique key l e : byte_string key -> no_overlap l -> e ∈ l -> covers key e -> at_key key l = Some e.
Proof.
  intros Hk Hn Hin Hc. specialize (Hn key Hk). unfold at_key.
  assert (H : e ∈ filter (covers key) l) by (by apply list_elem_of_filter).
  destruct (filter (covers key) l) as [|x [|y r]]; [by apply elem_of_nil in H| |cbn in Hn; lia].
  by apply list_elem_of_singleton in H as ->.
Qed.

(** * The entry that covers a key, and its neighbours *)

Lemma find_existing_spec key l b f a : byte_string key -> tree_ok l -> FindExistingEntryCoveringKey l key = (b, f, a) ->
  l = b ++ option_list f ++ a /\
  Forall (fun e => past key (exclusive_max (range_of e))) b /\
  Forall (fun e => bytes_lt key (key_of e)) a /\
  (forall e, f = Some e -> covers key e).
Proof.
  intros Hk [Ho Hok] E. apply find_split_spec in E as (-> & Hb & Hf).
  rewrite !Forall_app in Hok. destruct Hok as (Hokb & Hokf & Hoka). split; [done|]. split; [|split].
  - rewrite Forall_forall in *. intros e He. pose proof (compare_covering_spec key e Hk (Hokb e He)) as H.
    by rewrite (Hb e He) in H.
  - rewrite !ordered_app in Ho. destruct Ho as (_ & (_ & Ho & Hfa) & _). destruct f as [e|]; cbn in *.
    + apply Forall_cons in Hfa as [Hfa _]. apply Forall_cons in Hokf as [Hoke _].
      pose proof (compare_covering_spec key e Hk Hoke) as H. rewrite Hf in H.
      eapply Forall_impl; [exact Hfa|]. intros x [H1 H2]. unfold covers in H. rewrite Contains_bounds in H.
      destruct H as [_ [?|H]]; [done|]. border.
    + destruct a as [|x a]; [constructor|]. apply Forall_cons in Hoka as [Hokx Hoka].
      pose proof (compare_covering_spec key x Hk Hokx) as H. rewrite Hf in H. constructor; [done|].
      apply ordered_cons in Ho as [_ Hxa]. eapply Forall_impl; [exact Hxa|]. intros y Hy.
      apply before_keys in Hy; [|done]. border.
  - intros e ->. cbn in Hokf. apply Forall_cons in Hokf as [Hoke _].
    pose proof (compare_covering_spec key e Hk Hoke) as H. by rewrite Hf in H.
Qed.

Lemma past_not_covers key e : past key (exclusive_max (range_of e)) -> ~ covers key e.
Proof. unfold covers. rewrite Contains_past. tauto. Qed.

Lemma lt_not_covers key e : bytes_lt key (key_of e) -> ~ covers key e.
Proof. unfold covers. rewrite Contains_bounds, inclusive_min_range_of. intros H [H1 _]. border. Qed.
