(* ===== verification/TransactionMoves.v ===== *)
(** Staged mutations: moving entries to the trees of their phases, and adding a read-modify-write
    operation. *)

From stdpp Require Import sorting.
From S2P Require Import Prelude Bytes KeyRange TransactionPhases TransactionSpec.

(** * Insertion by key *)

Lemma sorted_app {A} (f : A -> bytes) l1 l2 : StronglySorted bytes_lt (f <$> l1 ++ l2) <->
  StronglySorted bytes_lt (f <$> l1) /\ StronglySorted bytes_lt (f <$> l2) /\
  Forall (fun a => Forall (fun b => bytes_lt (f a) (f b)) l2) l1.
Proof.
  induction l1 as [|a l1 IH]; cbn.
  - split; [intros H; split; [constructor|by split; [|constructor]]|by intros (_ & H & _)].
  - rewrite Forall_cons. split.
    + intros [H Ha]%StronglySorted_inv. apply IH in H as (H1 & H2 & H3).
      rewrite Forall_fmap, Forall_app in Ha. destruct Ha. split; [|done]. constructor; [done|]. by rewrite Forall_fmap.
    + intros ([H1 Ha]%StronglySorted_inv & H2 & H3 & H4). rewrite Forall_fmap in Ha. constructor; [by apply IH|].
      rewrite Forall_fmap, Forall_app. done.
Qed.

Lemma sorted_cons {A} (f : A -> bytes) a l : StronglySorted bytes_lt (f <$> a :: l) <->
  StronglySorted bytes_lt (f <$> l) /\ Forall (fun b => bytes_lt (f a) (f b)) l.
Proof.
  rewrite fmap_cons. split; [intros [H Ha]%StronglySorted_inv; by rewrite Forall_fmap in Ha|].
  intros [H Ha]. constructor; [done|]. by rewrite Forall_fmap.
Qed.

(** The place of a key among sorted keys. *)
Lemma find_split_sorted {A} (f : A -> bytes) key l b x a : StronglySorted bytes_lt (f <$> l) ->
  find_split (fun y => compare_bytes key (f y)) l = (b, x, a) ->
  l = b ++ option_list x ++ a /\ Forall (fun y => bytes_lt (f y) key) b /\ Forall (fun y => bytes_lt key (f y)) a /\
  (forall y, x = Some y -> f y = key).
Proof.
  intros Hs E. apply find_split_spec in E as (-> & Hb & Hx). split; [done|]. split; [|split].
  - eapply Forall_impl; [exact Hb|]. intros y Hy. unfold bytes_lt. by rewrite compare_bytes_antisym, Hy.
  - apply sorted_app in Hs as (_ & Hs & _). destruct x as [y|]; cbn [option_list app] in Hs.
    + apply sorted_cons in Hs as [_ Hy]. apply compare_bytes_eq in Hx as ->. done.
    + destruct a as [|y a]; [constructor|]. apply sorted_cons in Hs as [_ Hy]. constructor; [done|].
      eapply Forall_impl; [exact Hy|]. intros z Hz. by eapply bytes_lt_trans.
  - intros y ->. by apply compare_bytes_eq in Hx.
Qed.

Lemma find_or_insert_sorted {A} (f : A -> bytes) a l : StronglySorted bytes_lt (f <$> l) ->
  Forall (fun b => f b <> f a) l ->
  find_or_insert (fun y => compare_bytes (f a) (f y)) a l ≡ₚ a :: l /\
  StronglySorted bytes_lt (f <$> find_or_insert (fun y => compare_bytes (f a) (f y)) a l).
Proof.
  intros Hs Hn. unfold find_or_insert. destruct (find_split _ l) as [[b x] r] eqn:E.
  apply (find_split_sorted f) in E as (-> & Hb & Hr & Hx); [|done]. destruct x as [y|].
  - apply Forall_app in Hn as [_ Hn]. apply Forall_cons in Hn as [Hn _]. by rewrite (Hx y eq_refl) in Hn.
  - cbn [option_list app] in *. split; [by rewrite Permutation_middle|]. rewrite sorted_app in Hs. destruct Hs as (H1 & H2 & H3).
    rewrite sorted_app, sorted_cons. split; [done|]. split; [done|]. rewrite Forall_forall in *.
    intros y Hy. constructor; [by apply Hb|]. by apply H3.
Qed.

(** * Insertion into a prior phase *)

Definition all_entries (phases : list SinglePhaseMutation) : list MutationEntry := phases ≫= entries.

Lemma insert_phases e phases : phase_number <$> InsertIntoPriorPhase e phases = phase_number <$> phases.
Proof.
  assert (H : phase_number <$> (insert_into_phase e <$> phases) = phase_number <$> phases).
  { rewrite <- list_fmap_compose. apply list_fmap_ext. intros i s _. unfold compose, insert_into_phase.
    by destruct (_ =? _)%nat. }
  destruct e as [e|[[] ? ? ? ?]]; done.
Qed.

Lemma insert_placeholder e phases : owner e = None -> InsertIntoPriorPhase e phases = phases.
Proof. destruct e as [e|[[] ? ? ? ?]]; done. Qed.

Lemma insert_acting e phases p : owner e = Some p -> InsertIntoPriorPhase e phases = insert_into_phase e <$> phases /\ phase_of e = p.
Proof. destruct e as [e|[[] ? ? ? ?]]; cbn; naive_solver. Qed.

(** What the trees of the prior phases satisfy. *)
Record priors_ok (phases : list SinglePhaseMutation) : Prop := {
  po_trees : Forall (fun s => tree_ok (entries s)) phases;
  po_owners : Forall (fun s => Forall (fun e => owner e = Some (phase_number s)) (entries s)) phases;
  po_phases : NoDup (phase_number <$> phases);
}.

Lemma insert_prior_ok e phases p : entry_ok e -> owner e = Some p -> p ∈ phase_number <$> phases -> priors_ok phases ->
  no_overlap (e :: filter (fun x => owner x = Some p) (all_entries phases)) ->
  priors_ok (InsertIntoPriorPhase e phases) /\
  all_entries (InsertIntoPriorPhase e phases) ≡ₚ e :: all_entries phases.
Proof.
  intros He Ho Hp H Hn. pose proof (insert_phases e phases) as Hph. destruct (insert_acting e phases p Ho) as [-> Hpe].
  destruct (insert_acting e phases p Ho) as [Ei _]. rewrite Ei in Hph. clear Ei.
  induction phases as [|s phases IH]; [by apply elem_of_nil in Hp|].
  destruct H as [[Ht Hts]%Forall_cons [Hos Hoss]%Forall_cons Hdd]. rewrite fmap_cons in Hdd. apply NoDup_cons in Hdd as [Hd Hds].
  assert (Hrest : phase_number s = p -> insert_into_phase e <$> phases = phases).
  { intros Hs. rewrite <- (list_fmap_id phases) at 2. apply list_fmap_ext. intros i x Hx. unfold insert_into_phase.
    destruct (Nat.eqb_spec (phase_number x) (phase_of e)) as [E|E]; [|done]. exfalso. apply Hd.
    rewrite Hs, <- Hpe, <- E. apply list_elem_of_fmap. exists x. split; [done|]. by apply list_elem_of_lookup_2 in Hx. }
  assert (Hnone : phase_number s <> p -> filter (fun x => owner x = Some p) (entries s) = []).
  { intros Hs. clear -Hs Hos. induction Hos as [|x l Hx _ IHl]; [done|]. by rewrite filter_cons_False by congruence. }
  rewrite !fmap_cons in Hph. injection Hph as Hph1 Hph2. unfold all_entries in *. rewrite fmap_cons, !bind_cons in *.
  unfold insert_into_phase at 1 3. rewrite Hpe. destruct (Nat.eqb_spec (phase_number s) p) as [Es|Es].
  - rewrite (Hrest Es). assert (Hsub : no_overlap (e :: entries s)).
    { intros key Hk. specialize (Hn key Hk). rewrite filter_app in Hn.
      replace (filter (fun x => owner x = Some p) (entries s)) with (entries s) in Hn.
      2: { clear -Hos Es. subst p. induction Hos as [|x l Hx _ IHl]; [done|]. by rewrite filter_cons_True, <- IHl. }
      rewrite app_comm_cons, filter_app, length_app in Hn. lia. }
    destruct Ht as [Hto Htk]. destruct (find_or_insert_sorted key_of e (entries s)) as [Hperm Hsort].
    { by apply ordered_keys. }
    { rewrite Forall_forall in *. intros x Hx E. specialize (Hsub (key_of e) (min_bytes _ He)).
      rewrite filter_cons_True in Hsub by (by apply covers_min).
      assert (Hin : x ∈ filter (covers (key_of e)) (entries s)) by (apply list_elem_of_filter; split; [rewrite <- E; by apply covers_min, Htk|done]).
      destruct (filter (covers (key_of e)) (entries s)); [by apply elem_of_nil in Hin|cbn in Hsub; lia]. }
    change (fun y => compare_bytes (key_of e) (key_of y)) with (CompareToEntry (key_of e)) in *.
    cbn [entries]. split; [|by rewrite Hperm]. split.
    + constructor; [|done]. cbn [entries]. split; [|rewrite Hperm; by constructor].
      apply ordered_of_keys; [rewrite Hperm; by constructor|done|]. by eapply no_overlap_perm.
    + constructor; [|done]. cbn [entries phase_number]. rewrite Hperm. constructor; [congruence|done].
    + by constructor.
  - destruct IH as [[IH1 IH2 IH3] IHp].
    + by apply elem_of_cons in Hp as [Hp|Hp].
    + done.
    + rewrite filter_app, Hnone in Hn by done. done.
    + done.
    + split; [|rewrite IHp; by rewrite Permutation_middle]. split; [by constructor..|].
      cbn. constructor; [by rewrite Hph2|by rewrite Hph2].
Qed.

(** * The invariant of a mutation with a last phase *)

Definition mutation (priors : list SinglePhaseMutation) (n : nat) (l : list MutationEntry) : MultiPhaseMutation :=
  MkMultiPhase priors (Some (MkPhase n l)).

Lemma sorted_nat_app (l : list nat) n : StronglySorted lt (l ++ [n]) <-> StronglySorted lt l /\ Forall (fun x => x < n)%nat l.
Proof.
  induction l as [|x l IH]; cbn.
  - split; [intros; split; constructor|]. intros _. repeat constructor.
  - split.
    + intros [H Hx]%StronglySorted_inv. apply IH in H as []. apply Forall_app in Hx as [Hx Hn].
      apply Forall_cons in Hn as [Hn _]. by repeat constructor.
    + intros [[H Hx]%StronglySorted_inv [Hn Hl]%Forall_cons]. constructor; [by apply IH|].
      apply Forall_app. by repeat constructor.
Qed.

Lemma sorted_nat_NoDup (l : list nat) : StronglySorted lt l -> NoDup l.
Proof.
  induction 1 as [|x l _ IH Hx]; constructor; [|done]. intros Hin. rewrite Forall_forall in Hx. specialize (Hx x Hin). lia.
Qed.

(** The parts of the invariant. *)
Record mutation_ok (priors : list SinglePhaseMutation) (n : nat) (l : list MutationEntry) : Prop := {
  mo_priors : priors_ok priors;
  mo_sorted : StronglySorted lt (phase_number <$> priors);
  mo_last : Forall (fun s => phase_number s < n)%nat priors;
  mo_tree : tree_ok l;
  mo_owners : Forall (fun e => phase_of e = n \/ phase_of e ∈ phase_number <$> priors) l;
  mo_placeholders : Forall (fun e => owner e = None -> phase_of e <> n) l;
  mo_once : forall p, p <> n -> no_overlap (filter (fun e => owner e = Some p) (all_entries priors ++ l));
}.

Lemma entries_of_mutation priors n l p :
  entries_of (mutation priors n l) p = filter (fun e => owner e = Some p) (all_entries priors ++ l).
Proof. done. Qed.

(** No prior tree has entries of the last phase. *)
Lemma no_last_in_priors priors n p : priors_ok priors -> Forall (fun s => phase_number s < n)%nat priors -> (n <= p)%nat ->
  filter (fun e => owner e = Some p) (all_entries priors) = [].
Proof.
  intros [_ Ho _] Hl Hp. induction priors as [|s priors IH]; [done|]. apply Forall_cons in Ho as [Ho Hos].
  apply Forall_cons in Hl as [Hl Hls]. unfold all_entries in *. rewrite bind_cons, filter_app, IH by done. rewrite app_nil_r.
  clear -Ho Hl Hp. induction Ho as [|e l He _ IHl]; [done|]. rewrite filter_cons_False; [done|]. rewrite He. intros [= E]. lia.
Qed.

Lemma mutation_ok_Inv priors n l : mutation_ok priors n l <-> Inv (mutation priors n l).
Proof.
  split.
  - intros [Hp Hs Hl Ht Ho Hpl Hn]. split; cbn; try done; try apply Hp.
    + eapply Forall_impl; [exact Ho|]. intros e He. rewrite fmap_app, elem_of_app.
      destruct He as [He|He]; [right|by left]. rewrite He. by left.
    + rewrite fmap_app. cbn. apply sorted_nat_app. split; [done|]. by apply Forall_fmap.
    + intros p. destruct (decide (p = n)) as [->|Hne]; [|by apply Hn].
      change (entries_of _ n) with (filter (fun e => owner e = Some n) (all_entries priors ++ l)). rewrite filter_app.
      rewrite (no_last_in_priors _ _ _ Hp Hl) by done. apply no_overlap_filter, ordered_no_overlap, Ht.
  - intros [H1 H2 H3 H4 H5 H6 H7 _]. cbn in *. rewrite fmap_app in *. cbn in H4, H6. apply sorted_nat_app in H6 as [H6 H6'].
    split; try done.
    + split; [done..|by apply sorted_nat_NoDup].
    + by apply Forall_fmap in H6'.
    + eapply Forall_impl; [exact H4|]. intros e. rewrite elem_of_app, elem_of_cons, elem_of_nil. tauto.
Qed.

(** The effect in the last phase is that of its tree. *)
Lemma last_effect priors n l key : mutation_ok priors n l ->
  tree_effect key (entries_of (mutation priors n l) n) = tree_effect key (filter (fun e => owner e = Some n) l).
Proof.
  intros [Hp _ Hl _ _ _ _]. rewrite entries_of_mutation, filter_app, (no_last_in_priors _ _ _ Hp Hl) by done. done.
Qed.

(** * Moving entries to prior phases *)

Lemma filter_perm {A} (P : A -> Prop) `{!forall x, Decision (P x)} l l' : l ≡ₚ l' -> filter P l ≡ₚ filter P l'.
Proof. by intros ->. Qed.

Lemma tree_effect_perm key l l' : byte_string key -> l ≡ₚ l' -> no_overlap l -> tree_effect key l = tree_effect key l'.
Proof. intros Hk Hp Hn. unfold tree_effect. by rewrite (at_key_perm key l l'). Qed.

Lemma tree_effect_app key l1 l2 : tree_effect key (l1 ++ l2) =
  match tree_effect key l1 with Some x => Some x | None => tree_effect key l2 end.
Proof. unfold tree_effect. rewrite at_key_app. by destruct (at_key key l1) as [[]|]. Qed.

Lemma tree_view_app key l1 l2 : tree_view key (l1 ++ l2) =
  match tree_view key l1 with Some x => Some x | None => tree_view key l2 end.
Proof. unfold tree_view. rewrite at_key_app. by destruct (at_key key l1). Qed.

Lemma no_overlap_app_l l1 l2 : no_overlap (l1 ++ l2) -> no_overlap l1.
Proof. intros Hn key Hk. specialize (Hn key Hk). rewrite filter_app, length_app in Hn. lia. Qed.

Lemma no_overlap_app_r l1 l2 : no_overlap (l1 ++ l2) -> no_overlap l2.
Proof. intros Hn key Hk. specialize (Hn key Hk). rewrite filter_app, length_app in Hn. lia. Qed.

Definition acts_elsewhere (n : nat) (e : MutationEntry) : Prop := owner e <> None /\ owner e <> Some n.
#[export] Instance acts_elsewhere_dec n e : Decision (acts_elsewhere n e) := and_dec _ _.

Section moving.
(** Entries may change when they move, but not in what they mean. *)
Variable mv : MutationEntry -> MutationEntry.
Hypothesis mv_range : forall e, range_of (mv e) = range_of e.
Hypothesis mv_owner : forall e, owner (mv e) = owner e.
Hypothesis mv_phase : forall e, phase_of (mv e) = phase_of e.
Hypothesis mv_effect : forall key e, entry_effect key (mv e) = entry_effect key e.
Hypothesis mv_ok : forall e, entry_ok e -> entry_ok (mv e).

Definition move_entry (n : nat) (phases : list SinglePhaseMutation) (e : MutationEntry) : list SinglePhaseMutation :=
  if (phase_of e =? n)%nat then phases else InsertIntoPriorPhase (mv e) phases.

Lemma mv_covers key e : covers key (mv e) <-> covers key e.
Proof. unfold covers. by rewrite mv_range. Qed.

Lemma filter_mv key (l : list MutationEntry) : filter (covers key) (mv <$> l) = mv <$> filter (covers key) l.
Proof.
  induction l as [|e l IH]; [done|]. rewrite fmap_cons. destruct (decide (covers key e)) as [H|H].
  - rewrite !filter_cons_True, IH by (done || by apply mv_covers). done.
  - rewrite !filter_cons_False, IH by (done || by rewrite mv_covers). done.
Qed.

Lemma filter_owner_mv (o : option nat) (l : list MutationEntry) : filter (fun e => owner e = o) (mv <$> l) = mv <$> filter (fun e => owner e = o) l.
Proof.
  induction l as [|e l IH]; [done|]. rewrite fmap_cons. destruct (decide (owner e = o)) as [H|H].
  - rewrite !filter_cons_True, IH by (rewrite ?mv_owner; done). done.
  - rewrite !filter_cons_False, IH by (rewrite ?mv_owner; done). done.
Qed.

Lemma no_overlap_mv (l r : list MutationEntry) : no_overlap (l ++ r) -> no_overlap ((mv <$> l) ++ r).
Proof. intros Hn key Hk. specialize (Hn key Hk). by rewrite filter_app, filter_mv, length_app, length_fmap, <- length_app, <- filter_app. Qed.

Lemma tree_effect_mv key (l : list MutationEntry) : tree_effect key (mv <$> l) = tree_effect key l.
Proof.
  unfold tree_effect, at_key. rewrite filter_mv. destruct (filter (covers key) l); [done|]. cbn. apply mv_effect.
Qed.

Lemma move_all n l : forall phases, priors_ok phases -> Forall entry_ok l ->
  Forall (fun e => phase_of e = n \/ phase_of e ∈ phase_number <$> phases) l ->
  Forall (fun e => owner e = None -> phase_of e <> n) l ->
  (forall p, p <> n -> no_overlap (filter (fun e => owner e = Some p) (all_entries phases ++ l))) ->
  priors_ok (foldl (move_entry n) phases l) /\
  phase_number <$> foldl (move_entry n) phases l = phase_number <$> phases /\
  all_entries (foldl (move_entry n) phases l) ≡ₚ (mv <$> filter (acts_elsewhere n) l) ++ all_entries phases.
Proof.
  induction l as [|e l IH]; intros phases Hp Hok Ho Hpl Hn; [done|].
  apply Forall_cons in Hok as [Hoke Hok], Ho as [Hoe Ho], Hpl as [Hple Hpl]. cbn [foldl].
  destruct (decide (acts_elsewhere n e)) as [Ha|Ha].
  - rewrite filter_cons_True by done. destruct Ha as [Ha1 Ha2]. destruct (owner e) as [p|] eqn:Eo; [|done].
    assert (Hph : phase_of e = p) by (by eapply (insert_acting e [] p)). assert (Hpn : p <> n) by congruence.
    unfold move_entry at 2 4 6. rewrite (proj2 (Nat.eqb_neq _ _)) by congruence.
    destruct (insert_prior_ok (mv e) phases p) as [H1 H2]; [by apply mv_ok|by rewrite mv_owner|destruct Hoe; congruence|done| |].
    { specialize (Hn p Hpn). rewrite filter_app, filter_cons_True in Hn by done.
      apply (no_overlap_perm _ ([e] ++ filter (fun e => owner e = Some p) (all_entries phases) ++ filter (fun e => owner e = Some p) l)) in Hn;
        [|cbn; by rewrite Permutation_middle].
      rewrite app_assoc in Hn. apply no_overlap_app_l in Hn. by apply no_overlap_mv in Hn. }
    pose proof (insert_phases (mv e) phases) as H3.
    destruct (IH (InsertIntoPriorPhase (mv e) phases)) as (IH1 & IH2 & IH3); [done|done|by rewrite H3|done| |].
    { intros q Hq. specialize (Hn q Hq). eapply no_overlap_perm;
        [symmetry; apply filter_perm; rewrite H2; cbn; reflexivity|].
      change (mv e :: all_entries phases ++ l) with ((mv <$> [e]) ++ (all_entries phases ++ l)).
      rewrite filter_app, filter_owner_mv. apply no_overlap_mv. rewrite <- filter_app.
      eapply no_overlap_perm; [|exact Hn]. apply filter_perm. cbn. by rewrite Permutation_middle. }
    split; [done|]. split; [congruence|]. rewrite IH3, H2, fmap_cons. cbn. by rewrite Permutation_middle.
  - rewrite filter_cons_False by done.
    assert (Em : move_entry n phases e = phases).
    { unfold move_entry. destruct (Nat.eqb_spec (phase_of e) n) as [|Hne]; [done|]. apply insert_placeholder. rewrite mv_owner.
      destruct (owner e) as [p|] eqn:Eo; [|done]. destruct Ha. unfold acts_elsewhere. rewrite Eo. split; [done|].
      intros [= ->]. destruct Hne. by eapply (insert_acting e [] n). }
    rewrite Em. apply IH; [done..|]. intros p Hp'. specialize (Hn p Hp'). rewrite filter_app in *.
    eapply no_overlap_perm in Hn; [|rewrite filter_cons; reflexivity]. case_decide; [|done].
    intros key Hk. specialize (Hn key Hk). rewrite filter_app in *. rewrite length_app in *. rewrite filter_cons in Hn.
    case_decide; cbn in Hn; lia.
Qed.

(** The effects in the other phases, when the entries in the middle move and are replaced by entries that do
    not act in these phases. *)
Lemma move_effect n phases b l new a phases' p : p <> n ->
  no_overlap (filter (fun e => owner e = Some p) (all_entries phases ++ b ++ l ++ a)) ->
  all_entries phases' ≡ₚ (mv <$> filter (acts_elsewhere n) l) ++ all_entries phases ->
  filter (fun e => owner e = Some p) new = [] ->
  no_overlap (filter (fun e => owner e = Some p) (all_entries phases' ++ b ++ new ++ a)) /\
  forall key, byte_string key ->
    tree_effect key (filter (fun e => owner e = Some p) (all_entries phases' ++ b ++ new ++ a)) =
    tree_effect key (filter (fun e => owner e = Some p) (all_entries phases ++ b ++ l ++ a)).
Proof.
  intros Hp Hn Hperm Hnew. set (P := fun e => owner e = Some p) in *.
  assert (Hf : filter P (filter (acts_elsewhere n) l) = filter P l).
  { clear -Hp. induction l as [|e l IH]; [done|]. destruct (decide (P e)) as [He|He].
    - rewrite (filter_cons_True (acts_elsewhere n)), !(filter_cons_True P), IH by
        (done || (unfold acts_elsewhere; unfold P in He; rewrite He; split; congruence)). done.
    - destruct (decide (acts_elsewhere n e)); rewrite ?(filter_cons_True (acts_elsewhere n)), ?(filter_cons_False (acts_elsewhere n)),
        !(filter_cons_False P), IH by done; done. }
  assert (H1 : filter P (all_entries phases' ++ b ++ new ++ a) ≡ₚ (mv <$> filter P l) ++ filter P (all_entries phases ++ b ++ a)).
  { rewrite Hperm, !filter_app, Hnew. unfold P at 1. rewrite filter_owner_mv. fold P. rewrite Hf. cbn. by rewrite <- !app_assoc. }
  assert (H2 : filter P (all_entries phases ++ b ++ l ++ a) ≡ₚ filter P l ++ filter P (all_entries phases ++ b ++ a)).
  { rewrite !filter_app. rewrite (Permutation_app_comm (filter P b)), <- !app_assoc. rewrite !app_assoc.
    rewrite (Permutation_app_comm _ (filter P l)). rewrite <- !app_assoc. solve_Permutation. }
  assert (Hn2 : no_overlap (filter P l ++ filter P (all_entries phases ++ b ++ a))) by (by eapply no_overlap_perm).
  assert (Hn1 := no_overlap_mv _ _ Hn2). split; [by eapply no_overlap_perm; [symmetry; exact H1|]|].
  intros key Hk. rewrite (tree_effect_perm key _ _ Hk H2 Hn). symmetry in H1. rewrite <- (tree_effect_perm key _ _ Hk H1 Hn1).
  by rewrite !tree_effect_app, tree_effect_mv.
Qed.
End moving.
