(* ===== verification/TransactionWrites.v ===== *)
(** Staged mutations: a read-modify-write operation. *)

From stdpp Require Import sorting.
From S2P Require Import Prelude Bytes KeyRange TransactionPhases TransactionSpec TransactionMoves.

(** * Entries that are revoked when they move *)

Definition moved (e : MutationEntry) : MutationEntry :=
  match e with Rmw r => Rmw (with_latest r (EnsureRevoked (latest r))) | Dr _ => e end.

Lemma moved_range e : range_of (moved e) = range_of e.
Proof. by destruct e. Qed.
Lemma moved_owner e : owner (moved e) = owner e.
Proof. by destruct e. Qed.
Lemma moved_phase e : phase_of (moved e) = phase_of e.
Proof. by destruct e. Qed.

(** Flags have no part in what entries mean. *)
Lemma sources_flags p s f l : sources_in p (with_flags s f :: l) = sources_in p (s :: l).
Proof. unfold sources_in. rewrite !filter_cons. cbn. by case_decide. Qed.

Lemma moved_effect key e : entry_effect key (moved e) = entry_effect key e.
Proof. destruct e as [r|]; [|done]. unfold moved, entry_effect. do 2 f_equal. apply (sources_flags _ (latest r)). Qed.
Lemma moved_ok e : entry_ok e -> entry_ok (moved e).
Proof. destruct e; [|done]. intros []. by split. Qed.

Lemma insert_id priors n e : (if negb (phase_of e =? n)%nat then InsertIntoPriorPhase (moved e) priors else priors) =
  move_entry moved n priors e.
Proof. unfold move_entry. by destruct (_ =? _)%nat. Qed.

(** * Replacing the entry of a key *)

(** The new entries around [key] for what was found there. *)
Record splice_ok (n : nat) (key : bytes) (src : nat) (found : option MutationEntry) (new : list MutationEntry) : Prop := {
  so_tree : tree_ok new;
  so_keys : Forall (fun x => key_of x = key \/ key_of x = Successor key \/ exists e, found = Some e /\ key_of x = key_of e) new;
  so_max : Forall (fun x => exclusive_max (range_of x) = Successor key \/ (exclusive_max (range_of x) = key /\ key <> []) \/
     exists e, found = Some e /\ exclusive_max (range_of x) = exclusive_max (range_of e)) new;
  so_owners : Forall (fun x => (owner x = Some n /\ phase_of x = n) \/
     (owner x = None /\ exists e, found = Some e /\ phase_of x = phase_of e /\ phase_of e <> n)) new;
  so_effect : forall k, byte_string k -> let old := tree_effect k (filter (fun e => owner e = Some n) (option_list found)) in
     tree_effect k (filter (fun e => owner e = Some n) new) = if bytes_eqb key k then Some (false, src :: effect_sources old) else old;
  so_view : forall k, byte_string k ->
     tree_view k new = if bytes_eqb key k then Some (Some src) else tree_view k (option_list found);
}.

Lemma Successor_le key k : byte_string k -> bytes_lt key k -> bytes_le (Successor key) k.
Proof.
  intros Hk H. apply bytes_not_lt. intros Hlt. pose proof (Singleton_interval key k Hk) as [Hs _]. unfold below in Hs.
  assert (k = key) by (apply Hs; split; [border|by right]). border.
Qed.

Lemma Successor_lt key : bytes_lt key (Successor key).
Proof. unfold Successor, bytes_lt. rewrite <- (app_nil_r key) at 1. by rewrite compare_bytes_app. Qed.

Lemma tree_effect_none key l : Forall (fun e => ~ covers key e) l -> tree_effect key l = None.
Proof. intros H. unfold tree_effect. by rewrite at_key_none. Qed.
Lemma tree_view_none key l : Forall (fun e => ~ covers key e) l -> tree_view key l = None.
Proof. intros H. unfold tree_view. by rewrite at_key_none. Qed.

Lemma Forall_filter_any {A} (P Q : A -> Prop) `{!forall x, Decision (Q x)} l : Forall P l -> Forall P (filter Q l).
Proof. rewrite !Forall_forall. intros HP x [_ Hx]%list_elem_of_filter. auto. Qed.

(** What the step does to the mutation, effect by effect. *)
Record step_ok (priors : list SinglePhaseMutation) (n : nat) (l : list MutationEntry)
    (priors' : list SinglePhaseMutation) (l' : list MutationEntry) (op : Operation) : Prop := {
  st_ok : mutation_ok priors' n l';
  st_phases : phase_number <$> priors' = phase_number <$> priors;
  st_effect : forall p k, byte_string k ->
    tree_effect k (entries_of (mutation priors' n l') p) =
    let old := tree_effect k (entries_of (mutation priors n l) p) in
    if (n =? p)%nat then operation_effect k old op else old;
  st_view : forall k, byte_string k ->
    tree_view k l' =
    match op with
    | OpReadModifyWrite key src _ => if bytes_eqb key k then Some (Some src) else tree_view k l
    | OpDeleteRange range => if Contains range k then Some None else tree_view k l
    end;
}.

(** Every key that an entry of the middle covers is between the parts before and behind it. *)
Lemma splice_tree n key src found new b a :
  tree_ok (b ++ option_list found ++ a) -> splice_ok n key src found new ->
  Forall (fun e => past key (exclusive_max (range_of e))) b ->
  Forall (fun e => bytes_lt key (key_of e)) a ->
  tree_ok (b ++ new ++ a).
Proof.
  intros [Ho Hok] Hs Hb Ha. rewrite !Forall_app in Hok. destruct Hok as (Hokb & _ & Hoka).
  rewrite !ordered_app in Ho. destruct Ho as (Hob & (_ & Hoa & Hfa) & Hbf).
  destruct Hs as [[Hnew Hnewok] Hkeys Hmax _ _ _].
  split; [|by rewrite !Forall_app]. rewrite !ordered_app. split; [done|]. split; [split; [done|split; [done|]]|].
  - rewrite Forall_forall in *. intros x Hx. apply Forall_forall. intros z Hz. unfold entry_before.
    destruct (Hmax x Hx) as [->|[[-> Hne]|(e & -> & ->)]].
    + split; [by destruct key|]. apply Successor_le; [|by apply Ha]. by apply Hoka.
    + split; [done|]. specialize (Ha z Hz). border.
    + specialize (Hfa e). rewrite Forall_forall in Hfa. apply Hfa; [by left|done].
  - rewrite Forall_forall in *. intros y Hy. apply Forall_app. split; apply Forall_forall; intros x Hx.
    + destruct (Hkeys x Hx) as [E|[E|(e & -> & E)]]; unfold entry_before; rewrite E.
      * by apply Hb.
      * destruct (Hb y Hy) as [H1 H2]. split; [done|]. pose proof (Successor_lt key). border.
      * specialize (Hbf y Hy). rewrite Forall_forall in Hbf. apply Hbf, elem_of_app. left. by left.
    + specialize (Hbf y Hy). rewrite Forall_forall in Hbf. apply Hbf, elem_of_app. by right.
Qed.

Lemma splice_step priors n b found a new key src tf :
  mutation_ok priors n (b ++ option_list found ++ a) -> byte_string key ->
  splice_ok n key src found new ->
  Forall (fun e => past key (exclusive_max (range_of e))) b ->
  Forall (fun e => bytes_lt key (key_of e)) a ->
  step_ok priors n (b ++ option_list found ++ a)
    (foldl (move_entry moved n) priors (option_list found)) (b ++ new ++ a) (OpReadModifyWrite key src tf).
Proof.
  intros Hm Hkey Hs Hb Ha. pose proof Hm as [Hp Hsort Hlast Htree Hown Hpl Honce].
  assert (Htree' := splice_tree n key src found new b a Htree Hs Hb Ha).
  rewrite !Forall_app in Hown, Hpl. destruct Hown as (Hownb & Hownf & Howna), Hpl as (Hplb & Hplf & Hpla).
  destruct (move_all moved moved_range moved_owner moved_ok n (option_list found) priors) as (Hp' & Hph & Hall); [done| |done|done| |].
  { destruct Htree as [_ Htree]. rewrite !Forall_app in Htree. apply Htree. }
  { intros p Hpn. specialize (Honce p Hpn). rewrite !filter_app in *.
    apply (no_overlap_app_r (filter (fun e => owner e = Some p) b ++ filter (fun e => owner e = Some p) a)).
    eapply no_overlap_perm; [|exact Honce]. solve_Permutation. }
  set (priors' := foldl (move_entry moved n) priors (option_list found)) in *.
  destruct Hs as [Hnew Hkeys Hmax Howners Heff Hview].
  assert (Hnone : forall p, p <> n -> filter (fun e => owner e = Some p) new = []).
  { intros p Hpn. clear -Howners Hpn. induction Howners as [|x l [[Hx _]|[Hx _]] _ IH]; [done|..]; rewrite filter_cons_False; auto; congruence. }
  assert (Hmove := fun p Hpn => move_effect moved moved_range moved_owner moved_effect n priors b (option_list found) new a priors' p Hpn
    (Honce p Hpn) Hall (Hnone p Hpn)).
  assert (Hok' : mutation_ok priors' n (b ++ new ++ a)).
  { split; [done|by rewrite Hph| |done| | |].
    - apply (Forall_fmap phase_number (fun p => p < n)%nat). rewrite Hph. apply Forall_fmap. exact Hlast.
    - rewrite !Forall_app, Hph. split; [done|]. split; [|done]. rewrite Forall_forall in *. intros x Hx.
      destruct (Howners x Hx) as [[_ E]|(_ & e & -> & E & _)]; [by left|]. rewrite E. apply Hownf. by left.
    - rewrite !Forall_app. split; [done|]. split; [|done]. rewrite Forall_forall in *. intros x Hx.
      destruct (Howners x Hx) as [[E _]|(_ & e & -> & E & Hne)]; [by rewrite E|]. by rewrite E.
    - intros p Hpn. by destruct (Hmove p Hpn). }
  assert (Hbk : Forall (fun e => ~ covers key e) b) by (eapply Forall_impl; [exact Hb|]; intros e; apply past_not_covers).
  assert (Hak : Forall (fun e => ~ covers key e) a) by (eapply Forall_impl; [exact Ha|]; intros e; apply lt_not_covers).
  split; [done|done| |].
  - intros p k Hk. cbn [operation_effect]. destruct (Nat.eqb_spec n p) as [<-|Hne].
    + rewrite !last_effect by done. rewrite !filter_app, !tree_effect_app, (Heff k Hk). cbn zeta.
      destruct (bytes_eqb key k) eqn:E; [|done]. apply bytes_eqb_spec in E as <-.
      rewrite !(tree_effect_none key (filter _ b)), !(tree_effect_none key (filter _ a)) by (by apply Forall_filter_any).
      by destruct (tree_effect key (filter _ (option_list found))).
    + rewrite !entries_of_mutation. by apply (Hmove p); [congruence|].
  - intros k Hk. rewrite !tree_view_app, (Hview k Hk). destruct (bytes_eqb key k) eqn:E; [|done].
    apply bytes_eqb_spec in E as <-. by rewrite (tree_view_none key b).
Qed.

(** * The four cases *)

Lemma covers_rmw_eqb k r : byte_string k -> bytes_eqb (rmw_key r) k = bool_decide (covers k (Rmw r)).
Proof.
  intros Hk. apply bool_eq_iff. rewrite bytes_eqb_spec, bool_decide_eq_true, covers_rmw by done. split; congruence.
Qed.

Lemma at_key_one k e : at_key k [e] = if bool_decide (covers k e) then Some e else None.
Proof. case_bool_decide; [by rewrite at_key_cons_True|by rewrite at_key_cons_False]. Qed.

Lemma rmw_ok r : byte_string (rmw_key r) -> steps_ok r -> entry_ok (Rmw r).
Proof.
  intros Hk Hs. split; [|done| |done].
  - apply empty_false_spec. right. apply Successor_lt.
  - cbn. apply Forall_app. split; [done|]. by repeat constructor.
Qed.

Lemma single_tree e : entry_ok e -> tree_ok [e].
Proof. intros H. split; [repeat constructor|by constructor]. Qed.

Lemma sources_in_none p l : Forall (fun s => step_phase s <> p) l -> sources_in p l = [].
Proof. intros H. unfold sources_in. induction H as [|s l Hs _ IH]; [done|]. by rewrite filter_cons_False. Qed.

Lemma sources_in_cons p s l : step_phase s = p -> sources_in p (s :: l) = source s :: sources_in p l.
Proof. intros H. unfold sources_in. by rewrite filter_cons_True. Qed.

Lemma splice_new n key src f : byte_string key ->
  splice_ok n key src None [Rmw (MkRmw key (MkStep src n f) [])].
Proof.
  intros Hk. split.
  - apply single_tree, rmw_ok; [done|constructor].
  - constructor; [by left|constructor].
  - constructor; [by left|constructor].
  - constructor; [by left|constructor].
  - intros k Hk'. cbn zeta. rewrite filter_cons_True by done. unfold tree_effect. rewrite at_key_one.
    rewrite <- covers_rmw_eqb by done. cbn [rmw_key]. destruct (bytes_eqb key k); [|done].
    cbn [mbind option_bind entry_effect latest step_phase]. unfold steps. by rewrite sources_in_cons.
  - intros k Hk'. unfold tree_view. rewrite at_key_one, <- covers_rmw_eqb by done. cbn [rmw_key]. by destruct (bytes_eqb key k).
Qed.

Lemma splice_rmw n r src f f' : entry_ok (Rmw r) -> (step_phase (latest r) <= n)%nat ->
  splice_ok n (rmw_key r) src (Some (Rmw r))
    [Rmw (MkRmw (rmw_key r) (MkStep src n f) (with_flags (latest r) f' :: prev r))].
Proof.
  intros Hr Hn. pose proof Hr as [_ Hk _ Hs]. cbn in Hk, Hs. split.
  - apply single_tree, rmw_ok; [done|]. constructor; [done|]. eapply Forall_impl; [exact Hs|]. cbn. intros s. lia.
  - constructor; [by left|constructor].
  - constructor; [by left|constructor].
  - constructor; [by left|constructor].
  - intros k Hk'. change (option_list (Some (Rmw r))) with [Rmw r]. cbn zeta. rewrite (filter_cons_True _ (Rmw (MkRmw _ _ _))) by done.
    unfold tree_effect at 1. rewrite at_key_one, <- covers_rmw_eqb by done. cbn [rmw_key]. destruct (bytes_eqb (rmw_key r) k) eqn:E.
    + cbn [mbind option_bind entry_effect latest step_phase]. unfold steps. cbn [latest prev].
      rewrite sources_in_cons by done. cbn [source]. do 3 f_equal. change (with_flags (latest r) f' :: prev r) with (MkStep (source (latest r)) (step_phase (latest r)) f' :: prev r).
      rewrite (sources_flags n (latest r) f'). destruct (decide (step_phase (latest r) = n)) as [E'|E'].
      * rewrite filter_cons_True by (cbn; congruence). unfold tree_effect. rewrite at_key_one, <- covers_rmw_eqb, E by done.
        cbn [mbind option_bind entry_effect effect_sources]. by rewrite E'.
      * rewrite filter_cons_False by (cbn; congruence). transitivity (@nil nat); [|done].
        apply sources_in_none. constructor; [done|]. eapply Forall_impl; [exact Hs|]. cbn. intros s. lia.
    + cbn [mbind option_bind]. symmetry. apply tree_effect_none, Forall_filter_any. constructor; [|constructor].
      rewrite covers_rmw by done. intros ->. by rewrite (proj2 (bytes_eqb_spec _ _) eq_refl) in E.
  - intros k Hk'. unfold tree_view. change (option_list (Some (Rmw r))) with [Rmw r].
    rewrite !at_key_one, <- !covers_rmw_eqb by done. cbn [rmw_key].
    destruct (bytes_eqb (rmw_key r) k); reflexivity.
Qed.

(** The pieces of a range around a key. *)
Section pieces.
Variables (d : DeleteRangeEntry) (key : bytes).
Hypothesis d_ok : entry_ok (Dr d).
Hypothesis key_bytes : byte_string key.
Hypothesis d_covers : covers key (Dr d).

Lemma covers_dr k e : covers k (Dr e) <-> bytes_le (dr_key e) k /\ (dr_exclusive_max e = [] \/ bytes_lt k (dr_exclusive_max e)).
Proof. apply Contains_bounds. Qed.

Lemma left_at ph sup k : bytes_lt k key ->
  at_key k (left_interval ph d key sup) =
  if bool_decide (covers k (Dr d)) then Some (Dr (MkDr ph (dr_phase d) (dr_key d) key sup)) else None.
Proof.
  intros Hlt. pose proof d_covers as Hc. rewrite covers_dr in Hc. unfold left_interval.
  destruct (bytes_eqb (dr_key d) key) eqn:E; cbn [negb].
  - apply bytes_eqb_spec in E. rewrite bool_decide_false; [done|]. rewrite covers_dr. intros [H _]. border.
  - rewrite at_key_one, (bool_decide_ext _ (covers k (Dr d))); [done|]. rewrite !covers_dr. cbn.
    assert (dr_exclusive_max d = [] \/ bytes_lt k (dr_exclusive_max d)) by (destruct Hc as [_ [?|?]]; [by left|right; border]). tauto.
Qed.

Lemma left_none ph sup k : bytes_le key k -> Forall (fun e => ~ covers k e) (left_interval ph d key sup).
Proof.
  intros Hle. unfold left_interval. destruct (bytes_eqb (dr_key d) key) eqn:E; cbn [negb]; constructor; [|constructor].
  pose proof d_covers as Hc. rewrite covers_dr in Hc. rewrite covers_dr. cbn. intros [H1 [->|H2]]; [|border].
  destruct Hc as [Hc _]. apply bytes_le_lteq in Hc as [Hc|Hc]; [by apply bytes_lt_nil in Hc|].
  by rewrite (proj2 (bytes_eqb_spec _ _) Hc) in E.
Qed.

Lemma right_at ph sup k : byte_string k -> bytes_lt key k ->
  at_key k (right_interval ph d key sup) =
  if bool_decide (covers k (Dr d)) then Some (Dr (MkDr ph (dr_phase d) (Successor key) (dr_exclusive_max d) sup)) else None.
Proof.
  intros Hk Hlt. pose proof (Successor_le key k Hk Hlt) as Hs. pose proof d_covers as Hc. rewrite covers_dr in Hc.
  unfold right_interval. destruct (bytes_eqb (Successor key) (dr_exclusive_max d)) eqn:E; cbn [negb].
  - apply bytes_eqb_spec in E. rewrite bool_decide_false; [done|]. rewrite covers_dr, <- E. intros [_ [H|H]]; [by destruct key|border].
  - rewrite at_key_one, (bool_decide_ext _ (covers k (Dr d))); [done|]. rewrite !covers_dr. cbn.
    assert (bytes_le (dr_key d) k) by (destruct Hc; border). tauto.
Qed.

Lemma right_none ph sup k : bytes_le k key -> Forall (fun e => ~ covers k e) (right_interval ph d key sup).
Proof.
  intros Hle. unfold right_interval. destruct (bytes_eqb _ _); cbn [negb]; constructor; [|constructor].
  rewrite covers_dr. cbn. pose proof (Successor_lt key). intros [H1 _]. border.
Qed.

(** The keys, one by one. *)
Lemma pieces_at ph ph' sup sup' r k : byte_string k -> rmw_key r = key ->
  at_key k (left_interval ph d key sup ++ [Rmw r] ++ right_interval ph' d key sup') =
  match compare_bytes key k with
  | Eq => Some (Rmw r)
  | Gt => if bool_decide (covers k (Dr d)) then Some (Dr (MkDr ph (dr_phase d) (dr_key d) key sup)) else None
  | Lt => if bool_decide (covers k (Dr d)) then Some (Dr (MkDr ph' (dr_phase d) (Successor key) (dr_exclusive_max d) sup')) else None
  end.
Proof.
  intros Hk Hr. rewrite !at_key_app. assert (Hone : at_key k [Rmw r] = if bytes_eqb key k then Some (Rmw r) else None).
  { rewrite at_key_one, <- covers_rmw_eqb by done. by rewrite Hr. }
  rewrite Hone. destruct (compare_bytes key k) eqn:E.
  - apply compare_bytes_eq in E as <-. rewrite at_key_none by (apply left_none; border).
    by rewrite (proj2 (bytes_eqb_spec _ _) eq_refl).
  - rewrite at_key_none by (apply left_none, bytes_le_lteq; by left). rewrite right_at by done.
    destruct (bytes_eqb key k) eqn:E'; [|done]. apply bytes_eqb_spec in E' as <-. by rewrite compare_bytes_refl in E.
  - assert (Hlt : bytes_lt k key) by (unfold bytes_lt; by rewrite compare_bytes_antisym, E).
    rewrite left_at by done. case_bool_decide; [done|]. rewrite at_key_none by (apply right_none, bytes_le_lteq; by left).
    destruct (bytes_eqb key k) eqn:E'; [|done]. apply bytes_eqb_spec in E' as <-. by rewrite compare_bytes_refl in E.
Qed.

(** The pieces satisfy the invariant, when the superseded entries are split as they are. *)
Lemma piece_ok ph sup lo hi : byte_string lo -> byte_string hi -> hi = [] \/ bytes_lt lo hi ->
  StronglySorted bytes_lt (rmw_key <$> sup) -> (ph = true -> sup = []) ->
  Forall (fun r => (bytes_le lo (rmw_key r) /\ (hi = [] \/ bytes_lt (rmw_key r) hi)) /\ step_phase (latest r) = dr_phase d /\ steps_ok r /\ byte_string (rmw_key r)) sup ->
  entry_ok (Dr (MkDr ph (dr_phase d) lo hi sup)).
Proof.
  intros Hlo Hhi Hr Hs Hp Hsup. split; [by apply empty_false_spec|done..|]. cbn. split; [done|]. split; [|done].
  eapply Forall_impl; [exact Hsup|]. intros r (H1 & H2 & H3). by rewrite Contains_bounds.
Qed.

Lemma pieces_tree ph ph' sup sup' r : rmw_key r = key -> steps_ok r ->
  (bytes_eqb (dr_key d) key = false -> entry_ok (Dr (MkDr ph (dr_phase d) (dr_key d) key sup))) ->
  (bytes_eqb (Successor key) (dr_exclusive_max d) = false -> entry_ok (Dr (MkDr ph' (dr_phase d) (Successor key) (dr_exclusive_max d) sup'))) ->
  tree_ok (left_interval ph d key sup ++ [Rmw r] ++ right_interval ph' d key sup').
Proof.
  intros Hr Hs Hl Hrt. unfold left_interval, right_interval. split.
  - assert (Hkey : bytes_eqb (dr_key d) key = false -> key <> []).
    { intros E ->. pose proof d_covers as Hc. rewrite covers_dr in Hc. destruct Hc as [Hc _].
      apply bytes_le_lteq in Hc as [Hc|Hc]; [by apply bytes_lt_nil in Hc|]. by rewrite Hc in E. }
    pose proof (Successor_lt key) as Hsucc.
    destruct (bytes_eqb (dr_key d) key) eqn:E1, (bytes_eqb (Successor key) (dr_exclusive_max d)) eqn:E2; cbn [negb app];
      rewrite ?ordered_cons; repeat split; repeat constructor; unfold past; cbn [range_of exclusive_max Singleton key_of dr_key dr_exclusive_max]; rewrite ?Hr; try done;
      try (by apply Hkey); try (by destruct key); try border.
  - rewrite !Forall_app. split; [|split].
    + destruct (bytes_eqb (dr_key d) key); constructor; [by apply Hl|constructor].
    + constructor; [|constructor]. apply rmw_ok; [by rewrite Hr|done].
    + destruct (bytes_eqb (Successor key) _); constructor; [by apply Hrt|constructor].
Qed.
End pieces.

Section pieces_splice.
Variables (n : nat) (d : DeleteRangeEntry) (key : bytes) (src : nat).
Hypothesis d_ok : entry_ok (Dr d).
Hypothesis key_bytes : byte_string key.
Hypothesis d_covers : covers key (Dr d).

Lemma key_not_empty : bytes_eqb (dr_key d) key = false -> key <> [].
Proof.
  intros E ->. pose proof d_covers as Hc. rewrite covers_dr in Hc. destruct Hc as [Hc _].
  apply bytes_le_lteq in Hc as [Hc|Hc]; [by apply bytes_lt_nil in Hc|]. by rewrite Hc in E.
Qed.

Lemma pieces_keys ph ph' sup sup' r : rmw_key r = key ->
  Forall (fun x => key_of x = key \/ key_of x = Successor key \/ exists e, Some (Dr d) = Some e /\ key_of x = key_of e)
    (left_interval ph d key sup ++ [Rmw r] ++ right_interval ph' d key sup').
Proof.
  intros Hr. unfold left_interval, right_interval. rewrite !Forall_app. split; [|split].
  - destruct (bytes_eqb _ _); constructor; [|constructor]. right. right. by exists (Dr d).
  - constructor; [by left|constructor].
  - destruct (bytes_eqb _ _); constructor; [|constructor]. right. by left.
Qed.

Lemma pieces_max ph ph' sup sup' r : rmw_key r = key ->
  Forall (fun x => exclusive_max (range_of x) = Successor key \/ (exclusive_max (range_of x) = key /\ key <> []) \/
     exists e, Some (Dr d) = Some e /\ exclusive_max (range_of x) = exclusive_max (range_of e))
    (left_interval ph d key sup ++ [Rmw r] ++ right_interval ph' d key sup').
Proof.
  intros Hr. unfold left_interval, right_interval. rewrite !Forall_app. split; [|split].
  - destruct (bytes_eqb (dr_key d) key) eqn:E; constructor; [|constructor]. right. left. split; [done|]. by apply key_not_empty.
  - constructor; [left; cbn; by rewrite Hr|constructor].
  - destruct (bytes_eqb (Successor key) _); constructor; [|constructor]. right. right. by exists (Dr d).
Qed.

Lemma pieces_forall (P : MutationEntry -> Prop) ph ph' sup sup' r :
  P (Dr (MkDr ph (dr_phase d) (dr_key d) key sup)) -> P (Rmw r) -> P (Dr (MkDr ph' (dr_phase d) (Successor key) (dr_exclusive_max d) sup')) ->
  Forall P (left_interval ph d key sup ++ [Rmw r] ++ right_interval ph' d key sup').
Proof.
  intros H1 H2 H3. unfold left_interval, right_interval. rewrite !Forall_app.
  split; [|split; [by repeat constructor|]]; destruct (bytes_eqb _ _); by repeat constructor.
Qed.

Lemma piece_bounds : bytes_eqb (dr_key d) key = false -> key = [] \/ bytes_lt (dr_key d) key.
Proof.
  intros E. right. pose proof d_covers as Hc. rewrite covers_dr in Hc. destruct Hc as [Hc _].
  apply bytes_le_lteq in Hc as [Hc|Hc]; [done|]. by rewrite Hc, (proj2 (bytes_eqb_spec _ _) eq_refl) in E.
Qed.

Lemma piece_bounds' : bytes_eqb (Successor key) (dr_exclusive_max d) = false ->
  dr_exclusive_max d = [] \/ bytes_lt (Successor key) (dr_exclusive_max d).
Proof.
  intros E. pose proof d_covers as Hc. rewrite covers_dr in Hc. destruct Hc as [_ [Hc|Hc]]; [by left|right].
  pose proof (Successor_le key (dr_exclusive_max d) (max_bytes _ d_ok) Hc) as Hs.
  apply bytes_le_lteq in Hs as [Hs|Hs]; [done|]. by rewrite Hs, (proj2 (bytes_eqb_spec _ _) eq_refl) in E.
Qed.

Lemma Successor_bytes : byte_string (Successor key).
Proof. apply Forall_app. split; [done|]. by repeat constructor. Qed.

Lemma filter_owner_none l : Forall (fun e => owner e = None) l -> filter (fun e => owner e = Some n) l = [].
Proof. induction 1 as [|e l He _ IH]; [done|]. rewrite filter_cons_False; congruence. Qed.

Lemma splice_prior_dr f : dr_phase d <> n ->
  splice_ok n key src (Some (Dr d))
    (left_interval true d key [] ++ [Rmw (MkRmw key (MkStep src n f) [])] ++ right_interval true d key []).
Proof.
  intros Hne. pose proof d_ok as [_ Hmin Hmax _]. cbn in Hmin, Hmax. split.
  - apply pieces_tree; [done..|constructor| |]; intros E.
    + apply piece_ok; [done|done|by apply piece_bounds|constructor|done|constructor].
    + apply piece_ok; [apply Successor_bytes|done|by apply piece_bounds'|constructor|done|constructor].
  - by apply pieces_keys.
  - by apply pieces_max.
  - apply pieces_forall; [right|by left|right]; (split; [done|]); by exists (Dr d).
  - intros k Hk. cbn zeta. rewrite !filter_app, !tree_effect_app.
    rewrite (filter_owner_none (left_interval _ _ _ _)), (filter_owner_none (right_interval _ _ _ _)) by
      (unfold left_interval, right_interval; destruct (bytes_eqb _ _); by repeat constructor).
    change (tree_effect k []) with (@None (bool * list nat)). cbn iota.
    pose proof (so_effect _ _ _ _ _ (splice_new n key src f key_bytes) k Hk) as Hs. cbn zeta in Hs. rewrite Hs.
    replace (filter (fun e => owner e = Some n) (option_list (Some (Dr d)))) with (@nil MutationEntry).
    2: { symmetry. change (option_list (Some (Dr d))) with [Dr d]. rewrite filter_cons_False; [done|]. cbn.
         destruct (placeholder d); congruence. }
    by destruct (bytes_eqb key k).
  - intros k Hk. unfold tree_view. rewrite pieces_at by done. change (option_list (Some (Dr d))) with [Dr d]. rewrite at_key_one.
    destruct (bytes_eqb key k) eqn:E.
    + apply bytes_eqb_spec in E as <-. by rewrite compare_bytes_refl.
    + destruct (compare_bytes key k) eqn:E'; [|by case_bool_decide..].
      apply compare_bytes_eq in E' as <-. by rewrite (proj2 (bytes_eqb_spec _ _) eq_refl) in E.
Qed.

(** The superseded entries of a range of the same phase are split at the key. *)
Lemma superseded_app k l1 l2 : superseded_steps k (l1 ++ l2) = superseded_steps k l1 ++ superseded_steps k l2.
Proof. unfold superseded_steps. by rewrite filter_app, bind_app. Qed.

Lemma superseded_none k l : Forall (fun r => rmw_key r <> k) l -> superseded_steps k l = [].
Proof. unfold superseded_steps. induction 1 as [|r l Hr _ IH]; [done|]. by rewrite filter_cons_False. Qed.

Lemma sources_app p l1 l2 : sources_in p (l1 ++ l2) = sources_in p l1 ++ sources_in p l2.
Proof. unfold sources_in. by rewrite filter_app, fmap_app. Qed.

Definition center_steps (center : option ReadModifyWriteEntry) : list Step :=
  match center with None => [] | Some c => fetch_and (latest c) (Z.lnot kDeleted) :: prev c end.

Lemma splice_same_dr f t0 c t1 : dr_phase d = n -> placeholder d = false ->
  find_split (compare_rmw key) (superseded d) = (t0, c, t1) ->
  splice_ok n key src (Some (Dr d))
    (left_interval false d key t0 ++ [Rmw (MkRmw key (MkStep src n f) (center_steps c))] ++ right_interval (placeholder d) d key t1).
Proof.
  intros Hph Hpl Hsplit. pose proof d_ok as [_ Hmin Hmax Hsup]. cbn in Hmin, Hmax, Hsup. destruct Hsup as (Hss & Hsup & _).
  destruct (find_split_sorted rmw_key key _ _ _ _ Hss Hsplit) as (Esup & Ht0 & Ht1 & Hc).
  rewrite Esup in Hss, Hsup. apply sorted_app in Hss as (Hs0 & Hs1 & _). apply sorted_app in Hs1 as (_ & Hs1 & _).
  rewrite !Forall_app in Hsup. destruct Hsup as (Hu0 & Huc & Hu1). rewrite Hpl.
  assert (Hcsteps : Forall (fun s => step_phase s <= n)%nat (center_steps c)).
  { destruct c as [r|]; [|constructor]. apply Forall_cons in Huc as [(_ & Hrp & Hrs & _) _]. constructor; [cbn; lia|].
    eapply Forall_impl; [exact Hrs|]. cbn. intros s. lia. }
  assert (Hks : forall k, byte_string k -> superseded_steps k (superseded d) =
     match compare_bytes key k with
     | Eq => match c with Some r => steps r | None => [] end
     | Gt => superseded_steps k t0
     | Lt => superseded_steps k t1
     end).
  { intros k Hk. rewrite Esup, !superseded_app. destruct (compare_bytes key k) eqn:E.
    - apply compare_bytes_eq in E as <-. rewrite (superseded_none key t0), (superseded_none key t1).
      + rewrite app_nil_r. destruct c as [r|]; [|done]. unfold superseded_steps.
        change (option_list (Some r)) with [r]. rewrite filter_cons_True by (by apply Hc). cbn. by rewrite app_nil_r.
      + eapply Forall_impl; [exact Ht1|]. cbn. intros r Hr E'. border.
      + eapply Forall_impl; [exact Ht0|]. cbn. intros r Hr E'. border.
    - assert (bytes_lt key k) by done. rewrite (superseded_none k t0), (superseded_none k (option_list c)); [done|..].
      + destruct c as [r|]; constructor; [|constructor]. intros E'. pose proof (Hc r eq_refl). border.
      + eapply Forall_impl; [exact Ht0|]. cbn. intros r Hr E'. border.
    - assert (bytes_lt k key) by (unfold bytes_lt; by rewrite compare_bytes_antisym, E).
      rewrite (superseded_none k t1), (superseded_none k (option_list c)); [by rewrite !app_nil_r|..].
      + destruct c as [r|]; constructor; [|constructor]. intros E'. pose proof (Hc r eq_refl). border.
      + eapply Forall_impl; [exact Ht1|]. cbn. intros r Hr E'. border. }
  assert (Hown : filter (fun e => owner e = Some n) (left_interval false d key t0 ++
     [Rmw (MkRmw key (MkStep src n f) (center_steps c))] ++ right_interval false d key t1) =
     left_interval false d key t0 ++ [Rmw (MkRmw key (MkStep src n f) (center_steps c))] ++ right_interval false d key t1).
  { assert (HF := pieces_forall (fun e => owner e = Some n) false false t0 t1 (MkRmw key (MkStep src n f) (center_steps c))).
    cbn [owner placeholder dr_phase latest step_phase] in HF. specialize (HF ltac:(congruence) eq_refl ltac:(congruence)).
    induction HF as [|e l He _ IH]; [done|]. by rewrite filter_cons_True, IH. }
  split.
  - apply pieces_tree; [done..| | |]; [exact Hcsteps| |]; intros E.
    + apply piece_ok; [done|done|by apply piece_bounds|done|done|].
      rewrite Forall_forall in *. intros r Hr. destruct (Hu0 r Hr) as (H1 & H2). split; [|done]. apply Contains_bounds in H1. cbn in H1.
      split; [tauto|]. right. by apply Ht0.
    + apply piece_ok; [apply Successor_bytes|done|by apply piece_bounds'|done|done|].
      rewrite Forall_forall in *. intros r Hr. destruct (Hu1 r Hr) as (H1 & H2). split; [|done]. apply Contains_bounds in H1. cbn in H1.
      split; [|tauto]. apply Successor_le; [|by apply Ht1]. by destruct H2 as (_ & _ & H2).
  - by apply pieces_keys.
  - by apply pieces_max.
  - apply pieces_forall; left; split; try done; cbn; congruence.
  - intros k Hk. cbn zeta. rewrite Hown. unfold tree_effect at 1. rewrite pieces_at by done.
    change (option_list (Some (Dr d))) with [Dr d].
    assert (Hf : filter (fun e => owner e = Some n) [Dr d] = [Dr d])
      by (rewrite filter_cons_True; [done|cbn; rewrite Hpl; congruence]).
    rewrite Hf. clear Hf.
    unfold tree_effect. rewrite (at_key_one k (Dr d)). specialize (Hks k Hk). destruct (bytes_eqb key k) eqn:E.
    + apply bytes_eqb_spec in E as <-. rewrite compare_bytes_refl in *. rewrite bool_decide_true by done.
      cbn [mbind option_bind entry_effect effect_sources latest step_phase]. rewrite Hks, Hph. unfold steps. cbn [latest prev].
      rewrite sources_in_cons by done. do 3 f_equal. destruct c as [r|]; [|done]. apply (sources_flags n (latest r)).
    + destruct (compare_bytes key k) eqn:E'.
      * apply compare_bytes_eq in E' as <-. by rewrite (proj2 (bytes_eqb_spec _ _) eq_refl) in E.
      * case_bool_decide; [|done]. cbn [mbind option_bind entry_effect dr_phase superseded]. by rewrite Hks.
      * case_bool_decide; [|done]. cbn [mbind option_bind entry_effect dr_phase superseded]. by rewrite Hks.
  - intros k Hk. unfold tree_view. rewrite pieces_at by done. change (option_list (Some (Dr d))) with [Dr d]. rewrite at_key_one.
    destruct (bytes_eqb key k) eqn:E.
    + apply bytes_eqb_spec in E as <-. by rewrite compare_bytes_refl.
    + destruct (compare_bytes key k) eqn:E'; [|by case_bool_decide..].
      apply compare_bytes_eq in E' as <-. by rewrite (proj2 (bytes_eqb_spec _ _) eq_refl) in E.
Qed.
End pieces_splice.

(** * The operation *)

(** The phase of the operation is not before the last one. *)
Definition not_before_last (m : MultiPhaseMutation) (phase : nat) : Prop :=
  match last_phase m with Some s => (phase_number s <= phase)%nat | None => True end.

Lemma GetCurrent_spec m phase : Inv m -> not_before_last m phase ->
  exists priors, GetCurrentSinglePhaseMutation m phase = (priors, MkPhase phase (last_entries m)) /\
    mutation_ok priors phase (last_entries m) /\
    (forall p, entries_of (mutation priors phase (last_entries m)) p = entries_of m p).
Proof.
  intros H Hn. unfold GetCurrentSinglePhaseMutation, not_before_last, last_entries in *. destruct m as [priors [[n l]|]]; cbn in *.
  - destruct (Nat.eqb_spec n phase) as [->|Hne]; cbn [negb].
    + exists priors. split; [done|]. split; [|done]. by apply mutation_ok_Inv.
    + exists (priors ++ [MkPhase n []]). split; [done|]. apply mutation_ok_Inv in H as [[H1 H2 H3] H4 H5 H6 H7 H8 H9].
      assert (Hall : all_entries (priors ++ [MkPhase n []]) = all_entries priors)
        by (unfold all_entries; rewrite bind_app; cbn; by rewrite app_nil_r).
      assert (Hsort : StronglySorted lt (phase_number <$> priors ++ [MkPhase n []])).
      { rewrite fmap_app. apply sorted_nat_app. split; [done|]. by apply Forall_fmap. }
      assert (Hown : Forall (fun e => phase_of e ∈ phase_number <$> priors ++ [MkPhase n []]) l).
      { eapply Forall_impl; [exact H7|]. intros e He. rewrite fmap_app, elem_of_app. destruct He as [->|He]; [right; by left|by left]. }
      assert (Hlast : Forall (fun s => phase_number s < phase)%nat (priors ++ [MkPhase n []])).
      { apply Forall_app. split; [eapply Forall_impl; [exact H5|]; cbn; intros s; lia|]. constructor; [cbn; lia|constructor]. }
      split; [|intros p; unfold entries_of, mutation; cbn [prior_phases]; fold (all_entries (priors ++ [MkPhase n []])); by rewrite Hall]. split; [|done|done|done| | |].
      * split; [apply Forall_app; split; [done|]; repeat constructor|apply Forall_app; split; [done|]; repeat constructor|by apply sorted_nat_NoDup].
      * eapply Forall_impl; [exact Hown|]. tauto.
      * rewrite Forall_forall. intros e He _ E. rewrite (Forall_forall _ l) in Hown. specialize (Hown e He).
        rewrite Forall_forall in Hlast. apply list_elem_of_fmap in Hown as (s & Es & Hs).
        specialize (Hlast s Hs). lia.
      * intros p Hp. rewrite Hall. destruct (decide (p = n)) as [->|Hpn]; [|by apply H9].
        rewrite filter_app, (no_last_in_priors priors n n) by done. by apply no_overlap_filter, ordered_no_overlap, H6.
  - destruct H as [_ _ _ _ _ _ _ Hno]. cbn in Hno. rewrite (Hno eq_refl). exists []. split; [done|]. split; [|done].
    split; [repeat constructor|constructor|constructor|repeat constructor|constructor|constructor|]. intros p Hp key Hk. cbn. lia.
Qed.

(** What an operation does, for a mutation with any last phase. *)
Definition operation_ok (m m' : MultiPhaseMutation) (phase : nat) (op : Operation) : Prop :=
  Inv m' /\ not_before_last m' phase /\
  (forall p k, byte_string k -> tree_effect k (entries_of m' p) =
     let old := tree_effect k (entries_of m p) in if (phase =? p)%nat then operation_effect k old op else old) /\
  (forall k, byte_string k -> tree_view k (last_entries m') =
     match op with
     | OpReadModifyWrite key src _ => if bytes_eqb key k then Some (Some src) else tree_view k (last_entries m)
     | OpDeleteRange range => if Contains range k then Some None else tree_view k (last_entries m)
     end).

Lemma step_operation m phase priors priors' l' op :
  (forall p, entries_of (mutation priors phase (last_entries m)) p = entries_of m p) ->
  step_ok priors phase (last_entries m) priors' l' op -> operation_ok m (mutation priors' phase l') phase op.
Proof.
  intros He [H1 _ H2 H3]. split; [by apply mutation_ok_Inv|]. split; [cbn; lia|]. split; [|exact H3].
  intros p k Hk. rewrite H2 by done. by rewrite He.
Qed.

Lemma ReadModifyWrite_ok m phase key src tf : Inv m -> not_before_last m phase -> byte_string key ->
  operation_ok m (ReadModifyWrite m phase key src tf).1 phase (OpReadModifyWrite key src tf).
Proof.
  intros H Hn Hkey. destruct (GetCurrent_spec m phase H Hn) as (priors & Eg & Hok & He).
  unfold ReadModifyWrite. rewrite Eg. cbn [entries phase_number].
  destruct (FindExistingEntryCoveringKey (last_entries m) key) as [[b f] a] eqn:Ef.
  destruct (find_existing_spec key _ b f a Hkey (mo_tree _ _ _ Hok) Ef) as (El & Hb & Ha & Hf).
  assert (Hstep : forall new, splice_ok phase key src f new ->
    operation_ok m (mutation (foldl (move_entry moved phase) priors (option_list f)) phase (b ++ new ++ a)) phase (OpReadModifyWrite key src tf)).
  { intros new Hs. eapply step_operation; [exact He|]. rewrite El in *. by eapply splice_step. }
  pose proof Hok as [_ _ Hlast [_ Hok'] Hown Hpl _]. rewrite El, !Forall_app in Hok', Hown, Hpl.
  destruct f as [[r|d]|].
  - specialize (Hf (Rmw r) eq_refl). apply covers_rmw in Hf; [|done]. subst key.
    destruct Hok' as (_ & [Hr _]%Forall_cons & _), Hown as (_ & [Hro _]%Forall_cons & _). cbn [phase_of] in Hro.
    assert (Hph : (step_phase (latest r) <= phase)%nat).
    { destruct Hro as [->|Hro]; [done|]. apply list_elem_of_fmap in Hro as (s & -> & Hs). rewrite Forall_forall in Hlast.
      specialize (Hlast s Hs). lia. }
    specialize (Hstep _ (splice_rmw phase r src (Z.land (Z.lor (flags (latest r)) kRevoked) kNonRetryable) (Z.lor (flags (latest r)) kRevoked) Hr Hph)).
    change (foldl (move_entry moved phase) priors (option_list (Some (Rmw r)))) with (move_entry moved phase priors (Rmw r)) in Hstep.
    rewrite <- insert_id in Hstep. exact Hstep.
  - specialize (Hf (Dr d) eq_refl). destruct Hok' as (_ & [Hd _]%Forall_cons & _), Hown as (_ & [Hdo _]%Forall_cons & _).
    destruct Hpl as (_ & [Hpl _]%Forall_cons & _). cbn [phase_of owner] in Hdo, Hpl.
    pose proof (insert_id priors phase (Dr d)) as Ei. cbn [phase_of moved] in Ei.
    change (foldl (move_entry moved phase) priors (option_list (Some (Dr d)))) with (move_entry moved phase priors (Dr d)) in Hstep.
    destruct (Nat.eqb_spec (dr_phase d) phase) as [E|E]; cbn [negb] in *.
    + destruct (find_split (compare_rmw key) (superseded d)) as [[t0 c] t1] eqn:Es.
      assert (Hpd : placeholder d = false) by (destruct (placeholder d); [by destruct Hpl|done]).
      pose proof (Hstep _ (splice_same_dr phase d key src Hd Hkey Hf
        (Z.lor (Z.lor 0 tf) (Z.lor kPrevDeleted kTransitivelyUnconditional)) t0 c t1 E Hpd Es)) as Hs. rewrite <- Ei in Hs. exact Hs.
    + pose proof (Hstep _ (splice_prior_dr phase d key src Hd Hkey Hf
        (Z.lor (Z.lor 0 tf) (Z.lor kPrevDeleted kTransitivelyUnconditional)) E)) as Hs. rewrite <- Ei in Hs. exact Hs.
  - apply (Hstep [Rmw (MkRmw key (MkStep src phase (Z.lor 0 tf)) [])]). by apply splice_new.
Qed.
