(* ===== verification/TransactionDeletes.v ===== *)
(** Staged mutations: deletion of a range. *)

From stdpp Require Import sorting.
From S2P Require Import Prelude Bytes KeyRange TransactionPhases TransactionSpec TransactionMoves TransactionWrites.

(** * The loop, field by field *)

Section delete.
Variables (range : KeyRange) (n : nat).

(** What an entry in the range contributes to the new entries. *)
Definition left_of (e : MutationEntry) : list MutationEntry :=
  match e with
  | Rmw _ => []
  | Dr e =>
      if negb (dr_phase e =? n)%nat && bytes_ltb (dr_key e) (inclusive_min range)
      then [Dr (MkDr true (dr_phase e) (dr_key e) (inclusive_min range) [])] else []
  end.
Definition right_of (e : MutationEntry) : list MutationEntry :=
  match e with
  | Rmw _ => []
  | Dr e =>
      if negb (dr_phase e =? n)%nat &&
         match CompareExclusiveMax (exclusive_max range) (dr_exclusive_max e) with Lt => true | _ => false end
      then [Dr (MkDr true (dr_phase e) (exclusive_max range) (dr_exclusive_max e) [])] else []
  end.
Definition superseded_of (e : MutationEntry) : list ReadModifyWriteEntry :=
  match e with
  | Rmw r => if (step_phase (latest r) =? n)%nat
      then [with_latest r (fetch_or (EnsureRevoked (latest r)) kDeleted)] else []
  | Dr d => if (dr_phase d =? n)%nat then superseded d else []
  end.
Definition extends (e : MutationEntry) : option DeleteRangeEntry :=
  match e with Rmw _ => None | Dr d => if (dr_phase d =? n)%nat then Some d else None end.

Definition join_entry (new_entry : option DeleteRangeEntry) (e : MutationEntry) : option DeleteRangeEntry :=
  match extends e with
  | None => new_entry
  | Some d =>
      Some (match new_entry with
            | None => d
            | Some n => MkDr (placeholder n) (dr_phase n) (dr_key n) (dr_exclusive_max d) (superseded n)
            end)
  end.

Definition add_superseded (l : list ReadModifyWriteEntry) (e : MutationEntry) : list ReadModifyWriteEntry :=
  match e with
  | Rmw r => match superseded_of e with
             | [r] => find_or_insert (compare_rmw (rmw_key r)) r l
             | _ => l
             end
  | Dr _ => l ++ superseded_of e
  end.

Lemma delete_existing_entry_eq st e : delete_existing_entry range n st e =
  MkDeleteState (move_entry moved n (ds_priors st) e) (ds_left st ++ left_of e) (right_of e ++ ds_right st)
    (join_entry (ds_new_entry st) e) (add_superseded (ds_superseded st) e).
Proof.
  unfold delete_existing_entry, move_entry, left_of, right_of, join_entry, extends, add_superseded, superseded_of, MakeDeleteRangeEntry.
  destruct st as [P L R N S]. cbn [ds_priors ds_left ds_right ds_new_entry ds_superseded]. destruct e as [r|d]; cbn [phase_of moved].
  - cbn [with_latest latest EnsureRevoked fetch_or with_flags step_phase rmw_key].
    destruct (step_phase (latest r) =? n)%nat; cbn [negb]; by rewrite !app_nil_r.
  - destruct (dr_phase d =? n)%nat; cbn [negb andb inclusive_min exclusive_max]; rewrite ?app_nil_r; [done|].
    destruct (bytes_ltb _ _), (CompareExclusiveMax _ _); rewrite ?app_nil_r; done.
Qed.

Lemma delete_loop_eq l : forall st st' a, delete_existing_entries range n st l = (st', a) ->
  exists mid, l = mid ++ a /\ Forall (fun e => behind range e = false) mid /\
    match a with [] => True | e :: _ => behind range e = true end /\
    st' = MkDeleteState (foldl (move_entry moved n) (ds_priors st) mid) (ds_left st ++ (mid ≫= left_of))
      (foldl (fun acc e => right_of e ++ acc) (ds_right st) mid) (foldl join_entry (ds_new_entry st) mid)
      (foldl add_superseded (ds_superseded st) mid).
Proof.
  induction l as [|e l IH]; intros st st' a; cbn.
  - intros [= <- <-]. exists []. destruct st. cbn. rewrite app_nil_r. repeat split. constructor.
  - destruct (behind range e) eqn:E.
    + intros [= <- <-]. exists []. destruct st. cbn. rewrite app_nil_r. repeat split; [constructor|done].
    + intros H. destruct (IH _ _ _ H) as (mid & -> & Hm & Ha & ->). exists (e :: mid). split; [done|].
      split; [by constructor|]. split; [done|]. rewrite delete_existing_entry_eq. cbn. by rewrite app_assoc.
Qed.

(** * The entries around the range *)

Variables (b mid a : list MutationEntry).
Hypothesis tree : tree_ok (b ++ mid ++ a).
Hypothesis min_string : byte_string (inclusive_min range).
Hypothesis max_string : byte_string (exclusive_max range).
Hypothesis not_empty : exclusive_max range = [] \/ bytes_lt (inclusive_min range) (exclusive_max range).
Hypothesis b_before : Forall (fun e => before_range range e = true) b.
Hypothesis rest_head : match mid ++ a with [] => True | e :: _ => before_range range e = false end.
Hypothesis mid_not_behind : Forall (fun e => behind range e = false) mid.
Hypothesis a_behind : match a with [] => True | e :: _ => behind range e = true end.

Lemma tree_parts : (tree_ok b /\ tree_ok mid /\ tree_ok a) /\
  Forall (fun y => Forall (entry_before y) mid) b /\ Forall (fun y => Forall (entry_before y) a) b /\
  Forall (fun y => Forall (entry_before y) a) mid.
Proof.
  destruct tree as [Ho Hok]. rewrite !Forall_app in Hok. rewrite !ordered_app in Ho.
  destruct Ho as (H1 & (H2 & H3 & H4) & H5), Hok as (H6 & H7 & H8). repeat split; try done;
    eapply Forall_impl; try exact H5; intros y Hy; rewrite Forall_app in Hy; tauto.
Qed.

Lemma before_range_spec e : entry_ok e -> before_range range e = true <-> past (inclusive_min range) (exclusive_max (range_of e)).
Proof.
  intros He. destruct e as [r|d]; cbn [before_range].
  - rewrite bytes_ltb_spec. cbn. unfold past. split.
    + intros H. split; [by destruct (rmw_key r)|]. by apply Successor_le.
    + intros [_ H]. pose proof (Successor_lt (rmw_key r)). unfold Successor in *. border.
  - apply Compare_past.
Qed.

Lemma behind_spec e : behind range e = true <-> past (key_of e) (exclusive_max range).
Proof. apply Compare_past. Qed.

Lemma b_past e : e ∈ b -> past (inclusive_min range) (exclusive_max (range_of e)).
Proof.
  intros He. destruct tree_parts as (([_ Hb] & _) & _). rewrite Forall_forall in Hb, b_before.
  apply before_range_spec; [by apply Hb|by apply b_before].
Qed.

Lemma rest_not_past e : e ∈ mid ++ a -> exclusive_max (range_of e) = [] \/ bytes_lt (inclusive_min range) (exclusive_max (range_of e)).
Proof.
  intros He. destruct tree as [Ho Hok]. apply Forall_app in Hok as [_ Hok]. apply ordered_app in Ho as (_ & Ho & _).
  destruct (mid ++ a) as [|h t] eqn:E; [by apply elem_of_nil in He|]. apply Forall_cons in Hok as [Hh Ht].
  assert (Hhead : exclusive_max (range_of h) = [] \/ bytes_lt (inclusive_min range) (exclusive_max (range_of h))).
  { destruct (below_or_past (inclusive_min range) (exclusive_max (range_of h))) as [H|H]; [done|].
    apply before_range_spec in H; [|done]. congruence. }
  apply elem_of_cons in He as [->|He]; [done|]. apply ordered_cons in Ho as [_ Hb]. rewrite Forall_forall in Hb, Ht.
  destruct (Hb e He) as [H1 H2]. destruct Hhead as [?|H3]; [done|]. destruct (Ht e He) as [Hr _ _ _].
  apply empty_false_spec in Hr. rewrite inclusive_min_range_of in Hr. destruct Hr as [|Hr]; [by left|right]. border.
Qed.

Lemma mid_min e : e ∈ mid -> exclusive_max (range_of e) = [] \/ bytes_lt (inclusive_min range) (exclusive_max (range_of e)).
Proof. intros He. apply rest_not_past, elem_of_app. by left. Qed.

Lemma mid_max e : e ∈ mid -> exclusive_max range = [] \/ bytes_lt (key_of e) (exclusive_max range).
Proof.
  intros He. rewrite Forall_forall in mid_not_behind. destruct (below_or_past (key_of e) (exclusive_max range)) as [H|H]; [done|].
  apply behind_spec in H. by rewrite mid_not_behind in H.
Qed.

Lemma a_past e : e ∈ a -> past (key_of e) (exclusive_max range).
Proof.
  intros He. destruct tree_parts as ((_ & _ & [Ho Hok]) & _). destruct a as [|h t]; [by apply elem_of_nil in He|].
  apply behind_spec in a_behind. apply elem_of_cons in He as [->|He]; [done|]. apply ordered_cons in Ho as [_ Hb].
  apply Forall_cons in Hok as [Hh _]. rewrite Forall_forall in Hb. destruct a_behind as [H1 H2]. split; [done|].
  pose proof (before_keys h e Hh (Hb e He)). border.
Qed.

(** A read-modify-write entry that is reached is in the range. *)
Lemma mid_rmw r : Rmw r ∈ mid -> Contains range (rmw_key r) = true.
Proof.
  intros Hr. apply Contains_bounds. split; [|by apply mid_max in Hr]. apply mid_min in Hr. cbn in Hr.
  destruct Hr as [Hr|Hr]; [by destruct (rmw_key r)|]. apply bytes_not_lt. intros Hlt.
  pose proof (Successor_le (rmw_key r) (inclusive_min range) min_string Hlt). unfold Successor in *. border.
Qed.

(** Two entries of the middle are apart. *)
Lemma mid_apart e e' : e ∈ mid -> e' ∈ mid -> e = e' \/ entry_before e e' \/ entry_before e' e.
Proof.
  destruct tree_parts as ((_ & [Ho _] & _) & _). clear -Ho. intros He He'.
  induction Ho as [|h t _ IH Hh]; [by apply elem_of_nil in He|]. rewrite Forall_forall in Hh.
  apply elem_of_cons in He as [->|He]; apply elem_of_cons in He' as [->|He']; auto.
Qed.

Lemma mid_ok e : e ∈ mid -> entry_ok e.
Proof. intros He. destruct tree_parts as ((_ & [_ Hok] & _) & _). rewrite Forall_forall in Hok. by apply Hok. Qed.

(** Only one entry of the middle starts before the range, and only one ends behind it. *)
Lemma one_left e e' : e ∈ mid -> e' ∈ mid -> bytes_lt (key_of e) (inclusive_min range) ->
  e = e' \/ bytes_lt (inclusive_min range) (key_of e').
Proof.
  intros He He' Hlt. destruct (mid_apart e e' He He') as [|[[H1 H2]|[H1 H2]]]; [by left|right|].
  - destruct (mid_min e He); [done|]. border.
  - destruct (mid_min e' He'); [done|]. border.
Qed.

Lemma one_right e e' : e ∈ mid -> e' ∈ mid -> exclusive_max range <> [] ->
  (exclusive_max (range_of e) = [] \/ bytes_lt (exclusive_max range) (exclusive_max (range_of e))) ->
  e = e' \/ (exclusive_max (range_of e') <> [] /\ bytes_lt (exclusive_max (range_of e')) (exclusive_max range)).
Proof.
  intros He He' Hne Hlt. destruct (mid_apart e e' He He') as [|[[H1 H2]|[H1 H2]]]; [by left| |right].
  - destruct Hlt as [?|Hlt]; [done|]. destruct (mid_max e' He'); [done|]. border.
  - split; [done|]. destruct (mid_max e He); [done|]. border.
Qed.

(** * The new entry *)

Definition same_phase (d : DeleteRangeEntry) : Prop := Dr d ∈ mid /\ dr_phase d = n.

(** An exclusive bound is at least another one. *)
Definition bound_le (x y : bytes) : Prop := y = [] \/ (x <> [] /\ bytes_le x y).

Lemma below_bound_le k x y : bound_le x y -> below k x -> below k y.
Proof. intros [->|[H1 H2]] [H3|H3]; [by left..|done|right; border]. Qed.

Lemma list_last_cons {A} (x d : A) l : List.last (x :: l) d = List.last l x.
Proof.
  revert x d. induction l as [|y l IH]; intros x d; [done|].
  change (List.last (x :: y :: l) d) with (List.last (y :: l) d). by rewrite !IH.
Qed.

(** The first and the last range of the phase. *)
Lemma join_entries l : forall d, foldl join_entry (Some d) l =
  Some (MkDr (placeholder d) (dr_phase d) (dr_key d) (List.last (dr_exclusive_max <$> omap extends l) (dr_exclusive_max d)) (superseded d)).
Proof.
  induction l as [|e l IH]; intros d; [by destruct d|]. cbn [foldl]. unfold join_entry at 2. cbn [omap list_omap].
  destruct (extends e) as [d'|]; [|by rewrite IH]. rewrite IH. cbn [placeholder dr_phase dr_key dr_exclusive_max superseded].
  by rewrite fmap_cons, list_last_cons.
Qed.

Lemma extends_Some e d : extends e = Some d <-> e = Dr d /\ dr_phase d = n.
Proof.
  destruct e as [r|d']; cbn; [split; [done|by intros []]|]. destruct (Nat.eqb_spec (dr_phase d') n); split.
  - by intros [= ->].
  - by intros [[= ->] _].
  - done.
  - intros [[= ->] ?]. done.
Qed.

(** The bounds that the loop finds, over the middle from any point on. *)
Lemma joined_bounds l : ordered l -> Forall entry_ok l ->
  match foldl join_entry None l with
  | None => forall d, Dr d ∈ l -> dr_phase d <> n
  | Some j =>
      (exists d, Dr d ∈ l /\ dr_phase d = n /\ dr_key j = dr_key d /\ placeholder j = placeholder d /\ dr_phase j = n) /\
      (exists d, Dr d ∈ l /\ dr_phase d = n /\ dr_exclusive_max j = dr_exclusive_max d) /\
      (forall d, Dr d ∈ l -> dr_phase d = n -> bytes_le (dr_key j) (dr_key d) /\ bound_le (dr_exclusive_max d) (dr_exclusive_max j))
  end.
Proof.
  induction l as [|e l IH]; [by intros _ _ d ?%elem_of_nil|]. rewrite ordered_cons, Forall_cons. intros [Ho Hb] [He Hok].
  specialize (IH Ho Hok). cbn [foldl]. unfold join_entry at 2. destruct (extends e) as [d|] eqn:Ee.
  - apply extends_Some in Ee as [-> Hd]. clear IH. rewrite join_entries. cbn [dr_key dr_exclusive_max placeholder dr_phase].
    split; [exists d; split; [by left|done]|].
    assert (Hlast : forall l, ordered l -> Forall (entry_before (Dr d)) l -> Forall entry_ok l ->
      (exists d', Dr d' ∈ Dr d :: l /\ dr_phase d' = n /\ List.last (dr_exclusive_max <$> omap extends l) (dr_exclusive_max d) = dr_exclusive_max d') /\
      (forall d', Dr d' ∈ Dr d :: l -> dr_phase d' = n -> bound_le (dr_exclusive_max d') (List.last (dr_exclusive_max <$> omap extends l) (dr_exclusive_max d)))).
    2: { destruct (Hlast l Ho Hb Hok) as [H1 H2]. split; [done|]. intros d' Hd' Hp. split; [|by apply H2].
         apply elem_of_cons in Hd' as [[= ->]|Hd']; [border|]. rewrite Forall_forall in Hb.
         pose proof (before_keys _ _ He (Hb _ Hd')) as H. cbn in H. border. }
    clear -Hd He. revert d Hd He. intros d Hd He l. revert d Hd He. induction l as [|e l IH]; intros d Hd He Ho Hb Hok.
    + cbn. split; [exists d; split; [by left|done]|]. intros d' Hd' _. apply elem_of_cons in Hd' as [[= ->]|Hd']; [|by apply elem_of_nil in Hd'].
      destruct (dr_exclusive_max d) eqn:E; [by left|right]. split; [done|border].
    + apply ordered_cons in Ho as [Ho Hbe]. apply Forall_cons in Hb as [Hbe' Hb], Hok as [Hoke Hok].
      cbn [omap list_omap]. destruct (extends e) as [d1|] eqn:Ee.
      * apply extends_Some in Ee as [-> Hd1]. rewrite fmap_cons.
        replace (List.last (dr_exclusive_max d1 :: (dr_exclusive_max <$> omap extends l)) (dr_exclusive_max d))
          with (List.last (dr_exclusive_max <$> omap extends l) (dr_exclusive_max d1)) by (by rewrite list_last_cons).
        destruct (IH d1 Hd1 Hoke Ho Hbe Hok) as [(d2 & H2 & H3 & H4) H5]. split.
        { exists d2. split; [by right|done]. }
        intros d' Hd' Hp. apply elem_of_cons in Hd' as [[= ->]|Hd']; [|by apply H5].
        destruct (H5 d1 ltac:(by left) Hd1) as [->|[H6 H7]]; [by left|right]. destruct Hbe' as [H8 H9]. cbn in H8, H9.
        split; [done|]. destruct Hoke as [Hr _ _ _]. apply empty_false_spec in Hr as [|Hr]; [done|]. cbn in Hr. border.
      * destruct (IH d Hd He Ho Hb Hok) as [(d2 & H2 & H3 & H4) H5]. split.
        { exists d2. split; [|done]. apply elem_of_cons in H2 as [->|H2]; [by left|by right; right]. }
        intros d' Hd' Hp. apply H5; [|done]. apply elem_of_cons in Hd' as [->|Hd']; [by left|]. apply elem_of_cons in Hd' as [<-|Hd']; [|by right].
        assert (extends (Dr d') = Some d') by (by apply extends_Some). congruence.
  - assert (Hne : forall d, Dr d ∈ e :: l -> dr_phase d = n -> Dr d ∈ l).
    { intros d Hd Hp. apply elem_of_cons in Hd as [<-|Hd]; [|done]. assert (extends (Dr d) = Some d) by (by apply extends_Some). congruence. }
    destruct (foldl join_entry None l) as [j|].
    + destruct IH as ((d1 & H1 & H1') & (d2 & H2 & H2') & H3). split; [exists d1; split; [by right|done]|].
      split; [exists d2; split; [by right|done]|]. auto.
    + intros d Hd Hp. by apply (IH d); [auto|].
Qed.

Definition new_range : DeleteRangeEntry := extend_entry range n (foldl join_entry None mid).

Lemma new_range_spec :
  dr_phase new_range = n /\
  (dr_key new_range = inclusive_min range \/ exists d, same_phase d /\ dr_key new_range = dr_key d /\ bytes_le (dr_key d) (inclusive_min range)) /\
  (dr_exclusive_max new_range = exclusive_max range \/
   exists d, same_phase d /\ dr_exclusive_max new_range = dr_exclusive_max d /\ bound_le (exclusive_max range) (dr_exclusive_max d)) /\
  bytes_le (dr_key new_range) (inclusive_min range) /\ bound_le (exclusive_max range) (dr_exclusive_max new_range) /\
  (forall d, same_phase d -> bytes_le (dr_key new_range) (dr_key d) /\ bound_le (dr_exclusive_max d) (dr_exclusive_max new_range)).
Proof.
  destruct tree_parts as ((_ & [Ho Hok] & _) & _). pose proof (joined_bounds mid Ho Hok) as H. unfold new_range.
  assert (Hrefl : forall x, bound_le x x) by (intros [|y x]; [by left|right; split; [done|border]]).
  destruct (foldl join_entry None mid) as [j|]; cbn.
  - destruct H as ((d1 & Hd1 & Hp1 & Ek & _ & Hpj) & (d2 & Hd2 & Hp2 & Em) & Hall). split; [done|].
    pose proof (CompareExclusiveMax_spec (exclusive_max range) (dr_exclusive_max j)) as Hc.
    assert (Hm : bound_le (exclusive_max range) (dr_exclusive_max j) \/ CompareExclusiveMax (exclusive_max range) (dr_exclusive_max j) = Gt).
    { destruct (CompareExclusiveMax _ _); [left; by rewrite Hc|left|by right]. destruct Hc as [Hc1 [Hc2|Hc2]]; [by left|right].
      split; [done|border]. }
    split; [|split; [|split; [|split]]].
    + destruct (bytes_ltb (inclusive_min range) (dr_key j)) eqn:E; [by left|right]. exists d1. split; [done|]. split; [done|].
      rewrite <- Ek. apply bytes_not_lt. rewrite <- bytes_ltb_spec, E. done.
    + destruct Hm as [Hm|Hm]; [|rewrite Hm; by left]. destruct (CompareExclusiveMax _ _) eqn:E; [| |by left]; right; exists d2; rewrite <- Em; done.
    + destruct (bytes_ltb (inclusive_min range) (dr_key j)) eqn:E; [border|]. apply bytes_not_lt. rewrite <- bytes_ltb_spec, E. done.
    + destruct Hm as [Hm|Hm]; [|rewrite Hm; apply Hrefl]. destruct (CompareExclusiveMax _ _); [done..|apply Hrefl].
    + intros d [Hd Hp]. destruct (Hall d Hd Hp) as [H1 H2]. split.
      * destruct (bytes_ltb (inclusive_min range) (dr_key j)) eqn:E; [|done]. apply bytes_ltb_spec in E. border.
      * destruct (CompareExclusiveMax _ _); [done..|]. destruct Hc as [Hc1 [Hc2|Hc2]]; [by left|right].
        destruct H2 as [?|[H2 H3]]; [done|]. split; [done|border].
  - split; [done|]. split; [by left|]. split; [by left|]. split; [border|]. split; [apply Hrefl|]. intros d [Hd Hp]. by destruct (H d Hd).
Qed.

(** The keys of the new entry are those of the range and of the entries it extends. *)
Lemma new_range_covers k : covers k (Dr new_range) <-> Contains range k = true \/ exists d, same_phase d /\ covers k (Dr d).
Proof.
  destruct new_range_spec as (_ & HK & HM & Hmin & Hmax & Hall). rewrite covers_dr. split.
  - intros [H1 H2]. destruct (bytes_le_total (inclusive_min range) k) as [Hk|Hk].
    + destruct (below_or_past k (exclusive_max range)) as [Hb|[Hp1 Hp2]]; [left; by apply Contains_bounds|right].
      destruct HM as [E|(d & Hd & E & Hle)]; [rewrite E in H2; destruct H2 as [?|H2]; [done|border]|].
      exists d. split; [done|]. rewrite covers_dr, <- E. split; [|done]. destruct Hd as [Hd _]. destruct (mid_max _ Hd) as [?|Hlt]; [done|].
      cbn in Hlt. border.
    + right. destruct HK as [E|(d & Hd & E & Hle)]; [rewrite E in H1; border|]. exists d. split; [done|]. rewrite covers_dr. split; [by rewrite <- E|].
      destruct Hd as [Hd _]. destruct (mid_min _ Hd) as [?|Hlt]; [by left|right]. cbn in Hlt. border.
  - intros [[H1 H2]%Contains_bounds|(d & Hd & [H1 H2]%covers_dr)].
    + split; [border|]. by apply (below_bound_le k (exclusive_max range)).
    + destruct (Hall d Hd) as [H3 H4]. split; [border|]. by apply (below_bound_le k (dr_exclusive_max d)).
Qed.

(** * The superseded entries *)

Lemma find_or_insert_last r l : Forall (fun x => bytes_lt (rmw_key x) (rmw_key r)) l ->
  find_or_insert (compare_rmw (rmw_key r)) r l = l ++ [r].
Proof.
  intros H. unfold find_or_insert. assert (Hs : find_split (compare_rmw (rmw_key r)) l = (l, None, [])).
  { induction H as [|x l Hx _ IH]; [done|]. cbn. unfold compare_rmw at 1. rewrite compare_bytes_antisym. unfold bytes_lt in Hx.
    by rewrite Hx, IH. }
  by rewrite Hs.
Qed.

(** The entries that an entry of a tree brings are for keys that it covers. *)
Lemma superseded_of_covers e r : entry_ok e -> r ∈ superseded_of e ->
  covers (rmw_key r) e /\ step_phase (latest r) = n /\ steps_ok r /\ byte_string (rmw_key r).
Proof.
  intros He Hr. pose proof He as [_ Hmin _ Hs]. destruct e as [x|d]; cbn in Hr, Hs, Hmin.
  - destruct (Nat.eqb_spec (step_phase (latest x)) n) as [E|]; [|by apply elem_of_nil in Hr].
    apply list_elem_of_singleton in Hr as ->. cbn. split; [by apply covers_rmw|]. done.
  - destruct (Nat.eqb_spec (dr_phase d) n) as [E|]; [|by apply elem_of_nil in Hr]. destruct Hs as (_ & Hs & _).
    rewrite Forall_forall in Hs. destruct (Hs r Hr) as (H1 & H2 & H3). split; [done|]. split; [congruence|done].
Qed.

Lemma covers_between k e e' : entry_ok e' -> covers k e -> entry_before e e' -> bytes_lt k (key_of e').
Proof. unfold covers. rewrite Contains_bounds. intros _ [_ [?|H]] [H1 H2]; [done|]. border. Qed.

Lemma superseded_joined l : ordered l -> Forall entry_ok l -> forall acc,
  Forall (fun r => Forall (fun e => bytes_lt (rmw_key r) (key_of e)) l) acc ->
  foldl add_superseded acc l = acc ++ (l ≫= superseded_of).
Proof.
  induction l as [|e l IH]; intros Ho Hok acc Hacc; [cbn; by rewrite app_nil_r|].
  apply ordered_cons in Ho as [Ho Hb]. apply Forall_cons in Hok as [He Hok]. rewrite bind_cons. cbn [foldl].
  assert (Hadd : add_superseded acc e = acc ++ superseded_of e).
  { unfold add_superseded. destruct e as [r|d]; [|done]. cbn [superseded_of]. destruct (_ =? _)%nat; [|by rewrite app_nil_r].
    apply find_or_insert_last. eapply Forall_impl; [exact Hacc|]. intros x Hx. by apply Forall_cons in Hx as [Hx _]. }
  rewrite Hadd, IH; [by rewrite app_assoc|done|done|]. apply Forall_app. split.
  - eapply Forall_impl; [exact Hacc|]. intros x Hx. by apply Forall_cons in Hx as [_ Hx].
  - rewrite Forall_forall in Hb, Hok. apply Forall_forall. intros r Hr. apply Forall_forall. intros e' He'. destruct (superseded_of_covers e r He Hr) as [Hc _].
    by eapply covers_between; [apply Hok|exact Hc|apply Hb].
Qed.

Lemma superseded_sorted l : ordered l -> Forall entry_ok l -> StronglySorted bytes_lt (rmw_key <$> (l ≫= superseded_of)).
Proof.
  induction l as [|e l IH]; intros Ho Hok; [constructor|].
  apply ordered_cons in Ho as [Ho Hb]. apply Forall_cons in Hok as [He Hok]. rewrite bind_cons. apply sorted_app. split; [|split].
  - destruct e as [r|d]; cbn; destruct (_ =? _)%nat; try constructor; try constructor. destruct He as [_ _ _ Hs]. by destruct Hs.
  - by apply IH.
  - rewrite Forall_forall in Hb, Hok. apply Forall_forall. intros r Hr. apply Forall_forall. intros r' Hr'. apply list_elem_of_bind in Hr' as (e' & Hr' & He').
    destruct (superseded_of_covers e r He Hr) as [Hc _], (superseded_of_covers e' r' (Hok e' He') Hr') as [Hc' _].
    pose proof (covers_between _ _ _ (Hok e' He') Hc (Hb e' He')) as Hlt. unfold covers in Hc'. rewrite Contains_bounds, inclusive_min_range_of in Hc'.
    destruct Hc' as [Hc' _]. border.
Qed.

Hypothesis mid_placeholders : Forall (fun e => owner e = None -> phase_of e <> n) mid.

Lemma superseded_sources k l : byte_string k -> ordered l -> Forall entry_ok l -> Forall (fun e => owner e = None -> phase_of e <> n) l ->
  sources_in n (superseded_steps k (l ≫= superseded_of)) =
  effect_sources (tree_effect k (filter (fun e => owner e = Some n) l)).
Proof.
  intros Hk. induction l as [|e l IH]; intros Ho Hok Hpl; [done|].
  apply ordered_cons in Ho as [Ho Hb]. apply Forall_cons in Hok as [He Hok], Hpl as [Hple Hpl]. specialize (IH Ho Hok Hpl).
  rewrite bind_cons, superseded_app, sources_app.
  destruct (decide (covers k e)) as [Hc|Hc].
  - rewrite (superseded_none k (l ≫= superseded_of)).
    2: { rewrite Forall_forall in Hb, Hok. apply Forall_forall. intros r Hr E. apply list_elem_of_bind in Hr as (e' & Hr & He').
         destruct (superseded_of_covers e' r (Hok e' He') Hr) as [Hc' _]. rewrite E in Hc'. by apply (before_not_covers e e' k (Hb e' He')). }
    change (sources_in n []) with (@nil nat). rewrite app_nil_r.
    assert (Hl : tree_effect k (filter (fun e => owner e = Some n) l) = None).
    { apply tree_effect_none, Forall_filter_any. eapply Forall_impl; [exact Hb|]. intros e' He'. by eapply before_not_covers. }
    destruct (decide (owner e = Some n)) as [Eo|Eo].
    + rewrite filter_cons_True by done. unfold tree_effect. rewrite at_key_cons_True by done. cbn [mbind option_bind].
      destruct e as [r|d]; cbn [owner] in Eo.
      * injection Eo as Eo. cbn [superseded_of entry_effect effect_sources]. rewrite Eo, Nat.eqb_refl. unfold superseded_steps.
        apply covers_rmw in Hc; [|done]. rewrite filter_cons_True by (cbn; congruence). cbn [mbind list_bind].
        change (filter _ []) with (@nil ReadModifyWriteEntry). cbn [mbind list_bind]. rewrite app_nil_r.
        apply (sources_flags n (latest r)).
      * destruct (placeholder d); [done|]. injection Eo as Eo. cbn [superseded_of entry_effect effect_sources]. by rewrite Eo, Nat.eqb_refl.
    + rewrite filter_cons_False, Hl by done. replace (superseded_of e) with (@nil ReadModifyWriteEntry); [done|].
      destruct e as [r|d]; cbn in Eo, Hple |- *.
      * destruct (Nat.eqb_spec (step_phase (latest r)) n); [congruence|done].
      * destruct (Nat.eqb_spec (dr_phase d) n) as [E|]; [|done]. destruct (placeholder d); [by destruct Hple|congruence].
  - rewrite (superseded_none k (superseded_of e)).
    2: { apply Forall_forall. intros r Hr E. destruct (superseded_of_covers e r He Hr) as [Hc' _]. by rewrite E in Hc'. }
    cbn [app]. change (sources_in n []) with (@nil nat). cbn [app]. rewrite IH.
    destruct (decide (owner e = Some n)) as [Eo|Eo]; [rewrite filter_cons_True by done|by rewrite filter_cons_False by done].
    unfold tree_effect. by rewrite at_key_cons_False.
Qed.

(** * The new tree *)

Definition lefts : list MutationEntry := mid ≫= left_of.
Definition rights : list MutationEntry := reverse mid ≫= right_of.
Definition new_entry : MutationEntry :=
  Dr (MkDr (placeholder new_range) (dr_phase new_range) (dr_key new_range) (dr_exclusive_max new_range) (mid ≫= superseded_of)).

Lemma lefts_spec x : x ∈ lefts <-> exists d, Dr d ∈ mid /\ dr_phase d <> n /\ bytes_lt (dr_key d) (inclusive_min range) /\
  x = Dr (MkDr true (dr_phase d) (dr_key d) (inclusive_min range) []).
Proof.
  unfold lefts. rewrite list_elem_of_bind. split.
  - intros (e & Hx & He). destruct e as [r|d]; cbn in Hx; [by apply elem_of_nil in Hx|].
    destruct (Nat.eqb_spec (dr_phase d) n), (bytes_ltb (dr_key d) _) eqn:E; cbn in Hx; try by apply elem_of_nil in Hx.
    apply list_elem_of_singleton in Hx as ->. apply bytes_ltb_spec in E. by exists d.
  - intros (d & Hd & Hp & Hlt & ->). exists (Dr d). split; [|done]. cbn. apply bytes_ltb_spec in Hlt.
    rewrite Hlt. destruct (Nat.eqb_spec (dr_phase d) n); [done|]. by left.
Qed.

Lemma rights_spec x : x ∈ rights <-> exists d, Dr d ∈ mid /\ dr_phase d <> n /\ exclusive_max range <> [] /\
  (dr_exclusive_max d = [] \/ bytes_lt (exclusive_max range) (dr_exclusive_max d)) /\
  x = Dr (MkDr true (dr_phase d) (exclusive_max range) (dr_exclusive_max d) []).
Proof.
  unfold rights. rewrite list_elem_of_bind. split.
  - intros (e & Hx & He). rewrite elem_of_reverse in He. destruct e as [r|d]; cbn in Hx; [by apply elem_of_nil in Hx|].
    pose proof (CompareExclusiveMax_spec (exclusive_max range) (dr_exclusive_max d)) as Hc.
    destruct (Nat.eqb_spec (dr_phase d) n), (CompareExclusiveMax _ _); cbn in Hx; try by apply elem_of_nil in Hx.
    apply list_elem_of_singleton in Hx as ->. destruct Hc as [Hc1 Hc2]. exists d.
    split; [done|]. split; [done|]. split; [done|]. by split.
  - intros (d & Hd & Hp & Hne & Hlt & ->). exists (Dr d). rewrite elem_of_reverse. split; [|done]. cbn.
    pose proof (CompareExclusiveMax_spec (exclusive_max range) (dr_exclusive_max d)) as Hc.
    destruct (Nat.eqb_spec (dr_phase d) n); [done|]. destruct (CompareExclusiveMax _ _); [|by left|].
    + rewrite Hc in Hlt. destruct Hlt as [Hlt|Hlt]; [congruence|border].
    + destruct Hc as [Hc1 Hc2]. destruct Hlt as [?|Hlt]; [done|]. destruct Hc2 as [?|Hc2]; [done|border].
Qed.

Lemma bind_at_most_one {A B} (f : A -> list B) l : NoDup l -> (forall x, length (f x) <= 1)%nat ->
  (forall x y, x ∈ l -> y ∈ l -> f x <> [] -> f y <> [] -> x = y) -> (length (l ≫= f) <= 1)%nat.
Proof.
  intros Hd Hone Heq. induction Hd as [|x l Hx _ IH]; [cbn; lia|]. rewrite bind_cons, length_app.
  destruct (decide (f x = [])) as [E|E]; [rewrite E; apply IH; intros; apply Heq; by try right|].
  assert (Hl : l ≫= f = []).
  { clear IH. induction l as [|y l IHl]; [done|]. rewrite bind_cons. destruct (decide (f y = [])) as [Ey|Ey].
    - rewrite Ey. apply IHl; [intros H; apply Hx; by right|]. intros z w Hz Hw. apply Heq; (apply elem_of_cons in Hz as [->|Hz] || idtac); (apply elem_of_cons in Hw as [->|Hw] || idtac); rewrite ?elem_of_cons; auto.
    - exfalso. apply Hx. rewrite (Heq x y); [by left|by left|by right; left|done|done]. }
  rewrite Hl. cbn. specialize (Hone x). lia.
Qed.

Lemma ordered_short l : (length l <= 1)%nat -> ordered l.
Proof. destruct l as [|x [|y l]]; cbn; [constructor|repeat constructor|lia]. Qed.

Lemma mid_NoDup : NoDup mid.
Proof.
  destruct tree_parts as ((_ & [Ho Hok] & _) & _). clear -Ho Hok. induction mid as [|e l IH]; [constructor|].
  apply ordered_cons in Ho as [Ho Hb]. apply Forall_cons in Hok as [He Hok]. constructor; [|by apply IH].
  intros Hin. rewrite Forall_forall in Hb. pose proof (before_keys e e He (Hb e Hin)). border.
Qed.

Lemma lefts_short : (length lefts <= 1)%nat.
Proof.
  apply bind_at_most_one; [apply mid_NoDup|intros [|d]; cbn; [lia|]; destruct (_ && _); cbn; lia|].
  intros e e' He He' H1 H2. destruct e as [|d]; [done|]. destruct e' as [|d']; [done|]. cbn in H1, H2.
  destruct (bytes_ltb (dr_key d) _) eqn:E; [|by rewrite andb_false_r in H1]. destruct (bytes_ltb (dr_key d') _) eqn:E'; [|by rewrite andb_false_r in H2].
  apply bytes_ltb_spec in E, E'. destruct (one_left (Dr d) (Dr d') He He' E) as [|H]; [done|]. cbn in H. border.
Qed.

Lemma rights_short : (length rights <= 1)%nat.
Proof.
  apply bind_at_most_one; [rewrite reverse_Permutation; apply mid_NoDup|intros [|d]; cbn; [lia|]; destruct (_ && _); cbn; lia|].
  intros e e' He He' H1 H2. rewrite elem_of_reverse in He, He'. destruct e as [|d]; [done|]. destruct e' as [|d']; [done|]. cbn in H1, H2.
  pose proof (CompareExclusiveMax_spec (exclusive_max range) (dr_exclusive_max d)) as Hc.
  pose proof (CompareExclusiveMax_spec (exclusive_max range) (dr_exclusive_max d')) as Hc'.
  destruct (CompareExclusiveMax _ (dr_exclusive_max d)); rewrite ?andb_false_r in H1; try done.
  destruct (CompareExclusiveMax _ (dr_exclusive_max d')); rewrite ?andb_false_r in H2; try done.
  destruct Hc as [Hne Hc], Hc' as [_ Hc'].
  destruct (one_right (Dr d) (Dr d') He He' Hne Hc) as [|[H3 H4]]; [done|]. cbn in H3, H4. destruct Hc' as [?|Hc']; [done|border].
Qed.

Lemma mid_placeholder d : same_phase d -> placeholder d = false.
Proof.
  intros [Hd Hp]. rewrite Forall_forall in mid_placeholders. specialize (mid_placeholders _ Hd). cbn in mid_placeholders.
  destruct (placeholder d); [by destruct mid_placeholders|done].
Qed.

Lemma new_range_placeholder : placeholder new_range = false.
Proof.
  destruct tree_parts as ((_ & [Ho Hok] & _) & _). pose proof (joined_bounds mid Ho Hok) as H. unfold new_range.
  destruct (foldl join_entry None mid) as [j|]; [|done]. destruct H as ((d & Hd & Hp & _ & E & _) & _). cbn. rewrite E.
  by apply mid_placeholder.
Qed.

Lemma new_entry_ok : entry_ok new_entry.
Proof.
  destruct new_range_spec as (Hp & HK & HM & Hmin & Hmax & Hall). destruct tree_parts as ((_ & [Ho Hok] & _) & _). split.
  - apply empty_false_spec. cbn. destruct (below_bound_le (inclusive_min range) _ _ Hmax not_empty) as [|H]; [by left|right]. border.
  - cbn. destruct HK as [->|(d & [Hd _] & -> & _)]; [done|]. apply (min_bytes _ (mid_ok _ Hd)).
  - cbn. destruct HM as [->|(d & [Hd _] & -> & _)]; [done|]. apply (max_bytes _ (mid_ok _ Hd)).
  - cbn. split; [by apply superseded_sorted|]. split; [|by rewrite new_range_placeholder].
    apply Forall_forall. intros r Hr. apply list_elem_of_bind in Hr as (e & Hr & He).
    destruct (superseded_of_covers e r (mid_ok _ He) Hr) as (Hc & H1 & H2 & H3). rewrite Hp. split; [|done].
    change (covers (rmw_key r) (Dr new_range)). apply new_range_covers. destruct e as [x|d].
    + left. apply covers_rmw in Hc; [|done]. rewrite Hc. by apply mid_rmw.
    + right. exists d. split; [|done]. split; [done|]. cbn in Hr. destruct (Nat.eqb_spec (dr_phase d) n); [done|by apply elem_of_nil in Hr].
Qed.

Lemma min_below_new : dr_exclusive_max new_range = [] \/ bytes_lt (inclusive_min range) (dr_exclusive_max new_range).
Proof. destruct new_range_spec as (_ & _ & _ & _ & Hmax & _). by apply (below_bound_le _ _ _ Hmax not_empty). Qed.

(** Where the new entries begin and end. *)
Lemma left_before_new x : x ∈ lefts -> entry_before x new_entry.
Proof.
  intros (d & Hd & Hp & Hlt & ->)%lefts_spec. unfold entry_before, past. cbn. split; [by intros E; rewrite E in Hlt; apply bytes_lt_nil in Hlt|].
  destruct new_range_spec as (_ & [->|(d' & [Hd' Hp'] & -> & Hle)] & _); [border|].
  destruct (one_left (Dr d) (Dr d') Hd Hd' Hlt) as [[= ->]|H]; [congruence|]. cbn in H. border.
Qed.

Lemma new_before_right x : x ∈ rights -> entry_before new_entry x.
Proof.
  intros (d & Hd & Hp & Hne & Hlt & ->)%rights_spec. unfold entry_before, past. cbn.
  destruct new_range_spec as (_ & _ & [->|(d' & [Hd' Hp'] & -> & Hle)] & _); [split; [done|border]|].
  destruct (one_right (Dr d) (Dr d') Hd Hd' Hne Hlt) as [[= ->]|[H1 H2]]; [congruence|]. cbn in H1, H2. split; [done|border].
Qed.

Lemma left_before_right x y : x ∈ lefts -> y ∈ rights -> entry_before x y.
Proof.
  intros (d & Hd & Hp & Hlt & ->)%lefts_spec (d' & Hd' & Hp' & Hne & Hlt' & ->)%rights_spec. unfold entry_before, past. cbn.
  split; [by intros E; rewrite E in Hlt; apply bytes_lt_nil in Hlt|]. destruct not_empty as [?|H]; [done|border].
Qed.

Lemma before_a x y : x ∈ lefts ++ [new_entry] ++ rights -> y ∈ a -> entry_before x y.
Proof.
  intros Hx Hy. destruct (a_past y Hy) as [Hne Hle]. destruct tree_parts as (_ & _ & _ & Hma). rewrite Forall_forall in Hma.
  rewrite !elem_of_app, list_elem_of_singleton in Hx. destruct Hx as [Hx|[->|Hx]].
  - apply lefts_spec in Hx as (d & Hd & Hp & Hlt & ->). unfold entry_before, past. cbn.
    split; [by intros E; rewrite E in Hlt; apply bytes_lt_nil in Hlt|]. destruct not_empty as [?|H]; [done|border].
  - unfold entry_before. cbn. destruct new_range_spec as (_ & _ & [->|(d & [Hd _] & -> & _)] & _); [by split|].
    specialize (Hma _ Hd). rewrite Forall_forall in Hma. by apply Hma.
  - apply rights_spec in Hx as (d & Hd & Hp & _ & _ & ->). specialize (Hma _ Hd). rewrite Forall_forall in Hma. by apply Hma.
Qed.

Lemma b_before_new x y : x ∈ b -> y ∈ lefts ++ [new_entry] ++ rights -> entry_before x y.
Proof.
  intros Hx Hy. destruct (b_past x Hx) as [Hne Hle]. destruct tree_parts as (_ & Hbm & _). rewrite Forall_forall in Hbm.
  specialize (Hbm x Hx). rewrite Forall_forall in Hbm. unfold entry_before, past in *.
  rewrite !elem_of_app, list_elem_of_singleton in Hy. destruct Hy as [Hy|[->|Hy]].
  - apply lefts_spec in Hy as (d & Hd & _ & _ & ->). by apply (Hbm (Dr d)).
  - cbn. destruct new_range_spec as (_ & [->|(d & [Hd _] & -> & _)] & _); [done|]. by apply (Hbm (Dr d)).
  - apply rights_spec in Hy as (d & Hd & _ & Hne' & _ & ->). cbn. split; [done|]. destruct not_empty as [?|H]; [done|border].
Qed.

Lemma new_tree : tree_ok (b ++ (lefts ++ [new_entry] ++ rights) ++ a).
Proof.
  destruct tree_parts as (([Hob Hokb] & _ & [Hoa Hoka]) & _ & Hba & _). split.
  - apply ordered_app. split; [done|]. split; [|].
    + apply ordered_app. split; [|split; [done|]].
      * apply ordered_app. split; [apply ordered_short, lefts_short|]. split.
        -- apply ordered_cons. split; [apply ordered_short, rights_short|]. apply Forall_forall. by apply new_before_right.
        -- apply Forall_forall. intros x Hx. constructor; [by apply left_before_new|]. apply Forall_forall. intros y Hy. by apply left_before_right.
      * apply Forall_forall. intros x Hx. apply Forall_forall. intros y Hy. by apply before_a.
    + rewrite Forall_forall in Hba. apply Forall_forall. intros x Hx. apply Forall_app. split; [|by apply Hba].
      apply Forall_forall. intros y Hy. by apply b_before_new.
  - rewrite !Forall_app. split; [done|]. split; [|done]. split; [|split].
    + apply Forall_forall. intros x (d & Hd & _ & Hlt & ->)%lefts_spec. pose proof (mid_ok _ Hd) as [_ H1 _ _].
      split; [apply empty_false_spec; by right|done|done|]. cbn. repeat constructor.
    + constructor; [apply new_entry_ok|constructor].
    + apply Forall_forall. intros x (d & Hd & _ & Hne & Hlt & ->)%rights_spec. pose proof (mid_ok _ Hd) as [_ _ H1 _].
      split; [apply empty_false_spec; by destruct Hlt; [left|right]|done|done|]. cbn. repeat constructor.
Qed.

(** * What the new tree means *)

Lemma b_not_covers k : bytes_le (inclusive_min range) k -> Forall (fun e => ~ covers k e) b.
Proof. intros Hk. apply Forall_forall. intros e He. apply past_not_covers. destruct (b_past e He). split; [done|border]. Qed.

Lemma a_not_covers k : Contains range k = true -> Forall (fun e => ~ covers k e) a.
Proof.
  intros [_ Hk]%Contains_bounds. apply Forall_forall. intros e He. apply lt_not_covers. destruct (a_past e He) as [H1 H2].
  destruct Hk as [?|Hk]; [done|border].
Qed.

Lemma lefts_not_covers k : bytes_le (inclusive_min range) k -> Forall (fun e => ~ covers k e) lefts.
Proof.
  intros Hk. apply Forall_forall. intros x (d & _ & _ & Hlt & ->)%lefts_spec. rewrite covers_dr. cbn.
  intros [_ [E|H]]; [rewrite E in Hlt; by apply bytes_lt_nil in Hlt|border].
Qed.

Lemma mid_covers_range k e : byte_string k -> e ∈ mid -> covers k e -> Contains range k = false -> exists d, e = Dr d.
Proof.
  intros Hk He Hc Hr. destruct e as [r|d]; [|by exists d]. apply covers_rmw in Hc; [|done]. apply mid_rmw in He. congruence.
Qed.

Lemma filter_owner_new : filter (fun e => owner e = Some n) (lefts ++ [new_entry] ++ rights) = [new_entry].
Proof.
  assert (Hn : forall l, (forall x, x ∈ l -> owner x = None) -> filter (fun e => owner e = Some n) l = []).
  { intros l Hl. apply filter_owner_none. by apply Forall_forall. }
  rewrite !filter_app, (Hn lefts), (Hn rights).
  - rewrite filter_cons_True; [done|]. cbn. rewrite new_range_placeholder. destruct new_range_spec as (-> & _). done.
  - by intros x (d & _ & _ & _ & _ & ->)%rights_spec.
  - by intros x (d & _ & _ & _ & ->)%lefts_spec.
Qed.

Lemma new_entry_effect k : byte_string k -> entry_effect k new_entry =
  Some (true, effect_sources (tree_effect k (filter (fun e => owner e = Some n) mid))).
Proof.
  intros Hk. destruct tree_parts as ((_ & [Ho Hok] & _) & _). unfold new_entry. cbn [entry_effect dr_phase superseded].
  destruct new_range_spec as (-> & _). by rewrite superseded_sources.
Qed.

Lemma delete_effect k : byte_string k ->
  tree_effect k (filter (fun e => owner e = Some n) (b ++ (lefts ++ [new_entry] ++ rights) ++ a)) =
  let old := tree_effect k (filter (fun e => owner e = Some n) (b ++ mid ++ a)) in
  if Contains range k then Some (true, effect_sources old) else old.
Proof.
  intros Hk. cbn zeta. pose proof (new_range_covers k) as Hc.
  assert (Hcn : covers k new_entry <-> covers k (Dr new_range)) by done.
  rewrite !(filter_app _ b), !(filter_app _ _ a), filter_owner_new, !tree_effect_app.
  assert (Hone : tree_effect k [new_entry] = if bool_decide (covers k new_entry) then
    Some (true, effect_sources (tree_effect k (filter (fun e => owner e = Some n) mid))) else None).
  { unfold tree_effect at 1. rewrite at_key_one. case_bool_decide; [|done]. cbn [mbind option_bind]. by apply new_entry_effect. }
  rewrite Hone. destruct (Contains range k) eqn:Er.
  - assert (Hr := Er). apply Contains_bounds in Hr as [Hr _].
    rewrite !(tree_effect_none k (filter _ b)), !(tree_effect_none k (filter _ a)) by (apply Forall_filter_any; first [by apply b_not_covers|by apply a_not_covers]).
    rewrite bool_decide_true by (rewrite Hcn, Hc; by left). by destruct (tree_effect k (filter _ mid)).
  - destruct (tree_effect k (filter _ b)) eqn:Eb; [done|]. case_bool_decide as Hnew.
    + apply Hcn, Hc in Hnew as [?|(d & Hd & Hcd)]; [done|].
      destruct tree_parts as ((_ & [Ho Hok] & _) & _).
      assert (Hat : at_key k (filter (fun e => owner e = Some n) mid) = Some (Dr d)).
      { apply at_key_unique; [done|by apply no_overlap_filter, ordered_no_overlap| |done]. apply list_elem_of_filter.
        split; [|by destruct Hd]. cbn. rewrite (mid_placeholder d Hd). destruct Hd as [_ ->]. done. }
      unfold tree_effect. by rewrite Hat.
    + rewrite (tree_effect_none k (filter _ mid)); [done|]. apply Forall_forall. intros e [Ho He]%list_elem_of_filter Hce.
      destruct (mid_covers_range k e Hk He Hce Er) as [d ->]. apply Hnew, Hcn, Hc. right. exists d. split; [|done]. split; [done|].
      cbn in Ho. destruct (placeholder d); congruence.
Qed.

Lemma delete_view k : byte_string k ->
  tree_view k (b ++ (lefts ++ [new_entry] ++ rights) ++ a) =
  if Contains range k then Some None else tree_view k (b ++ mid ++ a).
Proof.
  intros Hk. pose proof (new_range_covers k) as Hc. assert (Hcn : covers k new_entry <-> covers k (Dr new_range)) by done.
  rewrite !(tree_view_app k b), !(tree_view_app k _ a). destruct (Contains range k) eqn:Er.
  - assert (Hr := Er). apply Contains_bounds in Hr as [Hr _].
    rewrite !tree_view_app, (tree_view_none k b), (tree_view_none k lefts) by (first [by apply b_not_covers|by apply lefts_not_covers]).
    unfold tree_view at 1. rewrite at_key_one, bool_decide_true by (rewrite Hcn, Hc; by left). done.
  - destruct (tree_view k b) eqn:Eb; [done|].
    assert (Hnew : (exists x, x ∈ lefts ++ [new_entry] ++ rights /\ covers k x) <-> exists e, e ∈ mid /\ covers k e).
    { split.
      - intros (x & Hx & Hcx). rewrite !elem_of_app, list_elem_of_singleton in Hx. destruct Hx as [Hx|[->|Hx]].
        + apply lefts_spec in Hx as (d & Hd & _ & Hlt & ->). exists (Dr d). split; [done|]. rewrite covers_dr in *. cbn in Hcx.
          destruct Hcx as [H1 [E|H2]]; [rewrite E in Hlt; by apply bytes_lt_nil in Hlt|]. split; [done|].
          destruct (mid_min _ Hd) as [|H3]; [by left|right]. cbn in H3. border.
        + apply Hcn, Hc in Hcx as [?|(d & [Hd _] & Hcd)]; [congruence|]. by exists (Dr d).
        + apply rights_spec in Hx as (d & Hd & _ & Hne & Hlt & ->). exists (Dr d). split; [done|]. rewrite covers_dr in *. cbn in Hcx.
          destruct Hcx as [H1 H2]. split; [|done]. destruct (mid_max _ Hd) as [?|H3]; [done|]. cbn in H3. border.
      - intros (e & He & Hce). destruct (mid_covers_range k e Hk He Hce Er) as [d ->]. destruct (decide (dr_phase d = n)) as [Hp|Hp].
        { exists new_entry. split; [rewrite !elem_of_app; right; left; by left|]. apply Hcn, Hc. right. by exists d. }
        rewrite covers_dr in Hce. destruct Hce as [H1 H2]. destruct (bytes_le_total (inclusive_min range) k) as [Hle|Hlt].
        + destruct (below_or_past k (exclusive_max range)) as [Hb|[Hp1 Hp2]].
          { assert (Contains range k = true) by (by apply Contains_bounds). congruence. }
          exists (Dr (MkDr true (dr_phase d) (exclusive_max range) (dr_exclusive_max d) [])). split; [|by rewrite covers_dr].
          rewrite !elem_of_app. do 2 right. apply rights_spec. exists d. repeat split; try done.
          destruct H2 as [|H2]; [by left|right; border].
        + exists (Dr (MkDr true (dr_phase d) (dr_key d) (inclusive_min range) [])). split; [|rewrite covers_dr; split; [done|by right]].
          rewrite !elem_of_app. left. apply lefts_spec. exists d. repeat split; try done. cbn. border. }
    destruct (at_key k mid) as [e|] eqn:Em.
    + apply at_key_Some in Em as Hem. destruct Hem as [He Hce]. destruct (mid_covers_range k e Hk He Hce Er) as [d ->].
      destruct (at_key k (lefts ++ [new_entry] ++ rights)) as [x|] eqn:Ex.
      * unfold tree_view. rewrite Ex, Em. apply at_key_Some in Ex as [Hx _]. rewrite !elem_of_app, list_elem_of_singleton in Hx.
        destruct Hx as [(? & _ & _ & _ & ->)%lefts_spec|[->|(? & _ & _ & _ & _ & ->)%rights_spec]]; done.
      * exfalso. destruct (proj2 Hnew (ex_intro _ (Dr d) (conj He Hce))) as (x & Hx & Hcx). by apply (at_key_None _ _ x Ex Hx).
    + destruct (at_key k (lefts ++ [new_entry] ++ rights)) as [x|] eqn:Ex.
      * exfalso. apply at_key_Some in Ex as Hx. destruct (proj1 Hnew (ex_intro _ x Hx)) as (e & He & Hce). by apply (at_key_None _ _ e Em He).
      * unfold tree_view at 1 3. by rewrite Ex, Em.
Qed.
End delete.

(** * The operation *)

Lemma foldl_rights {A B} (f : A -> list B) l : forall acc, foldl (fun acc e => f e ++ acc) acc l = (reverse l ≫= f) ++ acc.
Proof.
  induction l as [|x l IH]; intros acc; [done|]. cbn [foldl]. rewrite IH, reverse_cons, bind_app. cbn.
  by rewrite app_nil_r, <- app_assoc.
Qed.

(** The invariant and the effects, from the parts. *)
Lemma delete_step priors n b mid a range :
  mutation_ok priors n (b ++ mid ++ a) -> byte_string (inclusive_min range) -> byte_string (exclusive_max range) ->
  empty range = false ->
  Forall (fun e => before_range range e = true) b ->
  match mid ++ a with [] => True | e :: _ => before_range range e = false end ->
  Forall (fun e => behind range e = false) mid ->
  match a with [] => True | e :: _ => behind range e = true end ->
  step_ok priors n (b ++ mid ++ a) (foldl (move_entry moved n) priors mid)
    (b ++ (lefts range n mid ++ [new_entry range n mid] ++ rights range n mid) ++ a) (OpDeleteRange range).
Proof.
  intros Hm Hmin Hmax He Hb Hhead Hmid Ha. apply empty_false_spec in He. pose proof Hm as [Hp Hsort Hlast Htree Hown Hpl Honce].
  rewrite !Forall_app in Hown, Hpl. destruct Hown as (Hownb & Hownm & Howna), Hpl as (Hplb & Hplm & Hpla).
  set (new := lefts range n mid ++ [new_entry range n mid] ++ rights range n mid).
  assert (Htree' : tree_ok (b ++ new ++ a)) by (by apply new_tree).
  destruct (move_all moved moved_range moved_owner moved_ok n mid priors) as (Hp' & Hph & Hall); [done| |done|done| |].
  { destruct Htree as [_ Htree]. rewrite !Forall_app in Htree. apply Htree. }
  { intros p Hpn. specialize (Honce p Hpn). rewrite !filter_app in *.
    apply (no_overlap_app_r (filter (fun e => owner e = Some p) b ++ filter (fun e => owner e = Some p) a)).
    eapply no_overlap_perm; [|exact Honce]. solve_Permutation. }
  set (priors' := foldl (move_entry moved n) priors mid) in *.
  assert (Hnew : Forall (fun x => (owner x = Some n /\ phase_of x = n) \/ (owner x = None /\ exists e, e ∈ mid /\ phase_of x = phase_of e /\ phase_of e <> n)) new).
  { apply Forall_forall. intros x Hx. unfold new in Hx. rewrite !elem_of_app, list_elem_of_singleton in Hx. destruct Hx as [Hx|[->|Hx]].
    - apply lefts_spec in Hx as (d & Hd & Hne & _ & ->). right. split; [done|]. by exists (Dr d).
    - left. assert (E1 : placeholder (new_range range n mid) = false) by (eapply new_range_placeholder; eassumption).
      assert (E2 : dr_phase (new_range range n mid) = n) by (eapply new_range_spec; eassumption). cbn. by rewrite E1, E2.
    - apply rights_spec in Hx as (d & Hd & Hne & _ & _ & ->). right. split; [done|]. by exists (Dr d). }
  assert (Hnone : forall p, p <> n -> filter (fun e => owner e = Some p) new = []).
  { intros p Hpn. clear -Hnew Hpn. induction Hnew as [|x l [[Hx _]|[Hx _]] _ IH]; [done|..]; rewrite filter_cons_False; auto; congruence. }
  assert (Hmove := fun p Hpn => move_effect moved moved_range moved_owner moved_effect n priors b mid new a priors' p Hpn
    (Honce p Hpn) Hall (Hnone p Hpn)).
  assert (Hok' : mutation_ok priors' n (b ++ new ++ a)).
  { split; [done|by rewrite Hph| |done| | |].
    - apply (Forall_fmap phase_number (fun p => p < n)%nat). rewrite Hph. apply Forall_fmap. exact Hlast.
    - rewrite !Forall_app, Hph. split; [done|]. split; [|done]. rewrite Forall_forall in Hnew, Hownm. apply Forall_forall. intros x Hx.
      destruct (Hnew x Hx) as [[_ E]|(_ & e & Hin & E & _)]; [by left|]. rewrite E. by apply Hownm.
    - rewrite !Forall_app. split; [done|]. split; [|done]. rewrite Forall_forall in Hnew. apply Forall_forall. intros x Hx.
      destruct (Hnew x Hx) as [[E _]|(_ & e & Hin & E & Hne)]; [by rewrite E|]. by rewrite E.
    - intros p Hpn. by destruct (Hmove p Hpn). }
  split; [done|done| |].
  - intros p k Hk. cbn [operation_effect]. destruct (Nat.eqb_spec n p) as [<-|Hne].
    + rewrite !last_effect by done. unfold new. by apply delete_effect.
    + rewrite !entries_of_mutation. by apply (Hmove p); [congruence|].
  - intros k Hk. by apply delete_view.
Qed.

Lemma DeleteRange_ok m phase range : Inv m -> not_before_last m phase ->
  byte_string (inclusive_min range) -> byte_string (exclusive_max range) ->
  operation_ok m (DeleteRange m phase range) phase (OpDeleteRange range).
Proof.
  intros H Hn Hmin Hmax. unfold DeleteRange. destruct (empty range) eqn:Ee.
  { assert (Hnone : forall k, Contains range k = false) by (by apply empty_spec).
    split; [done|]. split; [done|]. split; [|intros k _; by rewrite Hnone].
    intros p k _. cbn [operation_effect]. rewrite Hnone. by destruct (phase =? p)%nat. }
  destruct (GetCurrent_spec m phase H Hn) as (priors & Eg & Hok & He). rewrite Eg. cbn [entries phase_number].
  destruct (find_bound (before_range range) (last_entries m)) as [b rest] eqn:Eb.
  apply find_bound_spec in Eb as (El & Hb & Hhead).
  destruct (delete_existing_entries range phase (MkDeleteState priors [] [] None []) rest) as [st a] eqn:Ed.
  apply delete_loop_eq in Ed as (mid & -> & Hmid & Ha & ->). cbn [ds_priors ds_left ds_right ds_new_entry ds_superseded app].
  assert (Hok2 := Hok). rewrite El in Hok2.
  pose proof (delete_step priors phase b mid a range Hok2 Hmin Hmax Ee Hb Hhead Hmid Ha) as Hs. rewrite <- El in Hs.
  pose proof (step_operation m phase _ _ _ _ He Hs) as Hop.
  assert (Hsup : foldl (add_superseded phase) [] mid = mid ≫= superseded_of phase).
  { destruct (mo_tree _ _ _ Hok2) as [Ho Hk]. rewrite !Forall_app in Hk. rewrite !ordered_app in Ho.
    rewrite (superseded_joined phase mid) by (try tauto; constructor). done. }
  rewrite Hsup, foldl_rights, app_nil_r. rewrite <- !app_assoc in Hop. exact Hop.
Qed.
