(* ===== verification/TransactionTheorems.v ===== *)
(** Staged mutations: what the trees hold after any sequence of operations, and after the
    entries have moved to their phases at the start of the commit. *)

From stdpp Require Import sorting.
From S2P Require Import Prelude Bytes KeyRange TransactionPhases TransactionSpec TransactionMoves TransactionWrites TransactionDeletes.

Definition operation_bytes (op : Operation) : Prop :=
  match op with
  | OpReadModifyWrite key _ _ => byte_string key
  | OpDeleteRange range => byte_string (inclusive_min range) /\ byte_string (exclusive_max range)
  end.

Lemma apply_operation_ok m phase op : Inv m -> not_before_last m phase -> operation_bytes op ->
  operation_ok m (apply_operation m (phase, op)) phase op.
Proof.
  intros H Hn Hb. destruct op as [key src tf|range]; cbn in *; [by apply ReadModifyWrite_ok|]. destruct Hb. by apply DeleteRange_ok.
Qed.

Lemma new_mutation_Inv : Inv new_mutation.
Proof.
  split; cbn; try done; try constructor; try constructor.
Qed.

(** All operations, one after the other. *)
Lemma stage_spec ops : StronglySorted le ops.*1 -> Forall (fun op => operation_bytes op.2) ops ->
  Inv (stage ops) /\
  (forall phase, Forall (fun p => p <= phase)%nat ops.*1 -> not_before_last (stage ops) phase) /\
  (forall p k, byte_string k -> tree_effect k (entries_of (stage ops) p) = phase_effect ops p k) /\
  (forall k, byte_string k -> tree_view k (last_entries (stage ops)) = last_operation ops k).
Proof.
  induction ops as [|[q op] ops IH] using rev_ind; intros Hs Hb.
  - split; [exact new_mutation_Inv|]. split; [done|]. split; done.
  - rewrite fmap_app in Hs. apply Forall_app in Hb as [Hb [Hop _]%Forall_cons].
    assert (Hs' : StronglySorted le ops.*1 /\ Forall (fun p => p <= q)%nat ops.*1).
    { clear -Hs. induction ops.*1 as [|x l IHl]; [split; constructor|]. cbn in Hs. apply StronglySorted_inv in Hs as [Hs Hx].
      destruct (IHl Hs). apply Forall_app in Hx as [Hx [Hq _]%Forall_cons]. split; by constructor. }
    destruct Hs' as [Hs1 Hq]. destruct (IH Hs1 Hb) as (H1 & H2 & H3 & H4).
    unfold stage, phase_effect, last_operation. rewrite foldl_app. cbn [foldl]. fold (stage ops).
    destruct (apply_operation_ok (stage ops) q op H1 (H2 q Hq) Hop) as (H5 & H6 & H7 & H8).
    split; [done|]. split; [|split].
    + intros phase Hph. rewrite fmap_app in Hph. apply Forall_app in Hph as [_ [Hph _]%Forall_cons]. cbn [fst snd] in Hph.
      unfold not_before_last in H6 |- *. destruct (last_phase (apply_operation (stage ops) (q, op))); [lia|done].
    + intros p k Hk. rewrite H7 by done. cbn zeta. rewrite foldl_app. cbn [foldl fst snd]. rewrite H3 by done. done.
    + intros k Hk. rewrite H8 by done. rewrite foldl_app. cbn [foldl snd]. rewrite H4 by done. done.
Qed.

(** * Separation of the phases *)

Lemma move_entries_eq n l : forall phases,
  move_entries n phases l = (foldl (move_entry (fun e => e) n) phases l, filter (fun e => phase_of e = n) l).
Proof.
  induction l as [|e l IH]; intros phases; [done|]. cbn [move_entries foldl]. unfold move_entry at 2.
  destruct (Nat.eqb_spec (phase_of e) n) as [E|E]; cbn [negb]; rewrite IH.
  - by rewrite filter_cons_True.
  - by rewrite filter_cons_False.
Qed.

Lemma SeparatePhases_eq priors n l : mutation_ok priors n l -> SeparatePhases (mutation priors n l) =
  foldl (move_entry (fun e => e) n) priors l ++ [MkPhase n (filter (fun e => phase_of e = n) l)].
Proof.
  intros [_ _ _ _ Hown _ _]. unfold SeparatePhases. cbn. destruct priors as [|s priors]; [|by rewrite move_entries_eq].
  assert (H : Forall (fun e => phase_of e = n) l).
  { eapply Forall_impl; [exact Hown|]. intros e [E|E]; [done|by apply elem_of_nil in E]. }
  pose proof (move_entries_eq n l []) as E.
  assert (Hm : move_entries n [] l = ([], l)).
  { clear -H. induction H as [|e l He _ IH]; [done|]. cbn. by rewrite He, Nat.eqb_refl, IH. }
  rewrite Hm in E. by injection E as <- <-.
Qed.

Lemma phase_entries phases s : priors_ok phases -> s ∈ phases ->
  filter (fun e => owner e = Some (phase_number s)) (all_entries phases) = entries s.
Proof.
  intros [_ Ho Hd] Hs. induction phases as [|x phases IH]; [by apply elem_of_nil in Hs|].
  apply Forall_cons in Ho as [Hox Ho]. rewrite fmap_cons in Hd. apply NoDup_cons in Hd as [Hx Hd].
  unfold all_entries. rewrite bind_cons, filter_app. fold (all_entries phases). apply elem_of_cons in Hs as [->|Hs].
  - assert (Hn : filter (fun e => owner e = Some (phase_number x)) (all_entries phases) = []).
    { clear IH Hd Hox. induction phases as [|y phases IH]; [done|]. apply Forall_cons in Ho as [Hoy Ho]. rewrite fmap_cons, not_elem_of_cons in Hx.
      destruct Hx as [Hxy Hx]. unfold all_entries. rewrite bind_cons, filter_app. fold (all_entries phases). rewrite IH by done.
      rewrite app_nil_r. clear -Hoy Hxy. induction Hoy as [|e l He _ IH]; [done|]. rewrite filter_cons_False; [done|congruence]. }
    rewrite Hn, app_nil_r. clear -Hox. induction Hox as [|e l He _ IH]; [done|]. by rewrite filter_cons_True, IH.
  - rewrite IH by done. assert (Hne : phase_number x <> phase_number s).
    { intros E. apply Hx. rewrite E. apply list_elem_of_fmap. by exists s. }
    assert (Hn : filter (fun e => owner e = Some (phase_number s)) (entries x) = []).
    { clear -Hox Hne. induction Hox as [|e l He _ IH]; [done|]. rewrite filter_cons_False; [done|congruence]. }
    by rewrite Hn.
Qed.

Lemma tree_ok_filter (P : MutationEntry -> Prop) `{!forall e, Decision (P e)} l : tree_ok l -> tree_ok (filter P l).
Proof.
  intros [Ho Hok]. split; [|by apply Forall_filter_any]. induction l as [|e l IH]; [done|].
  apply ordered_cons in Ho as [Ho Hb]. apply Forall_cons in Hok as [He Hok].
  destruct (decide (P e)); [rewrite filter_cons_True by done|rewrite filter_cons_False by done; auto].
  apply ordered_cons. split; [auto|]. by apply Forall_filter_any.
Qed.

Lemma SeparatePhases_spec m : Inv m ->
  StronglySorted lt (phase_number <$> SeparatePhases m) /\
  Forall (fun s => tree_ok (entries s) /\ Forall (fun e => owner e = Some (phase_number s)) (entries s) /\
    forall k, byte_string k -> tree_effect k (entries s) = tree_effect k (entries_of m (phase_number s))) (SeparatePhases m) /\
  (forall p, p ∉ phase_number <$> SeparatePhases m -> entries_of m p = []).
Proof.
  intros H. destruct m as [priors [[n l]|]].
  2: { pose proof (no_phase_yet _ H eq_refl) as E. cbn in E. subst priors. by repeat constructor. }
  pose proof H as Hm. apply mutation_ok_Inv in Hm. pose proof Hm as [Hp Hsort Hlast Htree Hown Hpl Honce].
  change (MkMultiPhase priors (Some (MkPhase n l))) with (mutation priors n l). rewrite SeparatePhases_eq by done.
  destruct (move_all (fun e => e) (fun _ => eq_refl) (fun _ => eq_refl) (fun _ Hk => Hk) n l priors) as (Hp' & Hph & Hall);
    [done|apply Htree|done|done|done|].
  set (priors' := foldl (move_entry (fun e => e) n) priors l) in *. rewrite list_fmap_id in Hall.
  assert (Hkept : filter (fun e => phase_of e = n) l = filter (fun e => owner e = Some n) l).
  { clear -Hpl. induction Hpl as [|e l He _ IH]; [done|]. destruct (decide (phase_of e = n)) as [E|E].
    - rewrite !filter_cons_True, IH; [done| |done]. destruct e as [r|d]; cbn in *; [congruence|]. destruct (placeholder d); [by destruct He|congruence].
    - rewrite !filter_cons_False, IH; [done| |done]. destruct e as [r|d]; cbn in *; [congruence|]. destruct (placeholder d); congruence. }
  rewrite Hkept. split; [|split].
  - rewrite fmap_app. apply sorted_nat_app. rewrite Hph. split; [done|]. by apply Forall_fmap.
  - apply Forall_app. split.
    + apply Forall_forall. intros s Hs. pose proof Hp' as [Ht Ho _]. rewrite Forall_forall in Ht, Ho.
      split; [by apply Ht|]. split; [by apply Ho|]. intros k Hk.
      assert (Hsn : phase_number s <> n).
      { assert (Hin : phase_number s ∈ phase_number <$> priors) by (rewrite <- Hph; apply list_elem_of_fmap; by exists s).
        apply list_elem_of_fmap in Hin as (s' & -> & Hs'). rewrite Forall_forall in Hlast. specialize (Hlast s' Hs'). lia. }
      rewrite <- (phase_entries priors' s Hp' Hs). apply tree_effect_perm; [done| |].
      * rewrite entries_of_mutation, Hall, !filter_app. rewrite Permutation_app_comm. apply Permutation_app_head.
        clear -Hsn. induction l as [|e l IH]; [done|]. destruct (decide (owner e = Some (phase_number s))) as [E|E].
        -- rewrite (filter_cons_True (acts_elsewhere n)) by (unfold acts_elsewhere; rewrite E; split; congruence).
           rewrite !filter_cons_True by done. by rewrite IH.
        -- rewrite (filter_cons_False (fun e => owner e = Some (phase_number s)) e l) by done.
           destruct (decide (acts_elsewhere n e)); [rewrite (filter_cons_True (acts_elsewhere n)) by done|by rewrite (filter_cons_False (acts_elsewhere n))].
           by rewrite filter_cons_False.
      * rewrite (phase_entries priors' s Hp' Hs). apply ordered_no_overlap, Ht, Hs.
    + constructor; [|constructor]. cbn [phase_number entries]. split; [by apply tree_ok_filter|]. split.
      * apply Forall_forall. by intros e [He _]%list_elem_of_filter.
      * intros k Hk. symmetry. by apply last_effect.
  - intros p Hnot. rewrite fmap_app, elem_of_app, Hph in Hnot. rewrite entries_of_mutation.
    assert (Hno : forall x, x ∈ all_entries priors ++ l -> owner x <> Some p).
    { intros x Hx E. apply Hnot. apply elem_of_app in Hx as [Hx|Hx].
      - left. apply list_elem_of_bind in Hx as (s & Hx & Hs). pose proof Hp as [_ Ho _]. rewrite Forall_forall in Ho. specialize (Ho s Hs).
        rewrite Forall_forall in Ho. rewrite (Ho x Hx) in E. injection E as <-. apply list_elem_of_fmap. by exists s.
      - rewrite Forall_forall in Hown. assert (Ex : phase_of x = p) by (by eapply (insert_acting x [] p)).
        destruct (Hown x Hx) as [E'|E']; [right|left; congruence]. rewrite <- Ex, E'. by left. }
    clear -Hno. induction (all_entries priors ++ l) as [|x r IH]; [done|].
    rewrite filter_cons_False by (apply Hno; by left). apply IH. intros y Hy. apply Hno. by right.
Qed.

(** C2: the trees of staged mutations hold what the operations mean.  Whatever the sequence of
    operations and barriers, for every key the entry of the last tree that covers it shows the last operation on
    the key in any phase.  After the entries have been moved to their phases, the phases ascend, the
    entries of every tree are in order, do not overlap and are of its phase, and for every key they say
    what the operations of that phase alone do to it: that it is deleted or written, by which source, and which
    sources were superseded, which must still be validated. *)
Theorem phases_correct ops : StronglySorted le ops.*1 -> Forall (fun op => operation_bytes op.2) ops ->
  tree_ok (last_entries (stage ops)) /\
  (forall k, byte_string k -> tree_view k (last_entries (stage ops)) = last_operation ops k) /\
  StronglySorted lt (phase_number <$> SeparatePhases (stage ops)) /\
  Forall (fun s => tree_ok (entries s) /\ Forall (fun e => owner e = Some (phase_number s)) (entries s) /\
    forall k, byte_string k -> tree_effect k (entries s) = phase_effect ops (phase_number s) k) (SeparatePhases (stage ops)) /\
  (forall p k, byte_string k -> p ∉ phase_number <$> SeparatePhases (stage ops) -> phase_effect ops p k = None).
Proof.
  intros Hs Hb. destruct (stage_spec ops Hs Hb) as (Hi & _ & He & Hv). destruct (SeparatePhases_spec _ Hi) as (H1 & H2 & H3).
  split; [apply Hi|]. split; [done|]. split; [done|]. split.
  - eapply Forall_impl; [exact H2|]. intros s (Ht & Ho & Hk). split; [done|]. split; [done|]. intros k Hkey. by rewrite Hk, He.
  - intros p k Hk Hp. rewrite <- He by done. by rewrite H3.
Qed.

Definition example_operations : list (nat * Operation) :=
  [(0%nat, OpReadModifyWrite [98] 0 0); (0%nat, OpDeleteRange (MkKeyRange [97] [99])); (1%nat, OpReadModifyWrite [98] 1 0)].

(** A key that is written and deleted in phase 0 and written again in phase 1: the first write must
    still be validated when phase 0 commits. *)
Lemma phases_correct_witness :
  phase_effect example_operations 0 [98] = Some (true, [0%nat]) /\
  Forall (fun s => tree_effect [98] (entries s) = phase_effect example_operations (phase_number s) [98])
    (SeparatePhases (stage example_operations)).
Proof.
  split; [reflexivity|].
  refine (Forall_impl _ _ _ (proj1 (proj2 (proj2 (proj2 (phases_correct example_operations _ _))))) _).
  - repeat constructor.
  - repeat (constructor || split || lia).
  - intros s (_ & _ & H). apply H. repeat (constructor || lia).
Defined.

(** The flags that a source sets on an entry when it is initialised are lost when the entry supersedes
    another one: only [kNonRetryable] of the other one remains. *)
Lemma target_flags_lost : exists m,
  last_entries (ReadModifyWrite m 0 [97] 1 (Z.lor kNonRetryable kSupportsByteRangeReads)).1 =
  [Rmw (MkRmw [97] (MkStep 1 0 0) [MkStep 0 0 kRevoked])].
Proof. exists (stage [(0%nat, OpReadModifyWrite [97] 0 0)]). reflexivity. Qed.
