(* ===== verification/MemoryCommit.v ===== *)
(** Atomic commits on the memory store: [MemoryDriver::TransactionNode] of
    [kvstore/memory/memory_key_value_store.cc], with what [AtomicMultiPhaseMutation] of
    [kvstore/transaction.{h,cc}] does around it.

    [WritebackPhase] asks the source of every entry of the tree of the phase for its value, and
    starts the counters of what is outstanding.  An answer says which value the source wants and
    which generation of the key that is conditioned on, or is an error; answers come in any order,
    and also before the counters are started.  When the counter of the phase gets to zero,
    [AllEntriesDone] validates all conditions and applies all mutations while it holds the lock of
    the store, so it is one step. *)

From S2P Require Import Prelude Bytes Generation KeyRange MemoryStore TransactionPhases.

(** The result of a writeback, which a [BufferedReadModifyWriteEntry] keeps; by the source of
    the entry. *)
Record Buffer := MkBuffer {
  stamp_ : TimestampedStorageGeneration;
  orig_generation_ : bytes;
  value_state_ : ReadState;
  value_ : bytes;
}.
Definition buffers := nat -> Buffer.

Definition set_buffer (bs : buffers) (src : nat) (b : Buffer) : buffers :=
  fun n => if (n =? src)%nat then b else bs n.
Definition set_time (b : Buffer) (t : Z) : Buffer :=
  MkBuffer (MkStamp (generation (stamp_ b)) t) (orig_generation_ b) (value_state_ b) (value_ b).
Definition set_generations (b : Buffer) (orig_generation new_generation : bytes) (t : Z) : Buffer :=
  MkBuffer (MkStamp new_generation t) orig_generation (value_state_ b) (value_ b).

(** What sources are told at the end: [KvsWritebackSuccess] or [KvsWritebackError]. *)
Inductive Notice :=
| KvsWritebackSuccess (new_stamp : TimestampedStorageGeneration) (orig_generation : bytes)
| KvsWritebackError.

(** The [prev_] pointers to entries of prior phases: [WritebackPhase] of a prior phase has set them
    to null when that phase was committed. *)
Definition disconnect_sequence (e : ReadModifyWriteEntry) : ReadModifyWriteEntry :=
  MkRmw (rmw_key e) (latest e) (filter (fun s => step_phase s = step_phase (latest e)) (prev e)).
Definition disconnect (e : MutationEntry) : MutationEntry :=
  match e with
  | Rmw e => Rmw (disconnect_sequence e)
  | Dr e => Dr (MkDr (placeholder e) (dr_phase e) (dr_key e) (dr_exclusive_max e) (disconnect_sequence <$> superseded e))
  end.

(** * Validation *)

Section commit.
Context (InfinitePast InfiniteFuture : Z).

Definition validate_entry (data : StoredKeyValuePairs) (commit_time : Z) (entry : ReadModifyWriteEntry) (bs : buffers) :
    bool * buffers :=
  let b := bs (source (latest entry)) in
  let if_equal := Clean (generation (stamp_ b)) in
  if IsUnknown if_equal then (true, bs)
  else
    let validated := set_buffer bs (source (latest entry)) (set_time b commit_time) in
    match Map.find (rmw_key entry) (values data) with
    | None => if IsNoValue if_equal then (true, validated) else (false, bs)
    | Some it => if Equivalent if_equal (value_generation it) then (true, validated) else (false, bs)
    end.

(** All are validated, also after one that is not valid. *)
Fixpoint validate_all {A} (validate : A -> buffers -> bool * buffers) (l : list A) (bs : buffers) : bool * buffers :=
  match l with
  | [] => (true, bs)
  | a :: l =>
      let '(validated, bs) := validate a bs in
      let '(others, bs) := validate_all validate l bs in
      (others && validated, bs)
  end.

Definition ValidateEntry (data : StoredKeyValuePairs) (commit_time : Z) (entry : MutationEntry) (bs : buffers) :
    bool * buffers :=
  match entry with
  | Rmw e => validate_entry data commit_time e bs
  | Dr e => validate_all (validate_entry data commit_time) (superseded e) bs
  end.

Definition ValidateEntryConditions (data : StoredKeyValuePairs) (commit_time : Z) (entries : list MutationEntry)
    (bs : buffers) : bool * buffers :=
  validate_all (ValidateEntry data commit_time) entries bs.

(** * Mutation *)

(** [None]: the iterators of a range are crossed. *)
Definition ApplyEntry (commit_time : Z) (st : StoredKeyValuePairs * buffers) (entry : MutationEntry) :
    option (StoredKeyValuePairs * buffers) :=
  let '(data, bs) := st in
  match entry with
  | Rmw e =>
      let b := bs (source (latest e)) in
      let g := generation (stamp_ b) in
      let update data new_generation :=
        Some (data, set_buffer bs (source (latest e)) (set_generations b g new_generation commit_time)) in
      if negb (IsDirty g) then update data g
      else
        match value_state_ b with
        | kMissing => update (erase data (rmw_key e)) NoValue
        | _ => let '(data, new_generation) := put data (rmw_key e) (value_ b) in update data new_generation
        end
  | Dr e => data ← erase_found data (MkKeyRange (dr_key e) (dr_exclusive_max e)); Some (data, bs)
  end.

Fixpoint ApplyMutation (commit_time : Z) (entries : list MutationEntry) (st : StoredKeyValuePairs * buffers) :
    option (StoredKeyValuePairs * buffers) :=
  match entries with
  | [] => Some st
  | entry :: entries => st ← ApplyEntry commit_time st entry; ApplyMutation commit_time entries st
  end.

(** * What the sources are told *)

Definition WritebackSuccess (e : ReadModifyWriteEntry) (new_stamp : TimestampedStorageGeneration) (orig_generation : bytes) :
    list (nat * Notice) :=
  (fun s => (source s, KvsWritebackSuccess new_stamp orig_generation)) <$> (latest e :: prev e).

Definition AtomicCommitWritebackSuccess (bs : buffers) (entries : list MutationEntry) : list (nat * Notice) :=
  entries ≫= fun entry =>
    match entry with
    | Rmw e => let b := bs (source (latest e)) in WritebackSuccess e (stamp_ b) (orig_generation_ b)
    | Dr e => superseded e ≫= fun e => WritebackSuccess e (MkStamp Unknown InfiniteFuture) Unknown
    end.

(** A sequence with the flag [kError] has been told before. *)
Definition WritebackError (e : ReadModifyWriteEntry) : ReadModifyWriteEntry * list (nat * Notice) :=
  (with_latest e (fetch_or (latest e) kError),
   if has (flags (latest e)) kError then []
   else (fun s => (source s, KvsWritebackError)) <$> (latest e :: prev e)).

Definition set_superseded (d : DeleteRangeEntry) (l : list ReadModifyWriteEntry) : DeleteRangeEntry :=
  MkDr (placeholder d) (dr_phase d) (dr_key d) (dr_exclusive_max d) l.

(** [WritebackError] and [WritebackSuccess] of a [DeleteRangeEntry]. *)
Definition WritebackErrorDr (d : DeleteRangeEntry) : DeleteRangeEntry * list (nat * Notice) :=
  (set_superseded d (fst ∘ WritebackError <$> superseded d), superseded d ≫= snd ∘ WritebackError).
Definition WritebackSuccessDr (d : DeleteRangeEntry) : list (nat * Notice) :=
  superseded d ≫= fun e => WritebackSuccess e (MkStamp Unknown InfiniteFuture) Unknown.

(** [WritebackError] of a [SinglePhaseMutation]. *)
Definition WritebackErrors (entries : list MutationEntry) : list (nat * Notice) :=
  entries ≫= fun entry =>
    match entry with
    | Rmw e => (WritebackError e).2
    | Dr e => (WritebackErrorDr e).2
    end.

(** [RetryAtomicWriteback]: the entries whose stamp is out of date are written back again. *)
Definition IsOutOfDate (b : Buffer) (staleness_bound : Z) : bool :=
  (time (stamp_ b) =? InfinitePast) || (time (stamp_ b) <? staleness_bound).

Definition read_modify_writes (entries : list MutationEntry) : list ReadModifyWriteEntry :=
  entries ≫= fun entry => match entry with Rmw e => [e] | Dr e => superseded e end.

Definition RetryAtomicWriteback (bs : buffers) (staleness_bound : Z) (entries : list MutationEntry) : list nat :=
  source ∘ latest <$> filter (fun e => IsOutOfDate (bs (source (latest e))) staleness_bound = true) (read_modify_writes entries).

(** * The commit of a phase *)

Inductive Outcome :=
| Committed (notices : list (nat * Notice))
| Retried (written_back_again : list nat)
| Failed (notices : list (nat * Notice)).

Definition AllEntriesDone (data : StoredKeyValuePairs) (entries : list MutationEntry) (bs : buffers) (has_error : bool)
    (commit_time : Z) : option (StoredKeyValuePairs * buffers * Outcome) :=
  if negb has_error then
    let '(validated, bs) := ValidateEntryConditions data commit_time entries bs in
    if negb validated then Some (data, bs, Retried (RetryAtomicWriteback bs commit_time entries))
    else
      '(data, bs) ← ApplyMutation commit_time entries (data, bs);
      Some (data, bs, Committed (AtomicCommitWritebackSuccess bs entries))
  else Some (data, bs, Failed (WritebackErrors entries)).

(** * Outstanding entries *)

(** [EntryCounter]: twice the count, and the error indicator in the lowest bit; [size_t] wraps. *)
Definition SetError (c : Z) : Z := Z.lor c 1.
Definition HasError (c : Z) : bool := Z.testbit c 0.
Definition DecrementCount (c amount : Z) : Z * bool := let c := (c - 2 * amount) mod 2 ^ 64 in (c, c <=? 1).

(** A phase that is written back: its entries, each with its [remaining_entries_] if it is a
    [DeleteRangeEntry], and the [remaining_entries_] of the phase.  The outcomes are
    those of the calls of [AllEntriesDone]. *)
Record CommitState := MkCommitState {
  stored : StoredKeyValuePairs;
  phase_entries : list (MutationEntry * Z);
  remaining_entries_ : Z;
  entry_buffers : buffers;
  told : list (nat * Notice);
  outcomes : list Outcome;
}.

Definition start_of_round (data : StoredKeyValuePairs) (entries : list MutationEntry) (bs : buffers) : CommitState :=
  MkCommitState data ((fun e => (e, 0)) <$> entries) 0 bs [] [].

Definition with_entry (st : CommitState) (i : nat) (e : MutationEntry) (c : Z) : CommitState :=
  MkCommitState (stored st) (<[i := (e, c)]> (phase_entries st)) (remaining_entries_ st) (entry_buffers st) (told st) (outcomes st).
Definition with_remaining (st : CommitState) (c : Z) : CommitState :=
  MkCommitState (stored st) (phase_entries st) c (entry_buffers st) (told st) (outcomes st).
Definition with_buffer (st : CommitState) (src : nat) (b : Buffer) : CommitState :=
  MkCommitState (stored st) (phase_entries st) (remaining_entries_ st) (set_buffer (entry_buffers st) src b) (told st) (outcomes st).
Definition tell (st : CommitState) (notices : list (nat * Notice)) : CommitState :=
  MkCommitState (stored st) (phase_entries st) (remaining_entries_ st) (entry_buffers st) (told st ++ notices) (outcomes st).

(** The call of [AllEntriesDone] when nothing is outstanding. *)
Definition finish (commit_time : Z) (st : CommitState) : option CommitState :=
  '(data, bs, o) ← AllEntriesDone (stored st) (phase_entries st).*1 (entry_buffers st) (HasError (remaining_entries_ st)) commit_time;
  Some (MkCommitState data (phase_entries st) (remaining_entries_ st) bs (told st) (outcomes st ++ [o])).

Definition EntryDone (commit_time : Z) (st : CommitState) (error : bool) (count : Z) : option CommitState :=
  let c := if error then SetError (remaining_entries_ st) else remaining_entries_ st in
  let '(c, done) := DecrementCount c count in
  let st := with_remaining st c in
  if negb done then Some st else finish commit_time st.

Definition HandleDeleteRangeDone (commit_time : Z) (st : CommitState) (i : nat) (d : DeleteRangeEntry) (c : Z) : option CommitState :=
  let error := HasError c in
  if error then
    let '(d, notices) := WritebackErrorDr d in EntryDone commit_time (tell (with_entry st i (Dr d) c) notices) error 1
  else EntryDone commit_time (tell st (WritebackSuccessDr d)) error 1.

(** [WritebackDelete] of [AtomicMultiPhaseMutationBase]: the deletion waits for the commit. *)
Definition WritebackDelete (commit_time : Z) (st : CommitState) : option CommitState := EntryDone commit_time st false 1.

Definition DeletedEntryDone (commit_time : Z) (st : CommitState) (i : nat) (error : bool) (count : Z) : option CommitState :=
  match phase_entries st !! i with
  | Some (Dr d, c) =>
      let c := if error then SetError c else c in
      let '(c, done) := DecrementCount c count in
      let st := with_entry st i (Dr d) c in
      if negb done then Some st
      else if HasError c then HandleDeleteRangeDone commit_time st i d c
      else WritebackDelete commit_time st
  | _ => None
  end.

(** * Answers of sources *)

(** [Writeback] of [AtomicMultiPhaseMutation]. *)
Definition set_result (b : Buffer) (r : ReadResult) : Buffer :=
  MkBuffer (stamp r) (orig_generation_ b) (state r) (read_value r).

(** [Controller::Error] with [RecordEntryWritebackError], or [Writeback] with [AtomicWritebackReady].
    A sequence of entries is that of a [Rmw] entry, or one that a deletion supersedes. *)
Definition ReceiveWriteback (commit_time : Z) (st : CommitState) (i j : nat) (answer : option ReadResult) : option CommitState :=
  match phase_entries st !! i with
  | Some (Rmw e, c) =>
      match answer with
      | Some r => EntryDone commit_time (with_buffer st (source (latest e)) (set_result (entry_buffers st (source (latest e))) r)) false 1
      | None => let '(e, notices) := WritebackError e in
          EntryDone commit_time (tell (with_entry st i (Rmw e) c) notices) true 1
      end
  | Some (Dr d, c) =>
      e ← superseded d !! j;
      match answer with
      | Some r => DeletedEntryDone commit_time (with_buffer st (source (latest e)) (set_result (entry_buffers st (source (latest e))) r)) i false 1
      | None => let '(e, notices) := WritebackError e in
          DeletedEntryDone commit_time (tell (with_entry st i (Dr (set_superseded d (<[j := e]> (superseded d)))) c) notices) i true 1
      end
  | None => None
  end.

(** What [WritebackPhase] leads to: the answers of the sources that it asks, and the ends of the loops
    over the superseded entries of a deletion and over the entries of the phase, which
    start the counters. *)
Inductive Event :=
| Answered (i j : nat) (answer : option ReadResult)
| DeleteStarted (i : nat) (deleted_entry_count : Z)
| PhaseStarted (entry_count : Z).

Definition handle (commit_time : Z) (st : CommitState) (ev : Event) : option CommitState :=
  match ev with
  | Answered i j answer => ReceiveWriteback commit_time st i j answer
  | DeleteStarted i deleted_entry_count => DeletedEntryDone commit_time st i false (- deleted_entry_count)
  | PhaseStarted entry_count => EntryDone commit_time st false (- entry_count)
  end.

Fixpoint run (commit_time : Z) (events : list Event) (st : CommitState) : option CommitState :=
  match events with
  | [] => Some st
  | ev :: events => st ← handle commit_time st ev; run commit_time events st
  end.

Section writeback.
Context (predicate : ReadModifyWriteEntry -> bool) (answer : nat -> option ReadResult).

Definition sequences (e : MutationEntry) : list ReadModifyWriteEntry := match e with Rmw e => [e] | Dr d => superseded d end.

Definition StartWritebacks (i : nat) (l : list ReadModifyWriteEntry) : list Event :=
  mjoin (imap (fun j e => if predicate e then [Answered i j (answer (source (latest e)))] else []) l).

Definition writeback_entry (i : nat) (e : MutationEntry) : list Event :=
  match e with
  | Rmw e => StartWritebacks i [e]
  | Dr d => StartWritebacks i (superseded d) ++ [DeleteStarted i (Z.of_nat (length (StartWritebacks i (superseded d))))]
  end.

Definition counted (e : MutationEntry) : bool := match e with Rmw e => predicate e | Dr _ => true end.

Definition WritebackPhase (entries : list MutationEntry) : list Event :=
  mjoin (imap writeback_entry entries) ++ [PhaseStarted (Z.of_nat (length (filter (fun e => counted e = true) entries)))].

End writeback.

End commit.
