(* ===== verification/MemoryWriteback.v ===== *)
(** The writeback of a phase: in whatever order the sources answer and the counters are started,
    [AllEntriesDone] runs once, when the last of these events has happened; it sees an error exactly when one of the
    answers is one, and until then every sequence of entries with an error has been told once. *)

From S2P Require Import Prelude Bytes Generation MemoryStore TransactionPhases MemoryCommit.

(** * Counters *)

Definition latch (x : Z) (error : bool) : Z := (2 * x + Z.b2z error) mod 2 ^ 64.

Lemma latch_eq x error : latch x error = 2 * (x mod 2 ^ 63) + Z.b2z error.
Proof.
  unfold latch. pose proof (Z.mod_pos_bound x (2 ^ 63) ltac:(lia)). symmetry. apply Z.mod_unique_pos with (q := x / 2 ^ 63).
  - destruct error; cbn; lia.
  - pose proof (Z.div_mod x (2 ^ 63) ltac:(lia)). lia.
Qed.

Lemma SetError_latch x error : SetError (latch x error) = latch x true.
Proof.
  rewrite !latch_eq. unfold SetError. generalize (x mod 2 ^ 63). intros y. apply Z.bits_inj'. intros n Hn. rewrite Z.lor_spec.
  destruct (Z.eq_dec n 0) as [->|Hne].
  - rewrite orb_true_r. symmetry. cbn [Z.b2z]. apply Z.testbit_odd_0.
  - replace n with (Z.succ (n - 1)) by lia. change 1 with (2 * 0 + 1) at 2. cbn [Z.b2z].
    rewrite !Z.testbit_odd_succ, Z.bits_0, orb_false_r by lia. destruct error; cbn [Z.b2z].
    + apply Z.testbit_odd_succ. lia.
    + rewrite Z.add_0_r. apply Z.testbit_even_succ. lia.
Qed.

Lemma set_error_latch x (error error' : bool) : (if error' then SetError (latch x error) else latch x error) = latch x (error || error').
Proof. destruct error'; [rewrite SetError_latch, orb_true_r; done|by rewrite orb_false_r]. Qed.

Lemma HasError_latch x error : HasError (latch x error) = error.
Proof.
  rewrite latch_eq. unfold HasError. destruct error; cbn [Z.b2z]; [apply Z.testbit_odd_0|rewrite Z.add_0_r; apply Z.testbit_even_0].
Qed.

Lemma DecrementCount_latch x error amount : - 2 ^ 63 < x - amount < 2 ^ 63 ->
  DecrementCount (latch x error) amount = (latch (x - amount) error, x - amount =? 0).
Proof.
  intros H. unfold DecrementCount. assert (E : (latch x error - 2 * amount) mod 2 ^ 64 = latch (x - amount) error).
  { unfold latch. rewrite Zminus_mod_idemp_l. f_equal. lia. }
  rewrite E. f_equal. rewrite latch_eq. apply eq_true_iff_eq. rewrite Z.leb_le, Z.eqb_eq.
  pose proof (Z.mod_pos_bound (x - amount) (2 ^ 63) ltac:(lia)). split.
  - intros Hle. assert (E0 : (x - amount) mod 2 ^ 63 = 0) by (destruct error; cbn in Hle; lia).
    apply Z.mod_divide in E0 as [q Hq]; [|lia]. assert (q = 0) by lia. lia.
  - intros ->. rewrite Z.mod_0_l by lia. destruct error; cbn; lia.
Qed.

(** * Occurrences *)

Definition occ {A} (p : A -> bool) (l : list A) : nat := length (filter (fun x => p x = true) l).

Lemma occ_cons {A} (p : A -> bool) x l : occ p (x :: l) = ((if p x then 1 else 0) + occ p l)%nat.
Proof. unfold occ. destruct (p x) eqn:E; [by rewrite filter_cons_True|]. by rewrite filter_cons_False by congruence. Qed.
Lemma occ_app {A} (p : A -> bool) l1 l2 : occ p (l1 ++ l2) = (occ p l1 + occ p l2)%nat.
Proof. unfold occ. by rewrite filter_app, length_app. Qed.
Lemma occ_perm {A} (p : A -> bool) l1 l2 : l1 ≡ₚ l2 -> occ p l1 = occ p l2.
Proof. unfold occ. by intros ->. Qed.
Lemma occ_none {A} (p : A -> bool) l : (forall x, x ∈ l -> p x = false) -> occ p l = 0%nat.
Proof.
  induction l as [|x l IH]; intros H; [done|]. rewrite occ_cons, H, IH by (by left || (intros; apply H; by right)). done.
Qed.
Lemma occ_all {A} (p : A -> bool) l : (forall x, x ∈ l -> p x = true) -> occ p l = length l.
Proof.
  induction l as [|x l IH]; intros H; [done|]. rewrite occ_cons, H, IH by (by left || (intros; apply H; by right)). done.
Qed.
Lemma occ_ext {A} (p q : A -> bool) l : (forall x, x ∈ l -> p x = q x) -> occ p l = occ q l.
Proof.
  induction l as [|x l IH]; intros H; [done|]. rewrite !occ_cons, H, IH by (by left || (intros; apply H; by right)). done.
Qed.
Lemma occ_pos {A} (p : A -> bool) l : (0 < occ p l)%nat <-> exists x, x ∈ l /\ p x = true.
Proof.
  split.
  - induction l as [|x l IH]; [cbn; lia|]. rewrite occ_cons. destruct (p x) eqn:E; [exists x; split; [by left|done]|].
    intros (y & Hy & H)%IH. exists y. split; [by right|done].
  - intros (x & Hx & H). apply list_elem_of_split in Hx as (l1 & l2 & ->). rewrite occ_app, occ_cons, H. lia.
Qed.
Lemma occ_le {A} (p : A -> bool) l : (occ p l <= length l)%nat.
Proof. apply length_filter. Qed.

(** One element less. *)
Lemma occ_drop (p q : nat -> bool) i l : NoDup l -> i ∈ l -> p i = true -> q i = false ->
  (forall j, j <> i -> p j = q j) -> occ p l = S (occ q l).
Proof.
  intros Hd Hi Hp Hq H. apply list_elem_of_split in Hi as (l1 & l2 & ->). apply NoDup_app in Hd as (_ & Hx & [Hn _]%NoDup_cons).
  rewrite !occ_app, !occ_cons, Hp, Hq, (occ_ext p q l1), (occ_ext p q l2); [lia| |]; intros j Hj; apply H; intros ->; [done|].
  apply (Hx i Hj). by left.
Qed.

Lemma occ_seq {A} (g : nat -> bool) (p : A -> bool) l : forall k, (forall i x, l !! i = Some x -> g (k + i)%nat = p x) ->
  occ g (seq k (length l)) = occ p l.
Proof.
  induction l as [|x l IH]; intros k H; [done|]. cbn [length seq]. rewrite !occ_cons, <- (H 0%nat x), Nat.add_0_r by done. f_equal.
  apply IH. intros i y Hi. rewrite <- (H (S i) y) by done. f_equal. lia.
Qed.

Lemma occ_mjoin_imap {A B} (p : B -> bool) l : forall (f : nat -> A -> list B) i e, l !! i = Some e ->
  (forall j x, j <> i -> l !! j = Some x -> occ p (f j x) = 0%nat) -> occ p (mjoin (imap f l)) = occ p (f i e).
Proof.
  induction l as [|x l IH]; intros f i e Hi H; [done|]. rewrite imap_cons. cbn [mjoin list_join]. rewrite occ_app. destruct i as [|i].
  - injection Hi as ->. rewrite (occ_none p (mjoin _)); [lia|]. intros y Hy. apply list_elem_of_join in Hy as (ys & Hy & Hys).
    apply elem_of_lookup_imap_1 in Hys as (j & z & -> & Hz). cbn in Hy. specialize (H (S j) z ltac:(lia) Hz).
    destruct (p y) eqn:E; [|done]. assert (0 < occ p (f (S j) z))%nat by (apply occ_pos; by exists y). lia.
  - rewrite (H 0%nat x) by done. apply (IH (f ∘ S) i e Hi). intros j z Hj Hz. apply (H (S j) z); [lia|done].
Qed.

Lemma bind_insert_perm {A B} (f : A -> list B) l i x y ns : l !! i = Some x -> f y ≡ₚ f x ++ ns ->
  (<[i := y]> l) ≫= f ≡ₚ (l ≫= f) ++ ns.
Proof.
  intros Hi Hf. rewrite insert_take_drop by (by eapply lookup_lt_Some). rewrite <- (take_drop_middle l i x Hi) at 3.
  rewrite !bind_app, !bind_cons, Hf, <- !app_assoc. f_equiv. f_equiv. apply Permutation_app_comm.
Qed.

Lemma bind_split_perm {A B} (f g h : A -> list B) l : (forall x, x ∈ l -> f x ≡ₚ g x ++ h x) -> l ≫= f ≡ₚ (l ≫= g) ++ (l ≫= h).
Proof.
  induction l as [|x l IH]; intros H; [done|]. rewrite !bind_cons, (H x), IH by (by left || (intros; apply H; by right)).
  rewrite <- !app_assoc. f_equiv. rewrite !app_assoc. f_equiv. apply Permutation_app_comm.
Qed.

(** * Sequences that have been told *)

Definition error_notices (r : ReadModifyWriteEntry) : list (nat * Notice) :=
  (fun s => (source s, KvsWritebackError)) <$> (latest r :: prev r).
Definition told_of (r : ReadModifyWriteEntry) : list (nat * Notice) := if has (flags (latest r)) kError then error_notices r else [].

(** A sequence before or after [WritebackError]. *)
Definition seq_marked (r r' : ReadModifyWriteEntry) : Prop := r' = r \/ r' = (WritebackError r).1.

Lemma has_kError f : has (Z.lor f kError) kError = true.
Proof.
  unfold has, kError. apply negb_true_iff, Z.eqb_neq. intros E. apply (f_equal (fun z => Z.testbit z 4)) in E.
  rewrite Z.land_spec, Z.lor_spec, Z.bits_0, orb_true_r in E. done.
Qed.

Lemma WritebackError_twice r : (WritebackError (WritebackError r).1).1 = (WritebackError r).1.
Proof.
  unfold WritebackError, with_latest, fetch_or, with_flags. cbn [fst rmw_key latest prev source step_phase flags].
  by rewrite <- Z.lor_assoc, Z.lor_diag.
Qed.

Lemma seq_marked_again r r' : seq_marked r r' -> (WritebackError r').1 = (WritebackError r).1.
Proof. intros [->| ->]; [done|apply WritebackError_twice]. Qed.

Lemma seq_marked_source r r' : seq_marked r r' -> source (latest r') = source (latest r).
Proof. by intros [->| ->]. Qed.

Lemma error_notices_marked r r' : seq_marked r r' -> error_notices r' = error_notices r.
Proof. by intros [->| ->]. Qed.

Lemma told_of_WritebackError r : told_of (WritebackError r).1 = told_of r ++ (WritebackError r).2.
Proof.
  unfold told_of, WritebackError. cbn [fst snd with_latest fetch_or with_flags latest flags]. rewrite has_kError.
  destruct (has _ kError); [by rewrite app_nil_r|done].
Qed.

Lemma told_at_the_end r : told_of r ++ (WritebackError r).2 = error_notices r.
Proof. unfold told_of, WritebackError. cbn [snd]. destruct (has _ kError); [by rewrite app_nil_r|done]. Qed.

Definition entry_marked (e e' : MutationEntry) : Prop :=
  match e, e' with
  | Rmw r, Rmw r' => seq_marked r r'
  | Dr d, Dr d' => exists l, d' = set_superseded d l /\ Forall2 seq_marked (superseded d) l
  | _, _ => False
  end.

Lemma entry_marked_refl e : entry_marked e e.
Proof.
  destruct e as [r|d]; [by left|]. exists (superseded d). split; [by destruct d|]. apply Forall2_same_length_lookup.
  split; [done|]. intros i x y -> [= ->]. by left.
Qed.

Lemma entry_marked_sequences e e' : entry_marked e e' -> Forall2 seq_marked (sequences e) (sequences e').
Proof. destruct e, e'; cbn; try done; [intros H; by constructor; [|constructor]|]. by intros (l & -> & H). Qed.

Definition told_entry (e : MutationEntry) : list (nat * Notice) := sequences e ≫= told_of.

Lemma told_WritebackErrorDr d : told_entry (Dr (WritebackErrorDr d).1) ≡ₚ told_entry (Dr d) ++ (WritebackErrorDr d).2.
Proof.
  unfold told_entry, WritebackErrorDr. cbn [fst snd sequences set_superseded superseded].
  induction (superseded d) as [|r l IH]; [done|]. rewrite fmap_cons, !bind_cons. cbn [compose].
  rewrite told_of_WritebackError, IH, <- !app_assoc. f_equiv. rewrite !app_assoc. f_equiv. apply Permutation_app_comm.
Qed.

Lemma Forall2_seq_marked_errors l l' : Forall2 seq_marked l l' -> Forall2 seq_marked l (fst ∘ WritebackError <$> l').
Proof. induction 1 as [|r r' l l' Hr _ IH]; constructor; [|done]. right. cbn. by apply seq_marked_again. Qed.

(** All of the notices: those that were told before and those of [WritebackErrors]. *)
Lemma all_told l l' : Forall2 entry_marked l l' -> (l' ≫= told_entry) ++ WritebackErrors l' ≡ₚ read_modify_writes l ≫= error_notices.
Proof.
  induction 1 as [|e e' l l' He _ IH]; [done|]. unfold WritebackErrors in *. rewrite !bind_cons.
  change (read_modify_writes (e :: l)) with (sequences e ++ read_modify_writes l). rewrite bind_app, <- IH, <- !app_assoc.
  assert (E : told_entry e' ++ (match e' with Rmw r => (WritebackError r).2 | Dr d => (WritebackErrorDr d).2 end) ≡ₚ sequences e ≫= error_notices).
  { transitivity (sequences e' ≫= error_notices).
    - unfold told_entry. assert (Hb : (match e' with Rmw r => (WritebackError r).2 | Dr d => (WritebackErrorDr d).2 end) = sequences e' ≫= snd ∘ WritebackError)
        by (destruct e'; [cbn [sequences]; rewrite bind_singleton|]; done).
      rewrite Hb. symmetry. apply bind_split_perm. intros r _. by rewrite told_at_the_end.
    - apply entry_marked_sequences in He. induction He as [|r r' rs rs' Hr _ IHr]; [done|].
      by rewrite !bind_cons, (error_notices_marked r r' Hr), IHr. }
  rewrite <- E, <- !app_assoc. f_equiv. rewrite !app_assoc. f_equiv. apply Permutation_app_comm.
Qed.

(** * The events of a phase *)

Definition answer_of (i : nat) (ev : Event) : bool := match ev with Answered i' _ _ => (i =? i')%nat | _ => false end.
Definition start_of (i : nat) (ev : Event) : bool := match ev with DeleteStarted i' _ => (i =? i')%nat | _ => false end.
Definition phase_start (ev : Event) : bool := match ev with PhaseStarted _ => true | _ => false end.
Definition error_of (i : nat) (ev : Event) : bool := match ev with Answered i' _ None => (i =? i')%nat | _ => false end.

(** Whether there is an event of the entry [i]. *)
Definition active (evs : list Event) (i : nat) : bool := negb (occ (answer_of i) evs + occ (start_of i) evs =? 0)%nat.

Section round.
Context (predicate : ReadModifyWriteEntry -> bool) (answer : nat -> option ReadResult) (es : list MutationEntry).

Abbreviation phase_events := (WritebackPhase predicate answer es).

Definition asked (i : nat) (e : MutationEntry) : nat := length (StartWritebacks predicate answer i (sequences e)).

Lemma StartWritebacks_elem i l ev : ev ∈ StartWritebacks predicate answer i l <->
  exists j r, l !! j = Some r /\ predicate r = true /\ ev = Answered i j (answer (source (latest r))).
Proof.
  unfold StartWritebacks. rewrite list_elem_of_join. split.
  - intros (evs & Hev & Hin). apply elem_of_lookup_imap_1 in Hin as (j & r & -> & Hr). destruct (predicate r) eqn:E; [|by apply elem_of_nil in Hev].
    apply list_elem_of_singleton in Hev as ->. by exists j, r.
  - intros (j & r & Hr & Hp & ->). exists [Answered i j (answer (source (latest r)))]. split; [by left|].
    apply elem_of_lookup_imap. exists j, r. by rewrite Hp.
Qed.

Lemma mjoin_imap_short {A B} (l : list A) : forall f : nat -> A -> list B, (forall j x, length (f j x) <= 1)%nat ->
  (length (mjoin (imap f l)) <= length l)%nat.
Proof.
  induction l as [|x l IH]; intros f Hf; [done|]. rewrite imap_cons. cbn [mjoin list_join length]. rewrite length_app.
  exact (Nat.add_le_mono _ 1 _ _ (Hf 0%nat x) (IH (f ∘ S) (fun j y => Hf (S j) y))).
Qed.

Lemma StartWritebacks_length i l : (length (StartWritebacks predicate answer i l) <= length l)%nat.
Proof. apply mjoin_imap_short. intros j r. destruct (predicate r); cbn; lia. Qed.

(** What an event is. *)
Definition event_ok (ev : Event) : Prop :=
  match ev with
  | Answered i j a => exists e r, es !! i = Some e /\ sequences e !! j = Some r /\ predicate r = true /\ a = answer (source (latest r))
  | DeleteStarted i n => exists d, es !! i = Some (Dr d) /\ n = Z.of_nat (asked i (Dr d))
  | PhaseStarted n => n = Z.of_nat (occ (counted predicate) es)
  end.

Lemma writeback_entry_elem i e ev : ev ∈ writeback_entry predicate answer i e <->
  (exists j r, sequences e !! j = Some r /\ predicate r = true /\ ev = Answered i j (answer (source (latest r)))) \/
  (exists d, e = Dr d /\ ev = DeleteStarted i (Z.of_nat (asked i e))).
Proof.
  destruct e as [r|d]; cbn [writeback_entry].
  - rewrite StartWritebacks_elem. split; [auto|]. intros [H|(d & [=] & _)]; exact H.
  - rewrite elem_of_app, StartWritebacks_elem, list_elem_of_singleton. split; (intros [H|H]; [by left|right]).
    + exists d. done.
    + by destruct H as (d' & [= <-] & ->).
Qed.

Lemma phase_events_elem ev : ev ∈ phase_events <->
  ev = PhaseStarted (Z.of_nat (occ (counted predicate) es)) \/ exists i e, es !! i = Some e /\ ev ∈ writeback_entry predicate answer i e.
Proof.
  unfold WritebackPhase. rewrite elem_of_app, list_elem_of_singleton, list_elem_of_join. split.
  - intros [(evs & Hev & Hin)|H]; [right|by left]. apply elem_of_lookup_imap_1 in Hin as (i & e & -> & He). by exists i, e.
  - intros [H|(i & e & He & Hev)]; [by right|left]. exists (writeback_entry predicate answer i e). split; [done|]. apply elem_of_lookup_imap. by exists i, e.
Qed.

Lemma phase_event_ok ev : ev ∈ phase_events -> event_ok ev.
Proof.
  intros [->|(i & e & He & H)]%phase_events_elem; [done|]. apply writeback_entry_elem in H as [(j & r & Hr & Hp & ->)|(d & -> & ->)].
  - by exists e, r.
  - by exists d.
Qed.

(** Occurrences in the events of the phase. *)
Lemma writeback_entry_occ i e : 
  occ (answer_of i) (writeback_entry predicate answer i e) = asked i e /\
  occ (start_of i) (writeback_entry predicate answer i e) = (match e with Rmw _ => 0 | Dr _ => 1 end)%nat /\
  forall j, j <> i -> occ (answer_of j) (writeback_entry predicate answer i e) = 0%nat /\ occ (start_of j) (writeback_entry predicate answer i e) = 0%nat.
Proof.
  assert (H1 : occ (answer_of i) (StartWritebacks predicate answer i (sequences e)) = asked i e).
  { apply occ_all. intros ev (j & r & _ & _ & ->)%StartWritebacks_elem. apply Nat.eqb_refl. }
  assert (H2 : occ (start_of i) (StartWritebacks predicate answer i (sequences e)) = 0%nat).
  { apply occ_none. by intros ev (j & r & _ & _ & ->)%StartWritebacks_elem. }
  split; [|split].
  - destruct e as [r|d]; cbn [writeback_entry]; [exact H1|]. rewrite occ_app. cbn [sequences] in *. rewrite H1. apply Nat.add_0_r.
  - destruct e as [r|d]; cbn [writeback_entry]; [exact H2|]. rewrite occ_app. cbn [sequences] in *. rewrite H2, occ_cons. cbn.
    by rewrite Nat.eqb_refl.
  - intros j Hj. split; apply occ_none; intros ev [(j' & r & _ & _ & ->)|(d & -> & ->)]%writeback_entry_elem; try done; by apply Nat.eqb_neq.
Qed.

Lemma phase_events_occ i e : es !! i = Some e ->
  occ (answer_of i) phase_events = asked i e /\ occ (start_of i) phase_events = (match e with Rmw _ => 0 | Dr _ => 1 end)%nat.
Proof.
  intros He. destruct (writeback_entry_occ i e) as (H1 & H2 & _). unfold WritebackPhase. rewrite !occ_app, !occ_cons. cbn [answer_of start_of].
  rewrite !(occ_mjoin_imap _ es _ i e He), H1, H2; [cbn; by rewrite !Nat.add_0_r| |]; intros j x Hj _; by apply (writeback_entry_occ j x).
Qed.

Lemma phase_events_start : occ phase_start phase_events = 1%nat.
Proof.
  unfold WritebackPhase. rewrite occ_app, occ_none; [done|]. intros ev Hev. apply list_elem_of_join in Hev as (evs & Hev & Hin).
  apply elem_of_lookup_imap_1 in Hin as (i & e & -> & _). by apply writeback_entry_elem in Hev as [(j & r & _ & _ & ->)|(d & _ & ->)].
Qed.

Lemma asked_Rmw i r : asked i (Rmw r) = (if predicate r then 1 else 0)%nat.
Proof. unfold asked, StartWritebacks. cbn. by destruct (predicate r). Qed.

Lemma phase_active i e : es !! i = Some e -> active phase_events i = counted predicate e.
Proof.
  intros He. unfold active. destruct (phase_events_occ i e He) as [-> ->]. destruct e as [r|d]; cbn [counted].
  - rewrite asked_Rmw. by destruct (predicate r).
  - apply negb_true_iff, Nat.eqb_neq. lia.
Qed.

Definition open (evs : list Event) : nat := occ (active evs) (seq 0 (length es)).

Lemma phase_open : open phase_events = occ (counted predicate) es.
Proof. apply occ_seq. intros i e He. by apply phase_active. Qed.

(** * The state after some of the events *)

Context (InfinitePast InfiniteFuture t : Z) (data : StoredKeyValuePairs) (bs : buffers).
Hypothesis Hsize : Z.of_nat (length es) < 2 ^ 63.
Hypothesis Hsizes : Forall (fun e => Z.of_nat (length (sequences e)) < 2 ^ 63) es.

Definition failed (past : list Event) (i : nat) : bool := (0 <? occ (error_of i) past)%nat.

(** What is outstanding of a deletion, and of the phase: the counts are negative before they are started. *)
Definition entry_count (todo : list Event) (i : nat) (e : MutationEntry) : Z :=
  Z.of_nat (occ (answer_of i) todo) - Z.of_nat (asked i e) * Z.of_nat (occ (start_of i) todo).
Definition counter (past todo : list Event) (i : nat) (e : MutationEntry) : Z :=
  match e with Rmw _ => 0 | Dr _ => latch (entry_count todo i e) (failed past i) end.

Definition phase_count (todo : list Event) : Z :=
  Z.of_nat (open todo) - Z.of_nat (occ (counted predicate) es) * Z.of_nat (occ phase_start todo).
Definition phase_failed (past todo : list Event) : bool :=
  (0 <? occ (fun i => negb (active todo i) && failed past i) (seq 0 (length es)))%nat.
Definition phase_counter (past todo : list Event) : Z := latch (phase_count todo) (phase_failed past todo).

Definition answered_source (ev : Event) : option nat :=
  match ev with Answered i j (Some _) => e ← es !! i; r ← sequences e !! j; Some (source (latest r)) | _ => None end.
Definition result_of (n : nat) : Buffer := match answer n with Some r => set_result (bs n) r | None => bs n end.

Record state_ok (past : list Event) (cnt : nat -> MutationEntry -> Z) (rem : Z) (st : CommitState) : Prop := MkStateOk {
  so_stored : stored st = data;
  so_outcomes : outcomes st = [];
  so_length : length (phase_entries st) = length es;
  so_entries : forall i e, es !! i = Some e -> exists e', phase_entries st !! i = Some (e', cnt i e) /\ entry_marked e e' /\
    (failed past i = false -> e' = e);
  so_remaining : remaining_entries_ st = rem;
  so_told : told st ≡ₚ (phase_entries st).*1 ≫= told_entry;
  so_buffers : forall n, entry_buffers st n = if bool_decide (Some n ∈ answered_source <$> past) then result_of n else bs n
}.

Lemma state_ok_ext past cnt cnt' rem st : (forall i e, es !! i = Some e -> cnt i e = cnt' i e) ->
  state_ok past cnt rem st -> state_ok past cnt' rem st.
Proof. intros H [H1 H2 H3 H4 H5 H6 H7]. split; try done. intros i e He. rewrite <- (H i e He). by apply H4. Qed.

Lemma state_ok_remaining past cnt rem c st : state_ok past cnt rem st -> state_ok past cnt c (with_remaining st c).
Proof. by intros [H1 H2 H3 H4 H5 H6 H7]. Qed.

Lemma failed_app past ev i : failed (past ++ [ev]) i = failed past i || error_of i ev.
Proof.
  unfold failed. rewrite occ_app, occ_cons. apply eq_true_iff_eq. rewrite orb_true_iff, !Nat.ltb_lt.
  destruct (error_of i ev); cbn; intuition (lia || discriminate).
Qed.

Lemma state_ok_event past ev cnt rem st : answered_source ev = None -> state_ok past cnt rem st -> state_ok (past ++ [ev]) cnt rem st.
Proof.
  intros Hev [H1 H2 H3 H4 H5 H6 H7]. split; try done.
  - intros i e He. destruct (H4 i e He) as (e' & Hl & Hm & Hc). exists e'. split; [done|]. split; [done|].
    rewrite failed_app. intros [Hf _]%orb_false_iff. by apply Hc.
  - intros n. rewrite H7, fmap_app. cbn. rewrite Hev. erewrite bool_decide_ext; [done|]. rewrite elem_of_app, list_elem_of_singleton.
    split; [auto|]. intros [|]; done.
Qed.

(** The answer of a source is stored. *)
Lemma state_ok_buffer past i j e r a cnt rem st : es !! i = Some e -> sequences e !! j = Some r -> answer (source (latest r)) = Some a ->
  state_ok past cnt rem st -> let src := source (latest r) in
  state_ok (past ++ [Answered i j (Some a)]) cnt rem (with_buffer st src (set_result (entry_buffers st src) a)).
Proof.
  intros He Hr Ha [H1 H2 H3 H4 H5 H6 H7] src. split; try done.
  - intros k x Hx. destruct (H4 k x Hx) as (e' & Hl & Hm & Hc). exists e'. split; [done|]. split; [done|].
    rewrite failed_app, orb_false_r. done.
  - intros n. cbn [with_buffer entry_buffers]. rewrite fmap_app. cbn [fmap list_fmap answered_source]. rewrite He. cbn [mbind option_bind].
    rewrite Hr. cbn [mbind option_bind]. fold src. unfold set_buffer. destruct (Nat.eqb_spec n src) as [->|Hne].
    + rewrite bool_decide_true by (apply elem_of_app; right; by left). unfold result_of, src in *. rewrite Ha, H7.
      destruct (bool_decide _); [|done]. unfold result_of. by rewrite Ha.
    + rewrite H7. erewrite bool_decide_ext; [done|]. rewrite elem_of_app, list_elem_of_singleton. split; [auto|]. intros [?|[= ?]]; done.
Qed.

(** An entry is changed and sources are told. *)
Lemma state_ok_entry past cnt cnt' rem st i e e' c' e'' c'' ns : es !! i = Some e -> phase_entries st !! i = Some (e', c') ->
  entry_marked e e'' -> (failed past i = true \/ e'' = e') -> told_entry e'' ≡ₚ told_entry e' ++ ns ->
  cnt' i e = c'' -> (forall k x, k <> i -> es !! k = Some x -> cnt k x = cnt' k x) ->
  state_ok past cnt rem st -> state_ok past cnt' rem (tell (with_entry st i e'' c'') ns).
Proof.
  intros He Hl Hm Hf Ht <- Hcnt [H1 H2 H3 H4 H5 H6 H7]. pose proof (lookup_lt_Some _ _ _ Hl) as Hlt. split; try done.
  - cbn. by rewrite length_insert.
  - intros k x Hx. cbn [tell with_entry phase_entries]. destruct (decide (k = i)) as [->|Hne].
    + rewrite He in Hx. injection Hx as <-. exists e''. rewrite list_lookup_insert_eq by done. split; [done|]. split; [done|].
      destruct Hf as [Hf| ->]; [congruence|]. destruct (H4 i e He) as (e0 & Hl0 & _ & Hc). intros E. rewrite Hl in Hl0. injection Hl0 as -> _. auto.
    + rewrite list_lookup_insert_ne by done. destruct (H4 k x Hx) as (e0 & Hl0 & Hm0 & Hc). exists e0. by rewrite <- (Hcnt k x Hne Hx).
  - cbn [tell with_entry phase_entries told]. rewrite H6, list_fmap_insert. symmetry. apply (bind_insert_perm _ _ _ e'); [|done].
    by rewrite list_lookup_fmap, Hl.
Qed.

Lemma state_ok_counter past cnt cnt' rem st i e e' c' c'' : es !! i = Some e -> phase_entries st !! i = Some (e', c') ->
  entry_marked e e' -> cnt' i e = c'' -> (forall k x, k <> i -> es !! k = Some x -> cnt k x = cnt' k x) ->
  state_ok past cnt rem st -> state_ok past cnt' rem (with_entry st i e' c'').
Proof.
  intros He Hl Hm Hc Hcnt H. assert (E : with_entry st i e' c'' = tell (with_entry st i e' c'') []) by (unfold tell; cbn; by rewrite app_nil_r).
  rewrite E. eapply state_ok_entry; [exact He|exact Hl|exact Hm|by right|by rewrite app_nil_r|exact Hc|exact Hcnt|exact H].
Qed.

(** * What is outstanding *)

Lemma active_spec evs i : active evs i = true <-> exists ev, ev ∈ evs /\ (answer_of i ev || start_of i ev) = true.
Proof.
  unfold active. rewrite negb_true_iff, Nat.eqb_neq. split.
  - intros H. assert (H' : (0 < occ (answer_of i) evs \/ 0 < occ (start_of i) evs)%nat) by lia.
    destruct H' as [(ev & Hev & E)%occ_pos|(ev & Hev & E)%occ_pos]; exists ev; rewrite E; [done|by rewrite orb_true_r].
  - intros (ev & Hev & [E|E]%orb_true_iff); [assert (0 < occ (answer_of i) evs)%nat by (apply occ_pos; by exists ev)|
      assert (0 < occ (start_of i) evs)%nat by (apply occ_pos; by exists ev)]; lia.
Qed.

Lemma active_cons ev evs i : active (ev :: evs) i = answer_of i ev || start_of i ev || active evs i.
Proof.
  unfold active. rewrite !occ_cons. destruct (answer_of i ev), (start_of i ev); cbn [orb]; [apply negb_true_iff, Nat.eqb_neq; lia..|done].
Qed.

Section at_event.
Context (past : list Event) (ev : Event) (todo : list Event) (Hperm : past ++ ev :: todo ≡ₚ phase_events).

Lemma occ_bound p : (occ p (ev :: todo) <= occ p phase_events)%nat.
Proof. rewrite <- (occ_perm p _ _ Hperm), occ_app. lia. Qed.

Lemma rest_ok x : x ∈ ev :: todo -> event_ok x.
Proof. intros Hx. apply phase_event_ok. rewrite <- Hperm. apply elem_of_app. by right. Qed.

Lemma phase_start_bound : (occ phase_start (ev :: todo) <= 1)%nat.
Proof. rewrite <- phase_events_start. apply occ_bound. Qed.

Lemma open_bound : (open (ev :: todo) <= occ (counted predicate) es)%nat.
Proof.
  rewrite <- phase_open. unfold open. generalize (seq 0 (length es)). intros l. induction l as [|i l IH]; [done|]. rewrite !occ_cons.
  assert (H : active (ev :: todo) i = true -> active phase_events i = true).
  { intros (x & Hx & E)%active_spec. apply active_spec. exists x. split; [|done]. rewrite <- Hperm. apply elem_of_app. by right. }
  destruct (active (ev :: todo) i); [rewrite H by done|]; lia.
Qed.

Lemma todo_nil : occ phase_start todo = 0%nat -> open todo = 0%nat -> todo = [].
Proof.
  intros Hs Ho. assert (Hok : forall x, x ∈ todo -> event_ok x) by (intros x Hx; apply rest_ok; by right).
  revert Hs Ho Hok. clear -Hsize. destruct todo as [|x l]; [done|]. intros Hs Ho Hok. exfalso. assert (Hx : event_ok x) by (apply Hok; by left).
  assert (Hin : forall i e, es !! i = Some e -> (answer_of i x || start_of i x) = true -> False).
  { intros i e He Hax. assert (0 < open (x :: l))%nat; [|lia]. apply occ_pos. exists i. split.
    - apply elem_of_seq. apply lookup_lt_Some in He. lia.
    - rewrite active_cons, Hax. done. }
  destruct x as [i j a|i n|n]; cbn in Hx.
  - destruct Hx as (e & r & He & _). apply (Hin i e He). cbn. by rewrite Nat.eqb_refl.
  - destruct Hx as (d & He & _). apply (Hin i _ He). cbn. by rewrite Nat.eqb_refl.
  - rewrite occ_cons in Hs. cbn in Hs. lia.
Qed.

Lemma counted_bound : Z.of_nat (occ (counted predicate) es) < 2 ^ 63.
Proof. pose proof (occ_le (counted predicate) es). lia. Qed.

Lemma phase_count_bound : - 2 ^ 63 < phase_count todo < 2 ^ 63.
Proof.
  unfold phase_count. pose proof counted_bound. pose proof phase_start_bound. pose proof open_bound as Hb.
  assert (open todo <= open (ev :: todo))%nat.
  { unfold open. generalize (seq 0 (length es)). intros l. induction l as [|i l IH]; [done|]. rewrite !occ_cons, active_cons.
    destruct (active todo i); [rewrite orb_true_r|]; lia. }
  rewrite occ_cons in *. destruct (phase_start ev); nia.
Qed.

(** The count of the phase after an event that ends an entry or starts the count. *)
Lemma phase_count_zero : (open todo < occ (counted predicate) es)%nat \/ occ phase_start todo = 0%nat ->
  (phase_count todo =? 0) = match todo with [] => true | _ => false end.
Proof.
  intros H. apply eq_true_iff_eq. rewrite Z.eqb_eq. pose proof phase_start_bound as Hb. rewrite occ_cons in Hb. unfold phase_count. split.
  - intros E. assert (Hs : occ phase_start todo = 0%nat \/ occ phase_start todo = 1%nat) by (destruct (phase_start ev); lia).
    destruct Hs as [Hs|Hs]; rewrite Hs in *; [rewrite todo_nil; [done|done|lia]|destruct H; [lia|done]].
  - destruct todo; [|done]. intros _. cbn [occ filter list_filter length]. unfold open. rewrite (occ_none (active [])) by done. lia.
Qed.

Definition result_at (st : CommitState) : option CommitState :=
  match todo with [] => finish InfinitePast InfiniteFuture t st | _ => Some st end.

(** The end of the last event of an entry, with the error indicator of the entry. *)
Lemma EntryDone_step st cnt i e error : es !! i = Some e ->
  (forall k, k <> i -> answer_of k ev || start_of k ev = false) -> answer_of i ev || start_of i ev = true ->
  active todo i = false -> error = failed (past ++ [ev]) i ->
  state_ok (past ++ [ev]) cnt (phase_counter past (ev :: todo)) st ->
  exists st', EntryDone InfinitePast InfiniteFuture t st error 1 = result_at st' /\ state_ok (past ++ [ev]) cnt (phase_counter (past ++ [ev]) todo) st'.
Proof.
  intros He Hother Hev Hend -> H. assert (Hps : phase_start ev = false) by (revert Hev; clear; by destruct ev).
  assert (Hact : forall k, k <> i -> active (ev :: todo) k = active todo k) by (intros k Hk; by rewrite active_cons, Hother).
  assert (Hacti : active (ev :: todo) i = true) by (by rewrite active_cons, Hev).
  assert (Hin : i ∈ seq 0 (length es)) by (apply elem_of_seq; apply lookup_lt_Some in He; lia).
  assert (Hopen : open (ev :: todo) = S (open todo)) by (apply (occ_drop _ _ i); auto using NoDup_seq).
  assert (Hcount : phase_count (ev :: todo) - 1 = phase_count todo).
  { unfold phase_count. rewrite Hopen, (occ_cons phase_start), Hps. lia. }
  assert (Hfail : phase_failed past (ev :: todo) || failed (past ++ [ev]) i = phase_failed (past ++ [ev]) todo).
  { apply eq_true_iff_eq. unfold phase_failed. rewrite orb_true_iff, !Nat.ltb_lt, !occ_pos. split.
    - intros [(k & Hk & E)|E].
      + exists k. split; [done|]. apply andb_true_iff in E as [E1 E2]. assert (k <> i) by (intros ->; by rewrite Hacti in E1).
        rewrite <- Hact, E1 by done. rewrite failed_app, E2. done.
      + exists i. by rewrite Hend.
    - intros (k & Hk & E). apply andb_true_iff in E as [E1 E2]. destruct (decide (k = i)) as [->|Hne]; [by right|left].
      exists k. split; [done|]. rewrite Hact, E1 by done. rewrite failed_app in E2. apply orb_true_iff in E2 as [E2|E2]; [done|].
      exfalso. specialize (Hother k Hne). destruct ev as [? ? []| |]; cbn in *; try done. by rewrite E2 in Hother. }
  unfold EntryDone. rewrite (so_remaining _ _ _ _ H). unfold phase_counter. rewrite set_error_latch, Hfail.
  rewrite DecrementCount_latch by (rewrite Hcount; apply phase_count_bound). rewrite Hcount, phase_count_zero by (left; pose proof open_bound; lia).
  exists (with_remaining st (latch (phase_count todo) (phase_failed (past ++ [ev]) todo))).
  split; [|by eapply state_ok_remaining]. unfold result_at. by destruct todo.
Qed.

(** An event of an entry that is not its last leaves the counter of the phase as it is. *)
Lemma phase_counter_active i e : es !! i = Some e ->
  (forall k, k <> i -> answer_of k ev || start_of k ev = false) -> answer_of i ev || start_of i ev = true -> active todo i = true ->
  phase_counter past (ev :: todo) = phase_counter (past ++ [ev]) todo /\ todo <> [].
Proof.
  intros He Hother Hev Ha. assert (Hps : phase_start ev = false) by (revert Hev; clear; by destruct ev).
  assert (Hact : forall k, active (ev :: todo) k = active todo k).
  { intros k. rewrite active_cons. destruct (decide (k = i)) as [->|Hk]; [by rewrite Ha, orb_true_r|]. by rewrite Hother. }
  split; [|intros ->; done]. unfold phase_counter, phase_count, phase_failed. rewrite (occ_cons phase_start), Hps. f_equal.
  - unfold open. by rewrite (occ_ext _ (active todo)).
  - f_equal. apply occ_ext. intros k _. rewrite Hact. destruct (decide (k = i)) as [->|Hk]; [by rewrite Ha|]. rewrite failed_app.
    assert (E : error_of k ev = false); [|by rewrite E, orb_false_r].
    specialize (Hother k Hk). destruct ev as [? ? []| |]; cbn in *; try done. by apply orb_false_iff in Hother as [? _].
Qed.

(** The count of a deletion gets to zero with its last event. *)
Lemma entry_count_zero i d : es !! i = Some (Dr d) -> answer_of i ev || start_of i ev = true ->
  - 2 ^ 63 < entry_count todo i (Dr d) < 2 ^ 63 /\ (entry_count todo i (Dr d) =? 0) = negb (active todo i).
Proof.
  intros Hd Hev. destruct (phase_events_occ i _ Hd) as [Ha Hs]. cbn in Hs.
  pose proof (occ_bound (answer_of i)) as Hba. pose proof (occ_bound (start_of i)) as Hbs. rewrite Ha, occ_cons in Hba. rewrite Hs, occ_cons in Hbs.
  assert (Hone : start_of i ev = true -> answer_of i ev = false) by (clear; by destruct ev).
  assert (Hask : Z.of_nat (asked i (Dr d)) < 2 ^ 63).
  { pose proof (StartWritebacks_length i (superseded d)). pose proof (Forall_lookup_1 _ _ _ _ Hsizes Hd) as Hz. cbn in Hz. unfold asked. cbn [sequences]. lia. }
  unfold entry_count, active. set (a := occ (answer_of i) todo) in *. set (s := occ (start_of i) todo) in *. set (n := asked i (Dr d)) in *.
  assert (Hs01 : s = 0%nat \/ s = 1%nat) by (destruct (start_of i ev); lia). split.
  - destruct Hs01 as [-> | ->]; destruct (answer_of i ev), (start_of i ev); lia.
  - apply eq_true_iff_eq. rewrite negb_involutive, Z.eqb_eq, Nat.eqb_eq. destruct Hs01 as [-> | ->]; [lia|].
    destruct (start_of i ev); [lia|]. destruct (answer_of i ev); [lia|discriminate].
Qed.

(** An event of a deletion. *)
Lemma DeletedEntryDone_step st cnt i d error count x0 error0 : es !! i = Some (Dr d) ->
  (forall k, k <> i -> answer_of k ev || start_of k ev = false) -> answer_of i ev || start_of i ev = true ->
  state_ok (past ++ [ev]) cnt (phase_counter past (ev :: todo)) st ->
  cnt i (Dr d) = latch x0 error0 -> x0 - count = entry_count todo i (Dr d) -> error0 || error = failed (past ++ [ev]) i ->
  (forall k x, k <> i -> es !! k = Some x -> cnt k x = counter (past ++ [ev]) todo k x) ->
  exists st', DeletedEntryDone InfinitePast InfiniteFuture t st i error count = result_at st' /\
    state_ok (past ++ [ev]) (counter (past ++ [ev]) todo) (phase_counter (past ++ [ev]) todo) st'.
Proof.
  intros Hd Hother Hev H Hc Hx Hf Hcnt. destruct (so_entries _ _ _ _ H i _ Hd) as (e' & Hl & Hm & _). destruct e' as [|d']; [done|].
  destruct (entry_count_zero i d Hd Hev) as [Hb Hz]. unfold DeletedEntryDone. rewrite Hl, Hc, set_error_latch, Hf, DecrementCount_latch by (by rewrite Hx).
  rewrite Hx, Hz. set (c := latch (entry_count todo i (Dr d)) (failed (past ++ [ev]) i)).
  assert (H1 : state_ok (past ++ [ev]) (counter (past ++ [ev]) todo) (phase_counter past (ev :: todo)) (with_entry st i (Dr d') c))
    by (by eapply state_ok_counter).
  destruct (active todo i) eqn:Ea; cbn [negb].
  - exists (with_entry st i (Dr d') c). destruct (phase_counter_active i _ Hd Hother Hev Ea) as [E Hne]. rewrite <- E. split; [|exact H1].
    unfold result_at. revert Hne. clear. by destruct todo.
  - assert (Hec : HasError c = failed (past ++ [ev]) i) by apply HasError_latch. rewrite Hec. destruct (failed (past ++ [ev]) i) eqn:Ef.
    + unfold HandleDeleteRangeDone. rewrite Hec. destruct (WritebackErrorDr d') as [d'' ns] eqn:Ew. apply (EntryDone_step _ (counter (past ++ [ev]) todo) i (Dr d)); [exact Hd|exact Hother|exact Hev|exact Ea|by rewrite Ef|].
      destruct Hm as (l & -> & Hm). assert (Ed : d'' = set_superseded d (fst ∘ WritebackError <$> l)) by (by injection Ew as <- _).
      eapply (state_ok_entry _ (counter (past ++ [ev]) todo)); [exact Hd| | |by left| |cbn [counter]; by rewrite Ef|done|exact H1].
      * cbn. apply list_lookup_insert_eq. by eapply lookup_lt_Some.
      * rewrite Ed. eexists. split; [done|]. by apply Forall2_seq_marked_errors.
      * pose proof (told_WritebackErrorDr (set_superseded d l)) as Et. by rewrite Ew in Et.
    + unfold WritebackDelete. apply (EntryDone_step _ (counter (past ++ [ev]) todo) i (Dr d)); [exact Hd|exact Hother|exact Hev|exact Ea|by rewrite Ef|done].
Qed.

(** The start of the counter of the phase. *)
Lemma PhaseStarted_step st n : ev = PhaseStarted n -> state_ok past (counter past (ev :: todo)) (phase_counter past (ev :: todo)) st ->
  exists st', EntryDone InfinitePast InfiniteFuture t st false (- n) = result_at st' /\
    state_ok (past ++ [ev]) (counter (past ++ [ev]) todo) (phase_counter (past ++ [ev]) todo) st'.
Proof.
  intros E H. assert (Hn : n = Z.of_nat (occ (counted predicate) es)) by (assert (Hok : event_ok ev) by (apply rest_ok; by left); by rewrite E in Hok).
  pose proof phase_start_bound as Hs. assert (Hps : phase_start ev = true) by (by rewrite E). rewrite occ_cons, Hps in Hs.
  assert (Hact : forall i, active (ev :: todo) i = active todo i) by (intros i; rewrite active_cons, E; done).
  assert (Hfailed : forall i, failed (past ++ [ev]) i = failed past i) by (intros i; rewrite failed_app, E, orb_false_r; done).
  assert (Hcount : phase_count (ev :: todo) - - n = phase_count todo).
  { unfold phase_count. rewrite (occ_cons phase_start), Hps. unfold open. rewrite (occ_ext _ (active todo)) by done. lia. }
  assert (Hpf : phase_failed past (ev :: todo) = phase_failed (past ++ [ev]) todo).
  { unfold phase_failed. f_equal. apply occ_ext. intros i _. by rewrite Hact, Hfailed. }
  unfold EntryDone. rewrite (so_remaining _ _ _ _ H). unfold phase_counter.
  rewrite DecrementCount_latch by (rewrite Hcount; apply phase_count_bound). rewrite Hcount, Hpf, phase_count_zero by (right; lia).
  exists (with_remaining st (latch (phase_count todo) (phase_failed (past ++ [ev]) todo))). split; [unfold result_at; by destruct todo|].
  eapply state_ok_remaining, state_ok_ext; [|apply state_ok_event; [by rewrite E|exact H]].
  intros i [r|d] _; [done|]. cbn [counter]. rewrite Hfailed. unfold entry_count. by rewrite !occ_cons, E.
Qed.

Definition step_holds (st : CommitState) : Prop :=
  exists st', handle InfinitePast InfiniteFuture t st ev = result_at st' /\
    state_ok (past ++ [ev]) (counter (past ++ [ev]) todo) (phase_counter (past ++ [ev]) todo) st'.

Lemma counter_other k x : answer_of k ev || start_of k ev = false -> counter past (ev :: todo) k x = counter (past ++ [ev]) todo k x.
Proof.
  intros [Ha Hs]%orb_false_iff. destruct x as [r|d]; [done|]. cbn [counter]. rewrite failed_app. unfold entry_count. rewrite !occ_cons, Ha, Hs.
  assert (E : error_of k ev = false) by (revert Ha; clear; destruct ev as [? ? []| |]; done). by rewrite E, orb_false_r.
Qed.

(** The answer for an entry that is not superseded is its only event. *)
Lemma Rmw_single i r : es !! i = Some (Rmw r) -> answer_of i ev = true -> active todo i = false /\ failed past i = false.
Proof.
  intros Hr Hev. destruct (phase_events_occ i _ Hr) as [Ha Hs]. cbn in Hs. rewrite asked_Rmw in Ha.
  rewrite <- (occ_perm _ _ _ Hperm), occ_app, occ_cons, Hev in Ha. rewrite <- (occ_perm _ _ _ Hperm), occ_app, occ_cons in Hs.
  assert (He : (occ (error_of i) past <= occ (answer_of i) past)%nat).
  { clear. induction past as [|x l IH]; [done|]. rewrite !occ_cons. destruct x as [? ? []| |]; cbn [error_of answer_of]; try destruct (_ =? _)%nat; lia. }
  unfold active, failed. destruct (predicate r); [|lia]. split; [apply negb_false_iff, Nat.eqb_eq; lia|apply Nat.ltb_ge; lia].
Qed.

Lemma Answered_Rmw st i j a r r' c : ev = Answered i j a -> es !! i = Some (Rmw r) -> a = answer (source (latest r)) ->
  phase_entries st !! i = Some (Rmw r', c) -> seq_marked r r' ->
  state_ok past (counter past (ev :: todo)) (phase_counter past (ev :: todo)) st -> step_holds st.
Proof.
  intros E Hr Ha Hl Hm H. assert (Hother : forall k, k <> i -> answer_of k ev || start_of k ev = false).
  { intros k Hk. rewrite E. cbn. rewrite orb_false_r. by apply Nat.eqb_neq. }
  assert (Hev : answer_of i ev = true) by (rewrite E; apply Nat.eqb_refl).
  destruct (Rmw_single i r Hr Hev) as [Hact Hf]. assert (Hev' : answer_of i ev || start_of i ev = true) by (by rewrite Hev).
  assert (Hcnt : forall k x, es !! k = Some x -> counter past (ev :: todo) k x = counter (past ++ [ev]) todo k x).
  { intros k x Hx. destruct (decide (k = i)) as [->|Hk]; [|by apply counter_other, Hother]. rewrite Hr in Hx. by injection Hx as <-. }
  assert (Hfire : exists st1 error, handle InfinitePast InfiniteFuture t st ev = EntryDone InfinitePast InfiniteFuture t st1 error 1 /\
    error = failed (past ++ [ev]) i /\ state_ok (past ++ [ev]) (counter past (ev :: todo)) (phase_counter past (ev :: todo)) st1).
  { rewrite failed_app, Hf, E. cbn [handle error_of]. unfold ReceiveWriteback. rewrite Hl. destruct a as [v|].
    - eexists _, false. split; [done|]. split; [done|]. rewrite (seq_marked_source r r' Hm).
      apply (state_ok_buffer past i j (Rmw r) r v); [done| |done|by rewrite <- E]. clear -Hperm E Hr.
      assert (Hok : event_ok ev) by (apply rest_ok; by left). rewrite E in Hok. destruct Hok as (e & r0 & He & Hj & _). rewrite Hr in He. injection He as <-.
      destruct j; [done|]. by destruct j.
    - destruct (WritebackError r') as [r'' ns] eqn:Ew. eexists _, true. split; [done|]. split; [by rewrite Nat.eqb_refl|].
      assert (Er : r'' = (WritebackError r').1) by (by rewrite Ew).
      eapply (state_ok_entry _ (counter past (Answered i j None :: todo))); [exact Hr|exact Hl| | | | |done|apply state_ok_event; [done|by rewrite <- E]].
      + rewrite Er. right. by apply seq_marked_again.
      + left. rewrite failed_app. cbn. by rewrite Nat.eqb_refl, orb_true_r.
      + unfold told_entry. cbn [sequences]. rewrite !bind_singleton, Er, told_of_WritebackError, Ew. done.
      + destruct (so_entries _ _ _ _ H i _ Hr) as (e0 & Hl0 & _). rewrite Hl in Hl0. by injection Hl0 as _ ->. }
  destruct Hfire as (st1 & error & Eh & He & H1).
  destruct (EntryDone_step st1 _ i (Rmw r) error Hr Hother Hev' Hact He H1) as (st' & Es & H'). exists st'. rewrite Eh. split; [done|].
  eapply state_ok_ext; [exact Hcnt|exact H'].
Qed.

Lemma Answered_Dr st i j a d l c r : ev = Answered i j a -> es !! i = Some (Dr d) -> superseded d !! j = Some r -> a = answer (source (latest r)) ->
  phase_entries st !! i = Some (Dr (set_superseded d l), c) -> Forall2 seq_marked (superseded d) l ->
  state_ok past (counter past (ev :: todo)) (phase_counter past (ev :: todo)) st -> step_holds st.
Proof.
  intros E Hd Hj Ha Hl Hm H. assert (Hother : forall k, k <> i -> answer_of k ev || start_of k ev = false).
  { intros k Hk. rewrite E. cbn. rewrite orb_false_r. by apply Nat.eqb_neq. }
  assert (Hev : answer_of i ev || start_of i ev = true) by (rewrite E; cbn; by rewrite Nat.eqb_refl).
  assert (Hcnt : forall k x, k <> i -> es !! k = Some x -> counter past (ev :: todo) k x = counter (past ++ [ev]) todo k x)
    by (intros k x Hk _; by apply counter_other, Hother).
  assert (Hx : entry_count (ev :: todo) i (Dr d) - 1 = entry_count todo i (Dr d)).
  { unfold entry_count. rewrite !occ_cons, E. cbn [answer_of start_of]. rewrite Nat.eqb_refl. lia. }
  destruct (Forall2_lookup_l _ _ _ _ _ Hm Hj) as (r' & Hj' & Hr).
  assert (Hc : c = counter past (ev :: todo) i (Dr d)) by (destruct (so_entries _ _ _ _ H i _ Hd) as (e0 & Hl0 & _); rewrite Hl in Hl0; by injection Hl0 as _ ->).
  assert (Hfire : exists st1 error, handle InfinitePast InfiniteFuture t st ev = DeletedEntryDone InfinitePast InfiniteFuture t st1 i error 1 /\
    failed past i || error = failed (past ++ [ev]) i /\ state_ok (past ++ [ev]) (counter past (ev :: todo)) (phase_counter past (ev :: todo)) st1).
  { rewrite failed_app, E. cbn [handle error_of]. unfold ReceiveWriteback. rewrite Hl. cbn [set_superseded superseded].
    rewrite Hj'. cbn [mbind option_bind]. destruct a as [v|].
    - eexists _, false. split; [done|]. split; [done|]. rewrite (seq_marked_source r r' Hr).
      by apply (state_ok_buffer past i j (Dr d) r v); [done|done|done|rewrite <- E].
    - destruct (WritebackError r') as [r'' ns] eqn:Ew. eexists _, true. split; [done|]. split; [by rewrite Nat.eqb_refl|].
      assert (Er : r'' = (WritebackError r').1) by (by rewrite Ew).
      eapply (state_ok_entry _ (counter past (Answered i j None :: todo))); [exact Hd|exact Hl| | | | |done|apply state_ok_event; [done|by rewrite <- E]].
      + exists (<[j:=r'']> l). split; [done|]. rewrite <- (list_insert_id _ _ _ Hj). apply Forall2_insert; [done|]. rewrite Er. right. by apply seq_marked_again.
      + left. rewrite failed_app. cbn. by rewrite Nat.eqb_refl, orb_true_r.
      + unfold told_entry. cbn [sequences set_superseded superseded]. apply (bind_insert_perm _ _ _ r'); [done|].
        by rewrite Er, told_of_WritebackError, Ew.
      + by rewrite Hc, E. }
  destruct Hfire as (st1 & error & Eh & Hf & H1). unfold step_holds. rewrite Eh. cbn [counter] in Hc.
  by apply (DeletedEntryDone_step st1 _ i d error 1 (entry_count (ev :: todo) i (Dr d)) (failed past i) Hd Hother Hev H1).
Qed.

Lemma handle_step st : state_ok past (counter past (ev :: todo)) (phase_counter past (ev :: todo)) st -> step_holds st.
Proof.
  intros H. assert (Hok : event_ok ev) by (apply rest_ok; by left).
  assert (Hcase : (exists i j a, ev = Answered i j a) \/ (exists i n, ev = DeleteStarted i n) \/ exists n, ev = PhaseStarted n)
    by (clear; destruct ev; eauto).
  destruct Hcase as [(i & j & a & E)|[(i & n & E)|(n & E)]].
  - assert (Hok' : event_ok (Answered i j a)) by (by rewrite <- E). destruct Hok' as (e & r & He & Hj & _ & Ha).
    destruct (so_entries _ _ _ _ H i e He) as (e' & Hl & Hm & _). destruct e as [r0|d], e' as [r'|d']; try done.
    + destruct j as [|j]; [|by destruct j]. injection Hj as ->. by eapply Answered_Rmw.
    + destruct Hm as (l & -> & Hm). by eapply Answered_Dr.
  - assert (Hok' : event_ok (DeleteStarted i n)) by (by rewrite <- E). destruct Hok' as (d & Hd & Hn). 
    assert (Eh : handle InfinitePast InfiniteFuture t st ev = DeletedEntryDone InfinitePast InfiniteFuture t st i false (- n)) by (by rewrite E).
    unfold step_holds. rewrite Eh.
    apply (DeletedEntryDone_step st (counter past (ev :: todo)) i d false (- n) (entry_count (ev :: todo) i (Dr d)) (failed past i)); try done.
    + intros k Hk. rewrite E. cbn. by apply Nat.eqb_neq.
    + rewrite E. cbn. by rewrite Nat.eqb_refl.
    + apply state_ok_event; [by rewrite E|exact H].
    + unfold entry_count. rewrite !occ_cons, E, Hn. cbn [answer_of start_of]. rewrite Nat.eqb_refl. lia.
    + by rewrite failed_app, E.
    + intros k x Hk _. apply counter_other. rewrite E. cbn. by apply Nat.eqb_neq.
  - assert (Eh : handle InfinitePast InfiniteFuture t st ev = EntryDone InfinitePast InfiniteFuture t st false (- n)) by (by rewrite E).
    unfold step_holds. rewrite Eh. by apply PhaseStarted_step.
Qed.

End at_event.

(** * A round *)

Lemma run_events todo : forall past st, todo <> [] -> past ++ todo ≡ₚ phase_events ->
  state_ok past (counter past todo) (phase_counter past todo) st ->
  (forall evs evs', todo = evs ++ evs' -> evs' <> [] -> exists st', run InfinitePast InfiniteFuture t evs st = Some st' /\
     stored st' = data /\ outcomes st' = []) /\
  exists st', run InfinitePast InfiniteFuture t todo st = finish InfinitePast InfiniteFuture t st' /\
    state_ok (past ++ todo) (counter (past ++ todo) []) (phase_counter (past ++ todo) []) st'.
Proof.
  induction todo as [|ev todo IH]; intros past st Hne Hperm H; [done|]. destruct (handle_step past ev todo Hperm st H) as (st1 & Eh & H1).
  assert (Hfirst : forall evs evs', ev :: todo = evs ++ evs' -> evs' <> [] -> evs = [] \/ exists l, evs = ev :: l /\ todo = l ++ evs')
    by (intros [|x l] evs' [=] _; [by left|right; exists l; by subst]).
  destruct todo as [|ev' todo].
  - split.
    + intros evs evs' E Hn. destruct (Hfirst evs evs' E Hn) as [->|(l & -> & E')]; [|by destruct l, evs'].
      exists st. split; [done|]. by destruct H.
    + exists st1. split; [|exact H1]. cbn [run]. rewrite Eh. cbn [result_at]. by destruct (finish _ _ _ _).
  - cbn [result_at] in Eh. destruct (IH (past ++ [ev]) st1) as [Hpre (st' & Er & H')]; [done|by rewrite <- app_assoc|exact H1|]. split.
    + intros evs evs' E Hn. destruct (Hfirst evs evs' E Hn) as [->|(l & -> & E')]; [exists st; split; [done|]; by destruct H|].
      destruct (Hpre l evs' E' Hn) as (st2 & E2 & H2). exists st2. cbn [run]. by rewrite Eh.
    + exists st'. rewrite <- app_assoc in H'. split; [|exact H']. cbn [run]. by rewrite Eh.
Qed.

Lemma start_ok evs : evs ≡ₚ phase_events -> Forall (fun r => has (flags (latest r)) kError = false) (read_modify_writes es) ->
  state_ok [] (counter [] evs) (phase_counter [] evs) (start_of_round data es bs).
Proof.
  intros Hp Hf. assert (Hes : ((fun e => (e, 0)) <$> es).*1 = es) by (rewrite <- list_fmap_compose; apply list_fmap_id). split; try done.
  - apply length_fmap.
  - intros i e He. exists e. split; [|split; [apply entry_marked_refl|done]]. cbn. rewrite list_lookup_fmap, He. cbn. do 2 f_equal.
    destruct e as [r|d]; [done|]. cbn [counter]. unfold entry_count. rewrite !(occ_perm _ _ _ Hp). destruct (phase_events_occ i _ He) as [-> ->].
    rewrite Z.mul_1_r, Z.sub_diag. done.
  - unfold phase_counter, phase_count, open. rewrite (occ_ext _ (active phase_events)) by (intros i _; unfold active; by rewrite !(occ_perm _ _ _ Hp)).
    change (occ (active phase_events) _) with (open phase_events). rewrite phase_open, (occ_perm _ _ _ Hp), phase_events_start, Z.mul_1_r, Z.sub_diag.
    unfold phase_failed. rewrite occ_none; [done|]. intros i _. by rewrite andb_false_r.
  - cbn [start_of_round told phase_entries]. rewrite Hes. clear -Hf. induction es as [|e l IH]; [done|]. rewrite bind_cons.
    change (read_modify_writes (e :: l)) with (sequences e ++ read_modify_writes l) in Hf. apply Forall_app in Hf as [He Hf]. rewrite <- IH by done.
    unfold told_entry. rewrite app_nil_r. induction He as [|r rs Hr _ IHr]; [done|]. rewrite bind_cons, <- IHr. unfold told_of. by rewrite Hr.
Qed.

(** An answer that was asked for is an error. *)
Definition writeback_failed : Prop :=
  exists r, r ∈ read_modify_writes es /\ predicate r = true /\ answer (source (latest r)) = None.

(** The results of the sources that were asked. *)
Definition asked_sources : list nat := (fun r => source (latest r)) <$> filter (fun r => predicate r = true) (read_modify_writes es).
Definition buffers_after (n : nat) : Buffer := if bool_decide (n ∈ asked_sources) then result_of n else bs n.

Lemma sequences_elem r : r ∈ read_modify_writes es <-> exists i j e, es !! i = Some e /\ sequences e !! j = Some r.
Proof.
  unfold read_modify_writes. rewrite list_elem_of_bind. split.
  - intros (e & Hr & He). apply list_elem_of_lookup in He as [i Hi]. assert (Hj : r ∈ sequences e) by (by destruct e).
    apply list_elem_of_lookup in Hj as [j Hj]. by exists i, j, e.
  - intros (i & j & e & He & Hr). exists e. split; [|by eapply list_elem_of_lookup_2]. apply list_elem_of_lookup_2 in Hr. by destruct e.
Qed.

Lemma answered_elem i j e r : es !! i = Some e -> sequences e !! j = Some r -> predicate r = true ->
  Answered i j (answer (source (latest r))) ∈ phase_events.
Proof. intros He Hr Hp. apply phase_events_elem. right. exists i, e. split; [done|]. apply writeback_entry_elem. left. by exists j, r. Qed.

Lemma failed_all i evs : evs ≡ₚ phase_events -> failed evs i = true <->
  exists j e r, es !! i = Some e /\ sequences e !! j = Some r /\ predicate r = true /\ answer (source (latest r)) = None.
Proof.
  intros Hp. unfold failed. rewrite Nat.ltb_lt, occ_pos. split.
  - intros (ev & Hev & E). rewrite Hp in Hev. apply phase_event_ok in Hev. destruct ev as [i' j [|]| |]; try done. cbn in E. apply Nat.eqb_eq in E as <-.
    destruct Hev as (e & r & H1 & H2 & H3 & H4). by exists j, e, r.
  - intros (j & e & r & He & Hr & Hpr & Ha). exists (Answered i j (answer (source (latest r)))). rewrite Hp. split; [by apply answered_elem with e|].
    rewrite Ha. apply Nat.eqb_refl.
Qed.

Lemma phase_failed_all evs : evs ≡ₚ phase_events -> phase_failed evs [] = true <-> writeback_failed.
Proof.
  intros Hp. unfold phase_failed, writeback_failed. rewrite Nat.ltb_lt, occ_pos. split.
  - intros (i & _ & E). cbn in E. apply (failed_all i evs Hp) in E as (j & e & r & He & Hr & Hpr & Ha). exists r. split; [|done].
    apply sequences_elem. by exists i, j, e.
  - intros (r & Hr & Hpr & Ha). apply sequences_elem in Hr as (i & j & e & He & Hr). exists i. split.
    + apply elem_of_seq. apply lookup_lt_Some in He. lia.
    + cbn. apply (failed_all i evs Hp). by exists j, e, r.
Qed.

Lemma answered_all evs n : evs ≡ₚ phase_events -> Some n ∈ answered_source <$> evs <-> n ∈ asked_sources /\ answer n <> None.
Proof.
  intros Hp. rewrite list_elem_of_fmap. unfold asked_sources. rewrite list_elem_of_fmap. split.
  - intros (ev & E & Hev). rewrite Hp in Hev. apply phase_event_ok in Hev. destruct ev as [i j [v|]| |]; try done. cbn [answered_source] in E.
    destruct Hev as (e & r & He & Hr & Hpr & Ha). rewrite He in E. cbn [mbind option_bind] in E. rewrite Hr in E. injection E as ->. split; [|congruence].
    exists r. split; [done|]. apply list_elem_of_filter. split; [done|]. apply sequences_elem. by exists i, j, e.
  - intros [(r & -> & Hr) Ha]. apply list_elem_of_filter in Hr as [Hpr Hr]. apply sequences_elem in Hr as (i & j & e & He & Hr).
    exists (Answered i j (answer (source (latest r)))). rewrite Hp. split; [|by apply answered_elem with e]. destruct (answer _) as [v|]; [|done].
    cbn [answered_source]. rewrite He. cbn [mbind option_bind]. by rewrite Hr.
Qed.

Lemma round evs : evs ≡ₚ phase_events -> Forall (fun r => has (flags (latest r)) kError = false) (read_modify_writes es) ->
  (forall evs1 evs2, evs = evs1 ++ evs2 -> evs2 <> [] -> exists st, run InfinitePast InfiniteFuture t evs1 (start_of_round data es bs) = Some st /\
     stored st = data /\ outcomes st = []) /\
  exists es' c bs' notices, (forall n, bs' n = buffers_after n) /\
    let st := MkCommitState data es' c bs' notices [] in
    run InfinitePast InfiniteFuture t evs (start_of_round data es bs) = finish InfinitePast InfiniteFuture t st /\
    (HasError c = true <-> writeback_failed) /\
    notices ++ WritebackErrors es'.*1 ≡ₚ read_modify_writes es ≫= error_notices /\
    (~ writeback_failed -> st = start_of_round data es bs').
Proof.
  intros Hp Hf. destruct (run_events evs [] (start_of_round data es bs)) as [Hpre (st & E & H)].
  - intros ->. apply Permutation_nil_l in Hp. unfold WritebackPhase in Hp. symmetry in Hp. by apply app_eq_nil in Hp as [_ ?].
  - exact Hp.
  - by apply start_ok.
  - split; [exact Hpre|]. cbn [app] in H. destruct st as [d es' c bs' notices os]. destruct H as [H1 H2 H3 H4 H5 H6 H7]. cbn in H1, H2, H3, H4, H5, H6, H7. subst d os.
    assert (Hm : Forall2 entry_marked es es'.*1).
    { apply Forall2_same_length_lookup. rewrite length_fmap. split; [done|]. intros i x y Hx Hy. destruct (H4 i x Hx) as (e' & Hl & Hm & _).
      rewrite list_lookup_fmap, Hl in Hy. by injection Hy as <-. }
    exists es', c, bs', notices. split; [|split; [exact E|split; [|split]]].
    + intros n. rewrite H7. unfold buffers_after. rewrite (bool_decide_ext _ _ (answered_all evs n Hp)).
      destruct (decide (answer n = None)) as [Ha|Ha].
      * rewrite bool_decide_false by tauto. unfold result_of. rewrite Ha. by destruct (bool_decide _).
      * erewrite bool_decide_ext; [done|]. tauto.
    + rewrite H5. unfold phase_counter. rewrite HasError_latch. by apply phase_failed_all.
    + rewrite H6. by apply all_told.
    + intros Hno. assert (Hnf : forall i, failed evs i = false).
      { intros i. apply not_true_iff_false. intros (j & e & r & He & Hr & Hpr & Ha)%(failed_all i evs Hp). apply Hno. exists r. split; [|done].
        apply sequences_elem. by exists i, j, e. }
      assert (Ees : es' = (fun e => (e, 0)) <$> es).
      { apply list_eq. intros i. rewrite list_lookup_fmap. destruct (es !! i) as [e|] eqn:He; cbn.
        - destruct (H4 i e He) as (e' & Hl & _ & Hc). rewrite Hl, (Hc (Hnf i)). do 2 f_equal. destruct e; [done|]. cbn [counter].
          rewrite Hnf. unfold entry_count. cbn [occ filter list_filter length]. by rewrite Z.mul_0_r.
        - apply lookup_ge_None in He. apply lookup_ge_None. lia. }
      unfold start_of_round. f_equal; [done| |].
      * rewrite H5. unfold phase_counter. assert (Epf : phase_failed evs [] = false) by (apply not_true_iff_false; by rewrite phase_failed_all).
        rewrite Epf. unfold phase_count, open. rewrite (occ_none (active [])) by done. cbn [occ filter list_filter length]. rewrite Z.mul_0_r. done.
      * apply Permutation_nil_r. rewrite H6, Ees. pose proof (so_told _ _ _ _ (start_ok evs Hp Hf)) as Ht. cbn in Ht. symmetry. exact Ht.
Qed.

End round.
