(* ===== verification/TransactionFlags.v ===== *)
(** The flag [kError] of staged entries: only [WritebackError] sets it, so that no sequence has it when
    the writeback of a phase begins. *)

From S2P Require Import Prelude Bytes Generation KeyRange TransactionPhases TransactionSpec MemoryCommit.

Definition unflagged (s : Step) : Prop := has (flags s) kError = false.
Definition sequence_unflagged (r : ReadModifyWriteEntry) : Prop := Forall unflagged (steps r).
Definition entry_unflagged (e : MutationEntry) : Prop := Forall sequence_unflagged (sequences e).
Definition phases_unflagged : list SinglePhaseMutation -> Prop := Forall (fun s => Forall entry_unflagged (entries s)).
Definition mutation_unflagged (m : MultiPhaseMutation) : Prop :=
  phases_unflagged (prior_phases m) /\ match last_phase m with None => True | Some s => Forall entry_unflagged (entries s) end.

Lemma has_kError_bit f : has f kError = Z.testbit f 4.
Proof.
  unfold has, kError. apply eq_true_iff_eq. rewrite negb_true_iff, Z.eqb_neq. split; intros H.
  - apply not_false_iff_true. intros E. apply H, Z.bits_inj'. intros n Hn. rewrite Z.land_spec, Z.bits_0. change 16 with (2 ^ 4).
    rewrite Z.pow2_bits_eqb by lia. destruct (Z.eqb_spec 4 n) as [<-|]; [by rewrite E|apply andb_false_r].
  - intros E. apply (f_equal (fun z => Z.testbit z 4)) in E. rewrite Z.land_spec, Z.bits_0, H in E. done.
Qed.

Lemma unflagged_or s f : unflagged s -> Z.testbit f 4 = false -> unflagged (fetch_or s f).
Proof. unfold unflagged. rewrite !has_kError_bit. cbn [fetch_or fetch_and with_flags flags]. rewrite Z.lor_spec. by intros -> ->. Qed.
Lemma unflagged_and s f : unflagged s -> unflagged (fetch_and s f).
Proof. unfold unflagged. rewrite !has_kError_bit. cbn [fetch_or fetch_and with_flags flags]. rewrite Z.land_spec. by intros ->. Qed.
Lemma unflagged_new s f : Z.testbit f 4 = false -> unflagged (with_flags s f).
Proof. unfold unflagged. by rewrite has_kError_bit. Qed.

Lemma latest_or e f : sequence_unflagged e -> Z.testbit f 4 = false -> sequence_unflagged (with_latest e (fetch_or (latest e) f)).
Proof. intros [H1 H2]%Forall_cons Hf. constructor; [by apply unflagged_or|done]. Qed.

(** * Searches *)

Lemma find_split_Forall {A} (P : A -> Prop) (compare : A -> comparison) l b f a : find_split compare l = (b, f, a) -> Forall P l ->
  Forall P b /\ (forall x, f = Some x -> P x) /\ Forall P a.
Proof.
  intros E H. revert b f a E. induction H as [|x l Hx Hl IH]; cbn; intros b f a E; [by injection E as <- <- <-|]. destruct (compare x).
  - injection E as <- <- <-. split; [constructor|]. split; [by intros y [= <-]|done].
  - injection E as <- <- <-. split; [constructor|]. split; [done|by constructor].
  - destruct (find_split compare l) as [[b' f'] a']. injection E as <- <- <-. destruct (IH _ _ _ eq_refl) as (H1 & H2 & H3).
    split; [by constructor|done].
Qed.

Lemma find_bound_Forall {A} (P : A -> Prop) p l b r : find_bound p l = (b, r) -> Forall P l -> Forall P b /\ Forall P r.
Proof.
  intros E H. revert b r E. induction H as [|x l Hx Hl IH]; cbn; intros b r E; [by injection E as <- <-|]. destruct (p x).
  - destruct (find_bound p l) as [b' r']. injection E as <- <-. destruct (IH _ _ eq_refl). split; [by constructor|done].
  - injection E as <- <-. split; [constructor|by constructor].
Qed.

Lemma find_or_insert_Forall {A} (P : A -> Prop) compare (x : A) l : P x -> Forall P l -> Forall P (find_or_insert compare x l).
Proof.
  intros Hx Hl. unfold find_or_insert. destruct (find_split compare l) as [[b [y|]] a] eqn:E; [done|].
  destruct (find_split_Forall P compare l _ _ _ E Hl) as (H1 & _ & H3). apply Forall_app. split; [done|by constructor].
Qed.

Lemma insert_unflagged e phases : entry_unflagged e -> phases_unflagged phases -> phases_unflagged (InsertIntoPriorPhase e phases).
Proof.
  intros He Hp. assert (H : phases_unflagged (insert_into_phase e <$> phases)).
  { apply Forall_fmap. eapply Forall_impl; [exact Hp|]. intros s Hs. cbn. unfold insert_into_phase. destruct (_ =? _)%nat; [|done].
    by apply find_or_insert_Forall. }
  destruct e as [r|[[] ? ? ? ?]]; done.
Qed.

Lemma current_unflagged m phase : mutation_unflagged m -> let '(priors, s) := GetCurrentSinglePhaseMutation m phase in
  phases_unflagged priors /\ Forall entry_unflagged (entries s).
Proof.
  intros [Hp Hl]. unfold GetCurrentSinglePhaseMutation. destruct (last_phase m) as [s|]; [|by split].
  destruct (negb _); [|by split]. split; [|done]. apply Forall_app. split; [done|by repeat constructor].
Qed.

(** * Operations *)

Lemma left_unflagged ph d key l : Forall sequence_unflagged l -> Forall entry_unflagged (left_interval ph d key l).
Proof. intros H. unfold left_interval. destruct (negb _); [|constructor]. constructor; [exact H|constructor]. Qed.
Lemma right_unflagged ph d key l : Forall sequence_unflagged l -> Forall entry_unflagged (right_interval ph d key l).
Proof. intros H. unfold right_interval. destruct (negb _); [|constructor]. constructor; [exact H|constructor]. Qed.

Lemma new_entry_unflagged key s l : unflagged s -> Forall unflagged l -> entry_unflagged (Rmw (MkRmw key s l)).
Proof. intros H1 H2. constructor; [by constructor|constructor]. Qed.

Lemma ReadModifyWrite_unflagged m phase key src tf : mutation_unflagged m -> has tf kError = false ->
  mutation_unflagged (ReadModifyWrite m phase key src tf).1.
Proof.
  intros Hm Htf. rewrite has_kError_bit in Htf. unfold ReadModifyWrite. pose proof (current_unflagged m phase Hm) as Hc.
  destruct (GetCurrentSinglePhaseMutation m phase) as [priors s]. destruct Hc as [Hp Hs].
  destruct (FindExistingEntryCoveringKey (entries s) key) as [[b f] a] eqn:E.
  destruct (find_split_Forall entry_unflagged _ _ _ _ _ E Hs) as (Hb & Hf & Ha).
  assert (Hnew : unflagged (fetch_or (MkStep src phase 0) tf)) by (by apply unflagged_or).
  assert (Hres : forall priors' l, phases_unflagged priors' -> Forall entry_unflagged l ->
    mutation_unflagged (MkMultiPhase priors' (Some (MkPhase (phase_number s) (b ++ l ++ a)))))
    by (intros priors' l H1 H2; split; [done|]; cbn; apply Forall_app; split; [done|]; by apply Forall_app).
  destruct f as [[r|d]|]; cbn [fst].
  - specialize (Hf _ eq_refl). apply Forall_inv in Hf. cbn in Hf. set (r' := with_latest r _).
    assert (Hr' : sequence_unflagged r') by (by apply latest_or). apply Hres.
    + destruct (negb _); [|done]. apply insert_unflagged; [by constructor; [|constructor]|done].
    + constructor; [|constructor]. apply new_entry_unflagged; [|exact Hr'].
      apply unflagged_new. rewrite Z.land_spec. apply andb_false_r.
  - specialize (Hf _ eq_refl). cbn in Hf. assert (Hnew' : unflagged (fetch_or (fetch_or (MkStep src phase 0) tf) (Z.lor kPrevDeleted kTransitivelyUnconditional)))
      by (by apply unflagged_or). destruct (negb _).
    + apply Hres; [by apply insert_unflagged|]. apply Forall_app. split; [by apply left_unflagged|].
      constructor; [by apply new_entry_unflagged|by apply right_unflagged].
    + destruct (find_split (compare_rmw key) (superseded d)) as [[t0 c] t1] eqn:E'.
      destruct (find_split_Forall sequence_unflagged _ _ _ _ _ E' Hf) as (H0 & Hc & H1). apply Hres; [done|].
      apply Forall_app. split; [by apply left_unflagged|]. constructor; [|by apply right_unflagged].
      apply new_entry_unflagged; [done|]. destruct c as [c|]; [|constructor]. specialize (Hc _ eq_refl). apply Forall_cons in Hc as [Hc1 Hc2].
      constructor; [by apply unflagged_and|done].
  - apply Hres; [done|]. constructor; [by apply new_entry_unflagged|constructor].
Qed.

Definition delete_unflagged (st : delete_state) : Prop :=
  phases_unflagged (ds_priors st) /\ Forall entry_unflagged (ds_left st) /\ Forall entry_unflagged (ds_right st) /\
  Forall sequence_unflagged (ds_superseded st).

Lemma placeholder_unflagged ph n range : entry_unflagged (Dr (MakeDeleteRangeEntry ph n range)).
Proof. constructor. Qed.

Lemma delete_existing_unflagged range phase st e : delete_unflagged st -> entry_unflagged e ->
  delete_unflagged (delete_existing_entry range phase st e).
Proof.
  intros (H1 & H2 & H3 & H4) He. destruct e as [r|d]; cbn [delete_existing_entry].
  - apply Forall_inv in He. assert (Hr : sequence_unflagged (with_latest r (EnsureRevoked (latest r)))) by (by apply latest_or).
    destruct (negb _).
    + split; [|done]. cbn [ds_priors]. apply insert_unflagged; [by constructor; [|constructor]|done].
    + split; [done|]. split; [done|]. split; [done|]. cbn [ds_superseded]. apply find_or_insert_Forall; [by apply latest_or|done].
  - destruct (negb _).
    + split; [by apply insert_unflagged|]. cbn. split; [|split; [|done]]; apply Forall_app.
      * split; [done|]. destruct (bytes_ltb _ _); [|constructor]. constructor; [apply placeholder_unflagged|constructor].
      * split; [|done]. destruct (CompareExclusiveMax _ _); [constructor| |constructor]. constructor; [apply placeholder_unflagged|constructor].
    + split; [done|]. split; [done|]. split; [done|]. apply Forall_app. by split.
Qed.

Lemma delete_loop_unflagged range phase l : forall st, delete_unflagged st -> Forall entry_unflagged l ->
  let '(st', after) := delete_existing_entries range phase st l in delete_unflagged st' /\ Forall entry_unflagged after.
Proof.
  induction l as [|e l IH]; intros st H Hl; cbn; [done|]. destruct (behind range e); [done|]. apply Forall_cons in Hl as [He Hl].
  apply IH; [by apply delete_existing_unflagged|done].
Qed.

Lemma DeleteRange_unflagged m phase range : mutation_unflagged m -> mutation_unflagged (DeleteRange m phase range).
Proof.
  intros Hm. unfold DeleteRange. destruct (empty range); [done|]. pose proof (current_unflagged m phase Hm) as Hc.
  destruct (GetCurrentSinglePhaseMutation m phase) as [priors s]. destruct Hc as [Hp Hs].
  destruct (find_bound (before_range range) (entries s)) as [b rest] eqn:E. destruct (find_bound_Forall _ _ _ _ _ E Hs) as [Hb Hr].
  pose proof (delete_loop_unflagged range (phase_number s) rest (MkDeleteState priors [] [] None [])) as Hl.
  destruct (delete_existing_entries _ _ _ rest) as [st a]. destruct Hl as [(H1 & H2 & H3 & H4) Ha]; [by repeat split; try constructor|done|].
  split; [done|]. apply Forall_app. split; [done|]. apply Forall_app. split; [done|]. constructor; [exact H4|]. apply Forall_app. by split.
Qed.

Lemma move_unflagged phase l : forall phases, phases_unflagged phases -> Forall entry_unflagged l ->
  let '(phases', kept) := move_entries phase phases l in phases_unflagged phases' /\ Forall entry_unflagged kept.
Proof.
  induction l as [|e l IH]; intros phases Hp Hl; cbn [move_entries]; [done|]. apply Forall_cons in Hl as [He Hl].
  destruct (negb _).
  - apply IH; [by apply insert_unflagged|done].
  - specialize (IH phases Hp Hl). destruct (move_entries phase phases l) as [phases' kept]. destruct IH. split; [done|by constructor].
Qed.

(** The flags that a source sets do not include [kError]. *)
Definition operation_unflagged (op : Operation) : Prop :=
  match op with OpReadModifyWrite _ _ target_flags => has target_flags kError = false | OpDeleteRange _ => True end.

Lemma stage_unflagged ops : Forall (fun op => operation_unflagged op.2) ops -> mutation_unflagged (stage ops).
Proof.
  unfold stage. assert (H : mutation_unflagged new_mutation) by (by split; [constructor|]). revert H. generalize new_mutation.
  induction ops as [|[p op] ops IH]; intros m Hm Ho; cbn [foldl]; [done|]. apply Forall_cons in Ho as [Hop Ho]. apply IH; [|done].
  destruct op as [key src tf|range]; unfold apply_operation; cbn [fst snd] in *; [by apply ReadModifyWrite_unflagged|by apply DeleteRange_unflagged].
Qed.

Lemma SeparatePhases_unflagged ops s : Forall (fun op => operation_unflagged op.2) ops -> s ∈ SeparatePhases (stage ops) ->
  Forall entry_unflagged (entries s).
Proof.
  intros Ho%stage_unflagged Hs. destruct Ho as [Hp Hl]. assert (H : phases_unflagged (SeparatePhases (stage ops))).
  2: { unfold phases_unflagged in H. rewrite Forall_forall in H. by apply H. }
  unfold SeparatePhases. destruct (last_phase (stage ops)) as [l|]; [|constructor].
  assert (H : let '(phases', kept) := move_entries (phase_number l) (prior_phases (stage ops)) (entries l) in
    phases_unflagged (phases' ++ [MkPhase (phase_number l) kept])).
  { pose proof (move_unflagged (phase_number l) (entries l) _ Hp Hl) as H. destruct (move_entries _ _ _) as [phases' kept]. destruct H.
    apply Forall_app. split; [done|by repeat constructor]. }
  destruct (prior_phases (stage ops)) as [|x priors]; [by repeat constructor|]. by destruct (move_entries _ (x :: priors) _).
Qed.
