(* ===== verification/MemoryTransaction.v ===== *)
(** Transactions on the memory store: the commit of a phase validates every read-modify-write of the
    phase, applies all of the operations of the phase or none, and tells every source once. *)

From stdpp Require Import gmap sorting.
From S2P Require Import Prelude Bytes Generation KeyRange MemoryStore TransactionPhases TransactionSpec TransactionMoves TransactionWrites TransactionDeletes TransactionTheorems MemoryCommit MemoryWriteback TransactionFlags.

(** * Validation *)

(** The generation that the result of a writeback is conditioned on is the one that the key has. *)
Definition condition_holds (current : option ValueWithGenerationNumber) (b : Buffer) : Prop :=
  let if_equal := Clean (generation (stamp_ b)) in
  if_equal = Unknown \/
  match current with None => if_equal = NoValue | Some it => Equivalent if_equal (value_generation it) = true end.

Definition conditional (b : Buffer) : bool := negb (IsUnknown (Clean (generation (stamp_ b)))).

Lemma IsUnknown_spec g : IsUnknown g = true <-> g = Unknown.
Proof. apply bytes_eqb_spec. Qed.

Lemma set_buffer_same bs n b : set_buffer bs n b n = b.
Proof. unfold set_buffer. by rewrite Nat.eqb_refl. Qed.
Lemma set_buffer_other bs n b m : m <> n -> set_buffer bs n b m = bs m.
Proof. unfold set_buffer. intros H. by apply Nat.eqb_neq in H as ->. Qed.

Abbreviation latest_source e := (source (latest e)).

Definition entry_holds (data : StoredKeyValuePairs) (bs : buffers) (e : ReadModifyWriteEntry) : Prop :=
  condition_holds (contents data !! rmw_key e) (bs (latest_source e)).

Lemma validate_entry_spec data t e bs : exists v,
  (v = true <-> entry_holds data bs e) /\
  validate_entry data t e bs =
    (v, if v && conditional (bs (latest_source e)) then set_buffer bs (latest_source e) (set_time (bs (latest_source e)) t) else bs).
Proof.
  unfold validate_entry, entry_holds, condition_holds, conditional. rewrite contents_find. cbn zeta.
  set (g := Clean _). destruct (IsUnknown g) eqn:Eu; cbn [negb].
  - exists true. split; [|done]. apply IsUnknown_spec in Eu. tauto.
  - assert (g <> Unknown) by (rewrite <- IsUnknown_spec; congruence).
    destruct (contents data !! rmw_key e) as [it|].
    + exists (Equivalent g (value_generation it)). split; [tauto|]. by destruct (Equivalent _ _).
    + exists (IsNoValue g). split; [unfold IsNoValue; rewrite bytes_eqb_spec; tauto|]. by destruct (IsNoValue g).
Qed.

Lemma validate_all_app {A} (f : A -> buffers -> bool * buffers) l1 : forall l2 bs,
  validate_all f (l1 ++ l2) bs =
  let '(v1, bs) := validate_all f l1 bs in let '(v2, bs) := validate_all f l2 bs in (v2 && v1, bs).
Proof.
  induction l1 as [|a l1 IH]; intros l2 bs; cbn.
  - destruct (validate_all f l2 bs). by rewrite andb_true_r.
  - destruct (f a bs) as [v bs1]. rewrite IH. destruct (validate_all f l1 bs1) as [v1 bs2].
    destruct (validate_all f l2 bs2) as [v2 bs3]. by rewrite andb_assoc.
Qed.

Lemma validate_flat data t l : forall bs,
  ValidateEntryConditions data t l bs = validate_all (validate_entry data t) (read_modify_writes l) bs.
Proof.
  induction l as [|e l IH]; intros bs; [done|]. unfold ValidateEntryConditions, read_modify_writes in *. cbn [validate_all mbind list_bind].
  rewrite validate_all_app. destruct e as [e|d]; cbn [ValidateEntry].
  - cbn [validate_all]. destruct (validate_entry data t e bs) as [v bs1]. by rewrite IH.
  - destruct (validate_all _ (superseded d) bs) as [v bs1]. by rewrite IH.
Qed.

Definition same_request (b b' : Buffer) : Prop :=
  generation (stamp_ b) = generation (stamp_ b') /\ value_state_ b = value_state_ b' /\ value_ b = value_ b'.

Lemma same_request_refl b : same_request b b.
Proof. done. Qed.

Lemma entry_holds_same data bs bs' e : (forall n, same_request (bs n) (bs' n)) ->
  entry_holds data bs e <-> entry_holds data bs' e.
Proof. intros H. unfold entry_holds, condition_holds. by rewrite (proj1 (H _)). Qed.

(** Whether all conditions hold, and the stamps after the validation: those of conditions that
    hold have the time of the commit. *)
Lemma validate_spec data t l : forall bs, NoDup ((fun e => latest_source e) <$> l) ->
  exists v (bs' : buffers), validate_all (validate_entry data t) l bs = (v, bs') /\
    (v = true <-> Forall (entry_holds data bs) l) /\
    (forall n, same_request (bs n) (bs' n)) /\
    (forall n, n ∉ (fun e => latest_source e) <$> l -> bs' n = bs n) /\
    (forall e, e ∈ l -> (entry_holds data bs e -> conditional (bs (latest_source e)) = true ->
         bs' (latest_source e) = set_time (bs (latest_source e)) t) /\
       (~ entry_holds data bs e \/ conditional (bs (latest_source e)) = false -> bs' (latest_source e) = bs (latest_source e))).
Proof.
  induction l as [|e l IH]; intros bs Hd; cbn.
  - exists true, bs. split; [done|]. split; [split; [constructor|done]|]. split; [done|]. split; [done|]. intros e He. by apply elem_of_nil in He.
  - cbn in Hd. apply NoDup_cons in Hd as [He Hd]. destruct (validate_entry_spec data t e bs) as (v & Hv & ->).
    set (bs1 := if v && _ then _ else bs).
    assert (Hs : forall n, same_request (bs n) (bs1 n)).
    { intros n. unfold bs1. destruct (v && _); [|done]. unfold set_buffer. destruct (Nat.eqb_spec n (latest_source e)) as [->|]; done. }
    assert (Ho : forall n, n <> latest_source e -> bs1 n = bs n).
    { intros n Hn. unfold bs1. destruct (v && _); [|done]. by apply set_buffer_other. }
    destruct (IH bs1 Hd) as (v' & bs' & -> & H1 & H2 & H3 & H4). exists (v' && v), bs'. split; [done|].
    split; [|split; [|split]].
    + rewrite andb_true_iff, Forall_cons, H1, Hv. rewrite (Forall_iff _ _ _ (fun x => iff_sym (entry_holds_same data bs bs1 x Hs))). tauto.
    + intros n. specialize (Hs n). specialize (H2 n). unfold same_request in *. intuition congruence.
    + intros n Hn. apply not_elem_of_cons in Hn as [Hn1 Hn2]. rewrite H3 by done. by apply Ho.
    + intros x Hx. apply elem_of_cons in Hx as [->|Hx].
      * rewrite H3 by done. unfold bs1. rewrite <- Hv. split.
        -- intros -> ->. cbn [andb]. by rewrite set_buffer_same.
        -- intros H. assert (Ef : v && conditional (bs (latest_source e)) = false).
           { destruct H as [H| ->]; [destruct v; [by destruct H|done]|by rewrite andb_false_r]. }
           by rewrite Ef.
      * assert (Hne : latest_source x <> latest_source e).
        { intros E. apply He. rewrite <- E. by apply (list_elem_of_fmap_2 (fun e => latest_source e)). }
        rewrite <- (Ho _ Hne), (entry_holds_same data bs bs1 x Hs). by apply H4.
Qed.

(** * Mutation *)

(** What a written-back entry makes of the key, with the generation that its sources are told. *)
Definition rmw_applied (data data' : StoredKeyValuePairs) (k : bytes) (b : Buffer) (new_generation : bytes) : Prop :=
  if IsDirty (generation (stamp_ b)) then
    match value_state_ b with
    | kMissing => contents data' !! k = None /\ new_generation = NoValue
    | _ => exists n, next_generation_number data <= n < next_generation_number data' /\
        contents data' !! k = Some (MkVersioned (value_ b) n) /\ new_generation = FromUint64 n
    end
  else contents data' !! k = contents data !! k /\ new_generation = generation (stamp_ b).

Definition entry_applied (t : Z) (data data' : StoredKeyValuePairs) (bs bs' : buffers) (k : bytes) (e : option MutationEntry) : Prop :=
  match e with
  | None => contents data' !! k = contents data !! k
  | Some (Dr _) => contents data' !! k = None
  | Some (Rmw e) =>
      exists g, bs' (latest_source e) = set_generations (bs (latest_source e)) (generation (stamp_ (bs (latest_source e)))) g t /\
        rmw_applied data data' k (bs (latest_source e)) g
  end.

Definition tree_latest (l : list MutationEntry) : list nat := l ≫= fun e => match e with Rmw e => [latest_source e] | Dr _ => [] end.

(** The source says which value it wants if it wants one. *)
Definition settled (b : Buffer) : Prop := IsDirty (generation (stamp_ b)) = true -> value_state_ b <> kUnspecified.

Lemma ApplyEntry_spec t (data : StoredKeyValuePairs) (bs : buffers) e : entry_ok e -> WellFormed data -> 0 <= next_generation_number data < 2 ^ 64 - 1 ->
  (forall r, e = Rmw r -> settled (bs (latest_source r))) ->
  exists data' (bs' : buffers), ApplyEntry t (data, bs) e = Some (data', bs') /\ WellFormed data' /\
    next_generation_number data <= next_generation_number data' <= next_generation_number data + 1 /\
    (forall k, byte_string k -> ~ covers k e -> contents data' !! k = contents data !! k) /\
    (forall k, byte_string k -> covers k e -> entry_applied t data data' bs bs' k (Some e)) /\
    (forall n, n ∉ tree_latest [e] -> bs' n = bs n).
Proof.
  intros He Hw Hn Hs. destruct e as [r|d]; cbn [ApplyEntry].
  - specialize (Hs r eq_refl). set (b := bs (latest_source r)) in *. set (g := generation (stamp_ b)) in *.
    assert (Hfin : forall data' g', WellFormed data' ->
      next_generation_number data <= next_generation_number data' <= next_generation_number data + 1 ->
      (forall k, k <> rmw_key r -> contents data' !! k = contents data !! k) ->
      rmw_applied data data' (rmw_key r) b g' ->
      exists data'' bs', Some (data', set_buffer bs (latest_source r) (set_generations b g g' t)) = Some (data'', bs') /\ WellFormed data'' /\
        next_generation_number data <= next_generation_number data'' <= next_generation_number data + 1 /\
        (forall k, byte_string k -> ~ covers k (Rmw r) -> contents data'' !! k = contents data !! k) /\
        (forall k, byte_string k -> covers k (Rmw r) -> entry_applied t data data'' bs bs' k (Some (Rmw r))) /\
        (forall n, n ∉ tree_latest [Rmw r] -> bs' n = bs n)).
    { intros data' g' H1 H2 H3 H4. exists data', (set_buffer bs (latest_source r) (set_generations b g g' t)).
      split; [done|]. split; [done|]. split; [done|]. split; [|split].
      - intros k Hk Hc. apply H3. by rewrite <- covers_rmw.
      - intros k Hk Hc. apply covers_rmw in Hc as ->; [|done]. exists g'. split; [apply set_buffer_same|done].
      - intros n Hnot. apply set_buffer_other. intros ->. apply Hnot. cbn. by left. }
    destruct (IsDirty g) eqn:Ed; cbn [negb].
    + specialize (Hs Ed). destruct (value_state_ b) eqn:Es; [done| |].
      * destruct (erase_spec data (rmw_key r) Hw) as [H1 H2]. apply Hfin; [done|cbn; lia| |].
        -- intros k Hk. rewrite H2. by apply lookup_delete_ne.
        -- unfold rmw_applied. fold g. rewrite Ed, Es. split; [|done]. rewrite H2. apply lookup_delete_eq.
      * destruct (put_spec data (rmw_key r) (value_ b) Hw Hn) as (H1 & H2 & H3 & H4). destruct (put data (rmw_key r) (value_ b)) as [data' g'].
        cbn [fst snd] in *. apply Hfin; [done|lia| |].
        -- intros k Hk. rewrite H2. by apply lookup_insert_ne.
        -- unfold rmw_applied. fold g. rewrite Ed, Es. exists (next_generation_number data). split; [lia|]. split; [|done].
           rewrite H2. apply lookup_insert_eq.
    + apply Hfin; [done|lia|done|]. unfold rmw_applied. fold g. by rewrite Ed.
  - pose proof (erase_found_spec data (MkKeyRange (dr_key d) (dr_exclusive_max d)) Hw) as Hf.
    destruct (erase_found data _) as [data'|].
    + destruct Hf as (H1 & H2 & H3). exists data', bs. split; [done|]. split; [done|]. split; [lia|].
      assert (Hk : forall k, contents data' !! k = if Contains (MkKeyRange (dr_key d) (dr_exclusive_max d)) k then None else contents data !! k).
      { intros k. rewrite H2, map_lookup_filter. destruct (contents data !! k); cbn; destruct (Contains _ k); done. }
      split; [|split]; [| |done]; intros k _ Hc; unfold covers in Hc; cbn [range_of] in Hc; cbn [entry_applied]; rewrite Hk.
      * by apply not_true_iff_false in Hc as ->.
      * by rewrite Hc.
    + destruct Hf as (k & v & _ & Hc%crosses_empty). pose proof (range_not_empty _ He) as E. cbn in E. congruence.
Qed.

Lemma rmw_applied_later data data1 data' k b g :
  next_generation_number data <= next_generation_number data1 -> contents data1 !! k = contents data !! k ->
  rmw_applied data1 data' k b g -> rmw_applied data data' k b g.
Proof.
  unfold rmw_applied. intros Hn <-. destruct (IsDirty _); [|done].
  destruct (value_state_ b); [|done|]; intros (n & ? & H); exists n; (split; [lia|done]).
Qed.

(** All entries, one after the other: for every key, the entry that covers it. *)
Lemma ApplyMutation_spec t l : forall (data : StoredKeyValuePairs) (bs : buffers), tree_ok l -> WellFormed data ->
  0 <= next_generation_number data -> next_generation_number data + Z.of_nat (length l) <= 2 ^ 64 - 1 ->
  (forall n, n ∈ tree_latest l -> settled (bs n)) -> NoDup (tree_latest l) ->
  exists data' (bs' : buffers), ApplyMutation t l (data, bs) = Some (data', bs') /\ WellFormed data' /\
    next_generation_number data <= next_generation_number data' <= next_generation_number data + Z.of_nat (length l) /\
    (forall k, byte_string k -> entry_applied t data data' bs bs' k (at_key k l)) /\
    (forall n, n ∉ tree_latest l -> bs' n = bs n).
Proof.
  induction l as [|e l IH]; intros data bs [Ho Hok] Hw H0 Hroom Hset Hd; cbn [ApplyMutation length].
  - exists data, bs. split; [done|]. split; [done|]. split; [lia|]. done.
  - apply ordered_cons in Ho as [Ho Hb]. apply Forall_cons in Hok as [He Hok]. cbn [length] in Hroom.
    assert (Etl : tree_latest (e :: l) = tree_latest [e] ++ tree_latest l) by (unfold tree_latest; cbn; by rewrite app_nil_r).
    rewrite Etl in *. apply NoDup_app in Hd as (_ & Hdis & Hd).
    destruct (ApplyEntry_spec t data bs e He Hw) as (data1 & bs1 & -> & Hw1 & Hn1 & Hout & Hin & Hbs1); [lia| |].
    { intros r ->. apply Hset. cbn. by left. }
    cbn [mbind option_bind].
    destruct (IH data1 bs1) as (data' & bs' & Eapp & Hw' & Hn' & Happ & Hbs'); [done..|lia|lia| |done|].
    { intros n Hn. rewrite Hbs1; [apply Hset, elem_of_app; by right|]. intros H. by apply (Hdis n). }
    exists data', bs'. split; [exact Eapp|]. split; [done|]. split; [lia|]. split.
    2: { intros n Hn. rewrite not_elem_of_app in Hn. destruct Hn as [Hn1' Hn2']. rewrite Hbs' by done. by apply Hbs1. }
    intros k Hk. destruct (decide (covers k e)) as [Hc|Hc].
    + rewrite at_key_cons_True by done. specialize (Happ k Hk). rewrite at_key_none in Happ.
      2: { eapply Forall_impl; [exact Hb|]. intros x Hx. by eapply before_not_covers. }
      cbn [entry_applied] in Happ. specialize (Hin k Hk Hc). destruct e as [r|d]; cbn [entry_applied] in *; [|by rewrite Happ].
      destruct Hin as (g & E & Hg). exists g. rewrite Hbs'; [|intros Hx; apply (Hdis (latest_source r)); [cbn; by left|done]].
      split; [done|]. revert Hg. unfold rmw_applied. rewrite Happ. destruct (IsDirty _); [|done].
      destruct (value_state_ _); [|done|]; intros (n & ? & H); exists n; (split; [lia|done]).
    + rewrite at_key_cons_False by done. specialize (Happ k Hk). specialize (Hout k Hk Hc).
      destruct (at_key k l) as [[r|d]|] eqn:Ek; cbn [entry_applied] in *; [|done|congruence].
      assert (Hr : latest_source r ∈ tree_latest l).
      { apply at_key_Some in Ek as [Hin' _]. apply list_elem_of_bind. exists (Rmw r). split; [cbn; by left|done]. }
      rewrite Hbs1 in Happ; [|intros Hx; by apply (Hdis (latest_source r))].
      destruct Happ as (g & E & Hg). exists g. split; [done|]. eapply rmw_applied_later; [|exact Hout|exact Hg]. lia.
Qed.

(** * The sources of the operations *)

Definition op_source (op : nat * Operation) : option (bytes * nat) :=
  match op.2 with OpReadModifyWrite key src _ => Some (key, src) | OpDeleteRange _ => None end.
Definition op_sources (ops : list (nat * Operation)) : list (bytes * nat) := omap op_source ops.

Lemma op_sources_snoc ops op : op_sources (ops ++ [op]) = op_sources ops ++ option_list (op_source op).
Proof. unfold op_sources. rewrite omap_app. cbn. by destruct (op_source op). Qed.

(** The sources that a key has in a phase are those of operations on the key, each once. *)
Lemma phase_effect_sources ops p k : NoDup (op_sources ops).*2 ->
  NoDup (effect_sources (phase_effect ops p k)) /\
  forall x, x ∈ effect_sources (phase_effect ops p k) -> (k, x) ∈ op_sources ops.
Proof.
  induction ops as [|[q op] ops IH] using rev_ind; intros Hd.
  - split; [constructor|]. intros x Hx. by apply elem_of_nil in Hx.
  - rewrite op_sources_snoc, fmap_app in Hd. apply NoDup_app in Hd as (Hd & Hdis & _). destruct (IH Hd) as [H1 H2].
    unfold phase_effect. rewrite foldl_app. fold (phase_effect ops p k). cbn [foldl fst snd]. rewrite op_sources_snoc.
    assert (Hsame : NoDup (effect_sources (phase_effect ops p k)) /\
      forall x, x ∈ effect_sources (phase_effect ops p k) -> (k, x) ∈ op_sources ops ++ option_list (op_source (q, op))).
    { split; [done|]. intros x Hx. apply elem_of_app. left. by apply H2. }
    destruct (q =? p)%nat; [|done]. destruct op as [key src tf|range]; cbn [operation_effect].
    + destruct (bytes_eqb key k) eqn:E; [|done]. apply bytes_eqb_spec in E as ->. cbn [effect_sources]. split.
      * constructor; [|done]. intros Hx. apply (Hdis src); [|cbn; by left]. apply H2 in Hx.
        by apply (list_elem_of_fmap_2 snd) in Hx.
      * intros x Hx. apply elem_of_app. apply elem_of_cons in Hx as [->|Hx]; [right; cbn; by left|left; by apply H2].
    + by destruct (Contains range k).
Qed.

Lemma NoDup_snd {A B} (l : list (A * B)) a a' b : NoDup l.*2 -> (a, b) ∈ l -> (a', b) ∈ l -> a = a'.
Proof.
  induction l as [|[x y] l IH]; [intros _ H; by apply elem_of_nil in H|]. cbn. rewrite NoDup_cons, !elem_of_cons.
  intros [Hy Hd] [E|H] [E'|H']; simplify_eq; [done|..|by apply IH]; destruct Hy.
  - by apply (list_elem_of_fmap_2 snd) in H'.
  - by apply (list_elem_of_fmap_2 snd) in H.
Qed.

(** * The entries of a tree by their keys *)

Lemma read_modify_writes_cons e l : read_modify_writes (e :: l) =
  match e with Rmw r => [r] | Dr d => superseded d end ++ read_modify_writes l.
Proof. done. Qed.

Lemma superseded_unique (l : list ReadModifyWriteEntry) r : StronglySorted bytes_lt (rmw_key <$> l) -> r ∈ l ->
  superseded_steps (rmw_key r) l = steps r.
Proof.
  intros Hs Hr. apply list_elem_of_split in Hr as (l1 & l2 & ->). rewrite superseded_app. change (r :: l2) with ([r] ++ l2).
  apply sorted_app in Hs as (_ & Hs2 & H12). apply sorted_cons in Hs2 as [_ H2].
  rewrite (superseded_app _ [r]), (superseded_none _ l1), (superseded_none _ l2).
  - unfold superseded_steps. rewrite filter_cons_True by done. cbn. by rewrite !app_nil_r.
  - eapply Forall_impl; [exact H2|]. intros x Hx E. cbn in Hx. rewrite E in Hx. by apply bytes_lt_irrefl in Hx.
  - eapply Forall_impl; [exact H12|]. intros x Hx E. apply Forall_cons in Hx as [Hx _]. cbn in Hx. rewrite E in Hx. by apply bytes_lt_irrefl in Hx.
Qed.

(** Every sequence of entries of the tree of a phase: its key, and that it is what the tree says
    of the key. *)
Lemma superseded_of_entry d r : entry_ok (Dr d) -> r ∈ superseded d ->
  covers (rmw_key r) (Dr d) /\ step_phase (latest r) = dr_phase d /\ steps_ok r /\ byte_string (rmw_key r).
Proof. intros [_ _ _ (_ & H & _)] Hr. rewrite Forall_forall in H. exact (H r Hr). Qed.

Lemma sequence_effect l p r : tree_ok l -> Forall (fun e => owner e = Some p) l -> r ∈ read_modify_writes l ->
  byte_string (rmw_key r) /\ step_phase (latest r) = p /\
  exists deleted, tree_effect (rmw_key r) l = Some (deleted, sources_in p (steps r)).
Proof.
  intros [Ho Hok] Hown Hr. pose proof (ordered_no_overlap l Ho) as Hn. apply list_elem_of_bind in Hr as (e & Hr & He).
  rewrite Forall_forall in Hok, Hown. specialize (Hok e He). specialize (Hown e He). destruct e as [r'|d].
  - apply list_elem_of_singleton in Hr as ->. pose proof (min_bytes _ Hok) as Hb. cbn in Hb, Hown. injection Hown as Hown.
    split; [done|]. split; [done|]. exists false. unfold tree_effect. rewrite (at_key_unique _ l (Rmw r')); [|done..|by apply covers_rmw].
    cbn. by rewrite Hown.
  - destruct (superseded_of_entry d r Hok Hr) as (Hc & Hp & _ & Hb). cbn in Hown. destruct (placeholder d); [done|]. injection Hown as Hown.
    split; [done|]. split; [congruence|]. exists true. unfold tree_effect. rewrite (at_key_unique _ l (Dr d)) by done.
    cbn [mbind option_bind entry_effect]. destruct Hok as [_ _ _ (Hs & _)]. by rewrite Hown, (superseded_unique _ r Hs Hr).
Qed.

Lemma effect_sequence l p k deleted srcs : tree_ok l -> Forall (fun e => owner e = Some p) l -> byte_string k ->
  tree_effect k l = Some (deleted, srcs) ->
  srcs = [] \/ exists r, r ∈ read_modify_writes l /\ rmw_key r = k /\ srcs = sources_in p (steps r).
Proof.
  intros [Ho Hok] Hown Hk. unfold tree_effect. destruct (at_key k l) as [e|] eqn:E; [|done]. cbn [mbind option_bind].
  apply at_key_Some in E as [He Hc]. rewrite Forall_forall in Hok, Hown. specialize (Hok e He). specialize (Hown e He).
  destruct e as [r|d]; cbn [entry_effect]; intros [= <- <-].
  - right. exists r. split; [apply list_elem_of_bind; exists (Rmw r); by rewrite list_elem_of_singleton|].
    split; [symmetry; by apply covers_rmw|]. cbn in Hown. injection Hown as Hown. by rewrite Hown.
  - cbn in Hown. destruct (placeholder d); [done|]. injection Hown as Hown. rewrite Hown.
    destruct (decide (Exists (fun r => rmw_key r = k) (superseded d))) as [(r & Hr & <-)%Exists_exists|Hno].
    + right. exists r. split; [apply list_elem_of_bind; by exists (Dr d)|]. split; [done|].
      destruct Hok as [_ _ _ (Hs & _)]. by rewrite (superseded_unique _ r Hs Hr).
    + left. rewrite superseded_none; [done|]. apply Forall_forall. intros r Hr E. apply Hno, Exists_exists. by exists r.
Qed.

Lemma sequences_sorted l : tree_ok l -> StronglySorted bytes_lt (rmw_key <$> read_modify_writes l).
Proof.
  induction l as [|e l IH]; [constructor|]. intros [Ho Hok]. apply ordered_cons in Ho as [Ho Hb]. apply Forall_cons in Hok as [He Hok].
  rewrite read_modify_writes_cons. apply sorted_app. split; [|split; [by apply IH|]].
  - destruct e as [r|d]; [repeat constructor|]. by destruct He as [_ _ _ (Hs & _)].
  - assert (Hlow : Forall (fun r' => bytes_le (exclusive_max (range_of e)) (rmw_key r') /\ exclusive_max (range_of e) <> []) (read_modify_writes l)).
    { apply Forall_forall. intros r' Hr'. apply list_elem_of_bind in Hr' as (x & Hr' & Hx). rewrite Forall_forall in Hb, Hok.
      specialize (Hb x Hx). specialize (Hok x Hx). destruct Hb as [Hne Hle]. split; [|done]. destruct x as [r''|d].
      - apply list_elem_of_singleton in Hr' as ->. done.
      - destruct (superseded_of_entry d r' Hok Hr') as (Hc & _). unfold covers in Hc. rewrite Contains_bounds in Hc. cbn in Hc, Hle.
        destruct Hc as [Hc _]. border. }
    apply Forall_forall. intros r Hr. eapply Forall_impl; [exact Hlow|]. intros r' [H1 H2].
    assert (Hc : covers (rmw_key r) e).
    { destruct e as [r0|d]; [apply list_elem_of_singleton in Hr as ->; apply covers_rmw; [by destruct He|done]|].
      by apply superseded_of_entry. }
    unfold covers in Hc. rewrite Contains_bounds in Hc. destruct Hc as [_ [?|Hc]]; [done|]. border.
Qed.

Lemma sorted_keys_inj (l : list ReadModifyWriteEntry) r r' : StronglySorted bytes_lt (rmw_key <$> l) -> r ∈ l -> r' ∈ l ->
  rmw_key r = rmw_key r' -> r = r'.
Proof.
  induction l as [|x l IH]; [intros _ H; by apply elem_of_nil in H|]. rewrite sorted_cons, !elem_of_cons. intros [Hs Hx].
  rewrite Forall_forall in Hx. intros [->|Hr] [->|Hr'] E; [done| | |by apply IH].
  - specialize (Hx r' Hr'). rewrite E in Hx. by apply bytes_lt_irrefl in Hx.
  - specialize (Hx r Hr). rewrite E in Hx. by apply bytes_lt_irrefl in Hx.
Qed.

Lemma sequences_NoDup l : tree_ok l -> NoDup (read_modify_writes l).
Proof.
  intros H. apply (NoDup_fmap_1 rmw_key). apply sequences_sorted in H. induction H as [|k l' _ IH Hk]; constructor; [|done].
  intros Hin. rewrite Forall_forall in Hk. by apply (bytes_lt_irrefl k), Hk.
Qed.

(** * The commit of a tree *)

Lemma disconnected_sequences l : read_modify_writes (disconnect <$> l) = disconnect_sequence <$> read_modify_writes l.
Proof.
  induction l as [|e l IH]; [done|]. rewrite fmap_cons, !read_modify_writes_cons, IH, fmap_app. by destruct e.
Qed.

Lemma validate_disconnected data t rs : forall bs,
  validate_all (validate_entry data t) (disconnect_sequence <$> rs) bs = validate_all (validate_entry data t) rs bs.
Proof.
  induction rs as [|r rs IH]; intros bs; [done|]. cbn. change (validate_entry data t (disconnect_sequence r) bs) with (validate_entry data t r bs).
  destruct (validate_entry data t r bs) as [v bs1]. by rewrite IH.
Qed.

Lemma ApplyMutation_disconnected t l : forall st, ApplyMutation t (disconnect <$> l) st = ApplyMutation t l st.
Proof.
  induction l as [|e l IH]; intros st; [done|]. cbn. destruct st as [data bs].
  assert (E : ApplyEntry t (data, bs) (disconnect e) = ApplyEntry t (data, bs) e) by (by destruct e).
  rewrite E. destruct (ApplyEntry t (data, bs) e); [apply IH|done].
Qed.

Lemma disconnected_steps p r : step_phase (latest r) = p ->
  source <$> steps (disconnect_sequence r) = sources_in p (steps r).
Proof.
  intros <-. unfold sources_in, steps, disconnect_sequence. cbn [latest prev]. by rewrite filter_cons_True.
Qed.

Lemma sources_latest p r : step_phase (latest r) = p -> exists srcs, sources_in p (steps r) = latest_source r :: srcs.
Proof. intros <-. unfold sources_in, steps. rewrite filter_cons_True by done. by eexists. Qed.

(** The sources of a phase, all sequences of its tree together. *)
Definition all_sources (p : nat) (l : list MutationEntry) : list nat :=
  read_modify_writes l ≫= fun r => sources_in p (steps r).

Lemma list_bind_ext_members {A B} (f g : A -> list B) (rs : list A) : (forall r, r ∈ rs -> f r = g r) -> rs ≫= f = rs ≫= g.
Proof.
  induction rs as [|r rs IH]; intros H; [done|]. rewrite !bind_cons, (H r) by (by left). f_equal. apply IH. intros x Hx. apply H. by right.
Qed.

Lemma list_bind_fmap {A B C} (h : A -> B) (f : B -> list C) (rs : list A) : (h <$> rs) ≫= f = rs ≫= (fun a => f (h a)).
Proof. induction rs as [|r rs IH]; [done|]. by rewrite fmap_cons, !bind_cons, IH. Qed.

Lemma fmap_bind_list {A B C} (h : B -> C) (f : A -> list B) (rs : list A) : h <$> (rs ≫= f) = rs ≫= (fun a => h <$> f a).
Proof. induction rs as [|r rs IH]; [done|]. by rewrite !bind_cons, fmap_app, IH. Qed.

Lemma bind_assoc_list {A B C} (f : A -> list B) (g : B -> list C) (rs : list A) : (rs ≫= f) ≫= g = rs ≫= (fun a => f a ≫= g).
Proof. induction rs as [|r rs IH]; [done|]. by rewrite !bind_cons, bind_app, IH. Qed.

Lemma success_fst e stamp orig : (WritebackSuccess e stamp orig).*1 = source <$> steps e.
Proof. unfold WritebackSuccess, steps. rewrite <- list_fmap_compose. done. Qed.

Lemma notices_sources InfiniteFuture bs l :
  (AtomicCommitWritebackSuccess InfiniteFuture bs l).*1 = read_modify_writes l ≫= fun e => source <$> steps e.
Proof.
  unfold AtomicCommitWritebackSuccess. rewrite fmap_bind_list. unfold read_modify_writes. rewrite bind_assoc_list.
  apply list_bind_ext_members. intros [e|d] _.
  - rewrite success_fst. cbn. by rewrite app_nil_r.
  - rewrite fmap_bind_list. apply list_bind_ext_members. intros e _. apply success_fst.
Qed.

Section commit_tree.
Context (InfinitePast InfiniteFuture t : Z) (p : nat) (l : list MutationEntry) (ops : list (bytes * nat)).
Context (Htree : tree_ok l) (Hown : Forall (fun e => owner e = Some p) l) (Hops : NoDup ops.*2).
Context (Heffect : forall k, byte_string k -> NoDup (effect_sources (tree_effect k l)) /\
  forall x, x ∈ effect_sources (tree_effect k l) -> (k, x) ∈ ops).

Lemma sequence_sources r : r ∈ read_modify_writes l ->
  NoDup (sources_in p (steps r)) /\ forall x, x ∈ sources_in p (steps r) -> (rmw_key r, x) ∈ ops.
Proof.
  intros Hr. destruct (sequence_effect l p r Htree Hown Hr) as (Hb & _ & d & E).
  destruct (Heffect (rmw_key r) Hb) as [H1 H2]. rewrite E in H1, H2. done.
Qed.

Lemma same_source r r' x : r ∈ read_modify_writes l -> r' ∈ read_modify_writes l ->
  x ∈ sources_in p (steps r) -> x ∈ sources_in p (steps r') -> r = r'.
Proof.
  intros Hr Hr' Hx Hx'. apply (sorted_keys_inj _ r r' (sequences_sorted l Htree)); [done..|].
  eapply NoDup_snd; [exact Hops|by apply sequence_sources|by apply sequence_sources].
Qed.

Lemma all_sources_NoDup : NoDup (all_sources p l).
Proof.
  apply NoDup_bind.
  - intros r r' x Hr Hr' Hx Hx'. by apply (same_source r r' x).
  - intros r Hr. by apply sequence_sources.
  - by apply sequences_NoDup.
Qed.

Lemma latest_in_sources r : r ∈ read_modify_writes l -> latest_source r ∈ sources_in p (steps r).
Proof.
  intros Hr. destruct (sequence_effect l p r Htree Hown Hr) as (_ & Hp & _).
  destruct (sources_latest p r Hp) as (srcs & ->). by left.
Qed.

Lemma latest_NoDup : NoDup ((fun r => latest_source r) <$> read_modify_writes l).
Proof.
  apply NoDup_fmap_2_strong; [|by apply sequences_NoDup]. intros r r' Hr Hr' E.
  apply (same_source r r' (latest_source r)); [done|done|by apply latest_in_sources|rewrite E; by apply latest_in_sources].
Qed.

Lemma tree_latest_sublist l' : tree_latest l' `sublist_of` ((fun r => latest_source r) <$> read_modify_writes l').
Proof.
  induction l' as [|e l' IH]; [done|]. rewrite read_modify_writes_cons, fmap_app. destruct e as [r|d].
  - cbn. by apply sublist_skip.
  - change (tree_latest (Dr d :: l')) with ([] ++ tree_latest l'). apply sublist_app; [apply sublist_nil_l|done].
Qed.

Lemma tree_latest_NoDup : NoDup (tree_latest l).
Proof. eapply sublist_NoDup; [apply latest_NoDup|apply tree_latest_sublist]. Qed.

(** Every source of the phase is told once. *)
Lemma disconnected_sources : (read_modify_writes (disconnect <$> l) ≫= fun e => source <$> steps e) = all_sources p l.
Proof.
  rewrite disconnected_sequences, list_bind_fmap. unfold all_sources. apply list_bind_ext_members. intros r Hr. cbn.
  apply disconnected_steps. by apply (sequence_effect l p r Htree Hown).
Qed.

Lemma success_sources bs : (AtomicCommitWritebackSuccess InfiniteFuture bs (disconnect <$> l)).*1 = all_sources p l.
Proof. rewrite <- disconnected_sources. apply notices_sources. Qed.

Lemma error_sources : (read_modify_writes (disconnect <$> l) ≫= error_notices) = (fun x => (x, KvsWritebackError)) <$> all_sources p l.
Proof.
  rewrite <- disconnected_sources, fmap_bind_list. apply list_bind_ext_members. intros r _. unfold error_notices, steps. by rewrite <- list_fmap_compose.
Qed.

Lemma disconnected_unflagged : Forall entry_unflagged l ->
  Forall (fun r => has (flags (latest r)) kError = false) (read_modify_writes (disconnect <$> l)).
Proof.
  intros H. rewrite disconnected_sequences. apply Forall_fmap, Forall_forall. intros r Hr. cbn.
  apply list_elem_of_bind in Hr as (e & Hr & He). rewrite Forall_forall in H. specialize (H e He). unfold entry_unflagged in H.
  rewrite Forall_forall in H. assert (Hr' : r ∈ sequences e) by (by destruct e). by apply (Forall_inv (H r Hr')).
Qed.

Lemma disconnected_sizes : Forall (fun e => Z.of_nat (length (sequences e)) < 2 ^ 63) l ->
  Forall (fun e => Z.of_nat (length (sequences e)) < 2 ^ 63) (disconnect <$> l).
Proof.
  intros H. apply Forall_fmap. eapply Forall_impl; [exact H|]. intros e He. destruct e as [r|d]; cbn in *; [done|by rewrite length_fmap].
Qed.

(** What is validated: the condition of the last writeback of every key, also if it is superseded. *)
Definition tree_holds (data : StoredKeyValuePairs) (bs : buffers) : Prop :=
  forall k deleted src srcs, byte_string k -> tree_effect k l = Some (deleted, src :: srcs) ->
  condition_holds (contents data !! k) (bs src).

Lemma tree_holds_spec data bs : Forall (entry_holds data bs) (read_modify_writes l) <-> tree_holds data bs.
Proof.
  rewrite Forall_forall. split.
  - intros H k deleted src srcs Hk E. destruct (effect_sequence l p k deleted _ Htree Hown Hk E) as [?|(r & Hr & <- & Es)]; [done|].
    destruct (sequence_effect l p r Htree Hown Hr) as (_ & Hp & _). destruct (sources_latest p r Hp) as (srcs' & El).
    rewrite El in Es. injection Es as -> _. by apply H.
  - intros H r Hr. destruct (sequence_effect l p r Htree Hown Hr) as (Hb & Hp & d & E). destruct (sources_latest p r Hp) as (srcs & El).
    rewrite El in E. by apply (H _ _ _ _ Hb E).
Qed.

(** What a committed operation does to a key, and what its sources are told. *)
Definition key_committed (data data' : StoredKeyValuePairs) (bs : buffers) (notices : list (nat * Notice)) (k : bytes)
    (e : effect) : Prop :=
  match e with
  | None => contents data' !! k = contents data !! k
  | Some (true, srcs) =>
      contents data' !! k = None /\
      forall x, x ∈ srcs -> (x, KvsWritebackSuccess (MkStamp Unknown InfiniteFuture) Unknown) ∈ notices
  | Some (false, []) => False
  | Some (false, src :: srcs) =>
      exists g, rmw_applied data data' k (bs src) g /\
      forall x, x ∈ src :: srcs -> (x, KvsWritebackSuccess (MkStamp g t) (generation (stamp_ (bs src)))) ∈ notices
  end.

Lemma rmw_applied_same data data' k (b b' : Buffer) g : same_request b b' -> rmw_applied data data' k b' g -> rmw_applied data data' k b g.
Proof. intros (Eg & Es & Ev). unfold rmw_applied. by rewrite Eg, Es, Ev. Qed.

Lemma success_in e stamp orig x : x ∈ source <$> steps e -> (x, KvsWritebackSuccess stamp orig) ∈ WritebackSuccess e stamp orig.
Proof. intros Hx. apply list_elem_of_fmap in Hx as (s & -> & Hs). by apply (list_elem_of_fmap_2 (fun s => (source s, KvsWritebackSuccess stamp orig))). Qed.

Lemma committed_spec (data data' : StoredKeyValuePairs) (bs bs1 bs' : buffers) k : byte_string k -> (forall n, same_request (bs n) (bs1 n)) ->
  entry_applied t data data' bs1 bs' k (at_key k l) ->
  key_committed data data' bs (AtomicCommitWritebackSuccess InfiniteFuture bs' (disconnect <$> l)) k (tree_effect k l).
Proof.
  intros Hk Hsame. unfold tree_effect. destruct (at_key k l) as [e|] eqn:E; cbn [mbind option_bind]; [|done].
  apply at_key_Some in E as [He Hc]. destruct Htree as [_ Hok]. rewrite Forall_forall in Hok. specialize (Hok e He).
  pose proof Hown as Ho. rewrite Forall_forall in Ho. specialize (Ho e He). destruct e as [r|d]; cbn [entry_applied entry_effect].
  - intros (g & Eb & Hg). cbn in Ho. injection Ho as Ho. rewrite Ho. destruct (sources_latest p r Ho) as (srcs & Es). rewrite Es.
    cbn [key_committed]. exists g. split; [by eapply rmw_applied_same|]. intros x Hx. rewrite <- Es, <- (disconnected_steps p r Ho) in Hx.
    apply list_elem_of_bind. exists (Rmw (disconnect_sequence r)). split; [|apply list_elem_of_fmap; by exists (Rmw r)].
    cbn [disconnect_sequence latest]. rewrite Eb. cbn [set_generations stamp_ orig_generation_].
    rewrite <- (proj1 (Hsame (latest_source r))). by apply success_in.
  - intros Hn. cbn [key_committed]. split; [done|]. intros x Hx. cbn in Ho. destruct (placeholder d) eqn:Ep; [done|]. injection Ho as Ho.
    apply list_elem_of_fmap in Hx as (s & -> & Hs). apply list_elem_of_filter in Hs as [Hsp Hs].
    apply list_elem_of_bind in Hs as (r & Hs & Hr). apply list_elem_of_filter in Hr as [Hrk Hr].
    destruct (superseded_of_entry d r Hok Hr) as (_ & Hrp & _).
    apply list_elem_of_bind. exists (disconnect (Dr d)). split; [|by apply list_elem_of_fmap_2].
    cbn [disconnect superseded]. apply list_elem_of_bind. exists (disconnect_sequence r). split; [|by apply list_elem_of_fmap_2].
    apply success_in. rewrite (disconnected_steps (dr_phase d) r Hrp). unfold sources_in.
    apply list_elem_of_fmap_2, list_elem_of_filter. done.
Qed.

(** The times of the stamps before the commit: a writeback that is unconditional holds for ever, and
    the others are from before the commit. *)
Definition timed (bs : buffers) : Prop :=
  InfinitePast < t <= InfiniteFuture /\
  forall n, if conditional (bs n) then time (stamp_ (bs n)) < t else time (stamp_ (bs n)) = InfiniteFuture.

Definition tree_settled (bs : buffers) : Prop :=
  forall k src srcs, byte_string k -> tree_effect k l = Some (false, src :: srcs) -> settled (bs src).

Lemma tree_latest_settled bs n : tree_settled bs -> n ∈ tree_latest l -> settled (bs n).
Proof.
  intros H Hn. apply list_elem_of_bind in Hn as (e & Hn & He). destruct e as [r|d]; [|by apply elem_of_nil in Hn].
  apply list_elem_of_singleton in Hn as ->. destruct Htree as [Ho Hok]. pose proof Hown as Hw. rewrite Forall_forall in Hok, Hw.
  pose proof (min_bytes _ (Hok _ He)) as Hb. specialize (Hw _ He). cbn in Hb, Hw. injection Hw as Hp.
  destruct (sources_latest p r Hp) as (srcs & Es). apply (H (rmw_key r) _ srcs Hb). unfold tree_effect.
  rewrite (at_key_unique _ l (Rmw r) Hb (ordered_no_overlap l Ho) He) by (by apply covers_rmw). cbn [mbind option_bind entry_effect]. by rewrite Hp, Es.
Qed.

Lemma retried_spec data bs bs1 : timed bs ->
  (forall e, e ∈ read_modify_writes l -> (entry_holds data bs e -> conditional (bs (latest_source e)) = true ->
       bs1 (latest_source e) = set_time (bs (latest_source e)) t) /\
     (~ entry_holds data bs e \/ conditional (bs (latest_source e)) = false -> bs1 (latest_source e) = bs (latest_source e))) ->
  forall k deleted src srcs, byte_string k -> tree_effect k l = Some (deleted, src :: srcs) ->
  src ∈ RetryAtomicWriteback InfinitePast bs1 t (disconnect <$> l) <-> ~ condition_holds (contents data !! k) (bs src).
Proof.
  intros [Ht Htime] Hbs k deleted src srcs Hk E. destruct (effect_sequence l p k deleted _ Htree Hown Hk E) as [?|(r & Hr & <- & Es)]; [done|].
  destruct (sequence_effect l p r Htree Hown Hr) as (_ & Hp & _). destruct (sources_latest p r Hp) as (srcs' & El).
  rewrite El in Es. injection Es as -> _. change (condition_holds (contents data !! rmw_key r) (bs (latest_source r))) with (entry_holds data bs r).
  specialize (Htime (latest_source r)). destruct (Hbs r Hr) as [H1 H2]. unfold RetryAtomicWriteback. rewrite disconnected_sequences.
  assert (Hin : latest_source r ∈ (source ∘ latest) <$> filter (fun e => IsOutOfDate InfinitePast (bs1 (latest_source e)) t = true) (disconnect_sequence <$> read_modify_writes l)
    <-> IsOutOfDate InfinitePast (bs1 (latest_source r)) t = true).
  { split.
    - intros Hx. apply list_elem_of_fmap in Hx as (x & Ex & Hx). apply list_elem_of_filter in Hx as [Hx Hxl]. cbn in Ex. by rewrite Ex.
    - intros Ho. apply list_elem_of_fmap. exists (disconnect_sequence r). split; [done|]. apply list_elem_of_filter. split; [done|].
      by apply list_elem_of_fmap_2. }
  rewrite Hin. unfold IsOutOfDate. rewrite orb_true_iff, Z.eqb_eq, Z.ltb_lt. destruct (conditional (bs (latest_source r))) eqn:Ec.
  - split.
    + intros Ho Hh. rewrite (H1 Hh eq_refl) in Ho. cbn in Ho. lia.
    + intros Hh. rewrite H2 by tauto. lia.
  - rewrite H2 by tauto. split; [lia|]. intros Hh. destruct Hh. unfold entry_holds, condition_holds. left.
    apply IsUnknown_spec. by apply negb_false_iff in Ec.
Qed.

Lemma commit_tree data bs : WellFormed data -> 0 <= next_generation_number data ->
  next_generation_number data + Z.of_nat (length l) <= 2 ^ 64 - 1 -> tree_settled bs ->
  exists data' bs' o, AllEntriesDone InfinitePast InfiniteFuture data (disconnect <$> l) bs false t = Some (data', bs', o) /\
  WellFormed data' /\
  (tree_holds data bs -> exists notices, o = Committed notices /\ notices.*1 = all_sources p l /\
     forall k, byte_string k -> key_committed data data' bs notices k (tree_effect k l)) /\
  (~ tree_holds data bs -> data' = data /\ exists again, o = Retried again /\
     again = RetryAtomicWriteback InfinitePast bs' t (disconnect <$> l) /\
     (timed bs -> forall k deleted src srcs, byte_string k -> tree_effect k l = Some (deleted, src :: srcs) ->
        src ∈ again <-> ~ condition_holds (contents data !! k) (bs src))).
Proof.
  intros Hw H0 Hroom Hset. unfold AllEntriesDone. cbn [negb]. rewrite validate_flat, disconnected_sequences, validate_disconnected.
  destruct (validate_spec data t (read_modify_writes l) bs latest_NoDup) as (v & bs1 & -> & Hv & Hsame & _ & Htime).
  rewrite tree_holds_spec in Hv. destruct v; cbn [negb].
  - rewrite ApplyMutation_disconnected.
    destruct (ApplyMutation_spec t l data bs1 Htree Hw H0 Hroom) as (data' & bs' & -> & Hw' & _ & Happ & _).
    + intros n Hn Hdirty. destruct (Hsame n) as (Eg & Es & _). rewrite <- Es. apply (tree_latest_settled bs n Hset Hn). by rewrite Eg.
    + apply tree_latest_NoDup.
    + cbn [mbind option_bind]. eexists data', bs', _. split; [done|]. split; [done|]. split; [|tauto].
      intros _. eexists. split; [done|]. split; [apply success_sources|]. intros k Hk. by eapply committed_spec; [..|apply Happ].
  - eexists data, bs1, _. split; [done|]. split; [done|]. split; [intros Hh%Hv; discriminate|].
    intros _. split; [done|]. eexists. split; [done|]. split; [done|]. intros Ht. by apply retried_spec.
Qed.

End commit_tree.

(** * Transactions *)

(** The conditions of a phase: for every key, that of the last writeback of the phase, also if
    the key is deleted after that. *)
Definition phase_holds (ops : list (nat * Operation)) (p : nat) (data : StoredKeyValuePairs) (bs : buffers) : Prop :=
  forall k deleted src srcs, byte_string k -> phase_effect ops p k = Some (deleted, src :: srcs) ->
  condition_holds (contents data !! k) (bs src).

Definition phase_settled (ops : list (nat * Operation)) (p : nat) (bs : buffers) : Prop :=
  forall k src srcs, byte_string k -> phase_effect ops p k = Some (false, src :: srcs) -> settled (bs src).

Definition source_of_phase (ops : list (nat * Operation)) (p : nat) (x : nat) : Prop :=
  exists k, byte_string k /\ x ∈ effect_sources (phase_effect ops p k).

Lemma all_sources_phase ops s x : tree_ok (entries s) -> Forall (fun e => owner e = Some (phase_number s)) (entries s) ->
  (forall k, byte_string k -> tree_effect k (entries s) = phase_effect ops (phase_number s) k) ->
  x ∈ all_sources (phase_number s) (entries s) <-> source_of_phase ops (phase_number s) x.
Proof.
  intros Ht Ho He. unfold all_sources, source_of_phase. rewrite list_elem_of_bind. split.
  - intros (r & Hx & Hr). destruct (sequence_effect _ _ r Ht Ho Hr) as (Hb & _ & d & E). exists (rmw_key r). split; [done|].
    by rewrite <- He, E.
  - intros (k & Hk & Hx). rewrite <- He in Hx by done. destruct (tree_effect k (entries s)) as [[d srcs]|] eqn:E; [|by apply elem_of_nil in Hx].
    destruct (effect_sequence _ _ k d srcs Ht Ho Hk E) as [->|(r & Hr & _ & ->)]; [by apply elem_of_nil in Hx|]. by exists r.
Qed.

Lemma key_committed_ext InfiniteFuture t data data' (bs bs' : buffers) notices k e : (forall n, bs n = bs' n) ->
  key_committed InfiniteFuture t data data' bs notices k e -> key_committed InfiniteFuture t data data' bs' notices k e.
Proof. intros H. destruct e as [[[] [|src srcs]]|]; cbn [key_committed]; rewrite <- ?H; done. Qed.

Lemma phase_holds_ext ops p data (bs bs' : buffers) : (forall n, bs n = bs' n) -> phase_holds ops p data bs <-> phase_holds ops p data bs'.
Proof. intros E. split; intros H k d src srcs Hk He; specialize (H k d src srcs Hk He); congruence. Qed.

(** C1: a phase of a transaction on the memory store is written back and committed atomically and does what the
    operations of the phase mean.  In a round the sources of the entries that [predicate] selects are asked, which is all of
    them at first; the events of the round, the answers and the starts of the counters, happen in any order.
    Nothing is changed and [AllEntriesDone] is not called before the last of them.

    If an answer is an error, the store is not changed and every source of the phase is told of the error exactly once: those of
    an entry with an error when it is received, those of a superseded entry at the latest when its deletion is done,
    and the others at the end.

    Otherwise, if for every key the condition of its last writeback holds, also of a
    writeback that a deletion supersedes, then all operations are applied: a key that the phase does
    not touch keeps its value and generation, a deleted key is gone, and a key that is written
    has the value that the last source wanted, with a generation that is new; every source of the
    phase is told of the success once, with the generation that its key has then.

    If a condition does not hold, nothing is changed, no source is told anything and the next round starts with the same entries
    and counters; if the conditional answers are older than the commit and the unconditional ones hold for ever ([timed]), it
    asks exactly the sources of the keys whose condition does not hold.

    The premises on the sizes are those of [size_t] and of the generation numbers; the flags that a source sets do not
    include [kError], and a source that writes says what it writes ([phase_settled]). *)
Theorem transaction_correct InfinitePast InfiniteFuture t ops s data bs predicate answer events :
  StronglySorted le ops.*1 -> Forall (fun op => operation_bytes op.2) ops -> Forall (fun op => operation_unflagged op.2) ops ->
  NoDup (op_sources ops).*2 -> s ∈ SeparatePhases (stage ops) ->
  WellFormed data -> 0 <= next_generation_number data ->
  next_generation_number data + Z.of_nat (length (entries s)) <= 2 ^ 64 - 1 ->
  Z.of_nat (length (entries s)) < 2 ^ 63 -> Forall (fun e => Z.of_nat (length (sequences e)) < 2 ^ 63) (entries s) ->
  let p := phase_number s in
  let es := disconnect <$> entries s in
  let start := start_of_round data es bs in
  let bs' := buffers_after predicate answer es bs in
  events ≡ₚ WritebackPhase predicate answer es -> phase_settled ops p bs' ->
  (forall before after, events = before ++ after -> after <> [] ->
     exists st, run InfinitePast InfiniteFuture t before start = Some st /\ stored st = data /\ outcomes st = []) /\
  exists st, run InfinitePast InfiniteFuture t events start = Some st /\ WellFormed (stored st) /\
  (writeback_failed predicate answer es ->
     stored st = data /\ exists notices sources, outcomes st = [Failed notices] /\
     told st ++ notices ≡ₚ (fun x => (x, KvsWritebackError)) <$> sources /\
     NoDup sources /\ forall x, x ∈ sources <-> source_of_phase ops p x) /\
  (~ writeback_failed predicate answer es ->
     (phase_holds ops p data bs' -> exists notices, outcomes st = [Committed notices] /\ told st = [] /\
        (NoDup notices.*1 /\ forall x, x ∈ notices.*1 <-> source_of_phase ops p x) /\
        forall k, byte_string k -> key_committed InfiniteFuture t data (stored st) bs' notices k (phase_effect ops p k)) /\
     (~ phase_holds ops p data bs' -> exists again bs2,
        st = MkCommitState data ((fun e => (e, 0)) <$> es) 0 bs2 [] [Retried again] /\
        again = asked_sources (fun e => IsOutOfDate InfinitePast (bs2 (source (latest e))) t) es /\
        (timed InfinitePast InfiniteFuture t bs' ->
         forall k deleted src srcs, byte_string k -> phase_effect ops p k = Some (deleted, src :: srcs) ->
           src ∈ again <-> ~ condition_holds (contents data !! k) (bs' src)))).
Proof.
  intros Hs Hb Hfl Hd Hin Hw H0 Hroom Hlen Hlens p es start bs' Hev Hset. destruct (stage_spec ops Hs Hb) as (Hi & _ & He & _).
  destruct (SeparatePhases_spec _ Hi) as (_ & Hall & _). rewrite Forall_forall in Hall. destruct (Hall s Hin) as (Ht & Ho & Hk).
  assert (Heff : forall k, byte_string k -> tree_effect k (entries s) = phase_effect ops p k) by (intros k Hkey; by rewrite Hk, He).
  assert (Hsrc : forall k, byte_string k -> NoDup (effect_sources (tree_effect k (entries s))) /\
    forall x, x ∈ effect_sources (tree_effect k (entries s)) -> (k, x) ∈ op_sources ops)
    by (intros k Hkey; rewrite Heff by done; by apply phase_effect_sources).
  pose proof (all_sources_NoDup p (entries s) _ Ht Ho Hd Hsrc) as HN. pose proof (all_sources_phase ops s) as Hx.
  destruct (round predicate answer es InfinitePast InfiniteFuture t data bs ltac:(unfold es; by rewrite length_fmap)
    (disconnected_sizes _ Hlens) events Hev (disconnected_unflagged _ (SeparatePhases_unflagged ops s Hfl Hin))) as [Hpre (es' & c & bs1 & ns & Hbs1 & E & Herr & Hns & Hok)].
  split; [exact Hpre|]. unfold start. cbn zeta in E. rewrite E. unfold finish. cbn [stored phase_entries entry_buffers remaining_entries_ told outcomes].
  destruct (HasError c) eqn:Ec.
  - eexists. split; [done|]. split; [done|]. split; [|intros Hno; by destruct Hno; apply Herr]. intros _. split; [done|].
    eexists _, (all_sources p (entries s)). split; [done|]. split; [|split; [done|intros x; by apply Hx]]. cbn [told].
    rewrite Hns. unfold es. by rewrite (error_sources p (entries s) Ht Ho).
  - assert (Hno : ~ writeback_failed predicate answer es) by (rewrite <- Herr; discriminate). specialize (Hok Hno). unfold start_of_round in Hok. injection Hok as -> -> ->.
    assert (Hes : ((fun e => (e, 0)) <$> es).*1 = es) by (rewrite <- list_fmap_compose; apply list_fmap_id). rewrite Hes.
    assert (Hh : tree_holds (entries s) data bs1 <-> phase_holds ops p data bs').
    { rewrite <- (phase_holds_ext _ _ _ bs1 bs') by exact Hbs1. split; intros H k d src srcs Hkey E'; (eapply H; [done|]); [by rewrite Heff|by rewrite <- Heff]. }
    assert (Hset' : tree_settled (entries s) bs1) by (intros k src srcs Hkey E'; rewrite Hbs1; apply (Hset k src srcs Hkey); by rewrite <- Heff).
    destruct (commit_tree InfinitePast InfiniteFuture t p (entries s) _ Ht Ho Hd Hsrc data bs1 Hw H0 Hroom Hset')
      as (data' & bs2 & o & E' & Hw' & Hyes & Hnot). fold es in E'. rewrite E'. eexists. split; [done|]. split; [done|].
    split; [intros Hf; by destruct Hno|]. intros _. rewrite <- Hh. split.
    + intros Hv. destruct (Hyes Hv) as (notices & -> & Esrc & Hkeys). exists notices. split; [done|]. split; [done|]. rewrite Esrc.
      split; [split; [done|intros x; by apply Hx]|]. intros k Hkey. rewrite <- Heff by done. eapply key_committed_ext; [exact Hbs1|by apply Hkeys].
    + intros Hv. destruct (Hnot Hv) as (-> & again & -> & Ea & Hagain). exists again, bs2. split; [done|]. split; [by rewrite Ea|].
      intros Htm k d src srcs Hkey E''. rewrite <- Heff in E'' by done. rewrite <- Hbs1. eapply Hagain; [|done|done].
      destruct Htm as [Ht1 Ht2]. split; [done|]. intros n. rewrite Hbs1. apply Ht2.
Qed.

(** A phase that writes the key b and deletes it, and writes the key d, on a store without these keys.  The write of b
    is superseded. *)
Definition commit_operations : list (nat * Operation) :=
  [(0%nat, OpReadModifyWrite [98] 0 0); (0%nat, OpDeleteRange (MkKeyRange [98] [100])); (0%nat, OpReadModifyWrite [100] 1 0)].
Definition commit_phase : SinglePhaseMutation := List.nth 0 (SeparatePhases (stage commit_operations)) (MkPhase 0 []).

(** The source 1 writes the value 7 if the key is missing, and the source 0 answers with [r]. *)
Definition commit_answer (r : option ReadResult) (src : nat) : option ReadResult :=
  match src with 0%nat => r | _ => Some (MkReadResult kValue [7] (MkStamp (MarkDirty NoValue 5) 3)) end.
Definition commit_buffers : buffers := fun _ => MkBuffer (MkStamp Unknown 0) [] kUnspecified [].

(** The source 1 answers before the counters are started, and the source 0 after the counter of the phase is. *)
Definition commit_events (r : option ReadResult) : list Event :=
  [Answered 1 0 (commit_answer r 1); PhaseStarted 2; Answered 0 0 r; DeleteStarted 0 1].

Definition commit_run (r : option ReadResult) : option CommitState :=
  run 0 1000 10 (commit_events r) (start_of_round example_store (disconnect <$> entries commit_phase) commit_buffers).

Lemma commit_effect k : phase_effect commit_operations 0 k =
  if bytes_eqb [100] k then Some (false, [1%nat]) else
  if Contains (MkKeyRange [98] [100]) k then Some (true, if bytes_eqb [98] k then [0%nat] else []) else None.
Proof.
  unfold phase_effect, commit_operations. cbn [foldl fst snd Nat.eqb operation_effect effect_sources].
  destruct (bytes_eqb [100] k) eqn:E.
  - apply bytes_eqb_spec in E as <-. done.
  - destruct (Contains _ k) eqn:E'; destruct (bytes_eqb [98] k) eqn:E''; try done. apply bytes_eqb_spec in E'' as <-. done.
Qed.

(** The phase is committed if the source 0 is unconditional, and written back again if its condition on the generation 1 does not hold;
    an error of the source 0 is told to it at once and to the source 1 at the end. *)
Lemma transaction_correct_witness :
  (exists st, commit_run (Some (MkReadResult kMissing [] (MkStamp Unknown 1000))) = Some st /\
     contents (stored st) !! [100] = Some (MkVersioned [7] 3) /\
     outcomes st = [Committed [(0%nat, KvsWritebackSuccess (MkStamp Unknown 1000) Unknown);
       (1%nat, KvsWritebackSuccess (MkStamp (FromUint64 3) 10) (MarkDirty NoValue 5))]]) /\
  (exists st, commit_run (Some (MkReadResult kMissing [] (MkStamp (FromUint64 1) 3))) = Some st /\
     stored st = example_store /\ outcomes st = [Retried [0%nat]]) /\
  (exists st (sources : list nat), commit_run None = Some st /\ stored st = example_store /\ told st = [(0%nat, KvsWritebackError)] /\
     outcomes st = [Failed [(1%nat, KvsWritebackError)]] /\ NoDup sources /\ length sources = 2%nat).
Proof.
  pose proof (fun r Hperm Hset => transaction_correct 0 1000 10 commit_operations commit_phase example_store commit_buffers
    (fun _ => true) (commit_answer r) (commit_events r)
    ltac:(repeat constructor) ltac:(repeat (constructor || split || lia)) ltac:(repeat constructor)
    ltac:(apply (bool_decide_unpack _); vm_compute; exact I) ltac:(vm_compute; left)
    example_store_WellFormed ltac:(cbn; lia) ltac:(vm_compute; discriminate) ltac:(vm_compute; reflexivity) ltac:(repeat constructor) Hperm Hset) as T.
  assert (Hperm : forall r, commit_events r ≡ₚ WritebackPhase (fun _ => true) (commit_answer r) (disconnect <$> entries commit_phase)).
  { intros r. exact (Permutation_app_comm [Answered 1 0 (commit_answer r 1); PhaseStarted 2] [Answered 0 0 r; DeleteStarted 0 1]). }
  assert (Hset : forall r, phase_settled commit_operations 0 (buffers_after (fun _ => true) (commit_answer r) (disconnect <$> entries commit_phase) commit_buffers)).
  { intros r k src srcs _ E. rewrite commit_effect in E. destruct (bytes_eqb [100] k); [|by destruct (Contains _ k)].
    injection E as <- <-. done. }
  split; [|split].
  - destruct (T (Some (MkReadResult kMissing [] (MkStamp Unknown 1000))) (Hperm _) (Hset _)) as (_ & st & E & _ & _ & Hok). exists st. split; [exact E|].
    destruct Hok as [Hyes _].
    { intros (r & Hr & _ & Ha). vm_compute in Hr. repeat (apply elem_of_cons in Hr as [->|Hr]; [discriminate|]). by apply elem_of_nil in Hr. }
    destruct Hyes as (notices & En & _).
    { intros k d src srcs _ Ek. rewrite commit_effect in Ek. destruct (bytes_eqb [100] k) eqn:E1.
      - apply bytes_eqb_spec in E1 as <-. injection Ek as _ <- _. right. reflexivity.
      - destruct (Contains _ k); [|done]. destruct (bytes_eqb [98] k); [|done]. injection Ek as _ <- _. left. reflexivity. }
    vm_compute in E. injection E as <-. split; reflexivity.
  - destruct (T (Some (MkReadResult kMissing [] (MkStamp (FromUint64 1) 3))) (Hperm _) (Hset _)) as (_ & st & E & _ & _ & Hok). exists st. split; [exact E|].
    destruct Hok as [_ Hno].
    { intros (r & Hr & _ & Ha). vm_compute in Hr. repeat (apply elem_of_cons in Hr as [->|Hr]; [discriminate|]). by apply elem_of_nil in Hr. }
    destruct Hno as (again & bs2 & Est & _).
    { intros H. assert (Hb : byte_string [98]) by (repeat (constructor || lia)). specialize (H [98] true 0%nat [] Hb eq_refl). destruct H as [H|H]; vm_compute in H; discriminate. }
    vm_compute in E. injection E as <-. split; reflexivity.
  - destruct (T None (Hperm _) (Hset _)) as (_ & st & E & _ & Herr & _). destruct Herr as (Ed & notices & sources & Eo & Et & Hn & _).
    { exists (MkRmw [98] (MkStep 0 0 160) []). split; [vm_compute; left|done]. }
    exists st, sources. split; [exact E|]. split; [exact Ed|]. vm_compute in E. injection E as <-. split; [reflexivity|]. split; [reflexivity|].
    split; [exact Hn|]. injection Eo as <-. apply Permutation_length in Et. rewrite length_fmap in Et. symmetry. exact Et.
Defined.
