(* ===== verification/LinkedList.v ===== *)
(** Intrusive circular doubly-linked lists:
    [internal/container/intrusive_linked_list.h].

    A list is a ring of nodes of a shared store, threaded through an auxiliary head node.
    The operations are stated against the List Accessor concept, here a type class, and
    proved to be the list operations they stand for. *)

From S2P Require Import Prelude.

(** * Definitions *)

(** A node is its address; the null pointer is [0]. *)
Abbreviation node := Z (only parsing).
Definition nullptr : node := 0.

(** The List Accessor concept, over a store [S] of nodes. *)
Class ListAccessor (S : Type) := {
  GetPrev : S -> node -> node;
  GetNext : S -> node -> node;
  SetPrev : S -> node -> node -> S;
  SetNext : S -> node -> node -> S;
}.

(** What the concept promises: the two pointers of every node are independent variables. *)
Class ListAccessorLaws (S : Type) `{ListAccessor S} := {
  GetPrev_SetPrev s n p m : GetPrev (SetPrev s n p) m = if m =? n then p else GetPrev s m;
  GetNext_SetPrev s n p m : GetNext (SetPrev s n p) m = GetNext s m;
  GetNext_SetNext s n p m : GetNext (SetNext s n p) m = if m =? n then p else GetNext s m;
  GetPrev_SetNext s n p m : GetPrev (SetNext s n p) m = GetPrev s m;
}.

(** A pointer that the code reads or writes through. *)
Definition deref (p : node) : Result node := if p =? nullptr then Err NullDereference else Ok p.

Section Operations.
Context {S : Type} `{ListAccessor S}.

Definition Initialize (s : S) (n : node) : S := SetNext (SetPrev s n n) n n.

Definition InsertBefore (s : S) (existing_node new_node : node) : Result S :=
  let s := SetPrev s new_node (GetPrev s existing_node) in
  let s := SetNext s new_node existing_node in
  p ← deref (GetPrev s existing_node);
  let s := SetNext s p new_node in
  Ok (SetPrev s existing_node new_node).

Definition Remove (s : S) (n : node) : Result S :=
  next ← deref (GetNext s n);
  let s := SetPrev s next (GetPrev s n) in
  prev ← deref (GetPrev s n);
  Ok (SetNext s prev (GetNext s n)).

Definition OnlyContainsNode (s : S) (n : node) : bool := GetNext s n =? n.

(** * The list that a ring represents *)

Fixpoint chain (s : S) (l : list node) : Prop :=
  match l with
  | a :: ((b :: _) as l') => GetNext s a = b /\ GetPrev s b = a /\ chain s l'
  | _ => True
  end.

(** The ring of [head] consists of [head] and the nodes [l], in this order. *)
Definition ring (s : S) (head : node) (l : list node) : Prop :=
  (nullptr ∉ head :: l) /\ NoDup (head :: l) /\ chain s (head :: l ++ [head]).

(** The pointers of a node. *)
Definition pointers (s : S) (n : node) : node * node := (GetPrev s n, GetNext s n).
End Operations.

(** * Lemmas *)

Lemma deref_ok p : p <> nullptr -> deref p = Ok p.
Proof. intros Hp. unfold deref. rewrite (proj2 (Z.eqb_neq p nullptr) Hp). reflexivity. Qed.

Section Laws.
Context {S : Type} `{ListAccessorLaws S}.

Lemma chain_app (s : S) l1 x l2 :
  chain s (l1 ++ x :: l2) <-> chain s (l1 ++ [x]) /\ chain s (x :: l2).
Proof.
  induction l1 as [|a [|b l1] IH]; cbn [app].
  - split; [intros Hc; split; [exact I|exact Hc]|tauto].
  - cbn. tauto.
  - cbn [app] in IH. cbn [chain]. cbn [chain] in IH. tauto.
Qed.

(** A chain depends on the next pointers of all nodes but the last, and on the previous
    pointers of all nodes but the first. *)
Lemma chain_frame (s s' : S) a l :
  (forall n, n ∈ removelast (a :: l) -> GetNext s' n = GetNext s n) ->
  (forall n, n ∈ l -> GetPrev s' n = GetPrev s n) ->
  chain s (a :: l) -> chain s' (a :: l).
Proof.
  revert a; induction l as [|b l IH]; intros a Hn Hp; [exact id|].
  change (removelast (a :: b :: l)) with (a :: removelast (b :: l)) in Hn.
  intros (H1 & H2 & H3). split; [|split].
  - rewrite Hn by constructor. exact H1.
  - rewrite Hp by constructor. exact H2.
  - apply IH; [| |exact H3]; intros n Hin.
    + apply Hn. constructor. exact Hin.
    + apply Hp. constructor. exact Hin.
Qed.

(** A ring depends only on the pointers of its own nodes. *)
Lemma ring_frame (s s' : S) head l :
  (forall n, n ∈ head :: l -> pointers s' n = pointers s n) -> ring s head l -> ring s' head l.
Proof.
  intros Hs (Hz & Hd & Hc). split; [exact Hz|]. split; [exact Hd|].
  assert (Hp : forall n, n ∈ head :: l -> GetPrev s' n = GetPrev s n /\ GetNext s' n = GetNext s n)
    by (intros n Hn; specialize (Hs n Hn); unfold pointers in Hs; split; congruence).
  eapply chain_frame; [| |exact Hc]; intros n Hin; apply Hp.
  - rewrite app_comm_cons, removelast_last in Hin. exact Hin.
  - apply elem_of_app in Hin as [Hin|Hin%list_elem_of_singleton]; subst; constructor; assumption.
Qed.

(** The operations change nothing but pointers. *)
Lemma InsertBefore_preserves {T} (f : S -> T) (s s' : S) existing new :
  (forall s n p, f (SetPrev s n p) = f s) -> (forall s n p, f (SetNext s n p) = f s) ->
  InsertBefore s existing new = Ok s' -> f s' = f s.
Proof.
  intros Hp Hn. unfold InsertBefore. intros (p & _ & [= <-])%bind_Ok.
  rewrite Hp, !Hn, Hp. reflexivity.
Qed.

Lemma Remove_preserves {T} (f : S -> T) (s s' : S) n :
  (forall s n p, f (SetPrev s n p) = f s) -> (forall s n p, f (SetNext s n p) = f s) ->
  Remove s n = Ok s' -> f s' = f s.
Proof.
  intros Hp Hn. unfold Remove. intros (p & _ & (p' & _ & [= <-])%bind_Ok)%bind_Ok.
  rewrite Hn, Hp. reflexivity.
Qed.

Lemma removelast_snoc (l : list node) x : removelast (l ++ [x]) = l.
Proof. apply removelast_last. Qed.

Lemma ring_pointers (s : S) head l1 x l2 :
  ring s head (l1 ++ x :: l2) ->
  GetPrev s x = List.last (head :: l1) head /\ GetNext s x = hd head l2.
Proof.
  intros (_ & _ & Hc). rewrite <- app_assoc in Hc. cbn [app] in Hc.
  split.
  - rewrite app_comm_cons in Hc. apply chain_app in Hc as [Hc _].
    destruct (exists_last (l := head :: l1)) as (l' & p & E); [discriminate|].
    rewrite E in *. rewrite last_last. rewrite <- app_assoc in Hc. cbn in Hc.
    apply chain_app in Hc as [_ (_ & Hp & _)]. exact Hp.
  - rewrite app_comm_cons in Hc. apply chain_app in Hc as [_ Hc].
    destruct l2 as [|y l2]; cbn in *; tauto.
Qed.

Lemma ring_head (s : S) head l : ring s head l -> GetNext s head = hd head l.
Proof. intros (_ & _ & Hc). destruct l; cbn in *; tauto. Qed.

Lemma ring_head_prev (s : S) head l : ring s head l -> GetPrev s head = List.last l head.
Proof.
  intros (_ & _ & Hc).
  destruct l as [|y l]; [cbn in *; tauto|].
  destruct (exists_last (l := y :: l)) as (l' & p & E); [discriminate|].
  rewrite E in *. rewrite last_last. rewrite <- app_assoc in Hc. cbn [app] in Hc.
  rewrite app_comm_cons in Hc. apply chain_app in Hc as [_ Hc]. cbn in Hc. tauto.
Qed.

Lemma Initialize_ring (s : S) n : n <> nullptr -> ring (Initialize s n) n [].
Proof.
  intros Hn. unfold ring, Initialize. split; [rewrite list_elem_of_singleton; congruence|].
  split; [apply NoDup_singleton|]. cbn.
  rewrite GetNext_SetNext, GetPrev_SetNext, GetPrev_SetPrev, Z.eqb_refl. auto.
Qed.

Lemma OnlyContainsNode_spec (s : S) head l :
  ring s head l -> OnlyContainsNode s head = match l with [] => true | _ => false end.
Proof.
  intros Hr. unfold OnlyContainsNode. rewrite (ring_head _ _ _ Hr).
  destruct Hr as (_ & Hd & _). destruct l as [|x l]; cbn; [apply Z.eqb_refl|].
  apply Z.eqb_neq. intros ->. apply NoDup_cons in Hd as [Hd _]. apply Hd. constructor.
Qed.

(** [InsertBefore] the head appends. *)
Lemma InsertBefore_ring (s : S) head l x :
  ring s head l -> x ∉ head :: l -> x <> nullptr ->
  exists s', InsertBefore s head x = Ok s' /\ ring s' head (l ++ [x]) /\
    forall n, n ∉ head :: x :: l -> pointers s' n = pointers s n.
Proof.
  intros Hr Hx Hn. pose proof (ring_head_prev _ _ _ Hr) as Ep.
  destruct Hr as (Hz & Hd & Hc).
  set (p := List.last l head) in *.
  assert (Hp : p ∈ head :: l).
  { unfold p. destruct l as [|y l] using rev_ind; [constructor|].
    rewrite last_last. constructor. apply elem_of_app. right. constructor. }
  assert (Hxh : x <> head) by (intros ->; apply Hx; constructor).
  assert (Hxp : x <> p) by (intros ->; auto).
  eexists. split; [|split].
  - unfold InsertBefore. rewrite GetPrev_SetNext, GetPrev_SetPrev.
    rewrite (proj2 (Z.eqb_neq head x)) by congruence. rewrite Ep.
    rewrite deref_ok; [reflexivity|]. intros E. apply Hz. rewrite <- E. exact Hp.
  - split; [|split].
    + rewrite app_comm_cons, elem_of_app, list_elem_of_singleton. intros [?|?]; [auto|congruence].
    + rewrite app_comm_cons. apply NoDup_app. split; [exact Hd|]. split; [|apply NoDup_singleton].
      intros y Hy ->%list_elem_of_singleton. auto.
    + rewrite <- app_assoc. cbn [app].
      assert (El : exists l', head :: l = l' ++ [p]).
      { unfold p. destruct l as [|y l _] using rev_ind; [exists []; reflexivity|].
        exists (head :: l). rewrite last_last. reflexivity. }
      destruct El as [l' El].
      assert (Hpl : (p ∉ l') /\ (head ∉ l)).
      { split; [|apply NoDup_cons in Hd; tauto]. rewrite El in Hd. apply NoDup_app in Hd.
        intros Hin. destruct Hd as (_ & Hd & _). apply (Hd p Hin). constructor. }
      rewrite app_comm_cons, El, <- app_assoc. cbn [app]. rewrite chain_app. split.
      * rewrite <- El. eapply chain_frame; [| |rewrite app_comm_cons in Hc; rewrite El in Hc;
          rewrite <- app_assoc in Hc; cbn [app] in Hc; apply chain_app in Hc as [Hc _];
          rewrite <- El in Hc; exact Hc].
        -- rewrite El, removelast_snoc. intros n Hin.
           assert (n <> p) by (intros ->; tauto).
           assert (n <> x) by (intros ->; apply Hx; rewrite El; apply elem_of_app; auto).
           rewrite GetNext_SetPrev, GetNext_SetNext, GetNext_SetNext, GetNext_SetPrev.
           decide_comparisons. reflexivity.
        -- intros n Hin. assert (n <> head) by (intros ->; tauto).
           assert (n <> x) by (intros ->; apply Hx; constructor; exact Hin).
           rewrite GetPrev_SetPrev, GetPrev_SetNext, GetPrev_SetNext, GetPrev_SetPrev.
           decide_comparisons. reflexivity.
      * cbn. rewrite !GetNext_SetPrev, !GetNext_SetNext, !GetPrev_SetPrev, !GetPrev_SetNext,
          !GetPrev_SetPrev, !Z.eqb_refl.
        decide_comparisons. auto.
  - intros n Hin. rewrite !not_elem_of_cons in Hin. destruct Hin as (Hnh & Hnx & Hnl).
    assert (n <> p).
    { intros ->. apply elem_of_cons in Hp as [?|?]; auto. }
    unfold pointers. rewrite !GetNext_SetPrev, !GetNext_SetNext, !GetPrev_SetPrev, !GetPrev_SetNext,
      !GetPrev_SetPrev, GetNext_SetPrev.
    decide_comparisons. reflexivity.
Qed.

(** [Remove] takes the node out, and leaves its pointers as they are. *)
Lemma Remove_ring (s : S) head l1 x l2 :
  ring s head (l1 ++ x :: l2) ->
  exists s', Remove s x = Ok s' /\ ring s' head (l1 ++ l2) /\
    forall n, n ∉ head :: l1 ++ l2 -> pointers s' n = pointers s n.
Proof.
  intros Hr. pose proof (ring_pointers _ _ _ _ _ Hr) as [Ep En].
  destruct Hr as (Hz & Hd & Hc).
  destruct (exists_last (l := head :: l1)) as (A & p & EA); [discriminate|].
  assert (EB : exists B, l2 ++ [head] = hd head l2 :: B).
  { destruct l2 as [|n B]; [exists []|exists (B ++ [head])]; reflexivity. }
  rewrite EA, last_last in Ep. set (q := hd head l2) in *. destruct EB as [B EB].
  assert (Hq : q ∈ head :: l2) by (unfold q; destruct l2; cbn; [constructor|constructor; constructor]).
  assert (Hp : p ∈ head :: l1) by (rewrite EA; apply elem_of_app; right; constructor).
  rewrite not_elem_of_cons, not_elem_of_app, not_elem_of_cons in Hz.
  rewrite app_comm_cons in Hd. pose proof Hd as Hd'. rewrite EA in Hd'.
  apply NoDup_app in Hd as (Hd1 & Hd12 & Hd2). apply NoDup_cons in Hd2 as [Hx2 Hd2].
  apply NoDup_cons in Hd1 as [Hh1 Hd1].
  assert (Hpx : x ∉ head :: l1) by (intros Hin; apply (Hd12 x Hin); constructor).
  assert (Hxh : x <> head) by (intros ->; apply Hpx; constructor).
  assert (Hxp : x <> p) by (intros ->; auto).
  assert (Hh2 : head ∉ l2) by (intros Hin; apply (Hd12 head); constructor; exact Hin).
  assert (Hxq : x <> q) by (intros ->; apply elem_of_cons in Hq as [?|?]; auto).
  assert (HpA : p ∉ A).
  { rewrite <- app_assoc in Hd'. apply NoDup_app in Hd' as (_ & Hd' & _).
    intros Hin. apply (Hd' p Hin). constructor. }
  eexists. split; [|split].
  - unfold Remove. rewrite En. rewrite deref_ok.
    2: { intros E. rewrite E in Hq. apply elem_of_cons in Hq. unfold nullptr in *. intuition congruence. }
    unfold mbind, Result_bind. rewrite GetPrev_SetPrev, (proj2 (Z.eqb_neq x q)) by exact Hxq.
    rewrite Ep. rewrite deref_ok.
    2: { intros E. rewrite E in Hp. apply elem_of_cons in Hp. unfold nullptr in *. intuition congruence. }
    rewrite GetNext_SetPrev, En. reflexivity.
  - split; [rewrite not_elem_of_cons, not_elem_of_app; tauto|]. split.
    + rewrite app_comm_cons. apply NoDup_app. split; [apply NoDup_cons; auto|]. split; [|exact Hd2].
      intros y Hy Hy2. apply (Hd12 y Hy). constructor. exact Hy2.
    + rewrite <- app_assoc, EB. rewrite <- app_assoc in Hc. cbn [app] in Hc. rewrite EB in Hc.
      rewrite app_comm_cons in Hc |- *. rewrite EA in Hc |- *. rewrite <- app_assoc in Hc |- *.
      cbn [app] in Hc |- *. apply chain_app in Hc as [HcA Hc]. destruct Hc as (_ & _ & _ & _ & HcB).
      apply chain_app. split.
      * rewrite <- EA in HcA |- *. eapply chain_frame; [| |exact HcA].
        -- rewrite EA, removelast_snoc. intros n Hin. rewrite GetNext_SetNext, GetNext_SetPrev.
           assert (n <> p) by (intros ->; tauto). decide_comparisons. reflexivity.
        -- intros n Hin. rewrite GetPrev_SetNext, GetPrev_SetPrev.
           assert (n <> q).
           { intros ->. apply elem_of_cons in Hq as [->|Hq]; [tauto|].
             apply (Hd12 q); constructor; assumption. }
           decide_comparisons. reflexivity.
      * cbn. rewrite GetNext_SetNext, GetPrev_SetNext, GetPrev_SetPrev, !Z.eqb_refl.
        split; [reflexivity|]. split; [reflexivity|].
        eapply chain_frame; [| |exact HcB].
        -- intros n Hin. rewrite GetNext_SetNext, GetNext_SetPrev.
           assert (n <> p).
           { intros ->. apply elem_of_cons in Hp as [->|Hp].
             - rewrite <- EB, removelast_snoc in Hin. tauto.
             - apply (Hd12 p); [constructor; exact Hp|].
               rewrite <- EB, removelast_snoc in Hin. constructor. exact Hin. }
           decide_comparisons. reflexivity.
        -- intros n Hin. rewrite GetPrev_SetNext, GetPrev_SetPrev.
           assert (n <> q).
           { intros ->. unfold q in *. destruct l2 as [|y l2]; cbn in EB; injection EB as <-;
               [destruct (not_elem_of_nil _ Hin)|]. cbn in *.
             apply elem_of_app in Hin as [Hin|Hin%list_elem_of_singleton]; [|subst].
             - apply NoDup_cons in Hd2. tauto.
             - apply Hh2. constructor. }
           decide_comparisons. reflexivity.
  - intros n Hin. rewrite app_comm_cons, not_elem_of_app in Hin. destruct Hin as [Hn1 Hn2].
    assert (n <> p) by (intros ->; auto).
    assert (n <> q).
    { intros ->. apply elem_of_cons in Hq as [->|Hq]; [apply Hn1; constructor|auto]. }
    unfold pointers. rewrite GetNext_SetNext, GetPrev_SetNext, GetPrev_SetPrev, GetNext_SetPrev.
    decide_comparisons. reflexivity.
Qed.
End Laws.
