(* ===== verification/AdmissionQueue.v ===== *)
(** The admission queue that bounds the number of concurrent operations:
    [internal/rate_limiter/admission_queue.{h,cc}] and [rate_limiter.{h,cc}].

    The operations are cut where the code takes and releases the mutex; a system state
    adds the threads that are inside an operation, and the events are their atomic
    steps, in any interleaving. *)

From stdpp Require Import gmap.
From S2P Require Import Prelude Int64 LinkedList.

(** * The queue *)

Module RateLimiterNode.
Record t := Make { next_ : node; prev_ : node; start_fn_ : Z }.

(** A default-constructed node. *)
Definition idle : t := Make nullptr nullptr nullptr.

#[export] Instance t_inhabited : Inhabited t := populate idle.
#[export] Instance t_eq_dec : EqDecision t.
Proof. solve_decision. Defined.
End RateLimiterNode.
Export (hints) RateLimiterNode.

(** The nodes by address; those that no operation has touched are default-constructed. *)
Abbreviation Store := (gmap node RateLimiterNode.t).

Definition with_prev (n : RateLimiterNode.t) (p : node) : RateLimiterNode.t :=
  RateLimiterNode.Make (RateLimiterNode.next_ n) p (RateLimiterNode.start_fn_ n).
Definition with_next (n : RateLimiterNode.t) (p : node) : RateLimiterNode.t :=
  RateLimiterNode.Make p (RateLimiterNode.prev_ n) (RateLimiterNode.start_fn_ n).
Definition with_start_fn (n : RateLimiterNode.t) (fn : Z) : RateLimiterNode.t :=
  RateLimiterNode.Make (RateLimiterNode.next_ n) (RateLimiterNode.prev_ n) fn.

#[export] Instance RateLimiterNodeAccessor : ListAccessor Store := {
  GetPrev s n := RateLimiterNode.prev_ (s !!! n);
  GetNext s n := RateLimiterNode.next_ (s !!! n);
  SetPrev s n p := <[n := with_prev (s !!! n) p]> s;
  SetNext s n p := <[n := with_next (s !!! n) p]> s;
}.

Record AdmissionQueue := Queue { limit_ : Z; head_ : node; in_flight_ : Z; nodes : Store }.

Definition with_nodes (q : AdmissionQueue) (s : Store) : AdmissionQueue :=
  Queue (limit_ q) (head_ q) (in_flight_ q) s.
Definition with_in_flight (q : AdmissionQueue) (n : Z) : AdmissionQueue :=
  Queue (limit_ q) (head_ q) n (nodes q).

(** The constructor; the head is a member, at the address [head]. *)
Definition New (limit : Z) (head : node) (s : Store) : AdmissionQueue :=
  Queue (if limit =? 0 then u64_modulus - 1 else limit) head 0 (Initialize s head).

(** The function that is called with the node, which is reset before. *)
Definition RunStartFunction (s : Store) (n : node) : Result (Store * Z) :=
  let fn := RateLimiterNode.start_fn_ (s !!! n) in
  fn ← deref fn;
  Ok (<[n := RateLimiterNode.idle]> s, fn).

(** [Admit] up to the release of the mutex; [true] when it goes on to run the start
    function. *)
Definition Admit (q : AdmissionQueue) (n : node) (fn : Z) : Result (AdmissionQueue * bool) :=
  let q := with_nodes q (<[n := with_start_fn (nodes q !!! n) fn]> (nodes q)) in
  if limit_ q <? u64 (in_flight_ q + 1) then
    s ← InsertBefore (nodes q) (head_ q) n;
    Ok (with_nodes q s, false)
  else Ok (with_in_flight q (u64 (in_flight_ q + 1)), true).

(** One iteration of the loop of [Finish], with the mutex held: the node that is taken
    out, whose start function runs with the mutex released before the next iteration, or
    [None] when the loop ends. *)
Definition FinishLoop (q : AdmissionQueue) : Result (AdmissionQueue * option node) :=
  let next_node := GetNext (nodes q) (head_ q) in
  if next_node =? head_ q then Ok (q, None)
  else if limit_ q <? u64 (in_flight_ q + 1) then Ok (q, None)
  else
    let q := with_in_flight q (u64 (in_flight_ q + 1)) in
    s ← Remove (nodes q) next_node;
    Ok (with_nodes q s, Some next_node).

(** [Finish] up to the first release of the mutex. *)
Definition Finish (q : AdmissionQueue) : Result (AdmissionQueue * option node) :=
  FinishLoop (with_in_flight q (u64 (in_flight_ q - 1))).

(** [NoRateLimiter]: the start function runs at once. *)
Module NoRateLimiter.
Definition Admit (s : Store) (n : node) (fn : Z) : Result (Store * Z) :=
  RunStartFunction (<[n := with_start_fn (s !!! n) fn]> s) n.
Definition Finish (s : Store) (n : node) : Store := s.
End NoRateLimiter.

(** * The system: the queue and the threads inside its operations *)

(** Where a thread stands with the mutex released: before the start function of a node, in
    [Admit] or in the loop of [Finish], or at the next iteration of that loop. *)
Inductive task :=
| Starting (n : node) (in_loop : bool)
| Looping.

(** [running]: the nodes whose start function was called and that are not finished.
    [arrived] and [admitted] record the nodes in the order in which they came and in
    which they were counted in flight. *)
Record System := Sys {
  queue : AdmissionQueue;
  tasks : list task;
  running : list node;
  arrived : list node;
  admitted : list node;
}.

(** The atomic steps.  [start i] and [loop i] are steps of the thread [i]. *)
Inductive event :=
| arrive (n : node) (fn : Z)
| start (i : nat)
| loop (i : nat)
| finish (n : node).

(** The task list after a loop iteration. *)
Definition resume (next : option node) : list task :=
  match next with Some n => [Starting n true] | None => [] end.

(** What callers may do: admit an idle node, other than the head of the queue, with a
    start function, and finish a node that is running. *)
Definition may_admit (s : System) (n : node) (fn : Z) : bool :=
  (0 <? n) && (n <? u64_modulus) && negb (n =? head_ (queue s)) && negb (fn =? nullptr) &&
  bool_decide (nodes (queue s) !!! n = RateLimiterNode.idle) && bool_decide (n ∉ running s).

(** The error [kFailedPrecondition] marks the events that are not enabled. *)
Definition run (s : System) (e : event) : Result System :=
  match e with
  | arrive n fn =>
      _ ← require (may_admit s n fn) kFailedPrecondition;
      '(q, now) ← Admit (queue s) n fn;
      Ok (if now : bool
          then Sys q (Starting n false :: tasks s) (running s) (arrived s ++ [n]) (admitted s ++ [n])
          else Sys q (tasks s) (running s) (arrived s ++ [n]) (admitted s))
  | start i =>
      match tasks s !! i with
      | Some (Starting n in_loop) =>
          '(nodes, _) ← RunStartFunction (nodes (queue s)) n;
          Ok (Sys (with_nodes (queue s) nodes)
                ((if in_loop : bool then [Looping] else []) ++ delete i (tasks s))
                (n :: running s) (arrived s) (admitted s))
      | _ => Err kFailedPrecondition
      end
  | loop i =>
      match tasks s !! i with
      | Some Looping =>
          '(q, next) ← FinishLoop (queue s);
          Ok (Sys q (resume next ++ delete i (tasks s)) (running s) (arrived s)
                (admitted s ++ option_list next))
      | _ => Err kFailedPrecondition
      end
  | finish n =>
      _ ← require (bool_decide (n ∈ running s)) kFailedPrecondition;
      '(q, next) ← Finish (queue s);
      Ok (Sys q (resume next ++ tasks s) (filter (fun m => m <> n) (running s)) (arrived s)
            (admitted s ++ option_list next))
  end.

Definition init (limit : Z) (head : node) (s : Store) : System := Sys (New limit head s) [] [] [] [].

(** The nodes that wait in the queue, first come first. *)
Definition pending (s : System) : list node := drop (length (admitted s)) (arrived s).

Definition starting_of (t : task) : list node :=
  match t with Starting n _ => [n] | Looping => [] end.
(** The nodes that are in flight: being started, or running. *)
Definition active (s : System) : list node := (tasks s ≫= starting_of) ++ running s.

Definition is_finish (e : event) : bool := match e with finish _ => true | _ => false end.
Definition is_admit (e : event) : bool := match e with arrive _ _ => true | _ => false end.

(** A system that some sequence of events leads to, from fresh nodes. *)
Definition reachable (limit : Z) (head : node) (s : System) : Prop :=
  exists events, foldM run (init limit head ∅) events = Ok s.

(** * Lemmas on the store *)

#[export] Instance RateLimiterNodeAccessor_laws : ListAccessorLaws Store.
Proof.
  split; intros s n p m; cbn; destruct (m =? n) eqn:E; bool_to_prop; subst;
    rewrite ?lookup_total_insert_eq, ?lookup_total_insert_ne by congruence; reflexivity.
Qed.

Abbreviation start_fn s n := (RateLimiterNode.start_fn_ (s !!! n)).

Lemma start_fn_SetPrev (s : Store) n p m : start_fn (SetPrev s n p) m = start_fn s m.
Proof.
  cbn. destruct (decide (n = m)) as [->|];
    rewrite ?lookup_total_insert_eq, ?lookup_total_insert_ne by assumption; reflexivity.
Qed.

Lemma start_fn_SetNext (s : Store) n p m : start_fn (SetNext s n p) m = start_fn s m.
Proof.
  cbn. destruct (decide (n = m)) as [->|];
    rewrite ?lookup_total_insert_eq, ?lookup_total_insert_ne by assumption; reflexivity.
Qed.

Lemma InsertBefore_start_fn (s s' : Store) h x n :
  InsertBefore s h x = Ok s' -> start_fn s' n = start_fn s n.
Proof.
  apply (InsertBefore_preserves (fun s => start_fn s n)); intros;
    [apply start_fn_SetPrev|apply start_fn_SetNext].
Qed.

Lemma Remove_start_fn (s s' : Store) x n : Remove s x = Ok s' -> start_fn s' n = start_fn s n.
Proof.
  apply (Remove_preserves (fun s => start_fn s n)); intros;
    [apply start_fn_SetPrev|apply start_fn_SetNext].
Qed.

Lemma node_eq (s s' : Store) n :
  pointers s' n = pointers s n -> start_fn s' n = start_fn s n -> s' !!! n = s !!! n.
Proof.
  unfold pointers. cbn. destruct (s !!! n), (s' !!! n). cbn. congruence.
Qed.

(** A ring depends only on its own nodes. *)
Lemma ring_store (s s' : Store) head l :
  (forall n, n ∈ head :: l -> s' !!! n = s !!! n) -> ring s head l -> ring s' head l.
Proof.
  intros Hs. apply ring_frame. intros n Hn. unfold pointers. cbn. rewrite (Hs n Hn). reflexivity.
Qed.

(** Distinct addresses are fewer than [2^64]. *)
Lemma addresses_bound (l : list node) :
  NoDup l -> (forall n, n ∈ l -> 0 < n < u64_modulus) -> Z.of_nat (length l) <= u64_modulus - 1.
Proof.
  intros Hd Hr.
  assert (Hs : l ⊆+ seqZ 1 (u64_modulus - 1)).
  { apply NoDup_submseteq; [exact Hd|]. intros n Hn. apply elem_of_seqZ. specialize (Hr n Hn). lia. }
  apply submseteq_length in Hs. rewrite length_seqZ in Hs. unfold u64_modulus in *. lia.
Qed.

(** * What the operations do to a queue that represents a list *)

Lemma Admit_spec q l n fn :
  ring (nodes q) (head_ q) l -> n ∉ head_ q :: l -> n <> nullptr ->
  0 <= in_flight_ q -> in_flight_ q + 1 < u64_modulus ->
  exists s now, Admit q n fn =
      Ok (Queue (limit_ q) (head_ q) (if now : bool then in_flight_ q + 1 else in_flight_ q) s, now) /\
    now = (in_flight_ q + 1 <=? limit_ q) /\
    ring s (head_ q) (if now then l else l ++ [n]) /\
    start_fn s n = fn /\
    (forall m, m <> n -> start_fn s m = start_fn (nodes q) m) /\
    (forall m, m ∉ head_ q :: n :: l -> s !!! m = nodes q !!! m).
Proof.
  intros Hr Hn H0 Hf Hf'. unfold Admit.
  set (s0 := <[n := _]> (nodes q)).
  assert (Hs0 : forall m, m <> n -> s0 !!! m = nodes q !!! m)
    by (intros m Hm; apply lookup_total_insert_ne; congruence).
  assert (Hs0' : start_fn s0 n = fn) by (unfold s0; rewrite lookup_total_insert_eq; reflexivity).
  assert (Hr0 : ring s0 (head_ q) l).
  { eapply ring_store; [|exact Hr]. intros m Hm. apply Hs0. intros ->. auto. }
  cbn [limit_ in_flight_ nodes with_nodes head_ with_in_flight].
  unfold u64. rewrite Z.mod_small by lia.
  destruct (limit_ q <? in_flight_ q + 1) eqn:E; bool_to_prop.
  - destruct (InsertBefore_ring s0 _ l n Hr0 Hn H0) as (s & E1 & Hr1 & Hp).
    exists s, false. rewrite E1. split; [reflexivity|]. split; [symmetry; apply Z.leb_gt, E|].
    split; [exact Hr1|].
    split; [rewrite (InsertBefore_start_fn _ _ _ _ _ E1); exact Hs0'|]. split.
    + intros m Hm. rewrite (InsertBefore_start_fn _ _ _ _ _ E1), Hs0 by exact Hm. reflexivity.
    + intros m Hm. rewrite <- Hs0.
      * apply node_eq; [apply Hp, Hm|apply (InsertBefore_start_fn _ _ _ _ _ E1)].
      * intros ->. apply Hm. constructor. constructor.
  - exists s0, true. split; [reflexivity|]. split; [symmetry; apply Z.leb_le; lia|].
    split; [exact Hr0|]. split; [exact Hs0'|]. split.
    + intros m Hm. rewrite Hs0 by exact Hm. reflexivity.
    + intros m Hm. apply Hs0. intros ->. apply Hm. constructor. constructor.
Qed.

Lemma FinishLoop_spec q l :
  ring (nodes q) (head_ q) l -> 0 <= in_flight_ q -> in_flight_ q + 1 < u64_modulus ->
  match l with
  | [] => FinishLoop q = Ok (q, None)
  | n :: l' =>
      if limit_ q <? in_flight_ q + 1 then FinishLoop q = Ok (q, None)
      else exists s, FinishLoop q = Ok (Queue (limit_ q) (head_ q) (in_flight_ q + 1) s, Some n) /\
             ring s (head_ q) l' /\
             (forall m, start_fn s m = start_fn (nodes q) m) /\
             (forall m, m ∉ head_ q :: l' -> s !!! m = nodes q !!! m)
  end.
Proof.
  intros Hr Hf Hf'. unfold FinishLoop. rewrite (ring_head _ _ _ Hr).
  destruct l as [|n l']; cbn [hd]; [rewrite Z.eqb_refl; reflexivity|].
  assert (n <> head_ q).
  { destruct Hr as (_ & Hd & _). intros ->. apply NoDup_cons in Hd as [Hd _]. apply Hd. constructor. }
  rewrite (proj2 (Z.eqb_neq n (head_ q))) by assumption.
  unfold u64. rewrite Z.mod_small by lia. case_if; [reflexivity|].
  destruct (Remove_ring (nodes q) (head_ q) [] n l' Hr) as (s & E1 & Hr1 & Hp).
  exists s. cbn [with_in_flight nodes]. rewrite E1. split; [reflexivity|]. split; [exact Hr1|].
  split; [intros m; apply (Remove_start_fn _ _ _ _ E1)|].
  intros m Hm. apply node_eq; [apply Hp, Hm|apply (Remove_start_fn _ _ _ _ E1)].
Qed.

(** * The invariant of the system *)

(** [l] is the list of pending nodes. *)
Record Inv (s : System) (l : list node) : Prop := {
  inv_limit : 0 < limit_ (queue s) < u64_modulus;
  inv_ring : ring (nodes (queue s)) (head_ (queue s)) l;
  inv_fifo : arrived s = admitted s ++ l;
  inv_nodup : NoDup (head_ (queue s) :: l ++ active s);
  inv_address n : n ∈ head_ (queue s) :: l ++ active s -> 0 < n < u64_modulus;
  inv_count : in_flight_ (queue s) = Z.of_nat (length (active s));
  inv_bound : in_flight_ (queue s) <= limit_ (queue s);
  inv_full : l <> [] -> in_flight_ (queue s) = limit_ (queue s);
  inv_idle n : n ∉ head_ (queue s) :: l -> n ∉ tasks s ≫= starting_of ->
    nodes (queue s) !!! n = RateLimiterNode.idle;
  inv_fn n : n ∈ l ++ (tasks s ≫= starting_of) -> start_fn (nodes (queue s)) n <> nullptr;
}.

Lemma Inv_pending s l : Inv s l -> pending s = l.
Proof. intros I. unfold pending. rewrite (inv_fifo _ _ I). apply drop_app_length. Qed.

Lemma Inv_in_flight s l :
  Inv s l -> 0 <= in_flight_ (queue s) /\ in_flight_ (queue s) + 1 < u64_modulus.
Proof.
  intros I. rewrite (inv_count _ _ I). pose proof (addresses_bound _ (inv_nodup _ _ I) (inv_address _ _ I)) as Hb.
  cbn in Hb. rewrite length_app in Hb. lia.
Qed.

(** Taking an element out of a list without duplicates. *)
Lemma filter_ne_Permutation (l : list node) n :
  NoDup l -> n ∈ l -> l ≡ₚ n :: filter (fun m => m <> n) l.
Proof.
  intros Hd Hn. apply NoDup_Permutation; [exact Hd| |].
  - apply NoDup_cons. split; [|apply NoDup_filter, Hd]. rewrite list_elem_of_filter. tauto.
  - intros m. rewrite elem_of_cons, list_elem_of_filter. destruct (decide (m = n)); subst; tauto.
Qed.

Lemma tasks_delete (ts : list task) i t :
  ts !! i = Some t -> ts ≫= starting_of ≡ₚ starting_of t ++ (delete i ts ≫= starting_of).
Proof.
  intros Hi. rewrite (bind_Permutation starting_of _ _ (delete_Permutation ts i t Hi)).
  rewrite bind_cons. reflexivity.
Qed.

(** The parts of the invariant on the set of nodes, from one state to another. *)
Lemma nodes_Permutation (h : node) l1 l2 :
  l1 ≡ₚ l2 ->
  NoDup (h :: l1) -> (forall n, n ∈ h :: l1 -> 0 < n < u64_modulus) ->
  NoDup (h :: l2) /\ (forall n, n ∈ h :: l2 -> 0 < n < u64_modulus).
Proof.
  intros E Hd Ha. split; [rewrite <- E; exact Hd|]. intros n. rewrite <- E. apply Ha.
Qed.

Lemma Inv_init limit head : 0 <= limit < u64_modulus -> 0 < head < u64_modulus ->
  Inv (init limit head ∅) [].
Proof.
  intros Hl Hh. split; cbn [init queue New limit_ head_ in_flight_ nodes tasks running arrived admitted].
  - case_if; bool_to_prop; unfold u64_modulus in *; lia.
  - apply Initialize_ring. unfold nullptr. lia.
  - reflexivity.
  - apply NoDup_singleton.
  - intros n Hn%list_elem_of_singleton. subst. exact Hh.
  - reflexivity.
  - case_if; bool_to_prop; unfold u64_modulus; lia.
  - congruence.
  - intros n Hn _. unfold Initialize. cbn.
    rewrite list_elem_of_singleton in Hn. rewrite !lookup_total_insert_ne by congruence.
    rewrite lookup_total_empty. reflexivity.
  - intros n Hn. destruct (not_elem_of_nil _ Hn).
Qed.

Lemma Inv_fresh s l n fn : Inv s l -> may_admit s n fn = true ->
  n ∉ head_ (queue s) :: l ++ active s.
Proof.
  unfold may_admit. rewrite !andb_true_iff, !negb_true_iff, !bool_decide_eq_true, !Z.eqb_neq.
  intros I (((((_ & _) & Hh) & _) & Hi) & Hr) Hin.
  apply elem_of_cons in Hin as [Hin|Hin]; [congruence|].
  unfold active in Hin. rewrite app_assoc, elem_of_app in Hin. destruct Hin as [Hin|Hin]; [|auto].
  apply (inv_fn _ _ I n Hin). rewrite Hi. reflexivity.
Qed.

Lemma run_admit s l n fn : Inv s l -> may_admit s n fn = true ->
  exists s', run s (arrive n fn) = Ok s' /\
    ((l = [] /\ Inv s' [] /\ admitted s' = admitted s ++ [n]) \/
     (Inv s' (l ++ [n]) /\ admitted s' = admitted s)).
Proof.
  intros I H. pose proof (Inv_fresh _ _ _ _ I H) as Hfresh.
  pose proof (Inv_in_flight _ _ I) as [Hf Hf'].
  pose proof H as H'. unfold may_admit in H'.
  rewrite !andb_true_iff, !negb_true_iff, !bool_decide_eq_true, !Z.eqb_neq in H'.
  destruct H' as (((((Hn1%Z.ltb_lt & Hn2%Z.ltb_lt) & Hh) & Hfn) & Hi) & Hrun).
  assert (Hnl : n ∉ head_ (queue s) :: l).
  { rewrite app_comm_cons, elem_of_app in Hfresh. tauto. }
  destruct (Admit_spec (queue s) l n fn (inv_ring _ _ I) Hnl) as
    (st & now & E & Enow & Hr & Hfn1 & Hfn2 & Hst); [unfold nullptr; lia..|].
  cbn [run]. rewrite H. unfold require, mbind, Result_bind. rewrite E.
  assert (Hnodes : forall k, k ≡ₚ n :: l ++ active s ->
    NoDup (head_ (queue s) :: k) /\ forall m, m ∈ head_ (queue s) :: k -> 0 < m < u64_modulus).
  { intros k Ek. eapply nodes_Permutation; [symmetry; exact Ek| |].
    - apply NoDup_cons. pose proof (inv_nodup _ _ I) as Hd. apply NoDup_cons in Hd as [Hd1 Hd2].
      rewrite elem_of_cons, NoDup_cons. rewrite elem_of_cons in Hfresh. intuition congruence.
    - intros m. rewrite !elem_of_cons. intros [->|[->|Hm]]; [|lia|];
        apply (inv_address _ _ I); constructor; assumption. }
  destruct now; (eexists; split; [reflexivity|]).
  - symmetry in Enow. apply Z.leb_le in Enow. left.
    assert (El : l = []).
    { destruct l; [reflexivity|]. rewrite (inv_full _ _ I) in Enow by discriminate. lia. }
    subst l. split; [reflexivity|]. split; [|reflexivity].
    destruct (Hnodes ([] ++ n :: active s)) as [Hd Ha]; [reflexivity|].
    split; cbn [queue tasks running arrived admitted limit_ head_ in_flight_ nodes];
      try assumption; try apply I; try congruence.
    + rewrite (inv_fifo _ _ I), !app_nil_r. reflexivity.
    + rewrite (inv_count _ _ I). change (active _) with (n :: active s) at 2. cbn [length]. lia.
    + intros m Hm Hm'. rewrite bind_cons in Hm'. cbn [starting_of app] in Hm'.
      rewrite not_elem_of_cons in Hm'. rewrite list_elem_of_singleton in Hm. rewrite Hst.
      * apply (inv_idle _ _ I); [rewrite list_elem_of_singleton; exact Hm|tauto].
      * rewrite !elem_of_cons. intros [?|[?|?%elem_of_nil]]; tauto.
    + intros m Hm. rewrite bind_cons in Hm. cbn [starting_of app] in Hm.
      destruct (decide (m = n)) as [->|Hne]; [rewrite Hfn1; exact Hfn|].
      rewrite Hfn2 by exact Hne. apply (inv_fn _ _ I). apply elem_of_cons in Hm. cbn. tauto.
  - symmetry in Enow. apply Z.leb_gt in Enow. right. split; [|reflexivity].
    destruct (Hnodes ((l ++ [n]) ++ active s)) as [Hd Ha].
    { rewrite <- app_assoc. symmetry. apply Permutation_middle. }
    split; cbn [queue tasks running arrived admitted limit_ head_ in_flight_ nodes];
      try assumption; try apply I; try congruence.
    + rewrite (inv_fifo _ _ I). symmetry. apply app_assoc.
    + intros _. pose proof (inv_bound _ _ I). lia.
    + intros m Hm Hm'. rewrite app_comm_cons, elem_of_app, list_elem_of_singleton in Hm.
      rewrite Hst; [apply (inv_idle _ _ I); tauto|]. rewrite !elem_of_cons in *. tauto.
    + intros m Hm. destruct (decide (m = n)) as [->|Hne]; [rewrite Hfn1; exact Hfn|].
      rewrite Hfn2 by exact Hne. apply (inv_fn _ _ I).
      rewrite !elem_of_app, list_elem_of_singleton in Hm. rewrite elem_of_app. tauto.
Qed.

Lemma run_start s l i n in_loop : Inv s l -> tasks s !! i = Some (Starting n in_loop) ->
  exists st, let s' := Sys st ((if in_loop : bool then [Looping] else []) ++ delete i (tasks s))
                       (n :: running s) (arrived s) (admitted s) in
    run s (start i) = Ok s' /\ Inv s' l.
Proof.
  intros I Hi. pose proof (tasks_delete _ _ _ Hi) as Et. cbn [starting_of app] in Et.
  assert (Es : ((if in_loop then [Looping] else []) ++ delete i (tasks s)) ≫= starting_of =
               delete i (tasks s) ≫= starting_of) by (destruct in_loop; reflexivity).
  assert (Hnl : n ∉ head_ (queue s) :: l).
  { pose proof (inv_nodup _ _ I) as Hd. rewrite app_comm_cons in Hd.
    apply NoDup_app in Hd as (_ & Hd & _). intros Hin. apply (Hd n Hin).
    unfold active. rewrite Et. constructor. }
  exists (with_nodes (queue s) (<[n:=RateLimiterNode.idle]> (nodes (queue s)))). cbn zeta. split.
  - cbn [run]. rewrite Hi. unfold RunStartFunction. rewrite deref_ok; [reflexivity|].
    apply (inv_fn _ _ I). rewrite Et. apply elem_of_app. right. constructor.
  - assert (Ep : active s ≡ₚ (delete i (tasks s) ≫= starting_of) ++ n :: running s).
    { unfold active. rewrite Et. cbn [app]. apply Permutation_middle. }
    destruct (nodes_Permutation (head_ (queue s)) (l ++ active s)
      (l ++ (delete i (tasks s) ≫= starting_of) ++ n :: running s)) as [Hd Ha];
      [rewrite Ep; reflexivity|apply I|apply I|].
    split; unfold active;
      cbn [queue tasks running arrived admitted limit_ head_ in_flight_ nodes with_nodes];
      rewrite ?Es; try assumption; try apply I.
    + eapply ring_store; [|apply I]. intros m Hm. apply lookup_total_insert_ne. congruence.
    + rewrite (inv_count _ _ I), Ep. reflexivity.
    + intros m Hm Hm'. destruct (decide (n = m)) as [->|Hne];
        [rewrite lookup_total_insert_eq; reflexivity|].
      rewrite lookup_total_insert_ne by exact Hne. apply (inv_idle _ _ I); [exact Hm|].
      rewrite Et, elem_of_cons. intuition congruence.
    + intros m Hm. assert (n <> m).
      { intros <-. apply elem_of_app in Hm as [Hm|Hm].
        - apply Hnl. constructor. exact Hm.
        - pose proof (inv_nodup _ _ I) as Hd'. apply NoDup_cons in Hd' as [_ Hd'].
          apply NoDup_app in Hd' as (_ & _ & Hd'). unfold active in Hd'. rewrite Et in Hd'.
          apply NoDup_app in Hd' as (Hd' & _ & _). apply NoDup_cons in Hd'. tauto. }
      rewrite lookup_total_insert_ne by assumption. apply (inv_fn _ _ I).
      rewrite Et, elem_of_app, elem_of_cons. apply elem_of_app in Hm. tauto.
Qed.

(** An iteration that starts with the mutex taken anew ends the loop: whenever nodes wait,
    the queue is full. *)
Lemma run_loop s l i : Inv s l -> tasks s !! i = Some Looping ->
  let s' := Sys (queue s) (delete i (tasks s)) (running s) (arrived s) (admitted s) in
  run s (loop i) = Ok s' /\ Inv s' l.
Proof.
  intros I Hi. cbn zeta. pose proof (tasks_delete _ _ _ Hi) as Et. cbn [starting_of app] in Et.
  pose proof (Inv_in_flight _ _ I) as [Hf Hf']. split.
  - pose proof (FinishLoop_spec _ _ (inv_ring _ _ I) Hf Hf') as Hl. cbn [run]. rewrite Hi.
    assert (E : FinishLoop (queue s) = Ok (queue s, None)).
    { destruct l as [|n l']; [exact Hl|]. rewrite (inv_full _ _ I) in Hl by discriminate.
      rewrite (proj2 (Z.ltb_lt _ _)) in Hl by lia. exact Hl. }
    rewrite E. cbn. rewrite app_nil_r. reflexivity.
  - assert (Ep : active s ≡ₚ (delete i (tasks s) ≫= starting_of) ++ running s)
      by (unfold active; rewrite Et; reflexivity).
    destruct (nodes_Permutation (head_ (queue s)) (l ++ active s)
      (l ++ (delete i (tasks s) ≫= starting_of) ++ running s)) as [Hd Ha];
      [rewrite Ep; reflexivity|apply I|apply I|].
    split; unfold active; cbn [queue tasks running arrived admitted]; try assumption; try apply I.
    + rewrite (inv_count _ _ I), Ep. reflexivity.
    + intros m Hm Hm'. apply (inv_idle _ _ I); [exact Hm|]. rewrite Et. exact Hm'.
    + intros m Hm. apply (inv_fn _ _ I). rewrite Et. exact Hm.
Qed.

(** [Finish] hands the place over to the first node that waits. *)
Lemma run_finish s l n : Inv s l -> n ∈ running s ->
  exists st, let s' := Sys st (resume (head l) ++ tasks s) (filter (fun m => m <> n) (running s))
                       (arrived s) (admitted s ++ option_list (head l)) in
    run s (finish n) = Ok s' /\ Inv s' (tail l).
Proof.
  intros I Hn. pose proof (Inv_in_flight _ _ I) as [Hf Hf'].
  assert (Hdr : NoDup (running s)).
  { pose proof (inv_nodup _ _ I) as Hd. apply NoDup_cons in Hd as [_ Hd].
    apply NoDup_app in Hd as (_ & _ & Hd). unfold active in Hd. apply NoDup_app in Hd. tauto. }
  pose proof (filter_ne_Permutation _ _ Hdr Hn) as Er.
  set (rest := filter (fun m => m <> n) (running s)) in *.
  assert (Hc : in_flight_ (queue s) = 1 + Z.of_nat (length ((tasks s ≫= starting_of) ++ rest))).
  { rewrite (inv_count _ _ I). unfold active. rewrite Er, <- Permutation_middle. cbn [length]. lia. }
  set (q := with_in_flight (queue s) (u64 (in_flight_ (queue s) - 1))).
  assert (Eq : in_flight_ q = in_flight_ (queue s) - 1)
    by (cbn; unfold u64; apply Z.mod_small; lia).
  assert (Hd : NoDup (head_ (queue s) :: l ++ (tasks s ≫= starting_of) ++ rest) /\
    forall m, m ∈ head_ (queue s) :: l ++ (tasks s ≫= starting_of) ++ rest -> 0 < m < u64_modulus).
  { destruct (nodes_Permutation (head_ (queue s)) (l ++ active s)
      (n :: l ++ (tasks s ≫= starting_of) ++ rest)) as [Hd Ha]; [|apply I|apply I|].
    - unfold active. rewrite Er, !app_assoc. symmetry. apply Permutation_middle.
    - rewrite !NoDup_cons in *. split; [rewrite elem_of_cons in Hd; tauto|].
      intros m Hm. apply Ha. rewrite !elem_of_cons. rewrite elem_of_cons in Hm. tauto. }
  destruct Hd as [Hd Ha].
  pose proof (FinishLoop_spec q l (inv_ring _ _ I)) as Hl. rewrite Eq in Hl.
  specialize (Hl ltac:(lia) ltac:(lia)). change (limit_ q) with (limit_ (queue s)) in Hl.
  cbn [run]. unfold require. rewrite (proj2 (bool_decide_eq_true _) Hn).
  change (Finish (queue s)) with (FinishLoop q).
  pose proof (inv_bound _ _ I) as Hb.
  destruct l as [|m l'].
  - exists q. cbn zeta. rewrite Hl. split; [reflexivity|].
    split; unfold active; cbn [queue tasks running arrived admitted resume head option_list tail app];
      try rewrite app_nil_r; try assumption; try apply I; try (rewrite Eq; lia).
    + rewrite Eq. change (limit_ q) with (limit_ (queue s)). lia.
    + congruence.
  - rewrite (proj2 (Z.ltb_ge _ _)) in Hl by lia.
    destruct Hl as (st & E & Hr & Hfn & Hst). eexists. cbn zeta. rewrite E. split; [reflexivity|].
    destruct (nodes_Permutation (head_ (queue s)) ((m :: l') ++ (tasks s ≫= starting_of) ++ rest)
      (l' ++ m :: (tasks s ≫= starting_of) ++ rest)) as [Hd' Ha'];
      [apply Permutation_middle|exact Hd|exact Ha|].
    split; unfold active; cbn [queue tasks running arrived admitted resume head option_list tail app
      limit_ head_ in_flight_ nodes]; rewrite ?bind_cons; cbn [starting_of app];
      try assumption; try apply I.
    + rewrite (inv_fifo _ _ I), <- app_assoc. reflexivity.
    + cbn [length]. change (head_ q) with (head_ (queue s)). lia.
    + lia.
    + intros _. rewrite <- (inv_full _ _ I) by discriminate. lia.
    + intros k Hk Hk'. rewrite not_elem_of_cons in Hk'. rewrite Hst by exact Hk.
      apply (inv_idle _ _ I); [|tauto]. rewrite !elem_of_cons in *. intuition.
    + intros k Hk. rewrite Hfn. apply (inv_fn _ _ I).
      rewrite elem_of_app, elem_of_cons in *. tauto.
Qed.

(** Every event that is enabled succeeds and keeps the invariant. *)
Lemma run_cases s l e : Inv s l ->
  run s e = Err kFailedPrecondition \/
  exists s' l', run s e = Ok s' /\ Inv s' l' /\
    exists out, admitted s' = admitted s ++ out /\
      (is_finish e = true -> out = take 1 l /\ l' = tail l) /\
      (is_admit e = true \/ is_finish e = true \/ (out = [] /\ l' = l)) /\
      (is_finish e = false -> exists more, out ++ l' = l ++ more /\ (l <> [] -> out = [])).
Proof.
  intros I. destruct e as [n fn|i|i|n].
  - destruct (may_admit s n fn) eqn:H; [right|left; cbn; rewrite H; reflexivity].
    destruct (run_admit s l n fn I H) as (s' & E & [(-> & I' & Ea)|(I' & Ea)]).
    + exists s', []. split; [exact E|]. split; [exact I'|]. exists [n].
      split; [exact Ea|]. split; [discriminate|]. split; [auto|].
      intros _. exists [n]. split; [reflexivity|congruence].
    + exists s', (l ++ [n]). split; [exact E|]. split; [exact I'|]. exists [].
      rewrite app_nil_r. split; [exact Ea|]. split; [discriminate|]. split; [auto|].
      intros _. exists [n]. auto.
  - destruct (tasks s !! i) as [[n b|]|] eqn:Hi; [right|left; cbn; rewrite Hi; reflexivity..].
    destruct (run_start s l i n b I Hi) as (st & E & I').
    eexists _, l. split; [exact E|]. split; [exact I'|]. exists []. rewrite app_nil_r. cbn.
    split; [reflexivity|]. split; [discriminate|]. split; [auto|].
    intros _. exists []. rewrite app_nil_r. auto.
  - destruct (tasks s !! i) as [[n b|]|] eqn:Hi;
      [left; cbn; rewrite Hi; reflexivity|right|left; cbn; rewrite Hi; reflexivity].
    destruct (run_loop s l i I Hi) as (E & I').
    eexists _, l. split; [exact E|]. split; [exact I'|]. exists []. rewrite app_nil_r. cbn.
    split; [reflexivity|]. split; [discriminate|]. split; [auto|].
    intros _. exists []. rewrite app_nil_r. auto.
  - destruct (decide (n ∈ running s)) as [Hn|Hn];
      [right|left; cbn; rewrite bool_decide_eq_false_2 by exact Hn; reflexivity].
    destruct (run_finish s l n I Hn) as (st & E & I').
    eexists _, (tail l). split; [exact E|]. split; [exact I'|].
    exists (option_list (head l)). split; [reflexivity|].
    split; [destruct l; auto|]. split; [auto|discriminate].
Qed.

Lemma run_limit s e s' : run s e = Ok s' -> limit_ (queue s') = limit_ (queue s).
Proof.
  assert (Hf : forall q r, FinishLoop q = Ok r -> limit_ r.1 = limit_ q).
  { intros q r. unfold FinishLoop. repeat case_if; [intros [= <-]; reflexivity..|].
    intros (st & _ & [= <-])%bind_Ok. reflexivity. }
  destruct e as [n fn|i|i|n]; cbn [run].
  - intros (_ & _ & ([q now] & E & [= <-])%bind_Ok)%bind_Ok.
    assert (Eq : limit_ q = limit_ (queue s)).
    { unfold Admit in E. cbv zeta in E. revert E. case_if; [|intros [= <- _]; reflexivity].
      intros (st & _ & [= <- _])%bind_Ok. reflexivity. }
    destruct now; exact Eq.
  - destruct (tasks s !! i) as [[]|]; [|discriminate..].
    intros ([st fn] & _ & [= <-])%bind_Ok. reflexivity.
  - destruct (tasks s !! i) as [[]|]; [discriminate| |discriminate].
    intros ([q next] & E & [= <-])%bind_Ok. apply (Hf _ _ E).
  - intros (_ & _ & ([q next] & E & [= <-])%bind_Ok)%bind_Ok. apply (Hf _ _ E).
Qed.

Lemma run_Inv s l e s' : Inv s l -> run s e = Ok s' -> exists l', Inv s' l'.
Proof.
  intros I E. destruct (run_cases s l e I) as [E'|(s1 & l' & E' & I' & _)]; [congruence|].
  exists l'. congruence.
Qed.

Lemma reachable_Inv limit head s :
  0 <= limit < u64_modulus -> 0 < head < u64_modulus -> reachable limit head s ->
  exists l, Inv s l.
Proof.
  intros Hl Hh [events E].
  apply (foldM_inv run (fun s => exists l, Inv s l) events (init limit head ∅) s);
    [exists []; apply Inv_init; assumption| |exact E].
  intros s1 e s2 _ (l & I). apply run_Inv with l. exact I.
Qed.

(** [k + 1] completions admit the node at position [k] of the queue. *)
Lemma finishes_admit events : forall s l s' k n,
  Inv s l -> foldM run s events = Ok s' -> l !! k = Some n ->
  (k < length (filter is_finish events))%nat ->
  admitted s' !! (length (admitted s) + k)%nat = Some n.
Proof.
  induction events as [|e events IH]; intros s l s' k n I E Hk Hc; [cbn in Hc; lia|].
  cbn [foldM] in E. apply bind_Ok in E as (s1 & E1 & E).
  destruct (run_cases s l e I) as [E'|(s2 & l' & E' & I' & out & Ea & Hfin & _ & Hno)]; [congruence|].
  assert (s2 = s1) by congruence. subst s2.
  destruct (is_finish e) eqn:He.
  - destruct (Hfin eq_refl) as [-> ->]. rewrite filter_cons_True in Hc by (rewrite He; exact Logic.I).
    destruct l as [|m l]; [discriminate|]. destruct k as [|k].
    + cbn in Hk. injection Hk as ->.
      assert (Hp : admitted s1 `prefix_of` admitted s').
      { apply (foldM_inv run (fun s => admitted s1 `prefix_of` admitted s /\ exists l, Inv s l)
                 events s1 s'); [split; [reflexivity|eauto]| |exact E].
        intros sa ea sb _ [Hp (la & Ia)] Eab.
        destruct (run_cases sa la ea Ia) as [Er|(sc & lc & Er & Ic & outc & Eac & _)]; [congruence|].
        assert (sc = sb) by congruence. subst sc. split; [|eauto].
        rewrite Eac. apply prefix_app_r, Hp. }
      destruct Hp as [more Hp]. rewrite Hp, Ea, <- app_assoc, Nat.add_0_r.
      apply list_lookup_middle. reflexivity.
    + cbn [length] in Hc. cbn [lookup list_lookup] in Hk. cbn [tail] in I'.
      replace (length (admitted s) + S k)%nat with (length (admitted s1) + k)%nat
        by (rewrite Ea, length_app, length_take; cbn [length]; lia).
      apply (IH s1 l s' k n I' E Hk). lia.
  - destruct (Hno eq_refl) as (more & El & Ho).
    rewrite Ho in El, Ea by (intros ->; discriminate). cbn [app] in El. rewrite app_nil_r in Ea.
    rewrite <- Ea. apply (IH s1 l' s' k n I' E); [rewrite El; apply lookup_app_l_Some, Hk|].
    rewrite filter_cons_False in Hc by (rewrite He; auto). exact Hc.
Qed.

(** The work that is left: every event but an admission lowers it. *)
Definition task_work (t : task) : nat := match t with Starting _ _ => 4 | Looping => 1 end.
Definition work (s : System) (l : list node) : nat :=
  6 * length l + sum_list_with task_work (tasks s) + 2 * length (running s).

Lemma tasks_delete_work (ts : list task) i t :
  ts !! i = Some t ->
  sum_list_with task_work ts = (task_work t + sum_list_with task_work (delete i ts))%nat.
Proof.
  revert i; induction ts as [|u ts IH]; intros [|i] Hi; cbn in *; [discriminate..| |].
  - injection Hi as ->. reflexivity.
  - rewrite (IH i Hi). unfold delete. lia.
Qed.

Lemma progress s l : Inv s l -> (0 < work s l)%nat ->
  exists e s' l', is_admit e = false /\ run s e = Ok s' /\ Inv s' l' /\ (work s' l' < work s l)%nat.
Proof.
  intros I Hw. destruct (tasks s) as [|t ts] eqn:Et.
  - destruct (running s) as [|n ns] eqn:Er.
    + destruct l as [|n l]; [unfold work in Hw; rewrite Et, Er in Hw; cbn in Hw; lia|].
      pose proof (inv_full _ _ I ltac:(discriminate)) as Hf. pose proof (inv_limit _ _ I) as Hl.
      rewrite (inv_count _ _ I) in Hf. unfold active in Hf. rewrite Et, Er in Hf. cbn in Hf. lia.
    + assert (Hn : n ∈ running s) by (rewrite Er; constructor).
      destruct (run_finish s l n I Hn) as (st & E & I').
      exists (finish n). eexists _, (tail l). split; [reflexivity|]. split; [exact E|].
      split; [exact I'|]. unfold work. cbn [tasks running]. rewrite Et, Er.
      assert (Hlt : (length (filter (fun m => m <> n) (n :: ns)) < length (n :: ns))%nat)
        by (apply length_filter_lt with n; [constructor|auto]).
      set (rest := filter _ _) in *. clearbody rest. cbn [length] in Hlt.
      destruct l; cbn [head tail resume length app sum_list_with task_work]; lia.
  - destruct t as [n b|].
    + assert (Hi : tasks s !! 0%nat = Some (Starting n b)) by (rewrite Et; reflexivity).
      destruct (run_start s l 0 n b I Hi) as (st & E & I').
      exists (start 0). eexists _, l. split; [reflexivity|]. split; [exact E|]. split; [exact I'|].
      unfold work. cbn [tasks running]. rewrite (tasks_delete_work _ _ _ Hi).
      destruct b; cbn [app sum_list_with task_work length]; lia.
    + assert (Hi : tasks s !! 0%nat = Some Looping) by (rewrite Et; reflexivity).
      destruct (run_loop s l 0 I Hi) as (E & I').
      exists (loop 0). eexists _, l. split; [reflexivity|]. split; [exact E|]. split; [exact I'|].
      unfold work. cbn [tasks running]. rewrite (tasks_delete_work _ _ _ Hi). cbn. lia.
Qed.

Lemma can_drain s l : Inv s l ->
  exists events s', Forall (fun e => is_admit e = false) events /\
    foldM run s events = Ok s' /\ Inv s' [] /\ tasks s' = [] /\ running s' = [].
Proof.
  remember (work s l) as w eqn:Ew. revert s l Ew.
  induction w as [w IH] using lt_wf_ind. intros s l Ew I.
  destruct (decide (w = 0%nat)) as [->|Hw].
  - exists [], s. split; [constructor|]. split; [reflexivity|].
    unfold work in Ew. destruct l; [|cbn in Ew; lia]. split; [exact I|].
    destruct (tasks s) as [|[]]; [|cbn in Ew; lia..].
    destruct (running s); [auto|cbn in Ew; lia].
  - destruct (progress s l I ltac:(lia)) as (e & s1 & l1 & He & E & I1 & Hlt).
    destruct (IH (work s1 l1) ltac:(lia) s1 l1 eq_refl I1) as (es & s' & Hes & Es & Hs').
    exists (e :: es), s'. split; [constructor; assumption|]. split; [|exact Hs'].
    cbn [foldM]. rewrite E. exact Es.
Qed.

(** * Theorems *)

(** C24: in every reachable state of the admission queue, under any interleaving of
    callers, the nodes being started or running are exactly counted by [in_flight_] and at
    most the limit, nodes wait only when the limit is reached, nodes are admitted in the
    order in which they came, and no step reads through a null pointer. *)
Theorem admission_queue_safe limit head s :
  0 <= limit < u64_modulus -> 0 < head < u64_modulus -> reachable limit head s ->
  in_flight_ (queue s) = Z.of_nat (length (active s)) /\
  (limit <> 0 -> Z.of_nat (length (active s)) <= limit) /\
  (pending s <> [] -> Z.of_nat (length (active s)) = limit_ (queue s)) /\
  arrived s = admitted s ++ pending s /\
  NoDup (pending s ++ active s) /\
  (forall e, run s e = Err kFailedPrecondition \/ is_ok (run s e) = true).
Proof.
  intros Hl Hh Hr. destruct (reachable_Inv limit head s Hl Hh Hr) as (l & I).
  rewrite (Inv_pending s l I), <- (inv_count _ _ I). split; [reflexivity|].
  assert (Elim : limit <> 0 -> limit_ (queue s) = limit).
  { destruct Hr as [events E]. intros Hne.
    apply (foldM_inv run (fun s => limit_ (queue s) = limit /\ exists l, Inv s l) events
             (init limit head ∅) s); [| |exact E].
    - split; [cbn; apply Z.eqb_neq in Hne; rewrite Hne; reflexivity|].
      exists []. apply Inv_init; assumption.
    - intros sa ea sb _ [Ha (la & Ia)] Eab. split; [|apply (run_Inv _ _ _ _ Ia Eab)].
      rewrite <- Ha. apply (run_limit _ _ _ Eab). }
  split; [intros Hne; rewrite <- Elim by exact Hne; apply (inv_bound _ _ I)|].
  split; [apply (inv_full _ _ I)|]. split; [apply (inv_fifo _ _ I)|].
  split; [pose proof (inv_nodup _ _ I) as Hd; apply NoDup_cons in Hd; tauto|].
  intros e. destruct (run_cases s l e I) as [E|(s' & l' & E & _)]; [auto|].
  right. rewrite E. reflexivity.
Qed.

(** Two operations arrive at a queue of one place, and the first runs. *)
Definition example_system : System :=
  match foldM run (init 1 1 ∅) [arrive 10 7; arrive 11 8; start 0] with
  | Ok s => s
  | Err _ => init 1 1 ∅
  end.

Lemma example_reachable : reachable 1 1 example_system.
Proof. exists [arrive 10 7; arrive 11 8; start 0]. vm_compute. reflexivity. Defined.

Lemma admission_queue_safe_witness :
  pending example_system = [11] /\ active example_system = [10] /\
  in_flight_ (queue example_system) = Z.of_nat (length (active example_system)) /\
  (1 <> 0 -> Z.of_nat (length (active example_system)) <= 1) /\
  (pending example_system <> [] ->
     Z.of_nat (length (active example_system)) = limit_ (queue example_system)) /\
  arrived example_system = admitted example_system ++ pending example_system /\
  NoDup (pending example_system ++ active example_system) /\
  (forall e, run example_system e = Err kFailedPrecondition \/ is_ok (run example_system e) = true).
Proof.
  split; [reflexivity|]. split; [reflexivity|].
  apply (admission_queue_safe 1 1); [unfold u64_modulus; lia..|exact example_reachable].
Defined.

(** C25: the node at position [k] of the queue is admitted when [k + 1] running operations
    have finished, whatever else happens in between, and from every reachable state the
    operations in flight can finish and the queue can drain without a new arrival: there is
    no lost wakeup and no deadlock. *)
Theorem admission_queue_live limit head s :
  0 <= limit < u64_modulus -> 0 < head < u64_modulus -> reachable limit head s ->
  (forall k n events s', pending s !! k = Some n -> foldM run s events = Ok s' ->
     (k < length (filter is_finish events))%nat ->
     admitted s' !! (length (admitted s) + k)%nat = Some n) /\
  (exists events s', Forall (fun e => is_admit e = false) events /\
     foldM run s events = Ok s' /\ pending s' = [] /\ active s' = [] /\ tasks s' = []).
Proof.
  intros Hl Hh Hr. destruct (reachable_Inv limit head s Hl Hh Hr) as (l & I).
  rewrite (Inv_pending s l I). split.
  - intros k n events s' Hk E Hc. apply (finishes_admit events s l s' k n I E Hk Hc).
  - destruct (can_drain s l I) as (events & s' & He & E & I' & Et & Er).
    exists events, s'. split; [exact He|]. split; [exact E|].
    split; [apply (Inv_pending _ _ I')|]. unfold active. rewrite Et, Er. auto.
Qed.

Lemma admission_queue_live_witness :
  (forall k n events s', pending example_system !! k = Some n ->
     foldM run example_system events = Ok s' -> (k < length (filter is_finish events))%nat ->
     admitted s' !! (length (admitted example_system) + k)%nat = Some n) /\
  (exists events s', Forall (fun e => is_admit e = false) events /\
     foldM run example_system events = Ok s' /\ pending s' = [] /\ active s' = [] /\ tasks s' = []).
Proof.
  apply (admission_queue_live 1 1); [unfold u64_modulus; lia..|exact example_reachable].
Defined.
