(* ===== verification/CachePool.v ===== *)
(** Caches and their pool: [internal/cache/cache.{h,cc}] and [cache_impl.h].

    The objects live in a store by address, so that freeing and aliasing are explicit: an
    access to an object that was deleted is the error [UseAfterFree].  The operations are
    those of a single thread, in which an atomic update is an update and a mutex is not
    contended. *)

From stdpp Require Import gmap strings.
From S2P Require Import Prelude Int64 LinkedList.

(** * Objects *)

Record LruListNode := LruNode { next : node; prev : node }.

#[export] Instance LruListNode_inhabited : Inhabited LruListNode :=
  populate (LruNode nullptr nullptr).

(** [reference_count_] counts two for a strong reference; its least significant bit says
    that there is a weak reference. *)
Record CacheEntryImpl := CacheEntry {
  cache_ : node;
  key_ : string;
  num_bytes_ : Z;
  reference_count_ : Z;
  initialized_ : bool;
  flags_ : Z;
  weak_state_ : node;
}.

Record CacheEntryWeakState := WeakState { weak_references : Z; entry : node }.

(** [pool_] says whether the cache belongs to the pool. *)
Record CacheImpl := Cache {
  pool_ : bool;
  cache_type_ : Z;
  cache_identifier_ : string;
  cache_reference_count_ : Z;
  shards_ : list (gmap string node);
}.

(** [eviction_queue_] is the address of that member, the head of the queue. *)
Record CachePoolImpl := CachePool {
  total_bytes_limit : Z;
  total_bytes_ : Z;
  eviction_queue_ : node;
  caches_ : gmap (Z * string) node;
  strong_references_ : Z;
  weak_references_ : Z;
}.

(** The store.  [links] holds the [LruListNode] part of the entries and the head of the
    queue; the pool is [None] once it was deleted. *)
Record State := Store {
  pool : option CachePoolImpl;
  links : gmap node LruListNode;
  entries : gmap node CacheEntryImpl;
  weak_states : gmap node CacheEntryWeakState;
  caches : gmap node CacheImpl;
}.

Definition with_pool (s : State) (p : CachePoolImpl) : State :=
  Store (Some p) (links s) (entries s) (weak_states s) (caches s).
Definition with_links (s : State) (l : gmap node LruListNode) : State :=
  Store (pool s) l (entries s) (weak_states s) (caches s).
Definition with_entries (s : State) (es : gmap node CacheEntryImpl) : State :=
  Store (pool s) (links s) es (weak_states s) (caches s).
Definition with_weak_states (s : State) (ws : gmap node CacheEntryWeakState) : State :=
  Store (pool s) (links s) (entries s) ws (caches s).
Definition with_caches (s : State) (cs : gmap node CacheImpl) : State :=
  Store (pool s) (links s) (entries s) (weak_states s) cs.

Definition load {A} (m : gmap node A) (n : node) : Result A :=
  match m !! n with Some x => Ok x | None => Err UseAfterFree end.
Definition the_pool (s : State) : Result CachePoolImpl :=
  match pool s with Some p => Ok p | None => Err UseAfterFree end.

Definition with_total_bytes (p : CachePoolImpl) (n : Z) : CachePoolImpl :=
  CachePool (total_bytes_limit p) n (eviction_queue_ p) (caches_ p) (strong_references_ p)
    (weak_references_ p).
Definition with_caches_ (p : CachePoolImpl) (m : gmap (Z * string) node) : CachePoolImpl :=
  CachePool (total_bytes_limit p) (total_bytes_ p) (eviction_queue_ p) m (strong_references_ p)
    (weak_references_ p).
Definition with_strong_references (p : CachePoolImpl) (n : Z) : CachePoolImpl :=
  CachePool (total_bytes_limit p) (total_bytes_ p) (eviction_queue_ p) (caches_ p) n
    (weak_references_ p).
Definition with_weak_references (p : CachePoolImpl) (n : Z) : CachePoolImpl :=
  CachePool (total_bytes_limit p) (total_bytes_ p) (eviction_queue_ p) (caches_ p)
    (strong_references_ p) n.

Definition with_cache_count (c : CacheImpl) (n : Z) : CacheImpl :=
  Cache (pool_ c) (cache_type_ c) (cache_identifier_ c) n (shards_ c).
Definition with_shards (c : CacheImpl) (l : list (gmap string node)) : CacheImpl :=
  Cache (pool_ c) (cache_type_ c) (cache_identifier_ c) (cache_reference_count_ c) l.

Definition with_cache (e : CacheEntryImpl) (c : node) : CacheEntryImpl :=
  CacheEntry c (key_ e) (num_bytes_ e) (reference_count_ e) (initialized_ e) (flags_ e)
    (weak_state_ e).
Definition with_num_bytes (e : CacheEntryImpl) (n : Z) : CacheEntryImpl :=
  CacheEntry (cache_ e) (key_ e) n (reference_count_ e) (initialized_ e) (flags_ e)
    (weak_state_ e).
Definition with_count (e : CacheEntryImpl) (n : Z) : CacheEntryImpl :=
  CacheEntry (cache_ e) (key_ e) (num_bytes_ e) n (initialized_ e) (flags_ e) (weak_state_ e).
Definition with_initialized (e : CacheEntryImpl) (b : bool) : CacheEntryImpl :=
  CacheEntry (cache_ e) (key_ e) (num_bytes_ e) (reference_count_ e) b (flags_ e) (weak_state_ e).
Definition with_flags (e : CacheEntryImpl) (f : Z) : CacheEntryImpl :=
  CacheEntry (cache_ e) (key_ e) (num_bytes_ e) (reference_count_ e) (initialized_ e) f
    (weak_state_ e).
Definition with_weak_state (e : CacheEntryImpl) (w : node) : CacheEntryImpl :=
  CacheEntry (cache_ e) (key_ e) (num_bytes_ e) (reference_count_ e) (initialized_ e) (flags_ e) w.

(** Read an object, change it, write it back. *)
Definition update_pool (s : State) (f : CachePoolImpl -> CachePoolImpl) : Result State :=
  p ← the_pool s; Ok (with_pool s (f p)).
Definition update_entry (s : State) (n : node) (f : CacheEntryImpl -> CacheEntryImpl) : Result State :=
  e ← load (entries s) n; Ok (with_entries s (<[n := f e]> (entries s))).
Definition update_cache (s : State) (n : node) (f : CacheImpl -> CacheImpl) : Result State :=
  c ← load (caches s) n; Ok (with_caches s (<[n := f c]> (caches s))).

#[export] Instance LruListAccessor : ListAccessor State := {
  GetPrev s n := prev (links s !!! n);
  GetNext s n := next (links s !!! n);
  SetPrev s n p := with_links s (<[n := LruNode (next (links s !!! n)) p]> (links s));
  SetNext s n p := with_links s (<[n := LruNode p (prev (links s !!! n))]> (links s));
}.

(** * Reference counts of caches *)

Definition kNumShards : Z := 8.
Definition kStrongReferenceIncrement : Z := kNumShards * 4.
Definition kCachePoolStrongReferenceIncrement : Z := 1.
Definition kNonEmptyShardIncrement : Z := 2.

(** Bitwise complement of a [size_t]. *)
Definition complement (x : Z) : Z := u64 (Z.lnot x).

Definition ShouldDelete (reference_count : Z) : bool :=
  (Z.land reference_count (complement kCachePoolStrongReferenceIncrement) =? 0) ||
  (Z.land reference_count
     (complement (kStrongReferenceIncrement - 1 - kCachePoolStrongReferenceIncrement)) =? 0).

Definition ShouldHoldPoolWeakReference (reference_count : Z) : bool :=
  kStrongReferenceIncrement <=? reference_count.

(** The three counts in one number. *)
Definition packed (strong non_empty_shards : Z) (pool : bool) : Z :=
  kStrongReferenceIncrement * strong + kNonEmptyShardIncrement * non_empty_shards +
  (if pool then kCachePoolStrongReferenceIncrement else 0).

(** [DecrementCacheReferenceCount]: the new state, the old count and the new count. *)
Definition DecrementCacheReferenceCount (s : State) (cache amount : Z) : Result (State * (Z * Z)) :=
  c ← load (caches s) cache;
  let old_count := cache_reference_count_ c in
  let new_count := u64 (old_count - amount) in
  s ← update_cache s cache (fun c => with_cache_count c new_count);
  Ok (s, (old_count, new_count)).

Definition should_delete (counts : Z * Z) : bool :=
  negb (ShouldDelete counts.1) && ShouldDelete counts.2.
Definition should_release_cache_pool_weak_reference (counts : Z * Z) : bool :=
  negb (ShouldHoldPoolWeakReference counts.2).

(** [DecrementReferenceCountWithLock] on a count that wraps by [wrap]: the new count and
    whether the lock is returned. *)
Definition DecrementReferenceCountWithLock (wrap : Z -> Z) (count decrease_amount lock_threshold : Z)
    : Z * bool :=
  if count <=? lock_threshold + decrease_amount then
    let count := wrap (count - decrease_amount) in (count, count <=? lock_threshold)
  else (count - decrease_amount, false).

(** * The pool *)

Definition AcquireWeakReference (s : State) : Result State :=
  update_pool s (fun p => with_weak_references p (u64 (weak_references_ p + 1))).

Definition ReleaseWeakReference (s : State) : Result State :=
  p ← the_pool s;
  let new_count := u64 (weak_references_ p - 1) in
  if new_count =? 0
  then Ok (Store None (delete (eviction_queue_ p) (links s)) (entries s) (weak_states s) (caches s))
  else Ok (with_pool s (with_weak_references p new_count)).

(** [HasLruCache] of a pool that is there. *)
Definition HasLruCache (p : CachePoolImpl) : bool := negb (total_bytes_limit p =? 0).

Definition UnlinkListNode (s : State) (n : node) : Result State :=
  s ← Remove s n;
  Ok (Initialize s n).

Definition UnregisterEntryFromPool (s : State) (entry : node) : Result State :=
  s ← UnlinkListNode s entry;
  e ← load (entries s) entry;
  update_pool s (fun p => with_total_bytes p (u64 (total_bytes_ p - num_bytes_ e))).

Definition AddToEvictionQueue (s : State) (entry : node) : Result State :=
  p ← the_pool s;
  s ← (if negb (OnlyContainsNode s entry) then Remove s entry else Ok s);
  InsertBefore s (eviction_queue_ p) entry.

(** [delete entry], with the destructor of [CacheEntry]. *)
Definition delete_entry (s : State) (n : node) : Result State :=
  e ← load (entries s) n;
  s ← (let weak_state := weak_state_ e in
       if weak_state =? nullptr then Ok s
       else
         w ← load (weak_states s) weak_state;
         if negb (weak_references w =? 0)
         then Ok (with_weak_states s (<[weak_state := WeakState (weak_references w) nullptr]> (weak_states s)))
         else Ok (with_weak_states s (delete weak_state (weak_states s))));
  Ok (with_entries (with_links s (delete n (links s))) (delete n (entries s))).

Definition cache_key (c : CacheImpl) : Z * string := (cache_type_ c, cache_identifier_ c).

(** The entries of all shards, in the order of iteration. *)
Definition shard_entries (c : CacheImpl) : list node := shards_ c ≫= (fun m => (map_to_list m).*2).

(** [DestroyCache]; [in_pool] is [false] when the pool argument is null. *)
Definition DestroyCache (s : State) (in_pool : bool) (cache : node) : Result State :=
  c ← load (caches s) cache;
  s ← (if in_pool then
         p ← the_pool s;
         let s := if bool_decide (cache_identifier_ c = EmptyString) then s
                  else if bool_decide (caches_ p !! cache_key c = Some cache)
                  then with_pool s (with_caches_ p (delete (cache_key c) (caches_ p)))
                  else s in
         s ← foldM (fun s n =>
                      s ← update_entry s n (fun e => with_count e (u32 (reference_count_ e + 2)));
                      if HasLruCache p then UnregisterEntryFromPool s n else Ok s)
               s (shard_entries c);
         foldM delete_entry s (shard_entries c)
       else Ok s);
  Ok (with_caches s (delete cache (caches s))).

(** * Entries, eviction and the operations of the interface

    [absl::Hash<std::string_view>] is a parameter. *)

Class AbslHash := absl_hash : string -> Z.

Section Operations.
Context `{AbslHash}.

Definition shard_index (key : string) : nat := Z.to_nat (Z.land (absl_hash key) 7).
Definition ShardForKey (c : CacheImpl) (key : string) : gmap string node :=
  shards_ c !!! shard_index key.
Definition set_shard (c : CacheImpl) (key : string) (m : gmap string node) : CacheImpl :=
  with_shards c (<[shard_index key := m]> (shards_ c)).

(** What [MaybeEvictEntries] does with the front of the queue: [None] when the entry is in
    use, otherwise whether its cache is to be deleted. *)
Definition EvictEntry (s : State) (entry : node) : Result (State * option bool) :=
  e ← load (entries s) entry;
  c ← load (caches s) (cache_ e);
  if reference_count_ e =? 0 then
    let shard := delete (key_ e) (ShardForKey c (key_ e)) in
    s ← update_cache s (cache_ e) (fun c => set_shard c (key_ e) shard);
    '(s, should_delete_cache) ←
      (if bool_decide (shard = ∅) then
         '(s, counts) ← DecrementCacheReferenceCount s (cache_ e) kNonEmptyShardIncrement;
         Ok (s, should_delete counts)
       else Ok (s, false));
    s ← UnregisterEntryFromPool s entry;
    Ok (s, Some should_delete_cache)
  else
    s ← UnlinkListNode s entry;
    Ok (s, None).

Definition kBufferSize : nat := 64.

(** [destroy_entries]: each entry comes with [should_delete_cache_for_entry]. *)
Definition destroy_entries (s : State) (to_delete : list (node * bool)) : Result State :=
  foldM (fun s '(entry, should_delete_cache) =>
           s ← (if should_delete_cache : bool then
                  e ← load (entries s) entry;
                  c ← load (caches s) (cache_ e);
                  DestroyCache s (pool_ c) (cache_ e)
                else Ok s);
           s ← update_entry s entry (fun e => with_cache e nullptr);
           delete_entry s entry) s to_delete.

(** The loop; [to_delete] is the part of the buffer that is in use. *)
Fixpoint EvictLoop (fuel : nat) (s : State) (to_delete : list (node * bool)) : Result State :=
  match fuel with
  | O => Err OutOfFuel
  | S fuel =>
      p ← the_pool s;
      if total_bytes_limit p <? total_bytes_ p then
        let queue := eviction_queue_ p in
        let entry := GetNext s queue in
        if entry =? queue then destroy_entries s to_delete
        else
          '(s, evicted) ← EvictEntry s entry;
          match evicted with
          | None => EvictLoop fuel s to_delete
          | Some should_delete_cache =>
              let to_delete := to_delete ++ [(entry, should_delete_cache)] in
              if bool_decide (length to_delete = kBufferSize) then
                s ← destroy_entries s to_delete;
                EvictLoop fuel s []
              else EvictLoop fuel s to_delete
          end
      else destroy_entries s to_delete
  end.

Definition MaybeEvictEntries (s : State) : Result State := EvictLoop (S (size (links s))) s [].

Definition InitializeNewEntry (s : State) (n cache : node) (key : string) : State :=
  Initialize (with_entries s (<[n := CacheEntry cache key 0 2 false 0 nullptr]> (entries s))) n.

(** [change] is a [ptrdiff_t]. *)
Definition UpdateTotalBytes (s : State) (change : Z) : Result State :=
  p ← the_pool s;
  let new_total := u64 (total_bytes_ p + change) in
  let s := with_pool s (with_total_bytes p new_total) in
  if (new_total <=? total_bytes_limit p) || (change <=? 0) then Ok s else MaybeEvictEntries s.

(** [StrongPtrTraitsCache]. *)
Definition Cache_increment (s : State) (cache : node) : Result State :=
  update_cache s cache
    (fun c => with_cache_count c (u64 (cache_reference_count_ c + kStrongReferenceIncrement))).

Definition Cache_decrement (s : State) (cache : node) : Result State :=
  c ← load (caches s) cache;
  '(s, counts) ← DecrementCacheReferenceCount s cache kStrongReferenceIncrement;
  s ← (if should_delete counts then DestroyCache s (pool_ c) cache else Ok s);
  if should_release_cache_pool_weak_reference counts && pool_ c then ReleaseWeakReference s else Ok s.

(** [StrongPtrTraitsCacheEntry::increment]. *)
Definition CacheEntry_increment (s : State) (n : node) : Result State :=
  update_entry s n (fun e => with_count e (u32 (reference_count_ e + 2))).

(** The part of [StrongPtrTraitsCacheEntry::decrement_impl] up to the release of the cache;
    the second component says whether the function goes on to it. *)
Definition ReleaseEntry (s : State) (n : node) : Result (State * bool) :=
  e ← load (entries s) n;
  c ← load (caches s) (cache_ e);
  if pool_ c then
    p ← the_pool s;
    let '(new_count, lock) := DecrementReferenceCountWithLock u32 (reference_count_ e) 2 1 in
    s ← update_entry s n (fun e => with_count e new_count);
    if negb lock then Ok (s, false)
    else if negb (new_count =? 0) then Ok (s, true)
    else if total_bytes_limit p =? 0 then
      let shard := delete (key_ e) (ShardForKey c (key_ e)) in
      s ← update_cache s (cache_ e) (fun c => set_shard c (key_ e) shard);
      s ← (if bool_decide (shard = ∅) then
             update_cache s (cache_ e)
               (fun c => with_cache_count c (u64 (cache_reference_count_ c - kNonEmptyShardIncrement)))
           else Ok s);
      s ← delete_entry s n;
      Ok (s, true)
    else
      s ← AddToEvictionQueue s n;
      s ← MaybeEvictEntries s;
      Ok (s, true)
  else
    let new_count := u32 (reference_count_ e - 2) in
    s ← update_entry s n (fun e => with_count e new_count);
    if 1 <? new_count then Ok (s, false)
    else
      s ← delete_entry s n;
      Ok (s, true).

Definition CacheEntry_decrement (s : State) (n : node) : Result State :=
  e ← load (entries s) n;
  '(s, continue) ← ReleaseEntry s n;
  if continue : bool then Cache_decrement s (cache_ e) else Ok s.

Definition TryToAcquireCacheStrongReference (s : State) (cache : node) : Result (State * bool) :=
  c ← load (caches s) cache;
  let old_count := cache_reference_count_ c in
  if ShouldDelete old_count then Ok (s, false)
  else
    s ← Cache_increment s cache;
    s ← (if negb (ShouldHoldPoolWeakReference old_count) then AcquireWeakReference s else Ok s);
    Ok (s, true).

(** [GetCacheInternal]; [make_cache] is the address of the object that the callback creates,
    or null.  The result is null for an empty pointer. *)
Definition GetCacheInternal (s : State) (in_pool : bool) (cache_type : Z) (cache_key : string)
    (make_cache : node) : Result (State * node) :=
  '(s, found) ←
    (if in_pool && negb (bool_decide (cache_key = EmptyString)) then
       p ← the_pool s;
       match caches_ p !! (cache_type, cache_key) with
       | Some cache =>
           '(s, acquired) ← TryToAcquireCacheStrongReference s cache;
           if acquired : bool then Ok (s, cache)
           else
             s ← update_pool s (fun p => with_caches_ p (delete (cache_type, cache_key) (caches_ p)));
             Ok (s, nullptr)
       | None => Ok (s, nullptr)
       end
     else Ok (s, nullptr));
  if negb (found =? nullptr) then Ok (s, found)
  else if make_cache =? nullptr then Ok (s, nullptr)
  else
    let new_cache c := with_caches s (<[make_cache := c]> (caches s)) in
    let shards := replicate (Z.to_nat kNumShards) ∅ in
    if negb in_pool || bool_decide (cache_key = EmptyString) then
      let s := new_cache (Cache in_pool 0 EmptyString kStrongReferenceIncrement shards) in
      s ← (if in_pool then AcquireWeakReference s else Ok s);
      Ok (s, make_cache)
    else
      p ← the_pool s;
      let initial_count := kStrongReferenceIncrement +
        (if negb (strong_references_ p =? 0) then kCachePoolStrongReferenceIncrement else 0) in
      let insert s :=
        s ← update_pool s (fun p => with_caches_ p (<[(cache_type, cache_key) := make_cache]> (caches_ p)));
        let s := with_caches s (<[make_cache := Cache true cache_type cache_key initial_count shards]> (caches s)) in
        s ← AcquireWeakReference s;
        Ok (s, make_cache) in
      match caches_ p !! (cache_type, cache_key) with
      | None => insert s
      | Some cache =>
          '(s, acquired) ← TryToAcquireCacheStrongReference s cache;
          if acquired : bool then Ok (s, cache) else insert s
      end.

(** [GetCacheEntryInternal]; [allocate] is the address that [DoAllocateEntry] returns and
    [size] the result of [DoGetSizeInBytes] after [DoInitialize]. *)
Definition GetCacheEntryInternal (s : State) (cache : node) (key : string) (allocate new_size : Z)
    : Result (State * node) :=
  c ← load (caches s) cache;
  '(s, n) ←
    (if negb (pool_ c) then
       s ← Cache_increment (InitializeNewEntry s allocate cache key) cache;
       Ok (s, allocate)
     else
       let shard := ShardForKey c key in
       match shard !! key with
       | Some n =>
           e ← load (entries s) n;
           let old_count := reference_count_ e in
           s ← update_entry s n (fun e => with_count e (u32 (old_count + 2)));
           s ← (if old_count <=? 1 then Cache_increment s cache else Ok s);
           Ok (s, n)
       | None =>
           let s := InitializeNewEntry s allocate cache key in
           let shard := <[key := allocate]> shard in
           s ← update_cache s cache (fun c => set_shard c key shard);
           s ← (if bool_decide (size shard = 1%nat) then
                  update_cache s cache
                    (fun c => with_cache_count c (u64 (cache_reference_count_ c + kNonEmptyShardIncrement)))
                else Ok s);
           s ← Cache_increment s cache;
           Ok (s, allocate)
       end);
  e ← load (entries s) n;
  if initialized_ e then Ok (s, n)
  else
    s ← update_entry s n (fun e => with_initialized e true);
    if pool_ c then
      p ← the_pool s;
      if HasLruCache p then
        s ← update_entry s n (fun e => with_num_bytes e new_size);
        s ← UpdateTotalBytes s new_size;
        Ok (s, n)
      else Ok (s, n)
    else Ok (s, n).

(** [CacheEntry::unlock]; [new_size] is the result of [DoGetSizeInBytes]. *)
Definition CacheEntry_unlock (s : State) (n : node) (new_size : Z) : Result State :=
  e ← load (entries s) n;
  s ← update_entry s n (fun e => with_flags e 0);
  if flags_ e =? 0 then Ok s
  else
    c ← load (caches s) (cache_ e);
    if pool_ c then
      p ← the_pool s;
      if HasLruCache p then
        let change := wrap64 (u64 (new_size - num_bytes_ e)) in
        s ← update_entry s n (fun e => with_num_bytes e new_size);
        UpdateTotalBytes s change
      else Ok s
    else Ok s.

(** [StrongPtrTraitsCachePool]. *)
Definition CachePool_increment (s : State) : Result State :=
  p ← the_pool s;
  let s := with_pool s (with_strong_references p (u64 (strong_references_ p + 1))) in
  if strong_references_ p =? 0 then AcquireWeakReference s else Ok s.

Definition CachePool_decrement (s : State) : Result State :=
  p ← the_pool s;
  let '(new_count, lock) := DecrementReferenceCountWithLock u64 (strong_references_ p) 1 0 in
  let s := with_pool s (with_strong_references p new_count) in
  if negb lock then Ok s
  else
    '(s, to_delete) ←
      foldM (fun '(s, to_delete) cache =>
               '(s, counts) ← DecrementCacheReferenceCount s cache kCachePoolStrongReferenceIncrement;
               Ok (s, if should_delete counts then to_delete ++ [cache] else to_delete))
        (s, []) (map_to_list (caches_ p)).*2;
    s ← foldM (fun s cache => DestroyCache s true cache) s to_delete;
    ReleaseWeakReference s.

(** [CachePool::StrongPtr] from a weak pointer that is not empty. *)
Definition CachePool_StrongPtr (s : State) : Result State :=
  p ← the_pool s;
  let s := with_pool s (with_strong_references p (u64 (strong_references_ p + 1))) in
  if strong_references_ p =? 0 then
    s ← AcquireWeakReference s;
    foldM (fun s cache =>
             update_cache s cache (fun c =>
               with_cache_count c (u64 (cache_reference_count_ c + kCachePoolStrongReferenceIncrement))))
      s (map_to_list (caches_ p)).*2
  else Ok s.

(** [AcquireWeakCacheEntryReference]; [allocate] is the address of a new weak state.  The
    result is null when weak references are not supported. *)
Definition AcquireWeakCacheEntryReference (s : State) (n allocate : node) : Result (State * node) :=
  e ← load (entries s) n;
  if weak_state_ e =? nullptr then
    c ← load (caches s) (cache_ e);
    if negb (pool_ c) then Ok (s, nullptr)
    else
      let s := with_weak_states s (<[allocate := WeakState 1 n]> (weak_states s)) in
      s ← update_entry s n
            (fun e => with_weak_state (with_count e (u32 (reference_count_ e + 1))) allocate);
      Ok (s, allocate)
  else
    w ← load (weak_states s) (weak_state_ e);
    let s := with_weak_states s
      (<[weak_state_ e := WeakState (u64 (weak_references w + 1)) (entry w)]> (weak_states s)) in
    s ← (if weak_references w =? 0
         then update_entry s n (fun e => with_count e (u32 (reference_count_ e + 1))) else Ok s);
    Ok (s, weak_state_ e).

(** [intrusive_ptr_decrement] of a weak reference. *)
Definition WeakState_decrement (s : State) (weak_state : node) : Result State :=
  w ← load (weak_states s) weak_state;
  let '(new_weak_count, lock) := DecrementReferenceCountWithLock u64 (weak_references w) 1 0 in
  let s := with_weak_states s
    (<[weak_state := WeakState new_weak_count (entry w)]> (weak_states s)) in
  if negb lock then Ok s
  else if entry w =? nullptr then Ok (with_weak_states s (delete weak_state (weak_states s)))
  else
    e ← load (entries s) (entry w);
    c ← load (caches s) (cache_ e);
    p ← the_pool s;
    let '(new_count, lock) := DecrementReferenceCountWithLock u32 (reference_count_ e) 1 0 in
    s ← update_entry s (entry w) (fun e => with_count e new_count);
    if negb lock then Ok s
    else if negb (HasLruCache p) then
      let shard := delete (key_ e) (ShardForKey c (key_ e)) in
      s ← update_cache s (cache_ e) (fun c => set_shard c (key_ e) shard);
      '(s, should_delete_cache) ←
        (if bool_decide (shard = ∅) then
           '(s, counts) ← DecrementCacheReferenceCount s (cache_ e) kNonEmptyShardIncrement;
           Ok (s, should_delete counts)
         else Ok (s, false));
      s ← delete_entry s (entry w);
      if should_delete_cache : bool then DestroyCache s (pool_ c) (cache_ e) else Ok s
    else
      s ← AddToEvictionQueue s (entry w);
      MaybeEvictEntries s.
End Operations.

(** [CachePool::Make], with the address of the queue's head. *)
Definition CachePool_Make (limit : Z) (queue : node) : State :=
  Initialize (Store (Some (CachePool limit 0 queue ∅ 1 1)) ∅ ∅ ∅ ∅) queue.

(** * Well-formed stores *)

Section Invariant.
Context `{AbslHash}.

(** The entry that a cache has for a key. *)
Definition registered (c : CacheImpl) (key : string) : option node := ShardForKey c key !! key.

Definition non_empty_shards (c : CacheImpl) : list (gmap string node) :=
  filter (fun m => m <> ∅) (shards_ c).

(** The counts of a cache: some strong references, its non-empty shards, and perhaps the
    pool. *)
Definition cache_ok (c : CacheImpl) : Prop :=
  length (shards_ c) = Z.to_nat kNumShards /\
  exists strong in_pool, 0 <= strong /\ kStrongReferenceIncrement * (strong + 1) < u64_modulus /\
    cache_reference_count_ c = packed strong (Z.of_nat (length (non_empty_shards c))) in_pool.

(** The store is well-formed and [l] is the eviction queue, its front first. *)
Record well_formed (s : State) (p : CachePoolImpl) (l : list node) : Prop := {
  wf_pool : pool s = Some p;
  wf_total : in_u64 (total_bytes_ p);
  wf_ring : ring s (eviction_queue_ p) l;
  wf_links n e : entries s !! n = Some e -> is_Some (links s !! n);
  wf_unlinked n e : entries s !! n = Some e -> n ∉ l -> GetNext s n = n;
  wf_null : entries s !! nullptr = None;
  wf_head : is_Some (links s !! eviction_queue_ p) /\ entries s !! eviction_queue_ p = None;
  wf_queued n : n ∈ l -> exists e c, entries s !! n = Some e /\
    caches s !! cache_ e = Some c /\ pool_ c = true /\ registered c (key_ e) = Some n;
  wf_registered a c key n : caches s !! a = Some c -> registered c key = Some n ->
    exists e, entries s !! n = Some e /\ cache_ e = a /\ key_ e = key;
  wf_caches a c : caches s !! a = Some c -> cache_ok c;
  wf_named key a : caches_ p !! key = Some a ->
    exists c, caches s !! a = Some c /\ cache_key c = key /\ cache_identifier_ c <> EmptyString;
  wf_weak n e : entries s !! n = Some e -> weak_state_ e <> nullptr ->
    exists w, weak_states s !! weak_state_ e = Some w /\ entry w = n;
}.

(** ** Specification of eviction

    What eviction may delete: the entries without references. *)
Definition idle (es : gmap node CacheEntryImpl) (n : node) : bool :=
  match es !! n with Some e => reference_count_ e =? 0 | None => false end.
Definition bytes (es : gmap node CacheEntryImpl) (n : node) : Z :=
  match es !! n with Some e => num_bytes_ e | None => 0 end.
Definition total_of (es : gmap node CacheEntryImpl) (ns : list node) : Z :=
  foldr (fun n t => bytes es n + t) 0 ns.

(** The victims among the first [k] nodes of the queue. *)
Definition victims (es : gmap node CacheEntryImpl) (k : nat) (l : list node) : list node :=
  List.filter (idle es) (take k l).

Definition minus (vs : list node) (o : option node) : option node :=
  match o with Some n => if bool_decide (n ∈ vs) then None else Some n | None => None end.

(** The caches lose the victims and nothing else, keep their strong references, and are
    deleted only when they have neither strong references nor entries left. *)
Definition caches_without (vs : list node) (cs cs' : gmap node CacheImpl) : Prop :=
  forall a, match cs !! a, cs' !! a with
  | Some c, Some c' =>
      cache_reference_count_ c' / kStrongReferenceIncrement
        = cache_reference_count_ c / kStrongReferenceIncrement /\
      forall key, registered c' key = minus vs (registered c key)
  | Some c, None =>
      cache_reference_count_ c < kStrongReferenceIncrement /\
      forall key, minus vs (registered c key) = None
  | None, Some _ => False
  | None, None => True
  end.
End Invariant.

(** * Lemmas on counts *)

Lemma land_complement x m : in_u64 x -> Z.land x (complement m) = Z.land x (Z.lnot m).
Proof.
  intros Hx. unfold complement, u64. change u64_modulus with (2 ^ 64).
  rewrite <- Z.land_ones by lia. rewrite (Z.land_comm (Z.lnot m)), Z.land_assoc, Z.land_ones by lia.
  rewrite Z.mod_small; [reflexivity|exact Hx].
Qed.

Lemma land_above x n : 0 <= n -> Z.land x (Z.lnot (Z.ones n)) = x / 2 ^ n * 2 ^ n.
Proof.
  intros Hn. rewrite <- Z.ldiff_land, Z.ldiff_ones_r by assumption.
  rewrite Z.shiftl_mul_pow2, Z.shiftr_div_pow2 by assumption. reflexivity.
Qed.

Lemma ShouldDelete_parts x : in_u64 x ->
  ShouldDelete x = (x / 2 =? 0) || ((x / 32 =? 0) && (x mod 2 =? 0)).
Proof.
  intros Hx. unfold ShouldDelete. rewrite !land_complement by exact Hx.
  change (Z.lnot kCachePoolStrongReferenceIncrement) with (Z.lnot (Z.ones 1)).
  change (Z.lnot (kStrongReferenceIncrement - 1 - kCachePoolStrongReferenceIncrement))
    with (Z.lor (Z.lnot (Z.ones 5)) (Z.ones 1)).
  rewrite Z.land_lor_distr_r, !land_above, Z.land_ones by lia.
  change (2 ^ 1) with 2. change (2 ^ 5) with 32.
  f_equal; [apply eq_true_iff_eq; rewrite !Z.eqb_eq; Z.to_euclidean_division_equations; lia|].
  apply eq_true_iff_eq. rewrite andb_true_iff, !Z.eqb_eq, Z.lor_eq_0_iff. Z.to_euclidean_division_equations; lia.
Qed.

Lemma ShouldDelete_packed strong n in_pool :
  0 <= strong -> kStrongReferenceIncrement * (strong + 1) < u64_modulus -> 0 <= n <= kNumShards ->
  ShouldDelete (packed strong n in_pool) = (strong =? 0) && ((n =? 0) || negb in_pool).
Proof.
  unfold packed, kStrongReferenceIncrement, kNonEmptyShardIncrement, kNumShards,
    kCachePoolStrongReferenceIncrement.
  intros Hs Hb Hn. rewrite ShouldDelete_parts by (unfold in_u64; destruct in_pool; lia).
  apply eq_true_iff_eq.
  rewrite orb_true_iff, !andb_true_iff, orb_true_iff, negb_true_iff, !Z.eqb_eq.
  destruct in_pool; intuition (try discriminate; Z.to_euclidean_division_equations; lia).
Qed.

(** * Lemmas on caches *)

Section Lemmas.
Context `{AbslHash}.

Lemma shard_index_lt key : (shard_index key < Z.to_nat kNumShards)%nat.
Proof.
  unfold shard_index. change 7 with (Z.ones 3). rewrite Z.land_ones by lia.
  pose proof (Z.mod_pos_bound (absl_hash key) (2 ^ 3)). unfold kNumShards. lia.
Qed.

Lemma shard_lookup c key : cache_ok c -> shards_ c !! shard_index key = Some (ShardForKey c key).
Proof.
  intros [Hl _]. apply list_lookup_lookup_total_lt. rewrite Hl. apply shard_index_lt.
Qed.

Lemma non_empty_shards_bound c : cache_ok c -> (length (non_empty_shards c) <= Z.to_nat kNumShards)%nat.
Proof. intros [<- _]. apply length_filter. Qed.

Lemma registered_non_empty c key n : cache_ok c -> registered c key = Some n -> non_empty_shards c <> [].
Proof.
  intros Hc Hr.
  assert (Hin : ShardForKey c key ∈ non_empty_shards c).
  { apply list_elem_of_filter. split; [|eapply list_elem_of_lookup_2; apply shard_lookup, Hc].
    unfold registered in *. intros E. rewrite E in *. discriminate. }
  intros E. rewrite E in Hin. inversion Hin.
Qed.

(** The cache after the erasure of a key, and whether it is to be deleted. *)
Definition erase_shard (c : CacheImpl) (key : string) : gmap string node :=
  delete key (ShardForKey c key).
Definition erase (c : CacheImpl) (key : string) : CacheImpl :=
  let c' := set_shard c key (erase_shard c key) in
  if bool_decide (erase_shard c key = ∅)
  then with_cache_count c' (u64 (cache_reference_count_ c' - kNonEmptyShardIncrement)) else c'.
Definition erase_deletes (c : CacheImpl) (key : string) : bool :=
  bool_decide (erase_shard c key = ∅) &&
  should_delete (cache_reference_count_ c, u64 (cache_reference_count_ c - kNonEmptyShardIncrement)).

Lemma shards_erase c key : shards_ (erase c key) = <[shard_index key := erase_shard c key]> (shards_ c).
Proof. unfold erase. case_if; reflexivity. Qed.

Lemma registered_erase c key key' : cache_ok c ->
  registered (erase c key) key' = if bool_decide (key' = key) then None else registered c key'.
Proof.
  intros Hc. pose proof (shard_lookup c key Hc) as Hs. apply lookup_lt_Some in Hs.
  unfold registered at 1, ShardForKey at 1. rewrite shards_erase.
  destruct (decide (shard_index key' = shard_index key)) as [E|E].
  - rewrite E, list_lookup_total_insert, decide_True by auto. unfold erase_shard.
    case_bool_decide as Hk; [subst; apply lookup_delete_eq|].
    rewrite lookup_delete_ne by congruence. unfold registered, ShardForKey. rewrite E. reflexivity.
  - rewrite list_lookup_total_insert_ne by congruence.
    rewrite bool_decide_false by congruence. reflexivity.
Qed.

(** Only the erasure of the last entry of a shard changes the number of non-empty shards. *)
Lemma non_empty_erase c key n : cache_ok c -> registered c key = Some n ->
  length (non_empty_shards c) =
    (length (non_empty_shards (erase c key)) + if bool_decide (erase_shard c key = ∅) then 1 else 0)%nat.
Proof.
  intros Hc Hr. pose proof (shard_lookup c key Hc) as Hs.
  unfold non_empty_shards. rewrite shards_erase, insert_take_drop by (eapply lookup_lt_Some, Hs).
  rewrite <- (take_drop_middle _ _ _ Hs) at 1.
  rewrite !filter_app, !filter_cons, !length_app.
  rewrite decide_True by (intros E; unfold registered in Hr; rewrite E in Hr; discriminate).
  case_bool_decide as He; case_decide; try tauto; cbn [length]; lia.
Qed.

Lemma cache_ok_count c : cache_ok c -> in_u64 (cache_reference_count_ c).
Proof.
  intros Hc. pose proof (non_empty_shards_bound c Hc) as Hb. destruct Hc as (_ & st & b & H0 & H1 & ->).
  unfold packed, in_u64, kStrongReferenceIncrement, kNonEmptyShardIncrement, kNumShards,
    kCachePoolStrongReferenceIncrement in *. destruct b; lia.
Qed.

Ltac unfold_counts :=
  unfold packed, u64, in_u64, kStrongReferenceIncrement, kNonEmptyShardIncrement, kNumShards,
    kCachePoolStrongReferenceIncrement in *.

(** Erasure subtracts from the middle count alone. *)
Lemma erase_count c key n : cache_ok c -> registered c key = Some n ->
  exists strong in_pool, 0 <= strong /\ kStrongReferenceIncrement * (strong + 1) < u64_modulus /\
    cache_reference_count_ c = packed strong (Z.of_nat (length (non_empty_shards c))) in_pool /\
    cache_reference_count_ (erase c key)
      = packed strong (Z.of_nat (length (non_empty_shards (erase c key)))) in_pool /\
    (erase_shard c key = ∅ ->
     u64 (cache_reference_count_ c - kNonEmptyShardIncrement) = cache_reference_count_ (erase c key)).
Proof.
  intros Hc Hr. pose proof (non_empty_erase c key n Hc Hr) as Hn.
  pose proof (cache_ok_count c Hc) as Hu.
  destruct Hc as (Hl & st & b & H0 & H1 & E). exists st, b.
  split; [exact H0|]. split; [exact H1|]. split; [exact E|].
  unfold erase at 1 3. case_bool_decide as He;
    cbn [cache_reference_count_ with_cache_count set_shard with_shards].
  - split; [|reflexivity]. rewrite E in *. rewrite Hn. unfold_counts.
    rewrite Z.mod_small by (destruct b; lia). lia.
  - split; [|tauto]. rewrite E. f_equal. lia.
Qed.

Lemma erase_ok c key n : cache_ok c -> registered c key = Some n -> cache_ok (erase c key).
Proof.
  intros Hc Hr. destruct (erase_count c key n Hc Hr) as (st & b & H0 & H1 & _ & E & _).
  split; [rewrite shards_erase, length_insert; apply Hc|]. exists st, b. auto.
Qed.

(** The count of strong references stays. *)
Lemma strong_packed strong n in_pool : 0 <= n <= kNumShards ->
  packed strong n in_pool / kStrongReferenceIncrement = strong.
Proof.
  intros Hn. unfold_counts. destruct in_pool; Z.to_euclidean_division_equations; lia.
Qed.

Lemma strong_erase c key n : cache_ok c -> registered c key = Some n ->
  cache_reference_count_ (erase c key) / kStrongReferenceIncrement
    = cache_reference_count_ c / kStrongReferenceIncrement.
Proof.
  intros Hc Hr. pose proof (erase_ok c key n Hc Hr) as Hc'.
  apply non_empty_shards_bound in Hc' as Hb'. apply non_empty_shards_bound in Hc as Hb.
  destruct (erase_count c key n Hc Hr) as (st & b & _ & _ & -> & -> & _).
  unfold kNumShards in *. rewrite !strong_packed by (unfold kNumShards; lia). reflexivity.
Qed.

(** A cache is to be deleted exactly when its last entry goes and nobody holds it. *)
Lemma erase_deletes_empty c key n : cache_ok c -> registered c key = Some n ->
  erase_deletes c key = true ->
  non_empty_shards (erase c key) = [] /\ cache_reference_count_ (erase c key) < kStrongReferenceIncrement.
Proof.
  intros Hc Hr Hd. pose proof (erase_ok c key n Hc Hr) as Hc'.
  apply non_empty_shards_bound in Hc' as Hb'. apply non_empty_shards_bound in Hc as Hb.
  destruct (erase_count c key n Hc Hr) as (st & b & H0 & H1 & E & E' & Eu).
  unfold erase_deletes, should_delete in Hd. bool_to_prop. cbn [fst snd] in *. bool_to_prop.
  rewrite bool_decide_eq_true in *. rewrite Eu in * by assumption. rewrite E, E' in *.
  rewrite ShouldDelete_packed in * by (unfold kNumShards in *; lia).
  destruct (Z.eqb_spec st 0) as [->|]; [|discriminate].
  destruct b; [|rewrite orb_true_r in *; discriminate].
  rewrite orb_false_r in *. bool_to_prop.
  destruct (non_empty_shards (erase c key)); [|discriminate].
  split; [reflexivity|]. unfold_counts. cbn. lia.
Qed.
End Lemmas.

(** * Lemmas on the queue *)

#[export] Instance LruListAccessor_laws : ListAccessorLaws State.
Proof.
  split; intros s n p m; cbn; destruct (m =? n) eqn:E; bool_to_prop; subst;
    rewrite ?lookup_total_insert_eq, ?lookup_total_insert_ne by congruence; reflexivity.
Qed.

(** A ring depends on [links] alone. *)
Lemma ring_links (s s' : State) head l : links s' = links s -> ring s head l -> ring s' head l.
Proof. intros E. apply ring_frame. intros n _. unfold pointers. cbn. rewrite E. reflexivity. Qed.

(** The list operations change [links] alone, where no node disappears. *)
Definition relinked (s s' : State) : Prop :=
  s' = with_links s (links s') /\ forall n, is_Some (links s !! n) -> is_Some (links s' !! n).

Lemma relinked_refl s : relinked s s.
Proof. destruct s. split; [reflexivity|auto]. Qed.

Lemma relinked_trans s1 s2 s3 : relinked s1 s2 -> relinked s2 s3 -> relinked s1 s3.
Proof. intros [E1 H1] [E2 H2]. split; [rewrite E2, E1; reflexivity|auto]. Qed.

Lemma relinked_SetPrev (s : State) n p : relinked s (SetPrev s n p).
Proof. split; [reflexivity|]. intros m Hm. cbn. apply lookup_insert_is_Some'. auto. Qed.

Lemma relinked_SetNext (s : State) n p : relinked s (SetNext s n p).
Proof. split; [reflexivity|]. intros m Hm. cbn. apply lookup_insert_is_Some'. auto. Qed.

Lemma relinked_Initialize (s : State) n : relinked s (Initialize s n).
Proof. eapply relinked_trans; [apply relinked_SetPrev|apply relinked_SetNext]. Qed.

Lemma relinked_Remove (s s' : State) n : Remove s n = Ok s' -> relinked s s'.
Proof.
  unfold Remove. intros (p & _ & (p' & _ & [= <-])%bind_Ok)%bind_Ok.
  eapply relinked_trans; [apply relinked_SetPrev|apply relinked_SetNext].
Qed.

Lemma Initialize_pointers (s : State) n m : m <> n -> pointers (Initialize s n) m = pointers s m.
Proof.
  intros Hm. unfold Initialize, pointers.
  rewrite GetPrev_SetNext, GetPrev_SetPrev, GetNext_SetNext, GetNext_SetPrev.
  rewrite (proj2 (Z.eqb_neq m n) Hm). reflexivity.
Qed.

Lemma UnlinkListNode_front s head n l : ring s head (n :: l) ->
  exists s', UnlinkListNode s n = Ok s' /\ ring s' head l /\ relinked s s' /\
    forall m, m ∉ head :: l -> GetNext s' m = if m =? n then n else GetNext s m.
Proof.
  intros Hr. destruct (Remove_ring s head [] n l Hr) as (s' & E & Hr' & Hf).
  exists (Initialize s' n). unfold UnlinkListNode. rewrite E. split; [reflexivity|].
  split; [|split; [eapply relinked_trans; [eapply relinked_Remove, E|apply relinked_Initialize]|]].
  2: { intros m Hm. unfold Initialize. rewrite GetNext_SetNext. destruct (m =? n); [reflexivity|].
       rewrite GetNext_SetPrev. specialize (Hf m Hm). unfold pointers in Hf. congruence. }
  eapply ring_frame; [|exact Hr']. intros m Hm. apply Initialize_pointers. intros ->.
  destruct Hr as (_ & [Hh [Hn _]%NoDup_cons]%NoDup_cons & _).
  apply elem_of_cons in Hm as [->|Hm]; [apply Hh; constructor|auto].
Qed.

Lemma ring_front (s : State) head n l : ring s head (n :: l) -> GetNext s head = n /\ n <> head.
Proof.
  intros Hr. rewrite (ring_head _ _ _ Hr). split; [reflexivity|]. intros ->.
  destruct Hr as (_ & Hd & _). apply NoDup_cons in Hd as [Hd _]. apply Hd. constructor.
Qed.

Lemma ring_nodup (s : State) head l : ring s head l -> NoDup (head :: l).
Proof. intros Hr. apply Hr. Qed.

(** * What eviction does with the front of the queue *)

Section Front.
Context `{AbslHash}.

Lemma UnregisterEntryFromPool_front s p n e l :
  pool s = Some p -> ring s (eviction_queue_ p) (n :: l) -> entries s !! n = Some e ->
  exists s', UnregisterEntryFromPool s n =
      Ok (with_pool s' (with_total_bytes p (u64 (total_bytes_ p - num_bytes_ e)))) /\
    ring s' (eviction_queue_ p) l /\ relinked s s' /\
    forall m, m ∉ eviction_queue_ p :: l -> GetNext s' m = if m =? n then n else GetNext s m.
Proof.
  intros Hp Hr He. destruct (UnlinkListNode_front s _ n l Hr) as (s' & E & Hr' & Hs & Hn).
  exists s'. split; [|split; [exact Hr'|split; [exact Hs|exact Hn]]].
  destruct Hs as [Hs _]. unfold UnregisterEntryFromPool, update_pool, the_pool, load.
  rewrite E. cbn. rewrite Hs. cbn. rewrite He, Hp. reflexivity.
Qed.

Lemma DecrementCacheReferenceCount_Ok s a amount c : caches s !! a = Some c ->
  DecrementCacheReferenceCount s a amount =
    Ok (with_caches s (<[a := with_cache_count c (u64 (cache_reference_count_ c - amount))]> (caches s)),
        (cache_reference_count_ c, u64 (cache_reference_count_ c - amount))).
Proof.
  intros Hc. unfold DecrementCacheReferenceCount, update_cache, load. rewrite Hc. reflexivity.
Qed.

Lemma EvictEntry_in_use s n e c :
  entries s !! n = Some e -> caches s !! cache_ e = Some c -> idle (entries s) n = false ->
  EvictEntry s n = (s ← UnlinkListNode s n; Ok (s, None)).
Proof.
  intros He Hc Hi. unfold idle in Hi. rewrite He in Hi.
  unfold EvictEntry, load. rewrite He. cbn. rewrite Hc. cbn. rewrite Hi. reflexivity.
Qed.

Lemma EvictEntry_idle s n e c :
  entries s !! n = Some e -> caches s !! cache_ e = Some c -> idle (entries s) n = true ->
  EvictEntry s n =
    (s ← UnregisterEntryFromPool (with_caches s (<[cache_ e := erase c (key_ e)]> (caches s))) n;
     Ok (s, Some (erase_deletes c (key_ e)))).
Proof.
  intros He Hc Hi. unfold idle in Hi. rewrite He in Hi.
  unfold EvictEntry, update_cache, load. rewrite He. cbn. rewrite Hc. cbn. rewrite Hi.
  fold (erase_shard c (key_ e)). unfold erase, erase_deletes.
  case_bool_decide as Hs; [|reflexivity].
  rewrite (DecrementCacheReferenceCount_Ok _ _ _ _ (lookup_insert_eq _ _ _)).
  unfold with_caches at 1. cbn [caches with_caches]. rewrite insert_insert_eq. reflexivity.
Qed.

(** The entries off the queue stay unlinked. *)
Lemma unlinked_front s s' p n l : well_formed s p (n :: l) ->
  (forall m, m ∉ eviction_queue_ p :: l -> GetNext s' m = if m =? n then n else GetNext s m) ->
  forall m e, entries s !! m = Some e -> m ∉ l -> GetNext s' m = m.
Proof.
  intros W Hn m e He Hm. rewrite Hn.
  - destruct (Z.eqb_spec m n) as [->|Hne]; [reflexivity|].
    eapply wf_unlinked; [exact W|exact He|]. rewrite elem_of_cons. tauto.
  - rewrite elem_of_cons. intros [->|Hin]; [|auto]. destruct (wf_head _ _ _ W) as [_ Hh]. congruence.
Qed.

(** The front of the queue, in use, is taken off. *)
Lemma well_formed_unlink s s' p n l :
  well_formed s p (n :: l) -> relinked s s' -> ring s' (eviction_queue_ p) l ->
  (forall m, m ∉ eviction_queue_ p :: l -> GetNext s' m = if m =? n then n else GetNext s m) ->
  well_formed s' p l.
Proof.
  intros W [Hs Hl] Hr Hn. assert (Hu := unlinked_front s s' p n l W). destruct W.
  rewrite Hs in *. clear Hs. destruct wf_head0.
  split; cbn in *; eauto using list_elem_of_further.
Qed.

(** The front of the queue, not in use, is taken off and out of its cache. *)
Lemma well_formed_evict s s' p n e c l total :
  well_formed s p (n :: l) -> entries s !! n = Some e -> caches s !! cache_ e = Some c ->
  registered c (key_ e) = Some n ->
  relinked (with_caches s (<[cache_ e := erase c (key_ e)]> (caches s))) s' ->
  ring s' (eviction_queue_ p) l ->
  (forall m, m ∉ eviction_queue_ p :: l -> GetNext s' m = if m =? n then n else GetNext s m) ->
  in_u64 total -> well_formed (with_pool s' (with_total_bytes p total)) (with_total_bytes p total) l.
Proof.
  intros W He Hc Hr [Hs Hl] Hring Hnext Ht. assert (Hu := unlinked_front s s' p n l W Hnext).
  destruct W. rewrite Hs in *. clear Hs.
  pose proof (ring_nodup _ _ _ wf_ring0) as [_ [Hn _]%NoDup_cons]%NoDup_cons.
  pose proof (wf_caches0 _ _ Hc) as Hok. destruct wf_head0.
  split; cbn in *; try solve [eauto using list_elem_of_further].
  - eapply ring_links, Hring. reflexivity.
  - intros m Hm. destruct (wf_queued0 m) as (e' & c' & He' & Hc' & Hp' & Hr'); [constructor; exact Hm|].
    destruct (decide (cache_ e' = cache_ e)) as [Ea|Ea];
      [|exists e', c'; rewrite lookup_insert_ne by congruence; auto].
    exists e', (erase c (key_ e)). rewrite Ea, lookup_insert_eq. rewrite Ea in Hc'.
    assert (c' = c) as -> by congruence. split; [exact He'|]. split; [reflexivity|].
    split; [unfold erase; case_if; exact Hp'|].
    rewrite registered_erase, bool_decide_false by (exact Hok || (intros E; rewrite E in Hr'; congruence)).
    exact Hr'.
  - intros a c' key m Ha Hm. destruct (decide (a = cache_ e)) as [->|Ea];
      [|rewrite lookup_insert_ne in Ha by congruence; eauto].
    rewrite lookup_insert_eq in Ha. injection Ha as <-. rewrite registered_erase in Hm by exact Hok.
    case_bool_decide; [discriminate|eauto].
  - intros a c' Ha. destruct (decide (a = cache_ e)) as [->|Ea];
      [|rewrite lookup_insert_ne in Ha by congruence; eauto].
    rewrite lookup_insert_eq in Ha. injection Ha as <-. eapply erase_ok, Hr. exact Hok.
  - intros key a Ha. destruct (wf_named0 key a Ha) as (c' & Hc' & Hk).
    destruct (decide (a = cache_ e)) as [->|Ea];
      [|exists c'; rewrite lookup_insert_ne by congruence; auto].
    exists (erase c (key_ e)). rewrite lookup_insert_eq. assert (c' = c) as -> by congruence.
    split; [reflexivity|]. unfold erase. case_if; exact Hk.
Qed.

(** A cache without entries is deleted. *)
Lemma shard_entries_empty c : non_empty_shards c = [] -> shard_entries c = [].
Proof.
  unfold non_empty_shards, shard_entries. induction (shards_ c) as [|m l IH]; [reflexivity|].
  cbn. case_decide; [discriminate|]. intros E. rewrite IH by exact E.
  destruct (decide (m = ∅)) as [->|]; [|tauto]. rewrite map_to_list_empty. reflexivity.
Qed.

Lemma DestroyCache_empty s p l a c :
  well_formed s p l -> caches s !! a = Some c -> non_empty_shards c = [] ->
  exists p', DestroyCache s true a = Ok (with_pool (with_caches s (delete a (caches s))) p') /\
    well_formed (with_pool (with_caches s (delete a (caches s))) p') p' l /\
    total_bytes_limit p' = total_bytes_limit p /\ total_bytes_ p' = total_bytes_ p /\
    eviction_queue_ p' = eviction_queue_ p.
Proof.
  intros W Ha Hc.
  set (drop := negb (bool_decide (cache_identifier_ c = EmptyString)) &&
               bool_decide (caches_ p !! cache_key c = Some a)).
  exists (if drop then with_caches_ p (delete (cache_key c) (caches_ p)) else p).
  split; [|split; [|destruct drop; auto]].
  - unfold DestroyCache, load, the_pool. rewrite Ha, (wf_pool _ _ _ W).
    cbn. rewrite (shard_entries_empty c Hc). cbn. unfold drop.
    case_bool_decide; [destruct s, W; cbn in *; subst; reflexivity|].
    case_bool_decide; [reflexivity|destruct s, W; cbn in *; subst; reflexivity].
  - destruct W. destruct wf_head0.
    assert (Hreg : forall key m, registered c key <> Some m)
      by (intros key m Hm; eapply registered_non_empty in Hm; eauto).
    assert (Hq : forall k b, (if drop then delete (cache_key c) (caches_ p) else caches_ p) !! k = Some b ->
                 caches_ p !! k = Some b /\ b <> a).
    { intros k b Hb. unfold drop in Hb. split.
      - destruct (_ && _) in Hb; [apply lookup_delete_Some in Hb; tauto|exact Hb].
      - intros ->. assert (Hk : caches_ p !! k = Some a)
          by (destruct (_ && _) in Hb; [apply lookup_delete_Some in Hb; tauto|exact Hb]).
        destruct (wf_named0 k a Hk) as (c' & Hc' & <- & Hne).
        assert (c' = c) as -> by congruence.
        rewrite bool_decide_false, bool_decide_true in Hb by assumption. cbn in Hb.
        rewrite lookup_delete_eq in Hb. discriminate. }
    assert (El : forall q, (if drop then with_caches_ p (delete (cache_key c) (caches_ p)) else p) = q ->
       total_bytes_ q = total_bytes_ p /\ eviction_queue_ q = eviction_queue_ p /\
       caches_ q = if drop then delete (cache_key c) (caches_ p) else caches_ p)
      by (intros q <-; destruct drop; auto).
    set (q := if drop then with_caches_ p _ else p) in *. destruct (El q eq_refl) as (E1 & E2 & E3).
    split; cbn; rewrite ?E1, ?E2, ?E3; eauto.
    + eapply ring_links, wf_ring0. reflexivity.
    + intros m Hm. destruct (wf_queued0 m Hm) as (e' & c' & He' & Hc' & Hp' & Hr').
      exists e', c'. rewrite lookup_delete_ne; [auto|]. intros E.
      assert (c' = c) as -> by congruence. eapply Hreg, Hr'.
    + intros b c' key m Hb. apply lookup_delete_Some in Hb as [_ Hb]. eauto.
    + intros b c' Hb. apply lookup_delete_Some in Hb as [_ Hb]. eauto.
    + intros k b Hb. destruct (Hq k b Hb) as [Hb' Hne]. rewrite lookup_delete_ne by congruence. eauto.
Qed.
End Front.

(** * Destruction of the evicted entries *)

Section Destroy.
Context `{AbslHash}.

Lemma minus_app vs ws o : minus (vs ++ ws) o = minus ws (minus vs o).
Proof.
  destruct o as [n|]; [|reflexivity]. cbn. rewrite (bool_decide_ext _ _ (elem_of_app vs ws n)).
  destruct (decide (n ∈ vs)) as [Hn|Hn].
  - rewrite !bool_decide_true by tauto. reflexivity.
  - rewrite (bool_decide_false (n ∈ vs)) by exact Hn. cbn.
    rewrite (bool_decide_ext _ (n ∈ ws)) by tauto. reflexivity.
Qed.

Lemma minus_nil o : minus [] o = o.
Proof. destruct o; [|reflexivity]. cbn. rewrite bool_decide_false by apply not_elem_of_nil. reflexivity. Qed.

Lemma minus_other n o : o <> Some n -> minus [n] o = o.
Proof.
  destruct o; [|reflexivity]. cbn. intros Hn.
  rewrite bool_decide_false by (rewrite list_elem_of_singleton; congruence). reflexivity.
Qed.

Lemma caches_without_refl cs : caches_without [] cs cs.
Proof.
  intros a. destruct (cs !! a); [|exact I]. split; [reflexivity|]. intros key. symmetry. apply minus_nil.
Qed.

Lemma caches_without_trans vs ws cs1 cs2 cs3 :
  caches_without vs cs1 cs2 -> caches_without ws cs2 cs3 -> caches_without (vs ++ ws) cs1 cs3.
Proof.
  intros H1 H2 a. specialize (H1 a). specialize (H2 a).
  destruct (cs1 !! a) as [c1|], (cs2 !! a) as [c2|], (cs3 !! a) as [c3|]; try tauto.
  - destruct H1 as [E1 R1], H2 as [E2 R2]. split; [congruence|].
    intros key. rewrite minus_app, R2, R1. reflexivity.
  - destruct H1 as [E1 R1], H2 as [E2 R2]. split.
    + unfold kStrongReferenceIncrement, kNumShards in *. Z.to_euclidean_division_equations; lia.
    + intros key. rewrite minus_app, <- R1. apply R2.
  - destruct H1 as [E1 R1]. split; [exact E1|]. intros key. rewrite minus_app, R1. reflexivity.
Qed.

Lemma caches_without_delete cs a c :
  cs !! a = Some c -> cache_ok c -> non_empty_shards c = [] ->
  cache_reference_count_ c < kStrongReferenceIncrement -> caches_without [] cs (delete a cs).
Proof.
  intros Ha Hc He Hs b. destruct (decide (b = a)) as [->|Hb].
  - rewrite Ha, lookup_delete_eq. split; [exact Hs|]. intros key. rewrite minus_nil.
    destruct (registered c key) eqn:E; [|reflexivity].
    eapply registered_non_empty in E; [congruence|exact Hc].
  - rewrite lookup_delete_ne by congruence. apply caches_without_refl.
Qed.

Lemma caches_without_erase s p l n e c :
  well_formed s p l -> entries s !! n = Some e -> caches s !! cache_ e = Some c ->
  registered c (key_ e) = Some n ->
  caches_without [n] (caches s) (<[cache_ e := erase c (key_ e)]> (caches s)).
Proof.
  intros W He Hc Hr b. pose proof (wf_caches _ _ _ W _ _ Hc) as Hok.
  destruct (decide (b = cache_ e)) as [->|Hb].
  - rewrite Hc, lookup_insert_eq. split; [eapply strong_erase, Hr; exact Hok|].
    intros key. rewrite registered_erase by exact Hok. case_bool_decide as Hk.
    + subst. rewrite Hr. cbn. rewrite bool_decide_true by constructor. reflexivity.
    + symmetry. apply minus_other. intros Hm.
      destruct (wf_registered _ _ _ W _ _ _ _ Hc Hm) as (e' & He' & _ & <-). congruence.
  - rewrite lookup_insert_ne by congruence. destruct (caches s !! b) as [c'|] eqn:Eb; [|exact I].
    split; [reflexivity|]. intros key. symmetry. apply minus_other. intros Hm.
    destruct (wf_registered _ _ _ W _ _ _ _ Eb Hm) as (e' & He' & <- & _). congruence.
Qed.

(** An entry that no shard and no queue knows. *)
Definition detached (s : State) (l : list node) (n : node) : Prop :=
  (n ∉ l) /\ forall a c key, caches s !! a = Some c -> registered c key <> Some n.

Lemma destroy_entry s p l n e :
  well_formed s p l -> entries s !! n = Some e -> detached s l n ->
  exists s', (s ← update_entry s n (fun e => with_cache e nullptr); delete_entry s n) = Ok s' /\
    well_formed s' p l /\ entries s' = delete n (entries s) /\ caches s' = caches s.
Proof.
  intros W He [Hl Hr].
  assert (Hws : exists ws,
    (s ← update_entry s n (fun e => with_cache e nullptr); delete_entry s n) =
      Ok (Store (pool s) (delete n (links s)) (delete n (entries s)) ws (caches s)) /\
    forall w, w = nullptr \/ w <> weak_state_ e -> ws !! w = weak_states s !! w).
  { unfold update_entry, delete_entry, load. rewrite He. cbn. rewrite lookup_insert_eq. cbn.
    destruct (Z.eqb_spec (weak_state_ e) nullptr) as [E|E].
    - eexists. cbn. rewrite delete_insert_eq. split; [reflexivity|auto].
    - destruct (wf_weak _ _ _ W n e He E) as (w & Hw & _). rewrite Hw. cbn.
      case_if; eexists; cbn; rewrite delete_insert_eq; (split; [reflexivity|]);
        intros x Hx; [apply lookup_insert_ne|apply lookup_delete_ne]; intuition congruence. }
  destruct Hws as (ws & E & Hws). eexists. split; [exact E|]. split; [|split; reflexivity].
  destruct W. destruct wf_head0 as [Hh Hh'].
  assert (Hn : n <> eviction_queue_ p) by congruence.
  split; cbn; eauto.
  - eapply ring_frame, wf_ring0. intros m Hm. unfold pointers. cbn.
    rewrite lookup_total_delete_ne; [reflexivity|]. intros ->. apply elem_of_cons in Hm as []; auto.
  - intros m e' [Hm He']%lookup_delete_Some. rewrite lookup_delete_ne by exact Hm. eauto.
  - intros m e' [Hm He']%lookup_delete_Some Hml. rewrite lookup_total_delete_ne by exact Hm.
    exact (wf_unlinked0 m e' He' Hml).
  - apply lookup_delete_None. auto.
  - rewrite !lookup_delete_ne by congruence. auto.
  - intros m Hm. destruct (wf_queued0 m Hm) as (e' & c' & He' & ?).
    exists e', c'. rewrite lookup_delete_ne by congruence. auto.
  - intros a c key m Ha Hm. destruct (wf_registered0 a c key m Ha Hm) as (e' & He' & ?).
    exists e'. rewrite lookup_delete_ne; [auto|]. intros ->. eapply Hr; eauto.
  - intros m e' [Hm He']%lookup_delete_Some Hw. destruct (wf_weak0 m e' He' Hw) as (w & Hw' & Ew).
    exists w. rewrite Hws; [auto|]. right. intros Ee.
    destruct (wf_weak0 n e He) as (w' & Hw'' & Ew'); [congruence|]. congruence.
Qed.

(** The buffer of entries to delete: [true] for an entry whose cache is to be deleted, too. *)
Record buffered (s : State) (l : list node) (buf : list (node * bool)) : Prop := {
  bf_nodup : NoDup buf.*1;
  bf_entry n d : (n, d) ∈ buf -> exists e, entries s !! n = Some e /\ detached s l n /\
    (d = true -> exists c, caches s !! cache_ e = Some c /\ pool_ c = true /\
       non_empty_shards c = [] /\ cache_reference_count_ c < kStrongReferenceIncrement);
  bf_distinct n m e e' : (n, true) ∈ buf -> (m, true) ∈ buf -> n <> m ->
    entries s !! n = Some e -> entries s !! m = Some e' -> cache_ e <> cache_ e';
}.

(** The pool but for its table of caches. *)
Definition same_pool (p p' : CachePoolImpl) : Prop :=
  total_bytes_limit p' = total_bytes_limit p /\ total_bytes_ p' = total_bytes_ p /\
  eviction_queue_ p' = eviction_queue_ p.

(** One iteration of [destroy_entries]. *)
Definition destroy_one (s : State) (x : node * bool) : Result State :=
  s ← (if x.2 then e ← load (entries s) x.1; c ← load (caches s) (cache_ e);
                 DestroyCache s (pool_ c) (cache_ e) else Ok s);
  s ← update_entry s x.1 (fun e => with_cache e nullptr);
  delete_entry s x.1.

Lemma destroy_entries_cons s x buf :
  destroy_entries s (x :: buf) = (s ← destroy_one s x; destroy_entries s buf).
Proof. destruct x. unfold destroy_entries, destroy_one. cbn. destruct b; reflexivity. Qed.

(** The cache of the entry, when it is to be deleted. *)
Lemma destroy_cache_of s p l n d e :
  well_formed s p l -> entries s !! n = Some e ->
  (d = true -> exists c, caches s !! cache_ e = Some c /\ pool_ c = true /\
     non_empty_shards c = [] /\ cache_reference_count_ c < kStrongReferenceIncrement) ->
  exists p' cs,
    (if d then e ← load (entries s) n; c ← load (caches s) (cache_ e);
               DestroyCache s (pool_ c) (cache_ e) else Ok s) = Ok (with_pool (with_caches s cs) p') /\
    well_formed (with_pool (with_caches s cs) p') p' l /\ same_pool p p' /\
    caches_without [] (caches s) cs /\ (forall a c, cs !! a = Some c -> caches s !! a = Some c) /\
    (forall a, (d = true -> a <> cache_ e) -> cs !! a = caches s !! a).
Proof.
  intros W En Hc. destruct d.
  - destruct (Hc eq_refl) as (c & Ec & Hp & Hne & Hst).
    destruct (DestroyCache_empty s p l (cache_ e) c W Ec Hne) as (p' & E & W' & ?).
    exists p', (delete (cache_ e) (caches s)). unfold load. rewrite En. cbn. rewrite Ec. cbn.
    rewrite Hp. split; [exact E|]. split; [exact W'|]. split; [assumption|].
    split; [eapply caches_without_delete; eauto using wf_caches|].
    split; [intros a c' [_ Ha]%lookup_delete_Some; exact Ha|].
    intros a Ha. apply lookup_delete_ne. symmetry. auto.
  - exists p, (caches s). assert (with_pool (with_caches s (caches s)) p = s) as ->
      by (destruct W, s; cbn in *; subst; reflexivity).
    split; [reflexivity|]. split; [exact W|]. split; [repeat split|].
    split; [apply caches_without_refl|]. auto.
Qed.

(** The rest of the buffer stays valid. *)
Lemma buffered_tail s s' l n d e buf :
  buffered s l ((n, d) :: buf) -> entries s !! n = Some e -> entries s' = delete n (entries s) ->
  (forall a c, caches s' !! a = Some c -> caches s !! a = Some c) ->
  (forall a, (d = true -> a <> cache_ e) -> caches s' !! a = caches s !! a) ->
  buffered s' l buf.
Proof.
  intros [Hnd He Hd] En Es' Hsub Hsame.
  cbn in Hnd. apply NoDup_cons in Hnd as [Hnn Hnd].
  assert (Hne : forall m b, (m, b) ∈ buf -> m <> n).
  { intros m b Hm ->. apply Hnn. apply list_elem_of_fmap. exists (n, b). auto. }
  split; [exact Hnd| |].
  - intros m b Hm. destruct (He m b) as (e' & Em & [Hml Hmr] & Hmc); [constructor; exact Hm|].
    exists e'. rewrite Es', lookup_delete_ne by (intros <-; eapply Hne; [eassumption|reflexivity]).
    split; [exact Em|]. split; [split; [exact Hml|eauto]|].
    intros ->. destruct (Hmc eq_refl) as (c & Ec & ?). exists c. rewrite Hsame; [auto|].
    intros ->. refine (Hd m n e' e _ _ _ Em En);
      [constructor; exact Hm|constructor|eapply Hne, Hm].
  - intros m m' e1 e2 H1 H2 Hmm E1 E2. rewrite Es' in E1, E2.
    apply lookup_delete_Some in E1 as [_ E1], E2 as [_ E2].
    refine (Hd m m' e1 e2 _ _ Hmm E1 E2); constructor; assumption.
Qed.

Lemma destroy_one_spec s p l n d buf :
  well_formed s p l -> buffered s l ((n, d) :: buf) ->
  exists s' p', destroy_one s (n, d) = Ok s' /\ well_formed s' p' l /\ same_pool p p' /\
    entries s' = delete n (entries s) /\ caches_without [] (caches s) (caches s') /\
    buffered s' l buf.
Proof.
  intros W B. destruct (bf_entry _ _ _ B n d) as (e & En & [Hnl Hnr] & Hc); [constructor|].
  destruct (destroy_cache_of s p l n d e W En Hc) as (p' & cs & E & W' & Hsp & Hcw & Hsub & Hsame).
  destruct (destroy_entry _ p' l n e W') as (s' & E' & W'' & Es' & Cs');
    [exact En|split; [exact Hnl|]; intros a c key Ha; cbn in Ha; eauto|].
  cbn in Es', Cs'. exists s', p'. unfold destroy_one. cbn [fst snd]. rewrite E. cbn [mbind Result_bind].
  split; [exact E'|]. split; [exact W''|]. split; [exact Hsp|]. split; [exact Es'|].
  rewrite Cs'. split; [exact Hcw|].
  apply (buffered_tail s s' l n d e buf B En Es'); rewrite Cs'; assumption.
Qed.

Lemma destroy_entries_spec buf : forall s p l,
  well_formed s p l -> buffered s l buf ->
  exists s' p', destroy_entries s buf = Ok s' /\ well_formed s' p' l /\ same_pool p p' /\
    (forall n, entries s' !! n = if bool_decide (n ∈ buf.*1) then None else entries s !! n) /\
    caches_without [] (caches s) (caches s').
Proof.
  induction buf as [|[n d] buf IH]; intros s p l W B.
  - exists s, p. split; [reflexivity|]. split; [exact W|]. split; [repeat split|].
    split; [|apply caches_without_refl]. intros n. rewrite bool_decide_false by (intros Hn; inversion Hn). reflexivity.
  - destruct (destroy_one_spec s p l n d buf W B) as (s1 & p1 & E1 & W1 & P1 & En1 & C1 & B1).
    destruct (IH s1 p1 l W1 B1) as (s2 & p2 & E2 & W2 & P2 & En2 & C2).
    exists s2, p2. rewrite destroy_entries_cons, E1. split; [exact E2|]. split; [exact W2|].
    split; [unfold same_pool in *; intuition congruence|]. split.
    + intros m. rewrite En2, En1. cbn. destruct (decide (m = n)) as [->|Hm].
      * rewrite lookup_delete_eq. rewrite (bool_decide_true (n ∈ n :: _)) by constructor. case_if; reflexivity.
      * rewrite lookup_delete_ne by congruence. rewrite (bool_decide_ext _ (m ∈ n :: buf.*1)); [reflexivity|]. rewrite elem_of_cons. tauto.
    + eapply (caches_without_trans [] []); eassumption.
Qed.
End Destroy.

(** * The eviction loop *)

Section Loop.
Context `{AbslHash}.

(** The front of the queue as an element of the buffer. *)
Definition evict_state (s : State) (e : CacheEntryImpl) (c : CacheImpl) : State :=
  with_caches s (<[cache_ e := erase c (key_ e)]> (caches s)).

(** Taking an idle entry off the front of the queue. *)
Lemma EvictEntry_idle_spec s p n e c l :
  well_formed s p (n :: l) -> entries s !! n = Some e -> caches s !! cache_ e = Some c ->
  registered c (key_ e) = Some n -> idle (entries s) n = true ->
  exists s' p', EvictEntry s n = Ok (s', Some (erase_deletes c (key_ e))) /\
    well_formed s' p' l /\ p' = with_total_bytes p (u64 (total_bytes_ p - num_bytes_ e)) /\
    entries s' = entries s /\ caches s' = <[cache_ e := erase c (key_ e)]> (caches s).
Proof.
  intros W He Hc Hr Hi. rewrite (EvictEntry_idle s n e c He Hc Hi).
  fold (evict_state s e c).
  assert (Hring : ring (evict_state s e c) (eviction_queue_ p) (n :: l))
    by (eapply ring_links, W; reflexivity).
  destruct (UnregisterEntryFromPool_front (evict_state s e c) p n e l) as (s' & E & Hr' & Hl & Hn);
    [apply W|exact Hring|exact He|].
  rewrite E. cbn [mbind Result_bind]. do 2 eexists. split; [reflexivity|].
  split; [|split; [reflexivity|]].
  - eapply well_formed_evict; eauto. apply Z.mod_pos_bound. reflexivity.
  - destruct Hl as [Hl _]. rewrite Hl. split; reflexivity.
Qed.

Lemma EvictEntry_in_use_spec s p n e c l :
  well_formed s p (n :: l) -> entries s !! n = Some e -> caches s !! cache_ e = Some c ->
  idle (entries s) n = false ->
  exists s', EvictEntry s n = Ok (s', None) /\ well_formed s' p l /\
    entries s' = entries s /\ caches s' = caches s.
Proof.
  intros W He Hc Hi. rewrite (EvictEntry_in_use s n e c He Hc Hi).
  destruct (UnlinkListNode_front s _ n l (wf_ring _ _ _ W)) as (s' & E & Hr & Hl & Hn).
  exists s'. rewrite E. split; [reflexivity|]. split; [eapply well_formed_unlink; eassumption|].
  destruct Hl as [Hl _]. rewrite Hl. split; reflexivity.
Qed.

Lemma buffered_shrink s s' l n buf :
  buffered s (n :: l) buf -> entries s' = entries s -> caches s' = caches s -> buffered s' l buf.
Proof.
  intros [Hnd He Hd] Ee Ec. split; [exact Hnd| |rewrite Ee; exact Hd].
  intros m b Hm. destruct (He m b Hm) as (e & Em & [Hl Hr] & Hc). exists e. rewrite Ee, Ec.
  split; [exact Em|]. split; [|exact Hc]. split; [|rewrite Ec; exact Hr].
  intros Hin. apply Hl. constructor. exact Hin.
Qed.

(** The evicted entry joins the buffer. *)
Lemma buffered_snoc s s' p n e c l buf :
  well_formed s p (n :: l) -> entries s !! n = Some e -> caches s !! cache_ e = Some c ->
  pool_ c = true -> registered c (key_ e) = Some n ->
  entries s' = entries s -> caches s' = <[cache_ e := erase c (key_ e)]> (caches s) ->
  buffered s (n :: l) buf -> buffered s' l (buf ++ [(n, erase_deletes c (key_ e))]).
Proof.
  intros W He Hc Hp Hr Ee Ec [Hnd Hb Hd].
  pose proof (wf_caches _ _ _ W _ _ Hc) as Hok.
  pose proof (ring_nodup _ _ _ (wf_ring _ _ _ W)) as [_ [Hn _]%NoDup_cons]%NoDup_cons.
  assert (Hnb : forall m b, (m, b) ∈ buf -> m <> n)
    by (intros m b Hm ->; destruct (Hb n b Hm) as (? & _ & [Hl _] & _); apply Hl; constructor).
  assert (Hother : forall m e', (m, true) ∈ buf -> entries s !! m = Some e' -> cache_ e' <> cache_ e).
  { intros m e' Hm Em Ea. destruct (Hb m true Hm) as (e'' & Em' & _ & Hmc).
    assert (e'' = e') as -> by congruence. destruct (Hmc eq_refl) as (c' & Ec' & _ & Hne & _).
    assert (c' = c) as -> by congruence. exact (registered_non_empty c _ n Hok Hr Hne). }
  split.
  - rewrite fmap_app. apply NoDup_app. split; [exact Hnd|]. split; [|apply NoDup_singleton].
    intros m Hm Hm'%list_elem_of_singleton. cbn in Hm'. subst m.
    apply list_elem_of_fmap in Hm as ([m b] & -> & Hm). exact (Hnb _ _ Hm eq_refl).
  - intros m b Hm. apply elem_of_app in Hm as [Hm|Hm%list_elem_of_singleton].
    + destruct (Hb m b Hm) as (e' & Em & [Hml Hmr] & Hmc). exists e'. rewrite Ee.
      split; [exact Em|]. split.
      * split; [intros Hin; apply Hml; constructor; exact Hin|]. intros a c' key. rewrite Ec.
        intros [[<- <-]|[_ Ha]]%lookup_insert_Some; [|eauto].
        rewrite registered_erase by exact Hok. case_bool_decide; [discriminate|eauto].
      * intros ->. destruct (Hmc eq_refl) as (c' & Ec' & ?). exists c'.
        rewrite Ec, lookup_insert_ne by (apply not_eq_sym; eauto). auto.
    + injection Hm as -> ->. exists e. rewrite Ee, Ec. split; [exact He|]. split.
      * split; [exact Hn|]. intros a c' key. rewrite Ec.
        intros [[<- <-]|[Hne Ha]]%lookup_insert_Some.
        -- rewrite registered_erase by exact Hok. case_bool_decide as Hk; [discriminate|].
           intros Hm. destruct (wf_registered _ _ _ W _ _ _ _ Hc Hm) as (? & ? & _ & ?). congruence.
        -- intros Hm. destruct (wf_registered _ _ _ W _ _ _ _ Ha Hm) as (? & ? & ? & _). congruence.
      * intros Hdel. exists (erase c (key_ e)). rewrite lookup_insert_eq.
        split; [reflexivity|]. split; [unfold erase; case_if; exact Hp|].
        eapply erase_deletes_empty; eassumption.
  - intros m m' e1 e2 H1 H2 Hne. rewrite Ee. intros E1 E2.
    apply elem_of_app in H1 as [H1|H1%list_elem_of_singleton];
      apply elem_of_app in H2 as [H2|H2%list_elem_of_singleton].
    + eauto.
    + injection H2 as -> _. assert (e2 = e) as -> by congruence. eauto.
    + injection H1 as -> _. assert (e1 = e) as -> by congruence. apply not_eq_sym. eauto.
    + congruence.
Qed.

Lemma buffered_nil s l : buffered s l [].
Proof. split; [apply NoDup_nil_2| |]; intros; exfalso; eapply not_elem_of_nil; eassumption. Qed.

(** ** The specification of the loop

    [k] entries are taken off the queue; [es] are the entries as they were at first. *)
Record eviction (es : gmap node CacheEntryImpl) (total : Z) (p : CachePoolImpl) (l : list node)
    (k : nat) (s' : State) (p' : CachePoolImpl) : Prop := {
  ev_wf : well_formed s' p' (drop k l);
  ev_limit : total_bytes_limit p' = total_bytes_limit p;
  ev_total : total_bytes_ p' = u64 (total - total_of es (victims es k l));
  ev_done : total_bytes_ p' <= total_bytes_limit p \/ drop k l = [];
  ev_needed j : (j < k)%nat ->
    total_bytes_limit p < u64 (total - total_of es (victims es j l));
}.

Lemma total_of_nil es : total_of es [] = 0.
Proof. reflexivity. Qed.

Lemma u64_sub_sub t a b : u64 (u64 (t - a) - b) = u64 (t - (a + b)).
Proof. unfold u64. rewrite Zminus_mod_idemp_l. f_equal. lia. Qed.

Lemma eviction_zero es p l s' p' :
  well_formed s' p' l -> same_pool p p' -> in_u64 (total_bytes_ p) ->
  total_bytes_ p <= total_bytes_limit p \/ l = [] ->
  eviction es (total_bytes_ p) p l 0 s' p'.
Proof.
  intros W (El & Et & _) Hu Hd. split; [exact W|exact El| | |lia].
  - rewrite Et. unfold victims. cbn. rewrite Z.sub_0_r. symmetry. apply Z.mod_small, Hu.
  - rewrite Et. exact Hd.
Qed.

(** One more entry at the front, in use or not. *)
Lemma eviction_cons es p p1 n l k s' p' :
  in_u64 (total_bytes_ p) -> total_bytes_limit p < total_bytes_ p ->
  total_bytes_limit p1 = total_bytes_limit p ->
  total_bytes_ p1 = u64 (total_bytes_ p - total_of es (List.filter (idle es) [n])) ->
  eviction es (total_bytes_ p1) p1 l k s' p' ->
  eviction es (total_bytes_ p) p (n :: l) (S k) s' p'.
Proof.
  intros Hu Hlt El Et [Hw Hl Ht Hd Hn].
  assert (Hv : forall j, u64 (total_bytes_ p1 - total_of es (victims es j l)) =
                         u64 (total_bytes_ p - total_of es (victims es (S j) (n :: l)))).
  { intros j. rewrite Et. rewrite u64_sub_sub. unfold victims. cbn [take List.filter].
    unfold total_of. destruct (idle es n); cbn; apply f_equal; lia. }
  split.
  - exact Hw.
  - congruence.
  - rewrite Ht. apply Hv.
  - rewrite <- El. exact Hd.
  - intros [|j] Hj.
    + unfold victims. cbn. rewrite Z.sub_0_r. unfold u64. rewrite Z.mod_small; assumption.
    + rewrite <- Hv, <- El. apply Hn. lia.
Qed.

Definition loop_result (es : gmap node CacheEntryImpl) (fuel : nat) (s : State) (p : CachePoolImpl)
    (l : list node) (buf : list (node * bool)) : Prop :=
  exists s' p' k, EvictLoop fuel s buf = Ok s' /\
    eviction es (total_bytes_ p) p l k s' p' /\
    (forall n, entries s' !! n =
       if bool_decide (n ∈ buf.*1 ++ victims es k l) then None else entries s !! n) /\
    caches_without (victims es k l) (caches s) (caches s').

(** The loop ends: under the limit, or with an empty queue. *)
Lemma EvictLoop_ends es fuel s p l buf :
  well_formed s p l -> buffered s l buf -> (length l < fuel)%nat ->
  total_bytes_ p <= total_bytes_limit p \/ l = [] -> loop_result es fuel s p l buf.
Proof.
  intros W B Hf Hd.
  destruct (destroy_entries_spec buf s p l W B) as (s' & p' & E & W' & P & En & C).
  exists s', p', 0%nat. split.
  - destruct fuel as [|fuel]; [lia|]. cbn. unfold the_pool. rewrite (wf_pool _ _ _ W). cbn.
    case_if; bool_to_prop; [|exact E]. destruct Hd as [Hd| ->]; [lia|].
    pose proof (ring_head _ _ _ (wf_ring _ _ _ W)) as Eh. cbn in Eh. rewrite Eh, Z.eqb_refl. exact E.
  - split; [apply eviction_zero; try assumption; apply W|]. split; [|exact C].
    intros n. rewrite En. unfold victims. cbn. rewrite app_nil_r. reflexivity.
Qed.

(** One iteration over the limit. *)
Lemma EvictLoop_step fuel s s1 p n l buf evicted :
  well_formed s p (n :: l) -> total_bytes_limit p < total_bytes_ p ->
  EvictEntry s n = Ok (s1, evicted) ->
  EvictLoop (S fuel) s buf =
    match evicted with
    | None => EvictLoop fuel s1 buf
    | Some d =>
        if bool_decide (length (buf ++ [(n, d)]) = kBufferSize)
        then s ← destroy_entries s1 (buf ++ [(n, d)]); EvictLoop fuel s []
        else EvictLoop fuel s1 (buf ++ [(n, d)])
    end.
Proof.
  intros W Hlt E. destruct (ring_front _ _ _ _ (wf_ring _ _ _ W)) as [Eh Hh].
  cbn [EvictLoop]. unfold the_pool. rewrite (wf_pool _ _ _ W). cbn [mbind Result_bind].
  rewrite (proj2 (Z.ltb_lt _ _) Hlt), Eh, (proj2 (Z.eqb_neq _ _) Hh), E. reflexivity.
Qed.

(** The front of the queue is in use. *)
Lemma EvictLoop_unlinks es fuel s s1 p n l buf :
  well_formed s p (n :: l) -> total_bytes_limit p < total_bytes_ p ->
  idle es n = false -> EvictEntry s n = Ok (s1, None) ->
  entries s1 = entries s -> caches s1 = caches s ->
  loop_result es fuel s1 p l buf -> loop_result es (S fuel) s p (n :: l) buf.
Proof.
  intros W Hlt Hi E Ee Ec (s' & p' & k & E' & V & En & C).
  assert (Hv : victims es (S k) (n :: l) = victims es k l)
    by (unfold victims; cbn; rewrite Hi; reflexivity).
  exists s', p', (S k). split; [|split; [|rewrite Hv, <- Ec; split; [intros m; rewrite En, Ee; reflexivity|exact C]]].
  - rewrite (EvictLoop_step _ _ _ _ _ _ _ _ W Hlt E). exact E'.
  - eapply eviction_cons; [apply W|exact Hlt|reflexivity| |exact V].
    cbn. rewrite Hi. cbn. rewrite Z.sub_0_r. symmetry. apply Z.mod_small, W.
Qed.

(** The front of the queue is evicted: the buffer grows, or is emptied. *)
Lemma EvictLoop_evicts es fuel s s1 p p1 n d e l buf :
  well_formed s p (n :: l) -> total_bytes_limit p < total_bytes_ p ->
  idle es n = true -> es !! n = Some e -> EvictEntry s n = Ok (s1, Some d) ->
  well_formed s1 p1 l -> p1 = with_total_bytes p (u64 (total_bytes_ p - num_bytes_ e)) ->
  entries s1 = entries s -> caches_without [n] (caches s) (caches s1) ->
  buffered s1 l (buf ++ [(n, d)]) -> (length buf < kBufferSize)%nat ->
  (forall s2 p2 buf2, well_formed s2 p2 l -> buffered s2 l buf2 -> same_pool p1 p2 ->
     (length buf2 < kBufferSize)%nat -> (forall m, m ∈ l -> entries s2 !! m = entries s1 !! m) ->
     loop_result es fuel s2 p2 l buf2) ->
  loop_result es (S fuel) s p (n :: l) buf.
Proof.
  intros W Hlt Hi He E W1 Ep Ee C1 B1 Hb IH.
  assert (Hv : forall k, victims es (S k) (n :: l) = n :: victims es k l)
    by (intros k; unfold victims; cbn; rewrite Hi; reflexivity).
  pose proof (EvictLoop_step fuel _ _ _ _ _ buf _ W Hlt E) as Hl. cbv iota in Hl.
  assert (Hcons : forall s' p' p2 k, same_pool p1 p2 -> eviction es (total_bytes_ p2) p2 l k s' p' ->
                  eviction es (total_bytes_ p) p (n :: l) (S k) s' p').
  { intros s' p' p2 k (El & Et & _) V. eapply eviction_cons; [apply W|exact Hlt| | |exact V].
    - rewrite El, Ep. reflexivity.
    - rewrite Et, Ep. cbn. rewrite Hi. cbn. unfold bytes. rewrite He, Z.add_0_r. reflexivity. }
  case_bool_decide as Hfull.
  - destruct (destroy_entries_spec _ s1 p1 l W1 B1) as (s2 & p2 & E2 & W2 & P2 & En2 & C2).
    destruct (IH s2 p2 [] W2) as (s' & p' & k & E' & V & En & C).
    + apply buffered_nil.
    + exact P2.
    + unfold kBufferSize. cbn. lia.
    + intros m Hm. rewrite En2, bool_decide_false; [reflexivity|]. intros Hin.
      apply list_elem_of_fmap in Hin as ([m' b] & -> & Hin).
      destruct (bf_entry _ _ _ B1 _ _ Hin) as (? & _ & [Hml _] & _). exact (Hml Hm).
    + exists s', p', (S k). rewrite Hl, E2. split; [exact E'|]. split; [eapply Hcons; eassumption|].
      rewrite Hv. split.
      * intros m. rewrite En, En2, Ee. rewrite fmap_app. cbn.
        rewrite (bool_decide_ext (m ∈ buf.*1 ++ n :: victims es k l)
                   (m ∈ victims es k l \/ m ∈ buf.*1 ++ [n]))
          by (rewrite !elem_of_app, elem_of_cons, list_elem_of_singleton; tauto).
        repeat case_bool_decide; try tauto; reflexivity.
      * eapply (caches_without_trans [n]); [exact C1|].
        eapply (caches_without_trans []); [exact C2|exact C].
  - destruct (IH s1 p1 (buf ++ [(n, d)]) W1 B1) as (s' & p' & k & E' & V & En & C).
    + repeat split.
    + rewrite length_app in *. cbn in *. lia.
    + reflexivity.
    + exists s', p', (S k). rewrite Hl. split; [exact E'|].
      split; [eapply Hcons; [repeat split|exact V]|]. rewrite Hv. split.
      * intros m. rewrite En, Ee, fmap_app, <- app_assoc. reflexivity.
      * eapply (caches_without_trans [n]); eassumption.
Qed.

Lemma EvictLoop_spec es l : forall fuel s p buf,
  well_formed s p l -> buffered s l buf -> (length buf < kBufferSize)%nat ->
  (length l < fuel)%nat -> (forall n, n ∈ l -> entries s !! n = es !! n) ->
  loop_result es fuel s p l buf.
Proof.
  induction l as [|n l IH]; intros fuel s p buf W B Hb Hf Hes; [apply EvictLoop_ends; auto|].
  destruct (Z.le_gt_cases (total_bytes_ p) (total_bytes_limit p)) as [Hle|Hlt];
    [apply EvictLoop_ends; auto|].
  destruct fuel as [|fuel]; [cbn in Hf; lia|]. cbn in Hf.
  destruct (wf_queued _ _ _ W n) as (e & c & He & Hc & Hp & Hr); [constructor|].
  assert (Hn : es !! n = Some e) by (rewrite <- Hes; [exact He|constructor]).
  assert (Hes' : forall m, m ∈ l -> entries s !! m = es !! m) by (intros m Hm; apply Hes; constructor; exact Hm).
  assert (Hidle : idle es n = idle (entries s) n) by (unfold idle; rewrite Hn, He; reflexivity).
  destruct (idle (entries s) n) eqn:Hi.
  - destruct (EvictEntry_idle_spec s p n e c l W He Hc Hr Hi) as (s1 & p1 & E & W1 & Ep & Ee & Ec).
    eapply EvictLoop_evicts; try eassumption.
    + rewrite Ec. eapply caches_without_erase; eassumption.
    + eapply buffered_snoc; eassumption.
    + intros s2 p2 buf2 W2 B2 _ Hb2 Hs2. apply IH; try assumption; [lia|].
      intros m Hm. rewrite Hs2, Ee by exact Hm. apply Hes', Hm.
  - destruct (EvictEntry_in_use_spec s p n e c l W He Hc Hi) as (s1 & E & W1 & Ee & Ec).
    eapply EvictLoop_unlinks; try eassumption. apply IH; try assumption.
    + eapply buffered_shrink; eassumption.
    + lia.
    + intros m Hm. rewrite Ee. apply Hes', Hm.
Qed.
End Loop.

(** * Queueing a released entry *)

Section Release.
Context `{AbslHash}.

Lemma relinked_InsertBefore (s s' : State) existing new :
  InsertBefore s existing new = Ok s' -> relinked s s'.
Proof.
  unfold InsertBefore. intros (p & _ & [= <-])%bind_Ok.
  eapply relinked_trans; [|apply relinked_SetPrev].
  eapply relinked_trans; [|apply relinked_SetNext].
  eapply relinked_trans; [apply relinked_SetPrev|apply relinked_SetNext].
Qed.

(** The queue without a node. *)
Definition without (n : node) (l : list node) : list node := filter (fun m => m <> n) l.

Lemma without_absent n l : n ∉ l -> without n l = l.
Proof.
  unfold without. induction l as [|m l IH]; [reflexivity|]. rewrite elem_of_cons. intros Hn.
  rewrite filter_cons, decide_True by (intros ->; tauto). rewrite IH by tauto. reflexivity.
Qed.

Lemma without_middle n l1 l2 : NoDup (l1 ++ n :: l2) -> without n (l1 ++ n :: l2) = l1 ++ l2.
Proof.
  intros (_ & Hd & Hn)%NoDup_app. apply NoDup_cons in Hn as [Hn _].
  unfold without. rewrite filter_app, filter_cons, decide_False by tauto.
  f_equal; apply without_absent; [|exact Hn]. intros Hm. apply (Hd n Hm). constructor.
Qed.

Lemma elem_of_without m n l : m ∈ without n l <-> m <> n /\ m ∈ l.
Proof. unfold without. rewrite list_elem_of_filter. tauto. Qed.

(** A node of the queue is taken out of it; another node is left alone. *)
Lemma unqueue s p l n e : well_formed s p l -> entries s !! n = Some e ->
  exists s', (if negb (OnlyContainsNode s n) then Remove s n else Ok s) = Ok s' /\
    ring s' (eviction_queue_ p) (without n l) /\ relinked s s' /\
    forall m, m <> n -> m ∉ eviction_queue_ p :: l -> pointers s' m = pointers s m.
Proof.
  intros W He. pose proof (wf_ring _ _ _ W) as Hr.
  destruct (decide (n ∈ l)) as [Hin|Hin].
  - apply list_elem_of_split in Hin as (l1 & l2 & ->).
    destruct (Remove_ring s _ l1 n l2 Hr) as (s' & E & Hr' & Hf).
    pose proof (ring_nodup _ _ _ Hr) as [Hh Hd]%NoDup_cons.
    assert (Ho : OnlyContainsNode s n = false).
    { unfold OnlyContainsNode. apply Z.eqb_neq. rewrite (proj2 (ring_pointers _ _ _ _ _ Hr)).
      apply NoDup_app in Hd as (_ & _ & [Hd _]%NoDup_cons).
      destruct l2; cbn; intros E'; [apply Hh; rewrite E'; apply elem_of_app; right|apply Hd; rewrite E'];
        constructor. }
    exists s'. rewrite Ho, without_middle by exact Hd. split; [exact E|]. split; [exact Hr'|].
    split; [eapply relinked_Remove, E|]. intros m _ Hm. apply Hf.
    intros Hm'. apply Hm. revert Hm'. rewrite !elem_of_cons, !elem_of_app, elem_of_cons. tauto.
  - exists s. unfold OnlyContainsNode. rewrite (wf_unlinked _ _ _ W n e He Hin), Z.eqb_refl.
    rewrite without_absent by exact Hin.
    split; [reflexivity|]. split; [exact Hr|]. split; [apply relinked_refl|]. reflexivity.
Qed.

Lemma AddToEvictionQueue_spec s p l n e c :
  well_formed s p l -> entries s !! n = Some e -> caches s !! cache_ e = Some c ->
  pool_ c = true -> registered c (key_ e) = Some n ->
  exists s', AddToEvictionQueue s n = Ok s' /\ well_formed s' p (without n l ++ [n]) /\
    entries s' = entries s /\ caches s' = caches s.
Proof.
  intros W He Hc Hp Hr. destruct (unqueue s p l n e W He) as (s1 & E1 & R1 & L1 & P1).
  destruct (wf_head _ _ _ W) as [_ Hh].
  assert (Hnh : n ∉ eviction_queue_ p :: without n l)
    by (rewrite elem_of_cons, elem_of_without; intros [->|[]]; congruence).
  assert (Hn0 : n <> nullptr) by (intros ->; rewrite (wf_null _ _ _ W) in He; discriminate).
  destruct (InsertBefore_ring s1 _ _ n R1 Hnh Hn0) as (s2 & E2 & R2 & P2).
  exists s2. unfold AddToEvictionQueue, the_pool. rewrite (wf_pool _ _ _ W). cbn [mbind Result_bind].
  rewrite E1. split; [exact E2|].
  destruct (relinked_trans _ _ _ L1 (relinked_InsertBefore _ _ _ _ E2)) as [Es Hl].
  assert (Hu : forall m e', entries s !! m = Some e' -> m ∉ without n l ++ [n] -> GetNext s2 m = m).
  { intros m e' Em Hm. rewrite elem_of_app, elem_of_without, list_elem_of_singleton in Hm.
    assert (m <> eviction_queue_ p) by congruence.
    transitivity (GetNext s1 m).
    - assert (Hm2 : m ∉ eviction_queue_ p :: n :: without n l)
        by (rewrite !elem_of_cons, elem_of_without; tauto).
      specialize (P2 m Hm2). unfold pointers in P2. congruence.
    - transitivity (GetNext s m); [|eapply wf_unlinked; [exact W|exact Em|tauto]].
      assert (Hm1 : m ∉ eviction_queue_ p :: l) by (rewrite elem_of_cons; tauto).
      specialize (P1 m ltac:(tauto) Hm1). unfold pointers in P1. congruence. }
  rewrite Es in *. destruct W. destruct wf_head0. split; [|split; reflexivity].
  split; cbn in *; eauto.
  intros m [Hm|Hm%list_elem_of_singleton]%elem_of_app; [apply elem_of_without in Hm as []; auto|].
  subst m. exists e, c. auto.
Qed.

(** The reference count of an entry does not matter. *)
Lemma well_formed_count s p l n e count : well_formed s p l -> entries s !! n = Some e ->
  well_formed (with_entries s (<[n := with_count e count]> (entries s))) p l.
Proof.
  intros [] He.
  assert (Hi : forall m e', <[n := with_count e count]> (entries s) !! m = Some e' ->
    exists e0, entries s !! m = Some e0 /\ cache_ e' = cache_ e0 /\ key_ e' = key_ e0 /\
      weak_state_ e' = weak_state_ e0).
  { intros m e' [[<- <-]|[_ Hm]]%lookup_insert_Some; eauto 6. }
  assert (Ho : forall m e0, entries s !! m = Some e0 ->
    exists e', <[n := with_count e count]> (entries s) !! m = Some e' /\ cache_ e' = cache_ e0 /\ key_ e' = key_ e0).
  { intros m e0 Hm. destruct (decide (m = n)) as [->|Hne].
    - exists (with_count e count). rewrite lookup_insert_eq. assert (e0 = e) as -> by congruence. auto.
    - exists e0. rewrite lookup_insert_ne by congruence. auto. }
  assert (Hx : forall m, entries s !! m = None -> <[n := with_count e count]> (entries s) !! m = None)
    by (intros m Hm; rewrite lookup_insert_ne; congruence).
  destruct wf_head0. split; cbn; eauto.
  - eapply ring_links, wf_ring0. reflexivity.
  - intros m e' (e0 & Hm & _)%Hi. eauto.
  - intros m e' (e0 & Hm & _)%Hi. exact (wf_unlinked0 m e0 Hm).
  - intros m Hm. destruct (wf_queued0 m Hm) as (e0 & c & Em & Hc & Hp & Hr).
    destruct (Ho m e0 Em) as (e' & Em' & Ec & Ek). exists e', c. rewrite Ec, Ek. auto.
  - intros a c key m Ha Hm. destruct (wf_registered0 a c key m Ha Hm) as (e0 & Em & <- & <-).
    destruct (Ho m e0 Em) as (e' & ?). eauto.
  - intros m e' (e0 & Em & _ & _ & Ew)%Hi Hw. rewrite Ew in *. eauto.
Qed.

Lemma queue_size s p l : well_formed s p l -> (length l <= size (links s))%nat.
Proof.
  intros W. pose proof (ring_nodup _ _ _ (wf_ring _ _ _ W)) as [_ Hd]%NoDup_cons.
  rewrite <- size_dom, <- (size_list_to_set (C := gset node) l) by exact Hd.
  apply subseteq_size. intros m Hm%elem_of_list_to_set. apply elem_of_dom.
  destruct (wf_queued _ _ _ W m Hm) as (e & _ & He & _). eapply wf_links; eassumption.
Qed.

(** What eviction does to the store. *)
Record evicted (s : State) (p : CachePoolImpl) (l : list node) (k : nat) (s' : State)
    (p' : CachePoolImpl) : Prop := {
  ev_queue : eviction (entries s) (total_bytes_ p) p l k s' p';
  ev_entries n : entries s' !! n =
    if bool_decide (n ∈ victims (entries s) k l) then None else entries s !! n;
  ev_caches : caches_without (victims (entries s) k l) (caches s) (caches s');
}.

Lemma MaybeEvictEntries_spec s p l : well_formed s p l ->
  exists s' p' k, MaybeEvictEntries s = Ok s' /\ evicted s p l k s' p'.
Proof.
  intros W.
  destruct (EvictLoop_spec (entries s) l (S (size (links s))) s p [] W (buffered_nil s l)) as (s' & p' & k & E & V & En & C).
  - unfold kBufferSize. cbn. lia.
  - pose proof (queue_size s p l W). lia.
  - reflexivity.
  - exists s', p', k. split; [exact E|]. split; assumption.
Qed.

(** * Properties *)

(** C23: eviction terminates and does what an LRU cache has to: in every well-formed store,
    the loop reaches its end within the fuel, without a null pointer and without an access
    to an object that was deleted, even when caches are destroyed on the way and the buffer
    is emptied several times.  It takes a prefix of the queue off, no longer than necessary;
    the entries of the prefix without references are deleted and subtracted from the total,
    the ones in use stay; afterwards the total is within the limit or the queue is empty.
    Caches lose exactly these entries, and only caches that nobody holds and that have no
    entries left are deleted.  The store is well-formed again, so that the table of the
    pool has no pointer to a deleted cache and no count of non-empty shards is off. *)
Theorem evict_correct s p l : well_formed s p l ->
  exists s' p' k, MaybeEvictEntries s = Ok s' /\
    let gone := victims (entries s) k l in
    well_formed s' p' (drop k l) /\ total_bytes_limit p' = total_bytes_limit p /\
    total_bytes_ p' = u64 (total_bytes_ p - total_of (entries s) gone) /\
    (total_bytes_ p' <= total_bytes_limit p \/ drop k l = []) /\
    (forall j, (j < k)%nat ->
       total_bytes_limit p < u64 (total_bytes_ p - total_of (entries s) (victims (entries s) j l))) /\
    (forall n, entries s' !! n = if bool_decide (n ∈ gone) then None else entries s !! n) /\
    caches_without gone (caches s) (caches s').
Proof.
  intros W. destruct (MaybeEvictEntries_spec s p l W) as (s' & p' & k & E & [[] Hn Hc]).
  exists s', p', k. cbn. auto 10.
Qed.

(** C26: releasing a strong reference to an entry of a pool with a size limit.  While
    references remain, only the count changes, and the reference to the cache is given up
    with the last strong one.  When the last reference of either kind goes, the entry
    becomes the most recently used of the queue, also when it was still in the queue from
    an earlier release, and eviction runs on that queue, in which the entry itself may be
    a victim. *)
Theorem ReleaseEntry_correct s p l n e c :
  well_formed s p l -> entries s !! n = Some e -> caches s !! cache_ e = Some c ->
  pool_ c = true -> registered c (key_ e) = Some n ->
  HasLruCache p = true -> 2 <= reference_count_ e < u32_modulus ->
  let s0 := with_entries s (<[n := with_count e (reference_count_ e - 2)]> (entries s)) in
  if reference_count_ e =? 2
  then exists s1 s' p' k, ReleaseEntry s n = Ok (s', true) /\
    entries s1 = entries s0 /\ caches s1 = caches s0 /\
    evicted s1 p (without n l ++ [n]) k s' p'
  else ReleaseEntry s n = Ok (s0, reference_count_ e =? 3) /\ well_formed s0 p l.
Proof.
  intros W He Hc Hp Hr Hl Hcount s0.
  assert (Hd : DecrementReferenceCountWithLock u32 (reference_count_ e) 2 1 =
               (reference_count_ e - 2, reference_count_ e <=? 3)).
  { unfold DecrementReferenceCountWithLock, u32. rewrite Z.mod_small by lia. cbn.
    destruct (Z.leb_spec (reference_count_ e) 3); decide_comparisons; reflexivity. }
  pose proof (well_formed_count s p l n e (reference_count_ e - 2) W He) as W0. fold s0 in W0.
  assert (E : ReleaseEntry s n =
    if negb (reference_count_ e <=? 3) then Ok (s0, false)
    else if negb (reference_count_ e - 2 =? 0) then Ok (s0, true)
    else s1 ← AddToEvictionQueue s0 n; s2 ← MaybeEvictEntries s1; Ok (s2, true)).
  { unfold ReleaseEntry, update_entry, load, the_pool. rewrite He. cbn [mbind Result_bind].
    rewrite Hc. cbn [mbind Result_bind]. rewrite Hp, (wf_pool _ _ _ W). cbn [mbind Result_bind].
    rewrite Hd. fold s0. unfold HasLruCache in Hl. apply negb_true_iff in Hl. rewrite Hl.
    reflexivity. }
  rewrite E. destruct (Z.eqb_spec (reference_count_ e) 2) as [E2|E2].
  - rewrite E2. cbn [Z.leb Z.compare Pos.compare Pos.compare_cont negb Z.sub Z.add Z.opp Z.pos_sub Z.eqb].
    destruct (AddToEvictionQueue_spec s0 p l n (with_count e (reference_count_ e - 2)) c W0)
      as (s1 & E1 & W1 & En1 & Ec1); [apply lookup_insert_eq|assumption..|].
    destruct (MaybeEvictEntries_spec s1 p _ W1) as (s' & p' & k & E' & V).
    exists s1, s', p', k. rewrite E1. cbn [mbind Result_bind]. rewrite E'.
    split; [reflexivity|]. auto.
  - split; [|exact W0].
    destruct (Z.leb_spec (reference_count_ e) 3); cbn [negb]; decide_comparisons; reflexivity.
Qed.
End Release.

(** * A store in which the limit is exceeded *)

Module Sample.
Definition hash : AbslHash := fun key => Z.of_nat (String.length key).
#[export] Existing Instance hash.

Definition cache : CacheImpl :=
  Cache true 7 "images" (packed 2 2 true)
    [∅; {["a" := 10; "b" := 11]}; {["cc" := 12]}; ∅; ∅; ∅; ∅; ∅].
Definition pool : CachePoolImpl := CachePool 100 140 1 {[(7, "images") := 2]} 1 2.
Definition store : State :=
  Store (Some pool)
    {[1 := LruNode 10 11; 10 := LruNode 11 1; 11 := LruNode 1 10; 12 := LruNode 12 12]}
    {[10 := CacheEntry 2 "a" 60 0 true 0 nullptr; 11 := CacheEntry 2 "b" 30 0 true 0 nullptr;
      12 := CacheEntry 2 "cc" 50 2 true 0 nullptr]}
    ∅ {[2 := cache]}.
Definition queue : list node := [10; 11].
End Sample.
Import (hints) Sample.

(** Cases on a lookup in a concrete map. *)
Ltac lookup_cases H :=
  try unfold Sample.store, Sample.pool in H; cbn [entries caches caches_] in H;
  first [apply lookup_insert_Some in H as [[? ?]|[_ H]]; [subst|lookup_cases H]
        |apply lookup_singleton_Some in H as [? ?]; subst
        |rewrite lookup_empty in H; discriminate H].

Lemma sample_registered key n : registered Sample.cache key = Some n ->
  exists e, entries Sample.store !! n = Some e /\ cache_ e = 2 /\ key_ e = key.
Proof.
  unfold registered, ShardForKey. pose proof (shard_index_lt key) as Hi.
  destruct (shard_index key) as [|[|[|[|[|[|[|[|i]]]]]]]]; [..|unfold kNumShards in Hi; lia];
    cbn [Sample.cache shards_ lookup_total list_lookup_total]; intros Hn; lookup_cases Hn;
    eexists; (split; [vm_compute; reflexivity|split; reflexivity]).
Qed.

Lemma sample_well_formed : well_formed Sample.store Sample.pool Sample.queue.
Proof.
  split.
  - reflexivity.
  - vm_compute. split; [discriminate|reflexivity].
  - split; [|split; [|vm_compute; auto]]; apply (bool_decide_unpack _); vm_compute; exact I.
  - intros n e He. lookup_cases He; vm_compute; eauto.
  - intros n e He Hn. lookup_cases He; try reflexivity; exfalso; apply Hn; vm_compute; repeat constructor.
  - reflexivity.
  - split; [vm_compute; eauto|reflexivity].
  - intros n Hn. unfold Sample.queue in Hn.
    rewrite elem_of_cons, list_elem_of_singleton in Hn.
    destruct Hn as [->| ->]; do 2 eexists; (split; [vm_compute; reflexivity|]); vm_compute; auto.
  - intros a c key n Ha. lookup_cases Ha. apply sample_registered.
  - intros a c Ha. lookup_cases Ha. split; [reflexivity|]. exists 2, true.
    split; [lia|]. split; reflexivity.
  - intros key a Ha. lookup_cases Ha. eexists. split; [reflexivity|]. split; [reflexivity|discriminate].
  - intros n e He Hw. lookup_cases He; contradiction Hw; reflexivity.
Qed.

Lemma evict_correct_witness :
  well_formed Sample.store Sample.pool Sample.queue /\
  exists s' p' k, MaybeEvictEntries Sample.store = Ok s' /\ well_formed s' p' (drop k Sample.queue) /\
    total_bytes_ p' = u64 (140 - total_of (entries Sample.store) (victims (entries Sample.store) k Sample.queue)).
Proof.
  split; [exact sample_well_formed|].
  destruct (evict_correct Sample.store Sample.pool Sample.queue sample_well_formed)
    as (s' & p' & k & E & W & _ & Ht & _).
  exists s', p', k. split; [exact E|]. split; [exact W|exact Ht].
Defined.

Lemma ReleaseEntry_correct_witness :
  exists s1 s' p' k, ReleaseEntry Sample.store 12 = Ok (s', true) /\
    evicted s1 Sample.pool [10; 11; 12] k s' p'.
Proof.
  destruct (ReleaseEntry_correct Sample.store Sample.pool Sample.queue 12
              (CacheEntry 2 "cc" 50 2 true 0 nullptr) Sample.cache sample_well_formed
              eq_refl eq_refl eq_refl eq_refl eq_refl
              (conj (Z.le_refl 2) eq_refl))
    as (s1 & s' & p' & k & E & _ & _ & V).
  exists s1, s', p', k. split; [exact E|exact V].
Defined.

(** Evicting the least recently used entry is enough here. *)
Example evict_sample :
  (s ← MaybeEvictEntries Sample.store; p ← the_pool s; Ok (total_bytes_ p, (map_to_list (entries s)).*1))
    = Ok (80, [11; 12]).
Proof. vm_compute. reflexivity. Qed.

(** A cache without an identifier does not carry the bit of the pool: it is deleted with its
    last strong reference although its count is not zero and the pool is alive. *)
Example unnamed_cache_deleted :
  (let s := CachePool_Make 100 1 in
   '(s, c) ← GetCacheInternal s true 7 EmptyString 2;
   '(s, n) ← GetCacheEntryInternal s c "a" 10 60;
   s ← CacheEntry_decrement s n;
   old ← load (caches s) c;
   '(s', counts) ← DecrementCacheReferenceCount s c kStrongReferenceIncrement;
   Ok (cache_reference_count_ old, counts.2, should_delete counts)) =
  Ok (packed 1 1 false, 2, true).
Proof. vm_compute. reflexivity. Qed.

(** Two entries, one evicted, one found again; in the end everything is freed. *)
Example all_freed :
  (let s := CachePool_Make 100 1 in
   '(s, c) ← GetCacheInternal s true 7 "images" 2;
   '(s, a) ← GetCacheEntryInternal s c "a" 10 60;
   '(s, w) ← AcquireWeakCacheEntryReference s a 20;
   s ← CacheEntry_decrement s a;
   '(s, b) ← GetCacheEntryInternal s c "b" 11 50;
   s ← CacheEntry_decrement s b;
   s ← WeakState_decrement s w;
   '(s, b') ← GetCacheEntryInternal s c "b" 12 50;
   s ← Cache_decrement s c;
   s ← CachePool_decrement s;
   s ← CacheEntry_decrement s b';
   Ok s) = Ok (Store None ∅ ∅ ∅ ∅).
Proof. vm_compute. reflexivity. Qed.
