(* ===== verification/GridPartition.v ===== *)
(** Partition of an index transform by a grid: [internal/grid_partition_impl.{h,cc}],
    [internal/regular_grid.h] and the dependencies of an output dimension
    ([index_space/index_transform.cc]).

    The grid dimensions and the input dimensions that they depend on are divided into
    connected sets.  A set without index arrays has one input dimension, and its part of a
    cell is an interval; for a set with index arrays the positions of its input dimensions
    are grouped by cell.  [GetCellTransform] maps a synthetic domain one-to-one to the
    positions of one cell. *)

From stdpp Require Import gmap sorting strings.
From S2P Require Import Prelude Int64 IndexInterval Transform TransformArray Dimensions.

(** * Definitions *)

(** ** Dimension sets ([util/dimension_set.h]): a bit for each dimension below [kMaxRank] *)

Abbreviation DimensionSet := N.

Definition test (s : DimensionSet) (i : nat) : bool := N.testbit s (N.of_nat i).
Definition set_dim (s : DimensionSet) (i : nat) : DimensionSet := N.setbit s (N.of_nat i).
Definition reset_dim (s : DimensionSet) (i : nat) : DimensionSet := N.clearbit s (N.of_nat i).
Definition none (s : DimensionSet) : bool := (s =? 0)%N.
Definition UpTo (n : nat) : DimensionSet := N.ones (N.of_nat n).
Definition index_view (s : DimensionSet) : list nat := List.filter (test s) (seq 0 (Z.to_nat kMaxRank)).
Definition count (s : DimensionSet) : nat := length (index_view s).

(** ** Connected sets *)

(** The input dimensions that an output depends on, and whether through an array. *)
Definition GetInputDimensionsForOutputDimension (t : TransformRep) (output_dim : nat) : DimensionSet * bool :=
  match method (output_index_maps t !!! output_dim) with
  | constant => (0%N, false)
  | single_input_dimension d => (set_dim 0%N d, false)
  | array data =>
      foldl (fun r d => if byte_strides data !!! d =? 0 then r else (set_dim r.1 d, true))
        (0%N, false) (seq 0 (input_rank t))
  end.

Record ConnectedSet := MkConnectedSet {
  input_dims : DimensionSet; grid_dims : DimensionSet; has_array : bool
}.

(** The variables of the loop; the set is the current one. *)
Record SetState := MkSetState { current : ConnectedSet; remaining_grid_dims : DimensionSet }.

Definition add_grid_dim_to_current_set (deps : list (DimensionSet * bool)) (st : SetState) (grid_dim : nat)
    : SetState :=
  let '(dims, array_dependence) := deps !!! grid_dim in
  let c := current st in
  MkSetState
    (MkConnectedSet (N.lor (input_dims c) dims) (set_dim (grid_dims c) grid_dim)
       (has_array c || array_dependence))
    (reset_dim (remaining_grid_dims st) grid_dim).

Definition is_grid_dim_in_set (deps : list (DimensionSet * bool)) (st : SetState) (grid_dim : nat) : bool :=
  negb (none (N.land (deps !!! grid_dim).1 (input_dims (current st)))).

Definition extend_current_set (deps : list (DimensionSet * bool)) (st : SetState) (grid_dim : nat) : SetState :=
  if is_grid_dim_in_set deps st grid_dim then add_grid_dim_to_current_set deps st grid_dim else st.

(** The sets in the order of the callbacks; every iteration removes a grid dimension. *)
Fixpoint ForEachConnectedSetLoop (fuel : nat) (deps : list (DimensionSet * bool)) (remaining : DimensionSet)
    : list ConnectedSet :=
  match fuel with
  | O => []
  | S fuel =>
      match index_view remaining with
      | [] => []
      | front :: _ =>
          let st := add_grid_dim_to_current_set deps
                      (MkSetState (MkConnectedSet 0%N 0%N false) remaining) front in
          if none (deps !!! front).1 then ForEachConnectedSetLoop fuel deps (remaining_grid_dims st)
          else
            let st := foldl (extend_current_set deps) st (index_view (remaining_grid_dims st)) in
            current st :: ForEachConnectedSetLoop fuel deps (remaining_grid_dims st)
      end
  end.

Definition ForEachConnectedSet (grid_output_dimensions : list nat) (t : TransformRep) : list ConnectedSet :=
  ForEachConnectedSetLoop (S (length grid_output_dimensions))
    (GetInputDimensionsForOutputDimension t <$> grid_output_dimensions)
    (UpTo (length grid_output_dimensions)).

(** ** Positions of the input dimensions of a set *)

(** The index vectors of a box in C order ([IterateOverIndexRange]). *)
Fixpoint index_vectors (box : list IndexInterval) : list (list Z) :=
  match box with
  | [] => [[]]
  | d :: box => i ← seqZ (inclusive_min d) (size d); cons i <$> index_vectors box
  end.

Definition partial_domain (t : TransformRep) (dims : DimensionSet) : list IndexInterval :=
  (fun d => input_domain t !!! d) <$> index_view dims.

Definition ProductOfIndirectExtents (t : TransformRep) (dims : DimensionSet) : Result Z :=
  foldM (fun num_positions d =>
           let '(overflow, n) := MulOverflow num_positions (size (input_domain t !!! d)) in
           if overflow then Err kInvalidArgument else Ok n)
    1 (index_view dims).

(** The integers from [i] to [stop] (exclusive) in steps of [stride]; the fuel is their number. *)
Fixpoint strided_range (fuel : nat) (i stop stride : Z) : list Z :=
  match fuel with
  | O => []
  | S fuel => if i =? stop then [] else i :: strided_range fuel (i + stride)%i64 stop stride
  end.

Definition FillWithTiledStridedRange (start size stride outer_count inner_count : Z) : list Z :=
  let stop := (start + (size * stride)%i64)%i64 in
  let tile := i ← strided_range (Z.to_nat size) start stop stride; replicate (Z.to_nat inner_count) i in
  concat (replicate (Z.to_nat outer_count) tile).

(** The numbers of positions of the input dimensions before and after [single_input_dim]. *)
Definition tile_step (t : TransformRep) (single_input_dim : nat) (r : Z * Z) (d : nat) : Z * Z :=
  let '(outer_count, inner_count) := r in
  if Nat.eqb d single_input_dim then (inner_count, 1)
  else (outer_count, (inner_count * size (input_domain t !!! d))%i64).
Definition tile_counts (t : TransformRep) (dims : DimensionSet) (single_input_dim : nat) : Z * Z :=
  foldl (tile_step t single_input_dim) (1, 1) (index_view dims).

(** The output indices of a map at every position of the input dimensions, in C order. *)
Definition GenerateSingleInputDimensionOutputIndices (t : TransformRep) (map : OutputIndexMap)
    (single_input_dim : nat) (dims : DimensionSet) : Result (list Z) :=
  let dom := input_domain t !!! single_input_dim in
  _ ← GetAffineTransformRange dom (offset map) (stride map);
  let start := (offset map + (stride map * inclusive_min dom)%i64)%i64 in
  let '(outer_count, inner_count) := tile_counts t dims single_input_dim in
  Ok (FillWithTiledStridedRange start (size dom) (stride map) outer_count inner_count).

(** [IterateOverArrays] visits nothing when any dimension of the domain is empty; the elements
    of the new vector are then zero. *)
Definition GenerateIndexArrayOutputIndices (t : TransformRep) (map : OutputIndexMap)
    (data : IndexArrayData) (dims : DimensionSet) (num_positions : Z) : Result (list Z) :=
  let shape := size <$> input_domain t in
  if existsb (fun n => n =? 0) shape then Ok (replicate (Z.to_nat num_positions) 0)
  else
    let p := AddByteOffset (element_pointer data)
               (IndexInnerProduct (inclusive_min <$> input_domain t) (byte_strides data)) in
    _ ← ValidateIndexArrayBounds (index_range data) p shape (byte_strides data);
    let strides := (fun d => byte_strides data !!! d) <$> index_view dims in
    let zero_origin := (fun x => UncheckedSized 0 (size x)) <$> partial_domain t dims in
    Ok ((fun v => ((p (wrap64 (dot v strides)) * stride map)%i64 + offset map)%i64)
          <$> index_vectors zero_origin).

(** ** Sets with index arrays *)

(** [OutputToGridCellFn]: the cell of an output index and its bounds. *)
Definition OutputToGridCellFn : Type := nat -> Z -> Z * IndexInterval.

Definition grid_dim_output_indices (t : TransformRep) (gods : list nat) (dims : DimensionSet)
    (num_positions : Z) (grid_dim : nat) : Result (list Z) :=
  let map := output_index_maps t !!! (gods !!! grid_dim) in
  match method map with
  | constant => Err kInvalidArgument
  | single_input_dimension d => GenerateSingleInputDimensionOutputIndices t map d dims
  | array data => GenerateIndexArrayOutputIndices t map data dims num_positions
  end.

(** The cells of every position for one grid dimension. *)
Definition grid_dim_cell_indices (t : TransformRep) (gods : list nat) (f : OutputToGridCellFn)
    (dims : DimensionSet) (num_positions : Z) (grid_dim : nat) : Result (list Z) :=
  output_indices ← grid_dim_output_indices t gods dims num_positions grid_dim;
  Ok ((fun y => (f grid_dim y).1) <$> (output_indices : list Z)).

(** A row-major array is the list of its rows; the grid dimension [grid_i] fills its column. *)
Definition fill_column (rows : list (list Z)) (grid_i : nat) (column : list Z) : list (list Z) :=
  zip_with (fun row v => <[grid_i := v]> row) rows column.

Definition GenerateIndexArraySetGridCellIndices (set : ConnectedSet) (gods : list nat) (f : OutputToGridCellFn)
    (t : TransformRep) (num_positions : Z) : Result (list (list Z)) :=
  let num_grid_dims := count (grid_dims set) in
  foldM (fun temp_cell_indices '(grid_i, grid_dim) =>
           column ← grid_dim_cell_indices t gods f (input_dims set) num_positions grid_dim;
           Ok (fill_column temp_cell_indices grid_i column))
    (replicate (Z.to_nat num_positions) (replicate num_grid_dims 0))
    (imap pair (index_view (grid_dims set))).

(** [std::lexicographical_compare], as the reflexive order. *)
Fixpoint lex_leb (a b : list Z) : bool :=
  match a, b with
  | [], _ => true
  | _, [] => false
  | x :: a, y :: b => (x <? y) || ((x =? y) && lex_leb a b)
  end.
Definition lex_le (a b : list Z) : Prop := lex_leb a b = true.
#[export] Instance lex_le_dec : RelDecision lex_le.
Proof. intros a b. unfold lex_le. apply _. Defined.

(** [IndirectVectorMap]: the slot of a cell index vector.  The code keys it by positions and
    compares the vectors at them. *)
Abbreviation IndirectVectorMap := (gmap (list Z) Z).

Definition count_cells (temp_cell_indices : list (list Z)) : IndirectVectorMap :=
  foldl (fun cells v => <[v := default 0 (cells !! v) + 1]> cells) ∅ temp_cell_indices.

(** Replace the counts by offsets, in the order of the sorted vectors; the offsets are also
    collected. *)
Fixpoint assign_offsets (sorted : list (list Z)) (cells : IndirectVectorMap) (offset : Z)
    : list Z * IndirectVectorMap :=
  match sorted with
  | [] => ([], cells)
  | v :: sorted =>
      let n := default 0 (cells !! v) in
      let '(offsets, cells) := assign_offsets sorted (<[v := offset]> cells) (offset + n) in
      (offset :: offsets, cells)
  end.

(** The distinct vectors in order, the offset of each, and the map of the offsets. *)
Definition PartitionIndexArraySetGridCellIndexVectors (temp_cell_indices : list (list Z))
    : list (list Z) * list Z * IndirectVectorMap :=
  let cells := count_cells temp_cell_indices in
  let grid_cell_indices := merge_sort lex_le (map_to_list cells).*1 in
  let '(offsets, cells) := assign_offsets grid_cell_indices cells 0 in
  (grid_cell_indices, offsets, cells).

(** Each position goes to the next free row of its cell. *)
Definition place {A} (st : IndirectVectorMap * list A) (p : list Z * A) : IndirectVectorMap * list A :=
  let '(cells, rows) := st in
  let '(v, indices) := p in
  let offset := default 0 (cells !! v) in
  (<[v := offset + 1]> cells, <[Z.to_nat offset := indices]> rows).
Definition GenerateIndexArraySetPartitionedInputIndices (t : TransformRep) (dims : DimensionSet)
    (temp_cell_indices : list (list Z)) (cells : IndirectVectorMap) (num_positions : Z) : list (list Z) :=
  (foldl place (cells, replicate (Z.to_nat num_positions) [])
    (zip temp_cell_indices (index_vectors (partial_domain t dims)))).2.

Record StridedSet := MkStridedSet { strided_grid_dims : DimensionSet; input_dimension : nat }.

Record IndexArraySet := MkIndexArraySet {
  set_dims : ConnectedSet;
  grid_cell_indices : list (list Z);
  partitioned_input_indices : list (list Z);
  grid_cell_partition_offsets : list Z
}.

Definition FillIndexArraySetData (set : ConnectedSet) (gods : list nat) (f : OutputToGridCellFn)
    (t : TransformRep) : Result IndexArraySet :=
  num_positions ← ProductOfIndirectExtents t (input_dims set);
  if num_positions =? 0 then Ok (MkIndexArraySet set [] [] [])
  else
    temp_cell_indices ← GenerateIndexArraySetGridCellIndices set gods f t num_positions;
    _ ← require (sizeof_Index * (num_positions * Z.of_nat (count (input_dims set))) <=? kMaxFiniteSize)
          AllocationFailure;
    let '(indices, offsets, cells) := PartitionIndexArraySetGridCellIndexVectors temp_cell_indices in
    Ok (MkIndexArraySet set indices
          (GenerateIndexArraySetPartitionedInputIndices t (input_dims set) temp_cell_indices cells num_positions)
          offsets).

(** ** The partition *)

Record IndexTransformGridPartition := MkPartition {
  strided_sets : list StridedSet;
  index_array_sets : list IndexArraySet
}.

Definition GenerateIndexTransformGridPartitionData (gods : list nat) (f : OutputToGridCellFn)
    (t : TransformRep) : Result IndexTransformGridPartition :=
  let sets := ForEachConnectedSet gods t in
  let strided := (fun c => MkStridedSet (grid_dims c) (hd 0%nat (index_view (input_dims c)))) <$>
                   List.filter (fun c => negb (has_array c)) sets in
  arrays ← mapR (fun c => FillIndexArraySetData c gods f t) (List.filter has_array sets);
  Ok (MkPartition strided arrays).

Definition check_output_range (t : TransformRep) (output_dim : nat) : Result unit :=
  let map := output_index_maps t !!! output_dim in
  match method map with
  | single_input_dimension d =>
      _ ← GetAffineTransformRange (input_domain t !!! d) (offset map) (stride map); Ok tt
  | _ => Ok tt
  end.

Definition PrePartitionIndexTransformOverGrid (t : TransformRep) (gods : list nat) (f : OutputToGridCellFn)
    : Result IndexTransformGridPartition :=
  _ ← require (forallb IsFinite (input_domain t)) kInvalidArgument;
  _ ← mapR (check_output_range t) gods;
  GenerateIndexTransformGridPartitionData gods f t.

(** ** Cell transforms *)

(** Access to an array of a representation. *)
Definition checked_update {A} (l : list A) (i : nat) (g : A -> A) : Result (list A) :=
  match l !! i with Some x => Ok (<[i := g x]> l) | None => Err OutOfBounds end.

Definition num_partitions (set : IndexArraySet) : Z := Z.of_nat (length (grid_cell_partition_offsets set)).

(** The byte strides of [partitioned_input_indices], a new array in C order. *)
Definition row_byte_stride (set : IndexArraySet) : Z :=
  match partitioned_input_indices set with
  | [] => 0
  | _ => sizeof_Index * Z.of_nat (count (input_dims (set_dims set)))
  end.

(** The memory of the array, from the element [(row, column)] on. *)
Definition element_at (set : IndexArraySet) (row column : Z) : Z -> Z :=
  AddByteOffset (fun z => concat (partitioned_input_indices set) !!! Z.to_nat (z / sizeof_Index))
    (row * row_byte_stride set + column * sizeof_Index).

Definition set_origin (origin : Z) (d : IndexDomainDimension) : IndexDomainDimension :=
  MkDimension (MkOI (MkInterval origin (size (domain d))) false false) (label d).
Definition set_shape (n : Z) (d : IndexDomainDimension) : IndexDomainDimension :=
  MkDimension (MkOI (MkInterval (inclusive_min (domain d)) n) false false) (label d).
Definition set_interval (x : IndexInterval) (d : IndexDomainDimension) : IndexDomainDimension :=
  MkDimension (MkOI x false false) (label d).

Definition update_dimension (t : TransformRep) (i : nat) (g : IndexDomainDimension -> IndexDomainDimension)
    : Result TransformRep :=
  dims ← checked_update (input_dimensions t) i g; Ok (MkTransform dims (output_index_maps t)).
Definition update_map (t : TransformRep) (i : nat) (g : OutputIndexMap -> OutputIndexMap)
    : Result TransformRep :=
  maps ← checked_update (output_index_maps t) i g; Ok (MkTransform (input_dimensions t) maps).

(** A dimension and a map as [TransformRep::Allocate] leaves them. *)
Definition allocated_dimension : IndexDomainDimension :=
  MkDimension (MkOI (MkInterval 0 0) false false) EmptyString.

Definition cell_input_rank (info : IndexTransformGridPartition) (t : TransformRep) : Z :=
  Z.of_nat (input_rank t)
  - foldr (fun s n => Z.of_nat (count (input_dims (set_dims s))) + n) 0 (index_array_sets info)
  + Z.of_nat (length (index_array_sets info)).

(** The maps of the input dimensions of an index array set. *)
Definition initialize_array_maps (set : IndexArraySet) (rank : nat) (cell_input_dim : nat) (t : TransformRep)
    : Result TransformRep :=
  foldM (fun t d =>
           byte_strides ← checked_update (replicate rank 0) cell_input_dim (fun _ => row_byte_stride set);
           update_map t d (fun _ =>
             MkOutputIndexMap (array (MkIndexArrayData (fun _ => 0) Infinite byte_strides)) 0 1))
    t (index_view (input_dims (set_dims set))).

(** The dimensions that are in no connected set; [constant] is the method of a map that was
    not set yet. *)
Definition initialize_other (full : TransformRep) (st : TransformRep * nat) (full_input_dim : nat)
    : Result (TransformRep * nat) :=
  let '(t, cell_input_dim) := st in
  match method (output_index_maps t !!! full_input_dim) with
  | constant =>
      t ← update_map t full_input_dim (fun _ => identity_map cell_input_dim);
      t ← update_dimension t cell_input_dim (fun _ => input_dimensions full !!! full_input_dim);
      Ok (t, S cell_input_dim)
  | _ => Ok (t, cell_input_dim)
  end.

Definition InitializeCellTransform (info : IndexTransformGridPartition) (full : TransformRep)
    : Result TransformRep :=
  let full_input_rank := input_rank full in
  let rank := cell_input_rank info full in
  _ ← require ((0 <=? rank) && (rank <=? kMaxRank)) OutOfBounds;
  let t := MkTransform (replicate (Z.to_nat rank) allocated_dimension)
             (replicate full_input_rank constant_zero) in
  t ← foldM (fun t '(cell_input_dim, set) =>
               t ← update_dimension t cell_input_dim (set_origin 0);
               initialize_array_maps set (Z.to_nat rank) cell_input_dim t)
        t (imap pair (index_array_sets info));
  let num_arrays := length (index_array_sets info) in
  t ← foldM (fun t '(i, set) =>
               update_map t (input_dimension set) (fun _ => identity_map (num_arrays + i)))
        t (imap pair (strided_sets info));
  '(t, _) ← foldM (initialize_other full)
              (t, (num_arrays + length (strided_sets info))%nat) (seq 0 full_input_rank);
  Ok t.

(** [partition_input_indices]: the first row of a partition and its number of rows. *)
Definition partition_input_indices (set : IndexArraySet) (partition_i : nat) : Z * Z :=
  let start := grid_cell_partition_offsets set !!! partition_i in
  let stop := if Nat.eqb (S partition_i) (length (grid_cell_partition_offsets set))
              then Z.of_nat (length (partitioned_input_indices set))
              else grid_cell_partition_offsets set !!! S partition_i in
  (start, stop - start).

Definition with_element_pointer (p : Z -> Z) (m : OutputIndexMap) : OutputIndexMap :=
  match method m with
  | array data =>
      MkOutputIndexMap (array (MkIndexArrayData p (index_range data) (byte_strides data))) (offset m) (stride m)
  | _ => m
  end.

Definition UpdateCellTransformForIndexArraySetPartition (set : IndexArraySet) (set_i partition_i : nat)
    (t : TransformRep) : Result TransformRep :=
  let '(start, n) := partition_input_indices set partition_i in
  t ← update_dimension t set_i (set_shape n);
  foldM (fun t '(j, full_input_dim) =>
           update_map t full_input_dim (with_element_pointer (element_at set start (Z.of_nat j))))
    t (imap pair (index_view (input_dims (set_dims set)))).

(** [GridCellIndicesIndirectPartialCompare]: the difference at the first grid dimension where
    the partition and the full index vector differ. *)
Fixpoint compare_rows (full_indices : list Z) (row : list Z) (dims : list nat) : Z :=
  match row, dims with
  | x :: row, d :: dims =>
      let diff := (x - full_indices !!! d)%i64 in
      if negb (diff =? 0) then diff else compare_rows full_indices row dims
  | _, _ => 0
  end.
Definition compare_partition (set : IndexArraySet) (partition_i : Z) (full_indices : list Z) : Z :=
  compare_rows full_indices (grid_cell_indices set !!! Z.to_nat partition_i)
    (index_view (grid_dims (set_dims set))).

Fixpoint FindPartitionLoop (fuel : nat) (set : IndexArraySet) (full_indices : list Z) (lower upper : Z) : Z :=
  match fuel with
  | O => -1
  | S fuel =>
      if lower =? upper then -1
      else
        let mid := Z.quot (lower + upper) 2 in
        let c := compare_partition set mid full_indices in
        if c =? 0 then mid
        else if c >? 0 then FindPartitionLoop fuel set full_indices lower mid
        else FindPartitionLoop fuel set full_indices (mid + 1) upper
  end.
Definition FindPartition (set : IndexArraySet) (full_indices : list Z) : Z :=
  FindPartitionLoop (S (Z.to_nat (num_partitions set))) set full_indices 0 (num_partitions set).

(** The part of the domain of a strided set that lies in a cell. *)
Definition restrict_domain (full : TransformRep) (gods : list nat) (cell_range : nat -> IndexInterval)
    (restricted_domain : IndexInterval) (dims : DimensionSet) : Result IndexInterval :=
  foldM (fun restricted_domain grid_dim =>
           let map := output_index_maps full !!! (gods !!! grid_dim) in
           cell_domain ← GetAffineTransformDomain (cell_range grid_dim) (offset map) (stride map);
           Ok (Intersect restricted_domain cell_domain))
    restricted_domain (index_view dims).

Definition GetCellTransform (info : IndexTransformGridPartition) (full : TransformRep)
    (cell_indices : list Z) (gods : list nat) (get_grid_cell_output_interval : nat -> Z -> IndexInterval)
    : Result TransformRep :=
  t ← InitializeCellTransform info full;
  t ← foldM (fun t '(set_i, set) =>
               let partition_i := FindPartition set cell_indices in
               _ ← require (negb (partition_i =? -1)) OutOfBounds;
               UpdateCellTransformForIndexArraySetPartition set set_i (Z.to_nat partition_i) t)
        t (imap pair (index_array_sets info));
  foldM (fun t '(i, set) =>
           restricted_domain ←
             restrict_domain full gods (fun g => get_grid_cell_output_interval g (cell_indices !!! g))
               (input_domain full !!! input_dimension set) (strided_grid_dims set);
           update_dimension t (length (index_array_sets info) + i) (set_interval restricted_domain))
    t (imap pair (strided_sets info)).

(** ** Regular grids *)

Definition GetCellOutputInterval (grid_cell_shape : list Z) (dim : nat) (cell_index : Z) : IndexInterval :=
  UncheckedSized (cell_index * (grid_cell_shape !!! dim))%i64 (grid_cell_shape !!! dim).

Definition RegularGridRef (grid_cell_shape : list Z) : OutputToGridCellFn :=
  fun dim output_index =>
    let cell_index := FloorOfRatio output_index (grid_cell_shape !!! dim) in
    (cell_index, GetCellOutputInterval grid_cell_shape dim cell_index).
