(* ===== verification/GridSets.v ===== *)
(** Connected sets of a grid partition: the sets of [ForEachConnectedSet] contain every grid
    dimension that depends on the input once, and the input dimensions it depends on. *)

From stdpp Require Import gmap.
From S2P Require Import Prelude Int64 IndexInterval Transform TransformArray Dimensions GridPartition.

(** * Dimension sets *)

Lemma test_set_dim s i j : test (set_dim s i) j = (Nat.eqb i j || test s j).
Proof.
  unfold test, set_dim. destruct (Nat.eqb_spec i j) as [->|Hne].
  - apply N.setbit_eq.
  - rewrite N.setbit_neq by lia. reflexivity.
Qed.

Lemma test_reset_dim s i j : test (reset_dim s i) j = (negb (Nat.eqb i j) && test s j).
Proof.
  unfold test, reset_dim. destruct (Nat.eqb_spec i j) as [->|Hne].
  - apply N.clearbit_eq.
  - rewrite N.clearbit_neq by lia. reflexivity.
Qed.

Lemma test_lor a b i : test (N.lor a b) i = test a i || test b i.
Proof. apply N.lor_spec. Qed.
Lemma test_land a b i : test (N.land a b) i = test a i && test b i.
Proof. apply N.land_spec. Qed.
Lemma test_empty i : test 0%N i = false.
Proof. apply N.bits_0. Qed.

Lemma test_UpTo n i : test (UpTo n) i = Nat.ltb i n.
Proof.
  unfold test, UpTo. destruct (Nat.ltb_spec i n).
  - apply N.ones_spec_low. lia.
  - apply N.ones_spec_high. lia.
Qed.

Lemma test_ext a b : (forall i, test a i = test b i) -> a = b.
Proof. intros H. apply N.bits_inj. intros n. rewrite <- (N2Nat.id n). apply H. Qed.

Lemma none_spec s : none s = true <-> forall i, test s i = false.
Proof.
  unfold none. rewrite N.eqb_eq. split; [intros -> i; apply test_empty|].
  intros H. apply test_ext. intros i. rewrite H, test_empty. reflexivity.
Qed.

Lemma not_none_spec s : none s = false <-> exists i, test s i = true.
Proof.
  split.
  - intros H. unfold none in H. apply N.eqb_neq in H.
    exists (N.to_nat (N.log2 s)). unfold test. rewrite N2Nat.id. apply N.bit_log2, H.
  - intros [i Hi]. apply not_true_is_false. intros H. rewrite (proj1 (none_spec s) H i) in Hi. discriminate.
Qed.

(** Sets of dimensions below [kMaxRank]. *)
Definition bounded (s : DimensionSet) : Prop := forall i, test s i = true -> (i < 32)%nat.

Lemma elem_of_index_view s i : i ∈ index_view s <-> test s i = true /\ (i < 32)%nat.
Proof.
  unfold index_view. rewrite list_elem_of_In, filter_In, in_seq.
  change (Z.to_nat kMaxRank) with 32%nat. split; intros [H1 H2]; split; auto with lia.
Qed.

Lemma elem_of_index_view_bounded s i : bounded s -> (i ∈ index_view s <-> test s i = true).
Proof. intros Hb. rewrite elem_of_index_view. split; [tauto|]. intros H. auto. Qed.

Lemma NoDup_index_view s : NoDup (index_view s).
Proof. unfold index_view. apply NoDup_ListNoDup, List.NoDup_filter, List.seq_NoDup. Qed.

Lemma index_view_single d : (d < 32)%nat -> index_view (set_dim 0%N d) = [d].
Proof. intros Hd. do 32 (destruct d as [|d]; [reflexivity|]). lia. Qed.

Lemma count_reset s i : i ∈ index_view s -> (count (reset_dim s i) < count s)%nat.
Proof.
  intros Hi. unfold count.
  apply (submseteq_length (i :: index_view (reset_dim s i)) (index_view s)), NoDup_submseteq.
  - constructor; [|apply NoDup_index_view]. rewrite elem_of_index_view, test_reset_dim, Nat.eqb_refl.
    intros [[=] _].
  - intros j [->|Hj]%elem_of_cons; [exact Hi|]. rewrite elem_of_index_view, test_reset_dim in Hj.
    destruct Hj as [[_ Hj]%andb_true_iff Hlt]. apply elem_of_index_view. auto.
Qed.

Lemma count_subset a b : (forall i, test a i = true -> test b i = true) -> (count a <= count b)%nat.
Proof.
  intros H. apply submseteq_length, NoDup_submseteq; [apply NoDup_index_view|].
  intros i [Hi Hlt]%elem_of_index_view. apply elem_of_index_view. auto.
Qed.

Lemma count_UpTo n : (count (UpTo n) <= n)%nat.
Proof.
  unfold count. transitivity (length (seq 0 n)); [|rewrite length_seq; reflexivity].
  apply submseteq_length, NoDup_submseteq; [apply NoDup_index_view|].
  intros i [Hi _]%elem_of_index_view. rewrite test_UpTo, Nat.ltb_lt in Hi. apply elem_of_seq. lia.
Qed.

(** * Dependencies *)

Section Dependencies.
Variable t : TransformRep.

Lemma array_dependencies (strides : list Z) l : forall r,
  let r' := foldl (fun r d => if strides !!! d =? 0 then r else (set_dim r.1 d, true)) r l in
  (forall d, test r'.1 d = true <-> test r.1 d = true \/ (d ∈ l /\ strides !!! d <> 0)) /\
  (r'.2 = true <-> r.2 = true \/ exists d, d ∈ l /\ strides !!! d <> 0).
Proof.
  induction l as [|x l IH]; intros r r'; unfold r'; cbn [foldl].
  - split; [intros d|]; (split; [auto|intros [H|H]; [exact H|]]);
      [destruct H as [H _]|destruct H as (d & H & _)]; inversion H.
  - destruct (IH (if strides !!! x =? 0 then r else (set_dim r.1 x, true))) as [H1 H2].
    destruct (Z.eqb_spec (strides !!! x) 0) as [E|E].
    + split; [intros d; rewrite H1|rewrite H2].
      * rewrite elem_of_cons. split; [tauto|]. intros [H|[[->|H] Hs]]; auto; congruence.
      * split; (intros [H|(d & Hd & Hs)]; [auto|right; exists d]); [rewrite elem_of_cons; auto|].
        apply elem_of_cons in Hd as [->|Hd]; [congruence|auto].
    + split; [intros d; rewrite H1|rewrite H2]; cbn [fst snd].
      * rewrite test_set_dim, elem_of_cons, orb_true_iff, Nat.eqb_eq.
        split; [intros [[<-|H]|H]; tauto|]. intros [H|[[->|H] Hs]]; tauto.
      * split; [|auto]. intros _. right. exists x. rewrite elem_of_cons. auto.
Qed.

(** The dependencies of a map that is part of a well-formed transform. *)
Lemma dependencies_spec o : (o < output_rank t)%nat -> WellFormed t ->
  let m := output_index_maps t !!! o in
  let r := GetInputDimensionsForOutputDimension t o in
  (forall d, test r.1 d = true <-> depends_on m d) /\
  (r.2 = true -> is_array m = true) /\
  (forall d, is_array m = true -> test r.1 d = true -> r.2 = true).
Proof.
  intros Ho HW m r. unfold r, GetInputDimensionsForOutputDimension. fold m.
  assert (Hm : m ∈ output_index_maps t).
  { destruct (lookup_lt_is_Some_2 _ _ Ho) as [m' Hm']. unfold m.
    rewrite (list_lookup_total_correct _ _ _ Hm'). eapply list_elem_of_lookup_2, Hm'. }
  destruct (WellFormed_map t m HW Hm) as [Hc [_ [_ Hty]]]. unfold check_map in Hc.
  unfold depends_on, is_array. destruct (method m) as [|d|data]; cbn [fst snd].
  - split; [intros d; rewrite test_empty; split; [discriminate|tauto]|]. split; discriminate.
  - apply andb_true_iff in Hc as [_ Hs%negb_true_iff%Z.eqb_neq]. split; [|split; discriminate].
    intros d'. rewrite test_set_dim, test_empty, orb_false_r, Nat.eqb_eq. tauto.
  - destruct (array_dependencies (byte_strides data) (seq 0 (input_rank t)) (0%N, false)) as [H1 H2].
    cbn [fst snd] in *. split; [|split; [reflexivity|]].
    + intros d. rewrite H1, test_empty. split; [intros [[=]|[_ H]]; exact H|].
      intros H. right. split; [|exact H]. apply elem_of_seq. destruct Hty as [Hl _].
      apply lookup_total_nonzero in H. lia.
    + intros d _ Hd. apply H2. right. exists d. apply H1 in Hd as [Hd|Hd]; [|exact Hd].
      rewrite test_empty in Hd. discriminate.
Qed.

Lemma dependencies_bounded o : (o < output_rank t)%nat -> WellFormed t -> (input_rank t <= 32)%nat ->
  forall d, test (GetInputDimensionsForOutputDimension t o).1 d = true -> (d < input_rank t)%nat.
Proof.
  intros Ho HW Hr d Hd. destruct (dependencies_spec o Ho HW) as (Hdep & _).
  apply Hdep in Hd. clear Hdep.
  destruct (lookup_lt_is_Some_2 _ _ Ho) as [m Hm].
  rewrite (list_lookup_total_correct _ _ _ Hm) in Hd.
  eapply depends_lt; [exact HW|eapply list_elem_of_lookup_2, Hm|exact Hd].
Qed.

(** A map of a well-formed transform that is no array depends on one dimension at most. *)
Lemma dependencies_single o : (o < output_rank t)%nat -> WellFormed t ->
  let r := GetInputDimensionsForOutputDimension t o in
  r.2 = false -> none r.1 = false ->
  exists d, method (output_index_maps t !!! o) = single_input_dimension d /\ r.1 = set_dim 0%N d.
Proof.
  intros Ho HW r Hf Hn. destruct (dependencies_spec o Ho HW) as (_ & _ & Ha). fold r in Ha.
  unfold r, GetInputDimensionsForOutputDimension, is_array in *.
  destruct (method (output_index_maps t !!! o)) as [|d|data]; [discriminate|eauto|].
  apply not_none_spec in Hn as [d Hd]. rewrite (Ha d eq_refl Hd) in Hf. discriminate.
Qed.
End Dependencies.

(** * Connected sets *)

(** Two grid dimensions of a set are linked when a chain of grid dimensions of the set leads from one to the other, in which
    neighbours depend on a common input dimension. *)
Definition linked (depends : nat -> nat -> Prop) (c : ConnectedSet) : nat -> nat -> Prop :=
  rtc (fun g g' => test (grid_dims c) g = true /\ test (grid_dims c) g' = true /\ exists d, depends g d /\ depends g' d).

Lemma linked_sym depends c g g' : linked depends c g g' -> linked depends c g' g.
Proof.
  induction 1 as [g|g g' g'' (H1 & H2 & d & H3 & H4) _ IH]; [apply rtc_refl|].
  eapply rtc_r; [exact IH|]. eauto.
Qed.

Lemma linked_subrel (depends depends' : nat -> nat -> Prop) c c' g g' :
  (forall g d, test (grid_dims c) g = true -> depends g d -> depends' g d) ->
  (forall g, test (grid_dims c) g = true -> test (grid_dims c') g = true) ->
  linked depends c g g' -> linked depends' c' g g'.
Proof.
  intros Hd Hc. apply rtc_subrel. intros x y (Hx & Hy & d & Hxd & Hyd). repeat split; [auto..|]. exists d. auto.
Qed.

Section Loop.
Variable deps : list (DimensionSet * bool).

Definition dep (g : nat) : DimensionSet := (deps !!! g).1.

Definition dep_rel (g d : nat) : Prop := test (dep g) d = true.

(** What a set promises: its grid dimensions depend on its input dimensions, on all of them and
    on no others, and are linked; and it has an array if one of them does. *)
Record set_ok (c : ConnectedSet) : Prop := MkSetOk {
  set_nonempty : exists g, test (grid_dims c) g = true;
  set_dep : forall g, test (grid_dims c) g = true ->
    none (dep g) = false /\ forall d, test (dep g) d = true -> test (input_dims c) d = true;
  set_input : forall d, test (input_dims c) d = true ->
    exists g, test (grid_dims c) g = true /\ test (dep g) d = true;
  set_array : has_array c = true <-> exists g, test (grid_dims c) g = true /\ (deps !!! g).2 = true;
  set_single : (forall g, test (grid_dims c) g = true -> exists d, dep g = set_dim 0%N d) ->
    exists d, input_dims c = set_dim 0%N d;
  set_linked : forall g g', test (grid_dims c) g = true -> test (grid_dims c) g' = true -> linked dep_rel c g g'
}.

Ltac sets_cbn := cbn [current input_dims grid_dims has_array remaining_grid_dims fst snd].

Lemma add_first rem g : none (dep g) = false ->
  set_ok (current (add_grid_dim_to_current_set deps (MkSetState (MkConnectedSet 0%N 0%N false) rem) g)).
Proof.
  intros Hn. unfold add_grid_dim_to_current_set, dep in *.
  destruct (deps !!! g) as [dims a] eqn:E. cbn [fst] in Hn; sets_cbn.
  assert (Hg : forall g', test (set_dim 0%N g) g' = true <-> g' = g).
  { intros g'. rewrite test_set_dim, test_empty, orb_false_r, Nat.eqb_eq. split; auto. }
  split; sets_cbn.
  - exists g. apply Hg. reflexivity.
  - intros g' ->%Hg. unfold dep. rewrite E. split; [exact Hn|]. intros d. auto.
  - intros d Hd. exists g. unfold dep. rewrite Hg, E. auto.
  - cbn [orb]. split; [intros ->; exists g; rewrite Hg, E; auto|]. intros (g' & ->%Hg & H). rewrite E in H. exact H.
  - intros H. destruct (H g) as [d Hd]; [apply Hg; reflexivity|]. unfold dep in Hd. rewrite E in Hd.
    exists d. exact Hd.
  - intros g1 g2 ->%Hg ->%Hg. apply rtc_refl.
Qed.

Lemma single_overlap a d : test (set_dim 0%N a) d = true -> d = a.
Proof. rewrite test_set_dim, test_empty, orb_false_r, Nat.eqb_eq. auto. Qed.

Lemma add_next st g : set_ok (current st) -> is_grid_dim_in_set deps st g = true ->
  set_ok (current (add_grid_dim_to_current_set deps st g)).
Proof.
  intros [H1 H2 H3 H4 H5 H6] Hin.
  unfold is_grid_dim_in_set in Hin. apply negb_true_iff, not_none_spec in Hin as [d0 Hd0].
  rewrite test_land in Hd0. apply andb_true_iff in Hd0 as [Hd0 Hd1].
  unfold add_grid_dim_to_current_set. destruct (deps !!! g) as [dims a] eqn:E. cbn [fst] in Hd0; sets_cbn.
  assert (Hg : forall g', test (set_dim (grid_dims (current st)) g) g' = true <->
    g' = g \/ test (grid_dims (current st)) g' = true).
  { intros g'. rewrite test_set_dim, orb_true_iff, Nat.eqb_eq. split; intros [|]; auto. }
  assert (Ed : dep g = dims) by (unfold dep; rewrite E; reflexivity).
  split; sets_cbn.
  - destruct H1 as [g' H1]. exists g'. apply Hg. auto.
  - intros g' [->|Hg']%Hg.
    + rewrite Ed. split; [apply not_none_spec; eauto|]. intros d Hd. rewrite test_lor, Hd. apply orb_true_r.
    + destruct (H2 g' Hg') as [Hn Hs]. split; [exact Hn|]. intros d Hd. rewrite test_lor, (Hs d Hd). reflexivity.
  - intros d. rewrite test_lor. intros [Hd|Hd]%orb_true_iff.
    + destruct (H3 d Hd) as (g' & Hg' & Hd'). exists g'. rewrite Hg. auto.
    + exists g. rewrite Hg, Ed. auto.
  - rewrite orb_true_iff, H4. split.
    + intros [(g' & Hg' & Ha)|Ha]; [exists g'|exists g]; rewrite Hg; auto. rewrite E. auto.
    + intros (g' & [->|Hg']%Hg & Ha); [rewrite E in Ha; auto|eauto].
  - intros Hs. destruct H5 as [d Hd].
    { intros g' Hg'. apply Hs, Hg. auto. }
    destruct (Hs g) as [d' Hd']; [apply Hg; auto|]. rewrite Ed in Hd'.
    rewrite Hd' in Hd0 |- *. rewrite Hd in Hd1 |- *. apply single_overlap in Hd0, Hd1. subst d0 d'.
    exists d. apply N.lor_diag.
  - assert (Hold : forall g1 g2, test (grid_dims (current st)) g1 = true -> test (grid_dims (current st)) g2 = true ->
      linked dep_rel (MkConnectedSet (N.lor (input_dims (current st)) dims) (set_dim (grid_dims (current st)) g)
        (has_array (current st) || a)) g1 g2).
    { intros g1 g2 Hg1 Hg2. refine (linked_subrel _ _ _ _ _ _ _ _ (H6 g1 g2 Hg1 Hg2)); [auto|]. cbn. intros g3 Hg3. apply Hg. auto. }
    destruct (H3 d0 Hd1) as (g0 & Hg0 & Hd0').
    assert (Hnew : forall g1, test (grid_dims (current st)) g1 = true ->
      linked dep_rel (MkConnectedSet (N.lor (input_dims (current st)) dims) (set_dim (grid_dims (current st)) g)
        (has_array (current st) || a)) g1 g).
    { intros g1 Hg1. eapply rtc_r; [exact (Hold g1 g0 Hg1 Hg0)|]. cbn. rewrite !Hg. split; [auto|]. split; [auto|].
      exists d0. unfold dep_rel. rewrite Ed. auto. }
    intros g1 g2 [->|Hg1]%Hg [->|Hg2]%Hg; [apply rtc_refl|apply linked_sym, Hnew, Hg2|apply Hnew, Hg1|exact (Hold g1 g2 Hg1 Hg2)].
Qed.

(** The remaining dimensions are those that the set does not have. *)
Definition removed (rem : DimensionSet) (st : SetState) : Prop :=
  (forall g, test (remaining_grid_dims st) g = test rem g && negb (test (grid_dims (current st)) g)) /\
  (forall g, test (grid_dims (current st)) g = true -> test rem g = true).

Lemma removed_add rem st g : removed rem st -> test rem g = true ->
  removed rem (add_grid_dim_to_current_set deps st g).
Proof.
  intros [H1 H2] Hg. unfold add_grid_dim_to_current_set. destruct (deps !!! g) as [dims a]. sets_cbn.
  split; sets_cbn; intros g'.
  - rewrite test_reset_dim, test_set_dim, H1, negb_orb.
    destruct (Nat.eqb g g'), (test rem g'), (test (grid_dims (current st)) g'); reflexivity.
  - rewrite test_set_dim. destruct (Nat.eqb_spec g g') as [<-|_]; [auto|apply H2].
Qed.

Lemma extend_spec rem l : forall st, Forall (fun g => test rem g = true) l ->
  set_ok (current st) -> removed rem st ->
  let st' := foldl (extend_current_set deps) st l in set_ok (current st') /\ removed rem st' /\
    (forall g, test (grid_dims (current st)) g = true -> test (grid_dims (current st')) g = true).
Proof.
  induction l as [|g l IH]; intros st Hl Hok Hr; cbv zeta; cbn [foldl]; [auto|].
  apply Forall_cons in Hl as [Hg Hl].
  change (extend_current_set deps st g)
    with (if is_grid_dim_in_set deps st g then add_grid_dim_to_current_set deps st g else st).
  destruct (is_grid_dim_in_set deps st g) eqn:E; [|apply (IH st Hl Hok Hr)].
  destruct (IH (add_grid_dim_to_current_set deps st g) Hl (add_next st g Hok E) (removed_add rem st g Hr Hg))
    as (H1 & H2 & H3).
  split; [exact H1|]. split; [exact H2|]. intros g' Hg'. apply H3.
  unfold add_grid_dim_to_current_set. destruct (deps !!! g). cbn. rewrite test_set_dim, Hg'. apply orb_true_r.
Qed.

Lemma extend_grows l : forall st d, test (input_dims (current st)) d = true ->
  test (input_dims (current (foldl (extend_current_set deps) st l))) d = true.
Proof.
  induction l as [|g l IH]; intros st d Hd; cbn [foldl]; [exact Hd|]. apply IH.
  unfold extend_current_set. destruct (is_grid_dim_in_set deps st g); [|exact Hd].
  unfold add_grid_dim_to_current_set. destruct (deps !!! g). sets_cbn. rewrite test_lor, Hd. reflexivity.
Qed.

(** A dimension that depends on an input dimension of the set is added when it is passed. *)
Lemma extend_closed l : forall st g d, g ∈ l -> test (input_dims (current st)) d = true ->
  test (dep g) d = true -> test (grid_dims (current (foldl (extend_current_set deps) st l))) g = true.
Proof.
  assert (Hgrid : forall l st g, test (grid_dims (current st)) g = true ->
    test (grid_dims (current (foldl (extend_current_set deps) st l))) g = true).
  { clear. induction l as [|g' l IH]; intros st g Hg; cbn [foldl]; [exact Hg|]. apply IH.
    unfold extend_current_set. destruct (is_grid_dim_in_set deps st g'); [|exact Hg].
    unfold add_grid_dim_to_current_set. destruct (deps !!! g'). sets_cbn.
    rewrite test_set_dim, Hg. apply orb_true_r. }
  induction l as [|g' l IH]; intros st g d Hg Hd Hdep; [inversion Hg|]. cbn [foldl].
  apply elem_of_cons in Hg as [->|Hg].
  - apply Hgrid. unfold extend_current_set.
    assert (Hin : is_grid_dim_in_set deps st g' = true).
    { apply negb_true_iff, not_none_spec. exists d. rewrite test_land.
      unfold dep in Hdep. rewrite Hdep, Hd. reflexivity. }
    rewrite Hin. unfold add_grid_dim_to_current_set. destruct (deps !!! g'). sets_cbn.
    rewrite test_set_dim, Nat.eqb_refl. reflexivity.
  - apply (IH _ g d Hg); [|exact Hdep]. unfold extend_current_set.
    destruct (is_grid_dim_in_set deps st g'); [|exact Hd].
    unfold add_grid_dim_to_current_set. destruct (deps !!! g'). sets_cbn. rewrite test_lor, Hd. reflexivity.
Qed.

(** No grid dimension is in two sets. *)
Definition grids_disjoint (sets : list ConnectedSet) : Prop :=
  forall i j a b g, sets !! i = Some a -> sets !! j = Some b ->
    test (grid_dims a) g = true -> test (grid_dims b) g = true -> i = j.

Record sets_spec (rem : DimensionSet) (sets : list ConnectedSet) : Prop := MkSetsSpec {
  sets_ok : Forall set_ok sets;
  sets_within : forall c g, c ∈ sets -> test (grid_dims c) g = true -> test rem g = true;
  sets_cover : forall g, test rem g = true -> none (dep g) = false ->
    exists c, c ∈ sets /\ test (grid_dims c) g = true;
  sets_disjoint : grids_disjoint sets
}.

Lemma sets_spec_cons rem rem' c sets :
  set_ok c -> (forall g, test (grid_dims c) g = true -> test rem g = true) ->
  (forall g, test rem' g = test rem g && negb (test (grid_dims c) g)) ->
  sets_spec rem' sets -> sets_spec rem (c :: sets).
Proof.
  intros Hok Hc Hr [H1 H2 H3 H4]. split.
  - constructor; assumption.
  - intros c' g [->|Hin]%elem_of_cons Hg; [auto|].
    specialize (H2 c' g Hin Hg). rewrite Hr in H2. apply andb_true_iff in H2. tauto.
  - intros g Hg Hn. destruct (test (grid_dims c) g) eqn:E.
    + exists c. split; [apply list_elem_of_here|exact E].
    + destruct (H3 g) as (c' & Hin & Hg'); [rewrite Hr, Hg, E; reflexivity|exact Hn|].
      exists c'. split; [apply list_elem_of_further, Hin|exact Hg'].
  - assert (Hx : forall j b g, sets !! j = Some b -> test (grid_dims c) g = true ->
      test (grid_dims b) g = true -> False).
    { intros j b g Hj Hg Hb. apply list_elem_of_lookup_2 in Hj. specialize (H2 b g Hj Hb).
      rewrite Hr, Hg in H2. cbn in H2. rewrite andb_false_r in H2. discriminate. }
    intros [|i] [|j] a b g Hi Hj Ha Hb; cbn in *; [reflexivity|exfalso..|f_equal].
    + injection Hi as <-. eauto.
    + injection Hj as <-. eauto.
    + eauto.
Qed.

Lemma sets_spec_skip rem rem' g sets :
  none (dep g) = true -> (forall g', test rem' g' = negb (Nat.eqb g g') && test rem g') ->
  sets_spec rem' sets -> sets_spec rem sets.
Proof.
  intros Hn Hr [H1 H2 H3 H4]. split; [exact H1| | |exact H4].
  - intros c g' Hc Hg. specialize (H2 c g' Hc Hg). rewrite Hr in H2. apply andb_true_iff in H2. tauto.
  - intros g' Hg Hn'. apply H3; [|exact Hn']. rewrite Hr, Hg, andb_true_r, negb_true_iff.
    apply Nat.eqb_neq. intros <-. congruence.
Qed.

Lemma index_view_nil s : bounded s -> index_view s = [] -> forall g, test s g = false.
Proof.
  intros Hb E g. destruct (test s g) eqn:Hg; [|reflexivity].
  apply (elem_of_index_view_bounded s g Hb) in Hg. rewrite E in Hg. inversion Hg.
Qed.

Lemma bounded_subset a b : (forall i, test a i = true -> test b i = true) -> bounded b -> bounded a.
Proof. intros H Hb i Hi. apply Hb, H, Hi. Qed.

(** The set of the first remaining dimension [g]. *)
Lemma first_set rem g : g ∈ index_view rem -> none (dep g) = false ->
  let st0 := add_grid_dim_to_current_set deps (MkSetState (MkConnectedSet 0%N 0%N false) rem) g in
  let st := foldl (extend_current_set deps) st0 (index_view (remaining_grid_dims st0)) in
  set_ok (current st) /\ removed rem st /\ (count (remaining_grid_dims st) < count rem)%nat /\
  (forall g' d, (g' < 32)%nat -> test rem g' = true -> test (dep g) d = true -> test (dep g') d = true ->
     test (grid_dims (current st)) g' = true).
Proof.
  intros Hg Hn st0 st. pose proof Hg as [Hgt _]%elem_of_index_view.
  assert (Hr : removed rem st0).
  { apply removed_add; [|exact Hgt].
    split; intros g'; sets_cbn; rewrite test_empty; [rewrite andb_true_r; reflexivity|discriminate]. }
  pose proof (add_first rem g Hn : set_ok (current st0)) as Hok.
  assert (Est0 : remaining_grid_dims st0 = reset_dim rem g /\
    test (grid_dims (current st0)) g = true /\ forall d, test (dep g) d = true -> test (input_dims (current st0)) d = true).
  { unfold st0, add_grid_dim_to_current_set, dep. destruct (deps !!! g). sets_cbn.
    rewrite test_set_dim, Nat.eqb_refl. repeat split. intros d Hd. rewrite test_lor, Hd. apply orb_true_r. }
  destruct Est0 as (Er & Hgc & Hin).
  destruct (extend_spec rem (index_view (remaining_grid_dims st0)) st0) as (H1 & H2 & H3); [|exact Hok|exact Hr|].
  { apply Forall_forall. intros g' Hg'. rewrite Er in Hg'. apply elem_of_index_view in Hg' as [Hg' _].
    rewrite test_reset_dim in Hg'. apply andb_true_iff in Hg'. tauto. }
  fold st in H1, H2, H3. split; [exact H1|]. split; [exact H2|]. split.
  - eapply Nat.le_lt_trans; [|apply (count_reset rem g Hg)]. apply count_subset. intros i.
    destruct H2 as [H2 _]. rewrite H2, test_reset_dim. intros [Hi Hni]%andb_true_iff.
    rewrite Hi, andb_true_r. apply negb_true_iff, Nat.eqb_neq. intros <-.
    apply negb_true_iff in Hni. rewrite H3 in Hni by exact Hgc. discriminate.
  - intros g' d Hlt Hg' Hd Hd'. destruct (Nat.eq_dec g g') as [<-|Hne]; [apply H3, Hgc|].
    apply (extend_closed _ st0 g' d); [|apply Hin, Hd|exact Hd'].
    rewrite Er. apply elem_of_index_view. rewrite test_reset_dim, Hg'.
    split; [|exact Hlt]. rewrite (proj2 (Nat.eqb_neq _ _) Hne). reflexivity.
Qed.

Lemma ForEachConnectedSetLoop_spec fuel : forall rem, bounded rem -> (count rem < fuel)%nat ->
  sets_spec rem (ForEachConnectedSetLoop fuel deps rem).
Proof.
  induction fuel as [|fuel IH]; intros rem Hb Hf; [lia|]. cbn [ForEachConnectedSetLoop].
  destruct (index_view rem) as [|g l] eqn:El.
  { pose proof (index_view_nil rem Hb El) as Hn. split; [constructor|..].
    - intros c g H. inversion H.
    - intros g Hg. rewrite Hn in Hg. discriminate.
    - intros i j a b g H. inversion H. }
  assert (Hg : g ∈ index_view rem) by (rewrite El; left).
  destruct (none (deps !!! g).1) eqn:En.
  - assert (Er : remaining_grid_dims (add_grid_dim_to_current_set deps
      (MkSetState (MkConnectedSet 0%N 0%N false) rem) g) = reset_dim rem g)
      by (unfold add_grid_dim_to_current_set; destruct (deps !!! g); reflexivity).
    rewrite Er. pose proof (count_reset rem g Hg) as Hcount.
    apply (sets_spec_skip rem (reset_dim rem g) g); [exact En|intros g'; apply test_reset_dim|].
    apply IH; [|lia]. eapply bounded_subset; [|exact Hb]. intros i. rewrite test_reset_dim.
    intros [_ Hi]%andb_true_iff. exact Hi.
  - destruct (first_set rem g Hg En) as (H1 & [H2 H2'] & H3 & _).
    apply (sets_spec_cons rem _ _ _ H1 H2' H2). apply IH; [|lia].
    eapply bounded_subset; [|exact Hb]. intros i. rewrite H2. intros [Hi _]%andb_true_iff. exact Hi.
Qed.

(** No input dimension is in two sets. *)
Definition inputs_disjoint (sets : list ConnectedSet) : Prop :=
  forall i j a b d, sets !! i = Some a -> sets !! j = Some b ->
    test (input_dims a) d = true -> test (input_dims b) d = true -> i = j.

Lemma inputs_disjoint_cons c sets :
  (forall b d, b ∈ sets -> test (input_dims c) d = true -> test (input_dims b) d = true -> False) ->
  inputs_disjoint sets -> inputs_disjoint (c :: sets).
Proof.
  intros Hc H [|i] [|j] a b d Hi Hj Ha Hb; cbn in *; [reflexivity|exfalso..|f_equal].
  - injection Hi as <-. eapply Hc; [eapply list_elem_of_lookup_2, Hj|exact Ha|exact Hb].
  - injection Hj as <-. eapply Hc; [eapply list_elem_of_lookup_2, Hi|exact Hb|exact Ha].
  - eapply H; eassumption.
Qed.

(** The sets are disjoint when no grid dimension depends on two input dimensions. *)
Lemma single_disjoint fuel : forall rem, bounded rem -> (count rem < fuel)%nat ->
  (forall g, test rem g = true -> none (dep g) = false -> exists d, dep g = set_dim 0%N d) ->
  inputs_disjoint (ForEachConnectedSetLoop fuel deps rem).
Proof.
  induction fuel as [|fuel IH]; intros rem Hb Hf Hs; [lia|]. cbn [ForEachConnectedSetLoop].
  destruct (index_view rem) as [|g l] eqn:El; [intros i j a b d Hi; inversion Hi|].
  assert (Hg : g ∈ index_view rem) by (rewrite El; left).
  pose proof Hg as [Hgt _]%elem_of_index_view.
  destruct (none (deps !!! g).1) eqn:En.
  - assert (Er : remaining_grid_dims (add_grid_dim_to_current_set deps
      (MkSetState (MkConnectedSet 0%N 0%N false) rem) g) = reset_dim rem g)
      by (unfold add_grid_dim_to_current_set; destruct (deps !!! g); reflexivity).
    rewrite Er. pose proof (count_reset rem g Hg) as Hcount.
    assert (Hsub : forall i, test (reset_dim rem g) i = true -> test rem i = true)
      by (intros i; rewrite test_reset_dim; intros [_ Hi]%andb_true_iff; exact Hi).
    apply IH; [eapply bounded_subset; eassumption|lia|]. intros g' Hg'. apply Hs, Hsub, Hg'.
  - destruct (first_set rem g Hg En) as (H1 & [H2 H2'] & H3 & H4). cbv zeta in *.
    set (st := foldl _ _ _) in *.
    assert (Hsub : forall i, test (remaining_grid_dims st) i = true -> test rem i = true)
      by (intros i; rewrite H2; intros [Hi _]%andb_true_iff; exact Hi).
    assert (Hb' : bounded (remaining_grid_dims st)) by (eapply bounded_subset; eassumption).
    apply inputs_disjoint_cons; [|apply IH; [exact Hb'|lia|]; intros g' Hg'; apply Hs, Hsub, Hg'].
    destruct (ForEachConnectedSetLoop_spec fuel _ Hb' ltac:(lia)) as [Hok Hw _ _].
    intros b d Hbin Hd Hbd. rewrite Forall_forall in Hok.
    destruct (set_input _ (Hok b Hbin) d Hbd) as (g' & Hg' & Hdep).
    pose proof (Hw b g' Hbin Hg') as Hrem. pose proof (Hb' g' Hrem) as Hlt.
    pose proof (Hsub g' Hrem) as Hrg.
    destruct (set_single _ H1) as [d0 Hd0].
    { intros g0 Hg0. apply Hs; [apply H2', Hg0|]. apply (set_dep _ H1 g0 Hg0). }
    destruct (Hs g Hgt En) as [dg Hdg].
    assert (Hgd : test (dep g) d = true).
    { assert (Hgc : test (grid_dims (current st)) g = true).
      { apply (H4 g dg); [apply (Hb g Hgt)|exact Hgt|..]; rewrite Hdg, test_set_dim, Nat.eqb_refl; reflexivity. }
      destruct (set_dep _ H1 g Hgc) as [_ Hsub2]. rewrite Hd0 in Hd, Hsub2. apply single_overlap in Hd. subst d.
      specialize (Hsub2 dg). rewrite Hdg in Hsub2 |- *.
      assert (E : test (set_dim 0%N dg) dg = true) by (rewrite test_set_dim, Nat.eqb_refl; reflexivity).
      apply Hsub2, single_overlap in E. subst dg. rewrite test_set_dim, Nat.eqb_refl. reflexivity. }
    rewrite H2, (H4 g' d Hlt Hrg Hgd Hdep) in Hrem. rewrite andb_false_r in Hrem. discriminate.
Qed.
End Loop.

(** * The sets of a transform *)

Section Sets.
Variables (t : TransformRep) (gods : list nat).
Hypothesis HW : WellFormed t.
Hypothesis Hrank : (input_rank t <= 32)%nat.
Hypothesis Hgods : Forall (fun o => (o < output_rank t)%nat) gods.
Hypothesis Hgrid_rank : (length gods <= 32)%nat.

(** The map of a grid dimension. *)
Definition grid_map (g : nat) : OutputIndexMap := output_index_maps t !!! (gods !!! g).

Let deps := GetInputDimensionsForOutputDimension t <$> gods.

Lemma grid_output_lt g : (g < length gods)%nat -> (gods !!! g < output_rank t)%nat.
Proof.
  intros Hg. destruct (lookup_lt_is_Some_2 _ _ Hg) as [o Ho].
  rewrite (list_lookup_total_correct _ _ _ Ho). exact (Forall_lookup_1 _ _ _ _ Hgods Ho).
Qed.

Lemma grid_map_elem g : (g < length gods)%nat -> grid_map g ∈ output_index_maps t.
Proof.
  intros Hg. apply grid_output_lt in Hg. destruct (lookup_lt_is_Some_2 _ _ Hg) as [m Hm].
  unfold grid_map. rewrite (list_lookup_total_correct _ _ _ Hm). eapply list_elem_of_lookup_2, Hm.
Qed.

Lemma dep_grid g : (g < length gods)%nat ->
  deps !!! g = GetInputDimensionsForOutputDimension t (gods !!! g).
Proof.
  intros Hg. destruct (lookup_lt_is_Some_2 _ _ Hg) as [o Ho].
  rewrite (list_lookup_total_correct _ _ _ Ho). apply list_lookup_total_correct.
  unfold deps. rewrite list_lookup_fmap, Ho. reflexivity.
Qed.

(** A connected set, in terms of the maps: its grid dimensions are linked by the input dimensions on which they depend, and
    its input dimensions are those on which one of them depends. *)
Record connected (c : ConnectedSet) : Prop := MkConnected {
  connected_some : exists g, test (grid_dims c) g = true;
  connected_grid : forall g, test (grid_dims c) g = true -> (g < length gods)%nat;
  connected_map : forall g, test (grid_dims c) g = true ->
    (exists d, depends_on (grid_map g) d) /\
    forall d, depends_on (grid_map g) d -> test (input_dims c) d = true;
  connected_input : forall d, test (input_dims c) d = true -> (d < input_rank t)%nat;
  connected_strided : has_array c = false -> exists d, input_dims c = set_dim 0%N d /\
    forall g, test (grid_dims c) g = true -> method (grid_map g) = single_input_dimension d;
  connected_read : forall d, test (input_dims c) d = true ->
    exists g, test (grid_dims c) g = true /\ depends_on (grid_map g) d;
  connected_linked : forall g g', test (grid_dims c) g = true -> test (grid_dims c) g' = true ->
    linked (fun g => depends_on (grid_map g)) c g g';
  connected_array : has_array c = true <-> exists g, test (grid_dims c) g = true /\ is_array (grid_map g) = true
}.

Lemma set_ok_connected c : set_ok deps c ->
  (forall g, test (grid_dims c) g = true -> (g < length gods)%nat) -> connected c.
Proof.
  intros [H1 H2 H3 H4 H5 H6] Hg.
  assert (Hdeps : forall g, test (grid_dims c) g = true -> forall d, test (dep deps g) d = true <-> depends_on (grid_map g) d).
  { intros g Hgc. unfold dep. rewrite dep_grid by auto. exact (proj1 (dependencies_spec t _ (grid_output_lt g (Hg g Hgc)) HW)). }
  split; [exact H1|exact Hg|..].
  - intros g Hgc. destruct (H2 g Hgc) as [Hn Hs]. unfold dep in *. rewrite dep_grid in Hn, Hs by auto.
    destruct (dependencies_spec t _ (grid_output_lt g (Hg g Hgc)) HW) as (Hd & _). split.
    + apply not_none_spec in Hn as [d Hn]. exists d. apply Hd, Hn.
    + intros d Hdd. apply Hs, Hd, Hdd.
  - intros d Hd. destruct (H3 d Hd) as (g & Hgc & Hdg). unfold dep in Hdg. rewrite dep_grid in Hdg by auto.
    eapply (dependencies_bounded t); [exact (grid_output_lt g (Hg g Hgc))|exact HW|exact Hrank|exact Hdg].
  - intros Ha.
    assert (Hsingle : forall g, test (grid_dims c) g = true -> exists d,
      method (grid_map g) = single_input_dimension d /\ dep deps g = set_dim 0%N d).
    { intros g Hgc. destruct (H2 g Hgc) as [Hn _]. unfold dep in *. rewrite dep_grid in * by auto.
      apply (dependencies_single t); [exact (grid_output_lt g (Hg g Hgc))|exact HW| |exact Hn].
      apply not_true_is_false. intros Ht. rewrite <- not_true_iff_false, H4 in Ha. apply Ha.
      exists g. rewrite dep_grid by auto. auto. }
    destruct H5 as [d Hd].
    { intros g Hgc. destruct (Hsingle g Hgc) as (d & _ & E). eauto. }
    exists d. split; [exact Hd|]. intros g Hgc. destruct (Hsingle g Hgc) as (d' & Hm & E).
    destruct (H2 g Hgc) as [_ Hs]. rewrite Hd, E in Hs.
    rewrite Hm. f_equal. apply single_overlap, Hs. rewrite test_set_dim, Nat.eqb_refl. reflexivity.
  - intros d Hd. destruct (H3 d Hd) as (g & Hgc & Hdg). exists g. split; [exact Hgc|]. apply (Hdeps g Hgc), Hdg.
  - intros g g' Hgc Hgc'. refine (linked_subrel _ _ _ _ _ _ _ _ (H6 g g' Hgc Hgc')); [|auto].
    intros x d Hx Hxd. apply (Hdeps x Hx), Hxd.
  - rewrite H4. split; intros (g & Hgc & Ha); exists g; (split; [exact Hgc|]); rewrite dep_grid in * by auto;
      destruct (dependencies_spec t _ (grid_output_lt g (Hg g Hgc)) HW) as (_ & Hto & Hof); [exact (Hto Ha)|].
    destruct (H2 g Hgc) as [Hn _]. unfold dep in Hn. rewrite dep_grid in Hn by auto.
    apply not_none_spec in Hn as [d Hd]. exact (Hof d Ha Hd).
Qed.

Lemma ForEachConnectedSet_spec :
  Forall connected (ForEachConnectedSet gods t) /\
  grids_disjoint (ForEachConnectedSet gods t) /\
  (forall g d, (g < length gods)%nat -> depends_on (grid_map g) d ->
     exists c, c ∈ ForEachConnectedSet gods t /\ test (grid_dims c) g = true).
Proof.
  assert (Hb : bounded (UpTo (length gods))).
  { intros i. rewrite test_UpTo, Nat.ltb_lt. lia. }
  unfold ForEachConnectedSet. fold deps.
  destruct (ForEachConnectedSetLoop_spec deps (S (length gods)) (UpTo (length gods)) Hb) as [H1 H2 H3 H4].
  { apply Nat.lt_succ_r, (count_UpTo (length gods)). }
  generalize dependent (ForEachConnectedSetLoop (S (length gods)) deps (UpTo (length gods))).
  intros sets H1 H2 H3 H4.
  assert (Hw : forall c g, c ∈ sets -> test (grid_dims c) g = true -> (g < length gods)%nat).
  { intros c g Hc Hg. specialize (H2 c g Hc Hg). rewrite test_UpTo, Nat.ltb_lt in H2. exact H2. }
  split; [|split; [exact H4|]].
  - apply Forall_forall. intros c Hc. apply set_ok_connected; [|eauto].
    rewrite Forall_forall in H1. apply H1, Hc.
  - intros g d Hg Hd. apply H3; [rewrite test_UpTo; apply Nat.ltb_lt, Hg|].
    unfold dep. rewrite dep_grid by exact Hg. apply not_none_spec. exists d.
    apply (dependencies_spec t _ (grid_output_lt g Hg) HW), Hd.
Qed.
End Sets.

(** ** Input dimensions in two sets

    The loop visits the remaining grid dimensions once.  A dimension that it passes over can
    depend on an input dimension that a later one adds to the set, so two sets can have an
    input dimension in common. *)

Definition inputs_disjointb (sets : list ConnectedSet) : bool :=
  forallb (fun i => forallb (fun j => Nat.eqb i j ||
      match sets !! i, sets !! j with
      | Some a, Some b => none (N.land (input_dims a) (input_dims b))
      | _, _ => true
      end) (seq 0 (length sets))) (seq 0 (length sets)).

Lemma inputs_disjointb_spec sets : inputs_disjointb sets = true -> inputs_disjoint sets.
Proof.
  intros H i j a b d Hi Hj Ha Hb. unfold inputs_disjointb in H. rewrite forallb_forall in H.
  specialize (H i). rewrite forallb_forall in H.
  assert (Hin : forall k c, sets !! k = Some c -> List.In k (seq 0 (length sets))).
  { intros k c Hk. apply in_seq. apply lookup_lt_Some in Hk. lia. }
  specialize (H (Hin i a Hi) j (Hin j b Hj)). rewrite Hi, Hj in H.
  apply orb_true_iff in H as [H%Nat.eqb_eq|H]; [exact H|].
  apply none_spec with (i := d) in H. rewrite test_land, Ha, Hb in H. discriminate.
Qed.

(** When every grid dimension depends on one input dimension at most, the sets are disjoint. *)
Lemma single_dependencies_disjoint t gods :
  WellFormed t -> (input_rank t <= 32)%nat -> Forall (fun o => (o < output_rank t)%nat) gods ->
  (length gods <= 32)%nat ->
  (forall g d d', (g < length gods)%nat -> depends_on (grid_map t gods g) d ->
     depends_on (grid_map t gods g) d' -> d = d') ->
  inputs_disjoint (ForEachConnectedSet gods t).
Proof.
  intros HW Hr Hgods Hlen Hsingle. unfold ForEachConnectedSet. apply single_disjoint.
  - intros i. rewrite test_UpTo, Nat.ltb_lt. lia.
  - apply Nat.lt_succ_r, count_UpTo.
  - intros g Hg Hn. rewrite test_UpTo, Nat.ltb_lt in Hg. unfold dep in *.
    rewrite (dep_grid t gods) in * by assumption.
    destruct (dependencies_spec t _ (grid_output_lt t gods Hgods g Hg) HW) as (Hd & _).
    apply not_none_spec in Hn as [d Hn]. exists d. apply test_ext. intros d'.
    rewrite test_set_dim, test_empty, orb_false_r. destruct (Nat.eqb_spec d d') as [<-|Hne]; [exact Hn|].
    apply not_true_is_false. intros Hd'. apply Hne. apply (Hsingle g d d' Hg); apply Hd; assumption.
Qed.
