(* ===== verification/GridArrays.v ===== *)
(** The output indices of the positions of an index array set: the columns that
    [GenerateSingleInputDimensionOutputIndices] and [GenerateIndexArrayOutputIndices] fill are
    the output index map at every position of the input dimensions. *)

From stdpp Require Import sorting.
From S2P Require Import Prelude Int64 IndexInterval Transform TransformArray Dimensions GridPartition GridSets.

#[local] Opaque index_view.

(** * Index vectors *)

Definition in_box (box : list IndexInterval) (v : list Z) : Prop :=
  Forall2 (fun d i => inclusive_min d <= i < inclusive_min d + size d) box v.

Lemma elem_of_index_vectors box v : v ∈ index_vectors box <-> in_box box v.
Proof.
  unfold in_box. revert v; induction box as [|d box IH]; intros v; cbn [index_vectors].
  - rewrite list_elem_of_singleton. split; [intros ->; constructor|inversion 1; reflexivity].
  - rewrite list_elem_of_bind. split.
    + intros (i & (w & -> & Hw)%list_elem_of_fmap & Hi). apply elem_of_seqZ in Hi.
      constructor; [lia|]. apply IH, Hw.
    + intros H. inversion H as [|? i ? w Hi Hw]; subst. exists i. split.
      * apply list_elem_of_fmap. exists w. split; [reflexivity|]. apply IH, Hw.
      * apply elem_of_seqZ. lia.
Qed.

Lemma NoDup_index_vectors box : NoDup (index_vectors box).
Proof.
  induction box as [|d box IH]; cbn [index_vectors]; [apply NoDup_singleton|].
  apply NoDup_bind.
  - intros i j w _ _ (a & -> & _)%list_elem_of_fmap (b & E & _)%list_elem_of_fmap. congruence.
  - intros i _. apply NoDup_fmap_2; [intros ?? [= ?]; assumption|exact IH].
  - apply NoDup_seqZ.
Qed.

(** The number of positions of a box. *)
Definition volume (box : list IndexInterval) : Z := foldr (fun d n => size d * n) 1 box.

Lemma length_bind_const {A B} (f : A -> list B) (n : nat) (l : list A) :
  (forall x, length (f x) = n) -> length (l ≫= f) = (length l * n)%nat.
Proof.
  intros H. induction l as [|x l IH]; [reflexivity|]. cbn. rewrite length_app, H.
  change (concat (map f l)) with (l ≫= f). rewrite IH. reflexivity.
Qed.

Lemma volume_nonneg box : Forall (fun d => 0 <= size d) box -> 0 <= volume box.
Proof.
  induction 1 as [|d box Hd _ IH]; cbn; [lia|]. apply Z.mul_nonneg_nonneg; assumption.
Qed.

Lemma length_index_vectors box :
  Forall (fun d => 0 <= size d) box -> Z.of_nat (length (index_vectors box)) = volume box.
Proof.
  induction 1 as [|d box Hd Hbox IH]; cbn [index_vectors volume foldr]; [reflexivity|].
  rewrite (length_bind_const _ (length (index_vectors box))) by (intros; apply length_fmap).
  rewrite length_seqZ, Nat2Z.inj_mul, Z2Nat.id by exact Hd. rewrite IH. reflexivity.
Qed.

(** * The column of one input dimension *)

Lemma fmap_bind {A B C} (g : B -> C) (f : A -> list B) (l : list A) :
  g <$> (l ≫= f) = l ≫= (fun x => g <$> f x).
Proof.
  induction l as [|x l IH]; [reflexivity|]. cbn. rewrite fmap_app. f_equal. exact IH.
Qed.

Lemma fmap_replicate_concat {A B} (g : A -> B) n (l : list A) :
  g <$> concat (replicate n l) = concat (replicate n (g <$> l)).
Proof.
  induction n as [|n IH]; [reflexivity|]. cbn. rewrite fmap_app. f_equal. exact IH.
Qed.

Lemma concat_replicate_concat {A} (n m : nat) (l : list A) :
  concat (replicate n (concat (replicate m l))) = concat (replicate (n * m) l).
Proof.
  induction n as [|n IH]; [reflexivity|]. cbn. rewrite IH, replicate_add, concat_app. reflexivity.
Qed.

Lemma bind_replicate {A B} (l : list A) (k : list B) :
  l ≫= (fun _ => k) = concat (replicate (length l) k).
Proof. induction l as [|x l IH]; [reflexivity|]. cbn. f_equal. exact IH. Qed.

Lemma index_vectors_column box k d :
  Forall (fun d => 0 <= size d) box -> box !! k = Some d ->
  (fun v => v !!! k) <$> index_vectors box =
  concat (replicate (Z.to_nat (volume (take k box)))
    (i ← seqZ (inclusive_min d) (size d); replicate (Z.to_nat (volume (drop (S k) box))) i)).
Proof.
  intros Hbox. revert k; induction Hbox as [|d0 box Hd Hbox IH]; intros k Hk; [discriminate|].
  cbn [index_vectors]. rewrite fmap_bind.
  destruct k as [|k].
  - injection Hk as ->. cbn [take volume foldr drop]. change (Z.to_nat 1) with 1%nat. cbn [replicate concat].
    rewrite app_nil_r. apply list_bind_ext; [|reflexivity]. intros i. cbn.
    rewrite <- list_fmap_compose. change (drop 0 box) with box.
    rewrite <- length_index_vectors by exact Hbox. rewrite Nat2Z.id.
    clear. induction (index_vectors box) as [|v l IH]; [reflexivity|]. cbn. f_equal. exact IH.
  - cbn [take drop]. rewrite (list_bind_ext _ (fun _ => (fun v => v !!! k) <$> index_vectors box)
      (seqZ (inclusive_min d0) (size d0)) (seqZ (inclusive_min d0) (size d0))).
    + rewrite bind_replicate, length_seqZ. rewrite (IH k Hk), concat_replicate_concat.
      cbn [volume foldr]. fold (volume (take k box)). f_equal. f_equal.
      rewrite Z2Nat.inj_mul; [reflexivity|exact Hd|]. apply volume_nonneg.
      apply Forall_take, Hbox.
    + intros i. cbn. rewrite <- list_fmap_compose. reflexivity.
    + reflexivity.
Qed.

(** The loop over [i != stop] meets [stop] only after the last step. *)
Lemma strided_range_eq n : forall i stop stride,
  in_i64 i -> in_i64 stop ->
  stop = wrap64 (i + Z.of_nat n * stride) ->
  (forall k, 0 < k <= Z.of_nat n -> k * stride mod u64_modulus <> 0) ->
  strided_range n i stop stride = (fun k => wrap64 (i + k * stride)) <$> seqZ 0 (Z.of_nat n).
Proof.
  induction n as [|n IH]; intros i stop stride Hi Hs Hstop Hk; [reflexivity|].
  cbn [strided_range]. rewrite seqZ_cons by lia. rewrite fmap_cons.
  replace (i + 0 * stride) with i by lia. rewrite (wrap64_id i) by exact Hi.
  destruct (Z.eqb_spec i stop) as [E|_].
  - exfalso. apply (Hk (Z.of_nat (S n)) ltac:(lia)).
    assert (Hw : wrap64 (i + Z.of_nat (S n) * stride) mod u64_modulus = i mod u64_modulus) by congruence.
    rewrite wrap64_mod in Hw.
    replace (Z.of_nat (S n) * stride) with ((i + Z.of_nat (S n) * stride) - i) by lia.
    rewrite Zminus_mod, Hw, Z.sub_diag. reflexivity.
  - f_equal. rewrite IH.
    + replace (Z.pred (Z.of_nat (S n))) with (Z.of_nat n) by lia.
      change (Z.succ 0) with (1 + 0). rewrite <- (fmap_add_seqZ 1 0 (Z.of_nat n)), <- list_fmap_compose.
      apply list_fmap_ext. intros _ k _. cbn. rewrite wrap64_add_l. f_equal. lia.
    + apply wrap64_range.
    + exact Hs.
    + rewrite Hstop, wrap64_add_l. f_equal. lia.
    + intros k Hk'. apply Hk. lia.
Qed.

(** No multiple of the stride that the loop takes is zero modulo 2^64. *)
Lemma stride_multiples n stride :
  stride <> 0 -> in_i64 stride -> Z.abs ((n - 1) * stride) <= 2 * kInfIndex ->
  forall k, 0 < k <= n -> k * stride mod u64_modulus <> 0.
Proof.
  intros Hs Hs64 Hn k Hk E. apply Z.mod_divide in E; [|discriminate].
  destruct E as [q Hq]. rewrite Z.abs_mul in Hn. unfold_i64.
  assert (Hb : Z.abs (k * stride) < 18446744073709551616 /\ k * stride <> 0).
  { split; [|nia]. rewrite Z.abs_mul, (Z.abs_eq k) by lia. rewrite (Z.abs_eq (n - 1)) in Hn by lia.
    destruct (Z.eq_dec k 1) as [->|]; [lia|].
    assert (k * Z.abs stride <= (n - 1) * Z.abs stride + Z.abs stride) by nia.
    assert (Z.abs stride <= (n - 1) * Z.abs stride) by nia. lia. }
  destruct Hb as [Hb Hb0]. rewrite Hq, Z.abs_mul in Hb.
  rewrite (Z.abs_eq 18446744073709551616) in Hb by lia. nia.
Qed.

Lemma IsFinite_bounds x : IsFinite x = true -> Valid x ->
  kMinFiniteIndex <= inclusive_min x /\ inclusive_min x + size x - 1 <= kMaxFiniteIndex.
Proof.
  unfold IsFinite. rewrite andb_true_iff, !negb_true_iff, !Z.eqb_neq. intros [H1 H2] HV.
  rewrite inclusive_max_valid in H2 by exact HV. revert HV. unfold_valid. lia.
Qed.

(** Both ends of a finite interval are mapped to finite indices. *)
Lemma range_ends x o m y :
  Valid x -> IsFinite x = true -> 0 < size x -> in_i64 o -> in_i64 m ->
  GetAffineTransformRange x o m = Ok y ->
  kMinFiniteIndex <= inclusive_min x * m + o <= kMaxFiniteIndex /\
  kMinFiniteIndex <= (inclusive_min x + size x - 1) * m + o <= kMaxFiniteIndex.
Proof.
  intros HV Hf Hs Ho Hm. destruct (IsFinite_bounds x Hf HV) as [B1 B2].
  unfold GetAffineTransformRange. rewrite (inclusive_max_valid x HV).
  destruct (transform_bound_overflow o m (inclusive_min x)) as [ov1 lower] eqn:EL.
  destruct (transform_bound_overflow o m (inclusive_min x + size x - 1)) as [ov2 upper] eqn:EU.
  destruct ov1, ov2; cbn [orb]; try discriminate. intros _.
  apply transform_bound_spec in EL, EU; [|i64_lia..].
  destruct EL as [(H & _)|(_ & -> & H1)]; [exfalso; unfold_i64; lia|].
  destruct EU as [(H & _)|(_ & -> & H2)]; [exfalso; unfold_i64; lia|]. auto.
Qed.

(** * Numbers of positions *)

Lemma volume_app a b : volume (a ++ b) = volume a * volume b.
Proof. induction a as [|d a IH]; cbn [volume foldr app]; [fold (volume b); lia|]. fold (volume (a ++ b)) (volume a). rewrite IH. lia. Qed.

Lemma volume_pos box : Forall (fun d => 0 < size d) box -> 1 <= volume box.
Proof. induction 1 as [|d box Hd _ IH]; cbn [volume foldr]; [lia|]. fold (volume box). nia. Qed.

(** The product is exact when it is returned. *)
Lemma product_exact t l : forall n0 n,
  in_i64 n0 ->
  foldM (fun num_positions d =>
           let '(overflow, n) := MulOverflow num_positions (size (input_domain t !!! d)) in
           if overflow then Err kInvalidArgument else Ok n) n0 l = Ok n ->
  n = n0 * volume ((fun d => input_domain t !!! d) <$> l) /\ in_i64 n.
Proof.
  induction l as [|d l IH]; intros n0 n Hn0; cbn [foldM].
  - intros [= <-]. cbn. split; [lia|exact Hn0].
  - intros (n1 & E & H)%bind_Ok. revert E. case_overflow; [discriminate|].
    intros [= <-]. destruct (IH _ _ ltac:(eassumption) H) as [-> Hn]. split; [|exact Hn].
    rewrite fmap_cons. cbn [volume foldr]. fold (volume ((fun d => input_domain t !!! d) <$> l)). lia.
Qed.

Lemma ProductOfIndirectExtents_exact t dims n :
  ProductOfIndirectExtents t dims = Ok n -> n = volume (partial_domain t dims) /\ in_i64 n.
Proof.
  unfold ProductOfIndirectExtents, partial_domain. intros H.
  apply product_exact in H as [-> Hn]; [|i64_lia]. rewrite Z.mul_1_l in *. split; [reflexivity|exact Hn].
Qed.

Lemma tile_steps t s l : forall o i,
  s ∉ l -> 1 <= i -> Forall (fun d => 0 < size (input_domain t !!! d)) l ->
  in_i64 (i * volume ((fun d => input_domain t !!! d) <$> l)) ->
  foldl (tile_step t s) (o, i) l = (o, i * volume ((fun d => input_domain t !!! d) <$> l)).
Proof.
  induction l as [|d l IH]; intros o i Hs Hi Hpos Hv; cbn [foldl]; [cbn; rewrite Z.mul_1_r; reflexivity|].
  apply not_elem_of_cons in Hs as [Hsd Hs]. apply Forall_cons in Hpos as [Hd Hpos].
  rewrite fmap_cons in *. cbn [volume foldr] in *.
  fold (volume ((fun d => input_domain t !!! d) <$> l)) in *.
  set (v := volume _) in *. assert (1 <= v) by (apply volume_pos, Forall_fmap, Hpos).
  cbn [tile_step]. destruct (Nat.eqb_spec d s) as [|_]; [congruence|].
  rewrite wrap64_id by (revert Hv; unfold_i64; nia). rewrite IH; fold v.
  - f_equal. lia.
  - exact Hs.
  - nia.
  - exact Hpos.
  - rewrite <- Z.mul_assoc. exact Hv.
Qed.

Lemma tile_steps_split t d l1 l2 :
  let part := fmap (fun d => input_domain t !!! d) in
  NoDup (l1 ++ d :: l2) -> Forall (fun x => 0 < size x) (part (l1 ++ d :: l2)) ->
  in_i64 (volume (part (l1 ++ d :: l2))) ->
  foldl (tile_step t d) (1, 1) (l1 ++ d :: l2) = (volume (part l1), volume (part l2)).
Proof.
  intros part Hnd Hpos Hv. apply NoDup_app in Hnd as (_ & Hn1 & Hn2). apply NoDup_cons in Hn2 as [Hn2 _].
  unfold part in *. rewrite fmap_app, fmap_cons in Hpos, Hv.
  apply Forall_app in Hpos as [Hp1 Hp2]. apply Forall_cons in Hp2 as [Hd Hp2].
  rewrite volume_app in Hv. cbn [volume foldr] in Hv. fold (volume ((fun d => input_domain t !!! d) <$> l2)) in Hv.
  pose proof (volume_pos _ Hp1) as V1. pose proof (volume_pos _ Hp2) as V2.
  assert (Hd1 : d ∉ l1) by (intros Hin; apply (Hn1 d Hin), list_elem_of_here).
  rewrite foldl_app. rewrite tile_steps; [|exact Hd1|lia|exact (proj1 (Forall_fmap _ _ _) Hp1)|revert Hv; unfold_i64; nia].
  cbn [foldl tile_step]. rewrite Nat.eqb_refl.
  rewrite tile_steps; [|exact Hn2|lia|exact (proj1 (Forall_fmap _ _ _) Hp2)|revert Hv; unfold_i64; nia].
  rewrite !Z.mul_1_l. reflexivity.
Qed.

Lemma tile_counts_spec t dims k d :
  index_view dims !! k = Some d -> Forall (fun x => 0 < size x) (partial_domain t dims) ->
  in_i64 (volume (partial_domain t dims)) ->
  tile_counts t dims d =
    (volume (take k (partial_domain t dims)), volume (drop (S k) (partial_domain t dims))).
Proof.
  intros Hk. pose proof (NoDup_index_view dims) as Hnd. unfold tile_counts, partial_domain.
  rewrite <- fmap_take, <- fmap_drop. revert Hk Hnd. generalize (index_view dims) as l. intros l Hk.
  pose proof (tile_steps_split t d (take k l) (drop (S k) l)) as H. cbv zeta in H.
  rewrite (take_drop_middle _ _ _ Hk) in H. exact H.
Qed.

(** The column of a map of one input dimension. *)
Lemma single_column t m d dims n k ys :
  WellFormed t -> m ∈ output_index_maps t -> method m = single_input_dimension d ->
  index_view dims !! k = Some d ->
  Forall (fun x => Valid x /\ IsFinite x = true /\ 0 < size x) (partial_domain t dims) ->
  ProductOfIndirectExtents t dims = Ok n ->
  GenerateSingleInputDimensionOutputIndices t m d dims = Ok ys ->
  ys = (fun v => affine (v !!! k) (stride m) (offset m)) <$> index_vectors (partial_domain t dims).
Proof.
  intros HW Hm Hmd Hk Hdom Hn H. destruct (ProductOfIndirectExtents_exact t dims n Hn) as [-> Hvol].
  destruct (WellFormed_map t m HW Hm) as [Hc (Ho & Hs & _)].
  assert (Hs0 : stride m <> 0).
  { unfold check_map in Hc. rewrite Hmd in Hc. bool_to_prop. assumption. }
  assert (Hbox : partial_domain t dims !! k = Some (input_domain t !!! d))
    by (unfold partial_domain; rewrite list_lookup_fmap, Hk; reflexivity).
  destruct (Forall_lookup_1 _ _ _ _ Hdom Hbox) as (HV & Hf & Hsz).
  assert (Hpos : Forall (fun x => 0 < size x) (partial_domain t dims))
    by (eapply Forall_impl; [exact Hdom|]; cbn; tauto).
  unfold GenerateSingleInputDimensionOutputIndices in H. apply bind_Ok in H as (y & Hr & H).
  rewrite (tile_counts_spec t dims k d Hk Hpos Hvol) in H. injection H as <-.
  destruct (range_ends _ _ _ _ HV Hf Hsz Ho Hs Hr) as [R1 R2].
  change (fun v => affine (v !!! k) (stride m) (offset m))
    with ((fun i => affine i (stride m) (offset m)) ∘ (fun v : list Z => v !!! k)).
  rewrite list_fmap_compose, (index_vectors_column _ k _ ltac:(eapply Forall_impl; [exact Hpos|]; cbn; lia) Hbox).
  rewrite fmap_replicate_concat, fmap_bind. unfold FillWithTiledStridedRange.
  f_equal. f_equal. set (x := input_domain t !!! d) in *.
  rewrite strided_range_eq.
  - rewrite Z2Nat.id by lia. replace (seqZ (inclusive_min x) (size x)) with (Z.add (inclusive_min x) <$> seqZ 0 (size x))
      by (rewrite fmap_add_seqZ, Z.add_0_r; reflexivity).
    rewrite !list_fmap_bind.
    apply list_bind_ext; [|reflexivity]. intros i. cbn. rewrite fmap_replicate. f_equal. unfold affine.
    rewrite wrap64_add_l, <- Z.add_assoc, (Z.add_comm (wrap64 _)), Z.add_assoc, wrap64_add_r. f_equal. lia.
  - apply wrap64_range.
  - apply wrap64_range.
  - rewrite Z2Nat.id by lia. autorewrite with i64_wrap. reflexivity.
  - rewrite Z2Nat.id by lia. apply stride_multiples; [exact Hs0|exact Hs|].
    replace ((size x - 1) * stride m)
      with (((inclusive_min x + size x - 1) * stride m + offset m) - (inclusive_min x * stride m + offset m)) by lia.
    revert R1 R2. unfold_i64. lia.
Qed.

(** * The column of an index array *)

(** The components of a position at some dimensions. *)
Definition select (dims : list nat) (x : list Z) : list Z := (fun d => x !!! d) <$> dims.

Lemma scatter_select dims x n d :
  NoDup dims -> Forall (fun d => (d < n)%nat) dims -> d ∈ dims ->
  scatter dims (select dims x) (replicate n 0) !!! d = x !!! d.
Proof.
  intros Hnd Hlt [i Hi]%list_elem_of_lookup. apply (scatter_at _ _ _ i); [exact Hnd| |exact Hi|].
  - rewrite length_replicate. exact Hlt.
  - unfold select. rewrite list_lookup_fmap, Hi. reflexivity.
Qed.

(** Only the dimensions with a stride take part in an inner product. *)
Lemma dot_select dims x s :
  length x = length s -> NoDup dims -> Forall (fun d => (d < length s)%nat) dims ->
  (forall i, s !!! i <> 0 -> i ∈ dims) ->
  dot x s = dot (select dims x) (select dims s).
Proof.
  intros Hl Hnd Hlt Hs.
  rewrite (dot_agree x (scatter dims (select dims x) (replicate (length s) 0)) s).
  - rewrite dot_scatter.
    + rewrite dot_zeros. reflexivity.
    + exact Hnd.
    + rewrite length_replicate. exact Hlt.
    + apply length_fmap.
    + apply length_replicate.
    + intros d _. apply lookup_replicate_zero.
  - rewrite length_scatter, length_replicate. exact Hl.
  - intros i Hi. symmetry. apply scatter_select; [exact Hnd|exact Hlt|]. apply Hs, Hi.
Qed.

Lemma layout_offsets_dot rel shape s :
  Forall2 (fun r n => 0 <= r < n) rel shape -> length s = length shape -> dot rel s ∈ layout_offsets shape s.
Proof.
  intros H. revert s; induction H as [|r n rel shape Hr _ IH]; intros [|y s] Hl; try discriminate.
  - apply list_elem_of_here.
  - cbn [layout_offsets]. rewrite dot_cons. injection Hl as Hl. specialize (IH s Hl).
    destruct (Z.eqb_spec y 0) as [->|]; [rewrite Z.mul_0_r; exact IH|].
    apply list_elem_of_bind. exists r. split; [|apply elem_of_seqZ; lia].
    apply list_elem_of_fmap. exists (dot rel s). split; [reflexivity|exact IH].
Qed.

Lemma ValidateIndexArrayBounds_Contains bounds p shape s z :
  Valid bounds -> ValidateIndexArrayBounds bounds p shape s = Ok tt -> z ∈ layout_offsets shape s ->
  Contains bounds (p (wrap64 z)) = true.
Proof.
  intros HV H Hz. unfold ValidateIndexArrayBounds in H.
  destruct (forallb _ _) eqn:E; [|discriminate]. rewrite forallb_forall in E.
  specialize (E z (proj1 (list_elem_of_In _ _) Hz)). cbv beta zeta in E.
  apply andb_true_iff in E as [E1%Z.leb_le E2%Z.ltb_lt]. revert E1 E2.
  destruct (Intersect_bounds bounds FiniteRange HV Valid_FiniteRange) as (HI & B1 & B2).
  unfold FiniteSubset. rewrite exclusive_max_valid by exact HI. intros E1 E2.
  assert (C : Contains (Intersect bounds FiniteRange) (p (wrap64 z)) = true).
  { apply Contains_spec; [exact HI|]. rewrite inclusive_max_valid by exact HI. split; [|lia].
    change (inclusive_min FiniteRange) with kMinFiniteIndex in B1.
    change (inclusive_min FiniteRange) with kMinFiniteIndex in B2.
    change (inclusive_max FiniteRange) with kMaxFiniteIndex in B2.
    rewrite inclusive_max_valid in B2 by exact HI. lia. }
  rewrite (Intersect_Contains _ _ _ HV Valid_FiniteRange) in C. apply andb_true_iff in C as [C _]. exact C.
Qed.

(** The positions relative to the origin. *)
Lemma index_vectors_zero_origin box :
  index_vectors ((fun x => UncheckedSized 0 (size x)) <$> box) =
  (fun v => zip_with Z.sub v (inclusive_min <$> box)) <$> index_vectors box.
Proof.
  induction box as [|d box IH]; [reflexivity|]. rewrite !fmap_cons. cbn [index_vectors].
  rewrite fmap_bind, IH. change (inclusive_min (UncheckedSized 0 (size d))) with 0.
  change (size (UncheckedSized 0 (size d))) with (size d).
  replace (seqZ (inclusive_min d) (size d)) with (Z.add (inclusive_min d) <$> seqZ 0 (size d))
    by (rewrite fmap_add_seqZ, Z.add_0_r; reflexivity).
  rewrite list_fmap_bind. apply list_bind_ext; [|reflexivity]. intros i. cbn.
  rewrite <- !list_fmap_compose. apply list_fmap_ext. intros _ v _. cbn. f_equal. lia.
Qed.

Lemma in_box_length box x : in_box box x -> length x = length box.
Proof. intros H. symmetry. eapply Forall2_length, H. Qed.

Lemma in_box_select t dims x :
  in_box (input_domain t) x -> Forall (fun d => (d < input_rank t)%nat) (index_view dims) ->
  in_box (partial_domain t dims) (select (index_view dims) x).
Proof.
  intros Hx Hlt. unfold partial_domain, select, in_box. apply Forall2_fmap, Forall2_same_length_lookup_2; [reflexivity|].
  intros i d d' Hd Hd'. rewrite Hd in Hd'. injection Hd' as <-.
  pose proof (Forall_lookup_1 _ _ _ _ Hlt Hd) as Hdlt. cbn in Hdlt.
  destruct (lookup_lt_is_Some_2 (input_domain t) d) as [I HI]; [unfold input_domain; rewrite length_fmap; exact Hdlt|].
  destruct (lookup_lt_is_Some_2 x d) as [v Hv].
  { rewrite (in_box_length _ _ Hx). unfold input_domain; rewrite length_fmap; exact Hdlt. }
  rewrite (list_lookup_total_correct _ _ _ HI), (list_lookup_total_correct _ _ _ Hv).
  exact (Forall2_lookup_lr _ _ _ _ _ _ Hx HI Hv).
Qed.

(** The position relative to the origin. *)
Lemma relative_position box x :
  in_box box x -> let rel := zip_with Z.sub x (inclusive_min <$> box) in
  zip_with Z.add (inclusive_min <$> box) rel = x /\
  Forall2 (fun r n => 0 <= r < n) rel (size <$> box).
Proof.
  induction 1 as [|d i box x Hi _ IH]; cbn in *; [split; [reflexivity|constructor]|].
  destruct IH as [IH1 IH2]. split; [f_equal; [lia|exact IH1]|]. constructor; [lia|exact IH2].
Qed.

Lemma array_column t m data dims n ys :
  WellFormed t -> m ∈ output_index_maps t -> method m = array data ->
  Forall (fun d => (d < input_rank t)%nat) (index_view dims) ->
  (forall i, byte_strides data !!! i <> 0 -> i ∈ index_view dims) ->
  Forall (fun x => 0 < size x) (input_domain t) ->
  GenerateIndexArrayOutputIndices t m data dims n = Ok ys ->
  exists col : list Z -> Z, ys = col <$> index_vectors (partial_domain t dims) /\
    forall x, in_box (input_domain t) x -> output_index m x = Ok (col (select (index_view dims) x)).
Proof.
  intros HW Hm Hmd Hlt Hs Hpos. destruct (WellFormed_map t m HW Hm) as [_ (_ & _ & Ht)].
  rewrite Hmd in Ht. destruct Ht as [Hl HVr]. unfold GenerateIndexArrayOutputIndices.
  assert (He : existsb (fun n => n =? 0) (size <$> input_domain t) = false).
  { apply not_true_is_false. rewrite existsb_exists. intros (z & Hz & E%Z.eqb_eq).
    apply list_elem_of_In, list_elem_of_fmap in Hz as (I & -> & HI). rewrite Forall_forall in Hpos.
    specialize (Hpos I HI). lia. }
  rewrite He. set (p := AddByteOffset _ _). intros ([] & Hb & [= <-])%bind_Ok.
  rewrite index_vectors_zero_origin, <- list_fmap_compose.
  set (strides := select (index_view dims) (byte_strides data)).
  change ((fun d => byte_strides data !!! d) <$> index_view dims) with strides.
  eexists. split; [reflexivity|]. intros x Hx. cbn.
  assert (Hxl : length x = input_rank t)
    by (rewrite (in_box_length _ _ Hx); unfold input_domain; apply length_fmap).
  set (rel := zip_with Z.sub x (inclusive_min <$> input_domain t)).
  assert (Hrl : length rel = input_rank t).
  { unfold rel. rewrite length_zip_with, length_fmap. unfold input_domain. rewrite length_fmap. unfold input_rank in *. lia. }
  assert (Hsel : zip_with Z.sub (select (index_view dims) x) (inclusive_min <$> partial_domain t dims) =
    select (index_view dims) rel).
  { unfold select, partial_domain. rewrite <- list_fmap_compose, zip_with_fmap_l, zip_with_fmap_r, zip_with_diag.
    apply list_fmap_ext. intros i d Hd. pose proof (Forall_lookup_1 _ _ _ _ Hlt Hd) as Hdlt. cbn in Hdlt |- *.
    unfold rel. rewrite (lookup_total_zip_with (Inhabited0 := Z_index_inhabited) (Inhabited1 := Z_index_inhabited) Z.sub); [|lia|rewrite length_fmap; unfold input_domain; rewrite length_fmap; exact Hdlt].
    rewrite (list_lookup_total_fmap (Inhabited0 := Interval_inhabited) inclusive_min); [reflexivity|]. unfold input_domain. rewrite length_fmap. exact Hdlt. }
  rewrite Hsel. unfold strides.
  rewrite <- (dot_select (index_view dims) rel (byte_strides data)); [|congruence|apply NoDup_index_view|rewrite Hl; exact Hlt|exact Hs].
  assert (Hv : p (wrap64 (dot rel (byte_strides data))) =
    element_pointer data (IndexInnerProduct x (byte_strides data))).
  { unfold p. rewrite index_array_pointer_value by (rewrite Hrl; unfold input_domain; apply length_fmap).
    f_equal. f_equal. apply (relative_position _ _ Hx). }
  unfold output_index, base_output_index. rewrite Hmd, <- Hv. unfold CheckContains.
  rewrite (ValidateIndexArrayBounds_Contains _ _ _ _ _ HVr Hb).
  - cbn. f_equal. rewrite wrap64_add_l. reflexivity.
  - apply layout_offsets_dot; [|rewrite length_fmap; unfold input_domain; rewrite length_fmap; exact Hl].
    apply (relative_position _ _ Hx).
Qed.

(** * The cells of the positions of an index array set *)

Section CellIndices.
Variables (t : TransformRep) (gods : list nat) (f : OutputToGridCellFn).
Hypothesis HW : WellFormed t.
Hypothesis Hrank : (input_rank t <= 32)%nat.
Hypothesis Hgods : Forall (fun o => (o < output_rank t)%nat) gods.
Hypothesis Hgrid_rank : (length gods <= 32)%nat.
Hypothesis Hdom : Forall (fun x => IsFinite x = true /\ 0 < size x) (input_domain t).

(** The cell of a position in one grid dimension. *)
Definition grid_cell (x : list Z) (g : nat) : Z :=
  match output_index (grid_map t gods g) x with Ok y => (f g y).1 | Err _ => 0 end.

Variable c : ConnectedSet.
Hypothesis Hc : connected t gods c.

Let V := index_vectors (partial_domain t (input_dims c)).

Lemma input_dims_lt : Forall (fun d => (d < input_rank t)%nat) (index_view (input_dims c)).
Proof.
  apply Forall_forall. intros d [Hd _]%elem_of_index_view. exact (connected_input _ _ _ Hc d Hd).
Qed.

Lemma elem_of_input_dims d : d ∈ index_view (input_dims c) <-> test (input_dims c) d = true.
Proof.
  rewrite elem_of_index_view. split; [tauto|]. intros Hd. split; [exact Hd|].
  pose proof (connected_input _ _ _ Hc d Hd). lia.
Qed.

Lemma partial_domain_valid :
  Forall (fun x => Valid x /\ IsFinite x = true /\ 0 < size x) (partial_domain t (input_dims c)).
Proof.
  apply Forall_fmap. eapply Forall_impl; [exact input_dims_lt|]. intros d Hd. cbn.
  destruct (lookup_lt_is_Some_2 (input_dimensions t) d Hd) as [D HD].
  assert (HI : input_domain t !! d = Some (domain D)) by (unfold input_domain; rewrite list_lookup_fmap, HD; reflexivity).
  rewrite (list_lookup_total_correct _ _ _ HI). split.
  - exact (Forall_lookup_1 _ _ _ _ (WellFormed_valid_dims t HW) HD).
  - exact (Forall_lookup_1 _ _ _ _ Hdom HI).
Qed.

Lemma grid_column g n ys :
  test (grid_dims c) g = true -> ProductOfIndirectExtents t (input_dims c) = Ok n ->
  grid_dim_output_indices t gods (input_dims c) n g = Ok ys ->
  exists col : list Z -> Z, ys = col <$> V /\
    forall x, in_box (input_domain t) x ->
      output_index (grid_map t gods g) x = Ok (col (select (index_view (input_dims c)) x)).
Proof.
  intros Hg Hn. pose proof (connected_grid _ _ _ Hc g Hg) as Hlt.
  pose proof (grid_map_elem t gods Hgods g Hlt) as Hm.
  destruct (connected_map _ _ _ Hc g Hg) as [_ Hsub]. unfold grid_dim_output_indices.
  change (output_index_maps t !!! (gods !!! g)) with (grid_map t gods g).
  set (m := grid_map t gods g) in *. destruct (method m) as [|d|data] eqn:E; [discriminate|..].
  - intros H. assert (Hd : depends_on m d).
    { unfold depends_on. rewrite E. split; [reflexivity|].
      destruct (WellFormed_map t m HW Hm) as [Hcm _]. unfold check_map in Hcm. rewrite E in Hcm.
      bool_to_prop. assumption. }
    apply Hsub, elem_of_input_dims in Hd as Hin. apply list_elem_of_lookup in Hin as [k Hk].
    exists (fun v => affine (v !!! k) (stride m) (offset m)). split.
    + exact (single_column t m d _ n k ys HW Hm E Hk partial_domain_valid Hn H).
    + intros x _. apply output_index_base. unfold base_output_index. rewrite E. f_equal.
      unfold select. symmetry. apply (lookup_total_fmap (fun d => x !!! d)), Hk.
  - intros H. apply (array_column t m data _ n ys HW Hm E input_dims_lt); [|..|exact H].
    + intros i Hi. apply elem_of_input_dims, Hsub. unfold depends_on. rewrite E. exact Hi.
    + eapply Forall_impl; [exact Hdom|]. cbn. tauto.
Qed.

Lemma fill_column_fmap (F : list Z -> list Z) (G : list Z -> Z) i :
  fill_column (F <$> V) i (G <$> V) = (fun v => <[i := G v]> (F v)) <$> V.
Proof. unfold fill_column. rewrite zip_with_fmap_l, zip_with_fmap_r, zip_with_diag. reflexivity. Qed.

Lemma elem_of_imap_pair (l : list nat) i g : (i, g) ∈ imap pair l <-> l !! i = Some g.
Proof.
  rewrite list_elem_of_lookup. split.
  - intros [k Hk]. rewrite list_lookup_imap in Hk. destruct (l !! k) eqn:E; [|discriminate].
    injection Hk as <- <-. exact E.
  - intros H. exists i. rewrite list_lookup_imap, H. reflexivity.
Qed.

(** The rows are the cells of the positions. *)
Lemma GenerateIndexArraySetGridCellIndices_spec n rows :
  ProductOfIndirectExtents t (input_dims c) = Ok n ->
  GenerateIndexArraySetGridCellIndices c gods f t n = Ok rows ->
  exists cells : list Z -> list Z, rows = cells <$> V /\
    forall x, in_box (input_domain t) x ->
      cells (select (index_view (input_dims c)) x) = grid_cell x <$> index_view (grid_dims c) /\
      forall g, test (grid_dims c) g = true -> is_ok (output_index (grid_map t gods g) x) = true.
Proof.
  intros Hn. destruct (ProductOfIndirectExtents_exact t _ n Hn) as [Hvol _].
  unfold GenerateIndexArraySetGridCellIndices. set (gs := index_view (grid_dims c)).
  change (count (grid_dims c)) with (length gs). intros H.
  apply (foldM_prefix _ (fun pre rows => (forall p, p ∈ pre -> p ∈ imap pair gs) /\
    exists F : list Z -> list Z, rows = F <$> V /\ (forall v, length (F v) = length gs) /\
    forall x i g, in_box (input_domain t) x -> (i, g) ∈ pre ->
      F (select (index_view (input_dims c)) x) !! i = Some (grid_cell x g) /\
      is_ok (output_index (grid_map t gods g) x) = true)) in H as (_ & F & -> & HF & Hspec).
  - exists F. split; [reflexivity|]. intros x Hx. split.
    + apply list_eq. intros i. rewrite list_lookup_fmap.
      destruct (gs !! i) as [g|] eqn:E; cbn.
      * apply (Hspec x i g Hx), elem_of_imap_pair, E.
      * apply lookup_ge_None in E. apply lookup_ge_None. rewrite HF. exact E.
    + intros g Hg. assert (Hgs : g ∈ gs) by (apply elem_of_index_view; split; [exact Hg|]; pose proof (connected_grid _ _ _ Hc g Hg); lia).
      apply list_elem_of_lookup in Hgs as [i Hi]. apply (Hspec x i g Hx), elem_of_imap_pair, Hi.
  - split; [intros p Hp; inversion Hp|]. exists (fun _ => replicate (length gs) 0). split; [|split].
    + replace (Z.to_nat n) with (length V).
      * clear. induction V as [|v l IH]; [reflexivity|]. cbn. f_equal. exact IH.
      * rewrite Hvol, <- length_index_vectors, Nat2Z.id; [reflexivity|].
        eapply Forall_impl; [exact partial_domain_valid|]. cbn. lia.
    + intros _. apply length_replicate.
    + intros x i g _ Hp. inversion Hp.
  - intros pre [i g] rows1 rows2 Hin (Hpre & F & -> & HF & Hspec) E.
    unfold grid_dim_cell_indices in E. apply bind_Ok in E as (column & E & [= <-]).
    apply bind_Ok in E as (ys & Ey & [= <-]).
    assert (Hg : test (grid_dims c) g = true).
    { apply elem_of_imap_pair in Hin. apply list_elem_of_lookup_2, elem_of_index_view in Hin. tauto. }
    destruct (grid_column g n ys Hg Hn Ey) as (col & -> & Hcol). rewrite <- list_fmap_compose, fill_column_fmap.
    split; [intros p [Hp|E%list_elem_of_singleton]%elem_of_app; [auto|subst p; exact Hin]|].
    eexists. split; [reflexivity|split; [intros v; rewrite length_insert; apply HF|]].
    intros x i' g' Hx [Hp|E%list_elem_of_singleton]%elem_of_app; [|injection E as -> ->]; cbn.
    + destruct (Hspec x i' g' Hx Hp) as [H1 H2]. split; [|exact H2].
      destruct (decide (i = i')) as [<-|Hne]; [|rewrite list_lookup_insert_ne by exact Hne; exact H1].
      apply Hpre, elem_of_imap_pair in Hp. apply elem_of_imap_pair in Hin. rewrite Hin in Hp. injection Hp as <-.
      rewrite list_lookup_insert_eq by (rewrite HF; eapply lookup_lt_Some, Hin).
      unfold grid_cell. rewrite (Hcol x Hx). reflexivity.
    + split; [|rewrite (Hcol x Hx); reflexivity].
      apply elem_of_imap_pair in Hin. rewrite list_lookup_insert_eq by (rewrite HF; eapply lookup_lt_Some, Hin).
      unfold grid_cell. rewrite (Hcol x Hx). reflexivity.
Qed.
End CellIndices.
