(* ===== verification/GridBuckets.v ===== *)
(** The partition of the positions of an index array set: the counting sort of
    [PartitionIndexArraySetGridCellIndexVectors] and
    [GenerateIndexArraySetPartitionedInputIndices], and the binary search of [FindPartition]. *)

From stdpp Require Import gmap sorting.
From S2P Require Import Prelude Int64 IndexInterval Transform TransformArray GridPartition.

#[local] Opaque index_view.

(** * The order of cell index vectors *)

Lemma lex_leb_cons x a y b : lex_leb (x :: a) (y :: b) = true <-> x < y \/ (x = y /\ lex_leb a b = true).
Proof. cbn. rewrite orb_true_iff, andb_true_iff, Z.ltb_lt, Z.eqb_eq. reflexivity. Qed.

#[export] Instance lex_le_trans : Transitive lex_le.
Proof.
  intros a. unfold lex_le. induction a as [|x a IH]; intros [|y b] [|z c] H1 H2; try discriminate; try reflexivity.
  rewrite lex_leb_cons in *. destruct H1 as [H1|[-> H1]], H2 as [H2|[-> H2]]; [left; lia|left; lia|left; lia|].
  right. split; [reflexivity|]. exact (IH b c H1 H2).
Qed.

#[export] Instance lex_le_total : Total lex_le.
Proof.
  intros a. unfold lex_le. induction a as [|x a IH]; intros [|y b]; auto. rewrite !lex_leb_cons.
  destruct (Z.lt_total x y) as [?|[->|?]]; auto. destruct (IH b); auto.
Qed.

#[export] Instance lex_le_antisymm : AntiSymm (=) lex_le.
Proof.
  intros a. unfold lex_le. induction a as [|x a IH]; intros [|y b] H1 H2; try discriminate; [reflexivity|].
  rewrite lex_leb_cons in *. destruct H1 as [H1|[-> H1]], H2 as [H2|[E H2]]; try lia.
  f_equal. exact (IH b H1 H2).
Qed.

(** * Buckets *)

Section Buckets.
Context {A : Type}.

(** The values of the pairs with key [v], in order. *)
Definition bucket (l : list (list Z * A)) (v : list Z) : list A := (filter (fun p => p.1 = v) l).*2.

Lemma bucket_app l1 l2 v : bucket (l1 ++ l2) v = bucket l1 v ++ bucket l2 v.
Proof. unfold bucket. rewrite filter_app, fmap_app. reflexivity. Qed.

Lemma bucket_one w a v : bucket [(w, a)] v = if decide (w = v) then [a] else [].
Proof. unfold bucket. rewrite filter_cons. cbn. destruct (decide (w = v)); reflexivity. Qed.

Lemma elem_of_bucket l v a : a ∈ bucket l v <-> (v, a) ∈ l.
Proof.
  unfold bucket. rewrite list_elem_of_fmap. split.
  - intros ([w b] & -> & [E H]%list_elem_of_filter). cbn in E. subst w. exact H.
  - intros H. exists (v, a). split; [reflexivity|]. apply list_elem_of_filter. auto.
Qed.

(** Where the bucket of the key number [k] starts. *)
Definition start (l : list (list Z * A)) (keys : list (list Z)) (k : nat) : nat :=
  length (take k keys ≫= bucket l).

Lemma start_S l keys k v : keys !! k = Some v -> start l keys (S k) = (start l keys k + length (bucket l v))%nat.
Proof.
  intros H. unfold start. rewrite (take_S_r _ _ _ H), bind_app, length_app. cbn. rewrite app_nil_r. reflexivity.
Qed.

Lemma start_mono l keys k k' : (k <= k')%nat -> (start l keys k <= start l keys k')%nat.
Proof.
  intros H. unfold start. replace k' with (k + (k' - k))%nat by lia.
  rewrite <- take_take_drop, bind_app, length_app. lia.
Qed.

Lemma concat_lookup l keys k v j :
  keys !! k = Some v -> (j < length (bucket l v))%nat ->
  (keys ≫= bucket l) !! (start l keys k + j)%nat = bucket l v !! j.
Proof.
  intros Hk Hj.
  assert (E : keys ≫= bucket l = (take k keys ≫= bucket l) ++ bucket l v ++ (drop (S k) keys ≫= bucket l)).
  { rewrite <- (take_drop_middle _ _ _ Hk) at 1. rewrite bind_app. reflexivity. }
  rewrite E, lookup_app_r by (unfold start; lia). unfold start.
  replace (length _ + j - length _)%nat with j by lia. rewrite lookup_app_l by exact Hj. reflexivity.
Qed.

Lemma concat_position l keys i :
  (i < length (keys ≫= bucket l))%nat ->
  exists k v j, keys !! k = Some v /\ (j < length (bucket l v))%nat /\ i = (start l keys k + j)%nat.
Proof.
  revert i; induction keys as [|v keys IH]; intros i Hi; [cbn in Hi; lia|].
  cbn in Hi. rewrite length_app in Hi. destruct (decide (i < length (bucket l v))%nat) as [H|H].
  - exists 0%nat, v, i. split; [reflexivity|]. split; [exact H|reflexivity].
  - destruct (IH (i - length (bucket l v))%nat) as (k & w & j & Hk & Hj & E).
    + change (concat (map (bucket l) keys)) with (keys ≫= bucket l) in Hi. lia.
    + exists (S k), w, j. split; [exact Hk|]. split; [exact Hj|].
      unfold start in *. cbn. rewrite length_app. change (concat (map (bucket l) (take k keys))) with (take k keys ≫= bucket l). lia.
Qed.
End Buckets.

(** * The counts and the offsets *)

Definition occurrences (rows : list (list Z)) (v : list Z) : nat := length (filter (fun w => w = v) rows).

Lemma count_cells_lookup rows v :
  count_cells rows !! v =
  if decide (occurrences rows v = 0%nat) then None else Some (Z.of_nat (occurrences rows v)).
Proof.
  unfold count_cells, occurrences. induction rows as [|w rows IH] using rev_ind; [reflexivity|].
  rewrite foldl_app, filter_app, length_app, filter_cons. cbn [foldl].
  set (cells := foldl _ _ _) in *. destruct (decide (w = v)) as [->|Hne].
  - rewrite lookup_insert_eq, IH. cbn. repeat case_decide; cbn; try lia; f_equal; lia.
  - rewrite lookup_insert_ne by exact Hne. cbn. rewrite Nat.add_0_r. exact IH.
Qed.

Lemma occurrences_elem rows v : v ∈ rows <-> occurrences rows v <> 0%nat.
Proof.
  unfold occurrences. split.
  - intros H E. apply nil_length_inv in E. assert (Hin : v ∈ filter (fun w => w = v) rows) by (apply list_elem_of_filter; auto).
    rewrite E in Hin. inversion Hin.
  - intros H. destruct (filter _ rows) as [|w l] eqn:E; [contradiction|].
    assert (Hin : w ∈ filter (fun w => w = v) rows) by (rewrite E; apply list_elem_of_here).
    apply list_elem_of_filter in Hin as [-> Hin]. exact Hin.
Qed.

Definition sorted_cells (rows : list (list Z)) : list (list Z) :=
  merge_sort lex_le (map_to_list (count_cells rows)).*1.

Lemma sorted_cells_NoDup rows : NoDup (sorted_cells rows).
Proof. unfold sorted_cells. rewrite merge_sort_Permutation. apply NoDup_fst_map_to_list. Qed.

Lemma elem_of_sorted_cells rows v : v ∈ sorted_cells rows <-> v ∈ rows.
Proof.
  unfold sorted_cells. rewrite (occurrences_elem rows), merge_sort_Permutation, list_elem_of_fmap. split.
  - intros ([w n] & -> & H%elem_of_map_to_list). cbn. rewrite count_cells_lookup in H. case_decide; [discriminate|assumption].
  - intros H. exists (v, Z.of_nat (occurrences rows v)). split; [reflexivity|]. apply elem_of_map_to_list.
    rewrite count_cells_lookup, decide_False by exact H. reflexivity.
Qed.

Lemma sorted_cells_sorted rows : StronglySorted lex_le (sorted_cells rows).
Proof. apply (StronglySorted_merge_sort lex_le). Qed.

Lemma occurrences_bucket {A} (rows : list (list Z)) (vectors : list A) v :
  length rows = length vectors -> length (bucket (zip rows vectors) v) = occurrences rows v.
Proof.
  unfold bucket, occurrences. rewrite length_fmap. revert vectors.
  induction rows as [|w rows IH]; intros [|a vectors] Hl; try discriminate; [reflexivity|].
  injection Hl as Hl. cbn [zip zip_with]. rewrite !filter_cons. cbn [fst].
  destruct (decide (w = v)); cbn [length]; [f_equal|]; exact (IH vectors Hl).
Qed.

Lemma assign_offsets_spec {A} (l : list (list Z * A)) keys : forall cells o offsets cells',
  NoDup keys -> (forall v, v ∈ keys -> default 0 (cells !! v) = Z.of_nat (length (bucket l v))) ->
  assign_offsets keys cells o = (offsets, cells') ->
  length offsets = length keys /\
  (forall k v, keys !! k = Some v ->
     offsets !! k = Some (o + Z.of_nat (start l keys k)) /\
     cells' !! v = Some (o + Z.of_nat (start l keys k))) /\
  (forall v, (v ∉ keys) -> cells' !! v = cells !! v).
Proof.
  induction keys as [|v keys IH]; intros cells o offsets cells' Hnd Hc; cbn [assign_offsets].
  - intros [= <- <-]. split; [reflexivity|]. split; [discriminate|reflexivity].
  - apply NoDup_cons in Hnd as [Hv Hnd]. destruct (assign_offsets _ _ _) as [offsets1 cells1] eqn:E.
    intros [= <- <-]. rewrite (Hc v (list_elem_of_here _ _)) in E.
    assert (Hc' : forall w, w ∈ keys -> default 0 ((<[v:=o]> cells) !! w) = Z.of_nat (length (bucket l w))).
    { intros w Hw. rewrite lookup_insert_ne by congruence. apply Hc, list_elem_of_further, Hw. }
    destruct (IH _ _ _ _ Hnd Hc' E) as (H1 & H2 & H3).
    split; [cbn; f_equal; exact H1|]. split.
    + intros [|k] w Hk.
      * injection Hk as ->. unfold start. cbn. rewrite Z.add_0_r. split; [reflexivity|].
        rewrite H3 by exact Hv. apply lookup_insert_eq.
      * destruct (H2 k w Hk) as [E1 E2]. change ((o :: offsets1) !! S k) with (offsets1 !! k). rewrite E1, E2.
        assert (Es : start l (v :: keys) (S k) = (length (bucket l v) + start l keys k)%nat).
        { unfold start. cbn. rewrite length_app. reflexivity. }
        rewrite Es. split; f_equal; lia.
    + intros w [Hw1 Hw2]%not_elem_of_cons. rewrite H3 by exact Hw2. apply lookup_insert_ne. congruence.
Qed.

(** * The placement of the positions *)

Section Placement.
Context {A : Type}.
Variables (l : list (list Z * A)) (keys : list (list Z)).
Hypothesis Hnd : NoDup keys.
Hypothesis Hkeys : forall p, p ∈ l -> p.1 ∈ keys.

(** The next free row of every bucket, and the rows filled so far. *)
Definition placed (pre : list (list Z * A)) (st : IndirectVectorMap * list A) : Prop :=
  length st.2 = length (keys ≫= bucket l) /\
  forall k v, keys !! k = Some v ->
    st.1 !! v = Some (Z.of_nat (start l keys k + length (bucket pre v))) /\
    forall j a, bucket pre v !! j = Some a -> st.2 !! (start l keys k + j)%nat = Some a.

Lemma buckets_disjoint k k' v v' j j' :
  keys !! k = Some v -> keys !! k' = Some v' ->
  (j < length (bucket l v))%nat -> (j' < length (bucket l v'))%nat ->
  (start l keys k + j = start l keys k' + j')%nat -> v = v'.
Proof.
  intros Hk Hk' Hj Hj' E. destruct (Nat.lt_trichotomy k k') as [H|[->|H]]; [|congruence|].
  - pose proof (start_mono l keys (S k) k' H). rewrite (start_S _ _ _ _ Hk) in *. lia.
  - pose proof (start_mono l keys (S k') k H). rewrite (start_S _ _ _ _ Hk') in *. lia.
Qed.

Lemma place_step pre p post st :
  l = pre ++ p :: post -> placed pre st -> placed (pre ++ [p]) (place st p).
Proof.
  intros El [Hlen Hst]. destruct st as [cells rows], p as [v a]. cbn [fst snd] in *.
  assert (Hv : v ∈ keys) by (apply (Hkeys (v, a)); rewrite El; apply elem_of_app; right; left).
  apply list_elem_of_lookup in Hv as [k Hk]. destruct (Hst k v Hk) as [Hcv Hrv].
  assert (Hroom : forall w, (length (bucket (pre ++ [(v, a)]) w) <= length (bucket l w))%nat).
  { intros w. rewrite El, (eq_refl : pre ++ (v, a) :: post = pre ++ [(v, a)] ++ post), (app_assoc pre), (bucket_app (pre ++ [(v, a)])), length_app. lia. }
  pose proof (Hroom v) as Hrm. rewrite bucket_app, bucket_one, decide_True, length_app in Hrm by reflexivity. cbn in Hrm.
  unfold place. rewrite Hcv. cbn [default]. unfold id. rewrite Nat2Z.id. split; cbn [fst snd]; [rewrite length_insert; exact Hlen|].
  intros k' v' Hk'. rewrite bucket_app, bucket_one. destruct (decide (v = v')) as [<-|Hne].
  - assert (k' = k) as -> by (eapply NoDup_lookup; eassumption).
    rewrite lookup_insert_eq, length_app. split; [cbn; f_equal; lia|].
    intros j b Hj. apply lookup_app_Some in Hj as [Hj|[Hge Hj]].
    + rewrite list_lookup_insert_ne by (apply lookup_lt_Some in Hj; lia). exact (Hrv j b Hj).
    + apply list_lookup_singleton_Some in Hj as [Hj ->].
      replace (start l keys k + j)%nat with (start l keys k + length (bucket pre v))%nat by lia.
      apply list_lookup_insert_eq. rewrite Hlen.
      pose proof (concat_lookup l keys k v (length (bucket pre v)) Hk ltac:(lia)) as Hc.
      destruct (lookup_lt_is_Some_2 (bucket l v) (length (bucket pre v))) as [x Hx]; [lia|].
      rewrite Hx in Hc. eapply lookup_lt_Some, Hc.
  - destruct (Hst k' v' Hk') as [Hcv' Hrv']. rewrite lookup_insert_ne, app_nil_r by exact Hne.
    split; [exact Hcv'|]. intros j b Hj. rewrite list_lookup_insert_ne; [exact (Hrv' j b Hj)|].
    intros E. apply Hne. apply (buckets_disjoint k k' v v' (length (bucket pre v)) j Hk Hk'); [lia| |exact E].
    pose proof (Hroom v') as Hr. rewrite bucket_app, length_app in Hr. apply lookup_lt_Some in Hj. lia.
Qed.

Lemma place_all pre post st : l = pre ++ post -> placed pre st -> placed l (foldl place st post).
Proof.
  revert pre st; induction post as [|p post IH]; intros pre st El Hst; cbn [foldl].
  - rewrite app_nil_r in El. subst pre. exact Hst.
  - apply (IH (pre ++ [p])); [rewrite El, <- app_assoc; reflexivity|].
    eapply place_step; eassumption.
Qed.

Lemma placed_rows st : placed l st -> st.2 = keys ≫= bucket l.
Proof.
  intros [Hlen Hst]. apply list_eq. intros i.
  destruct (decide (i < length (keys ≫= bucket l))%nat) as [Hi|Hi].
  - destruct (concat_position l keys i Hi) as (k & v & j & Hk & Hj & ->).
    rewrite (concat_lookup l keys k v j Hk Hj). destruct (Hst k v Hk) as [_ H].
    destruct (lookup_lt_is_Some_2 _ _ Hj) as [a Ha]. rewrite Ha. exact (H j a Ha).
  - rewrite !lookup_ge_None_2; [reflexivity|lia|lia].
Qed.
End Placement.

Lemma length_buckets {A} (l : list (list Z * A)) keys :
  NoDup keys -> (forall p, p ∈ l -> p.1 ∈ keys) -> length (keys ≫= bucket l) = length l.
Proof.
  intros Hnd. induction l as [|[v a] l IH] using rev_ind; intros Hk.
  - unfold bucket. induction keys as [|v keys IHk]; [reflexivity|]. cbn. apply IHk.
    + apply NoDup_cons in Hnd. tauto.
    + intros p Hp. inversion Hp.
  - rewrite length_app. cbn [length]. rewrite <- IH by (intros p Hp; apply Hk, elem_of_app; auto).
    assert (Hv : v ∈ keys) by (apply (Hk (v, a)), elem_of_app; right; left).
    clear IH Hk. induction keys as [|w keys IHk]; [inversion Hv|]. apply NoDup_cons in Hnd as [Hw Hnd].
    cbn. rewrite !length_app, bucket_app, bucket_one, length_app.
    change (concat (map (bucket (l ++ [(v, a)])) keys)) with (keys ≫= bucket (l ++ [(v, a)])).
    change (concat (map (bucket l) keys)) with (keys ≫= bucket l).
    apply elem_of_cons in Hv as [<-|Hv].
    + rewrite decide_True by reflexivity. cbn [length].
      assert (E : keys ≫= bucket (l ++ [(v, a)]) = keys ≫= bucket l).
      { apply Forall_bind_ext, Forall_forall. intros w Hin. rewrite bucket_app, bucket_one, decide_False by congruence.
        apply app_nil_r. }
      rewrite E. lia.
    + rewrite decide_False by congruence. cbn [length]. rewrite (IHk Hnd Hv). lia.
Qed.

(** The whole partition: the buckets of the cells in increasing order. *)
Lemma partition_spec t dims rows n keys offsets cells :
  let vectors := index_vectors (partial_domain t dims) in
  length rows = length vectors -> n = Z.of_nat (length rows) ->
  PartitionIndexArraySetGridCellIndexVectors rows = (keys, offsets, cells) ->
  keys = sorted_cells rows /\ length offsets = length keys /\
  (forall k v, keys !! k = Some v -> offsets !! k = Some (Z.of_nat (start (zip rows vectors) keys k))) /\
  GenerateIndexArraySetPartitionedInputIndices t dims rows cells n = keys ≫= bucket (zip rows vectors).
Proof.
  intros vectors Hl -> H. unfold PartitionIndexArraySetGridCellIndexVectors in H.
  fold (sorted_cells rows) in H. destruct (assign_offsets _ _ _) as [offsets' cells'] eqn:E.
  injection H as <- <- <-. split; [reflexivity|].
  pose proof (sorted_cells_NoDup rows) as Hnd.
  assert (Hk : forall p, p ∈ zip rows vectors -> p.1 ∈ sorted_cells rows).
  { intros [v a] Hp. apply elem_of_sorted_cells. apply list_elem_of_lookup in Hp as [i Hi].
    apply lookup_zip_with_Some in Hi as (w & b & [= -> ->] & Hw & _). eapply list_elem_of_lookup_2, Hw. }
  assert (Hcount : forall v, v ∈ sorted_cells rows ->
    default 0 (count_cells rows !! v) = Z.of_nat (length (bucket (zip rows vectors) v))).
  { intros v Hv. apply (proj1 (elem_of_sorted_cells rows v)) in Hv. rewrite occurrences_bucket by exact Hl.
    rewrite count_cells_lookup, decide_False by (apply occurrences_elem, Hv). reflexivity. }
  destruct (assign_offsets_spec (zip rows vectors) _ _ _ _ _ Hnd Hcount E) as (H1 & H2 & _).
  split; [exact H1|]. split; [intros k v Hkv; apply (H2 k v Hkv)|].
  unfold GenerateIndexArraySetPartitionedInputIndices. fold vectors.
  apply placed_rows, (place_all _ _ Hnd Hk []); [reflexivity|]. split; cbn [fst snd].
  - rewrite length_replicate, Nat2Z.id, length_buckets, length_zip by assumption. lia.
  - intros k v Hkv. destruct (H2 k v Hkv) as [_ H2']. cbn [bucket filter list_filter fmap list_fmap length].
    rewrite H2'. split; [f_equal; cbn; lia|]. intros j a Hj. discriminate.
Qed.

(** * The binary search *)

Definition finite_indices (l : list Z) : Prop := Forall (fun z => IsFiniteIndex z = true) l.

(** The components of a cell at the grid dimensions of a set. *)
Definition cell_key (set : IndexArraySet) (cell_indices : list Z) : list Z :=
  (fun d => cell_indices !!! d) <$> index_view (grid_dims (set_dims set)).

Lemma compare_rows_spec full row dims :
  length row = length dims -> finite_indices row -> finite_indices ((fun d => full !!! d) <$> dims) ->
  let key := (fun d => full !!! d) <$> dims in
  (compare_rows full row dims = 0 -> row = key) /\
  (compare_rows full row dims < 0 -> lex_le row key /\ row <> key) /\
  (compare_rows full row dims > 0 -> lex_le key row /\ row <> key).
Proof.
  revert dims; induction row as [|x row IH]; intros [|d dims] Hl Hr Hk; try discriminate;
    cbn [compare_rows].
  - cbn. split; [auto|]. split; intros ?; lia.
  - injection Hl as Hl. rewrite fmap_cons in *. apply Forall_cons in Hr as [Hx Hr].
    apply Forall_cons in Hk as [Hd Hk]. destruct (IH dims Hl Hr Hk) as (I1 & I2 & I3).
    apply IsFiniteIndex_spec in Hx, Hd. cbv zeta.
    assert (Hdiff : wrap64 (x - full !!! d) = x - full !!! d) by (apply wrap64_id; i64_lia).
    rewrite Hdiff. destruct (Z.eqb_spec (x - full !!! d) 0) as [E|E]; cbn [negb].
    + assert (x = full !!! d) as -> by lia.
      split; [intros Hc; f_equal; exact (I1 Hc)|]. unfold lex_le in *.
      split; intros Hc; [destruct (I2 Hc) as [H1 H2]|destruct (I3 Hc) as [H1 H2]];
        (split; [apply lex_leb_cons; auto|congruence]).
    + split; [lia|]. unfold lex_le. split; intros Hc;
        (split; [apply lex_leb_cons; left; lia|intros [= ?]; lia]).
Qed.

Lemma sorted_lookup keys i j a b :
  StronglySorted lex_le keys -> keys !! i = Some a -> keys !! j = Some b -> (i <= j)%nat -> lex_le a b.
Proof.
  intros Hs. revert i j. induction Hs as [|x keys Hs IH Hx]; intros i j Hi Hj Hle; [discriminate|].
  destruct i as [|i], j as [|j]; try lia.
  - rewrite Hi in Hj. injection Hj as ->. destruct (total lex_le b b); assumption.
  - injection Hi as ->. exact (Forall_lookup_1 _ _ _ _ Hx Hj).
  - apply (IH i j Hi Hj). lia.
Qed.

Section Search.
Variables (set : IndexArraySet) (full : list Z).
Let keys := grid_cell_indices set.
Let gs := index_view (grid_dims (set_dims set)).
Hypothesis Hsorted : StronglySorted lex_le keys.
Hypothesis Hkeys : Forall (fun v => length v = length gs /\ finite_indices v) keys.
Hypothesis Hlen : length (grid_cell_partition_offsets set) = length keys.
Hypothesis Hfull : finite_indices (cell_key set full).

Lemma FindPartitionLoop_spec fuel : forall lower upper,
  0 <= lower <= upper -> upper <= Z.of_nat (length keys) -> upper - lower < Z.of_nat fuel ->
  (forall k, keys !! k = Some (cell_key set full) -> lower <= Z.of_nat k < upper) ->
  (FindPartitionLoop fuel set full lower upper = -1 /\ (cell_key set full ∉ keys)) \/
  exists k, keys !! k = Some (cell_key set full) /\ FindPartitionLoop fuel set full lower upper = Z.of_nat k.
Proof.
  induction fuel as [|fuel IH]; intros lower upper Hb Hu Hf Hk; [lia|]. cbn [FindPartitionLoop].
  destruct (Z.eqb_spec lower upper) as [->|Hne].
  { left. split; [reflexivity|]. intros [k H]%list_elem_of_lookup. specialize (Hk k H). lia. }
  set (mid := Z.quot (lower + upper) 2).
  assert (Hmid : lower <= mid < upper).
  { unfold mid. rewrite Z.quot_div_nonneg by lia. split; [apply Z.div_le_lower_bound; lia|apply Z.div_lt_upper_bound; lia]. }
  change (compare_partition set mid full) with (compare_rows full (grid_cell_indices set !!! Z.to_nat mid) gs).
  fold keys. destruct (lookup_lt_is_Some_2 keys (Z.to_nat mid)) as [row Hrow]; [lia|].
  rewrite (list_lookup_total_correct _ _ _ Hrow). cbv zeta.
  destruct (Forall_lookup_1 _ _ _ _ Hkeys Hrow) as [Hrl Hrf].
  destruct (compare_rows_spec full row gs Hrl Hrf Hfull) as (C1 & C2 & C3). fold (cell_key set full) in *.
  destruct (Z.eqb_spec (compare_rows full row gs) 0) as [E|E].
  - right. exists (Z.to_nat mid). split; [rewrite Hrow; f_equal; exact (C1 E)|lia].
  - destruct (Z.gtb_spec (compare_rows full row gs) 0) as [G|G].
    + destruct C3 as [C3 Cne]; [lia|]. apply IH; [lia..|].
      intros k Hkk. pose proof (Hk k Hkk). split; [lia|]. destruct (Z.lt_ge_cases (Z.of_nat k) mid) as [|Hge]; [assumption|].
      exfalso. apply Cne. apply (anti_symm lex_le); [|exact C3].
      apply (sorted_lookup keys (Z.to_nat mid) k _ _ Hsorted Hrow Hkk). lia.
    + destruct C2 as [C2 Cne]; [lia|]. apply IH; [lia..|].
      intros k Hkk. pose proof (Hk k Hkk). split; [|lia]. destruct (Z.lt_ge_cases mid (Z.of_nat k)) as [|Hge]; [lia|].
      exfalso. apply Cne. apply (anti_symm lex_le); [exact C2|].
      apply (sorted_lookup keys k (Z.to_nat mid) _ _ Hsorted Hkk Hrow). lia.
Qed.

(** The search finds the partition of a cell, or reports that there is none. *)
Lemma FindPartition_spec :
  (FindPartition set full = -1 /\ (cell_key set full ∉ keys)) \/
  exists k, keys !! k = Some (cell_key set full) /\ FindPartition set full = Z.of_nat k.
Proof.
  unfold FindPartition, num_partitions. rewrite Hlen. apply FindPartitionLoop_spec; [lia..|].
  intros k Hk%lookup_lt_Some. lia.
Qed.
End Search.
