(* ===== verification/GridUpdate.v ===== *)
(** The cell transform that [GetCellTransform] builds: every update of its dimensions and of its
    output index maps stays inside the representation, and what each of them is at the end. *)

From stdpp Require Import gmap sorting strings.
From S2P Require Import Prelude Int64 IndexInterval Transform TransformArray Dimensions GridPartition GridSets.

#[local] Opaque index_view.

(** * Updates of array elements, in order *)

Definition alters {A} (l : list A) (kgs : list (nat * (A -> A))) : list A :=
  foldl (fun l p => alter p.2 p.1 l) l kgs.

Lemma length_alters {A} (l : list A) kgs : length (alters l kgs) = length l.
Proof.
  unfold alters. revert l; induction kgs as [|[k g] kgs IH]; intros l; cbn; [reflexivity|].
  rewrite IH. apply length_alter.
Qed.

Lemma alters_app {A} (l : list A) k1 k2 : alters l (k1 ++ k2) = alters (alters l k1) k2.
Proof. apply foldl_app. Qed.

Lemma alters_other {A} (l : list A) kgs k : (k ∉ kgs.*1) -> alters l kgs !! k = l !! k.
Proof.
  unfold alters. revert l; induction kgs as [|[k' g] kgs IH]; intros l H; cbn; [reflexivity|].
  apply not_elem_of_cons in H as [Hne H]. rewrite IH by exact H. cbn in Hne.
  apply list_lookup_alter_ne. congruence.
Qed.

Lemma alters_at {A} (l : list A) kgs k g :
  NoDup kgs.*1 -> (k, g) ∈ kgs -> alters l kgs !! k = g <$> l !! k.
Proof.
  unfold alters. revert l; induction kgs as [|[k' g'] kgs IH]; intros l Hn H; [inversion H|].
  cbn in *. apply NoDup_cons in Hn as [Hk Hn]. apply elem_of_cons in H as [E|H].
  - injection E as <- <-. change (alters (alter g k l) kgs !! k = g <$> l !! k).
    rewrite alters_other by exact Hk. apply list_lookup_alter_eq.
  - rewrite IH by assumption. f_equal. apply list_lookup_alter_ne. intros ->.
    apply Hk, list_elem_of_fmap. exists (k, g). auto.
Qed.

Lemma alters_same {A} (x : A) k kgs :
  Forall (fun p => p.2 x = x) kgs -> alters (replicate k x) kgs = replicate k x.
Proof.
  unfold alters. induction 1 as [|[i g] kgs Hg _ IH]; [reflexivity|]. cbn in *.
  assert (E : alter g i (replicate k x) = replicate k x); [|rewrite E; exact IH].
  apply list_eq. intros j. destruct (decide (i = j)) as [<-|Hne].
  - rewrite list_lookup_alter_eq. destruct (replicate k x !! i) as [y|] eqn:E; [|reflexivity].
    apply lookup_replicate in E as [-> _]. cbn. congruence.
  - apply list_lookup_alter_ne, Hne.
Qed.

(** * Updates of a transform *)

Definition updates (t : TransformRep) (ds : list (nat * (IndexDomainDimension -> IndexDomainDimension)))
    (ms : list (nat * (OutputIndexMap -> OutputIndexMap))) : TransformRep :=
  MkTransform (alters (input_dimensions t) ds) (alters (output_index_maps t) ms).

Lemma updates_nil t : updates t [] [] = t.
Proof. destruct t; reflexivity. Qed.

Lemma updates_app t d1 m1 d2 m2 : updates (updates t d1 m1) d2 m2 = updates t (d1 ++ d2) (m1 ++ m2).
Proof. unfold updates. cbn. rewrite !alters_app. reflexivity. Qed.

Lemma updates_rank t ds ms : input_rank (updates t ds ms) = input_rank t.
Proof. apply length_alters. Qed.
Lemma updates_output_rank t ds ms : output_rank (updates t ds ms) = output_rank t.
Proof. apply length_alters. Qed.

Lemma checked_update_Ok {A} (l : list A) i g : (i < length l)%nat -> checked_update l i g = Ok (alter g i l).
Proof.
  intros Hi. unfold checked_update. destruct (lookup_lt_is_Some_2 l i Hi) as [x Hx]. rewrite Hx. f_equal.
  apply list_eq. intros k. destruct (decide (i = k)) as [<-|Hne].
  - rewrite list_lookup_insert_eq, list_lookup_alter_eq, Hx by exact Hi. reflexivity.
  - rewrite list_lookup_insert_ne, list_lookup_alter_ne by exact Hne. reflexivity.
Qed.

Lemma update_dimension_Ok t i g : (i < input_rank t)%nat -> update_dimension t i g = Ok (updates t [(i, g)] []).
Proof. intros Hi. unfold update_dimension. rewrite checked_update_Ok by exact Hi. reflexivity. Qed.

Lemma update_map_Ok t i g : (i < output_rank t)%nat -> update_map t i g = Ok (updates t [] [(i, g)]).
Proof. intros Hi. unfold update_map. rewrite checked_update_Ok by exact Hi. reflexivity. Qed.

(** A loop whose steps are updates. *)
Lemma foldM_updates {X} (step : TransformRep -> X -> Result TransformRep) D M l : forall t,
  (forall t' x, x ∈ l -> input_rank t' = input_rank t -> output_rank t' = output_rank t ->
     step t' x = Ok (updates t' (D x) (M x))) ->
  foldM step t l = Ok (updates t (l ≫= D) (l ≫= M)).
Proof.
  induction l as [|x l IH]; intros t H; cbn [foldM].
  - rewrite updates_nil. reflexivity.
  - rewrite H; [|left|reflexivity..]. cbn [mbind Result_bind]. rewrite IH.
    + rewrite updates_app. reflexivity.
    + intros t' y Hy H1 H2. apply H; [right; exact Hy|rewrite H1; apply updates_rank|rewrite H2; apply updates_output_rank].
Qed.

(** A loop over [(i, x)] for the elements of a list. *)
Lemma elem_of_imap {A B} (f : nat -> A -> B) l y : y ∈ imap f l <-> exists i x, l !! i = Some x /\ y = f i x.
Proof.
  rewrite list_elem_of_lookup. setoid_rewrite list_lookup_imap. split.
  - intros [i H]. destruct (l !! i) as [x|] eqn:E; [|discriminate]. injection H as <-. eauto.
  - intros (i & x & Hx & ->). exists i. rewrite Hx. reflexivity.
Qed.

Lemma bind_nothing {A B} (l : list A) : l ≫= (fun _ => @nil B) = [].
Proof. induction l as [|x l IH]; [reflexivity|exact IH]. Qed.

Lemma bind_single {A B} (g : A -> B) (l : list A) : l ≫= (fun x => [g x]) = g <$> l.
Proof. induction l as [|x l IH]; [reflexivity|]. cbn. f_equal; exact IH. Qed.

Lemma imap_bind_keys {X P B} (h : X -> list nat) (g : P -> list (nat * B)) (l : list X) :
  forall f : nat -> X -> P, (forall i x, (g (f i x)).*1 = h x) -> (imap f l ≫= g).*1 = l ≫= h.
Proof.
  induction l as [|x l IH]; intros f H; [reflexivity|]. cbn [imap]. cbn. rewrite fmap_app, H. f_equal.
  apply (IH (f ∘ S)). intros i y. apply H.
Qed.

Lemma imap_keys {X B} (h : X -> B -> B) (g : nat -> nat) (l : list X) :
  forall f : nat -> X -> nat * (B -> B), (forall i x, (f i x).1 = g i) -> (imap f l).*1 = g <$> seq 0 (length l).
Proof.
  intros f H. apply list_eq. intros i. rewrite !list_lookup_fmap, list_lookup_imap.
  destruct (l !! i) as [x|] eqn:E; cbn.
  - rewrite lookup_seq_lt by (eapply lookup_lt_Some, E). cbn. rewrite H. reflexivity.
  - rewrite lookup_seq_ge by (apply lookup_ge_None, E). reflexivity.
Qed.

Lemma list_filter_eq {A} (b : A -> bool) (P : A -> Prop) {HP : forall x, Decision (P x)} (l : list A) :
  (forall x, x ∈ l -> b x = true <-> P x) -> List.filter b l = filter P l.
Proof.
  induction l as [|x l IH]; intros Hb; [reflexivity|]. cbn [List.filter]. rewrite filter_cons.
  rewrite IH by (intros y Hy; apply Hb; right; exact Hy). specialize (Hb x (list_elem_of_here _ _)).
  destruct (b x), (decide (P x)); try reflexivity; exfalso; [tauto|].
  destruct Hb as [_ Hb]. discriminate Hb. assumption.
Qed.

(** * The cell transform *)

Section Cell.
Variables (info : IndexTransformGridPartition) (full : TransformRep).

Let arrays := index_array_sets info.
Let strided := strided_sets info.

Definition array_set_dims (a : IndexArraySet) : list nat := index_view (input_dims (set_dims a)).
Definition array_dims : list nat := index_array_sets info ≫= array_set_dims.
Definition strided_dims : list nat := input_dimension <$> strided_sets info.
(** The input dimensions in no set. *)
Definition other_dims : list nat :=
  filter (fun d => d ∉ array_dims ++ strided_dims) (seq 0 (input_rank full)).

Hypothesis Hnd : NoDup (array_dims ++ strided_dims).
Hypothesis Hlt : Forall (fun d => (d < input_rank full)%nat) (array_dims ++ strided_dims).
Hypothesis Hrank : (input_rank full <= 32)%nat.

Definition cell_rank : nat := (length arrays + length strided + length other_dims)%nat.

Lemma dims_Permutation : (array_dims ++ strided_dims) ++ other_dims ≡ₚ seq 0 (input_rank full).
Proof.
  apply NoDup_Permutation.
  - apply NoDup_app. split; [exact Hnd|]. split.
    + intros d Hd Ho. apply list_elem_of_filter in Ho as [Ho _]. exact (Ho Hd).
    + apply NoDup_filter, NoDup_seq.
  - apply NoDup_seq.
  - intros d. rewrite elem_of_app. unfold other_dims. rewrite list_elem_of_filter, elem_of_seq. split.
    + intros [Hd|[_ Hd]]; [|exact Hd]. rewrite Forall_forall in Hlt. specialize (Hlt d Hd). lia.
    + intros Hd. destruct (decide (d ∈ array_dims ++ strided_dims)); auto.
Qed.

Lemma dims_count : (length array_dims + length strided + length other_dims = input_rank full)%nat.
Proof.
  pose proof (Permutation_length dims_Permutation) as H. rewrite length_seq, !length_app in H.
  unfold strided_dims in H. rewrite length_fmap in H. exact H.
Qed.

Lemma cell_input_rank_eq : cell_input_rank info full = Z.of_nat cell_rank.
Proof.
  unfold cell_input_rank, cell_rank. fold arrays strided. pose proof dims_count as H.
  assert (E : foldr (fun s n => Z.of_nat (count (input_dims (set_dims s))) + n) 0 arrays =
    Z.of_nat (length array_dims)).
  { unfold array_dims. fold arrays. clear. induction arrays as [|a l IH]; [reflexivity|]. cbn.
    rewrite length_app, IH. unfold array_set_dims, count.
    change (concat (map _ l)) with (l ≫= array_set_dims). lia. }
  rewrite E. lia.
Qed.

(** Every array set has a dimension, so the rank of a cell transform is not larger. *)
Hypothesis Hsome : Forall (fun a => array_set_dims a <> []) arrays.

Lemma cell_rank_le : (cell_rank <= input_rank full)%nat.
Proof.
  unfold cell_rank. pose proof dims_count as H.
  assert (length arrays <= length array_dims)%nat; [|lia]. unfold array_dims. fold arrays.
  clear - Hsome. revert Hsome. generalize arrays. intros l Hs. induction Hs as [|a l Ha _ IH]; [cbn; lia|]. cbn.
  rewrite length_app. change (concat (map _ l)) with (l ≫= array_set_dims).
  destruct (array_set_dims a); [contradiction|]. cbn [length]. lia.
Qed.

(** ** The initial transform *)

Definition initial_array_map (i : nat) (a : IndexArraySet) : OutputIndexMap :=
  MkOutputIndexMap
    (array (MkIndexArrayData (fun _ => 0) Infinite (alter (fun _ => row_byte_stride a) i (replicate cell_rank 0)))) 0 1.

Definition array_updates (p : nat * IndexArraySet) : list (nat * (OutputIndexMap -> OutputIndexMap)) :=
  (fun d => (d, fun _ => initial_array_map p.1 p.2)) <$> array_set_dims p.2.

Definition strided_updates (p : nat * StridedSet) : list (nat * (OutputIndexMap -> OutputIndexMap)) :=
  [(input_dimension p.2, fun _ => identity_map (length arrays + p.1))].

Definition is_constant (m : OutputIndexMap) : bool := match method m with constant => true | _ => false end.

Definition other_dimension_updates (k : nat) (os : list nat) : list (nat * (IndexDomainDimension -> IndexDomainDimension)) :=
  imap (fun j d => ((k + j)%nat, fun _ => input_dimensions full !!! d)) os.
Definition other_map_updates (k : nat) (os : list nat) : list (nat * (OutputIndexMap -> OutputIndexMap)) :=
  imap (fun j d => (d, fun _ => identity_map (k + j))) os.

Lemma in_array_dims i a d : arrays !! i = Some a -> d ∈ array_set_dims a -> d ∈ array_dims.
Proof.
  intros Ha Hd. apply list_elem_of_bind. exists a. split; [exact Hd|]. eapply list_elem_of_lookup_2, Ha.
Qed.

Lemma in_strided_dims i s : strided !! i = Some s -> input_dimension s ∈ strided_dims.
Proof.
  intros Hs. apply list_elem_of_fmap. exists s. split; [reflexivity|]. eapply list_elem_of_lookup_2, Hs.
Qed.

Lemma array_dim_lt d : d ∈ array_dims -> (d < input_rank full)%nat.
Proof. intros Hd. rewrite Forall_forall in Hlt. apply Hlt, elem_of_app. auto. Qed.
Lemma strided_dim_lt d : d ∈ strided_dims -> (d < input_rank full)%nat.
Proof. intros Hd. rewrite Forall_forall in Hlt. apply Hlt, elem_of_app. auto. Qed.

Lemma initialize_array_maps_Ok i a t :
  arrays !! i = Some a -> output_rank t = input_rank full ->
  initialize_array_maps a cell_rank i t = Ok (updates t [] (array_updates (i, a))).
Proof.
  intros Ha Ht. unfold initialize_array_maps. fold (array_set_dims a).
  rewrite (foldM_updates _ (fun _ => []) (fun d => [(d, fun _ => initial_array_map i a)])).
  - rewrite bind_nothing, bind_single. reflexivity.
  - intros t' d Hd _ Ho. rewrite checked_update_Ok.
    + cbn [mbind Result_bind]. apply update_map_Ok. rewrite Ho, Ht. eapply array_dim_lt, in_array_dims; eassumption.
    + rewrite length_replicate. apply lookup_lt_Some in Ha. unfold cell_rank. fold arrays. lia.
Qed.

Definition blank : TransformRep :=
  MkTransform (replicate cell_rank allocated_dimension) (replicate (input_rank full) constant_zero).

Lemma initialize_other_eq t k d :
  initialize_other full (t, k) d =
  if is_constant (output_index_maps t !!! d) then
    t ← update_map t d (fun _ => identity_map k);
    t ← update_dimension t k (fun _ => input_dimensions full !!! d);
    Ok (t, S k)
  else Ok (t, k).
Proof. unfold initialize_other, is_constant. destruct (method _); reflexivity. Qed.

Lemma initialize_others l : forall t k,
  NoDup l -> Forall (fun d => (d < output_rank t)%nat) l ->
  let os := List.filter (fun d => is_constant (output_index_maps t !!! d)) l in
  (k + length os <= input_rank t)%nat ->
  foldM (initialize_other full) (t, k) l =
    Ok (updates t (other_dimension_updates k os) (other_map_updates k os), (k + length os)%nat).
Proof.
  induction l as [|d l IH]; intros t k Hn Hl os Hk; cbn [foldM].
  - cbn in os. unfold os. cbn. rewrite Nat.add_0_r. change (MkTransform _ _) with t. destruct t; reflexivity.
  - apply NoDup_cons in Hn as [Hd Hn]. apply Forall_cons in Hl as [Hdl Hl].
    rewrite initialize_other_eq. unfold os in *. clear os. cbn [List.filter] in *.
    destruct (is_constant (output_index_maps t !!! d)) eqn:E; [|apply IH; assumption].
    cbn [length] in Hk.
    rewrite update_map_Ok by exact Hdl. cbn [mbind Result_bind].
    rewrite update_dimension_Ok by (rewrite updates_rank; lia). cbn [mbind Result_bind].
    rewrite updates_app. cbn [app]. set (t' := updates t _ _).
    assert (Ef : List.filter (fun d => is_constant (output_index_maps t' !!! d)) l =
      List.filter (fun d => is_constant (output_index_maps t !!! d)) l).
    { apply filter_ext_in. intros x Hx. unfold t', updates. cbn. rewrite list_lookup_total_alter_ne; [reflexivity|].
      intros ->. apply Hd, list_elem_of_In, Hx. }
    pose proof (IH t' (S k) Hn) as IH'. cbv zeta in IH'. rewrite Ef in IH'.
    rewrite IH'.
    + unfold t'. rewrite updates_app. f_equal. f_equal.
      * unfold other_dimension_updates, other_map_updates. cbn [imap]. rewrite Nat.add_0_r. cbn [app].
        f_equal; f_equal; apply imap_ext; intros j x _; cbn; rewrite Nat.add_succ_r; reflexivity.
      * cbn [length]. lia.
    + unfold t'. rewrite updates_output_rank. exact Hl.
    + unfold t'. rewrite updates_rank. lia.
Qed.

Definition with_sets : TransformRep :=
  updates blank (imap pair arrays ≫= fun p => [(p.1, set_origin 0)])
    ((imap pair arrays ≫= array_updates) ++ (imap pair strided ≫= strided_updates)).

Definition initial_cell : TransformRep :=
  let k := (length arrays + length strided)%nat in
  updates with_sets (other_dimension_updates k other_dims) (other_map_updates k other_dims).

Lemma set_keys : ((imap pair arrays ≫= array_updates) ++ (imap pair strided ≫= strided_updates)).*1 =
  array_dims ++ strided_dims.
Proof.
  rewrite fmap_app. f_equal.
  - apply imap_bind_keys. intros i a. unfold array_updates. cbn. rewrite <- list_fmap_compose.
    apply list_fmap_id.
  - rewrite (imap_bind_keys (fun s => [input_dimension s])) by reflexivity.
    rewrite bind_single. reflexivity.
Qed.

Lemma with_sets_array i a d :
  arrays !! i = Some a -> d ∈ array_set_dims a ->
  output_index_maps with_sets !! d = Some (initial_array_map i a).
Proof.
  intros Ha Hd. unfold with_sets, updates. cbn [output_index_maps].
  rewrite (alters_at _ _ d (fun _ => initial_array_map i a)).
  - cbn [blank output_index_maps]. rewrite lookup_replicate_2; [reflexivity|].
    eapply array_dim_lt, in_array_dims; eassumption.
  - rewrite set_keys. exact Hnd.
  - apply elem_of_app. left. apply list_elem_of_bind. exists (i, a). split.
    + apply list_elem_of_fmap. exists d. auto.
    + apply elem_of_imap. eauto.
Qed.

Lemma with_sets_strided i s :
  strided !! i = Some s ->
  output_index_maps with_sets !! input_dimension s = Some (identity_map (length arrays + i)).
Proof.
  intros Hs. unfold with_sets, updates. cbn [output_index_maps].
  rewrite (alters_at _ _ _ (fun _ => identity_map (length arrays + i))).
  - cbn [blank output_index_maps]. rewrite lookup_replicate_2; [reflexivity|].
    eapply strided_dim_lt, in_strided_dims; eassumption.
  - rewrite set_keys. exact Hnd.
  - apply elem_of_app. right. apply list_elem_of_bind. exists (i, s). split; [left|].
    apply elem_of_imap. eauto.
Qed.

Lemma with_sets_other d :
  (d < input_rank full)%nat -> (d ∉ array_dims ++ strided_dims) ->
  output_index_maps with_sets !! d = Some constant_zero.
Proof.
  intros Hd Ho. unfold with_sets, updates. cbn [output_index_maps].
  rewrite alters_other by (rewrite set_keys; exact Ho). cbn [blank output_index_maps].
  apply lookup_replicate_2, Hd.
Qed.

Lemma with_sets_dimensions : input_dimensions with_sets = replicate cell_rank allocated_dimension.
Proof.
  unfold with_sets, updates. cbn [input_dimensions blank]. apply alters_same, Forall_forall.
  intros p Hp. apply list_elem_of_bind in Hp as (q & Hp & _). apply list_elem_of_singleton in Hp as ->. reflexivity.
Qed.

Lemma array_or_strided d : d ∈ array_dims ++ strided_dims ->
  (exists i a, arrays !! i = Some a /\ d ∈ array_set_dims a) \/
  (exists i s, strided !! i = Some s /\ d = input_dimension s).
Proof.
  intros [Hd|Hd]%elem_of_app.
  - left. apply list_elem_of_bind in Hd as (a & Hd & Ha). apply list_elem_of_lookup in Ha as [i Ha]. eauto.
  - right. apply list_elem_of_fmap in Hd as (s & -> & Hs). apply list_elem_of_lookup in Hs as [i Hs]. eauto.
Qed.

(** The method of a map tells whether the loops over the sets have set it. *)
Lemma others_eq :
  List.filter (fun d => is_constant (output_index_maps with_sets !!! d)) (seq 0 (input_rank full)) = other_dims.
Proof.
  apply list_filter_eq. intros d Hd%elem_of_seq. split.
  - intros Hc Hin. apply array_or_strided in Hin as [(i & a & Ha & Hda)|(i & s & Hs & ->)].
    + rewrite (list_lookup_total_correct _ _ _ (with_sets_array i a d Ha Hda)) in Hc. discriminate.
    + rewrite (list_lookup_total_correct _ _ _ (with_sets_strided i s Hs)) in Hc. discriminate.
  - intros Ho. rewrite (list_lookup_total_correct _ _ _ (with_sets_other d (proj2 Hd) Ho)). reflexivity.
Qed.

Lemma blank_ranks : input_rank blank = cell_rank /\ output_rank blank = input_rank full.
Proof. split; apply length_replicate. Qed.

Lemma InitializeCellTransform_Ok : InitializeCellTransform info full = Ok initial_cell.
Proof.
  pose proof cell_rank_le as Hle. destruct blank_ranks as [B1 B2].
  unfold InitializeCellTransform. rewrite cell_input_rank_eq.
  assert (Hr : (0 <=? Z.of_nat cell_rank) && (Z.of_nat cell_rank <=? kMaxRank) = true).
  { apply andb_true_iff. rewrite !Z.leb_le. change kMaxRank with 32. lia. }
  rewrite Hr, Nat2Z.id. cbn [require mbind Result_bind]. fold blank arrays strided.
  rewrite (foldM_updates _ (fun p => [(p.1, set_origin 0)]) array_updates).
  2: { intros t' [i a] Hp H1 H2. apply elem_of_imap in Hp as (i' & a' & Ha & [= -> ->]).
       rewrite update_dimension_Ok.
       - cbn [mbind Result_bind]. rewrite (initialize_array_maps_Ok _ _ _ Ha).
         + rewrite updates_app. reflexivity.
         + rewrite updates_output_rank, H2. exact B2.
       - rewrite H1, B1. apply lookup_lt_Some in Ha. unfold cell_rank. lia. }
  cbn [mbind Result_bind].
  rewrite (foldM_updates _ (fun _ => []) strided_updates).
  2: { intros t' [i s] Hp H1 H2. apply elem_of_imap in Hp as (i' & s' & Hs & [= -> ->]).
       apply update_map_Ok. rewrite H2, updates_output_rank, B2.
       apply strided_dim_lt. eapply in_strided_dims, Hs. }
  cbn [mbind Result_bind]. rewrite bind_nothing, updates_app, app_nil_r. fold with_sets.
  pose proof (initialize_others (seq 0 (input_rank full)) with_sets (length arrays + length strided) (NoDup_seq _ _)) as Hi.
  cbv zeta in Hi. rewrite others_eq in Hi. rewrite Hi.
  - reflexivity.
  - apply Forall_forall. intros d Hd%elem_of_seq. unfold with_sets. rewrite updates_output_rank, B2. lia.
  - unfold with_sets. rewrite updates_rank, B1. unfold cell_rank. lia.
Qed.

Lemma initial_ranks : input_rank initial_cell = cell_rank /\ output_rank initial_cell = input_rank full.
Proof.
  unfold initial_cell, with_sets. rewrite !updates_rank, !updates_output_rank. exact blank_ranks.
Qed.

(** ** The update to a partition *)

Definition part_start (a : IndexArraySet) (p : nat) : Z := (partition_input_indices a p).1.
Definition part_size (a : IndexArraySet) (p : nat) : Z := (partition_input_indices a p).2.

Definition pointer_update (a : IndexArraySet) (p : nat) : list (nat * (OutputIndexMap -> OutputIndexMap)) :=
  imap pair (array_set_dims a) ≫= fun q =>
    [(q.2, with_element_pointer (element_at a (part_start a p) (Z.of_nat q.1)))].

Lemma UpdateCellTransform_Ok i a p t :
  arrays !! i = Some a -> input_rank t = cell_rank -> output_rank t = input_rank full ->
  UpdateCellTransformForIndexArraySetPartition a i p t =
    Ok (updates t [(i, set_shape (part_size a p))] (pointer_update a p)).
Proof.
  intros Ha H1 H2. unfold UpdateCellTransformForIndexArraySetPartition.
  unfold pointer_update, part_start, part_size.
  destruct (partition_input_indices a p) as [start n]. cbn [fst snd].
  rewrite update_dimension_Ok by (rewrite H1; apply lookup_lt_Some in Ha; unfold cell_rank; lia).
  cbn [mbind Result_bind]. fold (array_set_dims a).
  rewrite (foldM_updates _ (fun _ => [])
    (fun q => [(q.2, with_element_pointer (element_at a start (Z.of_nat q.1)))])).
  - rewrite bind_nothing, updates_app. reflexivity.
  - intros t' [j d] Hq _ Ho. apply elem_of_imap in Hq as (j' & d' & Hd & [= -> ->]).
    apply update_map_Ok. rewrite Ho, updates_output_rank, H2.
    eapply array_dim_lt, in_array_dims; [exact Ha|]. eapply list_elem_of_lookup_2, Hd.
Qed.

Lemma pointer_update_keys a p : (pointer_update a p).*1 = array_set_dims a.
Proof.
  unfold pointer_update. rewrite (imap_bind_keys (fun d => [d])) by reflexivity.
  rewrite bind_single. apply list_fmap_id.
Qed.

(** ** The transform of a cell *)

Variables (gods : list nat) (cell_indices : list Z) (interval_of : nat -> Z -> IndexInterval).
(** The partition of each array set, and the part of the domain of each strided set. *)
Variables (part : nat -> nat) (range : nat -> IndexInterval).
Hypothesis Hpart : forall i a, arrays !! i = Some a -> FindPartition a cell_indices = Z.of_nat (part i).
Hypothesis Hrange : forall i s, strided !! i = Some s ->
  restrict_domain full gods (fun g => interval_of g (cell_indices !!! g))
    (input_domain full !!! input_dimension s) (strided_grid_dims s) = Ok (range i).

Definition shape_updates (p : nat * IndexArraySet) : list (nat * (IndexDomainDimension -> IndexDomainDimension)) :=
  [(p.1, set_shape (part_size p.2 (part p.1)))].
Definition pointer_updates (p : nat * IndexArraySet) : list (nat * (OutputIndexMap -> OutputIndexMap)) :=
  pointer_update p.2 (part p.1).
Definition range_updates (p : nat * StridedSet) : list (nat * (IndexDomainDimension -> IndexDomainDimension)) :=
  [((length arrays + p.1)%nat, set_interval (range p.1))].

Definition cell : TransformRep :=
  updates initial_cell
    ((imap pair arrays ≫= shape_updates) ++ (imap pair strided ≫= range_updates))
    (imap pair arrays ≫= pointer_updates).

Lemma GetCellTransform_Ok : GetCellTransform info full cell_indices gods interval_of = Ok cell.
Proof.
  unfold GetCellTransform. rewrite InitializeCellTransform_Ok. destruct initial_ranks as [R1 R2].
  cbn [mbind Result_bind]. fold arrays strided.
  rewrite (foldM_updates _ shape_updates pointer_updates).
  2: { intros t' [i a] Hp H1 H2. apply elem_of_imap in Hp as (i' & a' & Ha & [= -> ->]).
       rewrite (Hpart _ _ Ha).
       destruct (Z.eqb_spec (Z.of_nat (part i')) (-1)) as [|_]; [lia|]. cbn [negb require mbind Result_bind].
       rewrite Nat2Z.id. apply UpdateCellTransform_Ok; [exact Ha|congruence|congruence]. }
  cbn [mbind Result_bind].
  rewrite (foldM_updates _ range_updates (fun _ => [])).
  2: { intros t' [i s] Hp H1 H2. apply elem_of_imap in Hp as (i' & s' & Hs & [= -> ->]).
       rewrite (Hrange _ _ Hs). cbn [mbind Result_bind].
       apply update_dimension_Ok. rewrite H1, updates_rank, R1. apply lookup_lt_Some in Hs. unfold cell_rank. lia. }
  rewrite bind_nothing, updates_app, app_nil_r. reflexivity.
Qed.

Lemma pointer_keys : (imap pair arrays ≫= pointer_updates).*1 = array_dims.
Proof. apply (imap_bind_keys array_set_dims). intros i a. exact (pointer_update_keys a (part i)). Qed.

Lemma shape_keys : ((imap pair arrays ≫= shape_updates) ++ (imap pair strided ≫= range_updates)).*1 =
  seq 0 (length arrays + length strided).
Proof.
  unfold shape_updates, range_updates. rewrite !bind_single, fmap_app, <- !list_fmap_compose.
  rewrite seq_app. f_equal; apply list_eq; intros i; rewrite list_lookup_fmap, list_lookup_imap; cbn.
  - destruct (arrays !! i) as [a|] eqn:E; cbn.
    + rewrite lookup_seq_lt by (eapply lookup_lt_Some, E). reflexivity.
    + rewrite lookup_seq_ge by (apply lookup_ge_None, E). reflexivity.
  - destruct (strided !! i) as [a|] eqn:E; cbn.
    + rewrite lookup_seq_lt by (eapply lookup_lt_Some, E). reflexivity.
    + rewrite lookup_seq_ge by (apply lookup_ge_None, E). reflexivity.
Qed.

Lemma other_map_keys k os : (other_map_updates k os).*1 = os.
Proof.
  unfold other_map_updates. apply list_eq. intros i. rewrite list_lookup_fmap, list_lookup_imap.
  destruct (os !! i); reflexivity.
Qed.

Lemma other_dimension_keys k os : (other_dimension_updates k os).*1 = seq k (length os).
Proof.
  unfold other_dimension_updates. apply list_eq. intros i. rewrite list_lookup_fmap, list_lookup_imap.
  destruct (os !! i) as [a|] eqn:E; cbn.
  - rewrite lookup_seq_lt by (eapply lookup_lt_Some, E). reflexivity.
  - rewrite lookup_seq_ge by (apply lookup_ge_None, E). reflexivity.
Qed.

(** What every part of a cell transform is, given the partition of each array set and the domain
    of each strided set that it has been updated to, if any. *)
Record cell_spec (P : nat -> option nat) (R : nat -> option IndexInterval) (ct : TransformRep) : Prop := MkCellSpec {
  cs_input_rank : input_rank ct = cell_rank;
  cs_output_rank : output_rank ct = input_rank full;
  cs_array i a j d : arrays !! i = Some a -> array_set_dims a !! j = Some d ->
    output_index_maps ct !! d =
      Some (match P i with
            | Some p => with_element_pointer (element_at a (part_start a p) (Z.of_nat j)) (initial_array_map i a)
            | None => initial_array_map i a
            end);
  cs_array_dimension i a : arrays !! i = Some a ->
    input_dimensions ct !! i =
      Some (match P i with
            | Some p => MkDimension (MkOI (MkInterval 0 (part_size a p)) false false) EmptyString
            | None => allocated_dimension
            end);
  cs_strided i s : strided !! i = Some s ->
    output_index_maps ct !! input_dimension s = Some (identity_map (length arrays + i));
  cs_strided_dimension i s : strided !! i = Some s ->
    input_dimensions ct !! (length arrays + i)%nat =
      Some (match R i with
            | Some r => MkDimension (MkOI r false false) EmptyString
            | None => allocated_dimension
            end);
  cs_other k d : other_dims !! k = Some d ->
    output_index_maps ct !! d = Some (identity_map (length arrays + length strided + k));
  cs_other_dimension k d : other_dims !! k = Some d ->
    input_dimensions ct !! (length arrays + length strided + k)%nat = Some (input_dimensions full !!! d)
}.

Lemma other_dims_spec d : d ∈ other_dims -> (d ∉ array_dims ++ strided_dims) /\ (d < input_rank full)%nat.
Proof. unfold other_dims. intros [H1 H2%elem_of_seq]%list_elem_of_filter. split; [exact H1|lia]. Qed.

Lemma initial_map d : (d ∈ array_dims ++ strided_dims) ->
  output_index_maps initial_cell !! d = output_index_maps with_sets !! d.
Proof.
  intros Hd. unfold initial_cell, updates. cbn [output_index_maps]. apply alters_other.
  rewrite other_map_keys. intros Ho. apply other_dims_spec in Ho as [Ho _]. exact (Ho Hd).
Qed.

Lemma initial_dimension i : (i < length arrays + length strided)%nat ->
  input_dimensions initial_cell !! i = Some allocated_dimension.
Proof.
  intros Hi. unfold initial_cell, updates. cbn [input_dimensions].
  rewrite alters_other by (rewrite other_dimension_keys, elem_of_seq; lia).
  rewrite with_sets_dimensions. apply lookup_replicate_2. unfold cell_rank. lia.
Qed.

Lemma cell_spec_initial : cell_spec (fun _ => None) (fun _ => None) initial_cell.
Proof.
  destruct initial_ranks as [R1 R2].
  split; [exact R1|exact R2|..].
  - intros i a j d Ha Hd. apply list_elem_of_lookup_2 in Hd.
    rewrite initial_map by (apply elem_of_app; left; eapply in_array_dims; eassumption).
    exact (with_sets_array i a d Ha Hd).
  - intros i a Ha. apply initial_dimension. apply lookup_lt_Some in Ha. lia.
  - intros i s Hs. rewrite initial_map by (apply elem_of_app; right; exact (in_strided_dims i s Hs)).
    apply with_sets_strided, Hs.
  - intros i s Hs. apply initial_dimension. apply lookup_lt_Some in Hs. lia.
  - intros k d Hk. pose proof (list_elem_of_lookup_2 _ _ _ Hk) as Hin. apply other_dims_spec in Hin as [Ho Hd].
    unfold initial_cell, updates. cbn [output_index_maps].
    rewrite (alters_at _ _ d (fun _ => identity_map (length arrays + length strided + k))).
    + rewrite (with_sets_other d Hd Ho). reflexivity.
    + rewrite other_map_keys. apply NoDup_filter, NoDup_seq.
    + apply elem_of_imap. eauto.
  - intros k d Hk. pose proof (lookup_lt_Some _ _ _ Hk) as Hlen.
    unfold initial_cell, updates. cbn [input_dimensions].
    rewrite (alters_at _ _ _ (fun _ => input_dimensions full !!! d)).
    + rewrite with_sets_dimensions, lookup_replicate_2; [reflexivity|]. unfold cell_rank. lia.
    + rewrite other_dimension_keys. apply NoDup_seq.
    + apply elem_of_imap. eauto.
Qed.

(** ** One update *)

Lemma array_or_strided_disjoint d : d ∈ array_dims -> d ∈ strided_dims -> False.
Proof. apply NoDup_app in Hnd as (_ & Hdis & _). exact (Hdis d). Qed.

Lemma other_not_in_sets k d : other_dims !! k = Some d -> (d ∉ array_dims) /\ (d ∉ strided_dims).
Proof.
  intros Hk%list_elem_of_lookup_2. apply other_dims_spec in Hk as [Ho _]. rewrite elem_of_app in Ho. tauto.
Qed.

Lemma bind_NoDup_index {A} (h : A -> list nat) l i j a b x :
  NoDup (l ≫= h) -> l !! i = Some a -> l !! j = Some b -> x ∈ h a -> x ∈ h b -> i = j.
Proof.
  revert i j; induction l as [|y l IH]; intros i j Hn Hi Hj Ha Hb; [discriminate|].
  change ((y :: l) ≫= h) with (h y ++ (l ≫= h)) in Hn. apply NoDup_app in Hn as (_ & Hd & Hn).
  assert (Hin : forall k c, l !! k = Some c -> x ∈ h c -> x ∈ l ≫= h)
    by (intros k c Hk Hx; apply list_elem_of_bind; exists c; split; [exact Hx|eapply list_elem_of_lookup_2, Hk]).
  destruct i as [|i], j as [|j]; cbn in Hi, Hj; [reflexivity|..].
  - injection Hi as ->. destruct (Hd x Ha). exact (Hin j b Hj Hb).
  - injection Hj as ->. destruct (Hd x Hb). exact (Hin i a Hi Ha).
  - f_equal. apply IH; assumption.
Qed.

(** The update to a partition of an array set. *)
Lemma cell_spec_array P R ct i a p :
  cell_spec P R ct -> arrays !! i = Some a -> exists ct',
    UpdateCellTransformForIndexArraySetPartition a i p ct = Ok ct' /\
    cell_spec (fun j => if decide (j = i) then Some p else P j) R ct'.
Proof.
  intros H Ha. pose proof (proj1 (NoDup_app _ _) Hnd) as (Hnda & _ & _).
  pose proof (lookup_lt_Some _ _ _ Ha) as Hi.
  eexists. split; [exact (UpdateCellTransform_Ok i a p ct Ha (cs_input_rank _ _ _ H) (cs_output_rank _ _ _ H))|].
  assert (Hother : forall d, (d ∉ array_set_dims a) ->
    alters (output_index_maps ct) (pointer_update a p) !! d = output_index_maps ct !! d)
    by (intros d Hd; apply alters_other; rewrite pointer_update_keys; exact Hd).
  split; rewrite ?updates_rank, ?updates_output_rank;
    [exact (cs_input_rank _ _ _ H)|exact (cs_output_rank _ _ _ H)|..]; unfold updates; cbn [input_dimensions output_index_maps].
  - intros i' a' j d Ha' Hd. pose proof (list_elem_of_lookup_2 _ _ _ Hd) as Hin. destruct (decide (i' = i)) as [->|Hne].
    + assert (a' = a) as -> by congruence.
      rewrite (alters_at _ _ d (with_element_pointer (element_at a (part_start a p) (Z.of_nat j)))).
      * rewrite (cs_array _ _ _ H i a j d Ha Hd). destruct (P i); reflexivity.
      * rewrite pointer_update_keys. apply NoDup_index_view.
      * apply list_elem_of_bind. exists (j, d). split; [left|apply elem_of_imap; eauto].
    + rewrite Hother; [exact (cs_array _ _ _ H i' a' j d Ha' Hd)|]. intros Hina.
      exact (Hne (bind_NoDup_index array_set_dims _ i' i a' a d Hnda Ha' Ha Hin Hina)).
  - intros i' a' Ha'. destruct (decide (i' = i)) as [->|Hne].
    + assert (a' = a) as -> by congruence. cbn. rewrite list_lookup_alter_eq, (cs_array_dimension _ _ _ H i a Ha).
      destruct (P i); reflexivity.
    + cbn. rewrite list_lookup_alter_ne by congruence. exact (cs_array_dimension _ _ _ H i' a' Ha').
  - intros k s Hs. rewrite Hother; [exact (cs_strided _ _ _ H k s Hs)|]. intros Hin.
    exact (array_or_strided_disjoint _ (in_array_dims i a _ Ha Hin) (in_strided_dims k s Hs)).
  - intros k s Hs. cbn. rewrite list_lookup_alter_ne by lia. exact (cs_strided_dimension _ _ _ H k s Hs).
  - intros k d Hd. rewrite Hother; [exact (cs_other _ _ _ H k d Hd)|]. intros Hin.
    exact (proj1 (other_not_in_sets k d Hd) (in_array_dims i a d Ha Hin)).
  - intros k d Hd. cbn. rewrite list_lookup_alter_ne by lia. exact (cs_other_dimension _ _ _ H k d Hd).
Qed.

(** The update to a part of the domain of a strided set. *)
Lemma cell_spec_strided P R ct k s r :
  cell_spec P R ct -> strided !! k = Some s -> exists ct',
    update_dimension ct (length arrays + k) (set_interval r) = Ok ct' /\
    cell_spec P (fun j => if decide (j = k) then Some r else R j) ct'.
Proof.
  intros H Hs. pose proof (lookup_lt_Some _ _ _ Hs) as Hk. eexists. split.
  { apply update_dimension_Ok. rewrite (cs_input_rank _ _ _ H). unfold cell_rank. lia. }
  split; rewrite ?updates_rank, ?updates_output_rank;
    [exact (cs_input_rank _ _ _ H)|exact (cs_output_rank _ _ _ H)|..]; unfold updates;
    cbn [input_dimensions output_index_maps alters foldl fst snd].
  - exact (cs_array _ _ _ H).
  - intros i a Ha. pose proof (lookup_lt_Some _ _ _ Ha). rewrite list_lookup_alter_ne by lia.
    exact (cs_array_dimension _ _ _ H i a Ha).
  - exact (cs_strided _ _ _ H).
  - intros j s' Hs'. destruct (decide (j = k)) as [->|Hne].
    + rewrite list_lookup_alter_eq, (cs_strided_dimension _ _ _ H k s' Hs'). destruct (R k); reflexivity.
    + rewrite list_lookup_alter_ne by lia. exact (cs_strided_dimension _ _ _ H j s' Hs').
  - exact (cs_other _ _ _ H).
  - intros j d Hd. rewrite list_lookup_alter_ne by lia. exact (cs_other_dimension _ _ _ H j d Hd).
Qed.

(** The transform is determined by the updates of its sets. *)
Lemma cell_spec_unique P R P' R' ct ct' :
  cell_spec P R ct -> cell_spec P' R' ct' ->
  (forall i a, arrays !! i = Some a -> P i = P' i) -> (forall k s, strided !! k = Some s -> R k = R' k) -> ct = ct'.
Proof.
  intros H H' HP HR.
  assert (Hd : input_dimensions ct = input_dimensions ct').
  { apply list_eq_same_length with cell_rank; [exact (cs_input_rank _ _ _ H')|exact (cs_input_rank _ _ _ H)|].
    intros i x y Hi Hx Hy. apply (inj Some). rewrite <- Hx, <- Hy. unfold cell_rank in Hi.
    destruct (decide (i < length arrays)%nat) as [H1|H1]; [|destruct (decide (i < length arrays + length strided)%nat) as [H2|H2]].
    - destruct (lookup_lt_is_Some_2 _ _ H1) as [a Ha].
      rewrite (cs_array_dimension _ _ _ H i a Ha), (cs_array_dimension _ _ _ H' i a Ha), (HP i a Ha). reflexivity.
    - destruct (lookup_lt_is_Some_2 strided (i - length arrays)) as [s Hs]; [lia|].
      replace i with (length arrays + (i - length arrays))%nat by lia.
      rewrite (cs_strided_dimension _ _ _ H _ s Hs), (cs_strided_dimension _ _ _ H' _ s Hs), (HR _ s Hs). reflexivity.
    - destruct (lookup_lt_is_Some_2 other_dims (i - length arrays - length strided)) as [d Hd]; [lia|].
      replace i with (length arrays + length strided + (i - length arrays - length strided))%nat by lia.
      rewrite (cs_other_dimension _ _ _ H _ d Hd), (cs_other_dimension _ _ _ H' _ d Hd). reflexivity. }
  assert (Hm : output_index_maps ct = output_index_maps ct').
  { apply list_eq_same_length with (input_rank full); [exact (cs_output_rank _ _ _ H')|exact (cs_output_rank _ _ _ H)|].
    intros d x y Hlt' Hx Hy. apply (inj Some). rewrite <- Hx, <- Hy.
    assert (Hin : d ∈ (array_dims ++ strided_dims) ++ other_dims) by (rewrite dims_Permutation; apply elem_of_seq; lia).
    apply elem_of_app in Hin as [Hin|Hin]; [apply array_or_strided in Hin as [(i & a & Ha & Hda)|(i & s & Hs & ->)]|].
    - apply list_elem_of_lookup in Hda as [j Hj].
      rewrite (cs_array _ _ _ H i a j d Ha Hj), (cs_array _ _ _ H' i a j d Ha Hj), (HP i a Ha). reflexivity.
    - rewrite (cs_strided _ _ _ H i s Hs), (cs_strided _ _ _ H' i s Hs). reflexivity.
    - apply list_elem_of_lookup in Hin as [k Hk].
      rewrite (cs_other _ _ _ H k d Hk), (cs_other _ _ _ H' k d Hk). reflexivity. }
  destruct ct, ct'. cbn in Hd, Hm. congruence.
Qed.

Lemma cell_spec_ext P R P' R' ct :
  (forall i, (i < length arrays)%nat -> P i = P' i) -> (forall k, (k < length strided)%nat -> R k = R' k) -> cell_spec P R ct -> cell_spec P' R' ct.
Proof.
  intros HP HR [H1 H2 H3 H4 H5 H6 H7 H8].
  split; [exact H1|exact H2| | |exact H5| |exact H7|exact H8].
  - intros i a j d Ha. rewrite <- HP by exact (lookup_lt_Some _ _ _ Ha). exact (H3 i a j d Ha).
  - intros i a Ha. rewrite <- HP by exact (lookup_lt_Some _ _ _ Ha). exact (H4 i a Ha).
  - intros k s Hs. rewrite <- HR by exact (lookup_lt_Some _ _ _ Hs). exact (H6 k s Hs).
Qed.

(** ** All updates *)

Lemma cell_spec_holds : cell_spec (fun i => Some (part i)) (fun i => Some (range i)) cell.
Proof.
  pose proof cell_spec_initial as H. unfold cell.
  assert (Hnd' : NoDup (seq 0 (length arrays + length strided))) by apply NoDup_seq.
  pose proof (proj1 (NoDup_app _ _) Hnd) as (Hnda & _ & _).
  split; rewrite ?updates_rank, ?updates_output_rank;
    [exact (cs_input_rank _ _ _ H)|exact (cs_output_rank _ _ _ H)|..]; unfold updates;
    cbn [input_dimensions output_index_maps].
  - intros i a j d Ha Hd.
    rewrite (alters_at _ _ d (with_element_pointer (element_at a (part_start a (part i)) (Z.of_nat j)))).
    + rewrite (cs_array _ _ _ H i a j d Ha Hd). reflexivity.
    + rewrite pointer_keys. exact Hnda.
    + apply list_elem_of_bind. exists (i, a). split; [|apply elem_of_imap; eauto].
      apply list_elem_of_bind. exists (j, d). split; [left|apply elem_of_imap; eauto].
  - intros i a Ha. rewrite (alters_at _ _ i (set_shape (part_size a (part i)))).
    + rewrite (cs_array_dimension _ _ _ H i a Ha). reflexivity.
    + rewrite shape_keys. exact Hnd'.
    + apply elem_of_app. left. apply list_elem_of_bind. exists (i, a). split; [left|apply elem_of_imap; eauto].
  - intros i s Hs. rewrite alters_other; [exact (cs_strided _ _ _ H i s Hs)|]. rewrite pointer_keys. intros Ha.
    exact (array_or_strided_disjoint _ Ha (in_strided_dims i s Hs)).
  - intros i s Hs. rewrite (alters_at _ _ _ (set_interval (range i))).
    + rewrite (cs_strided_dimension _ _ _ H i s Hs). reflexivity.
    + rewrite shape_keys. exact Hnd'.
    + apply elem_of_app. right. apply list_elem_of_bind. exists (i, s). split; [left|apply elem_of_imap; eauto].
  - intros k d Hk. rewrite alters_other; [exact (cs_other _ _ _ H k d Hk)|]. rewrite pointer_keys.
    exact (proj1 (other_not_in_sets k d Hk)).
  - intros k d Hk. rewrite alters_other; [exact (cs_other_dimension _ _ _ H k d Hk)|].
    rewrite shape_keys, elem_of_seq. lia.
Qed.
End Cell.
