(* ===== verification/GridCells.v ===== *)
(** The cells of a grid partition.  [GetCellTransform] of a cell maps its domain one-to-one to
    the positions of the input domain that the transform maps to the cell. *)

From stdpp Require Import gmap sorting strings.
From S2P Require Import Prelude Int64 IndexInterval Transform TransformArray Dimensions.
From S2P Require Import GridPartition GridSets GridArrays GridBuckets GridUpdate.

#[local] Opaque index_view.

(** * Rows of an array *)

Lemma concat_lookup_uniform {A} (rows : list (list A)) w : forall i j row,
  Forall (fun r => length r = w) rows -> rows !! i = Some row -> (j < w)%nat ->
  concat rows !! (i * w + j)%nat = row !! j.
Proof.
  induction rows as [|r rows IH]; intros i j row Hw Hi Hj; [discriminate|].
  apply Forall_cons in Hw as [Hr Hw]. cbn [concat]. destruct i as [|i].
  - injection Hi as ->. apply lookup_app_l. lia.
  - rewrite lookup_app_r by lia. replace (S i * w + j - length r)%nat with (i * w + j)%nat by lia.
    apply IH; assumption.
Qed.

Lemma bucket_zip_fmap {A} (cells : A -> list Z) (V : list A) key :
  bucket (zip (cells <$> V) V) key = filter (fun v => cells v = key) V.
Proof.
  unfold bucket. induction V as [|v V IH]; [reflexivity|]. cbn [fmap list_fmap zip zip_with].
  rewrite !filter_cons. cbn [fst]. destruct (decide (cells v = key)); cbn; [f_equal|]; exact IH.
Qed.

(** * An index array set of a partition *)

Section ArraySet.
Variables (t : TransformRep) (gods : list nat) (f : OutputToGridCellFn).
Hypothesis HW : WellFormed t.
Hypothesis Hrank : (input_rank t <= 32)%nat.
Hypothesis Hgods : Forall (fun o => (o < output_rank t)%nat) gods.
Hypothesis Hgrid_rank : (length gods <= 32)%nat.
Hypothesis Hdom : Forall (fun x => IsFinite x = true /\ 0 < size x) (input_domain t).

Definition positions (c : ConnectedSet) : list (list Z) := index_vectors (partial_domain t (input_dims c)).
Definition labelled_positions (c : ConnectedSet) (cells : list Z -> list Z) : list (list Z * list Z) :=
  zip (cells <$> positions c) (positions c).

Record array_set_spec (a : IndexArraySet) (cells : list Z -> list Z) : Prop := MkArraySetSpec {
  ass_connected : connected t gods (set_dims a);
  ass_cells x : in_box (input_domain t) x ->
    cells (select (array_set_dims a) x) = grid_cell t gods f x <$> index_view (grid_dims (set_dims a)) /\
    forall g, test (grid_dims (set_dims a)) g = true -> is_ok (output_index (grid_map t gods g) x) = true;
  ass_keys : grid_cell_indices a = sorted_cells (cells <$> positions (set_dims a));
  ass_offsets_length : length (grid_cell_partition_offsets a) = length (grid_cell_indices a);
  ass_offsets k v : grid_cell_indices a !! k = Some v ->
    grid_cell_partition_offsets a !! k =
      Some (Z.of_nat (start (labelled_positions (set_dims a) cells) (grid_cell_indices a) k));
  ass_rows : partitioned_input_indices a =
    grid_cell_indices a ≫= bucket (labelled_positions (set_dims a) cells);
  ass_memory : sizeof_Index * (Z.of_nat (length (positions (set_dims a))) *
    Z.of_nat (length (array_set_dims a))) <= kMaxFiniteSize
}.

Lemma FillIndexArraySetData_spec c a :
  connected t gods c -> FillIndexArraySetData c gods f t = Ok a ->
  set_dims a = c /\ exists cells, array_set_spec a cells.
Proof.
  intros Hc H. unfold FillIndexArraySetData in H. apply bind_Ok in H as (n & Hn & H).
  destruct (ProductOfIndirectExtents_exact t _ n Hn) as [Hvol _].
  pose proof (partial_domain_valid t gods HW Hdom c Hc) as Hpd.
  assert (Hlen : Z.of_nat (length (positions c)) = n).
  { rewrite Hvol. apply length_index_vectors. eapply Forall_impl; [exact Hpd|]. cbn. lia. }
  assert (Hpos : 1 <= n).
  { rewrite Hvol. apply volume_pos. eapply Forall_impl; [exact Hpd|]. cbn. tauto. }
  destruct (Z.eqb_spec n 0) as [|_]; [lia|]. apply bind_Ok in H as (rows & Hrows & H).
  apply bind_Ok in H as ([] & Hmem & H).
  destruct (GenerateIndexArraySetGridCellIndices_spec t gods f HW Hrank Hgods Hgrid_rank Hdom c Hc n rows Hn Hrows)
    as (cells & -> & Hcells).
  destruct (PartitionIndexArraySetGridCellIndexVectors _) as [[keys offsets] cm] eqn:EP. injection H as <-.
  split; [reflexivity|]. exists cells.
  destruct (partition_spec t (input_dims c) (cells <$> positions c) n keys offsets cm) as (H1 & H2 & H3 & H4).
  - apply length_fmap.
  - rewrite length_fmap. symmetry. exact Hlen.
  - exact EP.
  - split; cbn [set_dims grid_cell_indices grid_cell_partition_offsets partitioned_input_indices array_set_dims];
      [exact Hc|exact Hcells|exact H1|exact H2|exact H3|exact H4|].
    rewrite Hlen. unfold require in Hmem. destruct (_ <=? _) eqn:E; [|discriminate].
    apply Z.leb_le in E. exact E.
Qed.

Variables (a : IndexArraySet) (cells : list Z -> list Z).
Hypothesis Ha : array_set_spec a cells.

Let l := labelled_positions (set_dims a) cells.
Let keys := grid_cell_indices a.

(** The rows of the partition of a cell. *)
Definition cell_rows (key : list Z) : list (list Z) :=
  filter (fun v => cells v = key) (positions (set_dims a)).

Lemma bucket_rows key : bucket l key = cell_rows key.
Proof. apply bucket_zip_fmap. Qed.

Lemma keys_NoDup : NoDup keys.
Proof. unfold keys. rewrite (ass_keys _ _ Ha). apply sorted_cells_NoDup. Qed.

Lemma elem_of_keys v : v ∈ keys <-> exists w, w ∈ positions (set_dims a) /\ cells w = v.
Proof.
  unfold keys. rewrite (ass_keys _ _ Ha), elem_of_sorted_cells, list_elem_of_fmap.
  split; intros (w & H1 & H2); exists w; auto.
Qed.

Lemma length_rows : length (partitioned_input_indices a) = length (positions (set_dims a)).
Proof.
  rewrite (ass_rows _ _ Ha). fold l keys. rewrite length_buckets.
  - unfold l, labelled_positions. rewrite length_zip, length_fmap. lia.
  - exact keys_NoDup.
  - intros [v w] Hp. cbn. apply elem_of_keys. unfold l, labelled_positions in Hp.
    apply list_elem_of_lookup in Hp as [i Hi]. apply lookup_zip_Some in Hi as [H1 H2].
    rewrite list_lookup_fmap, H2 in H1. injection H1 as <-. exists w.
    split; [eapply list_elem_of_lookup_2, H2|reflexivity].
Qed.

Lemma partition_range k key :
  keys !! k = Some key ->
  partition_input_indices a k = (Z.of_nat (start l keys k), Z.of_nat (length (cell_rows key))).
Proof.
  intros Hk. unfold partition_input_indices.
  rewrite (list_lookup_total_correct _ _ _ (ass_offsets _ _ Ha k key Hk)). fold l keys.
  rewrite (ass_offsets_length _ _ Ha). fold keys.
  assert (Hstop : start l keys (S k) = (start l keys k + length (cell_rows key))%nat).
  { rewrite (start_S _ _ _ _ Hk), bucket_rows. reflexivity. }
  destruct (Nat.eqb_spec (S k) (length keys)) as [E|E].
  - rewrite (ass_rows _ _ Ha). fold l keys. f_equal.
    assert (Hall : start l keys (S k) = length (keys ≫= bucket l)).
    { unfold start. rewrite take_ge by lia. reflexivity. }
    lia.
  - destruct (lookup_lt_is_Some_2 keys (S k)) as [key' Hk'].
    { apply lookup_lt_Some in Hk. lia. }
    rewrite (list_lookup_total_correct _ _ _ (ass_offsets _ _ Ha _ _ Hk')). fold l keys. f_equal. lia.
Qed.

Lemma partition_row k key r row :
  keys !! k = Some key -> cell_rows key !! r = Some row ->
  partitioned_input_indices a !! (start l keys k + r)%nat = Some row.
Proof.
  intros Hk Hr. rewrite (ass_rows _ _ Ha). fold l keys. rewrite <- bucket_rows in Hr.
  rewrite (concat_lookup l keys k key r Hk) by (eapply lookup_lt_Some, Hr). exact Hr.
Qed.

Lemma elem_of_rows row : row ∈ partitioned_input_indices a -> row ∈ positions (set_dims a).
Proof.
  rewrite (ass_rows _ _ Ha). intros (v & Hr & _)%list_elem_of_bind. fold l in Hr.
  rewrite bucket_rows in Hr. apply list_elem_of_filter in Hr. tauto.
Qed.

Lemma position_length v : v ∈ positions (set_dims a) -> length v = length (array_set_dims a).
Proof.
  intros Hv%elem_of_index_vectors. apply in_box_length in Hv. rewrite Hv.
  unfold partial_domain. apply length_fmap.
Qed.

(** The element that an index array of a cell transform reads. *)
Lemma element_value k key r row j :
  keys !! k = Some key -> cell_rows key !! r = Some row -> (j < length (array_set_dims a))%nat ->
  element_at a (Z.of_nat (start l keys k)) (Z.of_nat j) (wrap64 (Z.of_nat r * row_byte_stride a)) = row !!! j.
Proof.
  intros Hk Hr Hj. pose proof (partition_row k key r row Hk Hr) as Hrow.
  pose proof (ass_memory _ _ Ha) as Hmem. rewrite <- length_rows in Hmem.
  pose proof (lookup_lt_Some _ _ _ Hrow) as Hlt.
  set (w := length (array_set_dims a)) in *.
  assert (Hst : row_byte_stride a = sizeof_Index * Z.of_nat w).
  { unfold row_byte_stride. destruct (partitioned_input_indices a); [cbn in Hlt; lia|reflexivity]. }
  rewrite Hst. unfold element_at, AddByteOffset. rewrite Hst, wrap_Add, wrap64_add_r.
  set (s := start l keys k) in *. set (N := length (partitioned_input_indices a)) in *.
  assert (Haddr : Z.of_nat s * (sizeof_Index * Z.of_nat w) + Z.of_nat j * sizeof_Index +
    Z.of_nat r * (sizeof_Index * Z.of_nat w) = Z.of_nat ((s + r) * w + j) * sizeof_Index).
  { rewrite Nat2Z.inj_add, Nat2Z.inj_mul, Nat2Z.inj_add. lia. }
  assert (Hb : (((s + r) * w + j) < N * w)%nat) by nia.
  rewrite Haddr, wrap64_id.
  2: { apply Nat2Z.inj_lt in Hb. rewrite Nat2Z.inj_mul in Hb. unfold sizeof_Index in *. revert Hmem. unfold_i64. lia. }
  rewrite Z.div_mul by discriminate. rewrite Nat2Z.id. apply list_lookup_total_correct.
  rewrite (concat_lookup_uniform _ w (s + r) j row); [|..|exact Hrow|exact Hj].
  - assert (Hwl : length row = w) by (apply position_length, elem_of_rows; eapply list_elem_of_lookup_2, Hrow).
    destruct (lookup_lt_is_Some_2 row j) as [v Hv]; [lia|].
    rewrite Hv. f_equal. symmetry. apply list_lookup_total_correct, Hv.
  - apply Forall_forall. intros x Hx. apply position_length, elem_of_rows, Hx.
Qed.
End ArraySet.

(** * The sets of a partition *)

Lemma filter_partition {A} (b : A -> bool) l : List.filter b l ++ List.filter (fun x => negb (b x)) l ≡ₚ l.
Proof.
  induction l as [|x l IH]; [reflexivity|]. cbn [List.filter]. destruct (b x); cbn [negb].
  - cbn. constructor. exact IH.
  - rewrite <- Permutation_middle. constructor. exact IH.
Qed.

Section Partition.
Variables (t : TransformRep) (gods : list nat) (f : OutputToGridCellFn) (info : IndexTransformGridPartition).
Hypothesis HW : WellFormed t.
Hypothesis Hrank : (input_rank t <= 32)%nat.
Hypothesis Hgods : Forall (fun o => (o < output_rank t)%nat) gods.
Hypothesis Hgrid_rank : (length gods <= 32)%nat.
Hypothesis Hdisjoint : inputs_disjoint (ForEachConnectedSet gods t).
Hypothesis Hinfo : PrePartitionIndexTransformOverGrid t gods f = Ok info.

Let sets := ForEachConnectedSet gods t.

Lemma PrePartition_Ok :
  Forall (fun x => IsFinite x = true) (input_domain t) /\
  Forall (fun o => check_output_range t o = Ok tt) gods /\
  strided_sets info = (fun c => MkStridedSet (grid_dims c) (hd 0%nat (index_view (input_dims c)))) <$>
    List.filter (fun c => negb (has_array c)) sets /\
  Forall2 (fun c a => FillIndexArraySetData c gods f t = Ok a) (List.filter has_array sets) (index_array_sets info).
Proof.
  unfold PrePartitionIndexTransformOverGrid in Hinfo. revert Hinfo.
  intros ([] & Hf & H)%bind_Ok. apply bind_Ok in H as (us & Hr & H).
  unfold GenerateIndexTransformGridPartitionData in H. fold sets in H.
  apply bind_Ok in H as (arrays & Ha & [= <-]). cbn [strided_sets index_array_sets].
  split; [|split; [|split; [reflexivity|apply mapR_Ok, Ha]]].
  - unfold require in Hf. destruct (forallb _ _) eqn:E; [|discriminate]. rewrite forallb_forall in E.
    apply Forall_forall. intros x Hx. apply E, list_elem_of_In, Hx.
  - apply mapR_Ok in Hr. apply Forall_forall. intros o Ho. apply list_elem_of_lookup in Ho as [i Hi].
    destruct (Forall2_lookup_l _ _ _ _ _ Hr Hi) as ([] & _ & E). exact E.
Qed.

Lemma connected_sets c : c ∈ sets -> connected t gods c.
Proof.
  destruct (ForEachConnectedSet_spec t gods HW Hrank Hgods Hgrid_rank) as [H _].
  rewrite Forall_forall in H. apply H.
Qed.

(** Every connected set has an input dimension. *)
Lemma connected_input_dim c : c ∈ sets -> exists d, d ∈ index_view (input_dims c).
Proof.
  intros Hc. pose proof (connected_sets c Hc) as Hok. destruct (connected_some _ _ _ Hok) as [g Hg].
  destruct (connected_map _ _ _ Hok g Hg) as [[d Hd] Hsub]. exists d.
  apply (elem_of_input_dims t gods Hrank Hgrid_rank c Hok), Hsub, Hd.
Qed.

Lemma strided_input_dims c : c ∈ sets -> has_array c = false ->
  index_view (input_dims c) = [hd 0%nat (index_view (input_dims c))].
Proof.
  intros Hc Hh. pose proof (connected_sets c Hc) as Hok.
  destruct (connected_strided _ _ _ Hok Hh) as (d & Hd & _).
  assert (Hlt : (d < input_rank t)%nat).
  { apply (connected_input _ _ _ Hok). rewrite Hd, test_set_dim, Nat.eqb_refl. reflexivity. }
  rewrite Hd, index_view_single by lia. reflexivity.
Qed.

Hypothesis Hpos : Forall (fun x => 0 < size x) (input_domain t).

Lemma domain_finite : Forall (fun x => IsFinite x = true /\ 0 < size x) (input_domain t).
Proof. destruct PrePartition_Ok as [H _]. apply Forall_and. auto. Qed.

(** The array sets, with their cells. *)
Lemma array_sets a : a ∈ index_array_sets info ->
  set_dims a ∈ sets /\ has_array (set_dims a) = true /\ exists cells, array_set_spec t gods f a cells.
Proof.
  intros Ha. destruct PrePartition_Ok as (_ & _ & _ & H). apply list_elem_of_lookup in Ha as [i Hi].
  destruct (Forall2_lookup_r _ _ _ _ _ H Hi) as (c & Hc & E).
  apply list_elem_of_lookup_2, list_elem_of_In, filter_In in Hc as [Hc Hh]. apply list_elem_of_In in Hc.
  destruct (FillIndexArraySetData_spec t gods f HW Hrank Hgods Hgrid_rank domain_finite c a (connected_sets c Hc) E)
    as (-> & cells & Hs). eauto.
Qed.

Lemma array_dims_eq : array_dims info = List.filter has_array sets ≫= fun c => index_view (input_dims c).
Proof.
  destruct PrePartition_Ok as (_ & _ & _ & H). unfold array_dims.
  assert (Hs : forall c a, c ∈ List.filter has_array sets -> FillIndexArraySetData c gods f t = Ok a -> set_dims a = c).
  { intros c a Hc E. apply list_elem_of_In, filter_In in Hc as [Hc _]. apply list_elem_of_In in Hc.
    apply (FillIndexArraySetData_spec t gods f HW Hrank Hgods Hgrid_rank domain_finite c a (connected_sets c Hc) E). }
  revert H Hs. generalize (List.filter has_array sets) as cs, (index_array_sets info) as l. intros cs l H.
  induction H as [|c a cs l Hca _ IH]; intros Hs; [reflexivity|]. cbn. unfold array_set_dims at 1.
  rewrite (Hs c a (list_elem_of_here _ _) Hca). f_equal. apply IH. intros c' a' Hc'. apply Hs. right. exact Hc'.
Qed.

Lemma strided_dims_eq : strided_dims info =
  List.filter (fun c => negb (has_array c)) sets ≫= fun c => index_view (input_dims c).
Proof.
  destruct PrePartition_Ok as (_ & _ & H & _). unfold strided_dims. rewrite H, <- list_fmap_compose.
  assert (Hs : forall c, c ∈ List.filter (fun c => negb (has_array c)) sets ->
    index_view (input_dims c) = [hd 0%nat (index_view (input_dims c))]).
  { intros c Hc. apply list_elem_of_In, filter_In in Hc as [Hc Hh]. apply list_elem_of_In in Hc.
    apply strided_input_dims; [exact Hc|]. destruct (has_array c); [discriminate|reflexivity]. }
  revert Hs. generalize (List.filter (fun c => negb (has_array c)) sets) as cs. intros cs Hs.
  induction cs as [|c cs IH]; [reflexivity|]. cbn.
  change (concat (map (fun c => index_view (input_dims c)) cs)) with (cs ≫= fun c => index_view (input_dims c)).
  rewrite <- IH by (intros c' Hc'; apply Hs; right; exact Hc'). pose proof (Hs c (list_elem_of_here _ _)) as E.
  destruct (index_view (input_dims c)) as [|d l]; [discriminate|]. injection E as ->. reflexivity.
Qed.

Lemma set_dims_Permutation : array_dims info ++ strided_dims info ≡ₚ sets ≫= fun c => index_view (input_dims c).
Proof.
  rewrite array_dims_eq, strided_dims_eq, <- bind_app. apply bind_Permutation, filter_partition.
Qed.

Lemma sets_NoDup : NoDup sets.
Proof.
  apply NoDup_alt. intros i j c Hi Hj. pose proof (list_elem_of_lookup_2 _ _ _ Hi) as Hc.
  destruct (connected_input_dim c Hc) as [d [Hd _]%elem_of_index_view].
  exact (Hdisjoint i j c c d Hi Hj Hd Hd).
Qed.

Lemma set_dims_NoDup : NoDup (array_dims info ++ strided_dims info).
Proof.
  rewrite set_dims_Permutation. apply NoDup_bind.
  - intros a b d Ha Hb [Hda _]%elem_of_index_view [Hdb _]%elem_of_index_view.
    apply list_elem_of_lookup in Ha as [i Hi], Hb as [j Hj].
    pose proof (Hdisjoint i j a b d Hi Hj Hda Hdb) as <-. congruence.
  - intros c _. apply NoDup_index_view.
  - exact sets_NoDup.
Qed.

Lemma set_dims_lt : Forall (fun d => (d < input_rank t)%nat) (array_dims info ++ strided_dims info).
Proof.
  apply Forall_forall. intros d. rewrite set_dims_Permutation. intros (c & Hd & Hc)%list_elem_of_bind.
  apply elem_of_index_view in Hd as [Hd _]. exact (connected_input _ _ _ (connected_sets c Hc) d Hd).
Qed.

Lemma array_sets_some : Forall (fun a => array_set_dims a <> []) (index_array_sets info).
Proof.
  apply Forall_forall. intros a Ha E. destruct (array_sets a Ha) as (Hc & _).
  destruct (connected_input_dim _ Hc) as [d Hd]. unfold array_set_dims in E. rewrite E in Hd. inversion Hd.
Qed.

(** The strided sets. *)
Lemma strided_set s : s ∈ strided_sets info ->
  exists c, c ∈ sets /\ has_array c = false /\ s = MkStridedSet (grid_dims c) (input_dimension s) /\
    input_dims c = set_dim 0%N (input_dimension s) /\ (input_dimension s < input_rank t)%nat /\
    forall g, test (grid_dims c) g = true -> method (grid_map t gods g) = single_input_dimension (input_dimension s).
Proof.
  destruct PrePartition_Ok as (_ & _ & -> & _). intros (c & -> & Hc)%list_elem_of_fmap.
  apply list_elem_of_In, filter_In in Hc as [Hc Hh]. apply list_elem_of_In in Hc.
  apply negb_true_iff in Hh. exists c. cbn [input_dimension].
  pose proof (strided_input_dims c Hc Hh) as Hd1. pose proof (connected_sets c Hc) as Hok.
  destruct (connected_strided _ _ _ Hok Hh) as (d & Hd & Hm).
  assert (Hlt : (d < input_rank t)%nat).
  { apply (connected_input _ _ _ Hok). rewrite Hd, test_set_dim, Nat.eqb_refl. reflexivity. }
  assert (Eh : hd 0%nat (index_view (input_dims c)) = d) by (rewrite Hd, index_view_single by lia; reflexivity).
  rewrite Eh. split; [exact Hc|]. split; [exact Hh|]. split; [reflexivity|]. split; [exact Hd|].
  split; [exact Hlt|exact Hm].
Qed.
End Partition.
