(* ===== verification/GridTransform.v ===== *)
(** Correctness of [GetCellTransform]: for a cell that the transform reaches, the cell transform
    is a one-to-one map from its domain to the positions of the cell. *)

From stdpp Require Import gmap sorting strings.
From S2P Require Import Prelude Int64 IndexInterval Transform TransformArray ComposeInvariant Dimensions.
From S2P Require Import GridPartition GridSets GridArrays GridBuckets GridUpdate GridCells.

#[local] Opaque index_view.

(** * Grids *)

(** What the partition needs of a grid: [f] gives the cell of an output index, [interval_of] the
    output indices of a cell.  The laws are about the output indices that are reached. *)
Class GridLaws (f : OutputToGridCellFn) (interval_of : nat -> Z -> IndexInterval)
    (reached : nat -> Z -> Prop) : Prop := {
  law_finite g y : reached g y -> IsFiniteIndex (f g y).1 = true;
  law_interval g y : reached g y -> (f g y).2 = interval_of g (f g y).1;
  law_valid g y : reached g y -> Valid (interval_of g (f g y).1);
  law_cell g y y' : reached g y -> reached g y' ->
    (Contains (interval_of g (f g y).1) y' = true <-> (f g y').1 = (f g y).1)
}.

Lemma floor_bounds y s : 0 < s -> y / s * s <= y < y / s * s + s.
Proof.
  intros Hs. pose proof (Z.mod_pos_bound y s Hs). pose proof (Z.div_mod y s ltac:(lia)). lia.
Qed.

(** A regular grid is one where the cells that are reached are inside the range of indices. *)
Lemma regular_grid_laws shape (reached : nat -> Z -> Prop) :
  (forall g y, reached g y -> IsFiniteIndex y = true /\ 0 < shape !!! g <= kMaxFiniteIndex /\
     -kInfIndex <= y / (shape !!! g) * (shape !!! g) /\
     y / (shape !!! g) * (shape !!! g) + (shape !!! g) <= kInfIndex + 1) ->
  GridLaws (RegularGridRef shape) (GetCellOutputInterval shape) reached.
Proof.
  intros H.
  assert (Hcell : forall g y, reached g y -> (RegularGridRef shape g y).1 = y / (shape !!! g) /\
    Valid (GetCellOutputInterval shape g (y / (shape !!! g))) /\
    inclusive_min (GetCellOutputInterval shape g (y / (shape !!! g))) = y / (shape !!! g) * (shape !!! g) /\
    size (GetCellOutputInterval shape g (y / (shape !!! g))) = shape !!! g).
  { intros g y Hy. destruct (H g y Hy) as (Hf & Hs & Hlo & Hhi). apply IsFiniteIndex_spec in Hf.
    unfold RegularGridRef, GetCellOutputInterval, UncheckedSized. cbn [fst inclusive_min size].
    set (s := shape !!! g) in *.
    pose proof (floor_bounds y s (proj1 Hs)) as Hq. set (q := y / s) in *.
    rewrite FloorOfRatio_exact by (unfold_i64; lia). fold q. clearbody q s. rewrite wrap64_id by (unfold_i64; lia).
    split; [reflexivity|]. split; [|auto]. unfold Valid; cbn. unfold_i64. lia. }
  split.
  - intros g y Hy. destruct (Hcell g y Hy) as (-> & _). destruct (H g y Hy) as (Hf & Hs & _).
    apply IsFiniteIndex_spec in Hf. apply IsFiniteIndex_spec.
    pose proof (floor_bounds y _ (proj1 Hs)) as Hq. set (s := shape !!! g) in *. set (q := y / s) in *.
    clearbody q s. revert Hf Hs Hq. unfold_i64. nia.
  - reflexivity.
  - intros g y Hy. destruct (Hcell g y Hy) as (-> & HV & _). exact HV.
  - intros g y y' Hy Hy'. destruct (Hcell g y Hy) as (-> & HV & H1 & H2), (Hcell g y' Hy') as (-> & _).
    destruct (H g y' Hy') as (Hf & Hs & _). apply IsFiniteIndex_spec in Hf.
    rewrite Contains_spec by exact HV. rewrite inclusive_max_valid by exact HV. rewrite H1, H2.
    set (q := y / _). set (s := shape !!! g) in *. clearbody q.
    pose proof (floor_bounds y' s (proj1 Hs)) as Hq. split.
    + intros [_ Hb]. symmetry. apply (Z.div_unique y' s q (y' - q * s)); lia.
    + intros E. split; [exact Hf|]. rewrite E in Hq. lia.
Qed.

(** * Evaluation of maps *)

Lemma output_agree t m x x' :
  WellFormed t -> m ∈ output_index_maps t -> length x = length x' ->
  (forall d, depends_on m d -> x !!! d = x' !!! d) -> output_index m x = output_index m x'.
Proof.
  intros HW Hm Hl H. destruct (WellFormed_map t m HW Hm) as [Hc _]. unfold check_map in Hc.
  unfold depends_on in H. unfold output_index, base_output_index.
  destruct (method m) as [|d|data]; [reflexivity|..].
  - rewrite (H d); [reflexivity|]. bool_to_prop. auto.
  - rewrite !IndexInnerProduct_dot, (dot_agree x x'); [reflexivity|exact Hl|exact H].
Qed.

(** In a finite interval, containment is the comparison with its two ends. *)
Lemma Contains_box I v : Valid I -> IsFinite I = true ->
  (inclusive_min I <= v < inclusive_min I + size I <-> Contains I v = true).
Proof.
  intros HV Hf. destruct (IsFinite_bounds I Hf HV) as [B1 B2].
  rewrite Contains_spec, inclusive_max_valid by exact HV. lia.
Qed.

(** * The part of a strided domain that lies in a cell *)

Lemma Intersect_finite a b : Valid a -> Valid b -> IsFinite a = true -> IsFinite (Intersect a b) = true.
Proof.
  intros Ha Hb Hf. destruct (Intersect_bounds a b Ha Hb) as (HV & E1 & E2).
  unfold IsFinite in *. apply andb_true_iff in Hf as [F1%negb_true_iff%Z.eqb_neq F2%negb_true_iff%Z.eqb_neq].
  rewrite E1, E2. apply andb_true_iff. rewrite !negb_true_iff, !Z.eqb_neq.
  destruct (valid_bounds a Ha) as (lo & hi & _ & A1 & A2 & _ & R1 & R2 & _). rewrite A1, A2 in *.
  destruct (valid_bounds b Hb) as (lo' & hi' & _ & B1 & B2 & _ & S1 & S2 & _). rewrite B1, B2 in *.
  unfold_i64. lia.
Qed.

Section Restrict.
Variables (map_of : nat -> OutputIndexMap) (cell_range : nat -> IndexInterval).

Definition restrict_step (restricted_domain : IndexInterval) (grid_dim : nat) : Result IndexInterval :=
  cell_domain ← GetAffineTransformDomain (cell_range grid_dim) (offset (map_of grid_dim)) (stride (map_of grid_dim));
  Ok (Intersect restricted_domain cell_domain).

Lemma restrict_spec l : forall dom,
  Valid dom -> IsFinite dom = true ->
  (forall g, g ∈ l -> Valid (cell_range g) /\ empty (cell_range g) = false /\
     in_i64 (offset (map_of g)) /\ in_i64 (stride (map_of g)) /\
     is_ok (GetAffineTransformDomain (cell_range g) (offset (map_of g)) (stride (map_of g))) = true) ->
  exists r, foldM restrict_step dom l = Ok r /\ Valid r /\ IsFinite r = true /\
    forall v, Contains r v = true <-> Contains dom v = true /\
      forall g, g ∈ l -> within (cell_range g) (offset (map_of g) + stride (map_of g) * v).
Proof.
  induction l as [|g l IH]; intros dom HV Hf Hl; cbn [foldM].
  - exists dom. split; [reflexivity|]. split; [exact HV|]. split; [exact Hf|]. intros v.
    split; [intros H; split; [exact H|]; intros g Hg; inversion Hg|tauto].
  - destruct (Hl g (list_elem_of_here _ _)) as (Hcv & Hce & Ho & Hs & Hok).
    destruct (GetAffineTransformDomain _ _ _) as [cd|] eqn:E; [|discriminate].
    assert (Estep : restrict_step dom g = Ok (Intersect dom cd)) by (unfold restrict_step; rewrite E; reflexivity).
    rewrite Estep. cbn [mbind Result_bind]. destruct (AffineDomain_spec _ _ _ _ Hcv Ho Hs E) as [HVc Hcd].
    assert (HVcd : Valid cd) by (destruct HVc as [HVc|[He _]]; [exact HVc|congruence]).
    destruct (IH (Intersect dom cd)) as (r & Hr & HVr & Hfr & Hrs).
    + apply (Intersect_bounds dom cd HV HVcd).
    + apply Intersect_finite; assumption.
    + intros g' Hg'. apply Hl. right. exact Hg'.
    + exists r. split; [exact Hr|]. split; [exact HVr|]. split; [exact Hfr|]. intros v.
      rewrite Hrs, (Intersect_Contains dom cd v HV HVcd), andb_true_iff.
      rewrite (Contains_within cd v HVcd). split.
      * intros [[H1 [H2 H3]] H4]. split; [exact H1|]. intros g' [->|Hg']%elem_of_cons; [apply Hcd; assumption|auto].
      * intros [H1 H2]. split; [|intros g' Hg'; apply H2; right; exact Hg'].
        split; [exact H1|]. assert (Hfv : IsFiniteIndex v = true) by (apply Contains_within in H1; tauto).
        split; [exact Hfv|]. apply Hcd; [exact Hfv|]. apply H2. left.
Qed.
End Restrict.

(** * The transform of a cell *)

Section Correct.
Variables (t : TransformRep) (gods : list nat) (f : OutputToGridCellFn) (info : IndexTransformGridPartition).
Variables (interval_of : nat -> Z -> IndexInterval) (cell_indices : list Z).
Hypothesis HW : WellFormed t.
Hypothesis Hrank : (input_rank t <= 32)%nat.
Hypothesis Hgods : Forall (fun o => (o < output_rank t)%nat) gods.
Hypothesis Hgrid_rank : (length gods <= 32)%nat.
Hypothesis Hdisjoint : inputs_disjoint (ForEachConnectedSet gods t).
Hypothesis Hinfo : PrePartitionIndexTransformOverGrid t gods f = Ok info.

(** The outputs in grid dimension [g] of the positions of the domain. *)
Definition grid_output (g : nat) (y : Z) : Prop :=
  (g < length gods)%nat /\ exists x, in_box (input_domain t) x /\ output_index (grid_map t gods g) x = Ok y.

Hypothesis Hlaws : GridLaws f interval_of grid_output.

(** The position [x] is in the cell. *)
Definition in_cell (c : list Z) (x : list Z) : Prop :=
  forall g, (g < length gods)%nat -> exists y, output_index (grid_map t gods g) x = Ok y /\ (f g y).1 = c !!! g.

Variable x0 : list Z.
Hypothesis Hx0 : in_box (input_domain t) x0.
Hypothesis Hcell0 : in_cell cell_indices x0.
Hypothesis Hpreimage : forall g d, (g < length gods)%nat -> method (grid_map t gods g) = single_input_dimension d ->
  is_ok (GetAffineTransformDomain (interval_of g (cell_indices !!! g)) (offset (grid_map t gods g))
    (stride (grid_map t gods g))) = true.

Let arrays := index_array_sets info.
Let strided := strided_sets info.

Lemma domain_positive : Forall (fun x => 0 < size x) (input_domain t).
Proof.
  apply Forall_lookup. intros i I HI. destruct (lookup_lt_is_Some_2 x0 i) as [v Hv].
  { rewrite (in_box_length _ _ Hx0). eapply lookup_lt_Some, HI. }
  pose proof (Forall2_lookup_lr _ _ _ _ _ _ Hx0 HI Hv). cbn in *. lia.
Qed.

Lemma input_domain_lookup d : (d < input_rank t)%nat ->
  exists D, input_dimensions t !! d = Some D /\ input_domain t !! d = Some (domain D) /\
    input_domain t !!! d = domain D /\ Valid (domain D) /\ IsFinite (domain D) = true.
Proof.
  intros Hd. destruct (lookup_lt_is_Some_2 (input_dimensions t) d Hd) as [D HD]. exists D.
  assert (HI : input_domain t !! d = Some (domain D)) by (unfold input_domain; rewrite list_lookup_fmap, HD; reflexivity).
  split; [exact HD|]. split; [exact HI|]. split; [apply list_lookup_total_correct, HI|]. split.
  - exact (Forall_lookup_1 _ _ _ _ (WellFormed_valid_dims t HW) HD).
  - destruct (PrePartition_Ok t gods f info Hinfo) as [Hf _]. exact (Forall_lookup_1 _ _ _ _ Hf HI).
Qed.

Lemma in_box_length_rank x : in_box (input_domain t) x -> length x = input_rank t.
Proof. intros Hx. rewrite (in_box_length _ _ Hx). unfold input_domain. apply length_fmap. Qed.

Lemma in_box_at x d : in_box (input_domain t) x -> (d < input_rank t)%nat ->
  Contains (input_domain t !!! d) (x !!! d) = true.
Proof.
  intros Hx Hd. destruct (input_domain_lookup d Hd) as (D & _ & HI & -> & HV & Hf).
  destruct (lookup_lt_is_Some_2 x d) as [v Hv]; [rewrite in_box_length_rank by exact Hx; exact Hd|].
  rewrite (list_lookup_total_correct _ _ _ Hv). apply Contains_box; [exact HV|exact Hf|].
  exact (Forall2_lookup_lr _ _ _ _ _ _ Hx HI Hv).
Qed.

Lemma in_box_intro x : length x = input_rank t ->
  (forall d, (d < input_rank t)%nat -> Contains (input_domain t !!! d) (x !!! d) = true) -> in_box (input_domain t) x.
Proof.
  intros Hl H. unfold in_box. apply Forall2_same_length_lookup_2.
  - unfold input_domain. rewrite length_fmap. symmetry. exact Hl.
  - intros d I v HI Hv. assert (Hd : (d < input_rank t)%nat) by (rewrite <- Hl; eapply lookup_lt_Some, Hv).
    destruct (input_domain_lookup d Hd) as (D & _ & HI' & E & HV & Hf). rewrite HI in HI'. injection HI' as ->.
    specialize (H d Hd). rewrite E, (list_lookup_total_correct _ _ _ Hv) in H. apply Contains_box; assumption.
Qed.

(** ** Strided sets *)

Lemma grid_map_i64 g : (g < length gods)%nat ->
  in_i64 (offset (grid_map t gods g)) /\ in_i64 (stride (grid_map t gods g)).
Proof.
  intros Hg. destruct (WellFormed_map t _ HW (grid_map_elem t gods Hgods g Hg)) as [_ (Ho & Hs & _)]. auto.
Qed.

(** The output of a map of one input dimension is exact, and finite. *)
Lemma strided_output g d x :
  (g < length gods)%nat -> method (grid_map t gods g) = single_input_dimension d -> in_box (input_domain t) x ->
  let y := offset (grid_map t gods g) + stride (grid_map t gods g) * (x !!! d) in
  output_index (grid_map t gods g) x = Ok y /\ IsFiniteIndex y = true.
Proof.
  intros Hg Hm Hx. pose proof (grid_map_elem t gods Hgods g Hg) as Hin.
  destruct (grid_map_i64 g Hg) as [Ho Hs].
  assert (Hd : (d < input_rank t)%nat) by (eapply single_in_range; eassumption).
  pose proof (in_box_at x d Hx Hd) as Hxd.
  destruct (input_domain_lookup d Hd) as (D & _ & HI & E & HV & Hf). rewrite E in Hxd.
  apply Contains_box in Hxd; [|exact HV|exact Hf].
  destruct (PrePartition_Ok t gods f info Hinfo) as (_ & Hr & _).
  destruct (lookup_lt_is_Some_2 gods g Hg) as [o Hgo]. pose proof (Forall_lookup_1 _ _ _ _ Hr Hgo) as Hro. cbn in Hro.
  assert (Em : grid_map t gods g = output_index_maps t !!! o).
  { unfold grid_map. rewrite (list_lookup_total_correct _ _ _ Hgo). reflexivity. }
  unfold check_output_range in Hro. rewrite <- Em, Hm, E in Hro. apply bind_Ok in Hro as (y & Hy & _).
  set (m := grid_map t gods g) in *.
  destruct (range_ends _ _ _ _ HV Hf ltac:(lia) Ho Hs Hy) as [R1 R2]. intros v.
  assert (Hv : kMinFiniteIndex <= v <= kMaxFiniteIndex).
  { unfold v. set (a := inclusive_min (domain D)) in *. set (b := a + size (domain D) - 1) in *.
    assert (Hab : a <= x !!! d <= b) by lia. clearbody a b. destruct (Z.le_ge_cases 0 (stride m)); nia. }
  split; [|apply IsFiniteIndex_spec, Hv].
  rewrite (output_index_base _ _ (x !!! d)) by (unfold base_output_index; rewrite Hm; reflexivity).
  f_equal. apply affine_exact. fold v. i64_lia.
Qed.

Lemma strided_cell g d x :
  (g < length gods)%nat -> method (grid_map t gods g) = single_input_dimension d -> in_box (input_domain t) x ->
  (within (interval_of g (cell_indices !!! g)) (offset (grid_map t gods g) + stride (grid_map t gods g) * (x !!! d)) <->
   exists y, output_index (grid_map t gods g) x = Ok y /\ (f g y).1 = cell_indices !!! g).
Proof.
  intros Hg Hm Hx. destruct (strided_output g d x Hg Hm Hx) as [E F]. set (y := _ + _) in *.
  destruct (Hcell0 g Hg) as (y0 & E0 & <-).
  assert (R0 : grid_output g y0) by (split; [exact Hg|eauto]).
  assert (R : grid_output g y) by (split; [exact Hg|eauto]).
  pose proof (law_valid g y0 R0) as HV. rewrite E. split.
  - intros Hw. exists y. split; [reflexivity|]. apply (law_cell g y0 y R0 R), Contains_within; auto.
  - intros (y' & [= <-] & Hy). apply (law_cell g y0 y R0 R), Contains_within in Hy; [tauto|exact HV].
Qed.

Lemma cell_interval_nonempty g d : (g < length gods)%nat -> method (grid_map t gods g) = single_input_dimension d ->
  Valid (interval_of g (cell_indices !!! g)) /\ empty (interval_of g (cell_indices !!! g)) = false.
Proof.
  intros Hg Hm. destruct (Hcell0 g Hg) as (y0 & E0 & <-).
  assert (R0 : grid_output g y0) by (split; [exact Hg|eauto]).
  pose proof (law_valid g y0 R0) as HV. split; [exact HV|].
  assert (Hc : Contains (interval_of g (f g y0).1) y0 = true) by (apply (law_cell g y0 y0 R0 R0); reflexivity).
  apply Contains_spec in Hc; [|exact HV]. rewrite inclusive_max_valid in Hc by exact HV.
  unfold empty. apply Z.eqb_neq. lia.
Qed.

Lemma strided_range_Ok s : s ∈ strided -> exists r,
  restrict_domain t gods (fun g => interval_of g (cell_indices !!! g)) (input_domain t !!! input_dimension s)
    (strided_grid_dims s) = Ok r /\ Valid r /\ IsFinite r = true /\
  forall v, Contains r v = true <-> Contains (input_domain t !!! input_dimension s) v = true /\
    forall g, test (strided_grid_dims s) g = true ->
      within (interval_of g (cell_indices !!! g)) (offset (grid_map t gods g) + stride (grid_map t gods g) * v).
Proof.
  intros Hs. destruct (strided_set t gods f info HW Hrank Hgods Hgrid_rank Hinfo s Hs) as (c & Hc & _ & -> & _ & Hlt & Hm).
  cbn [strided_grid_dims input_dimension] in *. destruct (input_domain_lookup _ Hlt) as (D & _ & _ & E & HV & Hf).
  pose proof (connected_sets t gods HW Hrank Hgods Hgrid_rank c Hc) as Hok.
  rewrite E. destruct (restrict_spec (grid_map t gods) (fun g => interval_of g (cell_indices !!! g))
    (index_view (grid_dims c)) (domain D) HV Hf) as (r & Hr & HVr & Hfr & Hrs).
  - intros g [Hg _]%elem_of_index_view. pose proof (connected_grid _ _ _ Hok g Hg) as Hgl.
    destruct (cell_interval_nonempty g _ Hgl (Hm g Hg)) as [H1 H2]. destruct (grid_map_i64 g Hgl) as [H3 H4].
    split; [exact H1|]. split; [exact H2|]. split; [exact H3|]. split; [exact H4|]. exact (Hpreimage g _ Hgl (Hm g Hg)).
  - exists r. split; [exact Hr|]. split; [exact HVr|]. split; [exact Hfr|]. intros v. rewrite Hrs.
    split; intros [H1 H2]; (split; [exact H1|]); intros g Hg; apply H2.
    + apply elem_of_index_view. split; [exact Hg|]. pose proof (connected_grid _ _ _ Hok g Hg). lia.
    + apply elem_of_index_view in Hg. tauto.
Qed.

(** ** Array sets *)

Definition part (a : IndexArraySet) : nat := Z.to_nat (FindPartition a cell_indices).

(** The rows of the partition that the cell transform reads. *)
Definition part_rows (a : IndexArraySet) : list (list Z) :=
  take (Z.to_nat (part_size a (part a))) (drop (Z.to_nat (part_start a (part a))) (partitioned_input_indices a)).

Record part_spec (a : IndexArraySet) : Prop := MkPartSpec {
  ps_connected : connected t gods (set_dims a);
  ps_found : FindPartition a cell_indices = Z.of_nat (part a);
  ps_NoDup : NoDup (part_rows a);
  ps_size : part_size a (part a) = Z.of_nat (length (part_rows a)) /\ part_size a (part a) <= kMaxFiniteIndex;
  ps_position v : v ∈ part_rows a -> v ∈ positions t (set_dims a);
  ps_rows x : in_box (input_domain t) x -> (select (array_set_dims a) x ∈ part_rows a <->
    forall g, test (grid_dims (set_dims a)) g = true ->
      exists y, output_index (grid_map t gods g) x = Ok y /\ (f g y).1 = cell_indices !!! g);
  ps_element r row j : part_rows a !! r = Some row -> (j < length (array_set_dims a))%nat ->
    element_at a (part_start a (part a)) (Z.of_nat j) (wrap64 (Z.of_nat r * row_byte_stride a)) = row !!! j
}.

(** Every position of a set is the selection from a position of the domain. *)
Lemma position_extends c v : connected t gods c -> v ∈ positions t c ->
  exists x, in_box (input_domain t) x /\ select (index_view (input_dims c)) x = v.
Proof.
  intros Hc Hv%elem_of_index_vectors. set (ds := index_view (input_dims c)).
  pose proof (input_dims_lt t gods c Hc) as Hlt. fold ds in Hlt.
  pose proof (NoDup_index_view (input_dims c)) as Hnd. fold ds in Hnd.
  assert (Hvl : length v = length ds) by (rewrite (in_box_length _ _ Hv); unfold partial_domain; apply length_fmap).
  assert (Hl0 : length x0 = input_rank t) by (apply in_box_length_rank, Hx0).
  assert (Hlt0 : Forall (fun d => (d < length x0)%nat) ds) by (rewrite Hl0; exact Hlt).
  assert (Hat : forall i d w, ds !! i = Some d -> v !! i = Some w -> scatter ds v x0 !!! d = w)
    by (intros i d w; apply (scatter_at ds v x0 i d w Hnd Hlt0)).
  exists (scatter ds v x0). split.
  - apply in_box_intro; [rewrite length_scatter; exact Hl0|]. intros d Hd. destruct (decide (d ∈ ds)) as [Hin|Hout].
    + apply list_elem_of_lookup in Hin as [i Hi]. destruct (lookup_lt_is_Some_2 v i) as [w Hw].
      { rewrite Hvl. eapply lookup_lt_Some, Hi. }
      rewrite (Hat i d w Hi Hw). destruct (input_domain_lookup d Hd) as (D & _ & _ & E & HV & Hf).
      assert (HP : partial_domain t (input_dims c) !! i = Some (input_domain t !!! d))
        by (unfold partial_domain; fold ds; rewrite list_lookup_fmap, Hi; reflexivity).
      rewrite E in *. apply Contains_box; [exact HV|exact Hf|]. exact (Forall2_lookup_lr _ _ _ _ _ _ Hv HP Hw).
    + rewrite scatter_other by exact Hout. apply in_box_at; assumption.
  - unfold select. apply list_eq. intros i. rewrite list_lookup_fmap. destruct (ds !! i) as [d|] eqn:Hi; cbn.
    + destruct (lookup_lt_is_Some_2 v i) as [w Hw]; [rewrite Hvl; eapply lookup_lt_Some, Hi|].
      rewrite Hw. f_equal. exact (Hat i d w Hi Hw).
    + symmetry. apply lookup_ge_None. rewrite Hvl. apply lookup_ge_None, Hi.
Qed.

Lemma cell_is_key a cells x :
  array_set_spec t gods f a cells -> in_box (input_domain t) x ->
  (cells (select (array_set_dims a) x) = cell_key a cell_indices <->
   forall g, test (grid_dims (set_dims a)) g = true ->
     exists y, output_index (grid_map t gods g) x = Ok y /\ (f g y).1 = cell_indices !!! g).
Proof.
  intros Hs Hx. destruct (ass_cells _ _ _ _ _ Hs x Hx) as [-> Hok]. unfold cell_key.
  pose proof (ass_connected _ _ _ _ _ Hs) as Hc.
  assert (Hin : forall g, g ∈ index_view (grid_dims (set_dims a)) <-> test (grid_dims (set_dims a)) g = true).
  { intros g. rewrite elem_of_index_view. split; [tauto|]. intros Hg. split; [exact Hg|].
    pose proof (connected_grid _ _ _ Hc g Hg). lia. }
  split.
  - intros E g Hg. specialize (Hok g Hg). destruct (output_index (grid_map t gods g) x) as [y|] eqn:Ey; [|discriminate].
    exists y. split; [reflexivity|]. apply Hin, list_elem_of_lookup in Hg as [i Hi].
    apply (f_equal (fun l => l !! i)) in E. rewrite !list_lookup_fmap, Hi in E. injection E as E.
    unfold grid_cell in E. rewrite Ey in E. exact E.
  - intros H. apply list_fmap_ext. intros i g Hi. apply list_elem_of_lookup_2, Hin in Hi.
    destruct (H g Hi) as (y & Ey & E). unfold grid_cell. rewrite Ey. exact E.
Qed.

(** The search finds the partition of a cell that is reached. *)
Lemma FindPartition_reached a cells :
  array_set_spec t gods f a cells -> cells (select (array_set_dims a) x0) = cell_key a cell_indices ->
  exists k, grid_cell_indices a !! k = Some (cell_key a cell_indices) /\ FindPartition a cell_indices = Z.of_nat k.
Proof.
  intros Hs Hk0. pose proof (ass_connected _ _ _ _ _ Hs) as Hc.
  assert (Hp0 : select (array_set_dims a) x0 ∈ positions t (set_dims a)).
  { apply elem_of_index_vectors, in_box_select; [exact Hx0|]. apply (input_dims_lt t gods _ Hc). }
  assert (Hgood : forall x, in_box (input_domain t) x ->
    length (cells (select (array_set_dims a) x)) = length (index_view (grid_dims (set_dims a))) /\
    finite_indices (cells (select (array_set_dims a) x))).
  { intros x Hx. destruct (ass_cells _ _ _ _ _ Hs x Hx) as [-> Hok]. split; [apply length_fmap|].
    apply Forall_fmap, Forall_forall. intros g [Hg _]%elem_of_index_view. cbn. unfold grid_cell.
    specialize (Hok g Hg). destruct (output_index (grid_map t gods g) x) as [y|] eqn:Ey; [|discriminate].
    apply law_finite. split; [exact (connected_grid _ _ _ Hc g Hg)|eauto]. }
  destruct (FindPartition_spec a cell_indices) as [[_ Hno]|H]; [..|exact H].
  - rewrite (ass_keys _ _ _ _ _ Hs). apply sorted_cells_sorted.
  - apply Forall_forall. intros v Hv. apply (elem_of_keys t gods f a cells Hs) in Hv as (w & Hw & <-).
    destruct (position_extends _ w Hc Hw) as (x & Hx & <-). apply Hgood, Hx.
  - apply (ass_offsets_length _ _ _ _ _ Hs).
  - rewrite <- Hk0. apply Hgood, Hx0.
  - exfalso. apply Hno. apply (elem_of_keys t gods f a cells Hs). eauto.
Qed.

Lemma array_part a : a ∈ arrays -> part_spec a.
Proof.
  intros Ha. destruct (array_sets t gods f info HW Hrank Hgods Hgrid_rank Hinfo domain_positive a Ha)
    as (_ & _ & cells & Hs).
  pose proof (ass_connected _ _ _ _ _ Hs) as Hc.
  set (key := cell_key a cell_indices).
  assert (Hk0 : cells (select (array_set_dims a) x0) = key).
  { apply (cell_is_key a cells x0 Hs Hx0). intros g Hg. apply Hcell0. exact (connected_grid _ _ _ Hc g Hg). }
  destruct (FindPartition_reached a cells Hs Hk0) as (k & Hk & Hfound).
  assert (Epart : part a = k) by (unfold part; rewrite Hfound; apply Nat2Z.id).
  pose proof (partition_range t gods f Hrank Hgrid_rank a cells Hs k key Hk) as Hrange.
  set (st := start (labelled_positions t (set_dims a) cells) (grid_cell_indices a) k) in *.
  assert (Erows : part_rows a = cell_rows t a cells key).
  { unfold part_rows, part_size, part_start. rewrite Epart, Hrange. cbn [fst snd]. rewrite !Nat2Z.id.
    apply list_eq. intros r. destruct (decide (r < length (cell_rows t a cells key))%nat) as [Hr|Hr].
    - rewrite lookup_take_lt, lookup_drop by exact Hr. destruct (lookup_lt_is_Some_2 _ _ Hr) as [row Hrow].
      rewrite Hrow. exact (partition_row t gods f a cells Hs k key r row Hk Hrow).
    - rewrite lookup_take_ge by lia. symmetry. apply lookup_ge_None. lia. }
  split.
  - exact Hc.
  - rewrite Epart. exact Hfound.
  - rewrite Erows. apply NoDup_filter, NoDup_index_vectors.
  - rewrite Erows. unfold part_size. rewrite Epart, Hrange. cbn [snd]. split; [reflexivity|].
    pose proof (ass_memory _ _ _ _ _ Hs) as Hmem.
    assert (Hle : (length (cell_rows t a cells key) <= length (positions t (set_dims a)))%nat) by apply length_filter.
    pose proof (array_sets_some t gods f info HW Hrank Hgods Hgrid_rank Hinfo domain_positive) as Hne.
    rewrite Forall_forall in Hne. specialize (Hne a Ha).
    assert (1 <= length (array_set_dims a))%nat by (destruct (array_set_dims a); [contradiction|cbn; lia]).
    unfold sizeof_Index in Hmem. revert Hmem. unfold_i64. nia.
  - rewrite Erows. intros v Hv. apply list_elem_of_filter in Hv. tauto.
  - intros x Hx. rewrite Erows, <- (cell_is_key a cells x Hs Hx). unfold cell_rows. rewrite list_elem_of_filter.
    split; [tauto|]. intros H. split; [exact H|].
    apply elem_of_index_vectors, in_box_select; [exact Hx|]. apply (input_dims_lt t gods _ Hc).
  - intros r row j. rewrite Erows. unfold part_start. rewrite Epart, Hrange. cbn [fst].
    exact (element_value t gods f Hrank Hgrid_rank a cells Hs k key r row j Hk).
Qed.

(** ** The positions of the cell and of its transform *)

Definition range (s : StridedSet) : IndexInterval :=
  match restrict_domain t gods (fun g => interval_of g (cell_indices !!! g)) (input_domain t !!! input_dimension s)
      (strided_grid_dims s) with
  | Ok r => r
  | Err _ => Infinite
  end.

Lemma range_spec s : s ∈ strided ->
  restrict_domain t gods (fun g => interval_of g (cell_indices !!! g)) (input_domain t !!! input_dimension s)
    (strided_grid_dims s) = Ok (range s) /\ Valid (range s) /\ IsFinite (range s) = true /\
  forall v, Contains (range s) v = true <-> Contains (input_domain t !!! input_dimension s) v = true /\
    forall g, test (strided_grid_dims s) g = true ->
      within (interval_of g (cell_indices !!! g)) (offset (grid_map t gods g) + stride (grid_map t gods g) * v).
Proof. intros Hs. destruct (strided_range_Ok s Hs) as (r & E & H). unfold range. rewrite E. auto. Qed.

Definition part_at (i : nat) : nat := match arrays !! i with Some a => part a | None => 0%nat end.
Definition range_at (i : nat) : IndexInterval := match strided !! i with Some s => range s | None => Infinite end.
Definition ct : TransformRep := cell info t part_at range_at.
Let others := other_dims info t.
Let NA := length arrays.
Let NS := length strided.

Lemma sets_NoDup' : NoDup (array_dims info ++ strided_dims info).
Proof. exact (set_dims_NoDup t gods f info HW Hrank Hgods Hgrid_rank Hdisjoint Hinfo domain_positive). Qed.
Lemma sets_lt : Forall (fun d => (d < input_rank t)%nat) (array_dims info ++ strided_dims info).
Proof. exact (set_dims_lt t gods f info HW Hrank Hgods Hgrid_rank Hinfo domain_positive). Qed.

Lemma other_spec k d : others !! k = Some d -> (d ∉ array_dims info ++ strided_dims info) /\ (d < input_rank t)%nat.
Proof. intros Hd%list_elem_of_lookup_2. exact (other_dims_spec info t Hrank d Hd). Qed.

Lemma GetCellTransform_ct : GetCellTransform info t cell_indices gods interval_of = Ok ct.
Proof.
  apply GetCellTransform_Ok; [exact sets_NoDup'|exact sets_lt|exact Hrank|..].
  - exact (array_sets_some t gods f info HW Hrank Hgods Hgrid_rank Hinfo domain_positive).
  - intros i a Ha. unfold part_at, arrays. rewrite Ha.
    apply (ps_found _ (array_part a (list_elem_of_lookup_2 _ _ _ Ha))).
  - intros i s Hs. unfold range_at, strided. rewrite Hs. apply range_spec. eapply list_elem_of_lookup_2, Hs.
Qed.

Lemma ct_spec : cell_spec info t (fun i => Some (part_at i)) (fun i => Some (range_at i)) ct.
Proof. exact (cell_spec_holds info t sets_NoDup' sets_lt Hrank part_at range_at). Qed.

Lemma ct_array i a j d : arrays !! i = Some a -> array_set_dims a !! j = Some d ->
  output_index_maps ct !! d =
    Some (with_element_pointer (element_at a (part_start a (part a)) (Z.of_nat j)) (initial_array_map info t i a)).
Proof.
  intros Ha Hj. rewrite (cs_array _ _ _ _ _ ct_spec i a j d Ha Hj). unfold part_at. rewrite Ha. reflexivity.
Qed.

Lemma ct_array_dimension i a : arrays !! i = Some a ->
  input_dimensions ct !! i = Some (MkDimension (MkOI (MkInterval 0 (part_size a (part a))) false false) EmptyString).
Proof.
  intros Ha. rewrite (cs_array_dimension _ _ _ _ _ ct_spec i a Ha). unfold part_at. rewrite Ha. reflexivity.
Qed.

Lemma ct_strided_dimension i s : strided !! i = Some s ->
  input_dimensions ct !! (length arrays + i)%nat = Some (MkDimension (MkOI (range s) false false) EmptyString).
Proof.
  intros Hs. pose proof (cs_strided_dimension _ _ _ _ _ ct_spec i s Hs) as E.
  unfold range_at in E. rewrite Hs in E. exact E.
Qed.

(** Every input dimension of the cell transform, and every input dimension of the transform,
    belongs to one of the three kinds. *)
Lemma cell_dim_cases i : (i < input_rank ct)%nat ->
  (exists a, arrays !! i = Some a) \/ (exists k s, i = (NA + k)%nat /\ strided !! k = Some s) \/
  (exists k d, i = (NA + NS + k)%nat /\ others !! k = Some d).
Proof.
  rewrite (cs_input_rank _ _ _ _ _ ct_spec). unfold cell_rank. fold arrays strided others NA NS. intros Hi.
  destruct (decide (i < NA)%nat) as [H1|H1]; [left; apply lookup_lt_is_Some_2, H1|right].
  destruct (decide (i < NA + NS)%nat) as [H2|H2].
  - left. destruct (lookup_lt_is_Some_2 strided (i - NA)) as [s Hs]; [unfold NS in *; lia|].
    exists (i - NA)%nat, s. split; [lia|exact Hs].
  - right. destruct (lookup_lt_is_Some_2 others (i - NA - NS)) as [d Hd]; [lia|].
    exists (i - NA - NS)%nat, d. split; [lia|exact Hd].
Qed.

Lemma full_dim_cases d : (d < input_rank t)%nat ->
  (exists i a j, arrays !! i = Some a /\ array_set_dims a !! j = Some d) \/
  (exists i s, strided !! i = Some s /\ d = input_dimension s) \/ (exists k, others !! k = Some d).
Proof.
  intros Hd. assert (Hin : d ∈ (array_dims info ++ strided_dims info) ++ others).
  { unfold others. rewrite (dims_Permutation info t sets_NoDup' sets_lt Hrank). apply elem_of_seq. lia. }
  apply elem_of_app in Hin as [Hin|Hin].
  - apply array_or_strided in Hin as [(i & a & Ha & Hda)|H]; [left|right; left; exact H].
    apply list_elem_of_lookup in Hda as [j Hj]. exists i, a, j. auto.
  - right. right. apply list_elem_of_lookup, Hin.
Qed.

(** The position [y] of the cell transform is mapped to [x]. *)
Record maps_to (x y : list Z) : Prop := MkMapsTo {
  mt_length_x : length x = input_rank t;
  mt_length_y : length y = input_rank ct;
  mt_array i a : arrays !! i = Some a ->
    exists r, y !!! i = Z.of_nat r /\ part_rows a !! r = Some (select (array_set_dims a) x);
  mt_strided i s : strided !! i = Some s -> y !!! (NA + i)%nat = x !!! input_dimension s;
  mt_other k d : others !! k = Some d -> y !!! (NA + NS + k)%nat = x !!! d
}.

(** The interval of each kind of input dimension of the cell transform. *)
Lemma ct_domain i : (i < input_rank ct)%nat ->
  Valid (input_domain ct !!! i) /\ IsFinite (input_domain ct !!! i) = true.
Proof.
  intros Hi. unfold input_domain. destruct (cell_dim_cases i Hi) as [[a Ha]|[(k & s & -> & Hs)|(k & d & -> & Hd)]].
  - rewrite (lookup_total_fmap domain _ _ _ (ct_array_dimension i a Ha)). cbn [domain interval optionally_implicit_domain].
    destruct (ps_size _ (array_part a (list_elem_of_lookup_2 _ _ _ Ha))) as [E1 E2].
    assert (HV : Valid (MkInterval 0 (part_size a (part a)))) by (unfold_valid; lia).
    split; [exact HV|]. unfold IsFinite. rewrite inclusive_max_valid by exact HV. cbn [inclusive_min size].
    apply andb_true_iff. rewrite !negb_true_iff, !Z.eqb_neq. unfold_i64. lia.
  - rewrite (lookup_total_fmap domain _ _ _ (ct_strided_dimension k s Hs)). cbn [domain interval optionally_implicit_domain].
    destruct (range_spec s (list_elem_of_lookup_2 _ _ _ Hs)) as (_ & H1 & H2 & _). auto.
  - rewrite (lookup_total_fmap domain _ _ _ (cs_other_dimension _ _ _ _ _ ct_spec k d Hd)).
    apply other_spec in Hd as [_ Hd].
    destruct (input_domain_lookup d Hd) as (D & HD & _ & _ & H1 & H2).
    rewrite (list_lookup_total_correct _ _ _ HD). auto.
Qed.

Lemma in_box_ct y : in_box (input_domain ct) y <-> length y = input_rank ct /\
  (forall i a, arrays !! i = Some a -> 0 <= y !!! i < part_size a (part a)) /\
  (forall i s, strided !! i = Some s -> Contains (range s) (y !!! (NA + i)%nat) = true) /\
  (forall k d, others !! k = Some d -> Contains (input_domain t !!! d) (y !!! (NA + NS + k)%nat) = true).
Proof.
  assert (Hbox : in_box (input_domain ct) y <-> length y = input_rank ct /\
    forall i, (i < input_rank ct)%nat -> inclusive_min (input_domain ct !!! i) <= y !!! i <
      inclusive_min (input_domain ct !!! i) + size (input_domain ct !!! i)).
  { unfold in_box. rewrite Forall2_same_length_lookup. unfold input_domain at 1. rewrite length_fmap.
    fold (input_rank ct). split.
    - intros [Hl H]. split; [congruence|]. intros i Hi.
      destruct (lookup_lt_is_Some_2 (input_domain ct) i) as [I HI]; [unfold input_domain; rewrite length_fmap; exact Hi|].
      destruct (lookup_lt_is_Some_2 y i) as [v Hv]; [congruence|].
      rewrite (list_lookup_total_correct _ _ _ HI), (list_lookup_total_correct _ _ _ Hv). exact (H i I v HI Hv).
    - intros [Hl H]. split; [congruence|]. intros i I v HI Hv. specialize (H i).
      rewrite (list_lookup_total_correct _ _ _ HI), (list_lookup_total_correct _ _ _ Hv) in H. apply H.
      rewrite <- Hl. eapply lookup_lt_Some, Hv. }
  assert (Hat : forall i D, input_dimensions ct !! i = Some D -> (i < input_rank ct)%nat /\ input_domain ct !!! i = domain D).
  { intros i D HD. split; [eapply lookup_lt_Some, HD|]. exact (lookup_total_fmap domain _ _ _ HD). }
  rewrite Hbox. split.
  - intros [Hl H]. split; [exact Hl|]. split; [|split].
    + intros i a Ha. destruct (Hat _ _ (ct_array_dimension i a Ha)) as [Hi E].
      specialize (H i Hi). rewrite E in H. cbn [domain interval optionally_implicit_domain inclusive_min size] in H. lia.
    + intros i s Hs. destruct (Hat _ _ (ct_strided_dimension i s Hs)) as [Hi E].
      destruct (ct_domain _ Hi) as [HV Hf]. specialize (H _ Hi). apply Contains_box in H; [|exact HV|exact Hf].
      rewrite E in H. exact H.
    + intros k d Hd. destruct (Hat _ _ (cs_other_dimension _ _ _ _ _ ct_spec k d Hd)) as [Hi E].
      destruct (ct_domain _ Hi) as [HV Hf]. specialize (H _ Hi). apply Contains_box in H; [|exact HV|exact Hf].
      rewrite E in H. apply other_spec in Hd as [_ Hd].
      destruct (input_domain_lookup d Hd) as (D & HD & _ & -> & _). rewrite (list_lookup_total_correct _ _ _ HD) in H. exact H.
  - intros (Hl & H1 & H2 & H3). split; [exact Hl|]. intros i Hi.
    destruct (cell_dim_cases i Hi) as [[a Ha]|[(k & s & -> & Hs)|(k & d & -> & Hd)]].
    + destruct (Hat _ _ (ct_array_dimension i a Ha)) as [_ ->]. specialize (H1 i a Ha). cbn [domain interval optionally_implicit_domain inclusive_min size]. lia.
    + destruct (ct_domain _ Hi) as [HV Hf]. apply Contains_box; [exact HV|exact Hf|].
      destruct (Hat _ _ (ct_strided_dimension k s Hs)) as [_ E].
      fold arrays NA in E. rewrite E. exact (H2 k s Hs).
    + destruct (ct_domain _ Hi) as [HV Hf]. apply Contains_box; [exact HV|exact Hf|].
      destruct (Hat _ _ (cs_other_dimension _ _ _ _ _ ct_spec k d Hd)) as [_ Ed].
      fold arrays strided NA NS in Ed. rewrite Ed. specialize (H3 k d Hd).
      apply other_spec in Hd as [_ Hd].
      destruct (input_domain_lookup d Hd) as (D & HD & _ & E & _). rewrite E in H3. rewrite (list_lookup_total_correct _ _ _ HD). exact H3.
Qed.

(** ** Evaluation of the cell transform *)

Lemma dot_unit (y : list Z) i v n : length y = n -> (i < n)%nat ->
  dot y (alter (fun _ => v) i (replicate n 0)) = y !!! i * v.
Proof.
  intros <-. revert i; induction y as [|z y IH]; intros i Hi; cbn [length] in Hi; [lia|].
  destruct i as [|i]; cbn [length replicate].
  - change (alter _ 0%nat (0 :: ?l)) with (v :: l). rewrite dot_cons.
    rewrite dot_comm, dot_zeros. change ((z :: y) !!! 0%nat) with z. lia.
  - change (alter ?g (S i) (0 :: ?l)) with (0 :: alter g i l). rewrite dot_cons, IH by lia.
    change ((z :: y) !!! S i) with (y !!! i). lia.
Qed.

Lemma identity_output i (y : list Z) : IsFiniteIndex (y !!! i) = true -> output_index (identity_map i) y = Ok (y !!! i).
Proof.
  intros Hf. rewrite (output_index_base _ _ (y !!! i)) by reflexivity. cbn [identity_map stride offset].
  unfold affine. rewrite Z.mul_1_r, Z.add_0_r. f_equal. apply wrap64_id, finite_in_i64, Hf.
Qed.

Lemma maps_to_evaluates x y :
  maps_to x y -> in_box (input_domain ct) y -> in_box (input_domain t) x -> TransformIndices ct y = Ok x.
Proof.
  intros Hm Hy Hx. pose proof (mt_length_y _ _ Hm) as Hly. pose proof (mt_length_x _ _ Hm) as Hlx.
  assert (Hvd : valid_dims (input_dimensions ct)).
  { apply Forall_lookup. intros i D HD. destruct (ct_domain i) as [HV _]; [eapply lookup_lt_Some, HD|].
    unfold input_domain in HV. rewrite (lookup_total_fmap domain _ _ _ HD) in HV. exact HV. }
  assert (Hfx : forall d, (d < input_rank t)%nat -> IsFiniteIndex (x !!! d) = true).
  { intros d Hd. pose proof (in_box_at x d Hx Hd) as H. destruct (input_domain_lookup d Hd) as (D & _ & _ & E & HV & _).
    rewrite E in H. apply Contains_within in H; [tauto|exact HV]. }
  apply TransformIndices_Ok; [exact Hvd|exact Hly|]. split.
  - apply in_domain_alt. split; [exact Hly|]. intros i D v HD Hv.
    pose proof (lookup_lt_Some _ _ _ HD) as Hi. destruct (ct_domain i Hi) as [HV Hf].
    assert (HI : input_domain ct !! i = Some (domain D)) by (unfold input_domain; rewrite list_lookup_fmap, HD; reflexivity).
    rewrite (list_lookup_total_correct _ _ _ HI) in HV, Hf.
    pose proof (Forall2_lookup_lr _ _ _ _ _ _ Hy HI Hv) as Hb. cbn beta in Hb.
    apply Contains_box in Hb; [|exact HV|exact Hf]. apply Contains_within in Hb as [Hfv Hw]; [|exact HV].
    split; [exact Hfv|]. split; right; apply Hw.
  - apply Forall2_same_length_lookup_2.
    { rewrite Hlx. exact (cs_output_rank _ _ _ _ _ ct_spec). }
    intros d m v Hmd Hv. assert (Hd : (d < input_rank t)%nat) by (rewrite <- Hlx; eapply lookup_lt_Some, Hv).
    pose proof (Hfx d Hd) as Hfd. rewrite (list_lookup_total_correct _ _ _ Hv) in Hfd.
    destruct (full_dim_cases d Hd) as [(i & a & j & Ha & Hj)|[(i & s & Hs & ->)|(k & Hk)]].
    + rewrite (ct_array i a j d Ha Hj) in Hmd. injection Hmd as <-.
      destruct (mt_array _ _ Hm i a Ha) as (r & Hyi & Hrow).
      pose proof (array_part a (list_elem_of_lookup_2 _ _ _ Ha)) as Hps.
      assert (Hval : element_at a (part_start a (part a)) (Z.of_nat j) (wrap64 (Z.of_nat r * row_byte_stride a)) = v).
      { rewrite (ps_element _ Hps r _ j Hrow) by (eapply lookup_lt_Some, Hj).
        unfold select. rewrite (lookup_total_fmap (fun d => x !!! d) _ _ _ Hj). apply list_lookup_total_correct, Hv. }
      assert (Hi : (i < cell_rank info t)%nat).
      { apply lookup_lt_Some in Ha. unfold cell_rank. fold arrays. lia. }
      rewrite (output_index_base _ _ v).
      * cbn [with_element_pointer initial_array_map method stride offset]. unfold affine.
        rewrite Z.mul_1_r, Z.add_0_r. f_equal. apply wrap64_id, finite_in_i64, Hfd.
      * unfold base_output_index, with_element_pointer, initial_array_map.
        cbn [method element_pointer byte_strides index_range].
        rewrite IndexInnerProduct_dot, dot_unit; [|rewrite Hly; exact (cs_input_rank _ _ _ _ _ ct_spec)|exact Hi].
        rewrite Hyi, Hval. unfold CheckContains.
        assert (HC : Contains Infinite v = true).
        { apply Contains_within; [exact Valid_Infinite|]. split; [exact Hfd|apply within_Infinite]. }
        rewrite HC. reflexivity.
    + rewrite (cs_strided _ _ _ _ _ ct_spec i s Hs) in Hmd. injection Hmd as <-.
      pose proof (mt_strided _ _ Hm i s Hs) as E. rewrite (list_lookup_total_correct _ _ _ Hv) in E.
      unfold NA, arrays in E. rewrite identity_output; rewrite E; [reflexivity|exact Hfd].
    + rewrite (cs_other _ _ _ _ _ ct_spec k d Hk) in Hmd. injection Hmd as <-.
      pose proof (mt_other _ _ Hm k d Hk) as E. rewrite (list_lookup_total_correct _ _ _ Hv) in E.
      unfold NA, NS, arrays, strided in E. rewrite identity_output; rewrite E; [reflexivity|exact Hfd].
Qed.

(** ** One position of the cell transform for each position of the cell *)

Lemma maps_to_injective x y y' : maps_to x y -> maps_to x y' -> y = y'.
Proof.
  intros H H'. pose proof (mt_length_y _ _ H) as Hl. pose proof (mt_length_y _ _ H') as Hl'.
  apply list_eq_same_length with (length y); [congruence|reflexivity|].
  intros i v v' Hi Hv Hv'. apply list_lookup_total_correct in Hv as <-, Hv' as <-.
  destruct (cell_dim_cases i ltac:(lia)) as [[a Ha]|[(k & s & -> & Hs)|(k & d & -> & Hd)]].
  - destruct (mt_array _ _ H i a Ha) as (r & -> & Hr), (mt_array _ _ H' i a Ha) as (r' & -> & Hr').
    f_equal. eapply NoDup_lookup; [|exact Hr|exact Hr'].
    apply (ps_NoDup _ (array_part a (list_elem_of_lookup_2 _ _ _ Ha))).
  - rewrite (mt_strided _ _ H k s Hs), (mt_strided _ _ H' k s Hs). reflexivity.
  - rewrite (mt_other _ _ H k d Hd), (mt_other _ _ H' k d Hd). reflexivity.
Qed.

Lemma list_choice {A B} (P : A -> B -> Prop) l : (forall a, a ∈ l -> exists b, P a b) -> exists k, Forall2 P l k.
Proof.
  induction l as [|a l IH]; intros H; [exists []; constructor|].
  destruct (H a (list_elem_of_here _ _)) as [b Hb]. destruct IH as [k Hk]; [intros x Hx; apply H; right; exact Hx|].
  exists (b :: k). constructor; assumption.
Qed.

Lemma strided_of s : s ∈ strided -> exists c, c ∈ ForEachConnectedSet gods t /\
  strided_grid_dims s = grid_dims c /\ (input_dimension s < input_rank t)%nat /\
  forall g, test (strided_grid_dims s) g = true ->
    (g < length gods)%nat /\ method (grid_map t gods g) = single_input_dimension (input_dimension s).
Proof.
  intros Hs. destruct (strided_set t gods f info HW Hrank Hgods Hgrid_rank Hinfo s Hs) as (c & Hc & _ & -> & _ & Hlt & Hm).
  exists c. cbn [strided_grid_dims input_dimension] in *. split; [exact Hc|]. split; [reflexivity|]. split; [exact Hlt|].
  intros g Hg. split; [|exact (Hm g Hg)].
  exact (connected_grid _ _ _ (connected_sets t gods HW Hrank Hgods Hgrid_rank c Hc) g Hg).
Qed.

Lemma position_reached x : in_box (input_domain t) x -> in_cell cell_indices x ->
  exists y, in_box (input_domain ct) y /\ maps_to x y.
Proof.
  intros Hx Hc.
  destruct (list_choice (fun a r => part_rows a !! r = Some (select (array_set_dims a) x)) arrays) as [rs Hrs].
  { intros a Ha. apply list_elem_of_lookup. apply (ps_rows _ (array_part a Ha) x Hx). intros g Hg. apply Hc.
    exact (connected_grid _ _ _ (ps_connected _ (array_part a Ha)) g Hg). }
  set (y := (Z.of_nat <$> rs) ++ ((fun s => x !!! input_dimension s) <$> strided) ++ ((fun d => x !!! d) <$> others)).
  pose proof (Forall2_length _ _ _ Hrs) as Hlr.
  assert (Hl1 : length (Z.of_nat <$> rs) = NA) by (rewrite length_fmap; symmetry; exact Hlr).
  assert (Hl2 : length ((fun s => x !!! input_dimension s) <$> strided) = NS) by apply length_fmap.
  assert (Hm : maps_to x y).
  { split.
    - apply in_box_length_rank, Hx.
    - rewrite (cs_input_rank _ _ _ _ _ ct_spec). unfold y. rewrite !length_app, Hl1, Hl2, length_fmap.
      unfold cell_rank. fold arrays strided others. unfold NA, NS. lia.
    - intros i a Ha. destruct (Forall2_lookup_l _ _ _ _ _ Hrs Ha) as (r & Hr & Hrow). exists r. split; [|exact Hrow].
      unfold y. apply list_lookup_total_correct. rewrite lookup_app_l by (rewrite Hl1; eapply lookup_lt_Some, Ha).
      rewrite list_lookup_fmap, Hr. reflexivity.
    - intros i s Hs. unfold y. apply list_lookup_total_correct. rewrite lookup_app_r by lia. rewrite Hl1.
      replace (NA + i - NA)%nat with i by lia. rewrite lookup_app_l by (rewrite Hl2; eapply lookup_lt_Some, Hs).
      rewrite list_lookup_fmap, Hs. reflexivity.
    - intros k d Hd. unfold y. apply list_lookup_total_correct. rewrite lookup_app_r by lia. rewrite Hl1.
      rewrite lookup_app_r by lia. rewrite Hl2. replace (NA + NS + k - NA - NS)%nat with k by lia.
      rewrite list_lookup_fmap, Hd. reflexivity. }
  exists y. split; [|exact Hm]. apply in_box_ct. split; [exact (mt_length_y _ _ Hm)|]. split; [|split].
  - intros i a Ha. destruct (mt_array _ _ Hm i a Ha) as (r & -> & Hr). apply lookup_lt_Some in Hr.
    destruct (ps_size _ (array_part a (list_elem_of_lookup_2 _ _ _ Ha))) as [-> _]. lia.
  - intros i s Hs. rewrite (mt_strided _ _ Hm i s Hs). pose proof (list_elem_of_lookup_2 _ _ _ Hs) as Hin.
    destruct (strided_of s Hin) as (_ & _ & _ & Hlt & Hg). destruct (range_spec s Hin) as (_ & _ & _ & Hr).
    apply Hr. split; [apply in_box_at; assumption|]. intros g Hgs. destruct (Hg g Hgs) as [Hgl Hgm].
    apply (strided_cell g _ x Hgl Hgm Hx), Hc, Hgl.
  - intros k d Hd. rewrite (mt_other _ _ Hm k d Hd). apply in_box_at; [exact Hx|].
    apply other_spec in Hd. tauto.
Qed.

(** The position that [y] is mapped to. *)
Definition target_updates (y : list Z) : list (nat * Z) :=
  ((imap pair arrays ≫= fun p =>
      imap (fun j d => (d, (part_rows p.2 !!! Z.to_nat (y !!! p.1)) !!! j)) (array_set_dims p.2)) ++
   imap (fun i s => (input_dimension s, y !!! (NA + i)%nat)) strided) ++
  imap (fun k d => (d, y !!! (NA + NS + k)%nat)) others.
Definition target (y : list Z) : list Z := assign (replicate (input_rank t) 0) (target_updates y).

Lemma imap_fst {X B} (g : X -> nat) (v : nat -> X -> B) (l : list X) :
  (imap (fun i x => (g x, v i x)) l).*1 = g <$> l.
Proof.
  apply list_eq. intros i. rewrite !list_lookup_fmap, list_lookup_imap. destruct (l !! i); reflexivity.
Qed.

Lemma target_keys y : (target_updates y).*1 = (array_dims info ++ strided_dims info) ++ others.
Proof.
  unfold target_updates. rewrite !fmap_app. f_equal; [f_equal|].
  - apply imap_bind_keys. intros i a. cbn [fst snd]. rewrite (imap_fst id). apply list_fmap_id.
  - apply imap_fst.
  - rewrite (imap_fst id). apply list_fmap_id.
Qed.

Lemma target_at y d v : (d, v) ∈ target_updates y -> target y !! d = Some v.
Proof.
  intros Hin. assert (Hd : d ∈ (target_updates y).*1) by (apply list_elem_of_fmap; exists (d, v); auto).
  rewrite target_keys in Hd. unfold others in Hd. rewrite (dims_Permutation info t sets_NoDup' sets_lt Hrank) in Hd.
  apply elem_of_seq in Hd. apply assign_at; [|exact Hin|rewrite length_replicate; lia].
  rewrite target_keys. unfold others. rewrite (dims_Permutation info t sets_NoDup' sets_lt Hrank). apply NoDup_seq.
Qed.

Lemma target_array y i a j d : arrays !! i = Some a -> array_set_dims a !! j = Some d ->
  target y !!! d = (part_rows a !!! Z.to_nat (y !!! i)) !!! j.
Proof.
  intros Ha Hj. apply list_lookup_total_correct, target_at. unfold target_updates. rewrite !elem_of_app. left. left.
  apply list_elem_of_bind. exists (i, a). split; apply elem_of_imap; eauto.
Qed.

Lemma target_strided y i s : strided !! i = Some s -> target y !!! input_dimension s = y !!! (NA + i)%nat.
Proof.
  intros Hs. apply list_lookup_total_correct, target_at. unfold target_updates. rewrite !elem_of_app. left. right.
  apply elem_of_imap. eauto.
Qed.

Lemma target_other y k d : others !! k = Some d -> target y !!! d = y !!! (NA + NS + k)%nat.
Proof.
  intros Hd. apply list_lookup_total_correct, target_at. unfold target_updates. rewrite !elem_of_app. right.
  apply elem_of_imap. eauto.
Qed.

Lemma target_row y i a : in_box (input_domain ct) y -> arrays !! i = Some a ->
  exists r, y !!! i = Z.of_nat r /\ part_rows a !! r = Some (select (array_set_dims a) (target y)).
Proof.
  intros Hy Ha. apply in_box_ct in Hy as (_ & H1 & _). specialize (H1 i a Ha).
  pose proof (array_part a (list_elem_of_lookup_2 _ _ _ Ha)) as Hps.
  destruct (ps_size _ Hps) as [E _]. rewrite E in H1. exists (Z.to_nat (y !!! i)). split; [lia|].
  destruct (lookup_lt_is_Some_2 (part_rows a) (Z.to_nat (y !!! i))) as [row Hrow]; [lia|]. rewrite Hrow. f_equal.
  assert (Hlen : length row = length (array_set_dims a)).
  { apply (position_length t a), (ps_position _ Hps). eapply list_elem_of_lookup_2, Hrow. }
  apply list_eq. intros j. unfold select. rewrite list_lookup_fmap. destruct (array_set_dims a !! j) as [d|] eqn:Hj; cbn.
  - rewrite (target_array y i a j d Ha Hj), (list_lookup_total_correct _ _ _ Hrow).
    apply list_lookup_lookup_total_lt. rewrite Hlen. eapply lookup_lt_Some, Hj.
  - apply lookup_ge_None. rewrite Hlen. apply lookup_ge_None, Hj.
Qed.

Lemma target_in_box y : in_box (input_domain ct) y -> in_box (input_domain t) (target y).
Proof.
  intros Hy. apply in_box_intro; [unfold target; rewrite length_assign; apply length_replicate|]. intros d Hd.
  pose proof (proj1 (in_box_ct y) Hy) as (_ & _ & H2 & H3).
  destruct (full_dim_cases d Hd) as [(i & a & j & Ha & Hj)|[(i & s & Hs & ->)|(k & Hk)]].
  - destruct (target_row y i a Hy Ha) as (r & _ & Hr). apply list_elem_of_lookup_2 in Hr.
    apply (ps_position _ (array_part a (list_elem_of_lookup_2 _ _ _ Ha))), elem_of_index_vectors in Hr.
    destruct (input_domain_lookup d Hd) as (D & _ & _ & E & HV & Hf). rewrite E. apply Contains_box; [exact HV|exact Hf|].
    rewrite <- E.
    refine (Forall2_lookup_lr _ _ _ j _ _ Hr _ _); [unfold partial_domain|unfold select];
      rewrite list_lookup_fmap; fold (array_set_dims a); rewrite Hj; reflexivity.
  - rewrite (target_strided y i s Hs). specialize (H2 i s Hs).
    destruct (range_spec s (list_elem_of_lookup_2 _ _ _ Hs)) as (_ & _ & _ & Hr). apply Hr in H2. tauto.
  - rewrite (target_other y k d Hk). exact (H3 k d Hk).
Qed.

(** An output that depends on no input dimension is the same everywhere. *)
Lemma independent_output g x : (g < length gods)%nat -> in_box (input_domain t) x ->
  (forall d, ~ depends_on (grid_map t gods g) d) -> output_index (grid_map t gods g) x = output_index (grid_map t gods g) x0.
Proof.
  intros Hg Hx Hno. apply (output_agree t); [exact HW|exact (grid_map_elem t gods Hgods g Hg)|..].
  - rewrite (in_box_length_rank x Hx), (in_box_length_rank x0 Hx0). reflexivity.
  - intros d Hd. destruct (Hno d Hd).
Qed.

Lemma set_of c : c ∈ ForEachConnectedSet gods t ->
  (exists a, a ∈ arrays /\ set_dims a = c) \/ (exists s, s ∈ strided /\ strided_grid_dims s = grid_dims c).
Proof.
  intros Hc. destruct (PrePartition_Ok t gods f info Hinfo) as (_ & _ & Es & Ea).
  destruct (has_array c) eqn:Hh.
  - left. assert (Hin : c ∈ List.filter has_array (ForEachConnectedSet gods t))
      by (apply list_elem_of_In, filter_In; split; [apply list_elem_of_In, Hc|exact Hh]).
    apply list_elem_of_lookup in Hin as [i Hi]. destruct (Forall2_lookup_l _ _ _ _ _ Ea Hi) as (a & Ha & E).
    exists a. split; [eapply list_elem_of_lookup_2, Ha|].
    assert (Hdom : Forall (fun x => IsFinite x = true /\ 0 < size x) (input_domain t)).
    { exact (domain_finite t gods f info Hinfo domain_positive). }
    apply (FillIndexArraySetData_spec t gods f HW Hrank Hgods Hgrid_rank Hdom c a); [|exact E].
    exact (connected_sets t gods HW Hrank Hgods Hgrid_rank c Hc).
  - right. unfold strided. rewrite Es. eexists. split.
    + apply list_elem_of_fmap. exists c. split; [reflexivity|]. apply list_elem_of_In, filter_In.
      split; [apply list_elem_of_In, Hc|]. rewrite Hh. reflexivity.
    + reflexivity.
Qed.

Lemma target_in_cell y : in_box (input_domain ct) y -> in_cell cell_indices (target y).
Proof.
  intros Hy g Hg. pose proof (target_in_box y Hy) as Hx.
  destruct (dependencies_spec t _ (grid_output_lt t gods Hgods g Hg) HW) as (Hdep & _).
  destruct (none (GetInputDimensionsForOutputDimension t (gods !!! g)).1) eqn:En.
  - rewrite (independent_output g _ Hg Hx); [exact (Hcell0 g Hg)|]. intros d Hd.
    apply Hdep in Hd. rewrite (proj1 (none_spec _) En d) in Hd. discriminate.
  - apply not_none_spec in En as [d Hd]. apply Hdep in Hd.
    destruct (ForEachConnectedSet_spec t gods HW Hrank Hgods Hgrid_rank) as (_ & _ & Hcover).
    destruct (Hcover g d Hg Hd) as (c & Hc & Hgc). destruct (set_of c Hc) as [(a & Ha & <-)|(s & Hs & Es)].
    + apply (ps_rows _ (array_part a Ha) _ Hx); [|exact Hgc]. apply list_elem_of_lookup in Ha as [i Ha].
      destruct (target_row y i a Hy Ha) as (r & _ & Hr). eapply list_elem_of_lookup_2, Hr.
    + rewrite <- Es in Hgc. destruct (strided_of s Hs) as (_ & _ & _ & _ & Hm). destruct (Hm g Hgc) as [_ Hmg].
      apply (strided_cell g _ _ Hg Hmg Hx). destruct (range_spec s Hs) as (_ & _ & _ & Hr).
      apply list_elem_of_lookup in Hs as [i Hs]. rewrite (target_strided y i s Hs).
      apply in_box_ct in Hy as (_ & _ & H2 & _). apply Hr; [exact (H2 i s Hs)|exact Hgc].
Qed.

Lemma target_maps_to y : in_box (input_domain ct) y -> maps_to (target y) y.
Proof.
  intros Hy. pose proof (proj1 (in_box_ct y) Hy) as (Hl & _). split.
  - unfold target. rewrite length_assign. apply length_replicate.
  - exact Hl.
  - intros i a Ha. apply target_row; assumption.
  - intros i s Hs. symmetry. apply target_strided, Hs.
  - intros k d Hd. symmetry. apply target_other, Hd.
Qed.

Lemma cell_bijection x :
  (in_box (input_domain t) x /\ in_cell cell_indices x <->
   exists y, in_box (input_domain ct) y /\ TransformIndices ct y = Ok x) /\
  (forall y y', in_box (input_domain ct) y -> in_box (input_domain ct) y' ->
     TransformIndices ct y = Ok x -> TransformIndices ct y' = Ok x -> y = y').
Proof.
  assert (Heval : forall y, in_box (input_domain ct) y -> TransformIndices ct y = Ok (target y)).
  { intros y Hy. apply maps_to_evaluates; [apply target_maps_to|exact Hy|apply target_in_box]; exact Hy. }
  split; [split|].
  - intros [Hx Hc]. destruct (position_reached x Hx Hc) as (y & Hy & Hm). exists y. split; [exact Hy|].
    apply maps_to_evaluates; assumption.
  - intros (y & Hy & E). rewrite (Heval y Hy) in E. injection E as <-.
    split; [apply target_in_box, Hy|apply target_in_cell, Hy].
  - intros y y' Hy Hy' E E'. rewrite (Heval y Hy) in E. rewrite (Heval y' Hy') in E'.
    injection E as <-. injection E' as E'. apply (maps_to_injective (target y)); [apply target_maps_to, Hy|].
    rewrite <- E'. apply target_maps_to, Hy'.
Qed.
(** ** The invariants of the cell transform *)

Lemma ct_dims_valid : valid_dims (input_dimensions ct).
Proof.
  apply Forall_lookup. intros i D HD. destruct (ct_domain i) as [HV _]; [eapply lookup_lt_Some, HD|].
  unfold input_domain in HV. rewrite (lookup_total_fmap domain _ _ _ HD) in HV. exact HV.
Qed.

Lemma ct_not_empty i D : input_dimensions ct !! i = Some D -> size (domain D) <> 0.
Proof.
  intros HD. destruct (position_reached x0 Hx0 Hcell0) as (y & Hy & _).
  assert (HI : input_domain ct !! i = Some (domain D)) by (unfold input_domain; rewrite list_lookup_fmap, HD; reflexivity).
  destruct (Forall2_lookup_l _ _ _ _ _ Hy HI) as (v & _ & Hv). lia.
Qed.

Lemma ct_labels : is_ok (ValidateDimensionLabelsAreUnique (label <$> input_dimensions ct)) = true.
Proof.
  assert (E : label <$> input_dimensions ct =
    replicate (NA + NS) EmptyString ++ ((fun d => label (input_dimensions t !!! d)) <$> others)).
  { apply list_eq_same_length with (input_rank ct); [|apply length_fmap|].
    - rewrite length_app, length_replicate, length_fmap, (cs_input_rank _ _ _ _ _ ct_spec). reflexivity.
    - intros i x y Hi Hx Hy. rewrite list_lookup_fmap in Hx. apply fmap_Some in Hx as (D & HD & ->).
      destruct (cell_dim_cases i Hi) as [[a Ha]|[(k & s & -> & Hs)|(k & d & -> & Hd)]].
      + rewrite (ct_array_dimension i a Ha) in HD. injection HD as <-.
        rewrite lookup_app_l, lookup_replicate_2 in Hy by (rewrite ?length_replicate; apply lookup_lt_Some in Ha; unfold NA; lia).
        injection Hy as <-. reflexivity.
      + pose proof (ct_strided_dimension k s Hs) as E. fold arrays NA in E. rewrite E in HD. injection HD as <-.
        rewrite lookup_app_l, lookup_replicate_2 in Hy by (rewrite ?length_replicate; apply lookup_lt_Some in Hs; unfold NS; lia).
        injection Hy as <-. reflexivity.
      + pose proof (cs_other_dimension _ _ _ _ _ ct_spec k d Hd) as E. fold arrays strided NA NS in E.
        rewrite E in HD. injection HD as <-.
        rewrite lookup_app_r in Hy by (rewrite length_replicate; lia).
        rewrite length_replicate, list_lookup_fmap in Hy. replace (NA + NS + k - (NA + NS))%nat with k in Hy by lia.
        rewrite Hd in Hy. injection Hy as <-. reflexivity. }
  rewrite E, labels_unique_spec, labelled_app, labelled_blank. cbn [app].
  rewrite decide_True; [reflexivity|]. apply NoDup_labelled_fmap.
  - apply NoDup_filter, NoDup_seq.
  - intros d d' Hd Hd' El Hne. pose proof (WellFormed_labels t HW) as HL.
    rewrite labels_unique_spec in HL. destruct (decide _) as [HN|]; [|discriminate].
    apply list_elem_of_lookup in Hd as [k Hk%other_spec], Hd' as [k' Hk'%other_spec].
    destruct (lookup_lt_is_Some_2 (input_dimensions t) d) as [D HD]; [apply Hk|].
    destruct (lookup_lt_is_Some_2 (input_dimensions t) d') as [D' HD']; [apply Hk'|].
    rewrite (list_lookup_total_correct _ _ _ HD) in El, Hne. rewrite (list_lookup_total_correct _ _ _ HD') in El.
    apply (labelled_unique _ d d' (label D) HN); [..|exact Hne]; rewrite list_lookup_fmap, ?HD, ?HD'; cbn; congruence.
Qed.

Lemma ct_WellFormed : WellFormed ct.
Proof.
  assert (Hid : forall i, (i < input_rank ct)%nat ->
    check_map (MkTransform (input_dimensions ct) []) (identity_map i) = true /\ typed_map (input_rank ct) (identity_map i)).
  { intros i Hi. split; [|unfold typed_map, in_i64; cbn; i64_lia]. unfold check_map. cbn [method identity_map stride].
    apply andb_true_iff. split; [apply Nat.ltb_lt, Hi|reflexivity]. }
  assert (Hrank_ct : input_rank ct = (NA + NS + length others)%nat) by exact (cs_input_rank _ _ _ _ _ ct_spec).
  assert (Ect : ct = MkTransform (input_dimensions ct) (output_index_maps ct)) by (destruct ct; reflexivity).
  rewrite Ect. apply WellFormed_intro; [exact ct_labels|exact ct_dims_valid|].
  - intros m Hm. apply list_elem_of_lookup in Hm as [d Hm]. fold (input_rank ct).
    assert (Hd : (d < input_rank t)%nat) by (rewrite <- (cs_output_rank _ _ _ _ _ ct_spec); eapply lookup_lt_Some, Hm).
    destruct (full_dim_cases d Hd) as [(i & a & j & Ha & Hj)|[(i & s & Hs & ->)|(k & Hk)]].
    + rewrite (ct_array i a j d Ha Hj) in Hm. injection Hm as <-.
      cbn [with_element_pointer initial_array_map method offset stride index_range byte_strides].
      split; [apply check_array; [lia| |]|].
      * apply not_true_is_false. intros (D & HD%list_elem_of_In & He)%existsb_exists.
        apply list_elem_of_lookup in HD as [k HD]. bool_to_prop. exact (ct_not_empty k D HD ltac:(assumption)).
      * intros k D HD Hne. cbn [byte_strides] in Hne.
        destruct (decide (k = i)) as [->|Hki].
        -- rewrite (ct_array_dimension i a Ha) in HD. injection HD as <-. split; [reflexivity|split; [reflexivity|]].
           destruct (ct_domain i) as [_ Hf]; [eapply lookup_lt_Some, (ct_array_dimension i a Ha)|].
           unfold input_domain in Hf. rewrite (lookup_total_fmap domain _ _ _ (ct_array_dimension i a Ha)) in Hf. exact Hf.
        -- exfalso. apply Hne. rewrite list_lookup_total_alter_ne by congruence. apply lookup_replicate_zero.
      * unfold typed_map, in_i64. cbn [method offset stride byte_strides index_range].
        split; [i64_lia|split; [i64_lia|]]. split; [|exact Valid_Infinite].
        rewrite length_alter, length_replicate. symmetry. exact (cs_input_rank _ _ _ _ _ ct_spec).
    + rewrite (cs_strided _ _ _ _ _ ct_spec i s Hs) in Hm. injection Hm as <-. apply Hid.
      apply lookup_lt_Some in Hs. fold arrays NA. unfold NS in *. lia.
    + rewrite (cs_other _ _ _ _ _ ct_spec k d Hk) in Hm. injection Hm as <-. apply Hid.
      apply lookup_lt_Some in Hk. fold arrays strided NA NS. lia.
Qed.

(** The outputs of the cell transform are input indices of the full transform: no overflow. *)
Lemma ct_evaluates_finite y : in_box (input_domain ct) y -> evaluates_finite ct y.
Proof.
  intros Hy. apply Forall_forall. intros m Hm v Hv. apply list_elem_of_lookup in Hm as [d Hm].
  assert (Hd : (d < input_rank t)%nat) by (rewrite <- (cs_output_rank _ _ _ _ _ ct_spec); eapply lookup_lt_Some, Hm).
  assert (Hfin : forall i, (i < input_rank ct)%nat -> IsFiniteIndex (y !!! i) = true).
  { intros i Hi. destruct (ct_domain i Hi) as [HV Hf].
    destruct (lookup_lt_is_Some_2 (input_domain ct) i) as [I HI]; [unfold input_domain; rewrite length_fmap; exact Hi|].
    destruct (Forall2_lookup_l _ _ _ _ _ Hy HI) as (w & Hw & Hb). rewrite (list_lookup_total_correct _ _ _ HI) in HV, Hf.
    rewrite (list_lookup_total_correct _ _ _ Hw). apply Contains_box in Hb; [|exact HV|exact Hf].
    apply Contains_within in Hb; [tauto|exact HV]. }
  destruct (full_dim_cases d Hd) as [(i & a & j & Ha & Hj)|[(i & s & Hs & ->)|(k & Hk)]].
  - rewrite (ct_array i a j d Ha Hj) in Hm. injection Hm as <-.
    unfold base_output_index in Hv. cbn [with_element_pointer initial_array_map method index_range] in Hv.
    apply bind_Ok in Hv as (? & Hc & [= <-]). unfold CheckContains in Hc.
    destruct (Contains Infinite _) eqn:HC; [|discriminate]. apply Contains_within in HC as [HC _]; [|exact Valid_Infinite].
    cbn [with_element_pointer initial_array_map method offset stride]. rewrite Z.mul_1_l. exact HC.
  - rewrite (cs_strided _ _ _ _ _ ct_spec i s Hs) in Hm. injection Hm as <-. injection Hv as <-.
    cbn [identity_map offset stride]. rewrite Z.mul_1_l. apply Hfin.
    eapply lookup_lt_Some, (ct_strided_dimension i s Hs).
  - rewrite (cs_other _ _ _ _ _ ct_spec k d Hk) in Hm. injection Hm as <-. injection Hv as <-.
    cbn [identity_map offset stride]. rewrite Z.mul_1_l. apply Hfin.
    eapply lookup_lt_Some, (cs_other_dimension _ _ _ _ _ ct_spec k d Hk).
Qed.

End Correct.
