(* ===== verification/GridIterator.v ===== *)
(** Iteration over the cells of a grid that a transform reaches:
    [PartitionIndexTransformIterator] of [internal/grid_partition_iterator.{h,cc}].

    A position of the iterator has a component for each connected set: a partition of an index
    array set, or the first input index of a cell in the domain of a strided set.  The transform
    and the indices of the current cell are modified in place. *)

From stdpp Require Import gmap sorting strings.
From S2P Require Import Prelude Int64 IndexInterval Transform TransformArray Dimensions GridPartition.

(** * Definitions *)

(** The members that change; those that are constant after [Init] are the variables below. *)
Record PartitionIndexTransformIterator := MkIterator {
  at_end_ : bool;
  cell_transform_ : TransformRep;
  output_grid_cell_indices_ : list Z;
  position_ : list Z;
  upper_bound_ : list Z;
  strided_next_position_ : list Z
}.

(** Assignments to members. *)
Definition set_at_end (it : PartitionIndexTransformIterator) : PartitionIndexTransformIterator :=
  MkIterator true (cell_transform_ it) (output_grid_cell_indices_ it) (position_ it) (upper_bound_ it)
    (strided_next_position_ it).
Definition set_cell_transform (it : PartitionIndexTransformIterator) (t : TransformRep)
    : PartitionIndexTransformIterator :=
  MkIterator (at_end_ it) t (output_grid_cell_indices_ it) (position_ it) (upper_bound_ it)
    (strided_next_position_ it).
Definition set_cell_index (it : PartitionIndexTransformIterator) (grid_dim : nat) (c : Z)
    : Result PartitionIndexTransformIterator :=
  l ← checked_update (output_grid_cell_indices_ it) grid_dim (fun _ => c);
  Ok (MkIterator (at_end_ it) (cell_transform_ it) l (position_ it) (upper_bound_ it) (strided_next_position_ it)).
Definition set_position (it : PartitionIndexTransformIterator) (i : nat) (p : Z)
    : Result PartitionIndexTransformIterator :=
  l ← checked_update (position_ it) i (fun _ => p);
  Ok (MkIterator (at_end_ it) (cell_transform_ it) (output_grid_cell_indices_ it) l (upper_bound_ it)
        (strided_next_position_ it)).
Definition set_upper_bound (it : PartitionIndexTransformIterator) (i : nat) (p : Z)
    : Result PartitionIndexTransformIterator :=
  l ← checked_update (upper_bound_ it) i (fun _ => p);
  Ok (MkIterator (at_end_ it) (cell_transform_ it) (output_grid_cell_indices_ it) (position_ it) l
        (strided_next_position_ it)).
Definition set_next_position (it : PartitionIndexTransformIterator) (i : nat) (p : Z)
    : Result PartitionIndexTransformIterator :=
  l ← checked_update (strided_next_position_ it) i (fun _ => p);
  Ok (MkIterator (at_end_ it) (cell_transform_ it) (output_grid_cell_indices_ it) (position_ it)
        (upper_bound_ it) l).

Section Iterator.
Variables (info : IndexTransformGridPartition) (gods : list nat) (f : OutputToGridCellFn) (t : TransformRep).

Definition iterator_rank : nat := (length (index_array_sets info) + length (strided_sets info))%nat.
Definition is_index_array_set (i : nat) : bool := Nat.ltb i (length (index_array_sets info)).
(** The index of a strided set. *)
Definition strided_set_i (i : nat) : nat := (i - length (index_array_sets info))%nat.

Definition ResetIndexArraySet (it : PartitionIndexTransformIterator) (i : nat)
    : Result PartitionIndexTransformIterator :=
  index_array_set ← checked_at (index_array_sets info) i;
  it ← set_position it i 0;
  set_upper_bound it i (num_partitions index_array_set).

Definition ApplyIndexArraySet (it : PartitionIndexTransformIterator) (i : nat)
    : Result PartitionIndexTransformIterator :=
  p ← checked_at (position_ it) i;
  upper ← checked_at (upper_bound_ it) i;
  _ ← require (p <? upper) OutOfBounds;
  index_array_set ← checked_at (index_array_sets info) i;
  row ← checked_at (grid_cell_indices index_array_set) (Z.to_nat p);
  it ← foldM (fun it '(grid_i, grid_dim) => c ← checked_at row grid_i; set_cell_index it grid_dim c)
         it (imap pair (index_view (grid_dims (set_dims index_array_set))));
  ct ← UpdateCellTransformForIndexArraySetPartition index_array_set i (Z.to_nat p) (cell_transform_ it);
  Ok (set_cell_transform it ct).

Definition ResetStridedSet (it : PartitionIndexTransformIterator) (i : nat)
    : Result PartitionIndexTransformIterator :=
  strided_set ← checked_at (strided_sets info) (strided_set_i i);
  let dom := input_domain t !!! input_dimension strided_set in
  it ← set_position it i (inclusive_min dom);
  it ← set_upper_bound it i (exclusive_max dom);
  set_next_position it (strided_set_i i) (inclusive_min dom).

(** The cell of one grid dimension at the position [p], and its part of the domain. *)
Definition apply_grid_dim (p : Z) (st : PartitionIndexTransformIterator * IndexInterval) (grid_dim : nat)
    : Result (PartitionIndexTransformIterator * IndexInterval) :=
  let '(it, restricted_domain) := st in
  let map := output_index_maps t !!! (gods !!! grid_dim) in
  let '(c, cell_range) := f grid_dim ((p * stride map)%i64 + offset map)%i64 in
  it ← set_cell_index it grid_dim c;
  cell_domain ← GetAffineTransformDomain cell_range (offset map) (stride map);
  Ok (it, Intersect restricted_domain cell_domain).

Definition ApplyStridedSet (it : PartitionIndexTransformIterator) (i : nat)
    : Result PartitionIndexTransformIterator :=
  p ← checked_at (position_ it) i;
  upper ← checked_at (upper_bound_ it) i;
  strided_set ← checked_at (strided_sets info) (strided_set_i i);
  '(it, restricted_domain) ← foldM (apply_grid_dim p) (it, UncheckedHalfOpen p upper)
                               (index_view (strided_grid_dims strided_set));
  ct ← update_dimension (cell_transform_ it) i (set_interval restricted_domain);
  set_next_position (set_cell_transform it ct) (strided_set_i i) (exclusive_max restricted_domain).

Definition ResetSet (it : PartitionIndexTransformIterator) (i : nat) : Result PartitionIndexTransformIterator :=
  if is_index_array_set i then ResetIndexArraySet it i else ResetStridedSet it i.
Definition ApplySet (it : PartitionIndexTransformIterator) (i : nat) : Result PartitionIndexTransformIterator :=
  if is_index_array_set i then ApplyIndexArraySet it i else ApplyStridedSet it i.

(** [AdvanceIndexArraySet] and [AdvanceStridedSet]: the next position for the set. *)
Definition AdvanceSet (it : PartitionIndexTransformIterator) (i : nat) : Result Z :=
  if is_index_array_set i then p ← checked_at (position_ it) i; Ok (p + 1)
  else checked_at (strided_next_position_ it) (strided_set_i i).

Definition set_constant_index (it : PartitionIndexTransformIterator) (grid_dim : nat)
    : Result PartitionIndexTransformIterator :=
  let map := output_index_maps t !!! (gods !!! grid_dim) in
  match method map with
  | constant => set_cell_index it grid_dim (f grid_dim (offset map)).1
  | _ => Ok it
  end.

(** Reset the position of a set, and notice that it has none. *)
Definition initialize_set (it : PartitionIndexTransformIterator) (i : nat)
    : Result PartitionIndexTransformIterator :=
  it ← ResetSet it i;
  p ← checked_at (position_ it) i;
  upper ← checked_at (upper_bound_ it) i;
  Ok (if p =? upper then set_at_end it else it).

Definition InitializePositions (it : PartitionIndexTransformIterator) : Result PartitionIndexTransformIterator :=
  let it := MkIterator false (cell_transform_ it) (output_grid_cell_indices_ it) (replicate iterator_rank 0)
              (replicate iterator_rank 0) (replicate (length (strided_sets info)) 0) in
  it ← foldM set_constant_index it (seq 0 (length gods));
  it ← foldM initialize_set it (seq 0 iterator_rank);
  if at_end_ it then Ok it else foldM ApplySet it (seq 0 iterator_rank).

(** The loop of [Advance] over the sets below [i], from the last one. *)
Fixpoint AdvanceLoop (i : nat) (it : PartitionIndexTransformIterator) : Result PartitionIndexTransformIterator :=
  match i with
  | O => Ok (set_at_end it)
  | S i =>
      p ← AdvanceSet it i;
      it ← set_position it i p;
      upper ← checked_at (upper_bound_ it) i;
      if p =? upper then
        if Nat.eqb i 0 then Ok (set_at_end it)
        else it ← ResetSet it i; AdvanceLoop i it
      else foldM ApplySet it (seq i (iterator_rank - i))
  end.
Definition Advance (it : PartitionIndexTransformIterator) : Result PartitionIndexTransformIterator :=
  AdvanceLoop iterator_rank it.

(** The loop of the callers of the iterator: the cells and their transforms in order. *)
Fixpoint visit (fuel : nat) (it : PartitionIndexTransformIterator) : Result (list (list Z * TransformRep)) :=
  match fuel with
  | O => Err OutOfFuel
  | S fuel =>
      if at_end_ it then Ok []
      else
        it' ← Advance it;
        visited ← visit fuel it';
        Ok ((output_grid_cell_indices_ it, cell_transform_ it) :: visited)
  end.

(** A bound on the number of positions. *)
Definition number_of_positions : nat :=
  foldr Nat.mul 1%nat
    (((fun a => length (grid_cell_partition_offsets a)) <$> index_array_sets info) ++
     ((fun s => Z.to_nat (size (input_domain t !!! input_dimension s))) <$> strided_sets info)).
End Iterator.

(** [Init], with the cell indices as the constructor leaves them (uninitialised). *)
Definition Init (t : TransformRep) (gods : list nat) (f : OutputToGridCellFn) (initial_indices : list Z)
    : Result (IndexTransformGridPartition * PartitionIndexTransformIterator) :=
  info ← PrePartitionIndexTransformOverGrid t gods f;
  ct ← InitializeCellTransform info t;
  it ← InitializePositions info gods f t (MkIterator true ct initial_indices [] [] []);
  Ok (info, it).

Definition visited_cells (t : TransformRep) (gods : list nat) (f : OutputToGridCellFn) (initial_indices : list Z)
    : Result (list (list Z * TransformRep)) :=
  '(info, it) ← Init t gods f initial_indices;
  visit info gods f t (S (number_of_positions info t)) it.
