(* ===== verification/GridOdometer.v ===== *)
(** Two enumerations that the iteration over grid cells is made of: the vectors below given
    bounds in C order, as an odometer steps through them, and the runs of equal values of a
    function on an interval. *)

From S2P Require Import Prelude.

(** * Runs of a step function *)

(** [next] leads from [a] through exactly the elements of [l] to its end. *)
Inductive runs {A} (next : A -> option A) : A -> list A -> Prop :=
| runs_end a : next a = None -> runs next a [a]
| runs_step a b l : next a = Some b -> runs next b l -> runs next a (a :: l).

(** * Vectors in C order *)

Fixpoint vectors (ns : list nat) : list (list nat) :=
  match ns with
  | [] => [[]]
  | n :: ns => k ← seq 0 n; cons k <$> vectors ns
  end.

Lemma elem_of_vectors ns v : v ∈ vectors ns <-> Forall2 lt v ns.
Proof.
  revert v; induction ns as [|n ns IH]; intros v; cbn [vectors].
  - rewrite list_elem_of_singleton. split; [intros ->; constructor|inversion 1; reflexivity].
  - rewrite list_elem_of_bind. split.
    + intros (k & Hv & Hk%elem_of_seq). apply list_elem_of_fmap in Hv as (w & -> & Hw).
      constructor; [lia|apply IH, Hw].
    + inversion 1 as [|k ? w ? Hk Hw]; subst. exists k. split; [|apply elem_of_seq; lia].
      apply list_elem_of_fmap. exists w. split; [reflexivity|apply IH, Hw].
Qed.

Lemma NoDup_vectors ns : NoDup (vectors ns).
Proof.
  induction ns as [|n ns IH]; cbn [vectors]; [apply NoDup_singleton|]. apply NoDup_bind.
  - intros j k v _ _ Hj Hk. apply list_elem_of_fmap in Hj as (? & -> & _), Hk as (? & [= <-] & _). reflexivity.
  - intros k _. apply NoDup_fmap; [intros ? ? [= ->]; reflexivity|exact IH].
  - apply NoDup_seq.
Qed.

Lemma length_vectors ns : length (vectors ns) = foldr Nat.mul 1%nat ns.
Proof.
  induction ns as [|n ns IH]; [reflexivity|]. cbn [vectors foldr]. rewrite <- IH. generalize (vectors ns) as l. intros l.
  transitivity (length (seq 0 n) * length l)%nat; [|rewrite length_seq; reflexivity].
  induction (seq 0 n) as [|k ks IHk]; [reflexivity|].
  change ((k :: ks) ≫= fun k => cons k <$> l) with ((cons k <$> l) ++ (ks ≫= fun k => cons k <$> l)).
  rewrite length_app, length_fmap, IHk. reflexivity.
Qed.

(** Advance the last of the first [i] digits that has a next value, and reset those after it. *)
Fixpoint odometer (ns : list nat) (i : nat) (ks : list nat) : option (list nat) :=
  match i with
  | O => None
  | S i => if Nat.ltb (S (ks !!! i)) (ns !!! i) then Some (<[i := S (ks !!! i)]> ks)
           else odometer ns i (<[i := 0%nat]> ks)
  end.

Fixpoint reset_digits (i : nat) (ks : list nat) : list nat :=
  match i with O => ks | S i => reset_digits i (<[i := 0%nat]> ks) end.

Lemma length_reset_digits i ks : length (reset_digits i ks) = length ks.
Proof. revert ks; induction i as [|i IH]; intros ks; cbn; [reflexivity|]. rewrite IH. apply length_insert. Qed.

Lemma reset_digits_lookup i ks j : (j < i)%nat -> (j < length ks)%nat -> reset_digits i ks !! j = Some 0%nat.
Proof.
  assert (Hge : forall i ks j, (i <= j)%nat -> reset_digits i ks !! j = ks !! j).
  { clear. induction i as [|i IH]; intros ks j Hj; cbn; [reflexivity|]. rewrite IH by lia.
    apply list_lookup_insert_ne. lia. }
  revert ks; induction i as [|i IH]; intros ks Hi Hl; [lia|]. cbn. destruct (decide (j = i)) as [->|Hne].
  - rewrite Hge by lia. apply list_lookup_insert_eq, Hl.
  - apply IH; [lia|]. rewrite length_insert. exact Hl.
Qed.

Lemma reset_all ks : reset_digits (length ks) ks = replicate (length ks) 0%nat.
Proof.
  apply list_eq_same_length with (length ks); [rewrite length_replicate; reflexivity|apply length_reset_digits|].
  intros i x y Hi Hx Hy. rewrite reset_digits_lookup in Hx by lia.
  apply lookup_replicate in Hy as [-> _]. congruence.
Qed.

Lemma odometer_cons n ns k i ks :
  odometer (n :: ns) (S i) (k :: ks) =
  match odometer ns i ks with
  | Some l => Some (k :: l)
  | None => if Nat.ltb (S k) n then Some (S k :: reset_digits i ks) else None
  end.
Proof.
  revert ks; induction i as [|i IH]; intros ks; [reflexivity|].
  cbn [odometer reset_digits]. change ((k :: ks) !!! S i) with (ks !!! i). change ((n :: ns) !!! S i) with (ns !!! i).
  destruct (Nat.ltb_spec (S (ks !!! i)) (ns !!! i)); [reflexivity|]. exact (IH (<[i := 0%nat]> ks)).
Qed.

Lemma runs_app {A} (next next' : A -> option A) (g : A -> A) a b l l' :
  runs next a l -> runs next' b l' ->
  (forall x y, next x = Some y -> next' (g x) = Some (g y)) ->
  (forall x, x ∈ l -> next x = None -> next' (g x) = Some b) ->
  runs next' (g a) ((g <$> l) ++ l').
Proof.
  intros H Hb Hg. induction H as [a Ha|a a' l Ha _ IH]; intros He; cbn [fmap list_fmap app].
  - eapply runs_step; [apply He; [left|exact Ha]|exact Hb].
  - eapply runs_step; [apply Hg, Ha|]. apply IH. intros x Hx. apply He. right. exact Hx.
Qed.

Lemma runs_map {A} (next next' : A -> option A) (g : A -> A) a l :
  runs next a l -> (forall x y, next x = Some y -> next' (g x) = Some (g y)) ->
  (forall x, x ∈ l -> next x = None -> next' (g x) = None) -> runs next' (g a) (g <$> l).
Proof.
  intros H Hg. induction H as [a Ha|a a' l Ha _ IH]; intros He.
  - apply runs_end, He; [left|exact Ha].
  - eapply runs_step; [apply Hg, Ha|]. apply IH. intros x Hx. apply He. right. exact Hx.
Qed.

(** The odometer steps through all vectors. *)
Lemma odometer_runs ns :
  Forall (fun n => 0 < n)%nat ns -> runs (odometer ns (length ns)) (replicate (length ns) 0%nat) (vectors ns).
Proof.
  induction 1 as [|n ns Hn _ IH]; [apply runs_end; reflexivity|].
  cbn [length replicate vectors]. set (z := replicate (length ns) 0%nat) in *.
  assert (Hlen : forall x, x ∈ vectors ns -> length x = length ns)
    by (intros x Hx; apply elem_of_vectors in Hx; exact (Forall2_length _ _ _ Hx)).
  enough (H : forall m k, (k + S m = n)%nat ->
    runs (odometer (n :: ns) (S (length ns))) (k :: z) (seq k (S m) ≫= fun k => cons k <$> vectors ns)).
  { specialize (H (n - 1)%nat 0%nat ltac:(lia)). replace (S (n - 1))%nat with n in H by lia. exact H. }
  induction m as [|m IHm]; intros k Hk.
  - cbn [seq]. change ([k] ≫= ?f) with (f k ++ []). rewrite app_nil_r.
    apply (runs_map _ _ (cons k) _ _ IH).
    + intros x y E. rewrite odometer_cons, E. reflexivity.
    + intros x _ E. rewrite odometer_cons, E. destruct (Nat.ltb_spec (S k) n); [lia|reflexivity].
  - change (seq k (S (S m)) ≫= ?f) with (f k ++ (seq (S k) (S m) ≫= f)).
    apply (runs_app _ _ (cons k) _ (S k :: z) _ _ IH); [apply IHm; lia|..].
    + intros x y E. rewrite odometer_cons, E. reflexivity.
    + intros x Hx E. rewrite odometer_cons, E. destruct (Nat.ltb_spec (S k) n); [|lia].
      rewrite <- (Hlen x Hx), reset_all. unfold z. rewrite (Hlen x Hx). reflexivity.
Qed.

(** * Runs of equal values *)

Section Chain.
Context {B : Type} `{EqDecision B}.
Variables (value : Z -> B) (next : Z -> Z) (stop : Z).

(** The first elements of the runs from [p] on. *)
Fixpoint starts (fuel : nat) (p : Z) : list Z :=
  match fuel with
  | O => []
  | S fuel => if p =? stop then [] else p :: starts fuel (next p)
  end.

Variable first : Z.
(** [next] leads from the first element of a run to the end of the run. *)
Hypothesis Hnext : forall p, first <= p < stop ->
  p < next p <= stop /\ forall v, p <= v < stop -> (value v = value p <-> v < next p).

Record chain (p : Z) (l : list Z) : Prop := MkChain {
  ch_range : Forall (fun q => p <= q < stop) l;
  ch_next k q : l !! k = Some q -> (l ++ [stop]) !! S k = Some (next q);
  ch_first : (l ++ [stop]) !! 0%nat = Some p;
  ch_increasing j k q r : l !! j = Some q -> (l ++ [stop]) !! k = Some r -> (j < k)%nat -> q < r;
  ch_NoDup : NoDup (value <$> l);
  ch_cover v : p <= v < stop -> exists q, q ∈ l /\ q <= v /\ value v = value q
}.

Lemma starts_chain fuel : forall p, first <= p <= stop -> (Z.to_nat (stop - p) < fuel)%nat -> chain p (starts fuel p).
Proof.
  induction fuel as [|fuel IH]; intros p Hp Hf; [lia|]. cbn [starts]. destruct (Z.eqb_spec p stop) as [->|Hne].
  - split; cbn; [constructor|discriminate|reflexivity|discriminate|constructor|lia].
  - destruct (Hnext p ltac:(lia)) as [Hn Hv]. destruct (IH (next p)) as [C1 C2 C3 C4 C5 C6]; [lia..|].
    assert (Hall : forall r, r ∈ starts fuel (next p) -> next p <= r < stop)
      by (intros r Hr; rewrite Forall_forall in C1; apply C1, Hr).
    split.
    + constructor; [lia|]. eapply Forall_impl; [exact C1|]. cbn. lia.
    + intros [|k] q Hq; [injection Hq as <-; exact C3|exact (C2 k q Hq)].
    + reflexivity.
    + intros [|j] [|k] q r Hq Hr Hjk; [lia| |lia|].
      * injection Hq as <-. change ((starts fuel (next p) ++ [stop]) !! k = Some r) in Hr.
        apply list_elem_of_lookup_2, elem_of_app in Hr as [Hr|Hr]; [apply Hall in Hr; lia|].
        apply list_elem_of_singleton in Hr as ->. lia.
      * apply (C4 j k q r Hq Hr). lia.
    + cbn. apply NoDup_cons. split; [|exact C5]. intros (q & E & Hq)%list_elem_of_fmap.
      apply Hall in Hq. symmetry in E. apply Hv in E; lia.
    + intros v Hpv. destruct (decide (v < next p)) as [Hlt|Hge].
      * exists p. split; [left|]. split; [lia|]. apply Hv; [lia|exact Hlt].
      * destruct (C6 v ltac:(lia)) as (q & Hq & H). exists q. split; [right; exact Hq|exact H].
Qed.

Lemma starts_length fuel : forall p, first <= p <= stop -> Z.of_nat (length (starts fuel p)) <= stop - p.
Proof.
  induction fuel as [|fuel IH]; intros p Hp; cbn [starts]; [cbn; lia|].
  destruct (Z.eqb_spec p stop) as [->|Hne]; [cbn; lia|]. destruct (Hnext p ltac:(lia)) as [Hn _].
  specialize (IH (next p) ltac:(lia)). cbn [length]. lia.
Qed.

(** An element with the value of a run is not before its first element. *)
Lemma chain_least p l q v : chain p l -> q ∈ l -> p <= v < stop -> value v = value q -> q <= v.
Proof.
  intros HC Hq Hv E. destruct (ch_cover _ _ HC v Hv) as (q' & Hq' & Hle & E').
  enough (q = q') as -> by exact Hle.
  apply list_elem_of_lookup in Hq as [j Hj], Hq' as [k Hk].
  assert (j = k) as ->; [|congruence]. eapply (NoDup_lookup (value <$> l)); [exact (ch_NoDup _ _ HC)|..];
    rewrite list_lookup_fmap, ?Hj, ?Hk; cbn; f_equal; congruence.
Qed.
End Chain.
