(* ===== verification/GridRuns.v ===== *)
(** The positions of the iterator over grid cells: for every connected set the list of its
    positions with their cells.  The positions of a strided set are the first input indices of
    the runs of indices with the same cells. *)

From stdpp Require Import gmap sorting strings.
From S2P Require Import Prelude Int64 IndexInterval Transform TransformArray Dimensions.
From S2P Require Import GridPartition GridSets GridArrays GridBuckets GridUpdate GridCells GridTransform.
From S2P Require Import GridIterator GridOdometer.

#[local] Opaque index_view.

(** Finite intervals that are not empty and contain the same indices are equal. *)
Lemma finite_interval_ext a b :
  Valid a -> IsFinite a = true -> Valid b -> IsFinite b = true -> empty a = false ->
  (forall v, Contains a v = true <-> Contains b v = true) -> a = b.
Proof.
  intros HVa Hfa HVb Hfb Hne H. unfold empty in Hne. apply Z.eqb_neq in Hne.
  assert (Hc : forall v, inclusive_min a <= v < inclusive_min a + size a <->
                         inclusive_min b <= v < inclusive_min b + size b).
  { intros v. rewrite !Contains_box by assumption. apply H. }
  assert (Hsz : 0 < size a) by (unfold Valid in HVa; lia).
  pose proof (Hc (inclusive_min a)). pose proof (Hc (inclusive_min a + size a - 1)).
  assert (Hszb : 0 < size b) by lia.
  pose proof (Hc (inclusive_min b)). pose proof (Hc (inclusive_min b + size b - 1)).
  destruct a, b; cbn in *. f_equal; lia.
Qed.

Lemma HalfOpen_valid lo hi : kMinFiniteIndex <= lo -> lo < hi -> hi <= kMaxFiniteIndex + 1 ->
  let x := UncheckedHalfOpen lo hi in
  Valid x /\ IsFinite x = true /\ forall v, Contains x v = true <-> lo <= v < hi.
Proof.
  intros H1 H2 H3 x. assert (E : x = MkInterval lo (hi - lo)).
  { unfold x, UncheckedHalfOpen. rewrite wrap64_id by (revert H1 H3; unfold_i64; lia). reflexivity. }
  assert (HV : Valid x) by (rewrite E; unfold_valid; revert H1 H3; unfold_i64; lia).
  assert (Hf : IsFinite x = true).
  { unfold IsFinite. rewrite inclusive_max_valid by exact HV. rewrite E. cbn [inclusive_min size].
    apply andb_true_iff. rewrite !negb_true_iff, !Z.eqb_neq. revert H1 H3. unfold_i64. lia. }
  split; [exact HV|]. split; [exact Hf|]. intros v. rewrite <- Contains_box by assumption. rewrite E. cbn. lia.
Qed.

Section Runs.
Variables (t : TransformRep) (gods : list nat) (f : OutputToGridCellFn) (info : IndexTransformGridPartition).
Variable interval_of : nat -> Z -> IndexInterval.
Hypothesis HW : WellFormed t.
Hypothesis Hrank : (input_rank t <= 32)%nat.
Hypothesis Hgods : Forall (fun o => (o < output_rank t)%nat) gods.
Hypothesis Hgrid_rank : (length gods <= 32)%nat.
Hypothesis Hdisjoint : inputs_disjoint (ForEachConnectedSet gods t).
Hypothesis Hinfo : PrePartitionIndexTransformOverGrid t gods f = Ok info.
Hypothesis Hlaws : GridLaws f interval_of (grid_output t gods).
Hypothesis Hpos : Forall (fun x => 0 < size x) (input_domain t).
(** The preimage of every cell that is reached can be represented. *)
Hypothesis Hpreimage : forall g d y, grid_output t gods g y ->
  method (grid_map t gods g) = single_input_dimension d ->
  is_ok (GetAffineTransformDomain (interval_of g (f g y).1) (offset (grid_map t gods g))
    (stride (grid_map t gods g))) = true.

Let arrays := index_array_sets info.
Let strided := strided_sets info.

(** ** Positions of the domain *)

Definition origin : list Z := inclusive_min <$> input_domain t.

Lemma origin_in_box : in_box (input_domain t) origin.
Proof.
  unfold origin, in_box. apply Forall2_fmap_r, Forall_Forall2_diag. eapply Forall_impl; [exact Hpos|]. cbn. lia.
Qed.

(** The origin with some coordinates replaced. *)
Lemma combine_positions (kvs : list (nat * Z)) :
  NoDup kvs.*1 -> (forall d v, (d, v) ∈ kvs -> (d < input_rank t)%nat /\ Contains (input_domain t !!! d) v = true) ->
  exists x, in_box (input_domain t) x /\ forall d v, (d, v) ∈ kvs -> x !!! d = v.
Proof.
  intros Hn Hd. pose proof (in_box_length_rank t _ origin_in_box) as Hl.
  assert (Hat : forall d v, (d, v) ∈ kvs -> assign origin kvs !!! d = v).
  { intros d v Hin. apply list_lookup_total_correct, assign_at; [exact Hn|exact Hin|rewrite Hl; apply (Hd d v Hin)]. }
  exists (assign origin kvs). split; [|exact Hat].
  apply (in_box_intro t gods f info HW Hinfo); [rewrite length_assign; exact Hl|]. intros d Hlt.
  destruct (decide (d ∈ kvs.*1)) as [Hin|Hout].
  - apply list_elem_of_fmap in Hin as ([d' v] & -> & Hin). cbn [fst]. rewrite (Hat d' v Hin). apply Hd, Hin.
  - assert (E : assign origin kvs !!! d = origin !!! d)
      by (rewrite !list_lookup_total_alt, assign_other by exact Hout; reflexivity).
    rewrite E. apply (in_box_at t gods f info HW Hinfo); [exact origin_in_box|exact Hlt].
Qed.

Lemma position_with d v : (d < input_rank t)%nat -> Contains (input_domain t !!! d) v = true ->
  exists x, in_box (input_domain t) x /\ x !!! d = v.
Proof.
  intros Hd Hv. destruct (combine_positions [(d, v)]) as (x & Hx & E).
  - apply NoDup_singleton.
  - intros d' v' [= -> ->]%list_elem_of_singleton. auto.
  - exists x. split; [exact Hx|]. apply E. left.
Qed.

(** ** The runs of a strided set *)

Definition strided_output_at (g : nat) (v : Z) : Z := offset (grid_map t gods g) + stride (grid_map t gods g) * v.

(** The cells of the input index [v]. *)
Definition strided_cells (s : StridedSet) (v : Z) : list Z :=
  (fun g => (f g (strided_output_at g v)).1) <$> index_view (strided_grid_dims s).

Definition strided_domain (s : StridedSet) : IndexInterval := input_domain t !!! input_dimension s.
Definition first_index (s : StridedSet) : Z := inclusive_min (strided_domain s).
Definition end_index (s : StridedSet) : Z := exclusive_max (strided_domain s).

(** The restricted domain that [ApplyStridedSet] computes at the position [p]. *)
Definition run_range (s : StridedSet) (p : Z) : IndexInterval :=
  match foldM (restrict_step (grid_map t gods) (fun g => interval_of g (f g (strided_output_at g p)).1))
          (UncheckedHalfOpen p (end_index s)) (index_view (strided_grid_dims s)) with
  | Ok r => r
  | Err _ => Infinite
  end.
Definition next_run (s : StridedSet) (p : Z) : Z := exclusive_max (run_range s p).
Definition run_starts (s : StridedSet) : list Z :=
  starts (next_run s) (end_index s) (S (Z.to_nat (end_index s - first_index s))) (first_index s).

Lemma strided_domain_spec s : s ∈ strided ->
  (input_dimension s < input_rank t)%nat /\
  kMinFiniteIndex <= first_index s < end_index s /\ end_index s <= kMaxFiniteIndex + 1 /\
  Valid (strided_domain s) /\ IsFinite (strided_domain s) = true /\
  end_index s = inclusive_min (strided_domain s) + size (strided_domain s) /\
  forall v, Contains (strided_domain s) v = true <-> first_index s <= v < end_index s.
Proof.
  intros Hs. destruct (strided_set t gods f info HW Hrank Hgods Hgrid_rank Hinfo s Hs) as (c & _ & _ & _ & _ & Hlt & _).
  split; [exact Hlt|]. destruct (input_domain_lookup t gods f info HW Hinfo _ Hlt) as (D & _ & HI & E & HV & Hf).
  unfold first_index, end_index, strided_domain. rewrite E. rewrite exclusive_max_valid by exact HV.
  pose proof (Forall_lookup_1 _ _ _ _ Hpos HI) as Hsz. cbn in Hsz.
  destruct (IsFinite_bounds (domain D) Hf HV) as [B1 B2].
  split; [lia|]. split; [lia|]. split; [exact HV|]. split; [exact Hf|]. split; [reflexivity|].
  intros v. rewrite <- Contains_box by assumption. reflexivity.
Qed.

Lemma strided_reached s g v : s ∈ strided -> test (strided_grid_dims s) g = true ->
  first_index s <= v < end_index s ->
  grid_output t gods g (strided_output_at g v) /\
  method (grid_map t gods g) = single_input_dimension (input_dimension s) /\
  forall x, in_box (input_domain t) x -> x !!! input_dimension s = v ->
    output_index (grid_map t gods g) x = Ok (strided_output_at g v).
Proof.
  intros Hs Hg Hv. destruct (strided_domain_spec s Hs) as (Hlt & _ & _ & _ & _ & _ & Hc).
  destruct (strided_of t gods f info HW Hrank Hgods Hgrid_rank Hinfo s Hs) as (_ & _ & _ & _ & Hm).
  destruct (Hm g Hg) as [Hgl Hmg].
  assert (Hout : forall x, in_box (input_domain t) x -> x !!! input_dimension s = v ->
    output_index (grid_map t gods g) x = Ok (strided_output_at g v)).
  { intros x Hx <-. eapply strided_output; eassumption. }
  split; [|split; [exact Hmg|exact Hout]]. split; [exact Hgl|].
  destruct (position_with _ v Hlt (proj2 (Hc v) Hv)) as (x & Hx & Ex). eauto.
Qed.

Lemma same_cells s v w : strided_cells s v = strided_cells s w <->
  forall g, test (strided_grid_dims s) g = true -> (g < 32)%nat ->
    (f g (strided_output_at g v)).1 = (f g (strided_output_at g w)).1.
Proof.
  unfold strided_cells. split.
  - intros E g Hg Hlt. assert (Hin : g ∈ index_view (strided_grid_dims s)) by (apply elem_of_index_view; auto).
    apply list_elem_of_lookup in Hin as [i Hi]. apply (f_equal (fun l => l !! i)) in E.
    rewrite !list_lookup_fmap, Hi in E. injection E as E. exact E.
  - intros H. apply list_fmap_ext. intros i g Hg. apply list_elem_of_lookup_2, elem_of_index_view in Hg.
    apply H; apply Hg.
Qed.

Lemma same_cells_within s p v : s ∈ strided -> first_index s <= p < end_index s -> first_index s <= v < end_index s ->
  (strided_cells s v = strided_cells s p <->
   forall g, g ∈ index_view (strided_grid_dims s) ->
     within (interval_of g (f g (strided_output_at g p)).1) (strided_output_at g v)).
Proof.
  intros Hs Hp Hv. rewrite same_cells. setoid_rewrite elem_of_index_view.
  split; intros H g; [intros [Hg Hlt]|intros Hg Hlt];
    destruct (strided_reached s g p Hs Hg Hp) as [Rp _]; destruct (strided_reached s g v Hs Hg Hv) as [Rv (Hm & _)].
  - pose proof (law_cell g _ _ Rp Rv) as [_ L]. specialize (L (H g Hg Hlt)).
    apply Contains_within in L; [apply L|]. exact (law_valid g _ Rp).
  - apply (law_cell g _ _ Rp Rv), Contains_within; [exact (law_valid g _ Rp)|].
    split; [|apply H; auto].
    destruct (strided_domain_spec s Hs) as (Hlt' & _ & _ & _ & _ & _ & Hc).
    destruct (position_with _ v Hlt' (proj2 (Hc v) Hv)) as (x & Hx & Ex).
    rewrite <- Ex. eapply strided_output; [eassumption..|exact (proj1 Rv)|exact Hm|exact Hx].
Qed.

(** The cell of a position that is reached, as an interval of the outputs. *)
Lemma run_range_spec s p : s ∈ strided -> first_index s <= p < end_index s ->
  foldM (restrict_step (grid_map t gods) (fun g => interval_of g (f g (strided_output_at g p)).1))
    (UncheckedHalfOpen p (end_index s)) (index_view (strided_grid_dims s)) = Ok (run_range s p) /\
  Valid (run_range s p) /\ IsFinite (run_range s p) = true /\
  (forall v, Contains (run_range s p) v = true <-> p <= v < end_index s /\ strided_cells s v = strided_cells s p) /\
  p < next_run s p <= end_index s /\
  forall v, p <= v < end_index s -> (strided_cells s v = strided_cells s p <-> v < next_run s p).
Proof.
  intros Hs Hp. destruct (strided_domain_spec s Hs) as (_ & B1 & B2 & _).
  destruct (HalfOpen_valid p (end_index s)) as (HV0 & Hf0 & Hc0); [lia..|].
  destruct (restrict_spec (grid_map t gods) (fun g => interval_of g (f g (strided_output_at g p)).1)
    (index_view (strided_grid_dims s)) _ HV0 Hf0) as (r & E & HV & Hf & Hr).
  { intros g [Hg _]%elem_of_index_view. destruct (strided_reached s g p Hs Hg Hp) as (R & Hm & _).
    pose proof (law_valid g _ R) as HV. destruct (grid_map_i64 t gods HW Hgods g (proj1 R)) as [H3 H4].
    assert (Hcp : Contains (interval_of g (f g (strided_output_at g p)).1) (strided_output_at g p) = true)
      by (apply (law_cell g _ _ R R); reflexivity).
    split; [exact HV|]. split; [|split; [exact H3|split; [exact H4|exact (Hpreimage g _ _ R Hm)]]].
    apply Contains_spec in Hcp; [|exact HV]. rewrite inclusive_max_valid in Hcp by exact HV.
    unfold empty. apply Z.eqb_neq. lia. }
  assert (Er : run_range s p = r) by (unfold run_range; rewrite E; reflexivity).
  assert (Hc : forall v, Contains (run_range s p) v = true <->
    p <= v < end_index s /\ strided_cells s v = strided_cells s p).
  { intros v. rewrite Er, Hr, Hc0. split; intros [H1 H2]; (split; [exact H1|]); revert H2;
      rewrite (same_cells_within s p v Hs Hp) by lia; auto. }
  rewrite Er in *. split; [exact E|]. split; [exact HV|]. split; [exact Hf|]. split; [exact Hc|].
  unfold next_run. rewrite Er, exclusive_max_valid by exact HV.
  assert (Hb : forall v, inclusive_min r <= v < inclusive_min r + size r <->
    p <= v < end_index s /\ strided_cells s v = strided_cells s p)
    by (intros v; rewrite Contains_box by assumption; apply Hc).
  assert (Hpin : inclusive_min r <= p < inclusive_min r + size r) by (apply Hb; split; [lia|reflexivity]).
  pose proof (proj1 (Hb (inclusive_min r)) ltac:(lia)) as [Hmin _].
  pose proof (proj1 (Hb (inclusive_min r + size r - 1)) ltac:(lia)) as [Hmax _].
  split; [lia|]. intros v Hv. split.
  - intros Ev. apply Hb; auto.
  - intros Hlt. apply Hb. lia.
Qed.

Lemma run_starts_chain s : s ∈ strided ->
  chain (strided_cells s) (next_run s) (end_index s) (first_index s) (run_starts s).
Proof.
  intros Hs. destruct (strided_domain_spec s Hs) as (_ & B1 & _).
  apply (starts_chain _ _ _ (first_index s)); [|lia..].
  intros p Hp. apply run_range_spec; assumption.
Qed.

(** ** All sets in the order of the iterator *)

Definition iterator_sets : list ConnectedSet :=
  List.filter has_array (ForEachConnectedSet gods t) ++
  List.filter (fun c => negb (has_array c)) (ForEachConnectedSet gods t).

Lemma iterator_sets_Permutation : iterator_sets ≡ₚ ForEachConnectedSet gods t.
Proof. apply filter_partition. Qed.

Lemma elem_of_iterator_sets c : c ∈ iterator_sets <-> c ∈ ForEachConnectedSet gods t.
Proof. rewrite iterator_sets_Permutation. reflexivity. Qed.

Lemma iterator_set_connected i c : iterator_sets !! i = Some c -> connected t gods c.
Proof.
  intros Hc%list_elem_of_lookup_2. apply elem_of_iterator_sets in Hc.
  exact (connected_sets t gods HW Hrank Hgods Hgrid_rank c Hc).
Qed.

Lemma iterator_sets_length : length iterator_sets = iterator_rank info.
Proof.
  destruct (PrePartition_Ok t gods f info Hinfo) as (_ & _ & Es & Ea). unfold iterator_sets, iterator_rank.
  rewrite length_app, (Forall2_length _ _ _ Ea), Es, length_fmap. reflexivity.
Qed.

Lemma domain_sizes : Forall (fun x => IsFinite x = true /\ 0 < size x) (input_domain t).
Proof. exact (domain_finite t gods f info Hinfo Hpos). Qed.

(** The set [i] is an index array set or a strided set. *)
Lemma iterator_set_cases i c : iterator_sets !! i = Some c ->
  (exists a cells, arrays !! i = Some a /\ set_dims a = c /\ array_set_spec t gods f a cells) \/
  (exists q s, i = (length arrays + q)%nat /\ arrays !! i = None /\ strided !! q = Some s /\
     strided_grid_dims s = grid_dims c /\ index_view (input_dims c) = [input_dimension s]).
Proof.
  destruct (PrePartition_Ok t gods f info Hinfo) as (_ & _ & Es & Ea). unfold iterator_sets. intros Hc.
  pose proof (Forall2_length _ _ _ Ea) as Hl. apply lookup_app_Some in Hc as [Hc|[Hge Hc]].
  - left. destruct (Forall2_lookup_l _ _ _ _ _ Ea Hc) as (a & Ha & E).
    apply list_elem_of_lookup_2, list_elem_of_In, filter_In in Hc as [Hc _]. apply list_elem_of_In in Hc.
    destruct (FillIndexArraySetData_spec t gods f HW Hrank Hgods Hgrid_rank domain_sizes c a) as (E1 & cells & Hs);
      [exact (connected_sets t gods HW Hrank Hgods Hgrid_rank c Hc)|exact E|]. eauto.
  - right. rewrite Hl in Hge, Hc. exists (i - length arrays)%nat, (MkStridedSet (grid_dims c) (hd 0%nat (index_view (input_dims c)))).
    unfold arrays. split; [lia|]. split; [apply lookup_ge_None; lia|]. split; [|split; [reflexivity|]].
    + unfold strided. rewrite Es, list_lookup_fmap. unfold arrays. rewrite Hc. reflexivity.
    + apply list_elem_of_lookup_2, list_elem_of_In, filter_In in Hc as [Hc Hh]. apply list_elem_of_In in Hc.
      apply (strided_input_dims t gods HW Hrank Hgods Hgrid_rank c Hc). destruct (has_array c); [discriminate|reflexivity].
Qed.

(** Different sets have different grid dimensions and different input dimensions. *)
Lemma iterator_inputs_NoDup : NoDup (iterator_sets ≫= fun c => index_view (input_dims c)).
Proof.
  rewrite iterator_sets_Permutation, <- (set_dims_Permutation t gods f info HW Hrank Hgods Hgrid_rank Hinfo Hpos).
  exact (set_dims_NoDup t gods f info HW Hrank Hgods Hgrid_rank Hdisjoint Hinfo Hpos).
Qed.

Lemma iterator_grids_disjoint i j c c' g : iterator_sets !! i = Some c -> iterator_sets !! j = Some c' ->
  test (grid_dims c) g = true -> test (grid_dims c') g = true -> i = j.
Proof.
  intros Hi Hj Hg Hg'. apply (bind_NoDup_index (fun c => index_view (grid_dims c)) iterator_sets i j c c' g);
    [|assumption..| |].
  - rewrite iterator_sets_Permutation. apply NoDup_bind.
    + intros a b x Ha Hb [Hxa _]%elem_of_index_view [Hxb _]%elem_of_index_view.
      apply list_elem_of_lookup in Ha as [k Hk], Hb as [l Hl].
      destruct (ForEachConnectedSet_spec t gods HW Hrank Hgods Hgrid_rank) as (_ & Hd & _).
      pose proof (Hd k l a b x Hk Hl Hxa Hxb). congruence.
    + intros a _. apply NoDup_index_view.
    + exact (sets_NoDup t gods HW Hrank Hgods Hgrid_rank Hdisjoint).
  - apply elem_of_index_view. split; [exact Hg|].
    pose proof (connected_grid _ _ _ (iterator_set_connected i c Hi) g Hg). lia.
  - apply elem_of_index_view. split; [exact Hg'|].
    pose proof (connected_grid _ _ _ (iterator_set_connected j c' Hj) g Hg'). lia.
Qed.

(** ** The positions of a set and their cells *)

Definition set_count (i : nat) : nat :=
  match arrays !! i with
  | Some a => length (grid_cell_indices a)
  | None => match strided !! (i - length arrays)%nat with Some s => length (run_starts s) | None => 0%nat end
  end.

(** The position with index [k]; that with index [set_count i] is the upper bound. *)
Definition set_position_at (i k : nat) : Z :=
  match arrays !! i with
  | Some a => Z.of_nat k
  | None => match strided !! (i - length arrays)%nat with
            | Some s => (run_starts s ++ [end_index s]) !!! k
            | None => 0
            end
  end.

Definition set_cells (i k : nat) : list Z :=
  match arrays !! i with
  | Some a => grid_cell_indices a !!! k
  | None => match strided !! (i - length arrays)%nat with
            | Some s => strided_cells s (run_starts s !!! k)
            | None => []
            end
  end.

Lemma run_start_of s k : s ∈ strided -> (k < length (run_starts s))%nat -> exists p,
  run_starts s !! k = Some p /\ first_index s <= p < end_index s.
Proof.
  intros Hs Hk. destruct (lookup_lt_is_Some_2 _ _ Hk) as [p Hp]. exists p. split; [exact Hp|].
  exact (Forall_lookup_1 _ _ _ _ (ch_range _ _ _ _ _ (run_starts_chain s Hs)) Hp).
Qed.

Lemma at_strided {B} (q : nat) (s : StridedSet) (x : IndexArraySet -> B) (y : StridedSet -> B) (z : B) :
  arrays !! (length arrays + q)%nat = None -> strided !! q = Some s ->
  match arrays !! (length arrays + q)%nat with
  | Some a => x a
  | None => match strided !! (length arrays + q - length arrays)%nat with Some s => y s | None => z end
  end = y s.
Proof. intros -> Hs. rewrite (Nat.add_comm _ q), Nat.add_sub, Hs. reflexivity. Qed.

Lemma set_position_lt i c k : iterator_sets !! i = Some c -> (k < set_count i)%nat ->
  set_position_at i k < set_position_at i (set_count i).
Proof.
  intros Hc. destruct (iterator_set_cases i c Hc) as [(a & cells & Ha & _)|(q & s & -> & Hno & Hs & _)];
    unfold set_count, set_position_at.
  - rewrite Ha. lia.
  - rewrite !(at_strided q s) by assumption. intros Hk.
    pose proof (list_elem_of_lookup_2 _ _ _ Hs) as Hin. destruct (run_start_of s k Hin Hk) as (p & Hp & Hr).
    rewrite (list_lookup_total_correct _ k p) by (apply lookup_app_l_Some, Hp).
    rewrite (list_lookup_total_correct _ _ (end_index s)) by (apply list_lookup_middle; reflexivity). lia.
Qed.

Lemma set_cells_injective i c j k : iterator_sets !! i = Some c -> (j < set_count i)%nat -> (k < set_count i)%nat ->
  set_cells i j = set_cells i k -> j = k.
Proof.
  intros Hc. destruct (iterator_set_cases i c Hc) as [(a & cells & Ha & _ & Hs)|(q & s & -> & Hno & Hs & _)];
    unfold set_count, set_cells.
  - rewrite Ha. intros Hj Hk E. destruct (lookup_lt_is_Some_2 _ _ Hj) as [u Hu], (lookup_lt_is_Some_2 _ _ Hk) as [w Hw].
    rewrite (list_lookup_total_correct _ _ _ Hu), (list_lookup_total_correct _ _ _ Hw) in E. subst w.
    exact (NoDup_lookup _ _ _ _ (keys_NoDup t gods f a cells Hs) Hu Hw).
  - rewrite !(at_strided q s) by assumption. intros Hj Hk E.
    destruct (lookup_lt_is_Some_2 _ _ Hj) as [u Hu], (lookup_lt_is_Some_2 _ _ Hk) as [w Hw].
    rewrite (list_lookup_total_correct _ _ _ Hu), (list_lookup_total_correct _ _ _ Hw) in E.
    apply (NoDup_lookup (strided_cells s <$> run_starts s) j k (strided_cells s u)).
    + apply (ch_NoDup _ _ _ _ _ (run_starts_chain s (list_elem_of_lookup_2 _ _ _ Hs))).
    + rewrite list_lookup_fmap, Hu. reflexivity.
    + rewrite list_lookup_fmap, Hw. cbn. congruence.
Qed.

(** The cells of a position in the grid dimensions of a strided set. *)
Lemma strided_grid_cells s x : s ∈ strided -> in_box (input_domain t) x ->
  first_index s <= x !!! input_dimension s < end_index s /\
  grid_cell t gods f x <$> index_view (strided_grid_dims s) = strided_cells s (x !!! input_dimension s).
Proof.
  intros Hs Hx. destruct (strided_domain_spec s Hs) as (Hlt & _ & _ & _ & _ & _ & Hc).
  assert (Hv : first_index s <= x !!! input_dimension s < end_index s)
    by (apply Hc, (in_box_at t gods f info HW Hinfo); assumption).
  split; [exact Hv|]. apply list_fmap_ext. intros i g Hg. apply list_elem_of_lookup_2, elem_of_index_view in Hg as [Hg _].
  destruct (strided_reached s g _ Hs Hg Hv) as (_ & _ & E). unfold grid_cell. rewrite (E x Hx eq_refl). reflexivity.
Qed.

(** Every position of the domain is in one of the cells of each set. *)
Lemma set_cells_complete i c x : iterator_sets !! i = Some c -> in_box (input_domain t) x ->
  exists k, (k < set_count i)%nat /\ set_cells i k = grid_cell t gods f x <$> index_view (grid_dims c).
Proof.
  intros Hc Hx. destruct (iterator_set_cases i c Hc) as [(a & cells & Ha & <- & Hs)|(q & s & -> & Hno & Hs & <- & _)];
    unfold set_count, set_cells.
  - rewrite Ha. destruct (ass_cells _ _ _ _ _ Hs x Hx) as [E _].
    assert (Hin : cells (select (array_set_dims a) x) ∈ grid_cell_indices a).
    { apply (elem_of_keys t gods f a cells Hs). exists (select (array_set_dims a) x). split; [|reflexivity].
      apply elem_of_index_vectors, in_box_select; [exact Hx|]. apply (input_dims_lt t gods _ (ass_connected _ _ _ _ _ Hs)). }
    apply list_elem_of_lookup in Hin as [k Hk]. exists k. split; [eapply lookup_lt_Some, Hk|].
    rewrite (list_lookup_total_correct _ _ _ Hk). exact E.
  - rewrite (at_strided q s) by assumption. setoid_rewrite (at_strided q s); [|assumption..].
    pose proof (list_elem_of_lookup_2 _ _ _ Hs) as Hin. destruct (strided_grid_cells s x Hin Hx) as [Hv ->].
    destruct (ch_cover _ _ _ _ _ (run_starts_chain s Hin) _ Hv) as (p & Hp & _ & E).
    apply list_elem_of_lookup in Hp as [k Hk]. exists k. split; [eapply lookup_lt_Some, Hk|].
    rewrite (list_lookup_total_correct _ _ _ Hk). symmetry. exact E.
Qed.

(** Every cell of a set is reached. *)
Lemma set_cells_sound i c k : iterator_sets !! i = Some c -> (k < set_count i)%nat ->
  exists x, in_box (input_domain t) x /\ set_cells i k = grid_cell t gods f x <$> index_view (grid_dims c).
Proof.
  intros Hc. destruct (iterator_set_cases i c Hc) as [(a & cells & Ha & <- & Hs)|(q & s & -> & Hno & Hs & <- & _)];
    unfold set_count, set_cells.
  - rewrite Ha. intros Hk. destruct (lookup_lt_is_Some_2 _ _ Hk) as [key Hkey].
    destruct (proj1 (elem_of_keys t gods f a cells Hs key) (list_elem_of_lookup_2 _ _ _ Hkey)) as (w & Hw & E).
    destruct (position_extends t gods f info HW Hinfo origin origin_in_box _ w (ass_connected _ _ _ _ _ Hs) Hw)
      as (x & Hx & Ex).
    exists x. split; [exact Hx|]. destruct (ass_cells _ _ _ _ _ Hs x Hx) as [E' _].
    rewrite (list_lookup_total_correct _ _ _ Hkey), <- E', <- E. f_equal. symmetry. exact Ex.
  - rewrite !(at_strided q s) by assumption. intros Hk. pose proof (list_elem_of_lookup_2 _ _ _ Hs) as Hin.
    destruct (run_start_of s k Hin Hk) as (p & Hp & Hr). destruct (strided_domain_spec s Hin) as (Hlt & _ & _ & _ & _ & _ & Hdom).
    destruct (position_with _ p Hlt (proj2 (Hdom p) Hr)) as (x & Hx & Ex). exists x. split; [exact Hx|].
    rewrite (proj2 (strided_grid_cells s x Hin Hx)), Ex, (list_lookup_total_correct _ _ _ Hp). reflexivity.
Qed.

Lemma set_count_pos i c : iterator_sets !! i = Some c -> (0 < set_count i)%nat.
Proof. intros Hc. destruct (set_cells_complete i c origin Hc origin_in_box) as (k & Hk & _). lia. Qed.

(** The cells of a set depend only on its input dimensions. *)
Lemma grid_cells_agree i c x x' : iterator_sets !! i = Some c -> length x = length x' ->
  (forall d, d ∈ index_view (input_dims c) -> x !!! d = x' !!! d) ->
  grid_cell t gods f x <$> index_view (grid_dims c) = grid_cell t gods f x' <$> index_view (grid_dims c).
Proof.
  intros Hc Hl H. pose proof (iterator_set_connected i c Hc) as Hok. apply list_fmap_ext. intros j g Hg.
  apply list_elem_of_lookup_2, elem_of_index_view in Hg as [Hg _]. unfold grid_cell.
  rewrite (output_agree t (grid_map t gods g) x x'); [reflexivity|exact HW| |exact Hl|].
  - exact (grid_map_elem t gods Hgods g (connected_grid _ _ _ Hok g Hg)).
  - intros d Hd. apply H, (elem_of_input_dims t gods Hrank Hgrid_rank c Hok).
    apply (connected_map _ _ _ Hok g Hg), Hd.
Qed.

(** A cell of every set: some position is in all of them. *)
Lemma cells_combine (ks : nat -> nat) : (forall i c, iterator_sets !! i = Some c -> (ks i < set_count i)%nat) ->
  exists x, in_box (input_domain t) x /\ forall i c, iterator_sets !! i = Some c ->
    set_cells i (ks i) = grid_cell t gods f x <$> index_view (grid_dims c).
Proof.
  intros Hks.
  destruct (list_choice (fun p x => in_box (input_domain t) x /\
    set_cells p.1 (ks p.1) = grid_cell t gods f x <$> index_view (grid_dims p.2)) (imap pair iterator_sets)) as [xs Hxs].
  { intros p Hp. apply elem_of_imap in Hp as (i & c & Hc & ->). exact (set_cells_sound i c _ Hc (Hks i c Hc)). }
  set (kvs := imap pair iterator_sets ≫= fun p => (fun d => (d, (xs !!! p.1) !!! d)) <$> index_view (input_dims p.2)).
  assert (Hat : forall i c, iterator_sets !! i = Some c -> exists x, xs !! i = Some x /\ in_box (input_domain t) x /\
    set_cells i (ks i) = grid_cell t gods f x <$> index_view (grid_dims c)).
  { intros i c Hc. destruct (Forall2_lookup_l _ _ _ i (i, c) Hxs) as (x & Hx & H).
    - rewrite list_lookup_imap, Hc. reflexivity.
    - eauto. }
  destruct (combine_positions kvs) as (x & Hx & E).
  - unfold kvs. rewrite (imap_bind_keys (fun c => index_view (input_dims c))); [exact iterator_inputs_NoDup|].
    intros i c. cbn. rewrite <- list_fmap_compose. apply list_fmap_id.
  - intros d v Hin. apply list_elem_of_bind in Hin as (p & Hd & Hp). apply elem_of_imap in Hp as (i & c & Hc & ->).
    apply list_elem_of_fmap in Hd as (d' & [= -> ->] & Hd). cbn [fst snd] in *.
    destruct (Hat i c Hc) as (x & Hxi & Hx & _). rewrite (list_lookup_total_correct _ _ _ Hxi).
    assert (Hlt : (d' < input_rank t)%nat).
    { apply elem_of_index_view in Hd as [Hd _]. exact (connected_input _ _ _ (iterator_set_connected i c Hc) d' Hd). }
    split; [exact Hlt|]. apply (in_box_at t gods f info HW Hinfo); assumption.
  - exists x. split; [exact Hx|]. intros i c Hc. destruct (Hat i c Hc) as (xi & Hxi & Hbox & ->).
    apply (grid_cells_agree i c); [exact Hc| |].
    + rewrite (in_box_length _ _ Hx), (in_box_length _ _ Hbox). reflexivity.
    + intros d Hd. symmetry. apply E. unfold kvs. apply list_elem_of_bind. exists (i, c).
      split; [|apply elem_of_imap; eauto]. apply list_elem_of_fmap. exists d. split; [|exact Hd].
      cbn. rewrite (list_lookup_total_correct _ _ _ Hxi). reflexivity.
Qed.
End Runs.
