(* ===== verification/GridIteration.v ===== *)
(** The operations of the iterator over grid cells keep its invariant: the iterator is at the
    digits [ks] of an odometer with a digit for every connected set, and the cell indices and
    the cell transform are those of the positions that the sets were last applied at. *)

From stdpp Require Import gmap sorting strings.
From S2P Require Import Prelude Int64 IndexInterval Transform TransformArray Dimensions.
From S2P Require Import GridPartition GridSets GridArrays GridBuckets GridUpdate GridCells GridTransform.
From S2P Require Import GridIterator GridOdometer GridRuns.

#[local] Opaque index_view.

(** * Writing the cell indices *)

Definition with_indices (it : PartitionIndexTransformIterator) (l : list Z) : PartitionIndexTransformIterator :=
  MkIterator (at_end_ it) (cell_transform_ it) l (position_ it) (upper_bound_ it) (strided_next_position_ it).

Lemma cell_transform_with_indices it l : cell_transform_ (with_indices it l) = cell_transform_ it.
Proof. reflexivity. Qed.

Lemma with_indices_same it : with_indices it (output_grid_cell_indices_ it) = it.
Proof. destruct it; reflexivity. Qed.

Lemma checked_assign {A} (l : list A) i v : (i < length l)%nat -> checked_update l i (fun _ => v) = Ok (<[i := v]> l).
Proof. intros Hi. unfold checked_update. destruct (lookup_lt_is_Some_2 l i Hi) as [x ->]. reflexivity. Qed.

Lemma set_cell_index_Ok it g c : (g < length (output_grid_cell_indices_ it))%nat ->
  set_cell_index it g c = Ok (with_indices it (<[g := c]> (output_grid_cell_indices_ it))).
Proof. intros Hg. unfold set_cell_index. rewrite checked_assign by exact Hg. reflexivity. Qed.

Lemma set_cell_indices_Ok {X} (step : PartitionIndexTransformIterator -> X -> Result PartitionIndexTransformIterator)
    (kv : X -> nat * Z) l : forall it,
  (forall it x, x ∈ l -> step it x = set_cell_index it (kv x).1 (kv x).2) ->
  (forall x, x ∈ l -> ((kv x).1 < length (output_grid_cell_indices_ it))%nat) ->
  foldM step it l = Ok (with_indices it (assign (output_grid_cell_indices_ it) (kv <$> l))).
Proof.
  induction l as [|x l IH]; intros it Hs Hl; cbn [foldM].
  - cbn. rewrite with_indices_same. reflexivity.
  - rewrite Hs, set_cell_index_Ok by (try apply Hl; left). cbn [mbind Result_bind]. rewrite IH.
    + unfold with_indices. cbn. destruct (kv x). reflexivity.
    + intros it' y Hy. apply Hs. right. exact Hy.
    + intros y Hy. cbn. rewrite length_insert. apply Hl. right. exact Hy.
Qed.

(** The other members. *)
Definition with_positions (it : PartitionIndexTransformIterator) (p u n : list Z) : PartitionIndexTransformIterator :=
  MkIterator (at_end_ it) (cell_transform_ it) (output_grid_cell_indices_ it) p u n.

Lemma set_position_Ok it i p : (i < length (position_ it))%nat ->
  set_position it i p = Ok (with_positions it (<[i := p]> (position_ it)) (upper_bound_ it) (strided_next_position_ it)).
Proof. intros Hi. unfold set_position. rewrite checked_assign by exact Hi. reflexivity. Qed.
Lemma set_upper_bound_Ok it i p : (i < length (upper_bound_ it))%nat ->
  set_upper_bound it i p = Ok (with_positions it (position_ it) (<[i := p]> (upper_bound_ it)) (strided_next_position_ it)).
Proof. intros Hi. unfold set_upper_bound. rewrite checked_assign by exact Hi. reflexivity. Qed.
Lemma set_next_position_Ok it i p : (i < length (strided_next_position_ it))%nat ->
  set_next_position it i p = Ok (with_positions it (position_ it) (upper_bound_ it) (<[i := p]> (strided_next_position_ it))).
Proof. intros Hi. unfold set_next_position. rewrite checked_assign by exact Hi. reflexivity. Qed.

(** The loop of [ApplyStridedSet]. *)
Lemma apply_grid_dims_Ok t gods f p (cell : nat -> Z) (interval : nat -> IndexInterval) l : forall it dom r,
  (forall g, g ∈ l -> (g < length (output_grid_cell_indices_ it))%nat /\
     f g ((p * stride (grid_map t gods g))%i64 + offset (grid_map t gods g))%i64 = (cell g, interval g)) ->
  foldM (restrict_step (grid_map t gods) interval) dom l = Ok r ->
  foldM (apply_grid_dim gods f t p) (it, dom) l =
    Ok (with_indices it (assign (output_grid_cell_indices_ it) ((fun g => (g, cell g)) <$> l)), r).
Proof.
  induction l as [|g l IH]; intros it dom r Hl Hr; cbn [foldM] in *.
  - injection Hr as <-. cbn. rewrite with_indices_same. reflexivity.
  - apply bind_Ok in Hr as (dom' & Hd & Hr). unfold restrict_step in Hd. apply bind_Ok in Hd as (cd & Hcd & [= <-]).
    destruct (Hl g (list_elem_of_here _ _)) as [Hg E]. unfold grid_map in *.
    unfold apply_grid_dim at 2. rewrite E, set_cell_index_Ok by exact Hg. cbn [mbind Result_bind]. rewrite Hcd.
    cbn [mbind Result_bind]. rewrite (IH _ _ r); [reflexivity| |exact Hr].
    intros g' Hg'. cbn. rewrite length_insert. apply Hl. right. exact Hg'.
Qed.

(** * The invariant *)

Section Iteration.
Variables (t : TransformRep) (gods : list nat) (f : OutputToGridCellFn) (info : IndexTransformGridPartition).
Variable interval_of : nat -> Z -> IndexInterval.
Hypothesis HW : WellFormed t.
Hypothesis Hrank : (input_rank t <= 32)%nat.
Hypothesis Hgods : Forall (fun o => (o < output_rank t)%nat) gods.
Hypothesis Hgrid_rank : (length gods <= 32)%nat.
Hypothesis Hdisjoint : inputs_disjoint (ForEachConnectedSet gods t).
Hypothesis Hinfo : PrePartitionIndexTransformOverGrid t gods f = Ok info.
Hypothesis Hlaws : GridLaws f interval_of (grid_output t gods).
Hypothesis Hpos : Forall (fun x => 0 < size x) (input_domain t).
Hypothesis Hpreimage : forall g d y, grid_output t gods g y ->
  method (grid_map t gods g) = single_input_dimension d ->
  is_ok (GetAffineTransformDomain (interval_of g (f g y).1) (offset (grid_map t gods g))
    (stride (grid_map t gods g))) = true.

Let arrays := index_array_sets info.
Let strided := strided_sets info.
Let sets := iterator_sets t gods.
Let rank := iterator_rank info.
Let counts := set_count t gods f info interval_of.
Let pos := set_position_at t gods f info interval_of.
Let cells := set_cells t gods f info interval_of.

(** The part of the domain of the strided set [q] at its position with index [k]. *)
Definition run_at (q k : nat) : IndexInterval :=
  match strided_sets info !! q with
  | Some s => run_range t gods f interval_of s (run_starts t gods f interval_of s !!! k)
  | None => Infinite
  end.

(** Positions are set below [m], next positions below [n]; [js] are the positions that the sets
    were applied at. *)
Record iterator_inv (m n : nat) (ks : list nat) (js : nat -> option nat) (it : PartitionIndexTransformIterator)
    : Prop := MkInv {
  iv_at_end : at_end_ it = false;
  iv_digits : length ks = iterator_rank info;
  iv_lengths : length (position_ it) = iterator_rank info /\ length (upper_bound_ it) = iterator_rank info /\
    length (strided_next_position_ it) = length (strided_sets info) /\
    length (output_grid_cell_indices_ it) = length gods;
  iv_position i k : (i < m)%nat -> ks !! i = Some k ->
    position_ it !! i = Some (set_position_at t gods f info interval_of i k) /\
    upper_bound_ it !! i =
      Some (set_position_at t gods f info interval_of i (set_count t gods f info interval_of i));
  iv_next q k : (q < length (strided_sets info))%nat -> (length (index_array_sets info) + q < n)%nat ->
    ks !! (length (index_array_sets info) + q)%nat = Some k ->
    strided_next_position_ it !! q =
      Some (set_position_at t gods f info interval_of (length (index_array_sets info) + q) (S k));
  iv_constant g : (g < length gods)%nat -> method (grid_map t gods g) = constant ->
    output_grid_cell_indices_ it !! g = Some (f g (offset (grid_map t gods g))).1;
  iv_cells i c k : iterator_sets t gods !! i = Some c -> js i = Some k ->
    forall j g, index_view (grid_dims c) !! j = Some g ->
      output_grid_cell_indices_ it !! g = Some (set_cells t gods f info interval_of i k !!! j);
  iv_transform : cell_spec info t js (fun q => run_at q <$> js (length (index_array_sets info) + q)%nat)
    (cell_transform_ it)
}.

Ltac geometry := first [eassumption | exact Hpreimage].

Lemma set_at i : (i < rank)%nat -> exists c, sets !! i = Some c.
Proof.
  intros Hi. apply lookup_lt_is_Some_2. unfold sets. rewrite (iterator_sets_length t gods f info Hinfo). exact Hi.
Qed.

Lemma sets_NoDup_dims : NoDup (array_dims info ++ strided_dims info).
Proof. exact (set_dims_NoDup t gods f info HW Hrank Hgods Hgrid_rank Hdisjoint Hinfo Hpos). Qed.
Lemma sets_lt_dims : Forall (fun d => (d < input_rank t)%nat) (array_dims info ++ strided_dims info).
Proof. exact (set_dims_lt t gods f info HW Hrank Hgods Hgrid_rank Hinfo Hpos). Qed.

Lemma set_cases i : (i < rank)%nat ->
  (exists a cells c, sets !! i = Some c /\ arrays !! i = Some a /\ set_dims a = c /\ array_set_spec t gods f a cells) \/
  (exists q s c, sets !! i = Some c /\ i = (length arrays + q)%nat /\ arrays !! i = None /\ strided !! q = Some s /\
     strided_grid_dims s = grid_dims c).
Proof.
  intros Hi. destruct (set_at i Hi) as [c Hc].
  destruct (iterator_set_cases t gods f info HW Hrank Hgods Hgrid_rank Hinfo Hpos i c Hc)
    as [(a & cl & Ha & E & Hs)|(q & s & E & Hno & Hs & Eg & _)].
  - left. exists a, cl, c. auto.
  - right. exists q, s, c. auto.
Qed.

(** Positions of each kind of set. *)
Lemma array_positions i a : arrays !! i = Some a ->
  counts i = length (grid_cell_indices a) /\ (forall k, pos i k = Z.of_nat k) /\
  forall k, cells i k = grid_cell_indices a !!! k.
Proof. intros Ha. unfold counts, pos, cells, set_count, set_position_at, set_cells. fold arrays. rewrite Ha. auto. Qed.

Lemma strided_positions q s : strided !! q = Some s -> arrays !! (length arrays + q)%nat = None ->
  let starts := run_starts t gods f interval_of s in
  counts (length arrays + q) = length starts /\
  pos (length arrays + q) 0 = first_index t s /\
  pos (length arrays + q) (length starts) = end_index t s /\
  forall k, (k < length starts)%nat -> exists p, starts !! k = Some p /\
    run_at q k = run_range t gods f interval_of s p /\ first_index t s <= p < end_index t s /\ pos (length arrays + q) k = p /\
    pos (length arrays + q) (S k) = next_run t gods f interval_of s p /\
    cells (length arrays + q) k = strided_cells t gods f s p.
Proof.
  intros Hs Hno starts. pose proof (list_elem_of_lookup_2 _ _ _ Hs) as Hin.
  assert (HC : chain (strided_cells t gods f s) (next_run t gods f interval_of s) (end_index t s) (first_index t s) starts)
    by (eapply run_starts_chain; geometry).
  assert (Ep : forall k, pos (length arrays + q) k = (starts ++ [end_index t s]) !!! k)
    by (intros k; exact (at_strided info q s _ _ _ Hno Hs)).
  split; [exact (at_strided info q s _ _ _ Hno Hs)|]. rewrite !Ep.
  split; [apply list_lookup_total_correct, (ch_first _ _ _ _ _ HC)|].
  split; [apply list_lookup_total_correct, list_lookup_middle; reflexivity|].
  intros k Hk. destruct (lookup_lt_is_Some_2 _ _ Hk) as [p Hp]. exists p. rewrite !Ep.
  unfold run_at. fold strided. rewrite Hs. fold starts. rewrite (list_lookup_total_correct _ _ _ Hp).
  split; [exact Hp|]. split; [reflexivity|]. split; [exact (Forall_lookup_1 _ _ _ _ (ch_range _ _ _ _ _ HC) Hp)|].
  split; [apply list_lookup_total_correct, lookup_app_l_Some, Hp|].
  split; [apply list_lookup_total_correct, (ch_next _ _ _ _ _ HC k p Hp)|].
  transitivity (strided_cells t gods f s (starts !!! k)); [exact (at_strided info q s _ _ _ Hno Hs)|].
  rewrite (list_lookup_total_correct _ _ _ Hp). reflexivity.
Qed.

Lemma pos_end i k : (i < rank)%nat -> (k <= counts i)%nat -> (pos i k =? pos i (counts i)) = Nat.eqb k (counts i).
Proof.
  intros Hi Hk. destruct (Nat.eqb_spec k (counts i)) as [->|Hne]; [apply Z.eqb_refl|]. apply Z.eqb_neq.
  destruct (set_at i Hi) as [c Hc].
  enough (pos i k < pos i (counts i)) by lia. eapply set_position_lt; [geometry..|]. unfold counts in *. lia.
Qed.

Lemma is_array i a : arrays !! i = Some a -> is_index_array_set info i = true.
Proof. intros Ha%lookup_lt_Some. apply Nat.ltb_lt, Ha. Qed.
Lemma is_strided q : is_index_array_set info (length arrays + q) = false /\ strided_set_i info (length arrays + q) = q.
Proof. unfold is_index_array_set, strided_set_i. fold arrays. rewrite Nat.ltb_ge. lia. Qed.

(** ** [Reset] and the next positions *)

Lemma insert_cases {A} (l : list A) i x j y : <[i := x]> l !! j = Some y -> (j = i /\ y = x) \/ (j <> i /\ l !! j = Some y).
Proof. intros [(-> & -> & _)|[Hne H]]%list_lookup_insert_Some; auto. Qed.

(** New positions and next positions at one set; the rest of the state is the same. *)
Lemma inv_positions m n m' n' ks js it i k p u nx :
  iterator_inv m n ks js it -> (i < rank)%nat -> (i <= m)%nat -> (m' <= Nat.max m (S i))%nat -> (n' <= n)%nat ->
  length u = rank -> length nx = length strided ->
  p = pos i k -> u !! i = Some (pos i (counts i)) ->
  (forall j, j <> i -> u !! j = upper_bound_ it !! j) ->
  (forall q, (q < length strided)%nat -> (length arrays + q < n')%nat ->
     length arrays + q <> i /\ nx !! q = strided_next_position_ it !! q)%nat ->
  iterator_inv m' n' (<[i := k]> ks) js (with_positions it (<[i := p]> (position_ it)) u nx).
Proof.
  intros H Hi Him Hm' Hn' Hlu Hln Ep Eu Hu Hn. destruct (iv_lengths _ _ _ _ _ H) as (L1 & L2 & L3 & L4).
  split; cbn [with_positions at_end_ cell_transform_ output_grid_cell_indices_ position_ upper_bound_ strided_next_position_].
  - exact (iv_at_end _ _ _ _ _ H).
  - rewrite length_insert. exact (iv_digits _ _ _ _ _ H).
  - rewrite length_insert. auto.
  - intros j k' Hj [[-> ->]|[Hne Hk']]%insert_cases.
    + rewrite list_lookup_insert_eq by (rewrite L1; exact Hi). subst p. auto.
    + rewrite list_lookup_insert_ne, Hu by congruence. apply (iv_position _ _ _ _ _ H); [lia|exact Hk'].
  - intros q k' Hq Hqn [[Ei _]|[Hne Hk']]%insert_cases; destruct (Hn q Hq Hqn) as [Hqi E]; [contradiction|].
    rewrite E. apply (iv_next _ _ _ _ _ H); [exact Hq|lia|exact Hk'].
  - exact (iv_constant _ _ _ _ _ H).
  - exact (iv_cells _ _ _ _ _ H).
  - exact (iv_transform _ _ _ _ _ H).
Qed.

Lemma reset_spec m n ks js it i :
  iterator_inv m n ks js it -> (i < rank)%nat -> (n <= i)%nat -> (i <= m)%nat ->
  exists it', ResetSet info t it i = Ok it' /\ iterator_inv (Nat.max m (S i)) n (<[i := 0%nat]> ks) js it'.
Proof.
  intros H Hi Hn Hm. destruct (iv_lengths _ _ _ _ _ H) as (L1 & L2 & L3 & L4). unfold ResetSet.
  destruct (set_cases i Hi) as [(a & cl & c & Hc & Ha & <- & Hs)|(q & s & c & Hc & -> & Hno & Hs & _)].
  - rewrite (is_array i a Ha). destruct (array_positions i a Ha) as (Ec & Epos & _). unfold ResetIndexArraySet.
    fold arrays. rewrite (checked_at_Some _ _ _ Ha), set_position_Ok by (rewrite L1; exact Hi). cbn [mbind Result_bind].
    rewrite set_upper_bound_Ok by (cbn; rewrite L2; exact Hi).
    exists (with_positions it (<[i := 0]> (position_ it)) (<[i := num_partitions a]> (upper_bound_ it))
      (strided_next_position_ it)). split; [reflexivity|].
    apply (inv_positions m n); cbn; try lia; [exact H|..].
    + rewrite length_insert. exact L2.
    + exact L3.
    + rewrite Epos. reflexivity.
    + rewrite list_lookup_insert_eq by (rewrite L2; exact Hi). rewrite Epos, Ec. unfold num_partitions.
      rewrite (ass_offsets_length _ _ _ _ _ Hs). reflexivity.
    + intros j Hj. apply list_lookup_insert_ne. congruence.
    + intros q _ Hq. split; [lia|reflexivity].
  - destruct (is_strided q) as [-> Eq]. pose proof (lookup_lt_Some _ _ _ Hs) as Hql. unfold ResetStridedSet. rewrite Eq.
    destruct (strided_positions q s Hs Hno) as (Ec & E0 & E1 & _). fold strided.
    rewrite (checked_at_Some _ _ _ Hs). cbn [mbind Result_bind]. rewrite set_position_Ok by (rewrite L1; exact Hi). cbn [mbind Result_bind].
    rewrite set_upper_bound_Ok by (cbn; rewrite L2; exact Hi). cbn [mbind Result_bind].
    rewrite set_next_position_Ok by (cbn; rewrite L3; exact Hql).
    exists (with_positions it (<[(length arrays + q)%nat := first_index t s]> (position_ it))
      (<[(length arrays + q)%nat := end_index t s]> (upper_bound_ it)) (<[q := first_index t s]> (strided_next_position_ it))).
    split; [reflexivity|].
    apply (inv_positions m n); cbn; try lia; [exact H|..].
    + rewrite length_insert. exact L2.
    + rewrite length_insert. exact L3.
    + rewrite list_lookup_insert_eq by (rewrite L2; exact Hi). rewrite Ec, E1. reflexivity.
    + intros j Hj. apply list_lookup_insert_ne. congruence.
    + intros q' _ Hq'. split; [lia|]. apply list_lookup_insert_ne. lia.
Qed.

(** The step of [Advance] at the set [i]. *)
Lemma advance_spec m ks js it i k :
  iterator_inv m (S i) ks js it -> (i < m)%nat -> (i < rank)%nat -> ks !! i = Some k -> (k < counts i)%nat ->
  AdvanceSet info it i = Ok (pos i (S k)) /\
  exists it', set_position it i (pos i (S k)) = Ok it' /\ iterator_inv m i (<[i := S k]> ks) js it'.
Proof.
  intros H Him Hi Hk Hkc. destruct (iv_lengths _ _ _ _ _ H) as (L1 & L2 & L3 & L4).
  destruct (iv_position _ _ _ _ _ H i k Him Hk) as [Ep Eu]. split.
  - unfold AdvanceSet. destruct (set_cases i Hi) as [(a & cl & c & Hc & Ha & <- & Hs)|(q & s & c & Hc & -> & Hno & Hs & _)].
    + rewrite (is_array i a Ha), (checked_at_Some _ _ _ Ep). cbn. fold pos. destruct (array_positions i a Ha) as (_ & Epos & _).
      rewrite !Epos. f_equal. lia.
    + destruct (is_strided q) as [-> ->]. apply checked_at_Some. apply (iv_next _ _ _ _ _ H); [|fold arrays; lia|exact Hk].
      eapply lookup_lt_Some, Hs.
  - rewrite set_position_Ok by (rewrite L1; exact Hi). eexists. split; [reflexivity|].
    apply (inv_positions m (S i)); try lia; [exact H|exact L3|exact Eu|reflexivity|].
    intros q _ Hq. split; [lia|reflexivity].
Qed.

(** ** [Apply] *)

Lemma cells_length i c k : sets !! i = Some c -> (k < counts i)%nat ->
  length (cells i k) = length (index_view (grid_dims c)).
Proof.
  intros Hc Hk. assert (H : exists x, in_box (input_domain t) x /\
    cells i k = grid_cell t gods f x <$> index_view (grid_dims c)) by (eapply set_cells_sound; geometry).
  destruct H as (x & _ & ->). apply length_fmap.
Qed.

Definition applied (js : nat -> option nat) (i k j : nat) : option nat := if decide (j = i) then Some k else js j.

Lemma grid_dim_lt i c j g : sets !! i = Some c -> index_view (grid_dims c) !! j = Some g ->
  test (grid_dims c) g = true /\ (g < length gods)%nat.
Proof.
  intros Hc Hg%list_elem_of_lookup_2. apply elem_of_index_view in Hg as [Hg _]. split; [exact Hg|].
  exact (connected_grid _ _ _ (iterator_set_connected t gods HW Hrank Hgods Hgrid_rank i c Hc) g Hg).
Qed.

(** The state after the cells of a set have been written. *)
Lemma inv_applied m ks js it i c k ct kvs nx :
  iterator_inv m i ks js it -> sets !! i = Some c -> ks !! i = Some k ->
  kvs.*1 = index_view (grid_dims c) -> kvs.*2 = cells i k ->
  cell_spec info t (applied js i k) (fun q => run_at q <$> applied js i k (length arrays + q)%nat) ct ->
  length nx = length strided ->
  (forall q, (q < length strided)%nat -> (length arrays + q <= i)%nat ->
     nx !! q = if decide ((length arrays + q)%nat = i) then Some (pos i (S k)) else strided_next_position_ it !! q) ->
  iterator_inv m (S i) ks (applied js i k)
    (MkIterator (at_end_ it) ct (assign (output_grid_cell_indices_ it) kvs) (position_ it) (upper_bound_ it) nx).
Proof.
  intros H Hc Hk E1 E2 Hct Hln Hnx. destruct (iv_lengths _ _ _ _ _ H) as (L1 & L2 & L3 & L4).
  assert (Hin : forall g, g ∈ kvs.*1 <-> test (grid_dims c) g = true).
  { intros g. rewrite E1, elem_of_index_view. split; [tauto|]. intros Hg. split; [exact Hg|].
    pose proof (connected_grid _ _ _ (iterator_set_connected t gods HW Hrank Hgods Hgrid_rank i c Hc) g Hg). lia. }
  split; cbn [at_end_ cell_transform_ output_grid_cell_indices_ position_ upper_bound_ strided_next_position_].
  - exact (iv_at_end _ _ _ _ _ H).
  - exact (iv_digits _ _ _ _ _ H).
  - rewrite length_assign. auto.
  - exact (iv_position _ _ _ _ _ H).
  - intros q k' Hq Hqn Hk'. fold arrays in Hqn, Hk' |- *. fold strided in Hq. rewrite Hnx by lia.
    destruct (decide _) as [Ei|Hne]; [rewrite Ei in Hk' |- *; assert (k' = k) as -> by congruence; reflexivity|].
    apply (iv_next _ _ _ _ _ H); [exact Hq| |exact Hk']. fold arrays. lia.
  - intros g Hg Hm. rewrite assign_other; [exact (iv_constant _ _ _ _ _ H g Hg Hm)|]. rewrite Hin. intros Hgc.
    destruct (connected_map _ _ _ (iterator_set_connected t gods HW Hrank Hgods Hgrid_rank i c Hc) g Hgc) as [[d Hd] _].
    unfold depends_on in Hd. rewrite Hm in Hd. exact Hd.
  - intros i' c' k' Hc' Hk' j g Hg. unfold applied in Hk'. destruct (grid_dim_lt i' c' j g Hc' Hg) as [Hgt Hgl].
    destruct (decide (i' = i)) as [->|Hne].
    + injection Hk' as <-. assert (c' = c) as -> by (fold sets in Hc'; congruence). rewrite <- E1, list_lookup_fmap in Hg.
      destruct (kvs !! j) as [p|] eqn:Ep; [|discriminate]. injection Hg as <-.
      rewrite (assign_at _ _ p.1 p.2).
      * f_equal. symmetry. apply list_lookup_total_correct. fold cells. rewrite <- E2, list_lookup_fmap, Ep. reflexivity.
      * rewrite E1. apply NoDup_index_view.
      * apply list_elem_of_lookup. exists j. destruct p. exact Ep.
      * rewrite L4. exact Hgl.
    + rewrite assign_other; [exact (iv_cells _ _ _ _ _ H i' c' k' Hc' Hk' j g Hg)|]. rewrite Hin. intros Hgc. apply Hne.
      exact (iterator_grids_disjoint t gods HW Hrank Hgods Hgrid_rank Hdisjoint i' i c' c g Hc' Hc Hgt Hgc).
  - exact Hct.
Qed.

Lemma apply_array_spec m ks js it i a c k :
  iterator_inv m i ks js it -> (i < m)%nat -> sets !! i = Some c -> arrays !! i = Some a -> set_dims a = c ->
  ks !! i = Some k -> (k < counts i)%nat ->
  exists it', ApplyIndexArraySet info it i = Ok it' /\ iterator_inv m (S i) ks (applied js i k) it'.
Proof.
  intros H Him Hc Ha <- Hk Hkc. destruct (array_positions i a Ha) as (Ec & Epos & Ecells).
  destruct (iv_lengths _ _ _ _ _ H) as (L1 & L2 & L3 & L4).
  destruct (iv_position _ _ _ _ _ H i k Him Hk) as [Ep Eu]. fold pos counts in Ep, Eu. rewrite Epos in Ep, Eu.
  unfold ApplyIndexArraySet. fold arrays. rewrite (checked_at_Some _ _ _ Ep), Ok_bind, (checked_at_Some _ _ _ Eu), Ok_bind. rewrite (proj2 (Z.ltb_lt _ _)) by lia. unfold require at 1.
  rewrite Ok_bind, (checked_at_Some _ _ _ Ha), Ok_bind, Nat2Z.id.
  destruct (lookup_lt_is_Some_2 (grid_cell_indices a) k) as [row Hrow]; [rewrite <- Ec; exact Hkc|].
  rewrite (checked_at_Some _ _ _ Hrow), Ok_bind.
  assert (Er : cells i k = row) by (rewrite Ecells; apply list_lookup_total_correct, Hrow).
  pose proof (cells_length i _ k Hc Hkc) as Hlen. rewrite Er in Hlen. set (gd := index_view (grid_dims (set_dims a))) in *.
  rewrite (set_cell_indices_Ok _ (fun p : nat * nat => (p.2, row !!! p.1))).
  2: { intros it' p Hp. apply elem_of_imap in Hp as (j & g & Hg & ->). cbn [fst snd].
       destruct (lookup_lt_is_Some_2 row j) as [v Hv]; [rewrite Hlen; eapply lookup_lt_Some, Hg|].
       rewrite (checked_at_Some _ _ _ Hv), (list_lookup_total_correct _ _ _ Hv). reflexivity. }
  2: { intros p Hp. apply elem_of_imap in Hp as (j & g & Hg & ->). cbn [fst snd]. rewrite L4.
       apply (grid_dim_lt i _ j g Hc Hg). }
  rewrite Ok_bind.
  destruct (cell_spec_array info t sets_NoDup_dims sets_lt_dims Hrank _ _ _ i a k (iv_transform _ _ _ _ _ H) Ha) as (ct & E & Hct).
  rewrite cell_transform_with_indices, E, Ok_bind. eexists. split; [reflexivity|].
  set (kvs := _ <$> imap pair gd).
  assert (K : kvs.*1 = gd /\ kvs.*2 = row).
  { unfold kvs. clearbody gd. clear - Hlen. split; apply list_eq; intros j; rewrite !list_lookup_fmap, list_lookup_imap.
    - destruct (gd !! j); reflexivity.
    - destruct (gd !! j) as [g|] eqn:Eg; cbn; symmetry.
      + apply list_lookup_lookup_total_lt. rewrite Hlen. eapply lookup_lt_Some, Eg.
      + apply lookup_ge_None. rewrite Hlen. apply lookup_ge_None, Eg. }
  clearbody kvs. destruct K as [K1 K2]. rewrite <- Er in K2. unfold set_cell_transform, with_indices. cbn [at_end_ cell_transform_ output_grid_cell_indices_ position_ upper_bound_ strided_next_position_].
  apply (inv_applied m ks js it i (set_dims a) k ct kvs _ H Hc Hk K1 K2).
  - apply lookup_lt_Some in Ha. revert Hct. apply cell_spec_ext; [reflexivity|].
    intros q _. unfold applied. destruct (decide _); [lia|reflexivity].
  - exact L3.
  - intros q _ Hq. apply lookup_lt_Some in Ha. lia.
Qed.

(** The output index that [ApplyStridedSet] computes is exact. *)
Lemma strided_output_index s g p : s ∈ strided -> test (strided_grid_dims s) g = true ->
  first_index t s <= p < end_index t s ->
  ((p * stride (grid_map t gods g))%i64 + offset (grid_map t gods g))%i64 = strided_output_at t gods g p.
Proof.
  intros Hs Hg Hp.
  assert (R : grid_output t gods g (strided_output_at t gods g p) /\
    method (grid_map t gods g) = single_input_dimension (input_dimension s) /\
    forall x, in_box (input_domain t) x -> x !!! input_dimension s = p ->
      output_index (grid_map t gods g) x = Ok (strided_output_at t gods g p)) by (eapply strided_reached; geometry).
  destruct R as (_ & Hm & H).
  destruct (strided_domain_spec t gods f info HW Hrank Hgods Hgrid_rank Hinfo Hpos s Hs) as (Hlt & _ & _ & _ & _ & _ & Hc).
  assert (P : exists x, in_box (input_domain t) x /\ x !!! input_dimension s = p).
  { eapply position_with; [geometry..|]. apply Hc, Hp. }
  destruct P as (x & Hx & Ex). specialize (H x Hx Ex). unfold output_index, base_output_index in H.
  rewrite Hm, Ok_bind, Ex in H. injection H as H. rewrite wrap64_add_l. exact H.
Qed.

Lemma apply_strided_spec m ks js it q s c k :
  iterator_inv m (length arrays + q) ks js it -> (length arrays + q < m)%nat ->
  sets !! (length arrays + q)%nat = Some c -> strided !! q = Some s -> arrays !! (length arrays + q)%nat = None ->
  strided_grid_dims s = grid_dims c ->
  ks !! (length arrays + q)%nat = Some k -> (k < counts (length arrays + q))%nat ->
  exists it', ApplyStridedSet info gods f t it (length arrays + q) = Ok it' /\
    iterator_inv m (S (length arrays + q)) ks (applied js (length arrays + q) k) it'.
Proof.
  intros H Him Hc Hs Hno Hgd Hk Hkc. pose proof (list_elem_of_lookup_2 _ _ _ Hs) as Hin.
  destruct (strided_positions q s Hs Hno) as (Ec & _ & Eend & Hat). rewrite Ec in Hkc.
  destruct (Hat k Hkc) as (p & _ & Erun & Hp & Epos & Enext & Ecells). clear Hat.
  destruct (iv_lengths _ _ _ _ _ H) as (L1 & L2 & L3 & L4).
  destruct (iv_position _ _ _ _ _ H _ k Him Hk) as [Ep Eu]. fold pos counts in Ep, Eu. rewrite Epos in Ep. rewrite Ec, Eend in Eu.
  assert (HR : foldM (restrict_step (grid_map t gods) (fun g => interval_of g (f g (strided_output_at t gods g p)).1))
    (UncheckedHalfOpen p (end_index t s)) (index_view (strided_grid_dims s)) = Ok (run_range t gods f interval_of s p))
    by (eapply run_range_spec; geometry).
  destruct (is_strided q) as [_ Eq]. unfold ApplyStridedSet. rewrite Eq. fold strided.
  rewrite (checked_at_Some _ _ _ Ep), Ok_bind, (checked_at_Some _ _ _ Eu), Ok_bind, (checked_at_Some _ _ _ Hs), Ok_bind.
  rewrite (apply_grid_dims_Ok t gods f p (fun g => (f g (strided_output_at t gods g p)).1)
    (fun g => interval_of g (f g (strided_output_at t gods g p)).1) _ it _ _) with (2 := HR).
  2: { intros g [Hg _]%elem_of_index_view. rewrite (strided_output_index s g p Hin Hg Hp).
       assert (R : grid_output t gods g (strided_output_at t gods g p)) by (eapply strided_reached; geometry).
       split; [rewrite L4; exact (proj1 R)|]. rewrite <- (law_interval g _ R). destruct (f g _); reflexivity. }
  rewrite Ok_bind, cell_transform_with_indices.
  destruct (cell_spec_strided info t Hrank _ _ _ q s (run_range t gods f interval_of s p) (iv_transform _ _ _ _ _ H) Hs) as (ct & E & Hct).
  fold arrays in E. rewrite E, Ok_bind. pose proof (lookup_lt_Some _ _ _ Hs) as Hql.
  rewrite set_next_position_Ok by (cbn; rewrite L3; exact Hql). eexists. split; [reflexivity|].
  set (kvs := _ <$> index_view (strided_grid_dims s)).
  assert (K : kvs.*1 = index_view (grid_dims c) /\ kvs.*2 = cells (length arrays + q) k).
  { rewrite Ecells, <- Hgd. unfold kvs. rewrite <- !list_fmap_compose. split; [apply list_fmap_id|reflexivity]. }
  clearbody kvs. destruct K as [K1 K2].
  refine (inv_applied m ks js it _ c k ct kvs (<[q := next_run t gods f interval_of s p]> (strided_next_position_ it))
    H Hc Hk K1 K2 _ _ _).
  - revert Hct. apply cell_spec_ext.
    + intros i Hi. fold arrays in Hi. unfold applied. destruct (decide _); [lia|reflexivity].
    + intros j Hj. fold arrays. unfold applied. destruct (decide (j = q)) as [->|Hne], (decide _); try lia; [|reflexivity].
      cbn. rewrite Erun. reflexivity.
  - rewrite length_insert. exact L3.
  - intros q' Hq' Hle. destruct (decide _) as [Ei|Hne].
    + assert (q' = q) as -> by lia. rewrite list_lookup_insert_eq, Enext by (rewrite L3; exact Hql). reflexivity.
    + apply list_lookup_insert_ne. lia.
Qed.

Lemma apply_spec m ks js it i k :
  iterator_inv m i ks js it -> (i < m)%nat -> (i < rank)%nat -> ks !! i = Some k -> (k < counts i)%nat ->
  exists it', ApplySet info gods f t it i = Ok it' /\ iterator_inv m (S i) ks (applied js i k) it'.
Proof.
  intros H Him Hi Hk Hkc. unfold ApplySet.
  destruct (set_cases i Hi) as [(a & cl & c & Hc & Ha & E & _)|(q & s & c & Hc & -> & Hno & Hs & E)].
  - rewrite (is_array i a Ha). apply (apply_array_spec m ks js it i a c); assumption.
  - rewrite (proj1 (is_strided q)). apply (apply_strided_spec m ks js it q s c); assumption.
Qed.

(** The number of positions of each set. *)
Definition digit_counts : list nat := set_count t gods f info interval_of <$> seq 0 (iterator_rank info).

Lemma digit_counts_lookup i : (i < rank)%nat -> digit_counts !! i = Some (counts i).
Proof. intros Hi. unfold digit_counts. rewrite list_lookup_fmap, lookup_seq_lt by exact Hi. reflexivity. Qed.

Lemma digit_bound ks i k : Forall2 lt ks digit_counts -> ks !! i = Some k -> (i < rank)%nat /\ (k < counts i)%nat.
Proof.
  intros H Hk. destruct (Forall2_lookup_l _ _ _ _ _ H Hk) as (n & Hn & Hlt).
  assert (Hi : (i < rank)%nat).
  { apply lookup_lt_Some in Hn. unfold digit_counts in Hn. rewrite length_fmap, length_seq in Hn. exact Hn. }
  rewrite digit_counts_lookup in Hn by exact Hi. injection Hn as <-. auto.
Qed.

Lemma length_digits ks : Forall2 lt ks digit_counts -> length ks = rank.
Proof. intros H. rewrite (Forall2_length _ _ _ H). unfold digit_counts. rewrite length_fmap. apply length_seq. Qed.

(** The iterator is at a cell: all sets are applied at the digits [ks]. *)
Definition at_cell (ks : list nat) (it : PartitionIndexTransformIterator) : Prop :=
  Forall2 lt ks digit_counts /\ exists js, iterator_inv (iterator_rank info) (iterator_rank info) ks js it /\
    forall i, (i < iterator_rank info)%nat -> js i = ks !! i.

(** Applying the sets from [i] on. *)
Lemma apply_loop n : forall i ks js it,
  Forall2 lt ks digit_counts -> iterator_inv rank i ks js it -> (i + n = rank)%nat ->
  (forall j, (j < i)%nat -> js j = ks !! j) ->
  exists it', foldM (ApplySet info gods f t) it (seq i n) = Ok it' /\ at_cell ks it'.
Proof.
  induction n as [|n IH]; intros i ks js it Hks H Hn Hjs; cbn [seq foldM].
  - exists it. split; [reflexivity|]. split; [exact Hks|]. exists js. rewrite Nat.add_0_r in Hn. subst i.
    split; [exact H|exact Hjs].
  - destruct (lookup_lt_is_Some_2 ks i) as [k Hk]; [rewrite (length_digits ks Hks); lia|].
    destruct (digit_bound ks i k Hks Hk) as [Hi Hkc].
    destruct (apply_spec rank ks js it i k H Hi Hi Hk Hkc) as (it' & -> & H'). rewrite Ok_bind.
    apply (IH (S i) ks (applied js i k) it' Hks H'); [lia|]. intros j Hj. unfold applied.
    destruct (decide (j = i)) as [->|Hne]; [symmetry; exact Hk|apply Hjs; lia].
Qed.

(** ** [Advance] *)

Lemma insert_digit ks i k : Forall2 lt ks digit_counts -> (i < rank)%nat -> (k < counts i)%nat ->
  Forall2 lt (<[i := k]> ks) digit_counts.
Proof.
  intros H Hi Hk. rewrite <- (list_insert_id digit_counts i (counts i)) by (apply digit_counts_lookup, Hi).
  apply Forall2_insert; assumption.
Qed.

Lemma AdvanceLoop_spec i : forall ks js it,
  Forall2 lt ks digit_counts -> iterator_inv rank i ks js it -> (i <= rank)%nat ->
  (forall j, (j < i)%nat -> js j = ks !! j) ->
  exists it', AdvanceLoop info gods f t i it = Ok it' /\
    match odometer digit_counts i ks with
    | Some ks' => at_cell ks' it'
    | None => at_end_ it' = true
    end.
Proof.
  induction i as [|i IH]; intros ks js it Hks H Hi Hjs; cbn [AdvanceLoop odometer].
  - exists (set_at_end it). split; reflexivity.
  - destruct (lookup_lt_is_Some_2 ks i) as [k Hk]; [rewrite (length_digits ks Hks); lia|].
    destruct (digit_bound ks i k Hks Hk) as [Hir Hkc].
    rewrite (list_lookup_total_correct _ _ _ Hk), (list_lookup_total_correct _ _ _ (digit_counts_lookup i Hir)).
    destruct (advance_spec rank ks js it i k H Hir Hir Hk Hkc) as (-> & it1 & E1 & H1).
    rewrite Ok_bind, E1, Ok_bind.
    assert (Hk1 : <[i := S k]> ks !! i = Some (S k))
      by (apply list_lookup_insert_eq; rewrite (length_digits ks Hks); exact Hir).
    destruct (iv_position _ _ _ _ _ H1 i (S k) Hir Hk1) as [_ Eu]. fold pos counts in Eu.
    rewrite (checked_at_Some _ _ _ Eu), Ok_bind, (pos_end i (S k) Hir Hkc).
    destruct (Nat.eqb_spec (S k) (counts i)) as [Eq|Hne].
    + destruct (Nat.ltb_spec (S k) (counts i)) as [Hlt|_]; [lia|].
      destruct (Nat.eqb_spec i 0) as [->|Hi0]; [exists (set_at_end it1); split; reflexivity|].
      destruct (reset_spec rank i _ js it1 i H1 Hir (le_n i) (Nat.lt_le_incl _ _ Hir)) as (it2 & -> & H2).
      rewrite list_insert_insert_eq, Nat.max_l in H2 by exact Hir. rewrite Ok_bind.
      apply (IH (<[i := 0%nat]> ks) js it2); [apply insert_digit; [exact Hks|exact Hir|lia]|exact H2|lia|].
      intros j Hj. rewrite list_lookup_insert_ne by lia. apply Hjs. lia.
    + destruct (Nat.ltb_spec (S k) (counts i)) as [Hlt|Hge]; [|lia].
      apply (apply_loop _ i (<[i := S k]> ks) js it1); [apply insert_digit; assumption|exact H1|lia|].
      intros j Hj. rewrite list_lookup_insert_ne by lia. apply Hjs. lia.
Qed.

Lemma Advance_spec ks it : at_cell ks it ->
  exists it', Advance info gods f t it = Ok it' /\
    match odometer digit_counts rank ks with
    | Some ks' => at_cell ks' it'
    | None => at_end_ it' = true
    end.
Proof. intros (Hks & js & H & Hjs). exact (AdvanceLoop_spec rank ks js it Hks H (le_n _) Hjs). Qed.

(** The loop of the callers visits a cell for each of the digits that follow. *)
Lemma visit_spec ks l : runs (odometer digit_counts rank) ks l -> forall it fuel,
  at_cell ks it -> (length l < fuel)%nat ->
  exists visited, visit info gods f t fuel it = Ok visited /\
    Forall2 (fun ks p => exists it, at_cell ks it /\ p = (output_grid_cell_indices_ it, cell_transform_ it)) l visited.
Proof.
  assert (Hend : forall ks it, at_cell ks it -> at_end_ it = false)
    by (intros ks' it (_ & js & H & _); exact (iv_at_end _ _ _ _ _ H)).
  induction 1 as [ks Hnone|ks ks' l Hsome Hrun IH]; intros it fuel Hit Hf; cbn [length] in Hf.
  - destruct fuel as [|[|fuel]]; [lia..|]. cbn [visit]. rewrite (Hend ks it Hit).
    destruct (Advance_spec ks it Hit) as (it' & E & H). rewrite Hnone in H. rewrite E, Ok_bind, H, Ok_bind.
    eexists. split; [reflexivity|]. constructor; [eauto|constructor].
  - destruct fuel as [|fuel]; [lia|]. cbn [visit]. rewrite (Hend ks it Hit).
    destruct (Advance_spec ks it Hit) as (it' & E & H). rewrite Hsome in H. rewrite E, Ok_bind.
    destruct (IH it' fuel H ltac:(lia)) as (visited & -> & HF). rewrite Ok_bind.
    eexists. split; [reflexivity|]. constructor; [eauto|exact HF].
Qed.

(** ** [Init] *)

Lemma constant_indices_spec n : forall a it, (a + n <= length (output_grid_cell_indices_ it))%nat ->
  exists l, foldM (set_constant_index gods f t) it (seq a n) = Ok (with_indices it l) /\
    length l = length (output_grid_cell_indices_ it) /\
    (forall g, (g < a)%nat -> l !! g = output_grid_cell_indices_ it !! g) /\
    forall g, (a <= g < a + n)%nat -> method (grid_map t gods g) = constant ->
      l !! g = Some (f g (offset (grid_map t gods g))).1.
Proof.
  induction n as [|n IH]; intros a it Hl; cbn [seq foldM].
  - exists (output_grid_cell_indices_ it). rewrite with_indices_same. repeat split; auto. lia.
  - assert (Hstep : exists l, set_constant_index gods f t it a = Ok (with_indices it l) /\
      length l = length (output_grid_cell_indices_ it) /\
      (forall g, g <> a -> l !! g = output_grid_cell_indices_ it !! g) /\
      (method (grid_map t gods a) = constant -> l !! a = Some (f a (offset (grid_map t gods a))).1)).
    { unfold set_constant_index, grid_map. destruct (method _) eqn:Em.
      - rewrite set_cell_index_Ok by lia. eexists. split; [reflexivity|]. rewrite length_insert.
        split; [reflexivity|]. split; [intros g Hg; apply list_lookup_insert_ne; congruence|].
        intros _. apply list_lookup_insert_eq. lia.
      - exists (output_grid_cell_indices_ it). rewrite with_indices_same. repeat split; auto. discriminate.
      - exists (output_grid_cell_indices_ it). rewrite with_indices_same. repeat split; auto. discriminate. }
    destruct Hstep as (l1 & -> & Hl1 & Ho1 & Hc1). rewrite Ok_bind.
    destruct (IH (S a) (with_indices it l1)) as (l & -> & Hl2 & Ho2 & Hc2); [cbn; lia|].
    exists l. split; [reflexivity|]. cbn in Hl2, Ho2. split; [congruence|]. split.
    + intros g Hg. rewrite Ho2 by lia. apply Ho1. lia.
    + intros g Hg Hm. destruct (decide (g = a)) as [->|Hne]; [rewrite Ho2 by lia; auto|apply Hc2; [lia|exact Hm]].
Qed.

Lemma initialize_sets_spec n : forall i it,
  iterator_inv i 0 (replicate rank 0%nat) (fun _ => None) it -> (i + n = rank)%nat ->
  exists it', foldM (initialize_set info t) it (seq i n) = Ok it' /\
    iterator_inv rank 0 (replicate rank 0%nat) (fun _ => None) it'.
Proof.
  induction n as [|n IH]; intros i it H Hn; cbn [seq foldM].
  - exists it. split; [reflexivity|]. replace rank with i at 1 by lia. exact H.
  - assert (Hi : (i < rank)%nat) by lia.
    destruct (reset_spec i 0 _ _ it i H Hi (Nat.le_0_l i) (le_n i)) as (it1 & E & H1).
    rewrite Nat.max_r in H1 by lia. rewrite list_insert_id in H1 by (apply lookup_replicate_2, Hi).
    destruct (iv_position _ _ _ _ _ H1 i 0%nat (Nat.lt_succ_diag_r i) (lookup_replicate_2 _ _ _ Hi)) as [Ep Eu].
    destruct (set_at i Hi) as [c Hc].
    assert (Hc0 : (0 < counts i)%nat) by (eapply set_count_pos; geometry).
    unfold initialize_set at 2. rewrite E, Ok_bind, (checked_at_Some _ _ _ Ep), Ok_bind, (checked_at_Some _ _ _ Eu), Ok_bind.
    fold pos counts. rewrite (pos_end i 0 Hi) by lia. destruct (Nat.eqb_spec 0 (counts i)) as [|_]; [lia|].
    rewrite Ok_bind. apply IH; [exact H1|lia].
Qed.

Lemma Init_spec initial_indices : length initial_indices = length gods ->
  exists it, Init t gods f initial_indices = Ok (info, it) /\ at_cell (replicate rank 0%nat) it.
Proof.
  intros Hl. unfold Init. rewrite Hinfo, Ok_bind.
  rewrite (InitializeCellTransform_Ok info t sets_NoDup_dims sets_lt_dims Hrank
    (array_sets_some t gods f info HW Hrank Hgods Hgrid_rank Hinfo Hpos)), Ok_bind.
  unfold InitializePositions. cbn [cell_transform_ output_grid_cell_indices_]. set (it0 := MkIterator false _ _ _ _ _).
  destruct (constant_indices_spec (length gods) 0 it0) as (l & E & Hll & _ & Hc); [cbn; lia|].
  fold rank. rewrite E, Ok_bind.
  assert (H0 : iterator_inv 0 0 (replicate rank 0%nat) (fun _ => None) (with_indices it0 l)).
  { split; cbn [with_indices it0 at_end_ cell_transform_ output_grid_cell_indices_ position_ upper_bound_ strided_next_position_].
    - reflexivity.
    - apply length_replicate.
    - rewrite !length_replicate. cbn in Hll. rewrite Hll. auto.
    - lia.
    - lia.
    - intros g Hg. apply Hc. lia.
    - discriminate.
    - exact (cell_spec_initial info t sets_NoDup_dims sets_lt_dims Hrank). }
  destruct (initialize_sets_spec rank 0 _ H0 eq_refl) as (it1 & E1 & H1). rewrite E1, Ok_bind, (iv_at_end _ _ _ _ _ H1).
  assert (Hz : Forall2 lt (replicate rank 0%nat) digit_counts).
  { apply Forall2_same_length_lookup_2.
    - rewrite length_replicate. unfold digit_counts. rewrite length_fmap, length_seq. reflexivity.
    - intros i x y [-> Hi]%lookup_replicate Hy. rewrite digit_counts_lookup in Hy by exact Hi. injection Hy as <-.
      destruct (set_at i Hi) as [c Hc']. eapply set_count_pos; geometry. }
  destruct (apply_loop rank 0 _ _ it1 Hz H1 eq_refl) as (it2 & -> & H2); [lia|]. rewrite Ok_bind. eauto.
Qed.
End Iteration.
