(* ===== verification/GridVisits.v ===== *)
(** The iterator over grid cells visits every cell that the transform reaches once, with the
    transform that [GetCellTransform] gives for it. *)

From stdpp Require Import gmap sorting strings.
From S2P Require Import Prelude Int64 IndexInterval Transform TransformArray Dimensions.
From S2P Require Import GridPartition GridSets GridArrays GridBuckets GridUpdate GridCells GridTransform.
From S2P Require Import GridIterator GridOdometer GridRuns GridIteration.

#[local] Opaque index_view.

Lemma NoDup_Forall2 {A B} (R : A -> B -> Prop) l k :
  NoDup l -> Forall2 R l k -> (forall a a' b, R a b -> R a' b -> a = a') -> NoDup k.
Proof.
  intros Hn HF Hinj. apply NoDup_alt. intros i j b Hi Hj.
  destruct (Forall2_lookup_r _ _ _ _ _ HF Hi) as (a & Ha & Hab), (Forall2_lookup_r _ _ _ _ _ HF Hj) as (a' & Ha' & Hab').
  rewrite (Hinj a a' b Hab Hab') in Ha. exact (NoDup_lookup _ _ _ _ Hn Ha Ha').
Qed.

Lemma foldr_mul_mono (l k : list nat) : Forall2 le l k -> (foldr Nat.mul 1 l <= foldr Nat.mul 1 k)%nat.
Proof. induction 1 as [|a b l k Hab _ IH]; cbn; [lia|]. apply Nat.mul_le_mono; assumption. Qed.

Section Visits.
Variables (t : TransformRep) (gods : list nat) (f : OutputToGridCellFn) (info : IndexTransformGridPartition).
Variable interval_of : nat -> Z -> IndexInterval.
Hypothesis HW : WellFormed t.
Hypothesis Hrank : (input_rank t <= 32)%nat.
Hypothesis Hgods : Forall (fun o => (o < output_rank t)%nat) gods.
Hypothesis Hgrid_rank : (length gods <= 32)%nat.
Hypothesis Hdisjoint : inputs_disjoint (ForEachConnectedSet gods t).
Hypothesis Hinfo : PrePartitionIndexTransformOverGrid t gods f = Ok info.
Hypothesis Hlaws : GridLaws f interval_of (grid_output t gods).
Hypothesis Hpos : Forall (fun x => 0 < size x) (input_domain t).
Hypothesis Hpreimage : forall g d y, grid_output t gods g y ->
  method (grid_map t gods g) = single_input_dimension d ->
  is_ok (GetAffineTransformDomain (interval_of g (f g y).1) (offset (grid_map t gods g))
    (stride (grid_map t gods g))) = true.
(** Every map is constant or depends on an input dimension. *)
Hypothesis Hcovered : forall g, (g < length gods)%nat ->
  method (grid_map t gods g) = constant \/ exists d, depends_on (grid_map t gods g) d.

Let arrays := index_array_sets info.
Let strided := strided_sets info.
Let sets := iterator_sets t gods.
Let rank := iterator_rank info.
Let counts := set_count t gods f info interval_of.
Let cells := set_cells t gods f info interval_of.
Let ends := digit_counts t gods f info interval_of.
Let at_cell := at_cell t gods f info interval_of.

Ltac geometry := first [eassumption | exact Hpreimage].

(** ** Cells of positions *)

Lemma constant_output g x : (g < length gods)%nat -> method (grid_map t gods g) = constant ->
  output_index (grid_map t gods g) x = Ok (offset (grid_map t gods g)).
Proof.
  intros Hg Hm. unfold output_index, base_output_index. rewrite Hm, Ok_bind, Z.mul_0_l, Z.add_0_l. f_equal.
  apply wrap64_id. apply (grid_map_i64 t gods HW Hgods g Hg).
Qed.

Lemma set_output i c g x : sets !! i = Some c -> test (grid_dims c) g = true -> in_box (input_domain t) x ->
  exists y, output_index (grid_map t gods g) x = Ok y /\ (f g y).1 = grid_cell t gods f x g.
Proof.
  intros Hc Hg Hx. enough (H : is_ok (output_index (grid_map t gods g) x) = true).
  { unfold grid_cell. destruct (output_index _ x) as [y|]; [eauto|discriminate]. }
  destruct (iterator_set_cases t gods f info HW Hrank Hgods Hgrid_rank Hinfo Hpos i c Hc)
    as [(a & cl & _ & E & Hs)|(q & s & _ & _ & Hs & E & _)].
  - destruct (ass_cells _ _ _ _ _ Hs x Hx) as [_ H]. apply H. rewrite E. exact Hg.
  - pose proof (list_elem_of_lookup_2 _ _ _ Hs) as Hin.
    destruct (strided_of t gods f info HW Hrank Hgods Hgrid_rank Hinfo s Hin) as (_ & _ & _ & _ & Hm).
    rewrite E in Hm. destruct (Hm g Hg) as [Hgl Hmg].
    destruct (strided_output t gods f info HW Hrank Hgods Hgrid_rank Hinfo g _ x Hgl Hmg Hx) as [-> _]. reflexivity.
Qed.

(** Every grid dimension is constant or in a set. *)
Lemma grid_dim_cases g : (g < length gods)%nat ->
  method (grid_map t gods g) = constant \/
  exists i c j, sets !! i = Some c /\ index_view (grid_dims c) !! j = Some g /\ test (grid_dims c) g = true.
Proof.
  intros Hg. destruct (Hcovered g Hg) as [Hm|[d Hd]]; [left; exact Hm|right].
  destruct (ForEachConnectedSet_spec t gods HW Hrank Hgods Hgrid_rank) as (_ & _ & Hcover).
  destruct (Hcover g d Hg Hd) as (c & Hc & Hgc). apply elem_of_iterator_sets, list_elem_of_lookup in Hc as [i Hi].
  assert (Hin : g ∈ index_view (grid_dims c)) by (apply elem_of_index_view; split; [exact Hgc|lia]).
  apply list_elem_of_lookup in Hin as [j Hj]. exists i, c, j. auto.
Qed.

(** A position is in at most one cell. *)
Lemma in_cell_unique c c' x : in_cell t gods f c x -> in_cell t gods f c' x ->
  length c = length gods -> length c' = length gods -> c = c'.
Proof.
  intros H H' Hl Hl'. apply list_eq_same_length with (length gods); [exact Hl'|exact Hl|].
  intros g v v' Hg Hv Hv'. destruct (H g Hg) as (y & E & Ey), (H' g Hg) as (y' & E' & Ey').
  rewrite (list_lookup_total_correct _ _ _ Hv) in Ey. rewrite (list_lookup_total_correct _ _ _ Hv') in Ey'. congruence.
Qed.

(** ** The cell of an iterator *)

Section AtCell.
Variables (ks : list nat) (it : PartitionIndexTransformIterator).
Hypothesis Hat : at_cell ks it.

Lemma cell_length : length (output_grid_cell_indices_ it) = length gods.
Proof. destruct Hat as (_ & js & H & _). apply (iv_lengths _ _ _ _ _ _ _ _ _ _ H). Qed.

Lemma cell_digit i c : sets !! i = Some c -> exists k, ks !! i = Some k /\ (i < rank)%nat /\ (k < counts i)%nat.
Proof.
  intros Hc. apply lookup_lt_Some in Hc. unfold sets in Hc. rewrite (iterator_sets_length t gods f info Hinfo) in Hc.
  destruct Hat as (Hks & _). destruct (lookup_lt_is_Some_2 ks i) as [k Hk].
  { rewrite (length_digits _ _ _ _ _ _ Hks). exact Hc. }
  exists k. split; [exact Hk|]. exact (digit_bound _ _ _ _ _ _ _ _ Hks Hk).
Qed.

Lemma cell_index i c k j g : sets !! i = Some c -> ks !! i = Some k -> index_view (grid_dims c) !! j = Some g ->
  output_grid_cell_indices_ it !!! g = cells i k !!! j.
Proof.
  intros Hc Hk Hg. destruct (cell_digit i c Hc) as (k' & Hk' & Hi & _). assert (k' = k) as -> by congruence.
  destruct Hat as (_ & js & H & Hjs). apply list_lookup_total_correct.
  apply (iv_cells _ _ _ _ _ _ _ _ _ _ H i c k Hc); [rewrite Hjs by exact Hi; exact Hk|exact Hg].
Qed.

(** The positions of the cell are those whose cells in every set are those of the digits. *)
Lemma cell_positions x : in_box (input_domain t) x ->
  (in_cell t gods f (output_grid_cell_indices_ it) x <->
   forall i c k, sets !! i = Some c -> ks !! i = Some k -> cells i k = grid_cell t gods f x <$> index_view (grid_dims c)).
Proof.
  intros Hx. split.
  - intros H i c k Hc Hk. destruct (cell_digit i c Hc) as (k' & Hk' & Hi & Hkc). assert (k' = k) as -> by congruence.
    assert (Hlen : length (cells i k) = length (index_view (grid_dims c))) by (eapply cells_length; geometry).
    apply list_eq_same_length with (length (index_view (grid_dims c))); [apply length_fmap|exact Hlen|].
    intros j v w Hj Hv Hw. destruct (lookup_lt_is_Some_2 _ _ Hj) as [g Hg].
    pose proof (cell_index i c k j g Hc Hk Hg) as E. rewrite (list_lookup_total_correct _ _ _ Hv) in E.
    rewrite list_lookup_fmap, Hg in Hw. injection Hw as <-.
    destruct (grid_dim_lt t gods HW Hrank Hgods Hgrid_rank i c j g Hc Hg) as [Hgt Hgl].
    destruct (H g Hgl) as (y & Ey & Ec). unfold grid_cell. rewrite Ey. congruence.
  - intros H g Hg. destruct (grid_dim_cases g Hg) as [Hm|(i & c & j & Hc & Hj & Hgc)].
    + eexists. split; [exact (constant_output g x Hg Hm)|]. destruct Hat as (_ & js & H' & _). symmetry.
      apply list_lookup_total_correct, (iv_constant _ _ _ _ _ _ _ _ _ _ H' g Hg Hm).
    + destruct (cell_digit i c Hc) as (k & Hk & _). destruct (set_output i c g x Hc Hgc Hx) as (y & Ey & E).
      exists y. split; [exact Ey|]. rewrite (cell_index i c k j g Hc Hk Hj), (H i c k Hc Hk), E. symmetry.
      apply list_lookup_total_correct. rewrite list_lookup_fmap, Hj. reflexivity.
Qed.

Lemma cell_reached : exists x, in_box (input_domain t) x /\ in_cell t gods f (output_grid_cell_indices_ it) x.
Proof.
  assert (H : exists x, in_box (input_domain t) x /\ forall i c, sets !! i = Some c ->
    cells i (ks !!! i) = grid_cell t gods f x <$> index_view (grid_dims c)).
  { eapply (cells_combine t gods f info interval_of); [geometry..|]. intros i c Hc.
    destruct (cell_digit i c Hc) as (k & Hk & _ & Hlt). rewrite (list_lookup_total_correct _ _ _ Hk). exact Hlt. }
  destruct H as (x & Hx & H). exists x. split; [exact Hx|]. apply (cell_positions x Hx). intros i c k Hc Hk.
  rewrite <- (H i c Hc), (list_lookup_total_correct _ _ _ Hk). reflexivity.
Qed.

(** ** The transform of the cell *)

Lemma cell_part i a k : arrays !! i = Some a -> ks !! i = Some k ->
  part (output_grid_cell_indices_ it) a = k.
Proof.
  intros Ha Hk. destruct cell_reached as (x & Hx & Hxc).
  pose proof (lookup_lt_Some _ _ _ Ha) as Hi.
  destruct (set_cases t gods f info HW Hrank Hgods Hgrid_rank Hinfo Hpos i) as [(a' & cl & c & Hc & Ha' & <- & Hs)|(q & s & c & _ & E & _)];
    [unfold iterator_rank; fold arrays; lia| |fold arrays in E; lia].
  assert (a' = a) as -> by (unfold arrays in Ha; congruence).
  assert (Hkey : cells i k = cell_key a (output_grid_cell_indices_ it)).
  { apply list_eq_same_length with (length (cells i k)); [|reflexivity|].
    - destruct (cell_digit i _ Hc) as (k' & Hk' & _ & Hkc). assert (k' = k) as -> by congruence.
      unfold cell_key. rewrite length_fmap. symmetry. eapply cells_length; geometry.
    - intros j v w Hj Hv Hw. unfold cell_key in Hw. rewrite list_lookup_fmap in Hw.
      destruct (index_view (grid_dims (set_dims a)) !! j) as [g|] eqn:Hg; [|discriminate]. injection Hw as <-.
      rewrite (cell_index i _ k j g Hc Hk Hg). symmetry. apply list_lookup_total_correct, Hv. }
  destruct (array_positions t gods f info interval_of i a Ha) as (Ecount & _ & Ecells).
  destruct (FindPartition_reached t gods f info interval_of (output_grid_cell_indices_ it) HW Hinfo Hlaws x Hx a cl Hs)
    as (k' & Hk' & E).
  { eapply cell_is_key; [eassumption..|]. intros g Hg. apply Hxc.
    exact (connected_grid _ _ _ (ass_connected _ _ _ _ _ Hs) g Hg). }
  unfold part. rewrite E, Nat2Z.id. destruct (cell_digit i _ Hc) as (k2 & Hk2 & _ & Hkc).
  assert (k2 = k) as -> by congruence. unfold counts in Hkc. rewrite Ecount in Hkc.
  destruct (lookup_lt_is_Some_2 _ _ Hkc) as [row Hrow].
  apply (NoDup_lookup (grid_cell_indices a) k' k row); [exact (keys_NoDup t gods f a cl Hs)| |exact Hrow].
  rewrite Hk', <- Hkey. unfold cells. rewrite Ecells, (list_lookup_total_correct _ _ _ Hrow). reflexivity.
Qed.

(** The cell of a strided set at its position, and what it means for an input index. *)
Lemma strided_cell_of q s k : strided !! q = Some s -> ks !! (length arrays + q)%nat = Some k ->
  exists p, p ∈ run_starts t gods f interval_of s /\ first_index t s <= p < end_index t s /\
    run_at t gods f info interval_of q k = run_range t gods f interval_of s p /\
    forall v, first_index t s <= v < end_index t s ->
      (strided_cells t gods f s v = strided_cells t gods f s p <->
       forall g, test (strided_grid_dims s) g = true ->
         within (interval_of g (output_grid_cell_indices_ it !!! g)) (offset (grid_map t gods g) + stride (grid_map t gods g) * v)).
Proof.
  intros Hs Hk. pose proof (list_elem_of_lookup_2 _ _ _ Hs) as Hin. pose proof (lookup_lt_Some _ _ _ Hs) as Hq.
  destruct (set_cases t gods f info HW Hrank Hgods Hgrid_rank Hinfo Hpos (length arrays + q))
    as [(a & cl & c & _ & Ha & _)|(q' & s' & c & Hc & E & Hno & Hs' & Egd)];
    [unfold iterator_rank; fold arrays strided; lia|apply lookup_lt_Some in Ha; fold arrays in Ha; lia|].
  fold arrays in E. assert (q' = q) as -> by lia. assert (s' = s) as -> by (unfold strided in Hs; congruence).
  destruct (cell_digit _ c Hc) as (k' & Hk' & _ & Hkc). assert (k' = k) as -> by congruence.
  destruct (strided_positions t gods f info interval_of HW Hrank Hgods Hgrid_rank Hinfo Hlaws Hpos Hpreimage q s Hs Hno)
    as (Ecount & _ & _ & HP).
  unfold counts in Hkc. fold arrays in Ecount. rewrite Ecount in Hkc.
  destruct (HP k Hkc) as (p & Hstart & Erun & Hp & _ & _ & Ecells). clear HP.
  exists p. split; [exact (list_elem_of_lookup_2 _ _ _ Hstart)|]. split; [exact Hp|]. split; [exact Erun|].
  assert (Hcell : forall g, g ∈ index_view (strided_grid_dims s) ->
    output_grid_cell_indices_ it !!! g = (f g (strided_output_at t gods g p)).1).
  { intros g Hg. apply list_elem_of_lookup in Hg as [j Hg]. rewrite Egd in Hg. rewrite (cell_index _ c k j g Hc Hk Hg).
    unfold cells. fold arrays in Ecells. rewrite Ecells. apply list_lookup_total_correct.
    unfold strided_cells. rewrite list_lookup_fmap, Egd, Hg. reflexivity. }
  intros v Hv. rewrite (same_cells_within t gods f info interval_of HW Hrank Hgods Hgrid_rank Hinfo Hlaws Hpos s p v Hin Hp Hv).
  split; intros H g Hg.
  - assert (Hgin : g ∈ index_view (strided_grid_dims s)).
    { apply elem_of_index_view. split; [exact Hg|].
      destruct (strided_of t gods f info HW Hrank Hgods Hgrid_rank Hinfo s Hin) as (_ & _ & _ & _ & Hm).
      destruct (Hm g Hg). lia. }
    rewrite (Hcell g Hgin). exact (H g Hgin).
  - rewrite <- (Hcell g Hg). apply H. apply elem_of_index_view in Hg. tauto.
Qed.

Lemma cell_range q s k : strided !! q = Some s -> ks !! (length arrays + q)%nat = Some k ->
  range t gods interval_of (output_grid_cell_indices_ it) s = run_at t gods f info interval_of q k.
Proof.
  intros Hs Hk. pose proof (list_elem_of_lookup_2 _ _ _ Hs) as Hin. destruct cell_reached as (x & Hx & Hxc).
  destruct (strided_cell_of q s k Hs Hk) as (p & Hpin & Hp & -> & Hsame).
  assert (HC : chain (strided_cells t gods f s) (next_run t gods f interval_of s) (end_index t s) (first_index t s)
    (run_starts t gods f interval_of s)) by (eapply run_starts_chain; geometry).
  destruct (strided_domain_spec t gods f info HW Hrank Hgods Hgrid_rank Hinfo Hpos s Hin) as (_ & _ & _ & _ & _ & _ & Hdom).
  destruct (run_range_spec t gods f info interval_of HW Hrank Hgods Hgrid_rank Hinfo Hlaws Hpos Hpreimage s p Hin Hp)
    as (_ & HV & Hf & Hrun & _).
  assert (HR : Valid (range t gods interval_of (output_grid_cell_indices_ it) s) /\
    IsFinite (range t gods interval_of (output_grid_cell_indices_ it) s) = true /\
    forall v, Contains (range t gods interval_of (output_grid_cell_indices_ it) s) v = true <->
      Contains (input_domain t !!! input_dimension s) v = true /\
      forall g, test (strided_grid_dims s) g = true ->
        within (interval_of g (output_grid_cell_indices_ it !!! g)) (offset (grid_map t gods g) + stride (grid_map t gods g) * v)).
  { eapply range_spec; [geometry..| |exact Hin]. intros g d Hg Hm. destruct (Hxc g Hg) as (y & Ey & <-).
    eapply Hpreimage; [|exact Hm]. split; [exact Hg|eauto]. }
  destruct HR as (HVr & Hfr & Hrange). symmetry. apply finite_interval_ext; [exact HV|exact Hf|exact HVr|exact Hfr| |].
  - pose proof (proj2 (Hrun p) (conj (conj (Z.le_refl p) (proj2 Hp)) eq_refl)) as Hc0.
    apply Contains_box in Hc0; [|exact HV|exact Hf]. unfold empty. apply Z.eqb_neq. lia.
  - intros v. rewrite Hrun, Hrange. fold (strided_domain t s). rewrite (Hdom v). split.
    + intros [Hv E]. split; [lia|]. apply Hsame; [lia|exact E].
    + intros [Hv E]. apply Hsame in E; [|exact Hv]. split; [|exact E]. split; [|lia].
      exact (chain_least _ _ _ _ _ _ _ HC Hpin Hv E).
Qed.

Lemma cell_transform_correct :
  GetCellTransform info t (output_grid_cell_indices_ it) gods interval_of = Ok (cell_transform_ it).
Proof.
  destruct cell_reached as (x & Hx & Hxc).
  assert (E : GetCellTransform info t (output_grid_cell_indices_ it) gods interval_of =
    Ok (ct t gods info interval_of (output_grid_cell_indices_ it))).
  { eapply GetCellTransform_ct; [geometry..|]. intros g d Hg Hm. destruct (Hxc g Hg) as (y & Ey & <-).
    eapply Hpreimage; [|exact Hm]. split; [exact Hg|eauto]. }
  rewrite E. f_equal. destruct Hat as (Hks & js & H & Hjs). pose proof (length_digits _ _ _ _ _ _ Hks) as Hl.
  apply (cell_spec_unique info t (sets_NoDup_dims t gods f info HW Hrank Hgods Hgrid_rank Hdisjoint Hinfo Hpos)
    (sets_lt_dims t gods f info HW Hrank Hgods Hgrid_rank Hinfo Hpos) Hrank _ _ _ _ _ _
    (ct_spec t gods f info interval_of (output_grid_cell_indices_ it) HW Hrank Hgods Hgrid_rank Hdisjoint Hinfo x Hx)
    (iv_transform _ _ _ _ _ _ _ _ _ _ H)).
  - intros i a Ha. unfold part_at. rewrite Ha. pose proof (lookup_lt_Some _ _ _ Ha) as Hi.
    destruct (lookup_lt_is_Some_2 ks i) as [k Hk]; [rewrite Hl; unfold iterator_rank; lia|].
    rewrite Hjs, Hk by (unfold iterator_rank; lia). f_equal. exact (cell_part i a k Ha Hk).
  - intros q s Hs. unfold range_at. rewrite Hs. pose proof (lookup_lt_Some _ _ _ Hs) as Hq.
    destruct (lookup_lt_is_Some_2 ks (length arrays + q)%nat) as [k Hk]; [rewrite Hl; unfold iterator_rank, arrays; lia|].
    fold arrays. rewrite Hjs, Hk by (unfold iterator_rank; fold arrays; lia). cbn. f_equal. exact (cell_range q s k Hs Hk).
Qed.
End AtCell.

(** ** All cells *)

Lemma at_cell_injective ks ks' it it' : at_cell ks it -> at_cell ks' it' ->
  output_grid_cell_indices_ it = output_grid_cell_indices_ it' -> ks = ks'.
Proof.
  intros H H' E. pose proof (proj1 H) as Hks.
  pose proof (length_digits _ _ _ _ _ _ Hks) as Hl. pose proof (length_digits _ _ _ _ _ _ (proj1 H')) as Hl'.
  apply list_eq_same_length with rank; [exact Hl'|exact Hl|]. intros i k k' Hi Hk Hk'.
  destruct (set_at t gods f info Hinfo i Hi) as [c Hc].
  pose proof (digit_bound _ _ _ _ _ _ _ _ Hks Hk) as [_ Hkc]. pose proof (digit_bound _ _ _ _ _ _ _ _ (proj1 H') Hk') as [_ Hkc'].
  apply (set_cells_injective t gods f info interval_of HW Hrank Hgods Hgrid_rank Hinfo Hlaws Hpos Hpreimage i c k k' Hc Hkc Hkc').
  destruct (cell_reached ks it H) as (x & Hx & Hxc). fold cells.
  rewrite (proj1 (cell_positions ks it H x Hx) Hxc i c k Hc Hk). symmetry. rewrite E in Hxc.
  exact (proj1 (cell_positions ks' it' H' x Hx) Hxc i c k' Hc Hk').
Qed.

(** A position has digits. *)
Lemma position_digits x : in_box (input_domain t) x -> exists ks, Forall2 lt ks ends /\
  forall i c k, sets !! i = Some c -> ks !! i = Some k -> cells i k = grid_cell t gods f x <$> index_view (grid_dims c).
Proof.
  intros Hx.
  destruct (list_choice (fun p k => (k < counts p.1)%nat /\
    cells p.1 k = grid_cell t gods f x <$> index_view (grid_dims p.2)) (imap pair sets)) as [ks Hks].
  { intros p Hp. apply elem_of_imap in Hp as (i & c & Hc & ->). eapply set_cells_complete; geometry. }
  pose proof (iterator_sets_length t gods f info Hinfo) as Hl. fold sets in Hl.
  assert (Hlk : length ks = iterator_rank info) by (rewrite <- (Forall2_length _ _ _ Hks), length_imap; exact Hl).
  assert (Hat : forall i c k, sets !! i = Some c -> ks !! i = Some k ->
    (k < counts i)%nat /\ cells i k = grid_cell t gods f x <$> index_view (grid_dims c)).
  { intros i c k Hc Hk. assert (Hp : imap pair sets !! i = Some (i, c)) by (rewrite list_lookup_imap, Hc; reflexivity).
    exact (Forall2_lookup_lr _ _ _ _ _ _ Hks Hp Hk). }
  exists ks. split; [|intros i c k Hc Hk; exact (proj2 (Hat i c k Hc Hk))].
  apply Forall2_same_length_lookup_2.
  - rewrite Hlk. unfold ends, digit_counts. rewrite length_fmap, length_seq. reflexivity.
  - intros i k n Hk Hn. assert (Hi : (i < iterator_rank info)%nat) by (rewrite <- Hlk; eapply lookup_lt_Some, Hk).
    destruct (set_at t gods f info Hinfo i Hi) as [c Hc]. unfold ends in Hn. rewrite digit_counts_lookup in Hn by exact Hi.
    injection Hn as <-. exact (proj1 (Hat i c k Hc Hk)).
Qed.

Lemma number_of_positions_bound : (length (vectors ends) <= number_of_positions info t)%nat.
Proof.
  rewrite length_vectors. unfold number_of_positions. apply foldr_mul_mono.
  set (bounds := _ ++ _).
  assert (Hl : length bounds = iterator_rank info).
  { unfold bounds, iterator_rank. rewrite length_app, !length_fmap. reflexivity. }
  apply Forall2_same_length_lookup_2.
  - rewrite Hl. unfold ends, digit_counts. rewrite length_fmap, length_seq. reflexivity.
  - intros i n b Hn Hb. assert (Hi : (i < iterator_rank info)%nat) by (rewrite <- Hl; eapply lookup_lt_Some, Hb).
    unfold ends in Hn. rewrite digit_counts_lookup in Hn by exact Hi. injection Hn as <-.
    destruct (set_cases t gods f info HW Hrank Hgods Hgrid_rank Hinfo Hpos i Hi)
      as [(a & cl & c & Hc & Ha & _ & Hs)|(q & s & c & Hc & -> & Hno & Hs & _)]; unfold bounds in Hb.
    + rewrite lookup_app_l in Hb by (rewrite length_fmap; eapply lookup_lt_Some, Ha).
      rewrite list_lookup_fmap, Ha in Hb. injection Hb as <-.
      rewrite (proj1 (array_positions t gods f info interval_of i a Ha)), (ass_offsets_length _ _ _ _ _ Hs). reflexivity.
    + rewrite lookup_app_r in Hb by (rewrite length_fmap; lia). rewrite length_fmap in Hb.
      rewrite (Nat.add_comm _ q), Nat.add_sub, list_lookup_fmap, Hs in Hb. injection Hb as <-.
      rewrite (proj1 (strided_positions t gods f info interval_of HW Hrank Hgods Hgrid_rank Hinfo Hlaws Hpos Hpreimage q s Hs Hno)).
      pose proof (list_elem_of_lookup_2 _ _ _ Hs) as Hin.
      destruct (strided_domain_spec t gods f info HW Hrank Hgods Hgrid_rank Hinfo Hpos s Hin) as (_ & B & _ & _ & _ & Ee & _).
      unfold first_index, strided_domain in *.
      enough (Z.of_nat (length (run_starts t gods f interval_of s)) <= end_index t s - first_index t s)
        by (unfold first_index, strided_domain in *; lia).
      apply (starts_length (strided_cells t gods f s) _ _ (first_index t s)); [|unfold first_index, strided_domain in *; lia].
      intros p Hp. eapply run_range_spec; geometry.
Qed.

Lemma visited_cells_spec initial_indices : length initial_indices = length gods ->
  exists visited, visited_cells t gods f initial_indices = Ok visited /\ NoDup visited.*1 /\
    (forall c, c ∈ visited.*1 <-> length c = length gods /\ exists x, in_box (input_domain t) x /\ in_cell t gods f c x) /\
    Forall (fun p => GetCellTransform info t p.1 gods interval_of = Ok p.2) visited.
Proof.
  intros Hl.
  destruct (Init_spec t gods f info interval_of HW Hrank Hgods Hgrid_rank Hdisjoint Hinfo Hlaws Hpos Hpreimage
    initial_indices Hl) as (it & E & Hit).
  assert (Hlen : length ends = iterator_rank info) by (unfold ends, digit_counts; rewrite length_fmap; apply length_seq).
  assert (Hends : Forall (fun n => 0 < n)%nat ends).
  { apply Forall_forall. intros n Hn. apply list_elem_of_fmap in Hn as (i & -> & Hi%elem_of_seq).
    destruct (set_at t gods f info Hinfo i) as [c Hc]; [lia|]. eapply set_count_pos; geometry. }
  pose proof (odometer_runs ends Hends) as Hruns. rewrite Hlen in Hruns.
  destruct (visit_spec t gods f info interval_of HW Hrank Hgods Hgrid_rank Hdisjoint Hinfo Hlaws Hpos Hpreimage
    _ _ Hruns it (S (number_of_positions info t)) Hit) as (visited & Ev & HF).
  { apply Nat.lt_succ_r, number_of_positions_bound. }
  exists visited. split; [unfold visited_cells; rewrite E, Ok_bind; exact Ev|].
  assert (Hsound : forall p, p ∈ visited -> exists ks it, at_cell ks it /\ p = (output_grid_cell_indices_ it, cell_transform_ it)).
  { intros p Hp. apply list_elem_of_lookup in Hp as [n Hn]. destruct (Forall2_lookup_r _ _ _ _ _ HF Hn) as (ks & _ & it' & H).
    eauto. }
  split; [|split].
  - refine (NoDup_Forall2 (fun ks c => exists it, at_cell ks it /\ c = output_grid_cell_indices_ it) (vectors ends) _ _ _ _).
    + apply NoDup_vectors.
    + apply Forall2_fmap_r. eapply Forall2_impl; [exact HF|]. cbn. intros ks p (it' & H & ->). eauto.
    + intros ks ks' c (it1 & H1 & ->) (it2 & H2 & E2). exact (at_cell_injective ks ks' it1 it2 H1 H2 E2).
  - intros c. split.
    + intros (p & -> & Hp)%list_elem_of_fmap. destruct (Hsound p Hp) as (ks & it' & H & ->). cbn [fst].
      split; [exact (cell_length ks it' H)|exact (cell_reached ks it' H)].
    + intros (Hcl & x & Hx & Hxc). destruct (position_digits x Hx) as (ks & Hks & Hd).
      assert (Hin : ks ∈ vectors ends) by (apply elem_of_vectors, Hks).
      apply list_elem_of_lookup in Hin as [n Hn]. destruct (Forall2_lookup_l _ _ _ _ _ HF Hn) as (p & Hp & it' & H & ->).
      apply list_elem_of_fmap. exists (output_grid_cell_indices_ it', cell_transform_ it'). cbn [fst].
      split; [|eapply list_elem_of_lookup_2, Hp].
      apply (in_cell_unique _ _ x Hxc); [|exact Hcl|exact (cell_length ks it' H)].
      apply (cell_positions ks it' H x Hx), Hd.
  - apply Forall_forall. intros p Hp. destruct (Hsound p Hp) as (ks & it' & H & ->). exact (cell_transform_correct ks it' H).
Qed.
End Visits.
