(* ===== verification/GridTheorems.v ===== *)
(** The theorems on grid partitions, with concrete transforms on which they hold, and two
    transforms on which the code does not do what its comments say. *)

From stdpp Require Import gmap sorting strings.
From S2P Require Import Prelude Int64 IndexInterval Transform TransformArray Dimensions.
From S2P Require Import GridPartition GridSets GridArrays GridBuckets GridUpdate GridCells GridTransform.
From S2P Require Import GridIterator GridOdometer GridRuns GridIteration GridVisits.

(** * Regular grids on a finite domain *)

Definition regular_outputb (shape : list Z) (g : nat) (y : Z) : bool :=
  let s := shape !!! g in
  IsFiniteIndex y && (0 <? s) && (s <=? kMaxFiniteIndex) && (-kInfIndex <=? y / s * s) &&
  (y / s * s + s <=? kInfIndex + 1).

(** Whether every output of the positions of the domain is one that the grid covers. *)
Definition regular_outputsb (t : TransformRep) (gods : list nat) (shape : list Z) : bool :=
  forallb (fun g => forallb (fun x =>
      match output_index (grid_map t gods g) x with Ok y => regular_outputb shape g y | Err _ => true end)
    (index_vectors (input_domain t))) (seq 0 (length gods)).

Lemma regular_outputs_laws t gods shape :
  regular_outputsb t gods shape = true ->
  GridLaws (RegularGridRef shape) (GetCellOutputInterval shape) (grid_output t gods).
Proof.
  intros H. apply regular_grid_laws. intros g y (Hg & x & Hx & Hy). unfold regular_outputsb in H.
  rewrite forallb_forall in H. specialize (H g). rewrite forallb_forall in H.
  assert (Hin : List.In g (seq 0 (length gods))) by (apply in_seq; lia).
  specialize (H Hin x (proj1 (list_elem_of_In _ _) (proj2 (elem_of_index_vectors _ _) Hx))). rewrite Hy in H.
  unfold regular_outputb in H. bool_to_prop. auto.
Qed.

Definition in_cellb (t : TransformRep) (gods : list nat) (f : OutputToGridCellFn) (c x : list Z) : bool :=
  forallb (fun g => match output_index (grid_map t gods g) x with Ok y => (f g y).1 =? c !!! g | Err _ => false end)
    (seq 0 (length gods)).

Lemma in_cellb_spec t gods f c x : in_cellb t gods f c x = true <-> in_cell t gods f c x.
Proof.
  unfold in_cellb, in_cell. rewrite forallb_forall. split.
  - intros H g Hg. specialize (H g). destruct (output_index (grid_map t gods g) x) as [y|].
    + exists y. split; [reflexivity|]. apply Z.eqb_eq, H, in_seq. lia.
    + discriminate H. apply in_seq. lia.
  - intros H g Hg%in_seq. destruct (H g) as (y & -> & E); [lia|]. apply Z.eqb_eq, E.
Qed.

(** * Cell transforms *)

(** C7: partition of a transform by a grid.  Take a cell that some position of the domain is
    mapped to.  [GetCellTransform] succeeds, and its result maps a position of its domain to
    exactly the positions of the transform's domain that are in the cell, each of them from
    exactly one position.  The premises: no two connected sets have an input dimension in
    common, the grid's laws hold for the outputs of the domain, and the preimages of the cell
    under the maps of one input dimension can be represented. *)
Theorem GetCellTransform_correct t gods f interval_of info c x0 :
  WellFormed t -> (input_rank t <= 32)%nat -> Forall (fun o => (o < output_rank t)%nat) gods ->
  (length gods <= 32)%nat -> inputs_disjoint (ForEachConnectedSet gods t) ->
  PrePartitionIndexTransformOverGrid t gods f = Ok info ->
  GridLaws f interval_of (grid_output t gods) ->
  in_box (input_domain t) x0 -> in_cell t gods f c x0 ->
  (forall g d, (g < length gods)%nat -> method (grid_map t gods g) = single_input_dimension d ->
     is_ok (GetAffineTransformDomain (interval_of g (c !!! g)) (offset (grid_map t gods g))
       (stride (grid_map t gods g))) = true) ->
  exists ct, GetCellTransform info t c gods interval_of = Ok ct /\
    forall x,
      (in_box (input_domain t) x /\ in_cell t gods f c x <->
       exists y, in_box (input_domain ct) y /\ TransformIndices ct y = Ok x) /\
      (forall y y', in_box (input_domain ct) y -> in_box (input_domain ct) y' ->
         TransformIndices ct y = Ok x -> TransformIndices ct y' = Ok x -> y = y').
Proof.
  intros HW Hr Hg Hgr Hd Hi Hl Hx Hc Hp. eexists. split.
  - eapply GetCellTransform_ct; eassumption.
  - intros x. eapply cell_bijection; eassumption.
Qed.

Definition plain_dimension (a n : Z) : IndexDomainDimension :=
  MkDimension (MkOI (MkInterval a n) false false) EmptyString.
Definition plain_array (l strides : list Z) : OutputIndexMap :=
  MkOutputIndexMap (array (MkIndexArrayData (fun z => l !!! Z.to_nat (z / 8)) Infinite strides)) 0 1.

(** An index array over the first dimension, and the last dimension backwards. *)
Definition example_transform : TransformRep :=
  MkTransform [plain_dimension 0 4; plain_dimension 0 3; plain_dimension 2 5]
    [plain_array [5; 1; 7; 2] [8; 0; 0]; MkOutputIndexMap (single_input_dimension 2) 1 (-3)].

Lemma GetCellTransform_correct_witness :
  exists info ct,
    PrePartitionIndexTransformOverGrid example_transform [0%nat; 1%nat] (RegularGridRef [3; 4]) = Ok info /\
    GetCellTransform info example_transform [0; -3] [0%nat; 1%nat] (GetCellOutputInterval [3; 4]) = Ok ct /\
    (exists y, in_box (input_domain ct) y /\ TransformIndices ct y = Ok [3; 2; 4]) /\
    ~ (exists y, in_box (input_domain ct) y /\ TransformIndices ct y = Ok [2; 2; 4]).
Proof.
  destruct (PrePartitionIndexTransformOverGrid example_transform [0%nat; 1%nat] (RegularGridRef [3; 4]))
    as [info|] eqn:Hinfo; [|vm_compute in Hinfo; discriminate].
  assert (Hbox : forall x, x ∈ index_vectors (input_domain example_transform) -> in_box (input_domain example_transform) x)
    by (intros x; apply elem_of_index_vectors).
  destruct (GetCellTransform_correct example_transform [0%nat; 1%nat] (RegularGridRef [3; 4])
    (GetCellOutputInterval [3; 4]) info [0; -3] [1; 0; 4]) as (ct & Hct & H).
  - apply WellFormedb_spec. vm_compute. reflexivity.
  - cbn. lia.
  - repeat constructor.
  - cbn. lia.
  - apply inputs_disjointb_spec. vm_compute. reflexivity.
  - exact Hinfo.
  - apply regular_outputs_laws. vm_compute. reflexivity.
  - apply Hbox. apply list_elem_of_In. vm_compute. tauto.
  - apply in_cellb_spec. vm_compute. reflexivity.
  - intros [|[|g]] d Hg Hm; [discriminate Hm|vm_compute; reflexivity|cbn in Hg; lia].
  - exists info, ct. split; [reflexivity|]. split; [exact Hct|]. split.
    + apply H. split; [apply Hbox, list_elem_of_In; vm_compute; tauto|].
      apply in_cellb_spec. vm_compute. reflexivity.
    + intros Hy. apply H in Hy as [_ Hy]. apply in_cellb_spec in Hy. vm_compute in Hy. discriminate.
Defined.

(** * Iteration over the cells *)

(** C6: the iterator over the cells of a transform.  From [Init] on, with any initial cell
    indices, the loop [while (!AtEnd()) Advance()] ends without an error.  The cells that it
    visits are different from each other and are exactly the cells that positions of the domain
    are mapped to; the transform at each of them, which is modified in place, is the one that
    [GetCellTransform] makes for the cell.  The premises: those of [GetCellTransform] for all
    cells, a domain that is not empty, and no index array that does not depend on its inputs. *)
Theorem PartitionIndexTransformIterator_correct t gods f interval_of info initial_indices :
  WellFormed t -> (input_rank t <= 32)%nat -> Forall (fun o => (o < output_rank t)%nat) gods ->
  (length gods <= 32)%nat -> inputs_disjoint (ForEachConnectedSet gods t) ->
  PrePartitionIndexTransformOverGrid t gods f = Ok info ->
  GridLaws f interval_of (grid_output t gods) ->
  Forall (fun x => 0 < size x) (input_domain t) ->
  (forall g d y, grid_output t gods g y -> method (grid_map t gods g) = single_input_dimension d ->
     is_ok (GetAffineTransformDomain (interval_of g (f g y).1) (offset (grid_map t gods g))
       (stride (grid_map t gods g))) = true) ->
  (forall g, (g < length gods)%nat -> method (grid_map t gods g) = constant \/
     exists d, depends_on (grid_map t gods g) d) ->
  length initial_indices = length gods ->
  exists visited, visited_cells t gods f initial_indices = Ok visited /\ NoDup visited.*1 /\
    (forall c, c ∈ visited.*1 <-> length c = length gods /\
       exists x, in_box (input_domain t) x /\ in_cell t gods f c x) /\
    Forall (fun p => GetCellTransform info t p.1 gods interval_of = Ok p.2) visited.
Proof. intros HW Hr Hg Hgr Hd Hi Hl Hp Hpre Hc Hlen. eapply visited_cells_spec; eassumption. Qed.

(** Whether the preimages of all cells that are reached can be represented. *)
Definition preimagesb (t : TransformRep) (gods : list nat) (f : OutputToGridCellFn)
    (interval_of : nat -> Z -> IndexInterval) : bool :=
  forallb (fun g => forallb (fun x =>
      match output_index (grid_map t gods g) x, method (grid_map t gods g) with
      | Ok y, single_input_dimension _ =>
          is_ok (GetAffineTransformDomain (interval_of g (f g y).1) (offset (grid_map t gods g)) (stride (grid_map t gods g)))
      | _, _ => true
      end)
    (index_vectors (input_domain t))) (seq 0 (length gods)).

Lemma preimagesb_spec t gods f interval_of g d y :
  preimagesb t gods f interval_of = true -> grid_output t gods g y ->
  method (grid_map t gods g) = single_input_dimension d ->
  is_ok (GetAffineTransformDomain (interval_of g (f g y).1) (offset (grid_map t gods g))
    (stride (grid_map t gods g))) = true.
Proof.
  intros H (Hg & x & Hx & Hy) Hm. unfold preimagesb in H. rewrite forallb_forall in H.
  assert (Hin : List.In g (seq 0 (length gods))) by (apply in_seq; lia). specialize (H g Hin).
  rewrite forallb_forall in H. specialize (H x (proj1 (list_elem_of_In _ _) (proj2 (elem_of_index_vectors _ _) Hx))).
  rewrite Hy, Hm in H. exact H.
Qed.

Lemma PartitionIndexTransformIterator_correct_witness :
  exists visited, visited_cells example_transform [0%nat; 1%nat] (RegularGridRef [3; 4]) [77; 78] = Ok visited /\
    length visited = 12%nat /\ NoDup visited.*1 /\ ([1; -3] ∈ visited.*1) /\ ([3; -3] ∉ visited.*1).
Proof.
  destruct (PrePartitionIndexTransformOverGrid example_transform [0%nat; 1%nat] (RegularGridRef [3; 4]))
    as [info|] eqn:Hinfo; [|vm_compute in Hinfo; discriminate].
  destruct (PartitionIndexTransformIterator_correct example_transform [0%nat; 1%nat] (RegularGridRef [3; 4])
    (GetCellOutputInterval [3; 4]) info [77; 78]) as (visited & E & Hn & Hc & _).
  - apply WellFormedb_spec. vm_compute. reflexivity.
  - cbn. lia.
  - repeat constructor.
  - cbn. lia.
  - apply inputs_disjointb_spec. vm_compute. reflexivity.
  - exact Hinfo.
  - apply regular_outputs_laws. vm_compute. reflexivity.
  - repeat constructor.
  - intros g d y. apply preimagesb_spec. vm_compute. reflexivity.
  - intros [|[|g]] Hg; [right; exists 0%nat; vm_compute; discriminate|right; exists 2%nat; vm_compute; split; [reflexivity|discriminate]|
      cbn in Hg; lia].
  - reflexivity.
  - exists visited. split; [exact E|].
    assert (Hv : visited.*1 = [[0; -2]; [0; -3]; [0; -4]; [0; -5]; [1; -2]; [1; -3]; [1; -4]; [1; -5];
      [2; -2]; [2; -3]; [2; -4]; [2; -5]]).
    { assert (F : (match visited_cells example_transform [0%nat; 1%nat] (RegularGridRef [3; 4]) [77; 78] with
        | Ok l => l.*1 | Err _ => [] end) = visited.*1) by (rewrite E; reflexivity).
      rewrite <- F. vm_compute. reflexivity. }
    split; [rewrite <- (length_fmap fst), Hv; reflexivity|]. split; [exact Hn|]. split.
    + rewrite Hv. do 5 right. left.
    + rewrite Hv. clear. apply (bool_decide_unpack _). vm_compute. exact I.
Defined.

(** * Connected sets *)

(** C28: the sets of [ForEachConnectedSet].  Every set is connected ([connected]): from every
    grid dimension of the set a chain of its grid dimensions leads to every other, in which neighbours depend on a
    common input dimension ([linked]); the input dimensions of the set are exactly those on which its grid dimensions depend,
    and each of these has a dependency; the set has an array exactly when one of its maps is one, and without one it has a
    single input dimension that all of its maps read.  No grid dimension is in two sets, and every grid
    dimension with a dependency is in a set.  When every grid dimension depends on at most one
    input dimension, no two sets have an input dimension in common either; in general they can
    ([connected_sets_share_an_input]). *)
Theorem ForEachConnectedSet_correct t gods :
  WellFormed t -> (input_rank t <= 32)%nat -> Forall (fun o => (o < output_rank t)%nat) gods ->
  (length gods <= 32)%nat ->
  let sets := ForEachConnectedSet gods t in
  Forall (connected t gods) sets /\ grids_disjoint sets /\
  (forall g d, (g < length gods)%nat -> depends_on (grid_map t gods g) d ->
     exists c, c ∈ sets /\ test (grid_dims c) g = true) /\
  ((forall g d d', (g < length gods)%nat -> depends_on (grid_map t gods g) d ->
      depends_on (grid_map t gods g) d' -> d = d') -> inputs_disjoint sets).
Proof.
  intros HW Hr Hg Hgr sets. destruct (ForEachConnectedSet_spec t gods HW Hr Hg Hgr) as (H1 & H2 & H3).
  repeat split; [assumption..|]. apply single_dependencies_disjoint; assumption.
Qed.

(** The grid dimensions 0 and 1 are linked by the second input dimension, 1 and 2 by the first. *)
Definition diagonal_transform : TransformRep :=
  MkTransform [plain_dimension 0 2; plain_dimension 0 2]
    [identity_map 1; plain_array [0; 1; 1; 0] [16; 8]; identity_map 0].

Lemma ForEachConnectedSet_correct_witness :
  inputs_disjoint (ForEachConnectedSet [0%nat; 1%nat] example_transform) /\
  length (ForEachConnectedSet [0%nat; 1%nat] example_transform) = 2%nat /\
  linked (fun g => depends_on (grid_map diagonal_transform [0%nat; 1%nat; 2%nat] g)) (MkConnectedSet 3%N 7%N true) 0 1.
Proof.
  split; [|split; [vm_compute; reflexivity|]].
  2: {
    destruct (ForEachConnectedSet_correct diagonal_transform [0%nat; 1%nat; 2%nat]) as [H _].
    - apply WellFormedb_spec. vm_compute. reflexivity.
    - cbn. lia.
    - repeat constructor.
    - cbn. lia.
    - assert (E : ForEachConnectedSet [0%nat; 1%nat; 2%nat] diagonal_transform = [MkConnectedSet 3%N 7%N true])
        by (vm_compute; reflexivity).
      rewrite E in H. apply Forall_inv in H. apply (connected_linked _ _ _ H); reflexivity.
  }
  apply (ForEachConnectedSet_correct example_transform [0%nat; 1%nat]).
  - apply WellFormedb_spec. vm_compute. reflexivity.
  - cbn. lia.
  - repeat constructor.
  - cbn. lia.
  - intros [|[|g]] d d' Hg; [|intros [<- _] [<- _]; reflexivity|cbn in Hg; lia].
    assert (Hz : forall e, depends_on (grid_map example_transform [0%nat; 1%nat] 0) e -> e = 0%nat).
    { intros [|[|[|e]]] He; [reflexivity|exfalso; apply He; reflexivity..]. }
    intros Hd%Hz Hd'%Hz. congruence.
Defined.

(** The grid dimension 2 depends on both input dimensions, and it is added to the set of the
    input dimension 0 after the grid dimension 1 has been passed over: the input dimension 1 is
    then in two sets.  The cell transform that is made for them has too low a rank, and is
    written out of bounds. *)
Definition shared_transform : TransformRep :=
  MkTransform [plain_dimension 0 2; plain_dimension 0 2]
    [identity_map 0; identity_map 1; plain_array [0; 1; 1; 0] [16; 8]].

Lemma connected_sets_share_an_input :
  WellFormed shared_transform /\
  ForEachConnectedSet [0%nat; 1%nat; 2%nat] shared_transform =
    [MkConnectedSet 3%N 5%N true; MkConnectedSet 2%N 2%N false] /\
  exists info, PrePartitionIndexTransformOverGrid shared_transform [0%nat; 1%nat; 2%nat]
      (RegularGridRef [1; 1; 1]) = Ok info /\
    GetCellTransform info shared_transform [0; 0; 0] [0%nat; 1%nat; 2%nat]
      (GetCellOutputInterval [1; 1; 1]) = Err OutOfBounds.
Proof.
  split; [apply WellFormedb_spec; vm_compute; reflexivity|]. split; [vm_compute; reflexivity|].
  exists (match PrePartitionIndexTransformOverGrid shared_transform [0%nat; 1%nat; 2%nat] (RegularGridRef [1; 1; 1])
          with Ok info => info | Err _ => MkPartition [] [] end).
  split; vm_compute; reflexivity.
Qed.

(** The range of every map is checked by [PrePartitionIndexTransformOverGrid], but the preimage
    of a cell can be larger than the domain, and not be representable. *)
Definition far_transform : TransformRep :=
  MkTransform [plain_dimension 4611686018427387900 2]
    [MkOutputIndexMap (single_input_dimension 0) (-4611686018427387900) 1].

Lemma preimage_of_a_cell_fails :
  WellFormed far_transform /\
  is_ok (PrePartitionIndexTransformOverGrid far_transform [0%nat] (RegularGridRef [10])) = true /\
  output_index (grid_map far_transform [0%nat] 0) [4611686018427387901] = Ok 1 /\
  GetAffineTransformDomain (GetCellOutputInterval [10] 0 0) (-4611686018427387900) 1 = Err kInvalidArgument.
Proof. split; [apply WellFormedb_spec; vm_compute; reflexivity|]. vm_compute. auto. Qed.

(** * The partition of an index array set *)

(** The counting sort of the positions of an index array set.  The cells are listed once
    each, in lexicographic order.  The rows of the result are, for each cell in turn, the
    positions whose cell it is, in their original order, and the offset of a cell is the number
    of positions of the cells before it. *)
Theorem PartitionIndexArraySet_correct t dims rows n keys offsets cells :
  let vectors := index_vectors (partial_domain t dims) in
  length rows = length vectors -> n = Z.of_nat (length rows) ->
  PartitionIndexArraySetGridCellIndexVectors rows = (keys, offsets, cells) ->
  NoDup keys /\ StronglySorted lex_le keys /\ (forall v, v ∈ keys <-> v ∈ rows) /\
  length offsets = length keys /\
  GenerateIndexArraySetPartitionedInputIndices t dims rows cells n =
    (keys ≫= fun v => (filter (fun p => p.1 = v) (zip rows vectors)).*2) /\
  forall k v, keys !! k = Some v -> offsets !! k =
    Some (Z.of_nat (length (take k keys ≫= fun v => (filter (fun p => p.1 = v) (zip rows vectors)).*2))).
Proof.
  intros vectors Hl Hn H. destruct (partition_spec t dims rows n keys offsets cells Hl Hn H) as (-> & H1 & H2 & H3).
  split; [apply sorted_cells_NoDup|]. split; [apply sorted_cells_sorted|].
  split; [apply elem_of_sorted_cells|]. split; [exact H1|]. split; [exact H3|exact H2].
Qed.

Lemma PartitionIndexArraySet_correct_witness :
  let t := example_transform in
  let r := PartitionIndexArraySetGridCellIndexVectors [[1]; [0]; [2]; [0]] in
  GenerateIndexArraySetPartitionedInputIndices t 1%N [[1]; [0]; [2]; [0]] r.2 4 =
    [[1]; [3]; [0]; [2]] /\ NoDup r.1.1.
Proof.
  destruct (PartitionIndexArraySet_correct example_transform 1%N [[1]; [0]; [2]; [0]] 4
    [[0]; [1]; [2]] [0; 2; 3] (PartitionIndexArraySetGridCellIndexVectors [[1]; [0]; [2]; [0]]).2)
    as (H1 & _ & _ & _ & H2 & _); [vm_compute; reflexivity..|].
  split; [rewrite H2; vm_compute; reflexivity|exact H1].
Defined.

(** The binary search of [FindPartition] terminates; it returns the partition whose cell has
    the components of [cell_indices] at the grid dimensions of the set, or -1 when the set has no
    position in that cell. *)
Theorem FindPartition_correct set cell_indices :
  StronglySorted lex_le (grid_cell_indices set) ->
  Forall (fun v => length v = count (grid_dims (set_dims set)) /\ finite_indices v) (grid_cell_indices set) ->
  length (grid_cell_partition_offsets set) = length (grid_cell_indices set) ->
  finite_indices (cell_key set cell_indices) ->
  (FindPartition set cell_indices = -1 /\ (cell_key set cell_indices ∉ grid_cell_indices set)) \/
  exists k, grid_cell_indices set !! k = Some (cell_key set cell_indices) /\
    FindPartition set cell_indices = Z.of_nat k.
Proof. unfold count. intros H1 H2 H3 H4. exact (FindPartition_spec set cell_indices H1 H2 H3 H4). Qed.

Fixpoint sortedb (l : list (list Z)) : bool :=
  match l with [] => true | v :: l => forallb (lex_leb v) l && sortedb l end.
Lemma sortedb_spec l : sortedb l = true -> StronglySorted lex_le l.
Proof.
  induction l as [|v l IH]; cbn; [constructor|]. intros [H1 H2]%andb_true_iff. constructor; [auto|].
  apply Forall_forall. intros w Hw. rewrite forallb_forall in H1. apply H1, list_elem_of_In, Hw.
Qed.

Lemma finite_indicesb_spec n l :
  forallb (fun v => Nat.eqb (length v) n && forallb IsFiniteIndex v) l = true ->
  Forall (fun v => length v = n /\ finite_indices v) l.
Proof.
  rewrite forallb_forall. intros H. apply Forall_forall. intros v Hv%list_elem_of_In.
  apply H in Hv. apply andb_true_iff in Hv as [H1%Nat.eqb_eq H2]. split; [exact H1|].
  rewrite forallb_forall in H2. apply Forall_forall. intros z Hz%list_elem_of_In. auto.
Qed.

Lemma FindPartition_correct_witness :
  let set := MkIndexArraySet (MkConnectedSet 1%N 5%N true) [[-1; 4]; [0; 2]; [0; 7]] [[0]; [1]; [2]] [0; 1; 2] in
  (cell_key set [0; 9; 7] ∈ grid_cell_indices set) /\ FindPartition set [0; 9; 7] = 2.
Proof.
  intros set. destruct (FindPartition_correct set [0; 9; 7]) as [[H _]|(k & H & E)].
  - apply sortedb_spec. vm_compute. reflexivity.
  - apply finite_indicesb_spec. vm_compute. reflexivity.
  - reflexivity.
  - assert (H : Forall (fun v => length v = 2%nat /\ finite_indices v) [cell_key set [0; 9; 7]])
      by (apply finite_indicesb_spec; vm_compute; reflexivity).
    apply Forall_cons in H as [[_ H] _]. exact H.
  - vm_compute in H. discriminate.
  - split; [eapply list_elem_of_lookup_2, H|]. rewrite E.
    destruct k as [|[|[|k]]]; vm_compute in H; try discriminate. reflexivity.
Defined.
