(* ===== verification/IrregularGrid.v ===== *)
(** Irregular grids: [internal/irregular_grid.{h,cc}], the grid of the bounds of a list of
    domains. *)

From stdpp Require Import sorting.
From S2P Require Import Prelude Int64 IndexInterval Transform GridPartition GridTransform.

(** * Definitions *)

(** [std::unique]: one element of every run of equal elements. *)
Fixpoint unique (l : list Z) : list Z :=
  match l with
  | x :: (y :: _) as l' => if x =? y then unique l' else x :: unique l'
  | _ => l
  end.

Definition sort_unique (l : list Z) : list Z := unique (merge_sort Z.le l).

(** [std::upper_bound] on sorted points: the position of the first one that is greater. *)
Fixpoint upper_bound (points : list Z) (v : Z) : nat :=
  match points with
  | [] => 0
  | p :: points => if v <? p then 0 else S (upper_bound points v)
  end.

Record IrregularGrid := MkIrregularGrid {
  shape_ : list Z;
  inclusive_mins_ : list (list Z)
}.

(** The constructor: sort and remove duplicate grid points. *)
Definition NewIrregularGrid (inclusive_mins : list (list Z)) : IrregularGrid :=
  let mins := sort_unique <$> inclusive_mins in
  MkIrregularGrid ((fun points => Z.of_nat (length points) - 1) <$> mins) mins.

Definition grid_rank (grid : IrregularGrid) : nat := length (shape_ grid).

(** The number of the cell of an output index, -1 below the first point. *)
Definition point_cell (points : list Z) (output_index : Z) : Z :=
  Z.of_nat (upper_bound points output_index) - 1.

Definition cell_bounds (points : list Z) (cell : Z) : Result IndexInterval :=
  if cell <? 0 then
    first ← checked_at points 0;
    Ok (UncheckedHalfOpen (-kInfIndex) first)
  else
    point ← checked_at points (Z.to_nat cell);
    if cell <? Z.of_nat (length points) - 1 then
      next ← checked_at points (Z.to_nat (cell + 1));
      Ok (UncheckedHalfOpen point next)
    else Ok (UncheckedClosed point kInfIndex).

(** [operator()] without and with the output argument [cell_bounds]. *)
Definition grid_cell (grid : IrregularGrid) (dim : nat) (output_index : Z) : Result Z :=
  points ← checked_at (inclusive_mins_ grid) dim;
  Ok (point_cell points output_index).

Definition grid_cell_and_bounds (grid : IrregularGrid) (dim : nat) (output_index : Z)
    : Result (Z * IndexInterval) :=
  points ← checked_at (inclusive_mins_ grid) dim;
  let cell := point_cell points output_index in
  bounds ← cell_bounds points cell;
  Ok (cell, bounds).

(** The grid as the argument of the partition, on dimensions that it has. *)
Definition IrregularGridRef (grid : IrregularGrid) : OutputToGridCellFn :=
  fun dim output_index =>
    match grid_cell_and_bounds grid dim output_index with
    | Ok r => r
    | Err _ => (0, MkInterval 0 0)
    end.

(** The interval of a cell, for the transform of a cell alone. *)
Definition irregular_interval (grid : IrregularGrid) (dim : nat) (cell : Z) : IndexInterval :=
  match cell_bounds (inclusive_mins_ grid !!! dim) cell with
  | Ok bounds => bounds
  | Err _ => MkInterval 0 0
  end.

(** One dimension of one domain in [Make]. *)
Definition add_domain_points (d : list IndexInterval) (mins : list (list Z)) (i : nat)
    : Result (list (list Z)) :=
  x ← checked_at d i;
  points ← checked_at mins i;
  let points :=
    if bool_decide (last points = Some (inclusive_min x)) then points
    else points ++ [inclusive_min x] in
  Ok (<[i := points ++ [exclusive_max x]]> mins).

Definition Make (domains : list (list IndexInterval)) : Result IrregularGrid :=
  first ← checked_at domains 0;
  let rank := length first in
  inclusive_mins ← foldM (fun mins d => foldM (add_domain_points d) mins (seq 0 rank))
    (replicate rank []) domains;
  Ok (NewIrregularGrid inclusive_mins).

Definition cell_origin_at (grid : IrregularGrid) (i : nat) (x : Z) : Result Z :=
  extent ← checked_at (shape_ grid) i;
  if x <? 0 then Ok (-kInfIndex)
  else if extent <=? x then Ok kInfIndex
  else
    points ← checked_at (inclusive_mins_ grid) i;
    checked_at points (Z.to_nat x).

Definition cell_origin (grid : IrregularGrid) (indices : list Z) : Result (list Z) :=
  mapR (fun '(i, x) => cell_origin_at grid i x) (imap pair indices).

(** * Sorted points *)

Definition increasing (points : list Z) : Prop := StronglySorted Z.lt points.

Lemma elem_of_unique l p : p ∈ unique l <-> p ∈ l.
Proof.
  induction l as [|x [|y l] IH]; [reflexivity..|].
  change (unique (x :: y :: l)) with (if x =? y then unique (y :: l) else x :: unique (y :: l)).
  destruct (Z.eqb_spec x y) as [->|_].
  - rewrite IH, !elem_of_cons. tauto.
  - rewrite !(elem_of_cons _ p x), IH. reflexivity.
Qed.

Lemma unique_increasing l : StronglySorted Z.le l -> increasing (unique l).
Proof.
  unfold increasing. induction l as [|x [|y l] IH]; intros Hs; [constructor|repeat constructor|].
  apply StronglySorted_inv in Hs as [Hs Hx]. specialize (IH Hs).
  change (unique (x :: y :: l)) with (if x =? y then unique (y :: l) else x :: unique (y :: l)).
  destruct (Z.eqb_spec x y) as [->|Hne]; [exact IH|]. constructor; [exact IH|].
  apply Forall_forall. intros p Hp. rewrite elem_of_unique in Hp.
  apply StronglySorted_inv in Hs as [_ Hy]. apply Forall_cons in Hx as [Hxy Hx]. rewrite Forall_forall in Hy, Hx.
  apply elem_of_cons in Hp as [->|Hp]; [lia|]. specialize (Hy p Hp). lia.
Qed.

Lemma elem_of_sort_unique l p : p ∈ sort_unique l <-> p ∈ l.
Proof. unfold sort_unique. rewrite elem_of_unique, merge_sort_Permutation. reflexivity. Qed.

Lemma sort_unique_increasing l : increasing (sort_unique l).
Proof. apply unique_increasing, StronglySorted_merge_sort; apply _. Qed.

Lemma increasing_lookup points i j p q :
  increasing points -> points !! i = Some p -> points !! j = Some q -> (i < j)%nat -> p < q.
Proof.
  intros Hs. revert i j; induction Hs as [|x l Hs IH Hx]; intros i j Hi Hj Hlt; [discriminate|].
  destruct j as [|j]; [lia|]. destruct i as [|i]; cbn in Hi, Hj.
  - injection Hi as ->. rewrite Forall_forall in Hx. exact (Hx q (list_elem_of_lookup_2 _ _ _ Hj)).
  - apply (IH i j); [assumption..|lia].
Qed.

Lemma upper_bound_length points v : (upper_bound points v <= length points)%nat.
Proof. induction points as [|p points IH]; cbn; [lia|]. destruct (v <? p); lia. Qed.

(** The points before the upper bound are those that are not greater. *)
Lemma upper_bound_spec points v i p :
  increasing points -> points !! i = Some p -> (i < upper_bound points v)%nat <-> p <= v.
Proof.
  intros Hs. revert i; induction Hs as [|x l Hs IH Hx]; intros i Hi; [discriminate|]. cbn [upper_bound].
  destruct i as [|i]; cbn in Hi.
  - injection Hi as ->. destruct (Z.ltb_spec v p); lia.
  - destruct (Z.ltb_spec v x) as [Hv|Hv].
    + rewrite Forall_forall in Hx. specialize (Hx p (list_elem_of_lookup_2 _ _ _ Hi)). lia.
    + rewrite <- (IH i Hi). lia.
Qed.

(** A point separates the cells of the values on its two sides. *)
Lemma point_cell_separates points p v w :
  increasing points -> p ∈ points -> v < p -> p <= w -> point_cell points v < point_cell points w.
Proof.
  intros Hs [i Hi]%list_elem_of_lookup Hv Hw. unfold point_cell.
  pose proof (upper_bound_spec points v i p Hs Hi). pose proof (upper_bound_spec points w i p Hs Hi). lia.
Qed.

Lemma point_cell_mono points v w : increasing points -> v <= w -> point_cell points v <= point_cell points w.
Proof.
  intros Hs Hle. unfold point_cell. destruct (decide (upper_bound points v <= upper_bound points w)%nat) as [|H]; [lia|].
  pose proof (upper_bound_length points v).
  destruct (lookup_lt_is_Some_2 points (upper_bound points w)) as [p Hp]; [lia|].
  pose proof (upper_bound_spec points v _ p Hs Hp). pose proof (upper_bound_spec points w _ p Hs Hp). lia.
Qed.

Lemma point_cell_range points v : -1 <= point_cell points v < Z.of_nat (length points).
Proof. unfold point_cell. pose proof (upper_bound_length points v). lia. Qed.

(** * The bounds of a cell *)

Definition valid_points (points : list Z) : Prop :=
  increasing points /\ points <> [] /\ Forall (fun p => -kInfIndex <= p <= kInfIndex + 1) points.

(** The interval that [operator()] reports for a finite output index is valid, and its finite
    indices are those of the cell. *)
Lemma cell_bounds_spec points v :
  valid_points points -> IsFiniteIndex v = true ->
  exists b, cell_bounds points (point_cell points v) = Ok b /\ Valid b /\
    (forall w, IsFiniteIndex w = true -> Contains b w = true <-> point_cell points w = point_cell points v) /\
    (inclusive_min b = -kInfIndex \/ inclusive_min b ∈ points).
Proof.
  intros (Hs & Hne & Hr) Hv. apply IsFiniteIndex_spec in Hv. rewrite Forall_forall in Hr.
  pose proof (upper_bound_length points v) as Hub.
  assert (Hcell : point_cell points v = Z.of_nat (upper_bound points v) - 1) by reflexivity.
  pose proof (fun w => point_cell_range points w) as Hrange.
  set (n := upper_bound points v) in *.
  assert (Hnext : forall q w, points !! n = Some q -> w < q <-> point_cell points w <= point_cell points v).
  { intros q w Hq. rewrite Hcell. unfold point_cell. pose proof (upper_bound_spec points w n q Hs Hq). lia. }
  assert (Hthis : forall p w, points !! (n - 1)%nat = Some p -> (0 < n)%nat ->
    p <= w <-> point_cell points v <= point_cell points w).
  { intros p w Hp Hn. rewrite Hcell. unfold point_cell. pose proof (upper_bound_spec points w (n - 1) p Hs Hp). lia. }
  unfold cell_bounds. clearbody n. destruct (Z.ltb_spec (point_cell points v) 0) as [Hz|Hz].
  - destruct (lookup_lt_is_Some_2 points 0) as [p Hp]; [destruct points; [contradiction|cbn; lia]|].
    rewrite (checked_at_Some _ _ _ Hp), Ok_bind. assert (n = 0%nat) as -> by lia.
    pose proof (Hr p (list_elem_of_lookup_2 _ _ _ Hp)) as Hpr.
    pose proof (proj2 (Hnext p v Hp) ltac:(lia)) as Hvp.
    assert (E : UncheckedHalfOpen (-kInfIndex) p = MkInterval (-kInfIndex) (p + kInfIndex)).
    { unfold UncheckedHalfOpen. f_equal. unfold_i64. unwrap64. lia. }
    rewrite E. assert (HV : Valid (MkInterval (-kInfIndex) (p + kInfIndex))) by (unfold_valid; lia).
    eexists. split; [reflexivity|]. split; [exact HV|]. split; [|left; reflexivity].
    intros w Hw. apply IsFiniteIndex_spec in Hw. rewrite Contains_spec, inclusive_max_valid by exact HV. cbn [inclusive_min size].
    specialize (Hnext p w Hp). specialize (Hrange w). revert Hw. i64_lia.
  - destruct (lookup_lt_is_Some_2 points (n - 1)) as [p Hp]; [lia|].
    replace (Z.to_nat (point_cell points v)) with (n - 1)%nat by lia.
    replace (Z.to_nat (point_cell points v + 1)) with n by lia.
    rewrite (checked_at_Some _ _ _ Hp), Ok_bind. pose proof (Hr p (list_elem_of_lookup_2 _ _ _ Hp)) as Hpr.
    pose proof (proj2 (Hthis p v Hp ltac:(lia)) ltac:(lia)) as Hpv.
    destruct (Z.ltb_spec (point_cell points v) (Z.of_nat (length points) - 1)) as [Hlt|Hlast].
    + destruct (lookup_lt_is_Some_2 points n) as [q Hq]; [lia|]. rewrite (checked_at_Some _ _ _ Hq), Ok_bind.
      pose proof (Hr q (list_elem_of_lookup_2 _ _ _ Hq)) as Hqr.
      pose proof (proj2 (Hnext q v Hq) ltac:(lia)) as Hvq.
      assert (E : UncheckedHalfOpen p q = MkInterval p (q - p)).
      { unfold UncheckedHalfOpen. f_equal. unfold_i64. unwrap64. lia. }
      rewrite E. assert (HV : Valid (MkInterval p (q - p))) by (unfold_valid; lia).
      eexists. split; [reflexivity|]. split; [exact HV|]. split; [|right; exact (list_elem_of_lookup_2 _ _ _ Hp)].
      intros w Hw. apply IsFiniteIndex_spec in Hw. rewrite Contains_spec, inclusive_max_valid by exact HV. cbn [inclusive_min size].
      specialize (Hnext q w Hq). specialize (Hthis p w Hp ltac:(lia)). lia.
    + assert (E : UncheckedClosed p kInfIndex = MkInterval p (kInfIndex - p + 1)) by (apply UncheckedClosed_eq; i64_lia).
      rewrite E. assert (HV : Valid (MkInterval p (kInfIndex - p + 1))) by (unfold_valid; lia).
      eexists. split; [reflexivity|]. split; [exact HV|]. split; [|right; exact (list_elem_of_lookup_2 _ _ _ Hp)].
      intros w Hw. apply IsFiniteIndex_spec in Hw. rewrite Contains_spec, inclusive_max_valid by exact HV. cbn [inclusive_min size].
      specialize (Hthis p w Hp ltac:(lia)). specialize (Hrange w). revert Hw. i64_lia.
Qed.

(** * Grids *)

Definition valid_grid (grid : IrregularGrid) : Prop :=
  Forall valid_points (inclusive_mins_ grid) /\
  shape_ grid = (fun points => Z.of_nat (length points) - 1) <$> inclusive_mins_ grid.

Lemma grid_cell_at grid i points :
  inclusive_mins_ grid !! i = Some points -> forall y, grid_cell grid i y = Ok (point_cell points y).
Proof. intros H y. unfold grid_cell. rewrite (checked_at_Some _ _ _ H). reflexivity. Qed.

Lemma valid_grid_points grid i points :
  valid_grid grid -> inclusive_mins_ grid !! i = Some points -> valid_points points.
Proof. intros [H _]. rewrite Forall_lookup in H. exact (H i points). Qed.

(** [operator()] with the bounds of the cell. *)
Lemma grid_cell_and_bounds_spec grid i points y :
  valid_grid grid -> inclusive_mins_ grid !! i = Some points -> IsFiniteIndex y = true ->
  exists b, grid_cell_and_bounds grid i y = Ok (point_cell points y, b) /\
    cell_bounds points (point_cell points y) = Ok b /\ Valid b /\
    (forall w, IsFiniteIndex w = true -> Contains b w = true <-> point_cell points w = point_cell points y) /\
    (inclusive_min b = -kInfIndex \/ inclusive_min b ∈ points).
Proof.
  intros Hg Hp Hy. destruct (cell_bounds_spec points y (valid_grid_points _ _ _ Hg Hp) Hy) as (b & E & H).
  exists b. split; [|auto]. unfold grid_cell_and_bounds. rewrite (checked_at_Some _ _ _ Hp), Ok_bind, E. reflexivity.
Qed.

(** An irregular grid keeps the promises of a grid to the partition. *)
Lemma irregular_grid_laws grid (reached : nat -> Z -> Prop) :
  valid_grid grid -> Forall (fun points => Z.of_nat (length points) <= kMaxFiniteIndex) (inclusive_mins_ grid) ->
  (forall g y, reached g y -> (g < length (inclusive_mins_ grid))%nat /\ IsFiniteIndex y = true) ->
  GridLaws (IrregularGridRef grid) (irregular_interval grid) reached.
Proof.
  intros Hg Hlen Hr. rewrite Forall_lookup in Hlen.
  assert (H : forall g y, reached g y -> IsFiniteIndex y = true /\ exists points b,
    inclusive_mins_ grid !! g = Some points /\ IrregularGridRef grid g y = (point_cell points y, b) /\
    irregular_interval grid g (point_cell points y) = b /\ Valid b /\
    forall w, IsFiniteIndex w = true -> Contains b w = true <-> point_cell points w = point_cell points y).
  { intros g y (Hlt & Hy)%Hr. split; [exact Hy|]. destruct (lookup_lt_is_Some_2 _ _ Hlt) as [points Hp].
    destruct (grid_cell_and_bounds_spec grid g points y Hg Hp Hy) as (b & E & Eb & HV & HC & _).
    exists points, b. split; [exact Hp|]. unfold IrregularGridRef, irregular_interval. rewrite E.
    rewrite (list_lookup_total_correct _ _ _ Hp), Eb. auto. }
  split.
  - intros g y Hy. destruct (H g y Hy) as (_ & points & b & Hp & -> & _). cbn [fst].
    specialize (Hlen g points Hp). pose proof (point_cell_range points y). apply IsFiniteIndex_spec. revert Hlen. i64_lia.
  - intros g y Hy. destruct (H g y Hy) as (_ & points & b & Hp & -> & E & _). cbn [fst snd]. congruence.
  - intros g y Hy. destruct (H g y Hy) as (_ & points & b & Hp & -> & E & HV & _). cbn [fst]. rewrite E. exact HV.
  - intros g y y' Hy Hy'. destruct (H g y Hy) as (_ & points & b & Hp & -> & E & _ & HC).
    destruct (H g y' Hy') as (Hf & points' & b' & Hp' & -> & _). cbn [fst] in *. rewrite E.
    assert (points' = points) as -> by congruence. apply HC, Hf.
Qed.

(** * Construction from domains *)

Definition valid_domains (rank : nat) (domains : list (list IndexInterval)) : Prop :=
  Forall (fun d => length d = rank /\ Forall Valid d) domains.

(** The points of dimension [i]: the bounds of the domains. *)
Definition bound_of (domains : list (list IndexInterval)) (i : nat) (p : Z) : Prop :=
  exists d, d ∈ domains /\ (p = inclusive_min (d !!! i) \/ p = exclusive_max (d !!! i)).

Lemma add_domain_points_spec d mins i x points :
  d !! i = Some x -> mins !! i = Some points ->
  exists points', add_domain_points d mins i = Ok (<[i := points']> mins) /\
    forall p, p ∈ points' <-> p ∈ points \/ p = inclusive_min x \/ p = exclusive_max x.
Proof.
  intros Hx Hp. unfold add_domain_points. rewrite (checked_at_Some _ _ _ Hx), Ok_bind, (checked_at_Some _ _ _ Hp), Ok_bind.
  eexists. split; [reflexivity|]. intros p. case_bool_decide as Hl.
  - apply last_Some_elem_of in Hl. rewrite elem_of_app, list_elem_of_singleton.
    split; [tauto|]. intros [H|[->|H]]; auto.
  - rewrite !elem_of_app, !list_elem_of_singleton. tauto.
Qed.

(** One domain adds its bounds to the points of every dimension. *)
Lemma add_domain_spec d mins : length d = length mins ->
  exists mins', foldM (add_domain_points d) mins (seq 0 (length mins)) = Ok mins' /\ length mins' = length mins /\
    forall i points, mins !! i = Some points -> exists points', mins' !! i = Some points' /\
      forall p, p ∈ points' <-> p ∈ points \/ p = inclusive_min (d !!! i) \/ p = exclusive_max (d !!! i).
Proof.
  intros Hl.
  enough (H : forall n, (n <= length mins)%nat ->
    exists mins', foldM (add_domain_points d) mins (seq 0 n) = Ok mins' /\ length mins' = length mins /\
    (forall i, (n <= i)%nat -> mins' !! i = mins !! i) /\
    forall i points, (i < n)%nat -> mins !! i = Some points -> exists points', mins' !! i = Some points' /\
      forall p, p ∈ points' <-> p ∈ points \/ p = inclusive_min (d !!! i) \/ p = exclusive_max (d !!! i)).
  { destruct (H (length mins) ltac:(lia)) as (mins' & E & El & _ & Hp). exists mins'. split; [exact E|].
    split; [exact El|]. intros i points Hi. exact (Hp i points (lookup_lt_Some _ _ _ Hi) Hi). }
  induction n as [|n IH]; intros Hn.
  { exists mins. split; [reflexivity|]. split; [reflexivity|]. split; [reflexivity|]. intros; lia. }
  destruct IH as (mins' & E & El & Hrest & Hdone); [lia|].
  destruct (lookup_lt_is_Some_2 d n) as [x Hx]; [lia|]. destruct (lookup_lt_is_Some_2 mins n) as [points Hp]; [lia|].
  destruct (add_domain_points_spec d mins' n x points Hx) as (points' & Es & Hps); [rewrite Hrest by lia; exact Hp|].
  exists (<[n := points']> mins'). rewrite seq_S, foldM_app, E. cbn [foldM mbind Result_bind Nat.add]. rewrite Es.
  split; [reflexivity|]. split; [rewrite length_insert; exact El|]. split.
  - intros i Hi. rewrite list_lookup_insert_ne by lia. apply Hrest. lia.
  - intros i ps Hi Hips. destruct (decide (i = n)) as [->|Hne].
    + exists points'. rewrite list_lookup_insert_eq by lia. split; [reflexivity|].
      assert (ps = points) as -> by congruence. rewrite (list_lookup_total_correct _ _ _ Hx). exact Hps.
    + rewrite list_lookup_insert_ne by lia. apply Hdone; [lia|exact Hips].
Qed.

Lemma Make_spec rank domains : valid_domains rank domains -> domains <> [] ->
  exists grid, Make domains = Ok grid /\ valid_grid grid /\ length (inclusive_mins_ grid) = rank /\
    forall i points, inclusive_mins_ grid !! i = Some points -> forall p, p ∈ points <-> bound_of domains i p.
Proof.
  intros Hd Hne. unfold valid_domains in Hd.
  enough (H : forall done, done `prefix_of` domains -> exists mins,
    foldM (fun mins d => foldM (add_domain_points d) mins (seq 0 rank)) (replicate rank []) done = Ok mins /\
    length mins = rank /\ forall i points, mins !! i = Some points -> forall p, p ∈ points <-> bound_of done i p).
  { destruct (H domains) as (mins & E & El & Hp); [reflexivity|].
    destruct domains as [|d0 domains]; [contradiction|]. pose proof (Forall_inv Hd) as [Hl0 _].
    exists (NewIrregularGrid mins). split; [unfold Make; cbn [checked_at lookup list_lookup]; rewrite Ok_bind, Hl0, E; reflexivity|].
    assert (Hmem : forall i points, (sort_unique <$> mins) !! i = Some points ->
      forall p, p ∈ points <-> bound_of (d0 :: domains) i p).
    { intros i points Hi p. rewrite list_lookup_fmap in Hi. apply fmap_Some in Hi as (l & Hl & ->).
      rewrite elem_of_sort_unique. exact (Hp i l Hl p). }
    split; [|split; [cbn; rewrite length_fmap; exact El|exact Hmem]]. split; [|reflexivity]. cbn [NewIrregularGrid inclusive_mins_].
    apply Forall_lookup. intros i points Hi. specialize (Hmem i points Hi).
    assert (Hi' : (i < rank)%nat) by (rewrite <- El; apply lookup_lt_Some in Hi; rewrite length_fmap in Hi; exact Hi).
    split; [|split].
    - rewrite list_lookup_fmap in Hi. apply fmap_Some in Hi as (l & _ & ->). apply sort_unique_increasing.
    - intros ->. destruct (not_elem_of_nil (inclusive_min (d0 !!! i))). apply Hmem. exists d0. split; [left|left; reflexivity].
    - apply Forall_forall. intros p (d & Hin & Hb)%Hmem. rewrite Forall_forall in Hd. destruct (Hd d Hin) as [Hld HV].
      destruct (lookup_lt_is_Some_2 d i) as [x Hx]; [lia|]. rewrite Forall_lookup in HV. specialize (HV i x Hx).
      rewrite (list_lookup_total_correct _ _ _ Hx) in Hb. rewrite exclusive_max_valid in Hb by exact HV.
      unfold_valid. lia. }
  intros done. induction done as [|d done IH] using rev_ind; intros Hpre.
  { exists (replicate rank []). split; [reflexivity|]. split; [apply length_replicate|].
    intros i points [-> _]%lookup_replicate p. split; [intros []%not_elem_of_nil|].
    intros (d & []%not_elem_of_nil & _). }
  destruct IH as (mins & E & El & Hp). { etransitivity; [|exact Hpre]. exists [d]. reflexivity. }
  assert (Hin : d ∈ domains) by (apply (elem_of_prefix (done ++ [d])); [apply elem_of_app; right; left|exact Hpre]).
  rewrite Forall_forall in Hd. destruct (Hd d Hin) as [Hld _].
  destruct (add_domain_spec d mins) as (mins' & Es & El' & Hp'); [congruence|].
  exists mins'. rewrite foldM_app, E. cbn [foldM mbind Result_bind]. rewrite <- El, Es.
  split; [reflexivity|]. split; [congruence|]. intros i points Hi p.
  destruct (lookup_lt_is_Some_2 mins i) as [old Hold]; [rewrite <- El'; eapply lookup_lt_Some, Hi|].
  destruct (Hp' i old Hold) as (new & Hnew & Hiff). assert (new = points) as -> by congruence.
  rewrite Hiff, (Hp i old Hold). unfold bound_of. setoid_rewrite elem_of_app. setoid_rewrite list_elem_of_singleton.
  split; [intros [(d' & Hd' & Hb)|Hb]; eauto|]. intros (d' & [Hd'| ->] & Hb); [left; eauto|right; exact Hb].
Qed.

(** * Domains and cells *)

(** A domain whose bounds are points contains exactly the indices of a range of cells. *)
Lemma domain_cells points x y :
  increasing points -> Valid x -> inclusive_min x ∈ points -> exclusive_max x ∈ points -> IsFiniteIndex y = true ->
  Contains x y = true <->
  point_cell points (inclusive_min x) <= point_cell points y <= point_cell points (inclusive_max x).
Proof.
  intros Hs HV Hmin Hmax Hy. apply IsFiniteIndex_spec in Hy. rewrite Contains_spec by exact HV.
  rewrite exclusive_max_valid in Hmax by exact HV. rewrite inclusive_max_valid by exact HV.
  split.
  - intros [_ H]. split; apply point_cell_mono; try assumption; lia.
  - intros [H1 H2]. split; [exact Hy|]. split.
    + destruct (decide (inclusive_min x <= y)) as [|Hn]; [assumption|].
      pose proof (point_cell_separates points _ y (inclusive_min x) Hs Hmin ltac:(lia) ltac:(lia)). lia.
    + destruct (decide (y <= inclusive_min x + size x - 1)) as [|Hn]; [assumption|].
      pose proof (point_cell_separates points _ (inclusive_min x + size x - 1) y Hs Hmax ltac:(lia) ltac:(lia)). lia.
Qed.

Section Domains.
Variables (rank : nat) (domains : list (list IndexInterval)) (grid : IrregularGrid).
Hypothesis Hdomains : valid_domains rank domains.
Hypothesis Hnonempty : domains <> [].
Hypothesis Hmake : Make domains = Ok grid.

Lemma made_valid : valid_grid grid.
Proof. destruct (Make_spec rank domains Hdomains Hnonempty) as (g & E & H & _). congruence. Qed.

Lemma made_rank : length (inclusive_mins_ grid) = rank.
Proof. destruct (Make_spec rank domains Hdomains Hnonempty) as (g & E & _ & H & _). congruence. Qed.

Lemma made_points i points : inclusive_mins_ grid !! i = Some points ->
  forall p, p ∈ points <-> bound_of domains i p.
Proof. destruct (Make_spec rank domains Hdomains Hnonempty) as (g & E & _ & _ & H). assert (g = grid) as -> by congruence. apply H. Qed.

Lemma domain_at d i : d ∈ domains -> (i < rank)%nat -> Valid (d !!! i).
Proof.
  intros Hd Hi. unfold valid_domains in Hdomains. rewrite Forall_forall in Hdomains. destruct (Hdomains d Hd) as [Hl HV].
  destruct (lookup_lt_is_Some_2 d i) as [x Hx]; [lia|]. rewrite (list_lookup_total_correct _ _ _ Hx).
  rewrite Forall_lookup in HV. exact (HV i x Hx).
Qed.

Lemma made_domain_cells d i points y :
  d ∈ domains -> inclusive_mins_ grid !! i = Some points -> IsFiniteIndex y = true ->
  Contains (d !!! i) y = true <->
  point_cell points (inclusive_min (d !!! i)) <= point_cell points y <= point_cell points (inclusive_max (d !!! i)).
Proof.
  intros Hd Hp Hy. apply domain_cells; try assumption.
  - apply (valid_grid_points grid i points made_valid Hp).
  - apply domain_at; [exact Hd|]. rewrite <- made_rank. exact (lookup_lt_Some _ _ _ Hp).
  - apply (made_points i points Hp). exists d. auto.
  - apply (made_points i points Hp). exists d. auto.
Qed.
End Domains.

(** C17: the grid of a list of domains.  [Make] succeeds; in every dimension each finite index has
    a cell, whose reported interval holds exactly the finite indices of the cell.  No domain
    divides a cell: it contains all indices of the cell or none, and none of those outside the
    shape of the grid.  Every cell begins at a bound of some domain, which is what [cell_origin]
    reports, except the cell that is unbounded below. *)
Theorem IrregularGrid_correct rank domains i :
  valid_domains rank domains -> domains <> [] -> (i < rank)%nat ->
  exists grid extent, Make domains = Ok grid /\ shape_ grid !! i = Some extent /\
    forall y, IsFiniteIndex y = true -> exists cell b,
      grid_cell_and_bounds grid i y = Ok (cell, b) /\ grid_cell grid i y = Ok cell /\
      -1 <= cell <= extent /\
      (forall y', IsFiniteIndex y' = true -> Contains b y' = true <-> grid_cell grid i y' = Ok cell) /\
      (forall y' d, IsFiniteIndex y' = true -> grid_cell grid i y' = Ok cell -> d ∈ domains ->
         Contains (d !!! i) y' = Contains (d !!! i) y) /\
      (cell < 0 \/ extent <= cell -> forall d, d ∈ domains -> Contains (d !!! i) y = false) /\
      (inclusive_min b = -kInfIndex \/ bound_of domains i (inclusive_min b)) /\
      (0 <= cell < extent -> cell_origin_at grid i cell = Ok (inclusive_min b)).
Proof.
  intros Hd Hne Hi. destruct (Make_spec rank domains Hd Hne) as (grid & Hm & Hg & Hl & Hpts).
  destruct (lookup_lt_is_Some_2 (inclusive_mins_ grid) i) as [points Hp]; [lia|].
  pose proof (valid_grid_points _ _ _ Hg Hp) as (Hs & _).
  exists grid, (Z.of_nat (length points) - 1). split; [exact Hm|].
  assert (Hsh : shape_ grid !! i = Some (Z.of_nat (length points) - 1))
    by (destruct Hg as [_ ->]; rewrite list_lookup_fmap, Hp; reflexivity).
  split; [exact Hsh|]. intros y Hy.
  destruct (grid_cell_and_bounds_spec grid i points y Hg Hp Hy) as (b & E & Eb & HV & HC & Hmin).
  pose proof (point_cell_range points y) as Hr. pose proof (grid_cell_at grid i points Hp) as Hcell.
  pose proof (fun d v Hin Hv => made_domain_cells rank domains grid Hd Hne Hm d i points v Hin Hp Hv) as Hdom.
  exists (point_cell points y), b. split; [exact E|]. split; [apply Hcell|]. split; [lia|]. split; [|split; [|split; [|split]]].
  - intros y' Hy'. rewrite Hcell, (HC y' Hy'). split; [intros ->; reflexivity|intros [= ->]; reflexivity].
  - intros y' d Hy'. rewrite Hcell. intros [= Ec] Hin. apply eq_true_iff_eq. rewrite (Hdom d y' Hin Hy'), (Hdom d y Hin Hy), Ec.
    reflexivity.
  - intros Hout d Hin. apply not_true_is_false. rewrite (Hdom d y Hin Hy).
    assert (Hb : bound_of domains i (inclusive_min (d !!! i)) /\ bound_of domains i (exclusive_max (d !!! i)))
      by (split; exists d; auto). rewrite <- !(Hpts i points Hp) in Hb. destruct Hb as [Hb1 Hb2].
    rewrite exclusive_max_valid in Hb2 by (apply (domain_at rank domains Hd); assumption).
    rewrite inclusive_max_valid by (apply (domain_at rank domains Hd); assumption).
    set (lo := inclusive_min (d !!! i)) in *. set (hi := lo + size (d !!! i)) in *.
    pose proof (point_cell_separates points lo (lo - 1) lo Hs Hb1 ltac:(lia) ltac:(lia)).
    pose proof (point_cell_separates points hi (hi - 1) hi Hs Hb2 ltac:(lia) ltac:(lia)).
    pose proof (point_cell_range points (lo - 1)). pose proof (point_cell_range points hi). lia.
  - destruct Hmin as [Hmin|Hmin]; [left; exact Hmin|right]. apply (Hpts i points Hp), Hmin.
  - intros Hin. unfold cell_origin_at. rewrite (checked_at_Some _ _ _ Hsh), Ok_bind.
    rewrite (proj2 (Z.ltb_ge _ _)), (proj2 (Z.leb_gt _ _)) by lia. rewrite (checked_at_Some _ _ _ Hp), Ok_bind.
    unfold cell_bounds in Eb. rewrite (proj2 (Z.ltb_ge _ _)) in Eb by lia.
    destruct (checked_at points (Z.to_nat (point_cell points y))) as [p|] eqn:Ep; [|discriminate].
    rewrite Ok_bind in Eb. rewrite (proj2 (Z.ltb_lt _ _)) in Eb by lia.
    apply bind_Ok in Eb as (q & _ & [= <-]). reflexivity.
Qed.

Lemma IrregularGrid_correct_witness :
  let domains := [[MkInterval 0 10]; [MkInterval 5 10]; [MkInterval (-kInfIndex) (kInfIndex + 3)]] in
  exists grid, Make domains = Ok grid /\ shape_ grid = [5] /\
    grid_cell_and_bounds grid 0 7 = Ok (3, MkInterval 5 5) /\
    (forall y', IsFiniteIndex y' = true -> Contains (MkInterval 5 5) y' = true <-> grid_cell grid 0 y' = Ok 3).
Proof.
  intros domains. destruct (IrregularGrid_correct 1 domains 0) as (grid & extent & E & Hs & H).
  - repeat constructor; unfold Valid; cbn; i64_lia.
  - discriminate.
  - lia.
  - injection E as <-. destruct (H 7 eq_refl) as (cell & b & Eb & _ & _ & Hc & _).
    injection Eb as <- <-. eexists. split; [reflexivity|]. split; [vm_compute; reflexivity|].
    split; [vm_compute; reflexivity|exact Hc].
Defined.
