(* ===== verification/StackDriver.v ===== *)
(** The stack driver: [driver/stack/driver.cc].  Layers are overlaid on an irregular grid whose
    cells are mapped to the last layer that contains them; a read or write is partitioned by the
    grid and dispatched to the layers. *)

From stdpp Require Import gmap strings.
From S2P Require Import Prelude Int64 IndexInterval Transform TransformArray ComposeTransforms.
From S2P Require Import GridPartition GridIterator IrregularGrid.

(** * Read and write modes: [open_mode.{h,cc}] *)

Definition ReadWriteMode : Type := Z.
Definition mode_dynamic : ReadWriteMode := 0.
Definition mode_read : ReadWriteMode := 1.
Definition mode_write : ReadWriteMode := 2.
Definition mode_read_write : ReadWriteMode := 3.

Definition ValidateSupportsModes (mode required_modes : ReadWriteMode) : Result unit :=
  if negb (Z.land mode required_modes =? required_modes) then
    if negb (Z.land required_modes mode_read =? 0) && (Z.land mode mode_read =? 0) then Err kInvalidArgument
    else if negb (Z.land required_modes mode_write =? 0) && (Z.land mode mode_write =? 0) then Err kInvalidArgument
    else Ok tt
  else Ok tt.

(** * The mapping of grid cells to layers *)

(** The cells of a domain, as a box of cell indices. *)
Definition layer_cells (grid : IrregularGrid) (d : list IndexInterval) : Result (list IndexInterval) :=
  mapR (fun dim =>
      x ← checked_at d dim;
      start ← grid_cell grid dim (inclusive_min x);
      last ← grid_cell grid dim (inclusive_max x);
      Ok (MkInterval start (1 + last - start)))
    (seq 0 (grid_rank grid)).

(** One layer: all cells of its domain are set to it. *)
Definition map_layer (grid : IrregularGrid) (grid_to_layer : gmap (list Z) nat)
    (layer : nat * list IndexInterval) : Result (gmap (list Z) nat) :=
  box ← layer_cells grid layer.2;
  Ok (foldl (fun m key => <[key := layer.1]> m) grid_to_layer (index_vectors box)).

(** [StackDriver::InitializeGridIndices]; [layer_domain] is the domain of the driver. *)
Definition InitializeGridIndices (layer_domain : list IndexInterval) (domains : list (list IndexInterval))
    : Result (IrregularGrid * gmap (list Z) nat) :=
  grid ← Make (match domains with [] => [layer_domain] | _ => domains end);
  grid_to_layer ← foldM (map_layer grid) ∅ (imap pair domains);
  Ok (grid, grid_to_layer).

(** * Dispatching a request to the layers *)

Section Driver.
Context {AT : ArrayTransformer}.
(** The drivers of the layers, which are called through a virtual interface. *)
Context {Driver : Type}.

Record DriverHandle := MkDriverHandle {
  handle_driver : Driver;
  handle_mode : ReadWriteMode;
  handle_transform : TransformRep
}.

(** An open layer has a driver; the transform of the others is part of what is opened. *)
Record StackLayer := MkStackLayer {
  layer_transform : TransformRep;
  layer_driver : option (Driver * ReadWriteMode)
}.

(** A call of [Read] or [Write] on the driver of a layer: the transform of the request, and the
    transform from its positions to those of the request to the stack. *)
Record Dispatched := MkDispatched {
  dispatched_driver : Driver;
  composed_transform : TransformRep;
  dispatched_cell : TransformRep
}.

Section Request.
Variables (kMode : ReadWriteMode) (request_transform : TransformRep).

Definition ComposeAndDispatchOperation (driver_handle : DriverHandle) (cell_transform : TransformRep)
    : Result Dispatched :=
  _ ← ValidateSupportsModes (handle_mode driver_handle) kMode;
  a_transform ← ComposeTransforms request_transform cell_transform false;
  b_transform ← ComposeTransforms (handle_transform driver_handle) a_transform false;
  Ok (MkDispatched (handle_driver driver_handle) b_transform cell_transform).

(** [AfterOpenOp]: the calls for the cells of a layer that has been opened, up to the first
    error. *)
Fixpoint ComposeAndDispatch (handle : DriverHandle) (cells : list TransformRep)
    : list Dispatched * Result unit :=
  match cells with
  | [] => ([], Ok tt)
  | cell :: cells =>
      match ComposeAndDispatchOperation handle cell with
      | Err e => ([], Err e)
      | Ok d => let '(ds, status) := ComposeAndDispatch handle cells in (d :: ds, status)
      end
  end.

Definition AfterOpenOp (opened : Result DriverHandle) (cells : list TransformRep)
    : list Dispatched * Result unit :=
  match opened with
  | Err e => ([], Err e)
  | Ok handle => ComposeAndDispatch handle cells
  end.

(** What the loop over the cells has done: the calls to open layers and the cells of the layers
    to open. *)
Record OpenLayerState := MkOpenLayerState {
  dispatched : list Dispatched;
  layers_to_load : gmap nat (list TransformRep)
}.

Variables (layers : list StackLayer) (grid_to_layer : gmap (list Z) nat).

(** The body of the loop for one cell. *)
Definition open_layer_cell (st : OpenLayerState) (cell_indices : list Z) (cell_transform : TransformRep)
    : Result OpenLayerState :=
  match grid_to_layer !! cell_indices with
  | Some layer_i =>
      layer ← checked_at layers layer_i;
      match layer_driver layer with
      | Some (driver, mode) =>
          d ← ComposeAndDispatchOperation (MkDriverHandle driver mode (layer_transform layer)) cell_transform;
          Ok (MkOpenLayerState (dispatched st ++ [d]) (layers_to_load st))
      | None =>
          Ok (MkOpenLayerState (dispatched st)
                (<[layer_i := default [] (layers_to_load st !! layer_i) ++ [cell_transform]]> (layers_to_load st)))
      end
  | None => Err kInvalidArgument
  end.

(** [while (!iterator.AtEnd()) { ...; iterator.Advance(); }], with the calls made before an
    error. *)
Fixpoint open_layer_loop (fuel : nat) (info : IndexTransformGridPartition) (gods : list nat) (f : OutputToGridCellFn)
    (it : PartitionIndexTransformIterator) (st : OpenLayerState) : OpenLayerState * Result unit :=
  match fuel with
  | O => (st, Err OutOfFuel)
  | S fuel =>
      if at_end_ it then (st, Ok tt)
      else
        match open_layer_cell st (output_grid_cell_indices_ it) (cell_transform_ it) with
        | Err e => (st, Err e)
        | Ok st =>
            match Advance info gods f request_transform it with
            | Err e => (st, Err e)
            | Ok it => open_layer_loop fuel info gods f it st
            end
        end
  end.

Variable grid : IrregularGrid.

Definition partition_request (initial_indices : list Z) : OpenLayerState * Result unit :=
  let st := MkOpenLayerState [] ∅ in
  let gods := seq 0 (grid_rank grid) in
  let f := IrregularGridRef grid in
  match Init request_transform gods f initial_indices with
  | Err e => (st, Err e)
  | Ok (info, it) =>
      open_layer_loop (S (number_of_positions info request_transform)) info gods f it st
  end.

(** The first error is the one that is kept ([SetDeferredResult]). *)
Definition first_error (a b : Result unit) : Result unit :=
  match a with Ok _ => b | Err e => Err e end.

(** [OpenLayerOp]: [open_layer] opens the driver of a layer.  The layers are opened, and their
    cells dispatched, in an order of the hash map: here that of [map_to_list]. *)
Definition OpenLayerOp (open_layer : nat -> Result DriverHandle) (initial_indices : list Z)
    : list Dispatched * Result unit :=
  let '(st, status) := partition_request initial_indices in
  match status with
  | Err e => (dispatched st, Err e)
  | Ok _ =>
      foldl (fun '(ds, status) '(layer_i, cells) =>
          let '(ds', status') := AfterOpenOp (open_layer layer_i) cells in
          (ds ++ ds', first_error status status'))
        (dispatched st, Ok tt) (map_to_list (layers_to_load st))
  end.
End Request.
End Driver.
