(* ===== verification/StackGrid.v ===== *)
(** The mapping of cells to layers of the stack driver: a cell is mapped to the last layer that
    contains it. *)

From stdpp Require Import gmap strings sorting.
From S2P Require Import Prelude Int64 IndexInterval Transform GridPartition GridArrays.
From S2P Require Import IrregularGrid StackDriver.

(** * Layers that contain a position *)

Definition contains (d : list IndexInterval) (y : list Z) : Prop := Forall2 (fun x v => Contains x v = true) d y.

#[export] Instance contains_dec d y : Decision (contains d y).
Proof. unfold contains. apply _. Defined.

(** The layer [i] is the last one that contains [y]. *)
Definition is_backing_layer (domains : list (list IndexInterval)) (y : list Z) (i : nat) : Prop :=
  (exists d, domains !! i = Some d /\ contains d y) /\
  forall j d, (i < j)%nat -> domains !! j = Some d -> ~ contains d y.

Lemma is_backing_layer_unique domains y i j :
  is_backing_layer domains y i -> is_backing_layer domains y j -> i = j.
Proof.
  intros [(d & Hd & Hc) Hi] [(d' & Hd' & Hc') Hj]. destruct (Nat.lt_trichotomy i j) as [H|[H|H]]; [|exact H|].
  - destruct (Hi j d' H Hd' Hc').
  - destruct (Hj i d H Hd Hc).
Qed.

(** * Keys of cells *)

(** The cell of a position. *)
Definition cell_key (grid : IrregularGrid) (y : list Z) : list Z := zip_with point_cell (inclusive_mins_ grid) y.

Lemma insert_all {V} (keys : list (list Z)) (v : V) (m : gmap (list Z) V) key :
  foldl (fun m k => <[k := v]> m) m keys !! key = if decide (key ∈ keys) then Some v else m !! key.
Proof.
  revert m; induction keys as [|k keys IH]; intros m; cbn [foldl].
  - rewrite decide_False by apply not_elem_of_nil. reflexivity.
  - rewrite IH. destruct (decide (key ∈ keys)) as [Hin|Hin].
    + rewrite decide_True by (right; exact Hin). reflexivity.
    + destruct (decide (key = k)) as [->|Hne].
      * rewrite lookup_insert_eq, decide_True by left. reflexivity.
      * rewrite lookup_insert_ne by congruence. rewrite decide_False; [reflexivity|].
        intros [?|?]%elem_of_cons; contradiction.
Qed.

Section Layers.
Variables (rank : nat) (domains : list (list IndexInterval)) (grid : IrregularGrid).
Hypothesis Hdomains : valid_domains rank domains.
Hypothesis Hnonempty : domains <> [].
Hypothesis Hmake : Make domains = Ok grid.

Let Hvalid := made_valid rank domains grid Hdomains Hnonempty Hmake.
Let Hrank := made_rank rank domains grid Hdomains Hnonempty Hmake.

Lemma grid_rank_made : grid_rank grid = rank.
Proof. unfold grid_rank. destruct Hvalid as [_ ->]. rewrite length_fmap. exact Hrank. Qed.

(** The cells of a layer are those of the positions that it contains. *)
Lemma layer_cells_spec d : d ∈ domains -> exists box, layer_cells grid d = Ok box /\
  forall y, length y = rank -> Forall (fun v => IsFiniteIndex v = true) y ->
    in_box box (cell_key grid y) <-> contains d y.
Proof.
  intros Hd. destruct (proj1 (Forall_forall _ _) Hdomains d Hd) as [Hl _].
  exists ((fun '(points, x) => MkInterval (point_cell points (inclusive_min x))
    (1 + point_cell points (inclusive_max x) - point_cell points (inclusive_min x))) <$> zip (inclusive_mins_ grid) d).
  split.
  - unfold layer_cells. rewrite grid_rank_made. apply mapR_Ok. apply Forall2_same_length_lookup. split.
    { rewrite length_seq, length_fmap, length_zip, Hrank, Hl. lia. }
    intros i i' I Hi HI. apply lookup_seq in Hi as [-> Hi]. cbn [Nat.add].
    rewrite list_lookup_fmap in HI. apply fmap_Some in HI as ([points x] & Hz & ->).
    apply lookup_zip_Some in Hz as [Hp Hx].
    rewrite (checked_at_Some _ _ _ Hx), Ok_bind, !(grid_cell_at grid i points Hp), !Ok_bind. reflexivity.
  - intros y Hy Hfin. unfold in_box, cell_key, contains. rewrite !Forall2_same_length_lookup.
    rewrite length_fmap, length_zip, length_zip_with, Hrank, Hl, Hy. rewrite Forall_lookup in Hfin.
    assert (Hdim : forall i x v, d !! i = Some x -> y !! i = Some v -> exists points,
      inclusive_mins_ grid !! i = Some points /\ (Contains x v = true <->
        point_cell points (inclusive_min x) <= point_cell points v <= point_cell points (inclusive_max x))).
    { intros i x v Hx Hv. destruct (lookup_lt_is_Some_2 (inclusive_mins_ grid) i) as [points Hp].
      { rewrite Hrank, <- Hl. exact (lookup_lt_Some _ _ _ Hx). }
      exists points. split; [exact Hp|].
      pose proof (made_domain_cells rank domains grid Hdomains Hnonempty Hmake d i points v Hd Hp (Hfin i v Hv)) as H.
      rewrite (list_lookup_total_correct _ _ _ Hx) in H. exact H. }
    split; intros [_ H]; (split; [lia|]).
    + intros i x v Hx Hv. destruct (Hdim i x v Hx Hv) as (points & Hp & ->).
      specialize (H i (MkInterval (point_cell points (inclusive_min x))
        (1 + point_cell points (inclusive_max x) - point_cell points (inclusive_min x))) (point_cell points v)).
      cbn [inclusive_min size] in H. cut (point_cell points (inclusive_min x) <= point_cell points v <
        point_cell points (inclusive_min x) + (1 + point_cell points (inclusive_max x) - point_cell points (inclusive_min x))); [lia|].
      apply H.
      * rewrite list_lookup_fmap, lookup_zip_with, Hp. cbn. rewrite Hx. reflexivity.
      * rewrite lookup_zip_with, Hp. cbn. rewrite Hv. reflexivity.
    + intros i I c HI Hc. rewrite list_lookup_fmap in HI. apply fmap_Some in HI as ([points x] & Hz & ->).
      apply lookup_zip_Some in Hz as [Hp Hx]. apply lookup_zip_with_Some in Hc as (points' & v & -> & Hp' & Hv).
      destruct (Hdim i x v Hx Hv) as (points'' & Hp'' & HC). cbn [fst snd] in *.
      assert (points' = points) as -> by congruence. assert (points'' = points) as -> by congruence.
      specialize (H i x v Hx Hv). apply HC in H. cbn [inclusive_min size]. lia.
Qed.

(** ** The map after some layers *)

Lemma map_layer_spec i d m : d ∈ domains -> exists m', map_layer grid m (i, d) = Ok m' /\
  forall y, length y = rank -> Forall (fun v => IsFiniteIndex v = true) y ->
    m' !! cell_key grid y = if decide (contains d y) then Some i else m !! cell_key grid y.
Proof.
  intros Hd. destruct (layer_cells_spec d Hd) as (box & E & H). eexists. split.
  { unfold map_layer. cbn [fst snd]. rewrite E, Ok_bind. reflexivity. }
  intros y Hy Hf. rewrite insert_all. specialize (H y Hy Hf). rewrite <- elem_of_index_vectors in H.
  apply decide_ext, H.
Qed.

Lemma InitializeGridIndices_spec layer_domain : exists grid_to_layer,
  InitializeGridIndices layer_domain domains = Ok (grid, grid_to_layer) /\
  forall y, length y = rank -> Forall (fun v => IsFiniteIndex v = true) y ->
    forall i, grid_to_layer !! cell_key grid y = Some i <-> is_backing_layer domains y i.
Proof.
  enough (H : forall done, done `prefix_of` domains -> exists m,
    foldM (map_layer grid) ∅ (imap pair done) = Ok m /\
    forall y, length y = rank -> Forall (fun v => IsFiniteIndex v = true) y ->
      forall i, m !! cell_key grid y = Some i <-> is_backing_layer done y i).
  { destruct (H domains) as (m & E & Hm); [reflexivity|]. exists m. split; [|exact Hm].
    assert (Em : forall l : list (list IndexInterval), l <> [] -> match l with [] => [layer_domain] | _ => l end = l)
      by (intros [|] ?; [contradiction|reflexivity]).
    unfold InitializeGridIndices. rewrite (Em _ Hnonempty), Hmake, Ok_bind, E. reflexivity. }
  intros done. induction done as [|d done IH] using rev_ind; intros Hpre.
  { exists ∅. split; [reflexivity|]. intros y _ _ i. rewrite lookup_empty. split; [discriminate|].
    intros [(d & Hd & _) _]. discriminate. }
  destruct IH as (m & E & Hm). { etransitivity; [|exact Hpre]. exists [d]. reflexivity. }
  assert (Hin : d ∈ domains) by (apply (elem_of_prefix (done ++ [d])); [apply elem_of_app; right; left|exact Hpre]).
  destruct (map_layer_spec (length done) d m Hin) as (m' & E' & Hm'). exists m'.
  rewrite imap_app, foldM_app, E, Ok_bind. cbn [imap foldM]. rewrite Nat.add_0_r, E', Ok_bind. split; [reflexivity|].
  intros y Hy Hf i. rewrite (Hm' y Hy Hf). clear Hm'. specialize (Hm y Hy Hf). case_decide as Hc.
  - split.
    + intros [= <-]. split; [exists d; split; [apply list_lookup_middle; reflexivity|exact Hc]|].
      intros j d' Hj Hd'. apply lookup_lt_Some in Hd'. rewrite length_app in Hd'. cbn in Hd'. lia.
    + intros [(d' & Hd' & Hc') Hlast]. f_equal. destruct (Nat.lt_trichotomy (length done) i) as [H|[H|H]]; [|exact H|].
      * apply lookup_lt_Some in Hd'. rewrite length_app in Hd'. cbn in Hd'. lia.
      * destruct (Hlast (length done) d H); [apply list_lookup_middle; reflexivity|exact Hc].
  - rewrite Hm. unfold is_backing_layer. split; intros [(d' & Hd' & Hc') Hlast].
    + split; [exists d'; split; [apply lookup_app_l_Some, Hd'|exact Hc']|].
      intros j e Hj He. apply lookup_app_Some in He as [He|[_ He]]; [exact (Hlast j e Hj He)|].
      apply list_lookup_singleton_Some in He as [_ <-]. exact Hc.
    + apply lookup_app_Some in Hd' as [Hd'|[_ Hd']].
      * split; [exists d'; auto|]. intros j e Hj He. apply (Hlast j e Hj), lookup_app_l_Some, He.
      * apply list_lookup_singleton_Some in Hd' as [_ <-]. contradiction.
Qed.
End Layers.
