(* ===== verification/StackCorrect.v ===== *)
(** Requests to the stack driver: every position of a request is dispatched once, to the last
    layer that contains it. *)

From stdpp Require Import gmap strings sorting.
From S2P Require Import Prelude Int64 IndexInterval Transform PropagateBounds TransformArray ComposeTransforms.
From S2P Require Import ComposeInvariant GridPartition GridSets GridArrays GridCells GridTransform GridIterator GridVisits.
From S2P Require Import IrregularGrid StackDriver StackGrid.

(** * Permutations of related lists *)

Lemma Forall2_Permutation_l {A B} (R : A -> B -> Prop) l l' k :
  Forall2 R l k -> l ≡ₚ l' -> exists k', Forall2 R l' k' /\ k ≡ₚ k'.
Proof.
  intros H Hp. revert k H. induction Hp as [|x l l' _ IH|x y l|l1 l2 l3 _ IH1 _ IH2]; intros k H.
  - inversion H; subst. exists []. auto.
  - inversion H as [|? z ? k1 Hz Hk]; subst. destruct (IH k1 Hk) as (k' & H1 & H2).
    exists (z :: k'). split; [constructor; assumption|rewrite H2; reflexivity].
  - inversion H as [|? z ? k1 Hz Hk]; subst. inversion Hk as [|? z' ? k2 Hz' Hk2]; subst.
    exists (z' :: z :: k2). split; [repeat constructor; assumption|apply Permutation_swap].
  - destruct (IH1 k H) as (k1 & H1 & E1), (IH2 k1 H1) as (k2 & H2 & E2). exists k2. split; [exact H2|].
    rewrite E1, E2. reflexivity.
Qed.

(** * The loop over the cells *)

Section Dispatch.
Context {AT : ArrayTransformer} {Driver : Type}.
Variables (kMode : ReadWriteMode) (t : TransformRep) (layers : list (StackLayer (Driver := Driver))).
Variables (grid_to_layer : gmap (list Z) nat) (open_layer : nat -> Result (DriverHandle (Driver := Driver))).

(** The loop on a list of cells. *)
Fixpoint dispatch_visited (st : OpenLayerState) (visited : list (list Z * TransformRep))
    : OpenLayerState * Result unit :=
  match visited with
  | [] => (st, Ok tt)
  | (c, ct) :: visited =>
      match open_layer_cell kMode t layers grid_to_layer st c ct with
      | Err e => (st, Err e)
      | Ok st => dispatch_visited st visited
      end
  end.

Lemma open_layer_loop_visited fuel : forall info gods f it st visited,
  visit info gods f t fuel it = Ok visited ->
  open_layer_loop kMode t layers grid_to_layer fuel info gods f it st = dispatch_visited st visited.
Proof.
  induction fuel as [|fuel IH]; intros info gods f it st visited H; [discriminate|]. cbn [visit] in H. cbn [open_layer_loop].
  destruct (at_end_ it); [injection H as <-; reflexivity|].
  apply bind_Ok in H as (it' & E & (rest & Hr & [= <-])%bind_Ok). cbn [dispatch_visited].
  destruct (open_layer_cell _ _ _ _ _ _ _) as [st'|e]; [|reflexivity]. rewrite E. exact (IH info gods f it' st' rest Hr).
Qed.

(** The handle on which the cells of a layer are dispatched. *)
Definition layer_handle (layer_i : nat) : Result DriverHandle :=
  layer ← checked_at layers layer_i;
  match layer_driver layer with
  | Some (driver, mode) => Ok (MkDriverHandle driver mode (layer_transform layer))
  | None => open_layer layer_i
  end.

(** The call that a cell leads to. *)
Definition calls (p : list Z * TransformRep) (d : Dispatched) : Prop :=
  exists layer_i handle, grid_to_layer !! p.1 = Some layer_i /\ layer_handle layer_i = Ok handle /\
    ComposeAndDispatchOperation kMode t handle p.2 = Ok d.

(** The cells that wait for their layer. *)
Definition pending (m : gmap nat (list TransformRep)) : list (nat * TransformRep) :=
  map_to_list m ≫= fun p => pair p.1 <$> p.2.

Lemma pending_insert m i ct :
  pending (<[i := default [] (m !! i) ++ [ct]]> m) ≡ₚ (i, ct) :: pending m.
Proof.
  unfold pending. destruct (m !! i) as [l|] eqn:E; cbn [default].
  - rewrite <- (insert_delete_eq m i (l ++ [ct])), map_to_list_insert by apply lookup_delete_eq.
    rewrite <- (insert_delete_id m i l E) at 2. rewrite map_to_list_insert by apply lookup_delete_eq.
    cbn. rewrite fmap_app. cbn. rewrite (Permutation_app_comm _ [(i, ct)]). reflexivity.
  - rewrite map_to_list_insert by exact E. reflexivity.
Qed.

(** What the loop does with a cell: a call, or a cell that waits. *)
Inductive handled (p : list Z * TransformRep) : Dispatched (Driver := Driver) + nat * TransformRep -> Prop :=
| handled_call layer_i layer driver mode d :
    grid_to_layer !! p.1 = Some layer_i -> layers !! layer_i = Some layer -> layer_driver layer = Some (driver, mode) ->
    ComposeAndDispatchOperation kMode t (MkDriverHandle driver mode (layer_transform layer)) p.2 = Ok d ->
    handled p (inl d)
| handled_wait layer_i layer :
    grid_to_layer !! p.1 = Some layer_i -> layers !! layer_i = Some layer -> layer_driver layer = None ->
    handled p (inr (layer_i, p.2)).

Definition left_of {A B} (x : A + B) : option A := match x with inl a => Some a | inr _ => None end.
Definition right_of {A B} (x : A + B) : option B := match x with inl _ => None | inr b => Some b end.

Lemma dispatch_visited_spec visited : forall st st', dispatch_visited st visited = (st', Ok tt) ->
  exists hs, Forall2 handled visited hs /\ dispatched st' = dispatched st ++ omap left_of hs /\
    pending (layers_to_load st') ≡ₚ omap right_of hs ++ pending (layers_to_load st).
Proof.
  induction visited as [|[c ct] visited IH]; intros st st' H; cbn [dispatch_visited] in H.
  { injection H as <-. exists []. split; [constructor|]. rewrite app_nil_r. auto. }
  destruct (open_layer_cell _ _ _ _ _ _ _) as [st1|] eqn:E; [|discriminate].
  destruct (IH st1 st' H) as (hs & Hh & Hd & Hp). unfold open_layer_cell in E.
  destruct (grid_to_layer !! c) as [i|] eqn:Hi; [|discriminate].
  apply bind_Ok in E as (layer & Hlayer & E). unfold checked_at in Hlayer.
  destruct (layers !! i) as [layer'|] eqn:Hl; [injection Hlayer as ->|discriminate].
  destruct (layer_driver layer) as [[driver mode]|] eqn:Edr.
  - apply bind_Ok in E as (d & Ed & [= <-]). exists (inl d :: hs). cbn in Hd, Hp. split; [|split].
    + constructor; [|exact Hh]. exact (handled_call (c, ct) i layer driver mode d Hi Hl Edr Ed).
    + rewrite Hd, <- app_assoc. reflexivity.
    + exact Hp.
  - injection E as <-. exists (inr (i, ct) :: hs). cbn [dispatched layers_to_load] in Hd, Hp. split; [|split].
    + constructor; [|exact Hh]. exact (handled_wait (c, ct) i layer Hi Hl Edr).
    + exact Hd.
    + rewrite Hp, pending_insert. cbn. apply Permutation_sym, Permutation_middle.
Qed.

(** The calls for a cell that waited. *)
Definition opened (p : nat * TransformRep) (d : Dispatched) : Prop :=
  exists handle, open_layer p.1 = Ok handle /\ ComposeAndDispatchOperation kMode t handle p.2 = Ok d.

Lemma ComposeAndDispatch_spec (handle : DriverHandle (Driver := Driver)) cells ds :
  ComposeAndDispatch kMode t handle cells = (ds, Ok tt) ->
  Forall2 (fun ct d => ComposeAndDispatchOperation kMode t handle ct = Ok d) cells ds.
Proof.
  revert ds; induction cells as [|ct cells IH]; intros ds H; cbn in H; [injection H as <-; constructor|].
  destruct (ComposeAndDispatchOperation kMode t handle ct) as [d|] eqn:E; [|discriminate].
  destruct (ComposeAndDispatch kMode t handle cells) as [ds' status] eqn:E'. injection H as <- ->. constructor; [exact E|].
  apply IH. reflexivity.
Qed.

Lemma AfterOpenOp_spec i cells ds : AfterOpenOp kMode t (open_layer i) cells = (ds, Ok tt) ->
  Forall2 opened (pair i <$> cells) ds.
Proof.
  unfold AfterOpenOp. destruct (open_layer i) as [handle|] eqn:Eo; [|discriminate].
  intros H%ComposeAndDispatch_spec. apply Forall2_fmap_l. eapply Forall2_impl; [exact H|].
  intros ct d E. exists handle. auto.
Qed.

Let step := fun '(ds, status) '(layer_i, cells) =>
  let '(ds', status') := AfterOpenOp kMode t (open_layer layer_i) cells in
  (ds ++ ds', first_error status status').

Lemma step_error l : forall ds e, (foldl step (ds, Err e) l).2 = Err e.
Proof.
  induction l as [|[i cells] l IH]; intros ds e; [reflexivity|]. cbn [foldl step].
  destruct (AfterOpenOp kMode t (open_layer i) cells). cbn [first_error]. apply IH.
Qed.

Lemma steps_spec l : forall ds ds', foldl step (ds, Ok tt) l = (ds', Ok tt) ->
  exists ds2, ds' = ds ++ ds2 /\ Forall2 opened (l ≫= fun p => pair p.1 <$> p.2) ds2.
Proof.
  induction l as [|[i cells] l IH]; intros ds ds' H.
  { injection H as <-. exists []. rewrite app_nil_r. auto. }
  cbn [foldl step] in H. destruct (AfterOpenOp kMode t (open_layer i) cells) as [ds1 status] eqn:E.
  destruct status as [[]|e]; cbn [first_error] in H.
  - destruct (IH _ _ H) as (ds2 & -> & H2). exists (ds1 ++ ds2). split; [rewrite app_assoc; reflexivity|].
    apply Forall2_app; [exact (AfterOpenOp_spec i cells ds1 E)|exact H2].
  - pose proof (step_error l (ds ++ ds1) e) as He. rewrite H in He. discriminate.
Qed.

(** The calls for open and opened layers, in the order of the cells. *)
Lemma merge_calls visited hs ds2 :
  Forall2 handled visited hs -> Forall2 opened (omap right_of hs) ds2 ->
  exists ds, Forall2 calls visited ds /\ ds ≡ₚ omap left_of hs ++ ds2.
Proof.
  intros H. revert ds2. induction H as [|p h visited hs Hh _ IH]; intros ds2 H2.
  { inversion H2; subst. exists []. auto. }
  destruct Hh as [i layer driver mode d Hi Hl Edr Ed|i layer Hi Hl Edr]; cbn in H2 |- *.
  - destruct (IH ds2 H2) as (ds & Hc & Hp). exists (d :: ds). split; [|rewrite Hp; reflexivity].
    constructor; [|exact Hc]. exists i, (MkDriverHandle driver mode (layer_transform layer)).
    split; [exact Hi|]. split; [|exact Ed]. unfold layer_handle.
    rewrite (checked_at_Some _ _ _ Hl), Ok_bind, Edr. reflexivity.
  - inversion H2 as [|? d ? ds3 (handle & Eo & Ed) H3]; subst. destruct (IH ds3 H3) as (ds & Hc & Hp).
    exists (d :: ds). split; [|rewrite Hp; apply Permutation_middle].
    constructor; [|exact Hc]. exists i, handle. split; [exact Hi|]. split; [|exact Ed]. unfold layer_handle.
    rewrite (checked_at_Some _ _ _ Hl), Ok_bind, Edr. exact Eo.
Qed.

Lemma dispatch_all visited st st' ds :
  dispatched st = [] -> layers_to_load st = ∅ -> dispatch_visited st visited = (st', Ok tt) ->
  foldl step (dispatched st', Ok tt) (map_to_list (layers_to_load st')) = (ds, Ok tt) ->
  exists ds', Forall2 calls visited ds' /\ ds ≡ₚ ds'.
Proof.
  intros E1 E2 H Hf. destruct (dispatch_visited_spec visited st st' H) as (hs & Hh & Hd & Hp).
  destruct (steps_spec _ _ _ Hf) as (ds2 & -> & H2).
  change (map_to_list (layers_to_load st') ≫= _) with (pending (layers_to_load st')) in H2.
  rewrite E2 in Hp. unfold pending at 2 in Hp. rewrite map_to_list_empty in Hp. cbn in Hp. rewrite app_nil_r in Hp.
  destruct (Forall2_Permutation_l _ _ _ _ H2 Hp) as (ds2' & H2' & Hperm).
  destruct (merge_calls visited hs ds2' Hh H2') as (ds' & Hc & Hp'). exists ds'. split; [exact Hc|].
  rewrite Hp', Hd, E1, Hperm. reflexivity.
Qed.

(** ** Without errors *)

Definition loadable (m : gmap nat (list TransformRep)) : Prop :=
  forall i cells, m !! i = Some cells -> exists handle, open_layer i = Ok handle /\
    forall ct, ct ∈ cells -> exists d, ComposeAndDispatchOperation kMode t handle ct = Ok d.

Lemma dispatch_visited_ok visited : (forall p, p ∈ visited -> exists d, calls p d) ->
  forall st, loadable (layers_to_load st) ->
  exists st', dispatch_visited st visited = (st', Ok tt) /\ loadable (layers_to_load st').
Proof.
  induction visited as [|[c ct] visited IH]; intros Hc st Hst; cbn [dispatch_visited]; [eauto|].
  destruct (Hc (c, ct) (list_elem_of_here _ _)) as (d & i & handle & Hi & Hh & Ed). cbn [fst snd] in Hi, Ed.
  specialize (IH (fun p Hp => Hc p (list_elem_of_further _ _ _ Hp))).
  unfold open_layer_cell. rewrite Hi. unfold layer_handle in Hh. apply bind_Ok in Hh as (layer & -> & Hh). rewrite Ok_bind.
  destruct (layer_driver layer) as [[driver mode]|].
  - injection Hh as <-. rewrite Ed, Ok_bind. apply IH, Hst.
  - apply IH. cbn [layers_to_load]. intros j cells Hj. destruct (decide (j = i)) as [->|Hne].
    + rewrite lookup_insert_eq in Hj. injection Hj as <-. exists handle. split; [exact Hh|].
      intros ct' [Hct'|Hct']%elem_of_app; [|apply list_elem_of_singleton in Hct' as ->; eauto].
      destruct (layers_to_load st !! i) as [l|] eqn:El; [|destruct (not_elem_of_nil _ Hct')].
      destruct (Hst i l El) as (handle' & Hh' & Hl). assert (handle' = handle) as -> by congruence. exact (Hl ct' Hct').
    + rewrite lookup_insert_ne in Hj by congruence. exact (Hst j cells Hj).
Qed.

Lemma ComposeAndDispatch_ok (handle : DriverHandle (Driver := Driver)) cells :
  (forall ct, ct ∈ cells -> exists d, ComposeAndDispatchOperation kMode t handle ct = Ok d) ->
  (ComposeAndDispatch kMode t handle cells).2 = Ok tt.
Proof.
  induction cells as [|ct cells IH]; intros H; [reflexivity|]. cbn [ComposeAndDispatch].
  destruct (H ct (list_elem_of_here _ _)) as (d & ->).
  specialize (IH (fun ct' Hct => H ct' (list_elem_of_further _ _ _ Hct))).
  destruct (ComposeAndDispatch kMode t handle cells). exact IH.
Qed.

Lemma steps_ok l : (forall p, p ∈ l -> exists handle, open_layer p.1 = Ok handle /\
    forall ct, ct ∈ p.2 -> exists d, ComposeAndDispatchOperation kMode t handle ct = Ok d) ->
  forall ds, (foldl step (ds, Ok tt) l).2 = Ok tt.
Proof.
  induction l as [|[i cells] l IH]; intros H ds; [reflexivity|]. cbn [foldl step].
  destruct (H (i, cells) (list_elem_of_here _ _)) as (handle & Eo & Hc). cbn [fst snd] in Eo, Hc.
  pose proof (ComposeAndDispatch_ok handle cells Hc) as E. unfold AfterOpenOp. rewrite Eo.
  destruct (ComposeAndDispatch kMode t handle cells) as [ds' status]. cbn [snd] in E. subst status. cbn [first_error].
  apply IH. intros p Hp. exact (H p (list_elem_of_further _ _ _ Hp)).
Qed.

Lemma dispatch_all_ok visited st :
  (forall p, p ∈ visited -> exists d, calls p d) -> layers_to_load st = ∅ ->
  exists st', dispatch_visited st visited = (st', Ok tt) /\
    (foldl step (dispatched st', Ok tt) (map_to_list (layers_to_load st'))).2 = Ok tt.
Proof.
  intros Hc Hst. destruct (dispatch_visited_ok visited Hc st) as (st' & E & Hl).
  { rewrite Hst. intros i cells H. rewrite lookup_empty in H. discriminate. }
  exists st'. split; [exact E|]. apply steps_ok. intros [i cells] Hp%elem_of_map_to_list. exact (Hl i cells Hp).
Qed.
End Dispatch.

(** * The cells of a request *)

(** An index vector of a finite box is in the domain. *)
Lemma in_box_in_domain dims x :
  Forall (fun d => Valid (domain d) /\ IsFinite (domain d) = true) dims -> in_box (domain <$> dims) x -> in_domain dims x.
Proof.
  intros HF. revert x. induction HF as [|d dims [HV Hf] _ IH]; intros x H; inversion H as [|? v ? x' Hv Hx]; subst; constructor.
  - apply Contains_box in Hv; [|exact HV|exact Hf]. apply Contains_within in Hv as [Hfv Hw]; [|exact HV].
    split; [exact Hfv|]. split; right; apply Hw.
  - apply IH, Hx.
Qed.

Section Request.
Context {AT : ArrayTransformer} {laws : ArrayTransformerLaws} {Driver : Type}.
Variables (rank : nat) (layer_domain : list IndexInterval) (domains : list (list IndexInterval)).
Variables (grid : IrregularGrid) (grid_to_layer : gmap (list Z) nat).
Variables (t : TransformRep) (info : IndexTransformGridPartition).
Let gods := seq 0 rank.
Let f := IrregularGridRef grid.
Let interval_of := irregular_interval grid.
Hypothesis Hdomains : valid_domains rank domains.
Hypothesis Hnonempty : domains <> [].
Hypothesis Hinit : InitializeGridIndices layer_domain domains = Ok (grid, grid_to_layer).
Hypothesis Hpoints : Forall (fun points => Z.of_nat (length points) <= kMaxFiniteIndex) (inclusive_mins_ grid).
Hypothesis HW : WellFormed t.
Hypothesis Hout_rank : output_rank t = rank.
Hypothesis Hin_rank : (input_rank t <= 32)%nat.
Hypothesis Hgrid_rank : (rank <= 32)%nat.
Hypothesis Hdisjoint : inputs_disjoint (ForEachConnectedSet gods t).
Hypothesis Hinfo : PrePartitionIndexTransformOverGrid t gods f = Ok info.
Hypothesis Hpos : Forall (fun x => 0 < size x) (input_domain t).
Hypothesis Hfin : forall x, in_box (input_domain t) x -> evaluates_finite t x.
Hypothesis Hpreimage : forall g d y, grid_output t gods g y -> method (grid_map t gods g) = single_input_dimension d ->
  is_ok (GetAffineTransformDomain (interval_of g (f g y).1) (offset (grid_map t gods g)) (stride (grid_map t gods g))) = true.
Hypothesis Hcovered : forall g, (g < rank)%nat -> method (grid_map t gods g) = constant \/
  exists d, depends_on (grid_map t gods g) d.

Lemma grid_made : Make domains = Ok grid.
Proof.
  assert (Em : forall l : list (list IndexInterval), l <> [] -> match l with [] => [layer_domain] | _ => l end = l)
    by (intros [|] ?; [contradiction|reflexivity]).
  unfold InitializeGridIndices in Hinit. rewrite (Em _ Hnonempty) in Hinit.
  apply bind_Ok in Hinit as (g & E & (m & _ & [= -> _])%bind_Ok). exact E.
Qed.

Lemma layer_of_cell y i : length y = rank -> Forall (fun v => IsFiniteIndex v = true) y ->
  grid_to_layer !! cell_key grid y = Some i <-> is_backing_layer domains y i.
Proof.
  intros Hy Hf. destruct (InitializeGridIndices_spec rank domains grid Hdomains Hnonempty grid_made layer_domain) as (m & E & H).
  rewrite Hinit in E. injection E as <-. exact (H y Hy Hf i).
Qed.

Lemma gods_length : length gods = rank.
Proof. apply length_seq. Qed.

Lemma gods_lt : Forall (fun o => (o < output_rank t)%nat) gods.
Proof. apply Forall_forall. intros o Ho%elem_of_seq. rewrite Hout_rank. lia. Qed.

Lemma grid_map_eq g : (g < rank)%nat -> output_index_maps t !! g = Some (grid_map t gods g).
Proof.
  intros Hg. unfold grid_map, gods. rewrite (list_lookup_total_correct (seq 0 rank) g g) by (apply lookup_seq; auto).
  apply list_lookup_lookup_total_lt. unfold output_rank in Hout_rank. rewrite Hout_rank. exact Hg.
Qed.

(** The outputs of a position of the domain are finite. *)
Lemma output_finite x g y : in_box (input_domain t) x -> (g < rank)%nat -> output_index (grid_map t gods g) x = Ok y ->
  IsFiniteIndex y = true.
Proof.
  intros Hx Hg Hy. pose proof (proj1 (evaluates_finite_exact t x) (Hfin x Hx)) as H. rewrite Forall_forall in H.
  specialize (H _ (list_elem_of_lookup_2 _ _ _ (grid_map_eq g Hg))). rewrite output_index_exact in Hy.
  apply bind_Ok in Hy as (z & Hz & [= <-]). specialize (H z Hz). rewrite wrap64_id by (apply finite_in_i64, H). exact H.
Qed.

Lemma grid_laws : GridLaws f interval_of (grid_output t gods).
Proof.
  apply irregular_grid_laws; [exact (made_valid rank domains grid Hdomains Hnonempty grid_made)|exact Hpoints|].
  intros g y [Hg (x & Hx & Hy)]. rewrite gods_length in Hg.
  rewrite (made_rank rank domains grid Hdomains Hnonempty grid_made). split; [exact Hg|]. exact (output_finite x g y Hx Hg Hy).
Qed.

Lemma request_domain : Forall (fun d => Valid (domain d) /\ IsFinite (domain d) = true) (input_dimensions t).
Proof.
  destruct (PrePartition_Ok t gods f info Hinfo) as [Hf _]. unfold input_domain in Hf. rewrite Forall_fmap in Hf.
  apply Forall_and. split; [exact (WellFormed_valid_dims t HW)|exact Hf].
Qed.

Lemma request_good_bounds : Forall good_bounds (transform_bounds t).
Proof.
  unfold transform_bounds. apply Forall_fmap. pose proof request_domain as H. rewrite Forall_forall in H |- *.
  intros d Hd. destruct (H d Hd) as [HV _]. split; [exact HV|]. cbn.
  unfold input_domain in Hpos. rewrite Forall_fmap, Forall_forall in Hpos. specialize (Hpos d Hd). cbn in Hpos.
  unfold empty. apply Z.eqb_neq. unfold domain in Hpos. lia.
Qed.

(** The cell of a position is the key of its outputs. *)
Lemma position_cell x y : in_box (input_domain t) x -> TransformIndices t x = Ok y ->
  length y = rank /\ Forall (fun v => IsFiniteIndex v = true) y /\
  forall c, length c = rank -> in_cell t gods f c x <-> c = cell_key grid y.
Proof.
  intros Hx Hy. assert (Hl : length x = input_rank t).
  { rewrite (in_box_length _ _ Hx). apply length_fmap. }
  apply TransformIndices_Ok in Hy as [_ Hy]; [|exact (WellFormed_valid_dims t HW)|exact Hl].
  assert (Hly : length y = rank) by (rewrite <- Hout_rank; symmetry; exact (Forall2_length _ _ _ Hy)).
  assert (Hg : forall g v, y !! g = Some v -> (g < rank)%nat /\ output_index (grid_map t gods g) x = Ok v /\ IsFiniteIndex v = true).
  { intros g v Hv. assert (Hlt : (g < rank)%nat) by (rewrite <- Hly; exact (lookup_lt_Some _ _ _ Hv)).
    pose proof (Forall2_lookup_lr _ _ _ _ _ _ Hy (grid_map_eq g Hlt) Hv) as E. cbn beta in E.
    split; [exact Hlt|]. split; [exact E|]. exact (output_finite x g v Hx Hlt E). }
  assert (Hf : Forall (fun v => IsFiniteIndex v = true) y) by (apply Forall_lookup; intros g v Hv; apply (Hg g v Hv)).
  pose proof (made_rank rank domains grid Hdomains Hnonempty grid_made) as Hr.
  assert (Hfst : forall g v points, inclusive_mins_ grid !! g = Some points -> IsFiniteIndex v = true -> (f g v).1 = point_cell points v).
  { intros g v points Hp Hv. destruct (grid_cell_and_bounds_spec grid g points v
      (made_valid rank domains grid Hdomains Hnonempty grid_made) Hp Hv) as (b & E & _).
    unfold f, IrregularGridRef. rewrite E. reflexivity. }
  split; [exact Hly|]. split; [exact Hf|]. intros c Hc. unfold in_cell. rewrite gods_length. split.
  - intros H. apply list_eq_same_length with rank; [unfold cell_key; rewrite length_zip_with, Hr, Hly; apply Nat.min_id|exact Hc|].
    intros g a b Hlt Ha Hb. unfold cell_key in Hb. apply lookup_zip_with_Some in Hb as (points & v & -> & Hp & Hv).
    destruct (Hg g v Hv) as (_ & E & Hvf). destruct (H g Hlt) as (v' & E' & Hcell).
    rewrite (list_lookup_total_correct _ _ _ Ha) in Hcell. assert (v' = v) as -> by congruence.
    rewrite (Hfst g v points Hp Hvf) in Hcell. symmetry. exact Hcell.
  - intros -> g Hlt. destruct (lookup_lt_is_Some_2 y g) as [v Hv]; [lia|].
    destruct (lookup_lt_is_Some_2 (inclusive_mins_ grid) g) as [points Hp]; [lia|].
    destruct (Hg g v Hv) as (_ & E & Hvf). exists v. split; [exact E|]. rewrite (Hfst g v points Hp Hvf).
    symmetry. apply list_lookup_total_correct. unfold cell_key. rewrite lookup_zip_with, Hp. cbn. rewrite Hv. reflexivity.
Qed.

(** Every position of a cell has its outputs. *)
Lemma cell_outputs c x : in_box (input_domain t) x -> in_cell t gods f c x -> exists y, TransformIndices t x = Ok y.
Proof.
  intros Hx Hc. assert (H : forall m, m ∈ output_index_maps t -> exists v, output_index m x = Ok v).
  { intros m Hm. apply list_elem_of_lookup in Hm as [g Hm].
    assert (Hg : (g < rank)%nat) by (rewrite <- Hout_rank; exact (lookup_lt_Some _ _ _ Hm)).
    rewrite (grid_map_eq g Hg) in Hm. injection Hm as <-.
    destruct (Hc g) as (v & E & _); [rewrite gods_length; exact Hg|]. eauto. }
  destruct (list_choice (fun m v => output_index m x = Ok v) (output_index_maps t) H) as [y Hy]. exists y.
  apply TransformIndices_Ok; [exact (WellFormed_valid_dims t HW)|rewrite (in_box_length _ _ Hx); apply length_fmap|].
  split; [|exact Hy]. apply in_box_in_domain; [exact request_domain|exact Hx].
Qed.


(** What the partition gives for a cell that is reached. *)
Record cell_of (c : list Z) (ct : TransformRep) : Prop := MkCellOf {
  co_transform : GetCellTransform info t c gods interval_of = Ok ct;
  co_well_formed : WellFormed ct;
  co_positions x : in_box (input_domain t) x /\ in_cell t gods f c x <->
    exists pos, in_box (input_domain ct) pos /\ TransformIndices ct pos = Ok x;
  co_injective x pos pos' : in_box (input_domain ct) pos -> in_box (input_domain ct) pos' ->
    TransformIndices ct pos = Ok x -> TransformIndices ct pos' = Ok x -> pos = pos';
  co_finite pos : in_box (input_domain ct) pos -> evaluates_finite ct pos
}.

Lemma reached_cell c x ct : in_box (input_domain t) x -> in_cell t gods f c x ->
  GetCellTransform info t c gods interval_of = Ok ct -> cell_of c ct.
Proof.
  intros Hx Hc Hct.
  assert (Hp : forall g d, (g < length gods)%nat -> method (grid_map t gods g) = single_input_dimension d ->
    is_ok (GetAffineTransformDomain (interval_of g (c !!! g)) (offset (grid_map t gods g)) (stride (grid_map t gods g))) = true).
  { intros g d Hg Hm. destruct (Hc g Hg) as (y & Hy & <-). apply (Hpreimage g d y); [split; [exact Hg|eauto]|exact Hm]. }
  assert (Hgr : (length gods <= 32)%nat) by (rewrite gods_length; exact Hgrid_rank).
  rewrite (GetCellTransform_ct t gods f info interval_of c HW Hin_rank gods_lt Hgr Hdisjoint Hinfo grid_laws x Hx Hc Hp) in Hct.
  injection Hct as <-. split.
  - exact (GetCellTransform_ct t gods f info interval_of c HW Hin_rank gods_lt Hgr Hdisjoint Hinfo grid_laws x Hx Hc Hp).
  - exact (ct_WellFormed t gods f info interval_of c HW Hin_rank gods_lt Hgr Hdisjoint Hinfo grid_laws x Hx Hc Hp).
  - intros z. apply (cell_bijection t gods f info interval_of c HW Hin_rank gods_lt Hgr Hdisjoint Hinfo grid_laws x Hx Hc Hp z).
  - intros z. apply (cell_bijection t gods f info interval_of c HW Hin_rank gods_lt Hgr Hdisjoint Hinfo grid_laws x Hx Hc Hp z).
  - exact (ct_evaluates_finite t gods f info interval_of c HW Hin_rank gods_lt Hgr Hdisjoint Hinfo grid_laws x Hx Hc Hp).
Qed.

Lemma request_cells initial_indices : length initial_indices = rank -> exists visited,
  visited_cells t gods f initial_indices = Ok visited /\ NoDup visited.*1 /\
  (forall c, c ∈ visited.*1 <-> length c = rank /\ exists x, in_box (input_domain t) x /\ in_cell t gods f c x) /\
  forall p, p ∈ visited -> cell_of p.1 p.2.
Proof.
  intros Hi. assert (Hgr : (length gods <= 32)%nat) by (rewrite gods_length; exact Hgrid_rank).
  destruct (visited_cells_spec t gods f info interval_of HW Hin_rank gods_lt Hgr Hdisjoint Hinfo grid_laws Hpos Hpreimage)
    with (initial_indices := initial_indices) as (visited & E & HN & Hc & HF);
    [rewrite gods_length; exact Hcovered|rewrite gods_length; exact Hi|].
  exists visited. split; [exact E|]. split; [exact HN|]. rewrite gods_length in Hc. split; [exact Hc|].
  intros [c ct] Hp. rewrite Forall_forall in HF. specialize (HF _ Hp).
  destruct (proj1 (Hc c)) as (_ & x & Hx & Hcx); [apply list_elem_of_fmap; exists (c, ct); auto|].
  exact (reached_cell c x ct Hx Hcx HF).
Qed.

(** ** The calls of a request *)

Variables (kMode : ReadWriteMode) (layers : list (StackLayer (Driver := Driver))).
Variables (open_layer : nat -> Result (DriverHandle (Driver := Driver))) (initial_indices : list Z).
Hypothesis Hinitial : length initial_indices = rank.

Let result := OpenLayerOp kMode t layers grid_to_layer grid open_layer initial_indices.
Let call := calls kMode t layers grid_to_layer open_layer.

Lemma request_loop : exists visited,
  NoDup visited.*1 /\
  (forall c, c ∈ visited.*1 <-> length c = rank /\ exists x, in_box (input_domain t) x /\ in_cell t gods f c x) /\
  (forall p, p ∈ visited -> cell_of p.1 p.2) /\
  partition_request kMode t layers grid_to_layer grid initial_indices =
    dispatch_visited kMode t layers grid_to_layer (MkOpenLayerState [] ∅) visited.
Proof.
  destruct (request_cells initial_indices Hinitial) as (visited & E & HN & Hc & Hp).
  exists visited. split; [exact HN|]. split; [exact Hc|]. split; [exact Hp|].
  unfold visited_cells in E. apply bind_Ok in E as ([info' it] & Ei & Ev).
  unfold partition_request. rewrite (grid_rank_made rank domains grid Hdomains Hnonempty grid_made).
  change (seq 0 rank) with gods. change (IrregularGridRef grid) with f. rewrite Ei.
  exact (open_layer_loop_visited kMode t layers grid_to_layer _ info' gods f it _ visited Ev).
Qed.

(** A call at its cell: what it evaluates to. *)
Lemma call_evaluates c ct d pos x y :
  call (c, ct) d -> cell_of c ct -> in_box (input_domain ct) pos -> TransformIndices ct pos = Ok x ->
  in_box (input_domain t) x -> TransformIndices t x = Ok y -> length c = rank -> in_cell t gods f c x ->
  exists i handle, is_backing_layer domains y i /\ layer_handle layers open_layer i = Ok handle /\
    dispatched_driver d = handle_driver handle /\ dispatched_cell d = ct /\
    (WellFormed (handle_transform handle) -> Forall good_bounds (transform_bounds (handle_transform handle)) ->
     in_domain (input_dimensions (handle_transform handle)) y ->
     TransformIndices (composed_transform d) pos = TransformIndices (handle_transform handle) y).
Proof.
  intros (i & handle & Hi & Hh & Hcall) Hct Hpos' Heval Hx Hy Hlc Hcx. cbn [fst snd] in *.
  destruct (position_cell x y Hx Hy) as (Hly & Hfy & Hkey). apply Hkey in Hcx as ->; [|exact Hlc].
  apply layer_of_cell in Hi; [|exact Hly|exact Hfy]. exists i, handle. split; [exact Hi|]. split; [exact Hh|].
  unfold ComposeAndDispatchOperation in Hcall.
  apply bind_Ok in Hcall as (? & _ & (a & Ha & (b & Hb & [= <-])%bind_Ok)%bind_Ok). split; [reflexivity|]. split; [reflexivity|].
  intros HWh Hgh Hdom. cbn [composed_transform].
  assert (Hlp : length pos = input_rank ct) by (rewrite (in_box_length _ _ Hpos'); apply length_fmap).
  destruct (compose_evaluates t ct a pos x HW (co_well_formed _ _ Hct) request_good_bounds Ha Hlp Heval
    (co_finite _ _ Hct pos Hpos') (in_box_in_domain _ _ request_domain Hx)) as [Ea Hfa].
  destruct (compose_keeps_invariants t ct a HW (co_well_formed _ _ Hct) request_good_bounds Ha) as (HWa & Hra & _).
  rewrite Hy in Ea. apply (compose_evaluates (handle_transform handle) a b pos y HWh HWa Hgh Hb);
    [congruence|exact Ea|exact (Hfa (Hfin x Hx))|exact Hdom].
Qed.

Lemma request_dispatched : result.2 = Ok tt -> exists visited ds,
  NoDup visited.*1 /\
  (forall c, c ∈ visited.*1 <-> length c = rank /\ exists x, in_box (input_domain t) x /\ in_cell t gods f c x) /\
  (forall p, p ∈ visited -> cell_of p.1 p.2) /\ Forall2 call visited ds /\ result.1 ≡ₚ ds.
Proof.
  intros H. destruct request_loop as (visited & HN & Hc & Hp & E). unfold result, OpenLayerOp in *. rewrite E in *.
  destruct (dispatch_visited kMode t layers grid_to_layer (MkOpenLayerState [] ∅) visited) as [st [[]|e]] eqn:Ev; [|discriminate].
  destruct (foldl _ (dispatched st, Ok tt) (map_to_list (layers_to_load st))) as [ds status] eqn:Ef. cbn [snd fst] in *. subst status.
  destruct (dispatch_all kMode t layers grid_to_layer open_layer visited (MkOpenLayerState [] ∅) st ds eq_refl eq_refl Ev Ef) as (ds' & Hcalls & Hperm).
  exists visited, ds'. auto.
Qed.

(** The request reaches every position once, at its last layer. *)
Lemma request_correct x y : result.2 = Ok tt -> in_box (input_domain t) x -> TransformIndices t x = Ok y ->
  exists k d pos i handle, result.1 !! k = Some d /\
    in_box (input_domain (dispatched_cell d)) pos /\ TransformIndices (dispatched_cell d) pos = Ok x /\
    is_backing_layer domains y i /\ layer_handle layers open_layer i = Ok handle /\
    dispatched_driver d = handle_driver handle /\
    (WellFormed (handle_transform handle) -> Forall good_bounds (transform_bounds (handle_transform handle)) ->
     in_domain (input_dimensions (handle_transform handle)) y ->
     TransformIndices (composed_transform d) pos = TransformIndices (handle_transform handle) y) /\
    forall k' d' pos', result.1 !! k' = Some d' -> in_box (input_domain (dispatched_cell d')) pos' ->
      TransformIndices (dispatched_cell d') pos' = Ok x -> k' = k /\ pos' = pos.
Proof.
  intros H Hx Hy. destruct (request_dispatched H) as (visited & ds & HN & Hc & Hp & Hcalls & Hperm).
  destruct (position_cell x y Hx Hy) as (Hly & Hfy & Hkey).
  assert (Hlk : length (cell_key grid y) = rank).
  { unfold cell_key. rewrite length_zip_with, (made_rank rank domains grid Hdomains Hnonempty grid_made), Hly. apply Nat.min_id. }
  assert (Hcx : in_cell t gods f (cell_key grid y) x) by (apply Hkey; [exact Hlk|reflexivity]).
  assert (Hin : cell_key grid y ∈ visited.*1) by (apply Hc; eauto).
  apply list_elem_of_lookup in Hin as [n Hn]. rewrite list_lookup_fmap in Hn. apply fmap_Some in Hn as ([c ct] & Hn & Ec).
  cbn [fst] in Ec. subst c. destruct (Forall2_lookup_l _ _ _ _ _ Hcalls Hn) as (d & Hd & Hcall).
  pose proof (Hp _ (list_elem_of_lookup_2 _ _ _ Hn)) as Hct. cbn [fst snd] in Hct.
  destruct (proj1 (co_positions _ _ Hct x) (conj Hx Hcx)) as (pos & Hbox & Heval).
  destruct (call_evaluates _ ct d pos x y Hcall Hct Hbox Heval Hx Hy Hlk Hcx) as (i & handle & Hi & Hh & Hdr & Edc & Hcomp).
  assert (Hk : exists k, result.1 !! k = Some d).
  { apply list_elem_of_lookup. rewrite Hperm. exact (list_elem_of_lookup_2 _ _ _ Hd). }
  destruct Hk as [k Hk]. apply Permutation_inj in Hperm as [_ (g & Hg & Hperm)].
  assert (Hunique : forall k' d' pos', result.1 !! k' = Some d' -> in_box (input_domain (dispatched_cell d')) pos' ->
    TransformIndices (dispatched_cell d') pos' = Ok x -> g k' = n /\ (dispatched_cell d' = ct)).
  { intros k' d' pos' Hk' Hbox' Heval'. rewrite Hperm in Hk'.
    destruct (Forall2_lookup_r _ _ _ _ _ Hcalls Hk') as ([c' ct'] & Hn' & Hcall').
    pose proof (Hp _ (list_elem_of_lookup_2 _ _ _ Hn')) as Hct'. cbn [fst snd] in Hct'.
    assert (Ecell : dispatched_cell d' = ct').
    { destruct Hcall' as (? & ? & _ & _ & H'). unfold ComposeAndDispatchOperation in H'.
      apply bind_Ok in H' as (? & _ & (? & _ & (? & _ & [= <-])%bind_Ok)%bind_Ok). reflexivity. }
    rewrite Ecell in *. destruct (proj2 (co_positions _ _ Hct' x)) as [_ Hcx']; [eauto|].
    assert (Hlc' : length c' = rank).
    { apply (Hc c'). apply list_elem_of_fmap. exists (c', ct'). split; [reflexivity|exact (list_elem_of_lookup_2 _ _ _ Hn')]. }
    apply Hkey in Hcx' as ->; [|exact Hlc'].
    assert (Egn : g k' = n).
    { apply (NoDup_lookup _ (g k') n (cell_key grid y) HN); rewrite list_lookup_fmap, ?Hn', ?Hn; reflexivity. }
    split; [exact Egn|]. rewrite Egn, Hn in Hn'. injection Hn' as <-. reflexivity. }
  exists k, d, pos, i, handle. rewrite Edc. do 6 (split; [assumption|]). split; [exact Hcomp|].
  intros k' d' pos' Hk' Hbox' Heval'.
  destruct (Hunique k' d' pos' Hk' Hbox' Heval') as [E' Ect']. destruct (Hunique k d pos Hk) as [Ek _]; [rewrite Edc; assumption..|].
  split; [apply (inj g); congruence|]. rewrite Ect' in *. exact (co_injective _ _ Hct x pos' pos Hbox' Hbox Heval' Heval).
Qed.

(** When every position has a layer and the calls succeed, so does the request. *)
Lemma request_succeeds :
  (forall x y, in_box (input_domain t) x -> TransformIndices t x = Ok y -> exists i handle,
     is_backing_layer domains y i /\ layer_handle layers open_layer i = Ok handle) ->
  (forall x y ct i handle, in_box (input_domain t) x -> TransformIndices t x = Ok y ->
     GetCellTransform info t (cell_key grid y) gods interval_of = Ok ct ->
     is_backing_layer domains y i -> layer_handle layers open_layer i = Ok handle ->
     is_ok (ComposeAndDispatchOperation kMode t handle ct) = true) ->
  result.2 = Ok tt.
Proof.
  intros Hback Hcomp. destruct request_loop as (visited & HN & Hc & Hp & E).
  destruct (dispatch_all_ok kMode t layers grid_to_layer open_layer visited (MkOpenLayerState [] ∅)) as (st & Ev & Ef); [|reflexivity|].
  - intros [c ct] Hin. pose proof (Hp _ Hin) as Hct. cbn [fst snd] in Hct.
    destruct (proj1 (Hc c)) as (Hlc & x & Hx & Hcx); [apply list_elem_of_fmap; exists (c, ct); auto|].
    destruct (cell_outputs c x Hx Hcx) as [y Hy]. destruct (Hback x y Hx Hy) as (i & handle & Hi & Hh).
    destruct (position_cell x y Hx Hy) as (Hly & Hfy & Hkey). apply Hkey in Hcx as ->; [|exact Hlc].
    specialize (Hcomp x y ct i handle Hx Hy (co_transform _ _ Hct) Hi Hh). apply (layer_of_cell y i Hly Hfy) in Hi.
    destruct (ComposeAndDispatchOperation kMode t handle ct) as [d|] eqn:Ed; [|discriminate].
    exists d, i, handle. auto.
  - unfold result, OpenLayerOp. rewrite E, Ev. exact Ef.
Qed.
End Request.
