(* ===== verification/StackTheorems.v ===== *)
(** The theorem on requests to the stack driver, with a concrete stack of two layers. *)

From stdpp Require Import gmap strings sorting.
From S2P Require Import Prelude Int64 IndexInterval Transform PropagateBounds TransformArray ComposeTransforms.
From S2P Require Import GridPartition GridSets GridArrays GridTransform GridTheorems.
From S2P Require Import IrregularGrid StackDriver StackGrid StackCorrect.

(** C4: a request to the stack driver.  If [OpenLayerOp] reports no error, every position of the
    request is in exactly one of the calls to the layers, at one position of it; the call is to
    the last layer whose domain contains the index that the position stands for, and the
    transform of the call maps the position to what the layer's transform maps that index to.
    There is no error if every position has a layer, the layers can be opened and the
    compositions of transforms for the cells succeed.  The premises are those of the partition
    of the request by the grid of the layers' domains. *)
Theorem OpenLayerOp_correct {AT : ArrayTransformer} {laws : ArrayTransformerLaws} {Driver : Type}
    rank layer_domain domains grid grid_to_layer t info kMode (layers : list (StackLayer (Driver := Driver)))
    open_layer initial_indices :
  let gods := seq 0 rank in
  let f := IrregularGridRef grid in
  let interval_of := irregular_interval grid in
  let result := OpenLayerOp kMode t layers grid_to_layer grid open_layer initial_indices in
  valid_domains rank domains -> domains <> [] ->
  InitializeGridIndices layer_domain domains = Ok (grid, grid_to_layer) ->
  Forall (fun points => Z.of_nat (length points) <= kMaxFiniteIndex) (inclusive_mins_ grid) ->
  WellFormed t -> output_rank t = rank -> (input_rank t <= 32)%nat -> (rank <= 32)%nat ->
  inputs_disjoint (ForEachConnectedSet gods t) ->
  PrePartitionIndexTransformOverGrid t gods f = Ok info ->
  Forall (fun x => 0 < size x) (input_domain t) ->
  (forall x, in_box (input_domain t) x -> evaluates_finite t x) ->
  (forall g d y, grid_output t gods g y -> method (grid_map t gods g) = single_input_dimension d ->
     is_ok (GetAffineTransformDomain (interval_of g (f g y).1) (offset (grid_map t gods g))
       (stride (grid_map t gods g))) = true) ->
  (forall g, (g < rank)%nat -> method (grid_map t gods g) = constant \/ exists d, depends_on (grid_map t gods g) d) ->
  length initial_indices = rank ->
  (result.2 = Ok tt -> forall x y, in_box (input_domain t) x -> TransformIndices t x = Ok y ->
     exists k d pos i handle, result.1 !! k = Some d /\
       in_box (input_domain (dispatched_cell d)) pos /\ TransformIndices (dispatched_cell d) pos = Ok x /\
       is_backing_layer domains y i /\ layer_handle layers open_layer i = Ok handle /\
       dispatched_driver d = handle_driver handle /\
       (WellFormed (handle_transform handle) -> Forall good_bounds (transform_bounds (handle_transform handle)) ->
        in_domain (input_dimensions (handle_transform handle)) y ->
        TransformIndices (composed_transform d) pos = TransformIndices (handle_transform handle) y) /\
       forall k' d' pos', result.1 !! k' = Some d' -> in_box (input_domain (dispatched_cell d')) pos' ->
         TransformIndices (dispatched_cell d') pos' = Ok x -> k' = k /\ pos' = pos) /\
  ((forall x y, in_box (input_domain t) x -> TransformIndices t x = Ok y -> exists i handle,
      is_backing_layer domains y i /\ layer_handle layers open_layer i = Ok handle) ->
   (forall x y ct i handle, in_box (input_domain t) x -> TransformIndices t x = Ok y ->
      GetCellTransform info t (cell_key grid y) gods interval_of = Ok ct ->
      is_backing_layer domains y i -> layer_handle layers open_layer i = Ok handle ->
      is_ok (ComposeAndDispatchOperation kMode t handle ct) = true) ->
   result.2 = Ok tt).
Proof.
  intros gods f interval_of result Hd Hne Hi Hpts HW Ho Hr Hg Hdis Hinfo Hpos Hfin Hpre Hcov Hini. split.
  - intros H x y. eapply request_correct; eassumption.
  - eapply request_succeeds; eassumption.
Qed.

(** Whether no output of the positions of the domain leaves the finite indices. *)
Definition evaluates_finiteb (t : TransformRep) : bool :=
  forallb (fun x => forallb (fun m => match base_output_index m x with
      | Ok v => IsFiniteIndex (offset m + stride m * v)
      | Err _ => true
      end) (output_index_maps t)) (index_vectors (input_domain t)).

Lemma evaluates_finiteb_spec t x :
  evaluates_finiteb t = true -> in_box (input_domain t) x -> evaluates_finite t x.
Proof.
  unfold evaluates_finiteb. rewrite forallb_forall. intros H Hx%elem_of_index_vectors%list_elem_of_In.
  specialize (H x Hx). rewrite forallb_forall in H. apply Forall_forall. intros m Hm%list_elem_of_In v Hv.
  specialize (H m Hm). rewrite Hv in H. exact H.
Qed.

(** A request for the indices 7, 6, ..., 2 of two overlaid layers, of which the second is opened
    for the request. *)
Definition example_domains : list (list IndexInterval) := [[MkInterval 0 5]; [MkInterval 3 5]].
Definition example_request : TransformRep :=
  MkTransform [plain_dimension 2 6] [MkOutputIndexMap (single_input_dimension 0) 9 (-1)].
Definition example_handle : DriverHandle (Driver := nat) :=
  MkDriverHandle 20%nat mode_read_write
    (MkTransform [plain_dimension 3 5] [MkOutputIndexMap (single_input_dimension 0) (-3) 1]).
Definition example_layers : list (StackLayer (Driver := nat)) :=
  [MkStackLayer (MkTransform [plain_dimension 0 5] [identity_map 0]) (Some (10%nat, mode_read));
   MkStackLayer (handle_transform example_handle) None].
Definition example_open (i : nat) : Result (DriverHandle (Driver := nat)) :=
  match i with 1%nat => Ok example_handle | _ => Err kInvalidArgument end.

Definition example_grid : IrregularGrid * gmap (list Z) nat :=
  match InitializeGridIndices [] example_domains with Ok r => r | Err _ => (MkIrregularGrid [] [], ∅) end.

Lemma OpenLayerOp_correct_witness :
  let result := OpenLayerOp mode_read example_request example_layers example_grid.2 example_grid.1 example_open [0] in
  result.2 = Ok tt /\
  exists d pos, d ∈ result.1 /\ TransformIndices (dispatched_cell d) pos = Ok [4] /\
    dispatched_driver d = 20%nat /\ TransformIndices (composed_transform d) pos = Ok [2].
Proof.
  intros result. assert (Hok : result.2 = Ok tt) by (vm_compute; reflexivity). split; [exact Hok|].
  destruct (PrePartitionIndexTransformOverGrid example_request [0%nat] (IrregularGridRef example_grid.1))
    as [info|] eqn:Hinfo; [|vm_compute in Hinfo; discriminate].
  destruct (OpenLayerOp_correct 1 [] example_domains example_grid.1 example_grid.2 example_request info
    mode_read example_layers example_open [0]) as [H _].
  - repeat constructor; unfold Valid; cbn; i64_lia.
  - discriminate.
  - vm_compute. reflexivity.
  - repeat constructor; vm_compute; discriminate.
  - apply WellFormedb_spec. vm_compute. reflexivity.
  - reflexivity.
  - cbn. lia.
  - lia.
  - apply inputs_disjointb_spec. vm_compute. reflexivity.
  - exact Hinfo.
  - repeat constructor.
  - intros x. apply evaluates_finiteb_spec. vm_compute. reflexivity.
  - intros g d y. apply preimagesb_spec. vm_compute. reflexivity.
  - intros [|g] Hg; [right; exists 0%nat; vm_compute; split; [reflexivity|discriminate]|lia].
  - reflexivity.
  - destruct (H Hok [4] [5]) as (k & d & pos & i & handle & Hk & _ & Hpos & Hi & Hh & Hd & Ht & _).
    { apply elem_of_index_vectors, list_elem_of_In. vm_compute. tauto. }
    { vm_compute. reflexivity. }
    assert (i = 1%nat) as ->.
    { eapply is_backing_layer_unique; [exact Hi|]. split; [exists [MkInterval 3 5]; split; [reflexivity|repeat constructor]|].
      intros j e Hj He. apply lookup_lt_Some in He. cbn in He. lia. }
    injection Hh as <-. exists d, pos. split; [eapply list_elem_of_lookup_2, Hk|]. split; [exact Hpos|].
    split; [exact Hd|]. rewrite Ht.
    + vm_compute. reflexivity.
    + apply WellFormedb_spec. vm_compute. reflexivity.
    + apply good_boundsb_spec. vm_compute. reflexivity.
    + apply check_input_domain_Ok; [apply WellFormed_valid_dims, WellFormedb_spec; vm_compute; reflexivity|reflexivity|].
      vm_compute. reflexivity.
Defined.
