(* ===== verification/BoxDifference.v ===== *)
(** The difference of two boxes as a sequence of disjoint boxes: [internal/box_difference.cc]. *)

From stdpp Require Import list.
From S2P Require Import Prelude Int64 IndexInterval.

(** * The definitions *)

Definition has_before (outer inner : IndexInterval) : bool := inclusive_min outer <? inclusive_min inner.
Definition has_after (outer inner : IndexInterval) : bool := inclusive_max inner <? inclusive_max outer.

(** The number of parts of a dimension that are not empty, the intersection included. *)
Definition num_parts (outer inner : IndexInterval) : Z :=
  1 + Z.b2z (has_before outer inner) + Z.b2z (has_after outer inner).

(** The loop of [GetNumSubtractionSubBoxes] over the dimensions. *)
Fixpoint count_parts (total_count : Z) (dims : list (IndexInterval * IndexInterval)) : Z :=
  match dims with
  | [] => (total_count - 1)%i64
  | (outer, inner) :: dims =>
      if empty (Intersect outer inner) then 1
      else count_parts (total_count * num_parts outer inner)%i64 dims
  end.

Definition GetNumSubtractionSubBoxes (outer inner : list IndexInterval) : Z :=
  count_parts 1 (zip outer inner).

(** The interval that the switch over [part_i] assigns. *)
Definition part (outer inner : IndexInterval) (part_i : Z) : IndexInterval :=
  if part_i =? 0 then Intersect outer inner
  else if (part_i =? 1) && has_before outer inner
  then UncheckedHalfOpen (inclusive_min outer) (inclusive_min inner)
  else UncheckedHalfOpen (exclusive_max inner) (exclusive_max outer).

(** The loop of [GetSubBox]; [None] stands for the early return that assigns [outer_]. *)
Fixpoint sub_box (dims : list (IndexInterval * IndexInterval)) (sub_box_index : Z) : option (list IndexInterval) :=
  match dims with
  | [] => Some []
  | (outer, inner) :: dims =>
      if empty (Intersect outer inner) then None
      else
        let n := num_parts outer inner in
        out ← sub_box dims (Z.quot sub_box_index n);
        Some (part outer inner (Z.rem sub_box_index n) :: out)
  end.

Definition GetSubBox (outer inner : list IndexInterval) (sub_box_index : Z) : list IndexInterval :=
  default outer (sub_box (zip outer inner) (sub_box_index + 1)%i64).

(** * One dimension *)

(** Bounds that the accessors compute without overflow; they may be crossed. *)
Definition bounded (x : IndexInterval) : Prop :=
  -kInfIndex <= inclusive_min x <= kInfIndex /\ -kInfIndex <= inclusive_min x + size x <= kInfIndex + 1.

(** The indices from the lower to the upper bound. *)
Definition inside (x : IndexInterval) (v : Z) : Prop := inclusive_min x <= v < inclusive_min x + size x.

Lemma Valid_bounded x : Valid x -> bounded x.
Proof. unfold Valid, bounded. lia. Qed.

Lemma bounded_max x : bounded x ->
  inclusive_max x = inclusive_min x + size x - 1 /\ exclusive_max x = inclusive_min x + size x.
Proof.
  unfold bounded, inclusive_max, exclusive_max. intros H. unfold_i64. split; unwrap64; lia.
Qed.

Lemma half_open_eq a b : in_i64 (b - a) -> UncheckedHalfOpen a b = MkInterval a (b - a).
Proof. intros H. unfold UncheckedHalfOpen. rewrite wrap64_id by exact H. reflexivity. Qed.

Section Dimension.
Variables outer inner : IndexInterval.
Hypotheses (Ho : bounded outer) (Hi : bounded inner).

Lemma bounded_intersect :
  bounded (Intersect outer inner) /\ 0 <= size (Intersect outer inner) /\
  forall v, inside (Intersect outer inner) v <-> inside outer v /\ inside inner v.
Proof.
  destruct (bounded_max outer Ho) as [Eo _], (bounded_max inner Hi) as [Ei _].
  unfold Intersect, UncheckedSized, inside. rewrite Eo, Ei. cbn [inclusive_min size].
  revert Ho Hi; unfold bounded; intros Ho' Hi'.
  destruct (Z.ltb_spec (Z.min (inclusive_min outer + size outer - 1) (inclusive_min inner + size inner - 1))
    (Z.max (inclusive_min outer) (inclusive_min inner))); unfold_i64; cbn [inclusive_min size].
  - repeat split; try intros; lia.
  - unwrap64. repeat split; try intros; lia.
Qed.

Lemma num_parts_range : 1 <= num_parts outer inner <= 3.
Proof. unfold num_parts. destruct (has_before _ _), (has_after _ _); cbn [Z.b2z]; lia. Qed.

Hypothesis Hne : empty (Intersect outer inner) = false.

Lemma not_empty_meet : exists v, inside outer v /\ inside inner v.
Proof.
  destruct bounded_intersect as (_ & H0 & H). unfold empty in Hne. apply Z.eqb_neq in Hne.
  exists (inclusive_min (Intersect outer inner)). apply H. unfold inside. lia.
Qed.

(** Every index of [outer] is in exactly one part; it is the part 0 for those in [inner]. *)
Lemma part_spec v : inside outer v <-> exists p, 0 <= p < num_parts outer inner /\ inside (part outer inner p) v.
Proof.
  destruct not_empty_meet as (w & Hwo & Hwi). destruct bounded_intersect as (_ & _ & HI).
  destruct (bounded_max outer Ho) as [Eo Eo'], (bounded_max inner Hi) as [Ei Ei']. unfold inside in Hwo, Hwi.
  assert (Hb : UncheckedHalfOpen (inclusive_min outer) (inclusive_min inner) =
    MkInterval (inclusive_min outer) (inclusive_min inner - inclusive_min outer))
    by (apply half_open_eq; unfold bounded in *; i64_lia).
  assert (Ha : UncheckedHalfOpen (exclusive_max inner) (exclusive_max outer) =
    MkInterval (inclusive_min inner + size inner) (inclusive_min outer + size outer - (inclusive_min inner + size inner)))
    by (rewrite half_open_eq, Eo', Ei'; [reflexivity|rewrite ?Eo', ?Ei'; unfold bounded in *; i64_lia]).
  unfold part, num_parts. rewrite Ha, Hb. clear Ha Hb.
  pose proof (Z.ltb_spec0 (inclusive_min outer) (inclusive_min inner)) as Rb. fold (has_before outer inner) in Rb.
  pose proof (Z.ltb_spec0 (inclusive_max inner) (inclusive_max outer)) as Ra. fold (has_after outer inner) in Ra.
  rewrite Eo, Ei in Ra. split.
  - intros Hv. unfold inside in Hv.
    destruct (Z.ltb_spec v (inclusive_min inner)) as [H1|H1];
      [|destruct (Z.ltb_spec v (inclusive_min inner + size inner)) as [H2|H2]].
    + exists 1. destruct Rb as [Rb|Rb]; [|lia]. split; [destruct Ra; cbn; lia|]. unfold inside; cbn. lia.
    + exists 0. split; [destruct Ra, Rb; cbn; lia|]. cbn [Z.eqb]. apply HI. unfold inside. lia.
    + destruct Ra as [Ra|Ra]; [|lia].
      destruct Rb; [exists 2|exists 1]; (split; [cbn; lia|]); unfold inside; cbn; lia.
  - intros (p & Hp & Hin). revert Hin. destruct (Z.eqb_spec p 0); [intros [H _]%HI; exact H|].
    destruct Ra, Rb, (Z.eqb_spec p 1); cbn in Hp |- *; unfold inside; cbn; lia.
Qed.

Lemma part_unique v p q : 0 <= p < num_parts outer inner -> 0 <= q < num_parts outer inner ->
  inside (part outer inner p) v -> inside (part outer inner q) v -> p = q.
Proof.
  destruct not_empty_meet as (w & Hwo & Hwi). destruct bounded_intersect as (_ & _ & HI).
  destruct (bounded_max outer Ho) as [Eo Eo'], (bounded_max inner Hi) as [Ei Ei']. unfold inside in Hwo, Hwi.
  unfold part, num_parts.
  rewrite !half_open_eq, Eo', Ei' by (rewrite ?Eo', ?Ei'; unfold bounded in *; i64_lia).
  pose proof (Z.ltb_spec0 (inclusive_min outer) (inclusive_min inner)) as Rb. fold (has_before outer inner) in Rb.
  destruct (Z.eqb_spec p 0), (Z.eqb_spec q 0); [intros; lia|rewrite HI|rewrite HI|];
    destruct (has_after outer inner), Rb, (Z.eqb_spec p 1), (Z.eqb_spec q 1); cbn; unfold inside; cbn; lia.
Qed.

Lemma part_zero v : inside (part outer inner 0) v <-> inside outer v /\ inside inner v.
Proof. apply bounded_intersect. Qed.

Lemma part_bounded p : 0 <= p < num_parts outer inner -> bounded (part outer inner p) /\ 0 < size (part outer inner p).
Proof.
  destruct not_empty_meet as (w & Hwo & Hwi). destruct bounded_intersect as (HB & H0 & HI).
  destruct (bounded_max outer Ho) as [Eo Eo'], (bounded_max inner Hi) as [Ei Ei']. unfold inside in Hwo, Hwi.
  unfold part, num_parts.
  rewrite !half_open_eq, Eo', Ei' by (rewrite ?Eo', ?Ei'; unfold bounded in *; i64_lia).
  pose proof (Z.ltb_spec0 (inclusive_min outer) (inclusive_min inner)) as Rb. fold (has_before outer inner) in Rb.
  pose proof (Z.ltb_spec0 (inclusive_max inner) (inclusive_max outer)) as Ra. fold (has_after outer inner) in Ra.
  rewrite Eo, Ei in Ra. unfold empty in Hne. apply Z.eqb_neq in Hne. intros Hp.
  destruct (Z.eqb_spec p 0); [split; [exact HB|lia]|].
  destruct Ra, Rb, (Z.eqb_spec p 1); cbn in Hp |- *; unfold bounded in *; cbn; lia.
Qed.
End Dimension.

(** * All dimensions *)

Definition all_inside (box : list IndexInterval) (v : list Z) : Prop := Forall2 inside box v.

(** The product of the numbers of parts. *)
Definition total_parts (dims : list (IndexInterval * IndexInterval)) : Z :=
  foldr (fun d n => num_parts d.1 d.2 * n) 1 dims.

Definition bounded_dims (dims : list (IndexInterval * IndexInterval)) : Prop :=
  Forall (fun d => bounded d.1 /\ bounded d.2) dims.
Definition meeting (dims : list (IndexInterval * IndexInterval)) : Prop :=
  Forall (fun d => empty (Intersect d.1 d.2) = false) dims.

Lemma total_parts_range dims : 1 <= total_parts dims <= 3 ^ Z.of_nat (length dims).
Proof.
  induction dims as [|[o i] dims IH]; cbn [total_parts foldr length fst snd]; [lia|].
  fold (total_parts dims). pose proof (num_parts_range o i). rewrite Nat2Z.inj_succ, Z.pow_succ_r by lia. nia.
Qed.

Lemma count_parts_meeting dims : forall total, meeting dims -> 1 <= total -> total * 3 ^ Z.of_nat (length dims) <= 3 ^ 32 ->
  count_parts total dims = total * total_parts dims - 1.
Proof.
  induction dims as [|[o i] dims IH]; intros total Hm Ht Hb; cbn [count_parts total_parts foldr length fst snd] in *.
  - rewrite Z.mul_1_r in *. change (3 ^ 32) with 1853020188851841 in Hb. cbn in Hb. apply wrap64_id. unfold_i64. lia.
  - apply Forall_cons in Hm as [E Hm]. cbn [fst snd] in E. rewrite E. fold (total_parts dims).
    rewrite Nat2Z.inj_succ, Z.pow_succ_r in Hb by lia. pose proof (num_parts_range o i) as Hn.
    pose proof (Z.pow_pos_nonneg 3 (Z.of_nat (length dims)) ltac:(lia) ltac:(lia)) as Hp.
    assert (Hle : total * num_parts o i * 3 ^ Z.of_nat (length dims) <= 3 ^ 32) by nia.
    rewrite wrap64_id by (change (3 ^ 32) with 1853020188851841 in Hle; unfold_i64; nia).
    rewrite IH; [ring|exact Hm|nia|exact Hle].
Qed.

Lemma count_parts_apart dims : forall total, ~ meeting dims -> count_parts total dims = 1.
Proof.
  induction dims as [|[o i] dims IH]; intros total Hm; cbn [count_parts].
  - destruct Hm. constructor.
  - destruct (empty (Intersect o i)) eqn:E; [reflexivity|]. apply IH. contradict Hm. constructor; assumption.
Qed.

Lemma sub_box_apart dims : forall k, ~ meeting dims -> sub_box dims k = None.
Proof.
  induction dims as [|[o i] dims IH]; intros k Hm; cbn [sub_box].
  - destruct Hm. constructor.
  - destruct (empty (Intersect o i)) eqn:E; [reflexivity|]. rewrite IH; [reflexivity|].
    contradict Hm. constructor; assumption.
Qed.

Lemma sub_box_meeting dims : forall k, meeting dims -> exists box, sub_box dims k = Some box /\ length box = length dims.
Proof.
  induction dims as [|[o i] dims IH]; intros k Hm; cbn [sub_box].
  - exists []. auto.
  - apply Forall_cons in Hm as [E Hm]. cbn [fst snd] in E. rewrite E. destruct (IH (Z.quot k (num_parts o i)) Hm) as (box & -> & Hl).
    eexists. split; [reflexivity|]. cbn. lia.
Qed.

(** The digits of a number of the mixed radix of [dims]. *)
Lemma digits n m k : 0 < n -> 0 <= k < n * m -> 0 <= Z.quot k n < m /\ 0 <= Z.rem k n < n /\ k = n * Z.quot k n + Z.rem k n.
Proof.
  intros Hn Hk. rewrite Z.quot_div_nonneg, Z.rem_mod_nonneg by lia.
  pose proof (Z.div_mod k n ltac:(lia)). pose proof (Z.mod_pos_bound k n ltac:(lia)). nia.
Qed.

Lemma digits_of n m q r : 0 <= q < m -> 0 <= r < n ->
  0 <= n * q + r < n * m /\ Z.quot (n * q + r) n = q /\ Z.rem (n * q + r) n = r.
Proof.
  intros Hq Hr. rewrite Z.quot_div_nonneg, Z.rem_mod_nonneg by nia.
  split; [nia|]. rewrite (Z.mul_comm n q). split.
  - symmetry. apply (Z.div_unique_pos _ _ _ r); lia.
  - symmetry. apply (Z.mod_unique_pos _ _ q); lia.
Qed.

Lemma sub_box_cons o i dims k : empty (Intersect o i) = false -> meeting dims ->
  exists out, sub_box dims (Z.quot k (num_parts o i)) = Some out /\
    sub_box ((o, i) :: dims) k = Some (part o i (Z.rem k (num_parts o i)) :: out).
Proof.
  intros E Hm. destruct (sub_box_meeting dims (Z.quot k (num_parts o i)) Hm) as (out & Eo & _).
  exists out. split; [exact Eo|]. cbn [sub_box]. rewrite E, Eo. reflexivity.
Qed.

(** Every position of the outer box is in exactly one of the boxes of all numbers. *)
Lemma sub_box_cover dims : bounded_dims dims -> meeting dims -> forall v,
  all_inside dims.*1 v <-> exists k box, 0 <= k < total_parts dims /\ sub_box dims k = Some box /\ all_inside box v.
Proof.
  intros Hb. induction Hb as [|[o i] dims [Ho Hi] Hb IH]; intros Hm v; cbn [fmap list_fmap fst snd] in *.
  - split; [|intros (k & box & _ & [= <-] & H); exact H]. intros H. exists 0, []. cbn. split; [lia|auto].
  - apply Forall_cons in Hm as [E Hm]. cbn [fst snd] in E. specialize (IH Hm). pose proof (num_parts_range o i) as Hn.
    change (total_parts ((o, i) :: dims)) with (num_parts o i * total_parts dims). unfold all_inside in *. split.
    + intros H. inversion H as [|? x ? v' Hx Hv]; subst.
      apply (part_spec o i Ho Hi E) in Hx as (p & Hp & Hx). apply IH in Hv as (k & box & Hk & Ek & Hv).
      destruct (digits_of (num_parts o i) (total_parts dims) k p Hk Hp) as (Hr & Eq & Er).
      exists (num_parts o i * k + p), (part o i p :: box). split; [exact Hr|].
      destruct (sub_box_cons o i dims (num_parts o i * k + p) E Hm) as (out & Eo & ->). rewrite Eq, Ek in Eo.
      injection Eo as <-. rewrite Er. split; [reflexivity|constructor; assumption].
    + intros (k & box & Hk & Ek & H). destruct (digits (num_parts o i) (total_parts dims) k ltac:(lia) Hk) as (Hq & Hr & _).
      destruct (sub_box_cons o i dims k E Hm) as (out & Eo & Ek'). rewrite Ek' in Ek. injection Ek as <-.
      inversion H as [|? x ? v' Hx Hv]; subst. constructor.
      * apply (part_spec o i Ho Hi E). eauto.
      * apply IH. eauto.
Qed.

Lemma sub_box_unique dims : bounded_dims dims -> meeting dims -> forall k k' box box' v,
  0 <= k < total_parts dims -> 0 <= k' < total_parts dims -> sub_box dims k = Some box -> sub_box dims k' = Some box' ->
  all_inside box v -> all_inside box' v -> k = k'.
Proof.
  intros Hb. induction Hb as [|[o i] dims [Ho Hi] Hb IH]; intros Hm k k' box box' v Hk Hk' Ek Ek' Hv Hv'.
  - cbn in Hk, Hk'. lia.
  - apply Forall_cons in Hm as [E Hm]. cbn [fst snd] in *. specialize (IH Hm). pose proof (num_parts_range o i) as Hn.
    change (total_parts ((o, i) :: dims)) with (num_parts o i * total_parts dims) in *.
    destruct (digits (num_parts o i) (total_parts dims) k ltac:(lia) Hk) as (Hq & Hr & Ekk),
      (digits (num_parts o i) (total_parts dims) k' ltac:(lia) Hk') as (Hq' & Hr' & Ekk').
    destruct (sub_box_cons o i dims k E Hm) as (out & Eo & Es), (sub_box_cons o i dims k' E Hm) as (out' & Eo' & Es').
    rewrite Es in Ek. rewrite Es' in Ek'. injection Ek as <-. injection Ek' as <-. unfold all_inside in *.
    inversion Hv as [|? x ? v1 Hx Hv1]; subst. inversion Hv' as [|? ? ? ? Hx' Hv1']; subst.
    pose proof (IH _ _ _ _ v1 Hq Hq' Eo Eo' Hv1 Hv1') as E1.
    pose proof (part_unique o i Ho Hi E x _ _ Hr Hr' Hx Hx') as E2. lia.
Qed.

(** The box of the number 0 is the intersection. *)
Lemma sub_box_zero dims : bounded_dims dims -> meeting dims -> exists box, sub_box dims 0 = Some box /\
  forall v, all_inside box v <-> all_inside dims.*1 v /\ all_inside dims.*2 v.
Proof.
  intros Hb. induction Hb as [|[o i] dims [Ho Hi] Hb IH]; intros Hm; cbn [fmap list_fmap fst snd] in *.
  - exists []. split; [reflexivity|]. intros v. tauto.
  - apply Forall_cons in Hm as [E Hm]. cbn [fst snd] in E. destruct (IH Hm) as (box & Eb & H).
    destruct (sub_box_cons o i dims 0 E Hm) as (out & Eo & ->). pose proof (num_parts_range o i).
    rewrite Z.quot_0_l in Eo by lia. rewrite Z.rem_0_l by lia. assert (out = box) as -> by congruence.
    eexists. split; [reflexivity|]. intros v. unfold all_inside in *. split.
    + intros Hv. inversion Hv as [|? x ? v1 Hx Hv1]; subst. apply (part_zero o i Ho Hi) in Hx as [? ?].
      apply H in Hv1 as [? ?]. split; constructor; assumption.
    + intros [H1 H2]. inversion H1 as [|? x ? v1 Hx Hv1]; subst. inversion H2; subst. constructor.
      * apply (part_zero o i Ho Hi). auto.
      * apply H. auto.
Qed.

(** * The theorem *)

Lemma not_meeting_apart outer inner v : Forall bounded outer -> Forall bounded inner ->
  ~ meeting (zip outer inner) -> all_inside outer v -> all_inside inner v -> False.
Proof.
  intros Ho Hi Hm Hv. revert inner Hi Hm. induction Hv as [|o x outer v Hx Hv IH]; intros inner Hi Hm Hv'.
  - destruct Hm. constructor.
  - inversion Hv' as [|i ? inner' ? Hxi Hvi]; subst. apply Forall_cons in Ho as [Ho Ho'], Hi as [Hi Hi'].
    apply (IH Ho' inner' Hi'); [|exact Hvi]. contradict Hm. constructor; [|exact Hm]. cbn [fst snd].
    destruct (bounded_intersect o i Ho Hi) as (_ & H0 & H). specialize (H x). unfold empty. apply Z.eqb_neq.
    assert (inside (Intersect o i) x) as Hin by (apply H; auto). unfold inside in Hin. lia.
Qed.

(** The boxes have no empty dimension, and bounds that can be represented. *)
Lemma sub_box_bounded dims : bounded_dims dims -> meeting dims -> forall k box,
  0 <= k < total_parts dims -> sub_box dims k = Some box -> Forall (fun x => bounded x /\ 0 < size x) box.
Proof.
  intros Hb. induction Hb as [|[o i] dims [Ho Hi] Hb IH]; intros Hm k box Hk Ek; [injection Ek as <-; constructor|].
  apply Forall_cons in Hm as [E Hm]. cbn [fst snd] in *. pose proof (num_parts_range o i).
  change (total_parts ((o, i) :: dims)) with (num_parts o i * total_parts dims) in Hk.
  destruct (digits (num_parts o i) (total_parts dims) k ltac:(lia) Hk) as (Hq & Hr & _).
  destruct (sub_box_cons o i dims k E Hm) as (out & Eo & Es). rewrite Es in Ek. injection Ek as <-.
  constructor; [exact (part_bounded o i Ho Hi E _ Hr)|exact (IH Hm _ _ Hq Eo)].
Qed.

Section Meeting.
Variables outer inner : list IndexInterval.
Hypotheses (Hlength : length outer = length inner) (Hrank : (length outer <= 32)%nat).
Hypotheses (Houter : Forall bounded outer) (Hinner : Forall bounded inner).
Hypothesis Hmeeting : meeting (zip outer inner).

Let Hfst : (zip outer inner).*1 = outer. Proof. apply fst_zip. lia. Qed.
Let Hsnd : (zip outer inner).*2 = inner. Proof. apply snd_zip. lia. Qed.

Lemma zip_bounded : bounded_dims (zip outer inner).
Proof.
  apply Forall_lookup. intros i [o x] H. apply lookup_zip_Some in H as [H1 H2].
  rewrite Forall_lookup in Houter, Hinner. split; [exact (Houter _ _ H1)|exact (Hinner _ _ H2)].
Qed.

Lemma count_meeting :
  GetNumSubtractionSubBoxes outer inner = total_parts (zip outer inner) - 1 /\
  0 <= GetNumSubtractionSubBoxes outer inner <= 3 ^ Z.of_nat (length outer) - 1.
Proof.
  assert (E : GetNumSubtractionSubBoxes outer inner = total_parts (zip outer inner) - 1).
  { unfold GetNumSubtractionSubBoxes. rewrite count_parts_meeting; [lia|exact Hmeeting|lia|].
    rewrite Z.mul_1_l. apply Z.pow_le_mono_r; [lia|]. rewrite length_zip. lia. }
  split; [exact E|]. rewrite E. pose proof (total_parts_range (zip outer inner)) as H.
  rewrite length_zip, Nat.min_l in H by lia. lia.
Qed.

Lemma box_at k : 0 <= k < GetNumSubtractionSubBoxes outer inner ->
  sub_box (zip outer inner) (k + 1) = Some (GetSubBox outer inner k) /\
  length (GetSubBox outer inner k) = length outer.
Proof.
  intros Hk. destruct (sub_box_meeting (zip outer inner) (k + 1) Hmeeting) as (box & E & El).
  assert (GetSubBox outer inner k = box) as ->.
  { unfold GetSubBox. rewrite wrap64_id, E; [reflexivity|]. pose proof (proj2 count_meeting) as H.
    pose proof (Z.pow_le_mono_r 3 (Z.of_nat (length outer)) 32 ltac:(lia) ltac:(lia)) as Hp.
    change (3 ^ 32) with 1853020188851841 in Hp. unfold_i64. lia. }
  split; [exact E|]. rewrite El, length_zip. lia.
Qed.

Lemma cover_meeting v : all_inside outer v /\ ~ all_inside inner v <->
  exists k, 0 <= k < GetNumSubtractionSubBoxes outer inner /\ all_inside (GetSubBox outer inner k) v.
Proof.
  pose proof zip_bounded as Hd. destruct (sub_box_zero _ Hd Hmeeting) as (zero & Ez & Hz). rewrite Hfst, Hsnd in Hz.
  pose proof (sub_box_cover _ Hd Hmeeting v) as Hc. rewrite Hfst in Hc. pose proof (proj1 count_meeting) as En. split.
  - intros [H1 H2]. apply Hc in H1 as (k & box & Hk & Ek & Hv). destruct (decide (k = 0)) as [->|Hk0].
    { destruct H2. apply Hz. congruence. }
    exists (k - 1). split; [lia|]. destruct (box_at (k - 1)) as [E _]; [lia|]. rewrite Z.sub_add in E. congruence.
  - intros (k & Hk & Hv). destruct (box_at k Hk) as [E _].
    assert (Hv' : all_inside outer v) by (apply Hc; exists (k + 1), (GetSubBox outer inner k); split; [lia|auto]).
    split; [exact Hv'|]. intros Hin. pose proof (proj2 (Hz v) (conj Hv' Hin)) as H0.
    pose proof (sub_box_unique _ Hd Hmeeting (k + 1) 0 _ _ v ltac:(lia) ltac:(lia) E Ez Hv H0). lia.
Qed.

Lemma unique_meeting k k' v : 0 <= k < GetNumSubtractionSubBoxes outer inner ->
  0 <= k' < GetNumSubtractionSubBoxes outer inner ->
  all_inside (GetSubBox outer inner k) v -> all_inside (GetSubBox outer inner k') v -> k = k'.
Proof.
  intros Hk Hk' Hv Hv'. destruct (box_at k Hk) as [E _], (box_at k' Hk') as [E' _]. pose proof (proj1 count_meeting).
  pose proof (sub_box_unique _ zip_bounded Hmeeting (k + 1) (k' + 1) _ _ v ltac:(lia) ltac:(lia) E E' Hv Hv'). lia.
Qed.

Lemma bounded_meeting k : 0 <= k < GetNumSubtractionSubBoxes outer inner ->
  Forall (fun x => bounded x /\ 0 < size x) (GetSubBox outer inner k).
Proof.
  intros Hk. destruct (box_at k Hk) as [E _]. pose proof (proj1 count_meeting).
  exact (sub_box_bounded _ zip_bounded Hmeeting (k + 1) _ ltac:(lia) E).
Qed.
End Meeting.

(** When the boxes are apart in some dimension, the difference is the outer box. *)
Lemma GetSubBox_apart outer inner : ~ meeting (zip outer inner) ->
  GetNumSubtractionSubBoxes outer inner = 1 /\ forall k, GetSubBox outer inner k = outer.
Proof.
  intros Hm. split; [apply count_parts_apart, Hm|]. intros k. unfold GetSubBox. rewrite sub_box_apart by exact Hm. reflexivity.
Qed.

(** The boxes of the difference. *)
Lemma BoxDifference_spec outer inner :
  length outer = length inner -> (length outer <= 32)%nat -> Forall bounded outer -> Forall bounded inner ->
  let num_sub_boxes := GetNumSubtractionSubBoxes outer inner in
  0 <= num_sub_boxes <= 3 ^ Z.of_nat (length outer) - 1 /\
  (forall v, all_inside outer v /\ ~ all_inside inner v <->
     exists k, 0 <= k < num_sub_boxes /\ all_inside (GetSubBox outer inner k) v) /\
  (forall k k' v, 0 <= k < num_sub_boxes -> 0 <= k' < num_sub_boxes ->
     all_inside (GetSubBox outer inner k) v -> all_inside (GetSubBox outer inner k') v -> k = k') /\
  (forall k, 0 <= k < num_sub_boxes -> let box := GetSubBox outer inner k in
     length box = length outer /\ Forall bounded box /\ (box = outer \/ Forall (fun x => 0 < size x) box)).
Proof.
  intros Hl Hr Ho Hi. cbn zeta. destruct (decide (meeting (zip outer inner))) as [Hm|Hm].
  - split; [apply count_meeting; assumption|]. split; [apply cover_meeting; assumption|].
    split; [apply unique_meeting; assumption|]. intros k Hk.
    pose proof (bounded_meeting outer inner Hl Hr Ho Hi Hm k Hk) as H. split; [apply box_at; assumption|].
    split; [|right]; (eapply Forall_impl; [exact H|]); cbn; tauto.
  - destruct (GetSubBox_apart outer inner Hm) as [E1 E2]. rewrite E1. split; [|split; [|split]].
    + destruct outer as [|o outer]; [destruct Hm; destruct inner; constructor|]. cbn [length].
      rewrite Nat2Z.inj_succ, Z.pow_succ_r by lia. pose proof (Z.pow_pos_nonneg 3 (Z.of_nat (length outer))). lia.
    + intros v. split; [intros [H _]; exists 0; rewrite E2; split; [lia|exact H]|].
      intros (k & _ & H). rewrite E2 in H. split; [exact H|]. exact (not_meeting_apart outer inner v Ho Hi Hm H).
    + intros k k' v Hk Hk'. lia.
    + intros k _. rewrite E2. auto.
Qed.

(** C21: the difference of two boxes.  Every position of [outer] that is not in [inner] is in
    exactly one of the boxes that [GetSubBox] returns for the indices from 0 to
    [num_sub_boxes() - 1], and no other position is in them.  There are at most
    [pow(3, rank) - 1] boxes, the bounds of each can be represented, and none is empty unless it
    is the whole of [outer].  The bounds of the arguments may be crossed, as those of a
    dimension that is resized to less than nothing are. *)
Theorem BoxDifference_correct outer inner :
  length outer = length inner -> (length outer <= 32)%nat -> Forall bounded outer -> Forall bounded inner ->
  let num_sub_boxes := GetNumSubtractionSubBoxes outer inner in
  0 <= num_sub_boxes <= 3 ^ Z.of_nat (length outer) - 1 /\
  (forall v, all_inside outer v /\ ~ all_inside inner v <->
     exists k, 0 <= k < num_sub_boxes /\ all_inside (GetSubBox outer inner k) v) /\
  (forall k k' v, 0 <= k < num_sub_boxes -> 0 <= k' < num_sub_boxes ->
     all_inside (GetSubBox outer inner k) v -> all_inside (GetSubBox outer inner k') v -> k = k') /\
  (forall k, 0 <= k < num_sub_boxes -> let box := GetSubBox outer inner k in
     length box = length outer /\ Forall bounded box /\ (box = outer \/ Forall (fun x => 0 < size x) box)).
Proof. apply BoxDifference_spec. Qed.

Lemma BoxDifference_correct_witness :
  let outer := [MkInterval 0 5; MkInterval 1 3] in
  let inner := [MkInterval 2 2; MkInterval (-4) 7] in
  GetNumSubtractionSubBoxes outer inner = 5 /\
  (exists k, 0 <= k < 5 /\ all_inside (GetSubBox outer inner k) [2; 3]) /\
  ~ exists k, 0 <= k < 5 /\ all_inside (GetSubBox outer inner k) [3; 2].
Proof.
  intros outer inner. destruct (BoxDifference_correct outer inner) as (_ & H & _).
  - reflexivity.
  - cbn. lia.
  - repeat constructor; cbn; i64_lia.
  - repeat constructor; cbn; i64_lia.
  - assert (E : GetNumSubtractionSubBoxes outer inner = 5) by (vm_compute; reflexivity). rewrite E in H.
    split; [exact E|]. split; rewrite <- H; unfold all_inside.
    + split; [repeat constructor; unfold inside; cbn; lia|]. intros F. inversion F as [|? ? ? ? _ F']; subst.
      inversion F' as [|? ? ? ? F'' _]; subst. unfold inside in F''. cbn in F''. lia.
    + intros [_ F]. apply F. repeat constructor; unfold inside; cbn; lia.
Defined.
