(* ===== verification/Resize.v ===== *)
(** Resizing of chunked arrays: [PropagateInputDomainResizeToOutput] in
    [index_space/index_transform.cc], and [driver/kvs_backed_chunk_driver.cc] with the metadata of
    the zarr driver, [driver/zarr/driver.cc].  A resize request on a view is propagated to the
    bounds of the stored array, the chunks that are out of the new bounds are deleted, and the
    metadata is updated. *)

From stdpp Require Import strings gmap.
From S2P Require Import Prelude Int64 IndexInterval Transform GridPartition BoxDifference.

(** * Intervals: [index_interval.h] *)

Definition ExplicitIndexOr (index default_value : Z) : Z := if index =? kImplicit then default_value else index.
Definition ImplicitOrEqual (index expected : Z) : bool := (index =? kImplicit) || (index =? expected).
Definition DividePositiveRoundOut (interval : IndexInterval) (divisor : Z) : IndexInterval :=
  UncheckedHalfOpen (FloorOfRatio (inclusive_min interval) divisor) (CeilOfRatio (exclusive_max interval) divisor).

(** * From a view to the stored array: [index_space/index_transform.cc] *)

Definition ValidateInputDimensionResize (input_domain : OptionallyImplicitIndexInterval)
    (requested_inclusive_min requested_exclusive_max : Z) : Result unit :=
  if negb (requested_inclusive_min =? kImplicit) && negb (requested_inclusive_min =? -kInfIndex)
     && negb (IsFiniteIndex requested_inclusive_min) then Err kInvalidArgument
  else if negb (requested_exclusive_max =? kImplicit) && negb (requested_exclusive_max =? kInfIndex + 1)
     && negb (IsFiniteIndex (requested_exclusive_max - 1)%i64) then Err kInvalidArgument
  else if negb (requested_inclusive_min =? kImplicit) && negb (requested_exclusive_max =? kImplicit)
     && (requested_exclusive_max <? requested_inclusive_min) then Err kInvalidArgument
  else if negb (implicit_lower input_domain) && negb (requested_inclusive_min =? kImplicit) then Err kInvalidArgument
  else if negb (implicit_upper input_domain) && negb (requested_exclusive_max =? kImplicit) then Err kInvalidArgument
  else Ok tt.

(** The bounds that are requested for one dimension. *)
Record ResizeBounds := MkResizeBounds {
  new_inclusive_min : Z;
  new_exclusive_max : Z
}.

Definition no_change : ResizeBounds := MkResizeBounds kImplicit kImplicit.

Definition resizes (r : ResizeBounds) : bool :=
  negb (new_inclusive_min r =? kImplicit) || negb (new_exclusive_max r =? kImplicit).

(** [std::abs(stride) != 1]. *)
Definition non_unit (stride : Z) : bool := negb (wrap64 (Z.abs stride) =? 1).

(** The interval that a request stands for. *)
Definition requested_interval (r : ResizeBounds) : OptionallyImplicitIndexInterval :=
  let min := new_inclusive_min r in
  let max := new_exclusive_max r in
  MkOI (UncheckedHalfOpen (if min =? kImplicit then -kInfIndex else min)
          (if max =? kImplicit then kInfIndex + 1 else max))
    (min =? kImplicit) (max =? kImplicit).

(** The bounds that are not implicit. *)
Definition explicit_bounds (x : OptionallyImplicitIndexInterval) : ResizeBounds :=
  MkResizeBounds (if implicit_lower x then kImplicit else inclusive_min (interval x))
    (if implicit_upper x then kImplicit else exclusive_max (interval x)).

(** The first loop: the new bounds of an output dimension, and whether its input dimension is
    resized. *)
Definition propagate_new_bounds (requested : list ResizeBounds) (map : OutputIndexMap) : Result (ResizeBounds * bool) :=
  match method map with
  | single_input_dimension input_dim =>
      r ← checked_at requested input_dim;
      if resizes r then
        if non_unit (stride map) then Err kInvalidArgument
        else
          output_bounds ← OI_GetAffineTransformRange (requested_interval r) (offset map) (stride map);
          Ok (explicit_bounds output_bounds, true)
      else Ok (no_change, false)
  | _ => Ok (no_change, false)
  end.

(** The second loop: the constraint of an output dimension; [num_input_dim_deps] counts the
    output dimensions of every input dimension. *)
Definition propagate_constraint (input_domain : list IndexDomainDimension) (can_resize_tied_bounds : bool)
    (st : list nat * list ResizeBounds) (map : OutputIndexMap) : Result (list nat * list ResizeBounds) :=
  let '(num_input_dim_deps, constraints) := st in
  match method map with
  | constant =>
      if negb (IsFiniteIndex (offset map)) then Err kInvalidArgument
      else if can_resize_tied_bounds then Ok (num_input_dim_deps, constraints ++ [no_change])
      else Ok (num_input_dim_deps, constraints ++ [MkResizeBounds (offset map) (offset map + 1)%i64])
  | single_input_dimension input_dim =>
      if can_resize_tied_bounds then Ok (num_input_dim_deps, constraints ++ [no_change])
      else
        n ← checked_at num_input_dim_deps input_dim;
        d ← checked_at input_domain input_dim;
        if negb (n =? 0)%nat then Err kInvalidArgument
        else if non_unit (stride map) then Err kInvalidArgument
        else
          output_bounds ← OI_GetAffineTransformRange (optionally_implicit_domain d) (offset map) (stride map);
          Ok (<[input_dim := S n]> num_input_dim_deps, constraints ++ [explicit_bounds output_bounds])
  | array _ =>
      if can_resize_tied_bounds then Ok (num_input_dim_deps, constraints ++ [no_change])
      else Err kInvalidArgument
  end.

Record ResizePropagation := MkResizePropagation {
  new_output_bounds : list ResizeBounds;
  output_constraints : list ResizeBounds;
  is_noop : bool
}.

Definition PropagateInputDomainResizeToOutput (transform : TransformRep) (requested : list ResizeBounds)
    (can_resize_tied_bounds : bool) : Result ResizePropagation :=
  _ ← mapR (fun '(d, r) => ValidateInputDimensionResize (optionally_implicit_domain d)
        (new_inclusive_min r) (new_exclusive_max r)) (zip (input_dimensions transform) requested);
  news ← mapR (propagate_new_bounds requested) (output_index_maps transform);
  if negb (existsb snd news) then
    Ok (MkResizePropagation news.*1 (replicate (output_rank transform) no_change) true)
  else
    st ← foldM (propagate_constraint (input_dimensions transform) can_resize_tied_bounds)
           (replicate (input_rank transform) 0%nat, []) (output_index_maps transform);
    Ok (MkResizePropagation news.*1 st.2 false).

(** * Validation against stored bounds: [driver/kvs_backed_chunk_driver.cc] *)

Definition GetNewIndexInterval (existing : IndexInterval) (r : ResizeBounds) : IndexInterval :=
  UncheckedHalfOpen (ExplicitIndexOr (new_inclusive_min r) (inclusive_min existing))
    (ExplicitIndexOr (new_exclusive_max r) (exclusive_max existing)).

(** Every case of [ShapeConstraintError] has the same status. *)
Definition ShapeConstraintError {A} : Result A := Err kFailedPrecondition.

Definition ValidateResizeDomainConstraint (current_domain : list IndexInterval) (constraints : list ResizeBounds)
    : Result unit :=
  _ ← mapR (fun '(cur_interval, c) =>
        if negb (ImplicitOrEqual (new_inclusive_min c) (inclusive_min cur_interval)) then ShapeConstraintError
        else if negb (ImplicitOrEqual (new_exclusive_max c) (exclusive_max cur_interval)) then ShapeConstraintError
        else Ok tt) (zip current_domain constraints);
  Ok tt.

Definition ValidateExpandShrinkConstraints (current_domain : list IndexInterval) (new_bounds : list ResizeBounds)
    (expand_only shrink_only : bool) : Result unit :=
  _ ← mapR (fun '(cur_interval, r) =>
        let new_interval := GetNewIndexInterval cur_interval r in
        if shrink_only && negb (ContainsInterval cur_interval new_interval) then Err kFailedPrecondition
        else if expand_only && negb (ContainsInterval new_interval cur_interval) then Err kFailedPrecondition
        else Ok tt) (zip current_domain new_bounds);
  Ok tt.

Definition ValidateResizeConstraints (current_domain : list IndexInterval) (new_bounds constraints : list ResizeBounds)
    (expand_only shrink_only : bool) : Result unit :=
  _ ← ValidateResizeDomainConstraint current_domain constraints;
  ValidateExpandShrinkConstraints current_domain new_bounds expand_only shrink_only.

(** * Options and parameters *)

(** [ResizeMode], a set of bits, and [TransactionMode]. *)
Definition resize_metadata_only : Z := 1.
Definition resize_tied_bounds : Z := 2.
Definition expand_only_mode : Z := 4.
Definition shrink_only_mode : Z := 8.
Definition atomic_isolated : Z := 3.

Definition has_mode (mode flag : Z) : bool := Z.land mode flag =? flag.

Record ResizeParameters := MkResizeParameters {
  grid_new_bounds : list ResizeBounds;
  grid_constraints : list ResizeBounds;
  expand_only : bool;
  shrink_only : bool
}.

(** A component array of the chunk grid: the domain of its fill value and the dimensions of it
    that are chunked. *)
Record Component := MkComponent {
  fill_value_domain : list IndexInterval;
  chunked_to_cell_dimensions : list nat
}.

Record ChunkGridSpecification := MkChunkGrid {
  components : list Component;
  chunk_shape : list Z
}.
Definition grid_rank (grid : ChunkGridSpecification) : nat := length (chunk_shape grid).

(** * The cache of the chunks *)

(** The virtual methods of [ChunkedDataCacheBase] that a resize calls.  Resizable bounds are
    implicit. *)
Class ChunkedDataCache (Metadata : Type) := {
  grid : ChunkGridSpecification;
  ValidateMetadataCompatibility : Metadata -> Metadata -> Result unit;
  GetChunkGridBounds : Metadata -> list OptionallyImplicitIndexInterval;
  GetResizedMetadata : Metadata -> list ResizeBounds -> Result Metadata
}.

Section Cache.
Context {Metadata : Type} {cache : ChunkedDataCache Metadata}.

Definition set_component_bound (grid_bounds : list OptionallyImplicitIndexInterval)
    (chunked_to_cell : list nat) (bounds : list OptionallyImplicitIndexInterval) (grid_dim : nat)
    : Result (list OptionallyImplicitIndexInterval) :=
  cell_dim ← checked_at chunked_to_cell grid_dim;
  b ← checked_at grid_bounds grid_dim;
  _ ← checked_at bounds cell_dim;
  Ok (<[cell_dim := b]> bounds).

Definition GetComponentBounds (metadata : Metadata) (component_index : nat)
    : Result (list OptionallyImplicitIndexInterval) :=
  component_spec ← checked_at (components grid) component_index;
  let grid_bounds := GetChunkGridBounds metadata in
  foldM (set_component_bound grid_bounds (chunked_to_cell_dimensions component_spec))
    ((fun d => MkOI d false false) <$> fill_value_domain component_spec) (seq 0 (length grid_bounds)).

(** The loop over the output dimensions: bounds that cannot be resized, and the additional
    constraints of atomic transactions that delete chunks. *)
Definition validate_output_dim (options_mode transaction_mode : Z)
    (d : OptionallyImplicitIndexInterval * (ResizeBounds * ResizeBounds)) : Result ResizeBounds :=
  let '(dim_bounds, (new, constraint)) := d in
  _ ← (if implicit_lower dim_bounds then Ok tt
       else if negb (ImplicitOrEqual (new_inclusive_min constraint) (inclusive_min (interval dim_bounds)))
       then ShapeConstraintError
       else if negb (ImplicitOrEqual (new_inclusive_min new) (inclusive_min (interval dim_bounds)))
       then Err kFailedPrecondition
       else Ok tt);
  _ ← (if implicit_upper dim_bounds then Ok tt
       else if negb (ImplicitOrEqual (new_exclusive_max constraint) (exclusive_max (interval dim_bounds)))
       then ShapeConstraintError
       else if negb (ImplicitOrEqual (new_exclusive_max new) (exclusive_max (interval dim_bounds)))
       then Err kFailedPrecondition
       else Ok tt);
  if (transaction_mode =? atomic_isolated) && negb (has_mode options_mode resize_metadata_only)
     && negb (has_mode options_mode expand_only_mode)
  then Ok (MkResizeBounds (inclusive_min (interval dim_bounds)) (exclusive_max (interval dim_bounds)))
  else Ok constraint.

Definition GetResizeParameters (metadata : Metadata) (component_index : nat) (transform : TransformRep)
    (requested : list ResizeBounds) (options_mode transaction_mode : Z) : Result ResizeParameters :=
  base_bounds ← GetComponentBounds metadata component_index;
  p ← PropagateInputDomainResizeToOutput transform requested (has_mode options_mode resize_tied_bounds);
  if is_noop p then Err kAborted
  else if negb (length (components grid) =? 1)%nat && negb (has_mode options_mode resize_tied_bounds)
  then Err kFailedPrecondition
  else
    constraints ← mapR (validate_output_dim options_mode transaction_mode)
      (zip base_bounds (zip (new_output_bounds p) (output_constraints p)));
    component_spec ← checked_at (components grid) component_index;
    let chunked_to_cell := chunked_to_cell_dimensions component_spec in
    new_grid ← mapR (fun i => j ← checked_at chunked_to_cell i; checked_at (new_output_bounds p) j)
      (seq 0 (grid_rank grid));
    grid_constraint ← mapR (fun i => j ← checked_at chunked_to_cell i; checked_at constraints j)
      (seq 0 (grid_rank grid));
    Ok (MkResizeParameters new_grid grid_constraint (has_mode options_mode expand_only_mode)
          (has_mode options_mode shrink_only_mode)).

(** * Deletion of chunks *)

(** The chunks that cover the current bounds, and those that cover the new ones. *)
Definition current_grid_bounds (current_bounds : list IndexInterval) : list IndexInterval :=
  zip_with DividePositiveRoundOut current_bounds (chunk_shape grid).
Definition new_grid_bounds (current_bounds : list IndexInterval) (new_bounds : list ResizeBounds) : list IndexInterval :=
  zip_with DividePositiveRoundOut (zip_with GetNewIndexInterval current_bounds new_bounds) (chunk_shape grid).

(** [DeleteChunksForResize]: the cells whose chunks are deleted, in the order of the calls of
    [DeleteCell]. *)
Definition DeleteChunksForResize (current_bounds : list IndexInterval) (new_bounds : list ResizeBounds)
    : list (list Z) :=
  let outer := current_grid_bounds current_bounds in
  let inner := new_grid_bounds current_bounds new_bounds in
  box_i ← seqZ 0 (GetNumSubtractionSubBoxes outer inner);
  index_vectors (GetSubBox outer inner box_i).

(** [ResolveBoundsForDeleteAndResizeContinuation]: the deletions for the metadata that is current.
    Metadata that is still the same object is not validated by the code. *)
Definition ResolveBoundsForDeleteAndResize (initial_metadata metadata : Metadata) (p : ResizeParameters)
    : Result (list (list Z)) :=
  _ ← ValidateMetadataCompatibility initial_metadata metadata;
  let bounds := interval <$> GetChunkGridBounds metadata in
  _ ← ValidateResizeConstraints bounds (grid_new_bounds p) (grid_constraints p) false (shrink_only p);
  Ok (DeleteChunksForResize bounds (grid_new_bounds p)).

(** [RequestResize]: the update of the metadata; [None] if it was deleted. *)
Definition RequestResize (initial_metadata : Metadata) (current_metadata : option Metadata) (p : ResizeParameters)
    : Result Metadata :=
  match current_metadata with
  | None => Err kNotFound
  | Some current =>
      _ ← ValidateMetadataCompatibility initial_metadata current;
      let bounds := interval <$> GetChunkGridBounds current in
      _ ← ValidateResizeConstraints bounds (grid_new_bounds p) (grid_constraints p) (expand_only p) (shrink_only p);
      GetResizedMetadata current (grid_new_bounds p)
  end.

(** * The stored array, and the steps of a resize *)

(** What is stored: the metadata, and the cells that have a chunk. *)
Record Store := MkStore {
  stored_metadata : option Metadata;
  stored_cells : gset (list Z)
}.

Definition delete_cells (st : Store) (cells : list (list Z)) : Store :=
  MkStore (stored_metadata st) (stored_cells st ∖ list_to_set cells).

(** [KvsChunkedDriverBase::Resize] on the metadata that the driver was opened with, and whether
    it was opened with [assume_metadata]: the parameters are computed, the chunks deleted, unless only the metadata is resized or the
    bounds may only grow, and the metadata is updated.  [between] stands for what other clients
    do to the store between the two steps. *)
Definition Resize (assume_metadata : bool) (initial_metadata : Metadata) (component_index : nat) (transform : TransformRep)
    (requested : list ResizeBounds) (options_mode transaction_mode : Z) (between : Store -> Store) (st : Store)
    : Store * Result unit :=
  if assume_metadata then (st, Err kInvalidArgument) else
  match GetResizeParameters initial_metadata component_index transform requested options_mode transaction_mode with
  | Err kAborted => (st, Ok tt)
  | Err e => (st, Err e)
  | Ok p =>
      let deleted :=
        if has_mode options_mode resize_metadata_only || has_mode options_mode expand_only_mode then Ok st
        else
          match stored_metadata st with
          | None => Err kFailedPrecondition
          | Some metadata =>
              cells ← ResolveBoundsForDeleteAndResize initial_metadata metadata p;
              Ok (delete_cells st cells)
          end in
      match deleted with
      | Err e => (st, Err e)
      | Ok st =>
          let st := between st in
          match RequestResize initial_metadata (stored_metadata st) p with
          | Err e => (st, Err e)
          | Ok metadata => (MkStore (Some metadata) (stored_cells st), Ok tt)
          end
      end
  end.
End Cache.

(** * The metadata of the zarr driver: [driver/zarr/driver.cc] *)

(** [ZarrMetadata]: the shape, which a resize changes, and the other members that have to be the
    same in compatible metadata, as the JSON text that [IsMetadataCompatible] compares. *)
Record ZarrMetadata := MkZarrMetadata {
  zarr_shape : list Z;
  zarr_other : string
}.

Definition IsMetadataCompatible (a b : ZarrMetadata) : bool :=
  (length (zarr_shape a) =? length (zarr_shape b))%nat && bool_decide (zarr_other a = zarr_other b).

Definition zarr_ValidateMetadataCompatibility (existing_metadata new_metadata : ZarrMetadata) : Result unit :=
  if IsMetadataCompatible existing_metadata new_metadata then Ok tt else Err kFailedPrecondition.

Definition zarr_GetChunkGridBounds (metadata : ZarrMetadata) : list OptionallyImplicitIndexInterval :=
  (fun n => MkOI (MkInterval 0 n) false true) <$> zarr_shape metadata.

Definition zarr_GetResizedMetadata (existing : ZarrMetadata) (new_bounds : list ResizeBounds) : Result ZarrMetadata :=
  Ok (MkZarrMetadata
    (zip_with (fun size r => if new_exclusive_max r =? kImplicit then size else new_exclusive_max r)
      (zarr_shape existing) new_bounds)
    (zarr_other existing)).

#[export] Instance zarr_cache (chunk_grid : ChunkGridSpecification) : ChunkedDataCache ZarrMetadata := {
  grid := chunk_grid;
  ValidateMetadataCompatibility := zarr_ValidateMetadataCompatibility;
  GetChunkGridBounds := zarr_GetChunkGridBounds;
  GetResizedMetadata := zarr_GetResizedMetadata
}.
