(* ===== verification/ResizeCells.v ===== *)
(** Deletion of the chunks that are out of the new bounds of a resized array. *)

From stdpp Require Import strings gmap.
From S2P Require Import Prelude Int64 IndexInterval Transform GridPartition GridArrays BoxDifference Resize.

(** * Chunks of an interval *)

Lemma div_le_iff a k c : 0 < c -> a / c <= k <-> a < (k + 1) * c.
Proof.
  intros Hc. split; intros H.
  - pose proof (Z.mul_div_le a c Hc). pose proof (Z.mod_pos_bound a c Hc). pose proof (Z.div_mod a c ltac:(lia)). nia.
  - apply Z.lt_succ_r. apply Z.div_lt_upper_bound; lia.
Qed.

Lemma lt_ceil_iff b k c : 0 < c -> k < - (- b / c) <-> k * c < b.
Proof.
  intros Hc. enough (- b / c < - k <-> - b < - k * c) by lia. split; intros H.
  - assert (- b / c <= - k - 1) as H'%(div_le_iff _ _ _ Hc) by lia. lia.
  - apply Z.div_lt_upper_bound; lia.
Qed.

(** The chunks that [DividePositiveRoundOut] returns: the lower bound is before the end of the
    chunk, and the start of the chunk is before the upper bound. *)
Lemma DividePositiveRoundOut_spec x c : bounded x -> 0 < c -> in_i64 c ->
  bounded (DividePositiveRoundOut x c) /\
  forall k, inside (DividePositiveRoundOut x c) k <->
    inclusive_min x < (k + 1) * c /\ k * c < inclusive_min x + size x.
Proof.
  intros Hx Hc Hc64. unfold DividePositiveRoundOut. rewrite (proj2 (bounded_max x Hx)).
  rewrite FloorOfRatio_exact, CeilOfRatio_exact by (unfold bounded in Hx; unfold_i64; lia).
  set (a := inclusive_min x) in *. set (b := a + size x). unfold bounded in Hx. fold a in Hx. fold b in Hx.
  assert (Ha : -kInfIndex <= a / c <= kInfIndex).
  { split; [|apply div_le_iff; nia]. apply Z.div_le_lower_bound; [lia|]. unfold_i64. nia. }
  assert (Hb : -kInfIndex <= - (- b / c) <= kInfIndex + 1).
  { split; [|enough (- (kInfIndex + 1) <= - b / c) by lia; apply Z.div_le_lower_bound; [lia|]; unfold_i64; nia].
    enough (- b / c <= kInfIndex) by lia. apply div_le_iff; [lia|]. unfold_i64. nia. }
  rewrite half_open_eq by (unfold_i64; lia). unfold bounded, inside. cbn [inclusive_min size].
  split; [lia|]. intros k. rewrite <- (div_le_iff a k c Hc), <- (lt_ceil_iff b k c Hc). lia.
Qed.

(** The chunk of an index. *)
Lemma chunk_bounds v c : 0 < c -> v / c * c <= v < (v / c + 1) * c.
Proof. intros Hc. pose proof (Z.div_mod v c ltac:(lia)). pose proof (Z.mod_pos_bound v c Hc). nia. Qed.

Lemma chunk_unique v k c : 0 < c -> k * c <= v < (k + 1) * c -> v / c = k.
Proof. intros Hc Hv. symmetry. apply (Z.div_unique_pos v c k (v - k * c)); lia. Qed.

Lemma inside_chunk x c v : bounded x -> 0 < c -> in_i64 c -> inside x v -> inside (DividePositiveRoundOut x c) (v / c).
Proof.
  intros Hx Hc Hc64 Hv. apply DividePositiveRoundOut_spec; [assumption..|].
  pose proof (chunk_bounds v c Hc). unfold inside in Hv. lia.
Qed.

(** Every chunk of an interval that is not empty has an index of it. *)
Lemma chunk_inside x c k : bounded x -> 0 < c -> in_i64 c -> 0 < size x -> inside (DividePositiveRoundOut x c) k ->
  exists v, inside x v /\ v / c = k.
Proof.
  intros Hx Hc Hc64 Hs H. apply DividePositiveRoundOut_spec in H; [|assumption..].
  exists (Z.max (inclusive_min x) (k * c)). split; [unfold inside; lia|apply chunk_unique; lia].
Qed.

(** An interval that is empty, or crossed, has no chunk if it starts at a chunk. *)
Lemma aligned_empty x c k : bounded x -> 0 < c -> in_i64 c -> size x <= 0 -> inclusive_min x mod c = 0 ->
  ~ inside (DividePositiveRoundOut x c) k.
Proof.
  intros Hx Hc Hc64 Hs Ha H. apply DividePositiveRoundOut_spec in H; [|assumption..].
  pose proof (Z.div_mod (inclusive_min x) c ltac:(lia)) as E. rewrite Ha in E.
  assert (k < inclusive_min x / c) by (apply (Z.mul_lt_mono_pos_r c); lia).
  assert (inclusive_min x / c < k + 1) by (apply (Z.mul_lt_mono_pos_r c); lia). lia.
Qed.

(** * Cells *)

#[export] Instance all_inside_dec box v : Decision (all_inside box v).
Proof. unfold all_inside, inside. apply _. Defined.

(** The cell of an index vector. *)
Definition chunk_of (chunk_shape y : list Z) : list Z := zip_with Z.div y chunk_shape.

Definition valid_shape (chunk_shape : list Z) : Prop := Forall (fun c => 0 < c /\ in_i64 c) chunk_shape.

Lemma bounded_round_out box shape : valid_shape shape -> Forall bounded box ->
  Forall bounded (zip_with DividePositiveRoundOut box shape).
Proof.
  intros Hs Hb. apply Forall_lookup. intros i x Hx. apply lookup_zip_with_Some in Hx as (b & c & -> & Hbi & Hci).
  rewrite Forall_lookup in Hb. apply DividePositiveRoundOut_spec; [exact (Hb _ _ Hbi)|apply (proj1 (Forall_lookup _ _) Hs _ _ Hci)..].
Qed.

Lemma all_inside_chunk box shape y : valid_shape shape -> Forall bounded box -> length box = length shape ->
  all_inside box y -> all_inside (zip_with DividePositiveRoundOut box shape) (chunk_of shape y).
Proof.
  intros Hs Hb Hl Hy. unfold all_inside, chunk_of. revert shape Hs Hl.
  induction Hy as [|x v box y Hx Hy IH]; intros [|c shape] Hs Hl; cbn in Hl; try discriminate; cbn [zip_with]; constructor.
  - apply Forall_cons in Hs as [[Hc Hc64] _], Hb as [Hb _]. apply inside_chunk; assumption.
  - apply Forall_cons in Hs as [_ Hs], Hb as [_ Hb]. apply IH; [assumption..|lia].
Qed.

Lemma chunk_all_inside box shape cell : valid_shape shape -> Forall bounded box -> length box = length shape ->
  Forall (fun x => 0 < size x) box -> all_inside (zip_with DividePositiveRoundOut box shape) cell ->
  exists y, all_inside box y /\ chunk_of shape y = cell.
Proof.
  intros Hs Hb Hl Hp. unfold all_inside. revert shape cell Hs Hl.
  induction box as [|x box IH]; intros [|c shape] cell Hs Hl H; cbn in Hl; try discriminate; cbn [zip_with] in H.
  - inversion H; subst. exists []. split; [constructor|reflexivity].
  - inversion H as [|? k ? cell' Hk Hcell]; subst. apply Forall_cons in Hs as [[Hc Hc64] Hs], Hb as [Hx Hb], Hp as [Hpx Hp].
    destruct (chunk_inside x c k Hx Hc Hc64 Hpx Hk) as (v & Hv & E).
    destruct (IH Hb Hp shape cell' Hs ltac:(lia) Hcell) as (y & Hy & Ey). exists (v :: y).
    split; [constructor; assumption|]. unfold chunk_of. cbn [zip_with]. rewrite E. f_equal. exact Ey.
Qed.

(** * Deletion *)

(** A requested bound is a bound that [ValidateInputDimensionResize] and
    [GetAffineTransformRange] let pass. *)
Definition valid_request (r : ResizeBounds) : Prop :=
  (new_inclusive_min r = kImplicit \/ -kInfIndex <= new_inclusive_min r <= kInfIndex) /\
  (new_exclusive_max r = kImplicit \/ -kInfIndex <= new_exclusive_max r <= kInfIndex + 1).

Lemma GetNewIndexInterval_spec x r : bounded x -> valid_request r ->
  bounded (GetNewIndexInterval x r) /\
  inclusive_min (GetNewIndexInterval x r) = ExplicitIndexOr (new_inclusive_min r) (inclusive_min x) /\
  inclusive_min (GetNewIndexInterval x r) + size (GetNewIndexInterval x r) =
    ExplicitIndexOr (new_exclusive_max r) (inclusive_min x + size x).
Proof.
  intros Hx [Hmin Hmax]. unfold GetNewIndexInterval. rewrite (proj2 (bounded_max x Hx)).
  assert (H1 : -kInfIndex <= ExplicitIndexOr (new_inclusive_min r) (inclusive_min x) <= kInfIndex)
    by (unfold ExplicitIndexOr, bounded in *; destruct (Z.eqb_spec (new_inclusive_min r) kImplicit); lia).
  assert (H2 : -kInfIndex <= ExplicitIndexOr (new_exclusive_max r) (inclusive_min x + size x) <= kInfIndex + 1)
    by (unfold ExplicitIndexOr, bounded in *; destruct (Z.eqb_spec (new_exclusive_max r) kImplicit); lia).
  rewrite half_open_eq by (unfold_i64; lia). unfold bounded. cbn [inclusive_min size]. lia.
Qed.

Section Deletion.
Context {Metadata : Type} {cache : ChunkedDataCache Metadata}.
Variables (current : list IndexInterval) (new_bounds : list ResizeBounds).
Let shape := chunk_shape grid.
Hypotheses (Hshape : valid_shape shape) (Hrank : (length shape <= 32)%nat).
Hypotheses (Hlc : length current = length shape) (Hln : length new_bounds = length shape).
Hypotheses (Hcurrent : Forall bounded current) (Hnew : Forall valid_request new_bounds).

(** The new bounds of the stored array. *)
Let new := zip_with GetNewIndexInterval current new_bounds.

Lemma new_bounded : Forall bounded new.
Proof.
  apply Forall_lookup. intros i x Hx. apply lookup_zip_with_Some in Hx as (b & r & -> & Hb & Hr).
  apply GetNewIndexInterval_spec; [exact (Forall_lookup_1 _ _ _ _ Hcurrent Hb)|exact (Forall_lookup_1 _ _ _ _ Hnew Hr)].
Qed.

Let outer := current_grid_bounds current.
Let inner := new_grid_bounds current new_bounds.

Lemma outer_bounded : Forall bounded outer /\ length outer = length shape.
Proof. split; [apply bounded_round_out; assumption|]. unfold outer, current_grid_bounds. fold shape. rewrite length_zip_with. lia. Qed.

Lemma inner_bounded : Forall bounded inner /\ length inner = length shape.
Proof.
  split; [apply bounded_round_out; [assumption|exact new_bounded]|]. unfold inner, new_grid_bounds. fold shape.
  rewrite !length_zip_with. lia.
Qed.

Lemma DeleteChunksForResize_spec :
  NoDup (DeleteChunksForResize current new_bounds) /\
  forall cell, cell ∈ DeleteChunksForResize current new_bounds <-> all_inside outer cell /\ ~ all_inside inner cell.
Proof.
  destruct outer_bounded as [Ho Hlo], inner_bounded as [Hi Hli].
  destruct (BoxDifference_spec outer inner ltac:(congruence) ltac:(lia) Ho Hi) as (_ & Hcover & Hunique & _).
  unfold DeleteChunksForResize. fold outer inner. split.
  - apply NoDup_bind; [|intros; apply NoDup_index_vectors|apply NoDup_seqZ].
    intros k k' cell Hk%elem_of_seqZ Hk'%elem_of_seqZ H%elem_of_index_vectors H'%elem_of_index_vectors.
    apply (Hunique k k' cell); [lia|lia|exact H|exact H'].
  - intros cell. rewrite Hcover, list_elem_of_bind. split.
    + intros (k & H%elem_of_index_vectors & Hk%elem_of_seqZ). exists k. split; [lia|exact H].
    + intros (k & Hk & H). exists k. split; [apply elem_of_index_vectors, H|apply elem_of_seqZ; lia].
Qed.

(** The chunks that are deleted for one state of the bounds are out of the new bounds of any other
    state as well. *)
Lemma kept_chunk_any stored y : Forall bounded stored -> length stored = length shape ->
  all_inside (zip_with GetNewIndexInterval stored new_bounds) y -> chunk_of shape y ∉ DeleteChunksForResize current new_bounds.
Proof.
  intros Hs Hls Hy [Ho Hi]%DeleteChunksForResize_spec. apply Hi. clear Hi. unfold all_inside, chunk_of in *.
  destruct inner_bounded as [_ Hli]. destruct outer_bounded as [_ Hlo].
  apply Forall2_same_length_lookup in Hy as [Hly Hy], Ho as [Hlc' Ho]. rewrite length_zip_with in Hly.
  apply Forall2_same_length_lookup. rewrite length_zip_with, Hli. split; [lia|]. intros i I k HI Hk.
  pose proof (lookup_lt_Some _ _ _ HI) as Hlt. rewrite Hli in Hlt.
  destruct (lookup_lt_is_Some_2 shape i Hlt) as [c Hc]. pose proof (Forall_lookup_1 _ _ _ _ Hshape Hc) as [Hc0 Hc64].
  destruct (lookup_lt_is_Some_2 current i) as [x Hx]; [lia|]. destruct (lookup_lt_is_Some_2 new_bounds i) as [r Hr]; [lia|].
  destruct (lookup_lt_is_Some_2 stored i) as [z Hz]; [lia|]. destruct (lookup_lt_is_Some_2 y i) as [v Hv]; [lia|].
  assert (HO : outer !! i = Some (DividePositiveRoundOut x c))
    by (unfold outer, current_grid_bounds; fold shape; rewrite lookup_zip_with, Hx; cbn; rewrite Hc; reflexivity).
  assert (EI : inner !! i = Some (DividePositiveRoundOut (GetNewIndexInterval x r) c))
    by (unfold inner, new_grid_bounds; fold shape; rewrite !lookup_zip_with, Hx; cbn; rewrite Hr; cbn; rewrite Hc; reflexivity).
  assert (Hkv : k = v / c) by (apply lookup_zip_with_Some in Hk as (v' & c' & -> & Hv' & Hc'); congruence).
  assert (I = DividePositiveRoundOut (GetNewIndexInterval x r) c) as -> by congruence.
  specialize (Ho i _ k HO Hk). assert (Hyv : inside (GetNewIndexInterval z r) v)
    by (apply (Hy i); [rewrite lookup_zip_with, Hz; cbn; rewrite Hr; reflexivity|exact Hv]).
  pose proof (Forall_lookup_1 _ _ _ _ Hcurrent Hx) as Hbx. pose proof (Forall_lookup_1 _ _ _ _ Hs Hz) as Hbz.
  pose proof (Forall_lookup_1 _ _ _ _ Hnew Hr) as Hvr. pose proof (chunk_bounds v c Hc0) as Hcv. rewrite <- Hkv in Hcv.
  destruct (GetNewIndexInterval_spec x r Hbx Hvr) as (Hbn & E1 & E2), (GetNewIndexInterval_spec z r Hbz Hvr) as (_ & F1 & F2).
  apply (DividePositiveRoundOut_spec x c Hbx Hc0 Hc64) in Ho. apply (DividePositiveRoundOut_spec _ c Hbn Hc0 Hc64).
  unfold inside in Hyv. rewrite F2, F1 in Hyv. rewrite E2, E1. unfold ExplicitIndexOr in *.
  destruct (new_inclusive_min r =? kImplicit), (new_exclusive_max r =? kImplicit); lia.
Qed.

(** A new dimension that is not empty, or starts at a chunk. *)
Definition whole_chunks (x : IndexInterval) (c : Z) : Prop := 0 < size x \/ inclusive_min x mod c = 0.

Lemma covered_by_new cell : Forall2 whole_chunks new shape -> all_inside inner cell ->
  exists y, all_inside new y /\ chunk_of shape y = cell.
Proof.
  intros Hw H. apply chunk_all_inside; [assumption|exact new_bounded|unfold new; rewrite length_zip_with; lia| |exact H].
  apply Forall_lookup. intros i x Hx. rewrite Forall2_same_length_lookup in Hw. destruct Hw as [Hl Hw].
  destruct (lookup_lt_is_Some_2 shape i) as [c Hc]; [rewrite <- Hl; exact (lookup_lt_Some _ _ _ Hx)|].
  destruct (Hw i x c Hx Hc) as [|Ha]; [assumption|]. destruct (Z.lt_ge_cases 0 (size x)) as [|Hs]; [assumption|exfalso].
  pose proof (proj1 (Forall_lookup _ _) Hshape _ _ Hc) as [Hc0 Hc64].
  pose proof (proj1 (Forall_lookup _ _) new_bounded _ _ Hx) as Hb.
  assert (Hi : inner !! i = Some (DividePositiveRoundOut x c))
    by (unfold inner, new_grid_bounds; fold shape new; rewrite lookup_zip_with, Hx; cbn; rewrite Hc; reflexivity).
  unfold all_inside in H. rewrite Forall2_same_length_lookup in H. destruct H as [Hlc' H].
  destruct (lookup_lt_is_Some_2 cell i) as [k Hk]; [rewrite <- Hlc'; exact (lookup_lt_Some _ _ _ Hi)|].
  exact (aligned_empty x c k Hb Hc0 Hc64 Hs Ha (H i _ k Hi Hk)).
Qed.
End Deletion.
