(* ===== verification/ResizePropagate.v ===== *)
(** Propagation of a resize request from a view to the stored array. *)

From stdpp Require Import strings gmap.
From S2P Require Import Prelude Int64 IndexInterval Transform PropagateBounds BoxDifference Resize ResizeCells.

(** * Sides of bounds *)

(** A bound that is implicit or infinite admits every index. *)
Definition lower_ok (b v : Z) : Prop := b = kImplicit \/ b = -kInfIndex \/ b <= v.
Definition upper_ok (b v : Z) : Prop := b = kImplicit \/ b = kInfIndex + 1 \/ v < b.

(** The explicit bounds of a dimension admit an index. *)
Definition admits (r : ResizeBounds) (v : Z) : Prop := lower_ok (new_inclusive_min r) v /\ upper_ok (new_exclusive_max r) v.

Lemma explicit_sides x v : Valid (interval x) ->
  (lower_ok (new_inclusive_min (explicit_bounds x)) v <-> implicit_lower x = true \/ above_min (interval x) v) /\
  (upper_ok (new_exclusive_max (explicit_bounds x)) v <-> implicit_upper x = true \/ below_max (interval x) v).
Proof.
  intros HV. unfold lower_ok, upper_ok, explicit_bounds, above_min, below_max. cbn [new_inclusive_min new_exclusive_max].
  rewrite (exclusive_max_valid _ HV), (inclusive_max_valid _ HV). revert HV. unfold Valid. intros HV.
  destruct (implicit_lower x), (implicit_upper x); unfold_i64; lia.
Qed.

(** The affine map of a dimension with a unit stride. *)
Section Unit.
Variables (x : OptionallyImplicitIndexInterval) (o s : Z) (y : OptionallyImplicitIndexInterval).
Hypotheses (HV : Valid (interval x)) (Ho : in_i64 o) (Hs : Z.abs s = 1).
Hypothesis Hrange : OI_GetAffineTransformRange x o s = Ok y.

Lemma range_values :
  -kInfIndex <= inclusive_min (interval y) <= kInfIndex /\ -kInfIndex <= exclusive_max (interval y) <= kInfIndex + 1.
Proof.
  unfold OI_GetAffineTransformRange in Hrange. apply bind_Ok in Hrange as (i & E & Hy).
  assert (Hi : interval y = i) by (destruct (s <? 0); injection Hy as <-; reflexivity). rewrite Hi.
  destruct (AffineRange_spec (interval x) o s i HV Ho ltac:(i64_lia) ltac:(lia) E) as ([Hv|[_ ->]] & _).
  - rewrite (exclusive_max_valid _ Hv). unfold Valid in Hv. lia.
  - unfold exclusive_max. cbn [inclusive_min size]. unfold_i64. unwrap64. lia.
Qed.

Lemma range_valid_request : valid_request (explicit_bounds y).
Proof.
  pose proof range_values. unfold valid_request, explicit_bounds. cbn [new_inclusive_min new_exclusive_max].
  destruct (implicit_lower y), (implicit_upper y); split; (left; reflexivity) || (right; lia).
Qed.

Lemma range_implicit :
  implicit_lower y = (if s <? 0 then implicit_upper x else implicit_lower x) /\
  implicit_upper y = (if s <? 0 then implicit_lower x else implicit_upper x).
Proof.
  unfold OI_GetAffineTransformRange in Hrange. apply bind_Ok in Hrange as (i & _ & Hy).
  destruct (s <? 0); injection Hy as <-; auto.
Qed.

Lemma range_explicit :
  (new_inclusive_min (explicit_bounds y) = kImplicit <-> implicit_lower y = true) /\
  (new_exclusive_max (explicit_bounds y) = kImplicit <-> implicit_upper y = true).
Proof.
  pose proof range_values. unfold explicit_bounds. cbn [new_inclusive_min new_exclusive_max].
  destruct (implicit_lower y), (implicit_upper y); unfold_i64; intuition (try discriminate; lia).
Qed.

Lemma range_sides v : empty (interval x) = false ->
  (lower_ok (new_inclusive_min (explicit_bounds y)) (o + s * v) <->
     if s <? 0 then upper_ok (new_exclusive_max (explicit_bounds x)) v else lower_ok (new_inclusive_min (explicit_bounds x)) v) /\
  (upper_ok (new_exclusive_max (explicit_bounds y)) (o + s * v) <->
     if s <? 0 then lower_ok (new_inclusive_min (explicit_bounds x)) v else upper_ok (new_exclusive_max (explicit_bounds x)) v).
Proof.
  intros He. destruct range_implicit as [El Eu]. unfold OI_GetAffineTransformRange in Hrange.
  apply bind_Ok in Hrange as (i & E & Hy).
  destruct (AffineRange_sides (interval x) o s i HV Ho ltac:(i64_lia) ltac:(lia) He E) as (HVi & HL & HU).
  assert (Ei : interval y = i) by (destruct (s <? 0); injection Hy as <-; reflexivity).
  destruct (explicit_sides x v HV) as [X1 X2]. destruct (explicit_sides y (o + s * v) ltac:(rewrite Ei; exact HVi)) as [Y1 Y2].
  rewrite Y1, Y2, El, Eu, Ei, HL, HU. clear HL HU Y1 Y2. destruct (s <? 0); tauto.
Qed.
End Unit.

(** * The requested interval *)

(** The values that a validated request has. *)
Lemma requested_values d r : in_i64 (new_exclusive_max r) ->
  ValidateInputDimensionResize d (new_inclusive_min r) (new_exclusive_max r) = Ok tt ->
  (new_inclusive_min r = kImplicit \/ new_inclusive_min r <> kImplicit /\ -kInfIndex <= new_inclusive_min r < kInfIndex) /\
  (new_exclusive_max r = kImplicit \/ new_exclusive_max r <> kImplicit /\ -kInfIndex + 1 < new_exclusive_max r <= kInfIndex + 1) /\
  (new_inclusive_min r = kImplicit \/ new_exclusive_max r = kImplicit \/ new_inclusive_min r <= new_exclusive_max r).
Proof.
  unfold ValidateInputDimensionResize. destruct r as [min max]. cbn [new_inclusive_min new_exclusive_max].
  intros H64 H. repeat match type of H with (if ?c then _ else _) = _ => destruct c eqn:?; [discriminate|] end. clear H.
  split; [|split].
  - unfold IsFiniteIndex in *. destruct (Z.eqb_spec min kImplicit); [left; assumption|right; i64_lia].
  - destruct (Z.eqb_spec max kImplicit); [left; assumption|right]. split; [assumption|].
    destruct (Z.eqb_spec max (kInfIndex + 1)); [i64_lia|]. cbn [negb andb] in *.
    match goal with H : negb (IsFiniteIndex _) = false |- _ => apply negb_false_iff in H; rename H into Hf end.
    rewrite wrap64_id in Hf by (unfold_i64; lia). unfold IsFiniteIndex in Hf. i64_lia.
  - clear - Heqb1. unfold_i64. lia.
Qed.

Lemma requested_valid d r : in_i64 (new_exclusive_max r) ->
  ValidateInputDimensionResize d (new_inclusive_min r) (new_exclusive_max r) = Ok tt ->
  Valid (interval (requested_interval r)) /\ explicit_bounds (requested_interval r) = r /\
  (implicit_lower d = false -> new_inclusive_min r = kImplicit) /\
  (implicit_upper d = false -> new_exclusive_max r = kImplicit) /\
  (new_inclusive_min r <> new_exclusive_max r -> empty (interval (requested_interval r)) = false).
Proof.
  intros H64 H. destruct (requested_values d r H64 H) as (Hmin & Hmax & Hle).
  unfold ValidateInputDimensionResize in H. unfold requested_interval, explicit_bounds. destruct r as [min max].
  cbn [new_inclusive_min new_exclusive_max interval implicit_lower implicit_upper] in *.
  repeat match type of H with (if ?c then _ else _) = _ => destruct c eqn:?; [discriminate|] end. clear H.
  split; [|split; [|split; [|split]]].
  - destruct (Z.eqb_spec min kImplicit), (Z.eqb_spec max kImplicit); rewrite half_open_eq by (unfold_i64; lia);
      unfold Valid; cbn [inclusive_min size]; unfold_i64; lia.
  - destruct (Z.eqb_spec min kImplicit), (Z.eqb_spec max kImplicit); rewrite ?half_open_eq by (unfold_i64; lia);
      unfold exclusive_max; cbn [inclusive_min size]; rewrite ?Zplus_minus, ?(wrap64_id max) by exact H64; congruence.
  - intros E. rewrite E in *. destruct (Z.eqb_spec min kImplicit); [assumption|discriminate].
  - intros E. rewrite E in *. destruct (Z.eqb_spec max kImplicit); [assumption|discriminate].
  - intros Hne. unfold empty. apply Z.eqb_neq.
    destruct (Z.eqb_spec min kImplicit), (Z.eqb_spec max kImplicit); rewrite half_open_eq by (unfold_i64; lia);
      cbn [size]; unfold_i64; lia.
Qed.

(** * The image of a request *)

Ltac bool_cases := repeat match goal with |- context [?a =? ?b] => destruct (Z.eqb_spec a b) end.

(** A bound that is implicit or infinite stays so when it is moved. *)
Definition moved_bound (b infinite infinite' moved : Z) : Z :=
  if b =? kImplicit then kImplicit else if b =? infinite then infinite' else moved.

(** The request that a request becomes under a map with the stride 1 or -1. *)
Definition moved_request (o s : Z) (q : ResizeBounds) : ResizeBounds :=
  let min := new_inclusive_min q in
  let max := new_exclusive_max q in
  if negb (min =? kImplicit) && (min =? max) then MkResizeBounds (o + s * min) (o + s * min)
  else if s <? 0 then
    MkResizeBounds (moved_bound max (kInfIndex + 1) (-kInfIndex) (o - (max - 1)))
      (moved_bound min (-kInfIndex) (kInfIndex + 1) (o - min + 1))
  else
    MkResizeBounds (moved_bound min (-kInfIndex) (-kInfIndex) (o + min))
      (moved_bound max (kInfIndex + 1) (kInfIndex + 1) (o + max)).

(** The bounds of the image of an interval under such a map. *)
Lemma unit_range_bounds lo hi o s i : -kInfIndex <= lo < kInfIndex -> -kInfIndex < hi <= kInfIndex -> lo - 1 <= hi ->
  in_i64 o -> Z.abs s = 1 -> GetAffineTransformRange (MkInterval lo (hi - lo + 1)) o s = Ok i ->
  if hi <? lo then (lo <> -kInfIndex -> inclusive_min i = o + s * lo /\ exclusive_max i = o + s * lo)
  else
    inclusive_min i = (if s <? 0 then if hi =? kInfIndex then -kInfIndex else o - hi else if lo =? -kInfIndex then lo else o + lo) /\
    exclusive_max i = (if s <? 0 then if lo =? -kInfIndex then kInfIndex + 1 else o - lo + 1
                       else if hi =? kInfIndex then kInfIndex + 1 else o + hi + 1).
Proof.
  intros Hl Hh Hle Ho Hs. assert (Hs64 : in_i64 s) by (unfold_i64; lia). unfold GetAffineTransformRange.
  destruct (mk_valid lo hi Hl Hh Hle) as (HV & -> & -> & ->).
  destruct (transform_bound_overflow o s lo) as [b1 lower] eqn:E1, (transform_bound_overflow o s hi) as [b2 upper] eqn:E2.
  destruct b1, b2; cbn [orb]; try discriminate.
  apply transform_bound_spec in E1, E2; try assumption; try (unfold_i64; lia).
  assert ((s =? 0) = false) as -> by lia. destruct (Z.ltb_spec hi lo) as [He|He].
  - intros [= <-] Hlo. unfold exclusive_max, UncheckedSized. cbn [inclusive_min size]. rewrite Z.add_0_r, wrap64_id by (unfold_i64; lia).
    unfold_i64. lia.
  - assert (Hx : forall a b i, i = UncheckedClosed a b -> -kInfIndex <= a <= kInfIndex -> -kInfIndex <= b <= kInfIndex ->
      inclusive_min i = a /\ exclusive_max i = b + 1).
    { intros a b j -> Ha Hb. rewrite UncheckedClosed_eq by (unfold_i64; lia). unfold exclusive_max. cbn [inclusive_min size].
      split; [reflexivity|]. rewrite wrap64_id; unfold_i64; lia. }
    destruct (Z.ltb_spec s 0); intros [= E]; destruct (Hx _ _ i (eq_sym E)) as [-> ->]; unfold_i64; try lia;
      (assert (s = 1) as -> by lia) || (assert (s = -1) as -> by lia); bool_cases; lia.
Qed.

Lemma moved_request_spec d o s q ob : in_i64 (new_exclusive_max q) ->
  ValidateInputDimensionResize d (new_inclusive_min q) (new_exclusive_max q) = Ok tt -> in_i64 o -> Z.abs s = 1 ->
  OI_GetAffineTransformRange (requested_interval q) o s = Ok ob -> explicit_bounds ob = moved_request o s q.
Proof.
  intros H64 Hv Ho Hs H. destruct (requested_values d q H64 Hv) as (Hmin & Hmax & Hle).
  unfold OI_GetAffineTransformRange in H. apply bind_Ok in H as (i & E & [= <-]).
  unfold requested_interval in E |- *. cbn [interval implicit_lower implicit_upper] in *.
  set (min := new_inclusive_min q) in *. set (max := new_exclusive_max q) in *.
  set (lo := if min =? kImplicit then _ else min) in E. set (hi := (if max =? kImplicit then kInfIndex + 1 else max) - 1).
  assert (Hlo : -kInfIndex <= lo < kInfIndex) by (subst lo; destruct (Z.eqb_spec min kImplicit); unfold_i64; lia).
  assert (Hhi : -kInfIndex < hi <= kInfIndex) by (subst hi; destruct (Z.eqb_spec max kImplicit); unfold_i64; lia).
  assert (Hlh : lo - 1 <= hi) by (subst lo hi; destruct (Z.eqb_spec min kImplicit), (Z.eqb_spec max kImplicit); unfold_i64; lia).
  rewrite half_open_eq in E by (subst lo hi; unfold_i64; lia).
  replace (_ - lo) with (hi - lo + 1) in E by (subst hi; lia).
  apply unit_range_bounds in E; try assumption. unfold moved_request, moved_bound. fold min max.
  destruct (Z.ltb_spec hi lo) as [He|He].
  - assert (min <> kImplicit /\ min = max) as [Hi Hmm]
      by (subst lo hi; destruct (Z.eqb_spec min kImplicit), (Z.eqb_spec max kImplicit); unfold_i64; lia).
    assert (lo = min) as -> by (subst lo; destruct (Z.eqb_spec min kImplicit); congruence).
    destruct E as [E1 E2]; [unfold_i64; lia|]. unfold explicit_bounds. rewrite <- Hmm.
    destruct (Z.eqb_spec min kImplicit); [contradiction|]. rewrite Z.eqb_refl. cbn [negb andb].
    destruct (s <? 0); cbn [interval implicit_lower implicit_upper]; rewrite E1, E2; reflexivity.
  - assert (negb (min =? kImplicit) && (min =? max) = false) as ->.
    { subst lo hi. destruct (Z.eqb_spec min kImplicit), (Z.eqb_spec max kImplicit), (Z.eqb_spec min max); try reflexivity; unfold_i64; lia. }
    destruct E as [E1 E2]. unfold explicit_bounds.
    destruct (Z.ltb_spec s 0); cbn [interval implicit_lower implicit_upper]; rewrite E1, E2; clear E1 E2; subst lo hi;
      destruct (Z.eqb_spec min kImplicit), (Z.eqb_spec max kImplicit); f_equal; try reflexivity;
      bool_cases; unfold_i64; lia.
Qed.

(** * The two loops *)

Definition typed_request (r : ResizeBounds) : Prop := in_i64 (new_inclusive_min r) /\ in_i64 (new_exclusive_max r).

Lemma non_unit_false s : in_i64 s -> non_unit s = false -> Z.abs s = 1.
Proof.
  unfold non_unit. intros Hs H%negb_false_iff%Z.eqb_eq. destruct (Z.eq_dec s (-9223372036854775808)) as [->|Hne].
  - vm_compute in H. discriminate.
  - rewrite wrap64_id in H by (unfold_i64; lia). exact H.
Qed.

(** What the first loop computes for a map. *)
Definition new_bounds_of (requested : list ResizeBounds) (m : OutputIndexMap) (r : ResizeBounds) : Prop :=
  match method m with
  | single_input_dimension d => exists q, requested !! d = Some q /\
      if resizes q then Z.abs (stride m) = 1 /\ exists ob,
        OI_GetAffineTransformRange (requested_interval q) (offset m) (stride m) = Ok ob /\ r = explicit_bounds ob
      else r = no_change
  | _ => r = no_change
  end.

(** The request on an output dimension: that on the input dimension that it reads, moved by the
    map. *)
Definition output_request (requested : list ResizeBounds) (m : OutputIndexMap) : ResizeBounds :=
  match method m with
  | single_input_dimension d =>
      match requested !! d with Some q => moved_request (offset m) (stride m) q | None => no_change end
  | _ => no_change
  end.

Definition resized (requested : list ResizeBounds) (m : OutputIndexMap) : bool :=
  match method m with
  | single_input_dimension d => match requested !! d with Some q => resizes q | None => false end
  | _ => false
  end.

Lemma propagate_new_bounds_spec requested m r b : in_i64 (stride m) ->
  propagate_new_bounds requested m = Ok (r, b) -> new_bounds_of requested m r /\ b = resized requested m.
Proof.
  unfold propagate_new_bounds, new_bounds_of, resized. intros Hs. destruct (method m) as [|d|a].
  1,3: intros [= <- <-]; auto.
  intros (q & Hq & H)%bind_Ok. unfold checked_at in Hq. destruct (requested !! d) as [q'|]; [|discriminate].
  injection Hq as ->. destruct (resizes q) eqn:Er.
  - destruct (non_unit (stride m)) eqn:Eu; [discriminate|]. apply bind_Ok in H as (ob & E & [= <- <-]).
    split; [|reflexivity]. exists q. rewrite Er. split; [reflexivity|]. split; [apply non_unit_false; assumption|eauto].
  - injection H as <- <-. split; [|reflexivity]. exists q. rewrite Er. auto.
Qed.

(** What the second loop computes for a map when tied bounds may not be resized. *)
Definition constraint_of (dims : list IndexDomainDimension) (m : OutputIndexMap) (c : ResizeBounds) : Prop :=
  match method m with
  | constant => IsFiniteIndex (offset m) = true /\ c = MkResizeBounds (offset m) (offset m + 1)%i64
  | single_input_dimension d => Z.abs (stride m) = 1 /\ exists dim ob, dims !! d = Some dim /\
      OI_GetAffineTransformRange (optionally_implicit_domain dim) (offset m) (stride m) = Ok ob /\ c = explicit_bounds ob
  | array _ => False
  end.

Definition reads (d : nat) (m : OutputIndexMap) : bool :=
  match method m with single_input_dimension d' => (d =? d')%nat | _ => false end.

(** No input dimension is read by two maps. *)
Definition no_diagonal (maps : list OutputIndexMap) : Prop :=
  forall j j' m m' d, maps !! j = Some m -> maps !! j' = Some m' -> reads d m = true -> reads d m' = true -> j = j'.

Lemma no_diagonal_snoc maps m : no_diagonal maps -> (forall d m', m' ∈ maps -> reads d m = true -> reads d m' = false) ->
  no_diagonal (maps ++ [m]).
Proof.
  intros H Hm j j' m1 m2 d H1 H2 R1 R2.
  apply lookup_snoc_Some in H1 as [[Hl1 H1]|[-> <-]], H2 as [[Hl2 H2]|[-> <-]].
  - exact (H j j' m1 m2 d H1 H2 R1 R2).
  - rewrite (Hm d m1 (list_elem_of_lookup_2 _ _ _ H1) R2) in R1. discriminate.
  - rewrite (Hm d m2 (list_elem_of_lookup_2 _ _ _ H2) R1) in R2. discriminate.
  - reflexivity.
Qed.

Lemma constraint_loop_length dims tied maps st st' :
  foldM (propagate_constraint dims tied) st maps = Ok st' -> length st'.2 = (length st.2 + length maps)%nat.
Proof.
  revert st; induction maps as [|m maps IH]; intros [deps cs] H; cbn [foldM] in H; [injection H as <-; cbn; lia|].
  apply bind_Ok in H as (st1 & E & H). rewrite (IH st1 H). cbn [snd length].
  enough (length st1.2 = S (length cs)) by lia. unfold propagate_constraint in E.
  destruct (method m); [destruct (IsFiniteIndex _); [|discriminate]| |]; destruct tied; cbn [negb] in E;
    try discriminate; try (injection E as <-; cbn; rewrite length_app; cbn; lia).
  apply bind_Ok in E as (n & _ & (dim & _ & E)%bind_Ok). destruct (negb _); [discriminate|].
  destruct (non_unit _); [discriminate|].
  apply bind_Ok in E as (ob & _ & [= <-]). cbn. rewrite length_app. cbn. lia.
Qed.

Lemma constraint_loop dims maps deps constraints : Forall (fun m => in_i64 (stride m)) maps ->
  foldM (propagate_constraint dims false) (replicate (length dims) 0%nat, []) maps = Ok (deps, constraints) ->
  Forall2 (constraint_of dims) maps constraints /\ no_diagonal maps.
Proof.
  intros Hmaps H.
  set (P := fun pre (st : list nat * list ResizeBounds) => Forall2 (constraint_of dims) pre st.2 /\ no_diagonal pre /\
    forall d, st.1 !! d = Some 0%nat -> forall m, m ∈ pre -> reads d m = false).
  enough (HP : P maps (deps, constraints)) by (destruct HP as (H1 & H2 & _); auto). revert H. apply foldM_prefix.
  - split; [constructor|]. split; [intros j j' m m' d Hj; discriminate|]. intros d _ m Hm. inversion Hm.
  - intros pre m [deps0 cs] st' Hm (Hc & Hn & Hd) H. cbn [fst snd] in *.
    assert (Hs : in_i64 (stride m)) by (rewrite Forall_forall in Hmaps; auto). unfold propagate_constraint in H.
    destruct (method m) as [|d|a] eqn:Em; [|apply bind_Ok in H as (n & En & (dim & Edim & H)%bind_Ok)|discriminate].
    + destruct (IsFiniteIndex (offset m)) eqn:Ef; [|discriminate]. injection H as <-. split; [|split]; cbn [fst snd].
      * apply Forall2_app; [exact Hc|]. constructor; [|constructor]. unfold constraint_of. rewrite Em. auto.
      * apply no_diagonal_snoc; [exact Hn|]. intros d m' _ R. unfold reads in R. rewrite Em in R. discriminate.
      * intros d Hd0 m' [Hm'|Hm'%list_elem_of_singleton]%elem_of_app; [exact (Hd d Hd0 m' Hm')|].
        subst m'. unfold reads. rewrite Em. reflexivity.
    + unfold checked_at in En, Edim. destruct (deps0 !! d) as [n'|] eqn:Edeps; [|discriminate]. injection En as ->.
      destruct (dims !! d) as [dim'|] eqn:Ed; [|discriminate]. injection Edim as ->.
      destruct (Nat.eqb_spec n 0) as [->|]; [|discriminate].
      destruct (non_unit (stride m)) eqn:Eu; [discriminate|]. apply bind_Ok in H as (ob & E & [= <-]).
      assert (Hreads : forall d', reads d' m = (d' =? d)%nat) by (intros d'; unfold reads; rewrite Em; reflexivity).
      split; [|split]; cbn [fst snd].
      * apply Forall2_app; [exact Hc|]. constructor; [|constructor]. unfold constraint_of. rewrite Em.
        split; [apply non_unit_false; assumption|]. exists dim, ob. auto.
      * apply no_diagonal_snoc; [exact Hn|]. intros d' m' Hm' R. rewrite Hreads in R. apply Nat.eqb_eq in R as ->.
        exact (Hd d Edeps m' Hm').
      * intros d' Hd0 m' Hm'. destruct (Nat.eq_dec d' d) as [->|Hne].
        { rewrite list_lookup_insert_eq in Hd0 by exact (lookup_lt_Some _ _ _ Edeps). discriminate. }
        rewrite list_lookup_insert_ne in Hd0 by congruence.
        apply elem_of_app in Hm' as [Hm'|Hm'%list_elem_of_singleton]; [exact (Hd d' Hd0 m' Hm')|].
        subst m'. rewrite Hreads. apply Nat.eqb_neq, Hne.
Qed.

(** * Positions of the stored array that a view addresses *)

(** One dimension of the stored array that satisfies the constraint. *)
Lemma dimension_covered B r c y :
  bounded B -> valid_request r -> valid_request c ->
  ImplicitOrEqual (new_inclusive_min c) (inclusive_min B) = true ->
  ImplicitOrEqual (new_exclusive_max c) (exclusive_max B) = true ->
  (new_inclusive_min c <> kImplicit -> new_inclusive_min r = kImplicit) ->
  (new_exclusive_max c <> kImplicit -> new_exclusive_max r = kImplicit) ->
  inside B y \/ inside (GetNewIndexInterval B r) y -> admits c y.
Proof.
  intros HB Hr Hc H1 H2 Hmin Hmax Hy. destruct (GetNewIndexInterval_spec B r HB Hr) as (_ & E1 & E2).
  rewrite (proj2 (bounded_max B HB)) in H2. unfold ImplicitOrEqual in *. unfold inside in Hy. rewrite E2, E1 in Hy. clear E1 E2.
  unfold ExplicitIndexOr in Hy. unfold admits, lower_ok, upper_ok. split.
  - destruct (Z.eqb_spec (new_inclusive_min c) kImplicit); [auto|]. rewrite (Hmin ltac:(assumption)), Z.eqb_refl in Hy. lia.
  - destruct (Z.eqb_spec (new_exclusive_max c) kImplicit); [auto|]. rewrite (Hmax ltac:(assumption)), Z.eqb_refl in Hy. lia.
Qed.

Lemma ValidateResizeDomainConstraint_spec current constraints :
  ValidateResizeDomainConstraint current constraints = Ok tt <->
  Forall (fun p => ImplicitOrEqual (new_inclusive_min p.2) (inclusive_min p.1) = true /\
    ImplicitOrEqual (new_exclusive_max p.2) (exclusive_max p.1) = true) (zip current constraints).
Proof.
  unfold ValidateResizeDomainConstraint. induction (zip current constraints) as [|[x c] l IH]; cbn [mapR].
  { split; [constructor|reflexivity]. }
  rewrite Forall_cons. cbn [fst snd]. rewrite <- IH.
  destruct (ImplicitOrEqual (new_inclusive_min c) _), (ImplicitOrEqual (new_exclusive_max c) _); cbn [negb].
  2-4: split; [discriminate|intros [[? ?] _]; discriminate].
  rewrite Ok_bind. destruct (mapR _ l) as [u|e]; [rewrite !Ok_bind|]; cbn; tauto.
Qed.

Section Propagated.
Variables (t : TransformRep) (requested : list ResizeBounds).
Hypotheses (HW : WellFormed t) (Hlen : length requested = input_rank t) (Htyped : Forall typed_request requested).
Hypothesis Hvalidate : Forall (fun p => ValidateInputDimensionResize (optionally_implicit_domain p.1)
  (new_inclusive_min p.2) (new_exclusive_max p.2) = Ok tt) (zip (input_dimensions t) requested).

Lemma requested_at d dim q : input_dimensions t !! d = Some dim -> requested !! d = Some q ->
  let x := optionally_implicit_domain dim in
  Valid (interval (requested_interval q)) /\ explicit_bounds (requested_interval q) = q /\
  (implicit_lower x = false -> new_inclusive_min q = kImplicit) /\
  (implicit_upper x = false -> new_exclusive_max q = kImplicit) /\
  (new_inclusive_min q <> new_exclusive_max q -> empty (interval (requested_interval q)) = false).
Proof.
  intros Hd Hq. apply requested_valid; [apply (Forall_lookup_1 _ _ _ _ Htyped Hq)|].
  apply (Forall_lookup_1 _ _ d (dim, q) Hvalidate). rewrite lookup_zip_with, Hd. cbn. rewrite Hq. reflexivity.
Qed.

(** The new bounds are values that can be stored, and implicit where the constraint is not. *)
Lemma new_bounds_valid m r : m ∈ output_index_maps t -> new_bounds_of requested m r ->
  valid_request r /\ forall c, constraint_of (input_dimensions t) m c -> valid_request c /\
    (new_inclusive_min c <> kImplicit -> new_inclusive_min r = kImplicit) /\
    (new_exclusive_max c <> kImplicit -> new_exclusive_max r = kImplicit).
Proof.
  intros Hm Hr. destruct (WellFormed_map t m HW Hm) as [_ (Ho & _ & _)]. unfold new_bounds_of in Hr. unfold constraint_of.
  assert (Hno : valid_request no_change) by (split; left; reflexivity).
  destruct (method m) as [|d|a] eqn:Em.
  - subst r. split; [exact Hno|]. intros c [Hf ->]. apply IsFiniteIndex_spec in Hf. split; [|auto].
    unfold valid_request. cbn [new_inclusive_min new_exclusive_max].
    rewrite wrap64_id by (unfold_i64; lia). unfold_i64. lia.
  - destruct Hr as (q & Hq & Hr). destruct (lookup_lt_is_Some_2 (input_dimensions t) d) as [dim Hd].
    { unfold input_rank in Hlen. rewrite <- Hlen. exact (lookup_lt_Some _ _ _ Hq). }
    destruct (requested_at d dim q Hd Hq) as (HV & Eq & Hl & Hu & _).
    assert (HVd : Valid (interval (optionally_implicit_domain dim))).
    { apply (Forall_lookup_1 _ _ _ _ (WellFormed_valid_dims t HW) Hd). }
    destruct (resizes q) eqn:Er; [destruct Hr as (Hs & ob & E & ->)|subst r]; (split; [|intros c (Hs' & dim' & ob' & Hd' & E' & ->)]).
    + exact (range_valid_request _ _ _ _ HV Ho Hs E).
    + assert (dim' = dim) as -> by congruence. split; [exact (range_valid_request _ _ _ _ HVd Ho Hs E')|].
      destruct (range_explicit _ _ _ _ HV Ho Hs E) as [X1 X2], (range_explicit _ _ _ _ HVd Ho Hs E') as [Y1 Y2].
      destruct (range_implicit _ _ _ _ E) as [I1 I2], (range_implicit _ _ _ _ E') as [J1 J2].
      rewrite X1, X2, Y1, Y2, I1, I2, J1, J2. cbn [requested_interval implicit_lower implicit_upper].
      destruct (stride m <? 0), (implicit_lower (optionally_implicit_domain dim)), (implicit_upper (optionally_implicit_domain dim));
        rewrite ?Z.eqb_eq; intuition congruence.
    + exact Hno.
    + assert (dim' = dim) as -> by congruence. split; [exact (range_valid_request _ _ _ _ HVd Ho Hs' E')|auto].
  - subst r. split; [exact Hno|]. intros c [].
Qed.

Lemma new_bounds_moved m r : m ∈ output_index_maps t -> new_bounds_of requested m r -> r = output_request requested m.
Proof.
  intros Hm Hr. destruct (WellFormed_map t m HW Hm) as [_ (Ho & _ & _)]. unfold new_bounds_of, output_request in *.
  destruct (method m) as [|d|a]; [exact Hr| |exact Hr]. destruct Hr as (q & Hq & Hr). rewrite Hq.
  destruct (lookup_lt_is_Some_2 (input_dimensions t) d) as [dim Hd].
  { unfold input_rank in Hlen. rewrite <- Hlen. exact (lookup_lt_Some _ _ _ Hq). }
  destruct (resizes q) eqn:Er.
  - destruct Hr as (Hs & ob & E & ->). apply (moved_request_spec (optionally_implicit_domain dim)); [|  |assumption..].
    + apply (Forall_lookup_1 _ _ _ _ Htyped Hq).
    + apply (Forall_lookup_1 _ _ d (dim, q) Hvalidate). rewrite lookup_zip_with, Hd. cbn. rewrite Hq. reflexivity.
  - subst r. unfold resizes in Er. apply orb_false_iff in Er as [E1%negb_false_iff E2%negb_false_iff].
    unfold moved_request, moved_bound. rewrite E1, E2. cbn [negb andb]. destruct (stride m <? 0); reflexivity.
Qed.

(** The effect of a request on the outputs of a map. *)
Lemma new_bounds_effect m d q r : m ∈ output_index_maps t -> method m = single_input_dimension d -> requested !! d = Some q ->
  new_bounds_of requested m r ->
  (resizes q = false -> r = no_change) /\
  (resizes q = true -> new_inclusive_min q <> new_exclusive_max q -> forall v, admits r (offset m + stride m * v) <-> admits q v).
Proof.
  intros Hm Em Hq Hr. destruct (WellFormed_map t m HW Hm) as [_ (Ho & _ & _)].
  unfold new_bounds_of in Hr. rewrite Em in Hr. destruct Hr as (q' & Hq' & Hr). assert (q' = q) as -> by congruence.
  destruct (lookup_lt_is_Some_2 (input_dimensions t) d) as [dim Hd].
  { unfold input_rank in Hlen. rewrite <- Hlen. exact (lookup_lt_Some _ _ _ Hq). }
  destruct (requested_at d dim q Hd Hq) as (HV & Eq & _ & _ & He). split; [intros E; rewrite E in Hr; exact Hr|].
  intros E Hne v. rewrite E in Hr. destruct Hr as (Hs & ob & Erange & ->).
  destruct (range_sides _ _ _ _ HV Ho Hs Erange v (He Hne)) as [H1 H2].
  unfold admits. rewrite H1, H2, Eq. destruct (stride m <? 0); tauto.
Qed.

(** Every position within the stored or the new bounds is addressed by the view. *)
Hypothesis Hnonempty : Forall (fun d => 0 < size (domain d)) (input_dimensions t).

Lemma admits_some dim : dim ∈ input_dimensions t -> admits (explicit_bounds (optionally_implicit_domain dim)) (inclusive_min (domain dim)).
Proof.
  intros Hd. pose proof (proj1 (Forall_forall _ _) (WellFormed_valid_dims t HW) dim Hd) as HV. cbn in HV.
  pose proof (proj1 (Forall_forall _ _) Hnonempty dim Hd) as Hs. cbn in Hs. unfold domain in *.
  destruct (explicit_sides _ (inclusive_min (interval (optionally_implicit_domain dim))) HV) as [H1 H2].
  split; [apply H1|apply H2]; right; unfold above_min, below_max; [lia|]. rewrite (inclusive_max_valid _ HV). lia.
Qed.

(** The input index that a position of the stored array comes from. *)
Definition input_of (y : list Z) (d : nat) : Z :=
  match list_find (fun m => reads d m = true) (output_index_maps t) with
  | Some (j, m) => stride m * (y !!! j - offset m)
  | None => inclusive_min (domain (input_dimensions t !!! d))
  end.

Lemma read_admits m d c v dim : m ∈ output_index_maps t -> method m = single_input_dimension d ->
  input_dimensions t !! d = Some dim -> constraint_of (input_dimensions t) m c -> admits c v ->
  admits (explicit_bounds (optionally_implicit_domain dim)) (stride m * (v - offset m)).
Proof.
  intros Hm Em Hd Hc Hv. unfold constraint_of in Hc. rewrite Em in Hc. destruct Hc as (Hs & dim' & ob & Hd' & E & ->).
  assert (dim' = dim) as -> by congruence. destruct (WellFormed_map t m HW Hm) as [_ (Ho & _ & _)].
  pose proof (Forall_lookup_1 _ _ _ _ (WellFormed_valid_dims t HW) Hd) as HV. cbn in HV.
  pose proof (Forall_lookup_1 _ _ _ _ Hnonempty Hd) as Hne. cbn in Hne.
  destruct (range_sides _ _ _ _ HV Ho Hs E (stride m * (v - offset m))) as [H1 H2].
  { unfold empty, domain in *. apply Z.eqb_neq. lia. }
  replace (offset m + stride m * (stride m * (v - offset m))) with v in H1, H2 by nia.
  unfold admits in *. rewrite H1, H2 in Hv. destruct (stride m <? 0); tauto.
Qed.

Lemma covered constraints y : Forall2 (constraint_of (input_dimensions t)) (output_index_maps t) constraints ->
  no_diagonal (output_index_maps t) -> Forall2 admits constraints y -> Forall (fun v => in_i64 v) y ->
  exists x, Forall2 (fun dim v => admits (explicit_bounds (optionally_implicit_domain dim)) v) (input_dimensions t) x /\
    mapR (fun m => output_index m x) (output_index_maps t) = Ok y.
Proof.
  intros Hc Hn Hy H64. exists (input_of y <$> seq 0 (input_rank t)).
  assert (Hread : forall j m c v d, output_index_maps t !! j = Some m -> constraints !! j = Some c -> y !! j = Some v ->
    method m = single_input_dimension d -> input_of y d = stride m * (v - offset m)).
  { intros j m c v d Hm Hcj Hv Em. assert (R : reads d m = true) by (unfold reads; rewrite Em; apply Nat.eqb_refl).
    unfold input_of. destruct (list_find _ _) as [[j' m']|] eqn:E.
    - apply list_find_Some in E as (Hj' & R' & _). assert (j' = j) as -> by (eapply Hn; eassumption).
      assert (m' = m) as -> by congruence. rewrite (list_lookup_total_correct _ _ _ Hv). reflexivity.
    - rewrite list_find_None, Forall_forall in E. destruct (E m (list_elem_of_lookup_2 _ _ _ Hm) R). }
  apply Forall2_same_length_lookup in Hc, Hy. destruct Hc as [Hlc Hc], Hy as [Hly Hy].
  assert (Hat : forall j m, output_index_maps t !! j = Some m -> exists c v, constraints !! j = Some c /\ y !! j = Some v).
  { intros j m Hm. destruct (lookup_lt_is_Some_2 constraints j) as [c Hcj]; [rewrite <- Hlc; exact (lookup_lt_Some _ _ _ Hm)|].
    destruct (lookup_lt_is_Some_2 y j) as [v Hv]; [rewrite <- Hly; exact (lookup_lt_Some _ _ _ Hcj)|]. eauto. }
  split.
  - apply Forall2_same_length_lookup. split; [rewrite length_fmap, length_seq; reflexivity|]. intros d dim v Hd Hv.
    rewrite list_lookup_fmap in Hv. apply fmap_Some in Hv as (d' & Hd' & ->). apply lookup_seq in Hd' as [-> _]. cbn [Nat.add].
    destruct (list_find (fun m => reads d m = true) (output_index_maps t)) as [[j m]|] eqn:E.
    + apply list_find_Some in E as (Hm & R & _). unfold reads in R. destruct (method m) as [|d'|] eqn:Em; try discriminate.
      apply Nat.eqb_eq in R as <-. destruct (Hat j m Hm) as (c & v & Hcj & Hv). rewrite (Hread j m c v d Hm Hcj Hv Em).
      exact (read_admits m d c v dim (list_elem_of_lookup_2 _ _ _ Hm) Em Hd (Hc j m c Hm Hcj) (Hy j c v Hcj Hv)).
    + unfold input_of. rewrite E, (list_lookup_total_correct _ _ _ Hd). apply admits_some, list_elem_of_lookup_2 with d, Hd.
  - apply mapR_Ok, Forall2_same_length_lookup. split; [congruence|]. intros j m v Hm Hv.
    destruct (Hat j m Hm) as (c & v' & Hcj & Hv'). assert (v' = v) as -> by congruence.
    specialize (Hc j m c Hm Hcj). specialize (Hy j c v Hcj Hv). pose proof (Forall_lookup_1 _ _ _ _ H64 Hv) as Hv64.
    destruct (WellFormed_map t m HW (list_elem_of_lookup_2 _ _ _ Hm)) as [_ (Ho & _ & _)].
    unfold output_index, base_output_index. unfold constraint_of in Hc.
    destruct (method m) as [|d|] eqn:Em; [|rewrite Ok_bind; cbn beta|contradiction].
    + destruct Hc as [Hf ->]. apply IsFiniteIndex_spec in Hf. destruct Hy as [H1 H2]. unfold lower_ok, upper_ok in H1, H2.
      cbn [new_inclusive_min new_exclusive_max] in H1, H2. rewrite wrap64_id in H2 by (unfold_i64; lia).
      rewrite Ok_bind. cbn beta. rewrite Z.mul_0_l, Z.add_0_l, wrap64_id by exact Ho. f_equal. unfold_i64. lia.
    + destruct Hc as (Hs & dim & _ & Hd & _). pose proof (lookup_lt_Some _ _ _ Hd) as Hlt.
      rewrite (list_lookup_total_correct _ d (input_of y d)).
      * rewrite (Hread j m c v d Hm Hcj Hv Em). f_equal. rewrite <- (wrap64_id v Hv64) at 2. f_equal. nia.
      * rewrite list_lookup_fmap, lookup_seq_lt by exact Hlt. reflexivity.
Qed.

Lemma stored_covered news constraints stored y :
  Forall2 (new_bounds_of requested) (output_index_maps t) news ->
  Forall2 (constraint_of (input_dimensions t)) (output_index_maps t) constraints -> no_diagonal (output_index_maps t) ->
  Forall bounded stored -> length stored = output_rank t -> ValidateResizeDomainConstraint stored constraints = Ok tt ->
  all_inside stored y \/ all_inside (zip_with GetNewIndexInterval stored news) y ->
  exists x, Forall2 (fun dim v => admits (explicit_bounds (optionally_implicit_domain dim)) v) (input_dimensions t) x /\
    mapR (fun m => output_index m x) (output_index_maps t) = Ok y.
Proof.
  intros Hn Hc Hd Hb Hl Hv%ValidateResizeDomainConstraint_spec Hy.
  pose proof (Forall2_length _ _ _ Hn) as Hln. pose proof (Forall2_length _ _ _ Hc) as Hlc. unfold output_rank in Hl.
  assert (Hly : length y = length stored).
  { destruct Hy as [Hy|Hy]; apply Forall2_length in Hy; [congruence|]. rewrite length_zip_with in Hy. lia. }
  assert (Hat : forall j v, y !! j = Some v -> exists m B r c, output_index_maps t !! j = Some m /\ stored !! j = Some B /\
    news !! j = Some r /\ constraints !! j = Some c /\ (inside B v \/ inside (GetNewIndexInterval B r) v)).
  { intros j v Hv'. pose proof (lookup_lt_Some _ _ _ Hv') as Hlt.
    destruct (lookup_lt_is_Some_2 stored j) as [B HB]; [lia|]. destruct (lookup_lt_is_Some_2 news j) as [r Hr]; [lia|].
    destruct (lookup_lt_is_Some_2 (output_index_maps t) j) as [m Hm]; [lia|].
    destruct (lookup_lt_is_Some_2 constraints j) as [c Hcj]; [lia|]. exists m, B, r, c. repeat (split; [assumption|]).
    destruct Hy as [Hy|Hy]; [left; exact (Forall2_lookup_lr _ _ _ _ _ _ Hy HB Hv')|right].
    apply (Forall2_lookup_lr _ _ _ j _ _ Hy); [|exact Hv']. rewrite lookup_zip_with, HB. cbn. rewrite Hr. reflexivity. }
  assert (Hok : forall j v, y !! j = Some v -> exists c, constraints !! j = Some c /\ admits c v /\ in_i64 v).
  { intros j v Hv'. destruct (Hat j v Hv') as (m & B & r & c & Hm & HB & Hr & Hcj & Hin). exists c. split; [exact Hcj|].
    pose proof (Forall_lookup_1 _ _ _ _ Hb HB) as HbB. pose proof (list_elem_of_lookup_2 _ _ _ Hm) as Hmem.
    destruct (new_bounds_valid m r Hmem (Forall2_lookup_lr _ _ _ _ _ _ Hn Hm Hr)) as [Hvr Hvc].
    destruct (Hvc c (Forall2_lookup_lr _ _ _ _ _ _ Hc Hm Hcj)) as (Hvalid & Hmin & Hmax).
    assert (Hz : zip stored constraints !! j = Some (B, c)) by (rewrite lookup_zip_with, HB; cbn; rewrite Hcj; reflexivity).
    destruct (Forall_lookup_1 _ _ _ _ Hv Hz) as [I1 I2]. cbn [fst snd] in I1, I2. split.
    - exact (dimension_covered B r c v HbB Hvr Hvalid I1 I2 Hmin Hmax Hin).
    - destruct (GetNewIndexInterval_spec B r HbB Hvr) as [HbN _]. unfold bounded in *.
      destruct Hin as [Hin|Hin]; unfold inside in Hin; unfold_i64; lia. }
  apply (covered constraints y Hc Hd).
  - apply Forall2_same_length_lookup. split; [lia|]. intros j c v Hcj Hv'. destruct (Hok j v Hv') as (c' & Hc' & Ha & _). congruence.
  - apply Forall_lookup. intros j v Hv'. destruct (Hok j v Hv') as (_ & _ & _ & H). exact H.
Qed.
End Propagated.
