(* ===== verification/ResizeTheorems.v ===== *)
(** The theorems on resizing, with concrete requests. *)

From stdpp Require Import strings gmap.
From S2P Require Import Prelude Int64 IndexInterval Transform PropagateBounds GridPartition BoxDifference.
From S2P Require Import Resize ResizeCells ResizePropagate.

(** * Propagation *)

Lemma mapR_units {A} (f : A -> Result unit) l us : mapR f l = Ok us -> Forall (fun a => f a = Ok tt) l.
Proof.
  intros H%mapR_Ok. apply Forall_forall. intros a (i & Hi)%list_elem_of_lookup.
  destruct (Forall2_lookup_l _ _ _ _ _ H Hi) as ([] & _ & E). exact E.
Qed.

(** The parts of a propagation that succeeds. *)
Lemma propagation_parts t requested tied p :
  WellFormed t -> length requested = input_rank t ->
  PropagateInputDomainResizeToOutput t requested tied = Ok p ->
  Forall (fun q => ValidateInputDimensionResize (optionally_implicit_domain q.1) (new_inclusive_min q.2)
    (new_exclusive_max q.2) = Ok tt) (zip (input_dimensions t) requested) /\
  Forall2 (new_bounds_of requested) (output_index_maps t) (new_output_bounds p) /\
  is_noop p = negb (existsb (resized requested) (output_index_maps t)) /\
  length (output_constraints p) = output_rank t /\
  (is_noop p = false -> tied = false ->
     Forall2 (constraint_of (input_dimensions t)) (output_index_maps t) (output_constraints p) /\
     no_diagonal (output_index_maps t)).
Proof.
  intros HW Hl H. unfold PropagateInputDomainResizeToOutput in H. apply bind_Ok in H as (us & Hv & (news & Hn & H)%bind_Ok).
  assert (Hmaps : Forall (fun m => in_i64 (stride m)) (output_index_maps t))
    by (apply Forall_forall; intros m Hm; apply (WellFormed_map t m HW Hm)).
  apply mapR_Ok in Hn.
  assert (Hnews : Forall2 (new_bounds_of requested) (output_index_maps t) news.*1 /\
    existsb snd news = existsb (resized requested) (output_index_maps t)).
  { clear - Hn Hmaps. induction Hn as [|m [r b] maps news Hm Hn IH]; [split; [constructor|reflexivity]|].
    apply Forall_cons in Hmaps as [Hs Hmaps]. destruct (IH Hmaps) as [H1 H2].
    destruct (propagate_new_bounds_spec requested m r b Hs Hm) as [Hr ->]. cbn. rewrite H2. split; [constructor; assumption|reflexivity]. }
  destruct Hnews as [Hnews Hex]. apply mapR_units in Hv.
  split. { eapply Forall_impl; [exact Hv|]. intros [d r]. cbn. auto. }
  destruct (existsb snd news) eqn:E; cbn [negb] in H.
  - apply bind_Ok in H as ([deps cs] & Hc & [= <-]). cbn [new_output_bounds is_noop output_constraints snd].
    split; [exact Hnews|]. split; [rewrite <- Hex; reflexivity|].
    split; [exact (constraint_loop_length _ _ _ _ _ Hc)|]. intros _ ->.
    exact (constraint_loop _ _ _ _ Hmaps Hc).
  - injection H as <-. cbn [new_output_bounds is_noop]. split; [exact Hnews|].
    split; [rewrite <- Hex; reflexivity|]. split; [apply length_replicate|discriminate].
Qed.

(** C20: a resize request on a view.  The request is a no-op when no output dimension reads an
    input dimension that is resized.  The new bounds of an output dimension that reads such a
    dimension are those of the request moved by the map, so they admit the image of an index exactly
    when the request, if it is not empty, admits the index; all other new bounds are left implicit.
    If tied bounds may not be resized, no dimension of the view is empty, and the constraints hold
    for the stored bounds, then every position of the stored array, before or after the resize,
    is one that the view addresses, at an index that the explicit bounds of the view admit: a
    resize neither deletes nor adds positions that the view does not see.  (The constraints are
    computed when the flag for tied bounds is not set, as [resize_options.h] has it and against the comment of
    the function in [index_transform.h].)  [empty_view_misses_positions] is a view with an empty dimension. *)
Theorem PropagateInputDomainResizeToOutput_correct t requested tied p :
  WellFormed t -> length requested = input_rank t -> Forall typed_request requested ->
  PropagateInputDomainResizeToOutput t requested tied = Ok p ->
  length (new_output_bounds p) = output_rank t /\ Forall valid_request (new_output_bounds p) /\
  is_noop p = negb (existsb (resized requested) (output_index_maps t)) /\
  (forall j m r, output_index_maps t !! j = Some m -> new_output_bounds p !! j = Some r ->
     r = output_request requested m /\
     match method m with
     | single_input_dimension d => forall q, requested !! d = Some q ->
         (resizes q = false -> r = no_change) /\
         (resizes q = true -> new_inclusive_min q <> new_exclusive_max q ->
            forall v, admits r (offset m + stride m * v) <-> admits q v)
     | _ => r = no_change
     end) /\
  (is_noop p = false -> tied = false -> Forall (fun d => 0 < size (domain d)) (input_dimensions t) ->
   forall stored y, Forall bounded stored -> length stored = output_rank t ->
     ValidateResizeDomainConstraint stored (output_constraints p) = Ok tt ->
     all_inside stored y \/ all_inside (zip_with GetNewIndexInterval stored (new_output_bounds p)) y ->
     exists x, Forall2 (fun dim v => admits (explicit_bounds (optionally_implicit_domain dim)) v) (input_dimensions t) x /\
       mapR (fun m => output_index m x) (output_index_maps t) = Ok y).
Proof.
  intros HW Hl Ht H. destruct (propagation_parts t requested tied p HW Hl H) as (Hv & Hnew & Hnoop & _ & Hc).
  split; [symmetry; eapply Forall2_length, Hnew|]. split.
  { apply Forall_forall. intros r (j & Hj)%list_elem_of_lookup. destruct (Forall2_lookup_r _ _ _ _ _ Hnew Hj) as (m & Hm & Hr).
    exact (proj1 (new_bounds_valid t requested HW Hl Ht Hv m r (list_elem_of_lookup_2 _ _ _ Hm) Hr)). }
  split; [exact Hnoop|]. split.
  { intros j m r Hm Hr. pose proof (Forall2_lookup_lr _ _ _ _ _ _ Hnew Hm Hr) as Hmr.
    split; [exact (new_bounds_moved t requested HW Hl Ht Hv m r (list_elem_of_lookup_2 _ _ _ Hm) Hmr)|].
    destruct (method m) as [|d|] eqn:Em; [unfold new_bounds_of in Hmr; rewrite Em in Hmr; exact Hmr| |
      unfold new_bounds_of in Hmr; rewrite Em in Hmr; exact Hmr].
    intros q Hq. exact (new_bounds_effect t requested HW Hl Ht Hv m d q r (list_elem_of_lookup_2 _ _ _ Hm) Em Hq Hmr). }
  intros Hn Htied Hne stored y Hb Hls Hcons Hy. destruct (Hc Hn Htied) as [Hconstr Hdiag].
  exact (stored_covered t requested HW Hl Ht Hv Hne _ _ stored y Hnew Hconstr Hdiag Hb Hls Hcons Hy).
Qed.

(** * Bounds that cannot be resized *)

(** New bounds that leave explicit bounds as they are. *)
Definition keeps_fixed (b : OptionallyImplicitIndexInterval) (r : ResizeBounds) : Prop :=
  (implicit_lower b = false -> ImplicitOrEqual (new_inclusive_min r) (inclusive_min (interval b)) = true) /\
  (implicit_upper b = false -> ImplicitOrEqual (new_exclusive_max r) (exclusive_max (interval b)) = true).

Definition same_fixed (b b' : OptionallyImplicitIndexInterval) : Prop :=
  implicit_lower b = implicit_lower b' /\ implicit_upper b = implicit_upper b' /\
  (implicit_lower b = false -> inclusive_min (interval b) = inclusive_min (interval b')) /\
  (implicit_upper b = false -> exclusive_max (interval b) = exclusive_max (interval b')).

Lemma keeps_same_fixed b b' r : same_fixed b b' -> keeps_fixed b r -> keeps_fixed b' r.
Proof.
  intros (El & Eu & Hl & Hu) [H1 H2]. unfold keeps_fixed. rewrite <- El, <- Eu.
  split; intros E; [rewrite <- (Hl E); auto|rewrite <- (Hu E); auto].
Qed.

(** What the documentation of the virtual methods promises, for metadata that is [metadata_ok]. *)
Class ChunkedDataCacheLaws (Metadata : Type) {cache : ChunkedDataCache Metadata} (metadata_ok : Metadata -> Prop) := {
  law_chunk_shape : valid_shape (chunk_shape grid) /\ (grid_rank grid <= 32)%nat;
  law_components : Forall (fun c => NoDup (chunked_to_cell_dimensions c) /\
    length (chunked_to_cell_dimensions c) = grid_rank grid) (components grid);
  law_bounds m : metadata_ok m ->
    length (GetChunkGridBounds m) = grid_rank grid /\ Forall bounded (interval <$> GetChunkGridBounds m);
  law_compatible m m' : metadata_ok m -> metadata_ok m' -> ValidateMetadataCompatibility m m' = Ok tt ->
    Forall2 same_fixed (GetChunkGridBounds m) (GetChunkGridBounds m');
  law_resized m news m' : metadata_ok m -> Forall valid_request news ->
    Forall2 keeps_fixed (GetChunkGridBounds m) news -> GetResizedMetadata m news = Ok m' ->
    interval <$> GetChunkGridBounds m' = zip_with GetNewIndexInterval (interval <$> GetChunkGridBounds m) news
}.

Section Parameters.
Context {Metadata : Type} {cache : ChunkedDataCache Metadata} {metadata_ok : Metadata -> Prop}.
Context {laws : ChunkedDataCacheLaws Metadata metadata_ok}.

(** The bounds of a component at its chunked dimensions are those of the grid. *)
Lemma GetComponentBounds_spec m ci comp base : components grid !! ci = Some comp ->
  NoDup (chunked_to_cell_dimensions comp) -> GetComponentBounds m ci = Ok base ->
  length base = length (fill_value_domain comp) /\
  forall i j b, chunked_to_cell_dimensions comp !! i = Some j -> GetChunkGridBounds m !! i = Some b -> base !! j = Some b.
Proof.
  intros Hc Hnd H. unfold GetComponentBounds in H. rewrite (checked_at_Some _ _ _ Hc), Ok_bind in H.
  set (gb := GetChunkGridBounds m) in *.
  set (P := fun (pre : list nat) (bs : list OptionallyImplicitIndexInterval) => length bs = length (fill_value_domain comp) /\
    forall i j b, i ∈ pre -> chunked_to_cell_dimensions comp !! i = Some j -> gb !! i = Some b -> bs !! j = Some b).
  enough (HP : P (seq 0 (length gb)) base).
  { destruct HP as [Hl HP]. split; [exact Hl|]. intros i j b Hj Hb. apply (HP i j b); [|exact Hj|exact Hb].
    apply elem_of_seq. pose proof (lookup_lt_Some _ _ _ Hb). lia. }
  revert H. apply foldM_prefix; [split; [apply length_fmap|intros i j b Hi; inversion Hi]|].
  intros pre i bs bs' _ [Hl HP] H. unfold set_component_bound in H.
  apply bind_Ok in H as (j & Ej & (b & Eb & (old & Eold & [= <-])%bind_Ok)%bind_Ok). unfold checked_at in Ej, Eb, Eold.
  destruct (chunked_to_cell_dimensions comp !! i) as [j'|] eqn:Hj; [injection Ej as ->|discriminate].
  destruct (gb !! i) as [b'|] eqn:Hb; [injection Eb as ->|discriminate].
  destruct (bs !! j) as [o|] eqn:Ho; [|discriminate]. split; [rewrite length_insert; exact Hl|].
  intros i' j' b' Hi' Hj' Hb'. destruct (Nat.eq_dec i' i) as [->|Hne].
  - assert (j' = j) as -> by congruence. assert (b' = b) as -> by congruence.
    apply list_lookup_insert_eq, (lookup_lt_Some _ _ _ Ho).
  - assert (Hjj : j' <> j) by (intros ->; apply Hne; exact (NoDup_lookup _ _ _ _ Hnd Hj' Hj)).
    rewrite list_lookup_insert_ne by congruence. apply (HP i' j' b'); [|exact Hj'|exact Hb'].
    apply elem_of_app in Hi' as [Hi'|Hi'%list_elem_of_singleton]; [exact Hi'|congruence].
Qed.

Lemma validate_output_dim_fixed om tm b new c c' : validate_output_dim om tm (b, (new, c)) = Ok c' -> keeps_fixed b new.
Proof.
  unfold validate_output_dim, keeps_fixed, ShapeConstraintError. intros ([] & H1 & ([] & H2 & _)%bind_Ok)%bind_Ok. split; intros E.
  - rewrite E in H1. destruct (ImplicitOrEqual (new_inclusive_min c) _); [|discriminate].
    destruct (ImplicitOrEqual (new_inclusive_min new) _); [reflexivity|discriminate].
  - rewrite E in H2. destruct (ImplicitOrEqual (new_exclusive_max c) _); [|discriminate].
    destruct (ImplicitOrEqual (new_exclusive_max new) _); [reflexivity|discriminate].
Qed.

(** The parameters of a request on a component whose rank is that of the transform's output. *)
Lemma GetResizeParameters_spec m ci comp t requested om tm p :
  metadata_ok m -> components grid !! ci = Some comp -> length (fill_value_domain comp) = output_rank t ->
  WellFormed t -> length requested = input_rank t -> Forall typed_request requested ->
  GetResizeParameters m ci t requested om tm = Ok p ->
  length (grid_new_bounds p) = grid_rank grid /\ Forall valid_request (grid_new_bounds p) /\
  Forall2 keeps_fixed (GetChunkGridBounds m) (grid_new_bounds p) /\
  expand_only p = has_mode om expand_only_mode /\ shrink_only p = has_mode om shrink_only_mode /\
  (forall i r, grid_new_bounds p !! i = Some r -> exists j map, chunked_to_cell_dimensions comp !! i = Some j /\
     output_index_maps t !! j = Some map /\ r = output_request requested map).
Proof.
  intros Hm Hc Hr HW Hl Ht H. unfold GetResizeParameters in H.
  destruct (Forall_lookup_1 _ _ _ _ law_components Hc) as [Hnd Hlc]. destruct (law_bounds m Hm) as [Hgb _].
  apply bind_Ok in H as (base & Hbase & (q & Hq & H)%bind_Ok).
  destruct (is_noop q); [discriminate|]. destruct (_ && _); [discriminate|].
  apply bind_Ok in H as (cs & Hcs & H). rewrite (checked_at_Some _ _ _ Hc), Ok_bind in H.
  apply bind_Ok in H as (news & Hnews & (gcs & _ & [= <-])%bind_Ok). cbn [grid_new_bounds expand_only shrink_only].
  destruct (GetComponentBounds_spec m ci comp base Hc Hnd Hbase) as [Hlb Hat].
  destruct (propagation_parts t requested _ q HW Hl Hq) as (Hv & Hnb & _ & Hlcs & _).
  pose proof (Forall2_length _ _ _ Hnb) as Hlq. unfold output_rank in Hr.
  assert (Hvalid : Forall valid_request (new_output_bounds q)).
  { apply Forall_forall. intros r (j & Hj)%list_elem_of_lookup. destruct (Forall2_lookup_r _ _ _ _ _ Hnb Hj) as (mm & Hmm & Hrr).
    exact (proj1 (new_bounds_valid t requested HW Hl Ht Hv mm r (list_elem_of_lookup_2 _ _ _ Hmm) Hrr)). }
  assert (Hget : forall i r, news !! i = Some r -> exists j, chunked_to_cell_dimensions comp !! i = Some j /\
    new_output_bounds q !! j = Some r).
  { intros i r Hi. apply mapR_Ok in Hnews. destruct (Forall2_lookup_r _ _ _ _ _ Hnews Hi) as (i' & Hi' & E).
    apply lookup_seq in Hi' as [-> _]. cbn [Nat.add] in E. apply bind_Ok in E as (j & Ej & Er). unfold checked_at in Ej, Er.
    destruct (chunked_to_cell_dimensions comp !! i) as [j'|]; [injection Ej as ->|discriminate]. exists j.
    destruct (new_output_bounds q !! j); [|discriminate]. split; congruence. }
  assert (Hln : length news = grid_rank grid) by (rewrite (mapR_length _ _ _ Hnews), length_seq; reflexivity).
  split; [exact Hln|]. split; [|split; [|split; [reflexivity|split; [reflexivity|]]]].
  - apply Forall_lookup. intros i r Hi. destruct (Hget i r Hi) as (j & _ & Hj). exact (Forall_lookup_1 _ _ _ _ Hvalid Hj).
  - apply Forall2_same_length_lookup. split; [congruence|]. intros i b r Hb Hi. destruct (Hget i r Hi) as (j & Hj & Hrj).
    pose proof (Hat i j b Hj Hb) as Hbj. apply mapR_Ok in Hcs. pose proof (Forall2_length _ _ _ Hcs) as Hlz.
    destruct (lookup_lt_is_Some_2 (output_constraints q) j) as [c Hcj].
    { rewrite Hlcs. unfold output_rank. rewrite Hlq. exact (lookup_lt_Some _ _ _ Hrj). }
    assert (Hz : zip base (zip (new_output_bounds q) (output_constraints q)) !! j = Some (b, (r, c)))
      by (rewrite lookup_zip_with, Hbj; cbn; rewrite lookup_zip_with, Hrj; cbn; rewrite Hcj; reflexivity).
    destruct (Forall2_lookup_l _ _ _ _ _ Hcs Hz) as (c' & _ & E). exact (validate_output_dim_fixed om tm b r c c' E).
  - intros i r Hi. destruct (Hget i r Hi) as (j & Hj & Hrj). destruct (Forall2_lookup_r _ _ _ _ _ Hnb Hrj) as (map & Hmap & Hr').
    exists j, map. split; [exact Hj|]. split; [exact Hmap|].
    exact (new_bounds_moved t requested HW Hl Ht Hv map r (list_elem_of_lookup_2 _ _ _ Hmap) Hr').
Qed.

(** * A whole resize *)

(** The bounds of the stored array, and the cell of an index. *)
Definition stored_bounds (m : Metadata) : list IndexInterval := interval <$> GetChunkGridBounds m.
Definition cell_of (y : list Z) : list Z := chunk_of (chunk_shape grid) y.

Lemma ValidateExpandShrinkConstraints_spec current news expand shrink :
  ValidateExpandShrinkConstraints current news expand shrink = Ok tt ->
  forall i b r, current !! i = Some b -> news !! i = Some r ->
    (shrink = true -> ContainsInterval b (GetNewIndexInterval b r) = true) /\
    (expand = true -> ContainsInterval (GetNewIndexInterval b r) b = true).
Proof.
  unfold ValidateExpandShrinkConstraints. intros (us & H%mapR_units & _)%bind_Ok i b r Hb Hr.
  assert (Hz : zip current news !! i = Some (b, r)) by (rewrite lookup_zip_with, Hb; cbn; rewrite Hr; reflexivity).
  pose proof (Forall_lookup_1 _ _ _ _ H Hz) as E. cbn in E.
  destruct shrink, expand, (ContainsInterval b _), (ContainsInterval (GetNewIndexInterval b r) b); cbn in E;
    split; congruence.
Qed.

Lemma RequestResize_spec m0 m p m' : metadata_ok m0 -> metadata_ok m ->
  Forall valid_request (grid_new_bounds p) -> Forall2 keeps_fixed (GetChunkGridBounds m0) (grid_new_bounds p) ->
  RequestResize m0 (Some m) p = Ok m' ->
  stored_bounds m' = zip_with GetNewIndexInterval (stored_bounds m) (grid_new_bounds p) /\
  (shrink_only p = true -> Forall2 (fun b b' => ContainsInterval b b' = true) (stored_bounds m) (stored_bounds m')) /\
  (expand_only p = true -> Forall2 (fun b b' => ContainsInterval b' b = true) (stored_bounds m) (stored_bounds m')).
Proof.
  intros H0 Hm Hv Hk H. unfold RequestResize in H.
  apply bind_Ok in H as ([] & Hc & ([] & ([] & _ & Hes)%bind_Ok & H)%bind_Ok).
  pose proof (ValidateExpandShrinkConstraints_spec _ _ _ _ Hes) as Hcontains. fold (stored_bounds m) in Hcontains.
  enough (E : stored_bounds m' = zip_with GetNewIndexInterval (stored_bounds m) (grid_new_bounds p)).
  { assert (Hlen : length (stored_bounds m) = length (grid_new_bounds p)).
    { apply Forall2_length in Hk. unfold stored_bounds. rewrite length_fmap, (proj1 (law_bounds m Hm)), <- (proj1 (law_bounds m0 H0)).
      exact Hk. }
    split; [exact E|]. rewrite E. split; intros Ef; apply Forall2_same_length_lookup; rewrite length_zip_with;
      (split; [lia|]); intros i b b' Hb (b0 & r & -> & Hb0 & Hr)%lookup_zip_with_Some;
      assert (b0 = b) as -> by congruence; apply (Hcontains i b r Hb Hr), Ef. }
  apply (law_resized m (grid_new_bounds p) m' Hm Hv); [|exact H].
  pose proof (law_compatible m0 m H0 Hm Hc) as Hs. apply Forall2_same_length_lookup in Hs as [Hls Hs].
  apply Forall2_same_length_lookup in Hk as [Hlk Hk]. apply Forall2_same_length_lookup. split; [congruence|].
  intros i b' r Hb' Hr. destruct (lookup_lt_is_Some_2 (GetChunkGridBounds m0) i) as [b Hb].
  { rewrite Hls. exact (lookup_lt_Some _ _ _ Hb'). }
  exact (keeps_same_fixed b b' r (Hs i b b' Hb Hb') (Hk i b r Hb Hr)).
Qed.

(** The first step of a resize, on the metadata [cur]. *)
Lemma ResolveBoundsForDeleteAndResize_spec m0 cur p cells : metadata_ok cur ->
  Forall valid_request (grid_new_bounds p) -> length (grid_new_bounds p) = grid_rank grid ->
  ResolveBoundsForDeleteAndResize m0 cur p = Ok cells ->
  cells = DeleteChunksForResize (stored_bounds cur) (grid_new_bounds p) /\
  (forall m y, metadata_ok m ->
     all_inside (zip_with GetNewIndexInterval (stored_bounds m) (grid_new_bounds p)) y -> cell_of y ∉ cells) /\
  (forall y, all_inside (stored_bounds cur) y ->
     Forall2 whole_chunks (zip_with GetNewIndexInterval (stored_bounds cur) (grid_new_bounds p)) (chunk_shape grid) ->
     cell_of y ∉ cells ->
     exists y', all_inside (zip_with GetNewIndexInterval (stored_bounds cur) (grid_new_bounds p)) y' /\ cell_of y' = cell_of y).
Proof.
  intros Hcur Hv Hl H. unfold ResolveBoundsForDeleteAndResize in H.
  apply bind_Ok in H as ([] & _ & ([] & _ & [= <-])%bind_Ok). fold (stored_bounds cur).
  destruct law_chunk_shape as [Hshape Hrank]. destruct (law_bounds cur Hcur) as [Hlb Hb].
  assert (Hls : length (stored_bounds cur) = length (chunk_shape grid)) by (unfold stored_bounds; rewrite length_fmap; exact Hlb).
  split; [reflexivity|]. split.
  - intros m y Hm Hy. destruct (law_bounds m Hm) as [Hlm Hbm]. apply (kept_chunk_any _ _ Hshape Hrank Hls Hl Hb Hv (stored_bounds m)).
    + exact Hbm.
    + unfold stored_bounds. rewrite length_fmap. exact Hlm.
    + exact Hy.
  - intros y Hy Hw Hnot. destruct (DeleteChunksForResize_spec _ _ Hshape Hrank Hls Hl Hb Hv) as [_ Hcells].
    apply (covered_by_new (stored_bounds cur) (grid_new_bounds p) Hshape Hrank Hls Hl Hb Hv _ Hw).
    destruct (decide (all_inside (new_grid_bounds (stored_bounds cur) (grid_new_bounds p)) (cell_of y))) as [|Hn]; [assumption|].
    destruct Hnot. apply Hcells. split; [|exact Hn]. apply all_inside_chunk; assumption.
Qed.

Definition store_ok (st : Store) : Prop := forall m, stored_metadata st = Some m -> metadata_ok m.

(** The bounds that a request makes of stored bounds. *)
Definition resized_to (r : ResizeBounds) (b b' : IndexInterval) : Prop :=
  inclusive_min b' = (if new_inclusive_min r =? kImplicit then inclusive_min b else new_inclusive_min r) /\
  exclusive_max b' = (if new_exclusive_max r =? kImplicit then exclusive_max b else new_exclusive_max r).

Lemma new_interval_resized b r : bounded b -> valid_request r -> resized_to r b (GetNewIndexInterval b r).
Proof.
  intros Hb Hr. destruct (GetNewIndexInterval_spec b r Hb Hr) as (Hb' & E1 & E2). unfold resized_to.
  rewrite (proj2 (bounded_max _ Hb')), (proj2 (bounded_max _ Hb)), E2, E1. split; reflexivity.
Qed.

(** C5: a resize of a chunked array.  A resize that reports no error is a no-op, or deletes
    chunks, lets other clients act, and then updates the metadata that is stored at that time.
    A stored bound becomes the bound that is requested for the dimension of the view that its
    dimension is read through, moved by the offset and the stride of the view, and is kept where none is
    requested; with the mode [expand_only] the bounds do not shrink, with [shrink_only] they do not grow.
    No chunk that holds an index of the new bounds is deleted, whatever other clients do to the
    bounds between the two steps.  Unless only the metadata is resized or the bounds may only
    grow, every chunk of the array that is left holds an index of the bounds after the resize of
    the metadata that was current when the chunks were deleted, provided that every new dimension
    is not empty or starts at a chunk ([empty_bounds_keep_a_chunk]). *)
Theorem Resize_correct m0 ci comp t requested om tm between st st' :
  metadata_ok m0 -> components grid !! ci = Some comp -> length (fill_value_domain comp) = output_rank t ->
  WellFormed t -> length requested = input_rank t -> Forall typed_request requested ->
  store_ok st -> (forall st1, store_ok st1 -> store_ok (between st1)) ->
  Resize false m0 ci t requested om tm between st = (st', Ok tt) ->
  (GetResizeParameters m0 ci t requested om tm = Err kAborted /\ st' = st) \/
  exists p st1 m m', GetResizeParameters m0 ci t requested om tm = Ok p /\
    stored_metadata st1 = stored_metadata st /\ stored_cells st1 ⊆ stored_cells st /\
    stored_metadata (between st1) = Some m /\ st' = MkStore (Some m') (stored_cells (between st1)) /\
    stored_bounds m' = zip_with GetNewIndexInterval (stored_bounds m) (grid_new_bounds p) /\
    (forall i b b', stored_bounds m !! i = Some b -> stored_bounds m' !! i = Some b' ->
       exists j map, chunked_to_cell_dimensions comp !! i = Some j /\ output_index_maps t !! j = Some map /\
         resized_to (output_request requested map) b b') /\
    (has_mode om shrink_only_mode = true ->
       Forall2 (fun b b' => ContainsInterval b b' = true) (stored_bounds m) (stored_bounds m')) /\
    (has_mode om expand_only_mode = true ->
       Forall2 (fun b b' => ContainsInterval b' b = true) (stored_bounds m) (stored_bounds m')) /\
    (forall y, all_inside (stored_bounds m') y -> cell_of y ∈ stored_cells st -> cell_of y ∈ stored_cells st1) /\
    (has_mode om resize_metadata_only = false -> has_mode om expand_only_mode = false ->
     exists cur, stored_metadata st = Some cur /\
       let new := zip_with GetNewIndexInterval (stored_bounds cur) (grid_new_bounds p) in
       forall y, all_inside (stored_bounds cur) y -> Forall2 whole_chunks new (chunk_shape grid) ->
         cell_of y ∈ stored_cells st1 -> exists y', all_inside new y' /\ cell_of y' = cell_of y).
Proof.
  intros H0 Hc Hr HW Hl Ht Hst Hbetween H. unfold Resize in H.
  destruct (GetResizeParameters m0 ci t requested om tm) as [p|e] eqn:Ep;
    [right|left; destruct e; try discriminate; injection H as <-; auto].
  destruct (GetResizeParameters_spec m0 ci comp t requested om tm p H0 Hc Hr HW Hl Ht Ep) as (Hlp & Hv & Hk & Eexp & Eshr & Hreq).
  match type of H with (match ?d with _ => _ end) = _ => destruct d as [st1|] eqn:Ed; [|discriminate] end.
  destruct (stored_metadata (between st1)) as [m|] eqn:Em; [|discriminate].
  destruct (RequestResize m0 (Some m) p) as [m'|] eqn:Er; [|discriminate]. injection H as <-.
  assert (Hst1 : stored_metadata st1 = stored_metadata st).
  { destruct (_ || _); [injection Ed as <-; reflexivity|]. destruct (stored_metadata st) as [cur|] eqn:Ecur; [|discriminate].
    apply bind_Ok in Ed as (cells & _ & [= <-]). exact Ecur. }
  assert (Hm : metadata_ok m) by (apply (Hbetween st1); [intros m1; rewrite Hst1; apply Hst|exact Em]).
  destruct (RequestResize_spec m0 m p m' H0 Hm Hv Hk Er) as (Hb & Hshr & Hexp). rewrite Eshr in Hshr. rewrite Eexp in Hexp.
  assert (Hmoved : forall i b b', stored_bounds m !! i = Some b -> stored_bounds m' !! i = Some b' ->
    exists j map, chunked_to_cell_dimensions comp !! i = Some j /\ output_index_maps t !! j = Some map /\
      resized_to (output_request requested map) b b').
  { intros i b b' Hbi Hbi'. rewrite Hb in Hbi'. apply lookup_zip_with_Some in Hbi' as (b0 & r & -> & Hb0 & Hri).
    assert (b0 = b) as -> by congruence. destruct (Hreq i r Hri) as (j & map & Hj & Hmap & ->). exists j, map.
    split; [exact Hj|]. split; [exact Hmap|]. apply new_interval_resized; [|exact (Forall_lookup_1 _ _ _ _ Hv Hri)].
    exact (Forall_lookup_1 _ _ _ _ (proj2 (law_bounds m Hm)) Hbi). }
  exists p, st1, m, m'. split; [reflexivity|]. split; [exact Hst1|].
  destruct (has_mode om resize_metadata_only || has_mode om expand_only_mode) eqn:Emode.
  - injection Ed as <-. split; [reflexivity|]. repeat (split; [first [reflexivity|assumption]|]). split; [intros y _ Hy; exact Hy|].
    intros E1 E2. rewrite E1, E2 in Emode. discriminate.
  - destruct (stored_metadata st) as [cur|] eqn:Ecur; [|discriminate]. apply bind_Ok in Ed as (cells & Ecells & [= <-]).
    destruct (ResolveBoundsForDeleteAndResize_spec m0 cur p cells (Hst cur Ecur) Hv Hlp Ecells) as (_ & Hkeep & Hdel).
    unfold delete_cells in *. cbn [stored_metadata stored_cells].
    split; [set_solver|]. split; [exact Em|]. split; [reflexivity|]. split; [exact Hb|]. split; [exact Hmoved|].
    split; [exact Hshr|]. split; [exact Hexp|]. split.
    + intros y Hy Hin. rewrite Hb in Hy. specialize (Hkeep m y Hm Hy). set_solver.
    + intros _ _. exists cur. split; [reflexivity|]. intros y Hy Hw Hin. apply Hdel; [exact Hy|exact Hw|set_solver].
Qed.
End Parameters.

(** * The zarr driver *)

Definition zarr_grid_ok (g : ChunkGridSpecification) : Prop :=
  valid_shape (chunk_shape g) /\ (grid_rank g <= 32)%nat /\
  Forall (fun c => NoDup (chunked_to_cell_dimensions c) /\ length (chunked_to_cell_dimensions c) = grid_rank g) (components g).

Definition zarr_ok (g : ChunkGridSpecification) (m : ZarrMetadata) : Prop :=
  length (zarr_shape m) = grid_rank g /\ Forall (fun n => 0 <= n <= kInfIndex + 1) (zarr_shape m).

Lemma zarr_new_interval n r : in_i64 n -> valid_request r -> keeps_fixed (MkOI (MkInterval 0 n) false true) r ->
  GetNewIndexInterval (MkInterval 0 n) r = MkInterval 0 (if new_exclusive_max r =? kImplicit then n else new_exclusive_max r).
Proof.
  intros Hn [_ Hmax] [Hk _]. specialize (Hk eq_refl). unfold ImplicitOrEqual in Hk. cbn [interval inclusive_min] in Hk.
  unfold GetNewIndexInterval, ExplicitIndexOr, exclusive_max. cbn [inclusive_min size]. rewrite Z.add_0_l, (wrap64_id n) by exact Hn.
  assert ((if new_inclusive_min r =? kImplicit then 0 else new_inclusive_min r) = 0) as ->
    by (destruct (Z.eqb_spec (new_inclusive_min r) kImplicit); [reflexivity|]; cbn [orb] in Hk; lia).
  rewrite half_open_eq, Z.sub_0_r; [reflexivity|].
  destruct (Z.eqb_spec (new_exclusive_max r) kImplicit); rewrite Z.sub_0_r; [exact Hn|]. unfold_i64. lia.
Qed.

#[export] Instance zarr_laws g (Hg : zarr_grid_ok g) :
  ChunkedDataCacheLaws ZarrMetadata (cache := zarr_cache g) (zarr_ok g).
Proof.
  destruct Hg as (Hs & Hr & Hc). split; cbn [grid GetChunkGridBounds ValidateMetadataCompatibility GetResizedMetadata zarr_cache].
  - split; assumption.
  - exact Hc.
  - intros m [Hl Hm]. unfold zarr_GetChunkGridBounds. rewrite length_fmap. split; [exact Hl|].
    apply Forall_fmap, Forall_fmap. eapply Forall_impl; [exact Hm|]. intros n Hn. unfold bounded. cbn. i64_lia.
  - intros m m' [Hl Hm] [Hl' Hm'] _. unfold zarr_GetChunkGridBounds. apply Forall2_fmap, Forall2_same_length_lookup.
    split; [congruence|]. intros i n n' _ _. unfold same_fixed. cbn. repeat split; auto. discriminate.
  - intros m news m' [Hl Hm] Hv Hk [= <-]. unfold zarr_GetChunkGridBounds in *. cbn [zarr_shape].
    revert news Hv Hk. clear Hl. induction Hm as [|n shape Hn Hm IH]; intros news Hv Hk; [reflexivity|].
    destruct news as [|r news]; [reflexivity|]. cbn [fmap list_fmap] in Hk. inversion Hk as [|? ? ? ? Hkr Hks]; subst.
    apply Forall_cons in Hv as [Hvr Hv]. cbn [zip_with fmap list_fmap interval]. f_equal; [|exact (IH news Hv Hks)].
    rewrite zarr_new_interval; [reflexivity|i64_lia|assumption..].
Qed.

(** A transposed view of an array of the shape [10, 7] with chunks of the shape [4, 3]. *)
Definition example_grid : ChunkGridSpecification :=
  MkChunkGrid [MkComponent [MkInterval 0 4; MkInterval 0 3] [0%nat; 1%nat]] [4; 3].
Definition example_metadata : ZarrMetadata := MkZarrMetadata [10; 7] EmptyString.
Definition example_view : TransformRep :=
  MkTransform [MkDimension (MkOI (MkInterval 0 7) false true) EmptyString;
               MkDimension (MkOI (MkInterval 0 10) false true) EmptyString]
    [MkOutputIndexMap (single_input_dimension 1) 0 1; MkOutputIndexMap (single_input_dimension 0) 0 1].
Definition example_store : Store (Metadata := ZarrMetadata) :=
  MkStore (Some example_metadata) (list_to_set (index_vectors [MkInterval 0 3; MkInterval 0 3])).

Lemma example_grid_ok : zarr_grid_ok example_grid.
Proof.
  split; [repeat constructor; cbn; i64_lia|]. split; [cbn; lia|]. repeat constructor; cbn; [|set_solver].
  apply not_elem_of_cons. split; [lia|apply not_elem_of_nil].
Qed.

Lemma PropagateInputDomainResizeToOutput_correct_witness :
  exists p, PropagateInputDomainResizeToOutput example_view [MkResizeBounds kImplicit 5; no_change] false = Ok p /\
    new_output_bounds p = [no_change; MkResizeBounds kImplicit 5] /\
    exists x, mapR (fun m => output_index m x) (output_index_maps example_view) = Ok [9; 6].
Proof.
  destruct (PropagateInputDomainResizeToOutput example_view [MkResizeBounds kImplicit 5; no_change] false) as [p|] eqn:E;
    [|vm_compute in E; discriminate].
  exists p. split; [reflexivity|].
  destruct (PropagateInputDomainResizeToOutput_correct example_view [MkResizeBounds kImplicit 5; no_change] false p)
    as (_ & _ & _ & _ & H).
  - apply WellFormedb_spec. vm_compute. reflexivity.
  - reflexivity.
  - repeat constructor; cbn; i64_lia.
  - exact E.
  - vm_compute in E. injection E as <-. split; [reflexivity|].
    destruct (H eq_refl eq_refl) with (stored := [MkInterval 0 10; MkInterval 0 7]) (y := [9; 6]) as (x & _ & Hx).
    + repeat constructor.
    + repeat constructor; cbn; i64_lia.
    + reflexivity.
    + vm_compute. reflexivity.
    + left. repeat constructor; unfold inside; cbn; lia.
    + exists x. exact Hx.
Defined.

Lemma Resize_correct_witness :
  let r := Resize (cache := zarr_cache example_grid) false example_metadata 0 example_view
    [MkResizeBounds kImplicit 5; no_change] 0 0 id example_store in
  r.2 = Ok tt /\ stored_metadata r.1 = Some (MkZarrMetadata [10; 5] EmptyString) /\
  exists st1 : Store (Metadata := ZarrMetadata), stored_cells r.1 = stored_cells st1 /\ ([2; 1] ∈ stored_cells st1).
Proof.
  intros r. assert (Hok : r.2 = Ok tt) by (vm_compute; reflexivity). split; [exact Hok|].
  split; [vm_compute; reflexivity|].
  destruct (Resize_correct (cache := zarr_cache example_grid) (laws := zarr_laws example_grid example_grid_ok)
    example_metadata 0 (MkComponent [MkInterval 0 4; MkInterval 0 3] [0%nat; 1%nat]) example_view
    [MkResizeBounds kImplicit 5; no_change] 0 0 id example_store r.1) as [[E _]|(p & st1 & m & m' & Ep & Hm1 & _ & Em & Er & Hb & _ & _ & _ & Hkeep & _)].
  - split; [reflexivity|]. repeat constructor; i64_lia.
  - reflexivity.
  - reflexivity.
  - apply WellFormedb_spec. vm_compute. reflexivity.
  - reflexivity.
  - repeat constructor; cbn; i64_lia.
  - intros m [= <-]. split; [reflexivity|]. repeat constructor; i64_lia.
  - intros st1 H. exact H.
  - unfold r. rewrite <- Hok. unfold r. destruct (Resize _ _ _ _ _ _ _ _ _); reflexivity.
  - vm_compute in E. discriminate.
  - exists st1. rewrite Er. split; [reflexivity|]. apply (Hkeep [8; 4]).
    + assert (stored_metadata r.1 = Some m') as E by (rewrite Er; reflexivity). vm_compute in E. injection E as <-.
      repeat constructor; unfold inside; cbn; lia.
    + apply elem_of_list_to_set, list_elem_of_In. vm_compute. tauto.
Defined.

(** The new bounds are compared with the fixed ones one by one, but the upper bound that is
    requested is not compared with the lower bound that is kept: an array can be resized to a
    negative shape, after all of its chunks were deleted. *)
Lemma resize_to_negative_shape :
  let r := Resize (cache := zarr_cache example_grid) false example_metadata 0 example_view
    [MkResizeBounds kImplicit (-1); no_change] 0 0 id example_store in
  r.2 = Ok tt /\ stored_metadata r.1 = Some (MkZarrMetadata [10; -1] EmptyString) /\ elements (stored_cells r.1) = [].
Proof. vm_compute. auto. Qed.

(** An array that does not start at a chunk keeps a chunk when it is resized to nothing. *)
Lemma empty_bounds_keep_a_chunk :
  DeleteChunksForResize (cache := zarr_cache (MkChunkGrid [] [10])) [MkInterval 3 5] [MkResizeBounds 5 5] = [].
Proof. vm_compute. reflexivity. Qed.

(** The reversed view of a dimension that starts at 0, is empty and may grow upwards: growing the view
    downwards makes the stored dimension [0, 6), of which the view does not address the position 0. *)
Lemma empty_view_misses_positions :
  let t := MkTransform [MkDimension (MkOI (MkInterval 0 0) true false) EmptyString]
    [MkOutputIndexMap (single_input_dimension 0) 0 (-1)] in
  WellFormed t /\ exists p, PropagateInputDomainResizeToOutput t [MkResizeBounds (-5) kImplicit] false = Ok p /\
    ValidateResizeDomainConstraint [MkInterval 0 0] (output_constraints p) = Ok tt /\
    zip_with GetNewIndexInterval [MkInterval 0 0] (new_output_bounds p) = [MkInterval 0 6] /\
    forall x, IsFiniteIndex x = true -> admits (explicit_bounds (MkOI (MkInterval 0 0) true false)) x ->
      mapR (fun m => output_index m [x]) (output_index_maps t) <> Ok [0].
Proof.
  split; [apply WellFormedb_spec; vm_compute; reflexivity|]. eexists. split; [vm_compute; reflexivity|].
  split; [vm_compute; reflexivity|]. split; [vm_compute; reflexivity|].
  intros x Hf%IsFiniteIndex_spec [_ [Hx|[Hx|Hx]]]; [discriminate Hx..|]. cbn in Hx. intros [= E].
  rewrite !wrap64_id in E by i64_lia. change (x < 0) in Hx. lia.
Qed.
