(* ===== verification/RedBlackTree.v ===== *)
(** Intrusive red-black trees: [internal/container/intrusive_red_black_tree.{h,cc}].

    The nodes live in a store by address, and the operations change their pointers and
    colours as the code does.  An operation on a tree takes and returns its root.  The
    proofs are in [RedBlackCells] (what a store represents), [RedBlackInsert],
    [RedBlackRemove] and [RedBlackJoin]. *)

From stdpp Require Import gmap.
From S2P Require Import Prelude LinkedList.

(** * Definitions *)

Inductive Color := kRed | kBlack.
Inductive Direction := kLeft | kRight.

#[export] Instance Color_eq_dec : EqDecision Color.
Proof. solve_decision. Defined.
#[export] Instance Direction_eq_dec : EqDecision Direction.
Proof. solve_decision. Defined.

Definition opposite (d : Direction) : Direction :=
  match d with kLeft => kRight | kRight => kLeft end.

(** [static_cast<Direction>(bool)]. *)
Definition direction_of (b : bool) : Direction := if b then kRight else kLeft.

(** [NodeBase<>]: the children, and the parent with the colour as its tag. *)
Record NodeData := Data { left_ : node; right_ : node; parent_ : node; color_ : Color }.

#[export] Instance NodeData_eq_dec : EqDecision NodeData.
Proof. solve_decision. Defined.

Abbreviation Store := (gmap node NodeData).

(** The pointers to the children serve as those of a linked list. *)
#[export] Instance NodeData_inhabited : Inhabited NodeData := populate (Data nullptr nullptr nullptr kRed).
#[export] Instance LinkedListAccessor : ListAccessor Store := {
  GetPrev s n := left_ (s !!! n);
  GetNext s n := right_ (s !!! n);
  SetPrev s n p := <[n := Data p (right_ (s !!! n)) (parent_ (s !!! n)) (color_ (s !!! n))]> s;
  SetNext s n p := <[n := Data (left_ (s !!! n)) p (parent_ (s !!! n)) (color_ (s !!! n))]> s;
}.

Definition load (s : Store) (n : node) : Result NodeData :=
  if n =? nullptr then Err NullDereference
  else match s !! n with Some d => Ok d | None => Err UseAfterFree end.

Definition update (s : Store) (n : node) (f : NodeData -> NodeData) : Result Store :=
  d ← load s n; Ok (<[n := f d]> s).

Definition child_of (d : NodeData) (dir : Direction) : node :=
  match dir with kLeft => left_ d | kRight => right_ d end.
Definition with_child (dir : Direction) (c : node) (d : NodeData) : NodeData :=
  match dir with
  | kLeft => Data c (right_ d) (parent_ d) (color_ d)
  | kRight => Data (left_ d) c (parent_ d) (color_ d)
  end.
Definition with_parent (p : node) (d : NodeData) : NodeData :=
  Data (left_ d) (right_ d) p (color_ d).
Definition with_color (c : Color) (d : NodeData) : NodeData :=
  Data (left_ d) (right_ d) (parent_ d) c.

Definition Parent (s : Store) (n : node) : Result node := d ← load s n; Ok (parent_ d).
Definition GetColor (s : Store) (n : node) : Result Color := d ← load s n; Ok (color_ d).
Definition Child (s : Store) (n : node) (dir : Direction) : Result node :=
  d ← load s n; Ok (child_of d dir).
Definition IsRed (s : Store) (n : node) : Result bool :=
  if n =? nullptr then Ok false else c ← GetColor s n; Ok (bool_decide (c = kRed)).

Definition SetChild (s : Store) (n : node) (dir : Direction) (c : node) : Result Store :=
  update s n (with_child dir c).
Definition SetParent (s : Store) (n p : node) : Result Store := update s n (with_parent p).
Definition SetColor (s : Store) (n : node) (c : Color) : Result Store := update s n (with_color c).

(** [DisconnectedParentValue]: all bits zero. *)
Definition disconnected (d : NodeData) : NodeData := Data (left_ d) (right_ d) nullptr kRed.
Definition IsDisconnected (s : Store) (n : node) : Result bool :=
  d ← load s n; Ok ((parent_ d =? nullptr) && bool_decide (color_ d = kRed)).

Definition ChildDir (s : Store) (n : node) : Result Direction :=
  p ← Parent s n; l ← Child s p kLeft; Ok (direction_of (negb (n =? l))).

Definition Grandparent (s : Store) (n : node) : Result node := p ← Parent s n; Parent s p.

(** [if (n) SetParent(n, p)]. *)
Definition SetParentIf (s : Store) (n p : node) : Result Store :=
  if n =? nullptr then Ok s else SetParent s n p.

(** Operations on a tree take and return its root. *)
Definition Rotate (root : node) (s : Store) (x : node) (dir : Direction) : Result (node * Store) :=
  y ← Child s x (opposite dir);
  b ← Child s y dir;
  s ← SetChild s x (opposite dir) b;
  b ← Child s y dir;
  s ← SetParentIf s b x;
  px ← Parent s x;
  s ← SetParent s y px;
  px ← Parent s x;
  '(root, s) ← (if px =? nullptr then Ok (y, s)
                else d ← ChildDir s x; s ← SetChild s px d y; Ok (root, s));
  s ← SetChild s y dir x;
  s ← SetParent s x y;
  Ok (root, s).

(** The rotations of [InsertFixup]; [dz] is the direction of [z] and [dir] that of its
    parent [p]. *)
Definition InsertFixupRotate (root : node) (s : Store) (z p : node) (dz dir : Direction)
    : Result (node * Store) :=
  '(root, s, z) ←
    (if bool_decide (dz = opposite dir) then
       '(root, s) ← Rotate root s p dir; Ok (root, s, p)
     else Ok (root, s, z));
  p ← Parent s z;
  s ← SetColor s p kBlack;
  g ← Grandparent s z;
  s ← SetColor s g kRed;
  Rotate root s g (opposite dir).

Fixpoint InsertFixupLoop (fuel : nat) (root : node) (s : Store) (z : node) : Result (node * Store) :=
  match fuel with
  | O => Err OutOfFuel
  | S fuel =>
      p ← Parent s z;
      red ← IsRed s p;
      if red : bool then
        dir ← ChildDir s p;
        g ← Grandparent s z;
        y ← Child s g (opposite dir);
        red ← IsRed s y;
        if red : bool then
          s ← SetColor s p kBlack;
          s ← SetColor s y kBlack;
          s ← SetColor s g kRed;
          InsertFixupLoop fuel root s g
        else
          dz ← ChildDir s z;
          InsertFixupRotate root s z p dz dir
      else Ok (root, s)
  end.

(** The result says whether the black height grew. *)
Definition InsertFixup (root : node) (s : Store) (z : node) : Result (node * Store * bool) :=
  '(root, s) ← InsertFixupLoop (S (size s)) root s z;
  existing_color ← GetColor s root;
  s ← SetColor s root kBlack;
  Ok (root, s, bool_decide (existing_color = kRed)).

(** Black heights, which are at most the number of nodes, are natural numbers. *)
Fixpoint BlackHeightLoop (fuel : nat) (s : Store) (n : node) (black_height : nat) : Result nat :=
  match fuel with
  | O => Err OutOfFuel
  | S fuel =>
      if n =? nullptr then Ok black_height
      else
        c ← GetColor s n;
        let black_height := if bool_decide (c = kBlack) then S black_height else black_height in
        n ← Child s n kLeft;
        BlackHeightLoop fuel s n black_height
  end.
Definition BlackHeight (s : Store) (n : node) : Result nat := BlackHeightLoop (S (size s)) s n 0.

(** The point of [a_tree] at which [center] is grafted, and its parent. *)
Fixpoint GraftLoop (fuel : nat) (s : Store) (a_dir : Direction) (a_graft a_graft_parent : node)
    (difference : nat) : Result (node * node) :=
  match fuel with
  | O => Err OutOfFuel
  | S fuel =>
      red ← IsRed s a_graft;
      if negb red && bool_decide (difference = 0%nat) then Ok (a_graft, a_graft_parent)
      else
        let difference := if negb red then (difference - 1)%nat else difference in
        next ← Child s a_graft (opposite a_dir);
        GraftLoop fuel s a_dir next a_graft difference
  end.

(** [TreeWithBlackHeight] is a pair. *)
Definition JoinWithBlackHeight (s : Store) (a_tree : node * nat) (center : node)
    (b_tree : node * nat) (a_dir : Direction) : Result (Store * (node * nat)) :=
  let '(a_tree, b_tree, a_dir) :=
    if bool_decide (a_tree.2 < b_tree.2)%nat then (b_tree, a_tree, opposite a_dir)
    else (a_tree, b_tree, a_dir) in
  '(a_graft, a_graft_parent) ← GraftLoop (S (size s)) s a_dir a_tree.1 nullptr (a_tree.2 - b_tree.2);
  s ← SetColor s center kRed;
  s ← SetParent s center a_graft_parent;
  '(root, s) ← (if a_graft_parent =? nullptr then Ok (center, s)
                else s ← SetChild s a_graft_parent (opposite a_dir) center; Ok (a_tree.1, s));
  s ← SetChild s center a_dir a_graft;
  s ← SetParentIf s a_graft center;
  s ← SetChild s center (opposite a_dir) b_tree.1;
  s ← SetParentIf s b_tree.1 center;
  '(root, s, grown) ← InsertFixup root s center;
  Ok (s, (root, if grown : bool then S a_tree.2 else a_tree.2)).

Definition ExtractSubtreeWithBlackHeight (s : Store) (child : node) (black_height : nat)
    : Result (Store * (node * nat)) :=
  if child =? nullptr then Ok (s, (child, black_height))
  else
    s ← SetParent s child nullptr;
    c ← GetColor s child;
    if bool_decide (c = kRed) then
      s ← SetColor s child kBlack;
      Ok (s, (child, S black_height))
    else Ok (s, (child, black_height)).

Fixpoint ExtremeNodeLoop (fuel : nat) (s : Store) (x : node) (dir : Direction) : Result node :=
  match fuel with
  | O => Err OutOfFuel
  | S fuel =>
      child ← Child s x dir;
      if child =? nullptr then Ok x else ExtremeNodeLoop fuel s child dir
  end.
Definition ExtremeNode (s : Store) (x : node) (dir : Direction) : Result node :=
  ExtremeNodeLoop (S (size s)) s x dir.

Definition TreeExtremeNode (s : Store) (root : node) (dir : Direction) : Result node :=
  if root =? nullptr then Ok nullptr else ExtremeNode s root dir.

(** Up from [x] to the first ancestor that is not left through its child [dir]. *)
Fixpoint ClimbLoop (fuel : nat) (s : Store) (x y : node) (dir : Direction) : Result node :=
  match fuel with
  | O => Err OutOfFuel
  | S fuel =>
      if y =? nullptr then Ok y
      else
        c ← Child s y dir;
        if x =? c then y' ← Parent s y; ClimbLoop fuel s y y' dir else Ok y
  end.

Definition Traverse (s : Store) (x : node) (dir : Direction) : Result node :=
  child ← Child s x dir;
  if negb (child =? nullptr) then ExtremeNode s child (opposite dir)
  else
    y ← Parent s x;
    ClimbLoop (S (size s)) s x y dir.

(** The node and the direction in which it has no child, next to [parent] in the order. *)
Definition insert_position (s : Store) (parent : node) (direction : Direction) : Result (node * Direction) :=
  c ← Child s parent direction;
  if negb (c =? nullptr) then
    parent ← Traverse s parent direction; Ok (parent, opposite direction)
  else Ok (parent, direction).

Definition Insert (root : node) (s : Store) (parent : node) (direction : Direction)
    (new_node : node) : Result (node * Store) :=
  '(root, s, parent) ←
    (if parent =? nullptr then Ok (new_node, s, parent)
     else
       '(parent, direction) ← insert_position s parent direction;
       s ← SetChild s parent direction new_node;
       Ok (root, s, parent));
  s ← SetParent s new_node parent;
  s ← SetChild s new_node kLeft nullptr;
  s ← SetChild s new_node kRight nullptr;
  s ← SetColor s new_node kRed;
  '(root, s, _) ← InsertFixup root s new_node;
  Ok (root, s).

Definition InsertExtreme (root : node) (s : Store) (dir : Direction) (new_node : node)
    : Result (node * Store) :=
  n ← TreeExtremeNode s root dir;
  Insert root s n dir new_node.

Definition Replace (root : node) (s : Store) (existing replacement : node) : Result (node * Store) :=
  d ← load s existing;
  s ← update s replacement (fun _ => d);
  c ← Child s replacement kLeft;
  s ← SetParentIf s c replacement;
  c ← Child s replacement kRight;
  s ← SetParentIf s c replacement;
  p ← Parent s existing;
  '(root, s) ← (if p =? nullptr then Ok (replacement, s)
                else d ← ChildDir s existing; s ← SetChild s p d replacement; Ok (root, s));
  s ← update s existing disconnected;
  Ok (root, s).

(** The repair of [Remove], in [px] and its child [w] away from [dir].  A red [w] is rotated
    away; the last result is the new [w]. *)
Definition RemoveFixupRedSibling (root : node) (s : Store) (px w : node) (dir : Direction)
    : Result (node * Store * node) :=
  c ← GetColor s w;
  if bool_decide (c = kRed) then
    s ← SetColor s w kBlack;
    s ← SetColor s px kRed;
    '(root, s) ← Rotate root s px dir;
    w ← Child s px (opposite dir);
    Ok (root, s, w)
  else Ok (root, s, w).

(** A red child of [w] makes up for the missing black node. *)
Definition RemoveFixupRotate (root : node) (s : Store) (px w : node) (dir : Direction)
    : Result (node * Store) :=
  far ← Child s w (opposite dir);
  red ← IsRed s far;
  '(root, s, w) ←
    (if negb red then
       near ← Child s w dir;
       s ← SetColor s near kBlack;
       s ← SetColor s w kRed;
       '(root, s) ← Rotate root s w (opposite dir);
       w ← Child s px (opposite dir);
       Ok (root, s, w)
     else Ok (root, s, w));
  c ← GetColor s px;
  s ← SetColor s w c;
  s ← SetColor s px kBlack;
  far ← Child s w (opposite dir);
  s ← SetColor s far kBlack;
  Rotate root s px dir.

(** The loop; the last result is [x] after it. *)
Fixpoint RemoveFixupLoop (fuel : nat) (root : node) (s : Store) (x px : node)
    : Result (node * Store * node) :=
  match fuel with
  | O => Err OutOfFuel
  | S fuel =>
      red ← IsRed s x;
      if (px =? nullptr) || red then Ok (root, s, x)
      else
        r ← Child s px kRight;
        let dir := direction_of (x =? r) in
        w ← Child s px (opposite dir);
        '(root, s, w) ← RemoveFixupRedSibling root s px w dir;
        l ← Child s w kLeft;
        red_l ← IsRed s l;
        r ← Child s w kRight;
        red_r ← IsRed s r;
        if negb red_l && negb red_r then
          s ← SetColor s w kRed;
          p ← Parent s px;
          RemoveFixupLoop fuel root s px p
        else
          '(root, s) ← RemoveFixupRotate root s px w dir;
          Ok (root, s, root)
  end.

(** The loop and the final colouring. *)
Definition RemoveFixup (root : node) (s : Store) (x px : node) : Result (node * Store) :=
  '(root, s, x) ← RemoveFixupLoop (S (size s)) root s x px;
  s ← (if negb (x =? nullptr) then SetColor s x kBlack else Ok s);
  Ok (root, s).

(** The node that is taken out of its place: [z] or its successor. *)
Definition removed_node (s : Store) (z : node) : Result node :=
  l ← Child s z kLeft;
  r ← Child s z kRight;
  if (l =? nullptr) || (r =? nullptr) then Ok z else Traverse s z kRight.

(** [x], the only child of [y], takes the place of [y] under [px]. *)
Definition unlink (root : node) (s : Store) (y x px : node) : Result (node * Store) :=
  s ← SetParentIf s x px;
  if px =? nullptr then Ok (x, s)
  else d ← ChildDir s y; s ← SetChild s px d x; Ok (root, s).

Definition Remove (root : node) (s : Store) (z : node) : Result (node * Store) :=
  y ← removed_node s z;
  l ← Child s y kLeft;
  x ← Child s y (direction_of (l =? nullptr));
  px ← Parent s y;
  '(root, s) ← unlink root s y x px;
  color_removed ← GetColor s y;
  '(root, s, px) ←
    (if negb (y =? z) then
       '(root, s) ← Replace root s z y; Ok (root, s, if px =? z then y else px)
     else s ← update s z disconnected; Ok (root, s, px));
  if bool_decide (color_removed = kRed) then Ok (root, s)
  else RemoveFixup root s x px.

Definition Join (s : Store) (a_tree center b_tree : node) (a_dir : Direction) : Result (Store * node) :=
  a_height ← BlackHeight s a_tree;
  b_height ← BlackHeight s b_tree;
  '(s, t) ← JoinWithBlackHeight s (a_tree, a_height) center (b_tree, b_height) a_dir;
  Ok (s, t.1).

Definition Join2 (s : Store) (a_tree b_tree : node) (a_dir : Direction) : Result (Store * node) :=
  if a_tree =? nullptr then Ok (s, b_tree)
  else if b_tree =? nullptr then Ok (s, a_tree)
  else
    center ← ExtremeNode s a_tree (opposite a_dir);
    '(a_tree, s) ← Remove a_tree s center;
    Join s a_tree center b_tree a_dir.

(** [split_trees] is a pair; [get] and [set] index it by a direction. *)
Definition get {A} (p : A * A) (d : Direction) : A := match d with kLeft => p.1 | kRight => p.2 end.
Definition set {A} (p : A * A) (d : Direction) (x : A) : A * A :=
  match d with kLeft => (x, p.2) | kRight => (p.1, x) end.

Fixpoint SplitLoop (fuel : nat) (s : Store) (center parent : node) (center_black_height : nat)
    (split_trees : (node * nat) * (node * nat)) : Result (Store * ((node * nat) * (node * nat))) :=
  match fuel with
  | O => Err OutOfFuel
  | S fuel =>
      if parent =? nullptr then Ok (s, split_trees)
      else
        r ← Child s parent kRight;
        let dir := direction_of (r =? center) in
        grandparent ← Parent s parent;
        parent_color ← GetColor s parent;
        sibling ← Child s parent (opposite dir);
        '(s, t) ← ExtractSubtreeWithBlackHeight s sibling center_black_height;
        '(s, t) ← JoinWithBlackHeight s (get split_trees (opposite dir)) parent t dir;
        SplitLoop fuel s parent grandparent
          (if bool_decide (parent_color = kBlack) then S center_black_height else center_black_height)
          (set split_trees (opposite dir) t)
  end.

Definition Split (s : Store) (center : node) : Result (Store * (node * node)) :=
  center_black_height ← BlackHeight s center;
  c ← GetColor s center;
  let child_black_height :=
    if bool_decide (c = kBlack) then (center_black_height - 1)%nat else center_black_height in
  l ← Child s center kLeft;
  '(s, a) ← ExtractSubtreeWithBlackHeight s l child_black_height;
  r ← Child s center kRight;
  '(s, b) ← ExtractSubtreeWithBlackHeight s r child_black_height;
  parent ← Parent s center;
  '(s, t) ← SplitLoop (S (size s)) s center parent center_black_height (a, b);
  Ok (s, (t.1.1, t.2.1)).

(** [Split] at a node or an insertion point; the last result is [center] after the call. *)
Definition SplitAt (s : Store) (center : node) (dir : Direction) (found : bool)
    : Result (Store * (node * node) * node) :=
  if center =? nullptr then Ok (s, (nullptr, nullptr), center)
  else
    '(s, trees) ← Split s center;
    if negb found then
      '(root, s) ← InsertExtreme (get trees (opposite dir)) s dir center;
      Ok (s, set trees (opposite dir) root, nullptr)
    else Ok (s, trees, center).

(** [FindResult]. *)
Record FindResult := Found { node_ : node; found : bool; insert_direction : Direction }.
Definition found_node (r : FindResult) : node := if found r then node_ r else nullptr.

(** [compare n] says how the target compares to the node [n]. *)
Fixpoint FindLoop (fuel : nat) (s : Store) (compare : node -> comparison) (n result_node : node)
    (dir : Direction) : Result FindResult :=
  match fuel with
  | O => Err OutOfFuel
  | S fuel =>
      if n =? nullptr then Ok (Found result_node false dir)
      else
        match compare n with
        | Eq => Ok (Found n true dir)
        | Lt => next ← Child s n kLeft; FindLoop fuel s compare next n kLeft
        | Gt => next ← Child s n kRight; FindLoop fuel s compare next n kRight
        end
  end.
Definition Find (root : node) (s : Store) (compare : node -> comparison) : Result FindResult :=
  FindLoop (S (size s)) s compare root nullptr kLeft.

Fixpoint FindBoundLoop (fuel : nat) (s : Store) (bound : Direction) (predicate : node -> bool)
    (n result_node found_ : node) (dir : Direction) : Result FindResult :=
  match fuel with
  | O => Err OutOfFuel
  | S fuel =>
      if n =? nullptr then
        Ok (if negb (found_ =? nullptr) then Found found_ true bound else Found result_node false dir)
      else
        let satisfies := direction_of (predicate n) in
        let found_ := if bool_decide (satisfies = bound) then n else found_ in
        next ← Child s n satisfies;
        FindBoundLoop fuel s bound predicate next n found_ satisfies
  end.
Definition FindBound (root : node) (s : Store) (bound : Direction) (predicate : node -> bool)
    : Result FindResult :=
  FindBoundLoop (S (size s)) s bound predicate root nullptr nullptr kLeft.

(** [make_node] is the address of the node that the callback creates. *)
Definition FindOrInsert (root : node) (s : Store) (compare : node -> comparison) (make_node : node)
    : Result (node * Store * (node * bool)) :=
  r ← Find root s compare;
  if found r then Ok (root, s, (node_ r, false))
  else
    '(root, s) ← Insert root s (node_ r) (insert_direction r) make_node;
    Ok (root, s, (make_node, true)).

Definition FindSplit (root : node) (s : Store) (compare : node -> comparison)
    : Result (Store * (node * node) * node) :=
  r ← Find root s compare;
  SplitAt s (node_ r) (insert_direction r) (found r).
