(* ===== verification/RedBlackCells.v ===== *)
(** What a store of red-black nodes represents: a tree is a list of cells, a place in a tree a
    path of frames.  A tactic runs an operation on known cells; the rotation is the first
    operation with a specification. *)

From stdpp Require Import gmap.
From S2P Require Import Prelude LinkedList RedBlackTree.

#[export] Instance LinkedListAccessor_laws : ListAccessorLaws Store.
Proof.
  split; intros s n p m; cbn; destruct (m =? n) eqn:E; bool_to_prop; subst;
    rewrite ?lookup_total_insert_eq, ?lookup_total_insert_ne by congruence; reflexivity.
Qed.

(** * Trees and the cells that represent them *)

(** Trees of node addresses. *)
Inductive tree := Leaf | Branch (c : Color) (l : tree) (x : node) (r : tree).

#[export] Instance tree_eq_dec : EqDecision tree.
Proof. solve_decision. Defined.

Fixpoint inorder (t : tree) : list node :=
  match t with Leaf => [] | Branch _ l x r => inorder l ++ x :: inorder r end.
Definition root_of (t : tree) : node := match t with Leaf => nullptr | Branch _ _ x _ => x end.
Definition color_of (t : tree) : Color := match t with Leaf => kBlack | Branch c _ _ _ => c end.

(** The branch whose child in direction [d] is [a]. *)
Definition branch (d : Direction) (c : Color) (a : tree) (x : node) (b : tree) : tree :=
  match d with kLeft => Branch c a x b | kRight => Branch c b x a end.

(** The red-black invariants: [t] has black height [n]. *)
Fixpoint rb (t : tree) (n : nat) : Prop :=
  match t with
  | Leaf => n = 0%nat
  | Branch kRed l _ r => rb l n /\ rb r n /\ color_of l = kBlack /\ color_of r = kBlack
  | Branch kBlack l _ r => exists m, n = S m /\ rb l m /\ rb r m
  end.

Abbreviation cell := (prod node NodeData) (only parsing).

(** The contents of the nodes of a tree whose root has the parent [p]. *)
Fixpoint cells (t : tree) (p : node) : list (node * NodeData) :=
  match t with
  | Leaf => []
  | Branch c l x r => (x, Data (root_of l) (root_of r) p c) :: cells l x ++ cells r x
  end.

(** The store has distinct cells with these contents, among others. *)
Definition holds (s : Store) (cs : list (node * NodeData)) : Prop :=
  (nullptr ∉ cs.*1) /\ NoDup cs.*1 /\ Forall (fun c => s !! c.1 = Some c.2) cs.

(** A path from a subtree to the root: at each step the direction of the subtree, and the
    colour, the address and the other child of its parent. *)
Record frame := Frame { f_dir : Direction; f_color : Color; f_node : node; f_sib : tree }.

Fixpoint plug (ctx : list frame) (t : tree) : tree :=
  match ctx with
  | [] => t
  | f :: ctx => plug ctx (branch (f_dir f) (f_color f) t (f_node f) (f_sib f))
  end.

Definition ctx_parent (ctx : list frame) : node :=
  match ctx with [] => nullptr | f :: _ => f_node f end.

(** The root, when the subtree has the root [h]. *)
Fixpoint ctx_root (ctx : list frame) (h : node) : node :=
  match ctx with [] => h | f :: ctx => ctx_root ctx (f_node f) end.

Definition data (d : Direction) (a b p : node) (c : Color) : NodeData :=
  match d with kLeft => Data a b p c | kRight => Data b a p c end.

Fixpoint ctx_cells (ctx : list frame) (h : node) : list (node * NodeData) :=
  match ctx with
  | [] => []
  | f :: ctx =>
      (f_node f, data (f_dir f) h (root_of (f_sib f)) (ctx_parent ctx) (f_color f)) ::
      cells (f_sib f) (f_node f) ++ ctx_cells ctx (f_node f)
  end.

(** Where a red node may be. *)
Definition under_black (ctx : list frame) : Prop :=
  match ctx with [] => False | f :: _ => f_color f = kBlack end.

(** A subtree of black height [n] makes a tree of black height [N]. *)
Fixpoint rb_ctx (ctx : list frame) (n N : nat) : Prop :=
  match ctx with
  | [] => n = N
  | Frame _ kRed _ sib :: ctx => rb sib n /\ color_of sib = kBlack /\ under_black ctx /\ rb_ctx ctx n N
  | Frame _ kBlack _ sib :: ctx => rb sib n /\ rb_ctx ctx (S n) N
  end.

(** The nodes before and after the hole. *)
Fixpoint around (ctx : list frame) : list node * list node :=
  match ctx with
  | [] => ([], [])
  | Frame kLeft _ x sib :: ctx => let (a, b) := around ctx in (a, x :: inorder sib ++ b)
  | Frame kRight _ x sib :: ctx => let (a, b) := around ctx in (a ++ inorder sib ++ [x], b)
  end.

(** A computation that succeeds with a result in [Q]. *)
Definition wp {A} (m : Result A) (Q : A -> Prop) : Prop := exists a, m = Ok a /\ Q a.

(** * Permutations of cells *)

Definition cell_dec (a b : node * NodeData) : {a = b} + {a <> b} := decide (a = b).
Definition one (a b : node * NodeData) : nat := if cell_dec a b then 1%nat else 0%nat.

Lemma count_cons a l b : count_occ cell_dec (a :: l) b = (one a b + count_occ cell_dec l b)%nat.
Proof. unfold one. cbn. destruct (cell_dec a b); reflexivity. Qed.

Lemma count_perm l1 l2 :
  (forall a, count_occ cell_dec l1 a = count_occ cell_dec l2 a) -> l1 ≡ₚ l2.
Proof. apply Permutation_count_occ. Qed.

(** Lists built from the same pieces are permutations of each other. *)
Ltac perm :=
  let a := fresh in
  apply count_perm; intros a; rewrite ?count_cons, ?count_occ_app, ?count_cons, ?count_occ_app;
  repeat first [rewrite count_cons | rewrite count_occ_app]; cbn [count_occ]; lia.

Lemma holds_perm s cs cs' : cs' ≡ₚ cs -> holds s cs -> holds s cs'.
Proof. unfold holds. intros ->. tauto. Qed.

#[export] Instance holds_proper s : Proper ((≡ₚ) ==> iff) (holds s).
Proof. intros cs cs' Hp. split; apply holds_perm; [symmetry|]; exact Hp. Qed.

Lemma cells_branch d c a x b p :
  cells (branch d c a x b) p ≡ₚ (x, data d (root_of a) (root_of b) p c) :: cells a x ++ cells b x.
Proof. destruct d; cbn [branch cells data]; perm. Qed.

Lemma root_branch d c a x b : root_of (branch d c a x b) = x.
Proof. destruct d; reflexivity. Qed.

Lemma cells_plug ctx : forall t,
  cells (plug ctx t) nullptr ≡ₚ cells t (ctx_parent ctx) ++ ctx_cells ctx (root_of t).
Proof.
  induction ctx as [|f ctx IH]; intros t; cbn [plug ctx_cells ctx_parent].
  - rewrite app_nil_r. reflexivity.
  - rewrite IH, cells_branch, root_branch. perm.
Qed.

Lemma root_plug ctx : forall t, root_of (plug ctx t) = ctx_root ctx (root_of t).
Proof. induction ctx as [|f ctx IH]; intros t; [reflexivity|]. cbn. rewrite IH, root_branch. reflexivity. Qed.

Lemma inorder_plug ctx : forall t, inorder (plug ctx t) = (around ctx).1 ++ inorder t ++ (around ctx).2.
Proof.
  induction ctx as [|[d c x sib] ctx IH]; intros t; cbn [plug around]; [rewrite app_nil_r; reflexivity|].
  rewrite IH. destruct d, (around ctx) as [a b]; cbn; rewrite <- ?app_assoc; reflexivity.
Qed.

Lemma inorder_nodes t : forall p, (cells t p).*1 ≡ₚ inorder t.
Proof.
  induction t as [|c l IHl x r IHr]; intros p; [reflexivity|]. cbn.
  rewrite fmap_app, IHl, IHr. apply Permutation_middle.
Qed.

(** The colour of the hole matters only under a red parent. *)
Lemma rb_plug ctx : forall t n N, rb t n -> rb_ctx ctx n N ->
  color_of t = kBlack \/ under_black ctx \/ ctx = [] -> rb (plug ctx t) N.
Proof.
  induction ctx as [|[d c x sib] ctx IH]; intros t n N Ht Hc Hcol; cbn in *; [subst; exact Ht|].
  destruct c.
  - destruct Hc as (Hs & Hb & Hu & Hc). eapply IH; [|exact Hc|auto].
    destruct Hcol as [Hcol|[Hcol|Hcol]]; [|discriminate..]. destruct d; cbn; auto.
  - destruct Hc as (Hs & Hc). eapply IH; [|exact Hc|left; destruct d; reflexivity].
    destruct d; cbn; eauto.
Qed.

(** * Reading and writing cells *)

Lemma wp_ret {A} (a : A) (Q : A -> Prop) : Q a -> wp (Ok a) Q.
Proof. intros HQ. exists a. auto. Qed.

Lemma wp_bind {A B} (m : Result A) (f : A -> Result B) Q :
  wp m (fun a => wp (f a) Q) -> wp (m ≫= f) Q.
Proof. intros (a & -> & HQ). exact HQ. Qed.

Lemma wp_mono {A} (m : Result A) (P Q : A -> Prop) : wp m P -> (forall a, P a -> Q a) -> wp m Q.
Proof. intros (a & -> & HP) HQ. exists a. auto. Qed.

Lemma wp_if {A} (b : bool) (m n : Result A) Q :
  (b = true -> wp m Q) -> (b = false -> wp n Q) -> wp (if b then m else n) Q.
Proof. destruct b; auto. Qed.

Section Cells.
Variables (s : Store) (cs : list (node * NodeData)).
Hypothesis Hs : holds s cs.

Lemma holds_not_null x d : (x, d) ∈ cs -> x <> nullptr.
Proof. intros Hx ->. apply Hs. apply list_elem_of_fmap. exists (nullptr, d). auto. Qed.

Lemma holds_lookup x d : (x, d) ∈ cs -> s !! x = Some d.
Proof. destruct Hs as (_ & _ & Hf). rewrite Forall_forall in Hf. intros Hx. exact (Hf _ Hx). Qed.

Lemma load_cell x d : (x, d) ∈ cs -> load s x = Ok d.
Proof.
  intros Hx. unfold load. rewrite (proj2 (Z.eqb_neq _ _) (holds_not_null x d Hx)).
  rewrite (holds_lookup x d Hx). reflexivity.
Qed.

Lemma Child_cell x d : (x, d) ∈ cs -> forall dir, Child s x dir = Ok (child_of d dir).
Proof. intros Hx dir. unfold Child. rewrite (load_cell x d Hx). reflexivity. Qed.

Lemma Parent_cell x d : (x, d) ∈ cs -> Parent s x = Ok (parent_ d).
Proof. intros Hx. unfold Parent. rewrite (load_cell x d Hx). reflexivity. Qed.

Lemma GetColor_cell x d : (x, d) ∈ cs -> GetColor s x = Ok (color_ d).
Proof. intros Hx. unfold GetColor. rewrite (load_cell x d Hx). reflexivity. Qed.

Lemma IsRed_cell x d : (x, d) ∈ cs -> IsRed s x = Ok (bool_decide (color_ d = kRed)).
Proof.
  intros Hx. unfold IsRed. rewrite (proj2 (Z.eqb_neq _ _) (holds_not_null x d Hx)).
  rewrite (GetColor_cell x d Hx). reflexivity.
Qed.
End Cells.

Lemma IsRed_tree s t p R : holds s (cells t p ++ R) ->
  IsRed s (root_of t) = Ok (bool_decide (color_of t = kRed)).
Proof. intros Hs. 
  destruct t as [|c l x r]; [reflexivity|].
  apply (IsRed_cell s _ Hs x (Data (root_of l) (root_of r) p c)). cbn. constructor.
Qed.

Lemma update_cell s x d cs f : holds s ((x, d) :: cs) ->
  exists s', update s x f = Ok s' /\ holds s' ((x, f d) :: cs).
Proof.
  intros Hs. exists (<[x := f d]> s). unfold update.
  rewrite (load_cell s _ Hs x d) by constructor. split; [reflexivity|].
  destruct Hs as (Hn & Hd & Hf). split; [exact Hn|]. split; [exact Hd|].
  apply Forall_cons in Hf as [_ Hf]. apply NoDup_cons in Hd as [Hx _].
  constructor; [apply lookup_insert_eq|].
  rewrite Forall_forall in *. intros [y e] Hy. cbn. rewrite lookup_insert_ne; [exact (Hf _ Hy)|].
  intros ->. apply Hx. apply list_elem_of_fmap. exists (y, e). auto.
Qed.

(** A fresh node may be added. *)
Lemma holds_weaken s cs1 cs2 : holds s (cs1 ++ cs2) -> holds s cs1.
Proof.
  intros (Hn & Hd & Hf). rewrite fmap_app in *. apply NoDup_app in Hd as (Hd & _).
  apply Forall_app in Hf as [Hf _]. split; [|auto]. intros Hin. apply Hn, elem_of_app. auto.
Qed.

Lemma holds_size s cs : holds s cs -> (length cs <= size s)%nat.
Proof.
  intros (_ & Hd & Hf). rewrite <- size_dom. rewrite <- (length_fmap fst cs).
  rewrite <- (size_list_to_set (C := gset node)) by exact Hd.
  apply subseteq_size. intros x Hx%elem_of_list_to_set. apply elem_of_dom.
  apply list_elem_of_fmap in Hx as ([y d] & -> & Hy). rewrite Forall_forall in Hf.
  rewrite (Hf _ Hy). eauto.
Qed.

Lemma SetParentIf_spec s t p q R : holds s (cells t p ++ R) ->
  exists s', SetParentIf s (root_of t) q = Ok s' /\ holds s' (cells t q ++ R).
Proof.
  intros Hs. destruct t as [|c l x r]; [exists s; split; [reflexivity|exact Hs]|].
  unfold SetParentIf. cbn [root_of].
  assert (Hx : x <> nullptr) by (eapply holds_not_null; [exact Hs|]; cbn; constructor).
  rewrite (proj2 (Z.eqb_neq _ _) Hx). apply (update_cell _ _ _ _ (with_parent q) Hs).
Qed.

(** ** Automation

    [run] executes the next operation on known cells; [H] is the hypothesis on the store. *)
Ltac in_cells :=
  lazymatch goal with
  | |- ?c ∈ ?c :: _ => apply list_elem_of_here
  | |- _ ∈ _ :: _ => apply list_elem_of_further; in_cells
  | |- _ ∈ _ ++ _ => apply elem_of_app; first [left; in_cells | right; in_cells]
  end.

Ltac find_cell x L :=
  match L with
  | (?y, ?d) :: _ => let _ := match goal with _ => constr_eq y x end in d
  | _ :: ?T => find_cell x T
  | ?A ++ ?T => find_cell x A
  | ?A ++ ?T => find_cell x T
  end.

Ltac drop_cell x L :=
  match L with
  | (?y, ?d) :: ?T => let _ := match goal with _ => constr_eq y x end in T
  | ?c :: ?T => let T' := drop_cell x T in constr:(c :: T')
  | ?A ++ ?T => let A' := drop_cell x A in constr:(A' ++ T)
  | ?A ++ ?T => let T' := drop_cell x T in constr:(A ++ T')
  end.

(** Bring the cell of [x] to the front of [H]. *)
Ltac focus H x :=
  lazymatch type of H with
  | holds ?s ?L =>
      let d := find_cell x L in
      let T := drop_cell x L in
      let H' := fresh "H" in
      assert (H' : holds s ((x, d) :: T)) by (eapply holds_perm; [|exact H]; perm);
      clear H; rename H' into H
  end.

Ltac read_with H lemma s x :=
  lazymatch type of H with
  | holds _ ?L => let d := find_cell x L in rewrite (lemma s L H x d ltac:(in_cells))
  end.

Ltac simpl_cells := cbn [mbind Result_bind negb child_of parent_ color_ left_ right_ with_child with_parent
  with_color opposite data branch root_of cells app].
Ltac simpl_cells_in H := unfold with_parent, with_color, disconnected in H; cbn [child_of parent_ color_ left_ right_ with_child with_parent
  with_color opposite data branch root_of cells app] in H.

Ltac write_with H s x f :=
  focus H x;
  let s' := fresh "s" in let E := fresh "E" in let H' := fresh "H" in
  destruct (update_cell s x _ _ f H) as (s' & E & H');
  rewrite E;
  clear E H; rename H' into H; simpl_cells_in H.

(** Bring the cells of a subtree to the front. *)
Ltac find_tree t L :=
  match L with
  | cells ?u ?p => let _ := match goal with _ => constr_eq u t end in p
  | _ :: ?T => find_tree t T
  | ?A ++ ?T => find_tree t A
  | ?A ++ ?T => find_tree t T
  end.

Ltac drop_tree t L :=
  match L with
  | cells ?u ?p => let _ := match goal with _ => constr_eq u t end in constr:(@nil (node * NodeData))
  | ?c :: ?T => let T' := drop_tree t T in constr:(c :: T')
  | ?A ++ ?T => let A' := drop_tree t A in constr:(A' ++ T)
  | ?A ++ ?T => let T' := drop_tree t T in constr:(A ++ T')
  end.

Ltac focus_tree H t :=
  lazymatch type of H with
  | holds ?s ?L =>
      let p := find_tree t L in
      let T := drop_tree t L in
      let H' := fresh "H" in
      assert (H' : holds s (cells t p ++ T)) by (eapply holds_perm; [|exact H]; perm);
      clear H; rename H' into H
  end.

Ltac reparent_with H s t q :=
  focus_tree H t;
  let s' := fresh "s" in let E := fresh "E" in let H' := fresh "H" in
  destruct (SetParentIf_spec s t _ q _ H) as (s' & E & H');
  rewrite E; clear E H; rename H' into H; simpl_cells_in H.

Ltac run_op H m :=
  lazymatch m with
  | mbind _ ?m' => run_op H m'
  | Child ?s ?x ?dir =>
      lazymatch type of H with
      | holds _ ?L => let d := find_cell x L in rewrite (Child_cell s L H x d ltac:(in_cells) dir)
      end
  | Parent ?s ?x => read_with H Parent_cell s x
  | GetColor ?s ?x => read_with H GetColor_cell s x
  | IsRed ?s (root_of ?t) =>
      focus_tree H t; rewrite (IsRed_tree s t _ _ H)
  | IsRed ?s ?x => read_with H IsRed_cell s x
  | SetParentIf ?s (root_of ?t) ?q => reparent_with H s t q
  | SetChild ?s ?x ?d ?c => change m with (update s x (with_child d c)); write_with H s x (with_child d c)
  | SetParent ?s ?x ?p => change m with (update s x (with_parent p)); write_with H s x (with_parent p)
  | SetColor ?s ?x ?c => change m with (update s x (with_color c)); write_with H s x (with_color c)
  | update ?s ?x ?f => write_with H s x f
  end.

Ltac run H :=
  lazymatch goal with |- wp ?m _ => run_op H m end; simpl_cells.

(** * Rotation *)

Lemma ChildDir_frame s f ctx x d R : f_node f <> x ->
  parent_ d = f_node f -> holds s ((x, d) :: ctx_cells (f :: ctx) x ++ R) ->
  ChildDir s x = Ok (f_dir f).
Proof.
  intros Hne Hp Hs. unfold ChildDir. pose proof Hs as (Hn & Hd & _).
  destruct f as [dir c p sib]. cbn [f_node f_dir f_color f_sib ctx_cells app] in *.
  rewrite (Parent_cell s _ Hs x d) by constructor. rewrite Hp. cbn [mbind Result_bind].
  rewrite (Child_cell s _ Hs p (data dir x (root_of sib) (ctx_parent ctx) c)) by in_cells.
  cbn [mbind Result_bind]. destruct dir; cbn.
  - rewrite Z.eqb_refl. reflexivity.
  - rewrite (proj2 (Z.eqb_neq _ _)); [reflexivity|]. intros ->.
    destruct sib as [|c' l y r]; cbn in *.
    + apply Hn. constructor.
    + apply NoDup_cons in Hd as [Hd _]. apply Hd. right. left.
Qed.

(** The part of a parent that points to [x] is made to point to [y]. *)
Lemma relink s ctx x y d R :
  parent_ d = ctx_parent ctx -> holds s ((x, d) :: ctx_cells ctx x ++ R) ->
  exists s',
    (if ctx_parent ctx =? nullptr then Ok (y, s)
     else dir ← ChildDir s x; s ← SetChild s (ctx_parent ctx) dir y; Ok (ctx_root ctx x, s))
      = Ok (ctx_root ctx y, s') /\
    holds s' ((x, d) :: ctx_cells ctx y ++ R).
Proof.
  intros Hp Hs. destruct ctx as [|[dir c p sib] ctx]; [exists s; split; [reflexivity|exact Hs]|].
  assert (Hne : p <> x).
  { intros ->. destruct Hs as (_ & Hd & _). cbn in Hd. apply NoDup_cons in Hd as [Hd _].
    apply Hd. left. }
  pose proof (ChildDir_frame s (Frame dir c p sib) ctx x d R Hne Hp Hs) as Edir.
  cbn [f_node f_dir f_color f_sib ctx_cells ctx_parent ctx_root app] in *.
  assert (Hf : p <> nullptr).
  { apply (holds_not_null s _ Hs p (data dir x (root_of sib) (ctx_parent ctx) c)). in_cells. }
  rewrite (proj2 (Z.eqb_neq _ _) Hf), Edir. cbn [mbind Result_bind].
  assert (H' : holds s ((p, data dir x (root_of sib) (ctx_parent ctx) c) :: (x, d) ::
                        cells sib p ++ ctx_cells ctx p ++ R))
    by (eapply holds_perm; [|exact Hs]; perm).
  destruct (update_cell _ _ _ _ (with_child dir y) H') as (s' & E & H'').
  exists s'. unfold SetChild. rewrite E. split; [reflexivity|].
  eapply holds_perm; [|exact H'']. destruct dir; cbn [data with_child left_ right_ parent_ color_]; perm.
Qed.

Ltac drop_atom a L :=
  match L with
  | ?u => let _ := match goal with _ => constr_eq u a end in constr:(@nil (node * NodeData))
  | ?c :: ?T => let T' := drop_atom a T in constr:(c :: T')
  | ?A ++ ?T => let A' := drop_atom a A in constr:(A' ++ T)
  | ?A ++ ?T => let T' := drop_atom a T in constr:(A ++ T')
  end.

(** The step in which the parent of [x], or the root, is made to point to [y]. *)
Ltac relink_with H ctx x y :=
  focus H x;
  lazymatch type of H with
  | holds ?s ((x, ?d) :: ?L) =>
      let T := drop_atom (ctx_cells ctx x) L in
      let H' := fresh "H" in
      assert (H' : holds s ((x, d) :: ctx_cells ctx x ++ T)) by (eapply holds_perm; [|exact H]; perm);
      clear H;
      let s' := fresh "s" in let E := fresh "E" in let H'' := fresh "H" in
      destruct (relink s ctx x y d T eq_refl H') as (s' & E & H'');
      cbn [mbind Result_bind] in E; rewrite E; clear E H'; rename H'' into H; simpl_cells
  end.

(** The goal is reached with the cells of [H]. *)
Ltac done_with H := apply wp_ret; split; [reflexivity|]; eapply holds_perm; [|exact H];
  cbn [branch cells root_of data app ctx_cells f_dir f_color f_node f_sib]; perm.

Lemma Rotate_spec s ctx dir cx cy A x B y C R :
  holds s (cells (branch dir cx A x (branch dir cy B y C)) (ctx_parent ctx) ++ ctx_cells ctx x ++ R) ->
  exists s', Rotate (ctx_root ctx x) s x dir = Ok (ctx_root ctx y, s') /\
    holds s' (cells (branch dir cy (branch dir cx A x B) y C) (ctx_parent ctx) ++ ctx_cells ctx y ++ R).
Proof.
  intros H.
  assert (Hw : wp (Rotate (ctx_root ctx x) s x dir) (fun r => r.1 = ctx_root ctx y /\
    holds r.2 (cells (branch dir cy (branch dir cx A x B) y C) (ctx_parent ctx) ++ ctx_cells ctx y ++ R))).
  2: { destruct Hw as ([r s'] & E & [Hr Hs]). cbn in *. subst r. eauto. }
  unfold Rotate. destruct dir; simpl_cells_in H; simpl_cells.
  all: do 8 run H.
  all: relink_with H ctx x y.
  all: run H; run H.
  all: done_with H.
Qed.

(** Bring [H] into the form that [Rotate_spec] expects, and rotate. *)
Ltac rotate_with H ctx dir cx cy A x B y C R :=
  lazymatch type of H with
  | holds ?s _ =>
      let H' := fresh "H" in
      assert (H' : holds s (cells (branch dir cx A x (branch dir cy B y C)) (ctx_parent ctx) ++
                            ctx_cells ctx x ++ R))
        by (eapply holds_perm; [|exact H];
            cbn [branch cells root_of data app ctx_cells ctx_parent f_dir f_color f_node f_sib opposite]; perm);
      let s' := fresh "s" in let E := fresh "E" in let H'' := fresh "H" in
      destruct (Rotate_spec s ctx dir cx cy A x B y C R H') as (s' & E & H'');
      cbn [ctx_root f_node opposite] in E; rewrite E; clear E H H'; rename H'' into H;
      cbn [ctx_cells ctx_parent ctx_root f_dir f_color f_node f_sib] in H; simpl_cells_in H; simpl_cells
  end.

(** Equality of sequences up to the association of appends. *)
Ltac same_order := cbn; repeat (rewrite <- app_assoc; cbn); reflexivity.

(** The subtree in the hole of [ctx] is [t] now. *)
Ltac finish_with H t :=
  apply wp_ret; exists t; split; [reflexivity|]; split;
  [eapply holds_perm; [|exact H]; cbn [branch cells root_of app]; perm|];
  split; [same_order|];
  split; [cbn; eauto 12|reflexivity].
