(* ===== verification/RedBlackInsert.v ===== *)
(** Red-black trees: insertion and traversal.

    [InsertFixup] repairs a red node under a red parent; [Traverse] moves in the order of the
    nodes; [valid] is the contract of the tree, which insertion keeps. *)

From stdpp Require Import gmap.
From S2P Require Import Prelude LinkedList RedBlackTree RedBlackCells.

(** * Insertion *)

Lemma root_ne s t p x d R : holds s ((x, d) :: cells t p ++ R) -> root_of t <> x.
Proof.
  intros (Hn & Hd & _) <-. destruct t as [|c l y r]; cbn in *; [apply Hn; left|].
  apply NoDup_cons in Hd as [Hd _]. apply Hd. left.
Qed.

Lemma ChildDir_cells s cs x d dir b q c :
  holds s cs -> (x, d) ∈ cs -> (parent_ d, data dir x b q c) ∈ cs -> b <> x ->
  ChildDir s x = Ok dir.
Proof.
  intros Hs Hx Hp Hb. unfold ChildDir. rewrite (Parent_cell s cs Hs x d Hx). cbn [mbind Result_bind].
  rewrite (Child_cell s cs Hs _ _ Hp). destruct dir; cbn.
  - rewrite Z.eqb_refl. reflexivity.
  - rewrite (proj2 (Z.eqb_neq _ _)) by congruence. reflexivity.
Qed.

(** A tree [t] in the store, with the nodes [seq] in order. *)
Definition holds_tree (s : Store) (root : node) (t : tree) (R : list (node * NodeData)) : Prop :=
  root = root_of t /\ holds s (cells t nullptr ++ R).

Lemma holds_plug s ctx t R :
  holds s (cells t (ctx_parent ctx) ++ ctx_cells ctx (root_of t) ++ R) <->
  holds s (cells (plug ctx t) nullptr ++ R).
Proof. rewrite cells_plug, <- app_assoc. reflexivity. Qed.

(** The whole tree is what is around the hole and [t]. *)
Lemma holds_tree_plug s ctx t R :
  holds s (cells t (ctx_parent ctx) ++ ctx_cells ctx (root_of t) ++ R) ->
  holds_tree s (ctx_root ctx (root_of t)) (plug ctx t) R.
Proof. intros H. split; [symmetry; apply root_plug|]. apply holds_plug, H. Qed.

(** A black uncle: one or two rotations repair the tree. *)
Lemma InsertFixupRotate_spec R s ctx l z r df p sf dg g u n :
  holds s (cells (Branch kRed l z r) p ++
           ctx_cells (Frame df kRed p sf :: Frame dg kBlack g u :: ctx) z ++ R) ->
  rb l n -> rb r n -> color_of l = kBlack -> color_of r = kBlack ->
  rb sf n -> color_of sf = kBlack -> rb u n -> color_of u = kBlack ->
  wp (InsertFixupRotate (ctx_root ctx g) s z p df dg) (fun '(root, s') => exists t,
    root = ctx_root ctx (root_of t) /\
    holds s' (cells t (ctx_parent ctx) ++ ctx_cells ctx (root_of t) ++ R) /\
    inorder t = inorder (branch dg kBlack (branch df kRed (Branch kRed l z r) p sf) g u) /\
    rb t (S n) /\ color_of t = kBlack).
Proof.
  intros H Hl Hr Cl Cr Hsf Csf Hu Cu.
  cbn [ctx_cells f_dir f_color f_node f_sib ctx_parent] in H.
  unfold InsertFixupRotate, Grandparent.
  destruct dg, df; cbn [opposite]; simpl_cells_in H;
    first [rewrite bool_decide_false by discriminate | rewrite bool_decide_true by reflexivity];
    simpl_cells.
  - do 5 run H. rotate_with H ctx kRight kRed kBlack u g sf p (Branch kRed l z r) R.
    finish_with H (Branch kBlack (Branch kRed l z r) p (Branch kRed sf g u)).
  - rotate_with H (Frame kLeft kBlack g u :: ctx) kLeft kRed kRed sf p l z r R.
    do 5 run H. rotate_with H ctx kRight kRed kBlack u g r z (Branch kRed sf p l) R.
    finish_with H (Branch kBlack (Branch kRed sf p l) z (Branch kRed r g u)).
  - rotate_with H (Frame kRight kBlack g u :: ctx) kRight kRed kRed sf p r z l R.
    do 5 run H. rotate_with H ctx kLeft kRed kBlack u g l z (Branch kRed r p sf) R.
    finish_with H (Branch kBlack (Branch kRed u g l) z (Branch kRed r p sf)).
  - do 5 run H. rotate_with H ctx kLeft kRed kBlack u g sf p (Branch kRed l z r) R.
    finish_with H (Branch kBlack (Branch kRed u g sf) p (Branch kRed l z r)).
Qed.

(** A red uncle: recolouring moves the red node up. *)
Lemma recolor {A} R s ctx Z p sf df dg g ul un ur (f : Store -> Result A) Q :
  holds s (cells (branch dg kBlack (branch df kRed Z p sf) g (Branch kRed ul un ur)) (ctx_parent ctx) ++
           ctx_cells ctx g ++ R) ->
  (forall s', holds s' (cells (branch dg kRed (branch df kBlack Z p sf) g (Branch kBlack ul un ur))
                          (ctx_parent ctx) ++ ctx_cells ctx g ++ R) -> wp (f s') Q) ->
  wp (s ← SetColor s p kBlack; s ← SetColor s un kBlack; s ← SetColor s g kRed; f s) Q.
Proof.
  intros H Hf. destruct df, dg; simpl_cells_in H; do 3 run H; apply Hf;
    (eapply holds_perm; [|exact H]); simpl_cells; perm.
Qed.

(** The grandparent in the hole of [ctx], with a red uncle: recolouring moves the red node up. *)
Lemma InsertFixupLoop_spec R fuel : forall ctx l z r n N s, (length ctx < fuel)%nat ->
  holds s (cells (Branch kRed l z r) (ctx_parent ctx) ++ ctx_cells ctx z ++ R) ->
  rb l n -> rb r n -> color_of l = kBlack -> color_of r = kBlack -> rb_ctx ctx n N ->
  wp (InsertFixupLoop fuel (ctx_root ctx z) s z) (fun '(root, s') => exists t,
    holds_tree s' root t R /\ inorder t = inorder (plug ctx (Branch kRed l z r)) /\ rb t N).
Proof.
  induction fuel as [|fuel IH]; intros ctx l z r n N s Hf H Hl Hr Cl Cr Hc; [lia|].
  destruct ctx as [|[df [] p sf] ctx].
  - cbn [InsertFixupLoop]. cbn [ctx_parent ctx_cells cells app] in H. run H.
    cbn [IsRed Z.eqb]. apply wp_ret. exists (Branch kRed l z r).
    cbn in Hc. subst n. split; [split; [reflexivity|exact H]|]. split; [reflexivity|]. cbn. auto.
  - destruct Hc as (Hsf & Csf & Hu & Hc). destruct ctx as [|[dg cg g u] ctx]; [destruct Hu|].
    cbn in Hu. subst cg. destruct Hc as [Hru Hc].
    pose proof H as H0.
    assert (H1 : holds s (cells (branch dg kBlack (branch df kRed (Branch kRed l z r) p sf) g u)
                            (ctx_parent ctx) ++ ctx_cells ctx g ++ R))
      by (eapply holds_perm; [|exact H]; destruct df, dg; simpl_cells;
          cbn [ctx_cells f_dir f_color f_node f_sib data app ctx_parent]; perm).
    cbn [ctx_parent ctx_cells f_dir f_color f_node f_sib cells app] in H.
    assert (Hz : root_of sf <> z) by (focus_tree H sf; focus H z; eapply root_ne, H).
    assert (Hp : root_of u <> p) by (focus_tree H u; focus H p; eapply root_ne, H).
    assert (Ez : ChildDir s z = Ok df)
      by (apply (ChildDir_cells s _ z (Data (root_of l) (root_of r) p kRed) df (root_of sf) g kRed H);
          [in_cells|cbn; in_cells|exact Hz]).
    assert (Ep : ChildDir s p = Ok dg)
      by (apply (ChildDir_cells s _ p (data df z (root_of sf) g kRed) dg (root_of u) (ctx_parent ctx) kBlack H);
          [in_cells|destruct df; cbn; in_cells|exact Hp]).
    cbn [InsertFixupLoop]. unfold Grandparent. run H.
    assert (Er : IsRed s p = Ok true)
      by (rewrite (IsRed_cell s _ H p (data df z (root_of sf) g kRed)) by in_cells; destruct df; reflexivity).
    rewrite Er, Ep. simpl_cells.
    assert (Eg : Parent s p = Ok g)
      by (rewrite (Parent_cell s _ H p (data df z (root_of sf) g kRed)) by in_cells; destruct df; reflexivity).
    rewrite Eg. simpl_cells.
    assert (Ey : Child s g (opposite dg) = Ok (root_of u)).
    { rewrite (Child_cell s _ H g (data dg p (root_of u) (ctx_parent ctx) kBlack)) by in_cells.
      destruct dg; reflexivity. }
    rewrite Ey. simpl_cells. run H.
    destruct u as [|[] ul un ur]; cbn [color_of];
      first [rewrite bool_decide_true by reflexivity | rewrite bool_decide_false by discriminate].
    + rewrite Ez. simpl_cells. eapply wp_mono.
      { apply (InsertFixupRotate_spec R s ctx l z r df p sf dg g Leaf n H0); auto. }
      intros [root s'] (t & -> & Ht & Hi & Hb & Cb). exists (plug ctx t).
      split; [apply holds_tree_plug, Ht|]. cbn [plug f_dir f_color f_node f_sib].
      split; [rewrite !(inorder_plug ctx), Hi; reflexivity|]. eapply rb_plug; eauto.
    + destruct Hru as (Hul & Hur & Cul & Cur). cbn in Hf.
      assert (Hlen : (length ctx < fuel)%nat) by lia.
      assert (Hb : rb (branch df kBlack (Branch kRed l z r) p sf) (S n))
        by (destruct df; cbn; eauto 10).
      assert (Hb' : rb (Branch kBlack ul un ur) (S n)) by (cbn; eauto).
      apply (recolor R s ctx _ p sf df dg g ul un ur _ _ H1). intros s' H'.
      assert (IHb : wp (InsertFixupLoop fuel (ctx_root ctx g) s' g) (fun '(root, s') => exists t,
        holds_tree s' root t R /\ inorder t = inorder (plug ctx (branch dg kRed
          (branch df kBlack (Branch kRed l z r) p sf) g (Branch kBlack ul un ur))) /\ rb t N)).
      { destruct dg.
        - apply (IH ctx (branch df kBlack (Branch kRed l z r) p sf) g (Branch kBlack ul un ur) (S n) N s');
            auto; destruct df; reflexivity.
        - apply (IH ctx (Branch kBlack ul un ur) g (branch df kBlack (Branch kRed l z r) p sf) (S n) N s');
            auto; destruct df; reflexivity. }
      eapply wp_mono; [exact IHb|]. intros [root s''] (t & Ht & Hi & Hbt). exists t. split; [exact Ht|]. split; [|exact Hbt].
      rewrite Hi, !inorder_plug. cbn [around].
      destruct df, dg, (around ctx); same_order.
    + rewrite Ez. simpl_cells. eapply wp_mono.
      { apply (InsertFixupRotate_spec R s ctx l z r df p sf dg g (Branch kBlack ul un ur) n H0); auto. }
      intros [root s'] (t & -> & Ht & Hi & Hb & Cb). exists (plug ctx t).
      split; [apply holds_tree_plug, Ht|]. cbn [plug f_dir f_color f_node f_sib].
      split; [rewrite !(inorder_plug ctx), Hi; reflexivity|]. eapply rb_plug; eauto.
  - pose proof (holds_tree_plug s (Frame df kBlack p sf :: ctx) (Branch kRed l z r) R H) as H0.
    cbn [ctx_parent ctx_cells f_dir f_color f_node f_sib cells app] in H.
    cbn [InsertFixupLoop]. run H.
    rewrite (IsRed_cell s _ H p (data df z (root_of sf) (ctx_parent ctx) kBlack)) by in_cells.
    assert (Ec : color_ (data df z (root_of sf) (ctx_parent ctx) kBlack) = kBlack) by (destruct df; reflexivity).
    rewrite Ec, bool_decide_false by discriminate. simpl_cells. apply wp_ret.
    exists (plug (Frame df kBlack p sf :: ctx) (Branch kRed l z r)).
    split; [exact H0|].
    split; [reflexivity|]. eapply rb_plug; [|exact Hc|right; left; reflexivity]. cbn. auto.
Qed.

Lemma ctx_length ctx : forall h, (length ctx <= length (ctx_cells ctx h))%nat.
Proof.
  induction ctx as [|f ctx IH]; intros h; cbn; [lia|]. rewrite length_app. specialize (IH (f_node f)). lia.
Qed.

(** The root is made black. *)
Lemma blacken s c l x r N R :
  holds s (cells (Branch c l x r) nullptr ++ R) -> rb (Branch c l x r) N ->
  exists s', SetColor s x kBlack = Ok s' /\ holds s' (cells (Branch kBlack l x r) nullptr ++ R) /\
    rb (Branch kBlack l x r) (if bool_decide (c = kRed) then S N else N).
Proof.
  intros H Hb. destruct (update_cell s x _ _ (with_color kBlack) H) as (s' & E & H').
  exists s'. split; [exact E|]. split; [exact H'|]. destruct c.
  - rewrite bool_decide_true by reflexivity. cbn in *. exists N. tauto.
  - rewrite bool_decide_false by discriminate. exact Hb.
Qed.

Lemma InsertFixup_spec R ctx l z r n N s :
  holds s (cells (Branch kRed l z r) (ctx_parent ctx) ++ ctx_cells ctx z ++ R) ->
  rb l n -> rb r n -> color_of l = kBlack -> color_of r = kBlack -> rb_ctx ctx n N ->
  wp (InsertFixup (ctx_root ctx z) s z) (fun '(root, s', grown) => exists t,
    holds_tree s' root t R /\ inorder t = inorder (plug ctx (Branch kRed l z r)) /\
    rb t (if grown : bool then S N else N) /\ color_of t = kBlack).
Proof.
  intros H Hl Hr Cl Cr Hc.
  assert (Hf : (length ctx < S (size s))%nat).
  { apply holds_size in H. rewrite !length_app in H. pose proof (ctx_length ctx z). lia. }
  apply wp_bind. eapply wp_mono; [apply (InsertFixupLoop_spec R _ ctx l z r n N s Hf H); assumption|].
  intros [root s1] (t & [-> Ht] & Hi & Hb).
  destruct t as [|c l' x r'].
  { apply (f_equal length) in Hi. rewrite inorder_plug, !length_app in Hi. cbn in Hi.
    rewrite length_app in Hi. cbn in Hi. lia. }
  destruct (blacken s1 c l' x r' N R Ht Hb) as (s' & E & H' & Hb').
  cbn [root_of]. rewrite (GetColor_cell s1 _ Ht x (Data (root_of l') (root_of r') nullptr c)) by (cbn [cells app]; in_cells).
  cbn [mbind Result_bind color_]. rewrite E. cbn [mbind Result_bind]. apply wp_ret.
  exists (Branch kBlack l' x r'). split; [split; [reflexivity|exact H']|]. split; [exact Hi|].
  split; [exact Hb'|reflexivity].
Qed.

(** * Positions in the order *)

Lemma find_ctx x t : x ∈ inorder t -> exists ctx c l r, t = plug ctx (Branch c l x r).
Proof.
  induction t as [|c l IHl y r IHr]; cbn; [intros H; inversion H|].
  rewrite elem_of_app, elem_of_cons. intros [H|[->|H]].
  - destruct (IHl H) as (ctx & c' & l' & r' & ->). exists (ctx ++ [Frame kLeft c y r]), c', l', r'.
    clear. revert l' c' r'. enough (forall t, Branch c (plug ctx t) y r = plug (ctx ++ [Frame kLeft c y r]) t) by auto.
    induction ctx as [|f ctx IH]; intros t; [reflexivity|]. cbn. apply IH.
  - exists [], c, l, r. reflexivity.
  - destruct (IHr H) as (ctx & c' & l' & r' & ->). exists (ctx ++ [Frame kRight c y l]), c', l', r'.
    clear. revert l' c' r'. enough (forall t, Branch c l y (plug ctx t) = plug (ctx ++ [Frame kRight c y l]) t) by auto.
    induction ctx as [|f ctx IH]; intros t; [reflexivity|]. cbn. apply IH.
Qed.

Lemma split_unique (a a' b b' : list node) x :
  NoDup (a ++ x :: b) -> a ++ x :: b = a' ++ x :: b' -> a = a' /\ b = b'.
Proof.
  revert a'. induction a as [|y a IH]; intros [|y' a'] Hd E; cbn in *.
  - injection E as ->. auto.
  - injection E as <- ->. apply NoDup_cons in Hd as [Hd _]. exfalso. apply Hd, elem_of_app. right. left.
  - injection E as -> <-. apply NoDup_cons in Hd as [Hd _]. exfalso. apply Hd, elem_of_app. right. left.
  - injection E as <- E. apply NoDup_cons in Hd as [_ Hd]. destruct (IH a' Hd E) as [-> ->]. auto.
Qed.

Lemma holds_nodup s t p R : holds s (cells t p ++ R) -> NoDup (inorder t).
Proof.
  intros (_ & Hd & _). rewrite fmap_app in Hd. apply NoDup_app in Hd as (Hd & _).
  rewrite (inorder_nodes t p) in Hd. exact Hd.
Qed.

Lemma length_cells t p : length (cells t p) = length (inorder t).
Proof. rewrite <- (length_fmap fst). apply Permutation_length, inorder_nodes. Qed.

(** The first or last node. *)
Fixpoint extreme (d : Direction) (t : tree) : node :=
  match t with
  | Leaf => nullptr
  | Branch _ l x r =>
      let c := match d with kLeft => l | kRight => r end in
      match c with Leaf => x | Branch _ _ _ _ => extreme d c end
  end.

Definition first_or_last (d : Direction) (l : list node) : node :=
  match d with kLeft => hd nullptr l | kRight => List.last l nullptr end.

Lemma hd_app (l1 l2 : list node) : l1 <> [] -> hd nullptr (l1 ++ l2) = hd nullptr l1.
Proof. destruct l1; [tauto|reflexivity]. Qed.

Lemma last_app (l1 l2 : list node) : l2 <> [] -> List.last (l1 ++ l2) nullptr = List.last l2 nullptr.
Proof.
  intros H. induction l1 as [|x l1 IH]; [reflexivity|]. cbn. rewrite IH.
  destruct (l1 ++ l2) eqn:E; [|reflexivity]. apply app_eq_nil in E as [_ ->]. tauto.
Qed.

Lemma inorder_not_nil c l x r : inorder (Branch c l x r) <> [].
Proof. cbn. intros E. apply app_eq_nil in E as [_ E]. discriminate. Qed.

Lemma extreme_spec d t : extreme d t = first_or_last d (inorder t).
Proof.
  induction t as [|c l IHl x r IHr]; [destruct d; reflexivity|]. destruct d; cbn [extreme first_or_last].
  - destruct l as [|c' l' y r']; [reflexivity|]. rewrite IHl. symmetry.
    apply (hd_app (inorder (Branch c' l' y r')) (x :: inorder r)), inorder_not_nil.
  - destruct r as [|c' l' y r']; [cbn [inorder]; rewrite last_app by discriminate; reflexivity|].
    rewrite IHr. symmetry. change (inorder (Branch c l x ?t)) with (inorder l ++ [x] ++ inorder t).
    rewrite app_assoc. apply last_app, inorder_not_nil.
Qed.

(** Nothing is before the hole when every step to it is to the left. *)
Lemma around_side d ctx : Forall (fun f => f_dir f = d) ctx ->
  match d with kLeft => (around ctx).1 = [] | kRight => (around ctx).2 = [] end.
Proof.
  induction ctx as [|[d' c' x sib] ctx IH]; intros Hd; [destruct d; reflexivity|].
  apply Forall_cons in Hd as [<- Hd]. cbn in *. specialize (IH Hd). destruct d', (around ctx); exact IH.
Qed.

(** The extreme node has no child on its side. *)
Lemma extreme_ctx d t : t <> Leaf -> exists ctx c a,
  t = plug ctx (branch d c Leaf (extreme d t) a) /\
  match d with kLeft => (around ctx).1 = [] | kRight => (around ctx).2 = [] end.
Proof.
  intros Ht.
  enough (G : exists ctx c a, (forall ctx', plug ctx' t = plug (ctx ++ ctx') (branch d c Leaf (extreme d t) a)) /\
      Forall (fun f => f_dir f = d) ctx).
  { destruct G as (ctx & c & a & E & Hd). exists ctx, c, a. rewrite <- (app_nil_r ctx) at 1.
    split; [apply (E [])|apply around_side, Hd]. }
  induction t as [|c l IHl x r IHr]; [tauto|]. destruct d; cbn [extreme].
  - destruct l as [|c' l' y r']; [exists [], c, r; split; [reflexivity|constructor]|].
    destruct IHl as (ctx & c0 & a & E & Hd); [discriminate|].
    exists (ctx ++ [Frame kLeft c x r]), c0, a. split; [|apply Forall_app; auto].
    intros ctx'. rewrite <- app_assoc. apply (E (Frame kLeft c x r :: ctx')).
  - destruct r as [|c' l' y r']; [exists [], c, l; split; [reflexivity|constructor]|].
    destruct IHr as (ctx & c0 & a & E & Hd); [discriminate|].
    exists (ctx ++ [Frame kRight c x l]), c0, a. split; [|apply Forall_app; auto].
    intros ctx'. rewrite <- app_assoc. apply (E (Frame kRight c x l :: ctx')).
Qed.

Definition child_tree (d : Direction) (t : tree) : tree :=
  match t with Leaf => Leaf | Branch _ l _ r => match d with kLeft => l | kRight => r end end.

Lemma Child_tree s t p R d : t <> Leaf -> holds s (cells t p ++ R) ->
  Child s (root_of t) d = Ok (root_of (child_tree d t)) /\
  exists R', holds s (cells (child_tree d t) (root_of t) ++ R').
Proof.
  intros Ht H. destruct t as [|c l x r]; [tauto|]. cbn [root_of]. split.
  - rewrite (Child_cell s _ H x (Data (root_of l) (root_of r) p c)) by (cbn [cells app]; in_cells).
    destruct d; reflexivity.
  - cbn [cells] in H. destruct d; cbn [child_tree].
    + exists ((x, Data (root_of l) (root_of r) p c) :: cells r x ++ R). eapply holds_perm; [|exact H]. perm.
    + exists ((x, Data (root_of l) (root_of r) p c) :: cells l x ++ R). eapply holds_perm; [|exact H]. perm.
Qed.

Lemma root_null s t p R : holds s (cells t p ++ R) -> (root_of t =? nullptr) = match t with Leaf => true | _ => false end.
Proof.
  intros H. destruct t as [|c l x r]; [reflexivity|]. apply Z.eqb_neq.
  apply (holds_not_null s _ H x (Data (root_of l) (root_of r) p c)). cbn [cells app]. in_cells.
Qed.

Lemma ExtremeNodeLoop_spec fuel d : forall s t p R,
  t <> Leaf -> holds s (cells t p ++ R) -> (length (inorder t) <= fuel)%nat ->
  ExtremeNodeLoop fuel s (root_of t) d = Ok (extreme d t).
Proof.
  induction fuel as [|fuel IH]; intros s t p R Ht H Hf.
  - destruct t; [tauto|]. cbn in Hf. rewrite length_app in Hf. cbn in Hf. lia.
  - destruct (Child_tree s t p R d Ht H) as (E & R' & H'). cbn [ExtremeNodeLoop]. rewrite E.
    cbn [mbind Result_bind]. rewrite (root_null s _ _ _ H').
    destruct t as [|c l x r]; [tauto|]. cbn in Hf. rewrite length_app in Hf. cbn in Hf.
    destruct d; cbn [child_tree extreme] in *; [destruct l|destruct r]; try reflexivity;
      (eapply IH; [discriminate|exact H'|lia]).
Qed.

Lemma inorder_size s t p R : holds s (cells t p ++ R) -> (length (inorder t) <= size s)%nat.
Proof. intros H. apply holds_size in H. rewrite length_app, length_cells in H. lia. Qed.

Lemma ExtremeNode_spec s t p R d : t <> Leaf -> holds s (cells t p ++ R) ->
  ExtremeNode s (root_of t) d = Ok (extreme d t).
Proof.
  intros Ht H. eapply ExtremeNodeLoop_spec; [exact Ht|exact H|]. apply inorder_size in H. lia.
Qed.

Lemma plug_app ctx1 ctx2 : forall t, plug (ctx1 ++ ctx2) t = plug ctx2 (plug ctx1 t).
Proof. induction ctx1 as [|f ctx1 IH]; intros t; [reflexivity|]. cbn. apply IH. Qed.

Lemma around_app ctx1 ctx2 :
  around (ctx1 ++ ctx2) = ((around ctx2).1 ++ (around ctx1).1, (around ctx1).2 ++ (around ctx2).2).
Proof.
  induction ctx1 as [|[d c x sib] ctx1 IH]; cbn [app around].
  - rewrite app_nil_r. destruct (around ctx2); reflexivity.
  - rewrite IH. destruct d, (around ctx1), (around ctx2); cbn; rewrite <- ?app_assoc; reflexivity.
Qed.

(** The red-black invariants of the whole tree at a place in it. *)
Lemma rb_plug_inv ctx : forall t N, rb (plug ctx t) N -> color_of (plug ctx t) = kBlack ->
  exists n, rb t n /\ rb_ctx ctx n N /\ (color_of t = kBlack \/ under_black ctx).
Proof.
  induction ctx as [|[d c x sib] ctx IH]; intros t N Hb Hc; [exists N; cbn in *; auto|].
  cbn [plug] in *. destruct (IH _ N Hb Hc) as (n & Ht & Hctx & Hcol).
  destruct c; cbn [rb_ctx under_black f_color] in *.
  - exists n. destruct Hcol as [Hcol|Hcol]; [destruct d; discriminate|].
    destruct d; cbn in Ht; intuition.
  - assert (H : exists m, n = S m /\ rb t m /\ rb sib m)
      by (destruct d; cbn in Ht; destruct Ht as (m & ? & ? & ?); eauto).
    destruct H as (m & -> & Ht' & Hs). exists m. auto.
Qed.

Definition beyond (d : Direction) (ctx : list frame) : node :=
  match d with kLeft => List.last (around ctx).1 nullptr | kRight => hd nullptr (around ctx).2 end.

Lemma ClimbLoop_spec fuel d : forall ctx h dh s R, (length ctx < fuel)%nat ->
  holds s ((h, dh) :: ctx_cells ctx h ++ R) ->
  ClimbLoop fuel s h (ctx_parent ctx) d = Ok (beyond d ctx).
Proof.
  induction fuel as [|fuel IH]; intros ctx h dh s R Hf H; [lia|].
  destruct ctx as [|[df c p sib] ctx]; [destruct d; reflexivity|].
  cbn [ctx_parent f_node ctx_cells f_dir f_color f_sib app length] in *.
  set (dp := data df h (root_of sib) (ctx_parent ctx) c) in *.
  assert (Hp : p <> nullptr) by (apply (holds_not_null s _ H p dp); in_cells).
  assert (Hne : root_of sib <> h) by (focus_tree H sib; focus H h; eapply root_ne, H).
  cbn [ClimbLoop]. rewrite (proj2 (Z.eqb_neq _ _) Hp).
  rewrite (Child_cell s _ H p dp) by in_cells. cbn [mbind Result_bind].
  destruct (decide (df = d)) as [->|Hd].
  - replace (child_of dp d) with h by (unfold dp; destruct d; reflexivity). rewrite Z.eqb_refl.
    rewrite (Parent_cell s _ H p dp) by in_cells. cbn [mbind Result_bind].
    replace (parent_ dp) with (ctx_parent ctx) by (unfold dp; destruct d; reflexivity).
    assert (H' : holds s ((p, dp) :: ctx_cells ctx p ++ (h, dh) :: cells sib p ++ R))
      by (eapply holds_perm; [|exact H]; perm).
    rewrite (IH ctx p dp s _ ltac:(lia) H').
    unfold beyond. cbn [around]. destruct d, (around ctx) as [a b]; cbn; reflexivity.
  - replace (child_of dp d) with (root_of sib) by (unfold dp; destruct d, df; reflexivity || tauto).
    rewrite (proj2 (Z.eqb_neq _ _)) by congruence. unfold beyond. cbn [around].
    destruct d, df, (around ctx) as [a b]; try tauto; cbn; try reflexivity.
    rewrite app_assoc, last_app by discriminate. reflexivity.
Qed.

(** The node next to [x] in the order, or null. *)
Definition neighbour (d : Direction) (ctx : list frame) (l r : tree) : node :=
  match d with
  | kLeft => List.last ((around ctx).1 ++ inorder l) nullptr
  | kRight => hd nullptr (inorder r ++ (around ctx).2)
  end.

Lemma holds_place s ctx c l x r R :
  holds s (cells (plug ctx (Branch c l x r)) nullptr ++ R) ->
  holds s ((x, Data (root_of l) (root_of r) (ctx_parent ctx) c) :: cells l x ++ cells r x ++
           ctx_cells ctx x ++ R).
Proof. intros H. apply holds_plug in H. eapply holds_perm; [|exact H]. cbn [cells root_of]. perm. Qed.

Lemma Traverse_place s ctx c l x r R d :
  holds s (cells (plug ctx (Branch c l x r)) nullptr ++ R) ->
  Traverse s x d = Ok (neighbour d ctx l r).
Proof.
  intros H. assert (Hctx : (length ctx < S (size s))%nat).
  { pose proof H as Hs. apply holds_plug, holds_size in Hs. rewrite !length_app in Hs.
    pose proof (ctx_length ctx (root_of (Branch c l x r))). lia. }
  apply holds_place in H. unfold Traverse.
  rewrite (Child_cell s _ H x (Data (root_of l) (root_of r) (ctx_parent ctx) c)) by in_cells.
  cbn [mbind Result_bind].
  set (t := match d with kLeft => l | kRight => r end).
  replace (child_of _ d) with (root_of t) by (unfold t; destruct d; reflexivity).
  assert (H' : exists R', holds s (cells t x ++ R')).
  { exists ((x, Data (root_of l) (root_of r) (ctx_parent ctx) c) ::
            cells (match d with kLeft => r | kRight => l end) x ++ ctx_cells ctx x ++ R).
    eapply holds_perm; [|exact H]. unfold t. destruct d; perm. }
  destruct H' as (R' & H'). rewrite (root_null s t x R' H').
  destruct t as [|c' l' y r'] eqn:Et; unfold t in Et; cbn [negb].
  - rewrite (Parent_cell s _ H x (Data (root_of l) (root_of r) (ctx_parent ctx) c)) by in_cells.
    cbn [mbind Result_bind parent_].
    erewrite ClimbLoop_spec; [|exact Hctx|].
    2: { eapply holds_perm; [|exact H].
         instantiate (1 := cells l x ++ cells r x ++ R). instantiate (1 := Data (root_of l) (root_of r) (ctx_parent ctx) c). perm. }
    destruct d; subst; cbn; [rewrite app_nil_r|]; reflexivity.
  - rewrite (ExtremeNode_spec s (Branch c' l' y r') x R') by (discriminate || exact H').
    rewrite extreme_spec. destruct d; subst; unfold neighbour; cbn [first_or_last opposite].
    + rewrite last_app by apply inorder_not_nil. reflexivity.
    + rewrite hd_app by apply inorder_not_nil. reflexivity.
Qed.

(** [Traverse] moves in the order of the nodes. *)
Lemma Traverse_spec s root t R a x b d :
  holds_tree s root t R -> inorder t = a ++ x :: b ->
  Traverse s x d = Ok (match d with kLeft => List.last a nullptr | kRight => hd nullptr b end).
Proof.
  intros [-> H] Hi. pose proof (holds_nodup _ _ _ _ H) as Hd.
  destruct (find_ctx x t) as (ctx & c & l & r & ->); [rewrite Hi; apply elem_of_app; right; left|].
  rewrite (Traverse_place s ctx c l x r R d H). f_equal.
  rewrite inorder_plug in Hi, Hd. cbn [inorder] in Hi, Hd.
  rewrite <- app_assoc in Hi, Hd. cbn in Hi, Hd. rewrite app_assoc in Hi, Hd.
  destruct (split_unique _ _ _ _ _ Hd Hi) as [<- <-]. destruct d; reflexivity.
Qed.

(** ** The contract of the tree

    A root-black tree that satisfies the invariants and has the nodes [seq] in order; [R] is
    what else the store holds. *)
Definition valid (s : Store) (root : node) (seq : list node) (R : list (node * NodeData)) : Prop :=
  exists t n, holds_tree s root t R /\ inorder t = seq /\ rb t n /\ color_of t = kBlack.

(** The new node in its place. *)
Lemma Insert_tail s ctx new dn R N :
  holds s ((new, dn) :: ctx_cells ctx new ++ R) -> rb_ctx ctx 0 N ->
  wp (s ← SetParent s new (ctx_parent ctx);
      s ← SetChild s new kLeft nullptr;
      s ← SetChild s new kRight nullptr;
      s ← SetColor s new kRed;
      '(root, s, _) ← InsertFixup (ctx_root ctx new) s new;
      Ok (root, s))
    (fun '(root, s') => valid s' root ((around ctx).1 ++ new :: (around ctx).2) R).
Proof.
  intros H Hc. do 4 run H. apply wp_bind.
  eapply wp_mono; [apply (InsertFixup_spec R ctx Leaf new Leaf 0 N); [exact H|reflexivity..|exact Hc]|].
  intros [[root s'] grown] (t & Ht & Hi & Hb & Hcol). apply wp_ret.
    rewrite inorder_plug in Hi. exists t. eexists. eauto.
Qed.

Definition seq_insert (d : Direction) (a b : list node) (p new : node) : list node :=
  match d with kLeft => a ++ new :: p :: b | kRight => a ++ p :: new :: b end.

Lemma insert_position_spec s t R a p b d :
  holds s (cells t nullptr ++ R) -> inorder t = a ++ p :: b ->
  exists f ctx, insert_position s p d = Ok (f_node f, f_dir f) /\ t = plug (f :: ctx) Leaf /\
    around (f :: ctx) = match d with kLeft => (a, p :: b) | kRight => (a ++ [p], b) end.
Proof.
  intros H Hi. pose proof (holds_nodup _ _ _ _ H) as Hd.
  destruct (find_ctx p t) as (ctx & c & l & r & ->); [rewrite Hi; apply elem_of_app; right; left|].
  assert (Hab : a = (around ctx).1 ++ inorder l /\ b = inorder r ++ (around ctx).2).
  { rewrite inorder_plug in Hi, Hd. cbn [inorder] in Hi, Hd.
    rewrite <- app_assoc in Hi, Hd. cbn in Hi, Hd. rewrite app_assoc in Hi, Hd.
    destruct (split_unique _ _ _ _ _ Hd Hi) as [E1 E2]. auto. }
  destruct Hab as [-> ->]. unfold insert_position.
  rewrite (Traverse_place s ctx c l p r R d H). apply holds_place in H.
  rewrite (Child_cell s _ H p (Data (root_of l) (root_of r) (ctx_parent ctx) c)) by in_cells.
  cbn [mbind Result_bind].
  set (u := match d with kLeft => l | kRight => r end).
  set (v := match d with kLeft => r | kRight => l end).
  replace (child_of _ d) with (root_of u) by (unfold u; destruct d; reflexivity).
  assert (Hu : holds s (cells u p ++ (p, Data (root_of l) (root_of r) (ctx_parent ctx) c) ::
                        cells v p ++ ctx_cells ctx p ++ R))
    by (eapply holds_perm; [|exact H]; unfold u, v; destruct d; perm).
  rewrite (root_null s u p _ Hu).
  destruct (decide (u = Leaf)) as [Eu|Eu].
  - rewrite Eu. cbn [negb]. exists (Frame d c p v), ctx. split; [reflexivity|].
    unfold u, v in *. destruct d; subst; cbn; destruct (around ctx) as [a' b']; cbn;
      rewrite ?app_nil_r, <- ?app_assoc; auto.
  - destruct (extreme_ctx (opposite d) u Eu) as (ctx2 & c2 & a2 & E2 & Ha).
    exists (Frame (opposite d) c2 (extreme (opposite d) u) a2), (ctx2 ++ Frame d c p v :: ctx).
    assert (En : neighbour d ctx l r = extreme (opposite d) u).
    { rewrite extreme_spec. unfold neighbour, u in *. destruct d; cbn [opposite first_or_last];
        [rewrite last_app|rewrite hd_app]; try reflexivity;
        [destruct l|destruct r]; try tauto; apply inorder_not_nil. }
    split; [rewrite En; destruct u; [tauto|reflexivity]|].
    assert (Ei : inorder u = (around (Frame (opposite d) c2 (extreme (opposite d) u) a2 :: ctx2)).1 ++
                             (around (Frame (opposite d) c2 (extreme (opposite d) u) a2 :: ctx2)).2).
    { rewrite E2 at 1.
      change (plug ctx2 (branch (opposite d) c2 Leaf (extreme (opposite d) u) a2))
        with (plug (Frame (opposite d) c2 (extreme (opposite d) u) a2 :: ctx2) Leaf).
      rewrite inorder_plug. reflexivity. }
    rewrite app_comm_cons. rewrite around_app. split.
    { rewrite plug_app. cbn [plug f_dir f_color f_node f_sib]. rewrite <- E2.
      unfold u, v. destruct d; reflexivity. }
    destruct d; cbn [opposite around] in *; destruct (around ctx2) as [a3 b3]; cbn in *; subst.
    + rewrite app_nil_r in Ei. unfold u in Ei. rewrite Ei. destruct (around ctx) as [a' b'].
      cbn. rewrite <- ?app_assoc. reflexivity.
    + unfold u in Ei. rewrite Ei. destruct (around ctx) as [a' b']. cbn.
      rewrite ?app_nil_r, <- ?app_assoc. reflexivity.
Qed.

Lemma Insert_adjacent s root seq a b p d new dn R :
  valid s root seq ((new, dn) :: R) -> seq = a ++ p :: b ->
  wp (Insert root s p d new) (fun '(root, s') => valid s' root (seq_insert d a b p new) R).
Proof.
  intros (t & N & [-> H] & <- & Hb & Hcol) Hi.
  destruct (insert_position_spec s t _ a p b d H Hi) as (f & ctx & E & -> & Ha).
  destruct (rb_plug_inv _ _ _ Hb Hcol) as (n & Hn & Hc & _). cbn in Hn. subst n.
  assert (Hp : p <> nullptr).
  { intros ->. destruct H as (Hn & _). apply Hn. rewrite fmap_app. apply elem_of_app. left.
    rewrite inorder_nodes, Hi. apply elem_of_app. right. left. }
  unfold Insert. rewrite (proj2 (Z.eqb_neq _ _) Hp), E. simpl_cells.
  apply holds_plug in H. cbn [cells app root_of] in H. destruct f as [df c q sib].
  cbn [f_node f_dir f_color f_sib ctx_cells] in *.
  assert (H' : holds s ((q, data df nullptr (root_of sib) (ctx_parent ctx) c) :: (new, dn) ::
                        cells sib q ++ ctx_cells ctx q ++ R)) by (eapply holds_perm; [|exact H]; perm).
  rewrite root_plug. cbn [root_of ctx_root f_node].
  destruct (update_cell s q _ _ (with_child df new) H') as (s' & E' & H'').
  change (SetChild s q df new) with (update s q (with_child df new)). rewrite E'. simpl_cells.
  eapply wp_mono.
  - apply (Insert_tail s' (Frame df c q sib :: ctx) new dn R N); [|exact Hc].
    eapply holds_perm; [|exact H'']. cbn [ctx_cells f_dir f_color f_node f_sib].
    destruct df; cbn [data with_child left_ right_ parent_ color_]; perm.
  - intros [root s''] Hv. rewrite Ha in Hv. destruct d; cbn in Hv; [exact Hv|].
    rewrite <- app_assoc in Hv. exact Hv.
Qed.

Lemma Insert_empty s new dn R d :
  holds s ((new, dn) :: R) -> wp (Insert nullptr s nullptr d new) (fun '(root, s') => valid s' root [new] R).
Proof. intros H. apply (Insert_tail s [] new dn R 0); [exact H|reflexivity]. Qed.

(** At the beginning or the end. *)
Definition seq_extreme (d : Direction) (seq : list node) (new : node) : list node :=
  match d with kLeft => new :: seq | kRight => seq ++ [new] end.

Lemma InsertExtreme_spec s root seq d new dn R :
  valid s root seq ((new, dn) :: R) ->
  wp (InsertExtreme root s d new) (fun '(root, s') => valid s' root (seq_extreme d seq new) R).
Proof.
  intros Hv. pose proof Hv as (t & N & [-> H] & <- & _). unfold InsertExtreme, TreeExtremeNode.
  rewrite (root_null s t _ _ H). destruct t as [|c l x r] eqn:Et; rewrite <- Et in *.
  - subst. cbn [mbind Result_bind root_of]. destruct d; apply (Insert_empty s new dn R); exact H.
  - rewrite (ExtremeNode_spec s t nullptr _ d) by (exact H || (rewrite Et; discriminate)).
    cbn [mbind Result_bind]. rewrite extreme_spec.
    assert (Hn : inorder t <> []) by (rewrite Et; apply inorder_not_nil).
    destruct d; cbn [first_or_last seq_extreme].
    + destruct (inorder t) as [|y b] eqn:Ei; [tauto|].
      eapply wp_mono; [apply (Insert_adjacent s _ _ [] b y kLeft new dn R Hv eq_refl)|].
      intros [] H'. exact H'.
    + destruct (exists_last Hn) as (a & y & Ei). rewrite Ei in *. rewrite List.last_last.
      eapply wp_mono; [apply (Insert_adjacent s _ _ a [] y kRight new dn R Hv eq_refl)|].
      intros [] H'. cbn in H'. rewrite <- app_assoc. exact H'.
Qed.

(** * Properties *)

(** C15: Insertion next to a node of the tree, and into an empty tree, succeeds: it reads no null
    pointer and its loops end.  The new node is next to the given one in the order, the other
    nodes keep their order, the tree satisfies the red-black invariants again, and the rest
    of the store is as before. *)
Theorem Insert_correct s root seq d new dn R :
  valid s root seq ((new, dn) :: R) ->
  (seq = [] -> exists root' s', Insert root s nullptr d new = Ok (root', s') /\ valid s' root' [new] R) /\
  (forall a p b, seq = a ++ p :: b ->
    exists root' s', Insert root s p d new = Ok (root', s') /\ valid s' root' (seq_insert d a b p new) R).
Proof.
  intros Hv. split.
  - intros ->. destruct Hv as (t & N & [-> H] & Hi & _).
    destruct t; [|destruct (inorder_not_nil _ _ _ _ Hi)].
    destruct (Insert_empty s new dn R d H) as ([root' s'] & E & Hv). eauto.
  - intros a p b Hs. destruct (Insert_adjacent s root seq a b p d new dn R Hv Hs) as ([root' s'] & E & Hv').
    eauto.
Qed.

(** Six nodes inserted one after the other. *)
Module Sample.
Definition fresh : NodeData := Data nullptr nullptr nullptr kRed.
Definition store : Store := list_to_map ((fun n => (n, fresh)) <$> [1; 2; 3; 4; 5; 6; 7]).

Definition build : Result (node * Store) :=
  foldM (fun '(root, s) n => InsertExtreme root s kRight n) (nullptr, store) [1; 2; 3; 4; 5; 6].
Definition root : node := 2.
Definition built : Store := match build with Ok (_, s) => s | Err _ => ∅ end.

(** The tree that the six insertions make. *)
Definition shape : tree :=
  Branch kBlack (Branch kBlack Leaf 1 Leaf) 2
    (Branch kRed (Branch kBlack Leaf 3 Leaf) 4 (Branch kBlack Leaf 5 (Branch kRed Leaf 6 Leaf))).

Example build_ok : match build with Ok (r, _) => r | Err _ => nullptr end = root.
Proof. vm_compute. reflexivity. Qed.

Lemma built_valid : valid built root [1; 2; 3; 4; 5; 6] [(7, fresh)].
Proof.
  exists shape, 2%nat. split; [split; [reflexivity|]|].
  - repeat split.
    + apply (bool_decide_unpack _). vm_compute. exact I.
    + apply (bool_decide_unpack _). vm_compute. exact I.
    + apply (bool_decide_unpack _). vm_compute. exact I.
  - split; [reflexivity|]. split; [|reflexivity]. 
    unfold shape. cbn. repeat first [reflexivity | split | eexists].
Qed.
End Sample.

Lemma Insert_correct_witness : valid Sample.built Sample.root [1; 2; 3; 4; 5; 6] [(7, Sample.fresh)] /\
  exists root' s', Insert Sample.root Sample.built 3 kRight 7 = Ok (root', s') /\
    valid s' root' [1; 2; 3; 7; 4; 5; 6] [].
Proof.
  split; [exact Sample.built_valid|].
  exact (proj2 (Insert_correct _ _ _ kRight 7 _ [] Sample.built_valid) [1; 2] 3 [4; 5; 6] eq_refl).
Defined.
