(* ===== verification/RedBlackRemove.v ===== *)
(** Red-black trees: removal and replacement.

    A node is taken out of its place, or its successor is and takes the place of the node;
    [RemoveFixup] then makes up for a missing black node. *)

From stdpp Require Import gmap.
From S2P Require Import Prelude LinkedList RedBlackTree RedBlackCells RedBlackInsert.

(** * Removal *)

Lemma rb_ctx_black ctx : forall n N t, rb_ctx ctx n N -> ctx <> [] -> color_of (plug ctx t) = kBlack.
Proof.
  induction ctx as [|[d c x sib] ctx IH]; intros n N t Hc Hne; [tauto|].
  destruct ctx as [|f ctx].
  - destruct c; cbn in *; [tauto|]. destruct d; reflexivity.
  - cbn [plug]. destruct c; cbn [rb_ctx] in Hc; eapply IH; try discriminate; apply Hc.
Qed.

Lemma branch_of d t : t <> Leaf -> exists c a x b, t = branch d c a x b.
Proof.
  destruct t as [|c l x r]; [tauto|]. intros _.
  destruct d; [exists c, l, x, r|exists c, r, x, l]; reflexivity.
Qed.

Lemma rb_branch d c a x b n : rb (branch d c a x b) n <->
  match c with
  | kRed => rb a n /\ rb b n /\ color_of a = kBlack /\ color_of b = kBlack
  | kBlack => exists m, n = S m /\ rb a m /\ rb b m
  end.
Proof. destruct d, c; cbn; try tauto; split; intros (m & ? & ? & ?); eauto. Qed.

Lemma color_branch d c a x b : color_of (branch d c a x b) = c.
Proof. destruct d; reflexivity. Qed.

Lemma inorder_branch d c a x b : inorder (branch d c a x b) =
  match d with kLeft => inorder a ++ x :: inorder b | kRight => inorder b ++ x :: inorder a end.
Proof. destruct d; reflexivity. Qed.

(** The subtree in the hole of [ctx] has the root [y] and the children [a] and [b] now. *)
Ltac finish_branch H a y b :=
  apply wp_ret; exists a, y, b; split; [reflexivity|]; split;
  [eapply holds_perm; [|exact H]; cbn [branch cells root_of app]; perm|];
  split; [same_order|]; cbn; eauto 12.

(** The sibling [w] is black and has a red child. *)
Lemma RemoveFixupRotate_spec R s ctx d cp X px B w C n :
  holds s (cells (branch d cp X px (branch d kBlack B w C)) (ctx_parent ctx) ++ ctx_cells ctx px ++ R) ->
  rb X n -> color_of X = kBlack -> rb B n -> rb C n -> color_of B = kRed \/ color_of C = kRed ->
  wp (RemoveFixupRotate (ctx_root ctx px) s px w d) (fun '(root, s') => exists a y b,
    root = ctx_root ctx y /\
    holds s' (cells (branch d cp a y b) (ctx_parent ctx) ++ ctx_cells ctx y ++ R) /\
    inorder (branch d cp a y b) = inorder (branch d cp X px (branch d kBlack B w C)) /\
    rb a (S n) /\ rb b (S n) /\ color_of a = kBlack /\ color_of b = kBlack).
Proof.
  intros H HX CX HB HC Hred. unfold RemoveFixupRotate.
  destruct (color_of C) eqn:CC.
  - destruct (branch_of d C) as (c & C1 & z & C2 & ->); [intros ->; discriminate|].
    rewrite color_branch in CC. subst c. rewrite rb_branch in HC. destruct HC as (HC1 & HC2 & CC1 & CC2).
    destruct d; simpl_cells_in H; simpl_cells;
      do 2 run H; rewrite bool_decide_true by reflexivity; simpl_cells; do 5 run H.
    + rotate_with H ctx kLeft kBlack cp X px B w (Branch kBlack C1 z C2) R.
      finish_branch H (Branch kBlack X px B) w (Branch kBlack C1 z C2).
    + rotate_with H ctx kRight kBlack cp X px B w (Branch kBlack C2 z C1) R.
      finish_branch H (Branch kBlack B px X) w (Branch kBlack C2 z C1).
  - destruct Hred as [CB|]; [|discriminate].
    destruct (branch_of d B) as (c & B1 & b & B2 & ->); [intros ->; discriminate|].
    rewrite color_branch in CB. subst c. rewrite rb_branch in HB. destruct HB as (HB1 & HB2 & CB1 & CB2).
    destruct d; simpl_cells_in H; simpl_cells;
      do 2 run H; rewrite CC, bool_decide_false by discriminate; simpl_cells; do 3 run H.
    + rotate_with H (Frame kRight cp px X :: ctx) kRight kRed kBlack C w B2 b B1 R.
      do 6 run H.
      rotate_with H ctx kLeft kBlack cp X px B1 b (Branch kBlack B2 w C) R.
      finish_branch H (Branch kBlack X px B1) b (Branch kBlack B2 w C).
    + rotate_with H (Frame kLeft cp px X :: ctx) kLeft kRed kBlack C w B2 b B1 R.
      do 6 run H.
      rotate_with H ctx kRight kBlack cp X px B1 b (Branch kBlack C w B2) R.
      finish_branch H (Branch kBlack B1 px X) b (Branch kBlack C w B2).
Qed.

(** A red [w] is rotated away: [X] keeps its place, under a red parent. *)
Lemma RemoveFixupRedSibling_red R s ctx d X px B w C :
  holds s (cells (branch d kBlack X px (branch d kRed B w C)) (ctx_parent ctx) ++ ctx_cells ctx px ++ R) ->
  wp (RemoveFixupRedSibling (ctx_root ctx px) s px w d) (fun '(root, s', w') =>
    root = ctx_root ctx w /\ w' = root_of B /\
    holds s' (cells (branch d kRed X px B) w ++ ctx_cells (Frame d kBlack w C :: ctx) px ++ R)).
Proof.
  intros H. unfold RemoveFixupRedSibling.
  destruct d; simpl_cells_in H; simpl_cells;
    run H; rewrite bool_decide_true by reflexivity; simpl_cells; do 2 run H;
    [rotate_with H ctx kLeft kRed kBlack X px B w C R
    |rotate_with H ctx kRight kRed kBlack X px B w C R];
    run H; apply wp_ret; (split; [reflexivity|]; split; [reflexivity|]);
    (eapply holds_perm; [|exact H]; cbn [ctx_cells f_dir f_color f_node f_sib]; simpl_cells; perm).
Qed.

(** [X] is one black node short of [S n], or would have it if its root were black. *)
Definition deficient (X : tree) (n : nat) : Prop :=
  (color_of X = kBlack /\ rb X n) \/
  (exists l x r, X = Branch kRed l x r /\ rb (Branch kBlack l x r) (S n)).

(** The end of the loop: [X] becomes black. *)
Lemma RemoveFixup_done R s ctx X n N :
  holds s (cells X (ctx_parent ctx) ++ ctx_cells ctx (root_of X) ++ R) ->
  deficient X n -> ctx = [] \/ color_of X = kRed /\ rb_ctx ctx (S n) N ->
  wp (if negb (root_of X =? nullptr) then SetColor s (root_of X) kBlack else Ok s)
    (fun s' => valid s' (ctx_root ctx (root_of X)) (inorder (plug ctx X)) R).
Proof.
  intros H Hx Hc. rewrite (root_null s X _ _ H). destruct X as [|c l x r].
  - destruct Hc as [->|[]]; [|discriminate]. apply wp_ret. exists Leaf, 0%nat.
    split; [split; [reflexivity|exact H]|]. repeat split.
  - cbn [negb root_of].
    destruct (update_cell s x _ _ (with_color kBlack) H) as (s' & E & H').
    exists s'. split; [exact E|].
    assert (Hb : exists m, rb (Branch kBlack l x r) m /\ (c = kRed -> m = S n)).
    { destruct Hx as [[Hcol Hx]|(l' & x' & r' & [= -> -> -> ->] & Hx)]; [|eauto].
      cbn in Hcol. subst c. exists n. split; [exact Hx|discriminate]. }
    destruct Hb as (m & Hb & Hm).
    assert (Hg : exists m', rb (plug ctx (Branch kBlack l x r)) m' /\
                            color_of (plug ctx (Branch kBlack l x r)) = kBlack).
    { destruct Hc as [->|[Hred Hc]]; [exists m; split; [exact Hb|reflexivity]|].
      rewrite (Hm Hred) in Hb. destruct ctx as [|f ctx]; [eexists; split; [exact Hb|reflexivity]|].
      exists N. split; [eapply rb_plug; [exact Hb|exact Hc|left; reflexivity]|].
      eapply rb_ctx_black; [exact Hc|discriminate]. }
    destruct Hg as (m' & Hg & Hcol). exists (plug ctx (Branch kBlack l x r)), m'.
    split; [apply (holds_tree_plug s' ctx (Branch kBlack l x r) R); exact H'|].
    split; [rewrite !inorder_plug; reflexivity|]. auto.
Qed.

Lemma frame_child_dir s X d c px sib ctx R :
  holds s (cells X px ++ ctx_cells (Frame d c px sib :: ctx) (root_of X) ++ R) -> sib <> Leaf ->
  exists r, Child s px kRight = Ok r /\ direction_of (root_of X =? r) = d.
Proof.
  intros H Hs. cbn [ctx_cells f_dir f_color f_node f_sib app] in H.
  rewrite (Child_cell s _ H px (data d (root_of X) (root_of sib) (ctx_parent ctx) c)) by in_cells.
  eexists. split; [reflexivity|]. destruct d; cbn [data child_of right_]; [|rewrite Z.eqb_refl; reflexivity].
  rewrite (proj2 (Z.eqb_neq _ _)); [reflexivity|].
  destruct sib as [|c' l y r]; [tauto|]. cbn [root_of cells] in *.
  intros E. rewrite <- E in H. destruct X as [|cX lX x rX]; cbn [root_of cells] in *.
  - apply (holds_not_null s _ H nullptr (Data (root_of l) (root_of r) px c')); [in_cells|reflexivity].
  - focus H x. destruct H as (_ & Hd & _). cbn in Hd. apply NoDup_cons in Hd as [Hd _]. apply Hd.
    rewrite !fmap_app. cbn. rewrite !elem_of_app, !elem_of_cons. tauto.
Qed.

(** The rest of an iteration, for a black sibling. *)
Definition fixup_black (fuel : nat) (root : node) (s : Store) (px w : node) (dir : Direction)
    : Result (node * Store * node) :=
  l ← Child s w kLeft;
  red_l ← IsRed s l;
  r ← Child s w kRight;
  red_r ← IsRed s r;
  if negb red_l && negb red_r then
    s ← SetColor s w kRed;
    p ← Parent s px;
    RemoveFixupLoop fuel root s px p
  else
    '(root, s) ← RemoveFixupRotate root s px w dir;
    Ok (root, s, root).

(** The specification of the loop and the final colouring in the hole of [ctx]. *)
Definition fixup_ok (R : list (node * NodeData)) (seq : list node)
    (m : Result (node * Store * node)) : Prop :=
  wp m (fun '(root, s, x) =>
    wp (if negb (x =? nullptr) then SetColor s x kBlack else Ok s) (fun s => valid s root seq R)).

Definition loop_ok (R : list (node * NodeData)) (fuel : nat) (ctx : list frame) (c : Color) : Prop :=
  forall X n N s, color_of X = c -> holds s (cells X (ctx_parent ctx) ++ ctx_cells ctx (root_of X) ++ R) ->
    deficient X n -> rb_ctx ctx (S n) N ->
    fixup_ok R (inorder (plug ctx X))
      (RemoveFixupLoop fuel (ctx_root ctx (root_of X)) s (root_of X) (ctx_parent ctx)).

(** The subtree in the hole may take any black root, or a red one under a black parent. *)
Definition place (ctx : list frame) (c : Color) (n N : nat) : Prop :=
  match c with kRed => under_black ctx /\ rb_ctx ctx (S n) N | kBlack => rb_ctx ctx (S (S n)) N end.

Lemma plug_blacken R s ctx t n N :
  holds s (cells t (ctx_parent ctx) ++ ctx_cells ctx (root_of t) ++ R) -> t <> Leaf ->
  rb t n -> rb_ctx ctx n N -> color_of t = kBlack \/ under_black ctx ->
  wp (if negb (ctx_root ctx (root_of t) =? nullptr) then SetColor s (ctx_root ctx (root_of t)) kBlack else Ok s)
    (fun s' => valid s' (ctx_root ctx (root_of t)) (inorder (plug ctx t)) R).
Proof.
  intros H Ht Hb Hc Hcol. apply holds_tree_plug in H as [Er H].
  assert (Hb' : rb (plug ctx t) N) by (eapply rb_plug; [exact Hb|exact Hc|tauto]).
  rewrite Er. destruct (plug ctx t) as [|c l x r] eqn:Et.
  { apply (f_equal inorder) in Et. rewrite inorder_plug in Et. apply app_eq_nil in Et as [_ Et].
    apply app_eq_nil in Et as [Et _]. destruct t; [tauto|]. destruct (inorder_not_nil _ _ _ _ Et). }
  rewrite (root_null s _ _ _ H). cbn [negb root_of].
  destruct (blacken s c l x r N R H Hb') as (s' & E & H' & Hb''). exists s'. split; [exact E|].
  exists (Branch kBlack l x r). eexists. split; [split; [reflexivity|exact H']|]. split; [reflexivity|].
  split; [exact Hb''|reflexivity].
Qed.

Lemma fixup_black_spec R fuel s ctx d cp X px B w C n N :
  loop_ok R fuel ctx cp ->
  holds s (cells (branch d cp X px (branch d kBlack B w C)) (ctx_parent ctx) ++ ctx_cells ctx px ++ R) ->
  color_of X = kBlack -> rb X n -> rb B n -> rb C n -> place ctx cp n N ->
  fixup_ok R (inorder (plug ctx (branch d cp X px (branch d kBlack B w C))))
    (fixup_black fuel (ctx_root ctx px) s px w d).
Proof.
  intros IH H HcX HX HB HC Hp. pose proof H as H0. unfold fixup_ok, fixup_black.
  assert (Hred : forall Y, bool_decide (color_of Y = kRed) = match color_of Y with kRed => true | kBlack => false end)
    by (intros Y; destruct (color_of Y); reflexivity).
  assert (Hrot : color_of B = kRed \/ color_of C = kRed ->
    fixup_ok R (inorder (plug ctx (branch d cp X px (branch d kBlack B w C))))
      ('(root, s) ← RemoveFixupRotate (ctx_root ctx px) s px w d; Ok (root, s, root))).
  { intros Hr. apply wp_bind. eapply wp_mono; [eapply RemoveFixupRotate_spec; eassumption|].
    intros [root s'] (a & y & b & -> & H' & Hi & Ha & Hb & Ca & Cb). apply wp_ret.
    assert (Es : inorder (plug ctx (branch d cp X px (branch d kBlack B w C))) =
                 inorder (plug ctx (branch d cp a y b))) by (rewrite !inorder_plug, Hi; reflexivity).
    rewrite Es.
    pose proof (plug_blacken R s' ctx (branch d cp a y b)
                  (match cp with kRed => S n | kBlack => S (S n) end) N) as Hpb.
    rewrite root_branch in Hpb. apply Hpb; clear Hpb.
    - exact H'.
    - destruct d; discriminate.
    - apply rb_branch. destruct cp; eauto 6.
    - destruct cp; apply Hp.
    - rewrite color_branch. destruct cp; [right; apply Hp|auto]. }
  assert (Hblack : color_of B = kBlack -> color_of C = kBlack ->
    fixup_ok R (inorder (plug ctx (branch d cp X px (branch d kBlack B w C))))
      (s ← SetColor s w kRed; p ← Parent s px; RemoveFixupLoop fuel (ctx_root ctx px) s px p)).
  { intros CB CC. set (X' := branch d cp X px (branch d kRed B w C)).
    assert (Es : inorder (plug ctx (branch d cp X px (branch d kBlack B w C))) = inorder (plug ctx X'))
      by (rewrite !inorder_plug; unfold X'; destruct d; reflexivity).
    rewrite Es. unfold fixup_ok.
    assert (Hgoal : forall s', holds s' (cells X' (ctx_parent ctx) ++ ctx_cells ctx px ++ R) ->
      fixup_ok R (inorder (plug ctx X')) (RemoveFixupLoop fuel (ctx_root ctx px) s' px (ctx_parent ctx))).
    { intros s' H'. pose proof (IH X' (match cp with kRed => n | kBlack => S n end) N s') as IH'.
      assert (Ex : root_of X' = px) by apply root_branch. rewrite Ex in IH'. apply IH'; [apply color_branch|exact H'| |destruct cp; apply Hp].
      unfold deficient, X'. destruct cp.
      - right. destruct d; do 3 eexists; (split; [reflexivity|]); exists n; cbn; tauto.
      - left. rewrite color_branch. split; [reflexivity|]. apply rb_branch. exists n.
        split; [reflexivity|]. rewrite rb_branch. auto. }
    unfold X' in Hgoal. clear H0. destruct d; simpl_cells_in H; do 2 run H; apply Hgoal;
      (eapply holds_perm; [|exact H]; simpl_cells; perm). }
  destruct (color_of B) eqn:CB, (color_of C) eqn:CC; destruct d; simpl_cells_in H; simpl_cells;
    do 4 run H; rewrite ?Hred, ?CB, ?CC; simpl_cells; cbn [andb negb];
    first [apply Hrot; auto; fail | apply Hblack; reflexivity].
Qed.

Lemma RemoveFixupLoop_spec R fuel : forall ctx c,
  match c with kRed => (0 < fuel)%nat | kBlack => (length ctx < fuel)%nat end -> loop_ok R fuel ctx c.
Proof.
  induction fuel as [|fuel IH]; intros ctx c Hf; [destruct c; lia|]. intros X n N s HcX H Hx Hc.
  unfold fixup_ok. cbn [RemoveFixupLoop]. rewrite (IsRed_tree s X _ _ H). simpl_cells.
  assert (Hdone : ctx = [] \/ color_of X = kRed -> fixup_ok R (inorder (plug ctx X))
                    (Ok (ctx_root ctx (root_of X), s, root_of X))).
  { intros Hd. apply wp_ret. eapply RemoveFixup_done; [exact H|exact Hx|]. destruct Hd; eauto. }
  destruct ctx as [|[d cp px sib] ctx]; [apply Hdone; auto|].
  assert (Hpx : (px =? nullptr) = false).
  { apply Z.eqb_neq. cbn [ctx_cells f_dir f_color f_node f_sib] in H.
    apply (holds_not_null s _ H px (data d (root_of X) (root_of sib) (ctx_parent ctx) cp)). in_cells. }
  cbn [ctx_parent f_node]. rewrite Hpx. cbn [orb].
  destruct Hx as [[HbX HX]|(l & x & r & -> & Hx)];
    [|rewrite bool_decide_true by reflexivity; apply Hdone; auto].
  rewrite HbX in HcX. subst c. rewrite HbX, bool_decide_false by discriminate.
  assert (Hsib : rb sib (S n)) by (destruct cp; apply Hc).
  destruct (branch_of d sib) as (cw & B & w & C & ->); [intros ->; discriminate|].
  destruct (frame_child_dir s X d cp px _ ctx R H) as (r & Er & Ed); [destruct d; discriminate|].
  rewrite Er. simpl_cells. rewrite Ed. cbn [length] in Hf.
  assert (Hw : Child s px (opposite d) = Ok w).
  { cbn [ctx_cells f_dir f_color f_node f_sib] in H.
    rewrite (Child_cell s _ H px (data d (root_of X) (root_of (branch d cw B w C)) (ctx_parent ctx) cp)) by in_cells.
    rewrite root_branch. destruct d; reflexivity. }
  rewrite Hw. simpl_cells.
  assert (H' : holds s (cells (branch d cp X px (branch d cw B w C)) (ctx_parent ctx) ++
                        ctx_cells ctx px ++ R)).
  { eapply holds_perm; [|exact H]. rewrite cells_branch. cbn [ctx_cells f_dir f_color f_node f_sib ctx_parent]. perm. }
  destruct cw.
  - (* red sibling *)
    destruct cp; [destruct Hc as (_ & Hcol & _); rewrite color_branch in Hcol; discriminate|].
    destruct Hc as [_ Hc]. rewrite rb_branch in Hsib. destruct Hsib as (HB & HC & CB & CC).
    apply wp_bind. eapply wp_mono; [apply (RemoveFixupRedSibling_red R s ctx d X px B w C H')|].
    intros [[root s1] w1] (-> & -> & H1).
    destruct (branch_of d B) as (c & B1 & b & B2 & ->); [intros ->; discriminate|].
    rewrite color_branch in CB. subst c. rewrite rb_branch in HB. destruct HB as (m & [= <-] & HB1 & HB2).
    rewrite root_branch.
    pose proof (fixup_black_spec R fuel s1 (Frame d kBlack w C :: ctx) d kRed X px B1 b B2 n N) as Hb.
    cbn [ctx_root f_node ctx_parent] in Hb.
    assert (Es : inorder (plug (Frame d kBlack px (branch d kRed (branch d kBlack B1 b B2) w C) :: ctx) X) =
                 inorder (plug (Frame d kBlack w C :: ctx) (branch d kRed X px (branch d kBlack B1 b B2)))).
    { cbn [plug f_dir f_color f_node f_sib]. rewrite !inorder_plug. f_equal. f_equal. destruct d; same_order. }
    rewrite Es. apply Hb; auto; [apply IH; lia|]. split; [reflexivity|]. split; [exact HC|exact Hc].
  - (* black sibling *)
    rewrite rb_branch in Hsib. destruct Hsib as (m & [= <-] & HB & HC).
    assert (Eb : RemoveFixupRedSibling (ctx_root ctx px) s px w d = Ok (ctx_root ctx px, s, w)).
    { unfold RemoveFixupRedSibling. cbn [ctx_cells f_dir f_color f_node f_sib] in H.
      assert (Ec : GetColor s w = Ok kBlack).
      { destruct d; cbn [branch cells root_of] in H;
          [rewrite (GetColor_cell s _ H w (Data (root_of B) (root_of C) px kBlack)) by in_cells
          |rewrite (GetColor_cell s _ H w (Data (root_of C) (root_of B) px kBlack)) by in_cells]; reflexivity. }
      rewrite Ec. simpl_cells. rewrite bool_decide_false by discriminate. reflexivity. }
    cbn [ctx_root f_node]. rewrite Eb. simpl_cells. fold (fixup_black fuel (ctx_root ctx px) s px w d).
    cbn [plug f_dir f_color f_node f_sib].
    apply (fixup_black_spec R fuel s ctx d cp X px B w C n N); auto.
    + apply IH. destruct cp; lia.
    + destruct cp; cbn in Hc |- *; tauto.
Qed.

Lemma RemoveFixup_spec R s ctx X n N :
  holds s (cells X (ctx_parent ctx) ++ ctx_cells ctx (root_of X) ++ R) ->
  deficient X n -> rb_ctx ctx (S n) N ->
  wp (RemoveFixup (ctx_root ctx (root_of X)) s (root_of X) (ctx_parent ctx))
    (fun '(root, s') => valid s' root (inorder (plug ctx X)) R).
Proof.
  intros H Hx Hc. apply wp_bind.
  assert (Hf : (length ctx < S (size s))%nat).
  { apply holds_size in H. rewrite !length_app in H. pose proof (ctx_length ctx (root_of X)). lia. }
  eapply wp_mono; [apply (RemoveFixupLoop_spec R _ ctx (color_of X)) with (n := n) (N := N); auto;
                   destruct (color_of X); lia|].
  intros [[root s1] x] Hw. apply wp_bind. eapply wp_mono; [exact Hw|]. intros s2 Hv. apply wp_ret, Hv.
Qed.

(** The node [z] gives its place to the free node [y]. *)
Lemma Replace_spec s ctx c l z r y dy R :
  holds s (cells (Branch c l z r) (ctx_parent ctx) ++ ctx_cells ctx z ++ (y, dy) :: R) ->
  exists s', Replace (ctx_root ctx z) s z y = Ok (ctx_root ctx y, s') /\
    holds s' (cells (Branch c l y r) (ctx_parent ctx) ++ ctx_cells ctx y ++
              (z, Data (root_of l) (root_of r) nullptr kRed) :: R).
Proof.
  intros H.
  assert (Hw : wp (Replace (ctx_root ctx z) s z y) (fun r' => r'.1 = ctx_root ctx y /\
    holds r'.2 (cells (Branch c l y r) (ctx_parent ctx) ++ ctx_cells ctx y ++
                (z, Data (root_of l) (root_of r) nullptr kRed) :: R))).
  2: { destruct Hw as ([r' s'] & E & [Hr Hs]). cbn in *. subst r'. eauto. }
  unfold Replace. simpl_cells_in H.
  rewrite (load_cell s _ H z (Data (root_of l) (root_of r) (ctx_parent ctx) c)) by in_cells. simpl_cells.
  do 6 run H. relink_with H ctx z y. run H. done_with H.
Qed.

Lemma ctx_root_app ctx1 ctx2 : forall h, ctx_root (ctx1 ++ ctx2) h = ctx_root ctx2 (ctx_root ctx1 h).
Proof. induction ctx1 as [|f ctx1 IH]; intros h; [reflexivity|]. cbn. apply IH. Qed.

Lemma rb_ctx_rename ctx2 d c z y l ctx : forall n N,
  rb_ctx (ctx2 ++ Frame d c z l :: ctx) n N -> rb_ctx (ctx2 ++ Frame d c y l :: ctx) n N.
Proof.
  induction ctx2 as [|[d' c' x sib] ctx2 IH]; intros n N; [exact id|].
  cbn [app rb_ctx]. destruct c'; [|intros (? & ?); auto].
  intros (? & ? & Hu & ?). repeat split; auto. destruct ctx2; exact Hu.
Qed.

(** ** Taking a node with at most one child out of its place *)

Lemma unlink_spec s ctx y dy X R :
  parent_ dy = ctx_parent ctx -> holds s ((y, dy) :: cells X y ++ ctx_cells ctx y ++ R) ->
  exists s', unlink (ctx_root ctx y) s y (root_of X) (ctx_parent ctx) = Ok (ctx_root ctx (root_of X), s') /\
    holds s' ((y, dy) :: cells X (ctx_parent ctx) ++ ctx_cells ctx (root_of X) ++ R).
Proof.
  intros Hp H. unfold unlink.
  assert (H1 : holds s (cells X y ++ (y, dy) :: ctx_cells ctx y ++ R))
    by (eapply holds_perm; [|exact H]; perm).
  destruct (SetParentIf_spec s X y (ctx_parent ctx) _ H1) as (s1 & E1 & H2).
  rewrite E1. simpl_cells.
  assert (H3 : holds s1 ((y, dy) :: ctx_cells ctx y ++ cells X (ctx_parent ctx) ++ R))
    by (eapply holds_perm; [|exact H2]; perm).
  destruct (relink s1 ctx y (root_of X) dy _ Hp H3) as (s2 & E2 & H4).
  exists s2. split; [exact E2|]. eapply holds_perm; [|exact H4]. perm.
Qed.

(** The repair after [y], of colour [cy], was taken out. *)
Lemma Remove_finish s ctx cy X R N :
  holds s (cells X (ctx_parent ctx) ++ ctx_cells ctx (root_of X) ++ R) ->
  match cy with
  | kRed => ctx <> [] /\ X = Leaf /\ rb_ctx ctx 0 N
  | kBlack => rb X 0 /\ rb_ctx ctx 1 N
  end ->
  wp (if bool_decide (cy = kRed) then Ok (ctx_root ctx (root_of X), s)
      else RemoveFixup (ctx_root ctx (root_of X)) s (root_of X) (ctx_parent ctx))
    (fun '(root, s') => valid s' root (inorder (plug ctx X)) R).
Proof.
  intros H Hcy. destruct cy.
  - destruct Hcy as (Hne & -> & Hc). rewrite bool_decide_true by reflexivity. apply wp_ret.
    exists (plug ctx Leaf), N. split; [apply (holds_tree_plug s ctx Leaf R H)|]. split; [reflexivity|].
    split; [eapply rb_plug; [reflexivity|exact Hc|left; reflexivity]|]. eapply rb_ctx_black; eassumption.
  - destruct Hcy as [HX Hc]. rewrite bool_decide_false by discriminate.
    apply (RemoveFixup_spec R s ctx X 0 N H); [|exact Hc].
    destruct X as [|[] l x r]; [left; auto| |destruct HX as (m & [=] & _)].
    right. exists l, x, r. split; [reflexivity|]. exists 0%nat. cbn in HX. tauto.
Qed.

(** What the invariants say of a node with at most one child. *)
Lemma one_child_rb ctx d cy y X N :
  rb (plug ctx (branch d cy Leaf y X)) N -> color_of (plug ctx (branch d cy Leaf y X)) = kBlack ->
  match cy with
  | kRed => ctx <> [] /\ X = Leaf /\ rb_ctx ctx 0 N
  | kBlack => rb X 0 /\ rb_ctx ctx 1 N
  end.
Proof.
  intros Hb Hc. destruct (rb_plug_inv ctx _ N Hb Hc) as (n & Hn & Hctx & Hcol).
  rewrite rb_branch in Hn. rewrite color_branch in Hcol. destruct cy.
  - destruct Hn as (Hl & HX & _ & CX). cbn in Hl. subst n. destruct Hcol as [|Hu]; [discriminate|].
    split; [intros ->; exact Hu|]. split; [|exact Hctx].
    destruct X as [|[] l x r]; [reflexivity|discriminate|destruct HX as (m & [=] & _)].
  - destruct Hn as (m & -> & Hl & HX). cbn in Hl. subst m. auto.
Qed.

(** [z] has a leaf as a child: it is taken out itself. *)
Lemma Remove_direct s ctx d c z X R N :
  holds s (cells (plug ctx (branch d c Leaf z X)) nullptr ++ R) ->
  rb (plug ctx (branch d c Leaf z X)) N -> color_of (plug ctx (branch d c Leaf z X)) = kBlack ->
  wp (Remove (ctx_root ctx z) s z) (fun '(root, s') => exists dz,
    parent_ dz = nullptr /\ color_ dz = kRed /\ valid s' root (inorder (plug ctx X)) ((z, dz) :: R)).
Proof.
  intros H Hb Hc. apply one_child_rb in Hb; [|exact Hc].
  apply holds_plug in H. rewrite root_branch in H.
  set (dz := data d nullptr (root_of X) (ctx_parent ctx) c).
  assert (H1 : holds s ((z, dz) :: cells X z ++ ctx_cells ctx z ++ R))
    by (eapply holds_perm; [|exact H]; rewrite cells_branch; cbn [root_of cells]; unfold dz; perm).
  destruct (unlink_spec s ctx z dz X R) as (s1 & E1 & H2); [destruct d; reflexivity|exact H1|].
  unfold Remove.
  assert (Ey : removed_node s z = Ok z).
  { unfold removed_node. rewrite !(Child_cell s _ H1 z dz) by constructor. simpl_cells.
    destruct d; cbn; rewrite ?orb_true_r; reflexivity. }
  rewrite Ey. simpl_cells.
  assert (Hx : exists l, Child s z kLeft = Ok l /\ Child s z (direction_of (l =? nullptr)) = Ok (root_of X)).
  { exists (child_of dz kLeft). rewrite !(Child_cell s _ H1 z dz) by constructor. split; [reflexivity|].
    assert (HX : holds s (cells X z ++ (z, dz) :: ctx_cells ctx z ++ R))
      by (eapply holds_perm; [|exact H1]; perm).
    destruct d; cbn [dz data child_of left_]; [reflexivity|].
    rewrite (root_null s X _ _ HX). destruct X; reflexivity. }
  destruct Hx as (l & El & Ex). rewrite El. simpl_cells. rewrite Ex. simpl_cells.
  rewrite (Parent_cell s _ H1 z dz) by constructor. simpl_cells.
  replace (parent_ dz) with (ctx_parent ctx) by (destruct d; reflexivity).
  rewrite E1. simpl_cells. rewrite (GetColor_cell s1 _ H2 z dz) by constructor. simpl_cells.
  rewrite Z.eqb_refl. simpl_cells.
  destruct (update_cell s1 z dz _ disconnected H2) as (s2 & E2 & H3). rewrite E2. simpl_cells.
  replace (color_ dz) with c by (destruct d; reflexivity).
  eapply wp_mono; [apply (Remove_finish s2 ctx c X ((z, disconnected dz) :: R) N); [|exact Hb]|].
  - eapply holds_perm; [|exact H3]. perm.
  - intros [root s'] Hv. exists (disconnected dz). split; [reflexivity|]. split; [reflexivity|exact Hv].
Qed.

Lemma ctx_parent_app ctx2 f ctx : ctx_parent (ctx2 ++ f :: ctx) =
  match ctx2 with [] => f_node f | g :: _ => f_node g end.
Proof. destruct ctx2; reflexivity. Qed.

Lemma frame_in_cells ctx2 d c z l ctx : forall h,
  z ∈ (ctx_cells (ctx2 ++ Frame d c z l :: ctx) h).*1.
Proof.
  induction ctx2 as [|g ctx2 IH]; intros h; cbn; [left|]. right. rewrite fmap_app, elem_of_app. right. apply IH.
Qed.

(** [z] has two children: its successor [y] takes its place. *)
Lemma Remove_successor s ctx c l z ctx2 cy y X R N :
  let t := plug ctx (Branch c l z (plug ctx2 (Branch cy Leaf y X))) in
  l <> Leaf -> (around ctx2).1 = [] -> holds s (cells t nullptr ++ R) -> rb t N -> color_of t = kBlack ->
  wp (Remove (ctx_root ctx z) s z) (fun '(root, s') => exists dz,
    parent_ dz = nullptr /\ color_ dz = kRed /\
    valid s' root (inorder (plug ctx (Branch c l y (plug ctx2 X)))) ((z, dz) :: R)).
Proof.
  intros t Hl Ha H Hb Hc.
  set (all z := ctx2 ++ Frame kRight c z l :: ctx).
  assert (Et : t = plug (all z) (branch kLeft cy Leaf y X)) by (unfold all; rewrite plug_app; reflexivity).
  unfold t in H. rewrite Et in Hb, Hc. apply one_child_rb in Hb; [|exact Hc].
  assert (Hy : removed_node s z = Ok y).
  { pose proof H as Hp. apply holds_place in Hp. unfold removed_node.
    rewrite !(Child_cell s _ Hp z (Data (root_of l) (root_of (plug ctx2 (Branch cy Leaf y X))) (ctx_parent ctx) c)) by in_cells.
    simpl_cells. cbn [child_of left_ right_].
    assert (Hl' : holds s (cells l z ++ (z, Data (root_of l) (root_of (plug ctx2 (Branch cy Leaf y X))) (ctx_parent ctx) c) ::
                    cells (plug ctx2 (Branch cy Leaf y X)) z ++ ctx_cells ctx z ++ R))
      by (eapply holds_perm; [|exact Hp]; perm).
    assert (Hr' : holds s (cells (plug ctx2 (Branch cy Leaf y X)) z ++ (z, Data (root_of l) (root_of (plug ctx2 (Branch cy Leaf y X))) (ctx_parent ctx) c) ::
                    cells l z ++ ctx_cells ctx z ++ R))
      by (eapply holds_perm; [|exact Hp]; perm).
    rewrite (root_null s _ _ _ Hl'), (root_null s _ _ _ Hr').
    rewrite (Traverse_place s ctx c l z _ R kRight H).
    assert (Hn : plug ctx2 (Branch cy Leaf y X) <> Leaf).
    { intros Ep. apply (f_equal inorder) in Ep. rewrite inorder_plug in Ep.
      apply app_eq_nil in Ep as [_ Ep]. discriminate. }
    unfold neighbour. rewrite inorder_plug, Ha.
    destruct l; [tauto|]. destruct (plug ctx2 _); [tauto|]. reflexivity. }
  fold t in H. rewrite Et in H. apply holds_plug in H.
  set (dy := Data nullptr (root_of X) (ctx_parent (all z)) cy).
  assert (H1 : holds s ((y, dy) :: cells X y ++ ctx_cells (all z) y ++ R))
    by (eapply holds_perm; [|exact H]; cbn [branch cells root_of app]; unfold dy; perm).
  destruct (unlink_spec s (all z) y dy X R eq_refl H1) as (s1 & E1 & H2).
  assert (Er : forall z h, ctx_root (all z) h = ctx_root ctx z)
    by (intros z' h; unfold all; rewrite ctx_root_app; reflexivity).
  rewrite !Er in E1. unfold Remove. rewrite Hy. simpl_cells.
  rewrite !(Child_cell s _ H1 y dy) by constructor. simpl_cells.
  change (direction_of (child_of dy kLeft =? nullptr)) with kRight.
  rewrite !(Child_cell s _ H1 y dy) by constructor. simpl_cells.
  rewrite (Parent_cell s _ H1 y dy) by constructor. simpl_cells.
  change (child_of dy (direction_of (left_ dy =? nullptr))) with (root_of X).
  change (parent_ dy) with (ctx_parent (all z)).
  rewrite E1. simpl_cells. rewrite (GetColor_cell s1 _ H2 y dy) by constructor. simpl_cells.
  assert (Ep : forall z, plug (all z) X = plug ctx (Branch c l z (plug ctx2 X)))
    by (intros z'; unfold all; rewrite plug_app; reflexivity).
  assert (H3 : holds s1 (cells (Branch c l z (plug ctx2 X)) (ctx_parent ctx) ++ ctx_cells ctx z ++ (y, dy) :: R)).
  { assert (H3 : holds s1 (cells (plug (all z) X) nullptr ++ (y, dy) :: R))
      by (apply holds_plug; eapply holds_perm; [|exact H2]; perm).
    rewrite Ep in H3. apply holds_plug in H3. exact H3. }
  assert (Hyz : y <> z).
  { destruct H3 as (_ & Hd & _). cbn in Hd. apply NoDup_cons in Hd as [Hd _]. intros <-. apply Hd.
    rewrite !fmap_app. cbn. rewrite !elem_of_app, elem_of_cons. tauto. }
  rewrite (proj2 (Z.eqb_neq _ _) Hyz). simpl_cells.
  destruct (Replace_spec s1 ctx c l z (plug ctx2 X) y dy R H3) as (s2 & E2 & H4).
  rewrite E2. simpl_cells.
  assert (Hpx : (if ctx_parent (all z) =? z then y else ctx_parent (all z)) = ctx_parent (all y)).
  { unfold all. destruct ctx2 as [|g ctx2]; [cbn; rewrite Z.eqb_refl; reflexivity|].
    cbn [app ctx_parent]. rewrite (proj2 (Z.eqb_neq _ _)); [reflexivity|]. intros Eg.
    destruct H2 as (_ & Hd & _). unfold all in Hd. cbn [app ctx_cells] in Hd.
    rewrite fmap_cons, fmap_app in Hd. cbn in Hd.
    apply NoDup_cons in Hd as [_ Hd]. apply NoDup_app in Hd as (_ & _ & Hd).
    apply NoDup_cons in Hd as [Hd _]. apply Hd. rewrite fmap_app, elem_of_app. left.
    rewrite Eg. rewrite fmap_app, elem_of_app. right. apply frame_in_cells. }
  rewrite Hpx. rewrite <- (Er y (root_of X)). rewrite <- Ep.
  eapply wp_mono; [apply (Remove_finish s2 (all y) cy X
    ((z, Data (root_of l) (root_of (plug ctx2 X)) nullptr kRed) :: R) N)|].
  - apply holds_plug. rewrite Ep. apply holds_plug. exact H4.
  - destruct cy; unfold all in *.
    + destruct Hb as (_ & -> & Hb). split; [destruct ctx2; discriminate|]. split; [reflexivity|].
      eapply rb_ctx_rename, Hb.
    + destruct Hb as (HX & Hb). split; [exact HX|]. eapply rb_ctx_rename, Hb.
  - intros [root s'] Hv. eexists. split; [|split; [|exact Hv]]; reflexivity.
Qed.

(** Removal, in any position. *)
Lemma Remove_spec s root a z b R :
  valid s root (a ++ z :: b) R ->
  wp (Remove root s z) (fun '(root, s') => exists dz,
    parent_ dz = nullptr /\ color_ dz = kRed /\ valid s' root (a ++ b) ((z, dz) :: R)).
Proof.
  intros (t & N & [-> H] & Hi & Hb & Hc). pose proof (holds_nodup _ _ _ _ H) as Hd.
  destruct (find_ctx z t) as (ctx & c & l & r & ->); [rewrite Hi; apply elem_of_app; right; left|].
  rewrite inorder_plug in Hi, Hd. cbn [inorder] in Hi, Hd.
  rewrite <- app_assoc in Hi, Hd. cbn in Hi, Hd. rewrite app_assoc in Hi, Hd.
  destruct (split_unique _ _ _ _ _ Hd Hi) as [<- <-]. rewrite root_plug. cbn [root_of].
  assert (Hrest : forall X, inorder X = inorder l ++ inorder r ->
    inorder (plug ctx X) = ((around ctx).1 ++ inorder l) ++ inorder r ++ (around ctx).2)
    by (intros X E; rewrite inorder_plug, E, <- !app_assoc; reflexivity).
  destruct (decide (l = Leaf)) as [->|Hl]; [|destruct (decide (r = Leaf)) as [->|Hr]].
  - rewrite <- (Hrest r eq_refl). apply (Remove_direct s ctx kLeft c z r R N H Hb Hc).
  - rewrite <- (Hrest l (eq_sym (app_nil_r _))). apply (Remove_direct s ctx kRight c z l R N H Hb Hc).
  - destruct (extreme_ctx kLeft r Hr) as (ctx2 & cy & X & Er & Ha). cbn [branch] in Er.
    set (y := extreme kLeft r) in *. rewrite Er in *.
    eapply wp_mono; [apply (Remove_successor s ctx c l z ctx2 cy y X R N Hl Ha H Hb Hc)|].
    intros [root s'] (dz & H1 & H2 & Hv). exists dz. split; [exact H1|]. split; [exact H2|].
    rewrite <- (Hrest (Branch c l y (plug ctx2 X))); [exact Hv|].
    cbn [inorder]. rewrite !inorder_plug, Ha. reflexivity.
Qed.

(** ** Replacement *)

Lemma color_plug_rename ctx c l z y r :
  color_of (plug ctx (Branch c l z r)) = color_of (plug ctx (Branch c l y r)).
Proof.
  destruct ctx as [|f ctx] using rev_ind; [reflexivity|]. rewrite !plug_app.
  destruct f as [[] c' x sib]; reflexivity.
Qed.

Lemma Replace_valid s root a z b y dy R :
  valid s root (a ++ z :: b) ((y, dy) :: R) ->
  wp (Replace root s z y) (fun '(root, s') => exists dz,
    parent_ dz = nullptr /\ color_ dz = kRed /\ valid s' root (a ++ y :: b) ((z, dz) :: R)).
Proof.
  intros (t & N & [-> H] & Hi & Hb & Hc). pose proof (holds_nodup _ _ _ _ H) as Hd.
  destruct (find_ctx z t) as (ctx & c & l & r & ->); [rewrite Hi; apply elem_of_app; right; left|].
  rewrite inorder_plug in Hi, Hd. cbn [inorder] in Hi, Hd.
  rewrite <- app_assoc in Hi, Hd. cbn in Hi, Hd. rewrite app_assoc in Hi, Hd.
  destruct (split_unique _ _ _ _ _ Hd Hi) as [<- <-]. rewrite root_plug. cbn [root_of].
  apply holds_plug in H. destruct (Replace_spec s ctx c l z r y dy R H) as (s' & E & H').
  exists (ctx_root ctx y, s'). split; [exact E|].
  exists (Data (root_of l) (root_of r) nullptr kRed). split; [reflexivity|]. split; [reflexivity|].
  exists (plug ctx (Branch c l y r)), N. split; [|split].
  - exact (holds_tree_plug s' ctx (Branch c l y r) _ H').
  - rewrite inorder_plug. cbn. rewrite <- !app_assoc. reflexivity.
  - rewrite <- (color_plug_rename ctx c l z y r). split; [|exact Hc].
    destruct (rb_plug_inv _ _ _ Hb Hc) as (n & Hn & Hctx & Hcol).
    eapply rb_plug; [|exact Hctx|].
    + destruct c; exact Hn.
    + destruct Hcol as [Hcol|Hcol]; [left; exact Hcol|auto].
Qed.


(** * Properties *)

(** C13: Removal of a node, wherever it is in the tree, succeeds: it reads no null pointer and its
    loops end.  The other nodes keep their order, the red-black invariants hold again, the
    rest of the store is as before, and the node is disconnected. *)
Theorem Remove_correct s root a z b R :
  valid s root (a ++ z :: b) R ->
  exists root' s' dz, Remove root s z = Ok (root', s') /\ valid s' root' (a ++ b) ((z, dz) :: R) /\
    IsDisconnected s' z = Ok true.
Proof.
  intros Hv. destruct (Remove_spec s root a z b R Hv) as ([root' s'] & E & dz & Hp & Hc & Hv').
  exists root', s', dz. split; [exact E|]. split; [exact Hv'|].
  destruct Hv' as (t & n & [_ H] & _). unfold IsDisconnected.
  rewrite (load_cell s' _ H z dz) by (apply elem_of_app; right; left).
  cbn. rewrite Hp, Hc. reflexivity.
Qed.

Lemma Remove_correct_witness : valid Sample.built Sample.root ([1] ++ 2 :: [3; 4; 5; 6]) [(7, Sample.fresh)] /\
  exists root' s' dz, Remove Sample.root Sample.built 2 = Ok (root', s') /\
    valid s' root' [1; 3; 4; 5; 6] [(2, dz); (7, Sample.fresh)] /\ IsDisconnected s' 2 = Ok true.
Proof.
  split; [exact Sample.built_valid|].
  exact (Remove_correct Sample.built Sample.root [1] 2 [3; 4; 5; 6] _ Sample.built_valid).
Defined.
