(* ===== verification/RedBlackJoin.v ===== *)
(** Red-black trees: joining, splitting and searching.

    [Join] grafts one tree onto the other at the black height of the lower one; [Split] joins
    the subtrees on both sides of the path to the split point; [Find] and [FindBound] descend
    to a node or to the place where it is missing. *)

From stdpp Require Import gmap.
From S2P Require Import Prelude LinkedList RedBlackTree RedBlackCells RedBlackInsert RedBlackRemove.

(** * Joining *)

Lemma rb_unique t : forall n m, rb t n -> rb t m -> n = m.
Proof.
  induction t as [|[] l IHl x r IHr]; cbn; intros n m.
  - congruence.
  - intros (Hl & _) (Hl' & _). eauto.
  - intros (n' & -> & Hl & _) (m' & -> & Hl' & _). f_equal. eauto.
Qed.

(** The tree of a [TreeWithBlackHeight]: root-black, of this height and with these nodes. *)
Definition sized (t : tree) (n : nat) (seq : list node) : Prop :=
  rb t n /\ color_of t = kBlack /\ inorder t = seq.

Lemma GraftLoop_spec d nb : forall fuel t ctx diff s R,
  (length (inorder t) < fuel)%nat -> holds s (cells t (ctx_parent ctx) ++ R) -> rb t (nb + diff) ->
  exists ctx' g, GraftLoop fuel s d (root_of t) (ctx_parent ctx) diff =
      Ok (root_of g, ctx_parent (ctx' ++ ctx)) /\
    t = plug ctx' g /\ rb g nb /\ color_of g = kBlack /\ Forall (fun f => f_dir f = opposite d) ctx'.
Proof.
  induction fuel as [|fuel IH]; intros t ctx diff s R Hf H Hb; [lia|]. cbn [GraftLoop].
  rewrite (IsRed_tree s t _ R H). cbn [mbind Result_bind].
  assert (Hstop : color_of t = kBlack -> diff = 0%nat -> exists ctx' g,
    @Ok (node * node) (root_of t, ctx_parent ctx) = Ok (root_of g, ctx_parent (ctx' ++ ctx)) /\
    t = plug ctx' g /\ rb g nb /\ color_of g = kBlack /\ Forall (fun f => f_dir f = opposite d) ctx').
  { intros Hc ->. exists [], t. rewrite Nat.add_0_r in Hb. repeat split; auto. }
  destruct (decide (t = Leaf)) as [->|Ht].
  { cbn in Hb. rewrite (bool_decide_true (diff = 0%nat)) by lia. apply Hstop; [reflexivity|lia]. }
  destruct (Child_tree s t _ R (opposite d) Ht H) as (Ec & R' & H').
  destruct (branch_of (opposite d) t Ht) as (c & u & x & v & Et).
  assert (Eu : child_tree (opposite d) t = u) by (rewrite Et; destruct d; reflexivity).
  rewrite Eu in Ec, H'. rewrite Et, root_branch in Ec, H'.
  subst t. clear Ht Eu. rewrite root_branch in *. rewrite color_branch in *. rewrite Ec.
  assert (Hlen : (length (inorder u) < fuel)%nat)
    by (destruct d; cbn in Hf; rewrite length_app in Hf; cbn in Hf; lia).
  assert (Hgo : forall diff', rb u (nb + diff') -> exists ctx' g,
    GraftLoop fuel s d (root_of u) x diff' = Ok (root_of g, ctx_parent (ctx' ++ ctx)) /\
    branch (opposite d) c u x v = plug ctx' g /\ rb g nb /\ color_of g = kBlack /\
    Forall (fun f => f_dir f = opposite d) ctx').
  { intros diff' Hu. destruct (IH u (Frame (opposite d) c x v :: ctx) diff' s R' Hlen H' Hu)
      as (ctx' & g & E & Hp & Hg & Cg & Hd).
    exists (ctx' ++ [Frame (opposite d) c x v]), g. rewrite <- app_assoc.
    split; [exact E|]. rewrite plug_app, <- Hp. split; [reflexivity|]. split; [exact Hg|].
    split; [exact Cg|]. apply Forall_app. auto. }
  rewrite rb_branch in Hb. cbn [mbind Result_bind]. destruct c.
  - rewrite bool_decide_true by reflexivity. cbn [negb andb]. apply Hgo, Hb.
  - rewrite (bool_decide_false (kBlack = kRed)) by discriminate. cbn [negb andb].
    destruct (decide (diff = 0%nat)) as [Hz|Hz].
    + rewrite bool_decide_true by exact Hz. apply Hstop; [reflexivity|exact Hz].
    + rewrite bool_decide_false by exact Hz. apply Hgo.
      destruct Hb as (m & Em & Hm & _). replace (nb + (diff - 1))%nat with m by lia. exact Hm.
Qed.

(** The nodes of [a], the center and [b] in order, when [a] is on the side [d]. *)
Definition seq_join (d : Direction) (a : list node) (x : node) (b : list node) : list node :=
  match d with kLeft => a ++ x :: b | kRight => b ++ x :: a end.

Lemma seq_join_opposite d a x b : seq_join (opposite d) b x a = seq_join d a x b.
Proof. destruct d; reflexivity. Qed.

Lemma graft_link s ctx h x d R :
  Forall (fun f => f_dir f = d) ctx -> holds s (ctx_cells ctx h ++ R) ->
  exists s', (if ctx_parent ctx =? nullptr then Ok (x, s)
              else s ← SetChild s (ctx_parent ctx) d x; Ok (ctx_root ctx h, s)) = Ok (ctx_root ctx x, s') /\
    holds s' (ctx_cells ctx x ++ R).
Proof.
  intros Hd H. destruct ctx as [|[d' c p sib] ctx]; [exists s; split; [reflexivity|exact H]|].
  apply Forall_cons in Hd as [<- _]. cbn [ctx_cells ctx_parent ctx_root f_dir f_color f_node f_sib app] in *.
  assert (Hp : p <> nullptr) by (eapply holds_not_null; [exact H|]; constructor).
  rewrite (proj2 (Z.eqb_neq _ _) Hp).
  destruct (update_cell _ _ _ _ (with_child d' x) H) as (s' & E & H').
  exists s'. unfold SetChild. rewrite E. split; [reflexivity|]. destruct d'; exact H'.
Qed.

(** [center] is grafted with [g] and [tb] as children. *)
Lemma graft_spec s d ctx g tb center dc nb N R :
  holds s (cells (plug ctx g) nullptr ++ cells tb nullptr ++ (center, dc) :: R) ->
  Forall (fun f => f_dir f = opposite d) ctx ->
  rb g nb -> color_of g = kBlack -> rb tb nb -> color_of tb = kBlack -> rb_ctx ctx nb N ->
  wp (s ← SetColor s center kRed;
      s ← SetParent s center (ctx_parent ctx);
      '(root, s) ← (if ctx_parent ctx =? nullptr then Ok (center, s)
                    else s ← SetChild s (ctx_parent ctx) (opposite d) center; Ok (root_of (plug ctx g), s));
      s ← SetChild s center d (root_of g);
      s ← SetParentIf s (root_of g) center;
      s ← SetChild s center (opposite d) (root_of tb);
      s ← SetParentIf s (root_of tb) center;
      '(root, s, grown) ← InsertFixup root s center;
      Ok (s, (root, if grown : bool then S N else N)))
    (fun '(s', (root, n)) => exists t, holds_tree s' root t R /\
      sized t n (seq_join d (inorder (plug ctx g)) center (inorder tb))).
Proof.
  intros H Hd Hg Cg Hb Cb Hc. apply holds_plug in H. rewrite root_plug.
  do 2 run H.
  assert (H1 : holds s1 (ctx_cells ctx (root_of g) ++ (center, Data (left_ dc) (right_ dc) (ctx_parent ctx) kRed) ::
                         cells g (ctx_parent ctx) ++ cells tb nullptr ++ R))
    by (eapply holds_perm; [|exact H]; perm).
  destruct (graft_link s1 ctx (root_of g) center (opposite d) _ Hd H1) as (s2 & E & H2).
  rewrite E. clear E H H1. rename H2 into H. simpl_cells.
  run H. run H. run H. run H.
  pose proof (around_side _ _ Hd) as Ha.
  destruct d; simpl_cells_in H; apply wp_bind.
  - eapply wp_mono; [apply (InsertFixup_spec R ctx g center tb nb N); try assumption|].
    { eapply holds_perm; [|exact H]; cbn [cells]; perm. }
    intros [[root s'] grown] (t & Ht & Hi & Hbt & Ct). apply wp_ret. exists t. split; [exact Ht|].
    split; [exact Hbt|]. split; [exact Ct|]. rewrite Hi, !inorder_plug. cbn [opposite] in Ha.
    rewrite Ha, !app_nil_r. cbn. apply app_assoc.
  - eapply wp_mono; [apply (InsertFixup_spec R ctx tb center g nb N); try assumption|].
    { eapply holds_perm; [|exact H]; cbn [cells]; perm. }
    intros [[root s'] grown] (t & Ht & Hi & Hbt & Ct). apply wp_ret. exists t. split; [exact Ht|].
    split; [exact Hbt|]. split; [exact Ct|]. rewrite Hi, !inorder_plug. cbn [opposite] in Ha.
    rewrite Ha. cbn. rewrite <- app_assoc. reflexivity.
Qed.

Lemma JoinWithBlackHeight_spec s ta na tb nb center dc d sa sb R :
  holds s (cells ta nullptr ++ cells tb nullptr ++ (center, dc) :: R) -> sized ta na sa -> sized tb nb sb ->
  wp (JoinWithBlackHeight s (root_of ta, na) center (root_of tb, nb) d) (fun '(s', (root, n)) =>
    exists t, holds_tree s' root t R /\ sized t n (seq_join d sa center sb)).
Proof.
  revert ta na sa tb nb sb d.
  assert (Hle : forall ta na sa tb nb sb d, (nb <= na)%nat ->
    holds s (cells ta nullptr ++ cells tb nullptr ++ (center, dc) :: R) -> sized ta na sa -> sized tb nb sb ->
    wp (JoinWithBlackHeight s (root_of ta, na) center (root_of tb, nb) d) (fun '(s', (root, n)) =>
      exists t, holds_tree s' root t R /\ sized t n (seq_join d sa center sb))).
  { intros ta na sa tb nb sb d Hn H (Ba & Ca & <-) (Bb & Cb & <-). unfold JoinWithBlackHeight.
    cbn [fst snd]. rewrite bool_decide_false by lia.
    destruct (GraftLoop_spec d nb (S (size s)) ta [] (na - nb) s (cells tb nullptr ++ (center, dc) :: R)) as (ctx & g & E & Et & Bg & Cg & Hd);
      [pose proof (inorder_size _ _ _ _ H); lia|exact H|replace (nb + (na - nb))%nat with na by lia; exact Ba|].
    cbn [ctx_parent] in E. rewrite app_nil_r in E. cbn [fst snd]. rewrite E. simpl_cells.
    subst ta. destruct (rb_plug_inv _ _ _ Ba Ca) as (n & Bn & Hc & _).
    rewrite (rb_unique _ _ _ Bn Bg) in Hc.
    exact (graft_spec s d ctx g tb center dc nb na R H Hd Bg Cg Bb Cb Hc). }
  intros ta na sa tb nb sb d H Ha Hb. destruct (decide (na < nb)%nat) as [Hn|Hn].
  - assert (H' : holds s (cells tb nullptr ++ cells ta nullptr ++ (center, dc) :: R))
      by (eapply holds_perm; [|exact H]; perm).
    pose proof (Hle tb nb sb ta na sa (opposite d) ltac:(lia) H' Hb Ha) as Hw.
    rewrite seq_join_opposite in Hw. revert Hw. unfold JoinWithBlackHeight. cbn [fst snd].
    rewrite bool_decide_false by lia. rewrite bool_decide_true by exact Hn. exact id.
  - apply Hle; [lia|assumption..].
Qed.

Lemma BlackHeightLoop_spec fuel : forall t p s R n k, (length (inorder t) < fuel)%nat ->
  holds s (cells t p ++ R) -> rb t n -> BlackHeightLoop fuel s (root_of t) k = Ok (k + n)%nat.
Proof.
  induction fuel as [|fuel IH]; intros t p s R n k Hf H Hb; [lia|]. cbn [BlackHeightLoop].
  rewrite (root_null s t p R H). destruct t as [|c l x r]; [cbn in Hb; f_equal; lia|].
  cbn in Hf. rewrite length_app in Hf. cbn in Hf. cbn [root_of].
  rewrite (GetColor_cell s _ H x (Data (root_of l) (root_of r) p c)) by (cbn [cells app]; in_cells).
  rewrite (Child_cell s _ H x (Data (root_of l) (root_of r) p c)) by (cbn [cells app]; in_cells). simpl_cells.
  assert (Hl : holds s (cells l x ++ (x, Data (root_of l) (root_of r) p c) :: cells r x ++ R))
    by (eapply holds_perm; [|exact H]; cbn [cells]; perm).
  destruct c; cbn in Hb.
  - rewrite bool_decide_false by discriminate. eapply IH; [|exact Hl|apply Hb]. lia.
  - rewrite bool_decide_true by reflexivity. destruct Hb as (m & -> & Hm & _).
    erewrite IH; [|..|exact Hl|exact Hm]; [f_equal; lia|lia].
Qed.

Lemma BlackHeight_spec s t p R n : holds s (cells t p ++ R) -> rb t n -> BlackHeight s (root_of t) = Ok n.
Proof.
  intros H Hb. unfold BlackHeight. erewrite BlackHeightLoop_spec; [reflexivity| |exact H|exact Hb].
  pose proof (inorder_size _ _ _ _ H). lia.
Qed.

(** Two valid trees in one store. *)
Definition valid2 (s : Store) (qa qb : node) (a b : list node) (R : list (node * NodeData)) : Prop :=
  exists ta na tb nb, qa = root_of ta /\ qb = root_of tb /\ holds s (cells ta nullptr ++ cells tb nullptr ++ R) /\ sized ta na a /\ sized tb nb b.

Lemma sized_valid s root t n seq R : holds_tree s root t R -> sized t n seq -> valid s root seq R.
Proof. intros Ht (Hb & Hc & Hi). exists t, n. auto. Qed.

Lemma Join_spec s qa qb a b center dc d R :
  valid2 s qa qb a b ((center, dc) :: R) ->
  wp (Join s qa center qb d) (fun '(s', root) => valid s' root (seq_join d a center b) R).
Proof.
  intros (ta & na & tb & nb & -> & -> & H & Ha & Hb). unfold Join.
  rewrite (BlackHeight_spec s ta nullptr _ na H) by apply Ha. cbn [mbind Result_bind].
  assert (H' : holds s (cells tb nullptr ++ cells ta nullptr ++ (center, dc) :: R))
    by (eapply holds_perm; [|exact H]; perm).
  rewrite (BlackHeight_spec s tb nullptr _ nb H') by apply Hb. cbn [mbind Result_bind].
  apply wp_bind. eapply wp_mono; [apply (JoinWithBlackHeight_spec s ta na tb nb center dc d a b R H Ha Hb)|].
  intros [s' [root n]] (t & Ht & Hs). apply wp_ret. eapply sized_valid; eassumption.
Qed.

Lemma valid2_swap s qa qb a b R : valid2 s qa qb a b R -> valid2 s qb qa b a R.
Proof.
  intros (ta & na & tb & nb & -> & -> & H & Ha & Hb). exists tb, nb, ta, na. repeat split; try apply Ha; try apply Hb.
  all: eapply holds_perm; [|exact H]; perm.
Qed.

(** One of two trees is changed by an operation on a single tree. *)
Lemma valid2_left s qa qb a b R : valid2 s qa qb a b R <->
  exists tb nb, qb = root_of tb /\ sized tb nb b /\ valid s qa a (cells tb nullptr ++ R).
Proof.
  split.
  - intros (ta & na & tb & nb & -> & -> & H & (Ba & Ca & Ia) & Hb). exists tb, nb. split; [reflexivity|].
    split; [exact Hb|]. exists ta, na. split; [split; [reflexivity|exact H]|]. auto.
  - intros (tb & nb & -> & Hb & ta & na & [-> H] & Ia & Ba & Ca). exists ta, na, tb, nb.
    unfold sized. auto 10.
Qed.

Lemma valid2_empty_left s qb a b R : valid2 s nullptr qb a b R -> a = [] /\ valid s qb b R.
Proof.
  intros (ta & na & tb & nb & E & -> & H & (_ & _ & <-) & Hb).
  pose proof (root_null s ta nullptr _ H) as Hn. rewrite <- E in Hn. destruct ta; [|discriminate].
  split; [reflexivity|]. apply (sized_valid s _ tb nb); [split; [reflexivity|exact H]|exact Hb].
Qed.

(** The extreme node of a valid tree that is not empty. *)
Lemma valid_extreme s root seq R d : valid s root seq R -> root <> nullptr ->
  seq <> [] /\ ExtremeNode s root d = Ok (first_or_last d seq).
Proof.
  intros (t & n & [-> H] & <- & _) Hr. assert (Ht : t <> Leaf) by (intros ->; apply Hr; reflexivity).
  split; [destruct t; [tauto|apply inorder_not_nil]|].
  rewrite (ExtremeNode_spec s t nullptr R d Ht H), extreme_spec. reflexivity.
Qed.

Lemma Join2_spec s qa qb a b d R :
  valid2 s qa qb a b R ->
  wp (Join2 s qa qb d) (fun '(s', root) =>
    valid s' root (match d with kLeft => a ++ b | kRight => b ++ a end) R).
Proof.
  intros H. unfold Join2. destruct (Z.eqb_spec qa nullptr) as [->|Ha].
  { destruct (valid2_empty_left s qb a b R H) as [-> Hv]. apply wp_ret.
    destruct d; cbn; rewrite ?app_nil_r; exact Hv. }
  destruct (Z.eqb_spec qb nullptr) as [->|Hb].
  { apply valid2_swap, valid2_empty_left in H as [-> Hv]. apply wp_ret.
    destruct d; cbn; rewrite ?app_nil_r; exact Hv. }
  apply valid2_left in H as (tb & nb & -> & Hs & Hv).
  destruct (valid_extreme s qa a _ (opposite d) Hv Ha) as [Hne Ex]. rewrite Ex. cbn [mbind Result_bind].
  assert (Hseq : exists a1 z a2, a = a1 ++ z :: a2 /\ first_or_last (opposite d) a = z /\
    forall c, seq_join d (a1 ++ a2) z c = match d with kLeft => a ++ c | kRight => c ++ a end).
  { destruct d; cbn [opposite first_or_last seq_join].
    - destruct (exists_last Hne) as (a1 & z & ->). exists a1, z, [].
      rewrite List.last_last, app_nil_r. split; [reflexivity|]. split; [reflexivity|].
      intros c. rewrite <- app_assoc. reflexivity.
    - destruct a as [|z a2]; [tauto|]. exists [], z, a2. auto. }
  destruct Hseq as (a1 & z & a2 & -> & -> & Hj). apply wp_bind.
  eapply wp_mono; [apply (Remove_spec s qa a1 z a2 _ Hv)|].
  intros [root s'] (dz & _ & _ & Hv'). rewrite <- Hj. apply (Join_spec s' root _ (a1 ++ a2) b z dz).
  destruct Hv' as (t & n & [-> H'] & Hi & Hb' & Hc). exists t, n, tb, nb.
  split; [reflexivity|]. split; [reflexivity|]. split; [|unfold sized; auto].
  eapply holds_perm; [|exact H']. perm.
Qed.

(** * Splitting *)

Definition blackened (t : tree) : tree :=
  match t with Leaf => Leaf | Branch _ l x r => Branch kBlack l x r end.

(** The cells of the roots of [l] and [r] are in the store. *)
Lemma ExtractSubtree_spec s t p R n : holds s (cells t p ++ R) -> rb t n ->
  exists s' t' n', ExtractSubtreeWithBlackHeight s (root_of t) n = Ok (s', (root_of t', n')) /\
    holds s' (cells t' nullptr ++ R) /\ sized t' n' (inorder t).
Proof.
  intros H Hb. unfold ExtractSubtreeWithBlackHeight. rewrite (root_null s t p R H).
  destruct t as [|c l x r]; [exists s, Leaf, n; unfold sized; auto|].
  cbn [cells app] in H. cbn [root_of].
  destruct (update_cell s x _ _ (with_parent nullptr) H) as (s1 & E1 & H1).
  change (SetParent s x nullptr) with (update s x (with_parent nullptr)). rewrite E1. simpl_cells.
  rewrite (GetColor_cell s1 _ H1 x _) by (apply list_elem_of_here). simpl_cells. cbn [with_parent color_].
  destruct (blacken s1 c l x r n R H1 Hb) as (s2 & E2 & H2 & Hb2).
  destruct c.
  - rewrite bool_decide_true in * by reflexivity. rewrite E2. simpl_cells.
    exists s2, (Branch kBlack l x r), (S n). split; [reflexivity|]. split; [exact H2|]. split; [exact Hb2|]. split; reflexivity.
  - rewrite bool_decide_false in * by discriminate.
    exists s1, (Branch kBlack l x r), n. split; [reflexivity|]. split; [exact H1|]. split; [exact Hb|]. split; reflexivity.
Qed.

(** The trees of a split in the store. *)
Definition split_holds (s : Store) (trees : (node * nat) * (node * nat)) (a b : list node)
    (R : list (node * NodeData)) : Prop :=
  exists ta na tb nb, trees = ((root_of ta, na), (root_of tb, nb)) /\
    holds s (cells ta nullptr ++ cells tb nullptr ++ R) /\ sized ta na a /\ sized tb nb b.

(** The trees on the two sides: [ta] before the hole, [tb] after it. *)
Definition SplitLoop_ok (R : list (node * NodeData)) (fuel : nat) : Prop := forall ctx s h n N ta na tb nb a b,
  (length ctx < fuel)%nat ->
  holds s (ctx_cells ctx h ++ cells ta nullptr ++ cells tb nullptr ++ R) ->
  h ∈ (cells ta nullptr ++ cells tb nullptr ++ R).*1 ->
  rb_ctx ctx n N -> sized ta na a -> sized tb nb b ->
  wp (SplitLoop fuel s h (ctx_parent ctx) n ((root_of ta, na), (root_of tb, nb)))
    (fun '(s', trees) => split_holds s' trees ((around ctx).1 ++ a) (b ++ (around ctx).2) R).

Lemma sized_node s t n a x b p R : holds s (cells t p ++ R) -> sized t n (a ++ x :: b) -> x ∈ (cells t p).*1.
Proof. intros _ (_ & _ & Hi). rewrite inorder_nodes, Hi. apply elem_of_app. right. left. Qed.

Lemma SplitLoop_spec R fuel : SplitLoop_ok R fuel.
Proof.
  induction fuel as [|fuel IH]; intros ctx s h n N ta na tb nb a b Hf H Hh Hc Ha Hb; [lia|].
  destruct ctx as [|[d c p sib] ctx]; cbn [SplitLoop ctx_parent].
  { apply wp_ret. exists ta, na, tb, nb. cbn. rewrite app_nil_r. auto. }
  cbn [ctx_cells f_dir f_color f_node f_sib app length] in *.
  set (dp := data d h (root_of sib) (ctx_parent ctx) c) in *.
  assert (Hp : p <> nullptr) by (eapply holds_not_null; [exact H|constructor]).
  rewrite (proj2 (Z.eqb_neq _ _) Hp).
  assert (Hne : root_of sib <> h).
  { intros E. destruct sib as [|c' l y r].
    - cbn in E. subst h. destruct H as (Hn & _). apply Hn. rewrite fmap_cons. right.
      rewrite !fmap_app in *. rewrite !elem_of_app in *. tauto.
    - cbn in E. subst h. destruct H as (_ & Hd & _). cbn in Hd. apply NoDup_cons in Hd as [_ Hd].
      apply NoDup_cons in Hd as [Hd _]. apply Hd. rewrite !fmap_app in *. rewrite !elem_of_app in *. tauto. }
  run H.
  replace (direction_of (_ =? h)) with d
    by (unfold dp; destruct d; cbn; [rewrite (proj2 (Z.eqb_neq _ _)) by exact Hne|rewrite Z.eqb_refl]; reflexivity).
  run H. run H. run H.
  replace (child_of dp (opposite d)) with (root_of sib) by (destruct d; reflexivity).
  replace (parent_ dp) with (ctx_parent ctx) by (destruct d; reflexivity).
  replace (color_ dp) with c by (destruct d; reflexivity).
  assert (Hsib : rb sib n /\ rb_ctx ctx (if bool_decide (c = kBlack) then S n else n) N)
    by (destruct c; cbn in *; intuition).
  destruct Hsib as [Hsib Hctx].
  assert (H1 : holds s (cells sib p ++ (p, dp) :: ctx_cells ctx p ++ cells ta nullptr ++ cells tb nullptr ++ R))
    by (eapply holds_perm; [|exact H]; perm).
  destruct (ExtractSubtree_spec s sib p _ n H1 Hsib) as (s1 & t' & n' & E & H2 & Ht').
  rewrite E. simpl_cells. clear E H H1.
  destruct d; cbn [get set opposite around fst snd]; apply wp_bind.
  - eapply wp_mono; [apply (JoinWithBlackHeight_spec s1 tb nb t' n' p dp kLeft b (inorder sib)
      (ctx_cells ctx p ++ cells ta nullptr ++ R)); [eapply holds_perm; [|exact H2]; perm|exact Hb|exact Ht']|].
    intros [s2 [root n2]] (t & [-> H3] & Ht).
    assert (H4 : holds s2 (ctx_cells ctx p ++ cells ta nullptr ++ cells t nullptr ++ R))
      by (eapply holds_perm; [|exact H3]; perm).
    eapply wp_mono; [apply (IH ctx s2 p _ N ta na t n2 a (seq_join kLeft b p (inorder sib)) ltac:(lia) H4); [|exact Hctx|exact Ha|exact Ht]|].
    { rewrite !fmap_app, !elem_of_app. right. left. eapply sized_node; [exact H3|exact Ht]. }
    intros [s' trees] Hs. destruct (around ctx) as [a0 b0]. cbn [fst snd seq_join] in *.
    rewrite <- app_assoc in Hs. exact Hs.
  - eapply wp_mono; [apply (JoinWithBlackHeight_spec s1 ta na t' n' p dp kRight a (inorder sib)
      (ctx_cells ctx p ++ cells tb nullptr ++ R)); [eapply holds_perm; [|exact H2]; perm|exact Ha|exact Ht']|].
    intros [s2 [root n2]] (t & [-> H3] & Ht).
    assert (H4 : holds s2 (ctx_cells ctx p ++ cells t nullptr ++ cells tb nullptr ++ R))
      by (eapply holds_perm; [|exact H3]; perm).
    eapply wp_mono; [apply (IH ctx s2 p _ N t n2 tb nb (seq_join kRight a p (inorder sib)) b ltac:(lia) H4); [|exact Hctx|exact Ht|exact Hb]|].
    { rewrite !fmap_app, !elem_of_app. left. eapply sized_node; [exact H3|exact Ht]. }
    intros [s' trees] Hs. destruct (around ctx) as [a0 b0]. cbn [fst snd seq_join] in *.
    rewrite <- !app_assoc. exact Hs.
Qed.

(** The tree is split at [x], whose cell is left over. *)
Lemma Split_spec s root a x b R :
  valid s root (a ++ x :: b) R ->
  wp (Split s x) (fun '(s', (qa, qb)) => exists dx, valid2 s' qa qb a b ((x, dx) :: R)).
Proof.
  intros (t & N & [-> H] & Hi & Hb & Hc). pose proof (holds_nodup _ _ _ _ H) as Hd.
  destruct (find_ctx x t) as (ctx & c & l & r & ->); [rewrite Hi; apply elem_of_app; right; left|].
  rewrite inorder_plug in Hi, Hd. cbn [inorder] in Hi, Hd.
  rewrite <- app_assoc in Hi, Hd. cbn in Hi, Hd. rewrite app_assoc in Hi, Hd.
  destruct (split_unique _ _ _ _ _ Hd Hi) as [<- <-].
  destruct (rb_plug_inv _ _ _ Hb Hc) as (n & Hn & Hctx & _).
  assert (H0 : holds s (cells (Branch c l x r) (ctx_parent ctx) ++ ctx_cells ctx x ++ R))
    by (apply holds_plug in H; exact H).
  unfold Split. pose proof (BlackHeight_spec s (Branch c l x r) _ _ n H0 Hn) as Eh.
  cbn [root_of] in Eh. rewrite Eh. clear H Hi Hd Hb Hc Eh. rename H0 into H.
  cbn [mbind Result_bind cells app] in *. simpl_cells. run H.
  set (k := if bool_decide (c = kBlack) then (n - 1)%nat else n).
  assert (Hk : rb l k /\ rb r k).
  { unfold k. destruct c; cbn in *; [tauto|]. destruct Hn as (m & -> & ? & ?). cbn.
    rewrite Nat.sub_0_r. auto. }
  destruct Hk as [Hl Hr]. run H. focus_tree H l.
  destruct (ExtractSubtree_spec s l x _ k H Hl) as (s1 & ta & na & E1 & H1 & Ha).
  rewrite E1. simpl_cells. clear E1 H. rename H1 into H. run H. focus_tree H r.
  destruct (ExtractSubtree_spec s1 r x _ k H Hr) as (s2 & tb & nb & E2 & H2 & Hb).
  rewrite E2. simpl_cells. clear E2 H. rename H2 into H. run H.
  cbn [app] in H. focus H x.
  assert (Hlen : (length ctx < S (size s2))%nat).
  { apply holds_size in H. cbn [length] in H. rewrite !length_app in H.
    pose proof (ctx_length ctx x). lia. }
  apply wp_bind. eapply wp_mono.
  - eapply (SplitLoop_spec ((x, Data (root_of l) (root_of r) (ctx_parent ctx) c) :: R)); [exact Hlen| | |exact Hctx|exact Ha|exact Hb].
    + eapply holds_perm; [|exact H]. perm.
    + rewrite !fmap_app, !elem_of_app. right. right. left.
  - intros [s' trees] (ta' & na' & tb' & nb' & -> & H' & Ha' & Hb'). apply wp_ret. eexists.
    exists ta', na', tb', nb'. cbn [fst snd]. eauto 8.
Qed.

(** ** Splitting at a node or between two nodes *)

(** Where a target between [a] and [b] is found missing: its place is next to [p]. *)
Definition insertion_point (p : node) (d : Direction) (a b : list node) : Prop :=
  match d with
  | kLeft => exists b', b = p :: b'
  | kRight => exists a', a = a' ++ [p]
  end.

Lemma valid_not_null s root a p b R : valid s root (a ++ p :: b) R -> p <> nullptr.
Proof.
  intros (t & N & [-> H] & Hi & _) ->. destruct H as (Hn & _). apply Hn. rewrite fmap_app.
  apply elem_of_app. left. rewrite inorder_nodes, Hi. apply elem_of_app. right. left.
Qed.

Lemma SplitAt_found s root a x b d R :
  valid s root (a ++ x :: b) R ->
  wp (SplitAt s x d true) (fun '(s', (qa, qb), center) => center = x /\
    exists dx, valid2 s' qa qb a b ((x, dx) :: R)).
Proof.
  intros Hv. unfold SplitAt. rewrite (proj2 (Z.eqb_neq _ _) (valid_not_null _ _ _ _ _ _ Hv)).
  apply wp_bind. eapply wp_mono; [apply (Split_spec s root a x b R Hv)|].
  intros [s' [qa qb]] H. apply wp_ret. split; [reflexivity|exact H].
Qed.

(** One of two valid trees is extended at its end. *)
Lemma valid2_InsertExtreme s qa qb a b d x dx R :
  valid2 s qa qb a b ((x, dx) :: R) ->
  wp (InsertExtreme qa s d x) (fun '(root, s') => valid2 s' root qb (seq_extreme d a x) b R).
Proof.
  intros H. apply valid2_left in H as (tb & nb & -> & Hb & Hv).
  eapply wp_mono; [apply (InsertExtreme_spec s qa a d x dx (cells tb nullptr ++ R))|].
  - destruct Hv as (t & n & [-> H] & Hr). exists t, n. split; [|exact Hr]. split; [reflexivity|].
    eapply holds_perm; [|exact H]. perm.
  - intros [root s'] H'. apply valid2_left. exists tb, nb. auto.
Qed.

Lemma SplitAt_missing s root a p b d R :
  valid s root (a ++ b) R -> insertion_point p d a b ->
  wp (SplitAt s p d false) (fun '(s', (qa, qb), center) => center = nullptr /\ valid2 s' qa qb a b R).
Proof.
  intros Hv Hp. unfold SplitAt.
  destruct d; destruct Hp as [u ->].
  - rewrite (proj2 (Z.eqb_neq _ _) (valid_not_null _ _ _ _ _ _ Hv)).
    apply wp_bind. eapply wp_mono; [apply (Split_spec s root a p u R Hv)|].
    intros [s1 [qa qb]] (dx & H). apply valid2_swap in H. cbn [negb get set opposite fst snd].
    apply wp_bind. eapply wp_mono; [apply (valid2_InsertExtreme _ _ _ _ _ kLeft _ _ _ H)|].
    intros [root' s'] H'. apply wp_ret. split; [reflexivity|]. apply valid2_swap, H'.
  - rewrite <- app_assoc in Hv. cbn in Hv.
    rewrite (proj2 (Z.eqb_neq _ _) (valid_not_null _ _ _ _ _ _ Hv)).
    apply wp_bind. eapply wp_mono; [apply (Split_spec s root u p b R Hv)|].
    intros [s1 [qa qb]] (dx & H). cbn [negb get set opposite fst snd].
    apply wp_bind. eapply wp_mono; [apply (valid2_InsertExtreme _ _ _ _ _ kRight _ _ _ H)|].
    intros [root' s'] H'. apply wp_ret. split; [reflexivity|exact H'].
Qed.

(** * Searching *)

(** The nodes before the target compare greater, the nodes after it less: as seen from any
    node, the comparison is right about the nodes beyond it. *)
Definition monotone (compare : node -> comparison) (seq : list node) : Prop :=
  forall a x b, seq = a ++ x :: b ->
    (compare x = Lt -> Forall (fun y => compare y = Lt) b) /\
    (compare x = Gt -> Forall (fun y => compare y = Gt) a).

Definition ctx_dir (ctx : list frame) : Direction :=
  match ctx with [] => kLeft | f :: _ => f_dir f end.

(** What a search may answer. *)
Definition find_ok (compare : node -> comparison) (seq : list node) (r : FindResult) : Prop :=
  if found r then exists a b, seq = a ++ node_ r :: b /\ compare (node_ r) = Eq
  else exists a b, seq = a ++ b /\ Forall (fun y => compare y = Gt) a /\ Forall (fun y => compare y = Lt) b /\
    (seq = [] /\ node_ r = nullptr \/ insertion_point (node_ r) (insert_direction r) a b).

Lemma FindLoop_spec compare s : forall fuel ctx t R,
  (length (inorder t) < fuel)%nat ->
  holds s (cells t (ctx_parent ctx) ++ R) -> monotone compare (inorder (plug ctx t)) ->
  Forall (fun y => compare y = Gt) (around ctx).1 -> Forall (fun y => compare y = Lt) (around ctx).2 ->
  wp (FindLoop fuel s compare (root_of t) (ctx_parent ctx) (ctx_dir ctx)) (find_ok compare (inorder (plug ctx t))).
Proof.
  induction fuel as [|fuel IH]; intros ctx t R Hf H Hm Ha Hb; [lia|]. cbn [FindLoop].
  rewrite (root_null s t _ R H). destruct t as [|c l x r].
  - apply wp_ret. unfold find_ok. cbn [found node_ insert_direction].
    exists (around ctx).1, (around ctx).2. rewrite inorder_plug. split; [reflexivity|].
    split; [exact Ha|]. split; [exact Hb|].
    destruct ctx as [|[d c p sib] ctx]; [left; auto|right].
    destruct d; cbn; destruct (around ctx) as [a b]; cbn; [eauto|].
    exists (a ++ inorder sib). rewrite <- app_assoc. reflexivity.
  - cbn in Hf. rewrite length_app in Hf. cbn in Hf. cbn [root_of].
    assert (Hseq : inorder (plug ctx (Branch c l x r)) =
      ((around ctx).1 ++ inorder l) ++ x :: inorder r ++ (around ctx).2)
      by (rewrite inorder_plug; cbn; rewrite <- !app_assoc; reflexivity).
    destruct (Hm _ _ _ Hseq) as [Hlt Hgt].
    cbn [cells app] in H. set (dx := Data (root_of l) (root_of r) (ctx_parent ctx) c) in *.
    destruct (compare x) eqn:Ex.
    + apply wp_ret. unfold find_ok. cbn [found node_]. eauto.
    + rewrite (Child_cell s _ H x dx) by in_cells. cbn [mbind Result_bind].
      apply (IH (Frame kLeft c x r :: ctx) l ((x, dx) :: cells r x ++ R)); [lia| |exact Hm|..].
      * apply (holds_perm s _ (cells l x ++ (x, dx) :: cells r x ++ R)) in H; [exact H|perm].
      * cbn. destruct (around ctx) as [a b]. exact Ha.
      * cbn. destruct (around ctx) as [a b]. cbn in *. constructor; auto.
    + rewrite (Child_cell s _ H x dx) by in_cells. cbn [mbind Result_bind].
      apply (IH (Frame kRight c x l :: ctx) r ((x, dx) :: cells l x ++ R)); [lia| |exact Hm|..].
      * apply (holds_perm s _ (cells r x ++ (x, dx) :: cells l x ++ R)) in H; [exact H|perm].
      * cbn. destruct (around ctx) as [a b]. cbn in *. rewrite app_assoc.
        apply Forall_app. split; [apply Hgt; reflexivity|constructor; auto].
      * cbn. destruct (around ctx) as [a b]. exact Hb.
Qed.

Lemma Find_spec s root seq compare R :
  valid s root seq R -> monotone compare seq -> wp (Find root s compare) (find_ok compare seq).
Proof.
  intros (t & N & [-> H] & <- & _) Hm. apply (FindLoop_spec compare s (S (size s)) [] t R).
  - pose proof (inorder_size _ _ _ _ H). lia.
  - exact H.
  - exact Hm.
  - constructor.
  - constructor.
Qed.

(** The node found, or the new node in its place. *)
Lemma FindOrInsert_spec s root seq compare new dn R :
  valid s root seq ((new, dn) :: R) -> monotone compare seq ->
  wp (FindOrInsert root s compare new) (fun '(root', s', (n, inserted)) =>
    if inserted : bool then exists a b, n = new /\ seq = a ++ b /\ valid s' root' (a ++ new :: b) R /\
      Forall (fun y => compare y = Gt) a /\ Forall (fun y => compare y = Lt) b
    else root' = root /\ s' = s /\ n ∈ seq /\ compare n = Eq).
Proof.
  intros Hv Hm. unfold FindOrInsert. apply wp_bind.
  eapply wp_mono; [apply (Find_spec s root seq compare _ Hv Hm)|].
  intros [p fnd d] Hf. unfold find_ok in Hf. cbn [found node_ insert_direction] in *. destruct fnd.
  - apply wp_ret. destruct Hf as (a & b & -> & He). repeat split; [|exact He].
    apply elem_of_app. right. left.
  - destruct Hf as (a & b & -> & Ha & Hb & Hp).
    assert (Hi : wp (Insert root s p d new) (fun '(root', s') => valid s' root' (a ++ new :: b) R)).
    { destruct Hp as [[E ->]|Hp].
      - apply app_eq_nil in E as [-> ->]. destruct Hv as (t & N & [-> H] & Hi & _).
        destruct t; [|destruct (inorder_not_nil _ _ _ _ Hi)]. apply (Insert_empty s new dn R). exact H.
      - destruct d; destruct Hp as [u ->].
        + apply (Insert_adjacent s root _ a u p kLeft new dn R Hv eq_refl).
        + rewrite <- app_assoc in Hv. rewrite <- app_assoc.
          apply (Insert_adjacent s root _ u b p kRight new dn R Hv eq_refl). }
    apply wp_bind. eapply wp_mono; [exact Hi|]. intros [root' s'] Hv'. apply wp_ret.
    exists a, b. auto.
Qed.

Lemma FindSplit_spec s root seq compare R :
  valid s root seq R -> monotone compare seq ->
  wp (FindSplit root s compare) (fun '(s', (qa, qb), center) =>
    (center <> nullptr /\ compare center = Eq /\
     exists a b dx, seq = a ++ center :: b /\ valid2 s' qa qb a b ((center, dx) :: R)) \/
    (center = nullptr /\
     exists a b, seq = a ++ b /\ valid2 s' qa qb a b R /\
       Forall (fun y => compare y = Gt) a /\ Forall (fun y => compare y = Lt) b)).
Proof.
  intros Hv Hm. unfold FindSplit. apply wp_bind.
  eapply wp_mono; [apply (Find_spec s root seq compare _ Hv Hm)|].
  intros [p fnd d] Hf. unfold find_ok in Hf. cbn [found node_ insert_direction] in *. destruct fnd.
  - destruct Hf as (a & b & -> & He).
    eapply wp_mono; [apply (SplitAt_found s root a p b d R Hv)|].
    intros [[s' [qa qb]] center] (-> & dx & H). left.
    split; [exact (valid_not_null _ _ _ _ _ _ Hv)|]. split; [exact He|]. eauto.
  - destruct Hf as (a & b & -> & Ha & Hb & Hp). destruct Hp as [[E ->]|Hp].
    + apply app_eq_nil in E as [-> ->]. apply wp_ret. right. split; [reflexivity|].
      exists [], []. split; [reflexivity|]. split; [|auto].
      destruct Hv as (t & N & [-> H] & Hi & _).
      destruct t; [|destruct (inorder_not_nil _ _ _ _ Hi)].
      exists Leaf, 0%nat, Leaf, 0%nat. unfold sized. cbn in *. auto 12.
    + eapply wp_mono; [apply (SplitAt_missing s root a p b d R Hv Hp)|].
      intros [[s' [qa qb]] center] (-> & H). right. split; [reflexivity|]. exists a, b. auto.
Qed.

(** The predicate holds for a prefix of the nodes, for [a]; the answer is the last node of [a]
    or the first one after it. *)
Definition bound_ok (bound : Direction) (a b : list node) (r : FindResult) : Prop :=
  (a = [] /\ b = [] /\ node_ r = nullptr \/ insertion_point (node_ r) (insert_direction r) a b) /\
  (found r = true -> insert_direction r = bound) /\
  (found r = false -> match bound with kLeft => b = [] | kRight => a = [] end).

Definition partitioned (predicate : node -> bool) (seq : list node) : Prop :=
  forall a x b, seq = a ++ x :: b ->
    if predicate x then Forall (fun y => predicate y = true) a else Forall (fun y => predicate y = false) b.

Lemma beyond_not_null s ctx t R : holds s (cells (plug ctx t) nullptr ++ R) ->
  (nullptr ∉ (around ctx).1) /\ (nullptr ∉ (around ctx).2).
Proof.
  intros (Hn & _). rewrite fmap_app, elem_of_app, inorder_nodes, inorder_plug, !elem_of_app in Hn. tauto.
Qed.

Lemma beyond_null d ctx : (nullptr ∉ (around ctx).1) -> (nullptr ∉ (around ctx).2) ->
  if beyond d ctx =? nullptr then match d with kLeft => (around ctx).1 = [] | kRight => (around ctx).2 = [] end
  else match d with kLeft => exists a, (around ctx).1 = a ++ [beyond d ctx]
       | kRight => exists b, (around ctx).2 = beyond d ctx :: b end.
Proof.
  intros H1 H2. unfold beyond. destruct d.
  - destruct (decide ((around ctx).1 = [])) as [->|Hne]; [reflexivity|].
    destruct (exists_last Hne) as (a & x & E). rewrite E, List.last_last in *.
    destruct (Z.eqb_spec x nullptr) as [->|_]; [|eauto].
    exfalso. apply H1, elem_of_app. right. left.
  - destruct (around ctx).2 as [|x b]; [reflexivity|]. cbn.
    destruct (Z.eqb_spec x nullptr) as [->|_]; [|eauto]. exfalso. apply H2. left.
Qed.

Lemma leaf_insertion_point ctx : ctx <> [] ->
  insertion_point (ctx_parent ctx) (ctx_dir ctx) (around ctx).1 (around ctx).2.
Proof.
  intros Hne. destruct ctx as [|[d c p sib] ctx]; [tauto|].
  destruct d; cbn; destruct (around ctx) as [a b]; cbn; [eauto|].
  exists (a ++ inorder sib). rewrite <- app_assoc. reflexivity.
Qed.

Lemma FindBoundLoop_spec bound predicate s R : forall fuel ctx t,
  (length (inorder t) < fuel)%nat ->
  holds s (cells (plug ctx t) nullptr ++ R) -> partitioned predicate (inorder (plug ctx t)) ->
  Forall (fun y => predicate y = true) (around ctx).1 -> Forall (fun y => predicate y = false) (around ctx).2 ->
  wp (FindBoundLoop fuel s bound predicate (root_of t) (ctx_parent ctx) (beyond (opposite bound) ctx) (ctx_dir ctx))
    (fun r => exists a b, inorder (plug ctx t) = a ++ b /\ Forall (fun y => predicate y = true) a /\
      Forall (fun y => predicate y = false) b /\ bound_ok bound a b r).
Proof.
  induction fuel as [|fuel IH]; intros ctx t Hf H Hm Ha Hb; [lia|]. cbn [FindBoundLoop].
  pose proof (proj2 (holds_plug s ctx t R) H) as H'. rewrite (root_null s t _ _ H').
  destruct t as [|c l x r].
  - apply wp_ret. exists (around ctx).1, (around ctx).2. rewrite inorder_plug. split; [reflexivity|].
    split; [exact Ha|]. split; [exact Hb|].
    destruct (beyond_not_null s ctx Leaf R H) as [Hn1 Hn2].
    pose proof (beyond_null (opposite bound) ctx Hn1 Hn2) as Hbd.
    destruct (beyond (opposite bound) ctx =? nullptr) eqn:E; cbn [negb].
    + split; [|split; [discriminate|intros _; destruct bound; exact Hbd]]. cbn [node_ insert_direction].
      destruct (decide (ctx = [])) as [->|Hne]; [left; auto|right; apply leaf_insertion_point, Hne].
    + split; [right|split; [reflexivity|discriminate]]. cbn [node_ insert_direction].
      destruct bound; exact Hbd.
  - cbn in Hf. rewrite length_app in Hf. cbn in Hf. cbn [root_of].
    assert (Hseq : inorder (plug ctx (Branch c l x r)) =
      ((around ctx).1 ++ inorder l) ++ x :: inorder r ++ (around ctx).2)
      by (rewrite inorder_plug; cbn; rewrite <- !app_assoc; reflexivity).
    pose proof (Hm _ _ _ Hseq) as Hp. apply holds_place in H.
    rewrite (Child_cell s _ H x (Data (root_of l) (root_of r) (ctx_parent ctx) c)) by in_cells.
    apply (holds_plug s ctx (Branch c l x r) R) in H'.
    cbn [mbind Result_bind]. destruct (predicate x) eqn:Ex; cbn [direction_of child_of left_ right_].
    + replace (if bool_decide (kRight = bound) then x else beyond (opposite bound) ctx)
        with (beyond (opposite bound) (Frame kRight c x l :: ctx)).
      2: { unfold beyond. cbn. destruct bound, (around ctx) as [a b]; cbn; [reflexivity|].
           rewrite app_assoc, last_app by discriminate. reflexivity. }
      apply (IH (Frame kRight c x l :: ctx) r); [lia|exact H'|exact Hm|..];
        cbn; destruct (around ctx) as [a b]; cbn in *; [|exact Hb].
      rewrite app_assoc. apply Forall_app. auto.
    + replace (if bool_decide (kLeft = bound) then x else beyond (opposite bound) ctx)
        with (beyond (opposite bound) (Frame kLeft c x r :: ctx)).
      2: { unfold beyond. cbn. destruct bound, (around ctx) as [a b]; reflexivity. }
      apply (IH (Frame kLeft c x r :: ctx) l); [lia|exact H'|exact Hm|..];
        cbn; destruct (around ctx) as [a b]; cbn in *; [exact Ha|]. constructor; auto.
Qed.

Lemma partition_unique (f : node -> bool) : forall a a' b b',
  Forall (fun y => f y = true) a -> Forall (fun y => f y = false) b ->
  Forall (fun y => f y = true) a' -> Forall (fun y => f y = false) b' ->
  a ++ b = a' ++ b' -> a = a' /\ b = b'.
Proof.
  assert (Hne : forall x b b', f x = true -> Forall (fun y => f y = false) b -> b <> x :: b').
  { intros x b b' Hx Hb ->. apply Forall_cons in Hb as [Hb _]. congruence. }
  induction a as [|x a IH]; intros [|x' a'] b b' Ha Hb Ha' Hb' E; cbn in E.
  - auto.
  - apply Forall_cons in Ha' as [Hx _]. destruct (Hne _ _ _ Hx Hb E).
  - apply Forall_cons in Ha as [Hx _]. destruct (Hne _ _ _ Hx Hb' (eq_sym E)).
  - injection E as <- E. apply Forall_cons in Ha as [_ Ha]. apply Forall_cons in Ha' as [_ Ha'].
    destruct (IH a' b b' Ha Hb Ha' Hb' E) as [-> ->]. auto.
Qed.

Lemma partitioned_app f a b :
  Forall (fun y => f y = true) a -> Forall (fun y => f y = false) b -> partitioned f (a ++ b).
Proof.
  intros Ha Hb a1 x b1 E. apply app_eq_inv in E as [(k & -> & E)|(k & -> & ->)].
  - apply Forall_app in Ha as [Ha1 Ha2]. destruct k as [|y k]; cbn in E.
    + subst b. apply Forall_cons in Hb as [-> Hb]. exact Hb.
    + injection E as <- _. apply Forall_cons in Ha2 as [-> _]. exact Ha1.
  - apply Forall_app in Hb as [_ Hb]. apply Forall_cons in Hb as [-> Hb]. exact Hb.
Qed.

Lemma FindBound_spec bound predicate s root a b R :
  valid s root (a ++ b) R -> Forall (fun y => predicate y = true) a ->
  Forall (fun y => predicate y = false) b ->
  wp (FindBound root s bound predicate) (bound_ok bound a b).
Proof.
  intros (t & N & [-> H] & Hi & _) Ha Hb. unfold FindBound.
  pose proof (FindBoundLoop_spec bound predicate s R (S (size s)) [] t) as Hw.
  replace (beyond (opposite bound) []) with nullptr in Hw by (destruct bound; reflexivity).
  cbn [ctx_parent ctx_dir plug] in Hw. eapply wp_mono; [apply Hw|].
  - pose proof (inorder_size _ _ _ _ H). lia.
  - exact H.
  - rewrite Hi. apply partitioned_app; assumption.
  - constructor.
  - constructor.
  - intros r (a' & b' & E & Ha' & Hb' & Hr). rewrite Hi in E.
    destruct (partition_unique predicate a a' b b' Ha Hb Ha' Hb' E) as [-> ->]. exact Hr.
Qed.


(** * Properties *)

(** C14: [Split] at a node makes two trees of the nodes before it and after it, and [Join] of them
    at the same node is its inverse: the tree has the same nodes in the same order again.
    Every tree on the way satisfies the red-black invariants, no null pointer is read, and
    the loops end. *)
Theorem Join_Split s root a x b R :
  valid s root (a ++ x :: b) R ->
  exists s1 qa qb dx, Split s x = Ok (s1, (qa, qb)) /\ valid2 s1 qa qb a b ((x, dx) :: R) /\
    exists s2 root', Join s1 qa x qb kLeft = Ok (s2, root') /\ valid s2 root' (a ++ x :: b) R.
Proof.
  intros Hv. destruct (Split_spec s root a x b R Hv) as ([s1 [qa qb]] & E & dx & H).
  exists s1, qa, qb, dx. split; [exact E|]. split; [exact H|].
  destruct (Join_spec s1 qa qb a b x dx kLeft R H) as ([s2 root'] & E2 & H2). eauto.
Qed.

Lemma Join_Split_witness : valid Sample.built Sample.root ([1; 2; 3] ++ 4 :: [5; 6]) [(7, Sample.fresh)] /\
  exists s1 qa qb dx, Split Sample.built 4 = Ok (s1, (qa, qb)) /\
    valid2 s1 qa qb [1; 2; 3] [5; 6] [(4, dx); (7, Sample.fresh)] /\
    exists s2 root', Join s1 qa 4 qb kLeft = Ok (s2, root') /\
      valid s2 root' [1; 2; 3; 4; 5; 6] [(7, Sample.fresh)].
Proof.
  split; [exact Sample.built_valid|].
  exact (Join_Split Sample.built Sample.root [1; 2; 3] 4 [5; 6] _ Sample.built_valid).
Defined.

(** C27: [FindOrInsert] with a comparison that is consistent with the order finds a node that
    compares equal and changes nothing, or inserts the new node between the nodes that
    compare smaller and those that compare greater, and keeps the invariants. *)
Theorem FindOrInsert_correct s root seq compare new dn R :
  valid s root seq ((new, dn) :: R) -> monotone compare seq ->
  exists root' s' n inserted, FindOrInsert root s compare new = Ok (root', s', (n, inserted)) /\
    (inserted = false -> root' = root /\ s' = s /\ n ∈ seq /\ compare n = Eq) /\
    (inserted = true -> n = new /\ exists a b, seq = a ++ b /\ valid s' root' (a ++ new :: b) R /\
      Forall (fun y => compare y = Gt) a /\ Forall (fun y => compare y = Lt) b).
Proof.
  intros Hv Hm. destruct (FindOrInsert_spec s root seq compare new dn R Hv Hm)
    as ([[root' s'] [n inserted]] & E & H).
  exists root', s', n, inserted. split; [exact E|]. destruct inserted; split; intros Hi; try discriminate.
  - destruct H as (a & b & -> & H). split; [reflexivity|]. eauto.
  - exact H.
Qed.

(** A comparison of addresses. *)
Lemma compare_monotone x : monotone (fun n => Z.compare x n) [1; 2; 3; 4; 5; 6].
Proof.
  intros a n b E.
  do 7 (destruct a as [|? a]; [cbn in E; try discriminate E; injection E as; subst;
    rewrite Z.compare_lt_iff, Z.compare_gt_iff; split; intros H;
    repeat constructor; first [apply Z.compare_lt_iff | apply Z.compare_gt_iff]; lia
    |cbn in E; try discriminate E; injection E as ? E; subst]).
Qed.

Lemma FindOrInsert_correct_witness : valid Sample.built Sample.root [1; 2; 3; 4; 5; 6] [(7, Sample.fresh)] /\
  exists root' s' n inserted,
    FindOrInsert Sample.root Sample.built (fun n => Z.compare 7 n) 7 = Ok (root', s', (n, inserted)) /\
    (inserted = false -> root' = Sample.root /\ s' = Sample.built /\ (n ∈ [1; 2; 3; 4; 5; 6]) /\ Z.compare 7 n = Eq) /\
    (inserted = true -> n = 7 /\ exists a b, [1; 2; 3; 4; 5; 6] = a ++ b /\ valid s' root' (a ++ 7 :: b) [] /\
      Forall (fun y => Z.compare 7 y = Gt) a /\ Forall (fun y => Z.compare 7 y = Lt) b).
Proof.
  split; [exact Sample.built_valid|].
  exact (FindOrInsert_correct _ _ _ _ 7 _ [] Sample.built_valid (compare_monotone 7)).
Defined.

(** * Examples *)

(** The header says that [IsDisconnected] is true of a node that is not in a tree, but the split
    point of [Split] is in neither of the trees and keeps its old parent and colour. *)
Example Split_center_not_disconnected :
  match Split Sample.built 4 with Ok (s, _) => IsDisconnected s 4 | Err e => Err e end = Ok false.
Proof. vm_compute. reflexivity. Qed.

(** A list of all nodes by traversal. *)
Example traverse_all :
  (fun n => Traverse Sample.built n kRight) <$> [1; 2; 3; 4; 5; 6] = Ok <$> [2; 3; 4; 5; 6; nullptr].
Proof. vm_compute. reflexivity. Qed.
