(* ===== verification/Uint64Sharded.v ===== *)
(** Shard and minishard numbers of the neuroglancer_uint64_sharded format:
    [kvstore/neuroglancer_uint64_sharded/uint64_sharded.{h,cc}] and [murmurhash3.cc]. *)

From stdpp Require Import sorting.
From S2P Require Import Prelude Int64 Bytes ByteRange.

(** * Hash function *)

Module MurmurHash3.
(** [MurmurHash3_x86_128Mix]. *)
Definition Mix (h : Z) : Z :=
  let h := Z.lxor h (Z.shiftr h 16) in
  let h := u32 (h * 0x85ebca6b) in
  let h := Z.lxor h (Z.shiftr h 13) in
  let h := u32 (h * 0xc2b2ae35) in
  Z.lxor h (Z.shiftr h 16).

Definition RotateLeft (x r : Z) : Z := Z.lor (u32 (Z.shiftl x r)) (Z.shiftr x (32 - r)).

(** [MurmurHash3_x86_128Hash64Bits]: the accumulators are 64 bits wide, the values that it
    mixes and returns 32. *)
Definition Hash64Bits (input : Z) (h : Z * Z * Z * Z) : Z * Z * Z * Z :=
  let '(h1, h2, h3, h4) := h in
  let c1 := 0x239b961b in
  let c2 := 0xab0e9789 in
  let c3 := 0x38b34ae5 in
  let low := u32 input in
  let high := u32 (Z.shiftr input 32) in
  let k2 := u32 (high * c2) in
  let k2 := RotateLeft k2 16 in
  let k2 := u32 (k2 * c3) in
  let h2 := Z.lxor h2 k2 in
  let k1 := u32 (low * c1) in
  let k1 := RotateLeft k1 15 in
  let k1 := u32 (k1 * c2) in
  let h1 := Z.lxor h1 k1 in
  let len := 8 in
  let h1 := Z.lxor h1 len in
  let h2 := Z.lxor h2 len in
  let h3 := Z.lxor h3 len in
  let h4 := Z.lxor h4 len in
  let h1 := u64 (h1 + h2) in
  let h1 := u64 (h1 + h3) in
  let h1 := u64 (h1 + h4) in
  let h2 := u64 (h2 + h1) in
  let h3 := u64 (h3 + h1) in
  let h4 := u64 (h4 + h1) in
  let h1 := Mix (u32 h1) in
  let h2 := Mix (u32 h2) in
  let h3 := Mix (u32 h3) in
  let h4 := Mix (u32 h4) in
  let h1 := u64 (h1 + h2) in
  let h1 := u64 (h1 + h3) in
  let h1 := u64 (h1 + h4) in
  let h2 := u64 (h2 + h1) in
  let h3 := u64 (h3 + h1) in
  let h4 := u64 (h4 + h1) in
  (u32 h1, u32 h2, u32 h3, u32 h4).

(** MurmurHash3_x86_128 of an input of 8 bytes, from its published definition: all
    arithmetic is on 32 bits. *)
Definition reference (input : Z) (h : Z * Z * Z * Z) : Z * Z * Z * Z :=
  let '(h1, h2, h3, h4) := h in
  let k1 := u32 (RotateLeft (u32 (input mod 2 ^ 32 * 0x239b961b)) 15 * 0xab0e9789) in
  let k2 := u32 (RotateLeft (u32 (input / 2 ^ 32 * 0xab0e9789)) 16 * 0x38b34ae5) in
  let sum '(h1, h2, h3, h4) :=
    let h1 := u32 (h1 + h2 + h3 + h4) in (h1, u32 (h2 + h1), u32 (h3 + h1), u32 (h4 + h1)) in
  let '(h1, h2, h3, h4) :=
    sum (Z.lxor (Z.lxor h1 k1) 8, Z.lxor (Z.lxor h2 k2) 8, Z.lxor h3 8, Z.lxor h4 8) in
  sum (Mix h1, Mix h2, Mix h3, Mix h4).
End MurmurHash3.

(** * Sharding specification *)

Inductive HashFunction := identity | murmurhash3_x86_128.
Inductive DataEncoding := raw | gzip.

Record ShardingSpec := Spec {
  hash_function : HashFunction;
  preshift_bits : Z;
  minishard_bits : Z;
  shard_bits : Z;
  data_encoding : DataEncoding;
  minishard_index_encoding : DataEncoding;
}.

(** The ranges that the JSON representation admits. *)
Definition valid_spec (s : ShardingSpec) : bool :=
  (0 <=? preshift_bits s) && (preshift_bits s <=? 64) &&
  (0 <=? minishard_bits s) && (minishard_bits s <=? 32) &&
  (0 <=? shard_bits s) && (shard_bits s <=? 64 - minishard_bits s).

Definition num_shards (s : ShardingSpec) : Z := u64 (Z.shiftl 1 (shard_bits s)).
Definition num_minishards (s : ShardingSpec) : Z := u64 (Z.shiftl 1 (minishard_bits s)).

Definition ShiftRightUpTo64 (x amount : Z) : Z :=
  if amount =? 64 then 0 else Z.shiftr x amount.

Definition GetLowBitMask (num_bits : Z) : Z :=
  if num_bits =? 64 then u64 (Z.lnot 0) else u64 (u64 (Z.shiftl 1 num_bits) - 1).

Definition HashChunkId (h : HashFunction) (key : Z) : Z :=
  match h with
  | identity => key
  | murmurhash3_x86_128 =>
      let '(out0, out1, _, _) := MurmurHash3.Hash64Bits key (0, 0, 0, 0) in
      Z.lor (u64 (Z.shiftl out1 32)) out0
  end.

(** [ChunkSplitShardInfo]; [ChunkCombinedShardInfo] is its one field. *)
Record ChunkSplitShardInfo := SplitInfo { minishard : Z; shard : Z }.

Definition GetChunkShardInfo (s : ShardingSpec) (chunk_id : Z) : Z :=
  let hash_input := ShiftRightUpTo64 chunk_id (preshift_bits s) in
  let hash_output := HashChunkId (hash_function s) hash_input in
  Z.land hash_output (GetLowBitMask (minishard_bits s + shard_bits s)).

Definition GetSplitShardInfo (s : ShardingSpec) (combined_info : Z) : ChunkSplitShardInfo :=
  SplitInfo
    (Z.land combined_info (GetLowBitMask (minishard_bits s)))
    (Z.land (ShiftRightUpTo64 combined_info (minishard_bits s)) (GetLowBitMask (shard_bits s))).

Definition GetCombinedShardInfo (s : ShardingSpec) (split_info : ChunkSplitShardInfo) : Z :=
  let result := minishard split_info in
  if negb (minishard_bits s =? 64)
  then Z.lor result (u64 (Z.shiftl (shard split_info) (minishard_bits s)))
  else result.

Definition ShardIndexSize (s : ShardingSpec) : Z := wrap64 (Z.shiftl 16 (minishard_bits s)).

Definition GetAbsoluteShardByteRange (relative_range : ByteRange.t) (s : ShardingSpec) :
    Result ByteRange.t :=
  let offset := ShardIndexSize s in
  let '(overflow1, min) := AddOverflow (ByteRange.inclusive_min relative_range) offset in
  let '(overflow2, max) := AddOverflow (ByteRange.exclusive_max relative_range) offset in
  if overflow1 || overflow2 then Err kFailedPrecondition else Ok (ByteRange.Make min max).

(** * Entries *)

Record MinishardIndexEntry := IndexEntry { entry_chunk_id : Z; entry_byte_range : ByteRange.t }.

Record MinishardAndChunkId := Id { id_minishard : Z; id_chunk_id : Z }.

Definition id_ltb (a b : MinishardAndChunkId) : bool :=
  (id_minishard a <? id_minishard b) ||
  ((id_minishard a =? id_minishard b) && (id_chunk_id a <? id_chunk_id b)).
Definition id_eqb (a b : MinishardAndChunkId) : bool :=
  (id_minishard a =? id_minishard b) && (id_chunk_id a =? id_chunk_id b).

Record EncodedChunk := Chunk { minishard_and_chunk_id : MinishardAndChunkId; encoded_data : bytes }.

(** [std::lower_bound] on the range from [lo], of length [n]: binary search for the first
    position at which [before] does not hold. *)
Fixpoint lower_bound {A} (fuel : nat) (before : A -> bool) (l : list A) (lo n : nat) : nat :=
  match fuel with
  | O => lo
  | S fuel =>
      match n with
      | O => lo
      | _ =>
          let half := Nat.div2 n in
          match l !! (lo + half)%nat with
          | Some x =>
              if before x then lower_bound fuel before l (S (lo + half)) (n - S half)
              else lower_bound fuel before l lo half
          | None => lo
          end
      end
  end.

(** The iterator that a search over all of [l] returns, as an index. *)
Definition c_lower_bound {A} (before : A -> bool) (l : list A) : nat :=
  lower_bound (length l) before l 0 (length l).

Definition FindChunk (chunks : list EncodedChunk) (id : MinishardAndChunkId) : option EncodedChunk :=
  match chunks !! c_lower_bound (fun chunk => id_ltb (minishard_and_chunk_id chunk) id) chunks with
  | Some chunk => if id_eqb (minishard_and_chunk_id chunk) id then Some chunk else None
  | None => None
  end.

Definition FindChunkInMinishard (minishard_index : list MinishardIndexEntry) (chunk_id : Z) :
    option ByteRange.t :=
  match minishard_index !!
      c_lower_bound (fun e => entry_chunk_id e <? chunk_id) minishard_index with
  | Some e => if entry_chunk_id e =? chunk_id then Some (entry_byte_range e) else None
  | None => None
  end.

(** The vectors of the unit test. *)
Example murmurhash_0 : MurmurHash3.Hash64Bits 0 (0, 0, 0, 0) =
  (0xe028ae41, 0x4772b084, 0x4772b084, 0x4772b084).
Proof. vm_compute. reflexivity. Qed.
Example murmurhash_42 : MurmurHash3.Hash64Bits 42 (2, 2, 2, 2) =
  (0x2d83d9c7, 0x082115eb, 0x082115eb, 0x082115eb).
Proof. vm_compute. reflexivity. Qed.

(** * Lemmas on shard numbers *)

Lemma valid_spec_bounds s : valid_spec s = true ->
  0 <= preshift_bits s <= 64 /\ 0 <= minishard_bits s <= 32 /\
  0 <= shard_bits s /\ minishard_bits s + shard_bits s <= 64.
Proof. unfold valid_spec. intros H. bool_to_prop. lia. Qed.

Lemma pow2_u64 n : 0 <= n < 64 -> 0 < 2 ^ n < u64_modulus.
Proof.
  intros Hn. split; [lia|]. change u64_modulus with (2 ^ 64). apply Z.pow_lt_mono_r; lia.
Qed.

Lemma GetLowBitMask_ones n : 0 <= n <= 64 -> GetLowBitMask n = Z.ones n.
Proof.
  intros Hn. unfold GetLowBitMask. destruct (Z.eqb_spec n 64) as [->|Hne]; [reflexivity|].
  rewrite Z.shiftl_1_l, Z.ones_equiv. unfold u64. pose proof (pow2_u64 n ltac:(lia)).
  rewrite (Z.mod_small (2 ^ n)), Z.mod_small by lia. lia.
Qed.

Lemma land_mask x n : 0 <= n <= 64 -> Z.land x (GetLowBitMask n) = x mod 2 ^ n.
Proof. intros Hn. rewrite GetLowBitMask_ones, Z.land_ones by lia. reflexivity. Qed.

Lemma ShiftRight_div x n : in_u64 x -> 0 <= n <= 64 -> ShiftRightUpTo64 x n = x / 2 ^ n.
Proof.
  unfold in_u64. change u64_modulus with (2 ^ 64). intros Hx Hn. unfold ShiftRightUpTo64.
  destruct (Z.eqb_spec n 64) as [->|]; [symmetry; apply Z.div_small; exact Hx|].
  apply Z.shiftr_div_pow2. lia.
Qed.

Lemma u32_range z : 0 <= u32 z < 2 ^ 32.
Proof. apply Z.mod_pos_bound. reflexivity. Qed.

Lemma HashChunkId_range h key : in_u64 key -> in_u64 (HashChunkId h key).
Proof.
  intros Hk. destruct h; [exact Hk|]. unfold HashChunkId.
  assert (Hr : forall i s, exists a b c d, MurmurHash3.Hash64Bits i s = (u32 a, u32 b, u32 c, u32 d))
    by (intros i [[[? ?] ?] ?]; do 4 eexists; reflexivity).
  destruct (Hr key (0, 0, 0, 0)) as (a & b & c & d & ->).
  rewrite Z.shiftl_mul_pow2 by lia. pose proof (u32_range a). pose proof (u32_range b).
  unfold u64. rewrite Z.mod_small by (unfold u64_modulus; lia).
  rewrite lor_disjoint by lia. unfold in_u64, u64_modulus. lia.
Qed.

Lemma ShardIndexSize_eq s : valid_spec s = true ->
  ShardIndexSize s = 16 * num_minishards s /\ num_minishards s = 2 ^ minishard_bits s /\
  0 < num_minishards s <= 2 ^ 32.
Proof.
  intros Hs%valid_spec_bounds. unfold ShardIndexSize, num_minishards.
  rewrite Z.shiftl_1_l, Z.shiftl_mul_pow2 by lia.
  assert (0 < 2 ^ minishard_bits s <= 2 ^ 32) by (split; [lia|apply Z.pow_le_mono_r; lia]).
  rewrite wrap64_id by (unfold in_i64, i64_min, i64_max; lia).
  unfold u64. rewrite Z.mod_small by (unfold u64_modulus; lia). lia.
Qed.

Lemma GetAbsoluteShardByteRange_spec r s : valid_spec s = true ->
  in_i64 (ByteRange.inclusive_min r) -> in_i64 (ByteRange.exclusive_max r) ->
  GetAbsoluteShardByteRange r s =
    if in_i64b (ByteRange.inclusive_min r + 16 * num_minishards s) &&
       in_i64b (ByteRange.exclusive_max r + 16 * num_minishards s)
    then Ok (ByteRange.Make (ByteRange.inclusive_min r + 16 * num_minishards s)
               (ByteRange.exclusive_max r + 16 * num_minishards s))
    else Err kFailedPrecondition.
Proof.
  intros Hs Hmin Hmax. destruct (ShardIndexSize_eq s Hs) as (E & _).
  unfold GetAbsoluteShardByteRange, AddOverflow. rewrite E.
  destruct (in_i64b (ByteRange.inclusive_min r + _)) eqn:E1; [|reflexivity].
  destruct (in_i64b (ByteRange.exclusive_max r + _)) eqn:E2; [|reflexivity]. cbn.
  unfold in_i64b in *. bool_to_prop.
  rewrite !wrap64_id by (unfold in_i64, i64_min, i64_max in *; lia). reflexivity.
Qed.

(** * Lemmas on binary search *)

Section BinarySearch.
Context {A : Type} (before : A -> bool).

(** [before] holds exactly on the first [k] elements. *)
Definition partitioned (l : list A) (k : nat) : Prop :=
  (k <= length l)%nat /\
  forall i x, l !! i = Some x -> before x = true <-> (i < k)%nat.

Lemma lower_bound_partition l k : partitioned l k ->
  forall fuel lo n, (n <= fuel)%nat -> (lo <= k <= lo + n)%nat -> (lo + n <= length l)%nat ->
  lower_bound fuel before l lo n = k.
Proof.
  intros [Hk Hp]. induction fuel as [|fuel IH]; intros lo n Hf Hlo Hn; cbn; [lia|].
  destruct n as [|n]; [lia|].
  pose proof (Nat.div2_odd (S n)) as Hodd. pose proof (Nat.b2n_le_1 (Nat.odd (S n))).
  set (half := Nat.div2 (S n)) in *.
  destruct (lookup_lt_is_Some_2 l (lo + half)) as [x Hx]; [lia|]. rewrite Hx.
  specialize (Hp _ _ Hx). destruct (before x).
  - apply IH; [lia| |lia]. assert (lo + half < k)%nat by (apply Hp; reflexivity). lia.
  - apply IH; [lia| |lia]. split; [lia|].
    destruct (Nat.lt_ge_cases (lo + half) k) as [Hlt|Hge]; [apply Hp in Hlt; discriminate|lia].
Qed.

Lemma c_lower_bound_partition l k : partitioned l k -> c_lower_bound before l = k.
Proof.
  intros H. apply (lower_bound_partition l k H); [lia| |lia]. destruct H. lia.
Qed.

(** A list sorted by a relation that [before] respects is partitioned. *)
Lemma sorted_partitioned (R : A -> A -> Prop) l :
  StronglySorted R l -> (forall x y, R x y -> before y = true -> before x = true) ->
  exists k, partitioned l k.
Proof.
  intros Hs HR. induction Hs as [|x l Hs [k [Hk Hp]] Hx].
  - exists 0%nat. split; [cbn; lia|]. intros i y Hy. rewrite lookup_nil in Hy. discriminate.
  - destruct (before x) eqn:E.
    + exists (S k). split; [cbn; lia|]. intros [|i] y Hy; cbn in Hy.
      * injection Hy as <-. rewrite E. split; [lia|reflexivity].
      * rewrite (Hp i y Hy). lia.
    + exists 0%nat. split; [cbn; lia|]. intros i y Hy. split; [|lia]. intros Hb.
      destruct i as [|i]; cbn in Hy; [congruence|].
      rewrite Forall_forall in Hx. apply list_elem_of_lookup_2 in Hy.
      rewrite (HR x y (Hx y Hy) Hb) in E. discriminate.
Qed.
End BinarySearch.

(** * The orders that entries are sorted by *)

Definition id_lt (a b : MinishardAndChunkId) : Prop :=
  id_minishard a < id_minishard b \/
  (id_minishard a = id_minishard b /\ id_chunk_id a < id_chunk_id b).
Definition chunk_lt (a b : EncodedChunk) : Prop :=
  id_lt (minishard_and_chunk_id a) (minishard_and_chunk_id b).
Definition entry_lt (a b : MinishardIndexEntry) : Prop := entry_chunk_id a < entry_chunk_id b.

Lemma id_ltb_spec a b : id_ltb a b = true <-> id_lt a b.
Proof.
  unfold id_ltb, id_lt. rewrite orb_true_iff, andb_true_iff, !Z.ltb_lt, Z.eqb_eq. reflexivity.
Qed.

Lemma id_eqb_spec a b : id_eqb a b = true <-> a = b.
Proof.
  unfold id_eqb. rewrite andb_true_iff, !Z.eqb_eq. destruct a, b; cbn.
  split; [intros [-> ->]; reflexivity|intros [= -> ->]; auto].
Qed.

(** What a search in a strictly sorted list finds. *)
Lemma search_sorted {A} (R : A -> A -> Prop) (before hit : A -> bool) l :
  StronglySorted R l ->
  (forall x y, R x y -> before y = true -> before x = true) ->
  (forall x y, R x y -> hit y = true -> before x = true) ->
  (forall x, hit x = true -> before x = false) ->
  forall x, match l !! c_lower_bound before l with
            | Some y => if hit y then Some y else None
            | None => None
            end = Some x <-> x ∈ l /\ hit x = true.
Proof.
  intros Hs HR His Hnot x. destruct (sorted_partitioned before R l Hs HR) as (k & Hk).
  rewrite (c_lower_bound_partition before l k Hk). destruct Hk as [Hle Hp]. split.
  - destruct (l !! k) as [y|] eqn:Ey; [|discriminate]. destruct (hit y) eqn:E; [|discriminate].
    intros [= ->]. split; [apply list_elem_of_lookup_2 in Ey; exact Ey|exact E].
  - intros (Hx & Hitx). apply list_elem_of_lookup in Hx as [i Hi].
    assert (Hki : (k <= i)%nat).
    { destruct (Nat.lt_ge_cases i k) as [Hlt|]; [|assumption].
      apply (Hp i x Hi) in Hlt. rewrite Hnot in Hlt by exact Hitx. discriminate. }
    destruct (l !! k) as [y|] eqn:Ey; [|apply lookup_ge_None in Ey; apply lookup_lt_Some in Hi; lia].
    destruct (decide (i = k)) as [->|Hne].
    { rewrite Hi in Ey. injection Ey as <-. rewrite Hitx. reflexivity. }
    assert (HRyx : R y x).
    { pose proof (list_elem_of_split_length l k y Ey) as (l1 & l2 & -> & ->).
      apply StronglySorted_app in Hs as (_ & _ & Hs). inversion Hs as [|? ? _ Hy]; subst.
      rewrite Forall_forall in Hy. apply Hy.
      rewrite lookup_app_r in Hi by lia.
      destruct (i - length l1)%nat as [|j] eqn:Ej; [lia|].
      cbn in Hi. apply list_elem_of_lookup_2 in Hi. exact Hi. }
    pose proof (His y x HRyx Hitx) as Hb. apply (Hp k y Ey) in Hb. lia.
Qed.

(** * Theorems *)

Module MurmurHash3Proofs.
Import MurmurHash3.

Lemma u32_u64 z : u32 (u64 z) = u32 z.
Proof.
  unfold u32, u64. change u64_modulus with (u32_modulus * u32_modulus).
  rewrite Z.rem_mul_r by (unfold u32_modulus; lia).
  rewrite (Z.mul_comm u32_modulus), Z.mod_add by (unfold u32_modulus; lia).
  apply Z.mod_mod. unfold u32_modulus. lia.
Qed.

Lemma u32_add_u64 a b : u32 (u64 a + b) = u32 (a + b).
Proof.
  unfold u32. rewrite Zplus_mod. fold (u32 (u64 a)). rewrite u32_u64. unfold u32.
  rewrite <- Zplus_mod. reflexivity.
Qed.

Lemma u32_add_u32 a b : u32 (a + u32 b) = u32 (a + b).
Proof. unfold u32. apply Zplus_mod_idemp_r. Qed.

Lemma u32_add_u64_r a b : u32 (a + u64 b) = u32 (a + b).
Proof. rewrite (Z.add_comm a), u32_add_u64, (Z.add_comm b). reflexivity. Qed.

Lemma sum_first a b c d : u32 (u64 (u64 (u64 (a + b) + c) + d)) = u32 (a + b + c + d).
Proof.
  rewrite u32_u64, u32_add_u64, <- Z.add_assoc, u32_add_u64. f_equal. lia.
Qed.

Lemma sum_next x a b c d :
  u32 (u64 (x + u64 (u64 (u64 (a + b) + c) + d))) = u32 (x + u32 (a + b + c + d)).
Proof.
  rewrite u32_u64, u32_add_u32, <- u32_add_u32, u32_u64, u32_add_u64, <- Z.add_assoc, u32_add_u64,
    u32_add_u32.
  f_equal. lia.
Qed.

(** The hash function computes MurmurHash3_x86_128 of its 8 input bytes: its 64-bit
    accumulators, which do not wrap where the 32-bit ones of the definition do, give the
    same result. *)
Theorem murmurhash3_reference input h : in_u64 input -> Hash64Bits input h = reference input h.
Proof.
  intros Hi. destruct h as [[[h1 h2] h3] h4]. unfold Hash64Bits, reference.
  assert (El : u32 input = input mod 2 ^ 32) by reflexivity.
  assert (Eh : u32 (Z.shiftr input 32) = input / 2 ^ 32).
  { rewrite Z.shiftr_div_pow2 by lia. apply Z.mod_small. unfold in_u64, u64_modulus, u32_modulus in *.
    split; [apply Z.div_pos; lia|apply Z.div_lt_upper_bound; lia]. }
  rewrite El, Eh. cbv zeta.
  set (k1 := u32 (RotateLeft _ 15 * _)). set (k2 := u32 (RotateLeft _ 16 * _)).
  rewrite !sum_next, !sum_first. reflexivity.
Qed.

Lemma murmurhash3_reference_witness :
  in_u64 42 /\ Hash64Bits 42 (0, 0, 0, 0) = reference 42 (0, 0, 0, 0).
Proof.
  assert (H : in_u64 42) by (unfold in_u64, u64_modulus; lia).
  split; [exact H|exact (murmurhash3_reference 42 (0, 0, 0, 0) H)].
Defined.
End MurmurHash3Proofs.

(** C39: every chunk has a shard number below [num_shards] and a minishard number below
    [num_minishards], and the combined and the split form of the two determine each other. *)
Theorem shard_info_correct s :
  valid_spec s = true ->
  (forall chunk_id, in_u64 chunk_id ->
     0 <= GetChunkShardInfo s chunk_id < 2 ^ (minishard_bits s + shard_bits s)) /\
  (forall combined, 0 <= combined < 2 ^ (minishard_bits s + shard_bits s) ->
     let split := GetSplitShardInfo s combined in
     0 <= minishard split < 2 ^ minishard_bits s /\ 0 <= shard split < 2 ^ shard_bits s /\
     GetCombinedShardInfo s split = combined) /\
  (forall split, 0 <= minishard split < 2 ^ minishard_bits s -> 0 <= shard split < 2 ^ shard_bits s ->
     0 <= GetCombinedShardInfo s split < 2 ^ (minishard_bits s + shard_bits s) /\
     GetSplitShardInfo s (GetCombinedShardInfo s split) = split) /\
  (shard_bits s < 64 -> num_shards s = 2 ^ shard_bits s) /\
  num_minishards s = 2 ^ minishard_bits s.
Proof.
  intros Hs. pose proof (valid_spec_bounds s Hs) as Hb.
  set (m := minishard_bits s) in *. set (k := shard_bits s) in *.
  assert (Hmk : 2 ^ (m + k) = 2 ^ m * 2 ^ k) by (apply Z.pow_add_r; lia).
  assert (Hle : 2 ^ (m + k) <= 2 ^ 64) by (apply Z.pow_le_mono_r; lia).
  assert (Hm : 0 < 2 ^ m) by lia. assert (Hk : 0 < 2 ^ k) by lia.
  assert (Hsplit : forall c, 0 <= c < 2 ^ (m + k) ->
    GetSplitShardInfo s c = SplitInfo (c mod 2 ^ m) (c / 2 ^ m)).
  { intros c Hc. unfold GetSplitShardInfo. fold m k.
    rewrite ShiftRight_div by (unfold in_u64, u64_modulus; lia).
    rewrite !land_mask by lia. f_equal. apply Z.mod_small.
    split; [apply Z.div_pos; lia|apply Z.div_lt_upper_bound; lia]. }
  assert (Hcomb : forall x y, 0 <= x < 2 ^ m -> 0 <= y < 2 ^ k ->
    GetCombinedShardInfo s (SplitInfo x y) = y * 2 ^ m + x).
  { intros x y Hx Hy. unfold GetCombinedShardInfo. fold m. cbn [minishard shard].
    rewrite (proj2 (Z.eqb_neq m 64)) by lia. cbn [negb]. rewrite Z.shiftl_mul_pow2 by lia.
    unfold u64. rewrite Z.mod_small by (unfold u64_modulus; nia).
    rewrite Z.lor_comm. apply lor_disjoint; lia. }
  assert (Hdiv : forall c, 0 <= c < 2 ^ (m + k) -> 0 <= c mod 2 ^ m < 2 ^ m /\ 0 <= c / 2 ^ m < 2 ^ k).
  { intros c Hc. split; [apply Z.mod_pos_bound; lia|].
    split; [apply Z.div_pos; lia|apply Z.div_lt_upper_bound; lia]. }
  split; [|split; [|split; [|split]]].
  - intros chunk_id _. unfold GetChunkShardInfo. rewrite land_mask by lia. apply Z.mod_pos_bound. lia.
  - intros c Hc. cbv zeta. rewrite Hsplit by exact Hc. cbn [minishard shard].
    destruct (Hdiv c Hc). split; [assumption|]. split; [assumption|].
    rewrite Hcomb by assumption. pose proof (Z.div_mod c (2 ^ m)). lia.
  - intros [x y] Hx Hy. cbn [minishard shard] in *. rewrite Hcomb by assumption.
    assert (Hr : 0 <= y * 2 ^ m + x < 2 ^ (m + k)) by nia.
    split; [exact Hr|]. rewrite Hsplit by exact Hr. f_equal.
    + rewrite Z.add_comm, Z.mod_add by lia. apply Z.mod_small. lia.
    + rewrite Z.div_add_l, Z.div_small by lia. lia.
  - intros Hlt. unfold num_shards. fold k. rewrite Z.shiftl_1_l. apply Z.mod_small.
    pose proof (pow2_u64 k). lia.
  - apply (ShardIndexSize_eq s Hs).
Qed.

(** One minishard bit, two shard bits. *)
Definition example_spec : ShardingSpec := Spec murmurhash3_x86_128 1 1 2 raw gzip.

Lemma shard_info_correct_witness :
  GetChunkShardInfo example_spec 5 = 2 /\ valid_spec example_spec = true /\
  (forall chunk_id, in_u64 chunk_id ->
     0 <= GetChunkShardInfo example_spec chunk_id <
       2 ^ (minishard_bits example_spec + shard_bits example_spec)).
Proof.
  split; [vm_compute; reflexivity|]. split; [reflexivity|].
  exact (proj1 (shard_info_correct example_spec eq_refl)).
Defined.
