(* ===== verification/ShardFormat.v ===== *)
(** The shard files of the neuroglancer_uint64_sharded format:
    [kvstore/neuroglancer_uint64_sharded/uint64_sharded_encoder.{h,cc}] and
    [uint64_sharded_decoder.cc]. *)

From stdpp Require Import sorting.
From S2P Require Import Prelude Int64 Bytes ByteRange Uint64Sharded.

(** * Compression

    [zlib::Encode] with a gzip header at level 9, and [zlib::Decode], which are calls of a
    library: the code relies on their inverse law, and on the header to make the encoded
    data non-empty. *)
Class Zlib := {
  zlib_Encode : bytes -> bytes;
  zlib_Decode : bytes -> Result bytes;
}.
Class ZlibLaws `{Zlib} := {
  zlib_Decode_Encode s : zlib_Decode (zlib_Encode s) = Ok s;
  zlib_Encode_nonempty s : zlib_Encode s <> [];
}.

(** The state of a [ShardEncoder]; [sink] is the state that the write function changes. *)
Record ShardEncoder (W : Type) := Encoder {
  sharding_spec_ : ShardingSpec;
  sink : W;
  minishard_index_ : list MinishardIndexEntry;
  shard_index_ : list ByteRange.t;
  cur_minishard_ : Z;
  data_file_offset_ : Z;
}.
Arguments Encoder {W}.
Arguments sharding_spec_ {W}.
Arguments sink {W}.
Arguments minishard_index_ {W}.
Arguments shard_index_ {W}.
Arguments cur_minishard_ {W}.
Arguments data_file_offset_ {W}.

Section Format.
Context `{Zlib}.

Definition EncodeData (input : bytes) (encoding : DataEncoding) : bytes :=
  match encoding with raw => input | gzip => zlib_Encode input end.

Definition DecodeData (input : bytes) (encoding : DataEncoding) : Result bytes :=
  match encoding with raw => Ok input | gzip => zlib_Decode input end.

(** * Encoder *)

(** The three numbers that are stored for each entry. *)
Fixpoint index_rows (prev_chunk_id prev_offset : Z) (minishard_index : list MinishardIndexEntry) :
    list (Z * Z * Z) :=
  match minishard_index with
  | [] => []
  | e :: minishard_index =>
      let r := entry_byte_range e in
      (u64 (entry_chunk_id e - prev_chunk_id),
       u64 (wrap64 (ByteRange.inclusive_min r - prev_offset)),
       u64 (wrap64 (ByteRange.exclusive_max r - ByteRange.inclusive_min r)))
      :: index_rows (entry_chunk_id e) (ByteRange.exclusive_max r) minishard_index
  end.

(** The numbers are stored column by column. *)
Definition EncodeMinishardIndex (minishard_index : list MinishardIndexEntry) : bytes :=
  let rows := index_rows 0 0 minishard_index in
  Store64s rows.*1.*1 ++ Store64s rows.*1.*2 ++ Store64s rows.*2.

Definition EncodeShardIndex (shard_index : list ByteRange.t) : bytes :=
  mjoin ((fun e => little_endian.Store64 (u64 (ByteRange.inclusive_min e)) ++
                   little_endian.Store64 (u64 (ByteRange.exclusive_max e))) <$> shard_index).

Section Encoder.
Context {W : Type} (write_function_ : W -> bytes -> Result W).

Definition NewShardEncoder (s : ShardingSpec) (w : W) : ShardEncoder W :=
  Encoder s w [] (replicate (Z.to_nat (num_minishards s)) (ByteRange.Make 0 0)) 0 0.

(** The overload of [EncodeData] that writes: the number of bytes written. *)
Definition WriteData (input : bytes) (encoding : DataEncoding) (w : W) : Result (W * Z) :=
  let encoded := EncodeData input encoding in
  w ← write_function_ w encoded;
  Ok (w, Z.of_nat (length encoded)).

Definition FinalizeMinishard (e : ShardEncoder W) : Result (ShardEncoder W) :=
  match minishard_index_ e with
  | [] => Ok e
  | _ =>
      let uncompressed_minishard_index := EncodeMinishardIndex (minishard_index_ e) in
      '(w, num_bytes) ← WriteData uncompressed_minishard_index
                          (minishard_index_encoding (sharding_spec_ e)) (sink e);
      if cur_minishard_ e <? Z.of_nat (length (shard_index_ e)) then
        Ok (Encoder (sharding_spec_ e) w []
              (<[Z.to_nat (cur_minishard_ e) :=
                   ByteRange.Make (data_file_offset_ e) (wrap64 (data_file_offset_ e + num_bytes))]>
                 (shard_index_ e))
              (cur_minishard_ e) (wrap64 (data_file_offset_ e + num_bytes)))
      else Err OutOfBounds
  end.

Definition Finalize (e : ShardEncoder W) : Result (ShardEncoder W * bytes) :=
  e ← FinalizeMinishard e;
  Ok (e, EncodeShardIndex (shard_index_ e)).

Definition WriteUnindexedEntry (e : ShardEncoder W) (minishard : Z) (data : bytes)
    (compress : bool) : Result (ShardEncoder W * ByteRange.t) :=
  e ← (if negb (minishard =? cur_minishard_ e) then
         if minishard <? cur_minishard_ e then Err kInvalidArgument
         else
           e ← FinalizeMinishard e;
           Ok (Encoder (sharding_spec_ e) (sink e) (minishard_index_ e) (shard_index_ e)
                 minishard (data_file_offset_ e))
       else Ok e);
  let start_offset := data_file_offset_ e in
  '(w, num_bytes) ← WriteData data (if compress then data_encoding (sharding_spec_ e) else raw)
                      (sink e);
  let end_offset := wrap64 (start_offset + num_bytes) in
  Ok (Encoder (sharding_spec_ e) w (minishard_index_ e) (shard_index_ e) (cur_minishard_ e)
        end_offset,
      ByteRange.Make start_offset end_offset).

Definition WriteIndexedEntry (e : ShardEncoder W) (minishard chunk_id : Z) (data : bytes)
    (compress : bool) : Result (ShardEncoder W) :=
  '(e, byte_range) ← WriteUnindexedEntry e minishard data compress;
  Ok (Encoder (sharding_spec_ e) (sink e) (minishard_index_ e ++ [IndexEntry chunk_id byte_range])
        (shard_index_ e) (cur_minishard_ e) (data_file_offset_ e)).
End Encoder.

(** The write function that appends to a string. *)
Definition Append (out buffer : bytes) : Result bytes := Ok (out ++ buffer).

(** One iteration of the loop of [EncodeShard]. *)
Definition write_chunk (e : ShardEncoder bytes) (chunk : EncodedChunk) : Result (ShardEncoder bytes) :=
  WriteIndexedEntry Append e (id_minishard (minishard_and_chunk_id chunk))
    (id_chunk_id (minishard_and_chunk_id chunk)) (encoded_data chunk) false.

(** [None] is [std::nullopt]; the process ends where this is an error. *)
Definition EncodeShard (spec : ShardingSpec) (chunks : list EncodedChunk) : Result (option bytes) :=
  encoder ← foldM write_chunk (NewShardEncoder spec []) chunks;
  '(encoder, shard_index) ← Finalize Append encoder;
  match sink encoder with
  | [] => Ok None
  | shard_data => Ok (Some (shard_index ++ shard_data))
  end.

(** * Decoder *)

(** One iteration of the decoding loop, on the three numbers that it loads. *)
Definition decode_row (st : Z * Z * list MinishardIndexEntry) (row : Z * Z * Z) :
    Result (Z * Z * list MinishardIndexEntry) :=
  let '(chunk_id, byte_offset, result) := st in
  let '(a, b, c) := row in
  let chunk_id := u64 (chunk_id + a) in
  let byte_offset := u64 (byte_offset + b) in
  let inclusive_min := wrap64 byte_offset in
  let byte_offset := u64 (byte_offset + c) in
  let exclusive_max := wrap64 byte_offset in
  let r := ByteRange.Make inclusive_min exclusive_max in
  _ ← require (ByteRange.SatisfiesInvariants r) kInvalidArgument;
  Ok (chunk_id, byte_offset, result ++ [IndexEntry chunk_id r]).

Definition entry_le (a b : MinishardIndexEntry) : Prop := entry_chunk_id a <= entry_chunk_id b.
#[export] Instance entry_le_dec a b : Decision (entry_le a b).
Proof. unfold entry_le. apply _. Defined.

(** [c_sort] may order entries of equal chunk ids in any way; here it is a merge sort. *)
Definition DecodeMinishardIndex (input : bytes) (encoding : DataEncoding) :
    Result (list MinishardIndexEntry) :=
  decoded_input ← (match encoding with
                   | raw => Ok input
                   | _ => DecodeData input encoding
                   end);
  if negb (Nat.modulo (length decoded_input) 24 =? 0)%nat then Err kInvalidArgument
  else
    let size := Nat.div (length decoded_input) 24 in
    let load i := little_endian.Load64 (drop i decoded_input) in
    '(_, _, result) ← foldM decode_row (0, 0, [])
      ((fun i => (load (i * 8)%nat, load (i * 8 + 8 * size)%nat, load (i * 8 + 16 * size)%nat))
         <$> seq 0 size);
    Ok (merge_sort entry_le result).

Definition DecodeShardIndexEntry (input : bytes) : Result ByteRange.t :=
  if negb (Nat.eqb (length input) 16) then Err kFailedPrecondition
  else
    let r := ByteRange.Make (wrap64 (little_endian.Load64 input))
               (wrap64 (little_endian.Load64 (drop 8 input))) in
    if negb (ByteRange.SatisfiesInvariants r) then Err kFailedPrecondition else Ok r.

Definition DecodeMinishardIndexAndAdjustByteRanges (encoded : bytes) (s : ShardingSpec) :
    Result (list MinishardIndexEntry) :=
  minishard_index ← DecodeMinishardIndex encoded (minishard_index_encoding s);
  mapR (fun entry =>
          r ← GetAbsoluteShardByteRange (entry_byte_range entry) s;
          Ok (IndexEntry (entry_chunk_id entry) r))
       minishard_index.

(** One iteration of [SplitMinishard]: the previous chunk id, and the chunks so far. *)
Definition split_entry (shard_data : bytes) (minishard : Z)
    (st : option Z * list EncodedChunk) (existing_entry : MinishardIndexEntry) :
    Result (option Z * list EncodedChunk) :=
  let '(prev_chunk_id, chunks) := st in
  let chunk_id := entry_chunk_id existing_entry in
  _ ← require (negb (bool_decide (prev_chunk_id = Some chunk_id))) kFailedPrecondition;
  let r := entry_byte_range existing_entry in
  _ ← OptionalByteRangeRequest.Validate (OptionalByteRangeRequest.of_ByteRange r)
        (Z.of_nat (length shard_data));
  Ok (Some chunk_id, chunks ++ [Chunk (Id minishard chunk_id) (GetSubCord shard_data r)]).

Definition SplitMinishard (shard_data : bytes) (minishard : Z)
    (minishard_index : list MinishardIndexEntry) (chunks : list EncodedChunk) :
    Result (list EncodedChunk) :=
  '(_, chunks) ← foldM (split_entry shard_data minishard) (None, chunks) minishard_index;
  Ok chunks.

Definition GetMinishardIndexByteRange (s : ShardingSpec) (shard_data shard_index : bytes)
    (minishard : Z) : Result ByteRange.t :=
  r ← DecodeShardIndexEntry (take 16 (drop (Z.to_nat (16 * minishard)) shard_index));
  r ← GetAbsoluteShardByteRange r s;
  _ ← OptionalByteRangeRequest.Validate (OptionalByteRangeRequest.of_ByteRange r)
        (Z.of_nat (length shard_data));
  Ok r.

(** One iteration of the loop of [SplitShard]. *)
Definition split_step (s : ShardingSpec) (shard_data shard_index : bytes)
    (chunks : list EncodedChunk) (minishard : Z) : Result (list EncodedChunk) :=
  minishard_ibr ← GetMinishardIndexByteRange s shard_data shard_index minishard;
  if ByteRange.size minishard_ibr =? 0 then Ok chunks
  else
    minishard_index ← DecodeMinishardIndexAndAdjustByteRanges
                        (GetSubCord shard_data minishard_ibr) s;
    SplitMinishard shard_data minishard minishard_index chunks.

Definition SplitShard (s : ShardingSpec) (shard_data : bytes) : Result (list EncodedChunk) :=
  match shard_data with
  | [] => Ok []
  | _ =>
      if Z.of_nat (length shard_data) <? u64 (num_minishards s * 16) then Err kFailedPrecondition
      else
        let shard_index := take (Z.to_nat (16 * num_minishards s)) shard_data in
        foldM (split_step s shard_data shard_index) [] (seqZ 0 (num_minishards s))
  end.
End Format.

(** * The minishard index is decoded to what was encoded *)

Definition entry_ok (e : MinishardIndexEntry) : Prop :=
  in_u64 (entry_chunk_id e) /\
  0 <= ByteRange.inclusive_min (entry_byte_range e) /\
  ByteRange.inclusive_min (entry_byte_range e) <= ByteRange.exclusive_max (entry_byte_range e) /\
  ByteRange.exclusive_max (entry_byte_range e) <= i64_max.

Lemma u64_delta prev x : in_u64 x -> u64 (prev + u64 (x - prev)) = x.
Proof.
  intros Hx. unfold u64. rewrite Zplus_mod_idemp_r. replace (prev + (x - prev)) with x by lia.
  apply Z.mod_small, Hx.
Qed.

Lemma u64_wrap64 z : u64 (wrap64 z) = u64 z.
Proof. apply wrap64_mod. Qed.

Lemma u64_range z : in_u64 (u64 z).
Proof. apply Z.mod_pos_bound. reflexivity. Qed.

Lemma decode_row_step prev_id prev_off acc e : entry_ok e ->
  decode_row (prev_id, prev_off, acc)
    (u64 (entry_chunk_id e - prev_id),
     u64 (wrap64 (ByteRange.inclusive_min (entry_byte_range e) - prev_off)),
     u64 (wrap64 (ByteRange.exclusive_max (entry_byte_range e) -
                  ByteRange.inclusive_min (entry_byte_range e)))) =
  Ok (entry_chunk_id e, ByteRange.exclusive_max (entry_byte_range e), acc ++ [e]).
Proof.
  destruct e as [id [min max]]. intros (Hid & Hmin & Hle & Hmax).
  cbn [entry_chunk_id entry_byte_range ByteRange.inclusive_min ByteRange.exclusive_max] in *.
  assert (Hi : forall x, 0 <= x <= i64_max -> in_u64 x /\ wrap64 x = x).
  { intros x Hx. split; [unfold in_u64, u64_modulus, i64_max in *; lia|].
    apply wrap64_id. unfold in_i64, i64_min, i64_max in *. lia. }
  destruct (Hi min) as [Um Wm]; [lia|]. destruct (Hi max) as [Ux Wx]; [lia|].
  unfold decode_row. rewrite !u64_wrap64, !u64_delta, Wm, Wx by assumption.
  unfold ByteRange.SatisfiesInvariants. cbn [ByteRange.inclusive_min ByteRange.exclusive_max].
  decide_comparisons. reflexivity.
Qed.

Lemma decode_rows es : forall prev_id prev_off acc,
  Forall entry_ok es ->
  exists st, foldM decode_row (prev_id, prev_off, acc) (index_rows prev_id prev_off es) =
    Ok (st, acc ++ es).
Proof.
  induction es as [|e es IH]; intros prev_id prev_off acc Hes.
  - exists (prev_id, prev_off). rewrite app_nil_r. reflexivity.
  - apply Forall_cons in Hes as [He Hes]. cbn [index_rows foldM].
    rewrite decode_row_step by exact He. unfold mbind, Result_bind.
    destruct (IH (entry_chunk_id e) (ByteRange.exclusive_max (entry_byte_range e)) (acc ++ [e]) Hes)
      as [st E].
    exists st. rewrite E, <- app_assoc. reflexivity.
Qed.

Lemma index_rows_u64 es : forall a b,
  Forall (fun r : Z * Z * Z => in_u64 r.1.1 /\ in_u64 r.1.2 /\ in_u64 r.2) (index_rows a b es).
Proof.
  induction es as [|e es IH]; intros a b; cbn; constructor; [|apply IH].
  cbn. split; [apply u64_range|]. split; apply u64_range.
Qed.

Lemma length_index_rows es : forall a b, length (index_rows a b es) = length es.
Proof. induction es as [|e es IH]; intros a b; cbn; [reflexivity|]. rewrite IH. reflexivity. Qed.

(** The rows that the decoder loads from the columns. *)
Lemma load_rows (rows : list (Z * Z * Z)) :
  Forall (fun r => in_u64 r.1.1 /\ in_u64 r.1.2 /\ in_u64 r.2) rows ->
  let s := Store64s rows.*1.*1 ++ Store64s rows.*1.*2 ++ Store64s rows.*2 in
  let load i := little_endian.Load64 (drop i s) in
  let size := length rows in
  ((fun i => (load (i * 8)%nat, load (i * 8 + 8 * size)%nat, load (i * 8 + 16 * size)%nat))
     <$> seq 0 size) = rows.
Proof.
  intros Hr. cbv zeta. apply list_eq. intros i. rewrite list_lookup_fmap.
  destruct (decide (i < length rows)%nat) as [Hlt|Hge].
  2: { rewrite (proj2 (lookup_ge_None rows i)) by lia. rewrite lookup_seq_ge by lia. reflexivity. }
  rewrite lookup_seq_lt by exact Hlt. cbn [fmap option_fmap option_map]. rewrite Nat.add_0_l.
  destruct (lookup_lt_is_Some_2 rows i Hlt) as [[[a b] c] Hi]. rewrite Hi.
  assert (H1 : Forall in_u64 rows.*1.*1 /\ Forall in_u64 rows.*1.*2 /\ Forall in_u64 rows.*2).
  { rewrite !Forall_fmap. rewrite !Forall_forall in *. cbn.
    split; [|split]; intros x Hx; apply (Hr x Hx). }
  destruct H1 as (H1 & H2 & H3).
  assert (Hl : forall k : list Z, length k = length rows -> forall t j,
    drop (j + 8 * length rows) (Store64s k ++ t) = drop j t).
  { intros k Ek t j. rewrite drop_app_ge by (rewrite length_Store64s; lia).
    f_equal. rewrite length_Store64s. lia. }
  f_equal. f_equal; [f_equal|].
  - rewrite (Load64_Store64s _ _ _ a H1); [reflexivity|]. rewrite !list_lookup_fmap, Hi. reflexivity.
  - rewrite Hl by (rewrite !length_fmap; reflexivity).
    rewrite (Load64_Store64s _ _ _ b H2); [reflexivity|]. rewrite !list_lookup_fmap, Hi. reflexivity.
  - replace (i * 8 + 16 * length rows)%nat with (i * 8 + 8 * length rows + 8 * length rows)%nat by lia.
    rewrite !Hl by (rewrite !length_fmap; reflexivity).
    rewrite <- (app_nil_r (Store64s _)), (Load64_Store64s _ _ _ c H3); [reflexivity|].
    rewrite list_lookup_fmap, Hi. reflexivity.
Qed.

#[export] Instance entry_le_trans : Transitive entry_le.
Proof. intros a b c. unfold entry_le. lia. Qed.
#[export] Instance entry_le_total : Total entry_le.
Proof. intros a b. unfold entry_le. lia. Qed.

Lemma StronglySorted_weaken {A} (R1 R2 : A -> A -> Prop) l :
  (forall x y, R1 x y -> R2 x y) -> StronglySorted R1 l -> StronglySorted R2 l.
Proof.
  intros Hw. induction 1 as [|x l Hs IH Hx]; constructor; [exact IH|].
  eapply Forall_impl; [exact Hx|]. apply Hw.
Qed.

Lemma sorted_member {A} (R : A -> A -> Prop) l x y :
  StronglySorted R l -> x ∈ l -> y ∈ l -> x = y \/ R x y \/ R y x.
Proof.
  induction 1 as [|z l Hs IH Hz]; [intros []%not_elem_of_nil|].
  rewrite Forall_forall in Hz. rewrite !elem_of_cons. intros [->|Hx] [->|Hy]; auto.
Qed.

(** Sorting changes nothing in a strictly sorted index. *)
Lemma merge_sort_sorted es : StronglySorted entry_lt es -> merge_sort entry_le es = es.
Proof.
  intros Hs. apply (StronglySorted_unique_strong entry_le).
  - intros x y Hx Hy Hxy Hyx. rewrite merge_sort_Permutation in Hx.
    destruct (sorted_member entry_lt es x y Hs Hx Hy) as [|[|]]; [assumption| |];
      unfold entry_lt, entry_le in *; lia.
  - apply StronglySorted_merge_sort; apply _.
  - eapply StronglySorted_weaken; [|exact Hs]. unfold entry_lt, entry_le. lia.
  - apply merge_sort_Permutation.
Qed.

Section FormatProofs.
Context `{ZlibLaws}.

Lemma DecodeData_EncodeData s enc : DecodeData (EncodeData s enc) enc = Ok s.
Proof. destruct enc; [reflexivity|apply zlib_Decode_Encode]. Qed.

Lemma DecodeMinishardIndex_Encode es enc :
  Forall entry_ok es -> StronglySorted entry_lt es ->
  DecodeMinishardIndex (EncodeData (EncodeMinishardIndex es) enc) enc = Ok es.
Proof.
  intros Hok Hs. unfold DecodeMinishardIndex.
  assert (E : match enc with
              | raw => Ok (EncodeData (EncodeMinishardIndex es) enc)
              | gzip => DecodeData (EncodeData (EncodeMinishardIndex es) enc) enc
              end = Ok (EncodeMinishardIndex es)).
  { destruct enc; [reflexivity|apply DecodeData_EncodeData]. }
  rewrite E. unfold mbind at 1, Result_bind at 1.
  assert (El : length (EncodeMinishardIndex es) = (length es * 24)%nat).
  { unfold EncodeMinishardIndex. rewrite !length_app, !length_Store64s, !length_fmap, length_index_rows. lia. }
  rewrite El, Nat.Div0.mod_mul, Nat.div_mul by lia. cbn [negb Nat.eqb].
  pose proof (load_rows _ (index_rows_u64 es 0 0)) as Hl. cbv zeta in Hl.
  rewrite length_index_rows in Hl. unfold EncodeMinishardIndex. rewrite Hl.
  destruct (decode_rows es 0 0 [] Hok) as [[a b] ->]. cbn.
  rewrite merge_sort_sorted by exact Hs. reflexivity.
Qed.

(** * What the encoder has written *)

(** The bytes [x] are at the range [r] of the data. *)
Definition holds_at (data : bytes) (r : ByteRange.t) (x : bytes) : Prop :=
  exists pre post, data = pre ++ x ++ post /\
    r = ByteRange.Make (Z.of_nat (length pre)) (Z.of_nat (length (pre ++ x))).

Definition located (data : bytes) (e : MinishardIndexEntry) (c : EncodedChunk) : Prop :=
  entry_chunk_id e = id_chunk_id (minishard_and_chunk_id c) /\
  holds_at data (entry_byte_range e) (encoded_data c).

(** The range [r] of the shard index is the one of the chunks [cs] of a minishard. *)
Definition indexed (data : bytes) (enc : DataEncoding) (r : ByteRange.t) (cs : list EncodedChunk) : Prop :=
  (cs = [] /\ r = ByteRange.Make 0 0) \/
  (cs <> [] /\ exists es, holds_at data r (EncodeData (EncodeMinishardIndex es) enc) /\
     Forall2 (located data) es cs).

Definition minishard_of (c : EncodedChunk) : Z := id_minishard (minishard_and_chunk_id c).
Definition of_minishard (m : Z) (cs : list EncodedChunk) : list EncodedChunk :=
  filter (fun c => minishard_of c = m) cs.

Lemma holds_at_app data more r x : holds_at data r x -> holds_at (data ++ more) r x.
Proof.
  intros (pre & post & -> & ->). exists pre, (post ++ more). rewrite <- !app_assoc. auto.
Qed.

Lemma located_app data more es cs :
  Forall2 (located data) es cs -> Forall2 (located (data ++ more)) es cs.
Proof.
  intros Hf. eapply Forall2_impl; [exact Hf|]. intros e c [Hid Hr]. split; [exact Hid|apply holds_at_app, Hr].
Qed.

Lemma indexed_app data more enc r cs : indexed data enc r cs -> indexed (data ++ more) enc r cs.
Proof.
  intros [H1|(Hne & es & Hr & Hes)]; [left; exact H1|right]. split; [exact Hne|].
  exists es. split; [apply holds_at_app, Hr|apply located_app, Hes].
Qed.

Lemma holds_at_end data x :
  holds_at (data ++ x) (ByteRange.Make (Z.of_nat (length data)) (Z.of_nat (length (data ++ x)))) x.
Proof. exists data, []. rewrite app_nil_r. auto. Qed.

Lemma of_minishard_app m l1 l2 : of_minishard m (l1 ++ l2) = of_minishard m l1 ++ of_minishard m l2.
Proof. apply filter_app. Qed.

Lemma filter_none {A} (P : A -> Prop) `{forall x, Decision (P x)} (l : list A) :
  (forall x, x ∈ l -> ~ P x) -> filter P l = [].
Proof.
  intros Hl. destruct (filter P l) as [|x k] eqn:E; [reflexivity|].
  assert (Hx : x ∈ filter P l) by (rewrite E; constructor).
  apply list_elem_of_filter in Hx as [Hp Hx]. destruct (Hl x Hx Hp).
Qed.

Lemma filter_all {A} (P : A -> Prop) `{forall x, Decision (P x)} (l : list A) :
  (forall x, x ∈ l -> P x) -> filter P l = l.
Proof.
  induction l as [|x l IH]; intros Hl; [reflexivity|].
  rewrite filter_cons_True by (apply Hl; constructor). rewrite IH; [reflexivity|].
  intros y Hy. apply Hl. constructor. exact Hy.
Qed.

Lemma of_minishard_none m l : (forall c, c ∈ l -> minishard_of c <> m) -> of_minishard m l = [].
Proof. apply filter_none. Qed.

(** The state after the chunks [pre].  What it says of positions in the data holds while they
    fit 64 bits. *)
Record encoding (s : ShardingSpec) (e : ShardEncoder bytes) (pre : list EncodedChunk) : Prop := {
  enc_spec : sharding_spec_ e = s;
  enc_length : Z.of_nat (length (shard_index_ e)) = num_minishards s;
  enc_cur : 0 <= cur_minishard_ e < num_minishards s;
  enc_pre c : c ∈ pre -> 0 <= minishard_of c <= cur_minishard_ e;
  enc_bounded : Z.of_nat (length (sink e)) <= i64_max ->
    data_file_offset_ e = Z.of_nat (length (sink e)) /\
    Forall2 (located (sink e)) (minishard_index_ e) (of_minishard (cur_minishard_ e) pre) /\
    (forall m, 0 <= m < cur_minishard_ e -> exists r, shard_index_ e !! Z.to_nat m = Some r /\
       indexed (sink e) (minishard_index_encoding s) r (of_minishard m pre)) /\
    (forall m, cur_minishard_ e <= m < num_minishards s ->
       shard_index_ e !! Z.to_nat m = Some (ByteRange.Make 0 0));
}.

Lemma encoding_New s : valid_spec s = true -> encoding s (NewShardEncoder s []) [].
Proof.
  intros Hs. destruct (ShardIndexSize_eq s Hs) as (_ & _ & Hn). split; cbn.
  - reflexivity.
  - rewrite length_replicate. lia.
  - lia.
  - intros c []%not_elem_of_nil.
  - intros _. split; [reflexivity|]. split; [constructor|]. split; [intros; lia|].
    intros m Hm. apply lookup_replicate_2. lia.
Qed.

Lemma wrap64_length (data x : bytes) :
  Z.of_nat (length (data ++ x)) <= i64_max ->
  wrap64 (Z.of_nat (length data) + Z.of_nat (length x)) = Z.of_nat (length (data ++ x)).
Proof.
  rewrite length_app. intros Hb. rewrite wrap64_id; [lia|]. unfold in_i64, i64_min, i64_max in *. lia.
Qed.

(** After [FinalizeMinishard], every minishard up to the current one is indexed. *)
Lemma FinalizeMinishard_encoding s e pre : encoding s e pre ->
  exists e' more, FinalizeMinishard Append e = Ok e' /\ sharding_spec_ e' = s /\
    Z.of_nat (length (shard_index_ e')) = num_minishards s /\
    cur_minishard_ e' = cur_minishard_ e /\ minishard_index_ e' = [] /\
    sink e' = sink e ++ more /\
    (Z.of_nat (length (sink e')) <= i64_max ->
       data_file_offset_ e' = Z.of_nat (length (sink e')) /\
       (forall m, 0 <= m <= cur_minishard_ e -> exists r, shard_index_ e' !! Z.to_nat m = Some r /\
          indexed (sink e') (minishard_index_encoding s) r (of_minishard m pre)) /\
       (forall m, cur_minishard_ e < m < num_minishards s ->
          shard_index_ e' !! Z.to_nat m = Some (ByteRange.Make 0 0))).
Proof.
  intros [Es El Hc Hp Hb]. unfold FinalizeMinishard.
  destruct (minishard_index_ e) as [|e0 es0] eqn:Emi.
  - exists e, []. rewrite app_nil_r. repeat (split; [first [reflexivity|assumption]|]).
    intros Hbd. destruct (Hb Hbd) as (Ho & Hf & Hlt & Hge). split; [exact Ho|]. split.
    + intros m Hm. destruct (decide (m = cur_minishard_ e)) as [->|Hne]; [|apply Hlt; lia].
      eexists. split; [apply Hge; lia|]. left. inversion Hf. auto.
    + intros m Hm. apply Hge. lia.
  - rewrite <- Emi in *. set (x := EncodeData (EncodeMinishardIndex (minishard_index_ e))
                                    (minishard_index_encoding s)).
    unfold WriteData, Append. cbn [mbind Result_bind]. rewrite Es. fold x.
    rewrite (proj2 (Z.ltb_lt _ _)) by lia.
    eexists _, x. split; [reflexivity|].
    cbn [sharding_spec_ shard_index_ cur_minishard_ minishard_index_ sink data_file_offset_].
    split; [reflexivity|]. split; [rewrite length_insert; exact El|].
    split; [reflexivity|]. split; [reflexivity|]. split; [reflexivity|]. intros Hbd.
    assert (Hbd' : Z.of_nat (length (sink e)) <= i64_max) by (rewrite length_app in Hbd; lia).
    destruct (Hb Hbd') as (Ho & Hf & Hlt & Hge). rewrite Ho, wrap64_length by exact Hbd.
    split; [reflexivity|]. split.
    + intros m Hm. destruct (decide (m = cur_minishard_ e)) as [->|Hne].
      * eexists. split; [apply list_lookup_insert_eq; lia|]. right.
        split; [intros Hnil; rewrite Hnil in Hf; inversion Hf; congruence|].
        exists (minishard_index_ e). split; [apply holds_at_end|apply located_app, Hf].
      * rewrite list_lookup_insert_ne by lia.
        destruct (Hlt m ltac:(lia)) as (r & Hr & Hi). exists r. split; [exact Hr|apply indexed_app, Hi].
    + intros m Hm. rewrite list_lookup_insert_ne by lia. apply Hge. lia.
Qed.

(** What [EncodeShard] accepts: minishard numbers in range, in order. *)
Definition writable (s : ShardingSpec) (e : ShardEncoder bytes) (cs : list EncodedChunk) : Prop :=
  StronglySorted (fun a b => minishard_of a <= minishard_of b) cs /\
  forall c, c ∈ cs -> cur_minishard_ e <= minishard_of c < num_minishards s.

(** The entry of a chunk, written to the current minishard. *)
Lemma write_current s e pre c : encoding s e pre -> minishard_of c = cur_minishard_ e ->
  exists e', write_chunk e c = Ok e' /\ sink e' = sink e ++ encoded_data c /\
    cur_minishard_ e' = cur_minishard_ e /\ encoding s e' (pre ++ [c]).
Proof.
  intros [Es El Hc Hp Hb] Hm. unfold write_chunk, WriteIndexedEntry, WriteUnindexedEntry.
  change (id_minishard (minishard_and_chunk_id c)) with (minishard_of c).
  rewrite Hm, Z.eqb_refl. cbn [negb]. eexists. split; [reflexivity|]. cbn [sink cur_minishard_].
  split; [reflexivity|]. split; [reflexivity|].
  split; cbn [sharding_spec_ shard_index_ cur_minishard_ minishard_index_ sink data_file_offset_];
    try assumption.
  - intros c' [Hc'|Hc'%list_elem_of_singleton]%elem_of_app; [apply Hp, Hc'|]. subst c'. lia.
  - intros Hbd. rewrite length_app in Hbd.
    destruct (Hb ltac:(lia)) as (Ho & Hf & Hlt & Hge). rewrite Ho, wrap64_length by (rewrite length_app; lia).
    split; [reflexivity|]. split; [|split; [|exact Hge]].
    + rewrite of_minishard_app. apply Forall2_app; [apply located_app, Hf|].
      unfold of_minishard. rewrite filter_cons_True by exact Hm. constructor; [|constructor].
      split; [reflexivity|]. apply holds_at_end.
    + intros m Hmm. destruct (Hlt m Hmm) as (r & Hr & Hi). exists r. split; [exact Hr|].
      rewrite of_minishard_app, (of_minishard_none m [c]), app_nil_r; [apply indexed_app, Hi|].
      intros c' ->%list_elem_of_singleton. lia.
Qed.

Lemma write_chunk_encoding s e pre c :
  encoding s e pre -> cur_minishard_ e <= minishard_of c < num_minishards s ->
  exists e' more, write_chunk e c = Ok e' /\ sink e' = sink e ++ more /\
    cur_minishard_ e' = minishard_of c /\ encoding s e' (pre ++ [c]).
Proof.
  intros He Hm. destruct (decide (minishard_of c = cur_minishard_ e)) as [Heq|Hne].
  - destruct (write_current s e pre c He Heq) as (e' & E & Esink & Ec & He').
    exists e', (encoded_data c). rewrite Ec. auto.
  - destruct (FinalizeMinishard_encoding s e pre He) as
      (e1 & more & E1 & Es1 & El1 & Ec1 & Em1 & Esink1 & Hb1).
    set (e2 := Encoder (sharding_spec_ e1) (sink e1) (minishard_index_ e1) (shard_index_ e1)
                 (minishard_of c) (data_file_offset_ e1)).
    assert (He2 : encoding s e2 pre).
    { unfold e2. split; cbn [sharding_spec_ shard_index_ cur_minishard_ minishard_index_ sink
        data_file_offset_]; try assumption.
      - pose proof (enc_cur _ _ _ He). lia.
      - intros c' Hc'. pose proof (enc_pre _ _ _ He c' Hc'). lia.
      - intros Hbd. destruct (Hb1 Hbd) as (Ho & Hlt & Hge). split; [exact Ho|]. rewrite Em1.
        assert (Hnone : forall m, cur_minishard_ e < m -> of_minishard m pre = []).
        { intros m Hlt'. apply of_minishard_none. intros c' Hc'.
          pose proof (enc_pre _ _ _ He c' Hc'). lia. }
        split; [rewrite Hnone by lia; constructor|]. split.
        + intros m Hmm. destruct (Z.le_gt_cases m (cur_minishard_ e)); [apply Hlt; lia|].
          eexists. split; [apply Hge; lia|]. left. rewrite Hnone by lia. auto.
        + intros m Hmm. apply Hge. lia. }
    destruct (write_current s e2 pre c He2 eq_refl) as (e' & E & Esink & Ec & He').
    exists e', (more ++ encoded_data c). rewrite app_assoc, <- Esink1. rewrite Ec.
    split; [|auto]. rewrite <- E. unfold write_chunk, WriteIndexedEntry, WriteUnindexedEntry.
    change (id_minishard (minishard_and_chunk_id c)) with (minishard_of c).
    rewrite (proj2 (Z.eqb_neq (minishard_of c) (cur_minishard_ e)) Hne). cbn [negb].
    rewrite (proj2 (Z.ltb_ge _ _)) by lia. rewrite E1. cbn [cur_minishard_ e2].
    rewrite Z.eqb_refl. reflexivity.
Qed.

Lemma write_chunks_encoding s cs : forall e pre,
  encoding s e pre -> writable s e cs ->
  exists e', foldM write_chunk e cs = Ok e' /\ encoding s e' (pre ++ cs).
Proof.
  induction cs as [|c cs IH]; intros e pre He [Hs Hr].
  - exists e. rewrite app_nil_r. auto.
  - destruct (write_chunk_encoding s e pre c He (Hr c ltac:(constructor))) as
      (e1 & more & E1 & _ & Ec1 & He1).
    inversion Hs as [|? ? Hs' Hle]; subst.
    destruct (IH e1 (pre ++ [c]) He1) as (e' & E & He').
    { split; [exact Hs'|]. rewrite Forall_forall in Hle. intros c' Hc'. rewrite Ec1.
      split; [apply Hle, Hc'|]. apply Hr. constructor. exact Hc'. }
    exists e'. rewrite <- app_assoc in He'. split; [|exact He'].
    cbn [foldM]. rewrite E1. exact E.
Qed.

(** A shard consists of its index and the data that the index describes; an empty shard is
    not written. *)
Lemma EncodeShard_indexed s cs : valid_spec s = true ->
  writable s (NewShardEncoder s []) cs ->
  exists (index : list ByteRange.t) (data : bytes), EncodeShard s cs =
      Ok (match data with [] => None | _ => Some (EncodeShardIndex index ++ data) end) /\
    Z.of_nat (length index) = num_minishards s /\
    (Z.of_nat (length data) <= i64_max ->
     forall m, 0 <= m < num_minishards s -> exists r, index !! Z.to_nat m = Some r /\
       indexed data (minishard_index_encoding s) r (of_minishard m cs)).
Proof.
  intros Hs Hw.
  destruct (write_chunks_encoding s cs (NewShardEncoder s []) [] (encoding_New s Hs) Hw)
    as (e & E & He).
  destruct (FinalizeMinishard_encoding s e cs He) as
    (e1 & more & E1 & Es1 & El1 & Ec1 & Em1 & Esink1 & Hb1).
  exists (shard_index_ e1), (sink e1). split; [|split; [exact El1|]].
  - unfold EncodeShard, Finalize. rewrite E. unfold mbind, Result_bind. rewrite E1.
    destruct (sink e1); reflexivity.
  - intros Hbd m Hm. destruct (Hb1 Hbd) as (_ & Hle & Hgt).
    destruct (Z.le_gt_cases m (cur_minishard_ e)); [apply Hle; lia|].
    eexists. split; [apply Hgt; lia|]. left. split; [|reflexivity].
    apply of_minishard_none. intros c Hc. pose proof (enc_pre _ _ _ He c Hc). lia.
Qed.

(** * What the decoder reads *)

Lemma EncodeShardIndex_cons r index : EncodeShardIndex (r :: index) =
  (little_endian.Store64 (u64 (ByteRange.inclusive_min r)) ++
   little_endian.Store64 (u64 (ByteRange.exclusive_max r))) ++ EncodeShardIndex index.
Proof. reflexivity. Qed.

Lemma length_EncodeShardIndex index : length (EncodeShardIndex index) = (16 * length index)%nat.
Proof.
  induction index as [|r index IH]; [reflexivity|].
  rewrite EncodeShardIndex_cons, !length_app, IH. unfold little_endian.Store64.
  rewrite !length_le_bytes. cbn [length]. lia.
Qed.

Lemma EncodeShardIndex_lookup index m r : index !! m = Some r ->
  take 16 (drop (16 * m) (EncodeShardIndex index)) =
  little_endian.Store64 (u64 (ByteRange.inclusive_min r)) ++
  little_endian.Store64 (u64 (ByteRange.exclusive_max r)).
Proof.
  revert m; induction index as [|r' index IH]; intros m Hm; [discriminate|].
  rewrite EncodeShardIndex_cons.
  assert (El : length (little_endian.Store64 (u64 (ByteRange.inclusive_min r')) ++
                       little_endian.Store64 (u64 (ByteRange.exclusive_max r'))) = 16%nat)
    by (rewrite length_app; unfold little_endian.Store64; rewrite !length_le_bytes; reflexivity).
  destruct m as [|m].
  - cbn in Hm. injection Hm as ->. rewrite Nat.mul_0_r, drop_0. apply take_app_length'. symmetry. exact El.
  - rewrite drop_app_ge by lia. rewrite El. replace (16 * S m - 16)%nat with (16 * m)%nat by lia.
    apply (IH m Hm).
Qed.

(** A range that is read back: within 64 bits, not inverted. *)
Definition range_ok (r : ByteRange.t) : Prop :=
  0 <= ByteRange.inclusive_min r /\ ByteRange.inclusive_min r <= ByteRange.exclusive_max r /\
  ByteRange.exclusive_max r <= i64_max.

Lemma i64_of_u64 x : 0 <= x <= i64_max -> in_u64 (u64 x) /\ wrap64 (u64 x) = x /\ in_i64 x.
Proof.
  intros Hx. assert (in_i64 x) by (unfold in_i64, i64_min, i64_max in *; lia).
  split; [apply u64_range|]. rewrite wrap64_u64, wrap64_id by assumption. auto.
Qed.

Lemma DecodeShardIndexEntry_Encode r : range_ok r ->
  DecodeShardIndexEntry (little_endian.Store64 (u64 (ByteRange.inclusive_min r)) ++
                         little_endian.Store64 (u64 (ByteRange.exclusive_max r))) = Ok r.
Proof.
  destruct r as [min max]. unfold range_ok. cbn [ByteRange.inclusive_min ByteRange.exclusive_max].
  intros (Hmin & Hle & Hmax).
  destruct (i64_of_u64 min) as (U1 & W1 & _); [lia|]. destruct (i64_of_u64 max) as (U2 & W2 & _); [lia|].
  unfold DecodeShardIndexEntry.
  assert (El : forall v, length (little_endian.Store64 v) = 8%nat)
    by (intros v; apply length_le_bytes).
  rewrite length_app, !El. cbn [negb Nat.eqb Nat.add].
  rewrite drop_app_length' by (symmetry; apply El).
  rewrite <- (app_nil_r (little_endian.Store64 (u64 max))), !Load64_Store64, W1, W2 by assumption.
  unfold ByteRange.SatisfiesInvariants. cbn [ByteRange.inclusive_min ByteRange.exclusive_max].
  decide_comparisons. reflexivity.
Qed.

Lemma Validate_ok r size : 0 <= ByteRange.inclusive_min r ->
  ByteRange.inclusive_min r <= ByteRange.exclusive_max r -> ByteRange.exclusive_max r <= size ->
  OptionalByteRangeRequest.Validate (OptionalByteRangeRequest.of_ByteRange r) size = Ok r.
Proof.
  destruct r as [min max]. cbn [ByteRange.inclusive_min ByteRange.exclusive_max]. intros H1 H2 H3.
  unfold OptionalByteRangeRequest.Validate, OptionalByteRangeRequest.of_ByteRange.
  cbn [OptionalByteRangeRequest.inclusive_min OptionalByteRangeRequest.exclusive_max
    ByteRange.inclusive_min ByteRange.exclusive_max].
  decide_comparisons. reflexivity.
Qed.

(** A range relative to the end of the index, and the same range of the whole shard. *)
Definition shift (n : Z) (r : ByteRange.t) : ByteRange.t :=
  ByteRange.Make (ByteRange.inclusive_min r + n) (ByteRange.exclusive_max r + n).

Lemma holds_at_shift header data r x : holds_at data r x ->
  holds_at (header ++ data) (shift (Z.of_nat (length header)) r) x.
Proof.
  intros (pre & post & -> & ->). exists (header ++ pre), post.
  rewrite <- !app_assoc. split; [reflexivity|]. unfold shift. cbn.
  rewrite !length_app. f_equal; lia.
Qed.

Lemma holds_at_ok data r x : Z.of_nat (length data) <= i64_max -> holds_at data r x ->
  range_ok r /\ ByteRange.exclusive_max r <= Z.of_nat (length data) /\
  GetSubCord data r = x /\ ByteRange.size r = Z.of_nat (length x).
Proof.
  intros Hd (pre & post & -> & ->). unfold range_ok. rewrite !length_app in *.
  cbn [ByteRange.inclusive_min ByteRange.exclusive_max].
  split; [lia|]. split; [lia|]. split.
  - apply GetSubCord_app; rewrite ?length_app; lia.
  - unfold ByteRange.size. cbn. rewrite wrap64_id; [lia|]. unfold in_i64, i64_min, i64_max in *. lia.
Qed.

Lemma GetAbsolute_shift r s : valid_spec s = true -> range_ok r ->
  ByteRange.exclusive_max r + 16 * num_minishards s <= i64_max ->
  GetAbsoluteShardByteRange r s = Ok (shift (16 * num_minishards s) r).
Proof.
  intros Hs (Hmin & Hle & Hmax) Hb. destruct (ShardIndexSize_eq s Hs) as (_ & _ & Hn).
  rewrite (GetAbsoluteShardByteRange_spec r s Hs) by (unfold in_i64, i64_min, i64_max in *; lia).
  unfold in_i64b. unfold i64_max, i64_min in *. decide_comparisons. reflexivity.
Qed.

(** The chunks of one minishard, from entries that locate them. *)
Lemma split_entries data m es cs : forall prev acc,
  Z.of_nat (length data) <= i64_max ->
  Forall2 (located data) es cs -> StronglySorted chunk_lt cs ->
  (forall c, c ∈ cs -> minishard_of c = m) ->
  (forall p c, prev = Some p -> c ∈ cs -> p < id_chunk_id (minishard_and_chunk_id c)) ->
  exists last, foldM (split_entry data m) (prev, acc) es = Ok (last, acc ++ cs).
Proof.
  intros prev acc Hd Hl. revert prev acc.
  induction Hl as [|e c es cs [Hid Hr] Hl IH]; intros prev acc Hs Hm Hp.
  - exists prev. rewrite app_nil_r. reflexivity.
  - inversion Hs as [|? ? Hs' Hlt]; subst. rewrite Forall_forall in Hlt.
    assert (Ec : Chunk (Id m (id_chunk_id (minishard_and_chunk_id c))) (encoded_data c) = c).
    { pose proof (Hm c ltac:(constructor)) as Hmc. destruct c as [[? ?] ?]. unfold minishard_of in Hmc.
      cbn in *. congruence. }
    assert (E1 : split_entry data m (prev, acc) e =
                 Ok (Some (id_chunk_id (minishard_and_chunk_id c)), acc ++ [c])).
    { unfold split_entry. cbv zeta. rewrite Hid, bool_decide_eq_false_2.
      2: { intros ->. specialize (Hp _ c eq_refl ltac:(constructor)). lia. }
      destruct (holds_at_ok data _ _ Hd Hr) as ((H1 & H2 & _) & H3 & Hsub & _).
      rewrite Validate_ok by assumption. rewrite Hsub, Ec. reflexivity. }
    cbn [foldM]. rewrite E1. unfold mbind, Result_bind.
    destruct (IH (Some (id_chunk_id (minishard_and_chunk_id c))) (acc ++ [c]) Hs') as [last E].
    + intros c' Hc'. apply Hm. constructor. exact Hc'.
    + intros p c' [= <-] Hc'. destruct (Hlt c' Hc') as [Hbad|[_ Hok]]; [|exact Hok].
      pose proof (Hm c ltac:(constructor)). pose proof (Hm c' ltac:(constructor; exact Hc')).
      unfold minishard_of in *. lia.
    + exists last. rewrite E, <- app_assoc. reflexivity.
Qed.

Lemma StronglySorted_filter {A} (R : A -> A -> Prop) (P : A -> Prop) `{forall x, Decision (P x)} l :
  StronglySorted R l -> StronglySorted R (filter P l).
Proof.
  induction 1 as [|x l Hs IH Hx]; [constructor|].
  destruct (decide (P x)); [rewrite filter_cons_True|rewrite filter_cons_False]; try assumption.
  constructor; [exact IH|]. rewrite Forall_forall in *. intros y [_ Hy]%list_elem_of_filter. auto.
Qed.

(** The entries of sorted chunks of one minishard are sorted, and can be encoded. *)
Lemma located_entries data m es cs : Z.of_nat (length data) <= i64_max ->
  Forall2 (located data) es cs -> StronglySorted chunk_lt cs ->
  (forall c, c ∈ cs -> minishard_of c = m /\ in_u64 (id_chunk_id (minishard_and_chunk_id c))) ->
  StronglySorted entry_lt es /\ Forall entry_ok es.
Proof.
  intros Hd Hl. induction Hl as [|e c es cs [Hid Hr] Hl IH]; intros Hs Hm; [split; constructor|].
  inversion Hs as [|? ? Hs' Hlt]; subst. rewrite Forall_forall in Hlt.
  destruct IH as [IHs IHok]; [exact Hs'|intros c' Hc'; apply Hm; constructor; exact Hc'|].
  pose proof (Hm c ltac:(constructor)) as [Hmc Hu].
  destruct (holds_at_ok data _ _ Hd Hr) as ((H1 & H2 & H3) & _). split.
  - constructor; [exact IHs|]. apply Forall_forall. intros e' He'.
    apply list_elem_of_lookup in He' as [i Hi].
    destruct (Forall2_lookup_l _ _ _ _ _ Hl Hi) as (c' & Hc' & Hid' & _).
    apply list_elem_of_lookup_2 in Hc'. unfold entry_lt. rewrite Hid, Hid'.
    destruct (Hlt c' Hc') as [Hbad|[_ Hok]]; [|exact Hok].
    pose proof (Hm c' ltac:(constructor; exact Hc')) as [Hmc' _]. unfold minishard_of in *. lia.
  - constructor; [|exact IHok]. unfold entry_ok. rewrite Hid. auto.
Qed.

Lemma adjust_entries s data es cs header : valid_spec s = true ->
  Z.of_nat (length header) = 16 * num_minishards s ->
  Z.of_nat (length (header ++ data)) <= i64_max ->
  Forall2 (located data) es cs ->
  exists es', mapR (fun entry =>
      r ← GetAbsoluteShardByteRange (entry_byte_range entry) s;
      Ok (IndexEntry (entry_chunk_id entry) r)) es = Ok es' /\
    Forall2 (located (header ++ data)) es' cs.
Proof.
  intros Hs Hh Hd Hl. induction Hl as [|e c es cs [Hid Hr] Hl (es' & E & Hl')].
  - exists []. split; [reflexivity|constructor].
  - assert (Hd' : Z.of_nat (length data) <= i64_max) by (rewrite length_app in Hd; lia).
    destruct (holds_at_ok data _ _ Hd' Hr) as (Hok & Hmax & _).
    exists (IndexEntry (entry_chunk_id e) (shift (Z.of_nat (length header)) (entry_byte_range e)) :: es').
    split.
    + cbn [mapR]. rewrite GetAbsolute_shift; [|exact Hs|exact Hok|rewrite length_app in Hd; lia].
      rewrite <- Hh. unfold mbind in *. unfold Result_bind in *. rewrite E. reflexivity.
    + constructor; [|exact Hl']. split; [exact Hid|]. apply holds_at_shift, Hr.
Qed.

Lemma split_step_indexed s index data cs r m acc :
  valid_spec s = true ->
  let header := EncodeShardIndex index in
  Z.of_nat (length index) = num_minishards s ->
  Z.of_nat (length (header ++ data)) <= i64_max ->
  0 <= m < num_minishards s -> index !! Z.to_nat m = Some r ->
  indexed data (minishard_index_encoding s) r cs ->
  StronglySorted chunk_lt cs ->
  (forall c, c ∈ cs -> minishard_of c = m /\ in_u64 (id_chunk_id (minishard_and_chunk_id c))) ->
  split_step s (header ++ data) header acc m = Ok (acc ++ cs).
Proof.
  intros Hs header Hl Hd Hm Hr Hi Hsorted Hc.
  destruct (ShardIndexSize_eq s Hs) as (_ & _ & Hn).
  assert (Hh : Z.of_nat (length header) = 16 * num_minishards s)
    by (unfold header; rewrite length_EncodeShardIndex; lia).
  assert (Hd' : Z.of_nat (length data) <= i64_max) by (rewrite length_app in Hd; lia).
  assert (Hrange : range_ok r /\ ByteRange.exclusive_max r <= Z.of_nat (length data)).
  { destruct Hi as [[_ ->]|(_ & es & Hx & _)].
    - unfold range_ok, i64_max. cbn. lia.
    - destruct (holds_at_ok data _ _ Hd' Hx) as (Hok & Hmax & _). auto. }
  destruct Hrange as [Hok Hmax]. pose proof Hok as (Hr1 & Hr2 & _).
  set (r' := shift (16 * num_minishards s) r).
  assert (Eget : GetMinishardIndexByteRange s (header ++ data) header m = Ok r').
  { unfold GetMinishardIndexByteRange. replace (Z.to_nat (16 * m)) with (16 * Z.to_nat m)%nat by lia.
    unfold header. rewrite (EncodeShardIndex_lookup index _ r Hr), DecodeShardIndexEntry_Encode by exact Hok.
    unfold mbind, Result_bind. rewrite GetAbsolute_shift; [|exact Hs|exact Hok|rewrite length_app in Hd; lia].
    fold header. fold r'. rewrite Validate_ok; [reflexivity|unfold r'; cbn..]; rewrite ?length_app; lia. }
  unfold split_step. rewrite Eget. cbn [mbind Result_bind].
  destruct Hi as [[-> ->]|(Hne & es & Hx & Hes)].
  - rewrite app_nil_r. unfold r', shift, ByteRange.size.
    cbn [ByteRange.inclusive_min ByteRange.exclusive_max]. rewrite Z.sub_diag. reflexivity.
  - destruct (located_entries data m es cs Hd' Hes Hsorted Hc) as [Hse Hoke].
    assert (Hx' : holds_at (header ++ data) r' (EncodeData (EncodeMinishardIndex es)
                     (minishard_index_encoding s))).
    { unfold r'. rewrite <- Hh. apply holds_at_shift, Hx. }
    destruct (holds_at_ok _ _ _ Hd Hx') as (_ & _ & Esub & Esize).
    assert (Hpos : EncodeData (EncodeMinishardIndex es) (minishard_index_encoding s) <> []).
    { destruct es; [inversion Hes; congruence|].
      destruct (minishard_index_encoding s); [discriminate|apply zlib_Encode_nonempty]. }
    rewrite Esize, (proj2 (Z.eqb_neq _ 0)).
    2: { intros E. apply Hpos, length_zero_iff_nil. lia. }
    rewrite Esub. unfold DecodeMinishardIndexAndAdjustByteRanges.
    rewrite DecodeMinishardIndex_Encode by assumption. cbn [mbind Result_bind].
    destruct (adjust_entries s data es cs header Hs Hh Hd Hes) as (es' & -> & Hes').
    unfold SplitMinishard.
    destruct (split_entries (header ++ data) m es' cs None acc Hd Hes' Hsorted) as [last E];
      [intros c Hc'; apply Hc, Hc'|discriminate|].
    unfold mbind, Result_bind. rewrite E. reflexivity.
Qed.

(** Chunks sorted by minishard are the concatenation of the minishards. *)
Lemma filter_minishards m cs : StronglySorted chunk_lt cs ->
  filter (fun c => minishard_of c < m + 1) cs =
  filter (fun c => minishard_of c < m) cs ++ of_minishard m cs.
Proof.
  induction 1 as [|c cs Hs IH Hc]; [reflexivity|].
  rewrite Forall_forall in Hc.
  assert (Hge : forall c', c' ∈ cs -> minishard_of c <= minishard_of c').
  { intros c' Hc'. destruct (Hc c' Hc'); unfold minishard_of; lia. }
  unfold of_minishard in *.
  destruct (Z.lt_trichotomy (minishard_of c) m) as [Hlt|[Heq|Hgt]].
  - rewrite !(filter_cons_True _ c) by lia. rewrite (filter_cons_False _ c) by lia.
    rewrite IH. reflexivity.
  - rewrite (filter_cons_True (fun c => minishard_of c < m + 1)) by lia.
    rewrite (filter_cons_True (fun c => minishard_of c = m)) by lia.
    rewrite (filter_cons_False (fun c => minishard_of c < m)) by lia. rewrite IH.
    assert (En : filter (fun c => minishard_of c < m) cs = []).
    { apply filter_none. intros c' Hc'. specialize (Hge c' Hc'). lia. }
    rewrite En. reflexivity.
  - rewrite !filter_cons_False by lia. exact IH.
Qed.

(** * Every shard that is accepted has sorted chunks *)

Lemma decoded_ids rows : forall st st',
  foldM decode_row st rows = Ok st' ->
  Forall (fun e => in_u64 (entry_chunk_id e)) st.2 -> Forall (fun e => in_u64 (entry_chunk_id e)) st'.2.
Proof.
  intros st st' E Hst.
  apply (foldM_inv decode_row (fun st => Forall (fun e => in_u64 (entry_chunk_id e)) st.2) rows st st'
           Hst); [|exact E].
  intros [[a b] acc] [[x y] z] st2 _ Hacc Er. unfold decode_row in Er.
  apply bind_Ok in Er as (_ & _ & [= <-]). cbn [snd] in *.
  apply Forall_app. split; [exact Hacc|]. constructor; [apply u64_range|constructor].
Qed.

Lemma DecodeMinishardIndex_sorted input enc es : DecodeMinishardIndex input enc = Ok es ->
  StronglySorted entry_le es /\ forall e, e ∈ es -> in_u64 (entry_chunk_id e).
Proof.
  unfold DecodeMinishardIndex. intros (d & _ & E)%bind_Ok.
  destruct (negb _); [discriminate|]. apply bind_Ok in E as ([[a b] l] & E & [= <-]).
  split; [apply StronglySorted_merge_sort; apply _|]. intros e He.
  rewrite merge_sort_Permutation in He. apply decoded_ids in E; [|constructor].
  rewrite Forall_forall in E. apply E, He.
Qed.

Lemma adjust_sorted encoded s es : DecodeMinishardIndexAndAdjustByteRanges encoded s = Ok es ->
  StronglySorted entry_le es /\ forall e, e ∈ es -> in_u64 (entry_chunk_id e).
Proof.
  unfold DecodeMinishardIndexAndAdjustByteRanges. intros (es0 & E0 & E)%bind_Ok.
  destruct (DecodeMinishardIndex_sorted _ _ _ E0) as [Hs Hu]. clear E0.
  apply mapR_Ok in E.
  assert (Hid : Forall2 (fun e e' => entry_chunk_id e' = entry_chunk_id e) es0 es).
  { eapply Forall2_impl; [exact E|]. intros e e' (r & _ & [= <-])%bind_Ok. reflexivity. }
  clear E. induction Hid as [|e e' es0 es He Hid IH]; [split; [constructor|intros e []%not_elem_of_nil]|].
  inversion Hs as [|? ? Hs' Hle]; subst. destruct IH as [IHs IHu];
    [exact Hs'|intros x Hx; apply Hu; constructor; exact Hx|]. split.
  - constructor; [exact IHs|]. apply Forall_forall. intros x Hx.
    apply list_elem_of_lookup in Hx as [i Hi].
    destruct (Forall2_lookup_r _ _ _ _ _ Hid Hi) as (y & Hy & Exy). apply list_elem_of_lookup_2 in Hy.
    rewrite Forall_forall in Hle. specialize (Hle y Hy). unfold entry_le in *. lia.
  - intros x [->|Hx]%elem_of_cons; [|apply IHu, Hx]. rewrite He. apply Hu. constructor.
Qed.

Lemma split_entries_sorted data m es : forall prev acc st,
  StronglySorted entry_le es ->
  (forall p e, prev = Some p -> e ∈ es -> p <= entry_chunk_id e) ->
  foldM (split_entry data m) (prev, acc) es = Ok st ->
  exists new, st.2 = acc ++ new /\ StronglySorted chunk_lt new /\
    forall c, c ∈ new -> minishard_of c = m /\
      (exists e, e ∈ es /\ entry_chunk_id e = id_chunk_id (minishard_and_chunk_id c)) /\
      (forall p, prev = Some p -> p < id_chunk_id (minishard_and_chunk_id c)).
Proof.
  induction es as [|e es IH]; intros prev acc st Hs Hp E.
  - cbn in E. injection E as <-. exists []. rewrite app_nil_r. split; [reflexivity|].
    split; [constructor|]. intros c []%not_elem_of_nil.
  - cbn [foldM] in E. apply bind_Ok in E as (st1 & E1 & E).
    unfold split_entry in E1. cbv zeta in E1.
    apply bind_Ok in E1 as (u & Hne & (r & _ & [= <-])%bind_Ok).
    unfold require in Hne. destruct (bool_decide _) eqn:Hd; [discriminate|].
    apply bool_decide_eq_false in Hd. inversion Hs as [|? ? Hs' Hle]; subst.
    rewrite Forall_forall in Hle.
    assert (Hp' : forall p x, Some (entry_chunk_id e) = Some p -> x ∈ es -> p <= entry_chunk_id x)
      by (intros p x [= <-] Hx; apply Hle, Hx).
    destruct (IH _ _ _ Hs' Hp' E) as (new & Est & Hnew & Hin).
    eexists (_ :: new). split; [rewrite Est, <- app_assoc; reflexivity|]. split.
    + constructor; [exact Hnew|]. apply Forall_forall. intros c Hc.
      destruct (Hin c Hc) as (Hm & _ & Hlt). right. unfold minishard_of in Hm. cbn. split; [lia|].
      apply Hlt. reflexivity.
    + assert (Hpe : forall p, prev = Some p -> p < entry_chunk_id e).
      { intros p Hpp. specialize (Hp p e Hpp ltac:(constructor)). destruct (decide (p = entry_chunk_id e));
          [subst; congruence|lia]. }
      intros c [->|Hc]%elem_of_cons.
      * cbn. split; [reflexivity|]. split; [exists e; split; [constructor|reflexivity]|exact Hpe].
      * destruct (Hin c Hc) as (Hm & (e' & He' & Eid) & Hlt). split; [exact Hm|].
        split; [exists e'; split; [constructor; exact He'|exact Eid]|].
        intros p Hpp. specialize (Hpe p Hpp). specialize (Hlt _ eq_refl). lia.
Qed.

(** What the loop over the minishards keeps: the chunks so far are sorted and belong to the
    minishards before the current one. *)
Definition split_before (m : Z) (cs : list EncodedChunk) : Prop :=
  StronglySorted chunk_lt cs /\
  forall c, c ∈ cs -> 0 <= minishard_of c < m /\ in_u64 (id_chunk_id (minishard_and_chunk_id c)).

Lemma split_step_sorted s data index m cs cs' : 0 <= m ->
  split_before m cs -> split_step s data index cs m = Ok cs' -> split_before (m + 1) cs'.
Proof.
  intros Hm [Hs Hc] E. unfold split_step in E. apply bind_Ok in E as (r & _ & E).
  assert (Hw : split_before (m + 1) cs).
  { split; [exact Hs|]. intros c Hin. specialize (Hc c Hin). intuition lia. }
  destruct (ByteRange.size r =? 0); [injection E as <-; exact Hw|].
  apply bind_Ok in E as (es & Ees & E). destruct (adjust_sorted _ _ _ Ees) as [Hes Hu].
  unfold SplitMinishard in E. apply bind_Ok in E as ([last l] & E & [= <-]).
  destruct (split_entries_sorted _ _ _ None cs _ Hes ltac:(discriminate) E) as (new & El & Hnew & Hin).
  cbn in El. subst l. split.
  - apply StronglySorted_app. split; [|split; assumption].
    intros c c' Hc1 Hc2. left. destruct (Hc c Hc1) as [? _]. destruct (Hin c' Hc2) as [Hm' _].
    unfold minishard_of in *. lia.
  - intros c [Hc1|Hc2]%elem_of_app; [apply Hw, Hc1|].
    destruct (Hin c Hc2) as (Hm' & (e & He & Eid) & _). rewrite <- Eid.
    split; [lia|apply Hu, He].
Qed.
End FormatProofs.

(** * Theorems *)

Section FormatTheorems.
Context `{ZlibLaws}.

(** C16: a shard that is encoded from sorted chunks is split into the same chunks, for every
    encoding of the data and of the minishard indices; the shard is omitted exactly when there
    are no chunks. *)
Theorem SplitShard_EncodeShard s cs :
  valid_spec s = true -> StronglySorted chunk_lt cs ->
  (forall c, c ∈ cs -> 0 <= minishard_of c < num_minishards s /\
                       in_u64 (id_chunk_id (minishard_and_chunk_id c))) ->
  exists shard, EncodeShard s cs = Ok shard /\ (shard = None <-> cs = []) /\
    (Z.of_nat (length (default [] shard)) <= i64_max -> SplitShard s (default [] shard) = Ok cs).
Proof.
  intros Hs Hsorted Hc. destruct (ShardIndexSize_eq s Hs) as (_ & _ & Hn).
  destruct (EncodeShard_indexed s cs Hs) as (index & data & E & Hl & Hi).
  { split; [|intros c Hin; apply Hc, Hin]. eapply StronglySorted_weaken; [|exact Hsorted].
    intros a b [|[]]; unfold minishard_of; lia. }
  rewrite E. eexists. split; [reflexivity|].
  assert (Hempty : data = [] -> cs = []).
  { intros ->. destruct cs as [|c cs]; [reflexivity|].
    assert (Hnn : of_minishard (minishard_of c) (c :: cs) <> [])
      by (unfold of_minishard; rewrite filter_cons_True by reflexivity; discriminate).
    destruct (Hi ltac:(unfold i64_max; cbn; lia) (minishard_of c) ltac:(apply Hc; constructor))
      as (r & _ & [[Hnil _]|(_ & es & (pre & post & Ed & _) & Hes)]); [congruence|].
    symmetry in Ed. apply app_eq_nil in Ed as [_ Ed]. apply app_eq_nil in Ed as [Ed _].
    destruct es; [inversion Hes; congruence|].
    destruct (minishard_index_encoding s); [discriminate|destruct (zlib_Encode_nonempty _ Ed)]. }
  destruct data as [|b data].
  { rewrite Hempty by reflexivity. split; [tauto|]. intros _. reflexivity. }
  split; [split; [discriminate|]; intros ->; cbn in E; discriminate|].
  set (d := b :: data) in *. change (default [] (Some ?x)) with x. intros Hb.
  assert (Hh : Z.of_nat (length (EncodeShardIndex index)) = 16 * num_minishards s)
    by (rewrite length_EncodeShardIndex; lia).
  assert (Hd : Z.of_nat (length d) <= i64_max) by (rewrite length_app in Hb; lia).
  unfold SplitShard. destruct (EncodeShardIndex index ++ d) as [|b' rest] eqn:Et.
  { apply app_eq_nil in Et as [_ Et]. discriminate. }
  rewrite <- Et in *. unfold u64. rewrite Z.mod_small by (unfold u64_modulus; lia).
  rewrite (proj2 (Z.ltb_ge _ _)) by (rewrite length_app; lia).
  rewrite take_app_length' by lia.
  assert (E0 : filter (fun c => minishard_of c < 0) cs = []).
  { apply filter_none. intros c Hc'. destruct (Hc c Hc'). lia. }
  assert (EN : filter (fun c => minishard_of c < 0 + num_minishards s) cs = cs).
  { apply filter_all. intros c Hc'. destruct (Hc c Hc'). lia. }
  pose proof (foldM_seqZ (split_step s (EncodeShardIndex index ++ d) (EncodeShardIndex index))
    (fun m => filter (fun c => minishard_of c < m) cs) 0 (num_minishards s)) as Hf.
  cbv beta in Hf. rewrite E0, EN in Hf. apply Hf; [|lia]. clear Hf.
  intros m Hm. destruct (Hi Hd m ltac:(lia)) as (r & Hr & Hri).
  rewrite filter_minishards by exact Hsorted.
  apply (split_step_indexed s index d (of_minishard m cs) r m); try assumption; try lia.
  - apply StronglySorted_filter, Hsorted.
  - intros c [Hcm Hc']%list_elem_of_filter. split; [exact Hcm|apply Hc, Hc'].
Qed.

Lemma FindChunk_sorted cs id c : StronglySorted chunk_lt cs ->
  FindChunk cs id = Some c <-> c ∈ cs /\ minishard_and_chunk_id c = id.
Proof.
  intros Hs. unfold FindChunk. rewrite <- (id_eqb_spec (minishard_and_chunk_id c) id).
  apply (search_sorted chunk_lt _ (fun c => id_eqb (minishard_and_chunk_id c) id) cs Hs).
  - intros x y Hxy Hy. rewrite id_ltb_spec in *. unfold chunk_lt, id_lt in *. lia.
  - intros x y Hxy <-%id_eqb_spec. apply id_ltb_spec, Hxy.
  - intros x <-%id_eqb_spec. unfold id_ltb. decide_comparisons. reflexivity.
Qed.

Lemma FindChunkInMinishard_sorted es id r : StronglySorted entry_lt es ->
  FindChunkInMinishard es id = Some r <-> IndexEntry id r ∈ es.
Proof.
  intros Hs. unfold FindChunkInMinishard.
  pose proof (search_sorted entry_lt (fun e => entry_chunk_id e <? id)
    (fun e => entry_chunk_id e =? id) es Hs) as Hf.
  assert (Hf' : forall x, match es !! c_lower_bound (fun e => entry_chunk_id e <? id) es with
      | Some y => if entry_chunk_id y =? id then Some y else None
      | None => None
      end = Some x <-> x ∈ es /\ (entry_chunk_id x =? id) = true).
  { intros x. apply Hf; clear.
    - intros x y Hxy Hy. unfold entry_lt in *. lia.
    - intros x y Hxy Hy. unfold entry_lt in *. lia.
    - intros x Hx. lia. }
  specialize (Hf' (IndexEntry id r)). cbn [entry_chunk_id] in Hf'. rewrite Z.eqb_refl in Hf'.
  destruct (es !! _) as [[i r']|]; [cbn [entry_chunk_id entry_byte_range] in *|intuition discriminate].
  destruct (Z.eqb_spec i id) as [->|Hne]; [|intuition discriminate].
  split; [intros [= ->]; apply Hf'; reflexivity|].
  intros Hin. destruct Hf' as [_ Hf']. specialize (Hf' (conj Hin eq_refl)). congruence.
Qed.

(** C31: whatever the bytes of a shard are, the chunks that they are split into are strictly
    sorted by minishard and chunk id, within the minishards of the specification, so that
    [FindChunk] finds exactly the chunk of an id; and in a minishard index without repeated
    ids, [FindChunkInMinishard] finds exactly the entry of an id. *)
Theorem SplitShard_sorted s data cs :
  valid_spec s = true -> SplitShard s data = Ok cs ->
  StronglySorted chunk_lt cs /\
  (forall c, c ∈ cs -> 0 <= minishard_of c < num_minishards s /\
                       in_u64 (id_chunk_id (minishard_and_chunk_id c))) /\
  (forall id c, FindChunk cs id = Some c <-> c ∈ cs /\ minishard_and_chunk_id c = id) /\
  (forall input enc es, DecodeMinishardIndex input enc = Ok es -> NoDup (entry_chunk_id <$> es) ->
   forall id r, FindChunkInMinishard es id = Some r <-> IndexEntry id r ∈ es).
Proof.
  intros Hs E. destruct (ShardIndexSize_eq s Hs) as (_ & _ & Hn).
  assert (Hw : split_before (num_minishards s) cs).
  { unfold SplitShard in E. destruct data as [|b data].
    { injection E as <-. split; [constructor|]. intros c []%not_elem_of_nil. }
    destruct (_ <? _); [discriminate|].
    set (step := split_step s _ _) in E.
    assert (Hloop : forall n a st st', 0 <= a -> split_before a st ->
      foldM step st (seqZ a (Z.of_nat n)) = Ok st' -> split_before (a + Z.of_nat n) st').
    { induction n as [|n IH]; intros a st st' Ha Hst Ef.
      - cbn in Ef. injection Ef as <-. rewrite Z.add_0_r. exact Hst.
      - rewrite seqZ_cons in Ef by lia. cbn [foldM] in Ef.
        apply bind_Ok in Ef as (st1 & E1 & Ef).
        replace (a + Z.of_nat (S n)) with (Z.succ a + Z.of_nat n) by lia.
        apply (IH (Z.succ a) st1); [lia|apply (split_step_sorted _ _ _ _ _ _ Ha Hst E1)|].
        replace (Z.of_nat n) with (Z.pred (Z.of_nat (S n))) by lia. exact Ef. }
    specialize (Hloop (Z.to_nat (num_minishards s)) 0 [] cs). rewrite Z2Nat.id in Hloop by lia.
    apply Hloop; [lia| |exact E]. split; [constructor|]. intros c []%not_elem_of_nil. }
  destruct Hw as [Hsorted Hin]. split; [exact Hsorted|]. split; [exact Hin|].
  split; [intros id c; apply FindChunk_sorted, Hsorted|].
  intros input enc es Ed Hnd id r. apply FindChunkInMinishard_sorted.
  destruct (DecodeMinishardIndex_sorted _ _ _ Ed) as [Hle _]. clear Ed.
  induction Hle as [|e es Hle IH He]; [constructor|]. cbn in Hnd. apply NoDup_cons in Hnd as [Hne Hnd].
  constructor; [apply IH, Hnd|]. rewrite Forall_forall in *. intros e' He'. specialize (He e' He').
  unfold entry_le, entry_lt in *. destruct (decide (entry_chunk_id e = entry_chunk_id e')) as [Heq|]; [|lia].
  destruct Hne. rewrite Heq. apply list_elem_of_fmap. eauto.
Qed.
End FormatTheorems.

(** A compression that only adds a header byte. *)
#[export] Instance header_zlib : Zlib := {
  zlib_Encode s := 31 :: s;
  zlib_Decode s := match s with 31 :: s => Ok s | _ => Err kInvalidArgument end;
}.
#[export] Instance header_zlib_laws : ZlibLaws.
Proof. split; intros s; [reflexivity|discriminate]. Defined.

(** Three chunks in two minishards. *)
Definition example_chunks : list EncodedChunk :=
  [Chunk (Id 0 4) [1; 2]; Chunk (Id 0 8) []; Chunk (Id 1 2) [3]].

Definition example_shard : bytes :=
  match EncodeShard example_spec example_chunks with Ok (Some shard) => shard | _ => [] end.

Lemma SplitShard_EncodeShard_witness :
  valid_spec example_spec = true /\ length example_shard = 109%nat /\
  exists shard, EncodeShard example_spec example_chunks = Ok shard /\
    (shard = None <-> example_chunks = []) /\
    (Z.of_nat (length (default [] shard)) <= i64_max ->
     SplitShard example_spec (default [] shard) = Ok example_chunks).
Proof.
  split; [reflexivity|]. split; [vm_compute; reflexivity|].
  apply SplitShard_EncodeShard; [reflexivity| |].
  - repeat constructor; unfold chunk_lt, id_lt; cbn; lia.
  - assert (H : Forall (fun c => 0 <= minishard_of c < 2 /\
                          in_u64 (id_chunk_id (minishard_and_chunk_id c))) example_chunks)
      by (repeat constructor; unfold minishard_of; cbn; lia).
    exact (proj1 (Forall_forall _ _) H).
Defined.

Lemma SplitShard_sorted_witness :
  SplitShard example_spec example_shard = Ok example_chunks /\
  (forall id c, FindChunk example_chunks id = Some c <->
                c ∈ example_chunks /\ minishard_and_chunk_id c = id).
Proof.
  assert (E : SplitShard example_spec example_shard = Ok example_chunks)
    by (vm_compute; reflexivity).
  split; [exact E|].
  exact (proj1 (proj2 (proj2 (SplitShard_sorted example_spec example_shard example_chunks eq_refl E)))).
Defined.
