(* ===== verification/ShardKeys.v ===== *)
(** The keys of the entries of a zarr3 sharding_indexed shard:
    [kvstore/zarr3_sharding_indexed/key.{h,cc}], and the bound on grid shapes of
    [shard_format.cc]. *)

From S2P Require Import Prelude Int64 Bytes KeyRange.

(** * Definitions *)

Definition kMaxRank : Z := 32.
Definition kMaxNumEntries : Z := 1073741824.

(** [ProductOfExtents] of [util/extents.h], which saturates. *)
Definition extent_step (result x : Z) : Z :=
  let '(overflow, product) := MulOverflow result x in
  if overflow then i64_max else product.
Definition ProductOfExtents (s : list Z) : Z := foldl extent_step 1 s.

Definition ValidateGridShape (grid_shape : list Z) : Result unit :=
  if kMaxRank - 1 <? Z.of_nat (length grid_shape) then Err kInvalidArgument
  else if kMaxNumEntries <? ProductOfExtents grid_shape then Err kInvalidArgument
  else Ok tt.

Definition IndicesToKey (grid_cell_indices : list Z) : bytes :=
  mjoin ((fun i => big_endian.Store32 (u32 i)) <$> grid_cell_indices).

(** The index that is stored at position [i] of a key. *)
Definition load_index (key : bytes) (i : nat) : Z := big_endian.Load32 (drop (i * 4) key).

(** [None] is the result [false]; [rank] is the size of the output span. *)
Definition KeyToIndices (key : bytes) (rank : nat) : option (list Z) :=
  if negb (Nat.eqb (length key) (rank * 4)) then None
  else Some (load_index key <$> seq 0 rank).

(** The loop of [KeyToEntryId], on pairs of an index and the size of its dimension. *)
Fixpoint key_to_entry_id (id : Z) (l : list (Z * Z)) : option Z :=
  match l with
  | [] => Some id
  | (index, size) :: l =>
      if size <=? index then None
      else key_to_entry_id (u32 (u32 (id * size) + index)) l
  end.

Definition KeyToEntryId (key : bytes) (grid_shape : list Z) : option Z :=
  let rank := length grid_shape in
  if negb (Nat.eqb (rank * 4) (length key)) then None
  else key_to_entry_id 0 (zip (load_index key <$> seq 0 rank) grid_shape).

Definition KeyToEntryIdOrError (key : bytes) (grid_shape : list Z) : Result Z :=
  match KeyToEntryId key grid_shape with
  | Some entry_id => Ok entry_id
  | None => Err kInvalidArgument
  end.

(** From the last dimension to the first: the quotient that is left, and the key from this
    dimension on. *)
Definition EntryIdToKey (entry_id : Z) (grid_shape : list Z) : bytes :=
  (foldr (fun size '(entry_id, key) =>
            (entry_id / size, big_endian.Store32 (u32 (entry_id mod size)) ++ key))
     (entry_id, []) grid_shape).2.

(** The loop of [LowerBoundToEntryId]; all values are 32 bits wide. *)
Definition lower_bound_step (st : Z * Z * Z) (p : Z * Z) : Z * Z * Z :=
  let '(entry_id, remaining_indices_mask, max_entry_id) := st in
  let '(index, grid_size) := p in
  let size := u32 grid_size in
  let max_entry_id := u32 (max_entry_id * size) in
  let entry_id := u32 (entry_id * size) in
  if size <=? index
  then (u32 (entry_id + Z.land size remaining_indices_mask), 0, max_entry_id)
  else (u32 (entry_id + Z.land index remaining_indices_mask), remaining_indices_mask, max_entry_id).

Definition LowerBoundToEntryId (key : bytes) (grid_shape : list Z) : Z :=
  let full_key_size := (length grid_shape * 4)%nat in
  let key_bytes_to_copy := Nat.min full_key_size (length key) in
  let key_padded := take key_bytes_to_copy key ++ replicate (full_key_size - key_bytes_to_copy) 0 in
  let '(entry_id, _, max_entry_id) :=
    foldl lower_bound_step (0, u32_modulus - 1, 1)
      (zip (load_index key_padded <$> seq 0 (length grid_shape)) grid_shape) in
  if (full_key_size <? length key)%nat then
    if entry_id <? max_entry_id then u32 (entry_id + 1) else entry_id
  else entry_id.

Definition KeyRangeToEntryRange (inclusive_min exclusive_max : bytes) (grid_shape : list Z) : Z * Z :=
  let lower_bound := LowerBoundToEntryId inclusive_min grid_shape in
  let upper_bound :=
    match exclusive_max with
    | [] => u32 (ProductOfExtents grid_shape)
    | _ => LowerBoundToEntryId exclusive_max grid_shape
    end in
  (lower_bound, upper_bound).

Definition InternalKeyLowerBoundToEntryId (key : bytes) (num_entries_per_shard : Z) : Z :=
  let key_bytes := take 4 key ++ replicate (4 - length key) 0 in
  let entry_id := big_endian.Load32 key_bytes in
  let entry_id := if num_entries_per_shard <? entry_id then u32 num_entries_per_shard else entry_id in
  if (4 <? length key)%nat && (entry_id <? num_entries_per_shard) then u32 (entry_id + 1) else entry_id.

Definition InternalKeyRangeToEntryRange (inclusive_min exclusive_max : bytes)
    (num_entries_per_shard : Z) : Z * Z :=
  (InternalKeyLowerBoundToEntryId inclusive_min num_entries_per_shard,
   match exclusive_max with
   | [] => u32 num_entries_per_shard
   | _ => InternalKeyLowerBoundToEntryId exclusive_max num_entries_per_shard
   end).

Definition EntryIdToInternalKey (entry_id : Z) : bytes := big_endian.Store32 entry_id.
Definition InternalKeyToEntryId (key : bytes) : Z := big_endian.Load32 key.

Definition KeyRangeToInternalKeyRange (range : KeyRange) (grid_shape : list Z) : KeyRange :=
  let '(inclusive_min_entry, exclusive_max_entry) :=
    KeyRangeToEntryRange (inclusive_min range) (exclusive_max range) grid_shape in
  MkKeyRange (EntryIdToInternalKey inclusive_min_entry) (EntryIdToInternalKey exclusive_max_entry).

(** * Big-endian integers are ordered like their bytes *)

Lemma Store32_rev v : big_endian.Store32 v = rev (le_bytes 4 v).
Proof.
  unfold big_endian.Store32. rewrite gbswap_32_bytes. apply le_bytes_of.
  - apply byte_string_rev, le_bytes_byte.
  - rewrite length_rev. apply length_le_bytes.
Qed.

Lemma length_Store32 v : length (big_endian.Store32 v) = 4%nat.
Proof. apply length_le_bytes. Qed.

Lemma Load32_Store32 v t : 0 <= v < u32_modulus -> big_endian.Load32 (big_endian.Store32 v ++ t) = v.
Proof.
  intros Hv. unfold big_endian.Load32. rewrite take_app_length' by (rewrite length_Store32; reflexivity).
  rewrite gbswap_32_bytes, Store32_rev. rewrite le_bytes_of.
  - rewrite rev_involutive. apply le_value_bytes. exact Hv.
  - apply byte_string_rev, le_bytes_byte.
  - rewrite length_rev. apply length_le_bytes.
Qed.

Lemma Store32_Load32 s : byte_string s -> length s = 4%nat -> big_endian.Store32 (big_endian.Load32 s) = s.
Proof.
  intros Hs Hl. unfold big_endian.Load32. rewrite Store32_rev, gbswap_32_bytes, take_ge by lia.
  rewrite le_bytes_of; [|apply byte_string_rev, le_bytes_byte|rewrite length_rev; apply length_le_bytes].
  rewrite rev_involutive. apply le_bytes_of; assumption.
Qed.

Lemma Load32_range s : byte_string s -> length s = 4%nat -> 0 <= big_endian.Load32 s < u32_modulus.
Proof.
  intros Hs Hl. unfold big_endian.Load32. rewrite gbswap_32_bytes.
  assert (Hb : byte_string (rev (le_bytes 4 (le_value (take 4 s)))))
    by (apply byte_string_rev, le_bytes_byte).
  apply le_value_bound in Hb. rewrite length_rev, length_le_bytes in Hb. exact Hb.
Qed.

Lemma compare_bytes_snoc a b x y s t : length a = length b ->
  compare_bytes ((a ++ [x]) ++ s) ((b ++ [y]) ++ t) =
  match compare_bytes a b with
  | Eq => match x ?= y with Eq => compare_bytes s t | c => c end
  | c => c
  end.
Proof.
  revert b; induction a as [|u a IH]; intros [|v b] Hl; try discriminate; [reflexivity|].
  cbn. destruct (u ?= v); try reflexivity. apply IH. injection Hl as Hl. exact Hl.
Qed.

Lemma compare_be_bytes n : forall v w s t,
  0 <= v < 256 ^ Z.of_nat n -> 0 <= w < 256 ^ Z.of_nat n ->
  compare_bytes (rev (le_bytes n v) ++ s) (rev (le_bytes n w) ++ t) =
  match v ?= w with Eq => compare_bytes s t | c => c end.
Proof.
  induction n as [|n IH]; intros v w s t Hv Hw.
  - cbn in Hv, Hw. replace v with w by lia. rewrite Z.compare_refl. reflexivity.
  - rewrite Nat2Z.inj_succ, Z.pow_succ_r in Hv, Hw by lia. cbn [le_bytes rev].
    rewrite compare_bytes_snoc by (rewrite !length_rev, !length_le_bytes; reflexivity).
    pose proof (Z.div_mod v 256) as Dv. pose proof (Z.div_mod w 256) as Dw.
    pose proof (Z.mod_pos_bound v 256) as Mv. pose proof (Z.mod_pos_bound w 256) as Mw.
    specialize (IH (v / 256) (w / 256) [] []). rewrite !app_nil_r in IH.
    rewrite IH by (split; [apply Z.div_pos; lia|apply Z.div_lt_upper_bound; lia]).
    destruct (Z.compare_spec (v / 256) (w / 256)); destruct (Z.compare_spec v w); try lia; try reflexivity.
    + replace (v mod 256) with (w mod 256) by lia. rewrite Z.compare_refl. reflexivity.
    + destruct (Z.compare_spec (v mod 256) (w mod 256)); try lia; reflexivity.
    + destruct (Z.compare_spec (v mod 256) (w mod 256)); try lia; reflexivity.
Qed.

(** A stored integer decides the order before what follows it. *)
Lemma bytes_lt_Store32 v w s t : 0 <= v < u32_modulus -> 0 <= w < u32_modulus ->
  bytes_lt (big_endian.Store32 v ++ s) (big_endian.Store32 w ++ t) <->
  v < w \/ (v = w /\ bytes_lt s t).
Proof.
  intros Hv Hw. unfold bytes_lt. rewrite !Store32_rev, compare_be_bytes by (exact Hv || exact Hw).
  destruct (Z.compare_spec v w); intuition (discriminate || lia || auto).
Qed.

(** * Entries, by recursion on the dimensions *)

Definition product (shape : list Z) : Z := foldr Z.mul 1 shape.

(** A shape that has been validated; dimensions are not empty. *)
Definition valid_shape (shape : list Z) : bool :=
  forallb (fun n => 0 <? n) shape && (product shape <=? kMaxNumEntries).

Definition positive (shape : list Z) : Prop := Forall (fun n => 0 < n) shape.

Fixpoint entry_key (shape : list Z) (id : Z) : bytes :=
  match shape with
  | [] => []
  | _ :: shape => big_endian.Store32 (id / product shape) ++ entry_key shape (id mod product shape)
  end.

(** The indices of a key with their sizes. *)
Fixpoint index_sizes (key : bytes) (shape : list Z) : list (Z * Z) :=
  match shape with
  | [] => []
  | n :: shape => (big_endian.Load32 key, n) :: index_sizes (drop 4 key) shape
  end.

Lemma product_pos shape : positive shape -> 0 < product shape.
Proof. induction 1; cbn; [lia|]. fold (product l). nia. Qed.

Lemma valid_shape_spec shape : valid_shape shape = true ->
  positive shape /\ product shape <= kMaxNumEntries.
Proof.
  unfold valid_shape. rewrite andb_true_iff, forallb_forall, Z.leb_le. intros [H1 H2].
  split; [|exact H2]. apply Forall_forall. intros n Hn. apply Z.ltb_lt, H1, list_elem_of_In, Hn.
Qed.

Lemma product_cons n shape : product (n :: shape) = n * product shape.
Proof. reflexivity. Qed.

Lemma zip_index_sizes shape : forall key,
  zip (load_index key <$> seq 0 (length shape)) shape = index_sizes key shape.
Proof.
  induction shape as [|n shape IH]; intros key; [reflexivity|].
  cbn [length seq fmap list_fmap zip zip_with index_sizes]. rewrite <- fmap_S_seq, <- list_fmap_compose.
  unfold load_index at 1. rewrite drop_0. f_equal. rewrite <- IH. f_equal.
  apply list_fmap_ext. intros i x _. unfold load_index, compose. rewrite drop_drop. reflexivity.
Qed.

Lemma length_entry_key shape : forall id, length (entry_key shape id) = (length shape * 4)%nat.
Proof.
  induction shape as [|n shape IH]; intros id; [reflexivity|].
  cbn [entry_key length]. rewrite length_app, length_Store32, IH. lia.
Qed.

Lemma entry_key_byte shape : forall id, byte_string (entry_key shape id).
Proof.
  induction shape as [|n shape IH]; intros id; [constructor|].
  cbn [entry_key]. apply Forall_app. split; [|apply IH]. rewrite Store32_rev.
  apply byte_string_rev, le_bytes_byte.
Qed.

(** The digits of an id. *)
Lemma div_mod_product n shape id : positive (n :: shape) -> 0 <= id < product (n :: shape) ->
  0 <= id / product shape < n /\ 0 <= id mod product shape < product shape /\
  id = id / product shape * product shape + id mod product shape.
Proof.
  intros Hp Hid. inversion Hp as [|? ? Hn Hs]; subst. pose proof (product_pos shape Hs).
  rewrite product_cons in Hid. pose proof (Z.div_mod id (product shape)).
  split; [split; [apply Z.div_pos; lia|apply Z.div_lt_upper_bound; lia]|].
  split; [apply Z.mod_pos_bound; lia|lia].
Qed.

Lemma EntryIdToKey_eq shape id : positive shape -> product shape <= kMaxNumEntries ->
  0 <= id < product shape -> EntryIdToKey id shape = entry_key shape id.
Proof.
  intros Hp Hm Hid. unfold EntryIdToKey.
  set (f := fun (size : Z) '(entry_id, key) => _).
  assert (E : forall shape, positive shape -> product shape <= kMaxNumEntries ->
    foldr f (id, []) shape = (id / product shape, entry_key shape (id mod product shape))).
  { clear shape Hp Hm Hid. induction shape as [|n shape IH]; intros Hp Hm.
    - cbn. rewrite Z.div_1_r. reflexivity.
    - inversion Hp as [|? ? Hn Hs]; subst. pose proof (product_pos shape Hs).
      rewrite product_cons in Hm. cbn [foldr]. rewrite IH by (assumption || nia).
      unfold f. cbn [entry_key]. rewrite product_cons, Z.div_div, (Z.mul_comm (product shape)) by lia.
      f_equal. rewrite (Z.mul_comm n), Z.rem_mul_r by lia.
      pose proof (Z.mod_pos_bound id (product shape)). pose proof (Z.mod_pos_bound (id / product shape) n).
      f_equal; [f_equal|f_equal].
      + rewrite Z.add_comm, Z.mul_comm, Z.div_add_l, (Z.div_small (id mod _)) by lia.
        rewrite Z.add_0_r. apply Z.mod_small. unfold u32_modulus, kMaxNumEntries in *. nia.
      + rewrite Z.add_comm, Z.mul_comm, Z.add_comm, Z.mod_add, Z.mod_mod by lia. reflexivity. }
  rewrite E by assumption. cbn [snd]. rewrite Z.mod_small by exact Hid. reflexivity.
Qed.

(** What is parsed from a key, in front of which the id [e] was parsed. *)
Lemma key_to_entry_id_spec shape : forall key e r,
  positive shape -> byte_string key -> length key = (length shape * 4)%nat ->
  0 <= e -> (e + 1) * product shape <= u32_modulus ->
  key_to_entry_id e (index_sizes key shape) = Some r <->
  exists id, 0 <= id < product shape /\ key = entry_key shape id /\ r = e * product shape + id.
Proof.
  induction shape as [|n shape IH]; intros key e r Hp Hb Hl He Hm.
  - destruct key; [|discriminate]. cbn. split.
    + intros [= <-]. exists 0. split; [lia|]. split; [reflexivity|lia].
    + intros (id & Hid & _ & ->). f_equal. lia.
  - inversion Hp as [|? ? Hn Hs]; subst. pose proof (product_pos shape Hs) as HP.
    rewrite product_cons in Hm. cbn [length] in Hl.
    assert (Hbk : byte_string (take 4 key) /\ byte_string (drop 4 key)).
    { rewrite <- (take_drop 4 key) in Hb. apply Forall_app in Hb. exact Hb. }
    destruct Hbk as [Hb1 Hb2].
    assert (Hl1 : length (take 4 key) = 4%nat) by (rewrite length_take; lia).
    assert (Hl2 : length (drop 4 key) = (length shape * 4)%nat) by (rewrite length_drop; lia).
    cbn [index_sizes key_to_entry_id].
    assert (Ei : big_endian.Load32 key = big_endian.Load32 (take 4 key)).
    { unfold big_endian.Load32. rewrite take_take. reflexivity. }
    pose proof (Load32_range _ Hb1 Hl1) as Hi. rewrite <- Ei in Hi.
    set (i := big_endian.Load32 key) in *.
    assert (Ek : key = big_endian.Store32 i ++ drop 4 key).
    { rewrite Ei, Store32_Load32 by assumption. symmetry. apply take_drop. }
    assert (Hkey : forall id, 0 <= id < product (n :: shape) -> key = entry_key (n :: shape) id ->
      i = id / product shape /\ drop 4 key = entry_key shape (id mod product shape)).
    { intros id Hid E. destruct (div_mod_product n shape id Hp Hid) as (Hd & _ & _).
      assert (Hd32 : id / product shape < u32_modulus) by nia.
      split.
      - unfold i. rewrite E. cbn [entry_key]. apply Load32_Store32. lia.
      - rewrite E. cbn [entry_key]. apply drop_app_length'. rewrite length_Store32. reflexivity. }
    destruct (Z.leb_spec n i) as [Hge|Hlt].
    + split; [discriminate|]. intros (id & Hid & E & _).
      destruct (Hkey id Hid E) as [-> _]. destruct (div_mod_product n shape id Hp Hid). lia.
    + assert (Eu : u32 (u32 (e * n) + i) = e * n + i).
      { unfold u32. rewrite Zplus_mod_idemp_l. apply Z.mod_small. nia. }
      rewrite Eu, IH by (assumption || nia). split.
      * intros (id & Hid & Ed & ->). exists (i * product shape + id). rewrite product_cons.
        split; [nia|]. split; [|lia]. cbn [entry_key].
        rewrite Z.div_add_l, Z.div_small, Z.add_0_r by lia.
        rewrite Z.add_comm, Z.mod_add, Z.mod_small by lia. rewrite <- Ed. exact Ek.
      * intros (id & Hid & E & ->). destruct (Hkey id Hid E) as [Ed Er].
        destruct (div_mod_product n shape id Hp Hid) as (_ & Hmod & Eid).
        exists (id mod product shape). split; [exact Hmod|]. split; [exact Er|].
        rewrite product_cons, Ed. lia.
Qed.

(** * The lower bound *)

(** The number of entries whose key is before a key of full length. *)
Fixpoint entries_before (key : bytes) (shape : list Z) : Z :=
  match shape with
  | [] => 0
  | n :: shape =>
      let i := big_endian.Load32 key in
      if n <=? i then n * product shape else i * product shape + entries_before (drop 4 key) shape
  end.

(** The parts of a key of full length. *)
Lemma key_parts key (shape : list Z) :
  byte_string key -> length key = (S (length shape) * 4)%nat ->
  0 <= big_endian.Load32 key < u32_modulus /\
  key = big_endian.Store32 (big_endian.Load32 key) ++ drop 4 key /\
  byte_string (drop 4 key) /\ length (drop 4 key) = (length shape * 4)%nat.
Proof.
  intros Hb Hl.
  assert (Hbk : byte_string (take 4 key) /\ byte_string (drop 4 key)).
  { rewrite <- (take_drop 4 key) in Hb. apply Forall_app in Hb. exact Hb. }
  destruct Hbk as [Hb1 Hb2].
  assert (Hl1 : length (take 4 key) = 4%nat) by (rewrite length_take; lia).
  assert (Ei : big_endian.Load32 key = big_endian.Load32 (take 4 key)).
  { unfold big_endian.Load32. rewrite take_take. reflexivity. }
  rewrite Ei. split; [apply Load32_range; assumption|].
  split; [rewrite Store32_Load32 by assumption; symmetry; apply take_drop|].
  split; [exact Hb2|rewrite length_drop; lia].
Qed.

Lemma entries_before_range shape : forall key, positive shape -> byte_string key ->
  length key = (length shape * 4)%nat -> 0 <= entries_before key shape <= product shape.
Proof.
  induction shape as [|n shape IH]; intros key Hp Hb Hl; [cbn; lia|].
  inversion Hp as [|? ? Hn Hs]; subst. pose proof (product_pos shape Hs).
  destruct (key_parts key shape Hb Hl) as (Hi & _ & Hb2 & Hl2).
  specialize (IH _ Hs Hb2 Hl2). cbn [entries_before]. rewrite product_cons.
  destruct (Z.leb_spec n (big_endian.Load32 key)); nia.
Qed.

Lemma entries_before_spec shape : forall key id, positive shape -> product shape <= kMaxNumEntries ->
  byte_string key -> length key = (length shape * 4)%nat -> 0 <= id < product shape ->
  id < entries_before key shape <-> bytes_lt (entry_key shape id) key.
Proof.
  induction shape as [|n shape IH]; intros key id Hp Hm Hb Hl Hid.
  - destruct key; [|discriminate]. cbn. split; [lia|discriminate].
  - inversion Hp as [|? ? Hn Hs]; subst. pose proof (product_pos shape Hs) as HP.
    destruct (div_mod_product n shape id Hp Hid) as (Hd & Hr & Eid).
    rewrite product_cons in *.
    destruct (key_parts key shape Hb Hl) as (Hi & Ek & Hb2 & Hl2).
    pose proof (entries_before_range shape _ Hs Hb2 Hl2) as Hbr.
    specialize (IH (drop 4 key) (id mod product shape) Hs ltac:(nia) Hb2 Hl2 Hr).
    cbn [entries_before entry_key]. set (i := big_endian.Load32 key) in *.
    set (rest := drop 4 key) in *. clearbody i rest.
    rewrite Ek, bytes_lt_Store32, <- IH by (unfold u32_modulus, kMaxNumEntries in *; nia).
    destruct (Z.leb_spec n i); nia.
Qed.

(** The loop computes this number, after the id [e] of the preceding dimensions. *)
Lemma lower_bound_loop shape : forall key e mask m,
  positive shape -> byte_string key -> length key = (length shape * 4)%nat ->
  mask = 0 \/ mask = u32_modulus - 1 ->
  0 <= e -> (if mask =? 0 then e else e + 1) * product shape < u32_modulus ->
  0 < m -> m * product shape < u32_modulus ->
  exists mask',
  foldl lower_bound_step (e, mask, m) (index_sizes key shape) =
    (e * product shape + (if mask =? 0 then 0 else entries_before key shape), mask', m * product shape).
Proof.
  induction shape as [|n shape IH]; intros key e mask m Hp Hb Hl Hmask He He' Hm0 Hm.
  - exists mask. cbn. destruct (mask =? 0); repeat f_equal; lia.
  - inversion Hp as [|? ? Hn Hs]; subst. pose proof (product_pos shape Hs) as HP.
    rewrite product_cons in *.
    destruct (key_parts key shape Hb Hl) as (Hi & _ & Hb2 & Hl2).
    cbn [index_sizes foldl entries_before]. set (i := big_endian.Load32 key) in *.
    assert (Hnp : n <= n * product shape) by nia.
    assert (Hmn : n * product shape <= m * (n * product shape)) by nia.
    assert (Hmn' : m * n <= m * (n * product shape)) by nia.
    assert (Hn32 : n < u32_modulus) by lia.
    assert (Esize : u32 n = n) by (apply Z.mod_small; lia).
    assert (Em : u32 (m * n) = m * n) by (apply Z.mod_small; split; [nia|lia]).
    assert (Hland : forall x, 0 <= x < u32_modulus -> Z.land x (u32_modulus - 1) = x).
    { intros x Hx. change (u32_modulus - 1) with (Z.ones 32). rewrite Z.land_ones by lia.
      apply Z.mod_small, Hx. }
    unfold lower_bound_step at 2. rewrite Esize, Em.
    destruct Hmask as [->| ->].
    + cbn [Z.eqb] in He'. rewrite Z.eqb_refl.
      assert (Ee : u32 (u32 (e * n) + 0) = e * n).
      { rewrite Z.add_0_r. unfold u32. rewrite Zmod_mod. apply Z.mod_small. nia. }
      rewrite !Z.land_0_r, Ee.
      assert (Eif : (if n <=? i then (e * n, 0, m * n) else (e * n, 0, m * n)) = (e * n, 0, m * n))
        by (case_if; reflexivity).
      rewrite Eif.
      destruct (IH (drop 4 key) (e * n) 0 (m * n) Hs Hb2 Hl2) as [mask' E];
        [auto|nia|cbn [Z.eqb]; nia|nia|nia|].
      exists mask'. rewrite E. cbn [Z.eqb]. f_equal; [f_equal|]; lia.
    + assert (Ez : (u32_modulus - 1 =? 0) = false) by reflexivity. rewrite Ez in *.
      destruct (Z.leb_spec n i) as [Hge|Hlt].
      * rewrite Hland by lia.
        assert (Ee : u32 (u32 (e * n) + n) = e * n + n).
        { unfold u32. rewrite Zplus_mod_idemp_l. apply Z.mod_small. nia. }
        rewrite Ee.
        destruct (IH (drop 4 key) (e * n + n) 0 (m * n) Hs Hb2 Hl2) as [mask' E];
          [auto|nia|cbn [Z.eqb]; nia|nia|nia|].
        exists mask'. rewrite E. cbn [Z.eqb]. f_equal; [f_equal|]; lia.
      * rewrite Hland by lia.
        assert (Ee : u32 (u32 (e * n) + i) = e * n + i).
        { unfold u32. rewrite Zplus_mod_idemp_l. apply Z.mod_small. nia. }
        rewrite Ee.
        destruct (IH (drop 4 key) (e * n + i) (u32_modulus - 1) (m * n) Hs Hb2 Hl2) as [mask' E];
          [auto|nia|rewrite Ez; nia|nia|nia|].
        exists mask'. rewrite E, Ez. f_equal; [f_equal|]; lia.
Qed.

(** * Keys that are shorter or longer than the keys of entries *)

Lemma not_lt_zeros s n : byte_string s -> length s = n -> ~ bytes_lt s (replicate n 0).
Proof.
  intros Hs <-. induction Hs as [|x s Hx Hs IH]; cbn; [discriminate|].
  rewrite bytes_lt_cons. intros [Hlt|[-> Hlt]]; [unfold is_byte in Hx; lia|auto].
Qed.

(** Padding with zeros does not change the keys of the full length that are before. *)
Lemma bytes_lt_padded k : forall s n, byte_string s -> length s = (length k + n)%nat ->
  bytes_lt s (k ++ replicate n 0) <-> bytes_lt s k.
Proof.
  induction k as [|x k IH]; intros s n Hs Hl.
  - cbn in *. split; [intros H; destruct (not_lt_zeros s n Hs Hl H)|intros []%bytes_lt_nil].
  - destruct s as [|y s]; [discriminate|]. apply Forall_cons in Hs as [_ Hs].
    cbn [app]. rewrite !bytes_lt_cons, IH by (assumption || (cbn in Hl; lia)). reflexivity.
Qed.

Lemma bytes_lt_longer s k t : length s = length k -> t <> [] ->
  bytes_lt s (k ++ t) <-> bytes_lt s k \/ s = k.
Proof.
  revert k; induction s as [|y s IH]; intros [|x k] Hl Ht; try discriminate.
  - cbn [app]. rewrite bytes_lt_nil_l. tauto.
  - cbn [app]. rewrite !bytes_lt_cons, IH by (assumption || (injection Hl as Hl; exact Hl)).
    split; [intros [?|[-> [?| ->]]]; auto|intros [[?|[-> ?]]|[= -> ->]]; auto].
Qed.

(** The keys are ordered like the ids. *)
Lemma entry_key_lt shape a b : positive shape -> product shape <= kMaxNumEntries ->
  0 <= a < product shape -> 0 <= b < product shape ->
  a < b -> bytes_lt (entry_key shape a) (entry_key shape b).
Proof.
  revert a b. induction shape as [|n shape IH]; intros a b Hp Hm Ha Hb Hab; [cbn in *; lia|].
  destruct (div_mod_product n shape a Hp Ha) as (Hda & Hra & Ea).
  destruct (div_mod_product n shape b Hp Hb) as (Hdb & Hrb & Eb).
  inversion Hp as [|? ? Hn Hs]; subst. pose proof (product_pos shape Hs).
  rewrite product_cons in *. cbn [entry_key].
  rewrite bytes_lt_Store32 by (unfold u32_modulus, kMaxNumEntries in *; nia).
  destruct (Z.lt_trichotomy (a / product shape) (b / product shape)) as [|[Heq|]]; [auto| |nia].
  right. split; [exact Heq|]. apply IH; [exact Hs|nia|exact Hra|exact Hrb|nia].
Qed.

(** The keys for which the lower bound is exact. *)
Definition bound_ok (key : bytes) (shape : list Z) : Prop :=
  byte_string key /\
  ((length key <= length shape * 4)%nat \/ KeyToEntryId (take (length shape * 4) key) shape <> None).

Lemma KeyToEntryId_spec shape key r : positive shape -> product shape <= kMaxNumEntries ->
  byte_string key ->
  KeyToEntryId key shape = Some r <-> 0 <= r < product shape /\ key = entry_key shape r.
Proof.
  intros Hp Hm Hb. pose proof (product_pos shape Hp). unfold KeyToEntryId.
  destruct (Nat.eqb_spec (length shape * 4) (length key)) as [El|Hne]; cbn [negb].
  - rewrite zip_index_sizes, key_to_entry_id_spec;
      [|exact Hp|exact Hb|lia|lia|unfold u32_modulus, kMaxNumEntries in *; lia].
    split; [intros (id & Hid & E & ->); rewrite Z.mul_0_l, Z.add_0_l; auto|].
    intros [Hr E]. exists r. split; [exact Hr|]. split; [exact E|lia].
  - split; [discriminate|]. intros [_ ->]. rewrite length_entry_key in Hne. lia.
Qed.

Lemma LowerBound_spec shape key : positive shape -> product shape <= kMaxNumEntries ->
  bound_ok key shape ->
  0 <= LowerBoundToEntryId key shape <= product shape /\
  forall id, 0 <= id < product shape ->
    id < LowerBoundToEntryId key shape <-> bytes_lt (entry_key shape id) key.
Proof.
  intros Hp Hm [Hb Hk]. pose proof (product_pos shape Hp) as HP.
  unfold LowerBoundToEntryId. set (full := (length shape * 4)%nat) in *.
  set (padded := take _ key ++ _).
  assert (Hpb : byte_string padded).
  { unfold padded. apply Forall_app. split; [apply Forall_take, Hb|].
    apply Forall_replicate. unfold is_byte. lia. }
  assert (Hpl : length padded = full).
  { unfold padded. rewrite length_app, length_take, length_replicate. lia. }
  rewrite zip_index_sizes.
  destruct (lower_bound_loop shape padded 0 (u32_modulus - 1) 1 Hp Hpb Hpl) as [mask' E];
    [auto|lia|change (u32_modulus - 1 =? 0) with false; cbv iota|lia| |];
    [unfold u32_modulus, kMaxNumEntries in *; lia..|].
  rewrite E. change (u32_modulus - 1 =? 0) with false. cbv iota.
  rewrite Z.mul_0_l, Z.add_0_l, Z.mul_1_l.
  pose proof (entries_before_range shape padded Hp Hpb Hpl) as Hr.
  assert (Hspec : forall id, 0 <= id < product shape ->
    id < entries_before padded shape <-> bytes_lt (entry_key shape id) padded)
    by (intros id Hid; apply entries_before_spec; assumption).
  destruct (Nat.ltb_spec full (length key)) as [Hlong|Hshort].
  - assert (Ep : padded = take full key).
    { unfold padded. rewrite Nat.min_l by lia. rewrite Nat.sub_diag. apply app_nil_r. }
    destruct Hk as [Hk|Hk]; [lia|].
    destruct (KeyToEntryId (take full key) shape) as [id0|] eqn:E0; [|congruence].
    apply KeyToEntryId_spec in E0 as [Hid0 E0]; [|assumption..|rewrite <- Ep; exact Hpb].
    rewrite <- Ep in E0.
    assert (Ebefore : entries_before padded shape = id0).
    { set (n := entries_before padded shape) in *. clearbody n.
      pose proof (Hspec id0 Hid0) as H0. rewrite <- E0 in H0.
      pose proof (bytes_lt_irrefl padded) as Hirr.
      destruct (Z.lt_trichotomy n id0) as [Hlt|[Heq|Hgt]]; [exfalso|exact Heq|tauto].
      apply (Z.lt_irrefl n), (Hspec n); [lia|]. rewrite E0. apply entry_key_lt; assumption || lia. }
    rewrite Ebefore. rewrite (proj2 (Z.ltb_lt id0 (product shape))) by lia.
    assert (Eu : u32 (id0 + 1) = id0 + 1)
      by (apply Z.mod_small; unfold u32_modulus, kMaxNumEntries in *; lia).
    rewrite Eu. split; [lia|]. intros id Hid.
    rewrite <- (take_drop full key) at 1. rewrite <- Ep.
    rewrite bytes_lt_longer.
    2: { rewrite length_entry_key, Hpl. reflexivity. }
    2: { intros En. apply (f_equal length) in En. rewrite length_drop in En. cbn in En. lia. }
    rewrite <- Hspec, Ebefore by exact Hid. split.
    + intros Hlt. destruct (decide (id = id0)) as [->|]; [auto|left; lia].
    + intros [Hlt|Heq]; [lia|]. rewrite <- Heq in E0.
      assert (Some id = Some id0) as [= ->]; [|lia].
      rewrite <- (proj2 (KeyToEntryId_spec shape padded id Hp Hm Hpb) (conj Hid (eq_sym Heq))).
      apply KeyToEntryId_spec; try assumption. split; [exact Hid0|]. congruence.
  - split; [exact Hr|]. intros id Hid. rewrite Hspec by exact Hid. unfold padded.
    rewrite Nat.min_r, take_ge by lia.
    apply bytes_lt_padded; [apply entry_key_byte|]. rewrite length_entry_key. lia.
Qed.

(** * Shapes that are accepted *)

Lemma extent_step_spec r x : 0 < r <= i64_max -> 0 < x <= i64_max ->
  extent_step r x = Z.min (r * x) i64_max.
Proof.
  intros Hr Hx. unfold extent_step, MulOverflow, in_i64b.
  destruct (Z.le_gt_cases (r * x) i64_max).
  - rewrite (proj2 (Z.leb_le i64_min (r * x))) by (unfold i64_min; nia).
    rewrite (proj2 (Z.leb_le (r * x) i64_max)) by assumption. cbn [andb negb].
    rewrite wrap64_id by (unfold in_i64, i64_min; nia). lia.
  - rewrite (proj2 (Z.leb_gt (r * x) i64_max)) by assumption. rewrite andb_false_r. cbn. lia.
Qed.

Lemma ProductOfExtents_spec shape : Forall (fun n => 0 < n <= i64_max) shape ->
  ProductOfExtents shape = Z.min (product shape) i64_max.
Proof.
  intros Hp.
  assert (E : forall r, 0 < r <= i64_max -> foldl extent_step r shape = Z.min (r * product shape) i64_max).
  { induction Hp as [|n shape Hn Hs IH]; intros r Hr; [cbn; lia|].
    assert (0 < product shape).
    { apply product_pos. eapply Forall_impl; [exact Hs|]. cbn. lia. }
    cbn [foldl]. rewrite extent_step_spec, product_cons by assumption. rewrite IH by nia.
    destruct (Z.le_gt_cases (r * n) i64_max).
    - rewrite (Z.min_l (r * n)) by assumption. f_equal. lia.
    - rewrite (Z.min_r (r * n)) by lia. rewrite !Z.min_r; nia. }
  unfold ProductOfExtents. rewrite E by (unfold i64_max; lia). f_equal. lia.
Qed.

Lemma ValidateGridShape_spec shape : Forall (fun n => 0 < n <= i64_max) shape ->
  ValidateGridShape shape = Ok tt <->
  Z.of_nat (length shape) <= kMaxRank - 1 /\ product shape <= kMaxNumEntries.
Proof.
  intros Hp. unfold ValidateGridShape. rewrite ProductOfExtents_spec by exact Hp.
  destruct (Z.ltb_spec (kMaxRank - 1) (Z.of_nat (length shape))); [intuition (discriminate || lia)|].
  destruct (Z.ltb_spec kMaxNumEntries (Z.min (product shape) i64_max)).
  - split; [discriminate|lia].
  - split; [|reflexivity]. intros _. split; [lia|]. unfold kMaxNumEntries, i64_max in *. lia.
Qed.

(** A grid shape: extents of dimensions that are not empty, within the bound. *)
Definition grid_ok (shape : list Z) : Prop :=
  Forall (fun n => 0 < n <= i64_max) shape /\ ValidateGridShape shape = Ok tt.

Lemma grid_ok_spec shape : grid_ok shape ->
  positive shape /\ product shape <= kMaxNumEntries /\ ProductOfExtents shape = product shape.
Proof.
  intros [Hp Hv]. apply ValidateGridShape_spec in Hv as [_ Hm]; [|exact Hp].
  split; [eapply Forall_impl; [exact Hp|]; cbn; lia|]. split; [exact Hm|].
  rewrite ProductOfExtents_spec by exact Hp. unfold kMaxNumEntries, i64_max in *. lia.
Qed.

(** * Keys of indices *)

Lemma IndicesToKey_cons i ix : IndicesToKey (i :: ix) = big_endian.Store32 (u32 i) ++ IndicesToKey ix.
Proof. reflexivity. Qed.

Lemma length_IndicesToKey ix : length (IndicesToKey ix) = (length ix * 4)%nat.
Proof.
  induction ix as [|i ix IH]; [reflexivity|].
  rewrite IndicesToKey_cons, length_app, length_Store32, IH. cbn [length]. lia.
Qed.

Lemma load_IndicesToKey ix : Forall (fun i => 0 <= i < u32_modulus) ix ->
  load_index (IndicesToKey ix) <$> seq 0 (length ix) = ix.
Proof.
  induction 1 as [|i ix Hi Hix IH]; [reflexivity|].
  cbn [length seq fmap list_fmap]. rewrite <- fmap_S_seq, <- list_fmap_compose.
  assert (E : u32 i = i) by (apply Z.mod_small, Hi).
  f_equal.
  - unfold load_index. rewrite drop_0, IndicesToKey_cons, E. apply Load32_Store32, Hi.
  - etransitivity; [|exact IH]. apply list_fmap_ext. intros k x _. unfold compose, load_index.
    rewrite IndicesToKey_cons, drop_app_ge; rewrite length_Store32; [|lia]. f_equal. f_equal. lia.
Qed.

Lemma IndicesToKey_load rank : forall key, byte_string key -> length key = (rank * 4)%nat ->
  IndicesToKey (load_index key <$> seq 0 rank) = key.
Proof.
  induction rank as [|rank IH]; intros key Hb Hl; [destruct key; [reflexivity|discriminate]|].
  cbn [seq fmap list_fmap]. rewrite <- fmap_S_seq, <- list_fmap_compose, IndicesToKey_cons.
  destruct (key_parts key (replicate rank 0) Hb) as (Hi & Ek & Hb2 & Hl2);
    [rewrite length_replicate; exact Hl|]. rewrite length_replicate in Hl2.
  unfold load_index at 1. rewrite drop_0. unfold u32. rewrite Z.mod_small by exact Hi.
  rewrite Ek at 3. f_equal. rewrite <- (IH _ Hb2 Hl2). f_equal.
  apply list_fmap_ext. intros k x _. unfold compose, load_index. rewrite drop_drop. reflexivity.
Qed.

(** The id of indices in C order. *)
Definition contiguous_offset (ix shape : list Z) : Z := foldl (fun id p => id * p.2 + p.1) 0 (zip ix shape).

Lemma key_to_entry_id_indices ix shape : forall e,
  Forall2 (fun i n => 0 <= i < n) ix shape -> positive shape ->
  0 <= e -> (e + 1) * product shape <= u32_modulus ->
  key_to_entry_id e (zip ix shape) = Some (foldl (fun id p => id * p.2 + p.1) e (zip ix shape)).
Proof.
  intros e Hf. revert e. induction Hf as [|i n ix shape Hi Hf IH]; intros e Hp He Hm; [reflexivity|].
  inversion Hp as [|? ? Hn Hs]; subst. pose proof (product_pos shape Hs). rewrite product_cons in Hm.
  cbn [zip zip_with key_to_entry_id foldl fst snd]. rewrite (proj2 (Z.leb_gt n i)) by lia.
  assert (Eu : u32 (u32 (e * n) + i) = e * n + i).
  { unfold u32. rewrite Zplus_mod_idemp_l. apply Z.mod_small. nia. }
  rewrite Eu. apply IH; [exact Hs|nia|nia].
Qed.

(** * Theorems *)

(** Entry ids and the keys of entries determine each other, and so do indices and keys;
    the id of a key is the position of its indices in C order, and keys are ordered like
    ids. *)
Theorem entry_keys_correct shape :
  grid_ok shape ->
  (forall id, 0 <= id < ProductOfExtents shape -> KeyToEntryId (EntryIdToKey id shape) shape = Some id) /\
  (forall key id, byte_string key -> KeyToEntryId key shape = Some id ->
     0 <= id < ProductOfExtents shape /\ EntryIdToKey id shape = key) /\
  (forall ix, Forall2 (fun i n => 0 <= i < n) ix shape ->
     KeyToIndices (IndicesToKey ix) (length shape) = Some ix /\
     KeyToEntryId (IndicesToKey ix) shape = Some (contiguous_offset ix shape)) /\
  (forall key rank ix, byte_string key -> KeyToIndices key rank = Some ix -> IndicesToKey ix = key) /\
  (forall a b, 0 <= a < ProductOfExtents shape -> 0 <= b < ProductOfExtents shape ->
     a < b <-> bytes_lt (EntryIdToKey a shape) (EntryIdToKey b shape)).
Proof.
  intros Hg. destruct (grid_ok_spec shape Hg) as (Hp & Hm & ->). pose proof (product_pos shape Hp).
  split; [|split; [|split; [|split]]].
  - intros id Hid. rewrite EntryIdToKey_eq by assumption.
    apply KeyToEntryId_spec; auto. apply entry_key_byte.
  - intros key id Hb E. apply KeyToEntryId_spec in E as [Hid ->]; auto.
    split; [exact Hid|]. apply EntryIdToKey_eq; assumption.
  - intros ix Hix. pose proof (Forall2_length _ _ _ Hix) as Hl.
    assert (Hu : Forall (fun i => 0 <= i < u32_modulus) ix).
    { destruct Hg as [Hg _]. clear -Hix Hp Hm. induction Hix as [|i n ix shape Hi Hix IH]; [constructor|].
      inversion Hp as [|? ? Hn Hs]; subst. pose proof (product_pos shape Hs). rewrite product_cons in Hm.
      constructor; [unfold u32_modulus, kMaxNumEntries in *; nia|]. apply IH; [exact Hs|nia]. }
    unfold KeyToIndices, KeyToEntryId. rewrite length_IndicesToKey, Hl, Nat.eqb_refl. cbn [negb].
    rewrite <- Hl at 1 2. rewrite load_IndicesToKey by exact Hu. split; [reflexivity|].
    apply key_to_entry_id_indices; [exact Hix|exact Hp|lia|unfold u32_modulus, kMaxNumEntries in *; lia].
  - intros key rank ix Hb. unfold KeyToIndices.
    destruct (Nat.eqb_spec (length key) (rank * 4)); [cbn [negb]|discriminate].
    intros [= <-]. apply IndicesToKey_load; assumption.
  - intros a b Ha Hb. rewrite !EntryIdToKey_eq by assumption.
    split; [apply entry_key_lt; assumption|]. intros Hlt.
    destruct (Z.lt_trichotomy a b) as [|[-> |Hgt]]; [assumption|destruct (bytes_lt_irrefl _ Hlt)|].
    destruct (bytes_lt_irrefl (entry_key shape a)). eapply bytes_lt_trans; [exact Hlt|].
    apply entry_key_lt; assumption.
Qed.

Lemma grid_ok_example : grid_ok [2; 3].
Proof. split; [repeat constructor; unfold i64_max; lia|vm_compute; reflexivity]. Defined.

Lemma entry_keys_correct_witness :
  EntryIdToKey 5 [2; 3] = [0; 0; 0; 1; 0; 0; 0; 2] /\
  (forall id, 0 <= id < ProductOfExtents [2; 3] ->
     KeyToEntryId (EntryIdToKey id [2; 3]) [2; 3] = Some id).
Proof.
  split; [vm_compute; reflexivity|]. exact (proj1 (entry_keys_correct [2; 3] grid_ok_example)).
Defined.

Lemma InternalKeyLowerBound_spec key num : byte_string key -> 0 <= num <= kMaxNumEntries ->
  0 <= InternalKeyLowerBoundToEntryId key num <= num /\
  forall id, 0 <= id < num ->
    id < InternalKeyLowerBoundToEntryId key num <-> bytes_lt (EntryIdToInternalKey id) key.
Proof.
  intros Hb Hn. unfold InternalKeyLowerBoundToEntryId, EntryIdToInternalKey.
  set (padded := take 4 key ++ _).
  assert (Hpb : byte_string padded).
  { apply Forall_app. split; [apply Forall_take, Hb|]. apply Forall_replicate. unfold is_byte. lia. }
  assert (Hpl : length padded = 4%nat)
    by (unfold padded; rewrite length_app, length_take, length_replicate; lia).
  pose proof (Load32_range padded Hpb Hpl) as Hv. pose proof (Store32_Load32 padded Hpb Hpl) as Ev.
  set (v := big_endian.Load32 padded) in *.
  assert (Enum : u32 num = num) by (apply Z.mod_small; unfold u32_modulus, kMaxNumEntries in *; lia).
  rewrite Enum.
  assert (Hlt : forall id, 0 <= id < num -> id < v <-> bytes_lt (big_endian.Store32 id) padded).
  { intros id Hid. rewrite <- Ev, <- (app_nil_r (big_endian.Store32 id)), <- (app_nil_r (big_endian.Store32 v)).
    rewrite bytes_lt_Store32 by (unfold u32_modulus, kMaxNumEntries in *; lia).
    pose proof (bytes_lt_irrefl []). tauto. }
  destruct (Nat.ltb_spec 4 (length key)) as [Hlong|Hshort]; cbn [andb].
  - assert (Ep : padded = take 4 key).
    { unfold padded. replace (4 - length key)%nat with 0%nat by lia. apply app_nil_r. }
    assert (Hspec : forall id, 0 <= id < num -> bytes_lt (big_endian.Store32 id) key <-> id < v \/ id = v).
    { intros id Hid. rewrite <- (take_drop 4 key), <- Ep, bytes_lt_longer.
      - rewrite <- Hlt by exact Hid. split; (intros [?|E]; [auto|right]); [|congruence].
        rewrite <- Ev in E. apply (f_equal big_endian.Load32) in E.
        rewrite <- (app_nil_r (big_endian.Store32 id)), <- (app_nil_r (big_endian.Store32 v)) in E.
        rewrite !Load32_Store32 in E by (unfold u32_modulus, kMaxNumEntries in *; lia). exact E.
      - rewrite length_Store32, Hpl. reflexivity.
      - intros En. apply (f_equal length) in En. rewrite length_drop in En. cbn in En. lia. }
    destruct (Z.ltb_spec num v); [rewrite Z.ltb_irrefl; split; [lia|intros id Hid; rewrite Hspec by exact Hid; lia]|].
    destruct (Z.ltb_spec v num).
    + unfold u32. rewrite Z.mod_small by (unfold u32_modulus, kMaxNumEntries in *; lia).
      split; [lia|]. intros id Hid. rewrite Hspec by exact Hid. lia.
    + split; [lia|]. intros id Hid. rewrite Hspec by exact Hid. lia.
  - assert (Hspec : forall id, 0 <= id < num -> id < v <-> bytes_lt (big_endian.Store32 id) key).
    { intros id Hid. rewrite Hlt by exact Hid. unfold padded. rewrite take_ge by lia.
      apply bytes_lt_padded; [rewrite Store32_rev; apply byte_string_rev, le_bytes_byte|].
      rewrite length_Store32. lia. }
    destruct (Z.ltb_spec num v).
    + split; [lia|]. intros id Hid. rewrite <- Hspec by exact Hid. lia.
    + split; [lia|exact Hspec].
Qed.

(** What a key between two bounds means for the id, where the bounds are exact. *)
Lemma contains_between (range : KeyRange) key lower upper id :
  (id < lower <-> bytes_lt key (inclusive_min range)) ->
  (exclusive_max range = [] -> id < upper) ->
  (exclusive_max range <> [] -> id < upper <-> bytes_lt key (exclusive_max range)) ->
  Contains range key = true <-> lower <= id < upper.
Proof.
  intros Hl Hn Hu. rewrite KeyRange_Contains_spec. unfold below.
  pose proof (bytes_not_lt key (inclusive_min range)) as Hle.
  destruct (decide (exclusive_max range = [])) as [E|E].
  - specialize (Hn E). split; [intros [H _]; split; [|exact Hn]|intros H; split; [|auto]].
    + apply Z.le_ngt. tauto.
    + apply Hle. rewrite <- Hl. lia.
  - specialize (Hu E). split.
    + intros [H1 [H2|H2]]; [congruence|]. split; [apply Z.le_ngt; tauto|tauto].
    + intros [H1 H2]. split; [apply Hle; rewrite <- Hl; lia|right; tauto].
Qed.

(** C32: the entries whose keys are in a key range are those between the two entry ids that
    it is converted to, for keys of entries and for internal keys, as long as no bound is
    longer than the keys of entries with an index out of range. *)
Theorem KeyRangeToEntryRange_correct shape range :
  grid_ok shape -> bound_ok (inclusive_min range) shape -> bound_ok (exclusive_max range) shape ->
  (forall id, 0 <= id < ProductOfExtents shape ->
     let '(lower, upper) := KeyRangeToEntryRange (inclusive_min range) (exclusive_max range) shape in
     (Contains range (EntryIdToKey id shape) = true <-> lower <= id < upper) /\
     Contains (KeyRangeToInternalKeyRange range shape) (EntryIdToInternalKey id) =
       Contains range (EntryIdToKey id shape)) /\
  (forall num id, 0 <= id < num -> num <= kMaxNumEntries ->
     let '(lower, upper) := InternalKeyRangeToEntryRange (inclusive_min range) (exclusive_max range) num in
     Contains range (EntryIdToInternalKey id) = true <-> lower <= id < upper).
Proof.
  intros Hg Hmin Hmax. destruct (grid_ok_spec shape Hg) as (Hp & Hm & EP). rewrite EP.
  pose proof (product_pos shape Hp) as HP. split.
  - intros id Hid. unfold KeyRangeToInternalKeyRange. rewrite EntryIdToKey_eq by assumption.
    destruct (KeyRangeToEntryRange _ _ _) as [lower upper] eqn:E.
    unfold KeyRangeToEntryRange in E. rewrite EP in E. injection E as El Eu.
    destruct (LowerBound_spec shape _ Hp Hm Hmin) as [Rl Sl]. rewrite El in Rl, Sl.
    assert (Hu : 0 <= upper <= product shape /\
      (exclusive_max range = [] -> id < upper) /\
      (exclusive_max range <> [] -> id < upper <-> bytes_lt (entry_key shape id) (exclusive_max range))).
    { destruct (exclusive_max range) as [|b max] eqn:Em.
      - unfold u32 in Eu. rewrite Z.mod_small in Eu by (unfold u32_modulus, kMaxNumEntries in *; lia).
        split; [lia|]. split; [lia|congruence].
      - destruct (LowerBound_spec shape _ Hp Hm Hmax) as [Ru Su]. rewrite Eu in Ru, Su.
        split; [exact Ru|]. split; [discriminate|]. intros _. apply Su, Hid. }
    destruct Hu as (Ru & Hn & Su).
    assert (Hc : Contains range (entry_key shape id) = true <-> lower <= id < upper)
      by (apply contains_between; [apply Sl, Hid|exact Hn|exact Su]).
    split; [exact Hc|]. apply bool_eq_iff. rewrite Hc.
    assert (Hi : forall v, 0 <= v <= product shape ->
      id < v <-> bytes_lt (EntryIdToInternalKey id) (EntryIdToInternalKey v)).
    { intros v Hv. unfold EntryIdToInternalKey.
      rewrite <- (app_nil_r (big_endian.Store32 id)), <- (app_nil_r (big_endian.Store32 v)).
      rewrite bytes_lt_Store32 by (unfold u32_modulus, kMaxNumEntries in *; lia).
      pose proof (bytes_lt_irrefl []). tauto. }
    apply contains_between; cbn [inclusive_min exclusive_max]; [apply Hi, Rl| |intros _; apply Hi, Ru].
    intros En. apply (f_equal length) in En. unfold EntryIdToInternalKey in En.
    rewrite length_Store32 in En. discriminate.
  - intros num id Hid Hn. cbn [InternalKeyRangeToEntryRange]. unfold InternalKeyRangeToEntryRange.
    destruct Hmin as [Hbmin _]. destruct Hmax as [Hbmax _].
    apply contains_between.
    + apply InternalKeyLowerBound_spec; [exact Hbmin|lia|exact Hid].
    + intros ->. unfold u32. rewrite Z.mod_small by (unfold u32_modulus, kMaxNumEntries in *; lia). lia.
    + intros Hne. destruct (exclusive_max range) as [|b max]; [congruence|].
      apply InternalKeyLowerBound_spec; [exact Hbmax|lia|exact Hid].
Qed.

Lemma KeyRangeToEntryRange_correct_witness :
  let range := MkKeyRange [0; 0; 0; 0; 0; 0; 0; 2] [0; 0; 0; 1; 0; 0; 0; 1; 0] in
  KeyRangeToEntryRange (inclusive_min range) (exclusive_max range) [2; 3] = (2, 5) /\
  forall id, 0 <= id < ProductOfExtents [2; 3] ->
    Contains range (EntryIdToKey id [2; 3]) = true <-> 2 <= id < 5.
Proof.
  cbv zeta. split; [vm_compute; reflexivity|]. intros id Hid.
  apply (KeyRangeToEntryRange_correct [2; 3]
    (MkKeyRange [0; 0; 0; 0; 0; 0; 0; 2] [0; 0; 0; 1; 0; 0; 0; 1; 0])); [exact grid_ok_example| | |exact Hid].
  - split; [apply byte_stringb_spec; vm_compute; reflexivity|left; cbn; lia].
  - split; [apply byte_stringb_spec; vm_compute; reflexivity|right; vm_compute; discriminate].
Defined.

(** The lower bound of a key that is longer than the keys of entries and has an index out of
    range misses an entry: entry 3 of the shape [2 x 3] has the first key after the bound,
    but the bound is 4. *)
Lemma LowerBoundToEntryId_skips :
  let key := IndicesToKey [0; 5] ++ [0] in
  LowerBoundToEntryId key [2; 3] = 4 /\ bytes_lt key (EntryIdToKey 3 [2; 3]).
Proof. vm_compute. auto. Qed.
