(* ===== verification/ShardIndexed.v ===== *)
(** The shards of the zarr3 sharding_indexed format:
    [kvstore/zarr3_sharding_indexed/shard_format.{h,cc}]. *)

From S2P Require Import Prelude Int64 Bytes ByteRange KeyRange ShardKeys.

(** * Definitions *)

Inductive ShardIndexLocation := kStart | kEnd.

Definition u64_max : Z := u64_modulus - 1.

Module ShardIndexEntry.
Record t := Make { offset : Z; length : Z }.

Definition Missing : t := Make u64_max u64_max.

Definition IsMissing (e : t) : bool := (offset e =? u64_max) && (length e =? u64_max).

Definition AsByteRange (e : t) : ByteRange.t :=
  ByteRange.Make (wrap64 (offset e)) (wrap64 (u64 (offset e + length e))).

(** [AddOverflow] on [uint64_t]. *)
Definition AddOverflow (a b : Z) : bool * Z := (u64_modulus <=? a + b, u64 (a + b)).

Definition Validate (e : t) : Result unit :=
  if negb (IsMissing e) then
    let '(overflow, exclusive_max) := AddOverflow (offset e) (length e) in
    if overflow || (i64_max <? exclusive_max) then Err kDataLoss else Ok tt
  else Ok tt.

(** The overload that knows the size of the shard. *)
Definition ValidateSize (e : t) (total_size : Z) : Result unit :=
  _ ← Validate e;
  let byte_range := AsByteRange e in
  if total_size <? ByteRange.exclusive_max byte_range then Err kDataLoss else Ok tt.
End ShardIndexEntry.

(** The prepared state of a chain of codecs, for arrays of 64-bit integers in C order. *)
Record PreparedState := Prepared {
  encoded_size : Z;
  EncodeArray : list Z -> Result bytes;
  DecodeArray : list Z -> bytes -> Result (list Z);
}.

(** A chain of codecs prepares a state for a shape. *)
Definition CodecChain : Type := list Z -> Result PreparedState.

Record ShardIndexParameters := Parameters {
  index_location : ShardIndexLocation;
  num_entries : Z;
  index_shape : list Z;
  index_codec_state : PreparedState;
}.

(** The members [num_entries] and [index_shape]. *)
Definition InitializeIndexShape (grid_shape : list Z) : Result (Z * list Z) :=
  _ ← ValidateGridShape grid_shape;
  Ok (ProductOfExtents grid_shape, grid_shape ++ [2]).

Definition Initialize (location : ShardIndexLocation) (codec_chain : CodecChain) (grid_shape : list Z) :
    Result ShardIndexParameters :=
  '(num_entries, index_shape) ← InitializeIndexShape grid_shape;
  index_codec_state ← codec_chain index_shape;
  if encoded_size index_codec_state =? -1 then Err kInvalidArgument
  else Ok (Parameters location num_entries index_shape index_codec_state).

(** The entries of a decoded index, in C order. *)
Abbreviation ShardIndex := (list Z).

Definition get_entry (index : ShardIndex) (i : Z) : Result ShardIndexEntry.t :=
  match index !! Z.to_nat (i * 2), index !! Z.to_nat (i * 2 + 1) with
  | Some offset, Some length => Ok (ShardIndexEntry.Make offset length)
  | _, _ => Err OutOfBounds
  end.

Definition DecodeShardIndex (input : bytes) (parameters : ShardIndexParameters) : Result ShardIndex :=
  DecodeArray (index_codec_state parameters) (index_shape parameters) input.

Definition DecodeShardIndexFromFullShard (shard_data : bytes) (parameters : ShardIndexParameters) :
    Result ShardIndex :=
  let shard_index_size := encoded_size (index_codec_state parameters) in
  let size := Z.of_nat (length shard_data) in
  if size <? shard_index_size then Err kDataLoss
  else
    let encoded_shard_index :=
      match index_location parameters with
      | kStart => Subcord shard_data 0 shard_index_size
      | kEnd => Subcord shard_data (size - shard_index_size) shard_index_size
      end in
    DecodeShardIndex encoded_shard_index parameters.

Definition EncodeShardIndex (shard_index : ShardIndex) (parameters : ShardIndexParameters) : Result bytes :=
  EncodeArray (index_codec_state parameters) shard_index.

Definition ShardEntry := option bytes.

(** One iteration of the loop of [DecodeShard]. *)
Definition decode_entry (shard_data : bytes) (shard_index : ShardIndex) (entries : list ShardEntry) (i : Z) :
    Result (list ShardEntry) :=
  entry_index ← get_entry shard_index i;
  if ShardIndexEntry.IsMissing entry_index then Ok entries
  else
    _ ← ShardIndexEntry.ValidateSize entry_index (Z.of_nat (length shard_data));
    Ok (<[Z.to_nat i := Some (GetSubCord shard_data (ShardIndexEntry.AsByteRange entry_index))]> entries).

Definition DecodeShard (shard_data : bytes) (parameters : ShardIndexParameters) :
    Result (list ShardEntry) :=
  let entries := replicate (Z.to_nat (num_entries parameters)) None in
  shard_index ← DecodeShardIndexFromFullShard shard_data parameters;
  foldM (decode_entry shard_data shard_index) entries (seqZ 0 (num_entries parameters)).

(** The state of the loop of [EncodeShard]: the position in the entries, the offset, the data
    that is written, the index array, and whether there was an entry. *)
Record EncodeState := Encoding {
  enc_i : nat;
  enc_offset : Z;
  enc_data : bytes;
  enc_index : ShardIndex;
  enc_has_entry : bool;
}.

Definition encode_entry (st : EncodeState) (entry : ShardEntry) : Result EncodeState :=
  let '(entry_offset, length, offset, data, has_entry) :=
    match entry with
    | Some value =>
        let length := Z.of_nat (length value) in
        (enc_offset st, length, u64 (enc_offset st + length), enc_data st ++ value, true)
    | None => (u64_max, u64_max, enc_offset st, enc_data st, enc_has_entry st)
    end in
  if (enc_i st * 2 + 1 <? List.length (enc_index st))%nat then
    Ok (Encoding (S (enc_i st)) offset data
          (<[(enc_i st * 2 + 1)%nat := length]> (<[(enc_i st * 2)%nat := entry_offset]> (enc_index st)))
          has_entry)
  else Err OutOfBounds.

(** [uninitialized] is the contents of the index array when it is allocated. *)
Definition EncodeShard (uninitialized : ShardIndex) (entries : list ShardEntry)
    (parameters : ShardIndexParameters) : Result (option bytes) :=
  let shard_index_size := encoded_size (index_codec_state parameters) in
  let offset := match index_location parameters with kStart => u64 shard_index_size | kEnd => 0 end in
  st ← foldM encode_entry (Encoding 0 offset [] uninitialized false) entries;
  if negb (enc_has_entry st) then Ok None
  else
    encoded_shard_index ← EncodeShardIndex (enc_index st) parameters;
    match index_location parameters with
    | kStart => Ok (Some (encoded_shard_index ++ enc_data st))
    | kEnd => Ok (Some (enc_data st ++ encoded_shard_index))
    end.

(** What the code relies on from the codecs of an index: a fixed encoded size, arrays of the
    size of the shape, and the inverse law. *)
Record codec_laws (p : ShardIndexParameters) : Prop := {
  codec_size : 0 <= encoded_size (index_codec_state p);
  codec_encode index b : length index = Z.to_nat (num_entries p * 2) -> Forall in_u64 index ->
    EncodeArray (index_codec_state p) index = Ok b ->
    Z.of_nat (length b) = encoded_size (index_codec_state p) /\
    DecodeArray (index_codec_state p) (index_shape p) b = Ok index;
  codec_decode b index : DecodeArray (index_codec_state p) (index_shape p) b = Ok index ->
    length index = Z.to_nat (num_entries p * 2) /\ Forall in_u64 index;
}.

(** * The words of an index *)

Fixpoint index_words (offset : Z) (entries : list ShardEntry) : ShardIndex :=
  match entries with
  | [] => []
  | Some value :: entries =>
      let n := Z.of_nat (length value) in
      offset :: n :: index_words (u64 (offset + n)) entries
  | None :: entries => u64_max :: u64_max :: index_words offset entries
  end.

Definition data_of (entries : list ShardEntry) : bytes := mjoin (default [] <$> entries).

Definition is_present (e : ShardEntry) : bool := match e with Some _ => true | None => false end.

Lemma data_of_cons e entries : data_of (e :: entries) = default [] e ++ data_of entries.
Proof. reflexivity. Qed.

Lemma data_of_app l1 l2 : data_of (l1 ++ l2) = data_of l1 ++ data_of l2.
Proof. unfold data_of. rewrite fmap_app, join_app. reflexivity. Qed.

Lemma length_index_words entries : forall offset, length (index_words offset entries) = (length entries * 2)%nat.
Proof.
  induction entries as [|[value|] entries IH]; intros offset; cbn [index_words length];
    rewrite ?IH; lia.
Qed.

(** The pair that an iteration stores. *)
Lemma insert_pair {A} (pre : list A) x y a b rest :
  <[(length pre + 1)%nat := b]> (<[length pre := a]> (pre ++ x :: y :: rest)) = (pre ++ [a; b]) ++ rest.
Proof.
  rewrite insert_app_r_alt, Nat.sub_diag by lia. cbn [list_insert insert].
  rewrite insert_app_r_alt by lia. replace (length pre + 1 - length pre)%nat with 1%nat by lia.
  rewrite <- app_assoc. reflexivity.
Qed.

Lemma encode_entries entries : forall pre rest offset data has,
  length rest = (length entries * 2)%nat -> Nat.Even (length pre) ->
  exists st, foldM encode_entry
      (Encoding (Nat.div2 (length pre)) offset data (pre ++ rest) has) entries = Ok st /\
    enc_data st = data ++ data_of entries /\
    enc_index st = pre ++ index_words offset entries /\
    enc_has_entry st = has || existsb is_present entries.
Proof.
  induction entries as [|e entries IH]; intros pre rest offset data has Hl Hev.
  - destruct rest; [|discriminate]. eexists. split; [reflexivity|]. cbn.
    rewrite app_nil_r, orb_false_r. auto.
  - destruct rest as [|x [|y rest]]; [discriminate|cbn in Hl; lia|].
    assert (E2 : (Nat.div2 (length pre) * 2)%nat = length pre)
      by (apply Nat.Even_double in Hev; unfold Nat.double in Hev; lia).
    assert (Hstep : forall a b off d h, exists st, foldM encode_entry
        (Encoding (S (Nat.div2 (length pre))) off d ((pre ++ [a; b]) ++ rest) h) entries = Ok st /\
        enc_data st = d ++ data_of entries /\
        enc_index st = (pre ++ [a; b]) ++ index_words off entries /\
        enc_has_entry st = h || existsb is_present entries).
    { intros a b off d h.
      replace (S (Nat.div2 (length pre))) with (Nat.div2 (length (pre ++ [a; b])))
        by (rewrite length_app; cbn [length]; rewrite Nat.add_comm; reflexivity).
      apply IH; [cbn in Hl; lia|]. rewrite length_app. destruct Hev as [k Hk]. exists (S k). cbn. lia. }
    assert (Hlt : (length pre + 1 <? length (pre ++ x :: y :: rest))%nat = true)
      by (apply Nat.ltb_lt; rewrite length_app; cbn [length]; lia).
    cbn [foldM]. destruct e as [value|].
    + assert (E1 : encode_entry (Encoding (Nat.div2 (length pre)) offset data (pre ++ x :: y :: rest) has)
          (Some value) =
        Ok (Encoding (S (Nat.div2 (length pre))) (u64 (offset + Z.of_nat (length value))) (data ++ value)
              ((pre ++ [offset; Z.of_nat (length value)]) ++ rest) true)).
      { unfold encode_entry. cbn [enc_i enc_offset enc_data enc_index enc_has_entry].
        rewrite E2, Hlt, insert_pair. reflexivity. }
      rewrite E1. unfold mbind, Result_bind.
      destruct (Hstep offset (Z.of_nat (length value)) (u64 (offset + Z.of_nat (length value)))
                  (data ++ value) true) as (st & E & Ed & Ei & Eh).
      exists st. split; [exact E|]. rewrite Ed, Ei, Eh, data_of_cons, <- !app_assoc.
      cbn [default from_option existsb is_present orb]. rewrite orb_true_r. auto.
    + assert (E1 : encode_entry (Encoding (Nat.div2 (length pre)) offset data (pre ++ x :: y :: rest) has)
          None =
        Ok (Encoding (S (Nat.div2 (length pre))) offset data ((pre ++ [u64_max; u64_max]) ++ rest) has)).
      { unfold encode_entry. cbn [enc_i enc_offset enc_data enc_index enc_has_entry].
        rewrite E2, Hlt, insert_pair. reflexivity. }
      rewrite E1. unfold mbind, Result_bind.
      destruct (Hstep u64_max u64_max offset data has) as (st & E & Ed & Ei & Eh).
      exists st. split; [exact E|]. rewrite Ed, Ei, Eh, data_of_cons, <- !app_assoc. auto.
Qed.

(** * What the entries of an index mean *)

Lemma index_words_u64 entries : forall offset, in_u64 offset ->
  (forall v, Some v ∈ entries -> in_u64 (Z.of_nat (length v))) ->
  Forall in_u64 (index_words offset entries).
Proof.
  assert (Hmax : in_u64 u64_max) by (unfold in_u64, u64_max, u64_modulus; lia).
  induction entries as [|[v|] entries IH]; intros offset Ho Hv; cbn [index_words]; constructor.
  - exact Ho.
  - constructor; [apply Hv; constructor|]. apply IH; [apply Z.mod_pos_bound; reflexivity|].
    intros v' Hv'. apply Hv. constructor. exact Hv'.
  - exact Hmax.
  - constructor; [exact Hmax|]. apply IH; [exact Ho|]. intros v' Hv'. apply Hv. constructor. exact Hv'.
Qed.

(** The pair of an entry. *)
Lemma index_words_lookup entries : forall offset k e,
  0 <= offset -> offset + Z.of_nat (length (data_of entries)) < u64_modulus ->
  entries !! k = Some e ->
  let pre := data_of (take k entries) in
  index_words offset entries !! (k * 2)%nat =
    Some (match e with Some _ => offset + Z.of_nat (length pre) | None => u64_max end) /\
  index_words offset entries !! (k * 2 + 1)%nat =
    Some (match e with Some v => Z.of_nat (length v) | None => u64_max end).
Proof.
  induction entries as [|e0 entries IH]; intros offset k e Ho Hb Hk; [discriminate|]. cbv zeta.
  rewrite data_of_cons, length_app in Hb.
  destruct k as [|k].
  - cbn in Hk. injection Hk as ->. cbn [take data_of]. destruct e; cbn; rewrite ?Z.add_0_r; auto.
  - cbn [take]. rewrite data_of_cons, length_app. cbn [lookup list_lookup] in Hk.
    destruct e0 as [v|]; cbn [default from_option id length] in *.
    + assert (Eu : u64 (offset + Z.of_nat (length v)) = offset + Z.of_nat (length v))
        by (apply Z.mod_small; lia).
      destruct (IH (offset + Z.of_nat (length v)) k e ltac:(lia) ltac:(lia) Hk) as [H1 H2].
      cbn [index_words]. rewrite Eu.
      change (S k * 2)%nat with (S (S (k * 2))). change (S (S (k * 2)) + 1)%nat with (S (S (k * 2 + 1))).
      change ((?a :: ?b :: ?l) !! S (S ?n)) with (l !! n).
      rewrite H1, H2. split; [|reflexivity]. destruct e; [|reflexivity]. f_equal. lia.
    + destruct (IH offset k e Ho ltac:(lia) Hk) as [H1 H2].
      cbn [index_words].
      change (S k * 2)%nat with (S (S (k * 2))). change (S (S (k * 2)) + 1)%nat with (S (S (k * 2 + 1))).
      change ((?a :: ?b :: ?l) !! S (S ?n)) with (l !! n).
      rewrite H1, H2. auto.
Qed.

(** The validation is exact: it accepts an entry that is not missing when its range is within
    the shard, without wrapping around. *)
Lemma ValidateSize_spec offset n size : in_u64 offset -> in_u64 n -> 0 <= size <= i64_max ->
  ShardIndexEntry.IsMissing (ShardIndexEntry.Make offset n) = false ->
  ShardIndexEntry.ValidateSize (ShardIndexEntry.Make offset n) size =
    if offset + n <=? size then Ok tt else Err kDataLoss.
Proof.
  intros Ho Hn Hs Hm. unfold ShardIndexEntry.ValidateSize, ShardIndexEntry.Validate. rewrite Hm.
  cbn [negb ShardIndexEntry.AddOverflow ShardIndexEntry.offset ShardIndexEntry.length].
  unfold ShardIndexEntry.AddOverflow, ShardIndexEntry.AsByteRange.
  cbn [ShardIndexEntry.offset ShardIndexEntry.length ByteRange.exclusive_max].
  unfold in_u64, i64_max, u64_modulus in *.
  destruct (Z.leb_spec 18446744073709551616 (offset + n)) as [Hw|Hw]; cbn [orb].
  - rewrite (proj2 (Z.leb_gt (offset + n) size)) by lia. reflexivity.
  - unfold u64. rewrite Z.mod_small by (unfold u64_modulus; lia).
    destruct (Z.ltb_spec 9223372036854775807 (offset + n)).
    + rewrite (proj2 (Z.leb_gt (offset + n) size)) by lia. reflexivity.
    + unfold mbind, Result_bind.
      rewrite wrap64_id by (unfold in_i64, i64_min, i64_max; lia).
      destruct (Z.ltb_spec size (offset + n)), (Z.leb_spec (offset + n) size); (reflexivity || lia).
Qed.

(** The bytes of an entry that is within the shard. *)
Lemma GetSubCord_entry shard offset n : in_u64 offset -> in_u64 n ->
  Z.of_nat (length shard) <= i64_max -> offset + n <= Z.of_nat (length shard) ->
  GetSubCord shard (ShardIndexEntry.AsByteRange (ShardIndexEntry.Make offset n)) =
  take (Z.to_nat n) (drop (Z.to_nat offset) shard).
Proof.
  intros Ho Hn Hs Hb. unfold in_u64 in *.
  destruct (split_range shard offset (offset + n)) as (pre & mid & post & E & Epre & Emid); [lia..|].
  rewrite length_app in Emid.
  unfold ShardIndexEntry.AsByteRange. cbn [ShardIndexEntry.offset ShardIndexEntry.length].
  unfold u64. rewrite Z.mod_small by (unfold u64_modulus, i64_max in *; lia).
  rewrite !wrap64_id by (unfold in_i64, i64_min, i64_max in *; lia).
  rewrite E at 1. rewrite GetSubCord_app; [|rewrite <- E; exact Hs|exact Epre|rewrite length_app; lia].
  rewrite E, drop_app_length' by lia. symmetry. apply take_app_length'. lia.
Qed.

(** The decoding of a pair of the index. *)
Lemma decode_entry_spec shard index entries i offset n : 0 <= i ->
  index !! Z.to_nat (i * 2) = Some offset -> index !! Z.to_nat (i * 2 + 1) = Some n ->
  in_u64 offset -> in_u64 n -> Z.of_nat (length shard) <= i64_max ->
  decode_entry shard index entries i =
    if ShardIndexEntry.IsMissing (ShardIndexEntry.Make offset n) then Ok entries
    else if offset + n <=? Z.of_nat (length shard)
    then Ok (<[Z.to_nat i := Some (take (Z.to_nat n) (drop (Z.to_nat offset) shard))]> entries)
    else Err kDataLoss.
Proof.
  intros Hi H1 H2 Ho Hn Hs. unfold decode_entry, get_entry. rewrite H1, H2.
  unfold mbind, Result_bind.
  destruct (ShardIndexEntry.IsMissing _) eqn:Hm; [reflexivity|].
  rewrite ValidateSize_spec by (assumption || lia).
  destruct (Z.leb_spec (offset + n) (Z.of_nat (length shard))); [|reflexivity].
  rewrite GetSubCord_entry by assumption. reflexivity.
Qed.

(** An array of optional entries that is filled in from the front. *)
Lemma insert_next {A} (l : list A) (k : nat) (x y : A) (n : nat) : l !! k = Some y ->
  <[k := y]> (take k l ++ replicate (S n) x) = take (S k) l ++ replicate n x.
Proof.
  intros Hk. assert (Hl : (k < length l)%nat) by (apply lookup_lt_Some with y, Hk).
  rewrite insert_app_r_alt by (rewrite length_take; lia).
  rewrite length_take, Nat.min_l, Nat.sub_diag by lia. cbn [replicate insert list_insert].
  rewrite (take_S_r l k y Hk), <- app_assoc. reflexivity.
Qed.

(** The loop of the decoder over the index of entries whose data is in the shard. *)
Lemma decode_entries header entries trailer :
  let d := header ++ data_of entries ++ trailer in
  Z.of_nat (length d) <= i64_max ->
  foldM (decode_entry d (index_words (Z.of_nat (length header)) entries))
    (replicate (length entries) None) (seqZ 0 (Z.of_nat (length entries))) = Ok entries.
Proof.
  intros d Hlen. set (base := Z.of_nat (length header)). set (index := index_words base entries).
  assert (Hd : base + Z.of_nat (length (data_of entries)) <= Z.of_nat (length d))
    by (unfold d, base; rewrite !length_app; lia).
  pose proof (foldM_seqZ (decode_entry d index)
    (fun k => take (Z.to_nat k) entries ++ replicate (length entries - Z.to_nat k) None) 0
    (Z.of_nat (length entries))) as Hf.
  cbv beta in Hf. rewrite Z.add_0_l, take_0, Nat.sub_0_r, Nat2Z.id, firstn_all, Nat.sub_diag,
    app_nil_r in Hf.
  apply Hf; [|lia]. clear Hf. intros k Hk.
  destruct (lookup_lt_is_Some_2 entries (Z.to_nat k)) as [e He]; [lia|].
  destruct (index_words_lookup entries base (Z.to_nat k) e) as [H1 H2];
    [lia|unfold u64_modulus, i64_max in *; lia|exact He|].
  fold index in H1, H2. replace (Z.to_nat k * 2)%nat with (Z.to_nat (k * 2)) in H1 by lia.
  replace (Z.to_nat k * 2 + 1)%nat with (Z.to_nat (k * 2 + 1)) in H2 by lia.
  replace (Z.to_nat (k + 1)) with (S (Z.to_nat k)) by lia.
  replace (length entries - Z.to_nat k)%nat with (S (length entries - S (Z.to_nat k))) by lia.
  set (pre := data_of (take (Z.to_nat k) entries)) in *.
  destruct e as [v|].
  - assert (Hpre : data_of entries = pre ++ v ++ data_of (drop (S (Z.to_nat k)) entries)).
    { rewrite <- (take_drop (Z.to_nat k) entries) at 1. rewrite data_of_app.
      rewrite (drop_S _ _ _ He), data_of_cons. reflexivity. }
    assert (Hle : Z.of_nat (length pre) + Z.of_nat (length v) <= Z.of_nat (length (data_of entries)))
      by (rewrite Hpre, !length_app; lia).
    rewrite (decode_entry_spec d _ _ k _ _ ltac:(lia) H1 H2);
      [|unfold in_u64, u64_modulus, i64_max in *; lia..|exact Hlen].
    unfold ShardIndexEntry.IsMissing. cbn [ShardIndexEntry.offset ShardIndexEntry.length].
    rewrite (proj2 (Z.eqb_neq _ u64_max)) by (unfold u64_max, u64_modulus, i64_max in *; lia).
    cbn [andb]. rewrite (proj2 (Z.leb_le _ _)) by lia.
    assert (Esub : take (Z.to_nat (Z.of_nat (length v)))
                     (drop (Z.to_nat (base + Z.of_nat (length pre))) d) = v).
    { unfold d. rewrite Hpre, <- !app_assoc, app_assoc, drop_app_length' by (rewrite length_app; lia).
      apply take_app_length'. lia. }
    rewrite Esub. f_equal. apply (insert_next entries _ None (Some v)). exact He.
  - rewrite (decode_entry_spec d _ _ k _ _ ltac:(lia) H1 H2);
      [|unfold in_u64, u64_max, u64_modulus in *; lia..|exact Hlen].
    unfold ShardIndexEntry.IsMissing. cbn [ShardIndexEntry.offset ShardIndexEntry.length].
    rewrite Z.eqb_refl. cbn [andb]. rewrite <- (insert_next entries _ None None _ He).
    rewrite list_insert_id; [reflexivity|]. rewrite lookup_app_r by (rewrite length_take; lia).
    rewrite length_take, Nat.min_l, Nat.sub_diag by lia. reflexivity.
Qed.

Lemma existsb_present entries :
  existsb is_present entries = false <-> forall e, e ∈ entries -> e = None.
Proof.
  rewrite <- not_true_iff_false, existsb_exists. split.
  - intros Hno e He. destruct e; [|reflexivity]. destruct Hno. eexists.
    split; [apply list_elem_of_In, He|reflexivity].
  - intros Hall (e & He%list_elem_of_In & Hp). rewrite (Hall e He) in Hp. discriminate.
Qed.

Lemma length_value entries v : Some v ∈ entries -> (length v <= length (data_of entries))%nat.
Proof.
  induction entries as [|e entries IH]; intros Hin; [destruct (not_elem_of_nil _ Hin)|].
  rewrite data_of_cons, length_app.
  apply elem_of_cons in Hin as [<-|Hin]; [cbn; lia|specialize (IH Hin); lia].
Qed.

(** The words of an entry of an index. *)
Definition entry_at (index : ShardIndex) (i : Z) (offset n : Z) : Prop :=
  index !! Z.to_nat (i * 2) = Some offset /\ index !! Z.to_nat (i * 2 + 1) = Some n.

(** What the entry of an index decodes to. *)
Definition decoded_entry (d : bytes) (offset n : Z) : ShardEntry :=
  if ShardIndexEntry.IsMissing (ShardIndexEntry.Make offset n) then None
  else Some (take (Z.to_nat n) (drop (Z.to_nat offset) d)).

Definition outside (d : bytes) (offset n : Z) : Prop :=
  ShardIndexEntry.IsMissing (ShardIndexEntry.Make offset n) = false /\ Z.of_nat (length d) < offset + n.

Lemma decode_loop d index num : 0 <= num -> length index = Z.to_nat (num * 2) -> Forall in_u64 index ->
  Z.of_nat (length d) <= i64_max ->
  forall k a entries, a + Z.of_nat k = num -> 0 <= a -> Z.of_nat (length entries) = num ->
  (forall i, a <= i < num -> entries !! Z.to_nat i = Some None) ->
  let r := foldM (decode_entry d index) entries (seqZ a (Z.of_nat k)) in
  ((exists i offset n, a <= i < num /\ entry_at index i offset n /\ outside d offset n) /\
   r = Err kDataLoss) \/
  exists result, r = Ok result /\ Z.of_nat (length result) = num /\
    (forall i, 0 <= i < a -> result !! Z.to_nat i = entries !! Z.to_nat i) /\
    forall i, a <= i < num -> exists offset n, entry_at index i offset n /\
      result !! Z.to_nat i = Some (decoded_entry d offset n) /\ ~ outside d offset n.
Proof.
  intros Hnum Hlen Hu Hd. induction k as [|k IH]; intros a entries Ha Ha0 Hle Hnone r.
  - right. exists entries. split; [reflexivity|]. split; [exact Hle|]. split; [auto|]. intros i Hi. lia.
  - unfold r. rewrite seqZ_cons by lia. cbn [foldM].
    destruct (lookup_lt_is_Some_2 index (Z.to_nat (a * 2))) as [offset H1]; [lia|].
    destruct (lookup_lt_is_Some_2 index (Z.to_nat (a * 2 + 1))) as [n H2]; [lia|].
    rewrite Forall_lookup in Hu.
    rewrite (decode_entry_spec d index entries a offset n Ha0 H1 H2 (Hu _ _ H1) (Hu _ _ H2) Hd).
    replace (Z.pred (Z.of_nat (S k))) with (Z.of_nat k) by lia.
    assert (Hnext : forall entries', Z.of_nat (length entries') = num ->
      (forall i, a < i < num -> entries' !! Z.to_nat i = Some None) ->
      (forall i, 0 <= i < a -> entries' !! Z.to_nat i = entries !! Z.to_nat i) ->
      entries' !! Z.to_nat a = Some (decoded_entry d offset n) -> ~ outside d offset n ->
      let r := foldM (decode_entry d index) entries' (seqZ (Z.succ a) (Z.of_nat k)) in
      ((exists i offset n, a <= i < num /\ entry_at index i offset n /\ outside d offset n) /\
       r = Err kDataLoss) \/
      exists result, r = Ok result /\ Z.of_nat (length result) = num /\
        (forall i, 0 <= i < a -> result !! Z.to_nat i = entries !! Z.to_nat i) /\
        forall i, a <= i < num -> exists offset n, entry_at index i offset n /\
          result !! Z.to_nat i = Some (decoded_entry d offset n) /\ ~ outside d offset n).
    { intros entries' Hl' Hn' Hlow Hat Hout. cbv zeta.
      destruct (IH (Z.succ a) entries' ltac:(lia) ltac:(lia) Hl' ltac:(intros; apply Hn'; lia))
        as [[(i & o & m & Hi & He & Hbad) E]|(result & E & Hlr & Hlow' & Hres)].
      - left. split; [|exact E]. exists i, o, m. split; [lia|auto].
      - right. exists result. split; [exact E|]. split; [exact Hlr|]. split.
        + intros i Hi. rewrite Hlow', Hlow by lia. reflexivity.
        + intros i Hi. destruct (decide (i = a)) as [->|]; [|apply Hres; lia].
          exists offset, n. split; [split; assumption|]. split; [rewrite Hlow' by lia; exact Hat|exact Hout]. }
    unfold decoded_entry, outside in Hnext.
    destruct (ShardIndexEntry.IsMissing _) eqn:Hm.
    + apply Hnext; [exact Hle|intros; apply Hnone; lia|reflexivity|apply Hnone; lia|intros [? _]; discriminate].
    + destruct (Z.leb_spec (offset + n) (Z.of_nat (length d))).
      * apply Hnext.
        -- rewrite length_insert. exact Hle.
        -- intros i Hi. rewrite list_lookup_insert_ne by lia. apply Hnone. lia.
        -- intros i Hi. apply list_lookup_insert_ne. lia.
        -- apply list_lookup_insert_eq. lia.
        -- lia.
      * left. split; [|reflexivity]. exists a, offset, n. split; [lia|].
        split; [split; assumption|]. split; [exact Hm|lia].
Qed.

(** * Theorems *)

(** C22: a shard that was encoded from as many entries as the grid has is decoded to the same
    entries, present or missing, with the index at the start or at the end; the shard is
    omitted exactly when all entries are missing. *)
Theorem DecodeShard_EncodeShard p uninitialized entries shard :
  codec_laws p -> Z.of_nat (length entries) = num_entries p ->
  length uninitialized = (length entries * 2)%nat ->
  EncodeShard uninitialized entries p = Ok shard ->
  (shard = None <-> forall e, e ∈ entries -> e = None) /\
  (forall d, shard = Some d -> Z.of_nat (length d) <= i64_max -> DecodeShard d p = Ok entries).
Proof.
  intros Hlaws Hn Hu E. unfold EncodeShard in E.
  set (size := encoded_size (index_codec_state p)) in *.
  set (base := match index_location p with kStart => u64 size | kEnd => 0 end) in *.
  destruct (encode_entries entries [] uninitialized base [] false Hu) as (st & Est & Ed & Ei & Eh);
    [exists 0%nat; reflexivity|].
  cbn [length Nat.div2 app orb] in *. rewrite Est in E. unfold mbind at 1, Result_bind at 1 in E.
  rewrite Eh in E. rewrite <- existsb_present.
  destruct (existsb is_present entries); cbn [negb] in E.
  2: { injection E as <-. split; [tauto|discriminate]. }
  apply bind_Ok in E as (b & Eb & E). rewrite Ed in E.
  assert (Hd : exists d, shard = Some d /\ d = match index_location p with
      | kStart => b ++ data_of entries ++ [] | kEnd => [] ++ data_of entries ++ b end).
  { rewrite app_nil_r. destruct (index_location p); injection E as <-; eauto. }
  destruct Hd as (d & -> & Hd). split; [split; discriminate|].
  intros d' [= <-] Hlen.
  assert (Hdata : Z.of_nat (length (data_of entries)) + Z.of_nat (length b) = Z.of_nat (length d)).
  { rewrite Hd. destruct (index_location p); rewrite !length_app; cbn [length]; lia. }
  destruct (codec_encode p Hlaws (enc_index st) b) as [Hbl Hdec].
  { rewrite Ei, length_index_words. lia. }
  { rewrite Ei. apply index_words_u64.
    - unfold base. destruct (index_location p); [apply Z.mod_pos_bound; reflexivity|
        unfold in_u64, u64_modulus; lia].
    - intros v Hin%length_value. unfold in_u64, u64_modulus, i64_max in *. lia. }
  { exact Eb. }
  fold size in Hbl.
  assert (Hindex : DecodeShardIndexFromFullShard d p = Ok (enc_index st)).
  { unfold DecodeShardIndexFromFullShard, DecodeShardIndex, Subcord. fold size.
    rewrite (proj2 (Z.ltb_ge _ _)) by lia. rewrite <- Hdec, Hd, <- Hbl.
    destruct (index_location p); f_equal.
    - rewrite drop_0. apply take_app_length'. lia.
    - cbn [app]. rewrite drop_app_length' by (rewrite length_app; lia). apply take_ge. lia. }
  unfold DecodeShard. rewrite Hindex. unfold mbind, Result_bind. rewrite <- Hn, Nat2Z.id, Ei, Hd.
  destruct (index_location p).
  - replace base with (Z.of_nat (length b)); [apply decode_entries; rewrite <- Hd; exact Hlen|].
    unfold base. rewrite Hbl. symmetry. apply Z.mod_small. unfold u64_modulus, i64_max in *. lia.
  - apply (decode_entries []). rewrite <- Hd. exact Hlen.
Qed.

(** C30: whatever the bytes of a shard are, its decoding never reads outside the shard: when it
    succeeds, the index was decoded and every entry is missing or holds exactly the bytes of
    its range, which is within the shard without wrap-around; an entry with any other range,
    and a shard that is shorter than its index, is reported as data loss. *)
Theorem DecodeShard_checked p d :
  codec_laws p -> 0 <= num_entries p -> Z.of_nat (length d) <= i64_max ->
  (Z.of_nat (length d) < encoded_size (index_codec_state p) -> DecodeShard d p = Err kDataLoss) /\
  (forall code, DecodeShardIndexFromFullShard d p = Err code -> DecodeShard d p = Err code) /\
  (forall index, DecodeShardIndexFromFullShard d p = Ok index ->
   ((exists i offset n, 0 <= i < num_entries p /\ entry_at index i offset n /\ outside d offset n) /\
    DecodeShard d p = Err kDataLoss) \/
   exists entries, DecodeShard d p = Ok entries /\ Z.of_nat (length entries) = num_entries p /\
     forall i, 0 <= i < num_entries p -> exists offset n, entry_at index i offset n /\
       entries !! Z.to_nat i = Some (decoded_entry d offset n) /\ ~ outside d offset n).
Proof.
  intros Hlaws Hn Hlen. unfold DecodeShard. split; [|split].
  - intros Hlt. unfold DecodeShardIndexFromFullShard. rewrite (proj2 (Z.ltb_lt _ _)) by exact Hlt.
    reflexivity.
  - intros code ->. reflexivity.
  - intros index Hi. rewrite Hi. unfold mbind, Result_bind.
    assert (Hidx : length index = Z.to_nat (num_entries p * 2) /\ Forall in_u64 index).
    { unfold DecodeShardIndexFromFullShard in Hi. destruct (_ <? _); [discriminate|].
      apply (codec_decode p Hlaws) in Hi. exact Hi. }
    destruct Hidx as [Hl Hu].
    pose proof (decode_loop d index (num_entries p) Hn Hl Hu Hlen (Z.to_nat (num_entries p)) 0
      (replicate (Z.to_nat (num_entries p)) None)) as Hloop.
    rewrite Z2Nat.id in Hloop by exact Hn. cbv zeta in Hloop.
    destruct Hloop as [Hbad|(entries & E & Hle & _ & Hres)].
    + lia.
    + lia.
    + rewrite length_replicate. lia.
    + intros i Hi'. apply lookup_replicate_2. lia.
    + left. exact Hbad.
    + right. exists entries. auto.
Qed.

(** Codecs that store the integers in little-endian order, with a fixed number of them. *)
Definition words_codec (n : nat) : PreparedState :=
  Prepared (Z.of_nat (n * 8))
    (fun index => if Nat.eqb (length index) n then Ok (Store64s index) else Err kInvalidArgument)
    (fun _ s => if Nat.eqb (length s) (n * 8) && byte_stringb s then Ok (Load64s n s) else Err kDataLoss).

Lemma words_codec_laws location n shape :
  codec_laws (Parameters location (Z.of_nat n) shape (words_codec (n * 2))).
Proof.
  split; cbn [index_codec_state words_codec encoded_size EncodeArray DecodeArray num_entries index_shape].
  - lia.
  - intros index b Hl Hu. assert (El : length index = (n * 2)%nat) by lia. rewrite El, Nat.eqb_refl.
    intros [= <-]. rewrite length_Store64s, El, Nat.eqb_refl.
    rewrite (proj2 (byte_stringb_spec _) (Store64s_byte index)). split; [reflexivity|].
    cbn [andb]. rewrite <- El, Load64s_Store64s by exact Hu. reflexivity.
  - intros b index. destruct (Nat.eqb (length b) _ && byte_stringb b) eqn:E; [|discriminate].
    apply andb_true_iff in E as [_ Hb%byte_stringb_spec]. intros [= <-].
    split; [|apply (Load64s_range _ b Hb)]. unfold Load64s. rewrite length_fmap, length_seq. lia.
Qed.

(** Three entries, of which one is missing and one is empty; the index is at the end. *)
Definition example_parameters : ShardIndexParameters := Parameters kEnd 3 [3; 2] (words_codec (3 * 2)).
Definition example_entries : list ShardEntry := [Some [1; 2]; None; Some []].
Definition example_shard : bytes :=
  match EncodeShard [0; 0; 0; 0; 0; 0] example_entries example_parameters with
  | Ok (Some shard) => shard
  | _ => []
  end.

Lemma DecodeShard_EncodeShard_witness :
  EncodeShard [0; 0; 0; 0; 0; 0] example_entries example_parameters = Ok (Some example_shard) /\
  length example_shard = 50%nat /\ DecodeShard example_shard example_parameters = Ok example_entries.
Proof.
  assert (E : EncodeShard [0; 0; 0; 0; 0; 0] example_entries example_parameters = Ok (Some example_shard))
    by (vm_compute; reflexivity).
  split; [exact E|]. split; [vm_compute; reflexivity|].
  apply (DecodeShard_EncodeShard example_parameters [0; 0; 0; 0; 0; 0] example_entries (Some example_shard)).
  - exact (words_codec_laws kEnd 3 [3; 2]).
  - reflexivity.
  - reflexivity.
  - exact E.
  - reflexivity.
  - apply Z.leb_le. vm_compute. reflexivity.
Defined.

Lemma DecodeShard_checked_witness :
  0 <= num_entries example_parameters /\ Z.of_nat (length [1; 2; 3]) <= i64_max /\
  DecodeShard [1; 2; 3] example_parameters = Err kDataLoss.
Proof.
  split; [vm_compute; discriminate|]. split; [vm_compute; discriminate|].
  apply (DecodeShard_checked example_parameters [1; 2; 3]);
    [exact (words_codec_laws kEnd 3 [3; 2])|vm_compute; discriminate..|vm_compute; reflexivity].
Defined.
